(* ===== verification/_CoqProject ===== *)
-Q . S2P
Prelude.v
Keys.v
Codec.v
Discard.v
Trie.v
Publisher.v
Watermark.v
Oracle.v
Bloom.v
Checksum.v
Encrypt.v
LogFile.v
KeyRegistry.v
Block.v
Manifest.v
Tables.v
TableFile.v
TableBuild.v
Wal.v
Iterators.v
LevelHandler.v
Skiplist.v
Transaction.v
Sequence.v
ValueLog.v
VlogRecords.v
WritePath.v
Compaction.v
Registry.v
Subcompact.v
Rewrite.v
Flush.v
Lookup.v
Gc.v
Iterator.v
Snapshot.v
MergeOp.v
Stream.v
WriteBatch.v
Backup.v
Findings.v
