(* ===== verification/Prelude.v ===== *)
(** * badgerx: a verification library for the badger key-value store

    The repository is a fork of badger, an embedded key-value store written in Go: a
    log-structured merge tree of versioned keys, a log for large values, and transactions with
    snapshot isolation and optional conflict detection.  This library models its core as Rocq
    definitions that run, and proves what the parts promise each other and their users.

    ** How the program works, and where each part is modelled

    A transaction takes a read timestamp from the oracle, reads the newest version at or below
    it, and keeps its writes to itself.  Commit asks the oracle for a commit timestamp, which
    refuses when a key read has been overwritten since, and sends the writes as one request.
    The writer puts large values into the value log and everything else, with an end marker,
    into the memtable and its write-ahead log.  Full memtables become tables of level 0;
    compactions merge tables downwards and drop versions nobody can read any more; the manifest
    records which tables exist.

    - [Prelude]: machine words ([wrap], [signed]), slices of bytes, the error monad [result],
      binary search ([sort_Search]), insertion in a sorted list, tactics and hints.
    - [Keys] (y/y.go): integers to bytes, versioned keys and their order.
    - [Codec] (y/iterator.go, structs.go, value.go): varints, [ValueStruct], log headers,
      value pointers, [Entry].
    - [Watermark] (y/watermark.go): the goroutine that computes [DoneUntil] from begin and done
      marks.
    - [Oracle] (txn.go): timestamps, conflict detection, and the system of concurrent
      transactions and watermark goroutines as a step relation.
    - [Bloom] (y/bloom.go), [Checksum] (y/checksum.go), [Encrypt] (y/encrypt.go).
    - [LogFile] (memtable.go, value.go, structs.go): entries in a log file, replay.
    - [Wal] (memtable.go): a memtable with its write-ahead log, and its recovery.
    - [Block], [TableFile], [TableBuild] (table/): a block, a table file, and the proof that
      building and opening give back what was added.  [Tables] is the view of a table that the
      levels have, and [newest], the specification of every lookup.
    - [Iterators] (y/iterator.go, table/): the interface [YIterator] with its laws
      [YIteratorLaws]; merge and concat iterators and table files are instances.
    - [Iterator] (iterator.go): the iterator a user sees, over any lawful [YIterator].
    - [Snapshot] (txn.go, iterator.go, level_handler.go, levels.go): the iterator of a
      transaction, put together from its own writes, the memtables and the tables.
    - [Manifest] (manifest.go): the table list in memory, its file, and its recovery.
    - [LevelHandler] (level_handler.go, levels.go, db.go): a level, and [DB.get].
    - [Compaction], [Registry], [Subcompact], [Rewrite] (compaction.go, levels.go): what to
      compact, keeping compactions apart, what one writes, and running it.
    - [Transaction] (txn.go, db.go): reading, writing and committing.
    - [Skiplist] (skl/): the towers and the arena of a memtable's list, which the other files
      see as the sorted run it holds.
    - [ValueLog] (value.go): writing and reading the value log; [VlogRecords] sees its files as
      sequences of records; [Discard] (discard.go) is the file of what can be discarded.
    - [Gc] (value.go, db.go): garbage collection of the value log, with the lemmas on lookups it
      needs in [Lookup].
    - [WritePath] (db.go): from a request to the memtable.
    - [Flush] (db.go): a memtable becomes a table of level 0.
    - [Trie] (trie/): patterns of key prefixes with ignored bytes; [Publisher] (publisher.go):
      what the writer publishes to the subscribers whose patterns match.
    - [KeyRegistry] (key_registry.go): the data keys, their file, and their rotation.
    - [Sequence] (db.go): numbers leased by transactions.
    - [MergeOp] (merge.go): values that are merged when read, with merges in the background.
    - [Stream] (stream.go, db.go): the whole database read in ranges by several goroutines;
      [Backup] (backup.go): what a stream writes to a file, and loading it.
    - [WriteBatch] (batch.go): many writes in transactions of their own, and the throttle.
    - [Findings]: small stores on which the code does what it does not mean to.

    ** How state and operations correspond to the code

    A Go struct is a [Record] and a method a function that takes and returns it, named as in
    the source (with a prefix where two would clash: [bi_next] and [it_next] are the [next] of
    the block and of the table iterator).  A 32- or 64-bit word is a [Z] and arithmetic on it is
    wrapped ([u32], [u64]) as the code's type does.  A byte slice is a list of [byte]; where the
    code tells nil from empty it is an [option].  A map is a [gmap]; where the code ranges over
    one, the order is an argument.  A panic, a failed assertion and a [log.Fatal] are [None], or
    [Panic] of [result] where there are errors as well.  What a goroutine does is a function or
    a step relation on the state it shares; locks are the boundaries of its steps.  Loops that
    are not structural have fuel, and the theorems show the fuel that is enough: the table
    iterator's and the merge iterator's bound on skipped rounds, the length of the file for a
    replay, the number of tables for the picking loops.

    Code that is not in the repository is a parameter: the protocol buffers and xxHash
    ([ChecksumCodec]), FlatBuffers ([IndexCodec]), the memory mapping of ristretto ([Mmap]), the
    block cipher, [z.MemHash], the clock and random bytes.  What is assumed of one is a law of
    its class, and witnesses instantiate it.

    ** What the theorems show

    - Isolation ([Oracle], [Transaction]): reads of a committed transaction are not overwritten
      between its snapshot and its commit; a snapshot is complete; pruning never loses a
      conflict; which assertions can fire, also in a managed database; a transaction sees its own
      writes first; accepted writes fit a commit request.
    - Reads: [DB.get] is the newest version; iterating shows exactly the visible entries, in
      both directions, and agrees with [Get]; merging, concatenating and seeking are what they
      are on lists.
    - The same reads across every change of the tree: flushing and compacting preserve lookups,
      levels stay well formed and in step with the manifest, running compactions never meet.
    - The same reads across garbage collection of the value log, and no live pointer dangles.
    - Skip lists: a list of towers is the sorted run of its entries, in both directions.
    - Durability: entries, tables, the manifest and the value log read back what was written,
      torn or not; a crash keeps whole commits, in order.
    - Encryption keys ([KeyRegistry]): the registry opens with the keys it was left with, a
      wrong user key is refused, and the newest key is usable and young enough.
    - Subscriptions ([Trie], [Publisher]): a lookup in the trie gives the patterns that match,
      and an active subscriber is given exactly the matching writes under way when it joined and
      handed over since, in order.
    - Sequences ([Sequence]): no number is handed out twice, while nobody goes on with a sequence
      that a failed call broke.
    - Merge operators ([MergeOp]): a read is the fold of exactly the values added, in order.
    - Streams and backups ([Stream], [Backup]): every version of a snapshot is sent once, however
      the work is divided and the buffers arrive; a backup, loaded, reads as its snapshot did.
    - Write batches ([WriteBatch]): a commit of a batch never conflicts, and after a [Flush]
      without an error the last write of every key is committed.
    - Encodings: round trips, the order of versioned keys, and bounds.

    ** Bounds

    The theorems name the bounds they need: keys and values with 32-bit lengths, blocks and
    tables whose offsets fit 32 bits, timestamps below [2^64].  They are hypotheses, and each
    such theorem has a witness.

    ** What is not modelled

    The user interface and the command line (badger/), options, logging and metrics; the stream
    writer (stream_writer.go); the calls that drop prefixes or the whole database (db.go; the
    compactions they run are in [Compaction]); the directory locks (dir_*.go); generated code
    (pb/, fb/).  Reference counts of tables and memtables, the block and index caches, compression
    and the goroutine scheduling of writers, flushers and compactors are left out of the parts
    that are modelled. *)

From Stdlib Require Export ZArith Lia.
From Stdlib.Strings Require Export Byte String.
From stdpp Require Export strings base tactics numbers option sorting gmap list.

#[export] Set Default Goal Selector "!".

Open Scope Z_scope.

(** ** Machine integers: a [w]-bit unsigned word is a [Z] reduced modulo [2^w] *)

Definition wrap (w z : Z) : Z := z mod 2 ^ w.

Notation u8 := (wrap 8).
Notation u16 := (wrap 16).
Notation u32 := (wrap 32).
Notation u64 := (wrap 64).

Definition MaxUint16 : Z := 65535.
Definition MaxUint32 : Z := 4294967295.
Definition MaxUint64 : Z := 18446744073709551615.

(** Two's complement reading of a [w]-bit word: Go's [int64(x)] of a [uint64]. *)
Definition signed (w z : Z) : Z :=
  let u := wrap w z in if bool_decide (u < 2 ^ (w - 1)) then u else u - 2 ^ w.

Notation i64 := (signed 64).

Arguments wrap : simpl never.
Arguments signed : simpl never.

Create HintDb bdg.

Lemma wrap_range w z : 0 <= w -> 0 <= wrap w z < 2 ^ w.
Proof. intros Hw. apply Z.mod_pos_bound. apply Z.pow_pos_nonneg; lia. Qed.

Lemma wrap_small w z : 0 <= z < 2 ^ w -> wrap w z = z.
Proof. apply Z.mod_small. Qed.

Lemma wrap_wrap w z : wrap w (wrap w z) = wrap w z.
Proof. apply Zmod_mod. Qed.

Lemma wrap_add_l w a b : wrap w (wrap w a + b) = wrap w (a + b).
Proof. apply Zplus_mod_idemp_l. Qed.

Lemma wrap_add_r w a b : wrap w (a + wrap w b) = wrap w (a + b).
Proof. apply Zplus_mod_idemp_r. Qed.

Lemma u64_small z : 0 <= z <= MaxUint64 -> u64 z = z.
Proof. intros H. apply wrap_small. unfold MaxUint64 in H. lia. Qed.

#[export] Hint Resolve wrap_range : bdg.

(** ** Bytes *)

Definition b2z (b : byte) : Z := Z.of_N (Byte.to_N b).
Definition z2b (z : Z) : byte := default x00 (Byte.of_N (Z.to_N (z mod 256))).

#[export] Instance byte_eq_decision : EqDecision byte.
Proof. intros x y. destruct (Byte.byte_eq_dec x y); [left|right]; done. Defined.

#[export] Instance byte_countable : Countable byte.
Proof.
  refine (inj_countable' (fun b => Byte.to_N b) (fun n => default x00 (Byte.of_N n)) _).
  abstract (intros b; by rewrite Byte.of_to_N).
Defined.

Lemma b2z_range b : 0 <= b2z b < 256.
Proof. unfold b2z. pose proof (Byte.to_N_bounded b). lia. Qed.

Lemma z2b_b2z b : z2b (b2z b) = b.
Proof.
  unfold z2b. rewrite Z.mod_small by apply b2z_range.
  unfold b2z. by rewrite N2Z.id, Byte.of_to_N.
Qed.

Lemma b2z_z2b z : b2z (z2b z) = z mod 256.
Proof.
  unfold b2z, z2b. pose proof (Z.mod_pos_bound z 256 ltac:(lia)) as Hb.
  destruct (Byte.of_N (Z.to_N (z mod 256))) as [b|] eqn:E; simpl.
  - apply Byte.to_of_N in E. rewrite E. lia.
  - apply Byte.of_N_None_iff in E. lia.
Qed.

Lemma b2z_inj a b : b2z a = b2z b -> a = b.
Proof. intros H. rewrite <- (z2b_b2z a), <- (z2b_b2z b). by rewrite H. Qed.

Lemma z2b_mod z : z2b (z mod 256) = z2b z.
Proof. unfold z2b. by rewrite Zmod_mod. Qed.

Notation bytes := (list byte) (only parsing).

(** Go's [len], as the signed integer the code computes with. *)
Definition len {A} (l : list A) : Z := Z.of_nat (length l).

Lemma len_app {A} (l k : list A) : len (l ++ k) = len l + len k.
Proof. unfold len. rewrite length_app. lia. Qed.

Lemma to_nat_len {A} (l : list A) : Z.to_nat (len l) = length l.
Proof. unfold len. lia. Qed.

Lemma len_nonneg {A} (l : list A) : 0 <= len l.
Proof. unfold len. lia. Qed.

#[export] Hint Rewrite @len_app : bdg.
#[export] Hint Resolve len_nonneg b2z_range : bdg.

(** ** Slices: [s[i:j]] panics (is [None]) outside [0 <= i <= j <= len s] *)

Definition slice {A} (s : list A) (i j : Z) : option (list A) :=
  if bool_decide (0 <= i <= j /\ j <= len s)
  then Some (take (Z.to_nat (j - i)) (drop (Z.to_nat i) s))
  else None.

Definition slice_from {A} (s : list A) (i : Z) : option (list A) := slice s i (len s).

Lemma slice_from_app {A} (a b : list A) : slice_from (a ++ b) (len a) = Some b.
Proof.
  unfold slice_from, slice. rewrite bool_decide_eq_true_2 by (rewrite len_app; unfold len; lia).
  rewrite len_app. unfold len. f_equal.
  rewrite Nat2Z.id, drop_app_length.
  replace (Z.to_nat _) with (length b) by lia. apply take_ge. lia.
Qed.

Lemma slice_app_mid {A} (a b c : list A) :
  slice (a ++ b ++ c) (len a) (len a + len b) = Some b.
Proof.
  unfold slice. rewrite bool_decide_eq_true_2 by (rewrite !len_app; unfold len; lia).
  unfold len. rewrite Nat2Z.id, drop_app_length. f_equal.
  replace (Z.to_nat _) with (length b) by lia. apply take_app_length.
Qed.

(** ** Results: a Go function that returns [(value, error)] and may panic *)

Inductive result (E A : Type) : Type :=
  | Ok (a : A)
  | Err (e : E)
  | Panic.
Arguments Ok {E A} a.
Arguments Err {E A} e.
Arguments Panic {E A}.

#[export] Instance result_bind E : MBind (result E) := fun A B f m =>
  match m with Ok a => f a | Err e => Err e | Panic => Panic end.
#[export] Instance result_ret E : MRet (result E) := fun A a => Ok a.

(** A partial operation of the language ([None] is a panic) inside such a function. *)
Definition unpanic {E A} (o : option A) : result E A :=
  match o with Some a => Ok a | None => Panic end.

(** ** The longest prefix of a list that satisfies a test *)

Fixpoint take_while {A} (f : A -> bool) (l : list A) : list A :=
  match l with [] => [] | x :: l => if f x then x :: take_while f l else [] end.

Lemma take_while_all {A} (f : A -> bool) l : Forall (fun x => f x = true) l -> take_while f l = l.
Proof. induction 1 as [|x l Hx _ IH]; [done|]. cbn. by rewrite Hx, IH. Qed.

Lemma take_while_prefix {A} (f : A -> bool) l : exists l', l = take_while f l ++ l'.
Proof.
  induction l as [|x l [l' IH]]; [by exists []|]. cbn. destruct (f x); [|by exists (x :: l)].
  exists l'. cbn. by f_equal.
Qed.

(** ** Three-way comparisons: Go's [-1], [0], [+1] are [Lt], [Eq], [Gt] *)

Class CmpLaws {A} (cmp : A -> A -> comparison) : Prop := {
  cmp_eq : forall x y, cmp x y = Eq <-> x = y;
  cmp_antisym : forall x y, cmp y x = CompOpp (cmp x y);
  cmp_trans : forall x y z, cmp x y = Lt -> cmp y z = Lt -> cmp x z = Lt
}.

Arguments cmp_eq {A} cmp {_} x y.
Arguments cmp_antisym {A} cmp {_} x y.
Arguments cmp_trans {A} cmp {_} x y z _ _.

Section CmpLemmas.
Context {A} (cmp : A -> A -> comparison) `{!CmpLaws cmp}.

Lemma cmp_refl x : cmp x x = Eq.
Proof. by apply (cmp_eq cmp). Qed.

Lemma cmp_gt_lt x y : cmp x y = Gt <-> cmp y x = Lt.
Proof. rewrite (cmp_antisym cmp x y). destruct (cmp x y); simpl; naive_solver. Qed.

Lemma cmp_not_gt x y : cmp x y <> Gt <-> cmp x y = Lt \/ x = y.
Proof. rewrite <- (cmp_eq cmp). destruct (cmp x y); naive_solver. Qed.

Lemma cmp_lt_trans x y z : cmp x y = Lt -> cmp y z = Lt -> cmp x z = Lt.
Proof. apply (cmp_trans cmp). Qed.

Lemma cmp_le_trans x y z : cmp x y <> Gt -> cmp y z <> Gt -> cmp x z <> Gt.
Proof.
  rewrite !cmp_not_gt. intros [?| ->] [?| ->]; eauto using cmp_lt_trans.
Qed.

Lemma cmp_lt_le_trans x y z : cmp x y = Lt -> cmp y z <> Gt -> cmp x z = Lt.
Proof. rewrite cmp_not_gt. intros ? [?| <-]; eauto using cmp_lt_trans. Qed.

Lemma cmp_le_lt_trans x y z : cmp x y <> Gt -> cmp y z = Lt -> cmp x z = Lt.
Proof. rewrite cmp_not_gt. intros [?| ->] ?; eauto using cmp_lt_trans. Qed.

Lemma cmp_lt_irrefl x : cmp x x <> Lt.
Proof. by rewrite cmp_refl. Qed.

Lemma cmp_le_total x y : cmp x y <> Gt \/ cmp y x <> Gt.
Proof. rewrite (cmp_antisym cmp x y). destruct (cmp x y); simpl; naive_solver. Qed.

Lemma cmp_ge_not_lt x y : cmp x y <> Lt <-> cmp y x <> Gt.
Proof. rewrite (cmp_antisym cmp x y). destruct (cmp x y); simpl; naive_solver. Qed.

Lemma cmp_le_antisym x y : cmp x y <> Gt -> cmp y x <> Gt -> x = y.
Proof.
  rewrite (cmp_antisym cmp x y), <- (cmp_eq cmp). destruct (cmp x y); simpl; naive_solver.
Qed.
End CmpLemmas.

#[export] Instance Zcompare_laws : CmpLaws Z.compare.
Proof.
  split.
  - apply Z.compare_eq_iff.
  - intros x y. apply Z.compare_antisym.
  - intros x y z. rewrite !Z.compare_lt_iff. lia.
Qed.

(** Lexicographic comparison of pairs. *)
Definition cmp_pair {A B} (ca : A -> A -> comparison) (cb : B -> B -> comparison)
    (x y : A * B) : comparison :=
  match ca x.1 y.1 with Eq => cb x.2 y.2 | c => c end.

#[export] Instance cmp_pair_laws {A B} (ca : A -> A -> comparison) (cb : B -> B -> comparison) :
  CmpLaws ca -> CmpLaws cb -> CmpLaws (cmp_pair ca cb).
Proof.
  intros Ha Hb. split; intros [a b] [a' b'].
  - unfold cmp_pair; simpl. destruct (ca a a') eqn:E.
    + apply (cmp_eq ca) in E as ->. rewrite (cmp_eq cb). naive_solver.
    + split; [done|]. intros [= -> ->]. by rewrite (cmp_refl ca) in E.
    + split; [done|]. intros [= -> ->]. by rewrite (cmp_refl ca) in E.
  - unfold cmp_pair; simpl. rewrite (cmp_antisym ca a a').
    destruct (ca a a'); simpl; [apply (cmp_antisym cb)|done|done].
  - intros [a'' b'']. unfold cmp_pair; simpl.
    destruct (ca a a') eqn:E1; try done; destruct (ca a' a'') eqn:E2; try done.
    + apply (cmp_eq ca) in E1 as ->. rewrite E2. apply (cmp_trans cb).
    + apply (cmp_eq ca) in E1 as ->. by rewrite E2.
    + apply (cmp_eq ca) in E2 as ->. by rewrite E1.
    + by rewrite (cmp_trans ca _ _ _ E1 E2).
Qed.

(** [bytes.Compare]. *)
Fixpoint bytes_Compare (a b : bytes) : comparison :=
  match a, b with
  | [], [] => Eq
  | [], _ :: _ => Lt
  | _ :: _, [] => Gt
  | x :: a', y :: b' =>
      match Z.compare (b2z x) (b2z y) with Eq => bytes_Compare a' b' | c => c end
  end.

#[export] Instance bytes_Compare_laws : CmpLaws bytes_Compare.
Proof.
  split.
  - intros x. induction x as [|a x IH]; intros [|b y]; simpl; try (split; done).
    destruct (Z.compare_spec (b2z a) (b2z b)) as [E%b2z_inj|E|E].
    + subst. rewrite IH. naive_solver.
    + split; [done|]. intros [= -> ->]. lia.
    + split; [done|]. intros [= -> ->]. lia.
  - intros x. induction x as [|a x IH]; intros [|b y]; simpl; try done.
    rewrite (Z.compare_antisym (b2z a)).
    destruct (b2z a ?= b2z b); simpl; [apply IH|done|done].
  - intros x. induction x as [|a x IH]; intros [|b y] [|c z]; simpl; try done.
    destruct (Z.compare_spec (b2z a) (b2z b)), (Z.compare_spec (b2z b) (b2z c)),
      (Z.compare_spec (b2z a) (b2z c)); try done; try lia; eauto.
Qed.

(** [bytes.HasPrefix]. *)
Fixpoint bytes_HasPrefix (s prefix : bytes) {struct prefix} : bool :=
  match prefix, s with
  | [], _ => true
  | p :: prefix', x :: s' => bool_decide (x = p) && bytes_HasPrefix s' prefix'
  | _ :: _, [] => false
  end.

Lemma bytes_HasPrefix_spec s p : bytes_HasPrefix s p = true <-> exists r, s = p ++ r.
Proof.
  revert s. induction p as [|x p IH]; intros s; simpl; [split; [intros _; by exists s|done]|].
  destruct s as [|y s]; simpl; [split; [done|by intros [? ?]]|].
  rewrite andb_true_iff, bool_decide_eq_true, IH. split.
  - intros [-> [r ->]]. by exists r.
  - intros [r [= -> ->]]. eauto.
Qed.

(** ** [sort.Search]: the Go standard library's binary search *)

(** The loop on [i, j], the predicate threading a state (the closures the source passes
    mutate the iterator they close over). *)
Fixpoint search_loop {St} (fuel : nat) (f : nat -> St -> bool * St) (i j : nat) (s : St)
    : nat * St :=
  match fuel with
  | O => (i, s)
  | S fuel =>
      if bool_decide (i < j)%nat then
        let h := ((i + j) / 2)%nat in
        match f h s with
        | (false, s') => search_loop fuel f (S h) j s'
        | (true, s') => search_loop fuel f i h s'
        end
      else (i, s)
  end.

Definition sort_SearchM {St} (n : nat) (f : nat -> St -> bool * St) (s : St) : nat * St :=
  search_loop n f 0%nat n s.

Definition sort_Search (n : nat) (f : nat -> bool) : nat :=
  (sort_SearchM n (fun h (_ : unit) => (f h, tt)) tt).1.

Section Search.
Context {St : Type} (n : nat) (f : nat -> St -> bool * St) (p : nat -> bool) (I : St -> Prop).
Context (Hf : forall h s, (h < n)%nat -> I s -> (f h s).1 = p h /\ I (f h s).2).
Context (Hmono : forall i j, (i <= j < n)%nat -> p i = true -> p j = true).

Lemma search_loop_spec fuel i j s :
  (j - i <= fuel)%nat -> (i <= j <= n)%nat -> I s ->
  (forall k, (k < i)%nat -> p k = false) ->
  (forall k, (j <= k < n)%nat -> p k = true) ->
  let '(r, s') := search_loop fuel f i j s in
  I s' /\ (r <= n)%nat /\ (forall k, (k < r)%nat -> p k = false) /\
  (forall k, (r <= k < n)%nat -> p k = true).
Proof using Hf Hmono.
  revert i j s. induction fuel as [|fuel IH]; intros i j s Hfuel Hij Hs Hlo Hhi;
    cbn [search_loop].
  { assert (i = j) as -> by lia. repeat split; auto; lia. }
  case_bool_decide as Hlt.
  2: { assert (i = j) as -> by lia. repeat split; auto; lia. }
  pose proof (Nat.div_mod_eq (i + j) 2) as Hdm.
  pose proof (Nat.mod_upper_bound (i + j) 2 ltac:(lia)) as Hm.
  cbv zeta. set (h := ((i + j) / 2)%nat) in *.
  assert (i <= h < j)%nat as Hh by lia.
  destruct (Hf h s ltac:(lia) Hs) as [Hp HI].
  destruct (f h s) as [b s'] eqn:E. simpl in Hp, HI. destruct b.
  - apply IH; [lia|lia|done|done|].
    intros k Hk. apply (Hmono h); [lia|]. done.
  - apply IH; [lia|lia|done| |done].
    intros k Hk. destruct (p k) eqn:Ek; [|done].
    rewrite (Hmono k h) in Hp; [done|lia|done].
Qed.

Lemma sort_SearchM_spec s :
  I s ->
  let '(r, s') := sort_SearchM n f s in
  I s' /\ (r <= n)%nat /\ (forall k, (k < r)%nat -> p k = false) /\
  (forall k, (r <= k < n)%nat -> p k = true).
Proof using Hf Hmono.
  intros Hs. apply search_loop_spec; auto with lia.
Qed.
End Search.

(** On a monotone predicate the search returns the least index that satisfies it. *)
Lemma sort_Search_spec (n : nat) (f : nat -> bool) :
  (forall i j, (i <= j < n)%nat -> f i = true -> f j = true) ->
  let r := sort_Search n f in
  (r <= n)%nat /\ (forall k, (k < r)%nat -> f k = false) /\
  (forall k, (r <= k < n)%nat -> f k = true).
Proof.
  intros Hmono. unfold sort_Search.
  pose proof (sort_SearchM_spec n (fun h (_ : unit) => (f h, tt)) f (fun _ => True)
    ltac:(done) Hmono tt I) as H.
  destruct (sort_SearchM _ _ _) as [r ?]. simpl. tauto.
Qed.

Lemma sort_Search_unique (n r : nat) (f : nat -> bool) :
  (forall i j, (i <= j < n)%nat -> f i = true -> f j = true) ->
  (r <= n)%nat -> (forall k, (k < r)%nat -> f k = false) ->
  ((r < n)%nat -> f r = true) ->
  sort_Search n f = r.
Proof.
  intros Hm Hr Hlo Hhi. destruct (sort_Search_spec n f Hm) as (H1 & H2 & H3).
  destruct (Nat.lt_trichotomy (sort_Search n f) r) as [Hlt|[Heq|Hlt]]; [|done|].
  - specialize (H3 (sort_Search n f) ltac:(lia)). rewrite Hlo in H3; [done|lia].
  - specialize (H2 r Hlt). rewrite Hhi in H2; [done|lia].
Qed.

(** ** [sort.Slice]

    Go's sort is not stable; the model is stdpp's merge sort, one of the permutations the
    contract of [sort.Slice] allows.  [sort_by_unique] says that with distinct keys there is
    only one, so nothing depends on the choice. *)

Definition sort_by {A K} (cmp : K -> K -> comparison) (key : A -> K) (l : list A) : list A :=
  merge_sort (fun x y => cmp (key x) (key y) <> Gt) l.

Section SortBy.
Context {A K} (cmp : K -> K -> comparison) `{!CmpLaws cmp} (key : A -> K).

Definition key_le (x y : A) : Prop := cmp (key x) (key y) <> Gt.
Definition key_lt (x y : A) : Prop := cmp (key x) (key y) = Lt.

#[local] Instance key_le_total : Total key_le.
Proof using Type*. intros x y. apply (cmp_le_total cmp). Qed.

#[local] Instance key_le_trans : Transitive key_le.
Proof using Type*. intros x y z. apply (cmp_le_trans cmp). Qed.

Lemma sort_by_Permutation l : sort_by cmp key l ≡ₚ l.
Proof using Type. apply merge_sort_Permutation. Qed.

Lemma sort_by_sorted l : StronglySorted key_le (sort_by cmp key l).
Proof using Type*. apply (StronglySorted_merge_sort key_le). Qed.

Lemma StronglySorted_le_lt l :
  NoDup (key <$> l) -> StronglySorted key_le l -> StronglySorted key_lt l.
Proof using Type*.
  induction l as [|x l IH]; intros Hnd Hs; [constructor|].
  rewrite fmap_cons, NoDup_cons in Hnd. destruct Hnd as [Hx Hnd].
  apply StronglySorted_cons in Hs as [Hall Hs]. constructor; [auto|].
  apply Forall_forall. intros y Hy. rewrite Forall_forall in Hall.
  specialize (Hall y Hy). apply (cmp_not_gt cmp) in Hall.
  destruct Hall as [|Heq]; [done|].
  destruct Hx. rewrite Heq. by apply list_elem_of_fmap_2.
Qed.

Lemma sort_by_strictly_sorted l :
  NoDup (key <$> l) -> StronglySorted key_lt (sort_by cmp key l).
Proof using Type*.
  intros Hnd. apply StronglySorted_le_lt; [|apply sort_by_sorted].
  apply (NoDup_Permutation_proper _ _ (fmap_Permutation key _ _ (sort_by_Permutation l))), Hnd.
Qed.

Lemma sort_by_unique l k :
  NoDup (key <$> l) -> k ≡ₚ l -> StronglySorted key_le k -> sort_by cmp key l = k.
Proof using Type*.
  intros Hnd Hp Hs. apply (StronglySorted_unique_strong key_le).
  - intros x1 x2 Hx1 Hx2 H1 H2.
    pose proof (cmp_le_antisym cmp _ _ H1 H2) as Heq.
    apply (elem_of_Permutation_proper _ _ _ (sort_by_Permutation l)) in Hx1.
    apply (elem_of_Permutation_proper _ _ _ Hp) in Hx2.
    apply list_elem_of_lookup in Hx1 as [i Hi]. apply list_elem_of_lookup in Hx2 as [j Hj].
    assert (i = j) as ->; [|congruence].
    eapply (NoDup_lookup _ _ _ (key x1) Hnd); rewrite list_lookup_fmap, ?Hi, ?Hj; simpl;
      congruence.
  - apply sort_by_sorted.
  - done.
  - by rewrite Hp, (sort_by_Permutation l).
Qed.
End SortBy.

Lemma StronglySorted_lookup {A} (R : A -> A -> Prop) l i j x y :
  StronglySorted R l -> l !! i = Some x -> l !! j = Some y -> (i < j)%nat -> R x y.
Proof.
  intros Hs. revert i j. induction Hs as [|a l Hs IH Hall]; intros i j Hi Hj Hlt; [done|].
  destruct j as [|j]; [lia|]. simpl in Hj. destruct i as [|i]; simpl in Hi.
  - simplify_eq. rewrite Forall_forall in Hall. apply Hall. by eapply list_elem_of_lookup_2.
  - apply (IH i j); [done|done|lia].
Qed.

Lemma ForallOrdPairs_Permutation {A} (R : A -> A -> Prop) (l k : list A) :
  (forall x y, R x y -> R y x) -> l ≡ₚ k -> ForallOrdPairs R l -> ForallOrdPairs R k.
Proof.
  intros Hsym. induction 1 as [|x l k Hlk IH|x y l|l k m _ IH1 _ IH2]; intros Hf; auto.
  - inversion Hf as [|? ? Hx Hl]; subst. constructor; [by rewrite <- Hlk|auto].
  - inversion Hf as [|? ? Hx Hl]; subst. inversion Hl as [|? ? Hy Hl']; subst.
    apply Forall_cons in Hx as [Hxy Hx].
    constructor; [constructor; auto|by constructor].
Qed.

Lemma Forall_filter_sub {A} (P Q : A -> Prop) `{forall x, Decision (Q x)} (l : list A) :
  Forall P l -> Forall P (filter Q l).
Proof.
  rewrite !Forall_forall. intros HP x Hx. apply list_elem_of_filter in Hx as [_ Hx]. auto.
Qed.

Lemma filter_id {A} (P : A -> Prop) `{!forall x, Decision (P x)} (l : list A) : Forall P l -> filter P l = l.
Proof. induction 1 as [|x l Hx Hl IH]; [done|]. by rewrite filter_cons, decide_True, IH. Qed.

Lemma StronglySorted_filter {A} (R : A -> A -> Prop) (P : A -> Prop) `{!forall x, Decision (P x)} (l : list A) :
  StronglySorted R l -> StronglySorted R (filter P l).
Proof.
  induction 1 as [|x l Hs IH Hx]; [constructor|]. rewrite filter_cons. case_decide; [|done].
  constructor; [done|]. by apply Forall_filter_sub.
Qed.

(** An element of a concatenation is an element of one of the lists. *)
Lemma lookup_concat {A} (ls : list (list A)) i j l x :
  ls !! i = Some l -> l !! j = Some x ->
  concat ls !! (length (concat (take i ls)) + j)%nat = Some x.
Proof.
  revert i. induction ls as [|l0 ls IH]; intros i Hi Hj; [done|].
  destruct i as [|i]; simpl in *.
  - simplify_eq. by apply lookup_app_l_Some.
  - rewrite length_app, lookup_app_r by lia. rewrite <- (IH i Hi Hj). f_equal. lia.
Qed.

Lemma length_concat_take_S {A} (ls : list (list A)) i l :
  ls !! i = Some l -> length (concat (take (S i) ls)) = (length (concat (take i ls)) + length l)%nat.
Proof.
  intros Hi. rewrite (take_S_r _ _ _ Hi), concat_app, length_app. simpl. by rewrite app_nil_r.
Qed.

Lemma ForallOrdPairs_app {A} (R : A -> A -> Prop) l1 l2 :
  ForallOrdPairs R l1 -> ForallOrdPairs R l2 -> (forall a b, a ∈ l1 -> b ∈ l2 -> R a b) ->
  ForallOrdPairs R (l1 ++ l2).
Proof.
  intros H1 H2 H. induction H1 as [|a l1 Ha H1 IH]; [done|]. cbn. constructor.
  - apply Forall_app. split; [done|]. apply Forall_forall. intros b Hb. apply H; [by left|done].
  - apply IH. intros x y Hx Hy. apply H; [by right|done].
Qed.

(** ** Any countable data as bytes: the codecs of the examples *)

Fixpoint pos_bits (p : positive) : bytes :=
  match p with xH => [] | xO p => x00 :: pos_bits p | xI p => x01 :: pos_bits p end.

Fixpoint bits_pos (b : bytes) : positive :=
  match b with [] => xH | x00 :: b => xO (bits_pos b) | _ :: b => xI (bits_pos b) end.

Lemma bits_pos_bits p : bits_pos (pos_bits p) = p.
Proof. induction p as [p IH|p IH|]; cbn; by rewrite ?IH. Qed.
