(* ===== verification/Keys.v ===== *)
(** * Keys: the fixed-width encodings and the versioned keys of [y/y.go]

    An internal key is the user's key followed by eight bytes that hold
    [MaxUint64 - version] in big-endian order, so that byte order on the suffix is
    descending order on the version.  The file models the encoders ([U16ToBytes] ...
    [U64ToBytes]), [KeyWithTs], [ParseTs], [ParseKey], [SameKey] and [CompareKeys], and proves
    that they are inverse to each other and that [CompareKeys] is the order "user key
    ascending, version descending" on which every sorted structure of the store relies. *)

From S2P Require Import Prelude.

(** ** Big- and little-endian words ([encoding/binary], and the host layout) *)

(** [binary.BigEndian.PutUintN] on a fresh buffer of [n] bytes. *)
Fixpoint be_encode (n : nat) (v : Z) : bytes :=
  match n with
  | O => []
  | S n => z2b (Z.shiftr v (8 * Z.of_nat n)) :: be_encode n v
  end.

(** [binary.BigEndian.UintN] of exactly the bytes given. *)
Fixpoint be_decode (l : bytes) : Z :=
  match l with
  | [] => 0
  | b :: l => Z.lor (Z.shiftl (b2z b) (8 * len l)) (be_decode l)
  end.

(** A [uintN] stored through an [unsafe.Pointer] on a little-endian host. *)
Fixpoint le_encode (n : nat) (v : Z) : bytes :=
  match n with
  | O => []
  | S n => z2b v :: le_encode n (Z.shiftr v 8)
  end.

Fixpoint le_decode (l : bytes) : Z :=
  match l with
  | [] => 0
  | b :: l => Z.lor (b2z b) (Z.shiftl (le_decode l) 8)
  end.

(** *** Arithmetic reading of the bit operations *)

Lemma testbit_above x n i : 0 <= x < 2 ^ n -> n <= i -> Z.testbit x i = false.
Proof.
  intros Hx Hi. destruct (decide (x = 0)) as [->|Hne]; [apply Z.bits_0|].
  assert (0 <= n) by (destruct (decide (0 <= n)); [done|rewrite Z.pow_neg_r in Hx; lia]).
  apply Z.bits_above_log2; [lia|]. apply Z.lt_le_trans with n; [|done].
  apply Z.log2_lt_pow2; lia.
Qed.

Lemma land_shiftl_disjoint a n x : 0 <= n -> 0 <= x < 2 ^ n -> Z.land (Z.shiftl a n) x = 0.
Proof.
  intros Hn Hx. apply Z.bits_inj'. intros i Hi. rewrite Z.land_spec, Z.bits_0.
  destruct (Z.lt_ge_cases i n).
  - by rewrite Z.shiftl_spec_low.
  - by rewrite (testbit_above x n i), andb_false_r.
Qed.

Lemma lor_shiftl_add a n x :
  0 <= n -> 0 <= x < 2 ^ n -> Z.lor (Z.shiftl a n) x = a * 2 ^ n + x.
Proof.
  intros Hn Hx. pose proof (land_shiftl_disjoint a n x Hn Hx) as Hd.
  rewrite <- Z.shiftl_mul_pow2 by lia.
  rewrite (Z.add_nocarry_lxor _ _ Hd). symmetry. by apply Z.lxor_lor.
Qed.

Lemma pow2_8S n : 2 ^ (8 * Z.of_nat (S n)) = 256 * 2 ^ (8 * Z.of_nat n).
Proof. rewrite Nat2Z.inj_succ, <- Z.add_1_l, Z.mul_add_distr_l, Z.pow_add_r; lia. Qed.

Lemma be_decode_range l : 0 <= be_decode l < 2 ^ (8 * len l).
Proof.
  induction l as [|b l IH]; [done|]. simpl be_decode. unfold len in *.
  rewrite lor_shiftl_add by (unfold len; lia). unfold len. simpl length.
  rewrite pow2_8S. pose proof (b2z_range b). nia.
Qed.

Lemma be_decode_cons b l : be_decode (b :: l) = b2z b * 2 ^ (8 * len l) + be_decode l.
Proof. simpl. apply lor_shiftl_add; [unfold len; lia|apply be_decode_range]. Qed.

Lemma be_encode_length n v : length (be_encode n v) = n.
Proof. induction n; simpl; auto. Qed.

Lemma be_decode_encode n v : be_decode (be_encode n v) = v mod 2 ^ (8 * Z.of_nat n).
Proof.
  induction n as [|n IH]; [simpl; by rewrite Z.mod_1_r|].
  simpl be_encode. rewrite be_decode_cons, IH, b2z_z2b. unfold len. rewrite be_encode_length.
  rewrite pow2_8S, Z.shiftr_div_pow2 by lia.
  rewrite (Z.mul_comm 256), Z.rem_mul_r by lia. lia.
Qed.

Lemma be_roundtrip2 v : be_decode (be_encode 2 v) = u16 v.
Proof. apply be_decode_encode. Qed.
Lemma be_roundtrip4 v : be_decode (be_encode 4 v) = u32 v.
Proof. apply be_decode_encode. Qed.
Lemma be_roundtrip8 v : be_decode (be_encode 8 v) = u64 v.
Proof. apply be_decode_encode. Qed.

Lemma z2b_add_256 a z : z2b (a * 256 + z) = z2b z.
Proof. rewrite <- (z2b_mod (a * 256 + z)), Z.add_comm, Z.mod_add by lia. apply z2b_mod. Qed.

Lemma be_encode_high n m a v :
  (n <= m)%nat -> be_encode n (a * 2 ^ (8 * Z.of_nat m) + v) = be_encode n v.
Proof.
  induction n as [|n IH]; intros Hnm; [done|]. simpl. rewrite IH by lia. f_equal.
  rewrite !Z.shiftr_div_pow2 by lia.
  replace (8 * Z.of_nat m) with (8 * Z.of_nat (m - S n) + 8 + 8 * Z.of_nat n) by lia.
  rewrite !Z.pow_add_r, !Z.mul_assoc, Z.div_add_l by lia.
  apply z2b_add_256.
Qed.

Lemma be_encode_wrap n v : be_encode n (v mod 2 ^ (8 * Z.of_nat n)) = be_encode n v.
Proof.
  rewrite (Z.div_mod v (2 ^ (8 * Z.of_nat n))) at 2 by lia.
  by rewrite (Z.mul_comm (2 ^ _)), be_encode_high.
Qed.

Lemma be_encode_decode l : be_encode (length l) (be_decode l) = l.
Proof.
  induction l as [|b l IH]; [done|]. rewrite be_decode_cons. simpl length. simpl be_encode.
  pose proof (be_decode_range l) as Hr. unfold len in *. f_equal.
  - rewrite Z.shiftr_div_pow2 by lia. rewrite Z.div_add_l, Z.div_small by lia.
    by rewrite Z.add_0_r, z2b_b2z.
  - by rewrite be_encode_high.
Qed.

(** Byte order on big-endian words is numeric order. *)
Lemma bytes_Compare_be a b :
  length a = length b -> bytes_Compare a b = Z.compare (be_decode a) (be_decode b).
Proof.
  revert b. induction a as [|x a IH]; intros [|y b] Hl; try done.
  rewrite !be_decode_cons. simpl bytes_Compare. simpl in Hl. injection Hl as Hl.
  rewrite IH by done. pose proof (be_decode_range a). pose proof (be_decode_range b).
  unfold len in *. rewrite Hl in *. set (P := 2 ^ _) in *.
  destruct (Z.compare_spec (b2z x) (b2z y)); symmetry.
  - rewrite H1. destruct (Z.compare_spec (be_decode a) (be_decode b));
      [apply Z.compare_eq_iff|apply Z.compare_lt_iff|apply Z.compare_gt_iff]; lia.
  - apply Z.compare_lt_iff. nia.
  - apply Z.compare_gt_iff. nia.
Qed.

Lemma le_decode_range l : 0 <= le_decode l < 2 ^ (8 * len l).
Proof.
  induction l as [|b l IH]; [done|]. cbn [le_decode]. unfold len in *. simpl length.
  pose proof (b2z_range b).
  rewrite Z.lor_comm, lor_shiftl_add by lia. rewrite pow2_8S. lia.
Qed.

Lemma le_decode_cons b l : le_decode (b :: l) = b2z b + 256 * le_decode l.
Proof.
  cbn [le_decode]. pose proof (b2z_range b). rewrite Z.lor_comm, lor_shiftl_add by lia. lia.
Qed.

Lemma le_encode_length n v : length (le_encode n v) = n.
Proof. revert v. induction n; intros v; simpl; auto. Qed.

Lemma le_decode_encode n v : le_decode (le_encode n v) = v mod 2 ^ (8 * Z.of_nat n).
Proof.
  revert v. induction n as [|n IH]; intros v; [simpl; by rewrite Z.mod_1_r|].
  cbn [le_encode]. rewrite le_decode_cons, IH, b2z_z2b, pow2_8S.
  rewrite Z.shiftr_div_pow2 by lia. rewrite Z.rem_mul_r by lia. done.
Qed.

#[export] Hint Rewrite be_encode_length le_encode_length : bdg.

Arguments be_encode : simpl never.
Arguments be_decode : simpl never.
Arguments le_encode : simpl never.
Arguments le_decode : simpl never.

(** ** The word helpers of [y.go]; a buffer that is too short panics *)

Definition U16ToBytes (v : Z) : bytes := be_encode 2 v.
Definition BytesToU16 (b : bytes) : option Z := be_decode <$> slice b 0 2.
Definition U32ToBytes (v : Z) : bytes := be_encode 4 v.
Definition BytesToU32 (b : bytes) : option Z := be_decode <$> slice b 0 4.
Definition U64ToBytes (v : Z) : bytes := be_encode 8 v.
Definition BytesToU64 (b : bytes) : option Z := be_decode <$> slice b 0 8.

(** [U32SliceToBytes] reinterprets the slice in place: little-endian words, back to back. *)
Definition U32SliceToBytes (u32s : list Z) : bytes := concat (le_encode 4 <$> u32s).

Fixpoint chunks4 (n : nat) (b : bytes) : list Z :=
  match n with O => [] | S n => le_decode (take 4 b) :: chunks4 n (drop 4 b) end.

(** [BytesToU32Slice]: [len(b) / 4] words; trailing bytes are ignored. *)
Definition BytesToU32Slice (b : bytes) : list Z := chunks4 (length b / 4) b.

Lemma be_slice_app n v rest :
  be_decode <$> slice (be_encode n v ++ rest) 0 (Z.of_nat n)
  = Some (v mod 2 ^ (8 * Z.of_nat n)).
Proof.
  pose proof (slice_app_mid [] (be_encode n v) rest) as H.
  unfold len in H. rewrite be_encode_length in H.
  change (slice (be_encode n v ++ rest) 0 (Z.of_nat n) = Some (be_encode n v)) in H.
  rewrite H. simpl. by rewrite be_decode_encode.
Qed.

Lemma U32SliceToBytes_length l : length (U32SliceToBytes l) = (4 * length l)%nat.
Proof.
  unfold U32SliceToBytes. induction l as [|x l IH]; [done|].
  rewrite fmap_cons. cbn [concat]. rewrite length_app, le_encode_length, IH. simpl. lia.
Qed.

Lemma BytesToU32Slice_roundtrip l :
  Forall (fun x => 0 <= x < 2 ^ 32) l -> BytesToU32Slice (U32SliceToBytes l) = l.
Proof.
  intros Hl. unfold BytesToU32Slice. rewrite U32SliceToBytes_length.
  replace (4 * length l / 4)%nat with (length l) by (rewrite Nat.mul_comm, Nat.div_mul; lia).
  unfold U32SliceToBytes. induction Hl as [|x l Hx Hl IH]; [done|].
  rewrite fmap_cons. cbn [concat length chunks4].
  rewrite take_app_length', drop_app_length' by (by rewrite le_encode_length).
  rewrite le_decode_encode, IH, Z.mod_small; [done|]. simpl. lia.
Qed.

(** ** Versioned keys *)

Definition KeyWithTs (key : bytes) (ts : Z) : bytes :=
  key ++ be_encode 8 (u64 (MaxUint64 - ts)).

Definition ParseTs (key : bytes) : Z :=
  if bool_decide (len key <= 8) then 0
  else u64 (MaxUint64 - be_decode (drop (length key - 8) key)).

(** The [nil] of the short case is read like the empty slice by every caller. *)
Definition ParseKey (key : bytes) : bytes :=
  if bool_decide (len key < 8) then [] else take (length key - 8) key.

Definition SameKey (src dst : bytes) : bool :=
  if bool_decide (len src <> len dst) then false
  else bool_decide (ParseKey src = ParseKey dst).

(** The comparison itself, with the suffix split off; total. *)
Definition split_ts (key : bytes) : bytes * bytes :=
  (take (length key - 8) key, drop (length key - 8) key).

Definition compareKeys (key1 key2 : bytes) : comparison :=
  cmp_pair bytes_Compare bytes_Compare (split_ts key1) (split_ts key2).

(** [CompareKeys] slices both keys at [len - 8]: it panics on a key with no suffix. *)
Definition CompareKeys (key1 key2 : bytes) : option comparison :=
  k1 ← slice key1 0 (len key1 - 8);
  k2 ← slice key2 0 (len key2 - 8);
  match bytes_Compare k1 k2 with
  | Eq =>
      t1 ← slice_from key1 (len key1 - 8);
      t2 ← slice_from key2 (len key2 - 8);
      Some (bytes_Compare t1 t2)
  | cmp => Some cmp
  end.

(** The keys the store builds: at least a suffix. *)
Definition has_ts (key : bytes) : Prop := 8 <= len key.

#[export] Instance has_ts_dec key : Decision (has_ts key).
Proof. unfold has_ts. apply _. Defined.

(** Internal keys (db.go). *)
Definition badgerPrefix : bytes := list_byte_of_string "!badger!".
Definition txnKey : bytes := list_byte_of_string "!badger!txn".
Definition bannedNsKey : bytes := list_byte_of_string "!badger!banned".

(** ** Theorems *)

#[export] Instance compareKeys_laws : CmpLaws compareKeys.
Proof.
  pose proof (cmp_pair_laws _ _ bytes_Compare_laws bytes_Compare_laws) as HP.
  unfold compareKeys. split.
  - intros x y. rewrite (cmp_eq (cmp_pair bytes_Compare bytes_Compare)). split; [|by intros ->].
    unfold split_ts. intros [= H1 H2].
    rewrite <- (take_drop (length x - 8) x), <- (take_drop (length y - 8) y). congruence.
  - intros x y. apply (cmp_antisym (cmp_pair bytes_Compare bytes_Compare)).
  - intros x y z. apply (cmp_trans (cmp_pair bytes_Compare bytes_Compare)).
Qed.

Lemma KeyWithTs_length k ts : length (KeyWithTs k ts) = (length k + 8)%nat.
Proof. unfold KeyWithTs. by rewrite length_app, be_encode_length. Qed.

Lemma KeyWithTs_has_ts k ts : has_ts (KeyWithTs k ts).
Proof. unfold has_ts, len. rewrite KeyWithTs_length. lia. Qed.

Lemma split_KeyWithTs k ts :
  split_ts (KeyWithTs k ts) = (k, be_encode 8 (u64 (MaxUint64 - ts))).
Proof.
  unfold split_ts. rewrite KeyWithTs_length, Nat.add_sub.
  unfold KeyWithTs. by rewrite take_app_length, drop_app_length.
Qed.

Lemma ParseKey_KeyWithTs k ts : ParseKey (KeyWithTs k ts) = k.
Proof.
  unfold ParseKey. rewrite bool_decide_eq_false_2 by (pose proof (KeyWithTs_has_ts k ts); unfold has_ts in *; lia).
  change (take _ _) with (split_ts (KeyWithTs k ts)).1. by rewrite split_KeyWithTs.
Qed.

Lemma ParseTs_KeyWithTs k ts :
  k <> [] -> 0 <= ts <= MaxUint64 -> ParseTs (KeyWithTs k ts) = ts.
Proof.
  intros Hk Hts. unfold ParseTs. rewrite bool_decide_eq_false_2.
  2: { unfold len. rewrite KeyWithTs_length. destruct k; [done|]. simpl. lia. }
  change (drop _ _) with (split_ts (KeyWithTs k ts)).2. rewrite split_KeyWithTs. simpl.
  rewrite be_roundtrip8, wrap_wrap, (u64_small (MaxUint64 - ts)), u64_small; lia.
Qed.

Lemma SameKey_spec a b :
  has_ts a -> has_ts b ->
  SameKey a b = true <-> (split_ts a).1 = (split_ts b).1.
Proof.
  unfold has_ts, SameKey, ParseKey, split_ts. intros Ha Hb. simpl.
  rewrite (bool_decide_eq_false_2 (len a < 8)), (bool_decide_eq_false_2 (len b < 8)) by lia.
  case_bool_decide as Hl; [|by rewrite bool_decide_eq_true].
  split; [done|]. intros H%(f_equal length). rewrite !length_take in H.
  unfold len in *. lia.
Qed.

(** A key with a suffix is the versioned key of its two halves. *)
Lemma KeyWithTs_eta key :
  has_ts key -> KeyWithTs (ParseKey key) (u64 (MaxUint64 - be_decode (split_ts key).2)) = key.
Proof.
  intros H. unfold has_ts in H. unfold ParseKey.
  rewrite bool_decide_eq_false_2 by lia. unfold KeyWithTs, split_ts. simpl.
  set (d := drop _ key).
  assert (length d = 8%nat) as Hd by (unfold d; rewrite length_drop; unfold len in *; lia).
  pose proof (be_decode_range d) as Hr. unfold len in Hr. rewrite Hd in Hr.
  change (8 * Z.of_nat 8) with 64 in Hr.
  rewrite (u64_small (MaxUint64 - be_decode d)) by (unfold MaxUint64; lia).
  rewrite u64_small by (unfold MaxUint64; lia).
  replace (MaxUint64 - (MaxUint64 - be_decode d)) with (be_decode d) by lia.
  assert (be_encode 8 (be_decode d) = d) as -> by (rewrite <- Hd; apply be_encode_decode).
  apply take_drop.
Qed.

Lemma compareKeys_KeyWithTs k1 t1 k2 t2 :
  0 <= t1 <= MaxUint64 -> 0 <= t2 <= MaxUint64 ->
  compareKeys (KeyWithTs k1 t1) (KeyWithTs k2 t2)
  = match bytes_Compare k1 k2 with Eq => Z.compare t2 t1 | c => c end.
Proof.
  intros H1 H2. unfold compareKeys, cmp_pair. rewrite !split_KeyWithTs. cbn [fst snd].
  destruct (bytes_Compare k1 k2); [|reflexivity|reflexivity].
  rewrite bytes_Compare_be by (by rewrite !be_encode_length).
  rewrite !be_roundtrip8, !wrap_wrap, !u64_small by lia.
  destruct (Z.compare_spec t2 t1); [apply Z.compare_eq_iff|apply Z.compare_lt_iff|
    apply Z.compare_gt_iff]; lia.
Qed.

(** On keys with a suffix the partial and the total comparison agree. *)
Lemma CompareKeys_total k1 k2 :
  has_ts k1 -> has_ts k2 -> CompareKeys k1 k2 = Some (compareKeys k1 k2).
Proof.
  unfold has_ts. intros H1 H2. unfold CompareKeys, slice_from, slice.
  rewrite !bool_decide_eq_true_2 by lia.
  assert (forall k, 8 <= len k ->
    take (Z.to_nat (len k - 8 - 0)) (drop (Z.to_nat 0) k) = (split_ts k).1 /\
    take (Z.to_nat (len k - (len k - 8))) (drop (Z.to_nat (len k - 8)) k) = (split_ts k).2) as HE.
  { intros k Hk. unfold split_ts, len in *. simpl. split; [f_equal; lia|].
    rewrite take_ge; [f_equal; lia|]. rewrite length_drop. lia. }
  destruct (HE _ H1) as [E1 E2], (HE _ H2) as [E3 E4].
  cbn [mbind option_bind]. rewrite E1, E2, E3, E4.
  unfold compareKeys, cmp_pair. by destruct (bytes_Compare _ _).
Qed.

Lemma CompareKeys_panics k1 k2 :
  ~ has_ts k1 \/ ~ has_ts k2 -> CompareKeys k1 k2 = None.
Proof.
  assert (forall k : bytes, ~ has_ts k -> slice k 0 (len k - 8) = None) as Hn.
  { unfold has_ts, slice. intros k Hk. by rewrite bool_decide_eq_false_2 by lia. }
  unfold CompareKeys. intros [H%Hn|H%Hn]; rewrite H; [done|].
  by destruct (slice k1 _ _).
Qed.

(** ** User keys: what is left of a key without its version *)

Lemma has_ts_eta key :
  has_ts key -> exists k v, key = KeyWithTs k v /\ 0 <= v <= MaxUint64.
Proof.
  intros H. rewrite <- (KeyWithTs_eta key H). eexists _, _. split; [done|].
  pose proof (wrap_range 64 (MaxUint64 - be_decode (split_ts key).2) ltac:(lia)).
  unfold MaxUint64 in *. lia.
Qed.

Lemma ParseTs_range key : 0 <= ParseTs key < 2 ^ 64.
Proof. unfold ParseTs. case_bool_decide; [lia|]. apply wrap_range. lia. Qed.

Definition ukey (key : bytes) : bytes := (split_ts key).1.

Arguments ukey : simpl never.

Lemma SameKey_ukey a b : has_ts a -> has_ts b -> SameKey a b = bool_decide (ukey a = ukey b).
Proof.
  intros Ha Hb. apply eq_bool_prop_intro. rewrite bool_decide_spec.
  rewrite <- (SameKey_spec a b Ha Hb). by destruct (SameKey a b).
Qed.

Lemma SameKey_nil a : has_ts a -> SameKey a [] = false.
Proof.
  unfold has_ts, SameKey. intros Ha. by rewrite bool_decide_eq_true_2 by (change (len []) with 0; lia).
Qed.

Lemma SameKey_nil_l a : has_ts a -> SameKey [] a = false.
Proof.
  unfold has_ts, SameKey. intros Ha. by rewrite bool_decide_eq_true_2 by (change (len []) with 0; lia).
Qed.

Lemma has_ts_pos k : has_ts k -> bool_decide (0 < len k) = true.
Proof. unfold has_ts. intros H. apply bool_decide_eq_true. lia. Qed.

Lemma ukey_KeyWithTs k v : ukey (KeyWithTs k v) = k.
Proof. unfold ukey. by rewrite split_KeyWithTs. Qed.

Lemma compareKeys_ukey a b : compareKeys a b <> Gt -> bytes_Compare (ukey a) (ukey b) <> Gt.
Proof. unfold compareKeys, cmp_pair, ukey. by destruct (bytes_Compare _ _). Qed.

(** What lies between two versions of a user key is a version of it. *)
Lemma ukey_between a b c :
  compareKeys a b = Lt -> compareKeys b c = Lt -> ukey a = ukey c -> ukey b = ukey a.
Proof.
  intros Hab Hbc E. pose proof (compareKeys_ukey a b ltac:(by rewrite Hab)) as H1.
  pose proof (compareKeys_ukey b c ltac:(by rewrite Hbc)) as H2. rewrite <- E in H2.
  by apply (cmp_le_antisym bytes_Compare).
Qed.

Definition key_ok (key : bytes) : Prop := 8 < len key.

Lemma key_ok_ts key : key_ok key -> has_ts key.
Proof. unfold key_ok, has_ts. lia. Qed.

(** A key with a user key and a timestamp. *)
Lemma key_ok_eta key : key_ok key -> exists k ts, k <> [] /\ key = KeyWithTs k ts /\ 0 <= ts <= MaxUint64 /\ ParseTs key = ts.
Proof.
  intros Hk. destruct (has_ts_eta key (key_ok_ts key Hk)) as (k & ts & -> & Hts).
  assert (k <> []) as Hne by (intros ->; unfold key_ok, len in Hk; rewrite KeyWithTs_length in Hk; simpl in Hk; lia).
  exists k, ts. by rewrite ParseTs_KeyWithTs.
Qed.

Lemma KeyWithTs_of key : key_ok key -> key = KeyWithTs (ukey key) (ParseTs key) /\ ukey key <> [].
Proof.
  intros H. destruct (has_ts_eta key (key_ok_ts key H)) as (k & v & -> & Hv).
  assert (k <> []) as Hk.
  { intros ->. unfold key_ok, len in H. rewrite KeyWithTs_length in H. simpl in H. lia. }
  unfold ukey. rewrite split_KeyWithTs, ParseTs_KeyWithTs by done. done.
Qed.

Lemma version_lt a b :
  key_ok a -> key_ok b -> ukey a = ukey b -> compareKeys a b = Lt <-> ParseTs b < ParseTs a.
Proof.
  intros Ha Hb E. rewrite (proj1 (KeyWithTs_of a Ha)), (proj1 (KeyWithTs_of b Hb)) at 1. rewrite E.
  rewrite compareKeys_KeyWithTs by (pose proof (ParseTs_range a); pose proof (ParseTs_range b); unfold MaxUint64; lia).
  rewrite (cmp_refl bytes_Compare). apply Z.compare_lt_iff.
Qed.

Lemma ParseKey_ukey key : has_ts key -> ParseKey key = ukey key.
Proof.
  unfold has_ts, ParseKey, ukey, split_ts. intros H. by rewrite bool_decide_eq_false_2 by lia.
Qed.

(** ** Properties *)

(** versioned keys sort by user key and, among the versions of one user key, newest
    first; the key and the timestamp read back are the ones put in, and [SameKey] ignores the
    timestamp. *)
Theorem versioned_keys_order (k1 k2 : bytes) (t1 t2 : Z) :
  k1 <> [] -> k2 <> [] -> 0 <= t1 <= MaxUint64 -> 0 <= t2 <= MaxUint64 ->
  CompareKeys (KeyWithTs k1 t1) (KeyWithTs k2 t2)
  = Some (match bytes_Compare k1 k2 with Eq => Z.compare t2 t1 | c => c end) /\
  SameKey (KeyWithTs k1 t1) (KeyWithTs k2 t2) = bool_decide (k1 = k2) /\
  ParseKey (KeyWithTs k1 t1) = k1 /\ ParseTs (KeyWithTs k1 t1) = t1.
Proof.
  intros Hk1 Hk2 H1 H2. split_and!.
  - rewrite CompareKeys_total by apply KeyWithTs_has_ts. by rewrite compareKeys_KeyWithTs.
  - apply eq_true_iff_eq. rewrite bool_decide_eq_true, SameKey_spec by apply KeyWithTs_has_ts.
    by rewrite !split_KeyWithTs.
  - apply ParseKey_KeyWithTs.
  - by apply ParseTs_KeyWithTs.
Qed.

Lemma versioned_keys_order_witness :
  CompareKeys (KeyWithTs [x61] 3) (KeyWithTs [x61; x00] 7) = Some Lt /\
  SameKey (KeyWithTs [x61] 3) (KeyWithTs [x61; x00] 7) = false /\
  ParseKey (KeyWithTs [x61] 3) = [x61] /\ ParseTs (KeyWithTs [x61] 3) = 3.
Proof.
  apply (versioned_keys_order [x61] [x61; x00] 3 7); [done|done|by vm_compute|by vm_compute].
Defined.
