(* ===== verification/Codec.v ===== *)
(** * Codec: varints, value structs, log headers and value pointers

    Models [encoding/binary]'s unsigned varints as the source uses them, [ValueStruct] of
    [y/iterator.go] (the value half of every key-value pair in the LSM tree) and the [header],
    [valuePointer] and [Entry] of [structs.go].  A decoder that indexes past its buffer panics
    in Go and is [None] here. *)

From S2P Require Import Prelude Keys.

(** ** Unsigned varints *)

(** [binary.PutUvarint]: the bytes it stores.  Nine continuation bytes are enough for 64 bits,
    so the fuel below is never the reason the loop stops. *)
Fixpoint put_loop (fuel : nat) (x : Z) : bytes :=
  match fuel with
  | O => [z2b x]
  | S fuel =>
      if bool_decide (128 <= x)
      then z2b (Z.lor (u8 x) 128) :: put_loop fuel (Z.shiftr x 7)
      else [z2b x]
  end.

Definition PutUvarint (x : Z) : bytes := put_loop 9 x.

Definition MaxVarintLen64 : Z := 10.

(** [binary.Uvarint]: the value and the bytes read; 0 for a short buffer, negative for
    overflow. *)
Fixpoint uvarint_loop (buf : bytes) (i x s : Z) : Z * Z :=
  match buf with
  | [] => (0, 0)
  | b :: buf =>
      if bool_decide (i = MaxVarintLen64) then (0, - (i + 1))
      else if bool_decide (b2z b < 128) then
        if bool_decide (i = MaxVarintLen64 - 1 /\ 1 < b2z b) then (0, - (i + 1))
        else (Z.lor x (u64 (Z.shiftl (b2z b) s)), i + 1)
      else uvarint_loop buf (i + 1)
             (Z.lor x (u64 (Z.shiftl (Z.land (b2z b) 127) s))) (s + 7)
  end.

Definition Uvarint (buf : bytes) : Z * Z := uvarint_loop buf 0 0 0.

(** [sizeVarint]: shift right by seven until nothing is left. *)
Fixpoint sizeVarint_loop (fuel : nat) (x n : Z) : Z :=
  match fuel with
  | O => n
  | S fuel =>
      let n := n + 1 in
      let x := Z.shiftr x 7 in
      if bool_decide (x = 0) then n else sizeVarint_loop fuel x n
  end.

Definition sizeVarint (x : Z) : Z := sizeVarint_loop 10 x 0.

Definition is_u64 (x : Z) : Prop := 0 <= x < 2 ^ 64.
Definition is_u32 (x : Z) : Prop := 0 <= x < 2 ^ 32.

Lemma cont_byte x :
  b2z (z2b (Z.lor (u8 x) 128)) = 128 + x mod 128 /\
  Z.land (b2z (z2b (Z.lor (u8 x) 128))) 127 = x mod 128.
Proof.
  assert (forall b, b2z (z2b (Z.lor (b2z b) 128)) = 128 + b2z b mod 128 /\
    Z.land (b2z (z2b (Z.lor (b2z b) 128))) 127 = b2z b mod 128) as H
    by (intros []; split; reflexivity).
  specialize (H (z2b x)). rewrite (b2z_z2b x) in H. change (x mod 256) with (u8 x) in H.
  replace (x mod 128) with (u8 x mod 128); [done|].
  unfold wrap. change (2 ^ 8) with (128 * 2).
  rewrite Z.rem_mul_r by lia. rewrite Z.mul_comm, Z.mod_add by lia. apply Zmod_mod.
Qed.

Lemma put_loop_length fuel x : 1 <= len (put_loop fuel x) <= Z.of_nat fuel + 1.
Proof.
  revert x. induction fuel as [|fuel IH]; intros x; simpl; [done|].
  case_bool_decide; [|unfold len; simpl; lia].
  specialize (IH (Z.shiftr x 7)). unfold len in *. simpl length. lia.
Qed.

Lemma PutUvarint_length x : 1 <= len (PutUvarint x) <= 10.
Proof. apply (put_loop_length 9). Qed.

Lemma uvarint_put fuel i x v rest :
  0 <= i -> i + Z.of_nat fuel = 9 -> 0 <= v -> v * 2 ^ (7 * i) < 2 ^ 64 ->
  0 <= x < 2 ^ (7 * i) ->
  uvarint_loop (put_loop fuel v ++ rest) i x (7 * i)
  = (x + v * 2 ^ (7 * i), i + len (put_loop fuel v)).
Proof.
  revert i x v. induction fuel as [|fuel IH]; intros i x v Hi Hf Hv Hlt Hx.
  { assert (i = 9) as -> by lia. change (2 ^ (7 * 9)) with (2 ^ 63) in *.
    assert (v < 2) as Hv2 by lia. cbn [put_loop app uvarint_loop].
    rewrite b2z_z2b, (Z.mod_small v) by lia.
    unfold MaxVarintLen64. rewrite bool_decide_eq_false_2 by lia.
    rewrite bool_decide_eq_true_2 by lia. rewrite bool_decide_eq_false_2 by lia.
    rewrite wrap_small; [|rewrite Z.shiftl_mul_pow2 by lia; lia].
    rewrite Z.lor_comm, lor_shiftl_add by lia. f_equal; lia. }
  assert (0 < 2 ^ (7 * i)) as HP by lia.
  cbn [put_loop]. case_bool_decide as Hge; cbn [app uvarint_loop].
  - unfold MaxVarintLen64. rewrite bool_decide_eq_false_2 by lia.
    destruct (cont_byte v) as [-> ->].
    rewrite bool_decide_eq_false_2 by (pose proof (Z.mod_pos_bound v 128); lia).
    pose proof (Z.div_mod v 128 ltac:(lia)) as Hdm.
    pose proof (Z.mod_pos_bound v 128 ltac:(lia)) as Hm.
    rewrite wrap_small; [|rewrite Z.shiftl_mul_pow2 by lia; nia].
    rewrite Z.lor_comm, lor_shiftl_add by lia.
    rewrite Z.shiftr_div_pow2 by lia. change (2 ^ 7) with 128.
    assert (2 ^ (7 * (i + 1)) = 128 * 2 ^ (7 * i)) as HP1.
    { replace (7 * (i + 1)) with (7 + 7 * i) by lia. rewrite Z.pow_add_r by lia. done. }
    replace (7 * i + 7) with (7 * (i + 1)) by lia.
    rewrite IH; [|lia|lia|apply Z.div_pos; lia|rewrite HP1; nia|rewrite HP1; nia].
    rewrite HP1. f_equal; [nia|]. unfold len. simpl length. lia.
  - rewrite b2z_z2b, (Z.mod_small v) by lia.
    unfold MaxVarintLen64. rewrite bool_decide_eq_false_2 by lia.
    rewrite bool_decide_eq_true_2 by lia. rewrite bool_decide_eq_false_2 by lia.
    rewrite wrap_small; [|rewrite Z.shiftl_mul_pow2 by lia; lia].
    rewrite Z.lor_comm, lor_shiftl_add by lia. f_equal; lia.
Qed.

Lemma Uvarint_Put x rest :
  is_u64 x -> Uvarint (PutUvarint x ++ rest) = (x, len (PutUvarint x)).
Proof.
  intros Hx. unfold is_u64 in Hx. unfold Uvarint, PutUvarint.
  rewrite (uvarint_put 9 0); [f_equal; lia|lia..].
Qed.

Lemma sizeVarint_put fuel x n :
  0 <= x < 2 ^ (7 * Z.of_nat (S fuel)) ->
  sizeVarint_loop (S fuel) x n = n + len (put_loop fuel x).
Proof.
  revert x n. induction fuel as [|fuel IH]; intros x n Hx.
  - cbn [sizeVarint_loop put_loop]. rewrite Z.shiftr_div_pow2 by lia.
    change (7 * Z.of_nat 1) with 7 in Hx.
    rewrite Z.div_small by lia. by rewrite bool_decide_eq_true_2.
  - remember (S fuel) as f. cbn [sizeVarint_loop]. subst f. cbn [put_loop].
    rewrite Z.shiftr_div_pow2 by lia. change (2 ^ 7) with 128.
    case_bool_decide as H0.
    + rewrite bool_decide_eq_false_2; [done|].
      intros Hge. pose proof (Z.div_mod x 128). pose proof (Z.mod_pos_bound x 128). lia.
    + rewrite bool_decide_eq_true_2.
      2: { destruct (decide (x < 128)); [|lia]. rewrite Z.div_small in H0; lia. }
      rewrite IH; [unfold len; simpl length; lia|].
      replace (7 * Z.of_nat (S (S fuel))) with (7 + 7 * Z.of_nat (S fuel)) in Hx by lia.
      rewrite Z.pow_add_r in Hx by lia. change (2 ^ 7) with 128 in Hx.
      split; [apply Z.div_pos; lia|apply Z.div_lt_upper_bound; lia].
Qed.

Lemma sizeVarint_length x : is_u64 x -> sizeVarint x = len (PutUvarint x).
Proof. intros H. apply (sizeVarint_put 9). unfold is_u64 in H. simpl. lia. Qed.

Arguments PutUvarint : simpl never.
Arguments Uvarint : simpl never.
Arguments sizeVarint : simpl never.

(** ** Writing into a preallocated buffer *)

(** Storing [bs] at [buf[i:]] byte by byte: an index past the end panics. *)
Definition store_at (buf : bytes) (i : Z) (bs : bytes) : option bytes :=
  if bool_decide (0 <= i /\ i + len bs <= len buf)
  then Some (take (Z.to_nat i) buf ++ bs ++ drop (Z.to_nat i + length bs) buf)
  else None.

(** [copy(buf[i:], src)]: the buffer and the number of bytes copied. *)
Definition copy_at (buf : bytes) (i : Z) (src : bytes) : option (bytes * Z) :=
  if bool_decide (0 <= i <= len buf) then
    let n := Z.min (len buf - i) (len src) in
    b ← store_at buf i (take (Z.to_nat n) src);
    Some (b, n)
  else None.

Lemma store_at_app (a old c bs : bytes) :
  length old = length bs -> store_at (a ++ old ++ c) (len a) bs = Some (a ++ bs ++ c).
Proof.
  intros Hl. unfold store_at.
  rewrite bool_decide_eq_true_2 by (rewrite !len_app; unfold len; lia).
  unfold len. rewrite Nat2Z.id, take_app_length, <- Hl, drop_app, drop_ge by lia.
  replace (length a + length old - length a)%nat with (length old) by lia.
  by rewrite drop_app_length.
Qed.

Lemma store_at_0 (old c bs : bytes) :
  length old = length bs -> store_at (old ++ c) 0 bs = Some (bs ++ c).
Proof. apply (store_at_app []). Qed.

Lemma copy_at_app (a old c bs : bytes) :
  length old = length bs -> copy_at (a ++ old ++ c) (len a) bs = Some (a ++ bs ++ c, len bs).
Proof.
  intros Hl. unfold copy_at.
  rewrite bool_decide_eq_true_2 by (rewrite !len_app; unfold len; lia).
  replace (Z.min _ _) with (len bs) by (rewrite !len_app; unfold len; lia).
  cbv zeta. rewrite to_nat_len, firstn_all.
  by rewrite store_at_app.
Qed.

(** ** [ValueStruct] (y/iterator.go) *)

(** [Value] is [None] for Go's nil slice: lookups tell a missing key from an empty value by
    it. *)
Record ValueStruct : Type := mkVS {
  Meta : byte;
  UserMeta : byte;
  ExpiresAt : Z;
  Value : option bytes;
  Version : Z
}.

#[export] Instance ValueStruct_eq_decision : EqDecision ValueStruct.
Proof. solve_decision. Defined.

(** The bytes of a slice, nil or not. *)
Definition vbytes (v : option bytes) : bytes := default [] v.

(** [SafeCopy] (y.go): the copy is never nil. *)
Definition SafeCopy (a : bytes) (src : option bytes) : option bytes := Some (take 0 a ++ vbytes src).

Definition vs_zero : ValueStruct := mkVS x00 x00 0 None 0.

Definition EncodedSize (v : ValueStruct) : Z :=
  let sz := len (vbytes (Value v)) + 2 in
  let enc := sizeVarint (ExpiresAt v) in
  u32 (sz + enc).

Definition EncodeTo (v : ValueStruct) : bytes :=
  [Meta v; UserMeta v] ++ PutUvarint (ExpiresAt v) ++ vbytes (Value v).

Definition Encode (v : ValueStruct) (b : bytes) : option (bytes * Z) :=
  b ← store_at b 0 [Meta v];
  b ← store_at b 1 [UserMeta v];
  let enc := PutUvarint (ExpiresAt v) in
  let sz := len enc in
  b ← store_at b 2 enc;
  '(b, n) ← copy_at b (2 + sz) (vbytes (Value v));
  Some (b, u32 (2 + sz + n)).

(** [Decode] overwrites every field but [Version]. *)
Definition Decode (v : ValueStruct) (b : bytes) : option ValueStruct :=
  meta ← b !! 0%nat;
  userMeta ← b !! 1%nat;
  b2 ← slice_from b 2;
  let '(expiresAt, sz) := Uvarint b2 in
  value ← slice_from b (2 + sz);
  Some (mkVS meta userMeta expiresAt (Some value) (Version v)).

Lemma EncodeTo_size v :
  is_u64 (ExpiresAt v) -> len (EncodeTo v) = len (vbytes (Value v)) + 2 + sizeVarint (ExpiresAt v).
Proof.
  intros H. rewrite sizeVarint_length by done. unfold EncodeTo. rewrite !len_app.
  unfold len. simpl. lia.
Qed.

Lemma EncodedSize_EncodeTo v :
  is_u64 (ExpiresAt v) -> EncodedSize v = u32 (len (EncodeTo v)).
Proof. intros H. unfold EncodedSize. by rewrite EncodeTo_size. Qed.

Lemma Encode_EncodeTo v old rest :
  length old = length (EncodeTo v) ->
  Encode v (old ++ rest) = Some (EncodeTo v ++ rest, u32 (len (EncodeTo v))).
Proof.
  intros Hl. unfold EncodeTo in Hl. simpl in Hl. rewrite length_app in Hl.
  destruct old as [|o0 [|o1 old]]; [done..|]. simpl in Hl.
  set (e := PutUvarint (ExpiresAt v)) in *. set (x := vbytes (Value v)) in *.
  assert (exists oe ox, old = oe ++ ox /\ length oe = length e /\ length ox = length x)
    as (oe & ox & -> & He & Hx).
  { exists (take (length e) old), (drop (length e) old).
    rewrite take_drop, length_take, length_drop. split_and!; [done|lia|lia]. }
  unfold Encode. fold e x. cbv zeta.
  replace ((o0 :: o1 :: oe ++ ox) ++ rest) with ([] ++ [o0] ++ (o1 :: oe ++ ox ++ rest))
    by (simpl; by rewrite app_assoc).
  change 0 with (@len byte []). rewrite store_at_app by done. cbn [mbind option_bind].
  change ([] ++ [Meta v] ++ o1 :: oe ++ ox ++ rest)
    with ([Meta v] ++ [o1] ++ (oe ++ ox ++ rest)).
  change 1 with (len [Meta v]). rewrite store_at_app by done. cbn [mbind option_bind].
  change ([Meta v] ++ [UserMeta v] ++ oe ++ ox ++ rest)
    with ([Meta v; UserMeta v] ++ oe ++ (ox ++ rest)).
  change 2 with (len [Meta v; UserMeta v]). rewrite store_at_app by done.
  cbn [mbind option_bind].
  rewrite (app_assoc [Meta v; UserMeta v]). rewrite <- (len_app _ e).
  rewrite copy_at_app by done. cbn [mbind option_bind]. rewrite <- (len_app _ x).
  unfold EncodeTo. fold e x. by rewrite <- !app_assoc.
Qed.

Lemma Decode_EncodeTo v w :
  is_u64 (ExpiresAt v) ->
  Decode w (EncodeTo v)
  = Some (mkVS (Meta v) (UserMeta v) (ExpiresAt v) (Some (vbytes (Value v))) (Version w)).
Proof.
  intros H. unfold Decode.
  change (EncodeTo v !! 0%nat) with (Some (Meta v)).
  change (EncodeTo v !! 1%nat) with (Some (UserMeta v)). cbn [mbind option_bind].
  set (e := PutUvarint (ExpiresAt v)). set (x := vbytes (Value v)).
  change (slice_from (EncodeTo v) 2)
    with (slice_from ([Meta v; UserMeta v] ++ (e ++ x)) (len [Meta v; UserMeta v])).
  rewrite slice_from_app. cbn [mbind option_bind]. unfold e.
  rewrite Uvarint_Put by done. fold e.
  change (EncodeTo v) with ([Meta v; UserMeta v] ++ (e ++ x)). rewrite app_assoc.
  change 2 with (len [Meta v; UserMeta v]). rewrite <- len_app.
  by rewrite slice_from_app.
Qed.

Lemma Decode_EncodeTo_fields b w v :
  Decode w b = Some v -> exists x, Value v = Some x /\ Version v = Version w.
Proof.
  unfold Decode. intros H. simplify_option_eq. destruct (Uvarint _) as [e sz].
  simplify_option_eq. eauto.
Qed.

Arguments Encode : simpl never.
Arguments Decode : simpl never.
Arguments EncodeTo : simpl never.
Arguments EncodedSize : simpl never.

(** ** [valuePointer] (structs.go)

    [Encode] and [Decode] copy the struct's memory: three little-endian 32-bit words in
    declaration order, the layout on the supported (little-endian) targets. *)

Record valuePointer : Type := mkVP { Fid : Z; Len : Z; Offset : Z }.

#[export] Instance valuePointer_eq_decision : EqDecision valuePointer.
Proof. solve_decision. Defined.

Definition vptrSize : Z := 12.

Definition vp_Less (p o : valuePointer) : bool :=
  if bool_decide (Fid p <> Fid o) then bool_decide (Fid p < Fid o)
  else if bool_decide (Offset p <> Offset o) then bool_decide (Offset p < Offset o)
  else bool_decide (Len p < Len o).

Definition vp_IsZero (p : valuePointer) : bool :=
  bool_decide (Fid p = 0 /\ Offset p = 0 /\ Len p = 0).

Definition vp_Encode (p : valuePointer) : bytes :=
  le_encode 4 (Fid p) ++ le_encode 4 (Len p) ++ le_encode 4 (Offset p).

Definition vp_Decode (b : bytes) : option valuePointer :=
  b ← slice b 0 vptrSize;
  Some (mkVP (le_decode (take 4 b)) (le_decode (take 4 (drop 4 b))) (le_decode (drop 8 b))).

Definition vp_wf (p : valuePointer) : Prop := is_u32 (Fid p) /\ is_u32 (Len p) /\ is_u32 (Offset p).

Lemma vp_Encode_length p : len (vp_Encode p) = vptrSize.
Proof. unfold vp_Encode. rewrite !len_app. unfold len. by rewrite !le_encode_length. Qed.

Lemma vp_Decode_Encode p rest :
  vp_wf p -> vp_Decode (vp_Encode p ++ rest) = Some p.
Proof.
  intros (Hf & Hl & Ho). unfold vp_Decode.
  pose proof (slice_app_mid [] (vp_Encode p) rest) as Hs.
  rewrite vp_Encode_length, app_nil_l in Hs. change (len [] + vptrSize) with vptrSize in Hs.
  change (@len byte []) with 0 in Hs. rewrite Hs. cbn [mbind option_bind].
  unfold vp_Encode. unfold is_u32 in *.
  rewrite (take_app_length' (le_encode 4 (Fid p))) by (by rewrite le_encode_length).
  rewrite (drop_app_length' (le_encode 4 (Fid p))) by (by rewrite le_encode_length).
  rewrite (take_app_length' (le_encode 4 (Len p))) by (by rewrite le_encode_length).
  rewrite (app_assoc (le_encode 4 (Fid p))).
  rewrite (drop_app_length' (le_encode 4 (Fid p) ++ _))
    by (by rewrite length_app, !le_encode_length).
  rewrite !le_decode_encode. change (8 * Z.of_nat 4) with 32.
  rewrite !Z.mod_small by done. by destruct p.
Qed.

(** The order of [Less] is the lexicographic order on (Fid, Offset, Len). *)
Lemma vp_Less_spec p o :
  vp_Less p o = bool_decide
    (cmp_pair Z.compare (cmp_pair Z.compare Z.compare)
       (Fid p, (Offset p, Len p)) (Fid o, (Offset o, Len o)) = Lt).
Proof.
  unfold vp_Less, cmp_pair; simpl.
  destruct (Z.compare_spec (Fid p) (Fid o)), (Z.compare_spec (Offset p) (Offset o)),
    (Z.compare_spec (Len p) (Len o)); repeat case_bool_decide; done || lia.
Qed.

(** ** The value log entry [header] (structs.go) *)

Record header : Type := mkHeader {
  klen : Z; vlen : Z; expiresAt : Z; hmeta : byte; huserMeta : byte
}.

Definition maxHeaderSize : Z := 22.

(** The bytes [Encode] stores at the front of its output buffer. *)
Definition header_bytes (h : header) : bytes :=
  [hmeta h; huserMeta h] ++ PutUvarint (klen h) ++ PutUvarint (vlen h) ++
  PutUvarint (expiresAt h).

Definition header_Encode (h : header) (out : bytes) : option (bytes * Z) :=
  out ← store_at out 0 [hmeta h; huserMeta h];
  let index := 2 in
  out ← store_at out index (PutUvarint (klen h));
  let index := index + len (PutUvarint (klen h)) in
  out ← store_at out index (PutUvarint (vlen h));
  let index := index + len (PutUvarint (vlen h)) in
  out ← store_at out index (PutUvarint (expiresAt h));
  let index := index + len (PutUvarint (expiresAt h)) in
  Some (out, index).

Definition header_Decode (buf : bytes) : option (header * Z) :=
  m ← buf !! 0%nat;
  um ← buf !! 1%nat;
  let index := 2 in
  b ← slice_from buf index;
  let '(kl, count) := Uvarint b in
  let index := index + count in
  b ← slice_from buf index;
  let '(vl, count) := Uvarint b in
  let index := index + count in
  b ← slice_from buf index;
  let '(ea, count) := Uvarint b in
  Some (mkHeader (u32 kl) (u32 vl) ea m um, index + count).

Definition header_wf (h : header) : Prop :=
  is_u32 (klen h) /\ is_u32 (vlen h) /\ is_u64 (expiresAt h).

Lemma is_u32_u64 x : is_u32 x -> is_u64 x.
Proof. unfold is_u32, is_u64. lia. Qed.

Lemma is_u32_wrap x : is_u32 x -> u32 x = x.
Proof. apply wrap_small. Qed.

(** Varints of 32-bit words take at most five bytes. *)
Lemma PutUvarint_u32_length x : is_u32 x -> len (PutUvarint x) <= 5.
Proof.
  intros H. rewrite <- sizeVarint_length by (by apply is_u32_u64). unfold is_u32 in H.
  assert (sizeVarint x = sizeVarint_loop 5 x 0) as ->.
  { unfold sizeVarint. cbn [sizeVarint_loop]. rewrite !Z.shiftr_shiftr by lia.
    repeat (case_bool_decide; [reflexivity|]). exfalso.
    match goal with H : Z.shiftr x (7 + 7 + 7 + 7 + 7) <> 0 |- _ => apply H end.
    rewrite Z.shiftr_div_pow2 by lia. apply Z.div_small. lia. }
  rewrite (sizeVarint_put 4) by lia. pose proof (put_loop_length 4 x). lia.
Qed.

Lemma header_bytes_length h : header_wf h -> len (header_bytes h) <= maxHeaderSize.
Proof.
  intros (Hk & Hv & He). unfold header_bytes. rewrite !len_app.
  pose proof (PutUvarint_u32_length _ Hk). pose proof (PutUvarint_u32_length _ Hv).
  pose proof (PutUvarint_length (expiresAt h)). unfold maxHeaderSize, len in *. simpl. lia.
Qed.

Lemma header_Decode_bytes h rest :
  header_wf h -> header_Decode (header_bytes h ++ rest) = Some (h, len (header_bytes h)).
Proof.
  intros (Hk & Hv & He). unfold header_Decode.
  change ((header_bytes h ++ rest) !! 0%nat) with (Some (hmeta h)).
  change ((header_bytes h ++ rest) !! 1%nat) with (Some (huserMeta h)).
  cbn [mbind option_bind]. cbv zeta. unfold header_bytes.
  set (m := [hmeta h; huserMeta h]). change 2 with (len m).
  rewrite <- !app_assoc, slice_from_app. cbn [mbind option_bind].
  rewrite Uvarint_Put by (by apply is_u32_u64). cbv iota beta.
  rewrite (app_assoc m), <- len_app, slice_from_app. cbn [mbind option_bind].
  rewrite Uvarint_Put by (by apply is_u32_u64). cbv iota beta.
  rewrite (app_assoc (m ++ _)), <- len_app, slice_from_app. cbn [mbind option_bind].
  rewrite Uvarint_Put by done. cbv iota beta.
  rewrite <- len_app, <- !app_assoc, !is_u32_wrap by done. by destruct h.
Qed.

(** With room for the header, [Encode] stores exactly [header_bytes] and returns their
    number. *)
Lemma header_Encode_bytes h old rest :
  length old = length (header_bytes h) ->
  header_Encode h (old ++ rest) = Some (header_bytes h ++ rest, len (header_bytes h)).
Proof.
  intros Hl. unfold header_bytes in *. set (m := [hmeta h; huserMeta h]) in *.
  set (k := PutUvarint (klen h)) in *. set (v := PutUvarint (vlen h)) in *.
  set (e := PutUvarint (expiresAt h)) in *. rewrite !length_app in Hl.
  assert (exists om ok ov oe, old = om ++ ok ++ ov ++ oe /\ length om = length m /\
    length ok = length k /\ length ov = length v /\ length oe = length e)
    as (om & ok & ov & oe & -> & Hm & Hk & Hv & He).
  { exists (take (length m) old), (take (length k) (drop (length m) old)),
      (take (length v) (drop (length k) (drop (length m) old))),
      (drop (length v) (drop (length k) (drop (length m) old))).
    rewrite !take_drop, !length_take, !length_drop. split_and!; done || lia. }
  unfold header_Encode. fold m k v e. cbv zeta. rewrite <- !app_assoc.
  rewrite store_at_0 by done. cbn [mbind option_bind].
  change 2 with (len m). rewrite store_at_app by done. cbn [mbind option_bind].
  rewrite (app_assoc m), <- len_app, store_at_app by done. cbn [mbind option_bind].
  rewrite (app_assoc (m ++ k)), <- len_app, store_at_app by done. cbn [mbind option_bind].
  by rewrite <- len_app, <- !app_assoc.
Qed.

Arguments header_Encode : simpl never.
Arguments header_Decode : simpl never.
Arguments header_bytes : simpl never.

(** ** Meta bits (value.go) *)

Definition bitDelete : Z := Z.shiftl 1 0.
Definition bitValuePointer : Z := Z.shiftl 1 1.
Definition bitDiscardEarlierVersions : Z := Z.shiftl 1 2.
Definition bitMergeEntry : Z := Z.shiftl 1 3.
Definition bitTxn : Z := Z.shiftl 1 6.
Definition bitFinTxn : Z := Z.shiftl 1 7.

(** [meta & bit > 0], the test the source writes everywhere. *)
Definition has_bit (meta : byte) (bit : Z) : bool := bool_decide (0 < Z.land (b2z meta) bit).

(** [meta | bit] and [meta & ^bit] (Go's [&^=]) on bytes. *)
Definition set_bit (meta : byte) (bit : Z) : byte := z2b (Z.lor (b2z meta) bit).
Definition clear_bit (meta : byte) (bit : Z) : byte := z2b (Z.ldiff (b2z meta) bit).

Definition meta_bits : list Z :=
  [bitDelete; bitValuePointer; bitDiscardEarlierVersions; bitMergeEntry; bitTxn; bitFinTxn].

(** The six bits are independent: setting or clearing one never changes the test of another. *)
Lemma has_set_bit meta b b' :
  b ∈ meta_bits -> b' ∈ meta_bits ->
  has_bit (set_bit meta b) b' = bool_decide (b = b') || has_bit meta b'.
Proof.
  unfold meta_bits. intros Hb Hb'.
  set_unfold in Hb. set_unfold in Hb'.
  destruct Hb as [->|[->|[->|[->|[->|[->|[]]]]]]];
    destruct Hb' as [->|[->|[->|[->|[->|[->|[]]]]]]]; destruct meta; vm_compute; reflexivity.
Qed.

Lemma has_clear_bit meta b b' :
  b ∈ meta_bits -> b' ∈ meta_bits ->
  has_bit (clear_bit meta b) b' = negb (bool_decide (b = b')) && has_bit meta b'.
Proof.
  unfold meta_bits. intros Hb Hb'.
  set_unfold in Hb. set_unfold in Hb'.
  destruct Hb as [->|[->|[->|[->|[->|[->|[]]]]]]];
    destruct Hb' as [->|[->|[->|[->|[->|[->|[]]]]]]]; destruct meta; vm_compute; reflexivity.
Qed.

(** [isDeletedOrExpired] (iterator.go); [now] is the clock. *)
Definition isDeletedOrExpired (meta : byte) (expiresAt now : Z) : bool :=
  if has_bit meta bitDelete then true
  else if bool_decide (expiresAt = 0) then false
  else bool_decide (expiresAt <= u64 now).

(** ** [Entry] (structs.go) *)

Record Entry : Type := mkEntry {
  eKey : bytes;
  eValue : option bytes;
  eExpiresAt : Z;
  eversion : Z;
  eoffset : Z;
  eUserMeta : byte;
  emeta : byte;
  ehlen : Z;
  evalThreshold : Z
}.

#[export] Instance Entry_eq_decision : EqDecision Entry.
Proof. solve_decision. Defined.

Definition NewEntry (key : bytes) (value : option bytes) : Entry :=
  mkEntry key value 0 0 0 x00 x00 0 0.

Definition Entry_isZero (e : Entry) : bool := bool_decide (len (eKey e) = 0).

Definition set_evalThreshold (e : Entry) (t : Z) : Entry :=
  mkEntry (eKey e) (eValue e) (eExpiresAt e) (eversion e) (eoffset e) (eUserMeta e) (emeta e)
    (ehlen e) t.

Definition set_eoffset (e : Entry) (o : Z) : Entry :=
  mkEntry (eKey e) (eValue e) (eExpiresAt e) (eversion e) o (eUserMeta e) (emeta e)
    (ehlen e) (evalThreshold e).

Definition set_emeta (e : Entry) (m : byte) : Entry :=
  mkEntry (eKey e) (eValue e) (eExpiresAt e) (eversion e) (eoffset e) (eUserMeta e) m
    (ehlen e) (evalThreshold e).

Definition set_eKey (e : Entry) (k : bytes) : Entry :=
  mkEntry k (eValue e) (eExpiresAt e) (eversion e) (eoffset e) (eUserMeta e) (emeta e)
    (ehlen e) (evalThreshold e).

Definition set_eversion (e : Entry) (v : Z) : Entry :=
  mkEntry (eKey e) (eValue e) (eExpiresAt e) v (eoffset e) (eUserMeta e) (emeta e)
    (ehlen e) (evalThreshold e).

(** The threshold sticks to the entry the first time it is looked at. *)
Definition stick_threshold (e : Entry) (threshold : Z) : Entry :=
  if bool_decide (evalThreshold e = 0) then set_evalThreshold e threshold else e.

Definition estimateSizeAndSetThreshold (e : Entry) (threshold : Z) : Z * Entry :=
  let e := stick_threshold e threshold in
  let k := len (eKey e) in
  let v := len (vbytes (eValue e)) in
  if bool_decide (v < evalThreshold e) then (k + v + 2, e) else (k + 12 + 2, e).

Definition skipVlogAndSetThreshold (e : Entry) (threshold : Z) : bool * Entry :=
  let e := stick_threshold e threshold in
  (bool_decide (len (vbytes (eValue e)) < evalThreshold e), e).

Definition WithMeta (e : Entry) (meta : byte) : Entry :=
  mkEntry (eKey e) (eValue e) (eExpiresAt e) (eversion e) (eoffset e) meta (emeta e)
    (ehlen e) (evalThreshold e).

Definition WithDiscard (e : Entry) : Entry := set_emeta e (z2b bitDiscardEarlierVersions).
Definition withMergeBit (e : Entry) : Entry := set_emeta e (z2b bitMergeEntry).

(** [now] is [time.Now()] and [dur] the duration, both in nanoseconds. *)
Definition WithTTL (e : Entry) (now dur : Z) : Entry :=
  mkEntry (eKey e) (eValue e) (u64 ((now + dur) / 1000000000)) (eversion e) (eoffset e)
    (eUserMeta e) (emeta e) (ehlen e) (evalThreshold e).

(** Once set (non-zero), the threshold of an entry no longer depends on the caller's: the size
    estimate that admitted the entry and the later decision where to put its value agree. *)
Lemma threshold_sticks e t t' :
  t <> 0 ->
  let '(sz, e') := estimateSizeAndSetThreshold e t in
  let '(inLSM, e'') := skipVlogAndSetThreshold e' t' in
  e'' = e' /\
  sz = len (eKey e) + 2 + (if inLSM then len (vbytes (eValue e)) else vptrSize).
Proof.
  intros Ht. unfold estimateSizeAndSetThreshold, skipVlogAndSetThreshold, vptrSize.
  unfold stick_threshold.
  repeat (case_bool_decide; cbn [evalThreshold eKey eValue set_evalThreshold] in *);
    split; try done; try lia.
Qed.

(** ** Properties *)

(** [ValueStruct.Encode] into a buffer of [EncodedSize] bytes fills it with exactly the
    bytes [EncodeTo] appends, and [Decode] of that buffer gives back every serialized field
    (the value as a non-nil slice; [Version] is left alone), whatever the buffer held. *)
Theorem ValueStruct_Encode_Decode (v w : ValueStruct) (buf : bytes) :
  is_u64 (ExpiresAt v) ->
  len (vbytes (Value v)) + 12 < 2 ^ 32 ->
  len buf = EncodedSize v ->
  Encode v buf = Some (EncodeTo v, EncodedSize v) /\
  Decode w (EncodeTo v)
  = Some (mkVS (Meta v) (UserMeta v) (ExpiresAt v) (Some (vbytes (Value v))) (Version w)).
Proof.
  intros He Hl Hb. split; [|by apply Decode_EncodeTo].
  rewrite EncodedSize_EncodeTo in Hb |- * by done.
  assert (u32 (len (EncodeTo v)) = len (EncodeTo v)) as E.
  { apply wrap_small. rewrite EncodeTo_size by done.
    rewrite sizeVarint_length by done. pose proof (PutUvarint_length (ExpiresAt v)).
    pose proof (len_nonneg (vbytes (Value v))). lia. }
  pose proof (Encode_EncodeTo v buf []) as H. rewrite !app_nil_r in H.
  apply H. unfold len in *. lia.
Qed.

Definition vs_example : ValueStruct := mkVS x01 x02 300 (Some [x61; x62]) 7.

Lemma ValueStruct_Encode_Decode_witness :
  Encode vs_example [x00; x00; x00; x00; x00; x00] = Some (EncodeTo vs_example, 6) /\
  Decode vs_zero (EncodeTo vs_example) = Some (mkVS x01 x02 300 (Some [x61; x62]) 0).
Proof.
  apply (ValueStruct_Encode_Decode vs_example vs_zero [x00; x00; x00; x00; x00; x00]);
    [by vm_compute|by vm_compute|by vm_compute].
Defined.

(** a log entry's header always fits in [maxHeaderSize] bytes; [Decode] of any buffer
    [Encode] wrote to returns the same header and the same number of bytes. *)
Theorem header_Encode_Decode (h : header) (buf : bytes) :
  header_wf h -> len buf = maxHeaderSize ->
  exists out n,
    header_Encode h buf = Some (out, n) /\ n <= maxHeaderSize /\ len out = maxHeaderSize /\
    header_Decode out = Some (h, n).
Proof.
  intros Hw Hb. pose proof (header_bytes_length h Hw) as Hl.
  exists (header_bytes h ++ drop (length (header_bytes h)) buf), (len (header_bytes h)).
  split_and!; [|done| |by apply header_Decode_bytes].
  - rewrite <- (take_drop (length (header_bytes h)) buf) at 1. apply header_Encode_bytes.
    rewrite length_take. unfold len in *. lia.
  - rewrite len_app. unfold len in *. rewrite length_drop. lia.
Qed.

Definition header_example : header := mkHeader 20 4294967295 MaxUint64 x40 x07.

Lemma header_Encode_Decode_witness :
  exists out n,
    header_Encode header_example (repeat x00 22) = Some (out, n) /\ n <= maxHeaderSize /\
    len out = maxHeaderSize /\ header_Decode out = Some (header_example, n).
Proof.
  apply (header_Encode_Decode header_example (repeat x00 22)).
  - split_and!; by vm_compute.
  - reflexivity.
Defined.
