(* ===== verification/Discard.v ===== *)
(** * Discard: what can be discarded of each value log file (discard.go)

    The statistics are an array of 16-byte slots in a mapped file: a file id and a number of
    bytes, the ids in order, an id of 0 behind the last.  A slot is a pair of 64-bit words here.
    The array is shown to be a map from file ids to numbers, which also survives reopening. *)

From S2P Require Import Prelude.

Record discardStats : Type := mkDS {
  ds_Data : list (Z * Z);
  ds_nextEmptySlot : nat
}.

Definition ds_Len (lf : discardStats) : nat := ds_nextEmptySlot lf.

Definition ds_get (lf : discardStats) (slot : nat) : option (Z * Z) := ds_Data lf !! slot.

(** [None]: the slice is out of range. *)
Definition ds_set (lf : discardStats) (slot : nat) (v : Z * Z) : option discardStats :=
  _ ← ds_Data lf !! slot; Some (mkDS (<[slot := v]> (ds_Data lf)) (ds_nextEmptySlot lf)).

Definition zeroOut (lf : discardStats) : option discardStats := ds_set lf (ds_nextEmptySlot lf) (0, 0).

Definition maxSlot (lf : discardStats) : nat := length (ds_Data lf).

(** [sort.Sort], by [Less] and [Swap]: the used slots by file id. *)
Definition ds_sort (lf : discardStats) : discardStats :=
  mkDS (sort_by Z.compare fst (take (ds_nextEmptySlot lf) (ds_Data lf)) ++ drop (ds_nextEmptySlot lf) (ds_Data lf))
    (ds_nextEmptySlot lf).

(** The first slot with id 0, or 0 when there is none. *)
Fixpoint first_empty (data : list (Z * Z)) (slot : nat) : nat :=
  match data with
  | [] => 0
  | v :: data => if bool_decide (v.1 = 0) then slot else first_empty data (slot + 1)
  end.

(** [file]: the slots of the file if there is one; a new file has 65536. *)
Definition InitDiscardStats (file : option (list (Z * Z))) : option discardStats :=
  lf ← match file with
       | None => zeroOut (mkDS (replicate (Z.to_nat (2 ^ 16)) (0, 0)) 0)
       | Some data => Some (mkDS data 0)
       end;
  Some (ds_sort (mkDS (ds_Data lf) (first_empty (ds_Data lf) 0))).

(** The file is doubled until there is a free slot. *)
Fixpoint ds_grow (fuel : nat) (lf : discardStats) : discardStats :=
  match fuel with
  | O => lf
  | S fuel =>
      if bool_decide (maxSlot lf <= ds_nextEmptySlot lf)%nat
      then ds_grow fuel (mkDS (ds_Data lf ++ replicate (maxSlot lf) (0, 0)) (ds_nextEmptySlot lf))
      else lf
  end.

(** A new slot for [fid]. *)
Definition ds_add (lf : discardStats) (fid discard : Z) : option discardStats :=
  lf ← ds_set lf (ds_nextEmptySlot lf) (fid, u64 discard);
  let lf := ds_grow (ds_nextEmptySlot lf + 1) (mkDS (ds_Data lf) (ds_nextEmptySlot lf + 1)) in
  lf ← zeroOut lf;
  Some (ds_sort lf).

(** [discard] is a 64-bit signed number; so is the result. *)
Definition Update (lf : discardStats) (fid discard : Z) : option (discardStats * Z) :=
  let idx := sort_Search (ds_nextEmptySlot lf) (fun slot =>
    match ds_get lf slot with Some v => bool_decide (fid <= v.1) | None => true end) in
  v ← (if bool_decide (idx < ds_nextEmptySlot lf)%nat then v ← ds_get lf idx; Some (Some v) else Some None);
  match v with
  | Some (f, curDisc) =>
      if bool_decide (f = fid) then
        if bool_decide (discard = 0) then Some (lf, i64 curDisc)
        else if bool_decide (discard < 0) then lf ← ds_set lf idx (f, 0); Some (lf, 0)
        else lf ← ds_set lf idx (f, u64 (curDisc + u64 discard)); Some (lf, i64 (curDisc + u64 discard))
      else if bool_decide (discard <= 0) then Some (lf, 0)
      else lf ← ds_add lf fid discard; Some (lf, discard)
  | None => if bool_decide (discard <= 0) then Some (lf, 0) else lf ← ds_add lf fid discard; Some (lf, discard)
  end.

Definition Iterate {St} (f : Z -> Z -> St -> St) (lf : discardStats) (s : St) : St :=
  foldl (fun s v => f v.1 v.2 s) s (take (ds_nextEmptySlot lf) (ds_Data lf)).

Definition MaxDiscard (lf : discardStats) : Z * Z :=
  let '(maxFid, maxVal) := Iterate (fun fid val '(maxFid, maxVal) =>
    if bool_decide (maxVal < val) then (fid, val) else (maxFid, maxVal)) lf (0, 0) in
  (u32 maxFid, i64 maxVal).

(** ** What the statistics are: a map *)

Definition ds_abs (lf : discardStats) : gmap Z Z := list_to_map (take (ds_nextEmptySlot lf) (ds_Data lf)).

Definition spec_Update (m : gmap Z Z) (fid discard : Z) : gmap Z Z * Z :=
  if bool_decide (discard = 0) then (m, i64 (default 0 (m !! fid)))
  else if bool_decide (discard < 0) then (match m !! fid with Some _ => <[fid := 0]> m | None => m end, 0)
  else (<[fid := u64 (default 0 (m !! fid) + discard)]> m, i64 (default 0 (m !! fid) + discard)).

(** File ids from 1 on, in order, then an empty slot. *)
Record ds_ok (lf : discardStats) : Prop := {
  dk_room : (ds_nextEmptySlot lf < length (ds_Data lf))%nat;
  dk_end : exists v, ds_Data lf !! ds_nextEmptySlot lf = Some (0, v);
  dk_ids : Forall (fun v => 0 < v.1 < 2 ^ 32 /\ 0 <= v.2 < 2 ^ 64) (take (ds_nextEmptySlot lf) (ds_Data lf));
  dk_sorted : StronglySorted (fun v w => v.1 < w.1) (take (ds_nextEmptySlot lf) (ds_Data lf))
}.

Lemma first_empty_spec used rest slot v : Forall (fun v => 0 < v.1 < 2 ^ 32 /\ 0 <= v.2 < 2 ^ 64) used -> v.1 = 0 ->
  first_empty (used ++ v :: rest) slot = (slot + length used)%nat.
Proof.
  intros Hu Hv. revert slot. induction Hu as [|x used Hx _ IH]; intros slot; cbn [app first_empty length].
  - rewrite bool_decide_eq_true_2 by done. lia.
  - rewrite bool_decide_eq_false_2 by lia. rewrite IH. lia.
Qed.

(** ** Lemmas: the used slots *)

Lemma i64_small d : - 2 ^ 63 <= d < 2 ^ 63 -> i64 d = d.
Proof.
  intros Hd. unfold signed. cbv zeta. destruct (decide (0 <= d)) as [Hp|Hp].
  - rewrite wrap_small by lia. case_bool_decide; lia.
  - assert (wrap 64 d = d + 2 ^ 64) as ->.
    { unfold wrap. rewrite <- (Z_mod_plus_full d 1), Z.mod_small; lia. }
    case_bool_decide; lia.
Qed.

Definition slot_ok (v : Z * Z) : Prop := 0 < v.1 < 2 ^ 32 /\ 0 <= v.2 < 2 ^ 64.

Definition ids_lt (v w : Z * Z) : Prop := v.1 < w.1.

Record ds_slots (lf : discardStats) (used : list (Z * Z)) (x : Z) (rest : list (Z * Z)) : Prop := {
  dl_data : ds_Data lf = used ++ (0, x) :: rest;
  dl_next : ds_nextEmptySlot lf = length used;
  dl_ok : Forall slot_ok used;
  dl_sorted : StronglySorted ids_lt used
}.

Lemma ds_ok_slots lf : ds_ok lf -> exists used x rest, ds_slots lf used x rest.
Proof.
  intros [Hr (x & He) Hi Hs]. exists (take (ds_nextEmptySlot lf) (ds_Data lf)), x, (drop (S (ds_nextEmptySlot lf)) (ds_Data lf)).
  split; [|rewrite length_take; lia|done|done]. symmetry. by apply take_drop_middle.
Qed.

Lemma slots_ds_ok lf used x rest : ds_slots lf used x rest -> ds_ok lf.
Proof.
  intros [Ed En Ho Hs]. split; rewrite ?Ed, ?En.
  - rewrite length_app. cbn. lia.
  - exists x. by apply list_lookup_middle.
  - by rewrite take_app_length.
  - by rewrite take_app_length.
Qed.

Lemma slots_abs lf used x rest : ds_slots lf used x rest -> ds_abs lf = list_to_map used.
Proof. intros [Ed En _ _]. unfold ds_abs. by rewrite Ed, En, take_app_length. Qed.

Lemma ids_nodup used : StronglySorted ids_lt used -> NoDup used.*1.
Proof.
  induction 1 as [|v used Hs IH Hv]; [constructor|]. cbn. constructor; [|done]. intros (w & E & Hw)%list_elem_of_fmap.
  rewrite Forall_forall in Hv. specialize (Hv w Hw). unfold ids_lt in Hv. lia.
Qed.

(** A slot in the middle is an insertion. *)
Lemma map_of_middle (u1 u2 : list (Z * Z)) f c : NoDup (u1 ++ (f, c) :: u2).*1 ->
  (list_to_map (u1 ++ (f, c) :: u2) : gmap Z Z) = <[f := c]> (list_to_map (u1 ++ u2)).
Proof. intros Hnd. rewrite <- list_to_map_cons. apply list_to_map_proper; [done|]. by rewrite Permutation_middle. Qed.

Lemma map_absent (u : list (Z * Z)) f : (forall v, v ∈ u -> v.1 <> f) -> (list_to_map u : gmap Z Z) !! f = None.
Proof. intros H. apply not_elem_of_list_to_map. intros (v & E & Hv)%list_elem_of_fmap. by apply (H v). Qed.

(** The ids below [f], and the others. *)
Lemma split_ids (used : list (Z * Z)) f : StronglySorted ids_lt used -> exists u1 u2, used = u1 ++ u2 /\
  Forall (fun v => v.1 < f) u1 /\ Forall (fun v => f <= v.1) u2.
Proof.
  induction 1 as [|v used Hs (u1 & u2 & -> & H1 & H2) Hv]; [by exists [], []|].
  destruct (decide (v.1 < f)).
  - exists (v :: u1), u2. split_and!; [done|by constructor|done].
  - exists [], (v :: u1 ++ u2). split_and!; [done|constructor|]. constructor; [lia|]. eapply Forall_impl; [exact Hv|].
    unfold ids_lt. intros w. lia.
Qed.

Lemma search_ids lf u1 u2 x rest f : ds_slots lf (u1 ++ u2) x rest -> Forall (fun v => v.1 < f) u1 -> Forall (fun v => f <= v.1) u2 ->
  sort_Search (ds_nextEmptySlot lf) (fun slot =>
    match ds_get lf slot with Some v => bool_decide (f <= v.1) | None => true end) = length u1.
Proof.
  intros [Ed En _ _] H1 H2. rewrite En, length_app. rewrite Forall_lookup in H1, H2.
  assert (forall i v, ds_get lf i = Some v -> (i < length u1)%nat -> v.1 < f) as Hlo.
  { intros i v Hi Hl. unfold ds_get in Hi. rewrite Ed, <- app_assoc, lookup_app_l in Hi by done. by apply (H1 i). }
  assert (forall i v, ds_get lf i = Some v -> (length u1 <= i < length u1 + length u2)%nat -> f <= v.1) as Hhi.
  { intros i v Hi Hl. unfold ds_get in Hi. rewrite Ed, lookup_app_l, lookup_app_r in Hi by (rewrite ?length_app; lia).
    by apply (H2 (i - length u1)%nat). }
  apply sort_Search_unique.
  - intros i j Hij. destruct (decide (i < length u1)%nat) as [Hl|Hl].
    + destruct (ds_get lf i) as [v|] eqn:Ei.
      * rewrite bool_decide_eq_false_2; [done|]. specialize (Hlo i v Ei Hl). lia.
      * unfold ds_get in Ei. rewrite Ed in Ei. apply lookup_ge_None in Ei. rewrite !length_app in Ei. lia.
    + intros _. destruct (ds_get lf j) as [v|] eqn:Ej; [|done]. apply bool_decide_eq_true_2. apply (Hhi j v Ej). lia.
  - lia.
  - intros k Hk. destruct (ds_get lf k) as [v|] eqn:Ek.
    + apply bool_decide_eq_false_2. specialize (Hlo k v Ek Hk). lia.
    + unfold ds_get in Ek. rewrite Ed in Ek. apply lookup_ge_None in Ek. rewrite !length_app in Ek. lia.
  - intros Hk. destruct (ds_get lf (length u1)) as [v|] eqn:Ek; [|done]. apply bool_decide_eq_true_2. apply (Hhi _ v Ek). lia.
Qed.

Lemma set_slot lf u1 f c u2 x rest c' : ds_slots lf (u1 ++ (f, c) :: u2) x rest -> 0 <= c' < 2 ^ 64 ->
  exists lf', ds_set lf (length u1) (f, c') = Some lf' /\ ds_slots lf' (u1 ++ (f, c') :: u2) x rest.
Proof.
  intros [Ed En Ho Hs] Hc. unfold ds_set. rewrite Ed, <- app_assoc. cbn [app]. rewrite list_lookup_middle by done.
  cbn [mbind option_bind]. eexists. split; [done|]. apply Forall_app in Ho as [H1 H2]. apply Forall_cons in H2 as [[H2 _] H3].
  split; cbn [ds_Data ds_nextEmptySlot].
  - replace (length u1) with (length u1 + 0)%nat at 1 by lia. rewrite insert_app_r. cbn. by rewrite <- app_assoc.
  - rewrite En, !length_app. done.
  - apply Forall_app. split; [done|]. constructor; [split; [exact H2|exact Hc]|done].
  - unfold ids_lt in *. apply StronglySorted_app in Hs as (Ha & Hb & Hd). apply StronglySorted_app. split_and!; [|done|].
    + intros v w Hv [->|Hw]%elem_of_cons; [apply (Ha v (f, c) Hv); set_solver|]. apply Ha; [done|set_solver].
    + apply StronglySorted_inv in Hd as [Hd He]. by constructor.
Qed.

Lemma grow_ok fuel : forall lf, (ds_nextEmptySlot lf < length (ds_Data lf) + fuel)%nat -> (0 < length (ds_Data lf))%nat ->
  exists k, ds_grow fuel lf = mkDS (ds_Data lf ++ replicate k (0, 0)) (ds_nextEmptySlot lf) /\
    (ds_nextEmptySlot lf < length (ds_Data lf) + k)%nat.
Proof.
  induction fuel as [|fuel IH]; intros lf H1 H0; cbn [ds_grow].
  { exists 0%nat. cbn. rewrite app_nil_r. split; [by destruct lf|lia]. }
  unfold maxSlot. case_bool_decide as Hm; [|exists 0%nat; cbn; rewrite app_nil_r; split; [by destruct lf|lia]].
  destruct (IH (mkDS (ds_Data lf ++ replicate (length (ds_Data lf)) (0, 0)) (ds_nextEmptySlot lf))) as (k & E & Hk);
    cbn [ds_Data ds_nextEmptySlot] in *; rewrite ?length_app, ?length_replicate in *; [lia|lia|].
  exists (length (ds_Data lf) + k)%nat. rewrite E. split; [|lia]. by rewrite replicate_add, app_assoc.
Qed.

Lemma add_slot lf used x rest f d : ds_slots lf used x rest -> 0 < f < 2 ^ 32 -> (forall v, v ∈ used -> v.1 <> f) ->
  exists lf' x' rest', ds_add lf f d = Some lf' /\ ds_slots lf' (sort_by Z.compare fst (used ++ [(f, u64 d)])) x' rest'.
Proof.
  intros [Ed En Ho Hs] Hf Hne. unfold ds_add, ds_set. rewrite Ed, En, list_lookup_middle by done. cbn [mbind option_bind ds_Data ds_nextEmptySlot].
  rewrite insert_app_r_alt, Nat.sub_diag by done. cbn [insert list_insert].
  destruct (grow_ok (length used + 1) (mkDS (used ++ (f, u64 d) :: rest) (length used + 1))) as (k & E & Hk);
    cbn [ds_Data ds_nextEmptySlot] in *; rewrite ?length_app in *; cbn [length] in *; [lia|lia|].
  rewrite E. unfold zeroOut, ds_set. cbn [ds_Data ds_nextEmptySlot].
  assert (exists y ys, rest ++ replicate k (0, 0) = y :: ys) as (y & ys & Er).
  { destruct rest as [|y rest]; [|by eexists _, _]. destruct k; [cbn in Hk; lia|]. by eexists _, _. }
  rewrite <- app_assoc. cbn [app]. rewrite Er, (cons_middle _ used), app_assoc.
  assert (length (used ++ [(f, u64 d)]) = (length used + 1)%nat) as El by (rewrite length_app; done).
  rewrite (list_lookup_middle (used ++ [(f, u64 d)])) by done. cbn [mbind option_bind].
  rewrite insert_app_r_alt, El, Nat.sub_diag by lia. cbn [insert list_insert]. unfold ds_sort. cbn [ds_Data ds_nextEmptySlot].
  rewrite take_app_length' , drop_app_length' by done. eexists _, 0, ys. split; [done|]. split; cbn [ds_Data ds_nextEmptySlot].
  - done.
  - by rewrite (Permutation_length (sort_by_Permutation Z.compare fst _)), El.
  - rewrite (sort_by_Permutation Z.compare fst). apply Forall_app. split; [done|]. constructor; [|done].
    split; [done|]. apply wrap_range. lia.
  - pose proof (sort_by_strictly_sorted Z.compare fst (used ++ [(f, u64 d)])) as H.
    assert (NoDup (used ++ [(f, u64 d)]).*1) as Hnd.
    { rewrite fmap_app. apply NoDup_app. split_and!; [by apply ids_nodup| |apply NoDup_singleton].
      intros g (v & E' & Hv)%list_elem_of_fmap Hg%list_elem_of_singleton. apply (Hne v Hv). by rewrite <- E', Hg. }
    specialize (H Hnd). clear -H. induction H as [|v l Hl IH Hv]; constructor; [done|]. eapply Forall_impl; [exact Hv|].
    intros w. unfold ids_lt, key_lt. by rewrite Z.compare_lt_iff.
Qed.

Lemma update_new lf used x rest fid discard : ds_slots lf used x rest -> 0 < fid < 2 ^ 32 -> - 2 ^ 63 <= discard < 2 ^ 63 ->
  (forall v, v ∈ used -> v.1 <> fid) -> exists lf' r,
  (if bool_decide (discard <= 0) then Some (lf, 0) else lf ← ds_add lf fid discard; Some (lf, discard)) = Some (lf', r) /\
  ds_ok lf' /\ (ds_abs lf', r) = spec_Update (ds_abs lf) fid discard.
Proof.
  intros Hl Hf Hd Hn. pose proof (slots_abs _ _ _ _ Hl) as Ea.
  unfold spec_Update. rewrite Ea, (map_absent _ fid Hn). cbn [default]. case_bool_decide as Hd0.
  - exists lf, 0. split; [done|]. split; [by eapply slots_ds_ok|]. rewrite Ea. case_bool_decide as Hz; [done|].
    by rewrite bool_decide_eq_true_2 by lia.
  - destruct (add_slot lf _ x rest fid discard Hl Hf Hn) as (lf' & x' & rest' & -> & Hl'). exists lf', discard.
    split; [done|]. split; [by eapply slots_ds_ok|]. rewrite !bool_decide_eq_false_2 by lia. rewrite (slots_abs _ _ _ _ Hl').
    change (0 + discard) with discard. f_equal; [|symmetry; apply i64_small; lia].
    rewrite <- (list_to_map_proper (M := gmap Z) ((fid, u64 discard) :: used)); [done| |].
    + cbn. constructor; [intros (v & E & Hv)%list_elem_of_fmap; by apply (Hn v)|apply ids_nodup, Hl].
    + rewrite (sort_by_Permutation Z.compare fst). by rewrite Permutation_app_comm.
Qed.

Lemma update_slot lf u1 fid c u2 x rest c' : ds_slots lf (u1 ++ (fid, c) :: u2) x rest -> 0 <= c' < 2 ^ 64 ->
  exists lf', ds_set lf (length u1) (fid, c') = Some lf' /\ ds_ok lf' /\ ds_abs lf' = <[fid := c']> (ds_abs lf).
Proof.
  intros Hl Hc. destruct (set_slot _ _ _ _ _ _ _ _ Hl Hc) as (lf' & E & Hl'). exists lf'. split; [done|].
  split; [by eapply slots_ds_ok|]. rewrite (slots_abs _ _ _ _ Hl), (slots_abs _ _ _ _ Hl').
  pose proof (ids_nodup _ (dl_sorted _ _ _ _ Hl)) as Hnd.
  rewrite (map_of_middle u1 u2 fid c Hnd), (map_of_middle u1 u2 fid c') by (rewrite fmap_app in *; exact Hnd).
  by rewrite insert_insert_eq.
Qed.

Lemma Update_ok lf fid discard : ds_ok lf -> 0 < fid < 2 ^ 32 -> - 2 ^ 63 <= discard < 2 ^ 63 ->
  exists lf' r, Update lf fid discard = Some (lf', r) /\ ds_ok lf' /\ (ds_abs lf', r) = spec_Update (ds_abs lf) fid discard.
Proof.
  intros Hok Hf Hd. destruct (ds_ok_slots lf Hok) as (used & x & rest & Hl). pose proof (slots_abs _ _ _ _ Hl) as Ea.
  destruct (split_ids used fid (dl_sorted _ _ _ _ Hl)) as (u1 & u2 & -> & H1 & H2).
  unfold Update. rewrite (search_ids lf u1 u2 x rest fid Hl H1 H2). rewrite (dl_next _ _ _ _ Hl), length_app.
  assert (forall v, v ∈ u1 -> v.1 <> fid) as Hn1 by (rewrite Forall_forall in H1; intros v Hv; specialize (H1 v Hv); lia).
  destruct u2 as [|[f c] u2].
  { rewrite (bool_decide_eq_false_2 (_ < _)%nat) by (cbn [length]; lia). cbn [mbind option_bind]. eapply update_new; [done..|].
    intros v [Hv|Hv]%elem_of_app; [by apply Hn1|by apply not_elem_of_nil in Hv]. }
  rewrite (bool_decide_eq_true_2 (_ < _)%nat) by (cbn [length]; lia). unfold ds_get. rewrite (dl_data _ _ _ _ Hl), <- app_assoc. cbn [app].
  rewrite list_lookup_middle by done. cbn [mbind option_bind]. case_bool_decide as Ef.
  2:{ eapply update_new; [done..|]. intros v [Hv|[->|Hv]%elem_of_cons]%elem_of_app; [by apply Hn1|done|].
      apply Forall_cons in H2 as [H2 _].
      pose proof (dl_sorted _ _ _ _ Hl) as Hs. apply StronglySorted_app in Hs as (_ & _ & Hs). apply StronglySorted_inv in Hs as [_ Hs].
      rewrite Forall_forall in Hs. specialize (Hs v Hv). unfold ids_lt in Hs. cbn in *. lia. }
  subst f. pose proof (dl_ok _ _ _ _ Hl) as Hoks. apply Forall_app in Hoks as [_ Hoks]. apply Forall_cons in Hoks as [[_ Hc] _]. cbn in Hc.
  pose proof (ids_nodup _ (dl_sorted _ _ _ _ Hl)) as Hnd. rewrite (map_of_middle u1 u2 fid c Hnd) in Ea.
  assert (ds_abs lf !! fid = Some c) as El by (rewrite Ea; apply lookup_insert_eq).
  unfold spec_Update. rewrite El. cbn [default]. case_bool_decide as Hd0; [by exists lf, (i64 c)|].
  case_bool_decide as Hneg.
  - destruct (update_slot _ _ _ _ _ _ _ 0 Hl ltac:(lia)) as (lf' & -> & Hok' & <-). by eexists _, _.
  - rewrite wrap_add_r. destruct (update_slot _ _ _ _ _ _ _ (u64 (c + discard)) Hl (wrap_range 64 _ ltac:(lia))) as (lf' & -> & Hok' & E).
    eexists _, _. split; [done|]. split; [done|]. rewrite E. unfold signed. by rewrite wrap_add_r.
Qed.

(** ** Opening the file *)

Lemma sorted_slots used : StronglySorted ids_lt used -> sort_by Z.compare fst used = used.
Proof.
  intros Hs. apply (sort_by_unique Z.compare fst); [by apply ids_nodup|done|].
  induction Hs as [|v l Hl IH Hv]; constructor; [done|]. eapply Forall_impl; [exact Hv|].
  intros w. unfold ids_lt, key_le. rewrite <- Z.compare_lt_iff. by intros ->.
Qed.

Lemma Init_fresh : exists lf, InitDiscardStats None = Some lf /\ ds_ok lf /\ ds_abs lf = ∅.
Proof.
  unfold InitDiscardStats. replace (Z.to_nat (2 ^ 16)) with (S (Z.to_nat (2 ^ 16 - 1))) by lia.
  cbn [replicate]. generalize (Z.to_nat (2 ^ 16 - 1)). intros n. cbn. eexists. split; [done|].
  assert (ds_slots (ds_sort (mkDS ((0, 0) :: replicate n (0, 0)) 0)) [] 0 (replicate n (0, 0))) as Hl by (split; [done..|constructor|constructor]).
  split; [by eapply slots_ds_ok|]. exact (slots_abs _ _ _ _ Hl).
Qed.

Lemma Init_reopen lf : ds_ok lf -> InitDiscardStats (Some (ds_Data lf)) = Some lf.
Proof.
  intros Hok. destruct (ds_ok_slots lf Hok) as (used & x & rest & [Ed En Ho Hs]). unfold InitDiscardStats.
  cbn [mbind option_bind ds_Data]. rewrite Ed, first_empty_spec by done. cbn [Nat.add]. unfold ds_sort. cbn [ds_Data ds_nextEmptySlot].
  rewrite take_app_length, drop_app_length, sorted_slots by done. destruct lf. cbn in *. by subst.
Qed.

(** ** The file with the most to discard *)

(** [r]: the least id with the greatest number, or (0, 0) when every number is 0. *)
Definition max_of (m : gmap Z Z) (r : Z * Z) : Prop :=
  (r = (0, 0) \/ m !! r.1 = Some r.2 /\ 0 < r.2) /\
  (forall f v, m !! f = Some v -> v <= r.2 /\ (0 < v -> v = r.2 -> r.1 <= f)).

Definition max_step (r v : Z * Z) : Z * Z := if bool_decide (r.2 < v.2) then v else r.

Lemma max_step_ok l : forall l0 r, StronglySorted ids_lt (l0 ++ l) -> Forall slot_ok (l0 ++ l) ->
  max_of (list_to_map l0) r -> max_of (list_to_map (l0 ++ l)) (foldl max_step r l).
Proof.
  induction l as [|[f v] l IH]; intros l0 r Hs Ho [Hr Hm]; cbn [foldl]; [by rewrite app_nil_r|].
  rewrite (cons_middle (f, v) l0 l), app_assoc in *. apply IH; [done..|].
  apply StronglySorted_app in Hs as (_ & Hs & _). apply Forall_app in Ho as [Ho _].
  pose proof (ids_nodup _ Hs) as Hnd. apply StronglySorted_app in Hs as (Hlt & _ & _).
  apply Forall_app in Ho as [_ Ho]. apply Forall_cons in Ho as [[_ Hv] _]. cbn in Hv.
  assert (forall g w, (list_to_map l0 : gmap Z Z) !! g = Some w -> g < f) as Hg.
  { intros g w H%elem_of_list_to_map_2. apply (Hlt (g, w) (f, v)); [done|set_solver]. }
  rewrite (map_of_middle l0 [] f v Hnd), app_nil_r. unfold max_step. cbn [snd].
  case_bool_decide as Hc; split; cbn [fst snd].
  - right. split; [apply lookup_insert_eq|]. destruct Hr as [->|[_ Hr]]; cbn in Hc; lia.
  - intros g w [[-> ->]|[Hne H]]%(lookup_insert_Some (M := gmap Z)); [lia|]. destruct (Hm g w H) as [? ?]. lia.
  - destruct Hr as [->|[Hr1 Hr2]]; [by left|]. right. split; [|done]. rewrite lookup_insert_ne; [done|].
    intros ->. specialize (Hg _ _ Hr1). lia.
  - intros g w [[-> ->]|[Hne H]]%lookup_insert_Some; [|by apply Hm]. split; [lia|]. intros Hp ->.
    destruct Hr as [->|[Hr1 Hr2]]; cbn in *; [lia|]. specialize (Hg _ _ Hr1). lia.
Qed.

Lemma MaxDiscard_ok lf : ds_ok lf -> exists r, max_of (ds_abs lf) r /\ MaxDiscard lf = (r.1, i64 r.2).
Proof.
  intros Hok. destruct (ds_ok_slots lf Hok) as (used & x & rest & [Ed En Ho Hs]).
  assert (max_of (list_to_map used) (foldl max_step (0, 0) used)) as Hm.
  { apply (max_step_ok used []); [done..|]. split; [by left|]. intros f v H. exfalso. change ((∅ : gmap Z Z) !! f = Some v) in H. by rewrite lookup_empty in H. }
  unfold MaxDiscard, Iterate, ds_abs. rewrite Ed, En, take_app_length. eexists. split; [exact Hm|].
  replace (foldl _ (0, 0) used) with (foldl max_step (0, 0) used).
  - destruct (foldl max_step (0, 0) used) as [f v]. cbn [fst snd]. f_equal. apply wrap_small.
    destruct Hm as [[[= -> ->]|[H _]] _]; [lia|]. apply elem_of_list_to_map_2 in H. rewrite Forall_forall in Ho.
    destruct (Ho _ H) as [? _]. cbn in *. lia.
  - generalize (0, 0). clear. induction used as [|v used IH]; intros [f w]; [done|]. cbn [foldl]. rewrite IH. f_equal.
    unfold max_step. cbn. by destruct v.
Qed.

(** ** Histories *)

Inductive ds_op : Type :=
| OpUpdate (fid discard : Z)
| OpReopen.

Definition ds_step (lf : discardStats) (o : ds_op) : option (discardStats * list Z) :=
  match o with
  | OpUpdate fid discard => '(lf, r) ← Update lf fid discard; Some (lf, [r])
  | OpReopen => lf ← InitDiscardStats (Some (ds_Data lf)); Some (lf, [])
  end.

Fixpoint ds_run (lf : discardStats) (ops : list ds_op) : option (discardStats * list Z) :=
  match ops with
  | [] => Some (lf, [])
  | o :: ops => '(lf, rs) ← ds_step lf o; '(lf, rs') ← ds_run lf ops; Some (lf, rs ++ rs')
  end.

Fixpoint spec_run (m : gmap Z Z) (ops : list ds_op) : gmap Z Z * list Z :=
  match ops with
  | [] => (m, [])
  | OpUpdate fid discard :: ops =>
      let '(m, r) := spec_Update m fid discard in let '(m, rs) := spec_run m ops in (m, r :: rs)
  | OpReopen :: ops => spec_run m ops
  end.

(** File ids are 32-bit numbers from 1, numbers of bytes are 64-bit. *)
Definition op_ok (o : ds_op) : Prop :=
  match o with OpUpdate fid discard => 0 < fid < 2 ^ 32 /\ - 2 ^ 63 <= discard < 2 ^ 63 | OpReopen => True end.

Lemma ds_run_ok ops : forall lf, Forall op_ok ops -> ds_ok lf -> exists lf' rs,
  ds_run lf ops = Some (lf', rs) /\ ds_ok lf' /\ spec_run (ds_abs lf) ops = (ds_abs lf', rs).
Proof.
  induction ops as [|o ops IH]; intros lf Ho Hok; [by exists lf, []|]. apply Forall_cons in Ho as [Ho Hos].
  destruct o as [fid discard|]; cbn [ds_run ds_step spec_run].
  - destruct Ho as [Hf Hd]. destruct (Update_ok lf fid discard Hok Hf Hd) as (lf1 & r & -> & Hok1 & <-).
    destruct (IH lf1 Hos Hok1) as (lf2 & rs & E & Hok2 & ->). cbn [mbind option_bind]. rewrite E. by eexists _, _.
  - rewrite (Init_reopen lf Hok). cbn [mbind option_bind]. destruct (IH lf Hos Hok) as (lf2 & rs & -> & Hok2 & ->).
    by eexists _, _.
Qed.

(** The discard statistics are a map from file ids to numbers of bytes, kept over restarts:
    from a new file, every sequence of updates and reopenings (the ids 32-bit and not 0)
    succeeds, gives the results of the map, and leaves the slots sorted by id with an empty one
    behind them; [MaxDiscard] then answers the least id with the greatest number, or 0 when there
    is nothing to discard. *)
Theorem discard_refines_map ops : Forall op_ok ops -> exists lf0 lf rs,
  InitDiscardStats None = Some lf0 /\ ds_run lf0 ops = Some (lf, rs) /\ ds_ok lf /\
  spec_run ∅ ops = (ds_abs lf, rs) /\
  exists r, max_of (ds_abs lf) r /\ MaxDiscard lf = (r.1, i64 r.2).
Proof.
  intros Ho. destruct Init_fresh as (lf0 & E0 & Hok0 & Ea). destruct (ds_run_ok ops lf0 Ho Hok0) as (lf & rs & E & Hok & Es).
  exists lf0, lf, rs. rewrite Ea in Es. split_and!; [done..|]. by apply MaxDiscard_ok.
Qed.

Lemma discard_refines_map_witness : exists lf0 lf rs,
  let ops := [OpUpdate 7 100; OpUpdate 2 30; OpReopen; OpUpdate 7 5; OpUpdate 2 (-1); OpUpdate 2 0] in
  InitDiscardStats None = Some lf0 /\ ds_run lf0 ops = Some (lf, rs) /\ ds_ok lf /\
  spec_run ∅ ops = (ds_abs lf, rs) /\ rs = [100; 30; 105; 0; 0].
Proof.
  destruct (discard_refines_map [OpUpdate 7 100; OpUpdate 2 30; OpReopen; OpUpdate 7 5; OpUpdate 2 (-1); OpUpdate 2 0])
    as (lf0 & lf & rs & E0 & E & Hok & Es & _).
  - repeat (constructor; [cbn; lia|]). constructor.
  - exists lf0, lf, rs. split; [exact E0|]. split; [exact E|]. split; [exact Hok|]. split; [exact Es|].
    apply (f_equal snd) in Es. cbn [snd] in Es. rewrite <- Es. by vm_compute.
Defined.
