(* ===== verification/Trie.v ===== *)
(** * Trie: prefixes with holes, and the ids registered for them (trie/trie.go)

    A subscriber registers prefixes in which some positions are ignored.  [Get] finds the ids of
    all prefixes that match a key; deleting an id leaves no node that leads nowhere.  Text is a
    list of bytes; [strings] and [strconv] are written out as far as the parser uses them. *)

From S2P Require Import Prelude.

(** ** strings and strconv *)

(** The encodings of the characters [unicode.IsSpace] accepts. *)
Definition space_chars : list bytes :=
  [[x09]; [x0a]; [x0b]; [x0c]; [x0d]; [x20]; [xc2; x85]; [xc2; xa0]; [xe1; x9a; x80]]
  ++ ((fun b => [xe2; x80; b]) <$> [x80; x81; x82; x83; x84; x85; x86; x87; x88; x89; x8a; xa8; xa9; xaf])
  ++ [[xe2; x81; x9f]; [xe3; x80; x80]].

Definition starts_with_space (s : bytes) : option bytes :=
  match filter (fun c => bytes_HasPrefix s c = true) space_chars with c :: _ => Some c | [] => None end.

Fixpoint trim_left (fuel : nat) (s : bytes) : bytes :=
  match fuel with
  | O => s
  | S fuel => match starts_with_space s with Some c => trim_left fuel (drop (length c) s) | None => s end
  end.

Definition ends_with_space (s : bytes) : option bytes :=
  match filter (fun c => bytes_HasPrefix (reverse s) (reverse c) = true) space_chars with c :: _ => Some c | [] => None end.

Fixpoint trim_right (fuel : nat) (s : bytes) : bytes :=
  match fuel with
  | O => s
  | S fuel => match ends_with_space s with Some c => trim_right fuel (take (length s - length c) s) | None => s end
  end.

Definition TrimSpace (s : bytes) : bytes :=
  let s := trim_left (length s) s in trim_right (length s) s.

(** [strings.Split] at a separator of one byte. *)
Fixpoint Split (s : bytes) (sep : byte) : list bytes :=
  match s with
  | [] => [[]]
  | b :: s =>
      if bool_decide (b = sep) then [] :: Split s sep
      else match Split s sep with w :: ws => (b :: w) :: ws | [] => [[b]] end
  end.

Inductive trie_error : Type := ErrRange | ErrNum.

Definition digit (b : byte) : option Z :=
  if bool_decide (48 <= b2z b <= 57) then Some (b2z b - 48) else None.

Fixpoint digits_value (s : bytes) (n : Z) : option Z :=
  match s with
  | [] => Some n
  | b :: s => d ← digit b; digits_value s (10 * n + d)
  end.

(** [strconv.Atoi]: a sign, at least one digit, and an [int] of 64 bits. *)
Definition Atoi (s : bytes) : result trie_error Z :=
  let '(neg, ds) := match s with
    | x2d :: ds => (true, ds)
    | x2b :: ds => (false, ds)
    | _ => (false, s)
    end in
  match ds with
  | [] => Err ErrNum
  | _ =>
      match digits_value ds 0 with
      | None => Err ErrNum
      | Some n =>
          let n := if neg : bool then - n else n in
          if bool_decide (- 2 ^ 63 <= n < 2 ^ 63) then Ok n else Err ErrNum
      end
  end.

(** ** Ignored positions *)

(** [for start >= len(out) { out = append(out, false) }] *)
Definition grow_to (out : list bool) (i : Z) : list bool := out ++ replicate (Z.to_nat (i + 1) - length out) false.

(** The loop that marks [start..end]. *)
Definition mark_range (out : list bool) (i j : Z) : list bool :=
  imap (fun k b => if bool_decide (i <= Z.of_nat k <= j) then true else b) out.

(** One range of the list; [r] its parts. *)
Definition parse_range (out : list bool) (each : bytes) : result trie_error (list bool) :=
  let r := Split (TrimSpace each) x2d in
  if bool_decide (length r = 0%nat \/ (2 < length r)%nat) then Err ErrRange
  else
    last ← (match r with [_; e] => Atoi (TrimSpace e) | _ => Ok (-1) end);
    start ← (match r with s :: _ => Atoi (TrimSpace s) | [] => Panic end);
    if bool_decide (start = -1) then Err ErrRange
    else if bool_decide (start < -1) then Panic
    else
      let out := grow_to (grow_to out start) last in
      if bool_decide (last = -1) then Ok (mark_range out start start) else Ok (mark_range out start last).

Fixpoint parse_ranges (out : list bool) (parts : list bytes) : result trie_error (list bool) :=
  match parts with
  | [] => Ok out
  | each :: parts => out ← parse_range out each; parse_ranges out parts
  end.

Definition parseIgnoreBytes (ig : bytes) : result trie_error (list bool) :=
  match ig with
  | [] => Ok []
  | _ => parse_ranges [] (Split (TrimSpace ig) x2c)
  end.

(** ** The trie *)

Inductive node : Type := Node (children : gmap byte node) (ignore : option node) (ids : list Z).

Definition children (n : node) : gmap byte node := let '(Node c _ _) := n in c.
Definition ignore (n : node) : option node := let '(Node _ i _) := n in i.
Definition ids (n : node) : list Z := let '(Node _ _ l) := n in l.

Definition isEmpty (n : node) : bool :=
  bool_decide (children n = ∅) && bool_decide (ids n = []) && match ignore n with None => true | Some _ => false end.

Definition newNode : node := Node ∅ None [].

Definition Trie : Type := node.

Definition NewTrie : Trie := newNode.

(** [pb.Match]. *)
Record Match : Type := mkMatch { Prefix : bytes; IgnoreBytes : bytes }.

Inductive trie_op : Type := set | del.

(** What happens at the last node. *)
Definition fix_ids (l : list Z) (id : Z) (op : trie_op) : list Z :=
  match op with set => l ++ [id] | del => filter (fun cid => id <> cid) l end.

(** The walk along the prefix; a missing node is made, or ends a deletion. *)
Fixpoint fix_walk (n : node) (prefix : bytes) (ig : list bool) (id : Z) (op : trie_op) : node :=
  let '(Node c i l) := n in
  match prefix, ig with
  | byt :: prefix, true :: ig =>
      match i, op with
      | None, del => n
      | _, _ => Node c (Some (fix_walk (default newNode i) prefix ig id op)) l
      end
  | byt :: prefix, false :: ig =>
      match c !! byt, op with
      | None, del => n
      | child, _ => Node (<[byt := fix_walk (default newNode child) prefix ig id op]> c) i l
      end
  | _ :: _, [] => n
  | [], _ => Node c i (fix_ids l id op)
  end.

(** [fix] is a keyword. *)
Definition fix_ (t : Trie) (m : Match) (id : Z) (op : trie_op) : result trie_error Trie :=
  ig ← parseIgnoreBytes (IgnoreBytes m);
  let ig := ig ++ replicate (length (Prefix m) - length ig) false in
  Ok (fix_walk t (Prefix m) ig id op).

Definition AddMatch (t : Trie) (m : Match) (id : Z) : result trie_error Trie := fix_ t m id set.

(** [y.Check] of an error ends the program. *)
Definition Add (t : Trie) (prefix : bytes) (id : Z) : option Trie :=
  match AddMatch t (mkMatch prefix []) id with Ok t => Some t | _ => None end.

Fixpoint get (n : node) (key : bytes) : gset Z :=
  let out := list_to_set (ids n) in
  match key with
  | [] => out
  | b :: key =>
      out ∪ (match ignore n with Some c => get c key | None => ∅ end)
          ∪ (match children n !! b with Some c => get c key | None => ∅ end)
  end.

Definition Get (t : Trie) (key : bytes) : gset Z := get t key.

(** The node after [removeEmpty]; the answer of the code is whether it is empty. *)
Fixpoint removeEmpty (n : node) : node :=
  let '(Node c i l) := n in
  Node (omap (fun n => let n := removeEmpty n in if isEmpty n then None else Some n) c)
       (match i with
        | Some n => let n := removeEmpty n in if isEmpty n then None else Some n
        | None => None
        end) l.

Definition DeleteMatch (t : Trie) (m : Match) (id : Z) : result trie_error Trie :=
  t ← fix_ t m id del; Ok (removeEmpty t).

Definition Delete (t : Trie) (prefix : bytes) (id : Z) : result trie_error Trie := DeleteMatch t (mkMatch prefix []) id.

Fixpoint numNodes (n : node) : Z :=
  let '(Node c i _) := n in
  (match i with Some n => numNodes n | None => 0 end) + map_fold (fun _ n num => num + numNodes n) 0 c + 1.

(** ** What a trie holds *)

(** A prefix with holes; the path to its node. *)
Notation path := (list (option byte)).

Definition pattern (prefix : bytes) (ig : list bool) : path :=
  imap (fun i b => if bool_decide (ig !! i = Some true) then None else Some b) prefix.

Fixpoint path_matches (p : path) (key : bytes) : bool :=
  match p, key with
  | [], _ => true
  | None :: p, _ :: key => path_matches p key
  | Some b :: p, c :: key => bool_decide (b = c) && path_matches p key
  | _ :: _, [] => false
  end.

Definition down (n : node) (o : option byte) : option node :=
  match o with Some b => children n !! b | None => ignore n end.

Fixpoint node_at (n : node) (p : path) : option node :=
  match p with [] => Some n | o :: p => c ← down n o; node_at c p end.

Definition ids_at (n : node) (p : path) : list Z := from_option ids [] (node_at n p).

(** Every node but the root leads to an id. *)
Definition tight (n : node) : Prop := forall p, is_Some (node_at n p) -> p = [] \/ exists q id, id ∈ ids_at n (p ++ q).

Lemma ids_at_cons n o p : ids_at n (o :: p) = match down n o with Some c => ids_at c p | None => [] end.
Proof. unfold ids_at. cbn. by destruct (down n o). Qed.

Lemma ids_at_new p : ids_at newNode p = [].
Proof. by destruct p as [|[b|] p]. Qed.

(** ** Lemmas: get *)

Lemma get_spec key : forall n id, id ∈ get n key <-> exists p, id ∈ ids_at n p /\ path_matches p key = true.
Proof.
  induction key as [|b key IH]; intros n id.
  - cbn [get]. rewrite elem_of_list_to_set. split; [by exists []|]. intros ([|[]] & H & ?); [exact H|done..].
  - cbn [get]. rewrite !elem_of_union, elem_of_list_to_set. split.
    + intros [[H|H]|H]; [by exists []|..].
      * destruct (ignore n) as [c|] eqn:E; [|by apply elem_of_empty in H]. apply IH in H as (p & H & Hp).
        exists (None :: p). rewrite ids_at_cons. cbn. by rewrite E.
      * destruct (children n !! b) as [c|] eqn:E; [|by apply elem_of_empty in H]. apply IH in H as (p & H & Hp).
        exists (Some b :: p). rewrite ids_at_cons. cbn. by rewrite E, bool_decide_eq_true_2, Hp.
    + intros ([|[c|] p] & H & Hp).
      * by do 2 left.
      * right. cbn in Hp. apply andb_prop in Hp as [->%bool_decide_eq_true_1 Hp]. rewrite ids_at_cons in H. cbn in H.
        destruct (children n !! b); [apply IH; by exists p|by apply not_elem_of_nil in H].
      * left. right. cbn in Hp. rewrite ids_at_cons in H. cbn in H.
        destruct (ignore n); [apply IH; by exists p|by apply not_elem_of_nil in H].
Qed.

(** ** Lemmas: the walk *)

Definition bit_path (prefix : bytes) (ig : list bool) : path := zip_with (fun b (i : bool) => if i then None else Some b) prefix ig.

Lemma pattern_bits prefix ig :
  pattern prefix ig = bit_path prefix (ig ++ replicate (length prefix - length ig) false).
Proof.
  unfold pattern, bit_path. apply list_eq. intros i. rewrite list_lookup_imap, lookup_zip_with.
  destruct (prefix !! i) as [b|] eqn:E; [|done]. cbn. apply lookup_lt_Some in E.
  destruct (decide (i < length ig)%nat) as [Hi|Hi].
  - rewrite lookup_app_l by done. destruct (lookup_lt_is_Some_2 ig i Hi) as [x Hx]. rewrite Hx. cbn.
    destruct x; [by rewrite bool_decide_eq_true_2|by rewrite bool_decide_eq_false_2].
  - rewrite lookup_app_r, lookup_ge_None_2 by lia. rewrite lookup_replicate_2 by lia. cbn. by rewrite bool_decide_eq_false_2.
Qed.

Lemma ids_at_node c i l p : ids_at (Node c i l) p =
  match p with [] => l | Some b :: p => match c !! b with Some n => ids_at n p | None => [] end
             | None :: p => match i with Some n => ids_at n p | None => [] end end.
Proof. destruct p as [|[b|] p]; [done|..]; by rewrite ids_at_cons. Qed.

Lemma walk_ids id op prefix : forall n ig q, length ig = length prefix ->
  ids_at (fix_walk n prefix ig id op) q =
    if bool_decide (q = bit_path prefix ig) then fix_ids (ids_at n q) id op else ids_at n q.
Proof.
  induction prefix as [|b prefix IH]; intros [c i l] ig q Hl; (destruct ig as [|g ig]; [|]; try done).
  - cbn [fix_walk bit_path zip_with]. rewrite !ids_at_node.
    destruct q as [|[]]; [by rewrite bool_decide_eq_true_2|by rewrite bool_decide_eq_false_2..].
  - cbn in Hl. injection Hl as Hl. assert (forall q, ids_at newNode q = []) as Hn by (intros; apply ids_at_new).
    assert (forall n q, match n with Some n => ids_at n q | None => [] end = ids_at (default newNode n) q) as Hd.
    { intros [n|] ?; [done|by rewrite Hn]. }
    assert (fix_ids [] id del = []) as Hdel by done.
    destruct g; cbn [fix_walk bit_path zip_with].
    + assert (ids_at (Node c (Some (fix_walk (default newNode i) prefix ig id op)) l) q =
        if bool_decide (q = None :: bit_path prefix ig) then fix_ids (ids_at (Node c i l) q) id op else ids_at (Node c i l) q) as H.
      { rewrite !ids_at_node. destruct q as [|[]]; [by rewrite bool_decide_eq_false_2..|]. rewrite IH by done. rewrite Hd.
        case_bool_decide as Hq; [subst; by rewrite bool_decide_eq_true_2|rewrite bool_decide_eq_false_2; congruence]. }
      destruct i as [n'|]; [exact H|]. destruct op; [exact H|]. clear H. case_bool_decide as Hq; [|done]. subst. by rewrite ids_at_node.
    + assert (ids_at (Node (<[b := fix_walk (default newNode (c !! b)) prefix ig id op]> c) i l) q =
        if bool_decide (q = Some b :: bit_path prefix ig) then fix_ids (ids_at (Node c i l) q) id op else ids_at (Node c i l) q) as H.
      { rewrite !ids_at_node. destruct q as [|[b'|] q]; [by rewrite bool_decide_eq_false_2| |by rewrite bool_decide_eq_false_2].
        destruct (decide (b = b')) as [<-|Hb].
        - rewrite lookup_insert_eq, IH, Hd by done.
          case_bool_decide as Hq; [subst; by rewrite bool_decide_eq_true_2|rewrite bool_decide_eq_false_2; congruence].
        - rewrite lookup_insert_ne by done. rewrite bool_decide_eq_false_2; congruence. }
      destruct (c !! b) as [n'|] eqn:E; [exact H|]. destruct op; [exact H|]. clear H. case_bool_decide as Hq; [|done]. subst.
      by rewrite ids_at_node, E.
Qed.

(** ** Lemmas: removing what is empty *)

Fixpoint height (n : node) : nat :=
  let '(Node c i _) := n in
  S (map_fold (fun _ n h => Nat.max (height n) h) 0%nat c `max` match i with Some n => height n | None => 0%nat end).

Lemma height_child c i l b n : c !! b = Some n -> (height n < height (Node c i l))%nat.
Proof.
  intros E. cbn. assert (height n <= map_fold (fun _ n h => Nat.max (height n) h) 0%nat c)%nat; [|lia].
  revert b n E. apply (map_fold_weak_ind (fun h c => forall b n, c !! b = Some n -> (height n <= h)%nat)).
  - intros b n E. by apply lookup_empty_Some in E.
  - intros b n c' h _ IH b' n' [[<- <-]|[_ E]]%lookup_insert_Some; [lia|]. apply IH in E. lia.
Qed.

Lemma node_induction (P : node -> Prop) :
  (forall c i l, (forall b n, c !! b = Some n -> P n) -> (forall n, i = Some n -> P n) -> P (Node c i l)) -> forall n, P n.
Proof.
  intros H n. assert (forall h n, (height n < h)%nat -> P n) as Hh; [|apply (Hh (S (height n))); lia].
  clear n. intros h. induction h as [|h IH]; intros [c i l] Hh; [lia|]. apply H.
  - intros b n E. apply IH. pose proof (height_child c i l b n E). lia.
  - intros n ->. apply IH. cbn in Hh. lia.
Qed.

Lemma isEmpty_true n : isEmpty n = true <-> n = newNode.
Proof.
  destruct n as [c i l]. unfold isEmpty, newNode. cbn. rewrite !andb_true_iff, !bool_decide_eq_true. split.
  - intros [[-> ->] H]. by destruct i.
  - intros [= -> -> ->]. done.
Qed.

Lemma removeEmpty_down n o : down (removeEmpty n) o =
  match down n o with Some c => if isEmpty (removeEmpty c) then None else Some (removeEmpty c) | None => None end.
Proof. destruct n as [c i l], o as [b|]; cbn; [|by destruct i]. rewrite lookup_omap. by destruct (c !! b). Qed.

Lemma removeEmpty_ids p : forall n, ids_at (removeEmpty n) p = ids_at n p.
Proof.
  induction p as [|o p IH]; intros n; [by destruct n|]. rewrite !ids_at_cons, removeEmpty_down.
  destruct (down n o) as [c|]; [|done]. rewrite <- (IH c). destruct (isEmpty (removeEmpty c)) eqn:E; [|done].
  apply isEmpty_true in E. by rewrite E, ids_at_new.
Qed.

Lemma removeEmpty_live n : isEmpty (removeEmpty n) = false -> exists q id, id ∈ ids_at (removeEmpty n) q.
Proof.
  induction n as [c i l IHc IHi] using node_induction. intros H.
  assert (forall o m, down (removeEmpty (Node c i l)) o = Some m -> exists q id, id ∈ ids_at (removeEmpty (Node c i l)) q) as Hdown.
  { intros o m E. pose proof E as E'. rewrite removeEmpty_down in E'. destruct (down (Node c i l) o) as [n|] eqn:En; [|done].
    destruct (isEmpty (removeEmpty n)) eqn:Em; [done|]. injection E' as <-.
    assert (exists q id, id ∈ ids_at (removeEmpty n) q) as (q & id & Hq) by (destruct o as [b|]; cbn in En; [by apply (IHc b)|by apply IHi]).
    exists (o :: q), id. by rewrite ids_at_cons, E. }
  destruct (removeEmpty (Node c i l)) as [c' i' l'] eqn:Er. unfold isEmpty in H. cbn in H.
  destruct i' as [m|]; [by apply (Hdown None m)|]. rewrite andb_true_r in H. apply andb_false_iff in H as [H|H]; apply bool_decide_eq_false_1 in H.
  - apply map_choose in H as (b & m & E). by apply (Hdown (Some b) m).
  - destruct l' as [|id l']; [done|]. exists [], id. cbn. left.
Qed.

Lemma removeEmpty_tight n : tight (removeEmpty n).
Proof.
  intros p. revert n. induction p as [|o p IH]; intros n [m E]; [by left|right]. cbn in E. rewrite removeEmpty_down in E.
  destruct (down n o) as [c|] eqn:Ed; [|done]. destruct (isEmpty (removeEmpty c)) eqn:Em; [done|]. cbn in E.
  assert (exists q id, id ∈ ids_at (removeEmpty c) (p ++ q)) as (q & id & H).
  { destruct (IH c) as [->|H]; [by exists m| |exact H]. by apply removeEmpty_live. }
  exists q, id. rewrite <- app_comm_cons, ids_at_cons, removeEmpty_down, Ed, Em. exact H.
Qed.

(** ** Lemmas: adding keeps a trie tight *)

Lemma walk_nodes id prefix : forall n ig q, length ig = length prefix -> is_Some (node_at (fix_walk n prefix ig id set) q) ->
  is_Some (node_at n q) \/ q `prefix_of` bit_path prefix ig.
Proof.
  induction prefix as [|b prefix IH]; intros [c i l] ig [|o q] Hl Hs; (destruct ig as [|g ig]; [|]; try done); try (by left).
  - injection Hl as Hl. assert (forall q, is_Some (node_at newNode q) -> q = []) as Hn by (by intros [|[] ?] [? ?]).
    assert (forall m, is_Some (node_at (fix_walk (default newNode m) prefix ig id set) q) ->
      is_Some (m ≫= fun m => node_at m q) \/ q `prefix_of` bit_path prefix ig) as H.
    { intros m [Hm|Hm]%IH; [|by right|done]. destruct m as [m|]; [by left|]. apply Hn in Hm as ->. right. apply prefix_nil. }
    destruct g; cbn [fix_walk] in Hs.
    + assert (is_Some (down (Node c (Some (fix_walk (default newNode i) prefix ig id set)) l) o ≫= fun m => node_at m q)) as Hs'
        by (by destruct i). clear Hs. cbn [bit_path zip_with]. destruct o as [b'|]; cbn in Hs'; [by left|].
      apply H in Hs' as [?|?]; [by left|right; by apply prefix_cons].
    + assert (is_Some (down (Node (<[b := fix_walk (default newNode (c !! b)) prefix ig id set]> c) i l) o ≫= fun m => node_at m q)) as Hs'
        by (by destruct (c !! b)). clear Hs. cbn [bit_path zip_with]. destruct o as [b'|]; cbn in Hs'; [|by left].
      destruct (decide (b = b')) as [<-|Hb]; [|left; cbn; by rewrite lookup_insert_ne in Hs'].
      rewrite lookup_insert_eq in Hs'. apply H in Hs' as [?|?]; [by left|right; by apply prefix_cons].
Qed.

Lemma walk_tight id n prefix ig : length ig = length prefix -> tight n -> tight (fix_walk n prefix ig id set).
Proof.
  intros Hl Ht q Hq. pose proof (walk_ids id set prefix n ig) as Hids. apply walk_nodes in Hq as [Hq|[r Hr]]; [| |done].
  - destruct (Ht q Hq) as [->|(r & id' & H)]; [by left|right]. exists r, id'. rewrite Hids by done.
    case_bool_decide; [apply elem_of_app; by left|done].
  - right. exists r, id. rewrite Hids by done. rewrite bool_decide_eq_true_2 by done. apply elem_of_app. right. by left.
Qed.

(** ** What a history of additions and deletions registers *)

Inductive op : Type := OpAdd (m : Match) (id : Z) | OpDelete (m : Match) (id : Z).

(** The code, one operation; an error changes nothing. *)
Definition trie_step (t : Trie) (o : op) : Trie :=
  match (match o with OpAdd m id => AddMatch t m id | OpDelete m id => DeleteMatch t m id end) with
  | Ok t => t
  | _ => t
  end.

(** The pattern of a match, if its text is one. *)
Definition match_path (m : Match) : option path :=
  match parseIgnoreBytes (IgnoreBytes m) with Ok ig => Some (pattern (Prefix m) ig) | _ => None end.

(** The specification: a list of patterns with their ids. *)
Definition spec_step (reg : list (path * Z)) (o : op) : list (path * Z) :=
  match o with
  | OpAdd m id => match match_path m with Some p => reg ++ [(p, id)] | None => reg end
  | OpDelete m id => match match_path m with Some p => filter (fun x => x <> (p, id)) reg | None => reg end
  end.

Definition ids_of (reg : list (path * Z)) (p : path) : list Z := snd <$> filter (fun x => x.1 = p) reg.

Definition trie_holds (t : Trie) (reg : list (path * Z)) : Prop := tight t /\ forall p, ids_at t p = ids_of reg p.

Lemma walk_take id op prefix : forall n ig, fix_walk n prefix (take (length prefix) ig) id op = fix_walk n prefix ig id op.
Proof.
  induction prefix as [|b prefix IH]; intros [c i l] [|g ig]; [done..|].
  cbn [length take fix_walk]. destruct g; [by rewrite IH|]. destruct (c !! b); by rewrite ?IH.
Qed.

(** [fix_] is the walk along the pattern, or an error. *)
Lemma fix_spec t m id op :
  (match_path m = None /\ exists r, fix_ t m id op = r /\ match r with Ok _ => False | _ => True end) \/
  exists ig, match_path m = Some (bit_path (Prefix m) ig) /\ length ig = length (Prefix m) /\
    fix_ t m id op = Ok (fix_walk t (Prefix m) ig id op).
Proof.
  unfold fix_, match_path. destruct (parseIgnoreBytes (IgnoreBytes m)) as [ig| |]; cbn [mbind result_bind];
    [right|left; split; [done|by eexists]..].
  exists (take (length (Prefix m)) (ig ++ replicate (length (Prefix m) - length ig) false)). rewrite walk_take, pattern_bits.
  split_and!; [|rewrite length_take, length_app, length_replicate; lia|done]. f_equal. unfold bit_path.
  generalize (ig ++ replicate (length (Prefix m) - length ig) false). clear ig. intros ig. revert ig.
  induction (Prefix m) as [|b p IH]; intros [|i ig]; [done..|]. cbn. f_equal. apply IH.
Qed.

Lemma ids_of_add reg p id q : ids_of (reg ++ [(p, id)]) q = if bool_decide (q = p) then ids_of reg q ++ [id] else ids_of reg q.
Proof.
  unfold ids_of. rewrite filter_app, fmap_app, filter_cons, filter_nil. cbn. case_bool_decide as H.
  - by rewrite decide_True.
  - rewrite decide_False by congruence. cbn. by rewrite app_nil_r.
Qed.

Lemma ids_of_delete reg p id q : ids_of (filter (fun x => x <> (p, id)) reg) q =
  if bool_decide (q = p) then filter (fun c => id <> c) (ids_of reg q) else ids_of reg q.
Proof.
  unfold ids_of. induction reg as [|[p' id'] reg IH]; [by case_bool_decide|]. rewrite !(filter_cons _ (p', id')). cbn [fst].
  destruct (decide ((p', id') <> (p, id))) as [Hn|Hn].
  - rewrite filter_cons. cbn [fst]. destruct (decide (p' = q)) as [->|Hp]; [|exact IH]. rewrite !fmap_cons, IH. cbn [snd].
    case_bool_decide as Hq; [|done]. subst. rewrite filter_cons, decide_True by congruence. done.
  - apply dec_stable in Hn as [= -> ->]. rewrite IH. destruct (decide (p = q)) as [->|Hp].
    + rewrite bool_decide_eq_true_2 by done. by rewrite fmap_cons, filter_cons, decide_False by (cbn; auto).
    + rewrite bool_decide_eq_false_2 by congruence. done.
Qed.

Lemma trie_step_holds t reg o : trie_holds t reg -> trie_holds (trie_step t o) (spec_step reg o).
Proof.
  intros [Ht Hids]. destruct o as [m id|m id]; unfold trie_step, AddMatch, DeleteMatch, spec_step.
  - destruct (fix_spec t m id set) as [(-> & r & -> & Hr)|(ig & -> & Hl & ->)]; [by destruct r|].
    split; [by apply walk_tight|]. intros p. rewrite walk_ids, Hids, ids_of_add by done. done.
  - destruct (fix_spec t m id del) as [(-> & r & -> & Hr)|(ig & -> & Hl & ->)]; [by destruct r|]. cbn [mbind result_bind].
    split; [apply removeEmpty_tight|]. intros p. rewrite removeEmpty_ids, walk_ids, Hids, ids_of_delete by done. done.
Qed.

Lemma trie_steps_hold ops : forall t reg, trie_holds t reg -> trie_holds (foldl trie_step t ops) (foldl spec_step reg ops).
Proof. induction ops as [|o ops IH]; intros t reg H; [done|]. by apply IH, trie_step_holds. Qed.

Lemma new_holds : trie_holds NewTrie [].
Proof.
  split; [|intros p; apply ids_at_new]. intros [|[b|] p] [m E]; [by left|done..].
Qed.

Lemma tight_empty t : tight t -> (forall p, ids_at t p = []) -> t = NewTrie.
Proof.
  intros Ht Hn. assert (forall o, down t o = None) as Hd.
  { intros o. destruct (down t o) as [m|] eqn:E; [|done]. destruct (Ht [o]) as [|(q & id & H)]; [cbn; by rewrite E|done|].
    rewrite Hn in H. by apply not_elem_of_nil in H. }
  destruct t as [c i l]. specialize (Hn []) as Hl. cbn in Hl. subst l. pose proof (Hd None) as Hi. cbn in Hi. subst i.
  unfold NewTrie, newNode. f_equal. apply map_empty. intros b. apply (Hd (Some b)).
Qed.

(** C22: the trie refines a list of patterns with ids.  After any history of [AddMatch] and
    [DeleteMatch], those with unreadable text among them, [Get] gives exactly the ids of the
    registered patterns that match the key; every node but the root leads to an id, and when
    nothing is registered the trie is a new one. *)
Theorem trie_refines_patterns ops :
  let t := foldl trie_step NewTrie ops in
  let reg := foldl spec_step [] ops in
  (forall key id, id ∈ Get t key <-> exists p, (p, id) ∈ reg /\ path_matches p key = true) /\
  tight t /\ (reg = [] -> t = NewTrie).
Proof.
  cbn zeta. destruct (trie_steps_hold ops NewTrie [] new_holds) as [Ht Hids]. split_and!; [|done|].
  - intros key id. unfold Get. rewrite get_spec. setoid_rewrite Hids. unfold ids_of. split.
    + intros (p & H & Hp). exists p. split; [|done]. apply list_elem_of_fmap in H as ([p' id'] & -> & H).
      by apply list_elem_of_filter in H as [[= ->] H].
    + intros (p & H & Hp). exists p. split; [|done]. apply list_elem_of_fmap. exists (p, id). split; [done|].
      by apply list_elem_of_filter.
  - intros E. apply tight_empty; [done|]. intros p. by rewrite Hids, E.
Qed.

(** ** Lemmas: reading the list of ignored positions *)

(** Decimal digits that an [int] can hold. *)
Definition number (ds : bytes) (n : Z) : Prop := ds <> [] /\ digits_value ds 0 = Some n /\ n < 2 ^ 63.

(** A range as a user writes it: [3] or [5-8], after some spaces. *)
Record range_text : Type := mkRange { rt_pad : nat; rt_start : bytes; rt_end : option bytes }.

Definition range_ok (r : range_text) : Prop := (exists n, number (rt_start r) n) /\
  match rt_end r with Some e => exists n, number e n | None => True end.

Definition core (r : range_text) : bytes := rt_start r ++ match rt_end r with Some e => x2d :: e | None => [] end.

Definition padded (r : range_text) : bytes := replicate (rt_pad r) x20 ++ core r.

(** [3, 5-8, 10]. *)
Fixpoint ranges_text (r : range_text) (rs : list range_text) : bytes :=
  match rs with [] => core r | r' :: rs => core r ++ x2c :: replicate (rt_pad r') x20 ++ ranges_text r' rs end.

(** The positions a range ignores. *)
Definition covers (r : range_text) (i : Z) : Prop := exists a, number (rt_start r) a /\
  match rt_end r with Some e => exists b, number e b /\ a <= i <= b | None => i = a end.

Definition is_digit (b : byte) : Prop := is_Some (digit b).

Lemma digits_all ds : forall n m, digits_value ds n = Some m -> Forall is_digit ds /\ (0 <= n -> n <= m).
Proof.
  induction ds as [|d ds IH]; intros n m; cbn [digits_value]; [intros [= ->]; done|].
  destruct (digit d) as [v|] eqn:E; [|done]. cbn. intros [H1 H2]%IH. split; [constructor; [by exists v|done]|].
  unfold digit in E. case_bool_decide; [|done]. injection E as <-. lia.
Qed.

Lemma number_digits ds n : number ds n -> Forall is_digit ds /\ ds <> [] /\ 0 <= n.
Proof. intros (H1 & [H2 H3]%digits_all & _). split_and!; [done..|lia]. Qed.

Lemma digit_cases (P : byte -> Prop) : P x30 -> P x31 -> P x32 -> P x33 -> P x34 -> P x35 -> P x36 -> P x37 -> P x38 -> P x39 ->
  forall d, is_digit d -> P d.
Proof. intros ?????????? d [v Hd]. destruct d; try discriminate Hd; done. Qed.

Lemma digit_no_space d s : is_digit d -> starts_with_space (d :: s) = None.
Proof. intros Hd. apply (digit_cases (fun d => starts_with_space (d :: s) = None)); try exact Hd; reflexivity. Qed.

Lemma digit_no_space_end d s : is_digit d -> ends_with_space (s ++ [d]) = None.
Proof.
  unfold ends_with_space. rewrite reverse_app. revert d. refine (digit_cases _ _ _ _ _ _ _ _ _ _ _); reflexivity.
Qed.

Lemma trim_left_pad k : forall fuel s, (k <= fuel)%nat -> (exists d s', s = d :: s' /\ is_digit d) -> trim_left fuel (replicate k x20 ++ s) = s.
Proof.
  induction k as [|k IH]; intros fuel s Hf (d & s' & -> & Hd).
  - destruct fuel; [done|]. cbn [trim_left replicate app]. by rewrite digit_no_space.
  - destruct fuel as [|fuel]; [lia|]. cbn [replicate app trim_left].
    change (starts_with_space (x20 :: replicate k x20 ++ d :: s')) with (Some [x20]). cbn [length drop]. apply IH; [lia|by eexists _, _].
Qed.

Lemma TrimSpace_pad k s : (exists d s', s = d :: s' /\ is_digit d) -> (exists d s', s = s' ++ [d] /\ is_digit d) ->
  TrimSpace (replicate k x20 ++ s) = s.
Proof.
  intros H1 (d & s' & E & Hd). unfold TrimSpace. rewrite trim_left_pad; [|rewrite length_app, length_replicate; lia|done].
  rewrite E at 1. rewrite length_app. cbn. rewrite Nat.add_comm. cbn. by rewrite E, digit_no_space_end.
Qed.

Lemma digits_ends ds : Forall is_digit ds -> ds <> [] -> (exists d s', ds = d :: s' /\ is_digit d) /\ (exists d s', ds = s' ++ [d] /\ is_digit d).
Proof.
  intros Hds Hne. split.
  - destruct ds as [|d ds]; [done|]. apply Forall_cons in Hds as [? _]. by eexists _, _.
  - destruct (exists_last Hne) as (s' & d & ->). apply Forall_app in Hds as [_ Hd]. apply Forall_cons in Hd as [? _]. by eexists _, _.
Qed.

Lemma Split_none s sep : sep ∉ s -> Split s sep = [s].
Proof.
  induction s as [|b s IH]; intros H; [done|]. apply not_elem_of_cons in H as [Hb Hs]. cbn.
  rewrite bool_decide_eq_false_2 by congruence. by rewrite IH.
Qed.

Lemma Split_sep s sep t : sep ∉ s -> Split (s ++ sep :: t) sep = s :: Split t sep.
Proof.
  induction s as [|b s IH]; intros H; cbn; [by rewrite bool_decide_eq_true_2|]. apply not_elem_of_cons in H as [Hb Hs].
  rewrite bool_decide_eq_false_2 by congruence. by rewrite IH.
Qed.

Lemma digits_no b ds : ~ is_digit b -> Forall is_digit ds -> b ∉ ds.
Proof. intros Hb Hds H. rewrite Forall_forall in Hds. by apply Hb, Hds. Qed.

Lemma Atoi_number ds n : number ds n -> Atoi ds = Ok n.
Proof.
  intros H. pose proof (number_digits _ _ H) as (Hd & Hne & Hn). destruct H as (_ & Hv & Hm).
  assert (Atoi ds = match digits_value ds 0 with None => Err ErrNum
    | Some n => if bool_decide (- 2 ^ 63 <= n < 2 ^ 63) then Ok n else Err ErrNum end) as ->.
  { destruct ds as [|d ds]; [done|]. apply Forall_cons in Hd as [[v Hd] _]. unfold Atoi. by destruct d. }
  rewrite Hv. by rewrite bool_decide_eq_true_2 by lia.
Qed.

Lemma grow_to_lookup out i k : grow_to out i !! k = Some true <-> out !! k = Some true.
Proof.
  unfold grow_to. rewrite lookup_app. destruct (out !! k) as [b|]; [done|]. split; [|done].
  intros [[=] _]%lookup_replicate.
Qed.

Lemma grow_to_length out i : Z.of_nat (length (grow_to out i)) = Z.max (Z.of_nat (length out)) (i + 1).
Proof. unfold grow_to. rewrite length_app, length_replicate. lia. Qed.

Lemma mark_lookup out a b k : b < Z.of_nat (length out) ->
  mark_range out a b !! k = Some true <-> out !! k = Some true \/ a <= Z.of_nat k <= b.
Proof.
  intros Hb. unfold mark_range. rewrite list_lookup_imap. destruct (out !! k) as [x|] eqn:E; cbn.
  - case_bool_decide as H; [|split; [by left|intros [H1|?]; [done|lia]]]. split; [by right|done].
  - apply lookup_ge_None in E. split; [done|]. intros [?|?]; [done|lia].
Qed.

Lemma core_ends r : range_ok r -> (exists d s', core r = d :: s' /\ is_digit d) /\ (exists d s', core r = s' ++ [d] /\ is_digit d).
Proof.
  intros [[n Hn] He]. apply number_digits in Hn as (Hd & Hne & _). destruct (digits_ends _ Hd Hne) as [(d & s' & E & H1) (d' & s2 & E' & H2)].
  unfold core. destruct (rt_end r) as [e|]; [|rewrite app_nil_r; split; by eexists _, _].
  destruct He as [m Hm]. apply number_digits in Hm as (Hed & Hene & _). destruct (digits_ends _ Hed Hene) as [_ (d3 & s3 & -> & H3)].
  split; [rewrite E; by eexists d, _|]. exists d3, (rt_start r ++ x2d :: s3). by rewrite <- app_assoc.
Qed.

Lemma TrimSpace_digits ds : Forall is_digit ds -> ds <> [] -> TrimSpace ds = ds.
Proof. intros Hd Hne. destruct (digits_ends ds Hd Hne). by apply (TrimSpace_pad 0). Qed.

Lemma not_digit_dash : ~ is_digit x2d. Proof. by intros [v H]. Qed.
Lemma not_digit_comma : ~ is_digit x2c. Proof. by intros [v H]. Qed.

Lemma parse_range_ok out r : range_ok r -> exists out', parse_range out (padded r) = Ok out' /\
  forall k : nat, out' !! k = Some true <-> out !! k = Some true \/ covers r (Z.of_nat k).
Proof.
  intros Hok. destruct (core_ends r Hok) as [H1 H2]. destruct Hok as [[a Ha] He]. unfold parse_range, padded.
  rewrite TrimSpace_pad by done. clear H1 H2. destruct (number_digits _ _ Ha) as (Hd & Hne & Ha0).
  pose proof (digits_no _ _ not_digit_dash Hd) as Hdash. unfold core, covers.
  assert (forall n, number (rt_start r) n <-> n = a) as Huniq.
  { intros n. split; [|by intros ->]. destruct Ha as (_ & E & _). intros (_ & E' & _). congruence. }
  destruct (rt_end r) as [e|].
  - destruct He as [b Hb]. destruct (number_digits _ _ Hb) as (Hed & Hene & Hb0).
    rewrite Split_sep, Split_none by (done || by apply digits_no; [apply not_digit_dash|]). cbn [length].
    rewrite bool_decide_eq_false_2 by lia. rewrite !TrimSpace_digits by done. rewrite (Atoi_number e b), (Atoi_number _ a) by done.
    cbn [mbind result_bind]. rewrite !bool_decide_eq_false_2 by lia. eexists. split; [done|]. intros k.
    rewrite mark_lookup by (rewrite !grow_to_length; lia). rewrite !grow_to_lookup. f_equiv. setoid_rewrite Huniq. split.
    + intros ?. exists a. split; [done|]. by exists b.
    + intros (n & -> & m & Hm & ?). destruct Hm as (_ & E & _), Hb as (_ & E' & _). rewrite E in E'. by injection E' as ->.
  - rewrite app_nil_r, Split_none by done. cbn [length]. rewrite bool_decide_eq_false_2 by lia. cbn [mbind result_bind].
    rewrite TrimSpace_digits, (Atoi_number _ a) by done. cbn [mbind result_bind]. rewrite !(bool_decide_eq_false_2 (a = _)), (bool_decide_eq_false_2 (a < _)) by lia.
    rewrite bool_decide_eq_true_2 by done. eexists. split; [done|]. intros k.
    rewrite mark_lookup by (rewrite !grow_to_length; lia). rewrite !grow_to_lookup. f_equiv. setoid_rewrite Huniq. split.
    + intros ?. exists a. split; [done|lia].
    + intros (n & -> & ?). lia.
Qed.

Lemma parse_ranges_ok rs : Forall range_ok rs -> forall out, exists out', parse_ranges out (padded <$> rs) = Ok out' /\
  forall k : nat, out' !! k = Some true <-> out !! k = Some true \/ Exists (fun r => covers r (Z.of_nat k)) rs.
Proof.
  induction 1 as [|r rs Hr _ IH]; intros out.
  - exists out. split; [done|]. intros k. rewrite Exists_nil. tauto.
  - destruct (parse_range_ok out r Hr) as (out1 & E1 & H1). destruct (IH out1) as (out2 & E2 & H2). exists out2.
    cbn. rewrite E1. cbn. split; [done|]. intros k. rewrite H2, H1, Exists_cons. tauto.
Qed.

Lemma core_no_comma r : range_ok r -> x2c ∉ core r.
Proof.
  intros [[n Hn] He]. unfold core. apply number_digits in Hn as (Hd & _). rewrite elem_of_app. intros [H|H].
  - by apply (digits_no _ _ not_digit_comma Hd) in H.
  - destruct (rt_end r) as [e|]; [|by apply not_elem_of_nil in H]. destruct He as [m (Hed & _)%number_digits].
    apply elem_of_cons in H as [H|H]; [done|]. by apply (digits_no _ _ not_digit_comma Hed) in H.
Qed.

Lemma Split_ranges rs : forall r k, Forall range_ok (r :: rs) ->
  Split (replicate k x20 ++ ranges_text r rs) x2c = (replicate k x20 ++ core r) :: (padded <$> rs).
Proof.
  assert (forall k, x2c ∉ replicate k x20) as Hp by (by intros k [? _]%elem_of_replicate).
  assert (forall k r, range_ok r -> x2c ∉ replicate k x20 ++ core r) as Hc.
  { intros k r Hr. rewrite elem_of_app. intros [H|H]; [by apply Hp in H|]. by apply core_no_comma in H. }
  induction rs as [|r' rs IH]; intros r k [Hr Hrs]%Forall_cons; cbn [ranges_text fmap list_fmap].
  - by rewrite Split_none by auto.
  - rewrite app_assoc, Split_sep by auto. f_equal. by apply IH.
Qed.

(** The list of ignored positions is read as it is meant.  For any list of numbers and ranges
    separated by commas, with spaces after the commas, exactly the positions the ranges cover are
    ignored. *)
Theorem parseIgnoreBytes_ranges r rs : rt_pad r = 0%nat -> Forall range_ok (r :: rs) ->
  exists ig, parseIgnoreBytes (ranges_text r rs) = Ok ig /\
    forall k : nat, ig !! k = Some true <-> Exists (fun r => covers r (Z.of_nat k)) (r :: rs).
Proof.
  intros Hpad Hok. destruct (parse_ranges_ok (r :: rs) Hok []) as (ig & E & H). exists ig.
  assert (forall rs r, Forall range_ok (r :: rs) -> (exists d s', ranges_text r rs = d :: s' /\ is_digit d) /\
    (exists d s', ranges_text r rs = s' ++ [d] /\ is_digit d)) as Hends.
  { clear. induction rs as [|r' rs IH]; intros r [Hr Hrs]%Forall_cons; [by apply core_ends|].
    destruct (core_ends r Hr) as [(d & s & E & Hd) _]. destruct (IH r' Hrs) as [_ (d' & s' & E' & Hd')]. cbn [ranges_text]. split.
    - rewrite E. by eexists _, _.
    - rewrite E'. eexists d', (core r ++ x2c :: replicate (rt_pad r') x20 ++ s'). by rewrite <- app_assoc, <- app_comm_cons, <- app_assoc. }
  destruct (Hends rs r Hok) as [H1 H2]. split.
  - unfold parseIgnoreBytes. destruct (ranges_text r rs) as [|b s] eqn:Et; [by destruct H1 as (? & ? & ? & ?)|]. rewrite <- Et.
    rewrite <- Et in H1, H2. pose proof (TrimSpace_pad 0 _ H1 H2) as Ep. cbn [replicate app] in Ep. rewrite Ep. pose proof (Split_ranges rs r 0 Hok) as Es. cbn [replicate app] in Es. rewrite Es.
    rewrite <- E. cbn [fmap list_fmap]. unfold padded. by rewrite Hpad.
  - intros k. rewrite H. split; [intros [?|?]; [done|done]|by right].
Qed.

(** ["3, 5-8,10"] *)
Lemma parseIgnoreBytes_ranges_witness : exists ig, parseIgnoreBytes [x33; x2c; x20; x35; x2d; x38; x2c; x31; x30] = Ok ig /\
  ig = [false; false; false; true; false; true; true; true; true; false; true].
Proof.
  assert (forall ds n, ds <> [] -> digits_value ds 0 = Some n -> n < 2 ^ 63 -> exists n, number ds n) as Hn.
  { intros ds n H1 H2 H3. by exists n. }
  destruct (parseIgnoreBytes_ranges (mkRange 0 [x33] None) [mkRange 1 [x35] (Some [x38]); mkRange 0 [x31; x30] None]) as (ig & E & _).
  - done.
  - repeat constructor; cbn; eapply Hn; try reflexivity; done.
  - exists ig. split; [exact E|]. vm_compute in E. by injection E as <-.
Defined.
