(* ===== verification/Publisher.v ===== *)
(** * Publisher: updates for subscribers (publisher.go, db.go)

    A subscriber registers prefixes with the publisher; writers hand their requests over; the
    publisher's goroutine gathers what waits, takes its lock, and sends each subscriber the
    entries that match.  The subscriber's own loop takes everything waiting for it and calls its
    callback.  The steps are as fine as the channels and the lock: a request is counted for the
    subscribers before it is in the channel, and a batch is gathered before the lock is taken.
    Channels are lists without a bound. *)

From S2P Require Import Prelude Keys Codec Trie.

(** [pb.KV], the fields that are set. *)
Record pbKV : Type := mkKV {
  kv_Key : bytes; kv_Value : bytes; kv_Meta : bytes; kv_ExpiresAt : Z; kv_Version : Z
}.

Record subscriber : Type := mkSub {
  sub_id : Z;
  sub_matches : list Match;
  sub_sendCh : list (list pbKV);
  sub_active : Z
}.

Record publisher : Type := mkPub {
  pubCh : list (list (list Entry));
  subscribers : gmap Z subscriber;
  nextID : Z;
  indexer : Trie
}.

Definition newPublisher : publisher := mkPub [] ∅ 0 NewTrie.

Definition set_subscribers (p : publisher) (m : gmap Z subscriber) : publisher := mkPub (pubCh p) m (nextID p) (indexer p).
Definition set_indexer (p : publisher) (t : Trie) : publisher := mkPub (pubCh p) (subscribers p) (nextID p) t.
Definition set_pubCh (p : publisher) (ch : list (list (list Entry))) : publisher := mkPub ch (subscribers p) (nextID p) (indexer p).

Definition to_kv (e : Entry) : pbKV :=
  mkKV (ParseKey (eKey e)) (vbytes (SafeCopy [] (eValue e))) [eUserMeta e] (eExpiresAt e) (ParseTs (eKey e)).

(** One entry into the batches of its subscribers; the ids come from a map in any order, and each
    has a batch of its own. *)
Definition batch_entry (idx : Trie) (batched : gmap Z (list pbKV)) (e : Entry) : gmap Z (list pbKV) :=
  foldr (fun id b => <[id := default [] (b !! id) ++ [to_kv e]]> b) batched (elements (Get idx (eKey e))).

Definition batch_updates (idx : Trie) (reqs : list (list Entry)) : gmap Z (list pbKV) :=
  foldl (foldl (batch_entry idx)) ∅ reqs.

(** [subscribers[id].active.Load()] of an id that is not there is a nil pointer. *)
Definition send_updates_to (m : gmap Z subscriber) (id : Z) (kvs : list pbKV) : option (gmap Z subscriber) :=
  s ← m !! id;
  if bool_decide (sub_active s = 1) then
    Some (<[id := mkSub (sub_id s) (sub_matches s) (sub_sendCh s ++ [kvs]) (sub_active s)]> m)
  else Some m.

(** The sends, under the lock. *)
Fixpoint send_all (m : gmap Z subscriber) (l : list (Z * list pbKV)) : option (gmap Z subscriber) :=
  match l with
  | [] => Some m
  | (id, kvs) :: l => m ← send_updates_to m id kvs; send_all m l
  end.

Definition publishUpdates (p : publisher) (reqs : list (list Entry)) : option publisher :=
  m ← send_all (subscribers p) (map_to_list (batch_updates (indexer p) reqs));
  Some (set_subscribers p m).

Fixpoint add_matches (t : Trie) (ms : list Match) (id : Z) : Trie * result trie_error () :=
  match ms with
  | [] => (t, Ok ())
  | m :: ms =>
      match AddMatch t m id with
      | Ok t => add_matches t ms id
      | Err e => (t, Err e)
      | Panic => (t, Panic)
      end
  end.

Definition newSubscriber (p : publisher) (ms : list Match) : publisher * result trie_error subscriber :=
  let id := nextID p in
  let s := mkSub id ms [] 1 in
  let p := mkPub (pubCh p) (<[id := s]> (subscribers p)) (u64 (id + 1)) (indexer p) in
  match add_matches (indexer p) ms id with
  | (t, Ok _) => (set_indexer p t, Ok s)
  | (t, Err e) => (set_indexer p t, Err e)
  | (t, Panic) => (set_indexer p t, Panic)
  end.

(** Errors of [DeleteMatch] are ignored. *)
Definition delete_match (id : Z) (t : Trie) (m : Match) : Trie :=
  match DeleteMatch t m id with Ok t => t | _ => t end.

Definition deleteSubscriber (p : publisher) (id : Z) : publisher :=
  let p := match subscribers p !! id with
    | Some s => set_indexer p (foldl (delete_match id) (indexer p) (sub_matches s))
    | None => p
    end in
  set_subscribers p (delete id (subscribers p)).

Definition cleanSubscribers (p : publisher) : publisher :=
  foldl (fun p x => set_subscribers (set_indexer p (foldl (delete_match x.1) (indexer p) (sub_matches x.2))) (delete x.1 (subscribers p)))
    p (map_to_list (subscribers p)).

Definition noOfSubscribers (p : publisher) : nat := size (subscribers p).

(** [sendUpdates] up to the channel: whether there is somebody to send to (under the lock), ... *)
Definition sendUpdates (p : publisher) (reqs : list (list Entry)) : option (list (list Entry)) :=
  if bool_decide (noOfSubscribers p <> 0%nat) then Some reqs else None.

(** ... and putting the requests into it. *)
Definition put_pubCh (p : publisher) (reqs : list (list Entry)) : publisher := set_pubCh p (pubCh p ++ [reqs]).

(** Where [listenForUpdates] is: waiting, in the loop of [slurp], before the lock of
    [publishUpdates], among its sends, or done. *)
Inductive listener : Type :=
  | Listening
  | Gathering (batch : list (list Entry))
  | Locking (batch : list (list Entry))
  | Sending (l : list (Z * list pbKV))
  | Stopped.

(** One turn of the loop in [slurp], or its start; it goes on to publish when nothing waits. *)
Definition slurp (lis : listener) (p : publisher) : option (listener * publisher) :=
  match lis, pubCh p with
  | Listening, reqs :: ch => Some (Gathering reqs, set_pubCh p ch)
  | Gathering batch, reqs :: ch => Some (Gathering (batch ++ reqs), set_pubCh p ch)
  | Gathering batch, [] => Some (Locking batch, p)
  | _, _ => None
  end.

(** ** The subscriber's side, in [Subscribe] *)

(** What comes first in the channel. *)
Definition sub_take (p : publisher) (id : Z) : option (publisher * list pbKV) :=
  s ← subscribers p !! id;
  match sub_sendCh s with
  | [] => None
  | kvs :: ch => Some (set_subscribers p (<[id := mkSub (sub_id s) (sub_matches s) ch (sub_active s)]> (subscribers p)), kvs)
  end.

Definition set_inactive (p : publisher) (id : Z) : publisher :=
  set_subscribers p (alter (fun s => mkSub (sub_id s) (sub_matches s) (sub_sendCh s) 0) id (subscribers p)).

Definition drain (p : publisher) (id : Z) : publisher :=
  set_subscribers p (alter (fun s => mkSub (sub_id s) (sub_matches s) [] (sub_active s)) id (subscribers p)).

(** ** What a subscriber asked for *)

Definition wants (s : subscriber) (e : Entry) : Prop := exists m p,
  m ∈ sub_matches s /\ match_path m = Some p /\ path_matches p (eKey e) = true.

Definition wantsb (s : subscriber) (e : Entry) : bool :=
  existsb (fun m => match match_path m with Some p => path_matches p (eKey e) | None => false end) (sub_matches s).

Lemma wants_spec s e : wantsb s e = true <-> wants s e.
Proof.
  unfold wantsb, wants. rewrite existsb_exists. split.
  - intros (m & Hm%list_elem_of_In & H). destruct (match_path m) as [p|] eqn:E; [|done]. by exists m, p.
  - intros (m & p & Hm & E & H). exists m. rewrite E. by split; [apply list_elem_of_In|].
Qed.

Definition due_of (s : subscriber) (es : list Entry) : list pbKV := to_kv <$> filter (fun e => wantsb s e = true) es.

Lemma due_of_app s es es' : due_of s (es ++ es') = due_of s es ++ due_of s es'.
Proof. unfold due_of. by rewrite filter_app, fmap_app. Qed.

(** ** Lemmas: batches *)

Lemma batch_entry_lookup idx b e id : batch_entry idx b e !! id =
  if bool_decide (id ∈ Get idx (eKey e)) then Some (default [] (b !! id) ++ [to_kv e]) else b !! id.
Proof.
  unfold batch_entry. assert (forall l, NoDup l ->
    foldr (fun id b => <[id := default [] (b !! id) ++ [to_kv e]]> b) b l !! id =
      if bool_decide (id ∈ l) then Some (default [] (b !! id) ++ [to_kv e]) else b !! id) as H.
  { induction l as [|i l IH]; intros Hnd; [done|]. apply NoDup_cons in Hnd as [Hi Hnd]. cbn [foldr].
    destruct (decide (id = i)) as [->|Hne].
    - rewrite lookup_insert_eq, IH by done. rewrite (bool_decide_eq_false_2 (i ∈ l)), bool_decide_eq_true_2 by (done || by left). done.
    - rewrite lookup_insert_ne, IH by done. rewrite (bool_decide_ext (id ∈ l) (id ∈ i :: l)); [done|]. rewrite elem_of_cons. naive_solver. }
  rewrite H by apply NoDup_elements. rewrite (bool_decide_ext (id ∈ elements (Get idx (eKey e))) (id ∈ Get idx (eKey e))); [done|].
  apply elem_of_elements.
Qed.

Definition batch_of (idx : Trie) (id : Z) (es : list Entry) : list pbKV := to_kv <$> filter (fun e => id ∈ Get idx (eKey e)) es.

#[local] Arguments batch_of : simpl never.
#[local] Arguments due_of : simpl never.

Lemma batch_entries_lookup idx id es : forall b, foldl (batch_entry idx) b es !! id =
  if bool_decide (batch_of idx id es = []) then b !! id else Some (default [] (b !! id) ++ batch_of idx id es).
Proof.
  induction es as [|e es IH]; intros b; [done|]. cbn [foldl]. rewrite IH, batch_entry_lookup. unfold batch_of.
  rewrite filter_cons. destruct (bool_decide_reflect (id ∈ Get idx (eKey e))) as [Hid|Hid].
  - rewrite decide_True by done. rewrite fmap_cons, (bool_decide_eq_false_2 (_ :: _ = [])) by done. cbn [default].
    destruct (bool_decide_reflect (to_kv <$> filter (fun e => id ∈ Get idx (eKey e)) es = [])) as [Hn|Hn]; [by rewrite Hn|].
    f_equal. cbn. by rewrite <- app_assoc.
  - by rewrite decide_False.
Qed.

Lemma batch_updates_lookup idx id reqs : batch_updates idx reqs !! id =
  if bool_decide (batch_of idx id (concat reqs) = []) then None else Some (batch_of idx id (concat reqs)).
Proof.
  assert (forall reqs b, foldl (foldl (batch_entry idx)) b reqs = foldl (batch_entry idx) b (concat reqs)) as H.
  { induction reqs0 as [|r rs IH]; intros b; [done|]. cbn. by rewrite IH, foldl_app. }
  unfold batch_updates. by rewrite H, batch_entries_lookup.
Qed.

(** ** Lemmas: sending *)

Definition sent (s : subscriber) (kvs : list pbKV) : subscriber :=
  if bool_decide (sub_active s = 1) then mkSub (sub_id s) (sub_matches s) (sub_sendCh s ++ [kvs]) (sub_active s) else s.

Lemma send_updates_to_spec m id kvs s : m !! id = Some s ->
  exists m', send_updates_to m id kvs = Some m' /\ m' !! id = Some (sent s kvs) /\ forall i, i <> id -> m' !! i = m !! i.
Proof.
  intros Hs. unfold send_updates_to, sent. rewrite Hs. cbn [mbind option_bind]. case_bool_decide.
  - eexists. split; [done|]. split; [by rewrite lookup_insert_eq|]. intros i Hi. by rewrite lookup_insert_ne.
  - by exists m.
Qed.

(** What a list of sends has for a subscriber. *)
Definition for_id (l : list (Z * list pbKV)) (id : Z) : list pbKV := concat (snd <$> filter (fun x => x.1 = id) l).

Lemma for_id_cons id kvs l i : for_id ((id, kvs) :: l) i = (if decide (id = i) then kvs else []) ++ for_id l i.
Proof. unfold for_id. rewrite filter_cons. cbn. by destruct (decide (id = i)). Qed.

#[local] Arguments for_id : simpl never.

Lemma for_id_not_in l i : i ∉ l.*1 -> for_id l i = [].
Proof.
  induction l as [|[id kvs] l IH]; intros Hi; [done|]. rewrite for_id_cons. cbn in Hi. rewrite not_elem_of_cons in Hi.
  rewrite decide_False by (intros ->; tauto). apply IH. tauto.
Qed.

Lemma for_id_perm l l' i : NoDup (l.*1) -> l ≡ₚ l' -> for_id l i = for_id l' i.
Proof.
  intros Hnd Hp. unfold for_id. assert (filter (fun x : Z * list pbKV => x.1 = i) l ≡ₚ filter (fun x => x.1 = i) l') as H by (by apply filter_Permutation).
  assert (forall l : list (Z * list pbKV), NoDup (l.*1) -> (length (filter (fun x => x.1 = i) l) <= 1)%nat) as Hlen.
  { clear. induction l as [|[id kvs] l IH]; intros Hnd; [cbn; lia|]. apply NoDup_cons in Hnd as [Hi Hnd]. rewrite filter_cons. cbn.
    destruct (decide (id = i)) as [->|Hne]; [|by apply IH]. cbn. destruct (filter (fun x => x.1 = i) l) as [|[j x] r] eqn:E; [cbn; lia|].
    assert ((j, x) ∈ filter (fun x : Z * list pbKV => x.1 = i) l) as [Hj Hin]%list_elem_of_filter by (rewrite E; by left).
    destruct Hi. apply list_elem_of_fmap. exists (j, x). by rewrite <- Hj. }
  pose proof (Hlen l Hnd) as H1. destruct (filter (fun x : Z * list pbKV => x.1 = i) l) as [|x [|y r]]; cbn in H1; [|..|lia].
  - apply Permutation_nil_l in H. by rewrite <- H.
  - apply Permutation_singleton_l in H. by rewrite H.
Qed.

(** What the sends of a batch have for a subscriber is what matched. *)
Lemma for_id_batch idx id reqs : for_id (map_to_list (batch_updates idx reqs)) id = batch_of idx id (concat reqs).
Proof.
  pose proof (batch_updates_lookup idx id reqs) as E. pose proof (NoDup_fst_map_to_list (batch_updates idx reqs)) as Hnd.
  destruct (bool_decide_reflect (batch_of idx id (concat reqs) = [])) as [Hn|Hn].
  - rewrite Hn. apply for_id_not_in. intros ([i kvs] & -> & Hin)%list_elem_of_fmap. apply elem_of_map_to_list in Hin. cbn in *. congruence.
  - apply elem_of_map_to_list in E. apply elem_of_Permutation in E as [k Hk]. rewrite (for_id_perm _ _ _ Hnd Hk), for_id_cons, decide_True by done.
    rewrite for_id_not_in; [by rewrite app_nil_r|]. rewrite Hk in Hnd. by apply NoDup_cons in Hnd as [? _].
Qed.

(** ** Well-formed publishers *)

(** The ids of the index are those of subscribers that asked for the pattern. *)
Record pub_ok (p : publisher) (reg : list (path * Z)) : Prop := {
  po_index : trie_holds (indexer p) reg;
  po_reg pth id : (pth, id) ∈ reg -> exists s m, subscribers p !! id = Some s /\ m ∈ sub_matches s /\ match_path m = Some pth;
  po_id id s : subscribers p !! id = Some s -> sub_id s = id /\ 0 <= id < nextID p;
  po_next : 0 <= nextID p <= MaxUint64
}.

(** Everything the subscriber asked for is in the index. *)
Definition registered (reg : list (path * Z)) (id : Z) (s : subscriber) : Prop :=
  forall m, m ∈ sub_matches s -> exists pth, match_path m = Some pth /\ (pth, id) ∈ reg.

Lemma holds_get t reg key id : trie_holds t reg -> id ∈ Get t key <-> exists p, (p, id) ∈ reg /\ path_matches p key = true.
Proof.
  intros [_ H]. unfold Get. rewrite get_spec. setoid_rewrite H. unfold ids_of. split.
  - intros (p & Hin & Hp). exists p. split; [|done]. apply list_elem_of_fmap in Hin as ([p' id'] & -> & Hin).
    by apply list_elem_of_filter in Hin as [[= ->] Hin].
  - intros (p & Hin & Hp). exists p. split; [|done]. apply list_elem_of_fmap. exists (p, id). split; [done|]. by apply list_elem_of_filter.
Qed.

Lemma get_subscriber p reg key id : pub_ok p reg -> id ∈ Get (indexer p) key -> is_Some (subscribers p !! id).
Proof.
  intros Hok H. apply (holds_get _ reg) in H as (pth & Hin & _); [|apply Hok]. destruct (po_reg _ _ Hok _ _ Hin) as (s & m & -> & _). done.
Qed.

Lemma registered_gets p reg id s e : pub_ok p reg -> subscribers p !! id = Some s -> registered reg id s ->
  id ∈ Get (indexer p) (eKey e) <-> wantsb s e = true.
Proof.
  intros Hok Hs Hr. rewrite wants_spec, (holds_get _ reg) by apply Hok. split.
  - intros (pth & Hin & Hp). destruct (po_reg _ _ Hok _ _ Hin) as (s' & m & Hs' & Hm & Em). rewrite Hs in Hs'. injection Hs' as <-. by exists m, pth.
  - intros (m & pth & Hm & Em & Hp). destruct (Hr m Hm) as (pth' & Em' & Hin). exists pth. split; [congruence|done].
Qed.

Lemma batch_of_due p reg id s es : pub_ok p reg -> subscribers p !! id = Some s -> registered reg id s ->
  batch_of (indexer p) id es = due_of s es.
Proof.
  intros Hok Hs Hr. unfold batch_of, due_of. f_equal. apply list_filter_iff. intros e. by apply (registered_gets p reg).
Qed.

(** ** Lemmas: subscribing and leaving *)

Lemma add_matches_ok id ms : forall t reg, trie_holds t reg -> exists reg', trie_holds (add_matches t ms id).1 reg' /\ reg `prefix_of` reg' /\
  (forall pth i, (pth, i) ∈ reg' -> (pth, i) ∈ reg \/ i = id /\ exists m, m ∈ ms /\ match_path m = Some pth) /\
  ((add_matches t ms id).2 = Ok () -> forall m, m ∈ ms -> exists pth, match_path m = Some pth /\ (pth, id) ∈ reg').
Proof.
  induction ms as [|m ms IH]; intros t reg Ht.
  - exists reg. split_and!; [done..|by left|intros _ m H; by apply not_elem_of_nil in H].
  - cbn [add_matches]. pose proof (trie_step_holds t reg (OpAdd m id) Ht) as H1. unfold trie_step, spec_step in H1.
    unfold AddMatch in *. destruct (fix_spec t m id set) as [(Em & r & Er & Hr)|(ig & Em & _ & Er)]; rewrite Er in *; rewrite Em in *.
    + exists reg. destruct r as [t'|e|]; [done|..]; cbn; split_and!; try done; by left.
    + destruct (IH _ _ H1) as (reg' & H2 & H3 & H4 & H5). exists reg'. split_and!; [done| | |].
      * etrans; [|exact H3]. by eexists.
      * intros pth i [Hin|(-> & m' & Hm' & E)]%H4; [|right; split; [done|]; exists m'; split; [by right|done]].
        apply elem_of_app in Hin as [Hin|Hin]; [by left|]. apply list_elem_of_singleton in Hin as [= -> ->]. right. split; [done|].
        exists m. split; [by left|done].
      * intros Eok m' [->|Hm']%elem_of_cons; [|by apply H5]. eexists. split; [exact Em|].
        eapply elem_of_prefix; [|exact H3]. apply elem_of_app. right. by left.
Qed.

Lemma newSubscriber_ok p reg ms p' r : pub_ok p reg -> nextID p < MaxUint64 -> newSubscriber p ms = (p', r) ->
  exists reg', pub_ok p' reg' /\ reg `prefix_of` reg' /\ pubCh p' = pubCh p /\
    subscribers p' = <[nextID p := mkSub (nextID p) ms [] 1]> (subscribers p) /\ subscribers p !! nextID p = None /\
    (forall s, r = Ok s -> s = mkSub (nextID p) ms [] 1 /\ registered reg' (nextID p) s).
Proof.
  intros Hok Hn E. destruct (add_matches_ok (nextID p) ms (indexer p) reg (po_index _ _ Hok)) as (reg' & H1 & H2 & H3 & H4).
  exists reg'. pose proof (po_next _ _ Hok) as H0. unfold newSubscriber in E. cbn [indexer subscribers pubCh] in E.
  assert (subscribers p !! nextID p = None) as Hnone.
  { destruct (subscribers p !! nextID p) as [s|] eqn:Es; [|done]. apply (po_id _ _ Hok) in Es. lia. }
  set (s0 := mkSub (nextID p) ms [] 1) in *. set (p1 := mkPub (pubCh p) (<[nextID p := s0]> (subscribers p)) (u64 (nextID p + 1)) (add_matches (indexer p) ms (nextID p)).1).
  assert (pub_ok p1 reg') as Hok1.
  { split; cbn [p1 indexer subscribers nextID].
    - exact H1.
    - intros pth id [Hin|(-> & m & Hm & Em)]%H3; [|rewrite lookup_insert_eq; by exists s0, m].
      destruct (po_reg _ _ Hok _ _ Hin) as (s & m & Hs & Hm). exists s, m. split; [|done]. rewrite lookup_insert_ne; [done|]. congruence.
    - intros id s. rewrite u64_small by lia. intros [[<- <-]|[_ Hs]]%lookup_insert_Some; [split; [done|lia]|]. apply (po_id _ _ Hok) in Hs. split; [apply Hs|lia].
    - rewrite u64_small by lia. lia. }
  destruct (add_matches (indexer p) ms (nextID p)) as [t r1] eqn:Ea. cbn [fst snd] in *.
  destruct r1 as [[]|e|]; injection E as <- <-; (split; [exact Hok1|]); split_and!; try done; intros s [= <-]; split; [done|]; exact (H4 eq_refl).
Qed.

Lemma delete_matches_ok id ms : forall t reg, trie_holds t reg -> exists reg', trie_holds (foldl (delete_match id) t ms) reg' /\
  forall pth i, (pth, i) ∈ reg' <-> (pth, i) ∈ reg /\ ~ (i = id /\ exists m, m ∈ ms /\ match_path m = Some pth).
Proof.
  induction ms as [|m ms IH]; intros t reg Ht.
  - exists reg. split; [done|]. intros pth i. split; [|by intros [? _]]. intros H. split; [done|]. intros (_ & m & Hm & _). by apply not_elem_of_nil in Hm.
  - pose proof (trie_step_holds t reg (OpDelete m id) Ht) as H1. unfold trie_step, spec_step in H1. cbn [foldl].
    fold (delete_match id t m) in H1. destruct (match_path m) as [q|] eqn:Em.
    + destruct (IH _ _ H1) as (reg' & H2 & H3). exists reg'. split; [done|]. intros pth i. rewrite H3, list_elem_of_filter. split.
      * intros [[Hne Hin] Hms]. split; [done|]. intros (-> & m' & [->|Hm']%elem_of_cons & Em'); [congruence|]. apply Hms. split; [done|]. by exists m'.
      * intros [Hin Hms]. split; [split; [|done]|].
        -- intros [= -> ->]. apply Hms. split; [done|]. exists m. split; [by left|done].
        -- intros (-> & m' & Hm' & Em'). apply Hms. split; [done|]. exists m'. split; [by right|done].
    + destruct (IH _ _ H1) as (reg' & H2 & H3). exists reg'. split; [done|]. intros pth i. rewrite H3. split.
      * intros [Hin Hms]. split; [done|]. intros (-> & m' & [->|Hm']%elem_of_cons & Em'); [congruence|]. apply Hms. split; [done|]. by exists m'.
      * intros [Hin Hms]. split; [done|]. intros (-> & m' & Hm' & Em'). apply Hms. split; [done|]. exists m'. split; [by right|done].
Qed.

(** A subscriber leaves: the index forgets its id and no other. *)
Lemma deleteSubscriber_ok p reg id : pub_ok p reg -> exists reg', pub_ok (deleteSubscriber p id) reg' /\
  (forall pth i, (pth, i) ∈ reg' <-> (pth, i) ∈ reg /\ i <> id).
Proof.
  intros Hok. unfold deleteSubscriber. destruct (subscribers p !! id) as [s|] eqn:Es.
  - destruct (delete_matches_ok id (sub_matches s) (indexer p) reg (po_index _ _ Hok)) as (reg' & H1 & H2).
    assert (forall pth i, (pth, i) ∈ reg' <-> (pth, i) ∈ reg /\ i <> id) as H3.
    { intros pth i. rewrite H2. split; intros [Hin Hx]; (split; [done|]); [|by intros [? _]].
      intros ->. apply Hx. split; [done|]. destruct (po_reg _ _ Hok _ _ Hin) as (s' & m & Hs' & Hm & Em). exists m. split; [congruence|done]. }
    exists reg'. split; [|exact H3]. split; cbn; [done| | |apply Hok].
    + intros pth i [Hin Hi]%H3. destruct (po_reg _ _ Hok _ _ Hin) as (s' & m & Hs' & Hm). exists s', m. split; [by rewrite lookup_delete_ne|done].
    + intros i s' [_ Hs']%lookup_delete_Some. by apply (po_id _ _ Hok).
  - assert (forall pth i, (pth, i) ∈ reg -> i <> id) as Hi.
    { intros pth i Hin ->. destruct (po_reg _ _ Hok _ _ Hin) as (s' & m & Hs' & _). congruence. }
    exists reg. split; [|by split; [eauto|intros []]]. rewrite delete_id by done. split; cbn; apply Hok.
Qed.

Lemma clean_deletes l : forall p, NoDup (l.*1) -> Forall (fun x => subscribers p !! x.1 = Some x.2) l ->
  foldl (fun p x => set_subscribers (set_indexer p (foldl (delete_match x.1) (indexer p) (sub_matches x.2))) (delete x.1 (subscribers p))) p l
  = foldl (fun p x => deleteSubscriber p x.1) p l.
Proof.
  induction l as [|[id s] l IH]; intros p Hnd Hl; [done|]. apply NoDup_cons in Hnd as [Hi Hnd]. apply Forall_cons in Hl as [Hs Hl]. cbn [fst snd] in *.
  cbn [foldl fst snd]. replace (set_subscribers _ _) with (deleteSubscriber p id) by (unfold deleteSubscriber; by rewrite Hs).
  apply IH; [done|]. apply Forall_forall. intros x Hx. rewrite Forall_forall in Hl. unfold deleteSubscriber. rewrite Hs. cbn.
  rewrite lookup_delete_ne; [by apply Hl|]. intros ->. apply Hi. apply list_elem_of_fmap. by exists x.
Qed.

Notation delete_all := (foldl (fun p (x : Z * subscriber) => deleteSubscriber p x.1)).

Lemma deleted_stay i l : forall p, subscribers p !! i = None -> subscribers (delete_all p l) !! i = None.
Proof.
  induction l as [|x l IH]; intros p Hn; [done|]. cbn [foldl]. apply IH. unfold deleteSubscriber.
  destruct (subscribers p !! x.1); cbn; by rewrite lookup_delete_None; right.
Qed.

Lemma delete_all_ok l : forall p reg, pub_ok p reg -> exists reg', pub_ok (delete_all p l) reg' /\
  forall id, id ∈ l.*1 -> subscribers (delete_all p l) !! id = None.
Proof.
  induction l as [|[i s] l IH]; intros p reg Hok; [exists reg; split; [done|]; intros id H; by apply not_elem_of_nil in H|].
  destruct (deleteSubscriber_ok p reg i Hok) as (reg1 & H1 & _). destruct (IH _ _ H1) as (reg2 & H2 & H3). exists reg2. split; [done|].
  intros id. cbn [fmap list_fmap fst foldl]. intros [->|Hin]%elem_of_cons; [|by apply H3].
  apply deleted_stay. unfold deleteSubscriber. destruct (subscribers p !! i); cbn; apply lookup_delete_eq.
Qed.

(** Closing: the index is as new. *)
Lemma cleanSubscribers_ok p reg : pub_ok p reg -> pub_ok (cleanSubscribers p) [] /\ subscribers (cleanSubscribers p) = ∅ /\ indexer (cleanSubscribers p) = NewTrie.
Proof.
  intros Hok. unfold cleanSubscribers. rewrite clean_deletes; [|apply NoDup_fst_map_to_list|].
  2:{ apply Forall_forall. intros [id s] H%elem_of_map_to_list. done. }
  destruct (delete_all_ok (map_to_list (subscribers p)) p reg Hok) as (reg' & H1 & H2).
  assert (subscribers (delete_all p (map_to_list (subscribers p))) = ∅) as Hempty.
  { apply map_empty. intros id. destruct (subscribers p !! id) as [s|] eqn:Es; [|by apply deleted_stay].
    apply H2. apply list_elem_of_fmap. exists (id, s). split; [done|]. by apply elem_of_map_to_list. }
  set (p' := delete_all p _) in *.
  assert (reg' = []) as ->.
  { destruct reg' as [|[pth id] reg']; [done|]. destruct (po_reg _ _ H1 pth id) as (s & m & Hs & _); [by left|]. rewrite Hempty in Hs. by apply lookup_empty_Some in Hs. }
  split; [done|]. split; [done|]. destruct (po_index _ _ H1) as [Ht Hids]. by apply tight_empty.
Qed.

(** ** The system: a writer, the publisher's goroutine and subscribers, in any order *)

(** [ps_writer] is what [sendUpdates] has counted subscribers for and not yet put into the
    channel, [ps_hand] what subscribers took for the next callback, [ps_got] what callbacks were
    given, and [ps_due] what the active subscribers are to get in all. *)
Record psys : Type := mkSys {
  ps_pub : publisher;
  ps_writer : option (list (list Entry));
  ps_lis : listener;
  ps_hand : gmap Z (list pbKV);
  ps_got : gmap Z (list pbKV);
  ps_due : gmap Z (list pbKV)
}.

Definition gathered (lis : listener) : list (list Entry) := match lis with Gathering b | Locking b => b | _ => [] end.

(** The entries handed over that are not yet matched with patterns, in order. *)
Definition waiting (p : publisher) (w : option (list (list Entry))) (lis : listener) : list Entry :=
  concat (gathered lis ++ concat (pubCh p) ++ default [] w).

(** The sends of the publisher that are still to come. *)
Definition sends (lis : listener) (id : Z) : list pbKV := match lis with Sending l => for_id l id | _ => [] end.

(** The lock is free; [publishUpdates] holds it while it sends. *)
Definition unlocked (lis : listener) : Prop := match lis with Sending _ => False | _ => True end.

Definition due_write (p : publisher) (due : gmap Z (list pbKV)) (es : list Entry) : gmap Z (list pbKV) :=
  map_imap (fun id l => Some (l ++ match subscribers p !! id with Some s => due_of s es | None => [] end)) due.

Inductive pub_step : psys -> psys -> Prop :=
  | st_subscribe p w lis hand got due ms p' s : unlocked lis -> nextID p < MaxUint64 -> newSubscriber p ms = (p', Ok s) ->
      pub_step (mkSys p w lis hand got due)
        (mkSys p' w lis (<[sub_id s := []]> hand) (<[sub_id s := []]> got) (<[sub_id s := due_of s (waiting p w lis)]> due))
  | st_refused p w lis hand got due ms p' r : unlocked lis -> nextID p < MaxUint64 -> newSubscriber p ms = (p', r) ->
      match r with Ok _ => False | _ => True end -> pub_step (mkSys p w lis hand got due) (mkSys p' w lis hand got due)
  (** The writer: only one, since [writeRequests] calls do not overlap. *)
  | st_write p lis hand got due reqs : unlocked lis ->
      pub_step (mkSys p None lis hand got due) (mkSys p (sendUpdates p reqs) lis hand got (due_write p due (concat reqs)))
  | st_put p reqs lis hand got due :
      pub_step (mkSys p (Some reqs) lis hand got due) (mkSys (put_pubCh p reqs) None lis hand got due)
  (** The publisher. *)
  | st_slurp p w lis hand got due lis' p' : slurp lis p = Some (lis', p') ->
      pub_step (mkSys p w lis hand got due) (mkSys p' w lis' hand got due)
  | st_lock p w batch hand got due l : l ≡ₚ map_to_list (batch_updates (indexer p) batch) ->
      pub_step (mkSys p w (Locking batch) hand got due) (mkSys p w (Sending l) hand got due)
  | st_send p w id kvs l hand got due m : send_updates_to (subscribers p) id kvs = Some m ->
      pub_step (mkSys p w (Sending ((id, kvs) :: l)) hand got due) (mkSys (set_subscribers p m) w (Sending l) hand got due)
  | st_unlock p w hand got due : pub_step (mkSys p w (Sending []) hand got due) (mkSys p w Listening hand got due)
  | st_clean p w hand got due : pub_step (mkSys p w Listening hand got due) (mkSys (cleanSubscribers p) w Stopped hand got ∅)
  (** A subscriber. *)
  | st_take p w lis hand got due id p' kvs : sub_take p id = Some (p', kvs) ->
      pub_step (mkSys p w lis hand got due) (mkSys p' w lis (<[id := default [] (hand !! id) ++ kvs]> hand) got due)
  | st_callback p w lis hand got due id s kvs : subscribers p !! id = Some s -> sub_sendCh s = [] -> hand !! id = Some kvs -> kvs <> [] ->
      pub_step (mkSys p w lis hand got due) (mkSys p w lis (<[id := []]> hand) (<[id := default [] (got !! id) ++ kvs]> got) due)
  | st_inactive p w lis hand got due id :
      pub_step (mkSys p w lis hand got due) (mkSys (set_inactive p id) w lis hand got (delete id due))
  | st_drain p w lis hand got due id s : subscribers p !! id = Some s -> sub_active s = 0 ->
      pub_step (mkSys p w lis hand got due) (mkSys (drain p id) w lis hand got due)
  | st_delete p w lis hand got due id s : unlocked lis -> subscribers p !! id = Some s -> sub_active s = 0 ->
      pub_step (mkSys p w lis hand got due) (mkSys (deleteSubscriber p id) w lis hand got due).

Definition psys_init : psys := mkSys newPublisher None Listening ∅ ∅ ∅.

(** What was given to a subscriber, waits for it, or is on the way to it. *)
Definition on_the_way (y : psys) (id : Z) (s : subscriber) : list pbKV :=
  default [] (ps_hand y !! id) ++ concat (sub_sendCh s) ++ sends (ps_lis y) id ++ due_of s (waiting (ps_pub y) (ps_writer y) (ps_lis y)).

(** The sends to come have one message for each of some subscribers. *)
Definition sends_ok (p : publisher) (lis : listener) : Prop :=
  match lis with Sending l => NoDup (l.*1) /\ Forall (fun x => is_Some (subscribers p !! x.1)) l | _ => True end.

Record psys_ok (y : psys) (reg : list (path * Z)) : Prop := {
  py_pub : pub_ok (ps_pub y) reg;
  py_sends : sends_ok (ps_pub y) (ps_lis y);
  py_due id l : ps_due y !! id = Some l -> exists s, subscribers (ps_pub y) !! id = Some s /\ sub_active s = 1 /\ registered reg id s /\
    default [] (ps_got y !! id) ++ on_the_way y id s = l
}.

Lemma psys_init_ok : psys_ok psys_init [].
Proof.
  split; [split| |]; cbn.
  - apply new_holds.
  - intros pth id H. by apply not_elem_of_nil in H.
  - intros id s H. by apply lookup_empty_Some in H.
  - done.
  - done.
  - intros id l H. by apply lookup_empty_Some in H.
Qed.

(** The same index and ids: only the channel or the activity of subscribers changed. *)
Definition same_ids (m m' : gmap Z subscriber) : Prop :=
  forall id, (fun s => (sub_id s, sub_matches s)) <$> m' !! id = (fun s => (sub_id s, sub_matches s)) <$> m !! id.

Lemma pub_ok_subs p reg m ch : pub_ok p reg -> same_ids (subscribers p) m -> pub_ok (mkPub ch m (nextID p) (indexer p)) reg.
Proof.
  intros Hok Hm. split; cbn; [apply Hok| | |apply Hok].
  - intros pth id Hin. destruct (po_reg _ _ Hok _ _ Hin) as (s & x & Hs & Hx & Ex). specialize (Hm id). rewrite Hs in Hm. cbn in Hm.
    destruct (m !! id) as [s'|]; [|done]. injection Hm as _ Hmm. exists s', x. rewrite Hmm. by split_and!.
  - intros id s Hs. specialize (Hm id). rewrite Hs in Hm. cbn in Hm. destruct (subscribers p !! id) as [s'|] eqn:Es; [|done].
    injection Hm as -> _. by apply (po_id _ _ Hok).
Qed.

Lemma sends_ok_subs p p' lis : sends_ok p lis -> same_ids (subscribers p) (subscribers p') -> sends_ok p' lis.
Proof.
  destruct lis as [| | |l|]; try done. intros [Hnd Hl] Hm. split; [done|]. eapply Forall_impl; [exact Hl|]. intros x [s Hs].
  specialize (Hm x.1). rewrite Hs in Hm. by destruct (subscribers p' !! x.1).
Qed.

Lemma unlocked_sends p lis : unlocked lis -> sends_ok p lis.
Proof. by destruct lis. Qed.

Lemma same_ids_insert m id s s' : m !! id = Some s -> sub_id s' = sub_id s -> sub_matches s' = sub_matches s -> same_ids m (<[id := s']> m).
Proof.
  intros Hs E1 E2 i. destruct (decide (i = id)) as [->|Hne]; [rewrite lookup_insert_eq, Hs; cbn; by rewrite E1, E2|by rewrite lookup_insert_ne].
Qed.

Lemma same_ids_alter m id f : (forall s, sub_id (f s) = sub_id s /\ sub_matches (f s) = sub_matches s) -> same_ids m (alter f id m).
Proof.
  intros Hf i. destruct (decide (i = id)) as [->|Hne]; [|by rewrite lookup_alter_ne]. rewrite lookup_alter_eq.
  destruct (m !! id) as [s|]; [|done]. cbn. by destruct (Hf s) as [-> ->].
Qed.

(** *** Each step keeps the invariant *)

Lemma subscribe_step_ok p w lis hand got due ms p' r reg : psys_ok (mkSys p w lis hand got due) reg -> unlocked lis -> nextID p < MaxUint64 ->
  newSubscriber p ms = (p', r) ->
  exists reg', psys_ok (mkSys p' w lis hand got due) reg' /\
    forall s, r = Ok s -> psys_ok (mkSys p' w lis (<[sub_id s := []]> hand) (<[sub_id s := []]> got) (<[sub_id s := due_of s (waiting p w lis)]> due)) reg'.
Proof.
  intros [Hok _ Hdue] Hun Hn E. unfold on_the_way in Hdue. cbn in Hok, Hdue.
  destruct (newSubscriber_ok p reg ms p' r Hok Hn E) as (reg' & H1 & H2 & H3 & H4 & H5 & H6).
  assert (waiting p' w lis = waiting p w lis) as Ew by (unfold waiting; by rewrite H3).
  assert (forall id l, due !! id = Some l -> id <> nextID p /\ exists s, subscribers p' !! id = Some s /\ sub_active s = 1 /\ registered reg' id s /\
    default [] (got !! id) ++ default [] (hand !! id) ++ concat (sub_sendCh s) ++ sends lis id ++ due_of s (waiting p w lis) = l) as Hold.
  { intros id l Hl. destruct (Hdue id l Hl) as (s & Hs & Ha & Hr & El). assert (id <> nextID p) as Hne by congruence. split; [done|].
    exists s. rewrite H4, lookup_insert_ne by done. split_and!; [done..| |done].
    intros m Hm. destruct (Hr m Hm) as (pth & Em & Hin). exists pth. split; [done|]. by eapply elem_of_prefix. }
  exists reg'. split.
  - split; [done|by apply unlocked_sends|]. unfold on_the_way. cbn. rewrite Ew. intros id l Hl. by apply Hold.
  - intros s Es. destruct (H6 s Es) as [-> Hr]. cbn [sub_id]. split; [done|by apply unlocked_sends|].
    unfold on_the_way. cbn. rewrite Ew. intros id l [[<- <-]|[Hne Hl]]%lookup_insert_Some.
    + eexists. rewrite H4, !lookup_insert_eq. split_and!; [done..|]. cbn. by destruct lis.
    + destruct (Hold id l Hl) as [_ (s & Hs)]. exists s. by rewrite !lookup_insert_ne.
Qed.

Lemma waiting_write p reqs lis : waiting p (Some reqs) lis = waiting p None lis ++ concat reqs.
Proof. unfold waiting. cbn. by rewrite app_nil_r, app_assoc, concat_app. Qed.

Lemma write_step_ok p lis hand got due reqs reg : psys_ok (mkSys p None lis hand got due) reg ->
  psys_ok (mkSys p (sendUpdates p reqs) lis hand got (due_write p due (concat reqs))) reg.
Proof.
  intros [Hok Hs Hdue]. split; [done|done|]. unfold on_the_way in *. cbn in *. intros id l. unfold due_write. rewrite map_lookup_imap.
  destruct (due !! id) as [l0|] eqn:El; [|done]. cbn. destruct (Hdue id l0 El) as (s & Es & Ha & Hr & E). rewrite Es. intros [= <-]. exists s.
  unfold sendUpdates. rewrite bool_decide_eq_true_2.
  - split_and!; [done..|]. rewrite <- E, waiting_write, due_of_app. by rewrite !app_assoc.
  - unfold noOfSubscribers. intros Hz%map_size_empty_inv. rewrite Hz in Es. by apply lookup_empty_Some in Es.
Qed.

(** Moving requests on changes nothing for the subscribers. *)
Lemma move_step_ok p w lis hand got due p' w' lis' reg : psys_ok (mkSys p w lis hand got due) reg ->
  subscribers p' = subscribers p -> nextID p' = nextID p -> indexer p' = indexer p ->
  waiting p' w' lis' = waiting p w lis -> unlocked lis -> unlocked lis' -> psys_ok (mkSys p' w' lis' hand got due) reg.
Proof.
  intros [Hok Hs Hdue] E1 E2 E3 Ew Hu Hu'. unfold on_the_way in *. cbn in *. split.
  - destruct p' as [ch m n t]. cbn in *. subst. by apply (pub_ok_subs p).
  - by apply unlocked_sends.
  - unfold on_the_way. cbn. rewrite E1, Ew. intros id l Hl. destruct (Hdue id l Hl) as (s & H1 & H2 & H3 & H4). exists s.
    split_and!; try done. rewrite <- H4. by destruct lis, lis'.
Qed.

Lemma put_step_ok p reqs lis hand got due reg : psys_ok (mkSys p (Some reqs) lis hand got due) reg ->
  psys_ok (mkSys (put_pubCh p reqs) None lis hand got due) reg.
Proof.
  intros [Hok Hs Hdue]. unfold on_the_way in *. cbn in *. assert (waiting (put_pubCh p reqs) None lis = waiting p (Some reqs) lis) as Ew.
  { unfold waiting. f_equal. cbn. rewrite concat_app. cbn. by rewrite !app_nil_r. }
  split; [by apply (pub_ok_subs p)|by apply (sends_ok_subs p)|]. unfold on_the_way. cbn. by rewrite Ew.
Qed.

Lemma slurp_step_ok p w lis hand got due lis' p' reg : psys_ok (mkSys p w lis hand got due) reg -> slurp lis p = Some (lis', p') ->
  psys_ok (mkSys p' w lis' hand got due) reg.
Proof.
  intros Hok E. destruct lis as [|b|b|l|]; try done; cbn in E.
  - destruct (pubCh p) as [|r ch] eqn:Ech; [done|]. injection E as <- <-. eapply move_step_ok; [exact Hok|done..| |done|done].
    unfold waiting. rewrite Ech. cbn. by rewrite <- !app_assoc.
  - destruct (pubCh p) as [|r ch] eqn:Ech; injection E as <- <-; (eapply move_step_ok; [exact Hok|done..| |done|done]).
    + done.
    + unfold waiting. rewrite Ech. cbn. by rewrite <- !app_assoc.
Qed.

Lemma lock_step_ok p w batch hand got due l reg : psys_ok (mkSys p w (Locking batch) hand got due) reg ->
  l ≡ₚ map_to_list (batch_updates (indexer p) batch) -> psys_ok (mkSys p w (Sending l) hand got due) reg.
Proof.
  intros [Hok Hs Hdue] Hl. unfold on_the_way in *. cbn in *. pose proof (NoDup_fst_map_to_list (batch_updates (indexer p) batch)) as Hnd.
  assert (NoDup (l.*1)) as Hnl by by rewrite Hl.
  split; [done|split; [done|]|]; unfold on_the_way; cbn.
  - apply Forall_forall. intros [id kvs] Hx. rewrite Hl in Hx. apply elem_of_map_to_list in Hx. rewrite batch_updates_lookup in Hx.
    case_bool_decide as Hn; [done|]. unfold batch_of in Hn.
    destruct (filter (fun e => id ∈ Get (indexer p) (eKey e)) (concat batch)) as [|e es] eqn:Ef; [done|].
    assert (e ∈ filter (fun e => id ∈ Get (indexer p) (eKey e)) (concat batch)) as [Hid He]%list_elem_of_filter by (rewrite Ef; by left).
    by apply (get_subscriber p reg (eKey e)).
  - intros id l0 Hl0. destruct (Hdue id l0 Hl0) as (s & H1 & H2 & H3 & H4). exists s. split_and!; try done. rewrite <- H4.
    rewrite (for_id_perm l _ id Hnl Hl), for_id_batch, (batch_of_due p reg id s) by done. unfold waiting. cbn.
    rewrite (concat_app batch), due_of_app. done.
Qed.

Lemma send_step_ok p w id kvs l hand got due m reg : psys_ok (mkSys p w (Sending ((id, kvs) :: l)) hand got due) reg ->
  send_updates_to (subscribers p) id kvs = Some m -> psys_ok (mkSys (set_subscribers p m) w (Sending l) hand got due) reg.
Proof.
  intros [Hok [Hnd Hl] Hdue] E. unfold on_the_way in *. cbn in *. apply NoDup_cons in Hnd as [Hi Hnd]. apply Forall_cons in Hl as [[s0 Hs0] Hl].
  cbn in Hs0, Hi. destruct (send_updates_to_spec _ id kvs s0 Hs0) as (m' & E' & Hm & Hne). assert (m' = m) as -> by congruence.
  assert (same_ids (subscribers p) m) as Hsame.
  { intros i. destruct (decide (i = id)) as [->|Hn]; [|by rewrite Hne]. rewrite Hm, Hs0. cbn. unfold sent. by case_bool_decide. }
  split; [by apply (pub_ok_subs p)|by apply (sends_ok_subs p); [split|]|]. unfold on_the_way. cbn.
  intros i l0 Hl0. destruct (Hdue i l0 Hl0) as (s & H1 & H2 & H3 & H4). rewrite for_id_cons in H4. destruct (decide (id = i)) as [<-|Hn].
  - rewrite Hs0 in H1. injection H1 as <-. exists (sent s0 kvs). split; [done|]. unfold sent. rewrite bool_decide_eq_true_2 by done. cbn.
    split_and!; [done..|]. rewrite <- H4, (for_id_not_in l id Hi), concat_app. cbn. by rewrite !app_nil_r, <- !app_assoc.
  - exists s. rewrite Hne by done. by split_and!.
Qed.

Lemma unlock_step_ok p w hand got due reg : psys_ok (mkSys p w (Sending []) hand got due) reg -> psys_ok (mkSys p w Listening hand got due) reg.
Proof. intros [Hok Hs Hdue]. by split. Qed.

Lemma take_step_ok p w lis hand got due id p' kvs reg : psys_ok (mkSys p w lis hand got due) reg -> sub_take p id = Some (p', kvs) ->
  psys_ok (mkSys p' w lis (<[id := default [] (hand !! id) ++ kvs]> hand) got due) reg.
Proof.
  intros [Hok Hse Hdue] E. unfold on_the_way in *. cbn in *. unfold sub_take in E.
  destruct (subscribers p !! id) as [s|] eqn:Es; [|done]. cbn [mbind option_bind] in E.
  destruct (sub_sendCh s) as [|c ch] eqn:Ech; [done|]. injection E as <- <-.
  pose proof (same_ids_insert (subscribers p) id s (mkSub (sub_id s) (sub_matches s) ch (sub_active s)) Es eq_refl eq_refl) as Hsame.
  split; [by apply (pub_ok_subs p)|by apply (sends_ok_subs p)|]. unfold on_the_way. cbn.
  intros i l Hl. destruct (Hdue i l Hl) as (s' & Hs' & Ha & Hr & El). destruct (decide (i = id)) as [->|Hne].
  - rewrite Es in Hs'. injection Hs' as <-. eexists. rewrite !lookup_insert_eq. split; [done|]. cbn. split_and!; [done..|].
    rewrite <- El, Ech. cbn. by rewrite <- !app_assoc.
  - exists s'. by rewrite !lookup_insert_ne.
Qed.

Lemma callback_step_ok p w lis hand got due id kvs reg : psys_ok (mkSys p w lis hand got due) reg -> hand !! id = Some kvs ->
  psys_ok (mkSys p w lis (<[id := []]> hand) (<[id := default [] (got !! id) ++ kvs]> got) due) reg.
Proof.
  intros [Hok Hse Hdue] E. unfold on_the_way in *. cbn in *. split; [done|done|]. unfold on_the_way. cbn.
  intros i l Hl. destruct (Hdue i l Hl) as (s' & Hs' & Ha & Hr & El). exists s'. split_and!; [done..|]. destruct (decide (i = id)) as [->|Hne].
  - rewrite !lookup_insert_eq. rewrite <- El, E. cbn. by rewrite <- !app_assoc.
  - by rewrite !lookup_insert_ne.
Qed.

(** A subscriber that is no longer active is owed nothing. *)
Lemma alter_step_ok p w lis hand got due id f reg : psys_ok (mkSys p w lis hand got due) reg ->
  (forall s, sub_id (f s) = sub_id s /\ sub_matches (f s) = sub_matches s) ->
  psys_ok (mkSys (set_subscribers p (alter f id (subscribers p))) w lis hand got (delete id due)) reg.
Proof.
  intros [Hok Hse Hdue] Hf. unfold on_the_way in *. cbn in *. pose proof (same_ids_alter (subscribers p) id f Hf) as Hsame.
  split; [by apply (pub_ok_subs p)|by apply (sends_ok_subs p)|]. unfold on_the_way. cbn.
  intros i l [Hne Hl]%lookup_delete_Some. destruct (Hdue i l Hl) as (s & Hs & H). exists s. by rewrite lookup_alter_ne.
Qed.

Lemma inactive_not_due p w lis hand got due id s reg : psys_ok (mkSys p w lis hand got due) reg -> subscribers p !! id = Some s ->
  sub_active s = 0 -> due !! id = None.
Proof.
  intros [_ _ Hdue] Hs Ha. destruct (due !! id) as [l|] eqn:El; [|done]. destruct (Hdue id l El) as (s' & Hs' & Ha' & _). cbn in Hs'.
  rewrite Hs in Hs'. injection Hs' as <-. lia.
Qed.

Lemma delete_step_ok p w lis hand got due id s reg : psys_ok (mkSys p w lis hand got due) reg -> unlocked lis ->
  subscribers p !! id = Some s -> sub_active s = 0 -> exists reg', psys_ok (mkSys (deleteSubscriber p id) w lis hand got due) reg'.
Proof.
  intros Hok Hu Hs Ha. pose proof (inactive_not_due _ _ _ _ _ _ _ _ _ Hok Hs Ha) as Hnone. destruct Hok as [Hok Hse Hdue].
  unfold on_the_way in *. cbn in *. destruct (deleteSubscriber_ok p reg id Hok) as (reg' & H1 & H2). exists reg'.
  split; [done|by apply unlocked_sends|]. unfold on_the_way. cbn.
  intros i l Hl. assert (i <> id) as Hne by congruence. destruct (Hdue i l Hl) as (s' & Hs' & Ha' & Hr & El). exists s'.
  unfold deleteSubscriber. rewrite Hs. cbn. rewrite lookup_delete_ne by done. split_and!; [done..| |done].
  intros m Hm. destruct (Hr m Hm) as (pth & Em & Hin). exists pth. split; [done|]. by apply H2.
Qed.

Lemma pub_step_ok y y' reg : pub_step y y' -> psys_ok y reg -> exists reg', psys_ok y' reg'.
Proof.
  intros [p w lis hand got due ms p' s Hu Hn E|p w lis hand got due ms p' r Hu Hn E _|p lis hand got due reqs Hu|p reqs lis hand got due
    |p w lis hand got due lis' p' E|p w batch hand got due l Hl|p w id kvs l hand got due m E|p w hand got due|p w hand got due
    |p w lis hand got due id p' kvs E|p w lis hand got due id s kvs Hs Hch E _|p w lis hand got due id|p w lis hand got due id s Hs Ha
    |p w lis hand got due id s Hu Hs Ha] Hok.
  - destruct (subscribe_step_ok _ _ _ _ _ _ _ _ _ _ Hok Hu Hn E) as (reg' & _ & H). exists reg'. by apply H.
  - destruct (subscribe_step_ok _ _ _ _ _ _ _ _ _ _ Hok Hu Hn E) as (reg' & H & _). by exists reg'.
  - exists reg. by apply write_step_ok.
  - exists reg. by apply put_step_ok.
  - exists reg. by eapply slurp_step_ok.
  - exists reg. by eapply lock_step_ok.
  - exists reg. by eapply send_step_ok.
  - exists reg. by apply unlock_step_ok.
  - destruct Hok as [Hok _ _]. destruct (cleanSubscribers_ok _ _ Hok) as (H1 & _). exists []. split; [done|done|].
    cbn. intros id l H. by apply lookup_empty_Some in H.
  - exists reg. by eapply take_step_ok.
  - exists reg. by apply callback_step_ok.
  - exists reg. by apply alter_step_ok.
  - exists reg. rewrite <- (delete_id due id) by (by eapply inactive_not_due). by apply alter_step_ok.
  - by eapply delete_step_ok.
Qed.

Lemma psys_reachable y : rtc pub_step psys_init y -> exists reg, psys_ok y reg.
Proof.
  intros H. assert (forall y0, rtc pub_step y0 y -> forall reg, psys_ok y0 reg -> exists reg', psys_ok y reg') as Hi.
  { clear H. induction 1 as [y0|y0 y1 y2 Hs _ IH]; intros reg Hok; [by exists reg|]. destruct (pub_step_ok _ _ _ Hs Hok) as [reg1 H1]. by apply (IH reg1). }
  apply (Hi _ H []), psys_init_ok.
Qed.

(** The steps of the publisher, with nobody in between, are [publishUpdates]. *)
Lemma send_all_steps w hand got due l : forall p m, send_all (subscribers p) l = Some m ->
  rtc pub_step (mkSys p w (Sending l) hand got due) (mkSys (set_subscribers p m) w Listening hand got due).
Proof.
  induction l as [|[id kvs] l IH]; intros p m E; cbn in E.
  - injection E as <-. replace (set_subscribers p (subscribers p)) with p by by destruct p. apply rtc_once, st_unlock.
  - destruct (send_updates_to (subscribers p) id kvs) as [m1|] eqn:E1; [|done]. cbn in E.
    eapply rtc_l; [by apply st_send|]. by apply (IH (set_subscribers p m1)).
Qed.

Lemma publishUpdates_steps p w reqs p' hand got due : publishUpdates p reqs = Some p' ->
  rtc pub_step (mkSys p w (Locking reqs) hand got due) (mkSys p' w Listening hand got due).
Proof.
  unfold publishUpdates. intros E. destruct (send_all _ _) as [m|] eqn:Em; [|done]. injection E as <-.
  eapply rtc_l; [by apply st_lock|]. by apply send_all_steps.
Qed.

(** C16: no update is lost, repeated or reordered.  However subscribing, handing entries over,
    gathering, publishing, receiving and leaving interleave, what an active subscriber's callback
    was given, then what it holds for the next call, what waits in its channel, what the publisher
    is about to send it, and what matches of the entries gathered, in the channel or on their way
    into it, is exactly the matching entries that were under way when it subscribed and those
    handed over since, in order; and no send of the publisher meets an id without a subscriber. *)
Theorem updates_delivered y : rtc pub_step psys_init y ->
  (forall id kvs l, ps_lis y = Sending ((id, kvs) :: l) -> is_Some (send_updates_to (subscribers (ps_pub y)) id kvs)) /\
  forall id l, ps_due y !! id = Some l -> exists s, subscribers (ps_pub y) !! id = Some s /\ sub_active s = 1 /\
    default [] (ps_got y !! id) ++ on_the_way y id s = l.
Proof.
  intros Hr. destruct (psys_reachable y Hr) as [reg [Hok Hse Hdue]]. split.
  - intros id kvs l E. rewrite E in Hse. destruct Hse as [_ [[s Hs] _]%Forall_cons].
    destruct (send_updates_to_spec _ id kvs s Hs) as (m & -> & _). by eexists.
  - intros id l Hl. destruct (Hdue id l Hl) as (s & Hs & Ha & _ & E). by exists s.
Qed.

(** ** Witness: one subscribes while a batch is gathered and not yet published *)

Definition px_match : Match := mkMatch [x61] [].
Definition px_entry (k : byte) : Entry := mkEntry (KeyWithTs [k; x31] 4) (Some [k]) 0 0 0 x00 x00 0 0.
Definition px_reqs : list (list Entry) := [[px_entry x61; px_entry x62]].
Definition px_sub (id : Z) : subscriber := mkSub id [px_match] [] 1.
Definition px_pub1 : publisher := (newSubscriber newPublisher [px_match]).1.
Definition px_pub2 : publisher := (newSubscriber px_pub1 [px_match]).1.

Definition px_due1 : gmap Z (list pbKV) := <[0 := []]> ∅.
Definition px_due2 : gmap Z (list pbKV) := due_write px_pub1 px_due1 (concat px_reqs).
Definition px_due3 : gmap Z (list pbKV) := <[1 := due_of (px_sub 1) (waiting px_pub1 None (Locking px_reqs))]> px_due2.

Definition px_pub3 : publisher := default newPublisher (publishUpdates px_pub2 px_reqs).
Definition px_y : psys := mkSys px_pub3 None Listening (<[1 := []]> (<[0 := []]> ∅)) (<[1 := []]> (<[0 := []]> ∅)) px_due3.

Lemma px_new p id : (newSubscriber p [px_match]).2 = Ok (px_sub id) ->
  newSubscriber p [px_match] = ((newSubscriber p [px_match]).1, Ok (px_sub id)).
Proof. intros <-. by destruct (newSubscriber p [px_match]). Qed.

Lemma px_reach : rtc pub_step psys_init px_y.
Proof.
  eapply rtc_l. { apply (st_subscribe newPublisher None Listening ∅ ∅ ∅ [px_match] px_pub1 (px_sub 0)); [done|by vm_compute|]. apply px_new; by vm_compute. }
  eapply rtc_l. { apply (st_write px_pub1 Listening (<[0 := []]> ∅) (<[0 := []]> ∅) px_due1 px_reqs). done. }
  eapply rtc_l. { apply (st_put px_pub1 px_reqs Listening (<[0 := []]> ∅) (<[0 := []]> ∅) px_due2). }
  eapply rtc_l. { apply (st_slurp (put_pubCh px_pub1 px_reqs) None Listening _ _ _ (Gathering px_reqs) px_pub1). by vm_compute. }
  eapply rtc_l. { apply (st_slurp px_pub1 None (Gathering px_reqs) _ _ _ (Locking px_reqs) px_pub1). by vm_compute. }
  eapply rtc_l. { apply (st_subscribe px_pub1 None (Locking px_reqs) _ _ px_due2 [px_match] px_pub2 (px_sub 1)); [done|by vm_compute|]. apply px_new; by vm_compute. }
  apply publishUpdates_steps. by vm_compute.
Qed.

Lemma updates_delivered_witness : exists s, subscribers (ps_pub px_y) !! 1 = Some s /\
  default [] (ps_got px_y !! 1) ++ on_the_way px_y 1 s = [to_kv (px_entry x61)].
Proof.
  destruct (updates_delivered px_y px_reach) as [_ H].
  destruct (H 1 [to_kv (px_entry x61)]) as (s & Hs & _ & E); [by vm_compute|]. by exists s.
Defined.

(** ** Findings *)

(** A subscription with one unreadable text is refused, but stays registered. *)
Definition px_bad : list Match := [px_match; mkMatch [x62] [x2d]].
Definition px_refused (ch : list (list pbKV)) : publisher :=
  mkPub [] {[0 := mkSub 0 px_bad ch 1]} 1 (Node {[x61 := Node ∅ None [0]]} None []).

Definition px_turn (p : publisher) : publisher :=
  match sendUpdates p px_reqs with Some reqs => default p (publishUpdates p reqs) | None => p end.

(** Nobody reads its channel, so every matching request stays in it; the real channel has room
    for 1000, then the publisher's goroutine blocks with its lock held, and soon the writers. *)
Theorem refused_subscriber_fills_up n : newSubscriber newPublisher px_bad = (px_refused [], Err ErrNum) /\
  exists ch, length ch = n /\ Nat.iter n px_turn (px_refused []) = px_refused ch.
Proof.
  split; [by vm_compute|]. induction n as [|n (ch & Hl & IH)]; [by exists []|]. cbn [Nat.iter nat_rect]. fold (Nat.iter n px_turn (px_refused [])). rewrite IH.
  exists (ch ++ [[to_kv (px_entry x61)]]). split; [rewrite length_app; cbn; lia|]. vm_compute. reflexivity.
Qed.

(** Prefixes are compared with the key and its timestamp, whose first bytes are 0xFF: who asks
    for ["a\xff"] is sent the key ["a"]. *)
Theorem prefix_matches_timestamp : exists s p, newSubscriber newPublisher [mkMatch [x61; xff] []] = (p, Ok s) /\
  due_of s [mkEntry (KeyWithTs [x61] 4) (Some [x01]) 0 0 0 x00 x00 0 0] = [mkKV [x61] [x01] [x00] 0 4].
Proof. do 2 eexists. split; [by vm_compute|]. by vm_compute. Qed.

(** No prefix at all is not an error. *)
Theorem no_prefix_accepted p : exists p' s, newSubscriber p [] = (p', Ok s).
Proof. by do 2 eexists. Qed.
