(* ===== verification/Watermark.v ===== *)
(** * Watermark: the begin/done watermark of y/watermark.go

    [WaterMark] is the shared record together with the state its one [process] goroutine keeps
    in local variables ([pending], [indices], [waiters]).  Senders append to the FIFO channel
    [markCh]; [process] takes one mark off it at a time.  A failed assertion and a loop that
    would not end are [None].  [container/heap] keeps the least index first; the model keeps
    the whole heap sorted.  A channel that a waiter blocks on is a number, and closing it adds
    the number to [closed]. *)

From S2P Require Import Prelude.

(** ** Data *)

Record mark : Type := mkMark {
  mindex : Z;
  mwaiter : option nat;
  mindices : list Z;
  mdone : bool
}.

Record WaterMark : Type := mkWM {
  doneUntil : Z;
  lastIndex : Z;
  markCh : list mark;
  pending : gmap Z Z;
  indices : list Z;
  waiters : gmap Z (list nat);
  closed : gset nat
}.

Definition WaterMark_Init : WaterMark := mkWM 0 0 [] ∅ [] ∅ ∅.

(** ** The callers' operations: they only touch the atomics and the channel *)

Definition send (w : WaterMark) (m : mark) : WaterMark :=
  mkWM (doneUntil w) (lastIndex w) (markCh w ++ [m]) (pending w) (indices w) (waiters w)
    (closed w).

Definition set_lastIndex (w : WaterMark) (i : Z) : WaterMark :=
  mkWM (doneUntil w) i (markCh w) (pending w) (indices w) (waiters w) (closed w).

Definition SetDoneUntil (w : WaterMark) (v : Z) : WaterMark :=
  mkWM v (lastIndex w) (markCh w) (pending w) (indices w) (waiters w) (closed w).

Definition Begin (w : WaterMark) (index : Z) : WaterMark :=
  send (set_lastIndex w index) (mkMark index None [] false).

(** [indices[len(indices)-1]] panics on an empty slice. *)
Definition BeginMany (w : WaterMark) (idxs : list Z) : option WaterMark :=
  l ← last idxs;
  Some (send (set_lastIndex w l) (mkMark 0 None idxs false)).

Definition Done (w : WaterMark) (index : Z) : WaterMark :=
  send w (mkMark index None [] true).

Definition DoneMany (w : WaterMark) (idxs : list Z) : WaterMark :=
  send w (mkMark 0 None idxs true).

(** [WaitForMark] up to its [select]: whether it returns at once, else a waiter mark is sent
    and the caller blocks until [ch] is closed (or its context ends). *)
Definition WaitForMark (w : WaterMark) (index : Z) (ch : nat) : bool * WaterMark :=
  if bool_decide (index <= doneUntil w) then (true, w)
  else (false, send w (mkMark index (Some ch) [] false)).

(** ** The [process] goroutine *)

(** [heap.Push] and [heap.Pop] on the sorted heap. *)
Fixpoint heap_Push (x : Z) (l : list Z) : list Z :=
  match l with
  | [] => [x]
  | y :: l' => if bool_decide (x <= y) then x :: l else y :: heap_Push x l'
  end.

(** Pop every leading index whose count is not positive; [until] is the last one popped. *)
Fixpoint pop_loop (indices : list Z) (pending : gmap Z Z) (until : Z)
    : list Z * gmap Z Z * Z :=
  match indices with
  | [] => ([], pending, until)
  | min :: indices' =>
      if bool_decide (0 < default 0 (pending !! min)) then (indices, pending, until)
      else pop_loop indices' (delete min pending) min
  end.

Definition notifyAndRemove (idx : Z) (toNotify : list nat)
    (st : gmap Z (list nat) * gset nat) : gmap Z (list nat) * gset nat :=
  (delete idx st.1, st.2 ∪ list_to_set toNotify).

(** [for idx := doneUntil + 1; idx <= until; idx++]; [None] when the fuel runs out. *)
Fixpoint notify_range (fuel : nat) (idx until : Z) (st : gmap Z (list nat) * gset nat)
    : option (gmap Z (list nat) * gset nat) :=
  if bool_decide (idx <= until) then
    match fuel with
    | O => None
    | S fuel =>
        notify_range fuel (u64 (idx + 1)) until
          (match st.1 !! idx with Some toNotify => notifyAndRemove idx toNotify st | None => st end)
    end
  else Some st.

(** [for idx, toNotify := range waiters { if idx <= until {...} }]. *)
Definition notify_all (until : Z) (st : gmap Z (list nat) * gset nat)
    : gmap Z (list nat) * gset nat :=
  foldl (fun st e => if bool_decide (e.1 <= until) then notifyAndRemove e.1 e.2 st else st)
    st (map_to_list st.1).

Definition notify (du until : Z) (st : gmap Z (list nat) * gset nat)
    : option (gmap Z (list nat) * gset nat) :=
  if bool_decide (u64 (until - du) <= Z.of_nat (size st.1))
  then notify_range (size st.1) (u64 (du + 1)) until st
  else Some (notify_all until st).

Definition processOne (w : WaterMark) (index : Z) (done : bool) : option WaterMark :=
  let indices := if decide (is_Some (pending w !! index)) then indices w
                 else heap_Push index (indices w) in
  let prev := default 0 (pending w !! index) in
  let delta := if done then -1 else 1 in
  let pending := <[index := prev + delta]> (pending w) in
  if bool_decide (index < doneUntil w) then None (* AssertTruef(false, ...) *)
  else
    let '(indices, pending, until) := pop_loop indices pending (doneUntil w) in
    '(ws, cl) ← notify (doneUntil w) until (waiters w, closed w);
    Some (mkWM until (lastIndex w) (markCh w) pending indices ws cl).

Definition add_waiter (w : WaterMark) (index : Z) (ch : nat) : WaterMark :=
  if bool_decide (index <= doneUntil w)
  then mkWM (doneUntil w) (lastIndex w) (markCh w) (pending w) (indices w) (waiters w)
         (closed w ∪ {[ch]})
  else mkWM (doneUntil w) (lastIndex w) (markCh w) (pending w) (indices w)
         (<[index := default [] (waiters w !! index) ++ [ch]]> (waiters w)) (closed w).

Definition process_mark (w : WaterMark) (m : mark) : option WaterMark :=
  match mwaiter m with
  | Some ch => Some (add_waiter w (mindex m) ch)
  | None =>
      w ← (if bool_decide (0 < mindex m \/ (mindex m = 0 /\ mindices m = []))
           then processOne w (mindex m) (mdone m) else Some w);
      foldl (fun ow i => w ← ow; processOne w i (mdone m)) (Some w) (mindices m)
  end.

(** One turn of [process]'s loop with a mark in the channel. *)
Definition process (w : WaterMark) : option WaterMark :=
  match markCh w with
  | [] => Some w
  | m :: ms =>
      process_mark (mkWM (doneUntil w) (lastIndex w) ms (pending w) (indices w) (waiters w)
        (closed w)) m
  end.

(** ** Lemmas: the heap *)

Lemma elem_of_heap_Push x y l : x ∈ heap_Push y l <-> x = y \/ x ∈ l.
Proof.
  induction l as [|z l IH]; simpl; [set_solver|]. case_bool_decide; set_solver.
Qed.

Lemma heap_Push_sorted x l :
  x ∉ l -> StronglySorted Z.lt l -> StronglySorted Z.lt (heap_Push x l).
Proof.
  induction l as [|y l IH]; intros Hx Hs; simpl.
  { repeat constructor. }
  apply StronglySorted_cons in Hs as [Hy Hs]. rewrite Forall_forall in Hy.
  case_bool_decide as Hle.
  - constructor; [by constructor; [|apply Forall_forall]|].
    apply Forall_forall. intros z Hz. apply elem_of_cons in Hz as [->|Hz]; [set_solver by lia|].
    specialize (Hy z Hz). lia.
  - constructor; [apply IH; set_solver|]. apply Forall_forall. intros z Hz.
    apply elem_of_heap_Push in Hz as [->|Hz]; [lia|auto].
Qed.

(** The indices of the heap are exactly those with a count. *)
Definition heap_ok (l : list Z) (P : gmap Z Z) : Prop :=
  StronglySorted Z.lt l /\ forall i, i ∈ l <-> is_Some (P !! i).

Lemma heap_ok_push l P i c :
  heap_ok l P ->
  heap_ok (if decide (is_Some (P !! i)) then l else heap_Push i l) (<[i := c]> P).
Proof.
  intros [Hs Hd]. case_decide as Hi; split.
  - done.
  - intros j. rewrite lookup_insert_is_Some', Hd. naive_solver.
  - apply heap_Push_sorted; [by rewrite Hd|done].
  - intros j. rewrite elem_of_heap_Push, lookup_insert_is_Some', Hd. naive_solver.
Qed.

(** Some index at or below [i] still has begins outstanding. *)
Definition blocked (P : gmap Z Z) (i : Z) : Prop :=
  exists j c, P !! j = Some c /\ 0 < c /\ j <= i.

Lemma pop_loop_spec l P u :
  heap_ok l P -> (forall i, i ∈ l -> u <= i) ->
  let '(l', P', u') := pop_loop l P u in
  heap_ok l' P' /\
  (forall i c, P' !! i = Some c <-> P !! i = Some c /\ blocked P i) /\
  u <= u' /\ (u' = u \/ u' ∈ l) /\
  (forall i, i ∈ l -> i <= u' \/ i ∈ l') /\ (forall i, i ∈ l' -> u' <= i) /\
  (forall i, i ∈ l -> i ∉ l' -> i <= u') /\
  (u' <> u -> forall i, i ∈ l' -> u' < i) /\
  (forall m, head l' = Some m -> exists c, P' !! m = Some c /\ 0 < c).
Proof.
  revert P u. induction l as [|m l IH]; intros P u [Hs Hd] Hu; simpl.
  { split_and!; auto; try done; try lia; try by intros ? ?%elem_of_nil.
    intros i c. split; [|naive_solver]. intros Hi. exfalso.
    by apply (elem_of_nil i), Hd; eauto. }
  apply StronglySorted_cons in Hs as [Hm Hs]. rewrite Forall_forall in Hm.
  assert (is_Some (P !! m)) as [cm Hcm] by (apply Hd; left).
  rewrite Hcm. simpl. case_bool_decide as Hpos.
  - split_and!; auto; try done; try lia.
    + split; [constructor; [done|by apply Forall_forall]|done].
    + intros i c. split; [|naive_solver]. intros Hi. split; [done|]. exists m, cm.
      split_and!; [done|done|]. assert (i ∈ m :: l) as Hil by (apply Hd; eauto).
      apply elem_of_cons in Hil as [->|Hil]; [lia|]. specialize (Hm i Hil). lia.
    + intros m' [= <-]. eauto.
  - assert (heap_ok l (delete m P)) as Hok.
    { split; [done|]. intros i. rewrite lookup_delete_is_Some. rewrite <- Hd.
      rewrite elem_of_cons. split; [|naive_solver]. intros Hi. split; [|auto].
      intros <-. specialize (Hm m Hi). lia. }
    assert (forall i, i ∈ l -> m <= i) as Hml by (intros i Hi; specialize (Hm i Hi); lia).
    specialize (IH (delete m P) m Hok Hml).
    destruct (pop_loop l (delete m P) m) as [[l' P'] u'].
    destruct IH as (H1 & H2 & H3 & H4 & H5 & H6 & H7 & H8 & H9).
    assert (u <= m) by (apply Hu; set_solver).
    split_and!; try done; try lia.
    + intros i c. rewrite H2. rewrite lookup_delete_Some. split.
      * intros [[Hne Hi] (j & c' & Hj & Hc' & Hle)]. apply lookup_delete_Some in Hj as [? Hj].
        split; [done|]. by exists j, c'.
      * intros [Hi (j & c' & Hj & Hc' & Hle)].
        assert (m <> j) by (intros <-; rewrite Hcm in Hj; simplify_eq; lia).
        assert (j ∈ m :: l) as Hjl by (apply Hd; eauto).
        apply elem_of_cons in Hjl as [->|Hjl]; [done|]. specialize (Hm j Hjl).
        split; [split; [lia|done]|]. exists j, c'. split; [|done].
        by rewrite lookup_delete_ne.
    + right. destruct H4 as [->|H4]; set_solver.
    + intros i Hi. apply elem_of_cons in Hi as [->|Hi]; [left; lia|auto].
    + intros i Hi Hi'. apply elem_of_cons in Hi as [->|Hi]; [lia|auto].
    + intros _ i Hi. destruct (decide (u' = m)) as [->|]; [|by apply H8].
      assert (i ∈ l) as Hil.
      { destruct Hok as [_ Hok']. destruct H1 as [_ H1]. apply H1 in Hi as [c Hi].
        apply H2 in Hi as [Hi _]. apply Hok'. eauto. }
      by apply Hm.
Qed.

(** ** Lemmas: notifying waiters *)

Notation wstate := (gmap Z (list nat) * gset nat)%type.

(** Both notification loops close the channels of the same waiters: [st'] is [st] with the
    waiters whose index satisfies [Q] closed and removed. *)
Definition notified (Q : Z -> Prop) (st st' : wstate) : Prop :=
  (forall k ws, st'.1 !! k = Some ws <-> st.1 !! k = Some ws /\ ~ Q k) /\
  (forall c, c ∈ st'.2 <-> c ∈ st.2 \/ exists k ws, st.1 !! k = Some ws /\ Q k /\ c ∈ ws).

Lemma notified_refl (Q : Z -> Prop) st :
  (forall k ws, st.1 !! k = Some ws -> ~ Q k) -> notified Q st st.
Proof.
  intros HQ. split; [naive_solver|]. intros c. split; [auto|].
  intros [?|(k & ws & Hk & Hq & _)]; [done|]. by destruct (HQ k ws).
Qed.

Lemma notified_trans (Q1 Q2 Q : Z -> Prop) st1 st2 st3 :
  (forall k, Q k <-> Q1 k \/ Q2 k) ->
  notified Q1 st1 st2 -> notified Q2 st2 st3 -> notified Q st1 st3.
Proof.
  intros HQ [A1 B1] [A2 B2]. split.
  - intros k ws. rewrite A2, A1, HQ. tauto.
  - intros c. rewrite B2, B1. split.
    + intros [[?|(k & ws & ? & ? & ?)]|(k & ws & [? ?]%A1 & ? & ?)]; [by auto|..];
        right; exists k, ws; rewrite HQ; auto.
    + intros [?|(k & ws & Hk & Hq & Hc)]; [by auto|].
      destruct (decide (c ∈ st2.2)) as [Hin|Hin]; [left; by apply B1|].
      right. exists k, ws. rewrite A1.
      assert (~ Q1 k) as HnQ by (intros ?; apply Hin, B1; eauto 10).
      apply HQ in Hq. tauto.
Qed.

Lemma notified_remove idx ws st :
  st.1 !! idx = Some ws -> notified (eq idx) st (notifyAndRemove idx ws st).
Proof.
  intros Hi. split; simpl.
  - intros k ws'. rewrite lookup_delete_Some. naive_solver.
  - intros c. rewrite elem_of_union, elem_of_list_to_set. naive_solver.
Qed.

Lemma notify_range_spec fuel idx until st :
  0 <= idx -> until < MaxUint64 -> until + 1 - idx <= Z.of_nat fuel ->
  exists st', notify_range fuel idx until st = Some st' /\
    notified (fun k => idx <= k <= until) st st'.
Proof.
  revert idx st. induction fuel as [|fuel IH]; intros idx st Hidx Hu Hf; simpl.
  { rewrite bool_decide_eq_false_2 by lia. eexists; split; [done|].
    apply notified_refl. lia. }
  case_bool_decide as Hle.
  2: { eexists; split; [done|]. apply notified_refl. lia. }
  rewrite u64_small by lia.
  edestruct (IH (idx + 1)) as (st' & -> & Hst'); [lia|lia|lia|].
  exists st'. split; [done|].
  eapply (notified_trans (eq idx)); [|clear Hst'|apply Hst'].
  { intros k. simpl. lia. }
  destruct (st.1 !! idx) as [ws|] eqn:E; [by apply notified_remove|].
  apply notified_refl. intros k ws Hk ->. congruence.
Qed.

Lemma notify_all_spec until st :
  notified (fun k => k <= until) st (notify_all until st).
Proof.
  unfold notify_all.
  assert (forall l st0, NoDup l.*1 ->
    (forall e, e ∈ l -> st0.1 !! e.1 = Some e.2) ->
    notified (fun k => k <= until /\ k ∈ l.*1) st0
      (foldl (fun st e => if bool_decide (e.1 <= until) then notifyAndRemove e.1 e.2 st else st)
         st0 l)) as HL.
  { intros l. induction l as [|[k0 ws0] l IH]; intros st0 Hnd Hl; simpl.
    { apply notified_refl. intros k ws _ [_ []%elem_of_nil]. }
    rewrite fmap_cons, NoDup_cons in Hnd. destruct Hnd as [Hk0 Hnd]. simpl in Hk0.
    assert (forall e, e ∈ l -> st0.1 !! e.1 = Some e.2) as Hl' by (intros; apply Hl; by right).
    assert (st0.1 !! k0 = Some ws0) as H0 by (apply (Hl (k0, ws0)); left).
    case_bool_decide as Hle.
    - eapply (notified_trans (eq k0)); [|by apply notified_remove|apply IH; [done|]].
      + intros k. simpl. rewrite elem_of_cons. naive_solver.
      + intros e He. simpl. rewrite lookup_delete_ne; [by apply Hl'|].
        intros ->. apply Hk0. by apply list_elem_of_fmap_2.
    - eapply (notified_trans (fun _ => False)); [|apply notified_refl; tauto|by apply IH].
      intros k. simpl. rewrite elem_of_cons. naive_solver. }
  specialize (HL (map_to_list st.1) st (NoDup_fst_map_to_list _)).
  destruct HL as [A B].
  { intros [k ws] Hk. by apply elem_of_map_to_list. }
  assert (forall k ws, st.1 !! k = Some ws -> k ∈ (map_to_list st.1).*1) as Hin.
  { intros k ws Hk. apply elem_of_map_to_list in Hk.
    by apply (list_elem_of_fmap_2 fst) in Hk. }
  split.
  - intros k ws. rewrite A. split; [|tauto]. intros [? Hn]. split; [done|]. eauto.
  - intros c. rewrite B. split; (intros [?|(k & ws & ? & ? & ?)]; [by auto|]); right;
      exists k, ws; naive_solver.
Qed.

(** The two ways of notifying agree, and the first one ends. *)
Lemma notify_spec du until st :
  0 <= du <= until -> until < MaxUint64 ->
  (forall k ws, st.1 !! k = Some ws -> du < k) ->
  exists st', notify du until st = Some st' /\ notified (fun k => k <= until) st st'.
Proof.
  intros Hdu Hu Hw. unfold notify. rewrite (u64_small (until - du)), (u64_small (du + 1)) by lia.
  case_bool_decide as Hsz.
  - destruct (notify_range_spec (size st.1) (du + 1) until st) as (st' & E & HA & HB); [lia..|].
    exists st'. split; [done|]. split.
    + intros k ws. rewrite HA. split; intros [Hk Hq]; split; try done; specialize (Hw _ _ Hk); lia.
    + intros c. rewrite HB. split; (intros [?|(k & ws & Hk & Hq & Hc)]; [by auto|]); right;
        exists k, ws; specialize (Hw _ _ Hk); auto with lia.
  - eexists. split; [done|]. apply notify_all_spec.
Qed.

(** ** The invariant of the goroutine's state *)

Record wm_ok (w : WaterMark) : Prop := {
  wm_heap : heap_ok (indices w) (pending w);
  wm_du : 0 <= doneUntil w < MaxUint64;
  wm_bounds : forall i, i ∈ indices w -> doneUntil w <= i < MaxUint64;
  wm_head : forall m, head (indices w) = Some m -> exists c, pending w !! m = Some c /\ 0 < c;
  wm_waiters : forall k ws, waiters w !! k = Some ws -> doneUntil w < k
}.

(** The counts after a begin or a done of [index]. *)
Definition counted (w : WaterMark) (index : Z) (done : bool) : gmap Z Z :=
  <[index := default 0 (pending w !! index) + (if done then -1 else 1)]> (pending w).

Lemma wm_ok_init : wm_ok WaterMark_Init.
Proof.
  split; simpl; try done.
  - split; [constructor|]. intros i. rewrite lookup_empty. split; [by intros ?%elem_of_nil|].
    by intros [].
  - by intros i ?%elem_of_nil.
Qed.

Lemma processOne_ok w index done :
  wm_ok w -> doneUntil w <= index < MaxUint64 ->
  exists w', processOne w index done = Some w' /\ wm_ok w' /\
    doneUntil w <= doneUntil w' /\
    markCh w' = markCh w /\ lastIndex w' = lastIndex w /\
    (forall i c, pending w' !! i = Some c <->
       counted w index done !! i = Some c /\ blocked (counted w index done) i) /\
    (doneUntil w' = doneUntil w \/ is_Some (counted w index done !! doneUntil w')) /\
    (forall i, is_Some (counted w index done !! i) -> pending w' !! i = None -> i <= doneUntil w') /\
    (doneUntil w' <> doneUntil w -> forall i, is_Some (pending w' !! i) -> doneUntil w' < i) /\
    notified (fun k => k <= doneUntil w') (waiters w, closed w) (waiters w', closed w').
Proof.
  intros [Hh Hdu Hb Hhd Hw] Hi. unfold processOne. rewrite bool_decide_eq_false_2 by lia.
  cbv zeta. change (<[index:=_]> (pending w)) with (counted w index done).
  assert (heap_ok (if decide (is_Some (pending w !! index)) then indices w
                   else heap_Push index (indices w)) (counted w index done)) as Hok
    by (by apply heap_ok_push).
  set (l := if decide _ then indices w else _) in *.
  assert (forall i, i ∈ l -> doneUntil w <= i < MaxUint64) as Hl.
  { intros i Hil. unfold l in Hil. case_decide; [by apply Hb|].
    apply elem_of_heap_Push in Hil as [->|]; auto. }
  pose proof (pop_loop_spec l (counted w index done) (doneUntil w) Hok) as Hp.
  destruct (pop_loop l (counted w index done) (doneUntil w)) as [[l' P'] u'].
  destruct Hp as (H1 & H2 & H3 & H4 & H5 & H6 & H7 & H8 & H9); [intros i ?; by apply Hl|].
  assert (u' < MaxUint64) as Hu' by (destruct H4 as [->|?%Hl]; lia).
  destruct (notify_spec (doneUntil w) u' (waiters w, closed w)) as ([ws cl] & E & Hn);
    [lia|done|done|].
  rewrite E. cbn [mbind option_bind]. eexists. split; [done|]. simpl.
  destruct Hok as [_ Hok]. destruct H1 as [H1 H1'].
  split_and!; try done.
  - split; simpl; try done.
    + lia.
    + intros i Hi'. split; [auto|]. apply H1' in Hi' as [c Hc].
      apply H2 in Hc as [Hc _]. apply Hl, Hok. eauto.
    + intros k ks Hk. apply Hn in Hk as [_ Hk]. simpl in Hk. lia.
  - destruct H4 as [->|H4]; [by left|right]. by apply Hok.
  - intros i Hi1 Hi2. apply H7; [by apply Hok|]. rewrite H1', Hi2. by intros [].
  - intros Hne i Hi'. apply H8; [done|]. by apply H1'.
Qed.

(** ** Histories of marks

    [event]s are the single-index marks of [Begin], [Done] and [WaitForMark]; a history lists
    the ones the goroutine took off the channel, oldest first. *)

Inductive event : Type :=
  | EvBegin (i : Z)
  | EvDone (i : Z)
  | EvWait (i : Z) (ch : nat).

Definition mark_of (e : event) : mark :=
  match e with
  | EvBegin i => mkMark i None [] false
  | EvDone i => mkMark i None [] true
  | EvWait i ch => mkMark i (Some ch) [] false
  end.

Definition idx_of (e : event) : option Z :=
  match e with EvBegin i | EvDone i => Some i | EvWait _ _ => None end.

Definition idxs (tr : list event) : list Z := omap idx_of tr.

(** Begins of [i] not yet matched by a done; a surplus done counts for nothing. *)
Definition count_step (i : Z) (n : Z) (e : event) : Z :=
  match e with
  | EvBegin j => if bool_decide (i = j) then n + 1 else n
  | EvDone j => if bool_decide (i = j) then Z.max 0 (n - 1) else n
  | EvWait _ _ => n
  end.

Definition count (tr : list event) (i : Z) : Z := foldl (count_step i) 0 tr.

(** The discipline the callers keep: begins come in non-decreasing order, a done matches an
    earlier begin — except that the very first mark may be a done, which is how [Open] starts
    a watermark off at the version it recovered. *)
Definition ev_ok (tr : list event) (e : event) : Prop :=
  match e with
  | EvBegin i => 0 <= i < MaxUint64 /\ forall j, j ∈ idxs tr -> j <= i
  | EvDone i => 0 <= i < MaxUint64 /\ (idxs tr = [] \/ 0 < count tr i)
  | EvWait _ _ => True
  end.

Inductive wf_trace : list event -> Prop :=
  | wf_nil : wf_trace []
  | wf_snoc tr e : wf_trace tr -> ev_ok tr e -> wf_trace (tr ++ [e]).

(** Taking the marks one after the other. *)
Definition replay (ms : list mark) (w : WaterMark) : option WaterMark :=
  foldl (fun ow m => w ← ow; process_mark w m) (Some w) ms.

Lemma replay_snoc ms m w :
  replay (ms ++ [m]) w = (w' ← replay ms w; process_mark w' m).
Proof. unfold replay. by rewrite foldl_app. Qed.

Lemma idxs_snoc tr e : idxs (tr ++ [e]) = idxs tr ++ option_list (idx_of e).
Proof. unfold idxs. rewrite omap_app. simpl. by destruct (idx_of e). Qed.

Lemma count_snoc tr e i : count (tr ++ [e]) i = count_step i (count tr i) e.
Proof. unfold count. by rewrite foldl_app. Qed.

Lemma count_nonneg tr i : 0 <= count tr i.
Proof.
  induction tr as [|e tr IH] using rev_ind; [done|]. rewrite count_snoc.
  destruct e; simpl; try case_bool_decide; lia.
Qed.

Record trace_inv (tr : list event) (w : WaterMark) : Prop := {
  ti_ok : wm_ok w;
  ti_count : forall i, default 0 (pending w !! i) = count tr i;
  ti_idx : forall i, i ∈ idxs tr -> i <= doneUntil w \/ is_Some (pending w !! i);
  ti_pend : forall i, is_Some (pending w !! i) -> i ∈ idxs tr;
  ti_du : doneUntil w = 0 \/ doneUntil w ∈ idxs tr;
  ti_closed : forall c, c ∈ closed w <-> exists i, EvWait i c ∈ tr /\ i <= doneUntil w;
  ti_wait : forall i c, (exists ws, waiters w !! i = Some ws /\ c ∈ ws) <->
                        EvWait i c ∈ tr /\ doneUntil w < i
}.

Lemma trace_inv_init : trace_inv [] WaterMark_Init.
Proof.
  split; simpl.
  - apply wm_ok_init.
  - intros i. by rewrite lookup_empty.
  - intros i []%elem_of_nil.
  - intros i [? H]. by rewrite lookup_empty in H.
  - by left.
  - intros c. split; [done|]. by intros (i & []%elem_of_nil & _).
  - intros i c. split; [|by intros [[]%elem_of_nil _]].
    intros (ws & H & _). by rewrite lookup_empty in H.
Qed.

(** A begin or a done that the assertion accepts. *)
Lemma trace_inv_processOne tr w i (done : bool) :
  trace_inv tr w -> doneUntil w <= i < MaxUint64 ->
  (done = true -> idxs tr = [] \/ 0 < count tr i) ->
  exists w', processOne w i done = Some w' /\
    trace_inv (tr ++ [if done then EvDone i else EvBegin i]) w' /\
    doneUntil w <= doneUntil w' /\ markCh w' = markCh w /\ lastIndex w' = lastIndex w /\
    (doneUntil w' <> doneUntil w -> forall j, is_Some (pending w' !! j) -> doneUntil w' < j) /\
    (forall j, is_Some (pending w' !! j) -> j = i \/ is_Some (pending w !! j)).
Proof.
  intros [Hok Hc Hi Hp Hdu Hcl Hwt] Hb Hd.
  destruct (processOne_ok w i done Hok Hb)
    as (w' & E & Hok' & Hmono & Hm & Hl & H1 & H2 & H3 & H4 & [H5 H6]).
  exists w'. split; [done|].
  assert (forall j, is_Some (counted w i done !! j) <-> j = i \/ is_Some (pending w !! j)) as Hcd.
  { intros j. unfold counted. rewrite lookup_insert_is_Some'. naive_solver. }
  assert (forall j, is_Some (pending w' !! j) -> is_Some (counted w i done !! j)) as Hsub.
  { intros j [c Hj]. apply H1 in Hj as [Hj _]. eauto. }
  set (e := if done then EvDone i else EvBegin i).
  assert (idxs (tr ++ [e]) = idxs tr ++ [i]) as Hidx by (rewrite idxs_snoc; by destruct done).
  assert (forall j, default 0 (counted w i done !! j)
     = (if bool_decide (j = i) then count tr j + (if done then -1 else 1) else count tr j)) as Hcj.
  { intros j. unfold counted. case_bool_decide as Hj.
    - subst. by rewrite lookup_insert_eq, <- Hc.
    - by rewrite lookup_insert_ne by done. }
  split_and!; try done.
  2: { intros j Hj. by apply Hcd, Hsub. }
  split; [done| | | | | |].
  - intros j. rewrite count_snoc.
    assert (count_step j (count tr j) e
      = Z.max 0 (default 0 (counted w i done !! j))) as ->.
    { rewrite Hcj. pose proof (count_nonneg tr j). unfold e.
      destruct done; simpl; case_bool_decide; lia. }
    destruct (pending w' !! j) as [c|] eqn:Ej; simpl.
    + apply H1 in Ej as [Ej (k & ck & Hk & Hpos & Hle)].
      specialize (Hcj j) as Hcj'. rewrite Ej in Hcj' |- *. simpl in Hcj' |- *.
      pose proof (count_nonneg tr j) as Hnn.
      destruct (decide (0 <= c)) as [|Hneg]; [lia|]. exfalso.
      case_bool_decide as Hj; [|lia]. subst j. destruct done; [|lia].
      destruct (Hd eq_refl) as [Hnil|]; [|lia].
      assert (k = i \/ is_Some (pending w !! k)) as [->|Hk'] by (apply Hcd; eauto).
      * rewrite Ej in Hk. simplify_eq. lia.
      * apply Hp in Hk'. rewrite Hnil in Hk'. by apply elem_of_nil in Hk'.
    + destruct (counted w i done !! j) as [c|] eqn:Ecj; [|done]. simpl.
      destruct (decide (0 < c)) as [Hpos|]; [|lia]. exfalso.
      assert (pending w' !! j = Some c) as Hj; [|congruence].
      apply H1. split; [done|]. by exists j, c.
  - intros j. rewrite Hidx, elem_of_app, list_elem_of_singleton. intros Hj.
    destruct (pending w' !! j) eqn:Ej; [by right; eauto|left].
    destruct (counted w i done !! j) eqn:Ecj; [apply H3; eauto|].
    destruct Hj as [Hj|Hj].
    + destruct (Hi j Hj) as [|Hs]; [lia|].
      assert (is_Some (counted w i done !! j)) as [? ?] by (apply Hcd; auto). congruence.
    + assert (is_Some (counted w i done !! j)) as [? ?] by (apply Hcd; auto). congruence.
  - intros j Hj. rewrite Hidx, elem_of_app, list_elem_of_singleton.
    apply Hsub, Hcd in Hj as [->|Hj]; auto.
  - rewrite Hidx, elem_of_app, list_elem_of_singleton.
    destruct H2 as [->|H2]; [tauto|]. apply Hcd in H2 as [->|H2]; auto.
  - intros c. simpl in H6. rewrite H6, Hcl.
    assert (forall k, EvWait k c ∈ tr ++ [e] <-> EvWait k c ∈ tr) as Hw.
    { intros k. rewrite elem_of_app, list_elem_of_singleton. unfold e. destruct done; naive_solver. }
    setoid_rewrite Hw. split.
    + intros [(k & Hk & Hle)|(k & ws & Hk & Hle & Hin)]; [exists k; split; [done|lia]|].
      exists k. split; [|done]. apply Hwt. eauto.
    + intros (k & Hk & Hle). destruct (decide (k <= doneUntil w)); [left; eauto|right].
      destruct (proj2 (Hwt k c)) as (ws & ? & ?); [split; [done|lia]|]. eauto.
  - intros k c.
    assert (EvWait k c ∈ tr ++ [e] <-> EvWait k c ∈ tr) as ->.
    { rewrite elem_of_app, list_elem_of_singleton. unfold e. destruct done; naive_solver. }
    simpl in H5. setoid_rewrite H5. split.
    + intros (ws & [Hk Hn] & Hin). split; [|lia]. apply (Hwt k c). eauto.
    + intros [Hk Hlt]. destruct (proj2 (Hwt k c)) as (ws & ? & ?); [split; [done|lia]|].
      exists ws. split_and!; [done|lia|done].
Qed.

Lemma trace_inv_pending tr w i :
  trace_inv tr w -> is_Some (pending w !! i) -> doneUntil w <= i.
Proof.
  intros [[Hh Hdu Hb Hhd Hw] _ _ _ _ _ _] Hi. apply Hb. by apply Hh.
Qed.

Lemma count_pending tr w i :
  trace_inv tr w -> 0 < count tr i -> is_Some (pending w !! i).
Proof.
  intros Hinv Hc. rewrite <- (ti_count _ _ Hinv) in Hc.
  destruct (pending w !! i); [eauto|]. simpl in Hc. lia.
Qed.

Lemma ev_ok_index tr w e i :
  trace_inv tr w -> ev_ok tr e -> idx_of e = Some i -> doneUntil w <= i < MaxUint64.
Proof.
  intros Hinv He Hi. destruct e as [j|j|j c]; simpl in He, Hi; simplify_eq.
  - destruct He as [Hr He]. split; [|lia].
    destruct (ti_du _ _ Hinv) as [->|Hdu]; [lia|]. by apply He.
  - destruct He as [Hr He]. split; [|lia]. destruct He as [Hnil|Hpos].
    + destruct (ti_du _ _ Hinv) as [->|Hdu]; [lia|]. rewrite Hnil in Hdu.
      by apply elem_of_nil in Hdu.
    + by eapply trace_inv_pending, count_pending.
Qed.

Lemma trace_inv_waiter tr w i c :
  trace_inv tr w -> trace_inv (tr ++ [EvWait i c]) (add_waiter w i c).
Proof.
  intros [[Hh Hb0 Hb Hhd Hw] Hc Hi Hp Hdu Hcl Hwt].
  assert (idxs (tr ++ [EvWait i c]) = idxs tr) as Hidx by (rewrite idxs_snoc; apply app_nil_r).
  assert (forall k d, EvWait k d ∈ tr ++ [EvWait i c] <->
            EvWait k d ∈ tr \/ (k = i /\ d = c)) as Hin.
  { intros k d. rewrite elem_of_app, list_elem_of_singleton. naive_solver. }
  assert (forall k, default 0 (pending w !! k) = count (tr ++ [EvWait i c]) k) as Hc'
    by (intros k; rewrite count_snoc; apply Hc).
  unfold add_waiter. case_bool_decide as Hle; split; simpl; rewrite ?Hidx; try done.
  - intros d. rewrite elem_of_union, elem_of_singleton, Hcl. setoid_rewrite Hin. naive_solver.
  - intros k d. rewrite Hwt, Hin. split; [tauto|]. intros [[?|[-> ->]] ?]; [done|lia].
  - split; simpl; try done. intros k ws. rewrite lookup_insert_Some. intros [[<- _]|[_ Hk]]; [lia|].
    eauto.
  - intros d. rewrite Hcl. setoid_rewrite Hin. split; [naive_solver|].
    intros (k & [?|[-> ->]] & ?); [eauto|lia].
  - intros k d. rewrite Hin. split.
    + intros (ws & Hk & Hd). apply lookup_insert_Some in Hk as [[<- <-]|[Hne Hk]].
      * apply elem_of_app in Hd as [Hd|Hd%list_elem_of_singleton]; [|subst; split; [auto|lia]].
        destruct (waiters w !! i) as [ws|] eqn:E; simpl in Hd; [|by apply elem_of_nil in Hd].
        split; [left; apply Hwt; eauto|lia].
      * split; [left; apply (Hwt k d); eauto|]. apply (Hwt k d). eauto.
    + intros [[Hk|[-> ->]] Hlt].
      * destruct (proj2 (Hwt k d) (conj Hk Hlt)) as (ws & Hws & Hd).
        destruct (decide (i = k)) as [->|Hne].
        -- eexists. rewrite lookup_insert_eq, Hws. split; [done|]. apply elem_of_app; auto.
        -- exists ws. by rewrite lookup_insert_ne.
      * eexists. rewrite lookup_insert_eq. split; [done|]. apply elem_of_app; right.
        by apply list_elem_of_singleton.
Qed.

Lemma index_guard i : 0 <= i -> 0 < i \/ (i = 0 /\ @nil Z = []).
Proof. intros H. destruct (decide (i = 0)); [auto|lia]. Qed.

Lemma trace_step tr w e :
  trace_inv tr w -> ev_ok tr e ->
  exists w', process_mark w (mark_of e) = Some w' /\ trace_inv (tr ++ [e]) w' /\
    doneUntil w <= doneUntil w' /\ markCh w' = markCh w.
Proof.
  intros Hinv He. destruct e as [i|i|i c].
  - pose proof (ev_ok_index _ _ _ i Hinv He eq_refl) as Hb. destruct He as [Hr He].
    destruct (trace_inv_processOne tr w i false Hinv Hb ltac:(done))
      as (w' & E & H1 & H2 & H3 & _).
    exists w'. unfold process_mark. simpl. rewrite bool_decide_eq_true_2 by (apply index_guard; lia).
    by rewrite E.
  - pose proof (ev_ok_index _ _ _ i Hinv He eq_refl) as Hb. destruct He as [Hr He].
    destruct (trace_inv_processOne tr w i true Hinv Hb ltac:(done))
      as (w' & E & H1 & H2 & H3 & _).
    exists w'. unfold process_mark. simpl. rewrite bool_decide_eq_true_2 by (apply index_guard; lia).
    by rewrite E.
  - eexists. split; [done|]. split; [by apply trace_inv_waiter|].
    unfold add_waiter. by case_bool_decide.
Qed.

Lemma wf_trace_replay tr :
  wf_trace tr ->
  exists w, replay (mark_of <$> tr) WaterMark_Init = Some w /\ trace_inv tr w /\ markCh w = [].
Proof.
  induction 1 as [|tr e Hwf (w & E & Hinv & Hch) He].
  - exists WaterMark_Init. split_and!; [done|apply trace_inv_init|done].
  - destruct (trace_step tr w e Hinv He) as (w' & E' & Hinv' & _ & Hch').
    exists w'. rewrite fmap_app. simpl. rewrite replay_snoc, E. simpl.
    split_and!; [done|done|congruence].
Qed.

Lemma wf_trace_app_inv tr1 tr2 : wf_trace (tr1 ++ tr2) -> wf_trace tr1.
Proof.
  induction tr2 as [|e tr2 IH] using rev_ind; [by rewrite app_nil_r|].
  rewrite app_assoc. intros H. inversion H as [Hn|tr e' Hwf He Heq].
  - by destruct (app_cons_not_nil (tr1 ++ tr2) [] e).
  - apply app_inj_tail in Heq as [-> ->]. auto.
Qed.

Lemma wf_trace_snoc_inv tr e : wf_trace (tr ++ [e]) -> wf_trace tr /\ ev_ok tr e.
Proof.
  intros H. inversion H as [Hn|tr' e' Hwf He Heq].
  - by destruct (app_cons_not_nil tr [] e).
  - by apply app_inj_tail in Heq as [-> ->].
Qed.

(** In a history whose begins all come in order, an index with begins outstanding once the
    marks still queued are taken too is never below the watermark. *)
Lemma wf_trace_active tr q w i :
  wf_trace (tr ++ q) -> trace_inv tr w -> 0 < count (tr ++ q) i -> doneUntil w <= i.
Proof.
  intros Hwf Hinv. induction q as [|e q IH] using rev_ind.
  - rewrite app_nil_r. intros Hc. by eapply trace_inv_pending, count_pending.
  - rewrite app_assoc in Hwf |- *. apply wf_trace_snoc_inv in Hwf as [Hwf He].
    specialize (IH Hwf). rewrite count_snoc. destruct e as [j|j|j c]; simpl; [|..|auto].
    + case_bool_decide as Hj; [subst j|auto]. intros _. destruct He as [Hr He].
      destruct (ti_du _ _ Hinv) as [->|Hdu]; [lia|]. apply He.
      unfold idxs in *. rewrite omap_app. apply elem_of_app. auto.
    + case_bool_decide as Hj; [subst j|auto]. intros Hc. apply IH. lia.
Qed.

(** ** Strictly increasing begins: the commit timestamps' watermark *)

Definition begins_increasing (tr : list event) : Prop :=
  forall tr1 i tr2, tr = tr1 ++ EvBegin i :: tr2 ->
    0 < i /\ forall j, j ∈ idxs tr1 -> j < i.

Lemma begins_increasing_prefix tr1 tr2 :
  begins_increasing (tr1 ++ tr2) -> begins_increasing tr1.
Proof.
  intros H a i b ->. apply (H a i (b ++ tr2)). by rewrite <- app_assoc.
Qed.

Lemma begins_increasing_snoc tr e :
  begins_increasing (tr ++ [e]) <->
  begins_increasing tr /\
  (forall i, e = EvBegin i -> 0 < i /\ forall j, j ∈ idxs tr -> j < i).
Proof.
  split.
  - intros H. split; [by eapply begins_increasing_prefix|].
    intros i ->. by apply (H tr i []).
  - intros [H He] a i b. destruct b as [|x b _] using rev_ind.
    + intros [-> ->]%app_inj_tail. by apply He.
    + rewrite app_comm_cons, app_assoc. intros [-> ->]%app_inj_tail. by apply (H a i b).
Qed.

Definition above (w : WaterMark) : Prop := forall i, is_Some (pending w !! i) -> doneUntil w < i.

Lemma trace_step_above tr w e w' :
  trace_inv tr w -> above w -> ev_ok tr e ->
  (forall i, e = EvBegin i -> 0 < i /\ forall j, j ∈ idxs tr -> j < i) ->
  process_mark w (mark_of e) = Some w' -> trace_inv (tr ++ [e]) w' -> above w'.
Proof.
  intros Hinv Hab He Hbeg Hpm Hinv' j Hj.
  assert (forall i, idx_of e = Some i ->
    (forall (du_eq : doneUntil w' = doneUntil w), is_Some (pending w' !! i) -> doneUntil w < i)) as Hnew.
  { intros i Hi Heq Hpi. destruct e as [k|k|k c]; simplify_eq/=.
    - destruct (Hbeg i eq_refl) as [Hpos Hlt].
      destruct (ti_du _ _ Hinv) as [->|Hdu]; [done|by apply Hlt].
    - destruct He as [_ [Hnil|Hc]]; [|by apply Hab; eapply count_pending].
      exfalso. destruct (ti_ok _ _ Hinv') as [[Hs Hdom] _ _ Hhd _].
      apply Hdom in Hpi as Hin. destruct (indices w') as [|m l] eqn:El; [by apply elem_of_nil in Hin|].
      destruct (Hhd m eq_refl) as (cm & Hm & Hpos).
      assert (m ∈ idxs (tr ++ [EvDone i])) as Hmi by (apply (ti_pend _ _ Hinv'); eauto).
      rewrite idxs_snoc, Hnil in Hmi. apply list_elem_of_singleton in Hmi as ->.
      pose proof (ti_count _ _ Hinv' i) as Hci. rewrite Hm, count_snoc in Hci. simpl in Hci.
      rewrite bool_decide_eq_true_2 in Hci by done.
      assert (count tr i = 0) as Hz; [|lia].
      rewrite <- (ti_count _ _ Hinv). destruct (pending w !! i) eqn:Ep; [|done].
      assert (i ∈ idxs tr) as Hx by (apply (ti_pend _ _ Hinv); eauto).
      rewrite Hnil in Hx. by apply elem_of_nil in Hx. }
  destruct e as [i|i|i c].
  1, 2: pose proof (ev_ok_index _ _ _ i Hinv He eq_refl) as Hb; destruct He as [Hr He];
    unfold process_mark in Hpm; simpl in Hpm;
    rewrite bool_decide_eq_true_2 in Hpm by (apply index_guard; lia).
  1: destruct (trace_inv_processOne tr w i false Hinv Hb ltac:(done)) as
    (w2 & E & _ & _ & _ & _ & Hup & Hsub).
  2: destruct (trace_inv_processOne tr w i true Hinv Hb ltac:(done)) as
    (w2 & E & _ & _ & _ & _ & Hup & Hsub).
  1, 2: rewrite E in Hpm; simplify_eq/=;
    destruct (decide (doneUntil w' = doneUntil w)) as [Heq|Hne]; [|by apply Hup];
    rewrite Heq; destruct (Hsub j Hj) as [->|Hj']; [by apply Hnew|by apply Hab].
  injection Hpm as <-. unfold add_waiter in Hj |- *.
  case_bool_decide; by apply Hab.
Qed.

Lemma wf_trace_active_strict tr q w i :
  wf_trace (tr ++ q) -> begins_increasing (tr ++ q) -> trace_inv tr w -> above w ->
  0 < count (tr ++ q) i -> doneUntil w < i.
Proof.
  intros Hwf Hbi Hinv Hab. induction q as [|e q IH] using rev_ind.
  - rewrite app_nil_r. intros Hc. by apply Hab; eapply count_pending.
  - rewrite app_assoc in Hwf, Hbi |- *. apply wf_trace_snoc_inv in Hwf as [Hwf He].
    apply begins_increasing_snoc in Hbi as [Hbi Hbe].
    specialize (IH Hwf Hbi). rewrite count_snoc. destruct e as [j|j|j c]; simpl; [|..|auto].
    + case_bool_decide as Hj; [subst j|auto]. intros _. destruct (Hbe i eq_refl) as [Hpos Hlt].
      destruct (ti_du _ _ Hinv) as [->|Hdu]; [lia|]. apply Hlt.
      unfold idxs in *. rewrite omap_app. apply elem_of_app. auto.
    + case_bool_decide as Hj; [subst j|auto]. intros Hc. apply IH. lia.
Qed.

(** ** A watermark with marks still in its channel

    [tr] is what [process] has taken, [q] what is queued. *)

Record mark_inv (w : WaterMark) (tr q : list event) : Prop := {
  mi_wf : wf_trace (tr ++ q);
  mi_trace : trace_inv tr w;
  mi_queue : markCh w = mark_of <$> q
}.

Lemma trace_inv_ext tr w w' :
  doneUntil w' = doneUntil w -> pending w' = pending w -> indices w' = indices w ->
  waiters w' = waiters w -> closed w' = closed w -> trace_inv tr w -> trace_inv tr w'.
Proof.
  intros E1 E2 E3 E4 E5 [[Hh Hdu Hb Hhd Hw] Hc Hi Hp Hd Hcl Hwt].
  split; [split|..]; rewrite ?E1, ?E2, ?E3, ?E4, ?E5; done.
Qed.

Lemma mark_inv_send w tr q e :
  mark_inv w tr q -> ev_ok (tr ++ q) e -> mark_inv (send w (mark_of e)) tr (q ++ [e]).
Proof.
  intros [Hwf Htr Hq] He. split.
  - rewrite app_assoc. by apply wf_snoc.
  - by apply (trace_inv_ext tr w).
  - simpl. rewrite Hq, fmap_app. done.
Qed.

Lemma mark_inv_Begin w tr q i :
  mark_inv w tr q -> ev_ok (tr ++ q) (EvBegin i) -> mark_inv (Begin w i) tr (q ++ [EvBegin i]).
Proof.
  intros [Hwf Htr Hq] He. apply (mark_inv_send (set_lastIndex w i) tr q (EvBegin i)); [|done].
  split; [done|by apply (trace_inv_ext tr w)|done].
Qed.

Lemma mark_inv_process w tr q :
  mark_inv w tr q ->
  exists w' tr' q', process w = Some w' /\ mark_inv w' tr' q' /\ tr' ++ q' = tr ++ q /\
    doneUntil w <= doneUntil w' /\
    (begins_increasing (tr ++ q) -> above w -> above w').
Proof.
  intros [Hwf Htr Hq]. unfold process. destruct q as [|e q]; simpl in Hq; rewrite Hq.
  { exists w, tr, []. split_and!; try done; lia. }
  set (w0 := mkWM _ _ _ _ _ _ _).
  assert (trace_inv tr w0) as Htr0 by (by apply (trace_inv_ext tr w)).
  assert (tr ++ e :: q = (tr ++ [e]) ++ q) as Eq by (by rewrite <- app_assoc).
  rewrite Eq in Hwf |- *.
  pose proof (wf_trace_app_inv _ _ Hwf) as Hwf1. apply wf_trace_snoc_inv in Hwf1 as [_ He].
  destruct (trace_step tr w0 e Htr0 He) as (w' & E & Hinv & Hmono & Hch).
  exists w', (tr ++ [e]), q. split_and!; [done| |done|done|].
  - split; [done|done|]. by rewrite Hch.
  - intros Hbi Hab. apply begins_increasing_prefix, begins_increasing_snoc in Hbi as [_ Hbe].
    by apply (trace_step_above tr w0 e w').
Qed.

(** What the clients rely on. *)
Lemma mark_inv_active w tr q i :
  mark_inv w tr q -> 0 < count (tr ++ q) i -> doneUntil w <= i.
Proof. intros [Hwf Htr _]. by apply (wf_trace_active tr q). Qed.

Lemma mark_inv_active_strict w tr q i :
  mark_inv w tr q -> begins_increasing (tr ++ q) -> above w ->
  0 < count (tr ++ q) i -> doneUntil w < i.
Proof. intros [Hwf Htr _] Hbi Hab. by apply (wf_trace_active_strict tr q). Qed.

Lemma mark_inv_du w tr q :
  mark_inv w tr q -> 0 <= doneUntil w /\ (doneUntil w = 0 \/ doneUntil w ∈ idxs (tr ++ q)).
Proof.
  intros [_ Htr _]. split; [apply Htr|]. destruct (ti_du _ _ Htr) as [|H]; [by left|right].
  unfold idxs in *. rewrite omap_app. apply elem_of_app. auto.
Qed.

(** ** Properties *)

(** C25: the watermark is exact.  For any disciplined history of marks no assertion of
    [process] fails and its loops end; [DoneUntil] never passes an index that has begun and is
    not done, reaches every index all of whose predecessors are done, and the waiters whose
    channels were closed are exactly those at or below it. *)
Theorem watermark_exact (tr : list event) :
  wf_trace tr ->
  exists w, replay (mark_of <$> tr) WaterMark_Init = Some w /\
    (forall i, 0 < count tr i -> doneUntil w <= i) /\
    (forall i, i ∈ idxs tr -> (forall j, j <= i -> count tr j = 0) -> i <= doneUntil w) /\
    (doneUntil w = 0 \/ doneUntil w ∈ idxs tr) /\
    (forall c, c ∈ closed w <-> exists i, EvWait i c ∈ tr /\ i <= doneUntil w).
Proof.
  intros Hwf. destruct (wf_trace_replay tr Hwf) as (w & E & Hinv & _).
  exists w. split_and!; [done| | |apply Hinv|apply Hinv].
  - intros i Hi. by eapply trace_inv_pending, count_pending.
  - intros i Hi Hz. destruct (ti_idx _ _ Hinv i Hi) as [|Hp]; [done|].
    exfalso. destruct (ti_ok _ _ Hinv) as [[Hs Hdom] _ _ Hhd _].
    apply Hdom in Hp as Hin. destruct (indices w) as [|m l]; [by apply elem_of_nil in Hin|].
    destruct (Hhd m eq_refl) as (c & Hc & Hpos).
    assert (m <= i) as Hmi.
    { apply StronglySorted_cons in Hs as [Hall _]. rewrite Forall_forall in Hall.
      apply elem_of_cons in Hin as [->|Hin]; [lia|]. specialize (Hall i Hin). lia. }
    specialize (Hz m Hmi). rewrite <- (ti_count _ _ Hinv), Hc in Hz. simpl in Hz. lia.
Qed.

Definition wm_example : list event :=
  [EvDone 4; EvBegin 4; EvBegin 5; EvWait 5 0%nat; EvWait 6 1%nat; EvDone 5; EvBegin 6; EvDone 4].

Lemma wm_example_wf : wf_trace wm_example.
Proof.
  change wm_example with (((((((([] ++ [EvDone 4]) ++ [EvBegin 4]) ++ [EvBegin 5])
    ++ [EvWait 5 0%nat]) ++ [EvWait 6 1%nat]) ++ [EvDone 5]) ++ [EvBegin 6]) ++ [EvDone 4]).
  repeat (apply wf_snoc; [|simpl]); [constructor|..];
    repeat split; try done; try (by left); try (right; by vm_compute);
    intros j; rewrite ?elem_of_cons, ?elem_of_nil; lia.
Defined.

Lemma watermark_exact_witness :
  exists w, replay (mark_of <$> wm_example) WaterMark_Init = Some w /\
    (forall i, 0 < count wm_example i -> doneUntil w <= i) /\
    (forall i, i ∈ idxs wm_example -> (forall j, j <= i -> count wm_example j = 0) ->
       i <= doneUntil w) /\
    (doneUntil w = 0 \/ doneUntil w ∈ idxs wm_example) /\
    (forall c, c ∈ closed w <-> exists i, EvWait i c ∈ wm_example /\ i <= doneUntil w).
Proof. exact (watermark_exact wm_example wm_example_wf). Defined.

(** On that history the watermark stops at 5: both begins of 4 and 5 are done, 6 is not. *)
Example wm_example_runs :
  (fun w => (doneUntil w, elements (closed w), indices w))
    <$> replay (mark_of <$> wm_example) WaterMark_Init = Some (5, [0%nat], [6]).
Proof. by vm_compute. Qed.
