(* ===== verification/Oracle.v ===== *)
(** * Oracle: timestamps and conflict detection (txn.go)

    The [oracle] hands out read and commit timestamps, remembers the keys recent transactions
    wrote, and prunes that memory by the [readMark] watermark.  Each method below is one
    critical section under the oracle's lock.  A failed [AssertTrue] or a [panic] is [None].

    The second half is the concurrent system the oracle lives in: transactions that start,
    wait, read, write, commit and are discarded in any order, while the goroutines of the two
    watermarks take marks off their channels at any time.  The oracle of a managed database, whose
    user chooses the timestamps, has a step relation of its own. *)

From S2P Require Import Prelude Keys Codec Watermark.

(** ** The transaction record (txn.go) *)

Record Txn : Type := mkTxn {
  readTs : Z;
  commitTs : Z;
  tsize : Z;
  tcount : Z;
  reads : list Z;
  conflictKeys : gset Z;
  pendingWrites : gmap (list byte) Entry;
  duplicateWrites : list Entry;
  numIterators : Z;
  discarded : bool;
  doneRead : bool;
  update : bool
}.

Definition set_readTs (t : Txn) (ts : Z) : Txn :=
  mkTxn ts (commitTs t) (tsize t) (tcount t) (reads t) (conflictKeys t) (pendingWrites t)
    (duplicateWrites t) (numIterators t) (discarded t) (doneRead t) (update t).

Definition set_doneRead (t : Txn) : Txn :=
  mkTxn (readTs t) (commitTs t) (tsize t) (tcount t) (reads t) (conflictKeys t)
    (pendingWrites t) (duplicateWrites t) (numIterators t) (discarded t) true (update t).

Definition set_discarded (t : Txn) : Txn :=
  mkTxn (readTs t) (commitTs t) (tsize t) (tcount t) (reads t) (conflictKeys t)
    (pendingWrites t) (duplicateWrites t) (numIterators t) true (doneRead t) (update t).

Definition add_read (t : Txn) (fp : Z) : Txn :=
  mkTxn (readTs t) (commitTs t) (tsize t) (tcount t) (reads t ++ [fp]) (conflictKeys t)
    (pendingWrites t) (duplicateWrites t) (numIterators t) (discarded t) (doneRead t) (update t).

Definition add_conflictKey (t : Txn) (fp : Z) : Txn :=
  mkTxn (readTs t) (commitTs t) (tsize t) (tcount t) (reads t) ({[fp]} ∪ conflictKeys t)
    (pendingWrites t) (duplicateWrites t) (numIterators t) (discarded t) (doneRead t) (update t).

(** ** The oracle *)

Record committedTxn : Type := mkCommitted { cts : Z; ckeys : gset Z }.

Record oracle : Type := mkOracle {
  isManaged : bool;
  detectConflicts : bool;
  nextTxnTs : Z;
  txnMark : WaterMark;
  discardTs : Z;
  readMark : WaterMark;
  committedTxns : list committedTxn;
  lastCleanupTs : Z
}.

Definition set_nextTxnTs (o : oracle) (n : Z) : oracle :=
  mkOracle (isManaged o) (detectConflicts o) n (txnMark o) (discardTs o) (readMark o)
    (committedTxns o) (lastCleanupTs o).
Definition set_txnMark (o : oracle) (w : WaterMark) : oracle :=
  mkOracle (isManaged o) (detectConflicts o) (nextTxnTs o) w (discardTs o) (readMark o)
    (committedTxns o) (lastCleanupTs o).
Definition set_readMark (o : oracle) (w : WaterMark) : oracle :=
  mkOracle (isManaged o) (detectConflicts o) (nextTxnTs o) (txnMark o) (discardTs o) w
    (committedTxns o) (lastCleanupTs o).
Definition set_oDiscardTs (o : oracle) (ts : Z) : oracle :=
  mkOracle (isManaged o) (detectConflicts o) (nextTxnTs o) (txnMark o) ts (readMark o)
    (committedTxns o) (lastCleanupTs o).
Definition set_committed (o : oracle) (l : list committedTxn) (cleanup : Z) : oracle :=
  mkOracle (isManaged o) (detectConflicts o) (nextTxnTs o) (txnMark o) (discardTs o)
    (readMark o) l cleanup.

Definition newOracle (managed detect : bool) : oracle :=
  mkOracle managed detect 0 WaterMark_Init 0 WaterMark_Init [] 0.

(** The locked part of [readTs]. *)
Definition oracle_readTs (o : oracle) : option (Z * oracle) :=
  if isManaged o then None
  else
    let ts := u64 (nextTxnTs o - 1) in
    Some (ts, set_readMark o (Begin (readMark o) ts)).

(** Its wait for the commits at or below [ts]: true when it returns at once. *)
Definition oracle_wait (o : oracle) (ts : Z) (ch : nat) : bool * oracle :=
  let '(now, w) := WaitForMark (txnMark o) ts ch in (now, set_txnMark o w).

Definition nextTs (o : oracle) : Z := nextTxnTs o.

Definition incrementNextTs (o : oracle) : oracle := set_nextTxnTs o (u64 (nextTxnTs o + 1)).

Definition discardAtOrBelow (o : oracle) : Z :=
  if isManaged o then discardTs o else doneUntil (readMark o).

Definition cleanupCommittedTransactions (o : oracle) : option oracle :=
  if detectConflicts o then
    let maxReadTs := if isManaged o then discardTs o else doneUntil (readMark o) in
    if bool_decide (lastCleanupTs o <= maxReadTs) then
      if bool_decide (maxReadTs = lastCleanupTs o) then Some o
      else Some (set_committed o
                   (filter (fun txn => ~ cts txn <= maxReadTs) (committedTxns o)) maxReadTs)
    else None (* AssertTrue *)
  else Some o.

Definition setDiscardTs (o : oracle) (ts : Z) : option oracle :=
  cleanupCommittedTransactions (set_oDiscardTs o ts).

Definition hasConflict (o : oracle) (txn : Txn) : bool :=
  if bool_decide (reads txn = []) then false
  else existsb (fun c => negb (bool_decide (cts c <= readTs txn)) &&
                 existsb (fun ro => bool_decide (ro ∈ ckeys c)) (reads txn)) (committedTxns o).

Definition oracle_doneRead (o : oracle) (txn : Txn) : oracle * Txn :=
  if doneRead txn then (o, txn)
  else (set_readMark o (Done (readMark o) (readTs txn)), set_doneRead txn).

(** The commit timestamp, whether there is a conflict, and the new states. *)
Definition newCommitTs (o : oracle) (txn : Txn) : option (Z * bool * oracle * Txn) :=
  if hasConflict o txn then Some (0, true, o, txn)
  else
    '(ts, o, txn) ←
      (if isManaged o then Some (commitTs txn, o, txn)
       else
         let '(o, txn) := oracle_doneRead o txn in
         o ← cleanupCommittedTransactions o;
         let ts := nextTxnTs o in
         let o := set_nextTxnTs o (u64 (nextTxnTs o + 1)) in
         let o := set_txnMark o (Begin (txnMark o) ts) in
         Some (ts, o, txn));
    if bool_decide (lastCleanupTs o <= ts) then
      let o := if detectConflicts o
               then set_committed o (committedTxns o ++ [mkCommitted ts (conflictKeys txn)])
                      (lastCleanupTs o)
               else o in
      Some (ts, false, o, txn)
    else None (* AssertTrue *).

Definition doneCommit (o : oracle) (ts : Z) : oracle :=
  if isManaged o then o else set_txnMark o (Done (txnMark o) ts).

(** [Open]: [nextTxnTs] is the largest version found, both watermarks are told it is done, and
    the counter moves past it. *)
Definition Open_oracle (managed detect : bool) (maxVersion : Z) : oracle :=
  let o := set_nextTxnTs (newOracle managed detect) maxVersion in
  let o := set_txnMark o (Done (txnMark o) (nextTxnTs o)) in
  let o := set_readMark o (Done (readMark o) (nextTxnTs o)) in
  incrementNextTs o.

(** ** The system: transactions, the oracle and the watermarks' goroutines *)

Inductive phase : Type :=
  | Starting            (* has its read timestamp, has not called WaitForMark yet *)
  | Waiting             (* blocked in WaitForMark *)
  | Running
  | Committing (ts : Z) (* has its commit timestamp, its writes are under way *)
  | Finished.

#[export] Instance phase_eq_decision : EqDecision phase.
Proof. solve_decision. Defined.

(** What a successful commit leaves behind. *)
Record commit : Type := mkCommit {
  c_ts : Z; c_readTs : Z; c_reads : list Z; c_keys : gset Z
}.

Record sys : Type := mkSys {
  orc : oracle;
  txns : gmap nat (phase * Txn);
  history : list commit
}.

Inductive action : Type :=
  | ANew (id : nat) (upd : bool)
  | AWait (id : nat)
  | AWoken (id : nat)
  | ARead (id : nat) (fp : Z)
  | AWrite (id : nat) (fp : Z)
  | ACommit (id : nat)
  | ADoneCommit (id : nat)
  | ADiscard (id : nat)
  | AProcessRead
  | AProcessTxn.

Inductive outcome (A : Type) : Type :=
  | Stepped (a : A)
  | Disabled
  | Panicked.
Arguments Stepped {A} a.
Arguments Disabled {A}.
Arguments Panicked {A}.

Definition or_panic {A} (o : option A) : outcome A :=
  match o with Some a => Stepped a | None => Panicked end.

Definition new_txn (ts : Z) (upd : bool) : Txn :=
  mkTxn ts 0 (len txnKey + 10) 1 [] ∅ ∅ [] 0 false false upd.

Definition set_txn (s : sys) (id : nat) (p : phase) (t : Txn) : sys :=
  mkSys (orc s) (<[id := (p, t)]> (txns s)) (history s).
Definition set_orc (s : sys) (o : oracle) : sys := mkSys o (txns s) (history s).

(** One action.  [ANew] up to the wait is [newTransaction]; [ADoneCommit] is the end of the
    callback [commitAndSend] returns, once the writes are in the LSM tree; a timestamp counter
    about to overflow disables [ACommit]. *)
Definition step (s : sys) (a : action) : outcome sys :=
  match a with
  | ANew id upd =>
      match txns s !! id with
      | Some _ => Disabled
      | None =>
          match oracle_readTs (orc s) with
          | Some (ts, o) => Stepped (set_txn (set_orc s o) id Starting (new_txn ts upd))
          | None => Panicked
          end
      end
  | AWait id =>
      match txns s !! id with
      | Some (Starting, t) =>
          let '(now, o) := oracle_wait (orc s) (readTs t) id in
          Stepped (set_txn (set_orc s o) id (if now then Running else Waiting) t)
      | _ => Disabled
      end
  | AWoken id =>
      match txns s !! id with
      | Some (Waiting, t) =>
          if bool_decide (id ∈ closed (txnMark (orc s))) then Stepped (set_txn s id Running t)
          else Disabled
      | _ => Disabled
      end
  | ARead id fp =>
      match txns s !! id with
      | Some (Running, t) =>
          if discarded t then Disabled
          else if update t then Stepped (set_txn s id Running (add_read t fp)) else Disabled
      | _ => Disabled
      end
  | AWrite id fp =>
      match txns s !! id with
      | Some (Running, t) =>
          if discarded t then Disabled
          else if update t then
            Stepped (set_txn s id Running
                       (if detectConflicts (orc s) then add_conflictKey t fp else t))
          else Disabled
      | _ => Disabled
      end
  | ACommit id =>
      match txns s !! id with
      | Some (Running, t) =>
          if discarded t then Disabled
          else if update t then
            if bool_decide (MaxUint64 <= nextTxnTs (orc s) + 1) then Disabled
            else
              match newCommitTs (orc s) t with
              | None => Panicked
              | Some (_, true, o, t) => Stepped (set_txn (set_orc s o) id Running t)
              | Some (ts, false, o, t) =>
                  Stepped (mkSys o (<[id := (Committing ts, t)]> (txns s))
                    (history s ++ [mkCommit ts (readTs t) (reads t) (conflictKeys t)]))
              end
          else Disabled
      | _ => Disabled
      end
  | ADoneCommit id =>
      match txns s !! id with
      | Some (Committing ts, t) =>
          Stepped (set_txn (set_orc s (doneCommit (orc s) ts)) id Finished t)
      | _ => Disabled
      end
  | ADiscard id =>
      match txns s !! id with
      | Some (Starting, _) | Some (Waiting, _) | None => Disabled
      | Some (p, t) =>
          if discarded t then Disabled
          else
            let '(o, t) := oracle_doneRead (orc s) (set_discarded t) in
            Stepped (set_txn (set_orc s o) id p t)
      end
  | AProcessRead =>
      match process (readMark (orc s)) with
      | Some w => Stepped (set_orc s (set_readMark (orc s) w))
      | None => Panicked
      end
  | AProcessTxn =>
      match process (txnMark (orc s)) with
      | Some w => Stepped (set_orc s (set_txnMark (orc s) w))
      | None => Panicked
      end
  end.

Definition sys_init (maxVersion : Z) : sys := mkSys (Open_oracle false true maxVersion) ∅ [].

Inductive reachable (maxVersion : Z) : sys -> Prop :=
  | reach_init : reachable maxVersion (sys_init maxVersion)
  | reach_step s a s' :
      reachable maxVersion s -> step s a = Stepped s' -> reachable maxVersion s'.

(** ** The oracle of a managed database

    The user chooses the timestamps: of reads, which the oracle never hears of, of commits, and
    the one below which versions may be discarded. *)

Inductive managed_action : Type :=
  | MSetDiscardTs (ts : Z)
  | MCommit (t : Txn)
  | MDoneCommit (ts : Z)
  | MProcessRead
  | MProcessTxn.

Definition managed_step (o : oracle) (a : managed_action) : outcome oracle :=
  match a with
  | MSetDiscardTs ts => or_panic (setDiscardTs o ts)
  | MCommit t => or_panic ('(_, _, o, _) ← newCommitTs o t; Some o)
  | MDoneCommit ts => Stepped (doneCommit o ts)
  | MProcessRead => or_panic (set_readMark o <$> process (readMark o))
  | MProcessTxn => or_panic (set_txnMark o <$> process (txnMark o))
  end.

(** The timestamps are numbers of Go's [uint64]. *)
Definition managed_wf (a : managed_action) : Prop :=
  match a with
  | MSetDiscardTs ts => 0 <= ts <= MaxUint64
  | MCommit t => 0 <= commitTs t <= MaxUint64
  | _ => True
  end.

Inductive managed_reachable (detect : bool) (maxVersion : Z) : oracle -> Prop :=
  | mreach_init : managed_reachable detect maxVersion (Open_oracle true detect maxVersion)
  | mreach_step o a o' : managed_reachable detect maxVersion o -> managed_wf a ->
      managed_step o a = Stepped o' -> managed_reachable detect maxVersion o'.

(** ** Counting transactions *)

Section Counting.
Context (P : phase * Txn -> Prop) `{!forall x, Decision (P x)}.

Definition how_many (m : gmap nat (phase * Txn)) : Z :=
  Z.of_nat (size (filter (fun kv => P kv.2) m)).

Lemma how_many_delete m k :
  how_many m = how_many (delete k m)
               + match m !! k with Some x => if decide (P x) then 1 else 0 | None => 0 end.
Proof.
  unfold how_many. destruct (m !! k) as [x|] eqn:E.
  - rewrite <- (insert_delete_id m k x E) at 1.
    case_decide as HP.
    + rewrite map_filter_insert_True by done.
      rewrite map_size_insert_None; [lia|].
      apply map_lookup_filter_None. left. apply lookup_delete_eq.
    + rewrite map_filter_insert_False by done. rewrite delete_delete_eq. lia.
  - rewrite delete_id by done. lia.
Qed.

Lemma how_many_insert m k x :
  how_many (<[k := x]> m) = how_many m
    - match m !! k with Some y => if decide (P y) then 1 else 0 | None => 0 end
    + (if decide (P x) then 1 else 0).
Proof.
  rewrite (how_many_delete (<[k:=x]> m) k), lookup_insert_eq, delete_insert_eq.
  rewrite (how_many_delete m k). lia.
Qed.

Lemma how_many_same m k x y :
  m !! k = Some x -> (P x <-> P y) -> how_many (<[k := y]> m) = how_many m.
Proof.
  intros Hk HP. rewrite how_many_insert, Hk. repeat case_decide; lia || tauto.
Qed.

Lemma how_many_pos m k x : m !! k = Some x -> P x -> 0 < how_many m.
Proof.
  intros Hk HP. rewrite (how_many_delete m k), Hk. rewrite decide_True by done.
  unfold how_many. lia.
Qed.

Lemma how_many_pos_inv m : 0 < how_many m -> exists k x, m !! k = Some x /\ P x.
Proof.
  unfold how_many. intros Hpos.
  destruct (map_choose (filter (fun kv => P kv.2) m)) as (k & x & Hx).
  { intros E. rewrite E, map_size_empty in Hpos. lia. }
  apply map_lookup_filter_Some in Hx. exists k, x. done.
Qed.
End Counting.

(** ** The invariant *)

(** A transaction whose read timestamp still holds [readMark] back. *)
Definition reader (i : Z) (x : phase * Txn) : Prop := doneRead x.2 = false /\ readTs x.2 = i.
(** A commit whose writes are not all visible yet. *)
Definition inflight (i : Z) (x : phase * Txn) : Prop := x.1 = Committing i.

#[export] Instance reader_dec i x : Decision (reader i x).
Proof. unfold reader. apply _. Defined.
#[export] Instance inflight_dec i x : Decision (inflight i x).
Proof. unfold inflight. apply _. Defined.

Definition read_inv (w : WaterMark) (next : Z) (m : gmap nat (phase * Txn)) : Prop :=
  exists tr q, mark_inv w tr q /\
    (forall i, count (tr ++ q) i = how_many (reader i) m) /\
    (forall i, i ∈ idxs (tr ++ q) -> i < next).

Definition txn_inv (w : WaterMark) (next : Z) (m : gmap nat (phase * Txn)) : Prop :=
  exists tr q, mark_inv w tr q /\ begins_increasing (tr ++ q) /\ above w /\
    (forall i, count (tr ++ q) i = how_many (inflight i) m) /\
    (forall i, i ∈ idxs (tr ++ q) -> i < next) /\
    (forall i c, EvWait i c ∈ tr ++ q -> exists p t, m !! c = Some (p, t) /\ readTs t = i).

Record txn_ok (next : Z) (m : gmap nat (phase * Txn)) (x : phase * Txn) : Prop := {
  to_ts : 0 <= readTs x.2 < next;
  to_active : x.1 = Starting \/ x.1 = Waiting \/ x.1 = Running ->
              discarded x.2 = false -> doneRead x.2 = false;
  to_fresh : x.1 = Starting \/ x.1 = Waiting -> discarded x.2 = false;
  to_visible : x.1 = Running -> forall ts id t, m !! id = Some (Committing ts, t) -> readTs x.2 < ts;
  to_commit : forall ts, x.1 = Committing ts -> 0 < ts < next
}.

Definition txns_ok (next : Z) (m : gmap nat (phase * Txn)) : Prop :=
  forall id x, m !! id = Some x -> txn_ok next m x.

Record hist_inv (o : oracle) (h : list commit) : Prop := {
  hi_ts : StronglySorted (fun a b => c_ts a < c_ts b) h;
  hi_next : forall c, c ∈ h -> c_ts c < nextTxnTs o;
  hi_cleanup : lastCleanupTs o <= doneUntil (readMark o);
  hi_memory : forall c, c ∈ h -> lastCleanupTs o < c_ts c ->
                mkCommitted (c_ts c) (c_keys c) ∈ committedTxns o;
  hi_sound : forall k, k ∈ committedTxns o ->
               exists c, c ∈ h /\ k = mkCommitted (c_ts c) (c_keys c);
  hi_ssi : forall c c', c ∈ h -> c' ∈ h -> c_readTs c < c_ts c' < c_ts c ->
             forall fp, fp ∈ c_reads c -> fp ∉ c_keys c'
}.

Record sys_inv (s : sys) : Prop := {
  si_mode : isManaged (orc s) = false /\ detectConflicts (orc s) = true;
  si_next : 0 < nextTxnTs (orc s) < MaxUint64;
  si_read : read_inv (readMark (orc s)) (nextTxnTs (orc s)) (txns s);
  si_txn : txn_inv (txnMark (orc s)) (nextTxnTs (orc s)) (txns s);
  si_txns : txns_ok (nextTxnTs (orc s)) (txns s);
  si_hist : hist_inv (orc s) (history s)
}.

Lemma sys_inv_init N : 0 <= N < MaxUint64 - 1 -> sys_inv (sys_init N).
Proof.
  intros HN. unfold sys_init, Open_oracle, incrementNextTs. simpl.
  assert (u64 (N + 1) = N + 1) as EN by (apply u64_small; lia). 
  assert (mark_inv (Done WaterMark_Init N) [] [EvDone N]) as Hm.
  { apply (mark_inv_send _ [] [] (EvDone N)).
    - split; [constructor|apply trace_inv_init|done].
    - split; [lia|by left]. }
  assert (forall i, count ([] ++ [EvDone N]) i = 0) as Hc.
  { intros i. unfold count. simpl. case_bool_decide; lia. }
  assert (forall i, i ∈ idxs ([] ++ [EvDone N]) -> i < N + 1) as Hi.
  { intros i Hi. apply list_elem_of_singleton in Hi. lia. }
  split; simpl; rewrite ?EN.
  - done.
  - lia.
  - exists [], [EvDone N]. split_and!; [done| |done]. intros i. by rewrite Hc.
  - exists [], [EvDone N]. split_and!; [done| | | |done|].
    + intros [|a [|? ?]] i b; simpl; by intros [=].
    + intros i [? E]. simpl in E. by apply lookup_empty_Some in E.
    + intros i. by rewrite Hc.
    + intros i c Hin. by apply list_elem_of_singleton in Hin.
  - intros id x E. by apply lookup_empty_Some in E.
  - split; simpl; try (by intros c Hin; apply elem_of_nil in Hin).
    + constructor.
    + done.
    + intros c c' Hin. by apply elem_of_nil in Hin.
Qed.

(** ** Preservation, the parts *)

(** Replacing a transaction by one with the same claim on the watermarks. *)
Lemma read_inv_update w next m id p t p' t' :
  m !! id = Some (p, t) -> doneRead t' = doneRead t -> readTs t' = readTs t ->
  read_inv w next m -> read_inv w next (<[id := (p', t')]> m).
Proof.
  intros Hid Hd Hr (tr & q & Hm & Hc & Hi). exists tr, q. split_and!; [done| |done].
  intros i. rewrite (how_many_same _ m id (p, t)); [done|done|].
  unfold reader. simpl. by rewrite Hd, Hr.
Qed.

Lemma txn_inv_update w next m id p t p' t' :
  m !! id = Some (p, t) -> (forall ts, p = Committing ts <-> p' = Committing ts) ->
  readTs t' = readTs t ->
  txn_inv w next m -> txn_inv w next (<[id := (p', t')]> m).
Proof.
  intros Hid Hp Hr (tr & q & Hm & Hb & Ha & Hc & Hi & Hw).
  exists tr, q. split_and!; try done.
  - intros i. rewrite (how_many_same _ m id (p, t)); [done|done|apply Hp].
  - intros i c Hin. destruct (Hw i c Hin) as (p0 & t0 & E & <-).
    destruct (decide (id = c)) as [->|Hne].
    + exists p', t'. rewrite lookup_insert_eq. split; [done|]. congruence.
    + exists p0, t0. by rewrite lookup_insert_ne.
Qed.

(** No transaction that was not committing starts to by being replaced. *)
Lemma txns_ok_update next m id p t p' t' :
  m !! id = Some (p, t) -> (forall ts, p' = Committing ts -> p = Committing ts) ->
  txn_ok next m (p', t') -> txns_ok next m -> txns_ok next (<[id := (p', t')]> m).
Proof.
  intros Hid Hp Hx Hall k x Hk.
  assert (forall ts j u, <[id := (p', t')]> m !! j = Some (Committing ts, u) ->
            exists u', m !! j = Some (Committing ts, u')) as Hcomm.
  { intros ts j u Hj. apply lookup_insert_Some in Hj as [[<- [= -> ->]]|[_ Hj]]; [|eauto].
    rewrite (Hp ts eq_refl) in Hid. eauto. }
  assert (txn_ok next m x) as [H1 H2 H3 H4 H5].
  { apply lookup_insert_Some in Hk as [[_ <-]|[_ Hk]]; [done|by apply (Hall k)]. }
  split; try done. intros Hr ts j u Hj. destruct (Hcomm _ _ _ Hj) as [u' Hj']. by apply (H4 Hr ts j u').
Qed.

Lemma txn_ok_next next next' m x : next <= next' -> txn_ok next m x -> txn_ok next' m x.
Proof.
  intros Hle [H1 H2 H3 H4 H5]. split; try done; [lia|]. intros ts Hts. specialize (H5 ts Hts). lia.
Qed.

Lemma read_inv_process w next m :
  read_inv w next m ->
  exists w', process w = Some w' /\ read_inv w' next m /\ doneUntil w <= doneUntil w'.
Proof.
  intros (tr & q & Hm & Hc & Hi).
  destruct (mark_inv_process _ _ _ Hm) as (w' & tr' & q' & E & Hm' & Eq & Hmono & _).
  exists w'. split_and!; try done. exists tr', q'. by rewrite Eq.
Qed.

Lemma txn_inv_process w next m :
  txn_inv w next m -> exists w', process w = Some w' /\ txn_inv w' next m.
Proof.
  intros (tr & q & Hm & Hb & Ha & Hrest).
  destruct (mark_inv_process _ _ _ Hm) as (w' & tr' & q' & E & Hm' & Eq & Hmono & Hab).
  exists w'. split; [done|]. exists tr', q'. rewrite Eq. auto.
Qed.

(** [readMark] never passes the read timestamp of a transaction that may still commit. *)
Lemma read_inv_bound w next m id x :
  read_inv w next m -> m !! id = Some x -> doneRead x.2 = false -> doneUntil w <= readTs x.2.
Proof.
  intros (tr & q & Hm & Hc & Hi) Hid Hd. apply (mark_inv_active w tr q); [done|].
  rewrite Hc. eapply how_many_pos; [done|]. by split.
Qed.

(** [txnMark] stays strictly below every commit whose writes are not visible yet. *)
Lemma txn_inv_bound w next m id ts t :
  txn_inv w next m -> m !! id = Some (Committing ts, t) -> doneUntil w < ts.
Proof.
  intros (tr & q & Hm & Hb & Ha & Hc & Hi & Hw) Hid.
  apply (mark_inv_active_strict w tr q); [done..|].
  rewrite Hc. by eapply how_many_pos.
Qed.

Lemma read_inv_du w next m :
  0 < next -> read_inv w next m -> 0 <= doneUntil w < next.
Proof.
  intros Hn (tr & q & Hm & Hc & Hi). destruct (mark_inv_du _ _ _ Hm) as [? [->|Hd]]; [lia|].
  apply Hi in Hd. lia.
Qed.

(** ** Preservation, conflict detection and clean-up *)

Lemma hist_inv_ext o o' h :
  nextTxnTs o <= nextTxnTs o' -> lastCleanupTs o' = lastCleanupTs o ->
  committedTxns o' = committedTxns o -> doneUntil (readMark o) <= doneUntil (readMark o') ->
  hist_inv o h -> hist_inv o' h.
Proof.
  intros E1 E2 E3 E4 [H1 H2 H3 H4 H5 H6]. split; rewrite ?E2, ?E3; try done.
  - intros c Hc. specialize (H2 c Hc). lia.
  - lia.
Qed.

(** [hasConflict] is true exactly when a remembered commit after the snapshot wrote a key that
    was read. *)
Lemma hasConflict_true o t :
  hasConflict o t = true <->
  (exists c fp, c ∈ committedTxns o /\ readTs t < cts c /\ fp ∈ reads t /\ fp ∈ ckeys c).
Proof.
  unfold hasConflict. case_bool_decide as Hr.
  { split; [done|]. intros (c & fp & _ & _ & Hfp & _). rewrite Hr in Hfp.
    by apply elem_of_nil in Hfp. }
  rewrite existsb_exists. split.
  - intros (c & Hc%list_elem_of_In & Hx). apply andb_true_iff in Hx as [Hlt Hx].
    apply negb_true_iff, bool_decide_eq_false in Hlt.
    apply existsb_exists in Hx as (fp & Hfp%list_elem_of_In & Hin%bool_decide_eq_true).
    exists c, fp. split_and!; [done|lia|done|done].
  - intros (c & fp & Hc & Hlt & Hfp & Hin). exists c. split; [by apply list_elem_of_In|].
    rewrite bool_decide_eq_false_2 by lia. simpl. apply existsb_exists. exists fp.
    split; [by apply list_elem_of_In|]. by apply bool_decide_eq_true_2.
Qed.

Lemma hasConflict_false o t :
  hasConflict o t = false <->
  (forall c fp, c ∈ committedTxns o -> readTs t < cts c -> fp ∈ reads t -> fp ∉ ckeys c).
Proof.
  rewrite <- not_true_iff_false, hasConflict_true. naive_solver.
Qed.

(** Pruning forgets only commits that every remaining and future reader can see. *)
Lemma cleanup_spec o h :
  isManaged o = false -> detectConflicts o = true -> hist_inv o h ->
  exists o', cleanupCommittedTransactions o = Some o' /\ hist_inv o' h /\
    isManaged o' = false /\ detectConflicts o' = true /\ nextTxnTs o' = nextTxnTs o /\
    readMark o' = readMark o /\ txnMark o' = txnMark o /\
    lastCleanupTs o' = doneUntil (readMark o).
Proof.
  intros Hm Hd [H1 H2 H3 H4 H5 H6]. unfold cleanupCommittedTransactions.
  rewrite Hm, Hd, bool_decide_eq_true_2 by done.
  case_bool_decide as Heq; (eexists; split; [done|]).
  - split_and!; done.
  - split_and!; simpl; try done. split; simpl; try done.
    + intros c Hc Hlt. apply list_elem_of_filter. simpl. split; [lia|]. apply H4; [done|lia].
    + intros k [_ Hk]%list_elem_of_filter. by apply H5.
Qed.

Lemma newCommitTs_spec o t h :
  isManaged o = false -> detectConflicts o = true ->
  0 < nextTxnTs o -> nextTxnTs o + 1 < MaxUint64 -> doneRead t = false ->
  0 <= doneUntil (readMark o) < nextTxnTs o -> doneUntil (readMark o) <= readTs t ->
  readTs t < nextTxnTs o -> hist_inv o h ->
  newCommitTs o t = Some (0, true, o, t) \/
  exists o', newCommitTs o t = Some (nextTxnTs o, false, o', set_doneRead t) /\
    isManaged o' = false /\ detectConflicts o' = true /\ nextTxnTs o' = nextTxnTs o + 1 /\
    readMark o' = Done (readMark o) (readTs t) /\
    txnMark o' = Begin (txnMark o) (nextTxnTs o) /\
    hist_inv o' (h ++ [mkCommit (nextTxnTs o) (readTs t) (reads t) (conflictKeys t)]).
Proof.
  intros Hm Hd Hn0 Hn Hdr Hdu Hbd Hrt Hh. unfold newCommitTs.
  destruct (hasConflict o t) eqn:Hc; [by left|right].
  pose proof (proj1 (hasConflict_false o t) Hc) as Hfree.
  rewrite Hm. unfold oracle_doneRead. rewrite Hdr.
  set (o1 := set_readMark o (Done (readMark o) (readTs t))).
  assert (hist_inv o1 h) as Hh1 by (by apply (hist_inv_ext o)).
  destruct (cleanup_spec o1 h Hm Hd Hh1) as (o2 & -> & Hh2 & Hm2 & Hd2 & Hn2 & Hr2 & Ht2 & Hl2).
  cbn [mbind option_bind set_txnMark set_nextTxnTs lastCleanupTs detectConflicts].
  rewrite Hl2, Hd2, Hn2. simpl. rewrite bool_decide_eq_true_2 by lia.
  rewrite u64_small by lia. eexists. split; [done|]. simpl.
  rewrite Hr2, Ht2. split_and!; try done.
  destruct Hh2 as [H1 H2 H3 H4 H5 H6], Hh as [G1 G2 G3 G4 G5 G6].
  rewrite Hn2 in H2. simpl in H2.
  split; simpl; rewrite ?Hr2; simpl; try done.
  - apply StronglySorted_app_2; [|done|repeat constructor].
    intros a b Ha Hb. apply list_elem_of_singleton in Hb as ->. simpl. by apply H2.
  - intros c [Hc'|Hc']%elem_of_app; [specialize (H2 c Hc'); lia|].
    apply list_elem_of_singleton in Hc' as ->. simpl. lia.
  - intros c [Hc'|Hc']%elem_of_app Hlt; apply elem_of_app; [left; apply H4; [done|by rewrite Hl2]|right].
    apply list_elem_of_singleton in Hc' as ->. by apply list_elem_of_singleton.
  - intros k [Hk|Hk]%elem_of_app.
    + destruct (H5 k Hk) as (c & Hc' & ->). exists c. split; [apply elem_of_app; auto|done].
    + apply list_elem_of_singleton in Hk as ->.
      exists (mkCommit (nextTxnTs o) (readTs t) (reads t) (conflictKeys t)). split; [|done].
      apply elem_of_app; right. by apply list_elem_of_singleton.
  - intros c c' Hin Hin' Hb fp Hfp.
    apply elem_of_app in Hin as [Hin|Hin]; apply elem_of_app in Hin' as [Hin'|Hin'].
    + by apply (H6 c c').
    + apply list_elem_of_singleton in Hin' as ->. simpl in Hb. specialize (H2 c Hin). lia.
    + apply list_elem_of_singleton in Hin as ->. simpl in Hb, Hfp.
      apply (Hfree (mkCommitted (c_ts c') (c_keys c')) fp); simpl; [|lia|done].
      apply G4; [done|lia].
    + apply list_elem_of_singleton in Hin as ->. apply list_elem_of_singleton in Hin' as ->.
      simpl in Hb. lia.
Qed.

(** ** Preservation, action by action *)

Lemma step_new s id upd :
  sys_inv s -> txns s !! id = None ->
  exists ts o, oracle_readTs (orc s) = Some (ts, o) /\
    sys_inv (set_txn (set_orc s o) id Starting (new_txn ts upd)).
Proof.
  intros [[Hm Hd] Hn Hr Ht Htx Hh] Hid. unfold oracle_readTs. rewrite Hm.
  rewrite u64_small by lia. eexists _, _. split; [done|].
  set (ts := nextTxnTs (orc s) - 1). split; simpl; try done.
  - destruct Hr as (tr & q & Hmi & Hc & Hi). exists tr, (q ++ [EvBegin ts]).
    rewrite app_assoc. split_and!.
    + apply mark_inv_Begin; [done|]. split; [lia|].
      intros j Hj%Hi. lia.
    + intros i. rewrite count_snoc, Hc, how_many_insert, Hid. unfold reader. simpl.
      repeat case_bool_decide; case_decide; lia || naive_solver.
    + intros i. rewrite idxs_snoc. intros [Hi'|Hi']%elem_of_app; [by apply Hi|].
      apply list_elem_of_singleton in Hi'. lia.
  - destruct Ht as (tr & q & Hmi & Hb & Ha & Hc & Hi & Hw). exists tr, q.
    split_and!; try done.
    + intros i. rewrite Hc, how_many_insert, Hid. rewrite decide_False by (unfold inflight; done). lia.
    + intros i c Hin. destruct (Hw i c Hin) as (p & t & E & ?). exists p, t.
      by rewrite lookup_insert_ne by congruence.
  - intros k x Hk. apply lookup_insert_Some in Hk as [[<- <-]|[Hne Hk]].
    + split; simpl; try done. lia.
    + destruct (Htx k x Hk) as [H1 H2 H3 H4 H5]. split; try done.
      intros Hx ts' id' t' Hid'. apply lookup_insert_Some in Hid' as [[_ [=]]|[_ Hid']].
      by apply (H4 Hx ts' id' t').
  - by apply (hist_inv_ext (orc s)).
Qed.

(** Reaching [Running]: every commit at or below the snapshot is visible. *)
Lemma running_ok s id p t :
  sys_inv s -> txns s !! id = Some (p, t) -> p = Starting \/ p = Waiting ->
  readTs t <= doneUntil (txnMark (orc s)) ->
  txns_ok (nextTxnTs (orc s)) (<[id := (Running, t)]> (txns s)).
Proof.
  intros [_ Hn Hr Ht Htx Hh] Hid Hp Hdu. eapply txns_ok_update; [done|done| |done].
  destruct (Htx id (p, t) Hid) as [H1 H2 H3 H4 H5]. simpl in *.
  split; simpl; try done.
  - intros _ Hdis. apply H2; tauto.
  - intros [|]; done.
  - intros _ ts id' t' Hid'. pose proof (txn_inv_bound _ _ _ _ _ _ Ht Hid'). lia.
Qed.

Lemma step_wait s id t :
  sys_inv s -> txns s !! id = Some (Starting, t) ->
  let '(now, o) := oracle_wait (orc s) (readTs t) id in
  sys_inv (set_txn (set_orc s o) id (if now then Running else Waiting) t).
Proof.
  intros Hinv Hid. unfold oracle_wait, WaitForMark. case_bool_decide as Hdu.
  - pose proof (running_ok s id Starting t Hinv Hid ltac:(auto) Hdu) as Hrun.
    destruct Hinv as [Hmd Hn Hr Ht Htx Hh]. split; simpl; try done.
    + by eapply read_inv_update.
    + by eapply txn_inv_update.
    + by apply (hist_inv_ext (orc s)).
  - destruct Hinv as [Hmd Hn Hr Ht Htx Hh]. split; simpl; try done.
    + by eapply read_inv_update.
    + eapply (txn_inv_update _ _ _ id Starting t Waiting t) in Ht; [|done|done|done].
      destruct Ht as (tr & q & Hmi & Hb & Ha & Hc & Hi & Hw).
      exists tr, (q ++ [EvWait (readTs t) id]). rewrite app_assoc. split_and!.
      * by apply (mark_inv_send _ _ _ (EvWait (readTs t) id)).
      * by apply begins_increasing_snoc.
      * done.
      * intros i. by rewrite count_snoc, Hc.
      * intros i. rewrite idxs_snoc, app_nil_r. apply Hi.
      * intros i c [Hin|Hin]%elem_of_app; [by apply Hw|].
        apply list_elem_of_singleton in Hin as [= -> ->]. rewrite lookup_insert_eq. eauto.
    + eapply txns_ok_update; [done|done| |done].
      destruct (Htx _ _ Hid) as [H1 H2 H3 H4 H5]. split; simpl in *; try done; auto.
    + by apply (hist_inv_ext (orc s)).
Qed.

Lemma step_woken s id t :
  sys_inv s -> txns s !! id = Some (Waiting, t) -> id ∈ closed (txnMark (orc s)) ->
  sys_inv (set_txn s id Running t).
Proof.
  intros Hinv Hid Hcl.
  assert (readTs t <= doneUntil (txnMark (orc s))) as Hdu.
  { destruct Hinv as [_ _ _ (tr & q & Hmi & Hb & Ha & Hc & Hi & Hw) _ _].
    apply (ti_closed _ _ (mi_trace _ _ _ Hmi)) in Hcl as (i & Hin & Hle).
    destruct (Hw i id) as (p0 & t0 & E & Hr); [apply elem_of_app; auto|].
    rewrite Hid in E. simplify_eq. lia. }
  pose proof (running_ok s id Waiting t Hinv Hid ltac:(auto) Hdu) as Hrun.
  destruct Hinv as [Hmd Hn Hr Ht Htx Hh]. split; simpl; try done.
  - by eapply read_inv_update.
  - by eapply txn_inv_update.
Qed.

(** Reads and writes only touch the transaction's own sets. *)
Lemma step_local s id t t' :
  sys_inv s -> txns s !! id = Some (Running, t) ->
  readTs t' = readTs t -> doneRead t' = doneRead t -> discarded t' = discarded t ->
  sys_inv (set_txn s id Running t').
Proof.
  intros [Hmd Hn Hr Ht Htx Hh] Hid E1 E2 E3. split; simpl; try done.
  - by eapply read_inv_update.
  - by eapply txn_inv_update.
  - eapply txns_ok_update; [done|done| |done].
    destruct (Htx _ _ Hid) as [H1 H2 H3 H4 H5]. split; simpl in *; rewrite ?E1, ?E2, ?E3; try done; auto.
Qed.

Lemma step_doneCommit s id ts t :
  sys_inv s -> txns s !! id = Some (Committing ts, t) ->
  sys_inv (set_txn (set_orc s (doneCommit (orc s) ts)) id Finished t).
Proof.
  intros [[Hm Hd] Hn Hr Ht Htx Hh] Hid. unfold doneCommit. rewrite Hm.
  destruct (Htx _ _ Hid) as [H1 H2 H3 H4 H5]. specialize (H5 ts eq_refl). simpl in *.
  split; simpl; try done.
  - by eapply read_inv_update.
  - destruct Ht as (tr & q & Hmi & Hb & Ha & Hc & Hi & Hw).
    exists tr, (q ++ [EvDone ts]). rewrite app_assoc.
    assert (0 < count (tr ++ q) ts) as Hpos by (rewrite Hc; by eapply how_many_pos).
    split_and!.
    + apply (mark_inv_send _ _ _ (EvDone ts)); [done|]. split; [lia|by right].
    + by apply begins_increasing_snoc.
    + done.
    + intros i. rewrite count_snoc. simpl. rewrite how_many_insert, Hid, <- Hc.
      rewrite (decide_False (P := inflight i (Finished, t))) by (unfold inflight; done).
      pose proof (count_nonneg (tr ++ q) i).
      case_bool_decide; case_decide as Hi'; unfold inflight in Hi'; simplify_eq/=; lia.
    + intros i. rewrite idxs_snoc. intros [Hi'|Hi']%elem_of_app; [by apply Hi|].
      apply list_elem_of_singleton in Hi'. lia.
    + intros i c [Hin|Hin]%elem_of_app; [|by apply list_elem_of_singleton in Hin].
      destruct (Hw i c Hin) as (p0 & t0 & E & Hrt). destruct (decide (id = c)) as [->|Hne].
      * rewrite lookup_insert_eq. exists Finished, t. split; [done|congruence].
      * exists p0, t0. by rewrite lookup_insert_ne.
  - eapply txns_ok_update; [done|done| |done]. split; simpl; naive_solver.
  - by apply (hist_inv_ext (orc s)).
Qed.

(** A reader that is done leaves [readMark]'s history balanced. *)
Lemma read_inv_done w next m id p t p' t' :
  m !! id = Some (p, t) -> doneRead t = false -> doneRead t' = true -> 0 <= readTs t < next ->
  next < MaxUint64 ->
  read_inv w next m -> read_inv (Done w (readTs t)) next (<[id := (p', t')]> m).
Proof.
  intros Hid Hdr Hdr' Hts Hn (tr & q & Hmi & Hc & Hi). exists tr, (q ++ [EvDone (readTs t)]).
  rewrite app_assoc.
  assert (0 < count (tr ++ q) (readTs t)) as Hpos
    by (rewrite Hc; by eapply (how_many_pos _ _ id)).
  split_and!.
  - apply (mark_inv_send _ _ _ (EvDone (readTs t))); [done|]. split; [lia|by right].
  - intros i. rewrite count_snoc. simpl. rewrite how_many_insert, Hid, <- Hc.
    rewrite (decide_False (P := reader i (p', t')))
      by (unfold reader; simpl; rewrite Hdr'; by intros [? _]).
    pose proof (count_nonneg (tr ++ q) i).
    case_bool_decide as Hi1; case_decide as Hi2.
    + subst i. lia.
    + destruct Hi2. by split.
    + destruct Hi1. by destruct Hi2 as [_ <-].
    + lia.
  - intros i. rewrite idxs_snoc. intros [Hi'|Hi']%elem_of_app; [by apply Hi|].
    apply list_elem_of_singleton in Hi'. lia.
Qed.

Lemma step_discard s id p t :
  sys_inv s -> txns s !! id = Some (p, t) -> p <> Starting -> p <> Waiting ->
  discarded t = false ->
  let '(o, t') := oracle_doneRead (orc s) (set_discarded t) in
  sys_inv (set_txn (set_orc s o) id p t').
Proof.
  intros [Hmd Hn Hr Ht Htx Hh] Hid Hp1 Hp2 Hdis. unfold oracle_doneRead. simpl.
  pose proof (Htx _ _ Hid) as [H1 H2 H3 H4 H5]. simpl in *.
  destruct (doneRead t) eqn:Edr.
  - split; simpl; try done.
    + eapply read_inv_update; [done|done|done|done].
    + eapply txn_inv_update; [done|done|done|done].
    + eapply txns_ok_update; [done|done| |done].
      split; simpl; try done. by intros [|].
  - split; simpl; try done.
    + eapply read_inv_done; [done|done|done|lia|lia|done].
    + eapply txn_inv_update; [done|done|done|done].
    + eapply txns_ok_update; [done|done| |done].
      split; simpl; try done. by intros [|].
    + by apply (hist_inv_ext (orc s)).
Qed.

(** A commit: the reader leaves [readMark], the new timestamp enters [txnMark], and the
    history grows by one conflict-free transaction. *)
Lemma step_commit s id t :
  sys_inv s -> txns s !! id = Some (Running, t) -> discarded t = false ->
  nextTxnTs (orc s) + 1 < MaxUint64 ->
  newCommitTs (orc s) t = Some (0, true, orc s, t) \/
  exists o, newCommitTs (orc s) t = Some (nextTxnTs (orc s), false, o, set_doneRead t) /\
    sys_inv (mkSys o (<[id := (Committing (nextTxnTs (orc s)), set_doneRead t)]> (txns s))
      (history s ++ [mkCommit (nextTxnTs (orc s)) (readTs t) (reads t) (conflictKeys t)])).
Proof.
  intros [[Hm Hd] Hn Hr Ht Htx Hh] Hid Hdis Hmax.
  destruct (Htx _ _ Hid) as [H1 H2 H3 H4 H5]. simpl in *.
  assert (doneRead t = false) as Hdr by auto.
  pose proof (read_inv_du _ _ _ (proj1 Hn) Hr) as Hdu.
  pose proof (read_inv_bound _ _ _ _ _ Hr Hid Hdr) as Hbd. simpl in Hbd.
  destruct (newCommitTs_spec (orc s) t (history s)) as [E|(o & E & Hm' & Hd' & Hn' & Hr' & Ht' & Hh')];
    try done; [lia|lia|by left|right].
  exists o. split; [done|]. set (next := nextTxnTs (orc s)) in *.
  split; simpl; rewrite ?Hn', ?Hr', ?Ht'; [done|lia|..|done].
  - assert (read_inv (readMark (orc s)) (next + 1) (txns s)) as Hr1.
    { destruct Hr as (tr & q & Hmi & Hc & Hi). exists tr, q. split_and!; [done..|].
      intros i Hi'%Hi. lia. }
    eapply read_inv_done; [done|done|done|lia|lia|done].
  - destruct Ht as (tr & q & Hmi & Hb & Ha & Hc & Hi & Hw).
    exists tr, (q ++ [EvBegin next]). rewrite app_assoc. split_and!.
    + apply mark_inv_Begin; [done|]. split; [lia|]. intros j Hj%Hi. lia.
    + apply begins_increasing_snoc. split; [done|]. intros i [= <-]. split; [lia|apply Hi].
    + done.
    + intros i. rewrite count_snoc. simpl. rewrite how_many_insert, Hid, <- Hc.
      rewrite (decide_False (P := inflight i (Running, t))) by (unfold inflight; done).
      case_bool_decide; case_decide as Hi'; unfold inflight in Hi'; simplify_eq/=; lia || done.
    + intros i. rewrite idxs_snoc. intros [Hi'|Hi']%elem_of_app; [apply Hi in Hi'; lia|].
      apply list_elem_of_singleton in Hi'. lia.
    + intros i c [Hin|Hin]%elem_of_app; [|by apply list_elem_of_singleton in Hin].
      destruct (Hw i c Hin) as (p0 & t0 & E0 & Hrt). destruct (decide (id = c)) as [->|Hne].
      * rewrite lookup_insert_eq. eexists _, _. split; [done|]. simpl. congruence.
      * exists p0, t0. by rewrite lookup_insert_ne.
  - intros k x Hk. apply lookup_insert_Some in Hk as [[<- <-]|[Hne Hk]].
    + split; simpl; try done; [lia|by intros [|[|]]|]. intros ts [= <-]. lia.
    + destruct (Htx k x Hk) as [G1 G2 G3 G4 G5]. split; try done; [lia| |].
      * intros Hx ts' id' t' Hid'. apply lookup_insert_Some in Hid' as [[_ [= <- _]]|[_ Hid']];
          [lia|by apply (G4 Hx ts' id' t')].
      * intros ts Hts. specialize (G5 ts Hts). lia.
Qed.

Lemma step_inv s a :
  sys_inv s ->
  match step s a with Stepped s' => sys_inv s' | Disabled => True | Panicked => False end.
Proof.
  intros Hinv. destruct a as [id upd|id|id|id fp|id fp|id|id|id| |]; simpl.
  - destruct (txns s !! id) as [x|] eqn:E; [done|].
    destruct (step_new s id upd Hinv E) as (ts & o & -> & ?). done.
  - destruct (txns s !! id) as [[[| | |ts|] t]|] eqn:E; try done.
    pose proof (step_wait s id t Hinv E) as H. destruct (oracle_wait _ _ _). done.
  - destruct (txns s !! id) as [[[| | |ts|] t]|] eqn:E; try done.
    case_bool_decide; [|done]. by apply step_woken.
  - destruct (txns s !! id) as [[[| | |ts|] t]|] eqn:E; try done.
    destruct (discarded t), (update t); try done. by eapply step_local.
  - destruct (txns s !! id) as [[[| | |ts|] t]|] eqn:E; try done.
    destruct (discarded t), (update t); try done.
    eapply step_local; [done|done|..]; by destruct (detectConflicts _).
  - destruct (txns s !! id) as [[[| | |ts|] t]|] eqn:E; try done.
    destruct (discarded t) eqn:Edis, (update t); try done. case_bool_decide as Hmax; [done|].
    destruct (step_commit s id t Hinv E Edis ltac:(lia)) as [->|(o & -> & Hc)].
    + assert (set_orc s (orc s) = s) as -> by (by destruct s). by eapply step_local.
    + done.
  - destruct (txns s !! id) as [[[| | |ts|] t]|] eqn:E; try done. by apply step_doneCommit.
  - destruct (txns s !! id) as [[[| | |ts|] t]|] eqn:E; try done;
      (destruct (discarded t) eqn:Edis; [done|]);
      pose proof (step_discard s id _ t Hinv E ltac:(done) ltac:(done) Edis) as H;
      by destruct (oracle_doneRead _ _).
  - destruct Hinv as [Hmd Hn Hr Ht Htx Hh].
    destruct (read_inv_process _ _ _ Hr) as (w & -> & Hr' & Hmono).
    split; simpl; try done. by apply (hist_inv_ext (orc s)).
  - destruct Hinv as [Hmd Hn Hr Ht Htx Hh].
    destruct (txn_inv_process _ _ _ Ht) as (w & -> & Ht').
    split; simpl; try done. by apply (hist_inv_ext (orc s)).
Qed.

Lemma reachable_inv N s : 0 <= N < MaxUint64 - 1 -> reachable N s -> sys_inv s.
Proof.
  intros HN. induction 1 as [|s a s' _ IH Hs]; [by apply sys_inv_init|].
  pose proof (step_inv s a IH) as Hst. by rewrite Hs in Hst.
Qed.

(** Running a list of actions; [None] unless every one is enabled. *)
Fixpoint run (s : sys) (l : list action) : option sys :=
  match l with
  | [] => Some s
  | a :: l => match step s a with Stepped s' => run s' l | _ => None end
  end.

Lemma run_reachable N s l s' : reachable N s -> run s l = Some s' -> reachable N s'.
Proof.
  revert s. induction l as [|a l IH]; simpl; intros s Hr Hl; [by simplify_eq|].
  destruct (step s a) as [s1| |] eqn:E; try done. eapply IH; [|done]. by eapply reach_step.
Qed.

(** ** The managed oracle *)

(** The calls that end the process. *)
Definition managed_fault (o : oracle) (a : managed_action) : Prop :=
  match a with
  | MSetDiscardTs ts => ts < discardTs o
  | MCommit t => hasConflict o t = false /\ commitTs t < discardTs o
  | _ => False
  end.

Record managed_inv (detect : bool) (o : oracle) : Prop := {
  mi_mode : isManaged o = true /\ detectConflicts o = detect;
  mi_cleanup : lastCleanupTs o = if detect then discardTs o else 0;
  mi_read : exists n, read_inv (readMark o) n ∅;
  mi_txn : exists n, read_inv (txnMark o) n ∅
}.

Lemma opened_mark_inv N : 0 <= N < MaxUint64 - 1 -> read_inv (Done WaterMark_Init N) (N + 1) ∅.
Proof.
  intros HN. assert (mark_inv (Done WaterMark_Init N) [] [EvDone N]) as Hm.
  { apply (mark_inv_send _ [] [] (EvDone N)); [split; [constructor|apply trace_inv_init|done]|]. split; [lia|by left]. }
  exists [], [EvDone N]. split_and!; [done| |].
  - intros i. transitivity 0; [|done]. unfold count. simpl. case_bool_decide; lia.
  - intros i Hi. apply list_elem_of_singleton in Hi. lia.
Qed.

Lemma managed_inv_init detect N : 0 <= N < MaxUint64 - 1 -> managed_inv detect (Open_oracle true detect N).
Proof.
  intros HN. pose proof (opened_mark_inv N HN) as H. split; [done|by destruct detect|by eexists..].
Qed.

Lemma managed_inv_ext detect o o' : managed_inv detect o -> isManaged o' = isManaged o -> detectConflicts o' = detectConflicts o ->
  lastCleanupTs o' = (if detect then discardTs o' else 0) -> readMark o' = readMark o -> txnMark o' = txnMark o -> managed_inv detect o'.
Proof. intros [[H1 H2] _ H3 H4] E1 E2 E3 E4 E5. split; rewrite ?E4, ?E5; [by rewrite E1, E2|done..]. Qed.

(** A step panics exactly at a fault, and otherwise keeps the invariant. *)
Lemma managed_step_inv detect o a : managed_inv detect o -> managed_wf a ->
  (managed_step o a = Panicked <-> detect = true /\ managed_fault o a) /\
  forall o', managed_step o a = Stepped o' -> managed_inv detect o'.
Proof.
  intros HI Hwf. pose proof HI as [[Hm Hd] Hc [nr Hr] [nt Ht]].
  destruct a as [ts|t|ts| |]; cbn [managed_step managed_wf managed_fault] in *.
  - unfold setDiscardTs, cleanupCommittedTransactions. cbn. rewrite Hm, Hd, Hc. destruct detect; cbn.
    + destruct (bool_decide_reflect (discardTs o <= ts)) as [Hle|Hlt].
      * split; [split; [by case_bool_decide|intros [_ ?]; lia]|]. intros o'. case_bool_decide; intros [= <-]; (apply (managed_inv_ext true o); cbn; congruence).
      * split; [split; [intros _; split; [done|lia]|done]|done].
    + split; [naive_solver|]. intros o' [= <-]. by apply (managed_inv_ext false o).
  - unfold newCommitTs. destruct (hasConflict o t) eqn:Ec; cbn.
    + split; [naive_solver|]. by intros o' [= <-].
    + rewrite Hm. cbn. rewrite Hc. destruct detect; rewrite ?Hd.
      * destruct (bool_decide_reflect (discardTs o <= commitTs t)) as [Hle|Hlt]; cbn.
        -- split; [split; [done|intros (_ & _ & ?); lia]|]. intros o' [= <-]. by apply (managed_inv_ext true o).
        -- split; [split; [intros _; split_and!; [done..|lia]|done]|done].
      * rewrite bool_decide_eq_true_2 by lia. cbn. split; [naive_solver|]. by intros o' [= <-].
  - unfold doneCommit. rewrite Hm. split; [naive_solver|]. by intros o' [= <-].
  - destruct (read_inv_process _ _ _ Hr) as (w & -> & Hw & _). cbn. split; [naive_solver|]. intros o' [= <-]. by split; [| |eexists..].
  - destruct (read_inv_process _ _ _ Ht) as (w & -> & Hw & _). cbn. split; [naive_solver|]. intros o' [= <-]. by split; [| |eexists..].
Qed.

Lemma managed_reachable_inv detect N o : 0 <= N < MaxUint64 - 1 -> managed_reachable detect N o -> managed_inv detect o.
Proof.
  intros HN. induction 1 as [|o a o' _ IH Hwf Hs]; [by apply managed_inv_init|]. by apply (managed_step_inv detect o a IH Hwf).
Qed.

(** ** Properties *)

(** C1: snapshot isolation made serializable.  In every interleaving of transactions and of
    the watermark goroutines, commit timestamps strictly increase, and no key fingerprint a
    committed transaction read was written by a transaction that committed between its read
    and its commit timestamp. *)
Theorem committed_reads_unchanged (N : Z) (s : sys) :
  0 <= N < MaxUint64 - 1 -> reachable N s ->
  StronglySorted (fun a b => c_ts a < c_ts b) (history s) /\
  (forall c c', c ∈ history s -> c' ∈ history s -> c_readTs c < c_ts c' < c_ts c ->
     forall fp, fp ∈ c_reads c -> fp ∉ c_keys c').
Proof.
  intros HN Hr. destruct (reachable_inv N s HN Hr) as [_ _ _ _ _ [H1 _ _ _ _ H6]]. done.
Qed.

(** C27: conflict detection is exact although old commits are pruned: a running transaction is
    refused exactly when some transaction of the whole history committed after its snapshot
    and wrote a key it read. *)
Theorem hasConflict_exact (N : Z) (s : sys) (id : nat) (t : Txn) :
  0 <= N < MaxUint64 - 1 -> reachable N s ->
  txns s !! id = Some (Running, t) -> discarded t = false ->
  hasConflict (orc s) t = true <->
  (exists c fp, c ∈ history s /\ readTs t < c_ts c /\ fp ∈ reads t /\ fp ∈ c_keys c).
Proof.
  intros HN Hr Hid Hdis.
  destruct (reachable_inv N s HN Hr) as [_ Hn Hrd _ Htx [_ _ H3 H4 H5 _]].
  destruct (Htx _ _ Hid) as [_ Hact _ _ _]. simpl in Hact.
  pose proof (read_inv_bound _ _ _ _ _ Hrd Hid (Hact ltac:(auto) Hdis)) as Hbd. simpl in Hbd.
  rewrite hasConflict_true. split.
  - intros (k & fp & Hk & Hlt & Hfp & Hin). destruct (H5 k Hk) as (c & Hcin & ->).
    by exists c, fp.
  - intros (c & fp & Hc & Hlt & Hfp & Hin). exists (mkCommitted (c_ts c) (c_keys c)), fp.
    split_and!; try done. apply H4; [done|lia].
Qed.

(** C30: a snapshot is complete: once [readTs] has returned, every commit with a timestamp at
    or below it has finished writing to the LSM tree. *)
Theorem snapshot_complete (N : Z) (s : sys) (id id' : nat) (t t' : Txn) (ts : Z) :
  0 <= N < MaxUint64 - 1 -> reachable N s ->
  txns s !! id = Some (Running, t) -> txns s !! id' = Some (Committing ts, t') ->
  readTs t < ts.
Proof.
  intros HN Hr Hid Hid'. destruct (reachable_inv N s HN Hr) as [_ _ _ _ Htx _].
  destruct (Htx _ _ Hid) as [_ _ _ H4 _]. by apply (H4 eq_refl ts id' t').
Qed.

(** C33: what compaction may discard never reaches a reader: [discardAtOrBelow] stays at or
    below the read timestamp of every transaction not yet done reading. *)
Theorem discard_below_readers (N : Z) (s : sys) (id : nat) (p : phase) (t : Txn) :
  0 <= N < MaxUint64 - 1 -> reachable N s ->
  txns s !! id = Some (p, t) -> doneRead t = false ->
  discardAtOrBelow (orc s) <= readTs t.
Proof.
  intros HN Hr Hid Hd. destruct (reachable_inv N s HN Hr) as [[Hm _] _ Hrd _ _ _].
  unfold discardAtOrBelow. rewrite Hm. by apply (read_inv_bound _ _ _ id (p, t) Hrd).
Qed.

(** C35: which assertions of the oracle and of its watermarks can fire, in the two modes.  Where
    the database chooses the timestamps (and detects conflicts) none can, in any interleaving:
    not the watermark's on its index, not [maxReadTs >= lastCleanupTs], not
    [ts >= lastCleanupTs].  In a managed database two calls can, and no other: lowering the
    discard timestamp, and committing, without a conflict, below it; both only when conflicts
    are detected. *)
Theorem oracle_panics_exactly (N : Z) :
  0 <= N < MaxUint64 - 1 ->
  (forall s a, reachable N s -> step s a <> Panicked) /\
  (forall detect o a, managed_reachable detect N o -> managed_wf a ->
     managed_step o a = Panicked <-> detect = true /\ managed_fault o a).
Proof.
  intros HN. split.
  - intros s a Hr E. pose proof (step_inv s a (reachable_inv N s HN Hr)) as H. by rewrite E in H.
  - intros detect o a Hr Hwf. apply (managed_step_inv detect o a); [|done]. by apply (managed_reachable_inv detect N).
Qed.

(** Three transactions from the same snapshot: 0 writes key 7 and commits, 1 read key 7 and is
    refused, 2 read key 8 and commits while still in flight; 3 starts afterwards. *)
Definition sys_example_actions : list action :=
  [AProcessTxn; AProcessRead; ANew 0 true; AWait 0; ANew 1 true; AWait 1; ANew 2 true; AWait 2;
   AWrite 0 7; ARead 1 7; AWrite 1 9; ARead 2 8; AWrite 2 10; ACommit 0; AProcessTxn; ACommit 1;
   ADoneCommit 0; AProcessTxn; ACommit 2; ADiscard 0; ANew 3 true; AWait 3; AProcessRead;
   AProcessRead; AProcessRead; AProcessRead; ANew 4 true; AWait 4]%nat.

Definition sys_example : sys :=
  default (sys_init 5) (run (sys_init 5) sys_example_actions).

Lemma sys_example_reachable : reachable 5 sys_example.
Proof.
  apply (run_reachable 5 (sys_init 5) sys_example_actions); [constructor|].
  vm_compute. reflexivity.
Defined.

Definition sys_example_txn (id : nat) : Txn :=
  default (new_txn 0 false) (snd <$> txns sys_example !! id).

Lemma committed_reads_unchanged_witness :
  StronglySorted (fun a b => c_ts a < c_ts b) (history sys_example) /\
  (forall c c', c ∈ history sys_example -> c' ∈ history sys_example ->
     c_readTs c < c_ts c' < c_ts c -> forall fp, fp ∈ c_reads c -> fp ∉ c_keys c').
Proof.
  apply (committed_reads_unchanged 5 sys_example); [by vm_compute|apply sys_example_reachable].
Defined.

Lemma hasConflict_exact_witness :
  hasConflict (orc sys_example) (sys_example_txn 1) = true <->
  (exists c fp, c ∈ history sys_example /\ readTs (sys_example_txn 1) < c_ts c /\
     fp ∈ reads (sys_example_txn 1) /\ fp ∈ c_keys c).
Proof.
  apply (hasConflict_exact 5 sys_example 1%nat);
    [by vm_compute|apply sys_example_reachable|vm_compute; reflexivity|vm_compute; reflexivity].
Defined.

Lemma snapshot_complete_witness : readTs (sys_example_txn 1) < 7.
Proof.
  apply (snapshot_complete 5 sys_example 1%nat 2%nat (sys_example_txn 1) (sys_example_txn 2) 7);
    [by vm_compute|apply sys_example_reachable|vm_compute; reflexivity|vm_compute; reflexivity].
Defined.

Lemma discard_below_readers_witness :
  discardAtOrBelow (orc sys_example) <= readTs (sys_example_txn 1).
Proof.
  apply (discard_below_readers 5 sys_example 1%nat Running (sys_example_txn 1));
    [by vm_compute|apply sys_example_reachable|vm_compute; reflexivity|vm_compute; reflexivity].
Defined.

Definition managed_example : oracle :=
  match managed_step (Open_oracle true true 5) (MSetDiscardTs 9) with Stepped o => o | _ => Open_oracle true true 5 end.

Lemma managed_example_reachable : managed_reachable true 5 managed_example.
Proof. apply (mreach_step true 5 (Open_oracle true true 5) (MSetDiscardTs 9)); [constructor|by vm_compute|by vm_compute]. Qed.

Lemma oracle_panics_exactly_witness : step sys_example (ACommit 1%nat) <> Panicked /\
  managed_step managed_example (MSetDiscardTs 8) = Panicked /\ managed_step managed_example (MSetDiscardTs 10) <> Panicked.
Proof.
  destruct (oracle_panics_exactly 5 ltac:(by vm_compute)) as [H1 H2].
  pose proof (H2 true managed_example (MSetDiscardTs 8) managed_example_reachable ltac:(by vm_compute)) as H8.
  pose proof (H2 true managed_example (MSetDiscardTs 10) managed_example_reachable ltac:(by vm_compute)) as H10.
  split; [apply H1, sys_example_reachable|]. split; [apply H8; split; [done|by vm_compute]|].
  intros [_ Hf]%H10. by vm_compute in Hf.
Defined.
