(* ===== verification/Bloom.v ===== *)
(** * Bloom: the key hash and the Bloom filter of y/bloom.go

    All arithmetic on hashes is on 32-bit words.  A division by zero or an index out of range
    is [None]. *)

From Stdlib Require Import SpecFloat.
From S2P Require Import Prelude Keys.

(** ** The key hash *)

Definition hash_seed : Z := 0xbc9f1d34.
Definition hash_m : Z := 0xc6a4a793.

Definition hash_tail (b : bytes) (h : Z) : Z :=
  let fin h b0 :=
    let h := u32 (h + b2z b0) in
    let h := u32 (h * hash_m) in
    Z.lxor h (Z.shiftr h 24) in
  match b with
  | [b0; b1; b2] => fin (u32 (u32 (h + Z.shiftl (b2z b2) 16) + Z.shiftl (b2z b1) 8)) b0
  | [b0; b1] => fin (u32 (h + Z.shiftl (b2z b1) 8)) b0
  | [b0] => fin h b0
  | _ => h
  end.

Fixpoint hash_loop (b : bytes) (h : Z) : Z :=
  match b with
  | b0 :: b1 :: b2 :: b3 :: rest =>
      let w := Z.lor (Z.lor (Z.lor (b2z b0) (Z.shiftl (b2z b1) 8)) (Z.shiftl (b2z b2) 16))
                 (Z.shiftl (b2z b3) 24) in
      let h := u32 (h + w) in
      let h := u32 (h * hash_m) in
      let h := Z.lxor h (Z.shiftr h 16) in
      hash_loop rest h
  | _ => hash_tail b h
  end.

Definition Hash (b : bytes) : Z :=
  hash_loop b (Z.lxor hash_seed (u32 (u32 (len b) * hash_m))).

(** ** The number of probes: [uint32(float64(bitsPerKey) * 0.69)], clamped to 1..30 *)

(** The float64 nearest to 0.69. *)
Definition float_069 : spec_float := S754_finite false 6214967485771284 (-53).

Definition float_of_int (n : Z) : spec_float := binary_normalize 53 1024 n 0 false.

(** Truncation towards zero. *)
Definition int_of_float (f : spec_float) : Z :=
  match f with
  | S754_finite s m e =>
      let a := if bool_decide (0 <= e) then Z.shiftl (Zpos m) e else Z.shiftr (Zpos m) (- e) in
      if s then - a else a
  | _ => 0
  end.

Definition bloom_k (bitsPerKey : Z) : Z :=
  let k := u32 (int_of_float (SFmul 53 1024 (float_of_int bitsPerKey) float_069)) in
  let k := if bool_decide (k < 1) then 1 else k in
  if bool_decide (30 < k) then 30 else k.

(** ** Building and probing *)

(** [h>>17 | h<<15]. *)
Definition bloom_delta (h : Z) : Z := Z.lor (Z.shiftr h 17) (u32 (Z.shiftl h 15)).

Definition bit_mask (bitPos : Z) : Z := u8 (Z.shiftl 1 (bitPos mod 8)).

(** The inner loop of [appendFilter]: set [k] bits. *)
Fixpoint add_probes (k : nat) (h delta nBits : Z) (filter : bytes) : option bytes :=
  match k with
  | O => Some filter
  | S k =>
      if bool_decide (nBits = 0) then None
      else
        let bitPos := h mod nBits in
        b ← filter !! Z.to_nat (bitPos / 8);
        let filter := <[Z.to_nat (bitPos / 8) := z2b (Z.lor (b2z b) (bit_mask bitPos))]> filter in
        add_probes k (u32 (h + delta)) delta nBits filter
  end.

Definition add_keys (keys : list Z) (k nBits : Z) (filter : bytes) : option bytes :=
  foldl (fun acc h => f ← acc; add_probes (Z.to_nat k) h (bloom_delta h) nBits f) (Some filter) keys.

Definition appendFilter (buf : bytes) (keys : list Z) (bitsPerKey : Z) : option bytes :=
  let bitsPerKey := if bool_decide (bitsPerKey < 0) then 0 else bitsPerKey in
  let k := bloom_k bitsPerKey in
  let nBits := len keys * bitsPerKey in
  let nBits := if bool_decide (nBits < 64) then 64 else nBits in
  let nBytes := (nBits + 7) / 8 in
  let nBits := nBytes * 8 in
  (* extend: nBytes + 1 zero bytes, the last one to hold k *)
  filter ← add_keys keys k (u32 nBits) (replicate (Z.to_nat nBytes) x00);
  Some (buf ++ filter ++ [z2b k]).

Definition NewFilter (keys : list Z) (bitsPerKey : Z) : option bytes :=
  appendFilter [] keys bitsPerKey.

(** The loop of [MayContain]. *)
Fixpoint test_probes (k : nat) (h delta nBits : Z) (f : bytes) : option bool :=
  match k with
  | O => Some true
  | S k =>
      if bool_decide (nBits = 0) then None
      else
        let bitPos := h mod nBits in
        b ← f !! Z.to_nat (bitPos / 8);
        if bool_decide (Z.land (b2z b) (bit_mask bitPos) = 0) then Some false
        else test_probes k (u32 (h + delta)) delta nBits f
  end.

Definition MayContain (f : bytes) (h : Z) : option bool :=
  if bool_decide (len f < 2) then Some false
  else
    k ← last f;
    if bool_decide (30 < b2z k) then Some true
    else test_probes (Z.to_nat (b2z k)) h (bloom_delta h) (u32 (8 * (len f - 1))) f.

Definition MayContainKey (f : bytes) (k : bytes) : option bool := MayContain f (Hash k).

(** ** Lemmas *)

Lemma bit_mask_pow p : bit_mask p = 2 ^ (p mod 8).
Proof.
  unfold bit_mask. pose proof (Z.mod_pos_bound p 8 ltac:(lia)) as Hp.
  rewrite Z.shiftl_1_l. apply wrap_small. split; [lia|].
  apply Z.pow_lt_mono_r; lia.
Qed.

Lemma land_bit_mask x p : Z.land x (bit_mask p) = 0 <-> Z.testbit x (p mod 8) = false.
Proof.
  rewrite bit_mask_pow. pose proof (Z.mod_pos_bound p 8 ltac:(lia)) as Hp. split.
  - intros H. apply (f_equal (fun z => Z.testbit z (p mod 8))) in H.
    rewrite Z.land_spec, Z.pow2_bits_true, Z.bits_0, andb_true_r in H by lia. done.
  - intros H. apply Z.bits_inj'. intros n Hn.
    rewrite Z.land_spec, Z.pow2_bits_eqb, Z.bits_0 by lia.
    destruct (Z.eqb_spec (p mod 8) n) as [<-|]; [by rewrite H|by rewrite andb_false_r].
Qed.

(** A bit of the filter, by position. *)
Definition bit_at (f : bytes) (p : Z) : bool :=
  match f !! Z.to_nat (p / 8) with Some b => Z.testbit (b2z b) (p mod 8) | None => false end.

Lemma testbit_byte_lor b p n :
  0 <= n < 8 -> Z.testbit (b2z (z2b (Z.lor (b2z b) (bit_mask p)))) n
  = Z.testbit (b2z b) n || bool_decide (n = p mod 8).
Proof.
  intros Hn. rewrite b2z_z2b, bit_mask_pow.
  pose proof (Z.mod_pos_bound p 8 ltac:(lia)) as Hp.
  change 256 with (2 ^ 8). rewrite Z.mod_pow2_bits_low by lia.
  rewrite Z.lor_spec, Z.pow2_bits_eqb by lia. f_equal.
  destruct (Z.eqb_spec (p mod 8) n); [by rewrite bool_decide_eq_true_2|
    by rewrite bool_decide_eq_false_2 by congruence].
Qed.

(** Setting one bit keeps every other. *)
Lemma bit_at_set f p q b :
  0 <= p -> 0 <= q -> f !! Z.to_nat (p / 8) = Some b ->
  bit_at (<[Z.to_nat (p / 8) := z2b (Z.lor (b2z b) (bit_mask p))]> f) q
  = bit_at f q || bool_decide (q = p).
Proof.
  intros Hp Hq Hb. unfold bit_at.
  pose proof (Z.mod_pos_bound q 8 ltac:(lia)) as Hq8.
  assert (0 <= p / 8 /\ 0 <= q / 8) as [? ?] by (split; apply Z.div_pos; lia).
  destruct (decide (Z.to_nat (p / 8) = Z.to_nat (q / 8))) as [E|E].
  - rewrite <- E, list_lookup_insert_eq by (by eapply lookup_lt_Some). rewrite Hb.
    rewrite testbit_byte_lor by lia. f_equal. apply bool_decide_ext.
    pose proof (Z.div_mod p 8). pose proof (Z.div_mod q 8). lia.
  - rewrite list_lookup_insert_ne by done.
    rewrite (bool_decide_eq_false_2 (q = p)) by (intros ->; done). by rewrite orb_false_r.
Qed.

Lemma probe_in_range (f : bytes) (h n : Z) :
  0 < n <= 8 * len f -> exists b, f !! Z.to_nat (h mod n / 8) = Some b.
Proof.
  intros Hn. apply lookup_lt_is_Some. pose proof (Z.mod_pos_bound h n ltac:(lia)).
  assert (h mod n / 8 < len f) by (apply Z.div_lt_upper_bound; lia).
  assert (0 <= h mod n / 8) by (apply Z.div_pos; lia). unfold len in *. lia.
Qed.

(** The positions probed for a hash. *)
Fixpoint probes (k : nat) (h delta nBits : Z) : list Z :=
  match k with
  | O => []
  | S k => h mod nBits :: probes k (u32 (h + delta)) delta nBits
  end.

Lemma add_probes_spec k h delta nBits f :
  0 < nBits <= 8 * len f ->
  exists f', add_probes k h delta nBits f = Some f' /\ length f' = length f /\
    (forall q, 0 <= q -> bit_at f' q = bit_at f q || bool_decide (q ∈ probes k h delta nBits)).
Proof.
  revert h f. induction k as [|k IH]; intros h f Hn.
  - exists f. split_and!; [done|done|]. intros q _. simpl.
    by rewrite orb_false_r.
  - simpl. rewrite bool_decide_eq_false_2 by lia.
    pose proof (Z.mod_pos_bound h nBits ltac:(lia)) as Hp.
    destruct (probe_in_range f h nBits Hn) as [b Hb]. rewrite Hb. cbn [mbind option_bind].
    set (f1 := <[_ := _]> f).
    destruct (IH (u32 (h + delta)) f1) as (f' & -> & Hlen & Hbits).
    { unfold f1, len. rewrite length_insert. unfold len in Hn. lia. }
    exists f'. split_and!; [done|rewrite Hlen; apply length_insert|].
    intros q Hq. rewrite Hbits by done. unfold f1. rewrite bit_at_set by (done || lia).
    rewrite <- orb_assoc. f_equal. rewrite <- bool_decide_or. apply bool_decide_ext.
    by rewrite elem_of_cons.
Qed.

Lemma add_keys_spec keys k nBits f :
  0 < nBits <= 8 * len f ->
  exists f', add_keys keys k nBits f = Some f' /\ length f' = length f /\
    (forall q, 0 <= q -> bit_at f' q = true <-> bit_at f q = true \/
       exists h, h ∈ keys /\ q ∈ probes (Z.to_nat k) h (bloom_delta h) nBits).
Proof.
  intros Hn. unfold add_keys. induction keys as [|h keys IH] using rev_ind.
  - exists f. split_and!; [done|done|]. intros q _. split; [auto|].
    intros [?|(h & Hh & _)]; [done|by apply elem_of_nil in Hh].
  - rewrite foldl_app. destruct IH as (f1 & -> & Hl & Hb). simpl.
    destruct (add_probes_spec (Z.to_nat k) h (bloom_delta h) nBits f1) as (f' & -> & Hl' & Hb').
    { unfold len in *. by rewrite Hl. }
    exists f'. split_and!; [done|congruence|]. intros q Hq.
    rewrite Hb', orb_true_iff, Hb, bool_decide_eq_true by done.
    setoid_rewrite elem_of_app. setoid_rewrite list_elem_of_singleton. naive_solver.
Qed.

(** The probes succeed when every probed bit is set. *)
Lemma test_probes_true k h delta nBits f g :
  0 < nBits <= 8 * len f ->
  (forall q, q ∈ probes k h delta nBits -> bit_at f q = true) ->
  test_probes k h delta nBits (f ++ g) = Some true.
Proof.
  revert h. induction k as [|k IH]; intros h Hn Hall; [done|].
  simpl. rewrite bool_decide_eq_false_2 by lia.
  destruct (probe_in_range f h nBits Hn) as [b Hb].
  rewrite lookup_app_l by (by eapply lookup_lt_Some). rewrite Hb. cbn [mbind option_bind].
  assert (Z.testbit (b2z b) ((h mod nBits) mod 8) = true) as Ht.
  { specialize (Hall (h mod nBits)). unfold bit_at in Hall. rewrite Hb in Hall.
    apply Hall. simpl. left. }
  rewrite bool_decide_eq_false_2 by (rewrite land_bit_mask; congruence).
  apply IH; [done|]. intros q Hq. apply Hall. simpl. by right.
Qed.

Lemma bloom_k_range n : 1 <= bloom_k n <= 30.
Proof.
  unfold bloom_k. repeat case_bool_decide; lia.
Qed.

(** The filter's size in bits for [n] keys. *)
Definition filter_bits (n bitsPerKey : Z) : Z :=
  let nBits := n * Z.max 0 bitsPerKey in (Z.max 64 nBits + 7) / 8 * 8.

(** The filter that is built: its bytes, then the number of probes. *)
Lemma NewFilter_spec (keys : list Z) (bitsPerKey : Z) :
  u32 (filter_bits (len keys) bitsPerKey) <> 0 ->
  exists f k, NewFilter keys bitsPerKey = Some (f ++ [z2b k]) /\ 1 <= k <= 30 /\
    8 * len f = filter_bits (len keys) bitsPerKey /\
    0 < u32 (8 * len f) <= 8 * len f /\ 1 <= len f /\
    forall h q, h ∈ keys -> 0 <= q ->
      q ∈ probes (Z.to_nat k) h (bloom_delta h) (u32 (8 * len f)) -> bit_at f q = true.
Proof.
  intros Hnz. unfold NewFilter, appendFilter.
  set (bpk := if bool_decide (bitsPerKey < 0) then 0 else bitsPerKey).
  assert (bpk = Z.max 0 bitsPerKey) as Ebpk by (unfold bpk; case_bool_decide; lia).
  cbv zeta. rewrite Ebpk. set (n := len keys * Z.max 0 bitsPerKey).
  replace (if bool_decide (n < 64) then 64 else n) with (Z.max 64 n)
    by (case_bool_decide; lia).
  set (nBytes := (Z.max 64 n + 7) / 8). set (k := bloom_k (Z.max 0 bitsPerKey)).
  change (filter_bits (len keys) bitsPerKey) with (nBytes * 8) in *.
  assert (8 <= nBytes) as Hnb by (unfold nBytes; apply Z.div_le_lower_bound; lia).
  pose proof (wrap_range 32 (nBytes * 8) ltac:(lia)) as Hwr.
  assert (u32 (nBytes * 8) <= nBytes * 8) as Hle by (apply Z.mod_le; lia).
  destruct (add_keys_spec keys k (u32 (nBytes * 8)) (replicate (Z.to_nat nBytes) x00))
    as (f & -> & Hlen & Hbits).
  { unfold len. rewrite length_replicate. lia. }
  cbn [mbind option_bind]. rewrite length_replicate in Hlen.
  assert (len f = nBytes) as El by (unfold len; lia).
  exists f, k. rewrite app_nil_l, El, (Z.mul_comm 8).
  split_and!; try done; try lia; [apply bloom_k_range..|].
  intros h q Hh Hq Hin. apply Hbits; eauto.
Qed.

Lemma test_probes_total k h delta nBits f g :
  0 < nBits <= 8 * len f -> exists b, test_probes k h delta nBits (f ++ g) = Some b.
Proof.
  revert h. induction k as [|k IH]; intros h Hn; simpl; [eauto|].
  rewrite bool_decide_eq_false_2 by lia.
  destruct (probe_in_range f h nBits Hn) as [b Hb].
  rewrite lookup_app_l by (by eapply lookup_lt_Some). rewrite Hb. cbn [mbind option_bind].
  case_bool_decide; [eauto|by apply IH].
Qed.

(** Probing a filter that was built: no index error, and a hash that was put in is found. *)
Lemma MayContain_NewFilter (keys : list Z) (bitsPerKey : Z) f h :
  u32 (filter_bits (len keys) bitsPerKey) <> 0 -> NewFilter keys bitsPerKey = Some f ->
  exists b, MayContain f h = Some b /\ (h ∈ keys -> b = true).
Proof.
  intros Hnz Hf. destruct (NewFilter_spec keys bitsPerKey Hnz)
    as (g & k & E & Hk & Hbits & Hu & Hl & Hin).
  rewrite E in Hf. simplify_eq. unfold MayContain.
  assert (len (g ++ [z2b k]) = len g + 1) as El by (rewrite len_app; unfold len; simpl; lia).
  rewrite El, bool_decide_eq_false_2, last_snoc by lia. cbn [mbind option_bind].
  rewrite b2z_z2b, Z.mod_small, bool_decide_eq_false_2 by lia.
  replace (8 * (len g + 1 - 1)) with (8 * len g) by lia.
  destruct (decide (h ∈ keys)) as [Hh|Hh].
  - exists true. split; [|done]. apply test_probes_true; [done|]. intros q Hq.
    apply (Hin h); [done| |done].
    assert (forall j h0 d, Forall (fun q => 0 <= q) (probes j h0 d (u32 (8 * len g)))) as Hpos.
    { intros j. induction j as [|j IH]; intros h0 d; simpl; constructor; [|apply IH].
      apply Z.mod_pos_bound. lia. }
    specialize (Hpos (Z.to_nat k) h (bloom_delta h)). rewrite Forall_forall in Hpos. auto.
  - destruct (test_probes_total (Z.to_nat k) h (bloom_delta h) (u32 (8 * len g)) g [z2b k] Hu)
      as [b Hb]. exists b. done.
Qed.

(** ** Properties *)

(** C39: no false negatives: whatever the number of bits per key, a filter built from hashes
    (whose size in bits is not a multiple of 2^32, which would divide by zero) is built without
    an index error, and [MayContain] accepts every one of them. *)
Theorem bloom_no_false_negatives (keys : list Z) (bitsPerKey h : Z) :
  u32 (filter_bits (len keys) bitsPerKey) <> 0 -> h ∈ keys ->
  exists f, NewFilter keys bitsPerKey = Some f /\ MayContain f h = Some true.
Proof.
  intros Hnz Hh. destruct (NewFilter_spec keys bitsPerKey Hnz) as (f & k & E & _).
  exists (f ++ [z2b k]). split; [done|].
  destruct (MayContain_NewFilter keys bitsPerKey _ h Hnz E) as (b & Hb & Ht).
  by rewrite Hb, Ht.
Qed.

Definition bloom_example_keys : list Z := [Hash [x61]; Hash [x62; x63; x64; x65; x66]].

Lemma bloom_no_false_negatives_witness :
  exists f, NewFilter bloom_example_keys 10 = Some f /\
    MayContain f (Hash [x62; x63; x64; x65; x66]) = Some true.
Proof.
  apply (bloom_no_false_negatives bloom_example_keys 10).
  - by vm_compute.
  - right. left.
Defined.

(** Ten bits per key give six probes: 10 * 0.69 truncated. *)
Example bloom_k_10 : bloom_k 10 = 6.
Proof. by vm_compute. Qed.
