(* ===== verification/Checksum.v ===== *)
(** * Checksum: CRC-32C and the checksum messages of y/checksum.go

    [hash/crc32] with the Castagnoli table is computed bit by bit.  Protocol buffers and
    xxHash are libraries: a [ChecksumCodec] provides them, with the one law of [proto] the
    source relies on. *)

From S2P Require Import Prelude Keys.

(** ** CRC-32C *)

Definition castagnoli : Z := 0x82f63b78.

Fixpoint crc_bits (n : nat) (crc : Z) : Z :=
  match n with
  | O => crc
  | S n =>
      crc_bits n
        (if Z.testbit crc 0 then Z.lxor (Z.shiftr crc 1) castagnoli else Z.shiftr crc 1)
  end.

Definition crc_byte (crc : Z) (b : byte) : Z := crc_bits 8 (Z.lxor crc (b2z b)).

(** [crc32.Update(crc, CastagnoliCrcTable, p)]. *)
Definition crc32c_update (crc : Z) (p : bytes) : Z :=
  Z.lxor (foldl crc_byte (Z.lxor crc MaxUint32) p) MaxUint32.

(** [crc32.Checksum(data, CastagnoliCrcTable)]. *)
Definition crc32c (data : bytes) : Z := crc32c_update 0 data.

(** The checksum of a byte stream may be computed piecewise. *)
Lemma crc32c_update_app crc p q :
  crc32c_update crc (p ++ q) = crc32c_update (crc32c_update crc p) q.
Proof.
  unfold crc32c_update. by rewrite foldl_app, Z.lxor_assoc, Z.lxor_nilpotent, Z.lxor_0_r.
Qed.

Lemma lxor_bound w a b :
  0 <= w -> 0 <= a < 2 ^ w -> 0 <= b < 2 ^ w -> 0 <= Z.lxor a b < 2 ^ w.
Proof.
  intros Hw Ha Hb. assert (0 <= Z.lxor a b) as H0 by (apply Z.lxor_nonneg; lia).
  split; [done|]. destruct (Z.eq_dec (Z.lxor a b) 0) as [->|Hne]; [lia|].
  assert (forall x, 0 <= x < 2 ^ w -> x = 0 \/ Z.log2 x < w) as Hlog.
  { intros x Hx. destruct (Z.eq_dec x 0); [by left|right]. apply Z.log2_lt_pow2; lia. }
  apply Z.log2_lt_pow2; [lia|].
  pose proof (Z.log2_lxor a b ltac:(lia) ltac:(lia)) as Hl.
  destruct (Hlog a Ha) as [->|], (Hlog b Hb) as [->|]; rewrite ?Z.lxor_0_l, ?Z.lxor_0_r in *;
    try done; lia.
Qed.

Lemma crc_bits_range n crc : 0 <= crc < 2 ^ 32 -> 0 <= crc_bits n crc < 2 ^ 32.
Proof.
  revert crc. induction n as [|n IH]; intros crc Hc; cbn [crc_bits]; [done|]. apply IH.
  assert (0 <= Z.shiftr crc 1 < 2 ^ 32) as Hs.
  { rewrite Z.shiftr_div_pow2 by lia. change (2 ^ 1) with 2.
    split; [apply Z.div_pos; lia|apply Z.div_lt_upper_bound; lia]. }
  destruct (Z.testbit crc 0); [|done]. apply lxor_bound; [lia|done|unfold castagnoli; lia].
Qed.

Lemma crc32c_range data : 0 <= crc32c data < 2 ^ 32.
Proof.
  unfold crc32c, crc32c_update. apply lxor_bound; [lia| |unfold MaxUint32; lia].
  assert (forall c, 0 <= c < 2 ^ 32 -> 0 <= foldl crc_byte c data < 2 ^ 32) as H.
  { induction data as [|b data IH]; intros c Hc; [done|]. cbn [foldl]. apply IH.
    unfold crc_byte. apply crc_bits_range, lxor_bound; [lia|done|].
    pose proof (b2z_range b). lia. }
  apply H. vm_compute. split; congruence.
Qed.

Arguments crc32c : simpl never.
Arguments crc32c_update : simpl never.

(** The check value of the CRC catalogue: "123456789". *)
Example crc32c_check : crc32c (list_byte_of_string "123456789") = 0xe3069283.
Proof. by vm_compute. Qed.

(** ** Checksum messages *)

Inductive Checksum_Algorithm : Type := Checksum_CRC32C | Checksum_XXHash64.

Record Checksum : Type := mkChecksum { Algo : Checksum_Algorithm; Sum : Z }.

(** [proto.Marshal] and [proto.Unmarshal] on [pb.Checksum], and [xxhash.Sum64]. *)
Class ChecksumCodec : Type := {
  Checksum_Marshal : Checksum -> bytes;
  Checksum_Unmarshal : bytes -> option Checksum;
  xxhash_Sum64 : bytes -> Z
}.

Class ChecksumCodecLaws (C : ChecksumCodec) : Prop := {
  Checksum_roundtrip c : 0 <= Sum c < 2 ^ 64 -> Checksum_Unmarshal (Checksum_Marshal c) = Some c;
  Checksum_short c : len (Checksum_Marshal c) < 2 ^ 16
}.

Section Checksums.
Context `{C : ChecksumCodec}.

Definition CalculateChecksum (data : bytes) (ct : Checksum_Algorithm) : Z :=
  match ct with
  | Checksum_CRC32C => crc32c data
  | Checksum_XXHash64 => xxhash_Sum64 data
  end.

(** True for [nil], false for [ErrChecksumMismatch]. *)
Definition VerifyChecksum (data : bytes) (expected : Checksum) : bool :=
  bool_decide (CalculateChecksum data (Algo expected) = Sum expected).

(** [Builder.calculateChecksum]. *)
Definition calculateChecksum (data : bytes) : bytes :=
  Checksum_Marshal (mkChecksum Checksum_CRC32C (CalculateChecksum data Checksum_CRC32C)).

Lemma calculateChecksum_verifies `{!ChecksumCodecLaws C} data :
  exists cs, Checksum_Unmarshal (calculateChecksum data) = Some cs /\ VerifyChecksum data cs = true.
Proof.
  unfold calculateChecksum. eexists. split.
  - apply Checksum_roundtrip. simpl. pose proof (crc32c_range data). lia.
  - by apply bool_decide_eq_true_2.
Qed.
End Checksums.

(** A concrete codec: the algorithm's byte and the sum in eight little-endian bytes. *)
#[export] Instance plain_checksums : ChecksumCodec := {
  Checksum_Marshal c :=
    (match Algo c with Checksum_CRC32C => x00 | Checksum_XXHash64 => x01 end)
      :: le_encode 8 (Sum c);
  Checksum_Unmarshal b :=
    match b with
    | x00 :: s => Some (mkChecksum Checksum_CRC32C (le_decode s))
    | x01 :: s => Some (mkChecksum Checksum_XXHash64 (le_decode s))
    | _ => None
    end;
  xxhash_Sum64 _ := 0
}.

#[export] Instance plain_checksums_laws : ChecksumCodecLaws plain_checksums.
Proof.
  split.
  - intros [[] s] Hs; simpl in *; rewrite le_decode_encode; change (8 * Z.of_nat 8) with 64;
      by rewrite Z.mod_small.
  - intros [a s]. unfold len. cbn [Checksum_Marshal plain_checksums length].
    rewrite le_encode_length. lia.
Qed.
