(* ===== verification/Encrypt.v ===== *)
(** * Encrypt: AES in counter mode (y/encrypt.go)

    The block cipher, [crypto/aes] of the Go library, is a parameter: a function on 16-byte
    blocks for every valid key.  The counter mode of [crypto/cipher] that the source uses it in
    is written out, so that deciphering being the same as ciphering is a theorem. *)

From S2P Require Import Prelude Keys Checksum.

Class BlockCipher : Type := {
  aes_NewCipher : bytes -> option (bytes -> bytes)     (* None: a key of a wrong size *)
}.

Class BlockCipherLaws (A : BlockCipher) : Prop := {
  aes_key_size key : is_Some (aes_NewCipher key) <-> len key = 16 \/ len key = 24 \/ len key = 32;
  aes_block key E b : aes_NewCipher key = Some E -> length (E b) = 16%nat
}.

Definition BlockSize : Z := 16.

(** The byte of the key stream at position [j]: the counter starts at the IV. *)
Definition ctr_byte (E : bytes -> bytes) (iv : bytes) (j : nat) : byte :=
  default x00 (E (be_encode 16 (be_decode iv + Z.of_nat (j / 16))) !! (j mod 16)%nat).

Definition xor_byte (a b : byte) : byte := z2b (Z.lxor (b2z a) (b2z b)).

Definition XORKeyStream (E : bytes -> bytes) (iv src : bytes) : bytes :=
  imap (fun j b => xor_byte b (ctr_byte E iv j)) src.

Section Encrypt.
Context `{A : BlockCipher}.

(** [cipher.NewCTR] panics on an IV of a wrong size, [XORKeyStream] on a short destination;
    [Err tt] is the error of [aes.NewCipher]. *)
Definition XORBlock (dst src key iv : bytes) : result unit bytes :=
  match aes_NewCipher key with
  | None => Err tt
  | Some E =>
      if bool_decide (len iv <> BlockSize) || bool_decide (len dst < len src) then Panic
      else Ok (XORKeyStream E iv src ++ drop (length src) dst)
  end.

Definition XORBlockAllocate (src key iv : bytes) : result unit bytes :=
  match aes_NewCipher key with
  | None => Err tt
  | Some E =>
      if bool_decide (len iv <> BlockSize) then Panic else Ok (XORKeyStream E iv src)
  end.

(** What is written to the writer. *)
Definition XORBlockStream (src key iv : bytes) : result unit bytes := XORBlockAllocate src key iv.
End Encrypt.

(** ** Lemmas *)

Lemma lxor_byte a b : 0 <= Z.lxor (b2z a) (b2z b) < 256.
Proof. apply (lxor_bound 8); [lia|apply b2z_range..]. Qed.

Lemma xor_byte_twice a k : xor_byte (xor_byte a k) k = a.
Proof.
  unfold xor_byte. rewrite b2z_z2b, Z.mod_small by apply lxor_byte.
  by rewrite Z.lxor_assoc, Z.lxor_nilpotent, Z.lxor_0_r, z2b_b2z.
Qed.

Lemma XORKeyStream_length E iv src : length (XORKeyStream E iv src) = length src.
Proof. apply length_imap. Qed.

Lemma XORKeyStream_twice E iv src : XORKeyStream E iv (XORKeyStream E iv src) = src.
Proof.
  unfold XORKeyStream. apply list_eq. intros i. rewrite !list_lookup_imap.
  destruct (src !! i) as [b|]; [|done]. cbn. by rewrite xor_byte_twice.
Qed.

(** A prefix can be deciphered on its own. *)
Lemma XORKeyStream_app E iv a b :
  exists b', XORKeyStream E iv (a ++ b) = XORKeyStream E iv a ++ b' /\ length b' = length b.
Proof. unfold XORKeyStream. rewrite imap_app. eexists. split; [done|]. apply length_imap. Qed.

Section EncryptLemmas.
Context `{A : BlockCipher}.

Lemma XORBlockAllocate_length src key iv c : XORBlockAllocate src key iv = Ok c -> length c = length src.
Proof.
  unfold XORBlockAllocate. destruct (aes_NewCipher key); [|done]. case_bool_decide; [done|].
  intros [= <-]. apply XORKeyStream_length.
Qed.

Lemma XORBlockAllocate_twice src key iv c :
  XORBlockAllocate src key iv = Ok c -> XORBlockAllocate c key iv = Ok src.
Proof.
  unfold XORBlockAllocate. destruct (aes_NewCipher key); [|done]. case_bool_decide; [done|].
  intros [= <-]. by rewrite XORKeyStream_twice.
Qed.

Lemma XORBlockAllocate_app src rest key iv c :
  XORBlockAllocate src key iv = Ok c ->
  exists rest', XORBlockAllocate (c ++ rest) key iv = Ok (src ++ rest') /\ length rest' = length rest.
Proof.
  unfold XORBlockAllocate. destruct (aes_NewCipher key) as [E|]; [|done]. case_bool_decide; [done|].
  intros [= <-]. destruct (XORKeyStream_app E iv (XORKeyStream E iv src) rest) as (r & Er & Hr).
  exists r. by rewrite Er, XORKeyStream_twice.
Qed.
End EncryptLemmas.

(** A cipher for examples: the block is the counter mixed with the key. *)
#[export] Instance plain_cipher : BlockCipher := {
  aes_NewCipher key :=
    if bool_decide (len key = 16 \/ len key = 24 \/ len key = 32)
    then Some (fun b => imap (fun i x => xor_byte x (default x5a (key !! i))) (take 16 (b ++ replicate 16 x00)))
    else None
}.

#[export] Instance plain_cipher_laws : BlockCipherLaws plain_cipher.
Proof.
  split; unfold aes_NewCipher, plain_cipher.
  - intros key. case_bool_decide as H; [|split; [by intros [? ?]|done]]. split; [done|by eexists].
  - intros key E b. case_bool_decide; [|done]. intros [= <-].
    rewrite length_imap, length_take, length_app.
    change (length (_ :: _)) with 16%nat. lia.
Qed.
