(* ===== verification/LogFile.v ===== *)
(** * LogFile: write-ahead and value log files (memtable.go, value.go, structs.go)

    A [logFile] is a memory-mapped file of entries; [encodeEntry] and [writeEntry] append to it,
    [read] and [decodeEntry] read an entry back at a value pointer, and [iterate] replays the
    entries up to the first that is incomplete, the entries of a transaction only once its end
    marker is there.  The mapping ([ristretto/z]) is a parameter as far as the code relies on
    it; the reader it gives is the bytes that are left. *)

From S2P Require Import Prelude Keys Codec Checksum Encrypt.

(** ** Decimal numbers: [strconv] *)

Fixpoint format_loop (fuel : nat) (v : Z) (acc : bytes) : bytes :=
  match fuel with
  | O => acc
  | S fuel =>
      let acc := z2b (48 + v mod 10) :: acc in
      if bool_decide (v < 10) then acc else format_loop fuel (v / 10) acc
  end.

(** [strconv.FormatUint(v, 10)]; 20 digits are enough for 64 bits. *)
Definition FormatUint (v : Z) : bytes := format_loop 20 v [].

Definition digit (b : byte) : option Z :=
  if bool_decide (48 <= b2z b <= 57) then Some (b2z b - 48) else None.

(** [strconv.ParseUint(s, 10, 64)]; [None] is an error. *)
Definition ParseUint (s : bytes) : option Z :=
  if bool_decide (s = []) then None
  else
    v ← foldl (fun acc b => v ← acc; d ← digit b; Some (10 * v + d)) (Some 0) s;
    if bool_decide (v <= MaxUint64) then Some v else None.

(** ** Reading from a byte stream *)

Inductive log_error : Type := EOF | ErrUnexpectedEOF | errTruncate | errOverflow | ErrKey | ErrFn | ErrTruncateNeeded.

Definition ReadByte (r : bytes) : result log_error (byte * bytes) :=
  match r with [] => Err EOF | b :: r => Ok (b, r) end.

(** [binary.ReadUvarint]; [n] is [MaxVarintLen64 - i]. *)
Fixpoint ReadUvarint_loop (n : nat) (r : bytes) (x s : Z) : result log_error (Z * bytes) :=
  match n with
  | O => Err errOverflow
  | S n' =>
      match r with
      | [] => Err (if bool_decide (s = 0) then EOF else ErrUnexpectedEOF)
      | b :: r =>
          if bool_decide (b2z b < 128) then
            if bool_decide (n' = 0%nat /\ 1 < b2z b) then Err errOverflow
            else Ok (Z.lor x (u64 (Z.shiftl (b2z b) s)), r)
          else ReadUvarint_loop n' r (Z.lor x (u64 (Z.shiftl (Z.land (b2z b) 127) s))) (s + 7)
      end
  end.

Definition ReadUvarint (r : bytes) : result log_error (Z * bytes) := ReadUvarint_loop 10 r 0 0.

(** [io.ReadFull]. *)
Definition ReadFull (r : bytes) (n : Z) : result log_error (bytes * bytes) :=
  if bool_decide (n <= len r) then Ok (take (Z.to_nat n) r, drop (Z.to_nat n) r)
  else Err (if bool_decide (r = []) then EOF else ErrUnexpectedEOF).

(** Inside an entry the end of the file means it is incomplete. *)
Definition ReadRest (r : bytes) (n : Z) : result log_error (bytes * bytes) :=
  match ReadFull r n with Err EOF => Err errTruncate | x => x end.

(** [header.DecodeFrom]: the header and what is left. *)
Definition header_DecodeFrom (r : bytes) : result log_error (header * bytes) :=
  '(meta, r) ← ReadByte r;
  '(userMeta, r) ← ReadByte r;
  '(kl, r) ← ReadUvarint r;
  '(vl, r) ← ReadUvarint r;
  '(ea, r) ← ReadUvarint r;
  Ok (mkHeader (u32 kl) (u32 vl) ea meta userMeta, r).

(** ** Log files *)

Definition vlogHeaderSize : Z := 20.

Record DataKey : Type := mkDataKey { dk_KeyId : Z; dk_Data : bytes }.

Record logFile : Type := mkLog {
  lf_fid : Z;
  lf_Data : bytes;                (* the mapped file *)
  lf_size : Z;
  lf_dataKey : option DataKey;
  lf_baseIV : bytes;
  lf_writeAt : Z;
  lf_ReadOnly : bool
}.

(** [ristretto/z]: clearing a range of the mapped file, and cutting the file. *)
Class Mmap : Type := {
  z_ZeroOut : bytes -> Z -> Z -> bytes;
  z_Truncate : bytes -> Z -> bytes
}.

Class MmapLaws (M : Mmap) : Prop := {
  ZeroOut_length d s e : length (z_ZeroOut d s e) = length d;
  ZeroOut_in d s e i : 0 <= s -> (Z.to_nat s <= i < Z.to_nat e)%nat -> (i < length d)%nat ->
    z_ZeroOut d s e !! i = Some x00;
  ZeroOut_out d s e i : 0 <= s -> ~ (Z.to_nat s <= i < Z.to_nat e)%nat -> z_ZeroOut d s e !! i = d !! i;
  Truncate_resize d n : 0 <= n -> z_Truncate d n = resize (Z.to_nat n) x00 d    (* grows with zeros *)
}.

Lemma Truncate_take `{!MmapLaws M} d n : 0 <= n <= len d -> z_Truncate d n = take (Z.to_nat n) d.
Proof. intros H. rewrite Truncate_resize by lia. apply resize_le. unfold len in H. lia. Qed.

Definition set_Data (lf : logFile) (d : bytes) : logFile :=
  mkLog (lf_fid lf) d (lf_size lf) (lf_dataKey lf) (lf_baseIV lf) (lf_writeAt lf) (lf_ReadOnly lf).

Definition set_size (lf : logFile) (n : Z) : logFile :=
  mkLog (lf_fid lf) (lf_Data lf) n (lf_dataKey lf) (lf_baseIV lf) (lf_writeAt lf) (lf_ReadOnly lf).

Definition set_writeAt (lf : logFile) (n : Z) : logFile :=
  mkLog (lf_fid lf) (lf_Data lf) (lf_size lf) (lf_dataKey lf) (lf_baseIV lf) n (lf_ReadOnly lf).

Definition set_key (lf : logFile) (dk : option DataKey) (iv : bytes) : logFile :=
  mkLog (lf_fid lf) (lf_Data lf) (lf_size lf) dk iv (lf_writeAt lf) (lf_ReadOnly lf).

Definition encryptionEnabled (lf : logFile) : bool := bool_decide (is_Some (lf_dataKey lf)).
Definition keyID (lf : logFile) : Z := from_option dk_KeyId 0 (lf_dataKey lf).

(** [None] is the failed assertion on a short base IV. *)
Definition generateIV (lf : logFile) (offset : Z) : option bytes :=
  if bool_decide (12 <= len (lf_baseIV lf)) then Some (take 12 (lf_baseIV lf) ++ be_encode 4 offset)
  else None.

(** What the function given to [iterate] returns. *)
Inductive log_step (St : Type) : Type := Cont (s : St) | Stop (s : St) | Fail (s : St).
Arguments Cont {St} s.
Arguments Stop {St} s.
Arguments Fail {St} s.

Section LogFile.
Context `{A : BlockCipher} `{M : Mmap}.

(** Key and value enciphered at an offset; the same to decipher. *)
Definition decryptKV (lf : logFile) (buf : bytes) (offset : Z) : result log_error bytes :=
  match lf_dataKey lf with
  | None => Panic                                    (* nil data key *)
  | Some dk =>
      iv ← unpanic (generateIV lf offset);
      match XORBlockAllocate buf (dk_Data dk) iv with
      | Ok b => Ok b
      | Err _ => Err ErrKey
      | Panic => Panic
      end
  end.

(** The bytes of an entry, and the length [encodeEntry] returns. *)
Definition encodeEntry (lf : logFile) (e : Entry) (offset : Z) : result log_error (bytes * Z) :=
  let value := vbytes (eValue e) in
  let h := mkHeader (u32 (len (eKey e))) (u32 (len value)) (eExpiresAt e) (emeta e) (eUserMeta e) in
  '(headerEnc, sz) ← unpanic (header_Encode h (replicate (Z.to_nat maxHeaderSize) x00));
  let hb := take (Z.to_nat sz) headerEnc in
  kv ← (if encryptionEnabled lf then decryptKV lf (eKey e ++ value) offset else Ok (eKey e ++ value));
  Ok (hb ++ kv ++ U32ToBytes (crc32c (hb ++ kv)), sz + len (eKey e) + len value + 4).

Definition zeroNextEntry (lf : logFile) : logFile :=
  set_Data lf (z_ZeroOut (lf_Data lf) (lf_writeAt lf) (u32 (lf_writeAt lf + maxHeaderSize))).

(** [Panic] is also the failed assertion that the file has room. *)
Definition writeEntry (lf : logFile) (e : Entry) : result log_error logFile :=
  '(buf, plen) ← encodeEntry lf e (lf_writeAt lf);
  '(data, n) ← unpanic (copy_at (lf_Data lf) (lf_writeAt lf) buf);
  if bool_decide (plen = n) then
    Ok (zeroNextEntry (set_writeAt (set_Data lf data) (u32 (lf_writeAt lf + u32 plen))))
  else Panic.

Definition decodeEntry (lf : logFile) (buf : bytes) (offset : Z) : result log_error Entry :=
  '(h, hlen) ← unpanic (header_Decode buf);
  kv ← unpanic (slice_from buf hlen);
  kv ← (if encryptionEnabled lf then decryptKV lf kv offset else Ok kv);
  key ← unpanic (slice kv 0 (klen h));
  value ← unpanic (slice kv (klen h) (u32 (klen h + vlen h)));
  Ok (mkEntry key (Some value) (expiresAt h) 0 offset (huserMeta h) (hmeta h) 0 0).

(** The bytes at a value pointer; [offset + valsz] is a 32-bit sum. *)
Definition lf_read (lf : logFile) (p : valuePointer) : result log_error bytes :=
  let size := len (lf_Data lf) in
  let e := u32 (Offset p + Len p) in
  if bool_decide (size <= Offset p) || bool_decide (size < e) || bool_decide (lf_size lf < e)
  then Err EOF
  else unpanic (slice (lf_Data lf) (Offset p) e).

(** [safeRead.Entry]: the entry at the front of the stream, and what is left. *)
Definition safeRead_Entry (lf : logFile) (r : bytes) (recordOffset : Z)
    : result log_error (Entry * bytes) :=
  '(h, r1) ← header_DecodeFrom r;
  let hlen := len r - len r1 in
  if bool_decide (Z.shiftl 1 16 < klen h) then Err errTruncate
  else
    '(buf, r2) ← ReadRest r1 (u32 (klen h + vlen h));
    let hashed := take (Z.to_nat hlen) r ++ buf in
    kv ← (if encryptionEnabled lf then decryptKV lf buf recordOffset else Ok buf);
    key ← unpanic (slice kv 0 (klen h));
    value ← unpanic (slice_from kv (klen h));
    '(crcBuf, r3) ← ReadRest r2 4;
    crc ← unpanic (BytesToU32 crcBuf);
    if bool_decide (crc <> crc32c hashed) then Err errTruncate
    else Ok (mkEntry key (Some value) (expiresAt h) 0 recordOffset (huserMeta h) (hmeta h) hlen 0, r3).

(** ** Replay *)

Section Iterate.
Context {St : Type} (fn : Entry -> valuePointer -> St -> log_step St).

(** The entries of a finished transaction; [Stop] ends this loop only. *)
Fixpoint run_txn (es : list (Entry * valuePointer)) (s : St) : St + St :=
  match es with
  | [] => inl s
  | (e, vp) :: es =>
      match fn e vp s with
      | Cont s => run_txn es s
      | Stop s => inl s
      | Fail s => inr s
      end
  end.

(** The loop of [iterate]; the result carries the state [fn] left even on an error. *)
Fixpoint iterate_loop (fuel : nat) (lf : logFile) (r : bytes) (recordOffset : Z)
    (lastCommit validEndOffset : Z) (es : list (Entry * valuePointer)) (s : St)
    : St * result log_error Z :=
  match fuel with
  | O => (s, Panic)
  | S fuel =>
      match safeRead_Entry lf r recordOffset with
      | Err EOF | Err ErrUnexpectedEOF | Err errTruncate => (s, Ok validEndOffset)
      | Err e => (s, Err e)
      | Panic => (s, Panic)
      | Ok (e, r) =>
          if Entry_isZero e then (s, Ok validEndOffset)
          else
            let vl := u32 (ehlen e + len (eKey e) + len (vbytes (eValue e)) + 4) in
            let next := u32 (recordOffset + vl) in
            let vp := mkVP (lf_fid lf) vl (eoffset e) in
            if has_bit (emeta e) bitTxn then
              let txnTs := ParseTs (eKey e) in
              let lastCommit := if bool_decide (lastCommit = 0) then txnTs else lastCommit in
              if bool_decide (lastCommit <> txnTs) then (s, Ok validEndOffset)
              else iterate_loop fuel lf r next lastCommit validEndOffset (es ++ [(e, vp)]) s
            else if has_bit (emeta e) bitFinTxn then
              if bool_decide (ParseUint (vbytes (eValue e)) <> Some lastCommit) then (s, Ok validEndOffset)
              else
                match run_txn es s with
                | inl s => iterate_loop fuel lf r next 0 next [] s
                | inr s => (s, Err ErrFn)
                end
            else if bool_decide (lastCommit <> 0) then (s, Ok validEndOffset)
            else
              match fn e vp s with
              | Cont s | Stop s => iterate_loop fuel lf r next lastCommit next es s
              | Fail s => (s, Err ErrFn)
              end
      end
  end.

(** Every entry takes at least a byte. *)
Definition iterate (lf : logFile) (offset : Z) (s : St) : St * result log_error Z :=
  let offset := if bool_decide (offset = 0) then vlogHeaderSize else offset in
  let r := drop (Z.to_nat offset) (lf_Data lf) in
  iterate_loop (S (length r)) lf r offset 0 offset [] s.
End Iterate.

(** ** Opening and truncating *)

(** [Panic] is the failed assertion that the file is not read-only. *)
Definition lf_Truncate (lf : logFile) (end_ : Z) : result log_error logFile :=
  if bool_decide (len (lf_Data lf) = end_) then Ok lf
  else if lf_ReadOnly lf then Panic
  else Ok (set_size (set_Data lf (z_Truncate (lf_Data lf) end_)) (u32 end_)).

Definition doneWriting (lf : logFile) (offset : Z) : result log_error logFile := lf_Truncate lf offset.

(** [latest] is the registry's key for new files ([Err]: none could be made), [iv] the random
    twelve bytes. *)
Definition bootstrap (lf : logFile) (latest : result log_error (option DataKey)) (iv : bytes)
    : result log_error logFile :=
  dk ← latest;
  let lf := set_key lf dk iv in
  let buf := U64ToBytes (keyID lf) ++ iv in
  if bool_decide (len iv <> 12) then Panic
  else
    '(data, n) ← unpanic (copy_at (lf_Data lf) 0 buf);
    if bool_decide (n = vlogHeaderSize) then Ok (zeroNextEntry (set_Data lf data)) else Panic.

(** [open]: [file] is the mapped file if there is one, a new one is [fsize] zero bytes; whether
    it is new is returned with it. *)
Definition lf_open (lf : logFile) (file : option bytes) (fsize : Z)
    (latest : result log_error (option DataKey)) (registry : Z -> result log_error (option DataKey))
    (iv : bytes) : result log_error (logFile * bool) :=
  lf ← match file with
       | None => bootstrap (set_Data lf (replicate (Z.to_nat fsize) x00)) latest iv
       | Some d => Ok (set_Data lf d)
       end;
  let lf := set_size lf (u32 (len (lf_Data lf))) in
  if bool_decide (lf_size lf < vlogHeaderSize) then Ok (lf, false)
  else
    buf ← unpanic (slice (lf_Data lf) 0 vlogHeaderSize);
    id ← unpanic (BytesToU64 buf);
    dk ← registry id;
    Ok (set_key lf dk (drop 8 buf), bool_decide (file = None)).
End LogFile.

(** ** Lemmas: decimal numbers *)

Definition parse_acc (acc : option Z) (b : byte) : option Z := v ← acc; d ← digit b; Some (10 * v + d).

Lemma digit_of v : digit (z2b (48 + v mod 10)) = Some (v mod 10).
Proof.
  pose proof (Z.mod_pos_bound v 10 ltac:(lia)) as H. unfold digit. rewrite b2z_z2b, Z.mod_small by lia.
  rewrite bool_decide_eq_true_2 by lia. f_equal. lia.
Qed.

Lemma format_parse fuel : forall v acc, 0 <= v < 10 ^ Z.of_nat (S fuel) ->
  exists ds, format_loop (S fuel) v acc = ds ++ acc /\ ds <> [] /\
    forall a, foldl parse_acc (Some a) ds = Some (a * 10 ^ len ds + v).
Proof.
  assert (forall n v acc, format_loop (S n) v acc = if bool_decide (v < 10) then z2b (48 + v mod 10) :: acc
    else format_loop n (v / 10) (z2b (48 + v mod 10) :: acc)) as HS by done.
  induction fuel as [|fuel IH]; intros v acc Hv; rewrite HS; case_bool_decide as Hlt.
  - exists [z2b (48 + v mod 10)]. split_and!; [done|done|]. intros a. cbn [foldl]. unfold parse_acc.
    rewrite digit_of. cbn. rewrite Z.mod_small by lia. f_equal. unfold len. cbn. lia.
  - cbn in Hv. lia.
  - exists [z2b (48 + v mod 10)]. split_and!; [done|done|]. intros a. cbn [foldl]. unfold parse_acc.
    rewrite digit_of. cbn. rewrite Z.mod_small by lia. f_equal. unfold len. cbn. lia.
  - assert (0 <= v / 10 < 10 ^ Z.of_nat (S fuel)) as Hd.
      { replace (Z.of_nat (S (S fuel))) with (Z.of_nat (S fuel) + 1) in Hv by lia.
        rewrite Z.pow_add_r in Hv by lia.
        split; [apply Z.div_pos; lia|apply Z.div_lt_upper_bound; lia]. }
      destruct (IH (v / 10) (z2b (48 + v mod 10) :: acc) Hd) as (ds & E & Hne & Hp).
      exists (ds ++ [z2b (48 + v mod 10)]). rewrite E, <- app_assoc. split; [done|]. split; [by destruct ds|].
      intros a. rewrite foldl_app, Hp. cbn [foldl]. unfold parse_acc. cbn [mbind option_bind].
      rewrite digit_of. cbn [mbind option_bind]. f_equal. rewrite len_app.
      rewrite Z.pow_add_r by (unfold len; lia). change (len [z2b (48 + v mod 10)]) with 1.
      pose proof (Z.div_mod v 10 ltac:(lia)). lia.
Qed.

Lemma ParseUint_Format v : 0 <= v <= MaxUint64 -> ParseUint (FormatUint v) = Some v.
Proof.
  intros Hv. unfold MaxUint64 in Hv. unfold FormatUint, ParseUint.
  destruct (format_parse 19 v []) as (ds & E & Hne & Hp); [cbn; lia|].
  rewrite E, app_nil_r. rewrite bool_decide_eq_false_2 by done.
  change (foldl _ (Some 0) ds) with (foldl parse_acc (Some 0) ds). rewrite Hp, Z.mul_0_l, Z.add_0_l.
  cbn [mbind option_bind]. rewrite bool_decide_eq_true_2; [done|unfold MaxUint64; lia].
Qed.

(** ** Lemmas: reading varints and headers *)

Lemma ReadUvarint_of buf : forall n i x s v k,
  (0 < n)%nat -> i = 10 - Z.of_nat n -> uvarint_loop buf i x s = (v, k) -> 0 < k ->
  ReadUvarint_loop n buf x s = Ok (v, drop (Z.to_nat (k - i)) buf).
Proof.
  induction buf as [|b buf IH]; intros n i x s v k Hn Hi H Hk; cbn [uvarint_loop] in H.
  { injection H as <- <-. lia. }
  destruct n as [|n]; [lia|]. cbn [ReadUvarint_loop]. unfold MaxVarintLen64 in H.
  rewrite bool_decide_eq_false_2 in H by lia. case_bool_decide as Hb.
  - case_bool_decide as Ho.
    + injection H as <- <-. lia.
    + injection H as <- <-. rewrite bool_decide_eq_false_2 by (intros [? ?]; apply Ho; lia).
      by replace (i + 1 - i) with 1 by lia.
  - destruct n as [|n].
    + exfalso. destruct buf as [|b' buf]; cbn [uvarint_loop] in H; [injection H as <- <-; lia|].
      unfold MaxVarintLen64 in H. rewrite bool_decide_eq_true_2 in H by lia. injection H as <- <-. lia.
    + assert (i + 1 < k) as Hik.
      { clear IH. assert (forall l j y t, (uvarint_loop l j y t).2 > 0 -> (uvarint_loop l j y t).2 > j) as HG.
        { clear. induction l as [|c l IH]; intros j y t; cbn [uvarint_loop]; [cbn; lia|].
          case_bool_decide; [cbn; lia|]. case_bool_decide; [case_bool_decide; cbn; lia|].
          intros Hp. pose proof (IH _ _ _ Hp). lia. }
        match type of H with ?L = _ => pose proof (HG buf (i + 1) (Z.lor x (u64 (Z.shiftl (Z.land (b2z b) 127) s))) (s + 7)) as HH end.
        rewrite H in HH. cbn in HH. lia. }
      rewrite (IH (S n) (i + 1) _ _ v k) by (done || lia).
      replace (k - i) with (Z.succ (k - (i + 1))) by lia.
      by rewrite Z2Nat.inj_succ by lia.
Qed.

Lemma ReadUvarint_Put x rest : is_u64 x -> ReadUvarint (PutUvarint x ++ rest) = Ok (x, rest).
Proof.
  intros Hx. pose proof (Uvarint_Put x rest Hx) as H. pose proof (PutUvarint_length x).
  unfold ReadUvarint, Uvarint in *. rewrite (ReadUvarint_of _ 10 0 0 0 _ _ ltac:(lia) ltac:(lia) H) by lia.
  by rewrite Z.sub_0_r, to_nat_len, drop_app_length.
Qed.

(** A varint that is cut short is one of the two end-of-file errors. *)
Lemma put_loop_prefix fuel : forall v x s n k,
  (k < length (put_loop fuel v))%nat -> (fuel < n)%nat ->
  ReadUvarint_loop n (take k (put_loop fuel v)) x s = Err (if bool_decide (s + 7 * Z.of_nat k = 0) then EOF else ErrUnexpectedEOF)
  \/ s < 0.
Proof.
  induction fuel as [|fuel IH]; intros v x s n k Hk Hn; (destruct n as [|n]; [lia|]).
  - cbn [put_loop length] in *. assert (k = 0)%nat as -> by lia. left. cbn. by rewrite Z.add_0_r.
  - cbn [put_loop] in *. case_bool_decide as Hv; cbn [length] in Hk.
    + destruct k as [|k]; [left; cbn; by rewrite Z.add_0_r|]. cbn [take ReadUvarint_loop].
      destruct (cont_byte v) as [E1 _]. rewrite E1.
      rewrite bool_decide_eq_false_2 by (pose proof (Z.mod_pos_bound v 128); lia).
      match goal with |- ReadUvarint_loop _ _ ?x' _ = _ \/ _ =>
        destruct (IH (Z.shiftr v 7) x' (s + 7) n k) as [->|Hneg]; [lia|lia| |right; lia] end.
      left. by replace (s + 7 + 7 * Z.of_nat k) with (s + 7 * Z.of_nat (S k)) by lia.
    + cbn in Hk. assert (k = 0)%nat as -> by lia. left. cbn. by rewrite Z.add_0_r.
Qed.

Definition is_eof (e : log_error) : Prop := e = EOF \/ e = ErrUnexpectedEOF \/ e = errTruncate.

Lemma ReadUvarint_prefix x k : (k < length (PutUvarint x))%nat ->
  exists e, ReadUvarint (take k (PutUvarint x)) = Err e /\ is_eof e.
Proof.
  intros Hk. unfold ReadUvarint, PutUvarint in *.
  destruct (put_loop_prefix 9 x 0 0 10 k Hk ltac:(lia)) as [->|]; [|lia].
  eexists. split; [done|]. unfold is_eof. case_bool_decide; auto.
Qed.

Lemma header_DecodeFrom_bytes h rest : header_wf h ->
  header_DecodeFrom (header_bytes h ++ rest) = Ok (h, rest).
Proof.
  intros (Hk & Hv & He). unfold header_DecodeFrom, header_bytes. cbn [app ReadByte mbind result_bind].
  rewrite <- !app_assoc. rewrite ReadUvarint_Put by (by apply is_u32_u64). cbn [mbind result_bind].
  rewrite ReadUvarint_Put by (by apply is_u32_u64). cbn [mbind result_bind].
  rewrite ReadUvarint_Put by done. cbn [mbind result_bind]. rewrite !is_u32_wrap by done. by destruct h.
Qed.

Lemma header_DecodeFrom_prefix h k : header_wf h -> (k < length (header_bytes h))%nat ->
  exists e, header_DecodeFrom (take k (header_bytes h)) = Err e /\ is_eof e.
Proof.
  intros (Hk & Hv & He) Hlt. unfold header_DecodeFrom, header_bytes in *.
  destruct k as [|[|k]]; [exists EOF; split; [done|by left]..|].
  cbn [app take ReadByte mbind result_bind]. cbn [app length] in Hlt.
  assert (forall v rest j, is_u64 v -> (j < length (PutUvarint v ++ rest))%nat ->
    (exists e, ReadUvarint (take j (PutUvarint v ++ rest)) = Err e /\ is_eof e) \/
    exists j', ReadUvarint (take j (PutUvarint v ++ rest)) = Ok (v, take j' rest) /\ (j' < length rest)%nat) as HU.
  { intros v rest j Hvv Hj. rewrite take_app. destruct (decide (j < length (PutUvarint v))%nat) as [Hl|Hl].
    - left. replace (j - length (PutUvarint v))%nat with 0%nat by lia. rewrite take_0, app_nil_r.
      by apply ReadUvarint_prefix.
    - right. exists (j - length (PutUvarint v))%nat. rewrite take_ge by lia.
      rewrite ReadUvarint_Put by done. split; [done|]. rewrite length_app in Hj. lia. }
  destruct (HU (klen h) (PutUvarint (vlen h) ++ PutUvarint (expiresAt h)) k) as [(e & -> & He1)|(k1 & -> & H1)];
    [by apply is_u32_u64|lia|by exists e|]. cbn [mbind result_bind].
  destruct (HU (vlen h) (PutUvarint (expiresAt h)) k1) as [(e & -> & He1)|(k2 & -> & H2)];
    [by apply is_u32_u64|lia|by exists e|]. cbn [mbind result_bind].
  destruct (ReadUvarint_prefix (expiresAt h) k2 H2) as (e & -> & He1). by exists e.
Qed.

Lemma ReadRest_app a b n : n = len a -> ReadRest (a ++ b) n = Ok (a, b).
Proof.
  intros ->. unfold ReadRest, ReadFull. rewrite bool_decide_eq_true_2 by (rewrite len_app; unfold len; lia).
  by rewrite to_nat_len, take_app_length, drop_app_length.
Qed.

Lemma ReadRest_short r n : len r < n -> exists e, ReadRest r n = Err e /\ is_eof e.
Proof.
  intros H. unfold ReadRest, ReadFull. rewrite bool_decide_eq_false_2 by lia. unfold is_eof.
  case_bool_decide; eauto.
Qed.

(** ** Lemmas: one record *)

Section Record.
Context `{A : BlockCipher} `{!BlockCipherLaws A} `{M : Mmap} `{!MmapLaws M}.

(** A usable key and IV, if the file is enciphered. *)
Definition cipher_ok (lf : logFile) : Prop :=
  match lf_dataKey lf with
  | None => True
  | Some dk => is_Some (aes_NewCipher (dk_Data dk)) /\ 12 <= len (lf_baseIV lf)
  end.

(** An entry that fits the 32-bit and 16-bit fields of its header. *)
Definition entry_fits (e : Entry) : Prop :=
  len (eKey e) <= 2 ^ 16 /\ len (eKey e) + len (vbytes (eValue e)) + 26 < 2 ^ 32 /\ is_u64 (eExpiresAt e).

Definition entry_header (e : Entry) : header :=
  mkHeader (len (eKey e)) (len (vbytes (eValue e))) (eExpiresAt e) (emeta e) (eUserMeta e).

(** What a reader gets back. *)
Definition entry_read (e : Entry) (off hlen : Z) : Entry :=
  mkEntry (eKey e) (Some (vbytes (eValue e))) (eExpiresAt e) 0 off (eUserMeta e) (emeta e) hlen 0.

Lemma entry_header_wf e : entry_fits e -> header_wf (entry_header e).
Proof. intros (H1 & H2 & H3). unfold header_wf, is_u32. cbn. unfold len in *. split_and!; done || lia. Qed.

Lemma generateIV_ok lf off : 12 <= len (lf_baseIV lf) -> exists iv, generateIV lf off = Some iv /\ len iv = 16.
Proof.
  intros H. unfold generateIV. rewrite bool_decide_eq_true_2 by done. eexists. split; [done|].
  rewrite len_app. unfold len in *. rewrite length_take, be_encode_length. lia.
Qed.

(** Ciphering is total, keeps the length, and a prefix deciphers on its own. *)
Lemma cipher_step lf buf off : cipher_ok lf -> exists c,
  (if encryptionEnabled lf then decryptKV lf buf off else Ok buf) = Ok c /\ length c = length buf /\
  forall rest, exists rest', length rest' = length rest /\
    (if encryptionEnabled lf then decryptKV lf (c ++ rest) off else Ok (c ++ rest)) = Ok (buf ++ rest').
Proof using BlockCipherLaws0.
  intros Hok. unfold encryptionEnabled, cipher_ok in *. destruct (lf_dataKey lf) as [dk|] eqn:Ek.
  - destruct Hok as [[E HE] Hiv]. rewrite bool_decide_eq_true_2 by by eexists.
    destruct (generateIV_ok lf off Hiv) as (iv & Eiv & Hl).
    assert (exists c, XORBlockAllocate buf (dk_Data dk) iv = Ok c) as [c Hc].
    { unfold XORBlockAllocate. rewrite HE, bool_decide_eq_false_2; [by eexists|]. unfold BlockSize. by intros []. }
    unfold decryptKV. rewrite Ek, Eiv. cbn [unpanic mbind result_bind]. rewrite Hc. exists c. split_and!; [done|by apply XORBlockAllocate_length in Hc|].
    intros rest. destruct (XORBlockAllocate_app buf rest (dk_Data dk) iv c Hc) as (rest' & -> & Hr).
    by exists rest'.
  - rewrite bool_decide_eq_false_2 by by intros []. exists buf. split_and!; [done|done|].
    intros rest. by exists rest.
Qed.

(** The bytes of a record: header, body, checksum of both. *)
Definition record_of (h : header) (kv : bytes) : bytes :=
  header_bytes h ++ kv ++ U32ToBytes (crc32c (header_bytes h ++ kv)).

Definition record_len (e : Entry) : Z :=
  len (header_bytes (entry_header e)) + len (eKey e) + len (vbytes (eValue e)) + 4.

Lemma record_length e kv : length kv = length (eKey e ++ vbytes (eValue e)) ->
  len (record_of (entry_header e) kv) = record_len e.
Proof.
  intros Hl. unfold record_of, record_len, U32ToBytes. rewrite !len_app. unfold len in *.
  rewrite be_encode_length, Hl, length_app. lia.
Qed.

Lemma record_len_bound e : entry_fits e -> 0 < record_len e < 2 ^ 32.
Proof.
  intros Hf. pose proof (header_bytes_length _ (entry_header_wf e Hf)) as Hh. destruct Hf as (H1 & H2 & _).
  unfold record_len, maxHeaderSize, len in *. lia.
Qed.

Lemma encodeEntry_ok lf e off : cipher_ok lf -> entry_fits e -> exists kv,
  encodeEntry lf e off = Ok (record_of (entry_header e) kv, record_len e) /\
  length kv = length (eKey e ++ vbytes (eValue e)) /\
  forall rest, exists rest', length rest' = length rest /\
    (if encryptionEnabled lf then decryptKV lf (kv ++ rest) off else Ok (kv ++ rest))
    = Ok ((eKey e ++ vbytes (eValue e)) ++ rest').
Proof using BlockCipherLaws0.
  intros Hok Hf. pose proof (entry_header_wf e Hf) as Hwf. pose proof (header_bytes_length _ Hwf) as Hh.
  destruct (cipher_step lf (eKey e ++ vbytes (eValue e)) off Hok) as (kv & Ekv & Hl & Hd).
  exists kv. split_and!; [|done|done]. unfold encodeEntry.
  destruct Hf as (H1 & H2 & H3).
  rewrite !(wrap_small 32) by (unfold len in *; lia). fold (entry_header e).
  assert (replicate (Z.to_nat maxHeaderSize) x00
    = replicate (length (header_bytes (entry_header e))) x00
      ++ replicate (Z.to_nat maxHeaderSize - length (header_bytes (entry_header e))) x00) as ->.
  { rewrite <- replicate_add. f_equal. unfold len in *. lia. }
  rewrite header_Encode_bytes by by rewrite length_replicate. cbn [unpanic mbind result_bind].
  rewrite Ekv. cbn [mbind result_bind]. rewrite to_nat_len, take_app_length. done.
Qed.

Lemma encode_length lf e off r n : cipher_ok lf -> entry_fits e -> encodeEntry lf e off = Ok (r, n) ->
  n = record_len e /\ len r = record_len e.
Proof using BlockCipherLaws0.
  intros Hok Hf E. destruct (encodeEntry_ok lf e off Hok Hf) as (kv & E' & Hl & _). rewrite E in E'.
  injection E' as -> ->. split; [done|by apply record_length].
Qed.

(** Files with the same key encipher alike. *)
Definition same_key (lf lf' : logFile) : Prop :=
  lf_dataKey lf = lf_dataKey lf' /\ lf_baseIV lf = lf_baseIV lf'.

Lemma encodeEntry_same lf lf' e off : same_key lf lf' -> encodeEntry lf e off = encodeEntry lf' e off.
Proof using Type.
  intros (E2 & E3). unfold encodeEntry, encryptionEnabled, decryptKV, generateIV. by rewrite E2, E3.
Qed.

(** The reader gives a record back, and what is behind it. *)
Lemma safeRead_record lf e off rest : cipher_ok lf -> entry_fits e -> forall r n,
  encodeEntry lf e off = Ok (r, n) ->
  safeRead_Entry lf (r ++ rest) off = Ok (entry_read e off (len (header_bytes (entry_header e))), rest).
Proof using BlockCipherLaws0.
  intros Hok Hf r n E. pose proof (entry_header_wf e Hf) as Hwf.
  destruct (encodeEntry_ok lf e off Hok Hf) as (kv & E' & Hl & Hd). rewrite E in E'. injection E' as -> ->.
  unfold safeRead_Entry, record_of. rewrite <- !app_assoc, header_DecodeFrom_bytes by done.
  cbn [mbind result_bind]. destruct Hf as (H1 & H2 & H3). cbn [klen vlen entry_header expiresAt hmeta huserMeta].
  rewrite bool_decide_eq_false_2 by (change (Z.shiftl 1 16) with (2 ^ 16); lia).
  rewrite wrap_small by (unfold len in *; lia).
  set (hb := header_bytes (entry_header e)) in *. set (crc := U32ToBytes (crc32c (hb ++ kv))) in *.
  assert (len crc = 4) as Hcrc by (unfold crc, U32ToBytes, len; by rewrite be_encode_length).
  assert (len kv = len (eKey e) + len (vbytes (eValue e))) as Hlk by (unfold len; rewrite Hl, length_app; lia).
  cbv zeta. rewrite ReadRest_app by lia. cbn [mbind result_bind].
  destruct (Hd []) as (rest' & Hr & Ed). apply nil_length_inv in Hr as ->. rewrite !app_nil_r in Ed. rewrite Ed.
  cbn [mbind result_bind].
  pose proof (slice_app_mid [] (eKey e) (vbytes (eValue e))) as Hs1. cbn [app] in Hs1.
  change (len []) with 0 in Hs1. rewrite Z.add_0_l in Hs1. rewrite Hs1. cbn [unpanic mbind result_bind].
  rewrite slice_from_app. cbn [unpanic mbind result_bind].
  rewrite ReadRest_app by done. cbn [mbind result_bind].
  assert (BytesToU32 crc = Some (crc32c (hb ++ kv))) as ->.
  { unfold BytesToU32. pose proof (slice_app_mid [] crc []) as Hs. rewrite app_nil_l, app_nil_r, Hcrc in Hs.
    change (len [] + 4) with 4 in Hs. change (len []) with 0 in Hs. rewrite Hs. cbn. unfold crc, U32ToBytes.
    rewrite be_roundtrip4, wrap_small; [done|apply crc32c_range]. }
  cbn [unpanic mbind result_bind].
  assert (take (Z.to_nat (len (hb ++ kv ++ crc ++ rest) - len (kv ++ crc ++ rest))) (hb ++ kv ++ crc ++ rest) = hb) as ->.
  { rewrite (len_app hb). replace (_ + _ - _) with (len hb) by lia. by rewrite to_nat_len, take_app_length. }
  rewrite bool_decide_eq_false_2 by auto. rewrite (len_app hb). unfold entry_read.
  by replace (len hb + len (kv ++ crc ++ rest) - len (kv ++ crc ++ rest)) with (len hb) by lia.
Qed.

(** Reading back at the value pointer of a record. *)
Lemma decodeEntry_record lf e off r n : cipher_ok lf -> entry_fits e ->
  encodeEntry lf e off = Ok (r, n) -> decodeEntry lf r off = Ok (entry_read e off 0).
Proof using BlockCipherLaws0.
  intros Hok Hf E. pose proof (entry_header_wf e Hf) as Hwf.
  destruct (encodeEntry_ok lf e off Hok Hf) as (kv & E' & Hl & Hd). rewrite E in E'. injection E' as -> ->.
  unfold decodeEntry, record_of. rewrite header_Decode_bytes by done. cbn [unpanic mbind result_bind].
  rewrite slice_from_app. cbn [unpanic mbind result_bind].
  destruct (Hd (U32ToBytes (crc32c (header_bytes (entry_header e) ++ kv)))) as (rest' & _ & ->).
  cbn [mbind result_bind klen vlen entry_header expiresAt hmeta huserMeta].
  destruct Hf as (H1 & H2 & _). rewrite wrap_small by (unfold len in *; lia). rewrite <- app_assoc.
  pose proof (slice_app_mid [] (eKey e) (vbytes (eValue e) ++ rest')) as Hs1. cbn [app] in Hs1.
  change (len []) with 0 in Hs1. rewrite Z.add_0_l in Hs1. rewrite Hs1. cbn [unpanic mbind result_bind].
  rewrite slice_app_mid. done.
Qed.

(** What ends a log: the reader stops at it. *)
Definition stops (lf : logFile) (t : bytes) (off : Z) : Prop :=
  exists e, safeRead_Entry lf t off = Err e /\ is_eof e.

Definition zero_tail (t : bytes) : Prop := Forall (fun b => b = x00) (take 9 t).

Definition zero_header : header := mkHeader 0 0 0 x00 x00.

Lemma zero_tail_stops lf t off : cipher_ok lf -> zero_tail t -> stops lf t off.
Proof using BlockCipherLaws0.
  intros Hok Hz. unfold stops, safeRead_Entry.
  assert (header_wf zero_header) as Hwf by (unfold header_wf, is_u32, is_u64; cbn; lia).
  assert (header_bytes zero_header = replicate 5 x00) as Eh by (vm_compute; reflexivity).
  destruct (decide (length t < 5)%nat) as [Hs|Hs].
  { assert (t = take (length t) (header_bytes zero_header)) as Et.
    { rewrite Eh, take_replicate. replace (length t `min` 5)%nat with (length t) by lia.
      unfold zero_tail in Hz. rewrite take_ge in Hz by lia. clear -Hz.
      induction Hz as [|b t -> Hz IH]; [done|]. cbn. by rewrite <- IH. }
    destruct (header_DecodeFrom_prefix zero_header (length t) Hwf) as (e & He1 & He);
      [by rewrite Eh|]. rewrite <- Et in He1. rewrite He1. by exists e. }
  assert (exists r, t = header_bytes zero_header ++ r /\ Forall (fun b => b = x00) (take 4 r)) as (r & -> & Hr).
  { exists (drop 5 t). rewrite Eh. unfold zero_tail in Hz. rewrite <- (take_drop 5 t) in Hz |- *.
    assert (length (take 5 t) = 5%nat) as Hl by (rewrite length_take; lia).
    rewrite (drop_app_length' (take 5 t)) by done.
    rewrite take_app, Hl, take_ge in Hz by lia. apply Forall_app in Hz as [H1 H2]. split; [|done]. f_equal.
    clear -H1 Hl. remember (take 5 t) as l. clear Heql t. revert Hl. generalize 5%nat.
    induction H1 as [|b l -> Hl' IH]; intros [|n] Hl; try done. cbn. f_equal. apply IH. by injection Hl. }
  rewrite header_DecodeFrom_bytes by done. cbn [mbind result_bind klen vlen zero_header].
  rewrite bool_decide_eq_false_2 by by vm_compute. cbv zeta.
  change (u32 (0 + 0)) with (len (@nil byte)). rewrite (ReadRest_app [] r) by done. cbn [mbind result_bind].
  destruct (cipher_step lf [] off Hok) as (c & -> & Hc & _). apply nil_length_inv in Hc as ->. cbn [mbind result_bind].
  change (slice [] 0 0) with (Some (@nil byte)). change (slice_from [] 0) with (Some (@nil byte)).
  cbn [unpanic mbind result_bind].
  destruct (decide (len r < 4)) as [Hl|Hl].
  { destruct (ReadRest_short r 4 Hl) as (e & -> & He). by exists e. }
  assert (exists r', r = replicate 4 x00 ++ r') as [r' ->].
  { exists (drop 4 r). rewrite <- (take_drop 4 r) at 1. f_equal.
    assert (length (take 4 r) = 4%nat) as Hl' by (rewrite length_take; unfold len in *; lia).
    clear -Hr Hl'. remember (take 4 r) as l. clear Heql r. revert Hl'. generalize 4%nat.
    induction Hr as [|b l -> Hl IH]; intros [|n] Hl'; try done. cbn. f_equal. apply IH. by injection Hl'. }
  rewrite ReadRest_app by done. cbn [mbind result_bind].
  change (BytesToU32 (replicate 4 x00)) with (Some 0). cbn [unpanic mbind result_bind].
  rewrite (len_app (header_bytes zero_header)). replace (_ + _ - _) with (len (header_bytes zero_header)) by lia.
  rewrite to_nat_len, take_app_length, app_nil_r, Eh.
  rewrite bool_decide_eq_true_2 by by vm_compute. exists errTruncate. split; [done|]. unfold is_eof. auto.
Qed.

(** A record whose end is missing. *)
Lemma torn_stops lf e off r n k : cipher_ok lf -> entry_fits e -> encodeEntry lf e off = Ok (r, n) ->
  (k < length r)%nat -> stops lf (take k r) off.
Proof using BlockCipherLaws0.
  intros Hok Hf E Hk. pose proof (entry_header_wf e Hf) as Hwf.
  destruct (encodeEntry_ok lf e off Hok Hf) as (kv & E' & Hl & Hd). rewrite E in E'. injection E' as -> ->.
  unfold stops, safeRead_Entry. unfold record_of in *. set (hb := header_bytes (entry_header e)) in *.
  set (crc := U32ToBytes _) in *. rewrite take_app.
  destruct (decide (k < length hb)%nat) as [Hs|Hs].
  { replace (k - length hb)%nat with 0%nat by lia. rewrite take_0, app_nil_r.
    destruct (header_DecodeFrom_prefix (entry_header e) k Hwf Hs) as (er & He1 & He). fold hb in He1.
    rewrite He1. by exists er. }
  rewrite (take_ge hb) by lia. unfold hb. rewrite header_DecodeFrom_bytes by done. fold hb.
  cbn [mbind result_bind klen vlen entry_header]. destruct Hf as (H1 & H2 & H3).
  rewrite bool_decide_eq_false_2 by (change (Z.shiftl 1 16) with (2 ^ 16); lia).
  rewrite wrap_small by (unfold len in *; lia). cbv zeta.
  assert (len kv = len (eKey e) + len (vbytes (eValue e))) as Hlk by (unfold len; rewrite Hl, length_app; lia).
  set (k' := (k - length hb)%nat) in *.
  assert (length crc = 4%nat) as Hcrc by (unfold crc, U32ToBytes; by rewrite be_encode_length).
  destruct (decide (k' < length kv)%nat) as [Hs2|Hs2].
  { destruct (ReadRest_short (take k' (kv ++ crc)) (len (eKey e) + len (vbytes (eValue e)))) as (er & -> & He);
      [|by exists er]. unfold len at 1. rewrite length_take, length_app. unfold len in Hlk |- *. lia. }
  assert (take k' (kv ++ crc) = kv ++ take (k' - length kv) crc) as -> by (rewrite take_app, (take_ge kv) by lia; done).
  rewrite ReadRest_app by lia. cbn [mbind result_bind].
  destruct (Hd []) as (rest' & Hr & Ed). apply nil_length_inv in Hr as ->. rewrite !app_nil_r in Ed. rewrite Ed.
  cbn [mbind result_bind].
  pose proof (slice_app_mid [] (eKey e) (vbytes (eValue e))) as Hs1. cbn [app] in Hs1.
  change (len []) with 0 in Hs1. rewrite Z.add_0_l in Hs1. rewrite Hs1. cbn [unpanic mbind result_bind].
  rewrite slice_from_app. cbn [unpanic mbind result_bind].
  destruct (ReadRest_short (take (k' - length kv) crc) 4) as (er & -> & He); [|by exists er].
  unfold len. rewrite length_take. rewrite !length_app in Hk. lia.
Qed.

Lemma zeroed_tail d at_ : 0 <= at_ -> (Z.to_nat at_ <= length d)%nat ->
  exists t, z_ZeroOut d at_ (at_ + maxHeaderSize) = take (Z.to_nat at_) d ++ t /\ zero_tail t.
Proof using MmapLaws0.
  intros H0 Hl. set (z := z_ZeroOut d at_ (at_ + maxHeaderSize)).
  assert (length z = length d) as Hz by apply ZeroOut_length.
  exists (drop (Z.to_nat at_) z). split.
  - rewrite <- (take_drop (Z.to_nat at_) z) at 1. f_equal. apply list_eq. intros i.
    destruct (decide (i < Z.to_nat at_)%nat) as [Hi|Hi].
    + rewrite !lookup_take by done. destruct (decide (i < Z.to_nat at_)%nat); [|done].
      apply ZeroOut_out; [done|lia].
    + rewrite !lookup_ge_None_2 by (rewrite length_take; lia). done.
  - unfold zero_tail. apply Forall_lookup. intros i b. rewrite lookup_take_Some, lookup_drop. intros [Hb Hi].
    apply lookup_lt_Some in Hb as Hlt.
    unfold z in Hb. rewrite ZeroOut_in in Hb; [congruence|done| |by rewrite <- Hz].
    unfold maxHeaderSize. lia.
Qed.

(** ** Lemmas: opening *)

(** The key registry: the key a new file gets is found under its id, and usable. *)
Record registry_ok (latest : result log_error (option DataKey))
    (registry : Z -> result log_error (option DataKey)) (iv : bytes) (dk : option DataKey) : Prop := {
  ro_latest : latest = Ok dk;
  ro_id : is_u64 (from_option dk_KeyId 0 dk);
  ro_registry : registry (from_option dk_KeyId 0 dk) = Ok dk;
  ro_key : forall k, dk = Some k -> is_Some (aes_NewCipher (dk_Data k));
  ro_iv : len iv = 12
}.

Definition log_header (dk : option DataKey) (iv : bytes) : bytes := U64ToBytes (from_option dk_KeyId 0 dk) ++ iv.

Lemma log_header_length latest registry iv dk : registry_ok latest registry iv dk -> len (log_header dk iv) = 20.
Proof using Type. intros [_ _ _ _ H]. unfold log_header, U64ToBytes. rewrite len_app. unfold len in *. rewrite be_encode_length. lia. Qed.

Lemma open_bytes latest registry iv dk lf body file fsize : registry_ok latest registry iv dk ->
  len (log_header dk iv ++ body) < 2 ^ 32 ->
  (file = Some (log_header dk iv ++ body) \/ file = None /\
    bootstrap (set_Data lf (replicate (Z.to_nat fsize) x00)) latest iv
    = Ok (set_key (set_Data lf (log_header dk iv ++ body)) dk iv)) ->
  lf_open lf file fsize latest registry iv
  = Ok (mkLog (lf_fid lf) (log_header dk iv ++ body) (len (log_header dk iv ++ body)) dk iv (lf_writeAt lf) (lf_ReadOnly lf),
        bool_decide (file = None)).
Proof using Type.
  intros Hro Hl Hf. pose proof (log_header_length _ _ _ _ Hro) as Hh. destruct Hro as [_ Hid Hreg _ Hiv].
  unfold lf_open. set (d := log_header dk iv ++ body) in *.
  assert (exists lf0, (match file with
     | None => bootstrap (set_Data lf (replicate (Z.to_nat fsize) x00)) latest iv
     | Some d => Ok (set_Data lf d) end) = Ok lf0 /\ lf_fid lf0 = lf_fid lf /\ lf_Data lf0 = d /\
     lf_writeAt lf0 = lf_writeAt lf /\ lf_ReadOnly lf0 = lf_ReadOnly lf) as (lf0 & -> & E1 & E2 & E3 & E4).
  { destruct Hf as [->|[-> ->]]; eexists; by split_and!. }
  cbn [mbind result_bind]. unfold set_size, set_key. cbv zeta. cbn [lf_size lf_Data lf_fid lf_writeAt lf_ReadOnly].
  rewrite E1, E2, E3, E4, (wrap_small 32) by (unfold len in *; lia).
  assert (len d = 20 + len body) as Ed by (unfold d; rewrite len_app; lia).
  unfold vlogHeaderSize. rewrite bool_decide_eq_false_2 by (unfold len in *; lia).
  assert (slice d 0 20 = Some (log_header dk iv)) as ->.
  { pose proof (slice_app_mid [] (log_header dk iv) body) as Hs. rewrite Hh in Hs. exact Hs. }
  cbn [unpanic mbind result_bind]. unfold BytesToU64, log_header, U64ToBytes.
  pose proof (be_slice_app 8 (from_option dk_KeyId 0 dk) iv) as Hb. change (Z.of_nat 8) with 8 in Hb. rewrite Hb.
  cbn [unpanic mbind result_bind]. unfold is_u64 in Hid.
  rewrite Z.mod_small by lia.
  rewrite Hreg. cbn [mbind result_bind]. rewrite drop_app_length' by by rewrite be_encode_length. done.
Qed.

(** A new file: a header and zeros. *)
Lemma lf_open_new latest registry iv dk lf fsize : registry_ok latest registry iv dk -> 20 <= fsize < 2 ^ 32 ->
  lf_writeAt lf = 20 ->
  exists body, len (log_header dk iv ++ body) = fsize /\ zero_tail body /\
    lf_open lf None fsize latest registry iv
    = Ok (mkLog (lf_fid lf) (log_header dk iv ++ body) fsize dk iv (lf_writeAt lf) (lf_ReadOnly lf), true).
Proof using BlockCipherLaws0 MmapLaws0.
  intros Hro Hfs Hat. pose proof (log_header_length _ _ _ _ Hro) as Hh.
  assert (exists body, len (log_header dk iv ++ body) = fsize /\ zero_tail body /\
    bootstrap (set_Data lf (replicate (Z.to_nat fsize) x00)) latest iv
    = Ok (set_key (set_Data lf (log_header dk iv ++ body)) dk iv)) as (body & Hl & Hz & Eb).
  { set (m := (Z.to_nat fsize - 20)%nat).
    assert (replicate (Z.to_nat fsize) x00 = replicate 20 x00 ++ replicate m x00) as Er.
    { rewrite <- replicate_add. f_equal. lia. }
    pose proof Hro as [El Hid Hreg _ Hiv].
    destruct (zeroed_tail (log_header dk iv ++ replicate m x00) 20) as (t & Ez & Hz);
      [lia|rewrite length_app, length_replicate; unfold len in Hh; lia|].
    rewrite take_app_length' in Ez by (unfold len in Hh; lia).
    assert (len (log_header dk iv ++ t) = fsize) as Hlt.
    { rewrite <- Ez. unfold len. rewrite ZeroOut_length, length_app, length_replicate. unfold len in Hh. lia. }
    exists t. split_and!; [done|done|]. unfold bootstrap. rewrite El. cbn [mbind result_bind].
    rewrite bool_decide_eq_false_2 by lia.
    unfold set_key, set_Data, keyID. cbv [lf_Data lf_dataKey].
    rewrite Er. change (U64ToBytes (from_option dk_KeyId 0 dk) ++ iv) with (log_header dk iv).
    pose proof (copy_at_app [] (replicate 20 x00) (replicate m x00) (log_header dk iv)) as Hc.
    change (len []) with 0 in Hc. cbn [app] in Hc. rewrite Hc by (rewrite length_replicate; unfold len in Hh; lia).
    cbn [unpanic mbind result_bind]. unfold vlogHeaderSize in *. rewrite bool_decide_eq_true_2 by done.
    unfold zeroNextEntry, set_Data. cbn [lf_Data lf_writeAt]. rewrite Hat.
    rewrite (wrap_small 32 (20 + maxHeaderSize)) by (unfold maxHeaderSize; lia). by rewrite Ez. }
  exists body. split_and!; [done|done|].
  rewrite (open_bytes latest registry iv dk lf body None fsize Hro) by (lia || by right).
  rewrite bool_decide_eq_true_2 by done. by rewrite Hl.
Qed.

(** ** Properties *)

(** C36: An entry survives being written to a log and read back, enciphered or not: the record
    [encodeEntry] makes has the length it returns, [decodeEntry] at its offset gives the entry
    (key, value, meta, user meta, expiry), [read] at its value pointer gives its bytes, the
    reader of a replay gives the entry and goes on right behind it, and a record of which any
    part of the end is missing is a clean end of the log, never a wrong entry. *)
Theorem entry_roundtrip lf e off : cipher_ok lf -> entry_fits e -> exists r,
  encodeEntry lf e off = Ok (r, len r) /\
  decodeEntry lf r off = Ok (entry_read e off 0) /\
  (forall pre post, lf_Data lf = pre ++ r ++ post -> off = len pre ->
     len (lf_Data lf) = lf_size lf -> lf_size lf < 2 ^ 32 ->
     lf_read lf (mkVP (lf_fid lf) (len r) off) = Ok r) /\
  (forall rest, safeRead_Entry lf (r ++ rest) off
     = Ok (entry_read e off (len (header_bytes (entry_header e))), rest)) /\
  (forall k, (k < length r)%nat -> exists er, safeRead_Entry lf (take k r) off = Err er /\ is_eof er).
Proof using BlockCipherLaws0.
  intros Hok Hf. destruct (encodeEntry_ok lf e off Hok Hf) as (kv & E & Hl & _).
  pose proof (record_length e kv Hl) as Hr. exists (record_of (entry_header e) kv). rewrite Hr. split; [done|].
  split; [by eapply decodeEntry_record|]. split; [|split].
  - intros pre post Ed -> Hs Hlt. pose proof (record_len_bound e Hf) as Hb. unfold lf_read. cbn [Offset Len].
    rewrite Hs in *. assert (lf_size lf = len pre + (record_len e + len post)) as Es.
    { rewrite <- Hs, Ed, !len_app. lia. }
    rewrite (wrap_small 32) by (unfold len in *; lia).
    rewrite !bool_decide_eq_false_2 by (unfold len in *; lia). cbn [orb]. rewrite Ed, <- Hr, slice_app_mid. done.
  - intros rest. by eapply safeRead_record.
  - intros k Hk. by eapply torn_stops.
Qed.

(** A header whose lengths wrap around: the body is allocated shorter than the key. *)
Lemma corrupt_header_panics lf rest : lf_dataKey lf = None ->
  safeRead_Entry lf (header_bytes (mkHeader 1 (2 ^ 32 - 1) 0 x00 x00) ++ rest) 20 = Panic.
Proof using Type.
  intros Hk. unfold safeRead_Entry. rewrite header_DecodeFrom_bytes by (unfold header_wf, is_u32, is_u64; cbn; lia).
  cbn [mbind result_bind klen vlen]. rewrite bool_decide_eq_false_2 by by vm_compute. cbv zeta.
  change (u32 (1 + (2 ^ 32 - 1))) with (len (@nil byte)). rewrite (ReadRest_app [] rest) by done.
  cbn [mbind result_bind]. unfold encryptionEnabled. rewrite Hk. rewrite bool_decide_eq_false_2 by by intros [].
  done.
Qed.
End Record.

(** A mapping for examples. *)
#[export] Instance plain_mmap : Mmap := {
  z_ZeroOut d s e := imap (fun i b => if bool_decide (Z.to_nat s <= i < Z.to_nat e)%nat then x00 else b) d;
  z_Truncate d n := resize (Z.to_nat n) x00 d
}.

#[export] Instance plain_mmap_laws : MmapLaws plain_mmap.
Proof.
  split; unfold z_ZeroOut, z_Truncate, plain_mmap.
  - intros. apply length_imap.
  - intros d s e i _ Hi [b Hb]%lookup_lt_is_Some_2. rewrite list_lookup_imap, Hb. cbn.
    by rewrite bool_decide_eq_true_2.
  - intros d s e i _ Hi. rewrite list_lookup_imap. destruct (d !! i); [cbn|done].
    by rewrite bool_decide_eq_false_2.
  - done.
Qed.

Definition ex_log : logFile := mkLog 1 [] 0 (Some (mkDataKey 7 (replicate 16 x2a))) (replicate 12 x11) 20 false.
Definition ex_entry : Entry := mkEntry (KeyWithTs [x61] 3) (Some [x01; x02]) 9 0 0 x00 x40 0 0.

Lemma entry_roundtrip_witness : cipher_ok ex_log /\ exists r,
  encodeEntry ex_log ex_entry 20 = Ok (r, len r) /\ decodeEntry ex_log r 20 = Ok (entry_read ex_entry 20 0).
Proof.
  assert (cipher_ok ex_log) as Hok by (split; [by eexists|by vm_compute]). split; [exact Hok|].
  destruct (entry_roundtrip ex_log ex_entry 20 Hok) as (r & E & Ed & _).
  - split; [by vm_compute|]. split; [vm_compute; reflexivity|]. cbn. unfold is_u64. lia.
  - exists r. split; [exact E|exact Ed].
Defined.
