(* ===== verification/KeyRegistry.v ===== *)
(** * KeyRegistry: the file of data keys (key_registry.go)

    Files are enciphered with data keys, which the registry keeps in a file of its own, each
    enciphered with the user's key.  Reading the file back gives the keys that were made, under
    any interleaving of rotations, reopening and rewriting with another user key; and the key it
    hands out is what log files and tables rely on ([LogFile.registry_ok]). *)

From S2P Require Import Prelude Keys Codec Checksum Encrypt LogFile.

(** [pb.DataKey]. *)
Record pbDataKey : Type := mkPbKey { k_KeyId : Z; k_Data : bytes; k_CreatedAt : Z; k_Iv : bytes }.

#[export] Instance pbDataKey_eq_decision : EqDecision pbDataKey.
Proof. solve_decision. Defined.

(** [proto.Marshal] and [proto.Unmarshal] on [pb.DataKey]. *)
Class DataKeyCodec : Type := {
  dk_Marshal : pbDataKey -> bytes;
  dk_Unmarshal : bytes -> option pbDataKey
}.

(** Marshalling is inverted; a message is at least a tag and a number as soon as a field is set,
    and its overhead is a few tags and varints. *)
Class DataKeyCodecLaws (D : DataKeyCodec) : Prop := {
  dk_roundtrip k : is_u64 (k_KeyId k) -> 0 <= k_CreatedAt k < 2 ^ 63 -> len (k_Data k) + len (k_Iv k) < 2 ^ 30 ->
    dk_Unmarshal (dk_Marshal k) = Some k;
  dk_nonempty k : k_KeyId k <> 0 -> dk_Marshal k <> [];
  dk_size k : len (dk_Marshal k) <= 100 + len (k_Data k) + len (k_Iv k)
}.

Record KeyRegistryOptions : Type := mkKro {
  kro_ReadOnly : bool;
  kro_EncryptionKey : bytes;
  kro_Rotation : Z;                 (* EncryptionKeyRotationDuration, in nanoseconds *)
  kro_InMemory : bool
}.

(** [kr_fp]: the open file, [None] when it is closed or there is none; it is written at its end. *)
Record KeyRegistry : Type := mkKr {
  dataKeys : gmap Z pbDataKey;
  lastCreated : Z;
  nextKeyID : Z;
  kr_fp : option bytes;
  kr_opt : KeyRegistryOptions
}.

(** [ErrRead] is a wrapped error of [Read], end of file included. *)
Inductive kr_error : Type :=
  | KrEOF | ErrRead | ErrInvalidEncryptionKey | ErrEncryptionKeyMismatch | ErrChecksumMismatch | ErrUnmarshal
  | ErrCipher | ErrInvalidDataKeyID | ErrWrite.

Definition lift_cipher {A} (r : result unit A) : result kr_error A :=
  match r with Ok a => Ok a | Err _ => Err ErrCipher | Panic => Panic end.

Definition sanityText : bytes := list_byte_of_string "Hello Badger".

(** [fp.Read(buf)] of a file with [rest] left: a short read is no error and leaves the end of the
    buffer as it was. *)
Definition fp_Read (buf rest : bytes) : result kr_error (bytes * bytes) :=
  match buf, rest with
  | [], _ => Ok ([], rest)
  | _, [] => Err KrEOF
  | _, _ => Ok (take (length buf) rest ++ drop (length rest) buf, drop (length buf) rest)
  end.

(** The file after an open registry's records and what the iterator keeps between records. *)
Record keyRegistryIterator : Type := mkKri { kri_key : bytes; kri_rest : bytes; lenCrcBuf : bytes }.

Definition newKeyRegistry (opt : KeyRegistryOptions) : KeyRegistry := mkKr ∅ 0 0 None opt.

Definition set_fp (kr : KeyRegistry) (fp : option bytes) : KeyRegistry :=
  mkKr (dataKeys kr) (lastCreated kr) (nextKeyID kr) fp (kr_opt kr).

Section KeyRegistry.
Context `{A : BlockCipher} `{D : DataKeyCodec}.

(** What is left of the file after the header. *)
Definition validRegistry (file encryptionKey : bytes) : result kr_error bytes :=
  let wrap {T} (r : result kr_error T) : result kr_error T := match r with Err KrEOF => Err ErrRead | r => r end in
  '(iv, rest) ← wrap (fp_Read (replicate 16 x00) file);
  '(e, rest) ← wrap (fp_Read (replicate (length sanityText) x00) rest);
  e ← (match encryptionKey with [] => Ok e | _ => lift_cipher (XORBlockAllocate e encryptionKey iv) end);
  if bool_decide (e = sanityText) then Ok rest else Err ErrEncryptionKeyMismatch.

Definition newKeyRegistryIterator (file encryptionKey : bytes) : result kr_error keyRegistryIterator :=
  rest ← validRegistry file encryptionKey;
  Ok (mkKri encryptionKey rest (replicate 8 x00)).

(** [next] *)
Definition kri_next (i : keyRegistryIterator) : result kr_error (pbDataKey * keyRegistryIterator) :=
  '(buf, rest) ← fp_Read (lenCrcBuf i) (kri_rest i);
  l ← unpanic (BytesToU32 buf);
  '(data, rest) ← fp_Read (replicate (Z.to_nat l) x00) rest;
  crc ← unpanic (BytesToU32 (drop 4 buf));
  if bool_decide (crc32c data <> crc) then Err ErrChecksumMismatch
  else
    match dk_Unmarshal data with
    | None => Err ErrUnmarshal
    | Some k =>
        data ← (match kri_key i with
                | [] => Ok (k_Data k)
                | key => lift_cipher (XORBlockAllocate (k_Data k) key (k_Iv k))
                end);
        Ok (mkPbKey (k_KeyId k) data (k_CreatedAt k) (k_Iv k), mkKri (kri_key i) rest buf)
    end.

(** A key that was read joins the registry. *)
Definition add_key (kr : KeyRegistry) (k : pbDataKey) : KeyRegistry :=
  mkKr (<[k_KeyId k := k]> (dataKeys kr)) (if bool_decide (lastCreated kr < k_CreatedAt k) then k_CreatedAt k else lastCreated kr)
    (if bool_decide (nextKeyID kr < k_KeyId k) then k_KeyId k else nextKeyID kr) (kr_fp kr) (kr_opt kr).

(** The loop of [readKeyRegistry]; every turn takes at least a byte from the file. *)
Fixpoint read_keys (fuel : nat) (kr : KeyRegistry) (i : keyRegistryIterator) : result kr_error KeyRegistry :=
  match fuel with
  | O => Panic
  | S fuel =>
      match kri_next i with
      | Ok (k, i) => read_keys fuel (add_key kr k) i
      | Err KrEOF => Ok kr
      | Err e => Err e
      | Panic => Panic
      end
  end.

Definition readKeyRegistry (file : bytes) (opt : KeyRegistryOptions) : result kr_error KeyRegistry :=
  i ← newKeyRegistryIterator file (kro_EncryptionKey opt);
  read_keys (S (length file)) (newKeyRegistry opt) i.

(** What [storeDataKey] appends to the buffer; the key in memory is deciphered again. *)
Definition storeDataKey (storageKey : bytes) (k : pbDataKey) : result kr_error bytes :=
  data ← (match storageKey with [] => Ok (k_Data k) | _ => lift_cipher (XORBlockAllocate (k_Data k) storageKey (k_Iv k)) end);
  let data := dk_Marshal (mkPbKey (k_KeyId k) data (k_CreatedAt k) (k_Iv k)) in
  Ok (U32ToBytes (u32 (len data)) ++ U32ToBytes (crc32c data) ++ data).

Fixpoint store_keys (storageKey : bytes) (ks : list pbDataKey) : result kr_error bytes :=
  match ks with
  | [] => Ok []
  | k :: ks => b ← storeDataKey storageKey k; r ← store_keys storageKey ks; Ok (b ++ r)
  end.

(** The new file; [iv] is random and [order] the order in which the map of keys is gone through. *)
Definition WriteKeyRegistry (iv : bytes) (order : list pbDataKey) (opt : KeyRegistryOptions) : result kr_error bytes :=
  e ← (match kro_EncryptionKey opt with [] => Ok sanityText | key => lift_cipher (XORBlockAllocate sanityText key iv) end);
  ks ← store_keys (kro_EncryptionKey opt) order;
  Ok (iv ++ e ++ ks).

(** [file]: the registry's file, if there is one.  The file afterwards is returned too. *)
Definition OpenKeyRegistry (file : option bytes) (iv : bytes) (opt : KeyRegistryOptions)
    : result kr_error (KeyRegistry * option bytes) :=
  let n := len (kro_EncryptionKey opt) in
  if bool_decide (0 < n) && negb (bool_decide (n = 16 \/ n = 24 \/ n = 32)) then Err ErrInvalidEncryptionKey
  else if kro_InMemory opt then Ok (newKeyRegistry opt, file)
  else
    match file with
    | None =>
        if kro_ReadOnly opt then Ok (newKeyRegistry opt, None)
        else
          f ← WriteKeyRegistry iv [] opt;
          kr ← readKeyRegistry f opt;
          Ok (set_fp kr (Some f), Some f)
    | Some f =>
        kr ← readKeyRegistry f opt;
        Ok (if kro_ReadOnly opt then kr else set_fp kr (Some f), Some f)
    end.

(** [DataKey]; [None] is for plain text. *)
Definition getDataKey (kr : KeyRegistry) (id : Z) : result kr_error (option pbDataKey) :=
  if bool_decide (id = 0) then Ok None
  else match dataKeys kr !! id with None => Err ErrInvalidDataKeyID | k => Ok k end.

(** [time.Since(time.Unix(created, 0))], which saturates; [now] is in nanoseconds. *)
Definition time_Since (now created : Z) : Z := Z.max (- 2 ^ 63) (Z.min (2 ^ 63 - 1) (now - created * 10 ^ 9)).

Definition validKey (kr : KeyRegistry) (now : Z) : option (option pbDataKey) :=
  if bool_decide (time_Since now (lastCreated kr) < kro_Rotation (kr_opt kr)) then Some (dataKeys kr !! nextKeyID kr) else None.

(** The clock is read up to three times; [iv] and [k] are the random bytes, as many as the block
    and the user's key have.  With an error the state may have moved. *)
Definition LatestDataKey (now1 now2 now3 : Z) (iv k : bytes) (kr : KeyRegistry) : KeyRegistry * result kr_error (option pbDataKey) :=
  match kro_EncryptionKey (kr_opt kr) with
  | [] => (kr, Ok None)
  | key =>
      match validKey kr now1 with
      | Some r => (kr, Ok r)
      | None =>
          match validKey kr now2 with
          | Some r => (kr, Ok r)
          | None =>
              let id := u64 (nextKeyID kr + 1) in
              let dk := mkPbKey id k (now3 / 10 ^ 9) iv in
              let kr1 := mkKr (dataKeys kr) (lastCreated kr) id (kr_fp kr) (kr_opt kr) in
              let done fp := (mkKr (<[id := dk]> (dataKeys kr)) (k_CreatedAt dk) id fp (kr_opt kr), Ok (Some dk)) in
              if kro_InMemory (kr_opt kr) then done (kr_fp kr)
              else
                match storeDataKey key dk, kr_fp kr with
                | Ok b, Some f => done (Some (f ++ b))
                | Ok _, None => (kr1, Err ErrWrite)
                | Err e, _ => (kr1, Err e)
                | Panic, _ => (kr1, Panic)
                end
          end
      end
  end.

Definition Close (kr : KeyRegistry) : KeyRegistry :=
  if kro_ReadOnly (kr_opt kr) || kro_InMemory (kr_opt kr) then kr else set_fp kr None.
End KeyRegistry.

(** ** Specification *)

Definition ukey_ok `{A : BlockCipher} (key : bytes) : Prop := key = [] \/ is_Some (aes_NewCipher key).

Definition pbkey_ok `{A : BlockCipher} (k : pbDataKey) : Prop :=
  0 < k_KeyId k /\ is_u64 (k_KeyId k) /\ 0 <= k_CreatedAt k < 2 ^ 63 /\ len (k_Iv k) = 16 /\ is_Some (aes_NewCipher (k_Data k)).

(** [m] is the maximum of [f] over the keys, or 0. *)
Definition is_max (f : pbDataKey -> Z) (ks : list pbDataKey) (m : Z) : Prop :=
  (forall k, k ∈ ks -> f k <= m) /\ (m = 0 \/ exists k, k ∈ ks /\ f k = m).

(** A registry that has the keys [ks]. *)
Record kr_holds (kr : KeyRegistry) (ks : list pbDataKey) : Prop := {
  kh_keys id k : dataKeys kr !! id = Some k <-> k ∈ ks /\ k_KeyId k = id;
  kh_next : is_max k_KeyId ks (nextKeyID kr);
  kh_last : is_max k_CreatedAt ks (lastCreated kr)
}.

(** A file with the keys [ks], in this order. *)
Definition file_holds `{A : BlockCipher} `{D : DataKeyCodec} (key f : bytes) (ks : list pbDataKey) : Prop :=
  exists iv e b, f = iv ++ e ++ b /\ len iv = 16 /\ length e = length sanityText /\
    (match key with [] => Ok sanityText | _ => XORBlockAllocate sanityText key iv end) = Ok e /\ store_keys key ks = Ok b.

Section RegistryLemmas.
Context `{A : BlockCipher} `{!BlockCipherLaws A} `{D : DataKeyCodec} `{!DataKeyCodecLaws D}.

(** ** Lemmas: reading what was written *)

Lemma fp_Read_app buf a b : length buf = length a -> buf <> [] -> fp_Read buf (a ++ b) = Ok (a, b).
Proof using Type.
  intros Hl Hne. unfold fp_Read. destruct buf as [|x buf]; [done|]. destruct a as [|y a]; [done|]. cbn [app].
  rewrite <- app_comm_cons || idtac. change (y :: a ++ b) with ((y :: a) ++ b). rewrite Hl. rewrite take_app_length, drop_app_length.
  rewrite drop_ge by (rewrite length_app; lia). by rewrite app_nil_r.
Qed.

Lemma XOR_ok key iv src : is_Some (aes_NewCipher key) -> len iv = 16 ->
  exists c, XORBlockAllocate src key iv = Ok c /\ length c = length src /\ XORBlockAllocate c key iv = Ok src.
Proof using Type.
  intros [E HE] Hiv. assert (XORBlockAllocate src key iv = Ok (XORKeyStream E iv src)) as H.
  { unfold XORBlockAllocate. rewrite HE. rewrite bool_decide_eq_false_2; [done|]. unfold BlockSize. intros Hn. by apply Hn. }
  eexists. split; [exact H|]. split; [by apply (XORBlockAllocate_length _ _ _ _ H)|]. by apply XORBlockAllocate_twice.
Qed.

Lemma U32_app v r : BytesToU32 (U32ToBytes v ++ r) = Some (u32 v).
Proof using Type. exact (be_slice_app 4 v r). Qed.

(** A record is written whatever the key is, and read back with the same key. *)
Lemma record_roundtrip key k : ukey_ok key -> pbkey_ok k -> exists b, storeDataKey key k = Ok b /\ 8 < len b /\
  forall rest buf, length buf = 8%nat -> exists buf', length buf' = 8%nat /\ kri_next (mkKri key (b ++ rest) buf) = Ok (k, mkKri key rest buf').
Proof using BlockCipherLaws0 DataKeyCodecLaws0.
  intros Hkey (Hid & Hu & Hc & Hiv & Hd%aes_key_size).
  assert (exists data, (match key with [] => Ok (k_Data k) | _ => lift_cipher (XORBlockAllocate (k_Data k) key (k_Iv k)) end) = Ok data /\
    length data = length (k_Data k) /\
    (match key with [] => Ok data | key => lift_cipher (XORBlockAllocate data key (k_Iv k)) end) = Ok (k_Data k)) as (data & E1 & Hl & E2).
  { destruct Hkey as [->|Hkey]; [by exists (k_Data k)|]. destruct key as [|x key]; [by exists (k_Data k)|].
    destruct (XOR_ok (x :: key) (k_Iv k) (k_Data k) Hkey Hiv) as (c & H1 & H2 & H3). exists c. by rewrite H1, H3. }
  set (k' := mkPbKey (k_KeyId k) data (k_CreatedAt k) (k_Iv k)). set (m := dk_Marshal k').
  assert (len data = len (k_Data k)) as Hl' by (unfold len; by rewrite Hl).
  assert (0 < len m < 2 ^ 32) as Hm.
  { split.
    - pose proof (dk_nonempty k' ltac:(cbn; lia)). subst m. destruct (dk_Marshal k'); [done|]. unfold len. cbn. lia.
    - pose proof (dk_size k') as Hs. cbn [k_Data k_Iv k'] in Hs. fold m in Hs. lia. }
  exists (U32ToBytes (u32 (len m)) ++ U32ToBytes (crc32c m) ++ m).
  assert (forall v, length (U32ToBytes v) = 4%nat) as H4 by (intros v; apply be_encode_length).
  split; [unfold storeDataKey; by rewrite E1|]. split; [assert (forall v, len (U32ToBytes v) = 4) as H4' by (intros v; unfold len; by rewrite H4); rewrite !len_app, !H4'; lia|].
  intros rest buf Hb. exists (U32ToBytes (u32 (len m)) ++ U32ToBytes (crc32c m)). split; [by rewrite length_app, !H4|].
  unfold kri_next. cbn [kri_rest kri_key lenCrcBuf]. rewrite <- !app_assoc, (app_assoc (U32ToBytes _)).
  rewrite fp_Read_app; [|rewrite length_app, !H4; lia|by destruct buf]. cbn [mbind result_bind].
  rewrite U32_app. cbn [unpanic mbind result_bind]. rewrite wrap_wrap, (wrap_small 32 (len m)) by lia.
  rewrite fp_Read_app; [|rewrite length_replicate, to_nat_len; done|].
  2:{ replace (Z.to_nat (len m)) with (S (Z.to_nat (len m - 1))) by lia. done. }
  cbn [mbind result_bind].
  replace (drop 4 (U32ToBytes (len m) ++ U32ToBytes (crc32c m))) with (U32ToBytes (crc32c m) ++ []).
  2:{ rewrite app_nil_r. rewrite <- (drop_app_length (U32ToBytes (len m)) (U32ToBytes (crc32c m))) at 1. by rewrite H4. }
  rewrite U32_app, (wrap_small 32 (crc32c m)) by apply crc32c_range. cbn [unpanic mbind result_bind]. rewrite bool_decide_eq_false_2 by (intros H; by apply H).
  subst m. rewrite dk_roundtrip; [|cbn; done|cbn; done|cbn; lia]. cbn. destruct key; (rewrite E2 || injection E2 as ->); cbn; by destruct k.
Qed.

Lemma read_keys_ok key ks : ukey_ok key -> Forall pbkey_ok ks -> exists b, store_keys key ks = Ok b /\
  forall fuel kr buf, (length b < fuel)%nat -> length buf = 8%nat -> read_keys fuel kr (mkKri key b buf) = Ok (foldl add_key kr ks).
Proof using BlockCipherLaws0 DataKeyCodecLaws0.
  intros Hkey. induction 1 as [|k ks Hk _ IH].
  - exists []. split; [done|]. intros [|fuel] kr buf Hf Hb; [cbn in Hf; lia|]. cbn [read_keys]. unfold kri_next. cbn [kri_rest lenCrcBuf].
    destruct buf as [|x buf]; [done|]. done.
  - destruct IH as (b & E & H). destruct (record_roundtrip key k Hkey Hk) as (r & Er & Hr & Hn). exists (r ++ b). cbn [store_keys].
    rewrite Er, E. cbn [mbind result_bind]. split; [done|]. intros [|fuel] kr buf Hf Hb; [lia|]. rewrite length_app in Hf. unfold len in Hr.
    cbn [read_keys foldl]. destruct (Hn b buf Hb) as (buf' & Hb' & ->). apply H; [lia|done].
Qed.

Lemma sanity_ok key iv : ukey_ok key -> len iv = 16 -> exists e,
  (match key with [] => Ok sanityText | _ => XORBlockAllocate sanityText key iv end) = Ok e /\ length e = length sanityText /\
  forall rest, validRegistry (iv ++ e ++ rest) key = Ok rest.
Proof using BlockCipherLaws0.
  intros Hkey Hiv. assert (exists e, (match key with [] => Ok sanityText | _ => XORBlockAllocate sanityText key iv end) = Ok e /\ length e = length sanityText /\
    (match key with [] => Ok e | _ => lift_cipher (XORBlockAllocate e key iv) end) = Ok sanityText) as (e & E1 & Hl & E2).
  { destruct Hkey as [-> |Hkey]; [by exists sanityText|]. destruct key as [|x key]; [by exists sanityText|].
    destruct (XOR_ok (x :: key) iv sanityText Hkey Hiv) as (e & H1 & H2 & H3). exists e. by rewrite H1, H3. }
  exists e. split; [done|]. split; [done|]. intros rest. unfold validRegistry.
  rewrite fp_Read_app; [|unfold len in Hiv; rewrite length_replicate; lia|done]. cbn [mbind result_bind].
  rewrite fp_Read_app; [|by rewrite length_replicate|done]. cbn [mbind result_bind]. rewrite E2. cbn [mbind result_bind]. by rewrite bool_decide_eq_true_2.
Qed.

Lemma read_file key f ks opt : ukey_ok key -> Forall pbkey_ok ks -> file_holds key f ks -> kro_EncryptionKey opt = key ->
  readKeyRegistry f opt = Ok (foldl add_key (newKeyRegistry opt) ks).
Proof using BlockCipherLaws0 DataKeyCodecLaws0.
  intros Hkey Hks (iv & e & b & -> & Hiv & Hl & E & Eb) Eo. unfold readKeyRegistry, newKeyRegistryIterator. rewrite Eo.
  destruct (sanity_ok key iv Hkey Hiv) as (e' & E' & _ & Hv). assert (e' = e) as -> by congruence. rewrite Hv. cbn [mbind result_bind].
  destruct (read_keys_ok key ks Hkey Hks) as (b' & Eb' & H). assert (b' = b) as -> by congruence.
  apply H; [rewrite !length_app; lia|done].
Qed.

(** ** Lemmas: the registry in memory *)

Lemma holds_new opt : kr_holds (newKeyRegistry opt) [].
Proof using Type.
  split; cbn.
  - intros id k. split; [intros H; by apply lookup_empty_Some in H|]. intros [H _]. by apply not_elem_of_nil in H.
  - split; [intros k H; by apply not_elem_of_nil in H|by left].
  - split; [intros k H; by apply not_elem_of_nil in H|by left].
Qed.

Lemma is_max_add f ks m k : is_max f ks m -> 0 <= f k -> is_max f (ks ++ [k]) (if bool_decide (m < f k) then f k else m).
Proof using Type.
  intros [H1 H2] Hk. split.
  - intros k' [Hk'| ->%list_elem_of_singleton]%elem_of_app; [apply H1 in Hk'|]; case_bool_decide; lia.
  - case_bool_decide as Hlt; [right; exists k; split; [apply elem_of_app; right; by left|done]|].
    destruct H2 as [-> |(k' & Hk' & <-)]; [by left|]. right. exists k'. split; [apply elem_of_app; by left|done].
Qed.

Lemma holds_add kr ks k : kr_holds kr ks -> pbkey_ok k -> (forall k', k' ∈ ks -> k_KeyId k' <> k_KeyId k) -> kr_holds (add_key kr k) (ks ++ [k]).
Proof using Type.
  intros [H1 H2 H3] (Hid & _ & Hc & _) Hnew. split; cbn.
  - intros id k'. rewrite lookup_insert_Some, elem_of_app, list_elem_of_singleton, H1. split.
    + intros [[<- <-]|[Hne [Hin <-]]]; [by split; [right|]|by split; [left|]].
    + intros [[Hin| ->] <-]; [right; split; [|done]; by apply not_eq_sym, Hnew|by left].
  - apply (is_max_add k_KeyId); [done|lia].
  - apply (is_max_add k_CreatedAt); [done|lia].
Qed.

Lemma holds_read opt ks : Forall pbkey_ok ks -> NoDup (k_KeyId <$> ks) -> kr_holds (foldl add_key (newKeyRegistry opt) ks) ks.
Proof using Type.
  induction ks as [|k ks IH] using rev_ind; intros Hok Hnd; [apply holds_new|]. apply Forall_app in Hok as [Hok Hk].
  apply Forall_cons in Hk as [Hk _]. rewrite fmap_app in Hnd. apply NoDup_app in Hnd as (Hnd & Hx & _). rewrite foldl_app. cbn [foldl].
  apply holds_add; [by apply IH|done|]. intros k' Hk' E. apply (Hx (k_KeyId k')); [apply list_elem_of_fmap; by exists k'|]. rewrite E. by left.
Qed.

(** The keys determine the registry. *)
Lemma holds_unique kr kr' ks ks' : kr_holds kr ks -> kr_holds kr' ks' -> ks ≡ₚ ks' -> Forall pbkey_ok ks ->
  dataKeys kr = dataKeys kr' /\ nextKeyID kr = nextKeyID kr' /\ lastCreated kr = lastCreated kr'.
Proof using Type.
  intros [H1 H2 H3] [H1' H2' H3'] Hp Hok. assert (forall k, k ∈ ks <-> k ∈ ks') as He by (intros k; by rewrite Hp).
  assert (forall f m m', (forall k, k ∈ ks -> 0 <= f k) -> is_max f ks m -> is_max f ks' m' -> m = m') as Hmax.
  { intros f m m' Hpos [Ha Hb] [Ha' Hb']. destruct Hb as [-> |(k & Hk & <-)], Hb' as [-> |(k' & Hk' & <-)]; [done|..].
    - apply He in Hk'. pose proof (Hpos _ Hk'). apply Ha in Hk'. lia.
    - pose proof (Hpos _ Hk). apply He, Ha' in Hk. lia.
    - apply He, Ha' in Hk. apply He, Ha in Hk'. lia. }
  rewrite Forall_forall in Hok. split_and!.
  - apply map_eq. intros id. apply option_eq. intros k. by rewrite H1, H1', He.
  - apply (Hmax k_KeyId); [|done..]. intros k Hk. destruct (Hok k Hk) as (? & _). lia.
  - apply (Hmax k_CreatedAt); [|done..]. intros k Hk. destruct (Hok k Hk) as (_ & _ & ? & _). lia.
Qed.

(** ** Lemmas: making a key *)

Definition latest_new (kr kr' : KeyRegistry) (r : result kr_error (option pbDataKey)) (iv k : bytes) (now : Z) : Prop :=
  exists dk, r = Ok (Some dk) /\ dk = mkPbKey (nextKeyID kr + 1) k (now / 10 ^ 9) iv /\
    dataKeys kr' = dataKeys (add_key kr dk) /\ nextKeyID kr' = nextKeyID kr + 1 /\ lastCreated kr' = now / 10 ^ 9 /\ kr_opt kr' = kr_opt kr /\
    if kro_InMemory (kr_opt kr) then kr_fp kr' = kr_fp kr
    else exists f b, kr_fp kr = Some f /\ storeDataKey (kro_EncryptionKey (kr_opt kr)) dk = Ok b /\ kr_fp kr' = Some (f ++ b).

Lemma LatestDataKey_ok now1 now2 now3 iv k kr ks : kr_holds kr ks -> ukey_ok (kro_EncryptionKey (kr_opt kr)) ->
  is_Some (kr_fp kr) \/ kro_InMemory (kr_opt kr) = true -> nextKeyID kr < MaxUint64 -> 0 <= nextKeyID kr -> len iv = 16 ->
  length k = length (kro_EncryptionKey (kr_opt kr)) -> 0 <= now3 < 2 ^ 63 ->
  let '(kr', r) := LatestDataKey now1 now2 now3 iv k kr in
  (kr' = kr /\ (r = Ok None /\ kro_EncryptionKey (kr_opt kr) = [] \/ r = Ok (dataKeys kr !! nextKeyID kr) /\ kro_EncryptionKey (kr_opt kr) <> [] /\
     exists now, (now = now1 \/ now = now2) /\ time_Since now (lastCreated kr) < kro_Rotation (kr_opt kr))) \/
  kro_EncryptionKey (kr_opt kr) <> [] /\ pbkey_ok (mkPbKey (nextKeyID kr + 1) k (now3 / 10 ^ 9) iv) /\ latest_new kr kr' r iv k now3.
Proof using BlockCipherLaws0 DataKeyCodecLaws0.
  intros Hh Hkey Hfp Hn H0 Hiv Hk Hnow. unfold LatestDataKey. destruct (kro_EncryptionKey (kr_opt kr)) as [|x key] eqn:Ek; [left; split; [done|by left]|].
  destruct (validKey kr now1) as [r|] eqn:E1; [left; split; [done|right]|].
  { unfold validKey in E1. case_bool_decide; [|done]. injection E1 as <-. split_and!; [done..|]. exists now1. split; [by left|done]. }
  destruct (validKey kr now2) as [r|] eqn:E2; [left; split; [done|right]|].
  { unfold validKey in E2. case_bool_decide; [|done]. injection E2 as <-. split_and!; [done..|]. exists now2. split; [by right|done]. }
  unfold MaxUint64 in *. rewrite u64_small by (unfold MaxUint64; lia).
  assert (is_Some (aes_NewCipher (x :: key))) as Hc by (destruct Hkey as [|?]; done).
  assert (is_Some (aes_NewCipher k)) as Hk32.
  { apply aes_key_size. apply aes_key_size in Hc. unfold len in *. by rewrite Hk. }
  assert (pbkey_ok (mkPbKey (nextKeyID kr + 1) k (now3 / 10 ^ 9) iv)) as Hok.
  { assert (0 <= now3 / 10 ^ 9 < 2 ^ 63) by (split; [apply Z.div_pos; lia|apply Z.div_lt_upper_bound; lia]).
    unfold pbkey_ok, is_u64. cbn [k_KeyId k_CreatedAt k_Iv k_Data]. split_and!; done || lia. }
  destruct (record_roundtrip (x :: key) _ (or_intror Hc) Hok) as (b & Eb & _). rewrite Eb. unfold latest_new. rewrite Ek.
  destruct (kro_InMemory (kr_opt kr)) eqn:Em; [|destruct Hfp as [[f Ef]|?]; [|done]; rewrite Ef].
  all: right; split; [done|]; split; [done|]; eexists; split_and!; try done. by exists f, b.
Qed.

(** ** The registry over time *)

(** The file on disk, the user's key it is under, the registry that is open, the time, and every
    key that was ever made. *)
Record kstate : Type := mkKs { ks_file : option bytes; ks_key : bytes; ks_open : option KeyRegistry; ks_now : Z; ks_made : list pbDataKey }.

(** Opening, asking for the latest key, closing (or a crash between two operations), and writing
    the file anew under another user key, with the keys in any order, as [badger rotate] does. *)
Inductive kstep : kstate -> kstate -> Prop :=
  | ks_Open file key t made iv opt kr file' : len iv = 16 -> kro_EncryptionKey opt = key -> kro_InMemory opt = false ->
      OpenKeyRegistry file iv opt = Ok (kr, file') -> kstep (mkKs file key None t made) (mkKs file' key (Some kr) t made)
  | ks_Latest file key kr t made now1 now2 now3 iv k kr' dk : t <= now1 <= now2 -> now2 <= now3 < 2 ^ 63 -> len iv = 16 ->
      length k = length key -> nextKeyID kr < MaxUint64 -> is_Some (kr_fp kr) ->
      LatestDataKey now1 now2 now3 iv k kr = (kr', Ok dk) ->
      kstep (mkKs file key (Some kr) t made)
        (mkKs (kr_fp kr') key (Some kr') now3 (if bool_decide (nextKeyID kr' = nextKeyID kr) then made else made ++ option_list dk))
  | ks_Close file key kr t made : kstep (mkKs file key (Some kr) t made) (mkKs file key None t made)
  | ks_Rewrite file key t made iv1 opt kr file' iv order opt' f : len iv1 = 16 -> len iv = 16 -> kro_EncryptionKey opt = key -> kro_ReadOnly opt = true ->
      kro_InMemory opt = false -> OpenKeyRegistry file iv1 opt = Ok (kr, file') -> order ≡ₚ (map_to_list (dataKeys kr)).*2 ->
      ukey_ok (kro_EncryptionKey opt') -> WriteKeyRegistry iv order opt' = Ok f ->
      kstep (mkKs file key None t made) (mkKs (Some f) (kro_EncryptionKey opt') None t made).

Record kstate_ok (s : kstate) (ks : list pbDataKey) : Prop := {
  kt_key : ukey_ok (ks_key s);
  kt_made : ks ≡ₚ ks_made s;
  kt_ok : Forall pbkey_ok ks;
  kt_ids : NoDup (k_KeyId <$> ks);
  kt_file : match ks_file s with Some f => file_holds (ks_key s) f ks | None => ks = [] end;
  kt_open kr : ks_open s = Some kr -> kr_holds kr ks /\ kro_EncryptionKey (kr_opt kr) = ks_key s /\ kro_InMemory (kr_opt kr) = false /\
    (is_Some (kr_fp kr) -> kr_fp kr = ks_file s);
  kt_mono k k' : k ∈ ks -> k' ∈ ks -> k_KeyId k <= k_KeyId k' -> k_CreatedAt k <= k_CreatedAt k';
  kt_time : 0 <= ks_now s /\ Forall (fun k => k_CreatedAt k * 10 ^ 9 <= ks_now s) ks
}.

Lemma file_new key iv : ukey_ok key -> len iv = 16 -> forall opt, kro_EncryptionKey opt = key ->
  exists f, WriteKeyRegistry iv [] opt = Ok f /\ file_holds key f [].
Proof using BlockCipherLaws0.
  intros Hkey Hiv opt Eo. destruct (sanity_ok key iv Hkey Hiv) as (e & E & Hl & _). unfold WriteKeyRegistry. rewrite Eo. exists (iv ++ e ++ []).
  split; [|by exists iv, e, []]. destruct key; [by injection E as <-|]. by rewrite E.
Qed.

Lemma file_written key iv ks : ukey_ok key -> len iv = 16 -> Forall pbkey_ok ks -> forall opt f, kro_EncryptionKey opt = key ->
  WriteKeyRegistry iv ks opt = Ok f -> file_holds key f ks.
Proof using BlockCipherLaws0 DataKeyCodecLaws0.
  intros Hkey Hiv Hks opt f Eo Ew. destruct (sanity_ok key iv Hkey Hiv) as (e & E & Hl & _). destruct (read_keys_ok key ks Hkey Hks) as (b & Eb & _).
  unfold WriteKeyRegistry in Ew. rewrite Eo, Eb in Ew.
  assert (f = iv ++ e ++ b) as -> by (destruct key; [injection E as <-|rewrite E in Ew]; by injection Ew as <-). by exists iv, e, b.
Qed.

(** Opening with the right key: all the keys. *)
Lemma Open_ok s ks iv opt : kstate_ok s ks -> len iv = 16 -> kro_EncryptionKey opt = ks_key s -> kro_InMemory opt = false ->
  exists kr file', OpenKeyRegistry (ks_file s) iv opt = Ok (kr, file') /\ kr_holds kr ks /\ kr_opt kr = opt /\
    match file' with Some f => file_holds (ks_key s) f ks | None => ks = [] end /\ (is_Some (kr_fp kr) -> kr_fp kr = file') /\
    (kro_ReadOnly opt = false -> is_Some (kr_fp kr)) /\ (is_Some (ks_file s) -> file' = ks_file s).
Proof using BlockCipherLaws0 DataKeyCodecLaws0.
  intros [Hkey _ Hok Hnd Hfile _ _ _] Hiv Eo Em. unfold OpenKeyRegistry. rewrite Em.
  assert (bool_decide (0 < len (kro_EncryptionKey opt)) && negb (bool_decide (len (kro_EncryptionKey opt) = 16 \/ len (kro_EncryptionKey opt) = 24 \/
    len (kro_EncryptionKey opt) = 32)) = false) as ->.
  { rewrite Eo. destruct Hkey as [->|Hc]; [done|]. apply aes_key_size in Hc. rewrite (bool_decide_eq_true_2 (_ \/ _)) by done. apply andb_false_r. }
  assert (forall kr ks, kr_holds kr ks -> forall fp, kr_holds (set_fp kr fp) ks) as Hset by (intros kr ks0 [H1 H2 H3] fp; by split).
  assert (forall ks, kr_opt (foldl add_key (newKeyRegistry opt) ks) = opt /\ kr_fp (foldl add_key (newKeyRegistry opt) ks) = None) as Hopt.
  { clear. intros ks. assert (forall kr, kr_opt (foldl add_key kr ks) = kr_opt kr /\ kr_fp (foldl add_key kr ks) = kr_fp kr) as H; [|by apply H].
    induction ks as [|k ks IH]; intros kr; [done|]. cbn [foldl]. apply (IH (add_key kr k)). }
  destruct (Hopt ks) as [Ho Hf]. destruct (ks_file s) as [f|] eqn:Ef.
  - rewrite (read_file (ks_key s) f ks) by done. cbn [mbind result_bind]. eexists _, _. split; [done|].
    destruct (kro_ReadOnly opt); cbn [set_fp kr_fp kr_opt]; rewrite ?Hf, ?Ho; split_and!; try done; try (by intros [? [=]]); try apply (Hset _ ks); by apply holds_read.
  - subst ks. destruct (kro_ReadOnly opt).
    + eexists _, _. split; [done|]. cbn [kr_fp kr_opt newKeyRegistry]. split_and!; try done; try (by intros [? [=]]). apply holds_new.
    + destruct (file_new (ks_key s) iv Hkey Hiv opt Eo) as (f & -> & Hff). cbn [mbind result_bind].
      rewrite (read_file (ks_key s) f []) by done. cbn [mbind result_bind foldl]. eexists _, _. split; [done|]. cbn [set_fp kr_fp kr_opt newKeyRegistry]. split_and!; try done; try (by intros [? [=]]). apply (Hset _ []), holds_new.
Qed.

Lemma holds_values kr ks : kr_holds kr ks -> NoDup (k_KeyId <$> ks) -> (map_to_list (dataKeys kr)).*2 ≡ₚ ks.
Proof using Type.
  intros [H _ _] Hnd. apply NoDup_Permutation.
  - apply NoDup_fmap_2_strong; [|apply NoDup_map_to_list]. intros [i x] [j y] Hx%elem_of_map_to_list Hy%elem_of_map_to_list. cbn. intros ->.
    apply H in Hx as [_ <-]. by apply H in Hy as [_ <-].
  - by apply NoDup_fmap_1 in Hnd.
  - intros k. rewrite list_elem_of_fmap. split.
    + intros ([i x] & -> & Hx%elem_of_map_to_list). by apply H in Hx as [? _].
    + intros Hk. exists (k_KeyId k, k). split; [done|]. by apply elem_of_map_to_list, H.
Qed.

Lemma store_keys_app key ks k b r : store_keys key ks = Ok b -> storeDataKey key k = Ok r -> store_keys key (ks ++ [k]) = Ok (b ++ r).
Proof using Type.
  revert b. induction ks as [|x ks IH]; intros b Eb Er.
  - injection Eb as <-. cbn. rewrite Er. cbn. by rewrite app_nil_r.
  - cbn [store_keys app] in *. destruct (storeDataKey key x) as [rx| |]; [|done..]. cbn [mbind result_bind] in *.
    destruct (store_keys key ks) as [b'| |]; [|done..]. cbn [mbind result_bind] in Eb. injection Eb as <-. rewrite (IH b') by done. cbn. by rewrite app_assoc.
Qed.

Lemma latest_step_ok file key kr t made ks now1 now2 now3 iv k kr' dk : kstate_ok (mkKs file key (Some kr) t made) ks ->
  t <= now1 <= now2 -> now2 <= now3 < 2 ^ 63 -> len iv = 16 -> length k = length key -> nextKeyID kr < MaxUint64 -> is_Some (kr_fp kr) ->
  LatestDataKey now1 now2 now3 iv k kr = (kr', Ok dk) ->
  exists ks', kstate_ok (mkKs (kr_fp kr') key (Some kr') now3 (if bool_decide (nextKeyID kr' = nextKeyID kr) then made else made ++ option_list dk)) ks'.
Proof using BlockCipherLaws0 DataKeyCodecLaws0.
  intros [Hkey Hmade Hok Hnd Hfile Hopen Hmono [Ht Htime]] H1 H3 Hiv Hk Hn Hfp E. cbn [ks_key ks_made ks_file ks_open ks_now] in *.
  destruct (Hopen kr eq_refl) as (Hh & Ekey & Em & Hf). specialize (Hf Hfp).
  assert (0 <= nextKeyID kr) as H0.
  { destruct Hh as [_ [_ [->|(x & Hx & <-)]] _]; [done|]. rewrite Forall_forall in Hok. destruct (Hok x Hx) as (? & _). lia. }
  pose proof (LatestDataKey_ok now1 now2 now3 iv k kr ks Hh) as H. rewrite Ekey, E in H.
  destruct (H Hkey (or_introl Hfp) Hn H0 Hiv Hk ltac:(lia)) as [(-> & _)|(Hkne & Hpk & d & Ed & Hd & Ek & En & El & Eo & Ef)].
  - rewrite bool_decide_eq_true_2 by done. exists ks. split; cbn; try done.
    + by rewrite Hf.
    + intros kr0 [= <-]. by split_and!.
    + split; [lia|]. eapply Forall_impl; [exact Htime|]. cbn. intros x Hx. lia.
  - rewrite bool_decide_eq_false_2 by lia. injection Ed as ->. cbn [option_list]. rewrite <- Hd in Hpk.
    assert (k_KeyId d = nextKeyID kr + 1 /\ k_CreatedAt d = now3 / 10 ^ 9) as [Eid Ec] by (by rewrite Hd).
    assert (forall x, x ∈ ks -> k_KeyId x <> k_KeyId d) as Hnew.
    { intros x Hx. destruct Hh as [_ [Hmax _] _]. specialize (Hmax x Hx). lia. }
    assert (lastCreated kr <= k_CreatedAt d) as Hlast.
    { rewrite Ec. destruct Hh as [_ _ [_ [->|(x & Hx & <-)]]]; [apply Z.div_pos; lia|]. rewrite Forall_forall in Htime. specialize (Htime x Hx).
      apply Z.div_le_lower_bound; lia. }
    rewrite Em in Ef. destruct Ef as (f & b & Efp & Eb & Efp'). rewrite Efp in Hf. subst file. exists (ks ++ [d]). split; cbn [ks_key ks_made ks_file ks_open ks_now].
    + done.
    + by rewrite Hmade.
    + apply Forall_app. split; [done|]. by constructor.
    + rewrite fmap_app. apply NoDup_app. split_and!; [done| |apply NoDup_singleton]. intros i (x & -> & Hx)%list_elem_of_fmap Hi%list_elem_of_singleton.
      by apply (Hnew x).
    + rewrite Efp'. destruct Hfile as (iv0 & e & b0 & -> & Hiv0 & Hl & Ee & Eb0). exists iv0, e, (b0 ++ b). rewrite <- !app_assoc. split_and!; try done.
      rewrite Ekey in Eb. by apply store_keys_app.
    + intros kr0 [= <-]. rewrite Eo. split_and!; try done. destruct (holds_add kr ks d Hh Hpk Hnew) as [A1 A2 A3]. split.
      * by rewrite Ek.
      * rewrite En, <- Eid. cbn in A2. by rewrite bool_decide_eq_true_2 in A2 by lia.
      * rewrite El, <- Ec. cbn in A3. destruct (bool_decide_reflect (lastCreated kr < k_CreatedAt d)); [done|].
        by replace (k_CreatedAt d) with (lastCreated kr) by lia.
    + intros x x' [Hx|Hx%list_elem_of_singleton]%elem_of_app [Hx'|Hx'%list_elem_of_singleton]%elem_of_app Hle; [by apply Hmono|..]; subst.
      * etrans; [|exact Hlast]. destruct Hh as [_ _ [Hm _]]. by apply Hm.
      * destruct Hh as [_ [Hm _] _]. specialize (Hm x' Hx'). lia.
      * done.
    + split; [lia|]. apply Forall_app. split; [eapply Forall_impl; [exact Htime|]; cbn; intros x Hx; lia|].
      constructor; [|done]. rewrite Ec. rewrite Z.mul_comm. apply Z.mul_div_le. lia.
Qed.

Lemma kstep_ok s s' ks : kstep s s' -> kstate_ok s ks -> exists ks', kstate_ok s' ks'.
Proof using BlockCipherLaws0 DataKeyCodecLaws0.
  intros [file key t made iv opt kr file' Hiv Eo Em E|file key kr t made now1 now2 now3 iv k kr' dk H1 H3 Hiv Hk Hn Hfp E|file key kr t made
         |file key t made iv1 opt kr file' iv order opt' f Hiv1 Hiv Eo Er Em E Hp Hkey' Ew] Hok.
  - destruct (Open_ok _ ks iv opt Hok Hiv Eo Em) as (kr1 & f1 & E1 & Hh & Ho & Hf & Hfp & _). cbn [ks_file] in E1. rewrite E in E1. injection E1 as <- <-.
    exists ks. destruct Hok as [Hkey Hmade Hks Hnd Hfile _ Hmono Htime]. split; cbn; try done. intros kr0 [= <-]. rewrite Ho. by split_and!.
  - by apply (latest_step_ok file key kr t made ks now1 now2 now3 iv k kr' dk).
  - exists ks. destruct Hok as [Hkey Hmade Hks Hnd Hfile _ Hmono Htime]. by split.
  - destruct (Open_ok _ ks iv1 opt Hok Hiv1 Eo Em) as (kr1 & f1 & E1 & Hh & _). cbn [ks_file] in E1. rewrite E in E1. injection E1 as <- <-.
    destruct Hok as [Hkey Hmade Hks Hnd Hfile _ Hmono [Ht Htime]]. cbn [ks_key ks_made ks_file ks_open ks_now] in *.
    assert (order ≡ₚ ks) as Ho by (rewrite Hp; by apply holds_values). exists order.
    assert (Forall pbkey_ok order) as Hks' by (by rewrite Ho). split; cbn; try done.
    + by rewrite Ho.
    + by rewrite Ho.
    + by eapply file_written.
    + intros x x' Hx Hx'. rewrite Ho in Hx, Hx'. by apply Hmono.
    + split; [done|]. by rewrite Ho.
Qed.

Definition kstate_init (key : bytes) (t : Z) : kstate := mkKs None key None t [].

Lemma kstate_reachable key t s : ukey_ok key -> 0 <= t -> rtc kstep (kstate_init key t) s -> exists ks, kstate_ok s ks.
Proof using BlockCipherLaws0 DataKeyCodecLaws0.
  intros Hkey Ht Hr. assert (kstate_ok (kstate_init key t) []) as H0.
  { split; try done; [constructor|intros k k' Hk; by apply not_elem_of_nil in Hk]. }
  assert (forall s0, rtc kstep s0 s -> forall ks, kstate_ok s0 ks -> exists ks', kstate_ok s ks') as H; [|by apply (H _ Hr [])].
  clear -BlockCipherLaws0 DataKeyCodecLaws0. induction 1 as [s0|s0 s1 s2 Hs _ IH]; intros ks Hok; [by exists ks|]. destruct (kstep_ok _ _ _ Hs Hok) as [ks1 H1]. by apply (IH ks1).
Qed.

(** C23: no data key is ever lost or reused.  Whatever openings, new keys, crashes between
    operations and rewritings under other user keys there were, opening the file with the current
    user key succeeds and finds exactly the keys that were ever made, each under its own id, with
    the id and the time of the newest; and that is what an open registry has in memory. *)
Theorem registry_keeps_keys key t s iv opt : ukey_ok key -> 0 <= t -> rtc kstep (kstate_init key t) s ->
  len iv = 16 -> kro_EncryptionKey opt = ks_key s -> kro_InMemory opt = false ->
  exists kr file', OpenKeyRegistry (ks_file s) iv opt = Ok (kr, file') /\ NoDup (k_KeyId <$> ks_made s) /\
    (forall id k, dataKeys kr !! id = Some k <-> k ∈ ks_made s /\ k_KeyId k = id) /\
    is_max k_KeyId (ks_made s) (nextKeyID kr) /\ is_max k_CreatedAt (ks_made s) (lastCreated kr) /\
    forall kr0, ks_open s = Some kr0 -> dataKeys kr0 = dataKeys kr /\ nextKeyID kr0 = nextKeyID kr /\ lastCreated kr0 = lastCreated kr.
Proof using BlockCipherLaws0 DataKeyCodecLaws0.
  intros Hkey Ht Hr Hiv Eo Em. destruct (kstate_reachable key t s Hkey Ht Hr) as [ks Hok].
  destruct (Open_ok s ks iv opt Hok Hiv Eo Em) as (kr & file' & E & Hh & _). pose proof (kt_made _ _ Hok) as Hp.
  assert (forall k, k ∈ ks <-> k ∈ ks_made s) as He by (intros k; by rewrite Hp). exists kr, file'. destruct Hh as [H1 H2 H3].
  assert (forall f m, is_max f ks m -> is_max f (ks_made s) m) as Hmax.
  { intros f m [Ha Hb]. split; [intros k Hk; by apply Ha, He|]. destruct Hb as [->|(k & Hk & E1)]; [by left|right; exists k; by rewrite <- He]. }
  split_and!; [done|rewrite <- Hp; apply Hok|intros id k; by rewrite H1, He|by apply Hmax..|]. intros kr0 E0.
  destruct (kt_open _ _ Hok kr0 E0) as (Hh0 & _). by apply (holds_unique _ _ ks ks Hh0); [split| |apply Hok].
Qed.

(** ** The key for new files *)

(** What [LogFile] sees of the registry. *)
Definition log_key (k : pbDataKey) : DataKey := mkDataKey (k_KeyId k) (k_Data k).
Definition log_registry (kr : KeyRegistry) (id : Z) : result log_error (option DataKey) :=
  match getDataKey kr id with Ok k => Ok (log_key <$> k) | _ => Err ErrKey end.

(** C24: the registry keeps the promise log files and tables rely on: the key [LatestDataKey]
    returns is found again under its id and can be used with AES, so a file written with it can
    be read.  With a user key, and a rotation period shorter than the clock's distance from 1970,
    there is a key, and no older than the period or just made. *)
Theorem latest_key_usable key t s kr now1 now2 now3 iv k kr' dk : ukey_ok key -> 0 <= t -> rtc kstep (kstate_init key t) s ->
  ks_open s = Some kr -> ks_now s <= now1 <= now2 -> now2 <= now3 < 2 ^ 63 -> len iv = 16 -> length k = length (ks_key s) ->
  nextKeyID kr < MaxUint64 -> is_Some (kr_fp kr) -> LatestDataKey now1 now2 now3 iv k kr = (kr', Ok dk) ->
  (forall iv12, len iv12 = 12 -> registry_ok (Ok (log_key <$> dk)) (log_registry kr') iv12 (log_key <$> dk)) /\
  (ks_key s = [] -> dk = None) /\
  (ks_key s <> [] -> kro_Rotation (kr_opt kr) <= now1 -> exists d, dk = Some d /\
     (k_CreatedAt d = now3 / 10 ^ 9 \/ now1 - k_CreatedAt d * 10 ^ 9 < kro_Rotation (kr_opt kr))).
Proof using BlockCipherLaws0 DataKeyCodecLaws0.
  intros Hkey Ht Hr Eopen H1 H3 Hiv Hk Hn Hfp E. destruct (kstate_reachable key t s Hkey Ht Hr) as [ks Hok].
  destruct (kt_open _ _ Hok kr Eopen) as (Hh & Ek & Em & _). pose proof (kt_ok _ _ Hok) as Hks. rewrite Forall_forall in Hks.
  assert (0 <= nextKeyID kr) as H0.
  { destruct Hh as [_ [_ [->|(x & Hx & <-)]] _]; [done|]. destruct (Hks x Hx) as (? & _). lia. }
  pose proof (kt_time _ _ Hok) as [Hnow Htime]. pose proof (LatestDataKey_ok now1 now2 now3 iv k kr ks Hh) as H. rewrite Ek, E in H.
  assert (forall d kr1, pbkey_ok d -> dataKeys kr1 !! k_KeyId d = Some d -> forall iv12, len iv12 = 12 ->
    registry_ok (Ok (log_key <$> Some d)) (log_registry kr1) iv12 (log_key <$> Some d)) as Hreg.
  { intros d kr1 (Hid & Hu & _ & _ & Hc) El iv12 H12. split; cbn; try done; [|by intros ? [= <-]].
    unfold log_registry, getDataKey. rewrite bool_decide_eq_false_2 by lia. by rewrite El. }
  destruct (H (kt_key _ _ Hok) (or_introl Hfp) Hn H0 Hiv Hk ltac:(lia)) as [(-> & [[[= ->] Hnil]|([= ->] & Hne & now & Hnow' & Hage)])|(Hkne & Hpk & d & [= ->] & Hd & Ekeys & _)].
  - split_and!; [intros iv12 H12; split; cbn; done|done|]. intros Hne. by rewrite Hnil in Hne.
  - split_and!; [|by intros Hnil; rewrite Hnil in Hne|].
    + intros iv12 H12. destruct (dataKeys kr !! nextKeyID kr) as [d|] eqn:Ed; [|by split].
      apply (kh_keys _ _ Hh) in Ed as Hd. destruct Hd as [Hd Eid]. apply Hreg; [by apply Hks|by rewrite Eid|done].
    + intros _ Hrot. destruct Hh as [Hh1 [_ Hnext] [Hl1 Hl2]].
      assert (exists d, d ∈ ks) as [d0 Hd0].
      { destruct ks as [|d ks]; [|exists d; by left]. destruct Hl2 as [Hl2|(? & Hx & _)]; [|by apply not_elem_of_nil in Hx].
        rewrite Hl2 in Hage. unfold time_Since in Hage. lia. }
      destruct Hnext as [Hz|(d & Hd & Eid)].
      { exfalso. destruct (Hks d0 Hd0) as (Hpos & _). pose proof (kh_next _ _ (proj1 (kt_open _ _ Hok kr Eopen))) as [Hmax _]. specialize (Hmax d0 Hd0). lia. }
      exists d. split; [apply Hh1; by split|right].
      assert (lastCreated kr <= k_CreatedAt d) as Hle.
      { destruct Hl2 as [->|(x & Hx & <-)]; [destruct (Hks d Hd) as (_ & _ & ? & _); lia|]. apply (kt_mono _ _ Hok); [done..|].
        rewrite Eid. by apply (proj1 (kh_next _ _ (proj1 (kt_open _ _ Hok kr Eopen)))). }
      assert (0 <= lastCreated kr /\ lastCreated kr * 10 ^ 9 <= ks_now s) as [Hlc Hlc'].
      { destruct Hl2 as [->|(x & Hx & <-)]; [lia|]. rewrite Forall_forall in Htime. specialize (Htime x Hx). destruct (Hks x Hx) as (_ & _ & ? & _). lia. }
      unfold time_Since in Hage. lia.
  - rewrite <- Hd in Hpk. split_and!; [|done|].
    + apply Hreg; [done|]. rewrite Ekeys. apply lookup_insert_eq.
    + intros _ _. exists d. split; [done|left]. by rewrite Hd.
Qed.

(** A wrong user key is noticed.  A file that was written under one user key opens under
    another exactly when both encipher the twelve bytes of the sanity text alike, and else is
    refused with [ErrEncryptionKeyMismatch]. *)
Theorem wrong_key_refused key key' f ks iv opt : ukey_ok key -> ukey_ok key' -> file_holds key f ks ->
  kro_EncryptionKey opt = key' -> kro_InMemory opt = false ->
  (exists e e', (match key with [] => Ok sanityText | _ => XORBlockAllocate sanityText key (take 16 f) end) = Ok e /\
     (match key' with [] => Ok sanityText | _ => XORBlockAllocate sanityText key' (take 16 f) end) = Ok e' /\
     if bool_decide (e = e') then exists rest, validRegistry f key' = Ok rest
     else OpenKeyRegistry (Some f) iv opt = Err ErrEncryptionKeyMismatch).
Proof using BlockCipherLaws0.
  intros Hkey Hkey' (iv0 & e & b & -> & Hiv0 & Hl & E & Eb) Eo Em.
  assert (take 16 (iv0 ++ e ++ b) = iv0) as ->.
  { replace 16%nat with (length iv0) by (unfold len in Hiv0; lia). apply take_app_length. }
  destruct (sanity_ok key' iv0 Hkey' Hiv0) as (e' & E' & Hl' & Hv). exists e, e'. split; [exact E|]. split; [exact E'|].
  destruct (bool_decide_reflect (e = e')) as [<-|Hne]; [by exists b|].
  assert (validRegistry (iv0 ++ e ++ b) key' = Err ErrEncryptionKeyMismatch) as Hm.
  { unfold validRegistry. rewrite fp_Read_app; [|unfold len in Hiv0; rewrite length_replicate; lia|done]. cbn [mbind result_bind].
    rewrite fp_Read_app; [|by rewrite length_replicate|done]. cbn [mbind result_bind].
    destruct Hkey' as [->|Hc].
    - cbn [mbind result_bind]. rewrite bool_decide_eq_false_2; [done|]. injection E' as <-. done.
    - destruct key' as [|x key']; [injection E' as <-; cbn [mbind result_bind]; by rewrite bool_decide_eq_false_2|].
      destruct (XOR_ok (x :: key') iv0 e Hc Hiv0) as (c & Ec & _ & Ec'). rewrite Ec. cbn [lift_cipher mbind result_bind].
      rewrite bool_decide_eq_false_2; [done|]. intros ->. congruence. }
  unfold OpenKeyRegistry. rewrite Em, Eo.
  assert (bool_decide (0 < len key') && negb (bool_decide (len key' = 16 \/ len key' = 24 \/ len key' = 32)) = false) as ->.
  { destruct Hkey' as [->|Hc]; [done|]. apply aes_key_size in Hc. rewrite (bool_decide_eq_true_2 (_ \/ _)) by done. apply andb_false_r. }
  unfold readKeyRegistry, newKeyRegistryIterator. by rewrite Eo, Hm.
Qed.
End RegistryLemmas.

(** ** A concrete codec, and a registry that is rotated *)

#[export] Instance plain_datakeys : DataKeyCodec := {
  dk_Marshal k := if bool_decide (k = mkPbKey 0 [] 0 []) then [] else
    be_encode 8 (k_KeyId k) ++ be_encode 8 (k_CreatedAt k) ++ be_encode 4 (len (k_Data k)) ++ k_Data k ++ k_Iv k;
  dk_Unmarshal b := if bool_decide (b = []) then Some (mkPbKey 0 [] 0 []) else
    let n := Z.to_nat (be_decode (take 4 (drop 16 b))) in
    Some (mkPbKey (be_decode (take 8 b)) (take n (drop 20 b)) (be_decode (take 8 (drop 8 b))) (drop n (drop 20 b)))
}.

#[export] Instance plain_datakeys_laws : DataKeyCodecLaws plain_datakeys.
Proof.
  split.
  - intros [id data c iv] Hid Hc Hl. cbn [k_KeyId k_CreatedAt k_Data k_Iv] in *. unfold dk_Unmarshal, dk_Marshal, plain_datakeys.
    destruct (bool_decide_reflect (mkPbKey id data c iv = mkPbKey 0 [] 0 [])) as [->|Hne]; [done|]. cbn [k_KeyId k_CreatedAt k_Data k_Iv].
    assert (forall n v r, take n (be_encode n v ++ r) = be_encode n v) as Ht by (intros n v r; rewrite <- (be_encode_length n v) at 1; apply take_app_length).
    assert (forall n v r, drop n (be_encode n v ++ r) = r) as Hd by (intros n v r; rewrite <- (be_encode_length n v) at 1; apply drop_app_length).
    rewrite bool_decide_eq_false_2 by done. rewrite Ht, !be_roundtrip8.
    replace (drop 16 _) with (drop 8 (drop 8 (be_encode 8 id ++ be_encode 8 c ++ be_encode 4 (len data) ++ data ++ iv))) by (rewrite drop_drop; done).
    replace (drop 20 _) with (drop 4 (drop 8 (drop 8 (be_encode 8 id ++ be_encode 8 c ++ be_encode 4 (len data) ++ data ++ iv)))) by (rewrite !drop_drop; done).
    rewrite !Hd, !Ht, be_roundtrip8, be_roundtrip4. pose proof (len_nonneg data). pose proof (len_nonneg iv).
    unfold is_u64 in Hid. rewrite (wrap_small 64 id), (wrap_small 64 c), (wrap_small 32 (len data)) by lia.
    rewrite to_nat_len. by rewrite take_app_length, drop_app_length.
  - intros k Hk. unfold dk_Marshal, plain_datakeys. rewrite bool_decide_eq_false_2; [done|]. by intros ->.
  - intros k. unfold dk_Marshal, plain_datakeys. case_bool_decide; [cbn; pose proof (len_nonneg (k_Data k)); pose proof (len_nonneg (k_Iv k)); unfold len in *; cbn; lia|].
    rewrite !len_app. unfold len at 1 2 3. rewrite !be_encode_length. lia.
Qed.

Definition kx_key : bytes := replicate 16 x07.
Definition kx_opt : KeyRegistryOptions := mkKro false kx_key 100 false.
Definition kx_iv : bytes := replicate 16 x01.
Definition kx_open : KeyRegistry * option bytes :=
  match OpenKeyRegistry None kx_iv kx_opt with Ok x => x | _ => (newKeyRegistry kx_opt, None) end.
Definition kx_made : KeyRegistry * result kr_error (option pbDataKey) := LatestDataKey 5000000000 5000000000 5000000000 (replicate 16 x02) (replicate 16 x03) kx_open.1.
Definition kx_dk : pbDataKey := mkPbKey 1 (replicate 16 x03) 5 (replicate 16 x02).

Lemma kx_ukey : ukey_ok kx_key.
Proof. right. by eexists. Qed.

Lemma kx_made_ok : kx_made.2 = Ok (Some kx_dk).
Proof. by vm_compute. Qed.

Lemma kx_opened : rtc kstep (kstate_init kx_key 3) (mkKs kx_open.2 kx_key (Some kx_open.1) 3 []).
Proof.
  apply rtc_once. apply (ks_Open None kx_key 3 [] kx_iv kx_opt); [done..|]. by vm_compute.
Qed.

Lemma kx_reach : rtc kstep (kstate_init kx_key 3) (mkKs (kr_fp kx_made.1) kx_key (Some kx_made.1) 5000000000 [kx_dk]).
Proof.
  eapply rtc_r; [exact kx_opened|].
  pose proof (ks_Latest kx_open.2 kx_key kx_open.1 3 [] 5000000000 5000000000 5000000000 (replicate 16 x02) (replicate 16 x03) kx_made.1 (Some kx_dk)) as H.
  rewrite (bool_decide_eq_false_2 (nextKeyID kx_made.1 = nextKeyID kx_open.1)) in H by (by vm_compute). apply H; try (by vm_compute); try lia. by eexists.
Qed.

Lemma registry_keeps_keys_witness : exists kr file', OpenKeyRegistry (kr_fp kx_made.1) kx_iv kx_opt = Ok (kr, file') /\
  dataKeys kr !! 1 = Some kx_dk /\ dataKeys kx_made.1 = dataKeys kr.
Proof.
  destruct (registry_keeps_keys kx_key 3 _ kx_iv kx_opt kx_ukey ltac:(lia) kx_reach ltac:(done) ltac:(done) ltac:(done))
    as (kr & file' & E & _ & Hkeys & _ & _ & Hopen). exists kr, file'. split; [exact E|]. split.
  - apply Hkeys. split; [by left|done].
  - by apply (Hopen kx_made.1).
Defined.

Lemma latest_key_usable_witness : registry_ok (Ok (Some (log_key kx_dk))) (log_registry kx_made.1) (replicate 12 x00) (Some (log_key kx_dk)).
Proof.
  assert (LatestDataKey 5000000000 5000000000 5000000000 (replicate 16 x02) (replicate 16 x03) kx_open.1 = (kx_made.1, Ok (Some kx_dk))) as E.
  { rewrite <- kx_made_ok. unfold kx_made. by rewrite <- surjective_pairing. }
  assert (0 <= 3) as H0 by lia. assert (3 <= 5000000000 <= 5000000000) as H1 by lia. assert (5000000000 <= 5000000000 < 2 ^ 63) as H2 by lia.
  assert (len (replicate 16 x02) = 16) as Hiv by done. assert (length (replicate 16 x03) = length kx_key) as Hk by done.
  assert (nextKeyID kx_open.1 < MaxUint64) as Hn by (by vm_compute). assert (len (replicate 12 x00) = 12) as H12 by done.
  assert (is_Some (kr_fp kx_open.1)) as Hfp by (vm_compute; by eexists).
  exact (proj1 (latest_key_usable kx_key 3 _ kx_open.1 5000000000 5000000000 5000000000 _ _ kx_made.1 (Some kx_dk) kx_ukey H0 kx_opened
    eq_refl H1 H2 Hiv Hk Hn Hfp E) _ H12).
Defined.

Definition kx_file : bytes := match WriteKeyRegistry kx_iv [] kx_opt with Ok f => f | _ => [] end.

Lemma kx_file_holds : file_holds kx_key kx_file [].
Proof.
  assert (len kx_iv = 16) as Hiv by done. destruct (file_new kx_key kx_iv kx_ukey Hiv kx_opt eq_refl) as (f & E & H).
  unfold kx_file. rewrite E. exact H.
Qed.

Lemma wrong_key_refused_witness : OpenKeyRegistry (Some kx_file) [] (mkKro false (replicate 16 x08) 100 false) = Err ErrEncryptionKeyMismatch.
Proof.
  assert (ukey_ok (replicate 16 x08)) as Hk by (right; by eexists).
  destruct (wrong_key_refused kx_key (replicate 16 x08) kx_file [] [] (mkKro false (replicate 16 x08) 100 false) kx_ukey Hk kx_file_holds
    eq_refl eq_refl) as (e & e' & E & E' & H).
  vm_compute in E. injection E as <-. vm_compute in E'. injection E' as <-. rewrite bool_decide_eq_false_2 in H; [exact H|by vm_compute].
Defined.

(** ** Findings *)

(** With a rotation period of more years than have passed since 1970 - [math.MaxInt64], to rotate
    never - no key is ever made, and the files are written in plain text. *)
Theorem long_rotation_never_enciphers opt now1 now2 now3 iv k : 0 <= now1 < kro_Rotation opt -> kro_Rotation opt < 2 ^ 63 -> kro_EncryptionKey opt <> [] ->
  LatestDataKey now1 now2 now3 iv k (newKeyRegistry opt) = (newKeyRegistry opt, Ok None).
Proof.
  intros Hn Hr Hk. unfold LatestDataKey. cbn [newKeyRegistry kr_opt]. destruct (kro_EncryptionKey opt); [done|].
  unfold validKey. cbn [newKeyRegistry lastCreated kr_opt]. rewrite bool_decide_eq_true_2; [done|]. unfold time_Since. lia.
Qed.

(** A crash while the record of a new key is appended: a registry that was just made and has one
    to three bytes of its first record panics when it is opened; one that has all but the last
    byte of a record is refused; one that has just its eight bytes of header opens, the next key
    is appended behind them, and after that it is refused. *)
Definition kx_torn (n : nat) : option bytes := Some (take (28 + n) (default [] (kr_fp kx_made.1))).

Definition kx_after_torn : option bytes :=
  match OpenKeyRegistry (kx_torn 8) kx_iv kx_opt with
  | Ok (kr, _) => kr_fp (LatestDataKey 6000000000 6000000000 6000000000 (replicate 16 x02) (replicate 16 x04) kr).1
  | _ => None
  end.

Theorem torn_registry_lost : OpenKeyRegistry (kx_torn 2) kx_iv kx_opt = Panic /\
  OpenKeyRegistry (kx_torn (length (default [] (kr_fp kx_made.1)) - 28 - 1)) kx_iv kx_opt = Err ErrChecksumMismatch /\
  (exists kr, OpenKeyRegistry (kx_torn 8) kx_iv kx_opt = Ok (kr, kx_torn 8)) /\
  OpenKeyRegistry kx_after_torn kx_iv kx_opt = Err ErrChecksumMismatch.
Proof. split_and!; [by vm_compute|by vm_compute|eexists; by vm_compute|by vm_compute]. Qed.
