(* ===== verification/Block.v ===== *)
(** * Block: building and iterating one block of a table (table/builder.go, table/iterator.go)

    A block is a run of prefix-compressed entries — a header with the overlap with the block's
    base key, the rest of the key, the encoded value — followed by the entries' offsets and a
    checksum.  [bblock]'s buffer is its written part [data[:end]]; growing it is not modelled.
    The checksum message and xxHash come from a [ChecksumCodec]. *)

From S2P Require Import Prelude Keys Codec Bloom Checksum.

(** ** Entry headers *)

Record header : Type := mkHeader { overlap : Z; diff : Z }.

Definition headerSize : Z := 4.

(** Two little-endian 16-bit words, the struct's memory. *)
Definition header_Encode (h : header) : bytes := le_encode 2 (overlap h) ++ le_encode 2 (diff h).

Definition header_Decode (buf : bytes) : option header :=
  b ← slice buf 0 headerSize;
  Some (mkHeader (le_decode (take 2 b)) (le_decode (drop 2 b))).

Arguments header_Encode : simpl never.
Arguments header_Decode : simpl never.

(** ** The builder *)

Record Options : Type := mkOptions {
  tableCapacity : Z;
  BlockSize : Z;
  hasDataKey : bool;       (* DataKey != nil *)
  hasCompression : bool    (* Compression != options.None *)
}.

Record bblock : Type := mkBblock {
  bdata : bytes;
  bbaseKey : bytes;
  bentryOffsets : list Z
}.

Record Builder : Type := mkBuilder {
  curBlock : bblock;
  compressedSize : Z;
  uncompressedSize : Z;
  lenOffsets : Z;
  keyHashes : list Z;
  opts : Options;
  maxVersion : Z;
  onDiskSize : Z;
  staleDataSize : Z;
  blockList : list bblock
}.

Definition empty_bblock : bblock := mkBblock [] [] [].

Definition NewTableBuilder (o : Options) : Builder :=
  mkBuilder empty_bblock 0 0 0 [] o 0 0 0 [].

Definition set_curBlock (b : Builder) (bb : bblock) : Builder :=
  mkBuilder bb (compressedSize b) (uncompressedSize b) (lenOffsets b) (keyHashes b) (opts b)
    (maxVersion b) (onDiskSize b) (staleDataSize b) (blockList b).

Definition add_stale (b : Builder) (n : Z) : Builder :=
  mkBuilder (curBlock b) (compressedSize b) (uncompressedSize b) (lenOffsets b) (keyHashes b)
    (opts b) (maxVersion b) (onDiskSize b) (staleDataSize b + n) (blockList b).

Definition Builder_append (bb : bblock) (data : bytes) : bblock :=
  mkBblock (bdata bb ++ data) (bbaseKey bb) (bentryOffsets bb).

Definition Empty (b : Builder) : bool := bool_decide (len (keyHashes b) = 0).
Definition shouldEncrypt (b : Builder) : bool := hasDataKey (opts b).

(** The suffix of [newKey] after its common prefix with the base key. *)
Fixpoint keyDiff (newKey baseKey : bytes) {struct newKey} : bytes :=
  match newKey, baseKey with
  | x :: newKey', y :: baseKey' => if bool_decide (x = y) then keyDiff newKey' baseKey' else newKey
  | _, _ => newKey
  end.

Definition addHelper (b : Builder) (key : bytes) (v : ValueStruct) (vpLen : Z) : option Builder :=
  let hashes := keyHashes b ++ [Hash (ParseKey key)] in
  let version := ParseTs key in
  let maxV := if bool_decide (maxVersion b < version) then version else maxVersion b in
  let bb := curBlock b in
  let '(base, diffKey) :=
    if bool_decide (len (bbaseKey bb) = 0) then (key, key)
    else (bbaseKey bb, keyDiff key (bbaseKey bb)) in
  if bool_decide (len key - len diffKey <= MaxUint16 /\ len diffKey <= MaxUint16) then
    let h := mkHeader (u16 (len key - len diffKey)) (u16 (len diffKey)) in
    let offsets := bentryOffsets bb ++ [u32 (len (bdata bb))] in
    let bb := mkBblock (bdata bb) base offsets in
    let bb := Builder_append bb (header_Encode h) in
    let bb := Builder_append bb diffKey in
    (* dst := b.allocate(v.EncodedSize()); v.Encode(dst) *)
    '(dst, _) ← Encode v (replicate (Z.to_nat (EncodedSize v)) x00);
    let bb := Builder_append bb dst in
    Some (mkBuilder bb (compressedSize b) (uncompressedSize b) (lenOffsets b) hashes (opts b)
            maxV (u32 (onDiskSize b + vpLen)) (staleDataSize b) (blockList b))
  else None (* AssertTrue *).

Definition shouldFinishBlock (b : Builder) (key : bytes) (value : ValueStruct) : option bool :=
  let bb := curBlock b in
  if bool_decide (len (bentryOffsets bb) <= 0) then Some false
  else if bool_decide
      (u32 (u32 (u32 (u32 (u32 (u32 (len (bentryOffsets bb)) + 1) * 4) + 4) + 8) + 4) < MaxUint32)
  then
    let entriesOffsetsSize := u32 ((len (bentryOffsets bb) + 1) * 4 + 4 + 8 + 4) in
    let estimatedSize :=
      u32 (u32 (u32 (u32 (u32 (len (bdata bb)) + 6) + u32 (len key)) + EncodedSize value)
           + entriesOffsetsSize) in
    let estimatedSize := if shouldEncrypt b then u32 (estimatedSize + 16) else estimatedSize in
    if bool_decide (u64 (u64 (len (bdata bb)) + estimatedSize) < MaxUint32)
    then Some (bool_decide (u32 (BlockSize (opts b)) < estimatedSize))
    else None
  else None.

(** [int(math.Ceil(float64(n)/4)) * 4], exact for a key's length. *)
Definition ceil4 (n : Z) : Z := (n + 3) / 4 * 4.

Section Building.
Context `{C : ChecksumCodec}.

(** The bytes [finishBlock] appends to the entries. *)
Definition block_trailer (bb : bblock) : bytes :=
  let bb := Builder_append bb (U32SliceToBytes (bentryOffsets bb)) in
  let bb := Builder_append bb (U32ToBytes (u32 (len (bentryOffsets bb)))) in
  let checksum := calculateChecksum (bdata bb) in
  checksum ++ U32ToBytes (u32 (len checksum)).

Definition finish_bblock (bb : bblock) : bblock :=
  let bb := Builder_append bb (U32SliceToBytes (bentryOffsets bb)) in
  let bb := Builder_append bb (U32ToBytes (u32 (len (bentryOffsets bb)))) in
  let checksum := calculateChecksum (bdata bb) in
  let bb := Builder_append bb checksum in
  Builder_append bb (U32ToBytes (u32 (len checksum))).

(** The finished block stays [curBlock]; sending it to the compression goroutines is
    [handleBlock], later. *)
Definition finishBlock (b : Builder) : Builder :=
  if bool_decide (len (bentryOffsets (curBlock b)) = 0) then b
  else
    let bb := finish_bblock (curBlock b) in
    mkBuilder bb (compressedSize b) (u32 (uncompressedSize b + u32 (len (bdata bb))))
      (u32 (lenOffsets b + u32 (ceil4 (len (bbaseKey bb)) + 40))) (keyHashes b) (opts b)
      (maxVersion b) (onDiskSize b) (staleDataSize b) (blockList b ++ [bb]).

Definition addInternal (b : Builder) (key : bytes) (value : ValueStruct) (valueLen : Z)
    (isStale : bool) : option Builder :=
  fin ← shouldFinishBlock b key value;
  let b :=
    if (fin : bool) then
      let b := if isStale then add_stale b (len key + 4 + 4) else b in
      set_curBlock (finishBlock b) empty_bblock
    else b in
  addHelper b key value valueLen.

Definition Add (b : Builder) (key : bytes) (value : ValueStruct) (valueLen : Z) : option Builder :=
  addInternal b key value valueLen false.

Definition AddStaleKey (b : Builder) (key : bytes) (v : ValueStruct) (valueLen : Z)
    : option Builder :=
  addInternal (add_stale b (len key + len (vbytes (Value v)) + 4 + 4)) key v valueLen true.

Definition ReachedCapacity (b : Builder) : bool :=
  let sumBlockSizes :=
    if negb (hasCompression (opts b)) && negb (hasDataKey (opts b)) then uncompressedSize b
    else compressedSize b in
  let blocksSize :=
    u32 (sumBlockSizes + u32 (len (bentryOffsets (curBlock b)) * 4) + 4 + 8 + 4) in
  let estimateSz := u32 (blocksSize + 4 + lenOffsets b) in
  bool_decide (tableCapacity (opts b) < estimateSz).
End Building.

(** ** Reading a block back: the part of [Table.block] after decryption and decompression *)

Record Block : Type := mkBlock {
  kdata : bytes;
  kchecksum : bytes;
  entriesIndexStart : Z;
  kentryOffsets : list Z
}.

Inductive block_error : Type := ErrInvalidChecksumLength | ErrUnmarshalChecksum | ErrChecksumMismatch.

Section Reading.
Context `{C : ChecksumCodec}.

Definition verifyCheckSum (b : Block) : result block_error unit :=
  match Checksum_Unmarshal (kchecksum b) with
  | None => Err ErrUnmarshalChecksum
  | Some cs => if VerifyChecksum (kdata b) cs then Ok tt else Err ErrChecksumMismatch
  end.

(** [verify] says whether the table's options ask for a check on every read. *)
Definition read_block (data : bytes) (verify : bool) : result block_error Block :=
  let readPos := len data - 4 in
  b ← unpanic (slice data readPos (readPos + 4));
  chkLen ← unpanic (BytesToU32 b);
  if bool_decide (len data < chkLen) then Err ErrInvalidChecksumLength
  else
    let readPos := readPos - chkLen in
    checksum ← unpanic (slice data readPos (readPos + chkLen));
    let readPos := readPos - 4 in
    b ← unpanic (slice data readPos (readPos + 4));
    numEntries ← unpanic (BytesToU32 b);
    let entriesIndexStart := readPos - numEntries * 4 in
    let entriesIndexEnd := entriesIndexStart + numEntries * 4 in
    b ← unpanic (slice data entriesIndexStart entriesIndexEnd);
    let offsets := BytesToU32Slice b in
    data ← unpanic (slice data 0 (readPos + 4));
    let blk := mkBlock data checksum entriesIndexStart offsets in
    if verify then _ ← verifyCheckSum blk; Ok blk else Ok blk.
End Reading.

(** ** The block iterator *)

Record blockIterator : Type := mkBI {
  idata : bytes;
  idx : Z;
  ieof : bool;             (* err == io.EOF, the only error a block iterator has *)
  ibaseKey : bytes;
  ikey : bytes;
  ival : bytes;
  ientryOffsets : list Z;
  prevOverlap : Z
}.

Definition bi_zero : blockIterator := mkBI [] 0 false [] [] [] [] 0.

Definition setBlock (b : Block) : option blockIterator :=
  data ← slice (kdata b) 0 (entriesIndexStart b);
  Some (mkBI data 0 false [] [] [] (kentryOffsets b) 0).

Definition bi_eof (itr : blockIterator) (i : Z) : blockIterator :=
  mkBI (idata itr) i true (ibaseKey itr) (ikey itr) (ival itr) (ientryOffsets itr) (prevOverlap itr).

(** [append(key[:n], s...)]: [key[:n]] may not reach past the key. *)
Definition append_at (key : bytes) (n : Z) (s : bytes) : option bytes :=
  k ← slice key 0 n; Some (k ++ s).

Definition setIdx (itr : blockIterator) (i : Z) : option blockIterator :=
  if bool_decide (len (ientryOffsets itr) <= i \/ i < 0) then Some (bi_eof itr i)
  else
    startOffset ← ientryOffsets itr !! Z.to_nat i;
    baseKey ←
      (if bool_decide (len (ibaseKey itr) = 0) then
         baseHeader ← header_Decode (idata itr);
         slice (idata itr) headerSize (u16 (headerSize + diff baseHeader))
       else Some (ibaseKey itr));
    endOffset ←
      (if bool_decide (i + 1 = len (ientryOffsets itr)) then Some (len (idata itr))
       else ientryOffsets itr !! Z.to_nat (i + 1));
    entryData ← slice (idata itr) startOffset endOffset;
    h ← header_Decode entryData;
    key ←
      (if bool_decide (prevOverlap itr < overlap h) then
         s ← slice baseKey (prevOverlap itr) (overlap h);
         append_at (ikey itr) (prevOverlap itr) s
       else Some (ikey itr));
    let valueOff := u16 (headerSize + diff h) in
    diffKey ← slice entryData headerSize valueOff;
    key ← append_at key (overlap h) diffKey;
    val ← slice_from entryData valueOff;
    Some (mkBI (idata itr) i false baseKey key val (ientryOffsets itr) (overlap h)).

Definition bi_Valid (itr : blockIterator) : bool := negb (ieof itr).

(** [seek]'s closure moves the iterator as the search probes; [None] is a panic. *)
Definition seek_probe (startIndex : Z) (key : bytes) (h : nat) (s : option blockIterator)
    : bool * option blockIterator :=
  if bool_decide (Z.of_nat h < startIndex) then (false, s)
  else
    match (itr ← s; setIdx itr (Z.of_nat h)) with
    | None => (false, None)
    | Some itr =>
        match CompareKeys (ikey itr) key with
        | None => (false, None)
        | Some c => (bool_decide (c <> Lt), Some itr)
        end
    end.

Inductive whence : Type := origin | current.

Definition bi_seek (itr : blockIterator) (key : bytes) (w : whence) : option blockIterator :=
  let startIndex := match w with origin => 0 | current => idx itr end in
  let itr := mkBI (idata itr) (idx itr) false (ibaseKey itr) (ikey itr) (ival itr)
               (ientryOffsets itr) (prevOverlap itr) in
  let '(found, s) :=
    sort_SearchM (length (ientryOffsets itr)) (seek_probe startIndex key) (Some itr) in
  itr ← s;
  setIdx itr (Z.of_nat found).

Definition bi_seekToFirst (itr : blockIterator) : option blockIterator := setIdx itr 0.
Definition bi_seekToLast (itr : blockIterator) : option blockIterator :=
  setIdx itr (len (ientryOffsets itr) - 1).
Definition bi_next (itr : blockIterator) : option blockIterator := setIdx itr (idx itr + 1).
Definition bi_prev (itr : blockIterator) : option blockIterator := setIdx itr (idx itr - 1).

(** ** Lemmas: entries and their offsets *)

(** An entry of a block: its overlap with the base key, its key and its value. *)
Notation entry := (Z * (list byte * ValueStruct))%type.

Definition enc_entry (x : entry) : bytes :=
  header_Encode (mkHeader x.1 (len x.2.1 - x.1)) ++ drop (Z.to_nat x.1) x.2.1 ++ EncodeTo x.2.2.

(** Key lengths that keep [headerSize + diff] inside 16 bits; the database allows 65008. *)
Definition maxBlockKey : Z := 65531.

(** What the builder is given: a key with a timestamp, sizes within their words. *)
Definition kv_ok (key : bytes) (v : ValueStruct) : Prop :=
  8 <= len key <= maxBlockKey /\ is_u64 (ExpiresAt v) /\ len (vbytes (Value v)) + 12 < 2 ^ 32.

Definition entry_ok (base : bytes) (x : entry) : Prop :=
  kv_ok x.2.1 x.2.2 /\ 0 <= x.1 <= len x.2.1 /\ x.1 <= len base /\
  take (Z.to_nat x.1) x.2.1 = take (Z.to_nat x.1) base.

(** The start offset of each of the concatenated pieces. *)
Fixpoint offs (o : Z) (l : list bytes) : list Z :=
  match l with [] => [] | x :: l => o :: offs (o + len x) l end.

Lemma offs_app o l k : offs o (l ++ k) = offs o l ++ offs (o + len (concat l)) k.
Proof.
  revert o. induction l as [|x l IH]; intros o; simpl; [f_equal; unfold len; simpl; lia|].
  rewrite IH, len_app. do 2 f_equal. f_equal. lia.
Qed.

Lemma offs_length o l : length (offs o l) = length l.
Proof. revert o. induction l; intros o; simpl; auto. Qed.

Lemma offs_lookup o l i :
  (i < length l)%nat -> offs o l !! i = Some (o + len (concat (take i l))).
Proof.
  revert o i. induction l as [|x l IH]; intros o i Hi; simpl in Hi; [lia|].
  destruct i as [|i]; simpl; [f_equal; unfold len; simpl; lia|].
  rewrite IH by lia. f_equal. rewrite len_app. lia.
Qed.

Lemma offs_bound o l : 0 <= o ->
  Forall (fun x => 0 <= x <= o + len (concat l)) (offs o l).
Proof.
  revert o. induction l as [|x l IH]; intros o Ho; simpl; constructor.
  - unfold len. lia.
  - eapply Forall_impl; [apply IH; unfold len; lia|]. intros z. simpl. rewrite len_app.
    unfold len. lia.
Qed.

(** The [i]-th piece of a concatenation. *)
Lemma slice_concat (l : list bytes) i x :
  l !! i = Some x ->
  slice (concat l) (len (concat (take i l))) (len (concat (take i l)) + len x) = Some x.
Proof.
  intros Hi. rewrite <- (take_drop_middle l i x Hi) at 1. rewrite concat_app. simpl.
  apply slice_app_mid.
Qed.

Lemma slice_mid {A} (a b c : list A) i j :
  i = len a -> j = len a + len b -> slice (a ++ b ++ c) i j = Some b.
Proof. intros -> ->. apply slice_app_mid. Qed.

Lemma slice_at {A} (a b c s : list A) i j :
  s = a ++ b ++ c -> i = len a -> j = len a + len b -> slice s i j = Some b.
Proof. intros -> -> ->. apply slice_app_mid. Qed.

Lemma slice_0 {A} (a b : list A) j : j = len a -> slice (a ++ b) 0 j = Some a.
Proof. intros ->. apply (slice_app_mid [] a b). Qed.

Lemma slice_from_suffix {A} (a b : list A) i : i = len a -> slice_from (a ++ b) i = Some b.
Proof. intros ->. apply slice_from_app. Qed.

Lemma header_Encode_length h : len (header_Encode h) = headerSize.
Proof. unfold header_Encode, len. by rewrite length_app, !le_encode_length. Qed.

Lemma header_Decode_Encode h rest :
  0 <= overlap h < 65536 -> 0 <= diff h < 65536 ->
  header_Decode (header_Encode h ++ rest) = Some h.
Proof.
  intros Ho Hd. unfold header_Decode.
  rewrite (slice_0 (header_Encode h)) by (by rewrite header_Encode_length).
  cbn [mbind option_bind]. unfold header_Encode.
  rewrite take_app_length', drop_app_length' by (by rewrite le_encode_length).
  rewrite !le_decode_encode. change (8 * Z.of_nat 2) with 16.
  rewrite !Z.mod_small by lia. by destruct h.
Qed.

Lemma keyDiff_spec k base :
  exists n, keyDiff k base = drop n k /\ (n <= length k)%nat /\ (n <= length base)%nat /\
    take n k = take n base.
Proof.
  revert base. induction k as [|x k IH]; intros [|y base]; simpl.
  - by exists 0%nat.
  - exists 0%nat. split_and!; [done|lia|lia|done].
  - exists 0%nat. split_and!; [done|lia|lia|done].
  - case_bool_decide as Hxy; [subst y|exists 0%nat; split_and!; [done|lia|lia|done]].
    destruct (IH base) as (n & E & H1 & H2 & H3). exists (S n).
    split_and!; [done|lia|lia|]. simpl. by rewrite H3.
Qed.

Lemma enc_entry_split x base :
  entry_ok base x ->
  header_Decode (enc_entry x) = Some (mkHeader x.1 (len x.2.1 - x.1)) /\
  slice (enc_entry x) headerSize (headerSize + (len x.2.1 - x.1))
    = Some (drop (Z.to_nat x.1) x.2.1) /\
  slice_from (enc_entry x) (headerSize + (len x.2.1 - x.1)) = Some (EncodeTo x.2.2).
Proof.
  destruct x as [ov [k v]]. intros ((Hk & _) & Hov & _). unfold enc_entry. cbn [fst snd] in *.
  unfold maxBlockKey in Hk.
  set (h := mkHeader ov (len k - ov)).
  assert (len (drop (Z.to_nat ov) k) = len k - ov) as Ed
    by (unfold len in *; rewrite length_drop; lia).
  split_and!.
  - apply header_Decode_Encode; unfold h; cbn [overlap diff]; lia.
  - apply slice_mid; by rewrite header_Encode_length, ?Ed.
  - rewrite app_assoc. apply slice_from_suffix. by rewrite len_app, header_Encode_length, Ed.
Qed.

(** ** The block under construction *)

Record bb_repr (bb : bblock) (xs : list entry) : Prop := {
  br_data : bdata bb = concat (enc_entry <$> xs);
  br_offsets : bentryOffsets bb = offs 0 (enc_entry <$> xs);
  br_ok : Forall (entry_ok (bbaseKey bb)) xs;
  br_base : match xs with
            | [] => bbaseKey bb = []
            | x :: _ => x.1 = 0 /\ x.2.1 = bbaseKey bb
            end;
  br_size : len (bdata bb) < 2 ^ 32
}.

Lemma bb_repr_empty : bb_repr empty_bblock [].
Proof. split; simpl; try done. Qed.

(** [Encode] into a fresh buffer of [EncodedSize] bytes. *)
Lemma Encode_fresh v :
  is_u64 (ExpiresAt v) -> len (vbytes (Value v)) + 12 < 2 ^ 32 ->
  Encode v (replicate (Z.to_nat (EncodedSize v)) x00) = Some (EncodeTo v, EncodedSize v).
Proof.
  intros He Hl.
  assert (EncodedSize v = len (EncodeTo v)) as E.
  { rewrite EncodedSize_EncodeTo by done. apply wrap_small. rewrite EncodeTo_size by done.
    rewrite sizeVarint_length by done. pose proof (PutUvarint_length (ExpiresAt v)).
    pose proof (len_nonneg (vbytes (Value v))). lia. }
  rewrite E. pose proof (Encode_EncodeTo v (replicate (length (EncodeTo v)) x00) []) as H.
  rewrite !app_nil_r, length_replicate in H. rewrite to_nat_len, H by done.
  rewrite <- EncodedSize_EncodeTo, E by done. done.
Qed.

Lemma EncodeTo_bound v :
  is_u64 (ExpiresAt v) -> len (EncodeTo v) <= len (vbytes (Value v)) + 12.
Proof.
  intros He. rewrite EncodeTo_size, sizeVarint_length by done.
  pose proof (PutUvarint_length (ExpiresAt v)). lia.
Qed.

(** The most a key-value pair adds to a block. *)
Definition kv_size (key : bytes) (v : ValueStruct) : Z := 4 + len key + len (vbytes (Value v)) + 12.

Lemma enc_entry_size base x :
  entry_ok base x -> 6 <= len (enc_entry x) <= kv_size x.2.1 x.2.2.
Proof.
  destruct x as [ov [k v]]. intros ((Hk & He & Hv) & Hov & _).
  unfold enc_entry, kv_size. cbn [fst snd] in *. rewrite !len_app, header_Encode_length.
  pose proof (EncodeTo_bound v He). unfold headerSize.
  assert (len (drop (Z.to_nat ov) k) = len k - ov) as -> by (unfold len in *; rewrite length_drop; lia).
  assert (2 <= len (EncodeTo v)) by (unfold EncodeTo; rewrite len_app; unfold len; simpl; lia).
  lia.
Qed.

Lemma addHelper_repr b key v n xs :
  bb_repr (curBlock b) xs -> kv_ok key v ->
  len (bdata (curBlock b)) + kv_size key v < 2 ^ 32 ->
  exists b' ov, addHelper b key v n = Some b' /\
    bb_repr (curBlock b') (xs ++ [(ov, (key, v))]) /\
    blockList b' = blockList b /\ keyHashes b' = keyHashes b ++ [Hash (ParseKey key)] /\
    opts b' = opts b /\
    maxVersion b' = Z.max (maxVersion b) (ParseTs key).
Proof.
  intros [Hd Ho Hok Hb Hs] Hkv Hsz. unfold addHelper. cbv zeta.
  pose proof Hkv as ((Hk & Hk') & He & Hl). unfold maxBlockKey in Hk'.
  set (bb := curBlock b) in *.
  assert (exists ov, entry_ok (if bool_decide (len (bbaseKey bb) = 0) then key else bbaseKey bb)
            (ov, (key, v)) /\
    (if bool_decide (len (bbaseKey bb) = 0) then (key, key)
     else (bbaseKey bb, keyDiff key (bbaseKey bb)))
    = (if bool_decide (len (bbaseKey bb) = 0) then key else bbaseKey bb,
       drop (Z.to_nat ov) key) /\
    (bool_decide (len (bbaseKey bb) = 0) = true -> ov = 0)) as (ov & Hent & -> & Hov0).
  { case_bool_decide as Hz.
    - exists 0. split_and!; try done. split_and!; simpl; try done; lia.
    - destruct (keyDiff_spec key (bbaseKey bb)) as (i & E & H1 & H2 & H3).
      exists (Z.of_nat i). unfold entry_ok. simpl. rewrite Nat2Z.id, E.
      split_and!; try done; unfold len; lia. }
  pose proof (enc_entry_size _ _ Hent) as Hes. simpl in Hes.
  destruct Hent as (_ & Hov & Hovb & Htk). simpl in *.
  assert (len (drop (Z.to_nat ov) key) = len key - ov) as Ed
    by (unfold len in *; rewrite length_drop; lia).
  rewrite Ed. replace (len key - (len key - ov)) with ov by lia.
  rewrite bool_decide_eq_true_2 by (unfold MaxUint16; lia).
  rewrite Encode_fresh by done. cbn [mbind option_bind].
  eexists _, ov. split; [done|]. simpl.
  rewrite !(wrap_small 16) by lia. rewrite (wrap_small 32) by (pose proof (len_nonneg (bdata bb)); lia).
  split_and!; try done.
  2: { clear. case_bool_decide; lia. }
  assert (xs = [] \/ bool_decide (len (bbaseKey bb) = 0) = false) as Hcase.
  { destruct xs as [|x xs]; [by left|right]. apply bool_decide_eq_false_2.
    destruct Hb as [_ <-]. apply Forall_cons in Hok as [((? & _) & _) _]. lia. }
  split; simpl.
  - rewrite fmap_app, concat_app, Hd. simpl. rewrite app_nil_r, <- !app_assoc.
    unfold enc_entry. by simpl.
  - rewrite fmap_app, offs_app, Ho, Hd. simpl. f_equal.
  - apply Forall_app. split.
    + destruct Hcase as [->|Hc]; [constructor|by rewrite Hc].
    + apply Forall_singleton. split_and!; simpl; try done; lia.
  - destruct xs as [|x xs]; simpl.
    + simpl in Hb. rewrite Hb in *. simpl in *. split; [by apply Hov0|done].
    + destruct Hcase as [|Hc]; [done|]. by rewrite Hc.
  - rewrite !len_app, header_Encode_length, Ed. pose proof (EncodeTo_bound v He).
    unfold kv_size, headerSize in *. lia.
Qed.

(** ** Lemmas: a finished block reads back *)

Section ReadBack.
Context `{C : ChecksumCodec} `{!ChecksumCodecLaws C}.

Lemma BytesToU32_U32ToBytes n : 0 <= n < 2 ^ 32 -> BytesToU32 (U32ToBytes n) = Some n.
Proof.
  intros Hn. unfold BytesToU32, U32ToBytes.
  pose proof (slice_0 (be_encode 4 n) []) as H. rewrite app_nil_r in H. rewrite H.
  2: { unfold len. by rewrite be_encode_length. }
  simpl. rewrite be_decode_encode. change (8 * Z.of_nat 4) with 32. by rewrite Z.mod_small.
Qed.

Lemma U32ToBytes_len n : len (U32ToBytes n) = 4.
Proof. unfold len, U32ToBytes. by rewrite be_encode_length. Qed.

(** The block [read_block] gives back. *)
Definition block_of (bb : bblock) : Block :=
  let body := bdata bb ++ U32SliceToBytes (bentryOffsets bb)
                ++ U32ToBytes (u32 (len (bentryOffsets bb))) in
  mkBlock body (calculateChecksum body) (len (bdata bb)) (bentryOffsets bb).

Lemma bb_offsets_range bb xs :
  bb_repr bb xs -> Forall (fun o => 0 <= o < 2 ^ 32) (bentryOffsets bb).
Proof.
  intros [Hd Ho Hok Hb Hs]. rewrite Ho. eapply Forall_impl; [by apply offs_bound|].
  intros o. simpl. rewrite <- Hd. lia.
Qed.

Lemma verify_block_of bb : verifyCheckSum (block_of bb) = Ok tt.
Proof.
  unfold verifyCheckSum, block_of. simpl.
  match goal with |- context[calculateChecksum ?d] =>
    destruct (calculateChecksum_verifies d) as (cs & -> & ->) end. done.
Qed.

Lemma finish_bblock_eq bb :
  bdata (finish_bblock bb)
  = bdata bb ++ U32SliceToBytes (bentryOffsets bb) ++ U32ToBytes (u32 (len (bentryOffsets bb)))
    ++ kchecksum (block_of bb) ++ U32ToBytes (u32 (len (kchecksum (block_of bb)))).
Proof.
  unfold finish_bblock, block_of, Builder_append. cbn [bdata kchecksum]. by rewrite <- !app_assoc.
Qed.

Lemma read_block_finish bb xs verify :
  bb_repr bb xs -> len (bdata (finish_bblock bb)) < 2 ^ 32 ->
  read_block (bdata (finish_bblock bb)) verify = Ok (block_of bb).
Proof.
  intros Hr. rewrite finish_bblock_eq.
  set (d := bdata bb). set (os := U32SliceToBytes (bentryOffsets bb)).
  set (n := u32 (len (bentryOffsets bb))). set (cs := kchecksum (block_of bb)).
  set (l := u32 (len cs)). intros Hlen.
  assert (len os = 4 * len (bentryOffsets bb)) as Eos.
  { unfold os, len. rewrite U32SliceToBytes_length. lia. }
  rewrite !len_app, !U32ToBytes_len, Eos in Hlen.
  pose proof (len_nonneg d). pose proof (len_nonneg cs). pose proof (len_nonneg (bentryOffsets bb)).
  assert (n = len (bentryOffsets bb)) as En by (apply wrap_small; lia).
  assert (l = len cs) as El by (apply wrap_small; lia).
  unfold read_block. cbv zeta.
  assert (len (d ++ os ++ U32ToBytes n ++ cs ++ U32ToBytes l)
    = len d + len os + 4 + len cs + 4) as ED by (rewrite !len_app, !U32ToBytes_len; lia).
  set (D := d ++ _) in *. set (r := len D - 4).
  rewrite (slice_at (d ++ os ++ U32ToBytes n ++ cs) (U32ToBytes l) [] D r (r + 4));
    [|unfold D; by rewrite app_nil_r, <- !app_assoc|rewrite !len_app, !U32ToBytes_len; lia..].
  cbn [unpanic mbind result_bind].
  rewrite BytesToU32_U32ToBytes by lia. cbn [unpanic mbind result_bind].
  rewrite bool_decide_eq_false_2 by lia.
  rewrite (slice_at (d ++ os ++ U32ToBytes n) cs (U32ToBytes l) D (r - l) (r - l + l));
    [|unfold D; by rewrite <- !app_assoc|rewrite !len_app, !U32ToBytes_len; lia..].
  cbn [unpanic mbind result_bind].
  rewrite (slice_at (d ++ os) (U32ToBytes n) (cs ++ U32ToBytes l) D (r - l - 4) (r - l - 4 + 4));
    [|unfold D; by rewrite <- !app_assoc|rewrite !len_app, ?U32ToBytes_len; lia..].
  cbn [unpanic mbind result_bind].
  rewrite BytesToU32_U32ToBytes by lia. cbn [unpanic mbind result_bind].
  rewrite (slice_at d os (U32ToBytes n ++ cs ++ U32ToBytes l) D (r - l - 4 - n * 4)
    (r - l - 4 - n * 4 + n * 4)); [|done|lia..].
  cbn [unpanic mbind result_bind].
  rewrite (slice_at [] (d ++ os ++ U32ToBytes n) (cs ++ U32ToBytes l) D 0 (r - l - 4 + 4));
    [|unfold D; rewrite app_nil_l, <- !app_assoc; done|done|
      rewrite !len_app, U32ToBytes_len; change (len []) with 0; lia].
  cbn [unpanic mbind result_bind].
  assert (BytesToU32Slice os = bentryOffsets bb) as ->
    by (by eapply BytesToU32Slice_roundtrip, bb_offsets_range).
  replace (r - l - 4 - n * 4) with (len d) by lia.
  change (mkBlock (d ++ os ++ U32ToBytes n) cs (len d) (bentryOffsets bb)) with (block_of bb).
  destruct verify; [|done]. by rewrite verify_block_of.
Qed.

Lemma setBlock_block_of bb xs :
  bb_repr bb xs ->
  setBlock (block_of bb)
  = Some (mkBI (concat (enc_entry <$> xs)) 0 false [] [] [] (offs 0 (enc_entry <$> xs)) 0).
Proof.
  intros [Hd Ho Hok Hb Hs]. unfold setBlock, block_of. cbn [kdata entriesIndexStart kentryOffsets].
  rewrite slice_0 by done. cbn [mbind option_bind]. by rewrite Hd, Ho.
Qed.
End ReadBack.

(** ** Lemmas: the iterator *)

(** The entries of a block, well formed with respect to their base key. *)
Definition xs_ok (base : bytes) (xs : list entry) : Prop :=
  Forall (entry_ok base) xs /\ exists v rest, xs = (0, (base, v)) :: rest.

(** An iterator over those entries, wherever it stands: the part of [ikey] that [prevOverlap]
    vouches for agrees with the base key. *)
Record bi_ok (base : bytes) (xs : list entry) (it : blockIterator) : Prop := {
  bo_data : idata it = concat (enc_entry <$> xs);
  bo_offsets : ientryOffsets it = offs 0 (enc_entry <$> xs);
  bo_base : ibaseKey it = [] \/ ibaseKey it = base;
  bo_prev : 0 <= prevOverlap it <= len (ikey it) /\ prevOverlap it <= len base;
  bo_key : take (Z.to_nat (prevOverlap it)) (ikey it) = take (Z.to_nat (prevOverlap it)) base;
  bo_shown : ikey it = [] \/ exists x, x ∈ xs /\ ikey it = x.2.1
}.

Lemma bb_repr_xs_ok bb xs : bb_repr bb xs -> xs <> [] -> xs_ok (bbaseKey bb) xs.
Proof.
  intros [Hd Ho Hok Hb Hs] Hne. split; [done|].
  destruct xs as [|[o [k v]] xs]; [done|]. destruct Hb as [Hb1 Hb2]. simpl in *. subst. eauto.
Qed.

Lemma bi_ok_start base xs :
  bi_ok base xs (mkBI (concat (enc_entry <$> xs)) 0 false [] [] [] (offs 0 (enc_entry <$> xs)) 0).
Proof. split; simpl; try done; [by left|unfold len; simpl; lia|by left]. Qed.

Lemma slice_take {A} (s : list A) n : 0 <= n <= len s -> slice s 0 n = Some (take (Z.to_nat n) s).
Proof.
  intros Hn. unfold slice. rewrite bool_decide_eq_true_2 by lia. simpl.
  by rewrite Z.sub_0_r, drop_0.
Qed.

Lemma take_len {A} (s : list A) n : 0 <= n <= len s -> len (take (Z.to_nat n) s) = n.
Proof. intros Hn. unfold len in *. rewrite length_take. lia. Qed.

(** The base key read off the first entry. *)
Lemma read_base base xs :
  xs_ok base xs ->
  (baseHeader ← header_Decode (concat (enc_entry <$> xs));
   slice (concat (enc_entry <$> xs)) headerSize (u16 (headerSize + diff baseHeader))) = Some base.
Proof.
  intros (Hall & v & rest & ->). apply Forall_cons in Hall as [((Hk & _) & _) _].
  cbn [fst snd] in Hk. unfold maxBlockKey in Hk. rewrite fmap_cons. cbn [concat].
  set (tl := concat _).
  assert (enc_entry (0, (base, v)) ++ tl
    = header_Encode (mkHeader 0 (len base)) ++ base ++ (EncodeTo v ++ tl)) as ->.
  { unfold enc_entry. cbn [fst snd]. by rewrite Z.sub_0_r, drop_0, <- !app_assoc. }
  rewrite header_Decode_Encode by (cbn [overlap diff]; lia). cbn [mbind option_bind diff].
  rewrite wrap_small by (unfold headerSize; lia).
  by apply slice_mid; rewrite header_Encode_length.
Qed.

(** Reusing the prefix of the previous key is sound whatever entry was visited before. *)
Lemma reuse_prefix base key p o :
  0 <= p <= len key -> p <= len base -> 0 <= o <= len base ->
  take (Z.to_nat p) key = take (Z.to_nat p) base ->
  exists k', (if bool_decide (p < o) then s ← slice base p o; append_at key p s else Some key) = Some k' /\
    0 <= o <= len k' /\ take (Z.to_nat o) k' = take (Z.to_nat o) base.
Proof.
  intros Hp Hpb Ho Htk. case_bool_decide as Hlt.
  - unfold slice. rewrite bool_decide_eq_true_2 by lia. cbn [mbind option_bind].
    unfold append_at. rewrite slice_take by done. cbn [mbind option_bind].
    eexists. split; [done|]. rewrite Htk.
    assert (take (Z.to_nat p) base ++ take (Z.to_nat (o - p)) (drop (Z.to_nat p) base)
      = take (Z.to_nat o) base) as ->.
    { rewrite <- (take_drop (Z.to_nat p) (take (Z.to_nat o) base)).
      rewrite take_take, skipn_firstn_comm. do 2 f_equal; lia. }
    rewrite take_len by lia. split; [lia|]. by rewrite take_take, Nat.min_id.
  - exists key. split_and!; [done|lia|lia|].
    apply (f_equal (take (Z.to_nat o))) in Htk. rewrite !take_take in Htk.
    by replace (Z.to_nat o `min` Z.to_nat p)%nat with (Z.to_nat o) in Htk by lia.
Qed.

Lemma setIdx_out base xs it i :
  bi_ok base xs it -> (i < 0 \/ len xs <= i) ->
  setIdx it i = Some (bi_eof it i) /\ bi_ok base xs (bi_eof it i).
Proof.
  intros Hok Hi. destruct Hok as [Hd Ho Hb Hp Hk Hsh]. unfold setIdx.
  assert (len (ientryOffsets it) = len xs) as El
    by (unfold len; by rewrite Ho, offs_length, length_fmap).
  rewrite El, bool_decide_eq_true_2 by lia. split; [done|]. split; done.
Qed.

Lemma setIdx_in base xs it i ov k v :
  xs_ok base xs -> bi_ok base xs it -> xs !! i = Some (ov, (k, v)) ->
  exists it', setIdx it (Z.of_nat i) = Some it' /\ bi_ok base xs it' /\
    idx it' = Z.of_nat i /\ ieof it' = false /\ ikey it' = k /\ ival it' = EncodeTo v.
Proof.
  intros Hxs [Hd Ho Hb Hp Hk Hsh] Hi. unfold setIdx.
  pose proof (lookup_lt_Some _ _ _ Hi) as Hlt.
  assert (len (ientryOffsets it) = len xs) as El
    by (unfold len; by rewrite Ho, offs_length, length_fmap).
  rewrite El, Hd, Ho, (bool_decide_eq_false_2 (len xs <= _ \/ _)), Nat2Z.id by (unfold len; lia).
  set (E := enc_entry <$> xs).
  assert (length E = length xs) as ELen by (unfold E; apply length_fmap).
  assert (E !! i = Some (enc_entry (ov, (k, v)))) as HE
    by (unfold E; by rewrite list_lookup_fmap, Hi).
  rewrite (offs_lookup 0 E i) by lia. cbn [mbind option_bind]. rewrite Z.add_0_l.
  assert ((if bool_decide (len (ibaseKey it) = 0)
           then baseHeader ← header_Decode (concat E);
                slice (concat E) headerSize (u16 (headerSize + diff baseHeader))
           else Some (ibaseKey it)) = Some base) as ->.
  { case_bool_decide as Hz; [by apply read_base|].
    destruct Hb as [Hb|Hb]; [by rewrite Hb in Hz|by rewrite Hb]. }
  cbn [mbind option_bind].
  assert ((if bool_decide (Z.of_nat i + 1 = len xs) then Some (len (concat E))
           else offs 0 E !! Z.to_nat (Z.of_nat i + 1))
    = Some (len (concat (take i E)) + len (enc_entry (ov, (k, v))))) as ->.
  { assert (concat (take (S i) E) = concat (take i E) ++ enc_entry (ov, (k, v))) as Etk
      by (rewrite (take_S_r _ _ _ HE), concat_app; simpl; by rewrite app_nil_r).
    case_bool_decide as Hlast.
    - f_equal. rewrite <- len_app, <- Etk, take_ge; [done|]. unfold len in Hlast. lia.
    - rewrite offs_lookup by (unfold len in Hlast; lia). f_equal. rewrite <- len_app, <- Etk.
      by replace (Z.to_nat (Z.of_nat i + 1)) with (S i) by lia. }
  cbn [mbind option_bind]. rewrite (slice_concat E i _ HE). cbn [mbind option_bind].
  destruct Hxs as [Hall _].
  pose proof (proj1 (Forall_lookup _ _) Hall i _ Hi) as Hent.
  destruct (enc_entry_split _ _ Hent) as (-> & Hs1 & Hs2). cbn [fst snd] in Hs1, Hs2.
  destruct Hent as ((Hkl & _) & Hov & Hovb & Htk). cbn [fst snd] in *. unfold maxBlockKey in Hkl.
  cbn [mbind option_bind overlap diff].
  destruct (reuse_prefix base (ikey it) (prevOverlap it) ov) as (k' & Ek' & Hl' & Ht');
    [lia|lia|lia|done|].
  rewrite Ek'. cbn [mbind option_bind]. rewrite wrap_small by (unfold headerSize; lia).
  rewrite Hs1. cbn [mbind option_bind]. unfold append_at. rewrite slice_take by done.
  cbn [mbind option_bind]. rewrite Hs2. cbn [mbind option_bind].
  assert (take (Z.to_nat ov) k' ++ drop (Z.to_nat ov) k = k) as Ekey
    by (rewrite Ht', <- Htk; apply take_drop).
  rewrite Ekey. eexists. split; [done|]. split; [|done].
  split; cbn [idata ientryOffsets ibaseKey prevOverlap ikey]; try done; [by right|].
  right. eexists. split; [by eapply list_elem_of_lookup_2|done].
Qed.

(** The sequence of keys a block holds, strictly increasing. *)
Definition xs_sorted (xs : list entry) : Prop :=
  StronglySorted (fun x y => compareKeys x.2.1 y.2.1 = Lt) xs.

(** [seek] stops at the first entry not below the key (and not before the start index). *)
Definition seek_pred (xs : list entry) (start : Z) (key : bytes) (h : nat) : bool :=
  negb (bool_decide (Z.of_nat h < start)) &&
  match xs !! h with Some x => bool_decide (compareKeys x.2.1 key <> Lt) | None => true end.

Lemma seek_pred_mono xs start key i j :
  xs_sorted xs -> (i <= j < length xs)%nat ->
  seek_pred xs start key i = true -> seek_pred xs start key j = true.
Proof.
  intros Hs Hij. unfold seek_pred. rewrite !andb_true_iff, !negb_true_iff, !bool_decide_eq_false.
  intros [Hst Hi]. split; [lia|].
  destruct (decide (i = j)) as [->|Hne]; [done|].
  destruct (lookup_lt_is_Some_2 xs i ltac:(lia)) as [x Hx].
  destruct (lookup_lt_is_Some_2 xs j ltac:(lia)) as [y Hy].
  rewrite Hx in Hi. rewrite Hy. apply bool_decide_eq_true in Hi. apply bool_decide_eq_true.
  intros Hlt. apply Hi.
  pose proof (StronglySorted_lookup _ _ i j x y Hs Hx Hy ltac:(lia)) as Hxy. simpl in Hxy.
  by apply (cmp_trans compareKeys _ y.2.1).
Qed.

Lemma xs_ok_has_ts base xs i x : xs_ok base xs -> xs !! i = Some x -> has_ts x.2.1.
Proof.
  intros [Hall _] Hi. destruct (proj1 (Forall_lookup _ _) Hall i x Hi) as ((Hk & _) & _).
  unfold has_ts. lia.
Qed.

Lemma bi_seek_spec base xs it key w :
  xs_ok base xs -> xs_sorted xs -> bi_ok base xs it -> has_ts key ->
  let start := match w with origin => 0 | current => idx it end in
  exists it' r, bi_seek it key w = Some it' /\ bi_ok base xs it' /\ idx it' = Z.of_nat r /\
    (r <= length xs)%nat /\
    (forall h, (h < r)%nat -> seek_pred xs start key h = false) /\
    (forall h, (r <= h < length xs)%nat -> seek_pred xs start key h = true) /\
    match xs !! r with
    | Some x => ieof it' = false /\ ikey it' = x.2.1 /\ ival it' = EncodeTo x.2.2
    | None => ieof it' = true
    end.
Proof.
  intros Hxs Hs Hok Hkey start. unfold bi_seek. fold start.
  set (it0 := mkBI _ _ _ _ _ _ _ _).
  assert (bi_ok base xs it0) as Hok0 by (destruct Hok; split; done).
  assert (length (ientryOffsets it0) = length xs) as El
    by (rewrite (bo_offsets _ _ _ Hok0), offs_length; apply length_fmap).
  rewrite El.
  pose proof (sort_SearchM_spec (length xs) (seek_probe start key) (seek_pred xs start key)
    (fun s => exists it, s = Some it /\ bi_ok base xs it)) as HS.
  destruct (sort_SearchM (length xs) (seek_probe start key) (Some it0)) as [r s] eqn:Er.
  assert (forall h s, (h < length xs)%nat -> (exists it, s = Some it /\ bi_ok base xs it) ->
    (seek_probe start key h s).1 = seek_pred xs start key h /\
    exists it, (seek_probe start key h s).2 = Some it /\ bi_ok base xs it) as Hf.
  { intros h s0 Hh (it1 & -> & Hok1). unfold seek_probe, seek_pred.
    case_bool_decide as Hst; [simpl; eauto|].
    destruct (lookup_lt_is_Some_2 xs h Hh) as [[o [k v]] Hx].
    destruct (setIdx_in base xs it1 h o k v Hxs Hok1 Hx) as (it2 & E2 & Hok2 & _ & _ & Hk2 & _).
    cbn [mbind option_bind]. rewrite E2, Hx, Hk2. simpl.
    pose proof (xs_ok_has_ts _ _ _ _ Hxs Hx) as Hts. simpl in Hts.
    rewrite CompareKeys_total by done. simpl. split; [done|eauto]. }
  specialize (HS Hf (fun i j Hij => seek_pred_mono xs start key i j Hs Hij) (Some it0)
    (ex_intro _ it0 (conj eq_refl Hok0))).
  rewrite Er in HS. destruct HS as ((it1 & -> & Hok1) & Hr & Hlo & Hhi).
  cbn [mbind option_bind].
  destruct (xs !! r) as [[o [k v]]|] eqn:Ex.
  - destruct (setIdx_in base xs it1 r o k v Hxs Hok1 Ex) as (it2 & E2 & Hok2 & Hi2 & He2 & Hk2 & Hv2).
    exists it2, r. by rewrite Ex.
  - apply lookup_ge_None in Ex as Hge.
    destruct (setIdx_out base xs it1 (Z.of_nat r) Hok1) as [E2 Hok2]; [unfold len; lia|].
    exists (bi_eof it1 (Z.of_nat r)), r. by rewrite Ex.
Qed.

(** ** Properties *)

Section BlockProperties.
Context `{C : ChecksumCodec} `{!ChecksumCodecLaws C}.

(** Adding key-value pairs to one block. *)
Definition add_all (b : Builder) (kvs : list (bytes * ValueStruct)) : option Builder :=
  foldl (fun acc kv => b ← acc; addHelper b kv.1 kv.2 0) (Some b) kvs.

(** An upper bound on the finished block. *)
Definition block_bound (kvs : list (bytes * ValueStruct)) : Z :=
  foldr (fun kv n => kv_size kv.1 kv.2 + 4 + n) (8 + 2 ^ 16) kvs.

Definition kvs_ok (kvs : list (bytes * ValueStruct)) : Prop :=
  Forall (fun kv => kv_ok kv.1 kv.2) kvs /\ block_bound kvs < 2 ^ 32.

Lemma block_bound_app kvs kvs' :
  block_bound (kvs ++ kvs') = block_bound kvs + block_bound kvs' - (8 + 2 ^ 16).
Proof.
  induction kvs as [|kv kvs IH]; simpl; [lia|]. unfold block_bound in *. simpl. rewrite IH. lia.
Qed.

Lemma add_all_repr o kvs :
  kvs_ok kvs ->
  exists b xs, add_all (NewTableBuilder o) kvs = Some b /\ bb_repr (curBlock b) xs /\
    xs.*2 = kvs /\ blockList b = [] /\
    len (bdata (curBlock b)) + 4 * len kvs + 8 + 2 ^ 16 <= block_bound kvs.
Proof.
  unfold kvs_ok, add_all. induction kvs as [|[k v] kvs IH] using rev_ind; intros [Hall Hb].
  - exists (NewTableBuilder o), []. split_and!; try done.
  - apply Forall_app in Hall as [Hall [Hkv _]%Forall_cons]. simpl in Hkv.
    rewrite block_bound_app in Hb |- *. rewrite foldl_app.
    assert (block_bound [(k, v)] = kv_size k v + 4 + (8 + 2 ^ 16)) as E1 by done.
    assert (0 <= kv_size k v) as Hpos
      by (unfold kv_size; pose proof (len_nonneg k); pose proof (len_nonneg (vbytes (Value v))); lia).
    destruct IH as (b & xs & Eb & Hr & Hx & Hl & Hs); [split; [done|lia]|].
    rewrite Eb. cbn [foldl fst snd mbind option_bind].
    pose proof (len_nonneg kvs) as Hk0.
    destruct (addHelper_repr b k v 0 xs Hr Hkv) as (b' & ov & E' & Hr' & Hl' & _); [lia|].
    exists b', (xs ++ [(ov, (k, v))]). split_and!; [done|done| |congruence|].
    + by rewrite fmap_app, Hx.
    + destruct Hr as [Hd _ _ _ _], Hr' as [Hd' _ Hok' _ _].
      apply Forall_app in Hok' as [_ [He _]%Forall_cons].
      apply enc_entry_size in He. cbn [fst snd] in He.
      rewrite Hd', fmap_app, concat_app, len_app, <- Hd. cbn [fmap list_fmap concat].
      rewrite app_nil_r. rewrite len_app. change (len [(k, v)]) with 1. lia.
Qed.

(** The finished block of a non-empty list, and the iterator on it. *)
Lemma finish_repr o kvs :
  kvs_ok kvs -> kvs <> [] ->
  exists b bb xs, add_all (NewTableBuilder o) kvs = Some b /\ blockList (finishBlock b) = [bb] /\
    xs.*2 = kvs /\ xs_ok (bbaseKey bb) xs /\
    forall verify, exists blk it, read_block (bdata bb) verify = Ok blk /\
      setBlock blk = Some it /\ bi_ok (bbaseKey bb) xs it.
Proof.
  intros Hok Hne. destruct (add_all_repr o kvs Hok) as (b & xs & Eb & Hr & Hx & Hl & Hs).
  assert (xs <> []) as Hxne by (intros ->; done).
  assert (len (bentryOffsets (curBlock b)) = len kvs) as En.
  { unfold len. rewrite (br_offsets _ _ Hr), offs_length. by rewrite <- Hx, !length_fmap. }
  assert (0 < len kvs) as Hpos by (destruct kvs; [done|unfold len; simpl; lia]).
  exists b, (finish_bblock (curBlock b)), xs. split_and!; [done| |done|exact (bb_repr_xs_ok _ _ Hr Hxne)|].
  - unfold finishBlock. rewrite bool_decide_eq_false_2 by lia. simpl. by rewrite Hl.
  - intros verify.
    assert (len (bdata (finish_bblock (curBlock b))) < 2 ^ 32) as Hlt.
    { rewrite finish_bblock_eq, !len_app, !U32ToBytes_len. unfold block_of. cbn [kchecksum].
      match goal with |- context[calculateChecksum ?d] =>
        pose proof (Checksum_short (mkChecksum Checksum_CRC32C (crc32c d))) as Hcs end.
      unfold calculateChecksum. cbn [CalculateChecksum].
      assert (len (U32SliceToBytes (bentryOffsets (curBlock b)))
        = 4 * len (bentryOffsets (curBlock b))) as ->
        by (unfold len; rewrite U32SliceToBytes_length; lia).
      destruct Hok as [_ Hb]. lia. }
    exists (block_of (curBlock b)).
    eexists. split_and!; [by eapply read_block_finish|by eapply setBlock_block_of|].
    apply bi_ok_start.
Qed.

(** Moving the iterator anywhere, in or out of range, any number of times. *)
Definition visit (it : blockIterator) (ps : list Z) : option blockIterator :=
  foldl (fun acc p => it ← acc; setIdx it p) (Some it) ps.

Lemma visit_ok base xs it ps :
  xs_ok base xs -> bi_ok base xs it -> exists it', visit it ps = Some it' /\ bi_ok base xs it'.
Proof.
  intros Hxs Hok. unfold visit. induction ps as [|p ps IH] using rev_ind; [by exists it|].
  destruct IH as (it1 & E & Hok1). rewrite foldl_app, E. cbn [foldl mbind option_bind].
  destruct (decide (p < 0 \/ len xs <= p)) as [Hp|Hp].
  - destruct (setIdx_out base xs it1 p Hok1 Hp) as [-> ?]. eauto.
  - destruct (lookup_lt_is_Some_2 xs (Z.to_nat p)) as [[o [k v]] Hx]; [unfold len in Hp; lia|].
    destruct (setIdx_in base xs it1 _ o k v Hxs Hok1 Hx) as (it2 & E2 & Hok2 & _).
    rewrite Z2Nat.id in E2 by lia. eauto.
Qed.

(** Block round trip.  Whatever key-value pairs one block is built from, the block's bytes
    parse (with the checksum verified or not), and an iterator over them — after any sequence
    of positions it was moved to before, in or out of range, so whatever prefix it kept from
    the previous key — yields at position [i] exactly the [i]-th key and value. *)
Theorem block_roundtrip (o : Options) (kvs : list (bytes * ValueStruct)) (verify : bool)
    (ps : list Z) (i : nat) (k : bytes) (v : ValueStruct) :
  kvs_ok kvs -> kvs !! i = Some (k, v) ->
  exists b bb blk it it',
    add_all (NewTableBuilder o) kvs = Some b /\ blockList (finishBlock b) = [bb] /\
    read_block (bdata bb) verify = Ok blk /\ setBlock blk = Some it /\
    (it1 ← visit it ps; setIdx it1 (Z.of_nat i)) = Some it' /\
    bi_Valid it' = true /\ ikey it' = k /\
    Decode vs_zero (ival it')
    = Some (mkVS (Meta v) (UserMeta v) (ExpiresAt v) (Some (vbytes (Value v))) 0).
Proof.
  intros Hok Hi. destruct (finish_repr o kvs Hok) as (b & bb & xs & Eb & El & Hx & Hxs & Hr);
    [by intros ->|].
  destruct (Hr verify) as (blk & it & Erd & Eset & Hit).
  destruct (visit_ok _ _ it ps Hxs Hit) as (it1 & Ev & Hit1).
  rewrite <- Hx, list_lookup_fmap in Hi.
  destruct (xs !! i) as [[ov [k' v']]|] eqn:Exi; simplify_eq/=.
  destruct (setIdx_in _ _ it1 i ov k v Hxs Hit1 Exi) as (it2 & E2 & _ & _ & Heof & Hk & Hv).
  exists b, bb, blk, it, it2. split_and!; try done.
  - rewrite Ev. done.
  - unfold bi_Valid. by rewrite Heof.
  - rewrite Hv. apply Decode_EncodeTo.
    destruct Hxs as [Hall _]. by destruct (proj1 (Forall_lookup _ _) Hall i _ Exi) as ((_ & ? & _) & _).
Qed.

(** [seek] in a block of strictly increasing keys stops at the first key not below the one
    sought and at the end when there is none, from wherever the iterator was. *)
Theorem block_seek_first_geq (o : Options) (kvs : list (bytes * ValueStruct)) (verify : bool)
    (ps : list Z) (key : bytes) :
  kvs_ok kvs -> kvs <> [] -> has_ts key ->
  StronglySorted (fun x y => compareKeys x.1 y.1 = Lt) kvs ->
  exists b bb blk it it' r,
    add_all (NewTableBuilder o) kvs = Some b /\ blockList (finishBlock b) = [bb] /\
    read_block (bdata bb) verify = Ok blk /\ setBlock blk = Some it /\
    (it1 ← visit it ps; bi_seek it1 key origin) = Some it' /\
    (forall h x, (h < r)%nat -> kvs !! h = Some x -> compareKeys x.1 key = Lt) /\
    match kvs !! r with
    | Some x => bi_Valid it' = true /\ ikey it' = x.1 /\ ival it' = EncodeTo x.2 /\
                compareKeys x.1 key <> Lt
    | None => bi_Valid it' = false /\ r = length kvs
    end.
Proof.
  intros Hok Hne Hkey Hs. destruct (finish_repr o kvs Hok Hne) as (b & bb & xs & Eb & El & Hx & Hxs & Hr).
  destruct (Hr verify) as (blk & it & Erd & Eset & Hit).
  destruct (visit_ok _ _ it ps Hxs Hit) as (it1 & Ev & Hit1).
  assert (xs_sorted xs) as Hxss.
  { unfold xs_sorted. rewrite <- Hx in Hs. clear -Hs.
    induction xs as [|x xs IH]; [constructor|]. rewrite fmap_cons in Hs.
    apply StronglySorted_cons in Hs as [Ha Hs]. constructor; [by apply IH|].
    by rewrite Forall_fmap in Ha. }
  destruct (bi_seek_spec _ xs it1 key origin Hxs Hxss Hit1 Hkey)
    as (it2 & r & E2 & _ & _ & Hrl & Hlo & Hhi & Hm).
  exists b, bb, blk, it, it2, r. rewrite Ev. split_and!; try done.
  - intros h x Hh Hxh. specialize (Hlo h Hh). unfold seek_pred in Hlo.
    rewrite <- Hx, list_lookup_fmap in Hxh. destruct (xs !! h) as [y|] eqn:Ey; simplify_eq/=.
    rewrite bool_decide_eq_false_2 in Hlo by lia. simpl in Hlo.
    apply bool_decide_eq_false in Hlo. by apply dec_stable.
  - rewrite <- Hx, list_lookup_fmap, length_fmap. unfold bi_Valid.
    destruct (xs !! r) as [x|] eqn:Ex; simpl.
    + destruct Hm as (-> & Hk & Hv). split_and!; try done.
      specialize (Hhi r). unfold seek_pred in Hhi. rewrite Ex in Hhi.
      apply lookup_lt_Some in Ex. specialize (Hhi ltac:(lia)).
      by apply andb_true_iff in Hhi as [_ ?%bool_decide_eq_true].
    + rewrite Hm. split; [done|]. apply lookup_ge_None in Ex. lia.
Qed.
End BlockProperties.

(** Three keys with growing and shrinking overlaps with the base key. *)
Definition block_example : list (bytes * ValueStruct) :=
  [(KeyWithTs [x61; x62; x63] 9, mkVS x00 x01 0 (Some [x01; x02]) 0);
   (KeyWithTs [x61; x62; x63; x64] 9, mkVS x01 x00 77 None 0);
   (KeyWithTs [x61; x70] 3, mkVS x00 x00 300 (Some []) 0)].

Lemma block_example_ok : kvs_ok block_example.
Proof.
  split; [|by vm_compute]. repeat (apply Forall_cons; split); [..|constructor];
    (split; [by vm_compute|split; by vm_compute]).
Qed.

Lemma block_roundtrip_witness :
  exists b bb blk it it',
    add_all (NewTableBuilder (mkOptions 0 4096 false false)) block_example = Some b /\
    blockList (finishBlock b) = [bb] /\
    read_block (bdata bb) true = Ok blk /\ setBlock blk = Some it /\
    (it1 ← visit it [2; 0; 7; 2]; setIdx it1 (Z.of_nat 1)) = Some it' /\
    bi_Valid it' = true /\ ikey it' = KeyWithTs [x61; x62; x63; x64] 9 /\
    Decode vs_zero (ival it') = Some (mkVS x01 x00 77 (Some []) 0).
Proof.
  apply (block_roundtrip (mkOptions 0 4096 false false) block_example true [2; 0; 7; 2] 1
    (KeyWithTs [x61; x62; x63; x64] 9) (mkVS x01 x00 77 None 0)); [apply block_example_ok|reflexivity].
Defined.

Lemma block_seek_first_geq_witness :
  exists b bb blk it it' r,
    add_all (NewTableBuilder (mkOptions 0 4096 false false)) block_example = Some b /\
    blockList (finishBlock b) = [bb] /\
    read_block (bdata bb) true = Ok blk /\ setBlock blk = Some it /\
    (it1 ← visit it [1]; bi_seek it1 (KeyWithTs [x61; x65] 1) origin) = Some it' /\
    (forall h x, (h < r)%nat -> block_example !! h = Some x ->
       compareKeys x.1 (KeyWithTs [x61; x65] 1) = Lt) /\
    match block_example !! r with
    | Some x => bi_Valid it' = true /\ ikey it' = x.1 /\ ival it' = EncodeTo x.2 /\
                compareKeys x.1 (KeyWithTs [x61; x65] 1) <> Lt
    | None => bi_Valid it' = false /\ r = length block_example
    end.
Proof.
  apply (block_seek_first_geq (mkOptions 0 4096 false false) block_example true [1]).
  - apply block_example_ok.
  - done.
  - by vm_compute.
  - repeat constructor; by vm_compute.
Defined.
