(* ===== verification/Manifest.v ===== *)
(** * Manifest: the MANIFEST file (manifest.go, levels.go)

    The list of tables per level, as an append-only log of change sets, each with its length and
    checksum.  The file is its bytes; writes and renames succeed, a crash during an append
    leaves a prefix of it.  [proto.Marshal] of a change set is a parameter.  A Go map is a
    [gmap]; the order in which one is ranged over is an argument. *)

From S2P Require Import Prelude Keys Checksum.

(** ** Change sets *)

Inductive change_op : Type := CREATE | DELETE | OpOther (n : Z).

Record ManifestChange : Type := mkChange {
  mc_Id : Z;
  mc_Op : change_op;
  mc_Level : Z;
  mc_KeyId : Z;
  mc_Compression : Z
}.

Definition newCreateChange (id level keyID c : Z) : ManifestChange :=
  mkChange id CREATE (u32 level) keyID c.

Definition newDeleteChange (id : Z) : ManifestChange := mkChange id DELETE 0 0 0.

(** [proto.Marshal] and [proto.Unmarshal] of [pb.ManifestChangeSet]. *)
Class ChangeSetCodec : Type := {
  cs_Marshal : list ManifestChange -> bytes;
  cs_Unmarshal : bytes -> option (list ManifestChange)
}.

Class ChangeSetCodecLaws (C : ChangeSetCodec) : Prop := {
  cs_roundtrip l : cs_Unmarshal (cs_Marshal l) = Some l
}.

(** ** The manifest in memory *)

Record TableManifest : Type := mkTM { tm_Level : Z; tm_KeyID : Z; tm_Compression : Z }.

Record Manifest : Type := mkManifest {
  m_Levels : list (gset Z);
  m_Tables : gmap Z TableManifest;
  Creations : Z;
  Deletions : Z
}.

Definition createManifest : Manifest := mkManifest [] ∅ 0 0.

Inductive manifest_error : Type :=
  | ErrTableExists (id : Z)
  | ErrInvalidOp
  | errBadMagic
  | ErrUnsupportedVersion
  | ErrExternalMagic
  | ErrBufferLength
  | errBadChecksum
  | ErrUnmarshalChanges
  | ErrFileMissing (id : Z).

(** The levels, grown until [l] is one of them. *)
Definition grow_levels (l : nat) (levels : list (gset Z)) : list (gset Z) :=
  levels ++ replicate (S l - length levels) ∅.

Definition applyManifestChange (build : Manifest) (tc : ManifestChange) : result manifest_error Manifest :=
  match mc_Op tc with
  | CREATE =>
      match m_Tables build !! mc_Id tc with
      | Some _ => Err (ErrTableExists (mc_Id tc))
      | None =>
          let lvl := Z.to_nat (mc_Level tc) in
          Ok (mkManifest
                (alter (fun s => {[mc_Id tc]} ∪ s) lvl (grow_levels lvl (m_Levels build)))
                (<[mc_Id tc := mkTM (u8 (mc_Level tc)) (mc_KeyId tc) (mc_Compression tc)]> (m_Tables build))
                (Creations build + 1) (Deletions build))
      end
  | DELETE =>
      match m_Tables build !! mc_Id tc with
      | None =>
          Ok (mkManifest ((fun s => s ∖ {[mc_Id tc]}) <$> m_Levels build) (m_Tables build)
                (Creations build) (Deletions build + 1))
      | Some tm =>
          let lvl := Z.to_nat (tm_Level tm) in
          match m_Levels build !! lvl with
          | None => Panic
          | Some s =>
              Ok (mkManifest (<[lvl := s ∖ {[mc_Id tc]}]> (m_Levels build))
                    (delete (mc_Id tc) (m_Tables build)) (Creations build) (Deletions build + 1))
          end
      end
  | OpOther _ => Err ErrInvalidOp
  end.

(** An error leaves the changes before it applied. *)
Fixpoint applyChangeSet (build : Manifest) (l : list ManifestChange)
    : Manifest * result manifest_error unit :=
  match l with
  | [] => (build, Ok tt)
  | tc :: l =>
      match applyManifestChange build tc with
      | Ok build => applyChangeSet build l
      | Err e => (build, Err e)
      | Panic => (build, Panic)
      end
  end.

(** [asChanges] for one order of the map. *)
Definition asChanges (order : list (Z * TableManifest)) : list ManifestChange :=
  (fun '(id, tm) => newCreateChange id (tm_Level tm) (tm_KeyID tm) (tm_Compression tm)) <$> order.

Definition manifest_clone (order : list (Z * TableManifest)) : result manifest_error Manifest :=
  match applyChangeSet createManifest (asChanges order) with
  | (ret, Ok _) => Ok ret
  | _ => Panic                                   (* y.Check *)
  end.

(** ** The file *)

Section File.
Context {C : ChangeSetCodec}.

Definition magicText : bytes := [x42; x64; x67; x72].
Definition badgerMagicVersion : Z := 8.
Definition manifestDeletionsRatio : Z := 10.

(** Length and checksum of a change set, then the set. *)
Definition change_record (buf : bytes) : bytes :=
  U32ToBytes (u32 (len buf)) ++ U32ToBytes (crc32c buf) ++ buf.

Definition magic_header (extMagic : Z) : bytes :=
  magicText ++ U16ToBytes extMagic ++ U16ToBytes badgerMagicVersion.

(** What [helpRewrite] leaves in the new file, and the net creations. *)
Definition helpRewrite (m : Manifest) (order : list (Z * TableManifest)) (extMagic : Z) : bytes * Z :=
  (magic_header extMagic ++ change_record (cs_Marshal (asChanges order)), Z.of_nat (size (m_Tables m))).

Record manifestFile : Type := mkMF {
  mf_data : bytes;
  externalMagic : Z;
  mf_manifest : Manifest;
  deletionsRewriteThreshold : Z;
  mf_inMemory : bool
}.

Definition mf_rewrite (mf : manifestFile) (order : list (Z * TableManifest)) : manifestFile :=
  let '(data, net) := helpRewrite (mf_manifest mf) order (externalMagic mf) in
  mkMF data (externalMagic mf)
    (mkManifest (m_Levels (mf_manifest mf)) (m_Tables (mf_manifest mf)) net 0)
    (deletionsRewriteThreshold mf) (mf_inMemory mf).

(** [order] is for a rewrite, and ranges over the manifest with the changes. *)
Definition addChanges (mf : manifestFile) (changes : list ManifestChange)
    (order : Manifest -> list (Z * TableManifest)) : manifestFile * result manifest_error unit :=
  if mf_inMemory mf then (mf, Ok tt)
  else
    let buf := cs_Marshal changes in
    let '(m, r) := applyChangeSet (mf_manifest mf) changes in
    let mf := mkMF (mf_data mf) (externalMagic mf) m (deletionsRewriteThreshold mf) (mf_inMemory mf) in
    match r with
    | Ok _ =>
        if bool_decide (deletionsRewriteThreshold mf < Deletions m) &&
           bool_decide (manifestDeletionsRatio * (Creations m - Deletions m) < Deletions m)
        then (mf_rewrite mf (order m), Ok tt)
        else (mkMF (mf_data mf ++ change_record buf) (externalMagic mf) m
                (deletionsRewriteThreshold mf) (mf_inMemory mf), Ok tt)
    | r => (mf, r)
    end.

(** The loop of [ReplayManifestFile] over what is left of the file; it stops at a record that
    is cut short. *)
Fixpoint replay_loop (fuel : nat) (fileSize : Z) (rest : bytes) (offset : Z) (build : Manifest)
    : result manifest_error (Manifest * Z) :=
  match fuel with
  | O => Panic
  | S fuel =>
      if bool_decide (len rest < 8) then Ok (build, offset)
      else
        length ← unpanic (BytesToU32 rest);
        sum ← unpanic (BytesToU32 (drop 4 rest));
        if bool_decide (u32 fileSize < length) then Err ErrBufferLength
        else
          let body := drop 8 rest in
          if bool_decide (len body < length) then Ok (build, offset)
          else
            let buf := take (Z.to_nat length) body in
            if bool_decide (crc32c buf <> sum) then Err errBadChecksum
            else
              match cs_Unmarshal buf with
              | None => Err ErrUnmarshalChanges
              | Some changes =>
                  match applyChangeSet build changes with
                  | (build, Ok _) =>
                      replay_loop fuel fileSize (drop (Z.to_nat length) body) (offset + 8 + length) build
                  | (_, Err e) => Err e
                  | (_, Panic) => Panic
                  end
              end
  end.

Definition ReplayManifestFile (data : bytes) (extMagic : Z) : result manifest_error (Manifest * Z) :=
  if bool_decide (len data < 8) then Err errBadMagic
  else if bool_decide (take 4 data <> magicText) then Err errBadMagic
  else
    extVersion ← unpanic (BytesToU16 (drop 4 data));
    version ← unpanic (BytesToU16 (drop 6 data));
    if bool_decide (version <> badgerMagicVersion) then Err ErrUnsupportedVersion
    else if bool_decide (extVersion <> extMagic) then Err ErrExternalMagic
    else replay_loop (S (length data)) (len data) (drop 8 data) 8 createManifest.

(** Opening: a missing file is created empty; otherwise the file is replayed and cut after the
    last complete record. *)
Definition helpOpenOrCreateManifestFile (file : option bytes) (readOnly : bool) (extMagic : Z)
    (deletionsThreshold : Z) (order : Manifest -> list (Z * TableManifest))
    : result manifest_error (manifestFile * Manifest) :=
  match file with
  | None =>
      if readOnly then Err (ErrFileMissing 0)
      else
        let m := createManifest in
        let '(data, netCreations) := helpRewrite m (order m) extMagic in
        if bool_decide (netCreations = 0) then
          c ← manifest_clone (order m);
          Ok (mkMF data extMagic c deletionsThreshold false, m)
        else Panic
  | Some data =>
      '(m, truncOffset) ← ReplayManifestFile data extMagic;
      c ← manifest_clone (order m);
      Ok (mkMF (if readOnly then data else take (Z.to_nat truncOffset) data) extMagic c
            deletionsThreshold false, m)
  end.
End File.

(** [revertToManifest]: the files left, when every table of the manifest has one. *)
Definition revertToManifest (mf : Manifest) (idMap : gset Z) : result manifest_error (gset Z) :=
  match list_find (fun id => id ∉ idMap) (map_to_list (m_Tables mf)).*1 with
  | Some (_, id) => Err (ErrFileMissing id)
  | None => Ok (filter (fun id => is_Some (m_Tables mf !! id)) idMap)
  end.

(** ** The abstract manifest: a finite map of tables *)

(** A change on the map of tables; [None] is an error. *)
Definition tables_step (ts : gmap Z TableManifest) (tc : ManifestChange) : option (gmap Z TableManifest) :=
  match mc_Op tc with
  | CREATE => if decide (ts !! mc_Id tc = None)
              then Some (<[mc_Id tc := mkTM (u8 (mc_Level tc)) (mc_KeyId tc) (mc_Compression tc)]> ts) else None
  | DELETE => Some (delete (mc_Id tc) ts)
  | OpOther _ => None
  end.

Definition tables_after (ts : gmap Z TableManifest) (l : list ManifestChange) : option (gmap Z TableManifest) :=
  foldl (fun ts tc => ts ← ts; tables_step ts tc) (Some ts) l.

Definition is_create (tc : ManifestChange) : bool := match mc_Op tc with CREATE => true | _ => false end.
Definition is_delete (tc : ManifestChange) : bool := match mc_Op tc with DELETE => true | _ => false end.
Definition count_of (p : ManifestChange -> bool) (l : list ManifestChange) : Z :=
  Z.of_nat (length (filter (fun tc => p tc = true) l)).

(** Levels fit in the byte the manifest keeps; ids and keys in their words. *)
Definition change_ok (tc : ManifestChange) : Prop := 0 <= mc_Level tc < 256.

Definition m_level (m : Manifest) (l : nat) : gset Z := default ∅ (m_Levels m !! l).

Record manifest_wf (m : Manifest) : Prop := {
  mw_levels : forall id l, id ∈ m_level m l <-> exists tm, m_Tables m !! id = Some tm /\ tm_Level tm = Z.of_nat l;
  mw_byte : forall id tm, m_Tables m !! id = Some tm -> 0 <= tm_Level tm < 256
}.

(** Manifests with the same tables in the same levels: they may differ in empty levels at the
    end, and in the counters, which opening a file resets. *)
#[export] Instance manifest_equiv : Equiv Manifest := fun m m' =>
  m_Tables m = m_Tables m' /\ forall l, m_level m l = m_level m' l.

#[export] Instance manifest_equivalence : Equivalence (≡@{Manifest}).
Proof.
  split.
  - by intros m.
  - intros m m' [H1 H2]. by split.
  - intros m1 m2 m3 [H1 H2] [K1 K2]. split; [congruence|]. intros l. by rewrite H2.
Qed.

#[export] Instance manifest_wf_proper : Proper ((≡) ==> iff) manifest_wf.
Proof.
  assert (forall m m', m ≡ m' -> manifest_wf m -> manifest_wf m') as H.
  { intros m m' [H1 H4] [K1 K2]. split.
    - intros id l. by rewrite <- H4, K1, H1.
    - intros id tm. rewrite <- H1. apply K2. }
  intros m m' Hm. split; apply H; [done|by symmetry].
Qed.

(** A well-formed manifest is its map of tables. *)
Lemma wf_equiv m m' : manifest_wf m -> manifest_wf m' -> m_Tables m = m_Tables m' -> m ≡ m'.
Proof.
  intros [H1 _] [H2 _] Ht. split; [done|]. intros l. apply set_eq. intros id.
  by rewrite H1, H2, Ht.
Qed.

Lemma wf_create : manifest_wf createManifest.
Proof.
  split.
  - intros id l. unfold m_level. cbn. rewrite lookup_nil. cbn. split; [set_solver|].
    by intros (tm & H & _).
  - by intros id tm H.
Qed.

(** ** Lemmas: one change *)

Lemma grow_lookup l levels k : default ∅ (grow_levels l levels !! k) = default ∅ (levels !! k).
Proof.
  unfold grow_levels. destruct (levels !! k) as [s|] eqn:E.
  - by rewrite (lookup_app_l_Some _ _ _ _ E).
  - rewrite lookup_app_r by (by apply lookup_ge_None). destruct (replicate _ _ !! _) as [s|] eqn:E'; [|done].
    by apply lookup_replicate in E' as [-> _].
Qed.

Lemma grow_in l levels : (l < length (grow_levels l levels))%nat.
Proof. unfold grow_levels. rewrite length_app, length_replicate. lia. Qed.

Lemma create_level m id lvl kid comp k :
  m_level (mkManifest (alter (fun s => {[id]} ∪ s) lvl (grow_levels lvl (m_Levels m)))
             (<[id := mkTM (Z.of_nat lvl) kid comp]> (m_Tables m)) (Creations m + 1) (Deletions m)) k
  = if decide (k = lvl) then {[id]} ∪ m_level m lvl else m_level m k.
Proof.
  unfold m_level. cbn [m_Levels]. case_decide as Hk.
  - subst. rewrite list_lookup_alter_eq. destruct (lookup_lt_is_Some_2 _ _ (grow_in lvl (m_Levels m))) as [s Hs].
    rewrite Hs. cbn. by rewrite <- (grow_lookup lvl), Hs.
  - rewrite list_lookup_alter_ne by done. apply grow_lookup.
Qed.

Lemma apply_change_spec m tc ts' :
  manifest_wf m -> change_ok tc -> tables_step (m_Tables m) tc = Some ts' ->
  exists m', applyManifestChange m tc = Ok m' /\ manifest_wf m' /\ m_Tables m' = ts' /\
    Creations m' = Creations m + Z.b2z (is_create tc) /\ Deletions m' = Deletions m + Z.b2z (is_delete tc).
Proof.
  intros W Hok. unfold tables_step, applyManifestChange, change_ok, is_create, is_delete in *.
  destruct tc as [id [| |n] lvl kid comp]; cbn [mc_Op mc_Id mc_Level mc_KeyId mc_Compression] in *; [| |done].
  - case_decide as Hn; [|done]. intros [= <-]. rewrite Hn, (wrap_small 8) by lia.
    eexists. split; [done|]. split; [|split_and!; cbn; [done|lia..]].
    rewrite <- (Z2Nat.id lvl) at 3 by lia. split.
    + intros i l. rewrite create_level. cbn [m_Tables]. destruct (decide (i = id)) as [->|Hi].
      * rewrite lookup_insert_eq. case_decide as Hl.
        -- subst. split; [|set_solver]. intros _. eexists. split; [done|]. done.
        -- rewrite (mw_levels m W). split; [intros (tm & E & _); congruence|].
           intros (tm & [= <-] & E). cbn in E. lia.
      * rewrite lookup_insert_ne by done. rewrite <- (mw_levels m W). case_decide; subst; set_solver.
    + intros i tm. cbn [m_Tables]. destruct (decide (i = id)) as [->|Hi].
      * rewrite lookup_insert_eq. intros [= <-]. cbn. lia.
      * rewrite lookup_insert_ne by done. apply (mw_byte m W).
  - intros [= <-]. destruct (m_Tables m !! id) as [tm|] eqn:E.
    + pose proof (mw_byte m W id tm E) as Hb.
      assert (id ∈ m_level m (Z.to_nat (tm_Level tm))) as Hin
        by (apply (mw_levels m W); exists tm; split; [done|lia]).
      unfold m_level in Hin. destruct (m_Levels m !! Z.to_nat (tm_Level tm)) as [s|] eqn:Es; [|set_solver].
      eexists. split; [done|]. split; [|split_and!; cbn; [done|lia..]]. split.
      * intros i l. unfold m_level. cbn [m_Levels m_Tables].
        rewrite list_lookup_insert. assert (Z.to_nat (tm_Level tm) < length (m_Levels m))%nat by (by eapply lookup_lt_Some).
        assert (default ∅ (m_Levels m !! l) = m_level m l) as Hl by done.
        destruct (decide (i = id)) as [->|Hi].
        -- rewrite lookup_delete_eq. case_decide as Hd; cbn; [split; [set_solver|by intros (? & ? & _)]|].
           split; [|by intros (? & ? & _)]. rewrite Hl, (mw_levels m W). intros (tm' & E' & El).
           rewrite E in E'. injection E' as <-. lia.
        -- rewrite lookup_delete_ne by done. rewrite <- (mw_levels m W), <- Hl.
           case_decide as Hd; [|done]. destruct Hd as [<- _]. rewrite Es. cbn. set_solver.
      * intros i tm'. cbn [m_Tables]. intros H. apply lookup_delete_Some in H as [_ H]. by apply (mw_byte m W i).
    + eexists. split; [done|]. split; [|split_and!; cbn; [by rewrite delete_id|lia..]].
      split; [|apply W]. intros i l. cbn [m_Tables]. rewrite <- (mw_levels m W).
      unfold m_level. cbn [m_Levels]. rewrite list_lookup_fmap.
      assert (id ∉ m_level m l) as Hid by (rewrite (mw_levels m W); intros (tm & E' & _); congruence).
      unfold m_level in Hid. destruct (m_Levels m !! l) as [s|]; cbn in *; set_solver.
Qed.

(** ** Lemmas: change sets *)

Lemma tables_after_cons ts tc l :
  tables_after ts (tc :: l) = (ts' ← tables_step ts tc; tables_after ts' l).
Proof.
  unfold tables_after. cbn [foldl mbind option_bind]. destruct (tables_step ts tc); [done|].
  by induction l as [|x l IH].
Qed.

Lemma count_cons p tc l : count_of p (tc :: l) = Z.b2z (p tc) + count_of p l.
Proof. unfold count_of. rewrite filter_cons. case_decide as H; [rewrite H|destruct (p tc); [done|]]; cbn [length Z.b2z]; lia. Qed.

Lemma apply_set_spec l : forall m ts',
  manifest_wf m -> Forall change_ok l -> tables_after (m_Tables m) l = Some ts' ->
  exists m', applyChangeSet m l = (m', Ok tt) /\ manifest_wf m' /\ m_Tables m' = ts' /\
    Creations m' = Creations m + count_of is_create l /\ Deletions m' = Deletions m + count_of is_delete l.
Proof.
  induction l as [|tc l IH]; intros m ts' W Hok Hts.
  - injection Hts as <-. exists m. change (count_of _ []) with 0 at 1.
    change (count_of _ []) with 0. rewrite !Z.add_0_r. by split_and!.
  - apply Forall_cons in Hok as [Htc Hok]. rewrite tables_after_cons in Hts.
    destruct (tables_step (m_Tables m) tc) as [ts|] eqn:E; [|done]. cbn [mbind option_bind] in Hts.
    destruct (apply_change_spec m tc ts W Htc E) as (m1 & E1 & W1 & Ht1 & Hc1 & Hd1).
    cbn [applyChangeSet]. rewrite E1. rewrite <- Ht1 in Hts.
    destruct (IH m1 ts' W1 Hok Hts) as (m' & E' & W' & Ht' & Hc' & Hd').
    exists m'. rewrite !count_cons. split_and!; try done; lia.
Qed.

(** Equivalent manifests take a change set to equivalent manifests. *)
Lemma apply_set_equiv m1 m2 l ts' :
  m1 ≡ m2 -> manifest_wf m1 -> Forall change_ok l -> tables_after (m_Tables m1) l = Some ts' ->
  exists m1' m2', applyChangeSet m1 l = (m1', Ok tt) /\ applyChangeSet m2 l = (m2', Ok tt) /\
    m1' ≡ m2' /\ manifest_wf m1' /\ m_Tables m1' = ts'.
Proof.
  intros Hm W1 Hok Hts. assert (manifest_wf m2) as W2 by (by rewrite <- Hm).
  destruct Hm as [Et _].
  destruct (apply_set_spec l m1 ts' W1 Hok Hts) as (m1' & E1 & W1' & Ht1 & _).
  destruct (apply_set_spec l m2 ts' W2 Hok ltac:(by rewrite <- Et)) as (m2' & E2 & W2' & Ht2 & _).
  exists m1', m2'. split_and!; try done. apply wf_equiv; congruence.
Qed.

(** *** [asChanges]: any order of the map gives the map back *)

Definition tm_small (tm : TableManifest) : Prop := 0 <= tm_Level tm < 256.

Lemma asChanges_ok order : Forall (fun p => tm_small p.2) order -> Forall change_ok (asChanges order).
Proof.
  intros H. apply Forall_fmap. eapply Forall_impl; [exact H|]. intros [id tm] Hs.
  unfold change_ok, tm_small in *. cbn in *. rewrite wrap_small; lia.
Qed.

Lemma asChanges_after order : forall ts,
  Forall (fun p => tm_small p.2) order -> NoDup order.*1 -> (forall id, id ∈ order.*1 -> ts !! id = None) ->
  tables_after ts (asChanges order) = Some (list_to_map order ∪ ts).
Proof.
  induction order as [|[id tm] order IH]; intros ts Hs Hd Hn.
  - cbn. unfold tables_after. cbn. by rewrite (left_id_L ∅ (∪)).
  - apply Forall_cons in Hs as [Htm Hs]. rewrite fmap_cons in Hd, Hn. apply NoDup_cons in Hd as [Hid Hd].
    cbn [asChanges fmap list_fmap]. rewrite tables_after_cons. unfold tables_step.
    cbn [newCreateChange mc_Op mc_Id mc_Level mc_KeyId mc_Compression].
    rewrite decide_True by (apply Hn; by left). cbn [mbind option_bind].
    unfold tm_small in Htm. cbn in Htm. rewrite (wrap_small 32), (wrap_small 8) by lia.
    replace (mkTM (tm_Level tm) (tm_KeyID tm) (tm_Compression tm)) with tm by (by destruct tm).
    fold (asChanges order). rewrite IH; [|done|done|].
    + f_equal. cbn. rewrite <- insert_union_r; [by rewrite insert_union_l|].
      apply not_elem_of_list_to_map_1. done.
    + intros i Hi. rewrite lookup_insert_ne by (intros ->; done). apply Hn. by right.
Qed.

Lemma asChanges_counts order :
  count_of is_create (asChanges order) = Z.of_nat (length order) /\ count_of is_delete (asChanges order) = 0.
Proof.
  induction order as [|[id tm] order [IH1 IH2]]; [done|]. cbn [asChanges fmap list_fmap].
  fold (asChanges order). rewrite !count_cons, IH1, IH2. cbn. lia.
Qed.

(** A range over the manifest's map. *)
Definition order_of (order : list (Z * TableManifest)) (m : Manifest) : Prop :=
  order ≡ₚ map_to_list (m_Tables m).

Lemma asChanges_rebuild order m : manifest_wf m -> order_of order m ->
  exists m', applyChangeSet createManifest (asChanges order) = (m', Ok tt) /\ manifest_wf m' /\
    m_Tables m' = m_Tables m /\ Creations m' = Z.of_nat (size (m_Tables m)) /\ Deletions m' = 0.
Proof.
  intros W Ho. unfold order_of in Ho.
  assert (Forall (fun p : Z * TableManifest => tm_small p.2) order) as Hs.
  { rewrite Ho. apply Forall_forall. intros [id tm] Hin. apply elem_of_map_to_list in Hin.
    by apply (mw_byte m W id). }
  assert (NoDup order.*1) as Hd by (rewrite Ho; apply NoDup_fst_map_to_list).
  destruct (apply_set_spec (asChanges order) createManifest (m_Tables m)) as (m' & E & W' & Ht & Hc & Hdl).
  - apply wf_create.
  - by apply asChanges_ok.
  - rewrite asChanges_after by done. f_equal. cbn. rewrite (right_id_L ∅ (∪)).
    rewrite (list_to_map_proper _ (map_to_list (m_Tables m))) by done. apply list_to_map_to_list.
  - destruct (asChanges_counts order) as [E1 E2]. rewrite E1 in Hc. rewrite E2 in Hdl.
    exists m'. split_and!; try done. rewrite Hc, Ho, length_map_to_list. cbn. lia.
Qed.

(** *** The file *)

Section Replay.
Context `{C : ChangeSetCodec} `{!ChangeSetCodecLaws C}.

Lemma record_len buf : len (change_record buf) = 8 + len buf.
Proof. unfold change_record, U32ToBytes, len. rewrite !length_app, !be_encode_length. lia. Qed.

Lemma BytesToU32_app v rest : 0 <= v < 2 ^ 32 -> BytesToU32 (U32ToBytes v ++ rest) = Some v.
Proof.
  intros Hv. unfold BytesToU32, U32ToBytes.
  pose proof (slice_app_mid [] (be_encode 4 v) rest) as H. unfold len in H. rewrite be_encode_length in H.
  cbn [app length] in H. change (Z.of_nat 0) with 0 in H. change (0 + Z.of_nat 4) with 4 in H.
  rewrite H. cbn. by rewrite be_roundtrip4, wrap_small.
Qed.

Lemma drop4 v rest : drop 4 (U32ToBytes v ++ rest) = rest.
Proof. apply drop_app_length'. unfold U32ToBytes. by rewrite be_encode_length. Qed.

Lemma drop8 v w rest : drop 8 (U32ToBytes v ++ U32ToBytes w ++ rest) = rest.
Proof. change 8%nat with (4 + 4)%nat. by rewrite <- drop_drop, drop4, drop4. Qed.

(** One whole record at the front. *)
Lemma replay_record fuel sz off b l rest :
  len (cs_Marshal l) < 2 ^ 32 -> len (cs_Marshal l) <= u32 sz ->
  replay_loop (S fuel) sz (change_record (cs_Marshal l) ++ rest) off b
  = match applyChangeSet b l with
    | (b, Ok _) => replay_loop fuel sz rest (off + len (change_record (cs_Marshal l))) b
    | (_, Err e) => Err e
    | (_, Panic) => Panic
    end.
Proof.
  intros Hl Hsz. cbn [replay_loop]. set (buf := cs_Marshal l) in *. pose proof (record_len buf) as Hr.
  assert (0 <= len buf) as H0 by (unfold len; lia).
  rewrite bool_decide_eq_false_2 by (rewrite len_app, Hr; unfold len in *; lia).
  unfold change_record. rewrite <- !app_assoc, (wrap_small 32 (len buf)) by lia.
  rewrite BytesToU32_app by lia. cbn [unpanic mbind result_bind].
  rewrite drop4, BytesToU32_app by apply crc32c_range.
  cbn [unpanic mbind result_bind]. rewrite bool_decide_eq_false_2 by lia.
  rewrite drop8.
  rewrite bool_decide_eq_false_2 by (rewrite len_app; unfold len; lia).
  assert (Z.to_nat (len buf) = length buf) as -> by (unfold len; lia).
  rewrite take_app_length, drop_app_length, bool_decide_eq_false_2 by auto.
  subst buf. rewrite cs_roundtrip. destruct (applyChangeSet b l) as [b' [ | | ]]; try done.
  f_equal. rewrite !len_app. unfold U32ToBytes, len. rewrite !be_encode_length. lia.
Qed.

(** A record cut short: the replay stops before it, unless its length is more than the file's. *)
Lemma replay_torn fuel sz off b l n :
  len (cs_Marshal l) < 2 ^ 32 -> (n < length (change_record (cs_Marshal l)))%nat ->
  replay_loop (S fuel) sz (take n (change_record (cs_Marshal l))) off b
  = if bool_decide (8 <= n)%nat && bool_decide (u32 sz < len (cs_Marshal l)) then Err ErrBufferLength
    else Ok (b, off).
Proof.
  intros Hl Hn. cbn [replay_loop]. set (buf := cs_Marshal l) in *. pose proof (record_len buf) as Hr.
  assert (len (take n (change_record buf)) = Z.of_nat n) as El
    by (unfold len; rewrite length_take; lia).
  rewrite El. destruct (decide (8 <= n)%nat) as [H8|H8].
  2: { by rewrite bool_decide_eq_true_2, (bool_decide_eq_false_2 _ H8) by lia. }
  rewrite bool_decide_eq_false_2, (bool_decide_eq_true_2 _ H8) by lia. cbn [andb].
  assert (take n (change_record buf)
    = U32ToBytes (u32 (len buf)) ++ U32ToBytes (crc32c buf) ++ take (n - 8) buf) as ->.
  { unfold change_record. rewrite take_app_ge by (unfold U32ToBytes; rewrite be_encode_length; lia).
    f_equal. rewrite take_app_ge by (unfold U32ToBytes; rewrite !be_encode_length; lia).
    f_equal. f_equal. unfold U32ToBytes. rewrite !be_encode_length. lia. }
  assert (0 <= len buf) as H0 by (unfold len; lia).
  rewrite (wrap_small 32 (len buf)) by lia. rewrite BytesToU32_app by lia. cbn [unpanic mbind result_bind].
  rewrite drop4, BytesToU32_app by apply crc32c_range.
  cbn [unpanic mbind result_bind]. case_bool_decide; [done|].
  rewrite drop8.
  rewrite bool_decide_eq_true_2; [done|]. unfold len in *. rewrite length_take. lia.
Qed.

Definition records (ls : list (list ManifestChange)) : bytes := concat ((fun l => change_record (cs_Marshal l)) <$> ls).

(** All the change sets of a file, applied in turn. *)
Fixpoint apply_sets (b : Manifest) (ls : list (list ManifestChange)) : option Manifest :=
  match ls with
  | [] => Some b
  | l :: ls => match applyChangeSet b l with (b, Ok _) => apply_sets b ls | _ => None end
  end.

Lemma apply_sets_app b l1 l2 : apply_sets b (l1 ++ l2) = (b' ← apply_sets b l1; apply_sets b' l2).
Proof.
  revert b. induction l1 as [|l l1 IH]; intros b; [done|]. cbn [app apply_sets].
  by destruct (applyChangeSet b l) as [b' []].
Qed.

Lemma records_app l1 l2 : records (l1 ++ l2) = records l1 ++ records l2.
Proof. unfold records. by rewrite fmap_app, concat_app. Qed.

Lemma records_cons l ls : records (l :: ls) = change_record (cs_Marshal l) ++ records ls.
Proof. done. Qed.

Lemma records_length ls : (length ls <= length (records ls))%nat.
Proof.
  induction ls as [|l ls IH]; [done|]. rewrite records_cons, length_app. cbn [length].
  pose proof (record_len (cs_Marshal l)). unfold len in *. lia.
Qed.

Lemma record_in_file l ls sz : l ∈ ls -> len (records ls) <= sz -> len (cs_Marshal l) <= sz.
Proof.
  intros Hl. induction Hl as [l ls|l l' ls Hl IH]; rewrite records_cons, len_app; intros H.
  - pose proof (record_len (cs_Marshal l)). unfold len in *. lia.
  - apply IH. unfold len in *. lia.
Qed.

Lemma replay_records ls : forall fuel sz rest off b b',
  (forall l, l ∈ ls -> len (cs_Marshal l) < 2 ^ 32 /\ len (cs_Marshal l) <= u32 sz) ->
  apply_sets b ls = Some b' ->
  replay_loop (length ls + fuel) sz (records ls ++ rest) off b
  = replay_loop fuel sz rest (off + len (records ls)) b'.
Proof.
  induction ls as [|l ls IH]; intros fuel sz rest off b b' Hsz Hap.
  - injection Hap as <-. cbn. unfold len. cbn. by rewrite Z.add_0_r.
  - rewrite records_cons, <- app_assoc. cbn [length Nat.add].
    destruct (Hsz l ltac:(by left)) as [H1 H2]. rewrite replay_record by done. cbn [apply_sets] in Hap.
    destruct (applyChangeSet b l) as [b1 [[]| | ]]; try done.
    rewrite (IH fuel sz rest _ b1 b'); [|intros l' Hl'; apply Hsz; by right|done].
    f_equal. rewrite len_app. lia.
Qed.

Lemma header_len ext : len (magic_header ext) = 8.
Proof. unfold magic_header, U16ToBytes, len. rewrite !length_app, !be_encode_length. done. Qed.

Lemma BytesToU16_be v rest : BytesToU16 (U16ToBytes v ++ rest) = Some (u16 v).
Proof.
  unfold BytesToU16, U16ToBytes.
  pose proof (slice_app_mid [] (be_encode 2 v) rest) as H. unfold len in H. rewrite be_encode_length in H.
  cbn [app length] in H. change (Z.of_nat 0) with 0 in H. change (0 + Z.of_nat 2) with 2 in H.
  rewrite H. cbn. by rewrite be_roundtrip2.
Qed.

Lemma replay_header ext rest : 0 <= ext < 2 ^ 16 ->
  ReplayManifestFile (magic_header ext ++ rest) ext
  = replay_loop (S (8 + length rest)) (8 + len rest) rest 8 createManifest.
Proof.
  intros He. pose proof (header_len ext) as Hl. unfold ReplayManifestFile.
  rewrite bool_decide_eq_false_2 by (rewrite len_app, Hl; unfold len; lia).
  rewrite bool_decide_eq_false_2 by (intros H; apply H; done).
  assert (drop 4 (magic_header ext ++ rest) = U16ToBytes ext ++ U16ToBytes badgerMagicVersion ++ rest) as ->.
  { unfold magic_header. by rewrite <- !app_assoc. }
  assert (drop 6 (magic_header ext ++ rest) = U16ToBytes badgerMagicVersion ++ rest) as ->.
  { unfold magic_header. rewrite app_assoc, <- !app_assoc, (app_assoc magicText).
    apply drop_app_length'. rewrite length_app. unfold U16ToBytes. by rewrite be_encode_length. }
  rewrite !BytesToU16_be. cbn [unpanic mbind result_bind]. rewrite !(wrap_small 16) by (done || lia).
  rewrite !bool_decide_eq_false_2 by auto.
  assert (drop 8 (magic_header ext ++ rest) = rest) as ->.
  { apply drop_app_length'. unfold len in Hl. lia. }
  rewrite length_app, len_app, Hl. done.
Qed.

(** A file of complete records, and possibly one cut short. *)
Lemma replay_file ext ls m : 0 <= ext < 2 ^ 16 -> 8 + len (records ls) < 2 ^ 32 ->
  apply_sets createManifest ls = Some m ->
  ReplayManifestFile (magic_header ext ++ records ls) ext = Ok (m, 8 + len (records ls)).
Proof.
  intros He Hsz Hap. rewrite replay_header by done. pose proof (records_length ls) as Hn.
  rewrite <- (app_nil_r (records ls)) at 3.
  replace (S (8 + length (records ls))) with (length ls + S (8 + length (records ls) - length ls))%nat by lia.
  rewrite (replay_records ls _ _ [] _ _ m); [|intros l Hl|done].
  - cbn [replay_loop]. by rewrite bool_decide_eq_true_2.
  - pose proof (record_in_file l ls _ Hl (Z.le_refl _)).
    rewrite wrap_small by (unfold len in *; lia). unfold len in *. lia.
Qed.

Lemma replay_file_torn ext ls m l n : 0 <= ext < 2 ^ 16 ->
  8 + len (records ls) + len (change_record (cs_Marshal l)) < 2 ^ 32 ->
  apply_sets createManifest ls = Some m -> (n < length (change_record (cs_Marshal l)))%nat ->
  ReplayManifestFile (magic_header ext ++ records ls ++ take n (change_record (cs_Marshal l))) ext
  = if bool_decide (8 <= n)%nat && bool_decide (8 + len (records ls) + Z.of_nat n < len (cs_Marshal l))
    then Err ErrBufferLength else Ok (m, 8 + len (records ls)).
Proof.
  intros He Hsz Hap Hn. rewrite replay_header by done. pose proof (records_length ls) as Hn'.
  set (t := take n _). assert (length t = n) as Ht by (unfold t; rewrite length_take; lia).
  rewrite length_app, len_app. set (sz := 8 + _).
  assert (sz = 8 + len (records ls) + Z.of_nat n) as Esz by (unfold sz, len; rewrite Ht; lia).
  pose proof (record_len (cs_Marshal l)) as Hr.
  assert (0 <= sz < 2 ^ 32) as Hsz' by (unfold len in *; lia).
  replace (S (8 + (length (records ls) + length t)))
    with (length ls + S (8 + length (records ls) + n - length ls))%nat by lia.
  rewrite (replay_records ls _ _ t _ _ m); [|intros l' Hl'|done].
  - unfold t. rewrite replay_torn by first [done|unfold len in *; lia]. by rewrite (wrap_small 32 sz), Esz.
  - pose proof (record_in_file l' ls _ Hl' (Z.le_refl _)). rewrite (wrap_small 32 sz) by lia.
    unfold len in *. lia.
Qed.
End Replay.

(** ** The manifest file as a system *)

Section System.
Context `{C : ChangeSetCodec} `{!ChangeSetCodecLaws C}.
(** Any order of ranging over a map. *)
Context (order : Manifest -> list (Z * TableManifest)) (Horder : forall m, order_of (order m) m).

(** What an open manifest file and its disk contents satisfy, [ts] being its tables. *)
Record mf_ok (mf : manifestFile) (ts : gmap Z TableManifest) : Prop := {
  mo_mem : mf_inMemory mf = false;
  mo_ext : 0 <= externalMagic mf < 2 ^ 16;
  mo_wf : manifest_wf (mf_manifest mf);
  mo_tables : m_Tables (mf_manifest mf) = ts;
  mo_file : exists ls m, mf_data mf = magic_header (externalMagic mf) ++ records ls /\
    apply_sets createManifest ls = Some m /\ m ≡ mf_manifest mf
}.

(** Opening a file that is not there, adding changes, and opening again what a crash during an
    append left: all of the file and [n] bytes of the record. *)
Inductive mf_reach (ext thr : Z) : manifestFile -> gmap Z TableManifest -> Prop :=
  | MFNew mf m :
      helpOpenOrCreateManifestFile None false ext thr order = Ok (mf, m) -> mf_reach ext thr mf ∅
  | MFAdd mf ts changes ts' mf' :
      mf_reach ext thr mf ts -> Forall change_ok changes -> tables_after ts changes = Some ts' ->
      addChanges mf changes order = (mf', Ok tt) -> mf_reach ext thr mf' ts'
  | MFCrash mf ts changes n mf' m :
      mf_reach ext thr mf ts ->
      (n < length (change_record (cs_Marshal changes)))%nat ->
      len (mf_data mf) + len (change_record (cs_Marshal changes)) < 2 ^ 32 ->
      helpOpenOrCreateManifestFile (Some (mf_data mf ++ take n (change_record (cs_Marshal changes))))
        false ext thr order = Ok (mf', m) ->
      mf_reach ext thr mf' ts.

Lemma new_file_ok ext thr : 0 <= ext < 2 ^ 16 ->
  exists mf, helpOpenOrCreateManifestFile None false ext thr order = Ok (mf, createManifest) /\ mf_ok mf ∅ /\
    externalMagic mf = ext.
Proof.
  intros He. cbn.
  assert (order createManifest = []) as Eo.
  { pose proof (Horder createManifest) as H. unfold order_of in H. cbn in H.
    rewrite map_to_list_empty in H. by apply Permutation_nil_r in H. }
  rewrite Eo. eexists. split; [done|]. split; [|done]. split; cbn.
  - done.
  - done.
  - apply wf_create.
  - done.
  - exists [[]], createManifest. split_and!; try done. unfold records. cbn. by rewrite app_nil_r.
Qed.

(** The rewritten file. *)
Lemma rewrite_ok mf : mf_inMemory mf = false -> 0 <= externalMagic mf < 2 ^ 16 ->
  manifest_wf (mf_manifest mf) ->
  mf_ok (mf_rewrite mf (order (mf_manifest mf))) (m_Tables (mf_manifest mf)).
Proof.
  intros H1 H2 H3. destruct (asChanges_rebuild _ _ H3 (Horder (mf_manifest mf)))
    as (m & E & W & Ht & Hc & Hd).
  split; cbn; try done.
  - destruct H3 as [K1 K2]. by split.
  - exists [asChanges (order (mf_manifest mf))], m. cbn. rewrite E. split_and!; try done.
    + unfold records. cbn. by rewrite app_nil_r.
    + apply wf_equiv; cbn; [done|destruct H3 as [K1 K2]; by split|done].
Qed.

Lemma add_ok mf ts changes ts' : mf_ok mf ts -> Forall change_ok changes ->
  tables_after ts changes = Some ts' ->
  exists mf', addChanges mf changes order = (mf', Ok tt) /\ mf_ok mf' ts' /\
    externalMagic mf' = externalMagic mf /\
    (mf_data mf' = mf_data mf ++ change_record (cs_Marshal changes) \/
     exists m, mf_data mf' = (helpRewrite m (order m) (externalMagic mf)).1 /\ m_Tables m = ts').
Proof.
  intros [H1 H2 H3 <- (ls & m & Ed & Ea & Em)] Hok Hts. unfold addChanges. rewrite H1.
  symmetry in Em. destruct (apply_set_equiv _ m changes ts' Em H3 Hok Hts)
    as (m1 & m2 & E1 & E2 & Eq & W & Ht).
  rewrite E1. cbn [deletionsRewriteThreshold]. rewrite <- Ht.
  destruct (bool_decide _ && bool_decide _).
  - eexists. split; [done|]. split; [|split; [done|right; by exists m1]].
    exact (rewrite_ok (mkMF (mf_data mf) (externalMagic mf) m1 (deletionsRewriteThreshold mf) false) eq_refl H2 W).
  - eexists. split; [done|]. split; [|split; [done|by left]]. split; try done.
    exists (ls ++ [changes]), m2. cbn. split_and!; [|by rewrite apply_sets_app, Ea; cbn; rewrite E2|done].
    rewrite Ed, records_app, <- app_assoc. unfold records at 3. cbn. by rewrite app_nil_r.
Qed.

(** Opening the file again, whole or with an incomplete record at its end. *)
Lemma reopen_ok mf ts thr changes n : mf_ok mf ts ->
  len (mf_data mf) + len (change_record (cs_Marshal changes)) < 2 ^ 32 ->
  (n < length (change_record (cs_Marshal changes)))%nat ->
  let file := mf_data mf ++ take n (change_record (cs_Marshal changes)) in
  if bool_decide (8 <= n)%nat && bool_decide (len file < len (cs_Marshal changes))
  then helpOpenOrCreateManifestFile (Some file) false (externalMagic mf) thr order = Err ErrBufferLength
  else exists mf' m, helpOpenOrCreateManifestFile (Some file) false (externalMagic mf) thr order = Ok (mf', m) /\
    mf_ok mf' ts /\ externalMagic mf' = externalMagic mf /\ mf_data mf' = mf_data mf /\ m ≡ mf_manifest mf.
Proof.
  intros [H1 H2 H3 <- (ls & m & Ed & Ea & Em)] Hsz Hn file. pose proof (header_len (externalMagic mf)) as Hh.
  assert (len file = 8 + len (records ls) + Z.of_nat n) as El.
  { unfold file. rewrite Ed, !len_app, Hh. unfold len. rewrite length_take. lia. }
  assert (ReplayManifestFile file (externalMagic mf)
    = if bool_decide (8 <= n)%nat && bool_decide (8 + len (records ls) + Z.of_nat n < len (cs_Marshal changes))
      then Err ErrBufferLength else Ok (m, 8 + len (records ls))) as Er.
  { unfold file. rewrite Ed, <- app_assoc. apply replay_file_torn; try done.
    rewrite Ed, len_app, Hh in Hsz. lia. }
  cbn [helpOpenOrCreateManifestFile]. rewrite Er, El. destruct (bool_decide _ && bool_decide _); [done|].
  cbn [mbind result_bind].
  assert (manifest_wf m) as W by (by rewrite Em).
  destruct (asChanges_rebuild _ _ W (Horder m)) as (c & Ec & Wc & Htc & Hcc & Hdc).
  unfold manifest_clone. rewrite Ec. cbn [mbind result_bind]. eexists _, m. split; [done|].
  assert (take (Z.to_nat (8 + len (records ls))) file = mf_data mf) as Etk.
  { unfold file. apply take_app_length'. unfold len in *. rewrite Ed, length_app. lia. }
  assert (m_Tables c = m_Tables (mf_manifest mf)) as Htc' by (rewrite Htc; apply Em).
  split_and!; [|done|done|done]. split; cbn; try done.
  exists ls, m. rewrite Etk. split_and!; try done. by apply wf_equiv.
Qed.

Lemma reach_ok ext thr mf ts : 0 <= ext < 2 ^ 16 -> mf_reach ext thr mf ts ->
  mf_ok mf ts /\ externalMagic mf = ext.
Proof.
  intros He. induction 1 as [mf m Hn|mf ts changes ts' mf' _ [IH Ie] Hok Hts Ha|mf ts changes n mf' m _ [IH Ie] Hn Hsz Ho].
  - destruct (new_file_ok ext thr He) as (mf1 & E & H). rewrite E in Hn. by injection Hn as <- <-.
  - destruct (add_ok mf ts changes ts' IH Hok Hts) as (mf1 & E & H & Hext & _). rewrite E in Ha.
    injection Ha as <-. split; [done|congruence].
  - pose proof (reopen_ok mf ts thr changes n IH Hsz Hn) as H. cbv zeta in H. rewrite Ie in H.
    destruct (bool_decide _ && bool_decide _); [congruence|].
    destruct H as (mf1 & m1 & E & H & Hext & _). rewrite E in Ho. by injection Ho as <- <-.
Qed.

(** C15: the manifest file is a durable map of tables: after any history of change sets,
    rewrites and crashes the manifest in memory has exactly the tables the changes add up to,
    in their levels, and replaying the file gives the same manifest, up to its very end. *)
Theorem manifest_refines_map (ext thr : Z) (mf : manifestFile) (ts : gmap Z TableManifest) :
  0 <= ext < 2 ^ 16 -> mf_reach ext thr mf ts -> len (mf_data mf) < 2 ^ 32 ->
  m_Tables (mf_manifest mf) = ts /\ manifest_wf (mf_manifest mf) /\
  exists m, ReplayManifestFile (mf_data mf) ext = Ok (m, len (mf_data mf)) /\ m ≡ mf_manifest mf.
Proof.
  intros He Hr Hsz. destruct (reach_ok ext thr mf ts He Hr) as [[H1 H2 H3 H4 (ls & m & Ed & Ea & Em)] Ex].
  split; [done|]. split; [done|]. exists m. rewrite Ed, Ex, len_app, header_len in *.
  split; [by apply replay_file|done].
Qed.

(** C32: [addChanges] is atomic: a change set the map allows is accepted, and a crash while its
    record is appended leaves a file that opens with exactly the old tables — unless the
    record's length is written and exceeds the size of the file, when the database does not
    open. *)
Theorem addChanges_atomic (ext thr : Z) (mf : manifestFile) (ts ts' : gmap Z TableManifest)
    (changes : list ManifestChange) (n : nat) :
  0 <= ext < 2 ^ 16 -> mf_reach ext thr mf ts -> Forall change_ok changes ->
  tables_after ts changes = Some ts' ->
  len (mf_data mf) + len (change_record (cs_Marshal changes)) < 2 ^ 32 ->
  (n < length (change_record (cs_Marshal changes)))%nat ->
  (exists mf', addChanges mf changes order = (mf', Ok tt) /\ m_Tables (mf_manifest mf') = ts' /\
     (mf_data mf' = mf_data mf ++ change_record (cs_Marshal changes) \/
      exists m, mf_data mf' = (helpRewrite m (order m) ext).1 /\ m_Tables m = ts')) /\
  let file := mf_data mf ++ take n (change_record (cs_Marshal changes)) in
  if bool_decide (8 <= n)%nat && bool_decide (len file < len (cs_Marshal changes))
  then helpOpenOrCreateManifestFile (Some file) false ext thr order = Err ErrBufferLength
  else exists mf' m, helpOpenOrCreateManifestFile (Some file) false ext thr order = Ok (mf', m) /\
    m_Tables m = ts /\ m_Tables (mf_manifest mf') = ts /\ mf_data mf' = mf_data mf.
Proof.
  intros He Hr Hok Hts Hsz Hn. destruct (reach_ok ext thr mf ts He Hr) as [Hm Ex]. split.
  - destruct (add_ok mf ts changes ts' Hm Hok Hts) as (mf' & E & Hm' & _ & Hd). exists mf'.
    rewrite <- Ex. split_and!; [done|apply Hm'|done].
  - pose proof (reopen_ok mf ts thr changes n Hm Hsz Hn) as H. cbv zeta in *. rewrite Ex in H.
    destruct (bool_decide _ && bool_decide _); [done|].
    destruct H as (mf' & m & E & Hm' & _ & Hd & Heq). exists mf', m. split_and!; try done.
    + destruct Heq as [-> _]. apply Hm.
    + apply Hm'.
Qed.
End System.

(** ** Examples *)

#[export] Instance change_op_eq_dec : EqDecision change_op.
Proof. solve_decision. Defined.

#[export] Instance change_op_countable : Countable change_op.
Proof.
  apply (inj_countable' (fun o => match o with CREATE => inl true | DELETE => inl false | OpOther n => inr n end)
    (fun s => match s with inl true => CREATE | inl false => DELETE | inr n => OpOther n end)).
  abstract (by intros []).
Defined.

#[export] Instance change_eq_dec : EqDecision ManifestChange.
Proof. solve_decision. Defined.

#[export] Instance change_countable : Countable ManifestChange.
Proof.
  apply (inj_countable' (fun c => (mc_Id c, mc_Op c, mc_Level c, mc_KeyId c, mc_Compression c))
    (fun '(i, o, l, k, c) => mkChange i o l k c)).
  abstract (by intros []).
Defined.

(** A concrete codec: the bits of stdpp's encoding. *)
#[export] Instance plain_changes : ChangeSetCodec := {
  cs_Marshal l := pos_bits (encode l);
  cs_Unmarshal b := decode (bits_pos b)
}.

#[export] Instance plain_changes_laws : ChangeSetCodecLaws plain_changes.
Proof. split. intros l. cbn. by rewrite bits_pos_bits, decode_encode. Qed.

Definition ex_order (m : Manifest) : list (Z * TableManifest) := map_to_list (m_Tables m).

Lemma ex_order_ok m : order_of (ex_order m) m.
Proof. unfold order_of, ex_order. reflexivity. Qed.

Definition ex_mf0 : manifestFile :=
  match helpOpenOrCreateManifestFile None false 7 10000 ex_order with
  | Ok (mf, _) => mf | _ => mkMF [] 0 createManifest 0 false end.

Definition ex_changes1 : list ManifestChange := [newCreateChange 1 0 0 1; newCreateChange 2 6 0 1].
Definition ex_mf1 : manifestFile := (addChanges ex_mf0 ex_changes1 ex_order).1.
Definition ex_changes2 : list ManifestChange := [newCreateChange 3 6 0 1; newDeleteChange 1; newDeleteChange 2].

Definition ex_ts1 : gmap Z TableManifest := <[2 := mkTM 6 0 1]> (<[1 := mkTM 0 0 1]> ∅).

Lemma ex_mf1_reach : mf_reach ex_order 7 10000 ex_mf1 ex_ts1.
Proof.
  eapply (MFAdd ex_order 7 10000 ex_mf0 ∅ ex_changes1 ex_ts1 ex_mf1).
  - eapply MFNew. by vm_compute.
  - repeat constructor; by vm_compute.
  - by vm_compute.
  - by vm_compute.
Qed.

Lemma manifest_refines_map_witness :
  m_Tables (mf_manifest ex_mf1) = ex_ts1 /\
  exists m, ReplayManifestFile (mf_data ex_mf1) 7 = Ok (m, len (mf_data ex_mf1)) /\ m ≡ mf_manifest ex_mf1.
Proof.
  destruct (manifest_refines_map ex_order ex_order_ok 7 10000 ex_mf1 ex_ts1) as (H1 & _ & H2).
  - done.
  - apply ex_mf1_reach.
  - by vm_compute.
  - exact (conj H1 H2).
Defined.

Lemma addChanges_atomic_witness :
  exists mf' m, helpOpenOrCreateManifestFile
      (Some (mf_data ex_mf1 ++ take 5 (change_record (cs_Marshal ex_changes2)))) false 7 10000 ex_order
    = Ok (mf', m) /\ m_Tables m = ex_ts1.
Proof.
  destruct (addChanges_atomic ex_order ex_order_ok 7 10000 ex_mf1 ex_ts1 (<[3 := mkTM 6 0 1]> ∅) ex_changes2 5)
    as [_ H].
  - done.
  - apply ex_mf1_reach.
  - repeat constructor; by vm_compute.
  - by vm_compute.
  - by vm_compute.
  - apply (bool_decide_unpack _). by vm_compute.
  - destruct H as (mf' & m & E & Ht & _). exists mf', m. exact (conj E Ht).
Defined.

(** The exception of [addChanges_atomic] happens: a new manifest, the record of two new tables
    cut after its length and checksum. *)
Theorem manifest_torn_rejected :
  exists changes ts n, mf_reach ex_order 7 10000 ex_mf0 ∅ /\ Forall change_ok changes /\
    tables_after ∅ changes = Some ts /\ (n < length (change_record (cs_Marshal changes)))%nat /\
    helpOpenOrCreateManifestFile (Some (mf_data ex_mf0 ++ take n (change_record (cs_Marshal changes))))
      false 7 10000 ex_order = Err ErrBufferLength.
Proof.
  exists ex_changes1, ex_ts1, 8%nat. split_and!.
  - eapply MFNew. by vm_compute.
  - repeat constructor; by vm_compute.
  - by vm_compute.
  - apply (bool_decide_unpack _). by vm_compute.
  - by vm_compute.
Qed.
