(* ===== verification/Tables.v ===== *)
(** * Tables: a table as its users see it, and what a lookup by version means

    [Table] is the view of [table.Table] the levels work with: identity, sizes, bloom filter
    and the sorted run of entries its iterators yield (Block.v shows that for one block).
    [newest] is the specification every [get] of the store is proved against: the newest
    version of a user key at or below a timestamp. *)

From S2P Require Import Prelude Keys Codec Bloom.

(** ** Sorted runs of versioned entries *)

Notation kv := (list byte * ValueStruct)%type.

Definition with_version (vs : ValueStruct) (v : Z) : ValueStruct :=
  mkVS (Meta vs) (UserMeta vs) (ExpiresAt vs) (Value vs) v.

(** What decoding gives a reader: the value is never nil. *)
Definition kv_wf (e : kv) : Prop := has_ts e.1 /\ is_Some (Value e.2).

Definition run_ok (es : list kv) : Prop :=
  Forall kv_wf es /\ StronglySorted (fun x y => compareKeys x.1 y.1 = Lt) es.

(** An iterator's [Seek]: the first entry not below [key]. *)
Fixpoint run_seek (es : list kv) (key : bytes) : option kv :=
  match es with
  | [] => None
  | e :: es' => if bool_decide (compareKeys e.1 key = Lt) then run_seek es' key else Some e
  end.

(** ** The specification of a lookup *)

(** [r] is the newest of the entries for user key [k] with a version in [1..ts], or the zero
    value when there is none. *)
Definition newest (es : list kv) (k : bytes) (ts : Z) (r : ValueStruct) : Prop :=
  (forall v vs, (KeyWithTs k v, vs) ∈ es -> 0 < v <= ts -> v <= Version r) /\
  (r = vs_zero \/
   (0 < Version r <= ts /\ is_Some (Value r) /\
    exists vs, (KeyWithTs k (Version r), vs) ∈ es /\ r = with_version vs (Version r))).

Lemma newest_nil k ts : newest [] k ts vs_zero.
Proof. split; [|by left]. intros v vs []%elem_of_nil. Qed.

(** Keeping the larger version merges two lookups. *)
Lemma newest_app es1 es2 k ts r1 r2 :
  newest es1 k ts r1 -> newest es2 k ts r2 ->
  newest (es1 ++ es2) k ts (if bool_decide (Version r1 < Version r2) then r2 else r1).
Proof.
  intros [A1 B1] [A2 B2]. split.
  - intros v vs [Hin|Hin]%elem_of_app Hv; [specialize (A1 v vs Hin Hv)|specialize (A2 v vs Hin Hv)];
      case_bool_decide; lia.
  - setoid_rewrite elem_of_app. case_bool_decide.
    + destruct B2 as [->|(? & ? & vs & ? & ?)]; [by left|right]. eauto 10.
    + destruct B1 as [->|(? & ? & vs & ? & ?)]; [by left|right]. eauto 10.
Qed.

(** A lookup that found exactly the version asked for cannot be improved. *)
Lemma newest_exact es es' k ts r :
  newest es k ts r -> Version r = ts -> newest (es ++ es') k ts r.
Proof.
  intros [A B] E. split.
  - intros v vs _ Hv. lia.
  - destruct B as [->|(? & ? & vs & ? & ?)]; [by left|right].
    split; [done|split; [done|]]. exists vs. split; [apply elem_of_app; auto|done].
Qed.

Lemma newest_Permutation es es' k ts r : es ≡ₚ es' -> newest es k ts r -> newest es' k ts r.
Proof.
  intros Hp [A B]. split.
  - intros v vs Hin. apply (A v vs). by rewrite Hp.
  - destruct B as [->|(? & ? & vs & Hin & ?)]; [by left|right].
    split; [done|split; [done|]]. exists vs. by rewrite <- Hp.
Qed.

Lemma newest_ext es es' k ts r :
  (forall x, x ∈ es <-> x ∈ es') -> newest es k ts r -> newest es' k ts r.
Proof. intros H [A B]. split; setoid_rewrite <- H; done. Qed.

(** A result that is not "nothing" — the test [Value == nil && Meta == 0] of every caller. *)
Definition vs_missing (vs : ValueStruct) : bool :=
  bool_decide (Value vs = None /\ Meta vs = x00).

Lemma newest_missing es k ts r : newest es k ts r -> vs_missing r = true <-> r = vs_zero.
Proof.
  intros [_ [->|(_ & [x Hx] & _)]]; [done|]. unfold vs_missing.
  rewrite bool_decide_eq_true. split; [|by intros ->]. rewrite Hx. by intros [? _].
Qed.

(** ** Seeking in a sorted run *)

Lemma run_ok_cons e es :
  run_ok (e :: es) <-> kv_wf e /\ run_ok es /\ Forall (fun x => compareKeys e.1 x.1 = Lt) es.
Proof.
  unfold run_ok. rewrite Forall_cons, StronglySorted_cons. tauto.
Qed.

Lemma run_seek_spec es key :
  run_ok es ->
  match run_seek es key with
  | Some e => e ∈ es /\ compareKeys e.1 key <> Lt /\
              (forall x, x ∈ es -> compareKeys x.1 e.1 = Lt -> compareKeys x.1 key = Lt)
  | None => forall x, x ∈ es -> compareKeys x.1 key = Lt
  end.
Proof.
  induction es as [|e es IH]; intros Hok; simpl; [by intros x []%elem_of_nil|].
  apply run_ok_cons in Hok as (Hwf & Hok & Hall). rewrite Forall_forall in Hall.
  specialize (IH Hok). case_bool_decide as Hlt.
  - destruct (run_seek es key) as [e'|].
    + destruct IH as (Hin & Hge & Hfirst). split_and!; [by right|done|].
      intros x [->|Hx]%elem_of_cons Hxe; [done|by apply Hfirst].
    + intros x [->|Hx]%elem_of_cons; [done|by apply IH].
  - split_and!; [by left|done|]. intros x [->|Hx]%elem_of_cons Hxe.
    + by rewrite (cmp_refl compareKeys) in Hxe.
    + specialize (Hall x Hx). simpl in Hall.
      pose proof (cmp_trans compareKeys _ _ _ Hall Hxe) as Hc.
      by rewrite (cmp_refl compareKeys) in Hc.
Qed.

(** The seek-and-compare that every lookup does in one run, starting from the best so far. *)
Definition lookup_run (seek : option kv) (key : bytes) (maxVs : ValueStruct) : ValueStruct :=
  match seek with
  | None => maxVs
  | Some (k, vs) =>
      if SameKey key k then
        let version := ParseTs k in
        if bool_decide (Version maxVs < version) then with_version vs version else maxVs
      else maxVs
  end.

Lemma KeyWithTs_inj k v k' v' :
  0 <= v <= MaxUint64 -> 0 <= v' <= MaxUint64 -> KeyWithTs k v = KeyWithTs k' v' ->
  k = k' /\ v = v'.
Proof.
  intros Hv Hv' E. apply (cmp_eq compareKeys) in E.
  rewrite compareKeys_KeyWithTs in E by done.
  destruct (bytes_Compare k k') eqn:Ek; try done. apply (cmp_eq bytes_Compare) in Ek.
  apply Z.compare_eq_iff in E. done.
Qed.

(** One run: seeking [key@ts] finds the newest version at or below [ts]. *)
Lemma lookup_run_newest es k ts :
  run_ok es -> k <> [] -> 0 <= ts <= MaxUint64 ->
  newest es k ts (lookup_run (run_seek es (KeyWithTs k ts)) (KeyWithTs k ts) vs_zero).
Proof.
  intros Hok Hk Hts. pose proof (run_seek_spec es (KeyWithTs k ts) Hok) as Hs.
  destruct Hok as [Hwf _]. rewrite Forall_forall in Hwf.
  assert (forall v, 0 < v <= ts -> compareKeys (KeyWithTs k v) (KeyWithTs k ts) <> Lt) as Hge.
  { intros v Hv. rewrite compareKeys_KeyWithTs, (cmp_refl bytes_Compare) by lia.
    rewrite Z.compare_lt_iff. lia. }
  destruct (run_seek es (KeyWithTs k ts)) as [[key' vs']|]; simpl.
  2: { split; [|by left]. intros v vs Hin Hv. exfalso. by apply (Hge v Hv), (Hs (KeyWithTs k v, vs)). }
  destruct Hs as (Hin & Hge' & Hfirst). simpl in *.
  destruct (Hwf _ Hin) as [Hts' Hval]. simpl in *.
  destruct (has_ts_eta key' Hts') as (k' & v' & -> & Hv').
  assert (forall v vs, (KeyWithTs k v, vs) ∈ es -> 0 < v <= ts ->
    k = k' -> v <= v') as Hmax.
  { intros v vs Hin' Hv <-. destruct (decide (v <= v')) as [|Hgt]; [done|exfalso].
    apply (Hge v Hv), (Hfirst _ Hin'). simpl.
    rewrite compareKeys_KeyWithTs, (cmp_refl bytes_Compare) by lia. apply Z.compare_lt_iff. lia. }
  rewrite compareKeys_KeyWithTs in Hge' by lia.
  assert (SameKey (KeyWithTs k ts) (KeyWithTs k' v') = true <-> k = k') as Hsame.
  { rewrite SameKey_spec by apply KeyWithTs_has_ts. by rewrite !split_KeyWithTs. }
  destruct (SameKey _ _) eqn:Es.
  - assert (k = k') as <- by (by apply Hsame). rewrite ParseTs_KeyWithTs by done.
    rewrite (cmp_refl bytes_Compare), Z.compare_lt_iff in Hge'.
    case_bool_decide as Hpos; simpl in Hpos.
    + split; simpl; [intros v vs Hin' Hv; by eapply Hmax|]. right. split_and!; try done; [lia|].
      by exists vs'.
    + split; [|by left]. simpl. intros v vs Hin' Hv. specialize (Hmax v vs Hin' Hv eq_refl). lia.
  - split; [|by left]. intros v vs Hin' Hv. exfalso.
    assert (compareKeys (KeyWithTs k v) (KeyWithTs k' v') = Lt) as Hc.
    { rewrite compareKeys_KeyWithTs by lia. destruct (bytes_Compare k' k) eqn:Ec; [|done|].
      - apply (cmp_eq bytes_Compare) in Ec. subst. by pose proof (proj2 Hsame eq_refl).
      - apply (cmp_gt_lt bytes_Compare) in Ec. by rewrite Ec. }
    by apply (Hge v Hv), (Hfirst _ Hin').
Qed.

(** Carrying the best so far into a run keeps the larger version. *)
Lemma lookup_run_max seek key m :
  0 <= Version m ->
  lookup_run seek key m
  = (let r := lookup_run seek key vs_zero in
     if bool_decide (Version m < Version r) then r else m).
Proof.
  intros Hm. unfold lookup_run. destruct seek as [[k vs]|]; simpl.
  2: { rewrite bool_decide_eq_false_2; [done|simpl; lia]. }
  destruct (SameKey key k); [|simpl; rewrite bool_decide_eq_false_2; [done|simpl; lia]].
  repeat (case_bool_decide; simpl in * ); try done; lia.
Qed.

(** ** Tables *)

Record Table : Type := mkTable {
  ID : Z;
  entries : list kv;
  Size : Z;
  StaleDataSize : Z;
  MaxVersion : Z;
  CreatedAt : Z;
  IsInmemory : bool;
  KeyID : Z;
  CompressionType : Z;
  bloom : option bytes
}.

Definition Smallest (t : Table) : bytes :=
  match entries t with [] => [] | e :: _ => e.1 end.

Definition Biggest (t : Table) : bytes :=
  match last (entries t) with None => [] | Some e => e.1 end.

(** [None] would be an index error in the filter. *)
Definition DoesNotHave (t : Table) (hash : Z) : option bool :=
  match bloom t with
  | None => Some false
  | Some f => b ← MayContain f hash; Some (negb b)
  end.

Definition table_bloom_ok (t : Table) : Prop :=
  match bloom t with
  | None => True
  | Some f => exists bits,
      let hashes := (fun e => Hash (ParseKey e.1)) <$> entries t in
      u32 (filter_bits (len hashes) bits) <> 0 /\ NewFilter hashes bits = Some f
  end.

Record table_ok (t : Table) : Prop := {
  tb_run : run_ok (entries t);
  tb_nonempty : entries t <> [];
  tb_bloom : table_bloom_ok t
}.

Lemma table_smallest t e : table_ok t -> e ∈ entries t -> compareKeys (Smallest t) e.1 <> Gt.
Proof.
  intros [[Hwf Hs] Hne _] He. unfold Smallest. destruct (entries t) as [|x es]; [done|].
  apply StronglySorted_cons in Hs as [Hx _]. rewrite Forall_forall in Hx.
  apply elem_of_cons in He as [->|He]; [by rewrite (cmp_refl compareKeys)|].
  by rewrite (Hx _ He).
Qed.

Lemma table_biggest t e : table_ok t -> e ∈ entries t -> compareKeys e.1 (Biggest t) <> Gt.
Proof.
  intros [[Hwf Hs] Hne _] He. unfold Biggest. destruct (last (entries t)) as [x|] eqn:El.
  - apply last_Some in El as [es Ees]. rewrite Ees in He, Hs. apply elem_of_app in He as [He|He].
    + assert (compareKeys e.1 x.1 = Lt) as ->; [|done].
      apply (StronglySorted_app_1_elem_of _ _ _ _ _ Hs He). by left.
    + apply list_elem_of_singleton in He as ->. by rewrite (cmp_refl compareKeys).
  - by apply last_None in El.
Qed.

Lemma table_smallest_in t : table_ok t -> exists vs, (Smallest t, vs) ∈ entries t.
Proof.
  intros [_ Hne _]. unfold Smallest. destruct (entries t) as [|[k vs] es]; [done|].
  exists vs. by left.
Qed.

Lemma table_biggest_in t : table_ok t -> exists vs, (Biggest t, vs) ∈ entries t.
Proof.
  intros [_ Hne _]. unfold Biggest. destruct (last (entries t)) as [[k vs]|] eqn:El.
  - exists vs. apply last_Some in El as [es ->]. apply elem_of_app. right. by left.
  - by apply last_None in El.
Qed.

Lemma table_has_ts t : table_ok t -> has_ts (Smallest t) /\ has_ts (Biggest t).
Proof.
  intros Hok. pose proof Hok as [[Hwf _] _ _]. rewrite Forall_forall in Hwf.
  destruct (table_smallest_in t Hok) as [vs Hs], (table_biggest_in t Hok) as [vs' Hb].
  split; [apply (Hwf _ Hs)|apply (Hwf _ Hb)].
Qed.

Lemma table_range t : table_ok t -> compareKeys (Smallest t) (Biggest t) <> Gt.
Proof.
  intros Hok. destruct (table_smallest_in t Hok) as [vs Hs].
  by apply (table_biggest t (Smallest t, vs)).
Qed.

(** The filter never hides a key the table has, and probing it never fails. *)
Lemma DoesNotHave_spec t hash :
  table_ok t -> exists b, DoesNotHave t hash = Some b /\
    (b = true -> forall e, e ∈ entries t -> Hash (ParseKey e.1) <> hash).
Proof.
  intros [_ _ Hb]. unfold DoesNotHave, table_bloom_ok in *. destruct (bloom t) as [f|].
  - destruct Hb as (bits & Hnz & Hf).
    destruct (MayContain_NewFilter _ _ _ hash Hnz Hf) as (b & -> & Hin). simpl.
    exists (negb b). split; [done|]. intros Hnb e He E. destruct b; [done|].
    assert (false = true) as C; [|done]. apply Hin. rewrite <- E.
    by apply (list_elem_of_fmap_2 (fun e => Hash (ParseKey e.1))).
  - by exists false.
Qed.

(** The lookup in one table, behind its filter. *)
Definition table_get (t : Table) (key : bytes) (maxVs : ValueStruct) : option ValueStruct :=
  b ← DoesNotHave t (Hash (ParseKey key));
  if (b : bool) then Some maxVs else Some (lookup_run (run_seek (entries t) key) key maxVs).

Lemma table_get_newest t k ts m es :
  table_ok t -> k <> [] -> 0 <= ts <= MaxUint64 -> newest es k ts m ->
  exists r, table_get t (KeyWithTs k ts) m = Some r /\ newest (es ++ entries t) k ts r.
Proof.
  intros Hok Hk Hts Hm. unfold table_get. rewrite ParseKey_KeyWithTs.
  destruct (DoesNotHave_spec t (Hash k) Hok) as (b & -> & Hb). simpl.
  assert (0 <= Version m) as Hm0 by (destruct Hm as [_ [->|(? & _)]]; simpl; lia).
  destruct b.
  - exists m. split; [done|].
    pose proof (newest_app es (entries t) k ts m vs_zero Hm) as H.
    rewrite bool_decide_eq_false_2 in H by (simpl; lia). apply H.
    split; [|by left]. intros v vs Hin _. destruct (Hb eq_refl _ Hin). simpl.
    by rewrite ParseKey_KeyWithTs.
  - eexists. split; [done|]. rewrite lookup_run_max by done. cbv zeta. apply newest_app; [done|].
    apply lookup_run_newest; [apply Hok|done|done].
Qed.
