(* ===== verification/TableFile.v ===== *)
(** * TableFile: building, opening and iterating a whole table (table/builder.go,
    table/table.go, table/iterator.go)

    A table file is its blocks one after the other, then the index, its length, its checksum
    and the checksum's length.  FlatBuffers is an [IndexCodec]; compression, encryption and the
    block cache are left out, so a block is read with [read_block].  The number of bloom bits
    per key, a floating-point formula of [BloomFalsePositive], is an argument.

    What comes of it is the view Tables.v takes of a table: its entries in order. *)

From S2P Require Import Prelude Keys Codec Bloom Checksum Block Tables.

(** ** The index *)

Record blockOffset : Type := mkBO { bo_key : bytes; bo_offset : Z; bo_len : Z }.

Record tableIndex : Type := mkTI {
  ti_offsets : list blockOffset;
  ti_bloom : bytes;
  ti_maxVersion : Z;
  ti_uncompressedSize : Z;
  ti_keyCount : Z;
  ti_onDiskSize : Z;
  ti_staleDataSize : Z
}.

Definition with_onDiskSize (i : tableIndex) (n : Z) : tableIndex :=
  mkTI (ti_offsets i) (ti_bloom i) (ti_maxVersion i) (ti_uncompressedSize i) (ti_keyCount i) n
    (ti_staleDataSize i).

(** FlatBuffers: building a [TableIndex], reading it, overwriting one scalar in place. *)
Class IndexCodec : Type := {
  fb_build : tableIndex -> bytes;
  fb_root : bytes -> option tableIndex;
  fb_MutateOnDiskSize : bytes -> Z -> option bytes
}.

(** Every scalar within its word, every key shorter than the buffer may be. *)
Definition ti_wf (i : tableIndex) : Prop :=
  Forall (fun o => len (bo_key o) < 2 ^ 16 /\ 0 <= bo_offset o < 2 ^ 32 /\ 0 <= bo_len o < 2 ^ 32)
    (ti_offsets i) /\
  0 <= ti_maxVersion i < 2 ^ 64 /\ 0 <= ti_uncompressedSize i < 2 ^ 32 /\
  0 <= ti_keyCount i < 2 ^ 32 /\ 0 <= ti_onDiskSize i < 2 ^ 32 /\ 0 <= ti_staleDataSize i < 2 ^ 32.

(** A scalar equal to its default is not stored and cannot be overwritten. *)
Class IndexCodecLaws (I : IndexCodec) : Prop := {
  fb_root_build i : ti_wf i -> fb_root (fb_build i) = Some i;
  fb_mutate_ok b i n : fb_root b = Some i -> ti_wf i -> ti_onDiskSize i <> 0 -> 0 <= n < 2 ^ 32 ->
    exists b', fb_MutateOnDiskSize b n = Some b' /\ length b' = length b /\
      fb_root b' = Some (with_onDiskSize i n)
}.

(** ** Finishing a table *)

Record buildData : Type := mkBD {
  bd_blockList : list bblock;
  bd_index : bytes;
  bd_checksum : bytes;
  bd_Size : Z
}.

Definition bd_empty : buildData := mkBD [] [] [] 0.

Section Finishing.
Context `{C : ChecksumCodec} `{I : IndexCodec}.

(** The block offsets and the size of the data, a 32-bit sum. *)
Definition writeBlockOffsets (l : list bblock) : list blockOffset * Z :=
  foldl (fun '(os, start) bb =>
           (os ++ [mkBO (bbaseKey bb) start (u32 (len (bdata bb)))],
            u32 (start + u32 (len (bdata bb))))) ([], 0) l.

Definition buildIndex (b : Builder) (bloom : bytes) : option (bytes * Z) :=
  let '(boList, dataSize) := writeBlockOffsets (blockList b) in
  let onDisk := u32 (onDiskSize b + dataSize) in
  let buf := fb_build (mkTI boList bloom (maxVersion b) (uncompressedSize b)
                         (u32 (len (keyHashes b))) onDisk (u32 (staleDataSize b))) in
  index ← fb_root buf;
  buf ← fb_MutateOnDiskSize buf (u32 (ti_onDiskSize index + u32 (len buf)));
  Some (buf, dataSize).

(** [bits]: bits per key of the bloom filter, [None] when [BloomFalsePositive] is 0. *)
Definition builder_Done (b : Builder) (bits : option Z) : option buildData :=
  let b := finishBlock b in
  if bool_decide (len (blockList b) = 0) then Some bd_empty
  else
    f ← (match bits with Some n => NewFilter (keyHashes b) n | None => Some [] end);
    '(index, dataSize) ← buildIndex b f;
    let checksum := calculateChecksum index in
    Some (mkBD (blockList b) index checksum (dataSize + len index + len checksum + 4 + 4)).

Definition bd_Copy (bd : buildData) : bytes :=
  concat (bdata <$> bd_blockList bd) ++ bd_index bd ++ U32ToBytes (u32 (len (bd_index bd)))
  ++ bd_checksum bd ++ U32ToBytes (u32 (len (bd_checksum bd))).

(** [Finish] copies into a buffer of [Size] bytes; the assertion is that it is filled. *)
Definition builder_Finish (b : Builder) (bits : option Z) : option bytes :=
  bd ← builder_Done b bits;
  let buf := bd_Copy bd in
  if bool_decide (len buf = bd_Size bd) then Some buf else None.
End Finishing.

(** ** Reading a table *)

Inductive table_error : Type :=
  | ErrBlockOutOfIndex | ErrRead | ErrBlock (e : block_error)
  | ErrUnmarshal | ErrIndexChecksum | ErrInitBiggest.

Record tableFile : Type := mkTF {
  tf_data : bytes;
  tf_index : tableIndex;
  tf_verify : bool             (* ChkMode is OnBlockRead or OnTableAndBlockRead *)
}.

Definition offsetsLength (t : tableFile) : Z := len (ti_offsets (tf_index t)).

Definition lift_block {A} (r : result block_error A) : result table_error A :=
  match r with Ok a => Ok a | Err e => Err (ErrBlock e) | Panic => Panic end.

Section ReadingTable.
Context `{C : ChecksumCodec} `{I : IndexCodec}.

Definition table_block (t : tableFile) (i : Z) : result table_error Block :=
  if bool_decide (i < 0) then Panic
  else
    match ti_offsets (tf_index t) !! Z.to_nat i with
    | None => Err ErrBlockOutOfIndex
    | Some ko =>
        match slice (tf_data t) (bo_offset ko) (bo_offset ko + bo_len ko) with
        | None => Err ErrRead
        | Some data => lift_block (read_block data (tf_verify t))
        end
    end.

(** *** The iterator *)

Inductive iter_err : Type := NoErr | EOF | BlockErr (e : table_error).

Record tIterator : Type := mkTI' { bpos : Z; bi : blockIterator; it_err : iter_err }.

Definition NewIterator : tIterator := mkTI' 0 bi_zero NoErr.

Definition it_Valid (it : tIterator) : bool :=
  match it_err it with NoErr => true | _ => false end.
Definition it_Key (it : tIterator) : bytes := ikey (bi it).
Definition it_Value (it : tIterator) : option ValueStruct := Decode vs_zero (ival (bi it)).

Definition bi_Error (b : blockIterator) : iter_err := if ieof b then EOF else NoErr.

(** Every seek loads block [i] and moves inside it with [go]; [None] is a panic. *)
Definition load_block (t : tableFile) (it : tIterator) (i : Z)
    (go : blockIterator -> option blockIterator) : option tIterator :=
  match table_block t i with
  | Panic => None
  | Err e => Some (mkTI' i (bi it) (BlockErr e))
  | Ok blk => b ← setBlock blk; b ← go b; Some (mkTI' i b (bi_Error b))
  end.

Definition it_fail (it : tIterator) (e : iter_err) : tIterator := mkTI' (bpos it) (bi it) e.

Definition it_seekToFirst (t : tableFile) (it : tIterator) : option tIterator :=
  if bool_decide (offsetsLength t = 0) then Some (it_fail it EOF)
  else load_block t it 0 bi_seekToFirst.

Definition it_seekToLast (t : tableFile) (it : tIterator) : option tIterator :=
  if bool_decide (offsetsLength t = 0) then Some (it_fail it EOF)
  else load_block t it (offsetsLength t - 1) bi_seekToLast.

Definition seekHelper (t : tableFile) (it : tIterator) (blockIdx : Z) (key : bytes)
    : option tIterator :=
  load_block t it blockIdx (fun b => bi_seek b key origin).

(** The closure of the search; [None] is a panic of [CompareKeys]. *)
Definition offset_probe (t : tableFile) (key : bytes) (h : nat) (s : option unit)
    : bool * option unit :=
  match (_ ← s; ko ← ti_offsets (tf_index t) !! h; CompareKeys (bo_key ko) key) with
  | None => (false, None)
  | Some c => (bool_decide (c = Gt), Some tt)
  end.

Definition seekFrom (t : tableFile) (it : tIterator) (key : bytes) (w : whence)
    : option tIterator :=
  let it := mkTI' (match w with origin => 0 | current => bpos it end) (bi it) NoErr in
  let '(idx, s) :=
    sort_SearchM (length (ti_offsets (tf_index t))) (offset_probe t key) (Some tt) in
  _ ← s;
  if bool_decide (idx = 0%nat) then seekHelper t it 0 key
  else
    it ← seekHelper t it (Z.of_nat idx - 1) key;
    match it_err it with
    | EOF => if bool_decide (Z.of_nat idx = offsetsLength t) then Some it
             else seekHelper t it (Z.of_nat idx) key
    | _ => Some it
    end.

Definition it_seek (t : tableFile) (it : tIterator) (key : bytes) : option tIterator :=
  seekFrom t it key origin.

(** The case of [next] that finds no block loaded: it ends the recursion. *)
Definition next_load (t : tableFile) (it : tIterator) : option tIterator :=
  if bool_decide (offsetsLength t <= bpos it) then Some (it_fail it EOF)
  else load_block t it (bpos it) bi_seekToFirst.

Definition drop_data (b : blockIterator) : blockIterator :=
  mkBI [] (idx b) (ieof b) (ibaseKey b) (ikey b) (ival b) (ientryOffsets b) (prevOverlap b).

Definition it_next (t : tableFile) (it : tIterator) : option tIterator :=
  if bool_decide (offsetsLength t <= bpos it) then Some (it_fail it EOF)
  else if bool_decide (len (idata (bi it)) = 0) then next_load t it
  else
    b ← bi_next (bi it);
    if bi_Valid b then Some (mkTI' (bpos it) b NoErr)
    else next_load t (mkTI' (bpos it + 1) (drop_data b) NoErr).

Definition prev_load (t : tableFile) (it : tIterator) : option tIterator :=
  if bool_decide (bpos it < 0) then Some (it_fail it EOF)
  else load_block t it (bpos it) bi_seekToLast.

Definition it_prev (t : tableFile) (it : tIterator) : option tIterator :=
  if bool_decide (bpos it < 0) then Some (it_fail it EOF)
  else if bool_decide (len (idata (bi it)) = 0) then prev_load t it
  else
    b ← bi_prev (bi it);
    if bi_Valid b then Some (mkTI' (bpos it) b NoErr)
    else prev_load t (mkTI' (bpos it - 1) (drop_data b) NoErr).

Definition it_seekForPrev (t : tableFile) (it : tIterator) (key : bytes) : option tIterator :=
  it ← seekFrom t it key origin;
  if bool_decide (it_Key it = key) then Some it else it_prev t it.

(** The exported operations, by direction. *)
Definition it_Next (reversed : bool) (t : tableFile) (it : tIterator) : option tIterator :=
  if reversed then it_prev t it else it_next t it.
Definition it_Rewind (reversed : bool) (t : tableFile) (it : tIterator) : option tIterator :=
  if reversed then it_seekToLast t it else it_seekToFirst t it.
Definition it_Seek (reversed : bool) (t : tableFile) (it : tIterator) (key : bytes)
    : option tIterator :=
  if reversed then it_seekForPrev t it key else it_seek t it key.

(** *** Opening *)

(** [initIndex]: the index read back from the end of the file. *)
Definition initIndex (data : bytes) : result table_error tableIndex :=
  let readPos := len data - 4 in
  buf ← unpanic (slice data readPos (readPos + 4));
  checksumLen ← unpanic (BytesToU32 buf);
  let readPos := readPos - checksumLen in
  buf ← unpanic (slice data readPos (readPos + checksumLen));
  match Checksum_Unmarshal buf with
  | None => Err ErrUnmarshal
  | Some expectedChk =>
      let readPos := readPos - 4 in
      buf ← unpanic (slice data readPos (readPos + 4));
      indexLen ← unpanic (BytesToU32 buf);
      let readPos := readPos - indexLen in
      idx ← unpanic (slice data readPos (readPos + indexLen));
      if VerifyChecksum idx expectedChk then
        index ← unpanic (fb_root idx);
        if bool_decide (ti_offsets index = []) then Panic else Ok index
      else Err ErrIndexChecksum
  end.

(** [initBiggestAndSmallest], and the check of all blocks when [ChkMode] asks for it. *)
Fixpoint verify_blocks (t : tableFile) (i : Z) (n : nat) : result table_error unit :=
  match n with
  | O => Ok tt
  | S n =>
      b ← table_block t i;
      _ ← (if tf_verify t then Ok tt else lift_block (verifyCheckSum b));
      verify_blocks t (i + 1) n
  end.

Definition OpenTable (data : bytes) (verify_on_open verify_blk : bool)
    : result table_error (tableFile * bytes * bytes) :=
  index ← initIndex data;
  let t := mkTF data index verify_blk in
  match ti_offsets index with
  | [] => Panic
  | ko :: _ =>
      it ← unpanic (it_Rewind true t NewIterator);
      if it_Valid it then
        _ ← (if verify_on_open then verify_blocks t 0 (length (ti_offsets index)) else Ok tt);
        Ok (t, bo_key ko, it_Key it)
      else Err ErrInitBiggest
  end.
End ReadingTable.
