(* ===== verification/TableBuild.v ===== *)
(** * TableBuild: what a builder holds, and the table it becomes

    [builder_repr b kvs]: the builder's finished blocks and the one under way hold exactly the
    pairs [kvs], in order.  [Add] extends it; [Finish] and [OpenTable] turn it into a table
    whose iterator walks and seeks exactly [kvs]. *)

From S2P Require Import Prelude Keys Codec Bloom Checksum Block Tables TableFile.

(** ** Builders *)

(** Size limits that keep every 32-bit computation of the builder exact. *)
Definition kv_small (e : kv) : Prop := kv_ok e.1 e.2 /\ kv_size e.1 e.2 <= 2 ^ 28.

#[export] Instance kv_small_dec e : Decision (kv_small e).
Proof. unfold kv_small, kv_ok, is_u64. apply _. Defined.

Definition opts_ok (o : Options) : Prop := 0 <= BlockSize o <= 2 ^ 29.

(** The block under way: what it holds, with room left for its offsets and trailer. *)
Definition block_room (bb : bblock) : Z := len (bdata bb) + 4 * len (bentryOffsets bb).

Section BuilderRepr.
Context `{C : ChecksumCodec} `{!ChecksumCodecLaws C}.

(** A finished block and its entries. *)
Definition finished (bb : bblock) (xs : list entry) : Prop :=
  exists c, bb = finish_bblock c /\ bb_repr c xs /\ xs <> [] /\ block_room c <= 2 ^ 30.

Record builder_repr (b : Builder) (kvs : list kv) : Prop := {
  bd_blocks : exists xss cur,
    Forall2 finished (blockList b) xss /\ bb_repr (curBlock b) cur /\
    kvs = concat ((fun xs : list entry => xs.*2) <$> xss) ++ cur.*2 /\
    (kvs <> [] -> cur <> []);
  bd_room : block_room (curBlock b) <= 2 ^ 30;
  bd_hashes : keyHashes b = (fun e : kv => Hash (ParseKey e.1)) <$> kvs;
  bd_unc : 0 <= uncompressedSize b < 2 ^ 32;
  bd_max : maxVersion b = foldr (fun e : kv => Z.max (ParseTs e.1)) 0 kvs
}.

Lemma EncodedSize_bound v :
  is_u64 (ExpiresAt v) -> len (vbytes (Value v)) + 12 < 2 ^ 32 ->
  0 <= EncodedSize v <= len (vbytes (Value v)) + 12.
Proof.
  intros He Hl. rewrite EncodedSize_EncodeTo by done. pose proof (EncodeTo_bound v He).
  pose proof (len_nonneg (EncodeTo v)). rewrite wrap_small by lia. lia.
Qed.

Lemma shouldFinishBlock_spec b key v :
  block_room (curBlock b) <= 2 ^ 30 -> opts_ok (opts b) -> kv_small (key, v) ->
  exists fin, shouldFinishBlock b key v = Some fin /\
    (fin = true -> 0 < len (bentryOffsets (curBlock b))) /\
    (fin = false -> len (bentryOffsets (curBlock b)) = 0 \/ block_room (curBlock b) <= 2 ^ 29).
Proof.
  intros Hroom Hopt [Hkv Hsz]. unfold shouldFinishBlock, block_room, opts_ok in *.
  set (d := len (bdata (curBlock b))) in *. set (n := len (bentryOffsets (curBlock b))) in *.
  assert (0 <= d /\ 0 <= n) as [Hd Hn] by (split; apply len_nonneg).
  case_bool_decide as Hn0; [exists false; split_and!; [done|done|left; lia]|].
  cbn [fst snd] in *. unfold kv_size in Hsz. destruct Hkv as (Hk & He & Hv).
  pose proof (EncodedSize_bound v He Hv) as Hes. pose proof (len_nonneg (vbytes (Value v))).
  rewrite !(wrap_small 32 n) by lia. rewrite !(wrap_small 32 d), (wrap_small 32 (len key)) by lia.
  rewrite (wrap_small 32 (n + 1)) by lia. rewrite (wrap_small 32 ((n + 1) * 4)) by lia.
  rewrite (wrap_small 32 ((n + 1) * 4 + 4)), (wrap_small 32 ((n + 1) * 4 + 4 + 8)) by lia.
  rewrite (wrap_small 32 ((n + 1) * 4 + 4 + 8 + 4)) by lia.
  rewrite bool_decide_eq_true_2 by (unfold MaxUint32; lia).
  rewrite (wrap_small 32 (d + 6)), (wrap_small 32 (d + 6 + len key)) by lia.
  rewrite (wrap_small 32 (d + 6 + len key + EncodedSize v)) by lia.
  set (est := d + 6 + len key + EncodedSize v + ((n + 1) * 4 + 4 + 8 + 4)).
  rewrite (wrap_small 32 est) by (unfold est; lia). rewrite (wrap_small 64 d) by lia.
  assert ((if shouldEncrypt b then u32 (est + 16) else est) = est + (if shouldEncrypt b then 16 else 0))
    as -> by (destruct (shouldEncrypt b); [apply wrap_small; unfold est; lia|lia]).
  set (e16 := if shouldEncrypt b then 16 else 0).
  assert (0 <= e16 <= 16) by (unfold e16; destruct (shouldEncrypt b); lia).
  rewrite wrap_small by (unfold est; lia).
  rewrite bool_decide_eq_true_2 by (unfold est, MaxUint32; lia).
  rewrite (wrap_small 32 (BlockSize _)) by lia.
  eexists. split; [done|]. split; [intros _; lia|]. intros Hf%bool_decide_eq_false.
  right. unfold est in Hf. lia.
Qed.

(** Adding to the block under way. *)
Lemma addHelper_room b key v xs b' ov :
  bb_repr (curBlock b) xs -> bb_repr (curBlock b') (xs ++ [(ov, (key, v))]) ->
  block_room (curBlock b') <= block_room (curBlock b) + kv_size key v + 4.
Proof.
  intros [Hd Ho _ _ _] [Hd' Ho' Hok' _ _]. unfold block_room.
  apply Forall_app in Hok' as [_ [He _]%Forall_cons]. apply enc_entry_size in He. cbn [fst snd] in He.
  rewrite Hd, Hd', Ho, Ho'. unfold len at 2 4. rewrite !offs_length, fmap_app, concat_app, length_app, len_app.
  cbn [fmap list_fmap concat length]. rewrite app_nil_r. lia.
Qed.

Lemma builder_repr_new o : builder_repr (NewTableBuilder o) [].
Proof.
  split; [exists [], []| | | |]; [|done|done|done|done]. by split_and!.
Qed.

Lemma foldr_max_app (l : list kv) k v :
  foldr (fun e : kv => Z.max (ParseTs e.1)) 0 (l ++ [(k, v)])
  = Z.max (foldr (fun e : kv => Z.max (ParseTs e.1)) 0 l) (Z.max (ParseTs k) 0).
Proof. induction l as [|e l IH]; cbn; [lia|]. rewrite IH. lia. Qed.

Lemma addHelper_unc b key v n b' :
  addHelper b key v n = Some b' -> uncompressedSize b' = uncompressedSize b.
Proof.
  unfold addHelper. cbv zeta. destruct (bool_decide (len (bbaseKey _) = 0)); case_bool_decide; try done;
    (destruct (Encode _ _) as [[dst sz]|]; [|done]); by intros [= <-].
Qed.

(** [addHelper] on a builder whose block has room. *)
Lemma addHelper_builder b kvs key v n xss cur :
  Forall2 finished (blockList b) xss -> bb_repr (curBlock b) cur ->
  kvs = concat ((fun xs : list entry => xs.*2) <$> xss) ++ cur.*2 ->
  keyHashes b = (fun e : kv => Hash (ParseKey e.1)) <$> kvs ->
  0 <= uncompressedSize b < 2 ^ 32 ->
  maxVersion b = foldr (fun e : kv => Z.max (ParseTs e.1)) 0 kvs ->
  kv_small (key, v) -> block_room (curBlock b) <= 2 ^ 29 ->
  exists b', addHelper b key v n = Some b' /\ builder_repr b' (kvs ++ [(key, v)]) /\
    opts b' = opts b.
Proof.
  intros Hf Hc Hk Hh Hu Hm [Hkv Hsz] Hroom. cbn [fst snd] in *.
  assert (len (bdata (curBlock b)) + kv_size key v < 2 ^ 32) as Hlt.
  { unfold block_room in Hroom. pose proof (len_nonneg (bentryOffsets (curBlock b))). lia. }
  destruct (addHelper_repr b key v n cur Hc Hkv Hlt) as (b' & ov & E & Hr & Hbl & Hkh & Ho & Hmv).
  exists b'. split_and!; [done| |done]. split.
  - exists xss, (cur ++ [(ov, (key, v))]). rewrite Hbl. split_and!; [done|done| |].
    + by rewrite fmap_app, app_assoc, Hk.
    + intros _ ?%app_eq_nil. naive_solver.
  - pose proof (addHelper_room b key v cur b' ov Hc Hr). lia.
  - by rewrite Hkh, fmap_app, Hh.
  - by rewrite (addHelper_unc _ _ _ _ _ E).
  - rewrite Hmv, foldr_max_app, Hm.
    assert (0 <= ParseTs key) as Hts; [|lia].
    unfold ParseTs. case_bool_decide; [lia|]. apply wrap_range. lia.
Qed.

(** [Add] and [AddStaleKey] append the pair; they never panic on pairs of a sane size. *)
Lemma addInternal_repr b kvs key v n stale :
  builder_repr b kvs -> opts_ok (opts b) -> kv_small (key, v) ->
  exists b', addInternal b key v n stale = Some b' /\ builder_repr b' (kvs ++ [(key, v)]) /\
    opts b' = opts b.
Proof.
  intros [(xss & cur & Hf & Hc & Hk & Hne) Hroom Hh Hu Hm] Hopt Hkv. unfold addInternal.
  destruct (shouldFinishBlock_spec b key v Hroom Hopt Hkv) as (fin & -> & Ht & Hfl).
  cbn [mbind option_bind]. destruct fin.
  - specialize (Ht eq_refl).
    set (b1 := if stale then add_stale b (len key + 4 + 4) else b).
    assert (curBlock b1 = curBlock b /\ blockList b1 = blockList b /\ keyHashes b1 = keyHashes b /\
      maxVersion b1 = maxVersion b /\ opts b1 = opts b) as (E1 & E2 & E3 & E4 & E5)
      by (unfold b1; destruct stale; done).
    clearbody b1. unfold finishBlock. rewrite E1, (bool_decide_eq_false_2 (len _ = 0)) by lia.
    assert (cur <> []) as Hcur.
    { intros ->. destruct Hc as [_ Ho _ _ _]. rewrite Ho in Ht. unfold len in Ht. simpl in Ht. lia. }
    match goal with |- context[set_curBlock ?x ?y] => set (b2 := set_curBlock x y) end.
    destruct (addHelper_builder b2 kvs key v n (xss ++ [cur]) []) as (b' & E & Hr & Ho').
    + cbn. rewrite E2. apply Forall2_app; [done|]. constructor; [|constructor].
      by exists (curBlock b).
    + apply bb_repr_empty.
    + rewrite fmap_app, concat_app. cbn. by rewrite !app_nil_r.
    + cbn. congruence.
    + apply wrap_range. lia.
    + cbn. congruence.
    + done.
    + done.
    + exists b'. rewrite E, Ho'. done.
  - destruct (addHelper_builder b kvs key v n xss cur) as (b' & E & Hr & Ho'); try done.
    + destruct (Hfl eq_refl) as [Hz|]; [|done].
      destruct Hc as [Hd Ho _ _ _].
      assert (cur = []) as ->; [|unfold block_room; rewrite Hd, Hz; done].
      rewrite Ho in Hz. unfold len in Hz. rewrite offs_length, length_fmap in Hz. destruct cur; [done|simpl in Hz; lia].
    + by exists b'.
Qed.
End BuilderRepr.

(** ** Tables as files *)

Section TableRepr.
Context `{C : ChecksumCodec} `{I : IndexCodec}.

(** The blocks of a table: their base keys and entries. *)
Notation blocks := (list (list byte * list entry)).

Definition flat (bss : blocks) : list kv := concat ((fun p : list byte * list entry => p.2.*2) <$> bss).

Record table_repr (t : tableFile) (bss : blocks) : Prop := {
  tr_len : length (ti_offsets (tf_index t)) = length bss;
  tr_nonempty : bss <> [];
  tr_block : forall i base xs, bss !! i = Some (base, xs) ->
    xs_ok base xs /\
    (exists bo, ti_offsets (tf_index t) !! i = Some bo /\ bo_key bo = base) /\
    exists blk it, table_block t (Z.of_nat i) = Ok blk /\ setBlock blk = Some it /\ bi_ok base xs it
}.

Lemma offsetsLength_repr t bss : table_repr t bss -> offsetsLength t = Z.of_nat (length bss).
Proof. intros Ht. unfold offsetsLength, len. by rewrite (tr_len _ _ Ht). Qed.

(** The iterator stands on the [p]-th pair of the table. *)
Record cursor (bss : blocks) (it : tIterator) (p : nat) : Prop := {
  cu_pos : exists i j base xs ov k v,
    bss !! i = Some (base, xs) /\ xs !! j = Some (ov, (k, v)) /\
    p = (length (flat (take i bss)) + j)%nat /\ bpos it = Z.of_nat i /\
    bi_ok base xs (bi it) /\ idx (bi it) = Z.of_nat j /\
    ikey (bi it) = k /\ ival (bi it) = EncodeTo v;
  cu_err : it_err it = NoErr;
  cu_eof : ieof (bi it) = false
}.

Lemma flat_lookup bss i j base xs ov kv' :
  bss !! i = Some (base, xs) -> xs !! j = Some (ov, kv') ->
  flat bss !! (length (flat (take i bss)) + j)%nat = Some kv'.
Proof.
  intros Hi Hj. unfold flat. rewrite fmap_take.
  apply (lookup_concat _ i j (xs.*2)); [by rewrite list_lookup_fmap, Hi|].
  by rewrite list_lookup_fmap, Hj.
Qed.

Lemma flat_take_S bss i base xs :
  bss !! i = Some (base, xs) -> length (flat (take (S i) bss)) = (length (flat (take i bss)) + length xs)%nat.
Proof.
  intros Hi. unfold flat. rewrite !fmap_take, (length_concat_take_S _ i (xs.*2)).
  - by rewrite length_fmap.
  - by rewrite list_lookup_fmap, Hi.
Qed.

Lemma cursor_entry bss it p :
  cursor bss it p -> exists k v, flat bss !! p = Some (k, v) /\ it_Key it = k /\
    ival (bi it) = EncodeTo v /\ it_Valid it = true.
Proof.
  intros [(i & j & base & xs & ov & k & v & Hi & Hj & -> & _ & _ & _ & Hk & Hv) He _].
  exists k, v. split_and!; try done.
  - by apply (flat_lookup bss i j base xs ov).
  - unfold it_Valid. by rewrite He.
Qed.

Lemma load_block_ok t bss it i base xs go :
  table_repr t bss -> bss !! i = Some (base, xs) ->
  exists b0, bi_ok base xs b0 /\
    load_block t it (Z.of_nat i) go = (b ← go b0; Some (mkTI' (Z.of_nat i) b (bi_Error b))).
Proof.
  intros [_ _ Hb] Hi. destruct (Hb i base xs Hi) as (_ & _ & blk & it0 & E1 & E2 & Hok).
  exists it0. split; [done|]. unfold load_block. by rewrite E1, E2.
Qed.

(** Loading a block and going to one of its entries. *)
Lemma load_cursor t bss it i j base xs x go :
  table_repr t bss -> bss !! i = Some (base, xs) -> xs !! j = Some x ->
  (forall b0, bi_ok base xs b0 -> go b0 = setIdx b0 (Z.of_nat j)) ->
  exists it', load_block t it (Z.of_nat i) go = Some it' /\
    cursor bss it' (length (flat (take i bss)) + j).
Proof.
  intros Ht Hi Hj Hgo. destruct (load_block_ok t bss it i base xs go Ht Hi) as (b0 & Hb0 & ->).
  destruct (tr_block t bss Ht i base xs Hi) as (Hxs & _). destruct x as [ov [k v]].
  destruct (setIdx_in base xs b0 j ov k v Hxs Hb0 Hj) as (b1 & E & Hb1 & H1 & H2 & H3 & H4).
  rewrite Hgo, E by done. cbn [mbind option_bind]. unfold bi_Error. rewrite H2.
  eexists. split; [done|]. split; [|done|done].
  exists i, j, base, xs, ov, k, v. split_and!; done.
Qed.

Lemma xs_nonempty base xs : xs_ok base xs -> (0 < length xs)%nat.
Proof. intros (_ & v & rest & ->). simpl. lia. Qed.

Lemma table_first t bss it :
  table_repr t bss -> exists it', it_seekToFirst t it = Some it' /\ cursor bss it' 0.
Proof.
  intros Ht. unfold it_seekToFirst. rewrite (offsetsLength_repr t bss Ht).
  destruct bss as [|[base xs] bss'] eqn:Eb; [by destruct Ht|].
  rewrite bool_decide_eq_false_2 by done.
  destruct (tr_block _ _ Ht 0%nat base xs eq_refl) as (Hxs & _).
  destruct (lookup_lt_is_Some_2 xs 0 (xs_nonempty _ _ Hxs)) as [x Hx].
  destruct (load_cursor t _ it 0 0 base xs x bi_seekToFirst Ht eq_refl Hx) as (it' & E & Hc);
    [done|]. by exists it'.
Qed.

(** Loading the last entry of a block. *)
Lemma load_last t bss it i base xs :
  table_repr t bss -> bss !! i = Some (base, xs) ->
  exists it', load_block t it (Z.of_nat i) bi_seekToLast = Some it' /\
    cursor bss it' (length (flat (take (S i) bss)) - 1).
Proof.
  intros Ht Hi. destruct (tr_block _ _ Ht i base xs Hi) as (Hxs & _).
  pose proof (xs_nonempty _ _ Hxs) as Hn.
  destruct (lookup_lt_is_Some_2 xs (length xs - 1)%nat) as [x Hx]; [lia|].
  destruct (load_cursor t bss it i _ base xs x bi_seekToLast Ht Hi Hx) as (it' & E & Hc).
  - intros b0 Hb0. unfold bi_seekToLast. f_equal. unfold len.
    rewrite (bo_offsets _ _ _ Hb0), offs_length, length_fmap. lia.
  - exists it'. split; [done|]. rewrite (flat_take_S _ _ _ _ Hi).
    by replace (length (flat (take i bss)) + length xs - 1)%nat
      with (length (flat (take i bss)) + (length xs - 1))%nat by lia.
Qed.

Lemma table_last t bss it :
  table_repr t bss ->
  exists it', it_seekToLast t it = Some it' /\ cursor bss it' (length (flat bss) - 1).
Proof.
  intros Ht. unfold it_seekToLast. rewrite (offsetsLength_repr t bss Ht).
  pose proof (tr_nonempty _ _ Ht) as Hne.
  assert (0 < length bss)%nat as Hpos by (destruct bss; [done|simpl; lia]).
  rewrite bool_decide_eq_false_2 by lia.
  destruct (lookup_lt_is_Some_2 bss (length bss - 1)%nat) as [[base xs] Hl]; [lia|].
  destruct (load_last t bss it _ base xs Ht Hl) as (it' & E & Hc). exists it'.
  replace (Z.of_nat (length bss) - 1) with (Z.of_nat (length bss - 1)) by lia. split; [done|].
  replace (S (length bss - 1)) with (length bss) in Hc by lia. by rewrite take_ge in Hc.
Qed.

(** A block's data is not empty. *)
Lemma bi_data_nonempty base xs b : xs_ok base xs -> bi_ok base xs b -> len (idata b) <> 0.
Proof.
  intros (Hall & v & rest & ->) [Hd _ _ _ _ _]. rewrite Hd, fmap_cons. cbn [concat]. rewrite len_app.
  apply Forall_cons in Hall as [He _]. apply enc_entry_size in He.
  pose proof (len_nonneg (concat (enc_entry <$> rest))). lia.
Qed.

Lemma bi_ok_setIdx_out base xs b i :
  bi_ok base xs b -> (i < 0 \/ len xs <= i) -> exists b', setIdx b i = Some b' /\ bi_Valid b' = false.
Proof.
  intros Hb Hi. destruct (setIdx_out base xs b i Hb Hi) as [E _]. exists (bi_eof b i). done.
Qed.

Lemma table_next t bss it p :
  table_repr t bss -> cursor bss it p ->
  exists it', it_next t it = Some it' /\
    if decide (S p < length (flat bss))%nat then cursor bss it' (S p) else it_err it' = EOF.
Proof.
  intros Ht [(i & j & base & xs & ov & k & v & Hi & Hj & -> & Hbp & Hb & Hix & Hk & Hv) He Hf].
  pose proof (lookup_lt_Some _ _ _ Hi) as Hlt. pose proof (lookup_lt_Some _ _ _ Hj) as Hjl.
  destruct (tr_block _ _ Ht i base xs Hi) as (Hxs & _).
  unfold it_next. rewrite (offsetsLength_repr t bss Ht), Hbp.
  rewrite bool_decide_eq_false_2 by lia.
  rewrite (bool_decide_eq_false_2 (len (idata _) = 0)) by (by eapply bi_data_nonempty).
  unfold bi_next. rewrite Hix. pose proof (flat_take_S _ _ _ _ Hi) as ES.
  assert (length (flat (take (S i) bss)) <= length (flat bss))%nat as Hle.
  { rewrite <- (take_drop (S i) bss) at 2. unfold flat. rewrite fmap_app, concat_app, length_app. lia. }
  destruct (decide (S j < length xs)%nat) as [Hj'|Hj'].
  - destruct (lookup_lt_is_Some_2 xs (S j) Hj') as [[ov' [k' v']] Hx'].
    destruct (setIdx_in base xs (bi it) (S j) ov' k' v' Hxs Hb Hx') as (b1 & E & Hb1 & H1 & H2 & H3 & H4).
    replace (Z.of_nat j + 1) with (Z.of_nat (S j)) by lia. rewrite E. cbn [mbind option_bind].
    unfold bi_Valid. rewrite H2. cbn [negb]. eexists. split; [done|].
    rewrite decide_True by lia. split; [|done|done].
    exists i, (S j), base, xs, ov', k', v'. split_and!; done || lia.
  - destruct (bi_ok_setIdx_out base xs (bi it) (Z.of_nat j + 1) Hb) as (b1 & E & Hv1); [unfold len; lia|].
    rewrite E. cbn [mbind option_bind]. rewrite Hv1. unfold next_load. cbn [bpos].
    rewrite (offsetsLength_repr t bss Ht). destruct (decide (S i < length bss)%nat) as [Hi'|Hi'].
    + rewrite bool_decide_eq_false_2 by lia.
      destruct (lookup_lt_is_Some_2 bss (S i) Hi') as [[base' xs'] Hb'].
      destruct (tr_block _ _ Ht (S i) base' xs' Hb') as (Hxs' & _).
      destruct (lookup_lt_is_Some_2 xs' 0 (xs_nonempty _ _ Hxs')) as [x' Hx'].
      replace (Z.of_nat i + 1) with (Z.of_nat (S i)) by lia.
      destruct (load_cursor t bss (mkTI' (Z.of_nat (S i)) (drop_data b1) NoErr) (S i) 0 base' xs' x'
        bi_seekToFirst Ht Hb' Hx') as (it' & E' & Hc); [done|].
      exists it'. split; [done|].
      pose proof (flat_take_S _ _ _ _ Hb') as ES'. pose proof (xs_nonempty _ _ Hxs').
      assert (length (flat (take (S (S i)) bss)) <= length (flat bss))%nat as Hle'.
      { rewrite <- (take_drop (S (S i)) bss) at 2. unfold flat. rewrite fmap_app, concat_app, length_app. lia. }
      rewrite decide_True by lia.
      by replace (S (length (flat (take i bss)) + j))%nat with (length (flat (take (S i) bss)) + 0)%nat by lia.
    + rewrite bool_decide_eq_true_2 by lia. eexists. split; [done|].
      rewrite take_ge in ES by lia. rewrite decide_False by lia. done.
Qed.

Lemma table_prev t bss it p :
  table_repr t bss -> cursor bss it p ->
  exists it', it_prev t it = Some it' /\
    match p with S p' => cursor bss it' p' | O => it_err it' = EOF end.
Proof.
  intros Ht [(i & j & base & xs & ov & k & v & Hi & Hj & -> & Hbp & Hb & Hix & Hk & Hv) He Hf].
  destruct (tr_block _ _ Ht i base xs Hi) as (Hxs & _).
  unfold it_prev. rewrite Hbp, bool_decide_eq_false_2 by lia.
  rewrite (bool_decide_eq_false_2 (len (idata _) = 0)) by (by eapply bi_data_nonempty).
  unfold bi_prev. rewrite Hix. destruct j as [|j].
  - destruct (bi_ok_setIdx_out base xs (bi it) (Z.of_nat 0 - 1) Hb) as (b1 & E & Hv1); [lia|].
    rewrite E. cbn [mbind option_bind]. rewrite Hv1. unfold prev_load. cbn [bpos].
    rewrite Nat.add_0_r. destruct i as [|i].
    + rewrite bool_decide_eq_true_2 by lia. eexists. split; [done|]. done.
    + rewrite bool_decide_eq_false_2 by lia.
      destruct (lookup_lt_is_Some_2 bss i) as [[base' xs'] Hb'].
      { apply lookup_lt_Some in Hi. lia. }
      replace (Z.of_nat (S i) - 1) with (Z.of_nat i) by lia.
      destruct (load_last t bss (mkTI' (Z.of_nat i) (drop_data b1) NoErr) i base' xs' Ht Hb') as (it' & E' & Hc).
      exists it'. split; [done|]. rewrite (flat_take_S _ _ _ _ Hb') in *.
      pose proof (xs_nonempty _ _ (proj1 (tr_block _ _ Ht i base' xs' Hb'))).
      destruct (length (flat (take i bss)) + length xs')%nat as [|n] eqn:En; [lia|].
      by replace (S n - 1)%nat with n in Hc by lia.
  - destruct (lookup_lt_is_Some_2 xs j) as [[ov' [k' v']] Hx'].
    { apply lookup_lt_Some in Hj. lia. }
    destruct (setIdx_in base xs (bi it) j ov' k' v' Hxs Hb Hx') as (b1 & E & Hb1 & H1 & H2 & H3 & H4).
    replace (Z.of_nat (S j) - 1) with (Z.of_nat j) by lia. rewrite E. cbn [mbind option_bind].
    unfold bi_Valid. rewrite H2. cbn [negb]. eexists. split; [done|].
    rewrite Nat.add_succ_r. split; [|done|done].
    exists i, j, base, xs, ov', k', v'. split_and!; done.
Qed.

(** *** Seeking *)

(** The iterator has run off the end of block [i]; its key is still that of an entry it passed. *)
Record past_block (i : nat) (base : bytes) (xs : list entry) (it : tIterator) : Prop := {
  pb_err : it_err it = EOF;
  pb_pos : bpos it = Z.of_nat i;
  pb_bi : bi_ok base xs (bi it);
  pb_idx : idx (bi it) = Z.of_nat (length xs)
}.

Definition past_end (bss : blocks) (it : tIterator) : Prop :=
  exists i base xs, length bss = S i /\ bss !! i = Some (base, xs) /\ past_block i base xs it.

Lemma past_prev t bss it :
  table_repr t bss -> past_end bss it ->
  exists it', it_prev t it = Some it' /\ cursor bss it' (length (flat bss) - 1).
Proof.
  intros Ht (i & base & xs & Hl & Hi & [_ Hbp Hb Hix]).
  destruct (tr_block _ _ Ht i base xs Hi) as (Hxs & _). pose proof (xs_nonempty _ _ Hxs) as Hn.
  unfold it_prev. rewrite Hbp, bool_decide_eq_false_2 by lia.
  rewrite (bool_decide_eq_false_2 (len (idata _) = 0)) by (by eapply bi_data_nonempty).
  unfold bi_prev. rewrite Hix.
  destruct (lookup_lt_is_Some_2 xs (length xs - 1)%nat) as [[ov [k v]] Hx]; [lia|].
  destruct (setIdx_in base xs (bi it) (length xs - 1) ov k v Hxs Hb Hx) as (b1 & E & Hb1 & H1 & H2 & H3 & H4).
  replace (Z.of_nat (length xs) - 1) with (Z.of_nat (length xs - 1)) by lia. rewrite E. cbn [mbind option_bind].
  unfold bi_Valid. rewrite H2. cbn [negb]. eexists. split; [done|]. split; [|done|done].
  exists i, (length xs - 1)%nat, base, xs, ov, k, v. split_and!; try done.
  pose proof (flat_take_S _ _ _ _ Hi) as E2. rewrite <- Hl, take_ge in E2 by done. lia.
Qed.

Lemma past_key bss it key : past_end bss it -> has_ts key ->
  (forall x, x ∈ flat bss -> compareKeys x.1 key = Lt) -> it_Key it <> key.
Proof.
  intros (i & base & xs & _ & Hi & [_ _ Hb _]) Hk Hlt E. unfold it_Key in E.
  destruct (bo_shown _ _ _ Hb) as [E'|(x & Hx & E')]; rewrite E' in E.
  - subst key. unfold has_ts, len in Hk. simpl in Hk. lia.
  - apply list_elem_of_lookup in Hx as [j Hj]. destruct x as [ov x]. cbn in E.
    pose proof (Hlt x (list_elem_of_lookup_2 _ _ _ (flat_lookup bss i j base xs ov x Hi Hj))) as H.
    by rewrite E, (cmp_refl compareKeys) in H.
Qed.

Definition kvs_sorted (l : list kv) : Prop := StronglySorted (fun x y => compareKeys x.1 y.1 = Lt) l.

Lemma flat_length_le bss i : (length (flat (take i bss)) <= length (flat bss))%nat.
Proof.
  rewrite <- (take_drop i bss) at 2. unfold flat. rewrite fmap_app, concat_app, length_app. lia.
Qed.

Lemma block_sorted bss i base xs :
  kvs_sorted (flat bss) -> bss !! i = Some (base, xs) -> xs_sorted xs.
Proof.
  intros Hs Hi. unfold kvs_sorted, flat in Hs. rewrite <- (take_drop_middle bss i _ Hi) in Hs.
  rewrite fmap_app, fmap_cons, concat_app in Hs. cbn [concat snd] in Hs.
  apply StronglySorted_app in Hs as (_ & _ & Hs). apply StronglySorted_app in Hs as (_ & Hs & _).
  unfold xs_sorted. clear -Hs. induction xs as [|x xs IH]; [constructor|].
  rewrite fmap_cons in Hs. apply StronglySorted_cons in Hs as [Ha Hs]. constructor; [by apply IH|].
  by rewrite Forall_fmap in Ha.
Qed.

(** The base key of a block is its first key. *)
Lemma block_base bss t i base xs :
  table_repr t bss -> bss !! i = Some (base, xs) ->
  exists v, flat bss !! length (flat (take i bss)) = Some (base, v) /\ has_ts base.
Proof.
  intros Ht Hi. destruct (tr_block _ _ Ht i base xs Hi) as ((Hall & v & rest & ->) & _).
  exists v. split.
  - rewrite <- (Nat.add_0_r (length _)). by apply (flat_lookup bss i 0 base ((0, (base, v)) :: rest) 0 (base, v)).
  - apply Forall_cons in Hall as [((Hk & _) & _) _]. unfold has_ts. cbn in Hk. lia.
Qed.

Lemma seek_block t bss it i base xs key :
  table_repr t bss -> kvs_sorted (flat bss) -> bss !! i = Some (base, xs) -> has_ts key ->
  exists it' r, seekHelper t it (Z.of_nat i) key = Some it' /\ (r <= length xs)%nat /\
    (forall h x, (h < r)%nat -> xs !! h = Some x -> compareKeys x.2.1 key = Lt) /\
    match xs !! r with
    | Some x => compareKeys x.2.1 key <> Lt /\ cursor bss it' (length (flat (take i bss)) + r)
    | None => past_block i base xs it'
    end.
Proof.
  intros Ht Hs Hi Hkey. destruct (tr_block _ _ Ht i base xs Hi) as (Hxs & _).
  unfold seekHelper.
  destruct (load_block_ok t bss it i base xs (fun b => bi_seek b key origin) Ht Hi) as (b0 & Hb0 & ->).
  destruct (bi_seek_spec base xs b0 key origin Hxs (block_sorted _ _ _ _ Hs Hi) Hb0 Hkey)
    as (b1 & r & -> & Hb1 & Hix & Hr & Hlo & Hhi & Hm).
  cbn [mbind option_bind]. eexists _, r. split; [done|]. split; [done|].
  assert (forall h, seek_pred xs 0 key h
    = match xs !! h with Some x => bool_decide (compareKeys x.2.1 key <> Lt) | None => true end) as Hp.
  { intros h. unfold seek_pred. by rewrite bool_decide_eq_false_2 by lia. }
  split.
  - intros h x Hh Hx. specialize (Hlo h Hh). rewrite Hp, Hx in Hlo.
    apply bool_decide_eq_false in Hlo. by apply dec_stable.
  - destruct (xs !! r) as [[ov [k v]]|] eqn:Ex.
    + destruct Hm as (He & Hk & Hv). split.
      * apply lookup_lt_Some in Ex as Hlt. specialize (Hhi r ltac:(lia)). rewrite Hp, Ex in Hhi.
        by apply bool_decide_eq_true in Hhi.
      * split; cbn; [|by unfold bi_Error; rewrite He|done].
        exists i, r, base, xs, ov, k, v. split_and!; done.
    + cbn. apply lookup_ge_None in Ex. assert (r = length xs) as -> by lia.
      split; cbn; try done. unfold bi_Error. by rewrite Hm.
Qed.

Lemma past_invalid bss it : past_end bss it -> it_Valid it = false.
Proof. intros (i & base & xs & _ & _ & [He _ _ _]). unfold it_Valid. by rewrite He. Qed.

(** The binary search over the base keys. *)
Lemma offset_search t bss key :
  table_repr t bss -> kvs_sorted (flat bss) -> has_ts key ->
  exists r, sort_SearchM (length (ti_offsets (tf_index t))) (offset_probe t key) (Some tt) = (r, Some tt) /\
    (r <= length bss)%nat /\
    (forall h base xs, (h < r)%nat -> bss !! h = Some (base, xs) -> compareKeys base key <> Gt) /\
    (forall base xs, bss !! r = Some (base, xs) -> compareKeys base key = Gt).
Proof.
  intros Ht Hs Hkey. rewrite (tr_len _ _ Ht).
  set (p := fun h => match bss !! h with Some (base, _) => bool_decide (compareKeys base key = Gt)
                                       | None => true end).
  pose proof (sort_SearchM_spec (length bss) (offset_probe t key) p (fun s => s = Some tt)) as HS.
  destruct (sort_SearchM (length bss) (offset_probe t key) (Some tt)) as [r s] eqn:Er.
  assert (forall h s, (h < length bss)%nat -> s = Some tt ->
    (offset_probe t key h s).1 = p h /\ (offset_probe t key h s).2 = Some tt) as Hf.
  { intros h s0 Hh ->. destruct (lookup_lt_is_Some_2 bss h Hh) as [[base xs] Hb].
    destruct (tr_block _ _ Ht h base xs Hb) as (_ & (bo & Ebo & Ek) & _).
    destruct (block_base bss t h base xs Ht Hb) as (_ & _ & Hts).
    unfold offset_probe, p. rewrite Ebo, Hb. cbn [mbind option_bind].
    by rewrite Ek, CompareKeys_total. }
  assert (forall i j, (i <= j < length bss)%nat -> p i = true -> p j = true) as Hmono.
  { intros i j Hij. unfold p.
    destruct (lookup_lt_is_Some_2 bss i ltac:(lia)) as [[bi' xi] Hi].
    destruct (lookup_lt_is_Some_2 bss j ltac:(lia)) as [[bj xj] Hj]. rewrite Hi, Hj.
    rewrite !bool_decide_eq_true, !(cmp_gt_lt compareKeys). intros Hlt.
    destruct (decide (i = j)) as [->|Hne]; [congruence|].
    destruct (block_base bss t i bi' xi Ht Hi) as (vi & Ei & _).
    destruct (block_base bss t j bj xj Ht Hj) as (vj & Ej & _).
    apply (cmp_trans compareKeys _ _ _ Hlt).
    apply (StronglySorted_lookup _ _ _ _ _ _ Hs Ei Ej).
    pose proof (flat_take_S bss i bi' xi Hi) as E1.
    pose proof (xs_nonempty _ _ (proj1 (tr_block _ _ Ht i bi' xi Hi))).
    pose proof (flat_length_le (take j bss) (S i)) as Hle. rewrite take_take in Hle.
    replace (S i `min` j)%nat with (S i) in Hle by lia. lia. }
  specialize (HS Hf Hmono (Some tt) eq_refl). rewrite Er in HS.
  destruct HS as (-> & Hr & Hlo & Hhi). exists r. split_and!; try done.
  - intros h base xs Hh Hb. specialize (Hlo h Hh). unfold p in Hlo. rewrite Hb in Hlo.
    by apply bool_decide_eq_false in Hlo.
  - intros base xs Hb. apply lookup_lt_Some in Hb as Hlt. specialize (Hhi r ltac:(lia)).
    unfold p in Hhi. rewrite Hb in Hhi. by apply bool_decide_eq_true in Hhi.
Qed.

(** Keys before a block whose base is not above [key] are below [key]. *)
Lemma before_block t bss i base xs key q x :
  table_repr t bss -> kvs_sorted (flat bss) -> bss !! i = Some (base, xs) ->
  compareKeys base key <> Gt -> (q < length (flat (take i bss)))%nat -> flat bss !! q = Some x ->
  compareKeys x.1 key = Lt.
Proof.
  intros Ht Hs Hi Hle Hq Hx. destruct (block_base bss t i base xs Ht Hi) as (v & Eb & _).
  apply (cmp_lt_le_trans compareKeys _ base); [|done].
  exact (StronglySorted_lookup _ _ _ _ _ _ Hs Hx Eb Hq).
Qed.

(** Where an entry of the flat list is, once past the blocks before [i]. *)
Lemma in_block bss i base xs q x :
  bss !! i = Some (base, xs) -> (length (flat (take i bss)) <= q)%nat ->
  (q < length (flat (take (S i) bss)))%nat -> flat bss !! q = Some x ->
  exists ov, xs !! (q - length (flat (take i bss)))%nat = Some (ov, x).
Proof.
  intros Hi Hlo Hhi Hx. rewrite (flat_take_S _ _ _ _ Hi) in Hhi.
  destruct (lookup_lt_is_Some_2 xs (q - length (flat (take i bss)))%nat) as [[ov y] Hy]; [lia|].
  pose proof (flat_lookup bss i _ base xs ov y Hi Hy) as E.
  replace (length (flat (take i bss)) + (q - length (flat (take i bss))))%nat with q in E by lia.
  exists ov. congruence.
Qed.

Lemma table_seek t bss it key :
  table_repr t bss -> kvs_sorted (flat bss) -> has_ts key ->
  exists it' r, it_seek t it key = Some it' /\ (r <= length (flat bss))%nat /\
    (forall q x, (q < r)%nat -> flat bss !! q = Some x -> compareKeys x.1 key = Lt) /\
    match flat bss !! r with
    | Some x => compareKeys x.1 key <> Lt /\ cursor bss it' r
    | None => past_end bss it'
    end.
Proof.
  intros Ht Hs Hkey. unfold it_seek, seekFrom.
  destruct (offset_search t bss key Ht Hs Hkey) as (r & -> & Hr & Hlo & Hhi).
  cbn [mbind option_bind]. set (it0 := mkTI' _ _ _).
  (* a block whose base is above the key answers with its first entry *)
  assert (forall it1 base xs, bss !! r = Some (base, xs) ->
    (forall q x, (q < length (flat (take r bss)))%nat -> flat bss !! q = Some x -> compareKeys x.1 key = Lt) ->
    exists it' p, seekHelper t it1 (Z.of_nat r) key = Some it' /\ (p <= length (flat bss))%nat /\
      (forall q x, (q < p)%nat -> flat bss !! q = Some x -> compareKeys x.1 key = Lt) /\
      match flat bss !! p with
      | Some x => compareKeys x.1 key <> Lt /\ cursor bss it' p
      | None => past_end bss it'
      end) as Hfirst.
  { intros it1 base xs Hb Hbefore. pose proof (Hhi base xs Hb) as Hgt.
    destruct (block_base bss t r base xs Ht Hb) as (v & Eb & _).
    destruct (seek_block t bss it1 r base xs key Ht Hs Hb Hkey) as (it' & p & E & Hp & Hlt & Hm).
    destruct (tr_block _ _ Ht r base xs Hb) as ((_ & v0 & rest & Ex) & _).
    assert (p = 0%nat) as ->.
    { destruct p as [|p]; [done|exfalso]. specialize (Hlt 0%nat (0, (base, v0)) ltac:(lia)).
      rewrite Ex in Hlt. specialize (Hlt eq_refl). cbn in Hlt. congruence. }
    rewrite Ex in Hm. cbn in Hm. destruct Hm as [_ Hc]. rewrite Nat.add_0_r in Hc.
    exists it', (length (flat (take r bss))). rewrite Eb. split_and!; try done.
    - apply flat_length_le.
    - cbn. congruence. }
  case_bool_decide as Hz.
  - subst r. destruct bss as [|[base xs] bss'] eqn:Eb; [by destruct Ht|]. rewrite <- Eb in *.
    apply (Hfirst it0 base xs); [by rewrite Eb|]. intros q x Hq. unfold flat in Hq. simpl in Hq. lia.
  - destruct (lookup_lt_is_Some_2 bss (r - 1)%nat) as [[base xs] Hb]; [lia|].
    replace (Z.of_nat r - 1) with (Z.of_nat (r - 1)) by lia.
    destruct (seek_block t bss it0 (r - 1) base xs key Ht Hs Hb Hkey) as (it1 & p & E & Hp & Hlt & Hm).
    rewrite E. cbn [mbind option_bind].
    pose proof (Hlo (r - 1)%nat base xs ltac:(lia) Hb) as Hle.
    pose proof (flat_take_S _ _ _ _ Hb) as ES. replace (S (r - 1)) with r in ES by lia.
    assert (forall q x, (q < length (flat (take (r - 1) bss)) + p)%nat -> flat bss !! q = Some x ->
      compareKeys x.1 key = Lt) as Hbefore.
    { intros q x Hq Hx. destruct (decide (q < length (flat (take (r - 1) bss)))%nat) as [Hq'|Hq'].
      - by eapply before_block.
      - destruct (in_block bss (r - 1) base xs q x Hb) as [ov Hov]; [lia| |done|].
        + replace (S (r - 1)) with r by lia. lia.
        + by apply (Hlt (q - length (flat (take (r - 1) bss)))%nat (ov, x)); [lia|]. }
    destruct (xs !! p) as [[ov x]|] eqn:Ex.
    + destruct Hm as [Hge Hc]. rewrite (cu_err _ _ _ Hc). exists it1, (length (flat (take (r - 1) bss)) + p)%nat.
      rewrite (flat_lookup bss _ _ base xs ov x Hb Ex). split_and!; try done.
      apply lookup_lt_Some in Ex. pose proof (flat_length_le bss r). lia.
    + rewrite (pb_err _ _ _ _ Hm). rewrite (offsetsLength_repr t bss Ht). apply lookup_ge_None in Ex.
      assert (p = length xs) as -> by lia. rewrite <- ES in Hbefore.
      case_bool_decide as Hend.
      * assert (r = length bss) as -> by lia. rewrite take_ge in Hbefore by done.
        exists it1, (length (flat bss)). split_and!; try done.
        rewrite lookup_ge_None_2 by done.
        exists (length bss - 1)%nat, base, xs. split_and!; try done. lia.
      * destruct (lookup_lt_is_Some_2 bss r) as [[base' xs'] Hb']; [lia|].
        by apply (Hfirst it1 base' xs').
Qed.
End TableRepr.

(** ** From a builder to an open table *)

Section Opening.
Context `{C : ChecksumCodec} `{!ChecksumCodecLaws C} `{I : IndexCodec} `{!IndexCodecLaws I}.

Definition all_data (l : list bblock) : bytes := concat (bdata <$> l).

Lemma writeBlockOffsets_spec l :
  len (all_data l) < 2 ^ 32 ->
  (writeBlockOffsets l).2 = len (all_data l) /\
  length (writeBlockOffsets l).1 = length l /\
  forall i bb, l !! i = Some bb ->
    (writeBlockOffsets l).1 !! i
    = Some (mkBO (bbaseKey bb) (len (all_data (take i l))) (len (bdata bb))).
Proof.
  unfold writeBlockOffsets. induction l as [|bb l IH] using rev_ind; intros Hlt; [done|].
  assert (all_data (l ++ [bb]) = all_data l ++ bdata bb) as Ed.
  { unfold all_data. rewrite fmap_app, concat_app. cbn. by rewrite app_nil_r. }
  rewrite Ed, len_app in *. pose proof (len_nonneg (bdata bb)). pose proof (len_nonneg (all_data l)).
  destruct IH as (I1 & I2 & I3); [lia|]. rewrite foldl_app.
  destruct (foldl _ _ l) as [os start] eqn:E. cbn [fst snd foldl] in *. subst start.
  rewrite (wrap_small 32 (len (bdata bb))) by lia. split_and!.
  - apply wrap_small. lia.
  - rewrite !length_app. simpl. lia.
  - intros i bb' Hi. destruct (decide (i < length l)%nat) as [Hil|Hil].
    + rewrite lookup_app_l in Hi by done. rewrite lookup_app_l by lia.
      rewrite take_app_le by lia. by apply I3.
    + rewrite lookup_app_r in Hi by lia. rewrite lookup_app_r by lia.
      apply list_lookup_singleton_Some in Hi as [Hz <-]. replace i with (length l) by lia.
      rewrite I2, Nat.sub_diag. cbn. by rewrite take_app_length.
Qed.

Definition filter_of (b : Builder) (bits : option Z) (f : bytes) : Prop :=
  match bits with Some n => NewFilter (keyHashes b) n = Some f | None => f = [] end.

(** What the builder's size counters must allow for [Finish] to succeed. *)
Record finish_ok (b : Builder) (bits : option Z) : Prop := {
  fo_data : len (all_data (blockList (finishBlock b))) < 2 ^ 32;
  fo_disk : u32 (onDiskSize b + len (all_data (blockList (finishBlock b)))) <> 0;
  fo_filter : forall n, bits = Some n -> is_Some (NewFilter (keyHashes b) n);
  fo_index : forall f index n, filter_of b bits f ->
    buildIndex (finishBlock b) f = Some (index, n) -> len index < 2 ^ 32
}.

(** The blocks of a finished builder. *)
Lemma finishBlock_repr b kvs :
  builder_repr b kvs -> kvs <> [] ->
  exists bss, Forall2 (fun bb p => finished bb p.2 /\ bbaseKey bb = p.1) (blockList (finishBlock b)) bss /\
    flat bss = kvs /\ bss <> [] /\ onDiskSize (finishBlock b) = onDiskSize b /\
    keyHashes (finishBlock b) = keyHashes b /\ maxVersion (finishBlock b) = maxVersion b /\
    0 <= uncompressedSize (finishBlock b) < 2 ^ 32.
Proof.
  intros [(xss & cur & Hf & Hc & Hk & Hne) Hroom Hh Hu Hm] Hkvs. specialize (Hne Hkvs).
  unfold finishBlock. rewrite (bool_decide_eq_false_2 (len (bentryOffsets (curBlock b)) = 0)).
  2: { destruct Hc as [_ -> _ _ _]. unfold len. rewrite offs_length, length_fmap. destruct cur; simpl; [done|lia]. }
  cbn [blockList onDiskSize keyHashes maxVersion uncompressedSize].
  set (bbs := blockList b ++ [finish_bblock (curBlock b)]).
  assert (Forall2 finished bbs (xss ++ [cur])) as HF.
  { apply Forall2_app; [done|]. constructor; [|constructor]. by exists (curBlock b). }
  exists (zip (bbaseKey <$> bbs) (xss ++ [cur])). split_and!; try done.
  - clear -HF. induction HF; [constructor|]. by constructor.
  - assert (flat (zip (bbaseKey <$> bbs) (xss ++ [cur]))
      = concat ((fun xs : list entry => xs.*2) <$> (xss ++ [cur]))) as ->.
    { clear -HF. induction HF as [|? ? ? ? _ _ IH]; [done|].
      unfold flat in *. cbn. by rewrite <- IH. }
    rewrite fmap_app, concat_app. cbn. by rewrite app_nil_r, Hk.
  - intros Ez. apply (f_equal length) in Ez. rewrite length_zip_with, length_fmap in Ez.
    apply Forall2_length in HF. rewrite HF, length_app in Ez. simpl in Ez. lia.
  - apply wrap_range. lia.
  - apply wrap_range. lia.
Qed.

(** Reading the index back from the end of the file. *)
Lemma initIndex_file D idx i :
  len idx < 2 ^ 32 -> fb_root idx = Some i -> ti_offsets i <> [] ->
  initIndex (D ++ idx ++ U32ToBytes (u32 (len idx)) ++ calculateChecksum idx
             ++ U32ToBytes (u32 (len (calculateChecksum idx)))) = Ok i.
Proof.
  intros Hidx Hroot Hne. set (cs := calculateChecksum idx).
  assert (0 <= len cs < 2 ^ 32) as Hcs.
  { split; [apply len_nonneg|]. unfold cs, calculateChecksum.
    pose proof (Checksum_short (mkChecksum Checksum_CRC32C (crc32c idx))). cbn [CalculateChecksum]. lia. }
  rewrite !(wrap_small 32) by (pose proof (len_nonneg idx); lia).
  set (L := U32ToBytes (len idx)). set (K := U32ToBytes (len cs)).
  assert (len L = 4 /\ len K = 4) as [EL EK] by (split; apply U32ToBytes_len).
  assert (BytesToU32 L = Some (len idx) /\ BytesToU32 K = Some (len cs)) as [BL BK].
  { split; apply BytesToU32_U32ToBytes; [pose proof (len_nonneg idx); lia|lia]. }
  clearbody L K. unfold initIndex. rewrite !len_app, EL, EK.
  set (T := len D + (len idx + (4 + (len cs + 4)))) in *.
  rewrite (slice_at (D ++ idx ++ L ++ cs) K [] _ (T - 4)) by (rewrite ?app_nil_r, <- ?app_assoc, ?len_app, ?EL; done || unfold T; lia).
  cbn [unpanic mbind result_bind]. rewrite BK.
  cbn [unpanic mbind result_bind].
  rewrite (slice_at (D ++ idx ++ L) cs K _ (T - 4 - len cs)) by (rewrite <- ?app_assoc, ?len_app, ?EL; done || unfold T; lia).
  cbn [unpanic mbind result_bind].
  destruct (calculateChecksum_verifies idx) as (ck & E1 & E2). fold cs in E1. rewrite E1.
  rewrite (slice_at (D ++ idx) L (cs ++ K) _ (T - 4 - len cs - 4)) by (rewrite <- ?app_assoc, ?len_app, ?EL; done || unfold T; lia).
  cbn [unpanic mbind result_bind]. rewrite BL.
  cbn [unpanic mbind result_bind].
  rewrite (slice_at D idx (L ++ cs ++ K) _ (T - 4 - len cs - 4 - len idx)) by (rewrite <- ?app_assoc, ?len_app, ?EL; done || unfold T; lia).
  cbn [unpanic mbind result_bind]. rewrite E2, Hroot. cbn [unpanic mbind result_bind].
  by rewrite bool_decide_eq_false_2.
Qed.

(** The index of a finished builder. *)
Lemma buildIndex_spec b kvs bits bloom bss :
  finish_ok b bits -> builder_repr b kvs ->
  Forall2 (fun bb p => finished bb p.2 /\ bbaseKey bb = p.1) (blockList (finishBlock b)) bss ->
  onDiskSize (finishBlock b) = onDiskSize b -> maxVersion (finishBlock b) = maxVersion b ->
  0 <= uncompressedSize (finishBlock b) < 2 ^ 32 ->
  exists index i, buildIndex (finishBlock b) bloom = Some (index, len (all_data (blockList (finishBlock b)))) /\
    fb_root index = Some i /\ ti_bloom i = bloom /\ ti_maxVersion i = maxVersion b /\
    ti_offsets i = (writeBlockOffsets (blockList (finishBlock b))).1.
Proof.
  intros [H1 H2 _ _] Hr HF Hod Hmx Hu. unfold buildIndex.
  destruct (writeBlockOffsets_spec _ H1) as (E1 & E2 & E3).
  destruct (writeBlockOffsets (blockList (finishBlock b))) as [bo sz] eqn:Ew. cbn [fst snd] in *. subst sz.
  set (i0 := mkTI _ _ _ _ _ _ _).
  assert (ti_wf i0) as Hwf.
  { unfold ti_wf, i0. cbn. split_and!; try (apply wrap_range; lia); try done.
    - apply Forall_lookup. intros j o Hj. apply lookup_lt_Some in Hj as Hlt. rewrite E2 in Hlt.
      destruct (lookup_lt_is_Some_2 _ _ Hlt) as [bb Hbb]. rewrite (E3 j bb Hbb) in Hj. simplify_eq. cbn.
      destruct (Forall2_lookup_l _ _ _ _ _ HF Hbb) as ([base xs] & _ & (c & -> & Hc & Hxne & _) & _).
      split_and!; try apply len_nonneg.
      + destruct Hc as [_ _ Hok Hb _]. destruct xs as [|x xs]; [done|]. destruct Hb as [_ Hb]. cbn in *.
        rewrite <- Hb. apply Forall_cons in Hok as [((Hk & _) & _) _]. unfold maxBlockKey in Hk. lia.
      + assert (all_data (blockList (finishBlock b))
          = all_data (take j (blockList (finishBlock b))) ++ all_data (drop j (blockList (finishBlock b)))) as Ea.
        { unfold all_data. by rewrite <- concat_app, <- fmap_app, take_drop. }
        rewrite Ea, len_app in H1. pose proof (len_nonneg (all_data (drop j (blockList (finishBlock b))))). lia.
      + rewrite <- (take_drop_middle _ _ _ Hbb) in H1. unfold all_data in H1.
        rewrite fmap_app, concat_app in H1. cbn [fmap list_fmap concat] in H1. rewrite !len_app in H1.
        pose proof (len_nonneg (concat (bdata <$> take j (blockList (finishBlock b))))).
        pose proof (len_nonneg (concat (bdata <$> drop (S j) (blockList (finishBlock b))))). lia.
    - rewrite Hmx, (bd_max b kvs Hr). clear. induction kvs as [|e kvs IH]; cbn; [lia|].
      pose proof (ParseTs_range e.1). lia.
    - rewrite Hmx, (bd_max b kvs Hr). clear. induction kvs as [|e kvs IH]; cbn; [lia|].
      pose proof (ParseTs_range e.1). lia.
    - apply Hu.
    - apply Hu. }
  rewrite (fb_root_build i0 Hwf). cbn [mbind option_bind].
  destruct (fb_mutate_ok (fb_build i0) i0 (u32 (ti_onDiskSize i0 + u32 (len (fb_build i0))))) as (b' & Eb & _ & Er).
  - by apply fb_root_build.
  - done.
  - unfold i0. cbn. by rewrite Hod.
  - apply wrap_range. lia.
  - rewrite Eb. cbn [mbind option_bind]. by exists b', (with_onDiskSize i0 (u32 (ti_onDiskSize i0 + u32 (len (fb_build i0))))).
Qed.

(** Reading each block of the file. *)
Lemma file_block_of l bss rest verify i j base xs :
  Forall2 (fun bb p => finished bb p.2 /\ bbaseKey bb = p.1) l bss ->
  len (all_data l) < 2 ^ 32 -> ti_offsets i = (writeBlockOffsets l).1 -> bss !! j = Some (base, xs) ->
  exists c, bb_repr c xs /\ xs <> [] /\ bbaseKey c = base /\
    ti_offsets i !! j = Some (mkBO base (len (all_data (take j l))) (len (bdata (finish_bblock c)))) /\
    table_block (mkTF (all_data l ++ rest) i verify) (Z.of_nat j) = Ok (block_of c).
Proof.
  intros HF Hlt Ho Hj. destruct (writeBlockOffsets_spec l Hlt) as (_ & E2 & E3).
  destruct (Forall2_lookup_r _ _ _ _ _ HF Hj) as (bb & Hbb & (c & -> & Hc & Hxne & _) & Hbase).
  cbn in Hbase. exists c. rewrite Ho, (E3 j _ Hbb). split_and!; try done; [by rewrite <- Hbase|].
  unfold table_block. rewrite bool_decide_eq_false_2 by lia. cbn [tf_index tf_data tf_verify].
  rewrite Ho, Nat2Z.id, (E3 j _ Hbb). cbn [bo_offset bo_len].
  assert (all_data l = all_data (take j l) ++ bdata (finish_bblock c) ++ all_data (drop (S j) l)) as Ed.
  { unfold all_data. rewrite <- (take_drop_middle l j _ Hbb) at 1. by rewrite fmap_app, concat_app. }
  rewrite (slice_at (all_data (take j l)) (bdata (finish_bblock c)) (all_data (drop (S j) l) ++ rest))
    by (rewrite ?Ed, <- ?app_assoc; done).
  rewrite (read_block_finish c xs verify Hc); [done|].
  rewrite Ed, !len_app in Hlt. pose proof (len_nonneg (all_data (take j l))).
  pose proof (len_nonneg (all_data (drop (S j) l))). lia.
Qed.

Lemma file_blocks l bss rest verify i :
  Forall2 (fun bb p => finished bb p.2 /\ bbaseKey bb = p.1) l bss -> bss <> [] ->
  len (all_data l) < 2 ^ 32 -> ti_offsets i = (writeBlockOffsets l).1 ->
  table_repr (mkTF (all_data l ++ rest) i verify) bss.
Proof.
  intros HF Hne Hlt Ho. split; cbn; [|done|].
  - rewrite Ho, (proj1 (proj2 (writeBlockOffsets_spec l Hlt))). by eapply Forall2_length.
  - intros j base xs Hj.
    destruct (file_block_of l bss rest verify i j base xs HF Hlt Ho Hj) as (c & Hc & Hxne & Hb & Hoff & Hblk).
    split; [rewrite <- Hb; by apply bb_repr_xs_ok|]. split; [by eexists|].
    exists (block_of c). eexists. split; [done|]. split; [by apply setBlock_block_of|].
    apply bi_ok_start.
Qed.

Lemma verify_blocks_ok t bss (n : nat) :
  table_repr t bss ->
  (forall i, (i < length bss)%nat -> exists c, table_block t (Z.of_nat i) = Ok (block_of c)) ->
  forall i, (i + n <= length bss)%nat -> verify_blocks t (Z.of_nat i) n = Ok tt.
Proof.
  intros Ht Hb. induction n as [|n IH]; intros i Hi; [done|]. cbn [verify_blocks].
  destruct (Hb i ltac:(lia)) as [c ->]. cbn [mbind result_bind].
  rewrite verify_block_of. cbn [lift_block].
  replace (Z.of_nat i + 1) with (Z.of_nat (S i)) by lia.
  destruct (tf_verify t); cbn [mbind result_bind]; apply IH; lia.
Qed.

Lemma open_file b kvs bits vo vb :
  builder_repr b kvs -> kvs <> [] -> finish_ok b bits ->
  exists file t bss kf kl vf vl, builder_Finish b bits = Some file /\
    OpenTable file vo vb = Ok (t, kf, kl) /\ table_repr t bss /\ flat bss = kvs /\
    head kvs = Some (kf, vf) /\ last kvs = Some (kl, vl) /\
    ti_maxVersion (tf_index t) = maxVersion b /\ filter_of b bits (ti_bloom (tf_index t)).
Proof.
  intros Hr Hne Hok. destruct (finishBlock_repr b kvs Hr Hne) as (bss & HF & Hfl & Hbne & E1 & E2 & E3 & E4).
  unfold builder_Finish, builder_Done. apply Forall2_length in HF as Hlen.
  rewrite (bool_decide_eq_false_2 (len (blockList (finishBlock b)) = 0)).
  2: { unfold len. rewrite Hlen. destruct bss; [done|simpl; lia]. }
  assert (exists f, (match bits with Some n => NewFilter (keyHashes (finishBlock b)) n | None => Some [] end)
    = Some f /\ filter_of b bits f) as (f & -> & Hf).
  { unfold filter_of. rewrite E2. destruct bits as [n|]; [|by exists []].
    destruct (fo_filter b _ Hok n eq_refl) as [f Ef]. by exists f. }
  destruct (buildIndex_spec b kvs bits f bss Hok Hr HF E1 E3 E4) as (index & i & Eb & Er & Ebl & Emv & Eo).
  cbn [mbind option_bind]. rewrite Eb. cbn [mbind option_bind].
  pose proof (fo_index b bits Hok _ _ _ Hf Eb) as Hil.
  destruct Hok as [Hd _ _ _]. unfold bd_Copy. cbn [bd_blockList bd_index bd_checksum bd_Size].
  fold (all_data (blockList (finishBlock b))). set (D := all_data (blockList (finishBlock b))) in *.
  set (rest := index ++ _).
  assert (len (D ++ rest) = len D + len index + len (calculateChecksum index) + 4 + 4) as El.
  { unfold rest. rewrite !len_app, !U32ToBytes_len. lia. }
  rewrite El, bool_decide_eq_true_2 by done.
  set (t := mkTF (D ++ rest) i vb).
  pose proof (file_blocks _ bss rest vb i HF Hbne Hd Eo) as Ht. fold D t in Ht.
  assert (flat bss <> []) as Hfne by congruence.
  assert (ti_offsets i <> []) as Hone.
  { pose proof (tr_len _ _ Ht) as H. cbn in H. intros E. rewrite E in H. destruct bss; done. }
  destruct bss as [|[base xs] bss'] eqn:Eb'; [done|]. rewrite <- Eb' in *.
  assert (bss !! 0%nat = Some (base, xs)) as H0 by (by rewrite Eb').
  destruct (block_base bss t 0 base xs Ht H0) as (vf & Ehd & _). cbn in Ehd.
  destruct (tr_block _ _ Ht 0%nat base xs H0) as (_ & (bo & Ebo & Ebk) & _). cbn in Ebo.
  destruct (table_last t bss NewIterator Ht) as (it & Eit & Hc).
  destruct (cursor_entry _ _ _ Hc) as (kl & vl & Ekl & Ekey & _ & Hval).
  exists (D ++ rest), t, bss, base, kl, vf, vl. split; [done|]. split.
  - unfold OpenTable. pose proof (initIndex_file D index i Hil Er Hone) as HI.
    change (initIndex (D ++ rest) = Ok i) in HI. rewrite HI. cbn [mbind result_bind]. fold t.
    pose proof (tr_len _ _ Ht) as Hlo. cbn [tf_index t] in Hlo.
    destruct (ti_offsets i) as [|ko kos] eqn:Eko; [done|]. cbn in Ebo. injection Ebo as ->.
    unfold it_Rewind. rewrite Eit. cbn [unpanic mbind result_bind]. rewrite Hval, Ekey, Ebk.
    destruct vo; [|done]. rewrite Hlo, (verify_blocks_ok t bss _ Ht) with (i := 0%nat); [done| |lia].
    intros j Hj. destruct (lookup_lt_is_Some_2 bss j Hj) as [[bj xj] Hbj].
    destruct (file_block_of (blockList (finishBlock b)) bss rest vb i j bj xj HF Hd) as (c & _ & _ & _ & _ & Hc');
      [congruence|done|by exists c].
  - split_and!; try done.
    + rewrite <- Hfl, head_lookup. done.
    + by rewrite <- Hfl, last_lookup, <- Nat.sub_1_r.
    + cbn. by rewrite Ebl.
Qed.
End Opening.

(** ** Properties *)

(** A pair as a reader decodes it: no version yet, and the value never nil. *)
Definition decoded (v : ValueStruct) : ValueStruct :=
  mkVS (Meta v) (UserMeta v) (ExpiresAt v) (Some (vbytes (Value v))) 0.

Definition read_back (e : kv) : kv := (e.1, decoded e.2).

Section TableProperties.
Context `{C : ChecksumCodec} `{!ChecksumCodecLaws C} `{I : IndexCodec} `{!IndexCodecLaws I}.

(** A sequence of [Add] and [AddStaleKey] calls, with their value-log lengths. *)
Definition build_all (b : Builder) (adds : list (kv * Z * bool)) : option Builder :=
  foldl (fun acc '(e, n, stale) =>
           b ← acc; if stale : bool then AddStaleKey b e.1 e.2 n else Add b e.1 e.2 n)
    (Some b) adds.

Definition added (adds : list (kv * Z * bool)) : list kv := (fun a => a.1.1) <$> adds.

Lemma AddStaleKey_repr b kvs key v n :
  builder_repr b kvs -> opts_ok (opts b) -> kv_small (key, v) ->
  exists b', AddStaleKey b key v n = Some b' /\ builder_repr b' (kvs ++ [(key, v)]) /\ opts b' = opts b.
Proof.
  intros Hr Ho Hk. unfold AddStaleKey.
  destruct (addInternal_repr (add_stale b (len key + len (vbytes (Value v)) + 4 + 4)) kvs key v n true)
    as (b' & E & Hr' & Ho'); [|done|done|by exists b'].
  destruct Hr as [H1 H2 H3 H4 H5]. by split.
Qed.

Lemma build_all_repr o adds :
  opts_ok o -> Forall kv_small (added adds) ->
  exists b, build_all (NewTableBuilder o) adds = Some b /\ builder_repr b (added adds) /\ opts b = o.
Proof.
  intros Ho. unfold build_all. induction adds as [|[[[k v] n] stale] adds IH] using rev_ind; intros Hall.
  - exists (NewTableBuilder o). split_and!; [done|apply builder_repr_new|done].
  - unfold added in *. rewrite fmap_app in *. apply Forall_app in Hall as [Hall Hk].
    apply Forall_cons in Hk as [Hk _]. cbn in Hk. destruct (IH Hall) as (b & E & Hr & Hob).
    rewrite foldl_app, E. cbn. destruct stale.
    + destruct (AddStaleKey_repr b _ k v n Hr ltac:(by rewrite Hob) Hk) as (b' & -> & Hr' & Ho').
      exists b'. split_and!; [done|done|congruence].
    + unfold Add. destruct (addInternal_repr b _ k v n false Hr ltac:(by rewrite Hob) Hk) as (b' & -> & Hr' & Ho').
      exists b'. split_and!; [done|done|congruence].
Qed.

(** Walking a table from where the iterator stands. *)
Fixpoint it_collect (reversed : bool) (t : tableFile) (fuel : nat) (it : tIterator)
    : option (list (bytes * option ValueStruct)) :=
  match fuel with
  | O => None
  | S fuel =>
      if it_Valid it then
        it' ← it_Next reversed t it; l ← it_collect reversed t fuel it';
        Some ((it_Key it, it_Value it) :: l)
      else Some []
  end.

Definition shown (e : kv) : bytes * option ValueStruct := (e.1, Some (decoded e.2)).

Lemma cursor_shown bss it p e :
  cursor bss it p -> flat bss !! p = Some e -> Forall kv_small (flat bss) ->
  it_Valid it = true /\ (it_Key it, it_Value it) = shown e.
Proof.
  intros Hc He Hall. destruct (cursor_entry _ _ _ Hc) as (k & v & E & Ek & Ev & Hv).
  assert (e = (k, v)) as -> by congruence. split; [done|]. unfold shown, it_Value. rewrite Ek, Ev. f_equal.
  apply Decode_EncodeTo. by destruct (proj1 (Forall_lookup _ _) Hall p _ E) as [(_ & ? & _) _].
Qed.

Lemma collect_forward t bss it p fuel :
  table_repr t bss -> Forall kv_small (flat bss) -> cursor bss it p ->
  (length (flat bss) - p < fuel)%nat ->
  it_collect false t fuel it = Some (shown <$> drop p (flat bss)).
Proof.
  intros Ht Hall. revert it p. induction fuel as [|fuel IH]; intros it p Hc Hf; [lia|].
  destruct (cursor_entry _ _ _ Hc) as (k & v & E & _).
  destruct (cursor_shown _ _ _ _ Hc E Hall) as (Hv & Hs). cbn [it_collect]. rewrite Hv, Hs.
  destruct (table_next t bss it p Ht Hc) as (it' & E' & Hn). unfold it_Next. rewrite E'.
  cbn [mbind option_bind].
  rewrite (drop_S _ _ _ E). pose proof (lookup_lt_Some _ _ _ E). case_decide as Hd.
  - rewrite (IH it' (S p)) by (done || lia). done.
  - rewrite (drop_ge _ (S p)) by lia. destruct fuel as [|fuel]; [lia|]. cbn [it_collect].
    unfold it_Valid at 1. by rewrite Hn.
Qed.

Lemma collect_backward t bss it p fuel :
  table_repr t bss -> Forall kv_small (flat bss) -> cursor bss it p -> (S p < fuel)%nat ->
  it_collect true t fuel it = Some (shown <$> reverse (take (S p) (flat bss))).
Proof.
  intros Ht Hall. revert it p. induction fuel as [|fuel IH]; intros it p Hc Hf; [lia|].
  destruct (cursor_entry _ _ _ Hc) as (k & v & E & _).
  destruct (cursor_shown _ _ _ _ Hc E Hall) as (Hv & Hs). cbn [it_collect]. rewrite Hv, Hs.
  destruct (table_prev t bss it p Ht Hc) as (it' & E' & Hn). unfold it_Next. rewrite E'.
  cbn [mbind option_bind]. rewrite (take_S_r _ _ _ E), reverse_snoc, fmap_cons. destruct p as [|p].
  - destruct fuel as [|fuel]; [lia|]. cbn [it_collect]. unfold it_Valid at 1. by rewrite Hn.
  - rewrite (IH it' p) by (done || lia). done.
Qed.

(** C14: a table survives its file: whatever is added to a builder, [Finish] gives bytes that
    [OpenTable] accepts, with the smallest and biggest key, and iterating the opened table —
    forwards or backwards, across its blocks — gives exactly the pairs that were added. *)
Theorem table_file_roundtrip (o : Options) (adds : list (kv * Z * bool)) (bits : option Z)
    (vo vb : bool) :
  opts_ok o -> Forall kv_small (added adds) -> adds <> [] ->
  exists b, build_all (NewTableBuilder o) adds = Some b /\
    (finish_ok b bits ->
     exists file t kf kl it1 it2, builder_Finish b bits = Some file /\
       OpenTable file vo vb = Ok (t, kf, kl) /\
       (fst <$> head (added adds)) = Some kf /\ (fst <$> last (added adds)) = Some kl /\
       it_Rewind false t NewIterator = Some it1 /\
       it_collect false t (S (length adds)) it1 = Some (shown <$> added adds) /\
       it_Rewind true t NewIterator = Some it2 /\
       it_collect true t (S (length adds)) it2 = Some (shown <$> reverse (added adds))).
Proof.
  intros Ho Hall Hne. destruct (build_all_repr o adds Ho Hall) as (b & Eb & Hr & _).
  exists b. split; [done|]. intros Hok.
  assert (added adds <> []) as Hane by (destruct adds; done).
  assert (length (added adds) = length adds) as El by apply length_fmap.
  destruct (open_file b (added adds) bits vo vb Hr Hane Hok)
    as (file & t & bss & kf & kl & vf & vl & E1 & E2 & Ht & Hfl & Eh & Ela & _).
  destruct (table_first t bss NewIterator Ht) as (it1 & Ei1 & Hc1).
  destruct (table_last t bss NewIterator Ht) as (it2 & Ei2 & Hc2).
  exists file, t, kf, kl, it1, it2. rewrite Eh, Ela. rewrite <- Hfl in Hall.
  assert (0 < length adds)%nat as Hpos by (destruct adds; [done|simpl; lia]).
  split_and!; try done.
  - rewrite (collect_forward t bss it1 0) by (done || rewrite Hfl, El; lia). by rewrite Hfl.
  - rewrite Hfl in Hc2. rewrite (collect_backward t bss it2 (length (added adds) - 1)) by (done || lia).
    rewrite Hfl. replace (S (length (added adds) - 1)) with (length (added adds)) by lia.
    by rewrite take_ge.
Qed.

(** [run_seek] finds the entry the iterator stops at. *)
Lemma run_seek_lookup (l : list kv) key r :
  (forall q x, (q < r)%nat -> l !! q = Some x -> compareKeys x.1 key = Lt) ->
  (forall x, l !! r = Some x -> compareKeys x.1 key <> Lt) ->
  (r <= length l)%nat -> run_seek l key = l !! r.
Proof.
  revert r. induction l as [|e l IH]; intros r Hlo Hhi Hr; [by destruct r|]. cbn [run_seek].
  destruct r as [|r].
  - rewrite bool_decide_eq_false_2; [done|]. by apply Hhi.
  - rewrite bool_decide_eq_true_2 by (by apply (Hlo 0%nat); [lia|]). cbn. apply IH.
    + intros q x Hq. apply (Hlo (S q)). lia.
    + done.
    + simpl in Hr. lia.
Qed.

(** Seeking an opened table: the block search and the search in the block together stop at
    the first pair not below the key, and at the end when there is none. *)
Theorem table_file_seek (o : Options) (adds : list (kv * Z * bool)) (bits : option Z)
    (vo vb : bool) (key : bytes) :
  opts_ok o -> Forall kv_small (added adds) -> adds <> [] -> kvs_sorted (added adds) -> has_ts key ->
  exists b, build_all (NewTableBuilder o) adds = Some b /\
    (finish_ok b bits ->
     exists file t kf kl, builder_Finish b bits = Some file /\
       OpenTable file vo vb = Ok (t, kf, kl) /\
       forall it, exists it', it_Seek false t it key = Some it' /\
         match run_seek (added adds) key with
         | Some e => it_Valid it' = true /\ (it_Key it', it_Value it') = shown e
         | None => it_Valid it' = false
         end).
Proof.
  intros Ho Hall Hne Hs Hkey. destruct (build_all_repr o adds Ho Hall) as (b & Eb & Hr & _).
  exists b. split; [done|]. intros Hok.
  assert (added adds <> []) as Hane by (destruct adds; done).
  destruct (open_file b (added adds) bits vo vb Hr Hane Hok)
    as (file & t & bss & kf & kl & vf & vl & E1 & E2 & Ht & Hfl & _).
  exists file, t, kf, kl. split_and!; try done. intros it. rewrite <- Hfl in Hs, Hall.
  destruct (table_seek t bss it key Ht Hs Hkey) as (it' & r & E & Hr' & Hlo & Hm).
  exists it'. split; [done|]. rewrite <- Hfl, (run_seek_lookup _ key r Hlo); [| |done].
  - destruct (flat bss !! r) as [e|] eqn:Ee.
    + by eapply cursor_shown; [apply Hm|..].
    + by eapply past_invalid.
  - intros x Hx. rewrite Hx in Hm. apply Hm.
Qed.

(** The table the levels work with. *)
Definition table_of (id sz : Z) (t : tableFile) (created : Z) (kvs : list kv) : Table :=
  mkTable id (read_back <$> kvs) sz (ti_staleDataSize (tf_index t)) (ti_maxVersion (tf_index t))
    created false 0 0 (match ti_bloom (tf_index t) with [] => None | f => Some f end).

(** [CreateTable]: the builder's file, opened; the model's table holds what iterating it gives. *)
Definition CreateTable (b : Builder) (bits : option Z) (vo vb : bool) (id created : Z)
    : result table_error Table :=
  file ← unpanic (builder_Finish b bits);
  '(t, _, _) ← OpenTable file vo vb;
  it ← unpanic (it_Rewind false t NewIterator);
  run ← unpanic (it_collect false t (S (length (keyHashes b))) it);
  es ← unpanic (mapM (fun x : bytes * option ValueStruct => v ← x.2; Some (x.1, v)) run);
  Ok (mkTable id es (len file) (ti_staleDataSize (tf_index t)) (ti_maxVersion (tf_index t))
        created false 0 0 (match ti_bloom (tf_index t) with [] => None | f => Some f end)).

(** A builder's contents, finished and opened again. *)
Lemma opened_table_ok b kvs bits vo vb id sz created :
  builder_repr b kvs -> Forall kv_small kvs -> kvs <> [] -> kvs_sorted kvs -> finish_ok b bits ->
  (forall n, bits = Some n -> u32 (filter_bits (len kvs) n) <> 0) ->
  exists file t kf kl, builder_Finish b bits = Some file /\
    OpenTable file vo vb = Ok (t, kf, kl) /\
    (exists bss, table_repr t bss /\ flat bss = kvs) /\
    let tb := table_of id sz t created kvs in
    table_ok tb /\ Smallest tb = kf /\ Biggest tb = kl /\
    (forall e, e ∈ kvs -> ParseTs e.1 <= MaxVersion tb) /\
    (exists e, e ∈ kvs /\ (ParseTs e.1 = MaxVersion tb \/ MaxVersion tb = 0)).
Proof.
  intros Hr Hall Hne Hs Hok Hbits.
  destruct (open_file b kvs bits vo vb Hr Hne Hok)
    as (file & t & bss & kf & kl & vf & vl & E1 & E2 & Ht & Hfl & Eh & El & Emx & Ebl).
  exists file, t, kf, kl. split; [done|]. split; [done|]. split; [by exists bss|]. cbv zeta. set (tb := table_of _ _ _ _ _).
  assert (entries tb = read_back <$> kvs) as Een by done.
  split_and!.
  - split.
    + split.
      * rewrite Een. apply Forall_fmap, Forall_forall. intros e He. rewrite Forall_forall in Hall.
        destruct (Hall e He) as [((Hk & _) & _) _]. split; [unfold has_ts; cbn; lia|]. cbn. eauto.
      * rewrite Een. clear -Hs. induction kvs as [|e l IH]; [constructor|].
        apply StronglySorted_cons in Hs as [Ha Hs]. rewrite fmap_cons. constructor; [by apply IH|].
        by apply Forall_fmap.
    + rewrite Een. by intros ?%fmap_nil_inv.
    + unfold table_bloom_ok, tb, table_of. cbn [bloom]. destruct (ti_bloom (tf_index t)) as [|x f] eqn:Ef; [done|].
      destruct bits as [n|]; [|by cbn in Ebl]. exists n. cbn [entries]. cbv zeta. cbn [filter_of] in Ebl.
      rewrite (bd_hashes b _ Hr) in Ebl. rewrite <- list_fmap_compose. cbn [compose read_back].
      assert (((fun e : kv => Hash (ParseKey e.1)) ∘ read_back) <$> kvs
        = (fun e : kv => Hash (ParseKey e.1)) <$> kvs) as -> by done.
      split; [|done]. unfold len in *. rewrite length_fmap. by apply Hbits.
  - unfold Smallest. rewrite Een. destruct kvs; [done|]. cbn in *. by simplify_eq.
  - unfold Biggest. rewrite Een, fmap_last, El. done.
  - intros e He. unfold tb, table_of. cbn [MaxVersion]. rewrite Emx, (bd_max b _ Hr). clear -He.
    induction kvs as [|x l IH]; [by apply elem_of_nil in He|]. cbn.
    apply elem_of_cons in He as [->|He]; [lia|]. specialize (IH He). lia.
  - unfold tb, table_of. cbn [MaxVersion]. rewrite Emx, (bd_max b _ Hr). clear -Hne.
    induction kvs as [|x l IH]; [done|]. cbn. destruct (decide (l = [])) as [->|Hl].
    + exists x. split; [by left|]. cbn. lia.
    + destruct (IH Hl) as (e & He & Hm).
      destruct (Z.max_spec (ParseTs x.1) (foldr (fun e : kv => Z.max (ParseTs e.1)) 0 l)) as [[_ ->]|[_ ->]].
      * exists e. split; [by right|done].
      * exists x. split; [by left|by left].
Qed.

Lemma CreateTable_ok b kvs bits vo vb id created :
  builder_repr b kvs -> Forall kv_small kvs -> kvs <> [] -> kvs_sorted kvs -> finish_ok b bits ->
  (forall n, bits = Some n -> u32 (filter_bits (len kvs) n) <> 0) ->
  exists tb, CreateTable b bits vo vb id created = Ok tb /\ table_ok tb /\
    entries tb = read_back <$> kvs /\ ID tb = id.
Proof.
  intros Hr Hall Hne Hs Hok Hbits.
  destruct (opened_table_ok b kvs bits vo vb id 0 created Hr Hall Hne Hs Hok Hbits)
    as (file & t & kf & kl & Ef & Eo & (bss & Ht & Hfl) & Htb & _).
  unfold CreateTable. rewrite Ef. cbn [unpanic mbind result_bind]. rewrite Eo. cbn [mbind result_bind].
  destruct (table_first t bss NewIterator Ht) as (it & Ei & Hc). cbn [it_Rewind]. rewrite Ei.
  cbn [unpanic mbind result_bind].
  rewrite (collect_forward t bss it 0) by (done || (rewrite Hfl, ?(bd_hashes b kvs Hr), ?length_fmap; done || lia)).
  cbn [unpanic mbind result_bind]. rewrite drop_0, Hfl.
  assert (mapM (fun x : bytes * option ValueStruct => v ← x.2; Some (x.1, v)) (shown <$> kvs)
    = Some (read_back <$> kvs)) as ->.
  { clear. induction kvs as [|x l IH]; [done|]. cbn. cbn in IH. by rewrite IH. }
  cbn [unpanic mbind result_bind]. eexists. split; [done|]. split_and!; [|done|done].
  destruct Htb as [H1 H2 H3]. by split.
Qed.

(** C31: a table built from increasing keys is a well-formed table of the level model — sorted,
    not empty, its bloom filter over all its user keys — and its maximal version is right. *)
Theorem built_table_ok (o : Options) (adds : list (kv * Z * bool)) (bits : option Z)
    (vo vb : bool) (id sz created : Z) :
  opts_ok o -> Forall kv_small (added adds) -> adds <> [] -> kvs_sorted (added adds) ->
  (forall n, bits = Some n -> u32 (filter_bits (len (added adds)) n) <> 0) ->
  exists b, build_all (NewTableBuilder o) adds = Some b /\
    (finish_ok b bits ->
     exists file t kf kl, builder_Finish b bits = Some file /\
       OpenTable file vo vb = Ok (t, kf, kl) /\
       let tb := table_of id sz t created (added adds) in
       table_ok tb /\ Smallest tb = kf /\ Biggest tb = kl /\
       (forall e, e ∈ added adds -> ParseTs e.1 <= MaxVersion tb) /\
       (exists e, e ∈ added adds /\ (ParseTs e.1 = MaxVersion tb \/ MaxVersion tb = 0))).
Proof.
  intros Ho Hall Hne Hs Hbits. destruct (build_all_repr o adds Ho Hall) as (b & Eb & Hr & _).
  exists b. split; [done|]. intros Hok.
  destruct (opened_table_ok b (added adds) bits vo vb id sz created Hr Hall) as (file & t & kf & kl & E1 & E2 & _ & H);
    try done; [by destruct adds|].
  by exists file, t, kf, kl.
Qed.
End TableProperties.

(** ** Witnesses *)

#[export] Instance blockOffset_eq_dec : EqDecision blockOffset.
Proof. solve_decision. Defined.

#[export] Instance blockOffset_countable : Countable blockOffset.
Proof.
  apply (inj_countable' (fun o => (bo_key o, bo_offset o, bo_len o)) (fun '(k, o, l) => mkBO k o l)).
  abstract (by intros []).
Defined.

#[export] Instance tableIndex_eq_dec : EqDecision tableIndex.
Proof. solve_decision. Defined.

#[export] Instance tableIndex_countable : Countable tableIndex.
Proof.
  apply (inj_countable'
    (fun i => (ti_offsets i, ti_bloom i, ti_maxVersion i, ti_uncompressedSize i, ti_keyCount i,
               ti_onDiskSize i, ti_staleDataSize i))
    (fun '(o, b, m, u, k, d, s) => mkTI o b m u k d s)).
  abstract (by intros []).
Defined.

(** A concrete index codec: the on-disk size in eight bytes, then the bits of stdpp's encoding
    of the rest. *)
#[export] Instance plain_index : IndexCodec := {
  fb_build i := le_encode 8 (ti_onDiskSize i) ++ pos_bits (encode (with_onDiskSize i 0));
  fb_root b :=
    if bool_decide (length b < 8)%nat then None
    else i ← decode (bits_pos (drop 8 b)); Some (with_onDiskSize i (le_decode (take 8 b)));
  fb_MutateOnDiskSize b n := Some (le_encode 8 n ++ drop 8 b)
}.

#[export] Instance plain_index_laws : IndexCodecLaws plain_index.
Proof.
  assert (forall n rest, 0 <= n < 2 ^ 32 ->
    take 8 (le_encode 8 n ++ rest) = le_encode 8 n /\ drop 8 (le_encode 8 n ++ rest) = rest /\
    le_decode (le_encode 8 n) = n) as HL.
  { intros n rest Hn. rewrite take_app_length', drop_app_length' by (by rewrite le_encode_length).
    rewrite le_decode_encode. change (8 * Z.of_nat 8) with 64. by rewrite Z.mod_small by lia. }
  split.
  - intros i (_ & _ & _ & _ & Hd & _). unfold fb_root, fb_build, plain_index.
    destruct (HL (ti_onDiskSize i) (pos_bits (encode (with_onDiskSize i 0))) Hd) as (E1 & E2 & E3).
    rewrite bool_decide_eq_false_2 by (rewrite length_app, le_encode_length; lia).
    rewrite E1, E2, E3, bits_pos_bits, decode_encode. cbn. by destruct i.
  - intros b i n Hr _ _ Hn. unfold fb_root, fb_MutateOnDiskSize, plain_index in *.
    case_bool_decide as Hb; [done|]. eexists. split; [done|].
    destruct (HL n (drop 8 b) Hn) as (E1 & E2 & E3). split.
    + rewrite length_app, le_encode_length, length_drop. lia.
    + rewrite bool_decide_eq_false_2 by (rewrite length_app, le_encode_length; lia).
      rewrite E1, E2, E3. destruct (decode (bits_pos (drop 8 b))) as [i0|]; [|done].
      cbn in *. by simplify_eq.
Qed.

(** Blocks of 64 bytes, so that the example has several. *)
Definition tb_opts : Options := mkOptions 4096 64 false false.

Definition tb_val (b : byte) : ValueStruct := mkVS x00 x00 0 (Some [b; b]) 0.

Definition tb_adds : list (kv * Z * bool) :=
  [((KeyWithTs [x61] 5, tb_val x01), 0, false); ((KeyWithTs [x61] 2, tb_val x02), 7, true);
   ((KeyWithTs [x61; x62] 4, tb_val x03), 0, false); ((KeyWithTs [x62] 9, tb_val x04), 0, false);
   ((KeyWithTs [x63; x63] 1, tb_val x05), 0, true)].

Lemma tb_adds_small : Forall kv_small (added tb_adds).
Proof.
  apply (bool_decide_eq_true_1 (Forall kv_small (added tb_adds))). by vm_compute.
Qed.

Lemma tb_adds_sorted : kvs_sorted (added tb_adds).
Proof.
  unfold kvs_sorted. apply Sorted_StronglySorted.
  - intros x y z. apply (cmp_trans compareKeys).
  - repeat constructor.
Qed.

Lemma tb_finish_ok b :
  build_all (NewTableBuilder tb_opts) tb_adds = Some b -> finish_ok b None.
Proof.
  intros E. vm_compute in E. injection E as <-. split.
  - by vm_compute.
  - by vm_compute.
  - done.
  - intros f index n -> Hb.
    apply (f_equal (from_option (fun p => len p.1) 0)) in Hb. cbn [from_option fst] in Hb.
    rewrite <- Hb. by vm_compute.
Qed.

Lemma tb_blocks b :
  build_all (NewTableBuilder tb_opts) tb_adds = Some b -> len (blockList (finishBlock b)) = 3.
Proof. intros E. vm_compute in E. injection E as <-. by vm_compute. Qed.

Lemma table_file_roundtrip_witness :
  exists b file t kf kl it1 it2, build_all (NewTableBuilder tb_opts) tb_adds = Some b /\
    len (blockList (finishBlock b)) = 3 /\ builder_Finish b None = Some file /\
    OpenTable file true false = Ok (t, kf, kl) /\
    it_Rewind false t NewIterator = Some it1 /\
    it_collect false t 6 it1 = Some (shown <$> added tb_adds) /\
    it_Rewind true t NewIterator = Some it2 /\
    it_collect true t 6 it2 = Some (shown <$> reverse (added tb_adds)).
Proof.
  destruct (table_file_roundtrip tb_opts tb_adds None true false) as (b & Eb & H);
    [by split|apply tb_adds_small|done|].
  destruct (H (tb_finish_ok b Eb)) as (file & t & kf & kl & it1 & it2 & E1 & E2 & _ & _ & H1 & H2 & H3 & H4).
  exists b, file, t, kf, kl, it1, it2. exact (conj Eb (conj (tb_blocks b Eb) (conj E1 (conj E2
    (conj H1 (conj H2 (conj H3 H4))))))).
Defined.

Lemma table_file_seek_witness :
  exists b file t kf kl, build_all (NewTableBuilder tb_opts) tb_adds = Some b /\
    builder_Finish b None = Some file /\ OpenTable file true false = Ok (t, kf, kl) /\
    forall it, exists it', it_Seek false t it (KeyWithTs [x61; x62] 3) = Some it' /\
      it_Valid it' = true /\ it_Key it' = KeyWithTs [x62] 9.
Proof.
  destruct (table_file_seek tb_opts tb_adds None true false (KeyWithTs [x61; x62] 3)) as (b & Eb & H);
    [by split|apply tb_adds_small|done|apply tb_adds_sorted|by apply KeyWithTs_has_ts|].
  destruct (H (tb_finish_ok b Eb)) as (file & t & kf & kl & E1 & E2 & Hs).
  exists b, file, t, kf, kl. split; [exact Eb|]. split; [exact E1|]. split; [exact E2|]. intros it.
  destruct (Hs it) as (it' & E & Hm). 
  assert (run_seek (added tb_adds) (KeyWithTs [x61; x62] 3) = Some (KeyWithTs [x62] 9, tb_val x04))
    as Er by (vm_compute; reflexivity).
  rewrite Er in Hm. destruct Hm as [Hv Hk].
  exists it'. split; [exact E|]. split; [exact Hv|]. exact (f_equal fst Hk).
Defined.

Lemma built_table_ok_witness :
  exists b file t kf kl, build_all (NewTableBuilder tb_opts) tb_adds = Some b /\
    builder_Finish b None = Some file /\ OpenTable file true false = Ok (t, kf, kl) /\
    table_ok (table_of 7 300 t 0 (added tb_adds)) /\
    Smallest (table_of 7 300 t 0 (added tb_adds)) = kf.
Proof.
  destruct (built_table_ok tb_opts tb_adds None true false 7 300 0) as (b & Eb & H);
    [by split|apply tb_adds_small|done|apply tb_adds_sorted|done|].
  destruct (H (tb_finish_ok b Eb)) as (file & t & kf & kl & E1 & E2 & Ht & Hs & _).
  exists b, file, t, kf, kl. exact (conj Eb (conj E1 (conj E2 (conj Ht Hs)))).
Defined.
