(* ===== verification/Wal.v ===== *)
(** * Wal: memtables and their write-ahead logs (memtable.go)

    A [memTable] is a skip list, here the sorted run it holds, and a [logFile].  [mt_Put] writes
    to both; [UpdateSkipList] replays the log after a crash.  The replay is shown to bring back
    exactly what was put, whole transactions only. *)

From S2P Require Import Prelude Keys Codec Bloom Checksum Encrypt LogFile Block Tables TableFile TableBuild.

(** ** Memtables *)

Record memTable : Type := mkMT {
  mt_sl : list kv;
  mt_wal : option logFile;       (* nil in memory-only mode *)
  maxVersion_ : Z
}.

(** [skl.Put], which copies the encoded value: the run keeps its order, an equal key its place. *)
Fixpoint sl_put (l : list kv) (key : bytes) (v : ValueStruct) : list kv :=
  match l with
  | [] => [(key, decoded v)]
  | x :: l' =>
      match compareKeys key x.1 with
      | Lt => (key, decoded v) :: l
      | Eq => (key, decoded v) :: l'
      | Gt => x :: sl_put l' key v
      end
  end.

(** What a key and value do to the skip list and the largest version. *)
Definition sl_add (st : list kv * Z) (key : bytes) (v : ValueStruct) : list kv * Z :=
  (sl_put st.1 key v, Z.max st.2 (ParseTs key)).

Section Memtable.
Context `{A : BlockCipher} `{M : Mmap}.

Definition entry_of (key : bytes) (v : ValueStruct) : Entry :=
  mkEntry key (Value v) (ExpiresAt v) 0 0 (UserMeta v) (Meta v) 0 0.

Definition value_of (e : Entry) : ValueStruct :=
  mkVS (emeta e) (eUserMeta e) (eExpiresAt e) (eValue e) 0.

Definition mt_Put (mt : memTable) (key : bytes) (v : ValueStruct) : result log_error memTable :=
  wal ← match mt_wal mt with
        | Some lf => lf ← writeEntry lf (entry_of key v); Ok (Some lf)
        | None => Ok None
        end;
  if has_bit (Meta v) bitFinTxn then Ok (mkMT (mt_sl mt) wal (maxVersion_ mt))
  else
    let ts := ParseTs key in
    Ok (mkMT (sl_put (mt_sl mt) key v) wal (if bool_decide (maxVersion_ mt < ts) then ts else maxVersion_ mt)).

(** [memSize] is the arena's size. *)
Definition isFull (mt : memTable) (memSize MemTableSize : Z) : bool :=
  if bool_decide (MemTableSize <= memSize) then true
  else match mt_wal mt with
       | None => false
       | Some lf => bool_decide (MemTableSize <= lf_writeAt lf)
       end.

Definition replayFunction (e : Entry) (_ : valuePointer) (st : list kv * Z) : log_step (list kv * Z) :=
  let ts := ParseTs (eKey e) in
  Cont (sl_put st.1 (eKey e) (value_of e), if bool_decide (st.2 < ts) then ts else st.2).

Definition UpdateSkipList (mt : memTable) : result log_error memTable :=
  match mt_wal mt with
  | None => Ok mt
  | Some lf =>
      match iterate replayFunction lf 0 (mt_sl mt, maxVersion_ mt) with
      | ((sl, mv), Ok endOff) =>
          if bool_decide (endOff < lf_size lf) && lf_ReadOnly lf then Err ErrTruncateNeeded
          else lf ← lf_Truncate lf endOff; Ok (mkMT sl (Some lf) mv)
      | (_, Err e) => Err e
      | (_, Panic) => Panic
      end
  end.

(** [openMemTable]; the flag says that the file is new. *)
Definition openMemTable (InMemory ReadOnly : bool) (MemTableSize fid : Z) (file : option bytes)
    (latest : result log_error (option DataKey)) (registry : Z -> result log_error (option DataKey))
    (iv : bytes) : result log_error (memTable * bool) :=
  if InMemory then Ok (mkMT [] None 0, true)
  else
    '(lf, new) ← lf_open (mkLog (u32 fid) [] 0 None [] vlogHeaderSize ReadOnly) file (2 * MemTableSize)
                   latest registry iv;
    let mt := mkMT [] (Some lf) 0 in
    if (new : bool) then Ok (mt, true) else mt ← UpdateSkipList mt; Ok (mt, false).

(** [openMemTables]: the memtables of the files, oldest first, the empty ones left out, and the
    id for the next file. *)
Fixpoint open_mem_files (ReadOnly : bool) (MemTableSize : Z) (files : list (Z * bytes))
    (latest : result log_error (option DataKey)) (registry : Z -> result log_error (option DataKey))
    (iv : bytes) : result log_error (list memTable) :=
  match files with
  | [] => Ok []
  | (fid, file) :: files =>
      '(mt, _) ← openMemTable false ReadOnly MemTableSize fid (Some file) latest registry iv;
      mts ← open_mem_files ReadOnly MemTableSize files latest registry iv;
      Ok (if bool_decide (mt_sl mt = []) then mts else mt :: mts)
  end.

Definition openMemTables (InMemory ReadOnly : bool) (MemTableSize nextMemFid : Z) (files : list (Z * bytes))
    (latest : result log_error (option DataKey)) (registry : Z -> result log_error (option DataKey))
    (iv : bytes) : result log_error (list memTable * Z) :=
  if InMemory then Ok ([], nextMemFid)
  else
    let files := sort_by Z.compare fst files in
    mts ← open_mem_files ReadOnly MemTableSize files latest registry iv;
    Ok (mts, from_option fst nextMemFid (last files) + 1).
End Memtable.

(** ** The abstract log: single entries and transactions *)

Inductive log_group : Type :=
  | GSingle (e : Entry)
  | GTxn (ts : Z) (es : list Entry) (fin : Entry).

(** The entries as they are written, and those a replay shows. *)
Definition group_written (g : log_group) : list Entry :=
  match g with GSingle e => [e] | GTxn _ es fin => es ++ [fin] end.
Definition group_data (g : log_group) : list Entry :=
  match g with GSingle e => [e] | GTxn _ es _ => es end.

Definition entry_ok (e : Entry) : Prop := entry_fits e /\ eKey e <> [].

Definition txn_entry_ok (ts : Z) (e : Entry) : Prop :=
  entry_ok e /\ has_bit (emeta e) bitTxn = true /\ has_bit (emeta e) bitFinTxn = false /\ ParseTs (eKey e) = ts.

Definition group_ok (g : log_group) : Prop :=
  match g with
  | GSingle e => entry_ok e /\ has_bit (emeta e) bitTxn = false /\ has_bit (emeta e) bitFinTxn = false
  | GTxn ts es fin =>
      0 < ts <= MaxUint64 /\ es <> [] /\ Forall (txn_entry_ok ts) es /\
      entry_ok fin /\ has_bit (emeta fin) bitTxn = false /\ has_bit (emeta fin) bitFinTxn = true /\
      eValue fin = Some (FormatUint ts)
  end.

Section Replay.
Context `{A : BlockCipher} `{!BlockCipherLaws A} `{M : Mmap} `{!MmapLaws M}.

(** The records of entries written from offset [off] on. *)
Fixpoint log_bytes (lf : logFile) (off : Z) (es : list Entry) : bytes :=
  match es with
  | [] => []
  | e :: es =>
      match encodeEntry lf e off with
      | Ok (r, n) => r ++ log_bytes lf (off + n) es
      | _ => []
      end
  end.

(** What a replay shows of an entry at [off]. *)
Definition replayed (lf : logFile) (off : Z) (e : Entry) : Entry * valuePointer :=
  (entry_read e off (len (header_bytes (entry_header e))), mkVP (lf_fid lf) (record_len e) off).

Fixpoint replay_list (lf : logFile) (off : Z) (es : list Entry) : list (Entry * valuePointer) :=
  match es with
  | [] => []
  | e :: es => replayed lf off e :: replay_list lf (off + record_len e) es
  end.

Definition log_len (es : list Entry) : Z := foldr (fun e n => record_len e + n) 0 es.

Lemma log_len_app es1 es2 : log_len (es1 ++ es2) = log_len es1 + log_len es2.
Proof using Type. unfold log_len. induction es1 as [|e es1 IH]; cbn; [done|]. rewrite IH. lia. Qed.

Lemma log_len_nonneg es : Forall entry_fits es -> 0 <= log_len es.
Proof using Type.
  induction 1 as [|e es He Hes IH]; [done|]. pose proof (record_len_bound e He). cbn. unfold log_len in IH. lia.
Qed.

Lemma log_bytes_cons lf off e es : cipher_ok lf -> entry_fits e -> exists r,
  encodeEntry lf e off = Ok (r, record_len e) /\ len r = record_len e /\
  log_bytes lf off (e :: es) = r ++ log_bytes lf (off + record_len e) es.
Proof using BlockCipherLaws0.
  intros Hok Hf. destruct (encodeEntry_ok lf e off Hok Hf) as (kv & E & Hl & _).
  exists (record_of (entry_header e) kv). split_and!; [done|by apply record_length|]. cbn [log_bytes]. by rewrite E.
Qed.

Lemma log_bytes_app lf es1 : forall off es2, cipher_ok lf -> Forall entry_fits es1 ->
  log_bytes lf off (es1 ++ es2) = log_bytes lf off es1 ++ log_bytes lf (off + log_len es1) es2.
Proof using BlockCipherLaws0.
  induction es1 as [|e es1 IH]; intros off es2 Hok Hf; cbn [app].
  - cbn. by rewrite Z.add_0_r.
  - apply Forall_cons in Hf as [He Hf].
    destruct (log_bytes_cons lf off e (es1 ++ es2) Hok He) as (r & E & _ & ->).
    destruct (log_bytes_cons lf off e es1 Hok He) as (r' & E' & _ & ->). rewrite E in E'. injection E' as <-.
    rewrite (IH _ _ Hok Hf), <- app_assoc. cbn [log_len foldr]. by rewrite Z.add_assoc.
Qed.

Lemma log_bytes_len lf es : forall off, cipher_ok lf -> Forall entry_fits es -> len (log_bytes lf off es) = log_len es.
Proof using BlockCipherLaws0.
  induction es as [|e es IH]; intros off Hok Hf; [done|]. apply Forall_cons in Hf as [He Hf].
  destruct (log_bytes_cons lf off e es Hok He) as (r & _ & Hl & ->). rewrite len_app, Hl, IH by done. done.
Qed.

(** ** Lemmas: replaying *)

Section Iter.
Context {St : Type} (fn : Entry -> valuePointer -> St -> log_step St).
Context (f : St -> Entry * valuePointer -> St) (Hfn : forall e vp s, fn e vp s = Cont (f s (e, vp))).

Lemma run_txn_fold l s : run_txn fn l s = inl (foldl f s l).
Proof using Hfn. revert s. induction l as [|[e vp] l IH]; intros s; cbn; [done|]. by rewrite Hfn, IH. Qed.

(** One entry read: the branch of the loop it takes. *)
Lemma iterate_entry lf e off fuel rest lc v acc s :
  cipher_ok lf -> entry_ok e -> 0 <= off -> off + record_len e < 2 ^ 32 ->
  let r := replayed lf off e in
  let next := off + record_len e in
  iterate_loop fn (S fuel) lf (log_bytes lf off [e] ++ rest) off lc v acc s
  = if has_bit (emeta e) bitTxn then
      let lc := if bool_decide (lc = 0) then ParseTs (eKey e) else lc in
      if bool_decide (lc <> ParseTs (eKey e)) then (s, Ok v)
      else iterate_loop fn fuel lf rest next lc v (acc ++ [r]) s
    else if has_bit (emeta e) bitFinTxn then
      if bool_decide (ParseUint (vbytes (eValue e)) <> Some lc) then (s, Ok v)
      else iterate_loop fn fuel lf rest next 0 next [] (foldl f s acc)
    else if bool_decide (lc <> 0) then (s, Ok v)
    else iterate_loop fn fuel lf rest next lc next acc (f s r).
Proof using BlockCipherLaws0 Hfn.
  intros Hok [Hf Hne] Hoff Hb r next. destruct (log_bytes_cons lf off e [] Hok Hf) as (rb & E & Hl & ->).
  cbn [log_bytes]. rewrite app_nil_r. cbn [iterate_loop].
  rewrite (safeRead_record lf e off rest Hok Hf rb _ E).
  assert (Entry_isZero (entry_read e off (len (header_bytes (entry_header e)))) = false) as ->.
  { apply bool_decide_eq_false. cbn. unfold len. destruct (eKey e); [done|cbn; lia]. }
  cbn [ehlen eKey eValue emeta eoffset entry_read]. change (vbytes (Some (vbytes (eValue e)))) with (vbytes (eValue e)).
  assert (len (header_bytes (entry_header e)) + len (eKey e) + len (vbytes (eValue e)) + 4 = record_len e) as -> by done.
  pose proof (record_len_bound e Hf) as Hrb. rewrite (wrap_small 32 (record_len e)) by lia.
  rewrite (wrap_small 32 (off + record_len e)) by lia. fold next.
  change (mkVP (lf_fid lf) (record_len e) off) with (r.2).
  destruct (has_bit (emeta e) bitTxn); [done|]. destruct (has_bit (emeta e) bitFinTxn).
  - destruct (bool_decide _); [done|]. by rewrite run_txn_fold.
  - destruct (bool_decide (lc <> 0)); [done|]. by rewrite Hfn.
Qed.

Lemma iterate_txn lf ts es : forall off fuel rest lc v acc s,
  cipher_ok lf -> Forall (txn_entry_ok ts) es -> lc = 0 \/ lc = ts -> ts <> 0 -> 0 <= off ->
  off + log_len es < 2 ^ 32 ->
  iterate_loop fn (length es + fuel) lf (log_bytes lf off es ++ rest) off lc v acc s
  = iterate_loop fn fuel lf rest (off + log_len es) (if bool_decide (es = []) then lc else ts) v
      (acc ++ replay_list lf off es) s.
Proof using BlockCipherLaws0 Hfn.
  induction es as [|e es IH]; intros off fuel rest lc v acc s Hok Hes Hlc Hts Hoff Hb.
  { cbn. by rewrite Z.add_0_r, app_nil_r. }
  apply Forall_cons in Hes as [(He & Ht & Hfin & Hk) Hes].
  assert (Forall entry_fits es) as Hfit by (eapply Forall_impl; [exact Hes|]; intros x Hx; apply Hx).
  pose proof (log_len_nonneg es Hfit) as Hn. cbn [log_len foldr] in Hb. fold (log_len es) in Hb.
  pose proof (record_len_bound e (proj1 He)) as Hrb.
  change (e :: es) with ([e] ++ es). rewrite log_bytes_app by (done || (constructor; [apply He|constructor])).
  rewrite <- app_assoc. cbn [app length Nat.add].
  rewrite iterate_entry by (done || lia). rewrite Ht, Hk.
  assert ((if bool_decide (lc = 0) then ts else lc) = ts) as ->.
  { destruct (bool_decide_reflect (lc = 0)); [done|]. destruct Hlc; congruence. }
  cbv zeta. rewrite bool_decide_eq_false_2 by auto.
  replace (off + log_len [e]) with (off + record_len e) by (cbn; lia).
  rewrite (IH (off + record_len e)) by (done || auto || lia).
  rewrite (bool_decide_eq_false_2 (e :: es = [])) by done.
  replace (if bool_decide (es = []) then ts else ts) with ts by (by destruct (bool_decide _)).
  cbn [log_len foldr replay_list]. fold (log_len es). by rewrite <- app_assoc, Z.add_assoc.
Qed.

(** The entries a list of groups shows, at their offsets. *)
Fixpoint replay_groups (lf : logFile) (off : Z) (gs : list log_group) : list (Entry * valuePointer) :=
  match gs with
  | [] => []
  | g :: gs => replay_list lf off (group_data g)
               ++ replay_groups lf (off + log_len (group_written g)) gs
  end.

Definition written (gs : list log_group) : list Entry := concat (group_written <$> gs).

Lemma group_fits g : group_ok g -> Forall entry_fits (group_written g).
Proof using Type.
  destruct g as [e|ts es fin]; cbn.
  - intros [[H _] _]. by constructor.
  - intros (_ & _ & Hes & [Hf _] & _). apply Forall_app. split; [|by constructor].
    eapply Forall_impl; [exact Hes|]. intros x Hx. apply Hx.
Qed.

Lemma written_fits gs : Forall group_ok gs -> Forall entry_fits (written gs).
Proof using Type.
  induction 1 as [|g gs Hg Hgs IH]; [constructor|]. apply Forall_app. split; [by apply group_fits|done].
Qed.

Lemma iterate_groups lf gs : forall off fuel rest s,
  cipher_ok lf -> Forall group_ok gs -> 0 <= off -> off + log_len (written gs) < 2 ^ 32 ->
  iterate_loop fn (length (written gs) + fuel) lf (log_bytes lf off (written gs) ++ rest) off 0 off [] s
  = iterate_loop fn fuel lf rest (off + log_len (written gs)) 0 (off + log_len (written gs)) []
      (foldl f s (replay_groups lf off gs)).
Proof using BlockCipherLaws0 Hfn.
  induction gs as [|g gs IH]; intros off fuel rest s Hok Hgs Hoff Hb.
  { cbn. by rewrite Z.add_0_r. }
  apply Forall_cons in Hgs as [Hg Hgs]. pose proof (group_fits g Hg) as Hfit.
  change (written (g :: gs)) with (group_written g ++ written gs) in *.
  rewrite log_len_app in *. rewrite log_bytes_app, <- app_assoc by done.
  pose proof (log_len_nonneg _ (written_fits gs Hgs)) as Hn. pose proof (log_len_nonneg _ Hfit) as Hn0.
  rewrite length_app, <- Nat.add_assoc.
  assert (forall fuel' rest' s', iterate_loop fn (length (group_written g) + fuel') lf
    (log_bytes lf off (group_written g) ++ rest') off 0 off [] s'
    = iterate_loop fn fuel' lf rest' (off + log_len (group_written g)) 0 (off + log_len (group_written g)) []
        (foldl f s' (replay_list lf off (group_data g)))) as Hone.
  { intros fuel' rest' s'. destruct g as [e|ts es fin]; cbn [group_written group_data] in *.
    - destruct Hg as (He & H1 & H2). cbn [length Nat.add]. rewrite iterate_entry by (done || (cbn in Hb; lia)).
      rewrite H1, H2. cbn [log_len foldr replay_list foldl]. by rewrite Z.add_0_r.
    - destruct Hg as (Hts & Hne & Hes & Hfin & H1 & H2 & Hv).
      assert (Forall entry_fits es) as Hef by (by apply Forall_app in Hfit as [? _]).
      rewrite log_len_app in *. rewrite log_bytes_app, <- app_assoc, length_app, <- Nat.add_assoc by done.
      pose proof (record_len_bound fin (proj1 Hfin)) as Hrb. cbn [log_len foldr] in Hb, Hn0.
      pose proof (log_len_nonneg es Hef) as Hn1. fold (log_len es) in *.
      rewrite (iterate_txn lf ts es) by (done || auto || lia). rewrite bool_decide_eq_false_2 by done.
      cbn [length Nat.add app]. rewrite iterate_entry by (done || lia). rewrite H1, H2, Hv.
      change (vbytes (Some (FormatUint ts))) with (FormatUint ts). rewrite ParseUint_Format by lia.
      rewrite bool_decide_eq_false_2 by auto. cbn [log_len foldr]. fold (log_len es).
      by rewrite Z.add_0_r, Z.add_assoc. }
  rewrite Hone, (IH (off + log_len (group_written g))) by (done || lia).
  cbn [replay_groups]. by rewrite foldl_app, Z.add_assoc.
Qed.

(** After whole groups and part of a transaction the replay stops, at the end of the groups. *)
Lemma iterate_log lf gs ts part tail off fuel s :
  cipher_ok lf -> Forall group_ok gs -> Forall (txn_entry_ok ts) part -> ts <> 0 -> 0 <= off ->
  off + log_len (written gs) + log_len part < 2 ^ 32 ->
  stops lf tail (off + log_len (written gs) + log_len part) ->
  (length (written gs) + length part < fuel)%nat ->
  iterate_loop fn fuel lf (log_bytes lf off (written gs ++ part) ++ tail) off 0 off [] s
  = (foldl f s (replay_groups lf off gs), Ok (off + log_len (written gs))).
Proof using BlockCipherLaws0 Hfn.
  intros Hok Hgs Hp Hts Hoff Hb (e & He & Heof) Hfuel.
  assert (Forall entry_fits part) as Hpf by (eapply Forall_impl; [exact Hp|]; intros x Hx; apply Hx).
  pose proof (log_len_nonneg part Hpf) as Hn. pose proof (log_len_nonneg _ (written_fits gs Hgs)) as Hn0.
  rewrite log_bytes_app, <- app_assoc by (done || by apply written_fits).
  replace fuel with (length (written gs) + (length part + S (fuel - length (written gs) - length part - 1)))%nat by lia.
  rewrite iterate_groups by (done || lia). rewrite (iterate_txn lf ts part) by (done || auto || lia).
  cbn [iterate_loop]. rewrite He. destruct Heof as [->|[->| ->]]; done.
Qed.
End Iter.

(** ** Lemmas: writing *)

(** The same file as far as the encoding of entries goes. *)
Definition same_log (lf lf' : logFile) : Prop :=
  lf_fid lf = lf_fid lf' /\ lf_dataKey lf = lf_dataKey lf' /\ lf_baseIV lf = lf_baseIV lf' /\
  len (lf_Data lf) = len (lf_Data lf').

Lemma same_log_key lf lf' : same_log lf lf' -> same_key lf lf'.
Proof using Type. unfold same_log, same_key. tauto. Qed.

Lemma log_bytes_same lf lf' es : forall off, same_key lf lf' -> log_bytes lf off es = log_bytes lf' off es.
Proof using Type.
  induction es as [|e es IH]; intros off H; [done|]. cbn [log_bytes].
  rewrite (encodeEntry_same lf lf') by done. destruct (encodeEntry lf' e off) as [[r n]| |]; [|done|done].
  by rewrite IH.
Qed.

Lemma cipher_same lf lf' : same_log lf lf' -> cipher_ok lf -> cipher_ok lf'.
Proof using Type. intros (_ & E2 & E3 & _). unfold cipher_ok. by rewrite E2, E3. Qed.

Lemma same_log_trans a b c : same_log a b -> same_log b c -> same_log a c.
Proof using Type. unfold same_log. intuition congruence. Qed.

(** A log with the entries [es], room behind them and zeros after the last. *)
Record wal_ok (hdr : bytes) (lf : logFile) (es : list Entry) : Prop := {
  wo_cipher : cipher_ok lf;
  wo_hdr : len hdr = vlogHeaderSize;
  wo_fits : Forall entry_fits es;
  wo_data : exists tail, lf_Data lf = hdr ++ log_bytes lf vlogHeaderSize es ++ tail /\ zero_tail tail;
  wo_at : lf_writeAt lf = vlogHeaderSize + log_len es;
  wo_small : len (lf_Data lf) + maxHeaderSize < 2 ^ 32
}.

Lemma writeEntry_ok hdr lf es e : wal_ok hdr lf es -> entry_fits e ->
  (vlogHeaderSize + log_len es + record_len e <= len (lf_Data lf) ->
   exists lf', writeEntry lf e = Ok lf' /\ wal_ok hdr lf' (es ++ [e]) /\ same_log lf lf') /\
  (len (lf_Data lf) < vlogHeaderSize + log_len es + record_len e -> writeEntry lf e = Panic).
Proof using BlockCipherLaws0 MmapLaws0.
  intros [W1 W2 W3 (tail & W4 & W5) W6 W7] He.
  pose proof (log_len_nonneg es W3) as Hn. pose proof (record_len_bound e He) as Hrb.
  destruct (log_bytes_cons lf (vlogHeaderSize + log_len es) e [] W1 He) as (r & E & Hl & _).
  unfold writeEntry. rewrite W6, E. cbn [mbind result_bind].
  assert (len (log_bytes lf vlogHeaderSize es) = log_len es) as Hlb by (by apply log_bytes_len).
  set (pre := hdr ++ log_bytes lf vlogHeaderSize es).
  assert (len pre = vlogHeaderSize + log_len es) as Hpre by (unfold pre; rewrite len_app; lia).
  assert (lf_Data lf = pre ++ tail) as Ed by (unfold pre; by rewrite <- app_assoc).
  assert (len (lf_Data lf) = len pre + len tail) as Edl by (by rewrite Ed, len_app).
  unfold vlogHeaderSize, maxHeaderSize in *.
  split; intros Hroom.
  - assert (tail = take (length r) tail ++ drop (length r) tail) as Et by by rewrite take_drop.
    rewrite Ed, Et, <- Hpre, copy_at_app by (rewrite length_take; unfold len in *; lia).
    cbn [unpanic mbind result_bind]. rewrite Hl, bool_decide_eq_true_2 by done.
    eexists. split; [done|]. unfold zeroNextEntry, set_writeAt, set_Data. cbn [lf_Data lf_writeAt].
    set (d := pre ++ r ++ drop (length r) tail).
    assert (len d = len (lf_Data lf)) as Hd.
    { unfold d. rewrite Edl, !len_app. unfold len in *. rewrite length_drop. lia. }
    cbv [lf_writeAt lf_Data lf_fid lf_size lf_dataKey lf_baseIV lf_ReadOnly].
    rewrite (wrap_small 32 (record_len e)), (wrap_small 32 (len pre + record_len e)),
      (wrap_small 32 (len pre + record_len e + maxHeaderSize)) by (unfold maxHeaderSize, len in *; lia).
    destruct (zeroed_tail d (len pre + record_len e)) as (t & Ez & Hz); [unfold len in *; lia|unfold len in *; lia|].
    rewrite Hpre in *. rewrite Ez.
    assert (take (Z.to_nat (20 + log_len es + record_len e)) d = pre ++ r) as Etk.
    { unfold d. rewrite app_assoc. apply take_app_length'. rewrite length_app. unfold len in *. lia. }
    rewrite Etk. assert (len ((pre ++ r) ++ t) = len d) as Hlt.
    { rewrite <- Etk, <- Ez. unfold len. by rewrite ZeroOut_length. }
    match goal with |- wal_ok _ ?L _ /\ _ => assert (same_log lf L) as Hsame end.
    { split_and!; try done. cbn. by rewrite Hlt. }
    split; [|done]. split.
    + by apply (cipher_same lf).
    + done.
    + apply Forall_app. by split; [|constructor].
    + exists t. split; [|done]. cbn [lf_Data]. unfold pre.
      rewrite <- (log_bytes_same lf _ (es ++ [e]) _ (same_log_key _ _ Hsame)).
      rewrite log_bytes_app by done. change vlogHeaderSize with 20.
      destruct (log_bytes_cons lf (20 + log_len es) e [] W1 He) as (r' & E' & _ & ->). rewrite E in E'.
      injection E' as <-. cbn [log_bytes]. by rewrite app_nil_r, <- !app_assoc.
    + cbn [lf_writeAt]. rewrite log_len_app. change vlogHeaderSize with 20. cbn [log_len foldr]. lia.
    + cbn [lf_Data]. rewrite Hlt, Hd. unfold maxHeaderSize. lia.
  - rewrite Ed. unfold copy_at. rewrite bool_decide_eq_true_2 by (rewrite len_app; unfold len in *; lia).
    cbv zeta. unfold store_at. rewrite bool_decide_eq_true_2.
    2: { split; [lia|]. unfold len at 1. rewrite length_take. rewrite len_app in *. unfold len in *. lia. }
    cbn [mbind option_bind unpanic result_bind]. rewrite bool_decide_eq_false_2; [done|].
    rewrite len_app, Hl. lia.
Qed.

(** ** Lemmas: putting and recovering *)

Definition mt_puts (mt : memTable) (es : list Entry) : result log_error memTable :=
  foldl (fun r e => mt ← r; mt_Put mt (eKey e) (value_of e)) (Ok mt) es.

(** The skip list and the largest version after some entries. *)
Definition mem_of (st : list kv * Z) (es : list Entry) : list kv * Z :=
  foldl (fun st e => sl_add st (eKey e) (value_of e)) st es.

Definition not_fin (e : Entry) : bool := negb (has_bit (emeta e) bitFinTxn).

Lemma mt_puts_cons mt e es : mt_puts mt (e :: es) = mt ← mt_Put mt (eKey e) (value_of e); mt_puts mt es.
Proof using Type.
  unfold mt_puts. cbn [foldl mbind result_bind]. destruct (mt_Put mt (eKey e) (value_of e)) as [mt'|er|]; cbn [mbind result_bind].
  - done.
  - induction es as [|e' es IH]; [done|]. apply IH.
  - induction es as [|e' es IH]; [done|]. apply IH.
Qed.

Lemma max_version m ts : (if bool_decide (m < ts) then ts else m) = Z.max m ts.
Proof using Type. case_bool_decide; lia. Qed.

Lemma mt_Put_ok hdr mt lf es e mt' : wal_ok hdr lf es -> mt_wal mt = Some lf -> entry_fits e ->
  mt_Put mt (eKey e) (value_of e) = Ok mt' ->
  exists lf', mt_wal mt' = Some lf' /\ wal_ok hdr lf' (es ++ [e]) /\ same_log lf lf' /\
    (mt_sl mt', maxVersion_ mt') = mem_of (mt_sl mt, maxVersion_ mt) (filter not_fin [e]).
Proof using BlockCipherLaws0 MmapLaws0.
  intros Hw El He. unfold mt_Put. rewrite El.
  assert (writeEntry lf (entry_of (eKey e) (value_of e)) = writeEntry lf e) as -> by (by destruct e).
  destruct (writeEntry_ok hdr lf es e Hw He) as [Hroom Hfull].
  destruct (decide (vlogHeaderSize + log_len es + record_len e <= len (lf_Data lf))) as [Hr|Hr].
  2: { rewrite Hfull by lia. done. }
  destruct (Hroom Hr) as (lf' & -> & Hw' & Hs). cbn [mbind result_bind].
  change (Meta (value_of e)) with (emeta e). unfold filter. cbn. unfold not_fin.
  destruct (has_bit (emeta e) bitFinTxn); intros [= <-]; exists lf'; cbn; [done|].
  split_and!; [done..|]. by rewrite max_version.
Qed.

Lemma mem_of_app st es1 es2 : mem_of st (es1 ++ es2) = mem_of (mem_of st es1) es2.
Proof using Type. apply foldl_app. Qed.

Lemma mt_puts_ok hdr es : forall mt lf es0 mt', wal_ok hdr lf es0 -> mt_wal mt = Some lf ->
  Forall entry_fits es -> mt_puts mt es = Ok mt' ->
  exists lf', mt_wal mt' = Some lf' /\ wal_ok hdr lf' (es0 ++ es) /\ same_log lf lf' /\
    (mt_sl mt', maxVersion_ mt') = mem_of (mt_sl mt, maxVersion_ mt) (filter not_fin es).
Proof using BlockCipherLaws0 MmapLaws0.
  induction es as [|e es IH]; intros mt lf es0 mt' Hw El Hes Hp.
  - injection Hp as <-. exists lf. rewrite app_nil_r. split_and!; try done.
  - rewrite mt_puts_cons in Hp. apply Forall_cons in Hes as [He Hes].
    destruct (mt_Put mt (eKey e) (value_of e)) as [mt1| |] eqn:E; [|done..]. cbn [mbind result_bind] in Hp.
    destruct (mt_Put_ok hdr mt lf es0 e mt1 Hw El He E) as (lf1 & El1 & Hw1 & Hs1 & Em).
    destruct (IH mt1 lf1 _ mt' Hw1 El1 Hes Hp) as (lf' & El' & Hw' & Hs' & Em').
    exists lf'. rewrite <- app_assoc in Hw'. split_and!; [done|done|by eapply same_log_trans|].
    rewrite Em', Em, <- mem_of_app, <- filter_app. done.
Qed.

Lemma group_not_fin g : group_ok g -> filter not_fin (group_written g) = group_data g.
Proof using Type.
  assert (forall ts es, Forall (txn_entry_ok ts) es -> filter not_fin es = es) as Hf.
  { intros ts es Hes. apply filter_id. eapply Forall_impl; [exact Hes|]. intros e (_ & _ & H & _).
    unfold not_fin. by rewrite H. }
  destruct g as [e|ts es fin]; cbn [group_ok group_written group_data].
  - intros (_ & _ & H). unfold filter. cbn. unfold not_fin. by rewrite H.
  - intros (_ & _ & Hes & _ & _ & H & _). rewrite filter_app, (Hf ts) by done.
    assert (filter not_fin [fin] = []) as -> by (unfold filter; cbn; unfold not_fin; by rewrite H).
    apply app_nil_r.
Qed.

(** The state a replay builds from the entries it shows. *)
Definition replay_add (st : list kv * Z) (x : Entry * valuePointer) : list kv * Z :=
  sl_add st (eKey x.1) (value_of x.1).

Lemma replayFunction_add e vp st : replayFunction e vp st = Cont (replay_add st (e, vp)).
Proof using Type. unfold replayFunction, replay_add, sl_add. cbn. by rewrite max_version. Qed.

Lemma sl_put_value l key v v' : decoded v = decoded v' -> sl_put l key v = sl_put l key v'.
Proof using Type.
  intros E. induction l as [|x l IH]; cbn; rewrite ?E; [done|]. by rewrite IH.
Qed.

Lemma replay_list_mem lf es : forall off st, foldl replay_add st (replay_list lf off es) = mem_of st es.
Proof using Type.
  induction es as [|e es IH]; intros off st; [done|]. cbn [replay_list foldl]. rewrite IH.
  unfold mem_of. cbn [foldl]. f_equal. unfold replay_add, sl_add. cbn. f_equal. by apply sl_put_value.
Qed.

Definition groups_data (gs : list log_group) : list Entry := concat (group_data <$> gs).

Lemma replay_groups_mem lf gs : forall off st,
  foldl replay_add st (replay_groups lf off gs) = mem_of st (groups_data gs).
Proof using Type.
  induction gs as [|g gs IH]; intros off st; [done|]. cbn [replay_groups]. rewrite foldl_app, replay_list_mem, IH.
  unfold groups_data. cbn [fmap list_fmap concat]. by rewrite mem_of_app.
Qed.

Lemma written_not_fin gs : Forall group_ok gs -> filter not_fin (written gs) = groups_data gs.
Proof using Type.
  induction 1 as [|g gs Hg Hgs IH]; [done|]. unfold written, groups_data in *. cbn [fmap list_fmap concat].
  rewrite filter_app, IH, group_not_fin by done. done.
Qed.

(** Cutting the records of a log: whole entries, and part of the next. *)
Lemma log_bytes_cut lf es : forall off k, cipher_ok lf -> Forall entry_fits es -> 0 <= k < log_len es ->
  exists es1 e es2 r j, es = es1 ++ e :: es2 /\ log_len es1 <= k < log_len (es1 ++ [e]) /\
    encodeEntry lf e (off + log_len es1) = Ok (r, record_len e) /\ (j < length r)%nat /\
    take (Z.to_nat k) (log_bytes lf off es) = log_bytes lf off es1 ++ take j r.
Proof using BlockCipherLaws0.
  induction es as [|e es IH]; intros off k Hok Hes Hk; [cbn in Hk; lia|].
  apply Forall_cons in Hes as [He Hes]. cbn [log_len foldr] in Hk. fold (log_len es) in Hk.
  destruct (log_bytes_cons lf off e es Hok He) as (r & E & Hl & Eb). rewrite Eb.
  destruct (decide (k < record_len e)) as [Hlt|Hge].
  - exists [], e, es, r, (Z.to_nat k). cbn [app log_len foldr log_bytes]. rewrite !Z.add_0_r.
    unfold len in Hl. do 4 (split; [done || lia|]). apply take_app_le. unfold len in Hl. lia.
  - pose proof (record_len_bound e He) as Hrb.
    destruct (IH (off + record_len e) (k - record_len e) Hok Hes ltac:(lia)) as (es1 & e' & es2 & r' & j & -> & Hk' & E' & Hj & Et).
    exists (e :: es1), e', es2, r', j. cbn [app log_len foldr]. fold (log_len es1). fold (log_len (es1 ++ [e'])).
    split; [done|]. split; [lia|]. split; [by rewrite Z.add_assoc|]. split; [done|].
    destruct (log_bytes_cons lf off e es1 Hok He) as (r2 & E2 & _ & Eb1). rewrite E in E2. injection E2 as <-.
    rewrite Eb1, <- app_assoc, <- Et.
    replace (Z.to_nat k) with (length r + Z.to_nat (k - record_len e))%nat by (unfold len in Hl; lia).
    apply take_app_add.
Qed.

(** A list of groups cut inside: whole groups, and part of a transaction. *)
Lemma written_cut gs : forall es1 e es2, Forall group_ok gs -> written gs = es1 ++ e :: es2 ->
  exists gs1 g gs2 part ts, gs = gs1 ++ g :: gs2 /\ es1 = written gs1 ++ part /\
    Forall (txn_entry_ok ts) part /\ ts <> 0 /\ exists part', group_written g = part ++ e :: part'.
Proof using Type.
  induction gs as [|g gs IH]; intros es1 e es2 Hgs E.
  - cbn in E. by destruct es1.
  - apply Forall_cons in Hgs as [Hg Hgs]. change (written (g :: gs)) with (group_written g ++ written gs) in E.
    destruct (decide (length es1 < length (group_written g))%nat) as [Hlt|Hge].
    + assert (exists part', group_written g = es1 ++ e :: part') as [part' Ep].
      { exists (drop (S (length es1)) (group_written g)).
        assert (take (S (length es1)) (group_written g) = es1 ++ [e]) as Et.
        { rewrite <- (take_app_le _ (written gs)) by lia. rewrite E, cons_middle, app_assoc.
          apply take_app_length'. rewrite length_app. cbn. lia. }
        rewrite cons_middle, app_assoc, <- Et. by rewrite take_drop. }
      assert (exists ts, Forall (txn_entry_ok ts) es1 /\ ts <> 0) as (ts & Hts & Hnz).
      { destruct g as [e'|ts es fin]; cbn [group_written group_ok] in *.
        - destruct es1 as [|? es1]; [|destruct es1; cbn in Hlt; lia]. exists 1. split; [constructor|lia].
        - destruct Hg as (Hts & _ & Hes & _). exists ts. split; [|lia].
          assert (es1 = take (length es1) es) as ->.
          { rewrite length_app in Hlt. cbn in Hlt. rewrite <- (take_app_le es [fin]) by lia. rewrite Ep.
            by rewrite take_app_length. }
          by apply Forall_take. }
      exists [], g, gs, es1, ts. split_and!; [done..|by exists part'].
    + assert (es1 = group_written g ++ drop (length (group_written g)) es1) as Ees.
      { rewrite <- (take_drop (length (group_written g)) es1) at 1. f_equal.
        rewrite <- (take_app_le es1 (e :: es2)) by lia. rewrite <- E. apply take_app_length. }
      rewrite Ees, <- app_assoc in E. apply app_inv_head in E.
      destruct (IH _ _ _ Hgs E) as (gs1 & g' & gs2 & part & ts & -> & Ed & Hp & Hts & Hg').
      exists (g :: gs1), g', gs2, part, ts. split_and!; [done| |done..].
      rewrite Ees, Ed. change (written (g :: gs1)) with (group_written g ++ written gs1). by rewrite app_assoc.
Qed.

(** The log file [open] gives for a file that starts with a header. *)
Definition opened (fid : Z) (d : bytes) (dk : option DataKey) (iv : bytes) (ro : bool) : logFile :=
  mkLog (u32 fid) d (len d) dk iv vlogHeaderSize ro.

Lemma opened_cipher fid d dk iv ro latest registry : registry_ok latest registry iv dk ->
  cipher_ok (opened fid d dk iv ro).
Proof using Type.
  intros [_ _ _ Hk Hiv]. unfold cipher_ok, opened. cbn. destruct dk as [k|]; [|done]. split; [by apply Hk|lia].
Qed.

(** A new memtable: nothing in it, and a log with a header and zeros. *)
Lemma openMemTable_new latest registry iv dk ro size fid : registry_ok latest registry iv dk ->
  20 <= 2 * size -> 2 * size + maxHeaderSize < 2 ^ 32 ->
  exists mt lf, openMemTable false ro size fid None latest registry iv = Ok (mt, true) /\
    mt_wal mt = Some lf /\ mt_sl mt = [] /\ maxVersion_ mt = 0 /\ wal_ok (log_header dk iv) lf [] /\
    lf_fid lf = u32 fid /\ lf_dataKey lf = dk /\ lf_baseIV lf = iv.
Proof using BlockCipherLaws0 MmapLaws0.
  intros Hro H1 H2. pose proof (log_header_length _ _ _ _ Hro) as Hh. unfold openMemTable.
  destruct (lf_open_new latest registry iv dk (mkLog (u32 fid) [] 0 None [] vlogHeaderSize ro) (2 * size) Hro)
    as (body & Hl & Hz & ->); [unfold maxHeaderSize in *; lia|done|].
  cbn [mbind result_bind]. eexists _, _. split_and!; try done.
  split; cbn; try done.
  - apply (opened_cipher fid [] dk iv ro _ _ Hro).
  - exists body. by split.
  - unfold maxHeaderSize in *. lia.
Qed.

Lemma length_log_len es : Forall entry_fits es -> Z.of_nat (length es) <= log_len es.
Proof using Type.
  induction 1 as [|e es He Hes IH]; [done|]. pose proof (record_len_bound e He). cbn [log_len foldr length].
  fold (log_len es). lia.
Qed.

(** A log file with whole groups, part of a transaction and something that ends it. *)
Lemma openMemTable_file latest registry iv dk ro size fid gs ts part tail lf :
  let d := log_header dk iv ++ log_bytes lf 20 (written gs ++ part) ++ tail in
  let end_ := 20 + log_len (written gs) in
  registry_ok latest registry iv dk -> lf_dataKey lf = dk -> lf_baseIV lf = iv ->
  Forall group_ok gs -> Forall (txn_entry_ok ts) part -> ts <> 0 ->
  len d < 2 ^ 32 -> stops (opened fid d dk iv ro) tail (end_ + log_len part) ->
  openMemTable false ro size fid (Some d) latest registry iv
  = let '(sl, mv) := mem_of ([], 0) (groups_data gs) in
    if bool_decide (end_ < len d) && ro then Err ErrTruncateNeeded
    else Ok (mkMT sl (Some (mkLog (u32 fid) (take (Z.to_nat end_) d) end_ dk iv vlogHeaderSize ro)) mv, false).
Proof using BlockCipherLaws0 MmapLaws0.
  intros d end_ Hro Ek Ei Hgs Hp Hts Hd Hstop. pose proof (log_header_length _ _ _ _ Hro) as Hh.
  pose proof (opened_cipher fid d dk iv ro _ _ Hro) as Hc.
  assert (Forall entry_fits part) as Hpf by (eapply Forall_impl; [exact Hp|]; intros x Hx; apply Hx).
  assert (Forall entry_fits (written gs ++ part)) as Hfit by (apply Forall_app; split; [by apply written_fits|done]).
  pose proof (length_log_len _ Hfit) as Hn. rewrite log_len_app, length_app in Hn.
  pose proof (log_len_nonneg part Hpf) as Hn1. pose proof (log_len_nonneg _ (written_fits gs Hgs)) as Hn2.
  assert (same_key lf (opened fid d dk iv ro)) as Hk by done.
  unfold openMemTable. set (lf0 := mkLog (u32 fid) [] 0 None [] vlogHeaderSize ro).
  rewrite (open_bytes latest registry iv dk lf0 _ _ (2 * size) Hro Hd) by by left.
  cbn [mbind result_bind]. rewrite bool_decide_eq_false_2 by done. fold d.
  change (mkLog (lf_fid lf0) d (len d) dk iv (lf_writeAt lf0) (lf_ReadOnly lf0)) with (opened fid d dk iv ro).
  unfold UpdateSkipList. cbn [mt_wal mt_sl maxVersion_]. unfold iterate. rewrite bool_decide_eq_true_2 by done.
  cbv zeta. unfold vlogHeaderSize. change (lf_Data (opened fid d dk iv ro)) with d.
  assert (drop (Z.to_nat 20) d = log_bytes (opened fid d dk iv ro) 20 (written gs ++ part) ++ tail) as Edr.
  { unfold d. rewrite drop_app_length' by (unfold len in *; lia). f_equal. by apply log_bytes_same. }
  assert (len (drop (Z.to_nat 20) d) = log_len (written gs) + log_len part + len tail) as El.
  { rewrite Edr, len_app, log_bytes_len, log_len_app by done. done. }
  assert (len d = 20 + (log_len (written gs) + log_len part) + len tail) as Ed.
  { transitivity (20 + len (drop (Z.to_nat 20) d)); [|lia]. unfold d. rewrite len_app, drop_app_length' by (unfold len in *; lia). lia. }
  rewrite Edr. rewrite (iterate_log replayFunction replay_add replayFunction_add _ gs ts part tail) by
    (done || (fold end_; unfold len in *; lia) || (rewrite <- Edr; unfold len in *; lia)).
  rewrite replay_groups_mem. fold end_. destruct (mem_of ([], 0) (groups_data gs)) as [sl mv].
  change (lf_size (opened fid d dk iv ro)) with (len d). change (lf_ReadOnly (opened fid d dk iv ro)) with ro.
  destruct (bool_decide (end_ < len d) && ro) eqn:Ero; [done|].
  unfold lf_Truncate. change (lf_Data (opened fid d dk iv ro)) with d.
  destruct (bool_decide_reflect (len d = end_)) as [He|He].
  - cbn [mbind result_bind]. rewrite take_ge by (unfold len in *; lia). unfold opened. by rewrite He.
  - change (lf_ReadOnly (opened fid d dk iv ro)) with ro.
    assert (ro = false) as ->.
    { destruct ro; [|done]. rewrite bool_decide_eq_true_2 in Ero by (unfold len in *; lia). done. }
    cbn [mbind result_bind]. unfold set_size, set_Data, opened. cbn [lf_fid lf_Data lf_dataKey lf_baseIV lf_writeAt lf_ReadOnly].
    rewrite Truncate_take, (wrap_small 32 end_) by (unfold len in *; lia). done.
Qed.

(** Cutting the entries of whole groups and an unfinished transaction before some entry [e]. *)
Lemma log_cut gs ts part es1 e es2 : Forall group_ok gs -> Forall (txn_entry_ok ts) part -> ts <> 0 ->
  written gs ++ part = es1 ++ e :: es2 ->
  exists gs1 gs2 part1 ts1, gs = gs1 ++ gs2 /\ es1 = written gs1 ++ part1 /\
    Forall (txn_entry_ok ts1) part1 /\ ts1 <> 0 /\
    forall g gs2', gs2 = g :: gs2' -> exists part', group_written g = part1 ++ e :: part'.
Proof using Type.
  intros Hgs Hp Hts E. destruct (decide (length es1 < length (written gs))%nat) as [Hlt|Hge].
  - assert (written gs = es1 ++ e :: drop (S (length es1)) (written gs)) as Ew.
    { assert (take (S (length es1)) (written gs) = es1 ++ [e]) as Et.
      { rewrite <- (take_app_le _ part) by lia. rewrite E, cons_middle, app_assoc.
        apply take_app_length'. rewrite length_app. cbn. lia. }
      rewrite cons_middle, app_assoc, <- Et. by rewrite take_drop. }
    destruct (written_cut gs _ _ _ Hgs Ew) as (gs1 & g & gs2 & part1 & ts1 & -> & -> & Hp1 & Hts1 & Hg).
    exists gs1, (g :: gs2), part1, ts1. split_and!; [done..|]. by intros ? ? [= <- _].
  - exists gs, [], (drop (length (written gs)) es1), ts.
    assert (es1 = written gs ++ drop (length (written gs)) es1) as Ees.
    { rewrite <- (take_drop (length (written gs)) es1) at 1. f_equal.
      rewrite <- (take_app_le es1 (e :: es2)) by lia. rewrite <- E. apply take_app_length. }
    split_and!; [by rewrite app_nil_r|done| |done|done].
    rewrite Ees, <- app_assoc in E. apply app_inv_head in E. rewrite E in Hp.
    by apply Forall_app in Hp as [? _].
Qed.

(** The bytes of a log up to any point: whole groups, part of a transaction, and an end. *)
Lemma log_take hdr lf gs ts part n : wal_ok hdr lf (written gs ++ part) -> Forall group_ok gs ->
  Forall (txn_entry_ok ts) part -> ts <> 0 -> 20 <= n <= len (lf_Data lf) ->
  exists gs1 gs2 part1 ts1 tail1, gs = gs1 ++ gs2 /\
    take (Z.to_nat n) (lf_Data lf) = hdr ++ log_bytes lf 20 (written gs1 ++ part1) ++ tail1 /\
    Forall (txn_entry_ok ts1) part1 /\ ts1 <> 0 /\
    (forall lf', same_key lf lf' -> stops lf' tail1 (20 + log_len (written gs1) + log_len part1)) /\
    (forall g gs2', gs2 = g :: gs2' -> n < 20 + log_len (written (gs1 ++ [g]))).
Proof using BlockCipherLaws0.
  intros [Hc Hh Hf (tail & Ed & Hz) _ _] Hgs Hp Hts Hn. change vlogHeaderSize with 20 in *.
  assert (forall lf', same_key lf lf' -> cipher_ok lf') as Hc' by (intros lf' [E1 E2]; unfold cipher_ok in *; by rewrite <- E1, <- E2).
  pose proof (log_bytes_len lf _ 20 Hc Hf) as Hl. set (es := written gs ++ part) in *. rewrite Ed in Hn |- *.
  assert (forall l : bytes, take (Z.to_nat n) (hdr ++ l) = hdr ++ take (Z.to_nat (n - 20)) l) as Eh.
  { intros l. replace (Z.to_nat n) with (length hdr + Z.to_nat (n - 20))%nat by (unfold len in Hh; lia). apply take_app_add. }
  rewrite Eh. destruct (decide (n - 20 < log_len es)) as [Hlt|Hge].
  - rewrite take_app_le by (unfold len in Hl; lia).
    destruct (log_bytes_cut lf es 20 (n - 20) Hc Hf) as (es1 & e & es2 & r & j & Ees & Hk & Ee & Hj & ->); [lia|].
    destruct (log_cut gs ts part es1 e es2 Hgs Hp Hts Ees) as (gs1 & gs2 & part1 & ts1 & -> & E1 & Hp1 & Hts1 & Hg).
    assert (entry_fits e) as He by (rewrite Ees in Hf; apply Forall_app in Hf as [_ Hf]; by apply Forall_cons in Hf as [? _]).
    exists gs1, gs2, part1, ts1, (take j r). split_and!; [done|by rewrite E1|done|done| |].
    + intros lf' Hs. rewrite <- Z.add_assoc, <- log_len_app, <- E1.
      apply (torn_stops lf' e _ r (record_len e) j); [by apply Hc'|done| |done].
      by rewrite <- (encodeEntry_same lf lf').
    + intros g gs2' ->. destruct (Hg g gs2' eq_refl) as [part' Eg].
      assert (written (gs1 ++ [g]) = (es1 ++ [e]) ++ part') as ->.
      { unfold written in *. rewrite fmap_app, concat_app. cbn. by rewrite Eg, app_nil_r, E1, <- !app_assoc. }
      rewrite log_len_app. enough (0 <= log_len part') by lia. apply log_len_nonneg.
      apply Forall_app in Hgs as [_ Hgs]. apply Forall_cons in Hgs as [Hgo _]. apply group_fits in Hgo.
      rewrite Eg in Hgo. apply Forall_app in Hgo as [_ Hgo]. by apply Forall_cons in Hgo as [_ ?].
  - exists gs, [], part, ts, (take (Z.to_nat (n - 20 - log_len es)) tail).
    split_and!; [by rewrite app_nil_r| |done|done| |done].
    + replace (Z.to_nat (n - 20)) with (length (log_bytes lf 20 es) + Z.to_nat (n - 20 - log_len es))%nat by (unfold len in Hl; lia).
      by rewrite take_app_add.
    + intros lf' Hs. apply zero_tail_stops; [by apply Hc'|]. unfold zero_tail in *.
      rewrite take_take, Nat.min_comm, <- take_take. by apply Forall_take.
Qed.

(** Reopening what survives of the log of a memtable. *)
Lemma mem_recovers latest registry iv dk size fid mt0 mt gs ts part :
  registry_ok latest registry iv dk -> 20 <= 2 * size -> 2 * size + maxHeaderSize < 2 ^ 32 ->
  openMemTable false false size fid None latest registry iv = Ok (mt0, true) ->
  Forall group_ok gs -> Forall (txn_entry_ok ts) part -> ts <> 0 ->
  mt_puts mt0 (written gs ++ part) = Ok mt ->
  exists wal, mt_wal mt = Some wal /\
    (mt_sl mt, maxVersion_ mt) = mem_of ([], 0) (groups_data gs ++ part) /\
    20 + log_len (written gs ++ part) <= len (lf_Data wal) /\
    forall n, 20 <= n <= len (lf_Data wal) ->
    exists gs1 gs2 wal', gs = gs1 ++ gs2 /\
      (forall g gs2', gs2 = g :: gs2' -> n < 20 + log_len (written (gs1 ++ [g]))) /\
      openMemTable false false size fid (Some (take (Z.to_nat n) (lf_Data wal))) latest registry iv
      = (let '(sl, mv) := mem_of ([], 0) (groups_data gs1) in Ok (mkMT sl (Some wal') mv, false)) /\
      len (lf_Data wal') = 20 + log_len (written gs1) /\ lf_Data wal' `prefix_of` lf_Data wal.
Proof using BlockCipherLaws0 MmapLaws0.
  intros Hro H1 H2 Ho Hgs Hp Hts Hputs.
  destruct (openMemTable_new latest registry iv dk false size fid Hro H1 H2)
    as (mt0' & lf0 & Ho' & Ewal & Esl & Emv & Hw0 & Ef & Ek & Ei). rewrite Ho in Ho'. injection Ho' as <-.
  assert (Forall entry_fits (written gs ++ part)) as Hfit.
  { apply Forall_app. split; [by apply written_fits|]. eapply Forall_impl; [exact Hp|]. intros x Hx. apply Hx. }
  destruct (mt_puts_ok _ _ mt0 lf0 [] mt Hw0 Ewal Hfit Hputs) as (lf & El & Hw & Hs & Em). cbn [app] in Hw.
  exists lf. split; [done|]. split.
  { rewrite Em, Esl, Emv, filter_app, written_not_fin by done. do 2 f_equal. apply filter_id.
    eapply Forall_impl; [exact Hp|]. intros e (_ & _ & H & _). unfold not_fin. by rewrite H. }
  split.
  { destruct (wo_data _ _ _ Hw) as (tail & -> & _). rewrite !len_app, log_bytes_len by (done || apply Hw).
    rewrite (wo_hdr _ _ _ Hw). unfold vlogHeaderSize. pose proof (len_nonneg tail). lia. }
  intros n Hn. destruct (log_take _ lf gs ts part n Hw Hgs Hp Hts Hn)
    as (gs1 & gs2 & part1 & ts1 & tail1 & -> & Et & Hp1 & Hts1 & Hstop & Hmax).
  apply Forall_app in Hgs as [Hgs1 _]. destruct Hs as (Es1 & Es2 & Es3 & _).
  pose proof (wo_small _ _ _ Hw) as Hsmall.
  assert (len (take (Z.to_nat n) (lf_Data lf)) < 2 ^ 32) as Hlt.
  { unfold len in *. rewrite length_take. unfold maxHeaderSize in Hsmall. lia. }
  rewrite Et in Hlt |- *.
  pose proof (openMemTable_file latest registry iv dk false size fid gs1 ts1 part1 tail1 lf) as Hopen. cbv zeta in Hopen.
  rewrite andb_false_r in Hopen. rewrite Hopen by (done || congruence || (apply Hstop; split; cbn; congruence)).
  exists gs1, gs2, (mkLog (u32 fid) (take (Z.to_nat (20 + log_len (written gs1))) (take (Z.to_nat n) (lf_Data lf)))
    (20 + log_len (written gs1)) dk iv vlogHeaderSize false).
  split; [done|]. split; [done|]. rewrite Et. split; [done|]. cbn [lf_Data]. split.
  - pose proof (log_header_length _ _ _ _ Hro) as Hh.
    assert (cipher_ok lf) as Hc by apply Hw. pose proof (written_fits gs1 Hgs1) as Hf1.
    pose proof (log_len_nonneg _ Hf1) as Hn1.
    rewrite log_bytes_app by done. pose proof (log_bytes_len lf _ 20 Hc Hf1) as Hl1.
    unfold len in *. rewrite length_take, !length_app. lia.
  - rewrite <- Et. etrans; apply prefix_take.
Qed.

(** ** Properties *)

(** C7: A memtable comes back after a crash.  Of a new memtable into which whole groups (single
    entries and finished transactions) and the beginning of a transaction were put, let the log
    file survive up to any byte.  Opening it succeeds, the skip list and the largest version are
    those of the first groups - the most groups of which every byte survived -, no entry of an
    unfinished or torn transaction is visible, and the log is cut back to the end of these
    groups. *)
Theorem memtable_recovers latest registry iv dk size fid mt0 mt gs ts part :
  registry_ok latest registry iv dk -> 20 <= 2 * size -> 2 * size + maxHeaderSize < 2 ^ 32 ->
  openMemTable false false size fid None latest registry iv = Ok (mt0, true) ->
  Forall group_ok gs -> Forall (txn_entry_ok ts) part -> ts <> 0 ->
  mt_puts mt0 (written gs ++ part) = Ok mt ->
  exists wal, mt_wal mt = Some wal /\
    (mt_sl mt, maxVersion_ mt) = mem_of ([], 0) (groups_data gs ++ part) /\
    20 + log_len (written gs ++ part) <= len (lf_Data wal) /\
    forall n, 20 <= n <= len (lf_Data wal) ->
    exists gs1 gs2 wal', gs = gs1 ++ gs2 /\
      (forall g gs2', gs2 = g :: gs2' -> n < 20 + log_len (written (gs1 ++ [g]))) /\
      openMemTable false false size fid (Some (take (Z.to_nat n) (lf_Data wal))) latest registry iv
      = (let '(sl, mv) := mem_of ([], 0) (groups_data gs1) in Ok (mkMT sl (Some wal') mv, false)) /\
      len (lf_Data wal') = 20 + log_len (written gs1) /\ lf_Data wal' `prefix_of` lf_Data wal.
Proof using BlockCipherLaws0 MmapLaws0. apply mem_recovers. Qed.
End Replay.

(** ** Witness: an enciphered log of a single entry, a transaction and the start of another *)

Definition wal_key : DataKey := mkDataKey 7 (replicate 16 x2a).
Definition wal_iv : bytes := replicate 12 x11.
Definition wal_latest : result log_error (option DataKey) := Ok (Some wal_key).
Definition wal_registry (id : Z) : result log_error (option DataKey) :=
  if bool_decide (id = 7) then Ok (Some wal_key) else Ok None.

Definition wal_entry (k : byte) (ts : Z) (m : byte) (v : bytes) : Entry :=
  mkEntry (KeyWithTs [k] ts) (Some v) 0 0 0 x00 m 0 0.

Definition wal_groups : list log_group :=
  [GSingle (wal_entry x61 3 x00 [x01]);
   GTxn 5 [wal_entry x61 5 x40 [x02]; wal_entry x62 5 x40 [x03]] (wal_entry x21 5 x80 (FormatUint 5))].
Definition wal_part : list Entry := [wal_entry x63 6 x40 [x04]].

Definition wal_new : memTable :=
  match openMemTable false false 128 1 None wal_latest wal_registry wal_iv with
  | Ok (mt, _) => mt | _ => mkMT [] None 0 end.
Definition wal_put : memTable :=
  match mt_puts wal_new (written wal_groups ++ wal_part) with Ok mt => mt | _ => mkMT [] None 0 end.

Lemma wal_registry_ok : registry_ok wal_latest wal_registry wal_iv (Some wal_key).
Proof. split; [done|cbn; unfold is_u64; lia|done| |done]. intros k [= <-]. by eexists. Qed.

Lemma wal_entry_fits k ts m v : 0 <= ts < 2 ^ 64 -> len v <= 100 -> entry_ok (wal_entry k ts m v).
Proof.
  intros Ht Hv. unfold entry_ok, entry_fits, wal_entry, is_u64. cbn [eKey eValue eExpiresAt].
  change (vbytes (Some v)) with v.
  assert (len (KeyWithTs [k] ts) = 9) as ->.
  { unfold KeyWithTs, len. rewrite length_app. unfold U64ToBytes. rewrite be_encode_length. done. }
  split; [split_and!; lia|]. unfold KeyWithTs. done.
Qed.

Lemma wal_groups_ok : Forall group_ok wal_groups.
Proof.
  assert (forall k ts m v, entry_ok (wal_entry k ts m v) -> has_bit m bitTxn = true -> has_bit m bitFinTxn = false ->
    ParseTs (KeyWithTs [k] ts) = ts -> txn_entry_ok ts (wal_entry k ts m v)) as Ht by (intros; by split_and!).
  repeat apply Forall_cons_2; [| |constructor].
  - split; [apply wal_entry_fits; [lia|by vm_compute]|done].
  - split; [unfold MaxUint64; lia|]. split; [done|]. split; [|split; [apply wal_entry_fits; [lia|by vm_compute]|by split_and!]].
    repeat apply Forall_cons_2; [| |constructor]; (apply Ht; [apply wal_entry_fits; [lia|by vm_compute]|reflexivity..]).
Qed.

Lemma memtable_recovers_witness :
  exists wal wal', mt_wal wal_put = Some wal /\
    openMemTable false false 128 1 (Some (take 105 (lf_Data wal))) wal_latest wal_registry wal_iv
    = (let '(sl, mv) := mem_of ([], 0) (groups_data wal_groups) in Ok (mkMT sl (Some wal') mv, false)).
Proof.
  destruct (memtable_recovers wal_latest wal_registry wal_iv (Some wal_key) 128 1 wal_new wal_put wal_groups 6 wal_part)
    as (wal & Hw & _ & _ & Hr).
  - exact wal_registry_ok.
  - lia.
  - by vm_compute.
  - vm_compute. reflexivity.
  - exact wal_groups_ok.
  - repeat apply Forall_cons_2; [|constructor]. split; [apply wal_entry_fits; [lia|by vm_compute]|by split_and!].
  - lia.
  - vm_compute. reflexivity.
  - assert (20 <= 105 <= len (lf_Data wal)) as Hn.
    { assert (mt_wal wal_put = Some wal) as E by exact Hw. clear Hw Hr.
      assert (exists w, mt_wal wal_put = Some w /\ (105 <=? len (lf_Data w)) = true) as (w & E' & H).
      { eexists. split; vm_compute; reflexivity. }
      rewrite E in E'. injection E' as <-. lia. }
    destruct (Hr 105 Hn) as (gs1 & gs2 & wal' & Eg & Hmax & Ho & _).
    assert (gs2 = []) as ->.
    { destruct gs2 as [|g gs2]; [done|]. specialize (Hmax g gs2 eq_refl). exfalso.
      destruct gs1 as [|g1 [|g2 gs1]].
      - injection Eg as <- _. vm_compute in Hmax. discriminate Hmax.
      - injection Eg as <- <- _. vm_compute in Hmax. discriminate Hmax.
      - injection Eg as _ _ Eg. by destruct gs1. }
    rewrite app_nil_r in Eg. subst gs1. exists wal, wal'. split; [exact Hw|exact Ho].
Defined.
