(* ===== verification/Iterators.v ===== *)
(** * Iterators: merging and concatenating sorted runs (y/iterator.go, table/iterator.go,
    table/merge_iterator.go)

    [YIterator] is the interface [y.Iterator]; [None] is a panic.  [YIteratorLaws] is its
    contract: an iterator ranges over a run of entries, sorted in the direction of travel, and
    always stands before a suffix of it; [sk] are the keys it can be asked to seek.  Table iterators, [ConcatIterator] and [MergeIterator]
    satisfy it, so a tree of them does. *)

From S2P Require Import Prelude Keys Codec Bloom Checksum Block Tables TableFile TableBuild.

(** ** The interface *)

Class YIterator (S : Type) : Type := {
  y_Next : S -> option S;
  y_Rewind : S -> option S;
  y_Seek : S -> bytes -> option S;
  y_Key : S -> bytes;
  y_Value : S -> option ValueStruct;
  y_Valid : S -> bool
}.

(** The order of travel. *)
Definition dcmp (rev : bool) (a b : bytes) : comparison :=
  if rev then compareKeys b a else compareKeys a b.

#[export] Instance dcmp_laws rev : CmpLaws (dcmp rev).
Proof.
  destruct rev; [|apply compareKeys_laws]. split; unfold dcmp.
  - intros x y. rewrite (cmp_eq compareKeys). split; congruence.
  - intros x y. apply (cmp_antisym compareKeys).
  - intros x y z H1 H2. by apply (cmp_trans compareKeys _ y).
Qed.

Definition run_sorted (rev : bool) (l : list kv) : Prop :=
  StronglySorted (fun x y => dcmp rev x.1 y.1 = Lt) l.

(** Where [Seek] leaves the iterator: before the first entry not before [key]. *)
Fixpoint run_from (rev : bool) (key : bytes) (l : list kv) : list kv :=
  match l with
  | [] => []
  | x :: l' => if bool_decide (dcmp rev x.1 key = Lt) then run_from rev key l' else l
  end.

Definition all_ts (l : list kv) : Prop := Forall (fun x => has_ts x.1) l.

Class YIteratorLaws (S : Type) `{YIterator S} (rev : bool) (sk : bytes -> Prop) : Type := {
  y_over : S -> list kv -> Prop;
  y_at : S -> list kv -> list kv -> Prop;
  y_at_over s es l : y_at s es l -> y_over s es;
  y_over_ok s es : y_over s es -> run_sorted rev es /\ all_ts es;
  y_at_suffix s es l : y_at s es l -> exists pre, es = pre ++ l;
  y_rewind s es : y_over s es -> exists s', y_Rewind s = Some s' /\ y_at s' es es;
  y_seek s es key : y_over s es -> sk key -> has_ts key ->
    exists s', y_Seek s key = Some s' /\ y_at s' es (run_from rev key es);
  y_next s es x l : y_at s es (x :: l) -> exists s', y_Next s = Some s' /\ y_at s' es l;
  y_valid s es l : y_at s es l -> y_Valid s = bool_decide (l <> []);
  y_shows s es x l : y_at s es (x :: l) -> y_Key s = x.1 /\ y_Value s = Some x.2
}.

(** ** [MergeIterator] *)

Record node (S : Type) : Type := mkNode { n_valid : bool; n_key : bytes; n_iter : S }.
Arguments mkNode {S}.
Arguments n_valid {S}.
Arguments n_key {S}.
Arguments n_iter {S}.

Record MergeIterator (A B : Type) : Type := mkMerge {
  m_left : node A;
  m_right : node B;
  m_smallLeft : bool;        (* small points to left *)
  m_curKey : bytes;
  m_reverse : bool
}.
Arguments mkMerge {A B}.
Arguments m_left {A B}.
Arguments m_right {A B}.
Arguments m_smallLeft {A B}.
Arguments m_curKey {A B}.
Arguments m_reverse {A B}.

Section Node.
Context {S : Type} `{I : YIterator S}.

Definition setKey (n : node S) : node S :=
  let v := y_Valid (n_iter n) in
  mkNode v (if v then y_Key (n_iter n) else n_key n) (n_iter n).

Definition on_iter (n : node S) (f : S -> option S) : option (node S) :=
  it ← f (n_iter n); Some (setKey (mkNode (n_valid n) (n_key n) it)).

Definition node_next (n : node S) : option (node S) := on_iter n y_Next.
Definition node_rewind (n : node S) : option (node S) := on_iter n y_Rewind.
Definition node_seek (n : node S) (key : bytes) : option (node S) :=
  on_iter n (fun it => y_Seek it key).
End Node.

Section Merge.
Context {A B : Type} `{IA : YIterator A} `{IB : YIterator B}.
Implicit Types m : MergeIterator A B.

(** Two iterators of [NewMergeIterator]. *)
Definition merge_of (a : A) (b : B) (reverse : bool) : MergeIterator A B :=
  mkMerge (mkNode false [] a) (mkNode false [] b) true [] reverse.

Definition small_valid m : bool := if m_smallLeft m then n_valid (m_left m) else n_valid (m_right m).
Definition bigger_valid m : bool := if m_smallLeft m then n_valid (m_right m) else n_valid (m_left m).
Definition small_key m : bytes := if m_smallLeft m then n_key (m_left m) else n_key (m_right m).
Definition bigger_key m : bytes := if m_smallLeft m then n_key (m_right m) else n_key (m_left m).

Definition swapSmall m : MergeIterator A B :=
  mkMerge (m_left m) (m_right m) (negb (m_smallLeft m)) (m_curKey m) (m_reverse m).

Definition set_left m (n : node A) : MergeIterator A B :=
  mkMerge n (m_right m) (m_smallLeft m) (m_curKey m) (m_reverse m).

Definition set_right m (n : node B) : MergeIterator A B :=
  mkMerge (m_left m) n (m_smallLeft m) (m_curKey m) (m_reverse m).

Definition merge_fix m : option (MergeIterator A B) :=
  if negb (bigger_valid m) then Some m
  else if negb (small_valid m) then Some (swapSmall m)
  else
    cmp ← CompareKeys (small_key m) (bigger_key m);
    match cmp with
    | Eq =>
        right ← node_next (m_right m);
        let m := set_right m right in
        Some (if m_smallLeft m then m else swapSmall m)
    | Lt => Some (if m_reverse m then swapSmall m else m)
    | Gt => Some (if m_reverse m then m else swapSmall m)
    end.

Definition setCurrent m : MergeIterator A B :=
  mkMerge (m_left m) (m_right m) (m_smallLeft m) (small_key m) (m_reverse m).

Definition small_next m : option (MergeIterator A B) :=
  if m_smallLeft m then n ← node_next (m_left m); Some (set_left m n)
  else n ← node_next (m_right m); Some (set_right m n).

(** The loop of [Next], [fuel] bounding its rounds. *)
Fixpoint merge_skip (fuel : nat) m : option (MergeIterator A B) :=
  if small_valid m then
    if bool_decide (small_key m <> m_curKey m) then Some m
    else
      match fuel with
      | O => None
      | S fuel => m ← small_next m; m ← merge_fix m; merge_skip fuel m
      end
  else Some m.

Definition merge_Next (fuel : nat) m : option (MergeIterator A B) :=
  m ← merge_skip fuel m; Some (setCurrent m).

Definition merge_Rewind m : option (MergeIterator A B) :=
  l ← node_rewind (m_left m);
  r ← node_rewind (m_right m);
  m ← merge_fix (set_right (set_left m l) r);
  Some (setCurrent m).

Definition merge_Seek m (key : bytes) : option (MergeIterator A B) :=
  l ← node_seek (m_left m) key;
  r ← node_seek (m_right m) key;
  m ← merge_fix (set_right (set_left m l) r);
  Some (setCurrent m).

Definition merge_Value m : option ValueStruct :=
  if m_smallLeft m then y_Value (n_iter (m_left m)) else y_Value (n_iter (m_right m)).
End Merge.

(** A thousand rounds of [Next]'s loop; [merge_skip_ok] shows that one is enough over lawful
    iterators, whatever the bound. *)
#[export] Instance MergeIterator_it {A B} `{YIterator A} `{YIterator B} :
    YIterator (MergeIterator A B) := {
  y_Next := merge_Next 1000;
  y_Rewind := merge_Rewind;
  y_Seek := merge_Seek;
  y_Key := small_key;
  y_Value := merge_Value;
  y_Valid := small_valid
}.

(** [NewMergeIterator] of a list: iterators of any type, an empty list giving nil. *)
Inductive AnyIter : Type := Any (S : Type) (I : YIterator S) (s : S).

Definition merge_any (a b : AnyIter) (reverse : bool) : AnyIter :=
  match a, b with
  | Any A IA a, Any B IB b => Any (MergeIterator A B) (MergeIterator_it (A := A) (B := B)) (merge_of a b reverse)
  end.

Fixpoint NewMergeIterator (fuel : nat) (iters : list AnyIter) (reverse : bool) : option AnyIter :=
  match fuel with
  | O => None
  | S fuel =>
      match iters with
      | [] => None
      | [a] => Some a
      | [a; b] => Some (merge_any a b reverse)
      | _ =>
          let mid := (length iters / 2)%nat in
          l ← NewMergeIterator fuel (take mid iters) reverse;
          r ← NewMergeIterator fuel (drop mid iters) reverse;
          Some (merge_any l r reverse)
      end
  end.

(** ** [ConcatIterator]

    [A] is the iterator type, [tables] gives for every table its biggest and smallest key and a
    fresh iterator.  [cur] is a pointer to [iters[idx]] or nil; the model keeps whether it is
    nil and reads the iterator from the list. *)

Record ctable (A : Type) : Type := mkCT { ct_smallest : bytes; ct_biggest : bytes; ct_open : A }.
Arguments mkCT {A}.
Arguments ct_smallest {A}.
Arguments ct_biggest {A}.
Arguments ct_open {A}.

Record ConcatIterator (A : Type) : Type := mkConcat {
  c_idx : Z;
  c_cur : bool;
  c_iters : list (option A);
  c_tables : list (ctable A);
  c_reversed : bool
}.
Arguments mkConcat {A}.
Arguments c_idx {A}.
Arguments c_cur {A}.
Arguments c_iters {A}.
Arguments c_tables {A}.
Arguments c_reversed {A}.

Section Concat.
Context {A : Type} `{IA : YIterator A}.
Implicit Types c : ConcatIterator A.

Definition NewConcatIterator (tbls : list (ctable A)) (reversed : bool) : ConcatIterator A :=
  mkConcat (-1) false (replicate (length tbls) None) tbls reversed.

Definition concat_setIdx c (i : Z) : option (ConcatIterator A) :=
  if bool_decide (i < 0 \/ len (c_iters c) <= i)
  then Some (mkConcat i false (c_iters c) (c_tables c) (c_reversed c))
  else
    it ← c_iters c !! Z.to_nat i;
    match it with
    | Some _ => Some (mkConcat i true (c_iters c) (c_tables c) (c_reversed c))
    | None =>
        t ← c_tables c !! Z.to_nat i;
        Some (mkConcat i true (<[Z.to_nat i := Some (ct_open t)]> (c_iters c)) (c_tables c)
                (c_reversed c))
    end.

(** [s.cur]; a method call on nil panics. *)
Definition cur_iter c : option A :=
  if c_cur c then match c_iters c !! Z.to_nat (c_idx c) with Some (Some a) => Some a | _ => None end
  else None.

Definition on_cur c (f : A -> option A) : option (ConcatIterator A) :=
  a ← cur_iter c;
  a ← f a;
  Some (mkConcat (c_idx c) true (<[Z.to_nat (c_idx c) := Some a]> (c_iters c)) (c_tables c) (c_reversed c)).

Definition concat_Rewind c : option (ConcatIterator A) :=
  if bool_decide (len (c_iters c) = 0) then Some c
  else
    c ← concat_setIdx c (if c_reversed c then len (c_iters c) - 1 else 0);
    on_cur c y_Rewind.

Definition concat_Valid c : bool :=
  match cur_iter c with Some a => y_Valid a | None => false end.
Definition concat_Key c : bytes :=
  match cur_iter c with Some a => y_Key a | None => [] end.
Definition concat_Value c : option ValueStruct := a ← cur_iter c; y_Value a.

Definition concat_Seek c (key : bytes) : option (ConcatIterator A) :=
  let n := length (c_tables c) in
  let idx :=
    if c_reversed c then
      Z.of_nat n - 1 - Z.of_nat (sort_Search n (fun i =>
        match c_tables c !! (n - 1 - i)%nat with
        | Some t => bool_decide (compareKeys (ct_smallest t) key <> Gt) | None => true end))
    else
      Z.of_nat (sort_Search n (fun i =>
        match c_tables c !! i with
        | Some t => bool_decide (compareKeys (ct_biggest t) key <> Lt) | None => true end)) in
  if bool_decide (len (c_tables c) <= idx \/ idx < 0) then concat_setIdx c (-1)
  else c ← concat_setIdx c idx; on_cur c (fun a => y_Seek a key).

(** The loop of [Next] over tables that turn out to be empty. *)
Fixpoint concat_skip (fuel : nat) c : option (ConcatIterator A) :=
  match fuel with
  | O => None
  | S fuel =>
      c ← concat_setIdx c (if c_reversed c then c_idx c - 1 else c_idx c + 1);
      if negb (c_cur c) then Some c
      else
        c ← on_cur c y_Rewind;
        if concat_Valid c then Some c else concat_skip fuel c
  end.

Definition concat_Next c : option (ConcatIterator A) :=
  c ← on_cur c y_Next;
  if concat_Valid c then Some c else concat_skip (S (length (c_iters c))) c.
End Concat.

#[export] Instance ConcatIterator_it {A} `{YIterator A} : YIterator (ConcatIterator A) := {
  y_Next := concat_Next;
  y_Rewind := concat_Rewind;
  y_Seek := concat_Seek;
  y_Key := concat_Key;
  y_Value := concat_Value;
  y_Valid := concat_Valid
}.

(** ** Table iterators as an instance *)

Section TableIt.
Context `{C : ChecksumCodec} `{I : IndexCodec}.

Record tableIter : Type := mkTIter { ti_table : tableFile; ti_reversed : bool; ti_it : tIterator }.

Definition on_table (s : tableIter) (f : tIterator -> option tIterator) : option tableIter :=
  it ← f (ti_it s); Some (mkTIter (ti_table s) (ti_reversed s) it).

#[export] Instance tableIter_it : YIterator tableIter := {
  y_Next s := on_table s (it_Next (ti_reversed s) (ti_table s));
  y_Rewind s := on_table s (it_Rewind (ti_reversed s) (ti_table s));
  y_Seek s key := on_table s (fun it => it_Seek (ti_reversed s) (ti_table s) it key);
  y_Key s := it_Key (ti_it s);
  y_Value s := it_Value (ti_it s);
  y_Valid s := it_Valid (ti_it s)
}.
End TableIt.

(** ** The specification of a merge: the left run wins on equal keys *)

Fixpoint merge_runs (rev : bool) (l1 : list kv) : list kv -> list kv :=
  match l1 with
  | [] => fun l2 => l2
  | x1 :: l1' =>
      fix go (l2 : list kv) : list kv :=
        match l2 with
        | [] => x1 :: l1'
        | x2 :: l2' =>
            match dcmp rev x1.1 x2.1 with
            | Eq => x1 :: merge_runs rev l1' l2'
            | Lt => x1 :: merge_runs rev l1' l2
            | Gt => x2 :: go l2'
            end
        end
  end.

(** ** Lemmas: sorted runs *)

Section Runs.
Context (rev : bool).
Notation sorted := (run_sorted rev).

Lemma sorted_cons x l :
  sorted (x :: l) <-> sorted l /\ forall y, y ∈ l -> dcmp rev x.1 y.1 = Lt.
Proof. unfold run_sorted. rewrite StronglySorted_cons, Forall_forall. tauto. Qed.

(** A sorted run is its set of entries. *)
Lemma sorted_ext l1 : forall l2, sorted l1 -> sorted l2 -> (forall x, x ∈ l1 <-> x ∈ l2) -> l1 = l2.
Proof.
  induction l1 as [|x l1 IH]; intros l2 H1 H2 He.
  - destruct l2 as [|y l2]; [done|]. assert (y ∈ []) as Hn by (apply He; by left). by apply elem_of_nil in Hn.
  - destruct l2 as [|y l2]; [assert (x ∈ []) as Hn by (apply He; by left); by apply elem_of_nil in Hn|].
    apply sorted_cons in H1 as [H1 Hx], H2 as [H2 Hy].
    assert (x ∈ y :: l2 /\ y ∈ x :: l1) as [Hin1 Hin2] by (split; apply He; by left).
    assert (x = y) as ->.
    { apply elem_of_cons in Hin1 as [E|Hin1]; [done|]. apply elem_of_cons in Hin2 as [E|Hin2]; [done|exfalso].
      apply (cmp_lt_irrefl (dcmp rev) x.1). by apply (cmp_trans _ _ y.1); [apply Hx|apply Hy]. }
    f_equal. apply IH; [done|done|]. intros z. split; intros Hz.
    + assert (z ∈ y :: l2) as Hz' by (apply He; by right). apply elem_of_cons in Hz' as [->|]; [|done].
      by destruct (cmp_lt_irrefl (dcmp rev) y.1 (Hx y Hz)).
    + assert (z ∈ y :: l1) as Hz' by (apply He; by right). apply elem_of_cons in Hz' as [->|]; [|done].
      by destruct (cmp_lt_irrefl (dcmp rev) y.1 (Hy y Hz)).
Qed.

Lemma sorted_key x y l : sorted l -> x ∈ l -> y ∈ l -> x.1 = y.1 -> x = y.
Proof.
  induction l as [|z l IH]; intros Hs Hx Hy E; [by apply elem_of_nil in Hx|].
  apply sorted_cons in Hs as [Hs Hz].
  apply elem_of_cons in Hx as [->|Hx], Hy as [->|Hy].
  - done.
  - specialize (Hz y Hy). rewrite E in Hz. by destruct (cmp_lt_irrefl (dcmp rev) y.1).
  - specialize (Hz x Hx). rewrite E in Hz. by destruct (cmp_lt_irrefl (dcmp rev) z.1).
  - by apply IH.
Qed.

Lemma sorted_suffix pre l : sorted (pre ++ l) -> sorted l.
Proof. induction pre as [|x pre IH]; [done|]. intros [H _]%sorted_cons. by apply IH. Qed.

Lemma run_from_elem key x l : sorted l -> x ∈ run_from rev key l <-> x ∈ l /\ dcmp rev x.1 key <> Lt.
Proof.
  induction l as [|y l IH]; intros Hs; cbn [run_from].
  - rewrite elem_of_nil. tauto.
  - apply sorted_cons in Hs as [Hs Hy]. case_bool_decide as E.
    + rewrite (IH Hs), elem_of_cons. split; [tauto|]. intros [[->|Hx] Hn]; [done|tauto].
    + split; [|tauto]. intros Hx. split; [done|]. apply elem_of_cons in Hx as [->|Hx]; [done|].
      intros Hl. apply E. by apply (cmp_trans _ _ x.1); [apply Hy|].
Qed.

Lemma run_from_suffix key l : exists pre, l = pre ++ run_from rev key l.
Proof.
  induction l as [|y l [pre IH]]; cbn [run_from]; [by exists []|].
  case_bool_decide; [|by exists []]. exists (y :: pre). cbn. by rewrite <- IH.
Qed.

Lemma run_from_lt key l1 l2 :
  (forall x, x ∈ l1 -> dcmp rev x.1 key = Lt) -> run_from rev key (l1 ++ l2) = run_from rev key l2.
Proof.
  induction l1 as [|x l1 IH]; intros Hx; [done|]. cbn. rewrite bool_decide_eq_true_2 by (apply Hx; by left).
  apply IH. intros y Hy. apply Hx. by right.
Qed.

Lemma run_from_app key l1 l2 : run_from rev key l1 <> [] ->
  run_from rev key (l1 ++ l2) = run_from rev key l1 ++ l2.
Proof. induction l1 as [|x l1 IH]; [done|]. cbn. case_bool_decide; auto. Qed.

Lemma sorted_app l1 l2 x y : sorted (l1 ++ l2) -> x ∈ l1 -> y ∈ l2 -> dcmp rev x.1 y.1 = Lt.
Proof.
  induction l1 as [|z l1 IH]; intros Hs Hx Hy; [by apply elem_of_nil in Hx|].
  cbn in Hs. apply sorted_cons in Hs as [Hs Hz]. apply elem_of_cons in Hx as [->|Hx]; [|by apply IH].
  apply Hz, elem_of_app. by right.
Qed.

Lemma run_from_sorted key l : sorted l -> sorted (run_from rev key l).
Proof. destruct (run_from_suffix key l) as [pre E]. rewrite E at 1. apply sorted_suffix. Qed.

(** ** Lemmas: merging *)

Lemma merge_nil_r l : merge_runs rev l [] = l.
Proof. by destruct l. Qed.

Lemma merge_cons x1 l1 x2 l2 :
  merge_runs rev (x1 :: l1) (x2 :: l2)
  = match dcmp rev x1.1 x2.1 with
    | Eq => x1 :: merge_runs rev l1 l2
    | Lt => x1 :: merge_runs rev l1 (x2 :: l2)
    | Gt => x2 :: merge_runs rev (x1 :: l1) l2
    end.
Proof. done. Qed.

Lemma dcmp_eq_key a b : dcmp rev a b = Eq <-> a = b.
Proof. apply (cmp_eq (dcmp rev)). Qed.

(** The entries of the merge: the left run's, and those of the right run with other keys. *)
Lemma merge_elem x : forall l1 l2, sorted l1 -> sorted l2 ->
  x ∈ merge_runs rev l1 l2 <-> x ∈ l1 \/ (x ∈ l2 /\ forall y, y ∈ l1 -> y.1 <> x.1).
Proof.
  induction l1 as [|x1 l1 IH1]; intros l2 H1.
  { intros _. cbn. rewrite elem_of_nil. split; [|by intros [[]|[]]]. intros Hx. right.
    split; [done|]. by intros y []%elem_of_nil. }
  induction l2 as [|x2 l2 IH2]; intros H2; [rewrite merge_nil_r, elem_of_nil; tauto|].
  pose proof (proj1 (sorted_cons _ _) H1) as [H1' Hx1]. pose proof (proj1 (sorted_cons _ _) H2) as [H2' Hx2].
  rewrite merge_cons. destruct (dcmp rev x1.1 x2.1) eqn:E; rewrite elem_of_cons.
  - apply dcmp_eq_key in E. rewrite (IH1 l2 H1' H2'), !elem_of_cons. split.
    + intros [->|[Hx|[Hx Hn]]]; [by left; left|by left; right|]. right. split; [by right|].
      intros y [->|Hy]%elem_of_cons; [|by apply Hn]. intros E'. specialize (Hx2 x Hx).
      rewrite <- E' , E in Hx2. by destruct (cmp_lt_irrefl (dcmp rev) x2.1).
    + intros [[->|Hx]|[[->|Hx] Hn]]; [by left|by right; left| |].
      * by destruct (Hn x1 ltac:(by left)).
      * right; right. split; [done|]. intros y Hy. apply Hn. by right.
  - rewrite (IH1 (x2 :: l2) H1' H2), !elem_of_cons. split.
    + intros [->|[Hx|[Hx Hn]]]; [by left; left|by left; right|]. right. split; [done|].
      intros y [->|Hy]%elem_of_cons; [|by apply Hn]. intros E'.
      assert (dcmp rev x1.1 x.1 = Lt) as Hl.
      { destruct Hx as [->|Hx]; [done|]. by apply (cmp_trans _ _ x2.1); [|apply Hx2]. }
      rewrite E' in Hl. by destruct (cmp_lt_irrefl (dcmp rev) x.1).
    + intros [[->|Hx]|[Hx Hn]]; [by left|by right; left|]. right; right. split; [done|].
      intros y Hy. apply Hn. by right.
  - rewrite (IH2 H2'), !elem_of_cons. split.
    + intros [->|[[->|Hx]|[Hx Hn]]]; [|by left; left|by left; right|right; split; [by right|done]].
      right. split; [by left|]. intros y [->|Hy]%elem_of_cons E'.
      * rewrite E' in E. by rewrite (cmp_refl (dcmp rev)) in E.
      * specialize (Hx1 y Hy). rewrite E' in Hx1. congruence.
    + intros [[->|Hx]|[[->|Hx] Hn]]; [by right; left; left|by right; left; right|by left|].
      right; right. by split.
Qed.

Lemma merge_sorted : forall l1 l2, sorted l1 -> sorted l2 -> sorted (merge_runs rev l1 l2).
Proof.
  induction l1 as [|x1 l1 IH1]; intros l2 H1; [done|].
  induction l2 as [|x2 l2 IH2]; intros H2; [done|].
  pose proof (proj1 (sorted_cons _ _) H1) as [H1' Hx1]. pose proof (proj1 (sorted_cons _ _) H2) as [H2' Hx2].
  rewrite merge_cons. destruct (dcmp rev x1.1 x2.1) eqn:E; apply sorted_cons; (split; [auto|]); intros y Hy.
  - apply dcmp_eq_key in E. apply merge_elem in Hy as [Hy|[Hy _]]; [by apply Hx1| |done|done].
    rewrite E. by apply Hx2.
  - apply merge_elem in Hy as [Hy|[Hy _]]; [by apply Hx1| |done|done].
    apply elem_of_cons in Hy as [->|Hy]; [done|]. by apply (cmp_trans _ _ x2.1); [|apply Hx2].
  - apply (cmp_gt_lt (dcmp rev)) in E. apply merge_elem in Hy as [Hy|[Hy _]]; [|by apply Hx2|done|done].
    apply elem_of_cons in Hy as [->|Hy]; [done|]. by apply (cmp_trans _ _ x1.1); [|apply Hx1].
Qed.

(** Seeking commutes with merging. *)
Lemma merge_from key l1 l2 : sorted l1 -> sorted l2 ->
  merge_runs rev (run_from rev key l1) (run_from rev key l2) = run_from rev key (merge_runs rev l1 l2).
Proof.
  intros H1 H2. pose proof (run_from_sorted key l1 H1) as H1'. pose proof (run_from_sorted key l2 H2) as H2'.
  apply sorted_ext.
  - by apply merge_sorted.
  - by apply run_from_sorted, merge_sorted.
  - intros x. rewrite merge_elem, !run_from_elem, merge_elem by auto using merge_sorted.
    split; [|intros [[H|[H Hn]] Hk]; [tauto|]].
    + intros [[H Hk]|[[H Hk] Hn]]; [tauto|]. split; [|done]. right. split; [done|]. intros y Hy E.
      apply (Hn y); [|done]. rewrite run_from_elem by done. split; [done|]. by rewrite E.
    + right. split; [done|]. intros y [Hy _]%run_from_elem; [by apply Hn|done].
Qed.

Lemma merge_small_l x l1 l2 :
  (forall y, head l2 = Some y -> dcmp rev x.1 y.1 = Lt) ->
  merge_runs rev (x :: l1) l2 = x :: merge_runs rev l1 l2.
Proof.
  intros H. destruct l2 as [|y l2]; [by rewrite !merge_nil_r|].
  by rewrite merge_cons, (H y eq_refl).
Qed.

Lemma merge_small_r x l1 l2 :
  (forall y, head l1 = Some y -> dcmp rev x.1 y.1 = Lt) ->
  merge_runs rev l1 (x :: l2) = x :: merge_runs rev l1 l2.
Proof.
  intros H. destruct l1 as [|y l1]; [done|].
  by rewrite merge_cons, (proj2 (cmp_gt_lt (dcmp rev) y.1 x.1) (H y eq_refl)).
Qed.

(** Equal keys: the right one can be dropped. *)
Lemma merge_same x y l1 l2 : x.1 = y.1 -> sorted (y :: l2) ->
  merge_runs rev (x :: l1) (y :: l2) = merge_runs rev (x :: l1) l2.
Proof.
  intros E [_ Hy]%sorted_cons. rewrite merge_cons, (proj2 (dcmp_eq_key x.1 y.1) E).
  rewrite merge_small_l; [done|]. intros z Hz. rewrite E. apply Hy. destruct l2; [done|].
  injection Hz as ->. by left.
Qed.
End Runs.

(** ** [MergeIterator] satisfies the interface *)

(** A node's cached fields agree with its iterator. *)
Record node_at {S} {rev : bool} {sk : bytes -> Prop} {IS : YIterator S} {L : YIteratorLaws S rev sk} (n : node S) (es l : list kv) : Prop := {
  na_iter : y_at (n_iter n) es l;
  na_valid : n_valid n = bool_decide (l <> []);
  na_key : forall x, head l = Some x -> n_key n = x.1
}.

Section NodeLaws.
Context {S : Type} {rev : bool} {sk : bytes -> Prop} {IS : YIterator S} {L : YIteratorLaws S rev sk}.

Lemma setKey_at v k it es l : y_at it es l -> node_at (setKey (mkNode v k it)) es l.
Proof.
  intros H. split; cbn.
  - done.
  - by rewrite (y_valid it es l H).
  - intros x Hx. destruct l as [|y l]; [done|]. injection Hx as ->.
    rewrite (y_valid it es _ H), bool_decide_eq_true_2 by done. apply (y_shows it es x l H).
Qed.

Lemma node_next_at n es x l :
  node_at n es (x :: l) -> exists n', node_next n = Some n' /\ node_at n' es l.
Proof.
  intros [H _ _]. destruct (y_next _ _ _ _ H) as (it & E & Hit). unfold node_next, on_iter. rewrite E.
  eexists. split; [done|]. by apply setKey_at.
Qed.

Lemma node_rewind_at n es : y_over (n_iter n) es -> exists n', node_rewind n = Some n' /\ node_at n' es es.
Proof.
  intros H. destruct (y_rewind _ _ H) as (it & E & Hit). unfold node_rewind, on_iter. rewrite E.
  eexists. split; [done|]. by apply setKey_at.
Qed.

Lemma node_seek_at n es key : y_over (n_iter n) es -> sk key -> has_ts key ->
  exists n', node_seek n key = Some n' /\ node_at n' es (run_from rev key es).
Proof.
  intros H Hsk Hk. destruct (y_seek _ _ _ H Hsk Hk) as (it & E & Hit). unfold node_seek, on_iter. rewrite E.
  eexists. split; [done|]. by apply setKey_at.
Qed.

Lemma node_at_sorted n es l : node_at n es l -> run_sorted rev l /\ all_ts l.
Proof.
  intros [H _ _]. destruct (y_at_suffix _ _ _ H) as [pre E].
  destruct (y_over_ok _ _ (y_at_over _ _ _ H)) as [Hs Ht]. rewrite E in Hs, Ht. split.
  - by apply (sorted_suffix rev pre).
  - by apply Forall_app in Ht as [_ Ht].
Qed.
End NodeLaws.

Section MergeLaws.
Context {A B : Type} {rev : bool} {sk : bytes -> Prop} {IA : YIterator A} {IB : YIterator B}
  {LA : YIteratorLaws A rev sk} {LB : YIteratorLaws B rev sk}.
Implicit Types m : MergeIterator A B.

(** The children stand before [l1] and [l2]. *)
Record kids m (ea eb l1 l2 : list kv) : Prop := {
  k_left : node_at (m_left m) ea l1;
  k_right : node_at (m_right m) eb l2;
  k_rev : m_reverse m = rev
}.

(** [small] points to the next entry, and the other child is past its key. *)
Definition fixed m (l1 l2 : list kv) : Prop :=
  if m_smallLeft m
  then (l1 = [] -> l2 = []) /\ forall x y, head l1 = Some x -> head l2 = Some y -> dcmp rev x.1 y.1 = Lt
  else (l2 = [] -> l1 = []) /\ forall x y, head l1 = Some x -> head l2 = Some y -> dcmp rev y.1 x.1 = Lt.

Lemma kids_small m ea eb l1 l2 : kids m ea eb l1 l2 ->
  small_valid m = bool_decide ((if m_smallLeft m then l1 else l2) <> []) /\
  bigger_valid m = bool_decide ((if m_smallLeft m then l2 else l1) <> []).
Proof.
  intros [[_ H1 _] [_ H2 _] _]. unfold small_valid, bigger_valid. by destruct (m_smallLeft m).
Qed.

Lemma fix_here m ea eb l1 l2 :
  kids m ea eb l1 l2 -> fixed m l1 l2 -> exists l1' l2', kids m ea eb l1' l2' /\ fixed m l1' l2' /\
    merge_runs rev l1 l2 = merge_runs rev l1' l2'.
Proof. intros. by exists l1, l2. Qed.

Lemma fix_swap m ea eb l1 l2 :
  kids m ea eb l1 l2 -> fixed (swapSmall m) l1 l2 -> exists l1' l2',
    kids (swapSmall m) ea eb l1' l2' /\ fixed (swapSmall m) l1' l2' /\
    merge_runs rev l1 l2 = merge_runs rev l1' l2'.
Proof. intros [] Hf. exists l1, l2. by split_and!; [split|..]. Qed.

Lemma dcmp_swap a b : dcmp rev b a = CompOpp (dcmp rev a b).
Proof. apply (cmp_antisym (dcmp rev)). Qed.

(** [fix] in terms of the order of travel. *)
Lemma merge_fix_dcmp m :
  small_valid m = true -> bigger_valid m = true -> has_ts (small_key m) -> has_ts (bigger_key m) ->
  m_reverse m = rev ->
  merge_fix m = match dcmp rev (small_key m) (bigger_key m) with
                | Lt => Some m
                | Gt => Some (swapSmall m)
                | Eq => right ← node_next (m_right m);
                        Some (if m_smallLeft m then set_right m right else swapSmall (set_right m right))
                end.
Proof.
  intros Hs Hb Hks Hkb Hr. unfold merge_fix. rewrite Hs, Hb, CompareKeys_total, Hr by done.
  cbn [negb mbind option_bind]. unfold dcmp. destruct rev; [|by destruct (compareKeys _ _)].
  rewrite (cmp_antisym compareKeys (small_key m)). by destruct (compareKeys _ _).
Qed.

Lemma fixed_nil_l m l2 : m_smallLeft m = false -> fixed m [] l2.
Proof. intros E. unfold fixed. by rewrite E. Qed.

Lemma fixed_nil_r m l1 : m_smallLeft m = true -> fixed m l1 [].
Proof. intros E. unfold fixed. by rewrite E. Qed.

Lemma merge_fix_at m ea eb l1 l2 : kids m ea eb l1 l2 ->
  exists m' l1' l2', merge_fix m = Some m' /\ kids m' ea eb l1' l2' /\ fixed m' l1' l2' /\
    merge_runs rev l1 l2 = merge_runs rev l1' l2'.
Proof.
  intros K. destruct (kids_small m ea eb l1 l2 K) as [Es Eb].
  destruct (node_at_sorted _ _ _ (k_left _ _ _ _ _ K)) as [Hs1 Ht1].
  destruct (node_at_sorted _ _ _ (k_right _ _ _ _ _ K)) as [Hs2 Ht2].
  assert (kids (swapSmall m) ea eb l1 l2) as K' by (by destruct K).
  destruct l1 as [|x l1].
  { exists (if m_smallLeft m then if bool_decide (l2 = []) then m else swapSmall m else m), [], l2.
    unfold merge_fix. rewrite Es, Eb. destruct (m_smallLeft m) eqn:E.
    - destruct l2; cbn; (split_and!; [done|done| |done]); [by apply fixed_nil_r|].
      apply fixed_nil_l. cbn. by rewrite E.
    - cbn. split_and!; try done. by apply fixed_nil_l. }
  destruct l2 as [|y l2].
  { exists (if m_smallLeft m then m else swapSmall m), (x :: l1), [].
    unfold merge_fix. rewrite Es, Eb. destruct (m_smallLeft m) eqn:E; cbn; split_and!; try done.
    - by apply fixed_nil_r.
    - apply fixed_nil_r. cbn. by rewrite E. }
  assert (n_key (m_left m) = x.1 /\ n_key (m_right m) = y.1) as [Kl Kr]
    by (destruct K as [K1 K2 _]; split; [by apply K1|by apply K2]).
  apply Forall_cons in Ht1 as [Htx _], Ht2 as [Hty Ht2].
  rewrite merge_fix_dcmp; cycle 1.
  { rewrite Es. by destruct (m_smallLeft m). }
  { rewrite Eb. by destruct (m_smallLeft m). }
  { unfold small_key. destruct (m_smallLeft m); congruence. }
  { unfold bigger_key. destruct (m_smallLeft m); congruence. }
  { apply K. }
  pose proof (dcmp_swap x.1 y.1) as Esw.
  destruct (dcmp rev (small_key m) (bigger_key m)) eqn:Ed.
  - (* equal keys *)
    assert (x.1 = y.1) as Exy.
    { apply (cmp_eq (dcmp rev)) in Ed. revert Ed. unfold small_key, bigger_key. rewrite Kl, Kr.
      by destruct (m_smallLeft m). }
    destruct (node_next_at _ _ _ _ (k_right _ _ _ _ _ K)) as (r & -> & Hr). cbn [mbind option_bind].
    set (m1 := set_right m r).
    assert (kids m1 ea eb (x :: l1) l2) as K1 by (by destruct K).
    assert (forall m', m_smallLeft m' = true -> fixed m' (x :: l1) l2) as Hf.
    { intros m' E. unfold fixed. rewrite E. split; [done|]. intros x' z [= <-] Hz. rewrite Exy.
      apply sorted_cons in Hs2 as [_ Hy]. apply Hy. destruct l2; [done|]. injection Hz as ->. by left. }
    destruct (m_smallLeft m) eqn:E.
    + exists m1, (x :: l1), l2. split_and!; [done|done|by apply Hf|by apply merge_same].
    + exists (swapSmall m1), (x :: l1), l2. split_and!; [done|by destruct K1| |by apply merge_same].
      apply Hf. cbn. by rewrite E.
  - exists m, (x :: l1), (y :: l2). split_and!; try done. unfold fixed, small_key, bigger_key in *.
    rewrite Kl, Kr in Ed. destruct (m_smallLeft m); (split; [done|]); by intros ? ? [= <-] [= <-].
  - exists (swapSmall m), (x :: l1), (y :: l2). split_and!; try done. unfold fixed, small_key, bigger_key in *.
    rewrite Kl, Kr in Ed. cbn. apply (cmp_gt_lt (dcmp rev)) in Ed.
    destruct (m_smallLeft m); cbn; (split; [done|]); by intros ? ? [= <-] [= <-].
Qed.

Lemma merge_fix_cur m m' : merge_fix m = Some m' -> m_curKey m' = m_curKey m.
Proof.
  unfold merge_fix. destruct (bigger_valid m); cbn [negb]; [|by intros [= <-]].
  destruct (small_valid m); cbn [negb]; [|by intros [= <-]].
  destruct (CompareKeys _ _) as [[]|]; cbn; [| | |done].
  - destruct (node_next _); cbn; [|done]. intros [= <-]. by destruct (m_smallLeft m).
  - intros [= <-]. by destruct (m_reverse m).
  - intros [= <-]. by destruct (m_reverse m).
Qed.

(** The state between calls. *)
Record merge_at m (es l : list kv) : Prop := {
  ma_kids : exists ea eb l1 l2, kids m ea eb l1 l2 /\ fixed m l1 l2 /\
    es = merge_runs rev ea eb /\ l = merge_runs rev l1 l2;
  ma_suffix : exists pre, es = pre ++ l;
  ma_cur : forall x, head l = Some x -> m_curKey m = x.1
}.

Definition merge_over m (es : list kv) : Prop :=
  exists ea eb, y_over (n_iter (m_left m)) ea /\ y_over (n_iter (m_right m)) eb /\
    m_reverse m = rev /\ es = merge_runs rev ea eb.

(** What [small] shows. *)
Lemma small_head m ea eb l1 l2 x l : kids m ea eb l1 l2 -> fixed m l1 l2 ->
  merge_runs rev l1 l2 = x :: l ->
  small_valid m = true /\ small_key m = x.1 /\ merge_Value m = Some x.2 /\
  exists m', small_next m = Some m' /\ m_curKey m' = m_curKey m /\
    exists l1' l2', kids m' ea eb l1' l2' /\ merge_runs rev l1' l2' = l.
Proof.
  intros K Hf E. destruct (kids_small m ea eb l1 l2 K) as [Es _]. rewrite Es.
  destruct K as [[N1 V1 K1] [N2 V2 K2] Hr]. unfold fixed, small_key, merge_Value, small_next in *.
  destruct (m_smallLeft m).
  - destruct Hf as [He Hf]. destruct l1 as [|x1 l1]; [by rewrite He in E|].
    rewrite merge_small_l in E by (intros y Hy; by apply Hf). injection E as <- <-.
    destruct (y_shows _ _ _ _ N1) as [_ Hv]. split_and!; [done|by apply K1|done|].
    destruct (node_next_at (m_left m) ea x1 l1) as (n & -> & Hn); [by split|]. cbn.
    eexists. split; [done|]. split; [done|]. exists l1, l2. by split; [split; [|split|]|].
  - destruct Hf as [He Hf]. destruct l2 as [|x2 l2]; [by rewrite He in E|].
    rewrite merge_small_r in E by (intros y Hy; by apply Hf). injection E as <- <-.
    destruct (y_shows _ _ _ _ N2) as [_ Hv]. split_and!; [done|by apply K2|done|].
    destruct (node_next_at (m_right m) eb x2 l2) as (n & -> & Hn); [by split|]. cbn.
    eexists. split; [done|]. split; [done|]. exists l1, l2. by split; [split; [split| |]|].
Qed.

Lemma small_none m ea eb l1 l2 : kids m ea eb l1 l2 -> fixed m l1 l2 ->
  merge_runs rev l1 l2 = [] -> small_valid m = false.
Proof.
  intros K Hf E. destruct (kids_small m ea eb l1 l2 K) as [-> _]. unfold fixed in Hf.
  assert (l1 = [] /\ l2 = []) as [-> ->].
  { destruct l1 as [|x l1], l2 as [|y l2]; try done. rewrite merge_cons in E. by destruct (dcmp _ _ _). }
  by destruct (m_smallLeft m).
Qed.

(** Ending a move: the current key is the small one's. *)
Lemma settle m ea eb l1 l2 es : kids m ea eb l1 l2 -> fixed m l1 l2 ->
  es = merge_runs rev ea eb -> (exists pre, es = pre ++ merge_runs rev l1 l2) ->
  merge_at (setCurrent m) es (merge_runs rev l1 l2).
Proof.
  intros K Hf He Hp. split.
  - exists ea, eb, l1, l2. by destruct K.
  - done.
  - intros x Hx. destruct (merge_runs rev l1 l2) as [|y l] eqn:E; [done|]. injection Hx as ->.
    by destruct (small_head m ea eb l1 l2 x l K Hf E) as (_ & Hk & _).
Qed.

Lemma merge_next_at n m es x l : merge_at m es (x :: l) ->
  run_sorted rev es -> exists m', merge_Next (S n) m = Some m' /\ merge_at m' es l.
Proof.
  intros [(ea & eb & l1 & l2 & K & Hf & He & El) [pre Hp] Hc] Hs. symmetry in El.
  destruct (small_head m ea eb l1 l2 x l K Hf El) as (Hv & Hk & _ & m1 & E1 & Ecur & l1' & l2' & K1 & El1).
  destruct (merge_fix_at m1 ea eb l1' l2' K1) as (m2 & l1'' & l2'' & E2 & K2 & Hf2 & El2).
  assert (m_curKey m2 = x.1) as Hc2.
  { rewrite <- (Hc x eq_refl), <- Ecur. by apply merge_fix_cur. }
  unfold merge_Next. cbn [merge_skip]. rewrite Hv, Hk, (Hc x eq_refl), bool_decide_eq_false_2 by auto.
  rewrite E1. cbn [mbind option_bind]. rewrite E2. cbn [mbind option_bind].
  exists (setCurrent m2). rewrite <- El1, El2. split.
  - assert (merge_skip n m2 = Some m2) as ->; [|done].
    destruct (merge_runs rev l1'' l2'') as [|y l'] eqn:El3.
    + destruct n; cbn; by rewrite (small_none m2 ea eb l1'' l2'' K2 Hf2 El3).
    + destruct (small_head m2 ea eb l1'' l2'' y l' K2 Hf2 El3) as (Hv2 & Hk2 & _).
      assert (y.1 <> x.1) as Hne.
      { rewrite El2 in El1. rewrite Hp in Hs. apply sorted_suffix, sorted_cons in Hs as [_ Hx].
        intros E. specialize (Hx y). rewrite <- El1, E in Hx.
        by destruct (cmp_lt_irrefl (dcmp rev) x.1 (Hx ltac:(by left))). }
      destruct n; cbn; by rewrite Hv2, Hk2, Hc2, bool_decide_eq_true_2.
  - apply (settle m2 ea eb); [done|done|done|]. rewrite <- El2, El1. exists (pre ++ [x]).
    by rewrite <- app_assoc.
Qed.

Lemma merge_over_ok m es : merge_over m es -> run_sorted rev es /\ all_ts es.
Proof.
  intros (ea & eb & Ha & Hb & _ & ->). destruct (y_over_ok _ _ Ha) as [Hsa Hta].
  destruct (y_over_ok _ _ Hb) as [Hsb Htb]. split; [by apply merge_sorted|].
  apply Forall_forall. intros x Hx. unfold all_ts in *. rewrite Forall_forall in Hta, Htb.
  apply merge_elem in Hx as [Hx|[Hx _]]; auto.
Qed.

Lemma merge_at_over m es l : merge_at m es l -> merge_over m es.
Proof.
  intros [(ea & eb & l1 & l2 & [N1 N2 Hr] & _ & -> & _) _ _]. exists ea, eb.
  split_and!; [apply (y_at_over _ _ _ (na_iter _ _ _ N1))|apply (y_at_over _ _ _ (na_iter _ _ _ N2))|done|done].
Qed.

(** Moving both children, then [fix] and [setCurrent]. *)
Lemma merge_move m l r ea eb l1 l2 es :
  m_reverse m = rev -> node_at l ea l1 -> node_at r eb l2 -> es = merge_runs rev ea eb ->
  (exists pre, es = pre ++ merge_runs rev l1 l2) ->
  exists m', (m ← merge_fix (set_right (set_left m l) r); Some (setCurrent m)) = Some m' /\
    merge_at m' es (merge_runs rev l1 l2).
Proof.
  intros Hr Hl Hrr He Hp.
  destruct (merge_fix_at (set_right (set_left m l) r) ea eb l1 l2) as (m2 & l1' & l2' & -> & K & Hf & E);
    [by split|]. rewrite E in Hp |- *.
  exists (setCurrent m2). split; [done|]. by apply (settle m2 ea eb).
Qed.

Lemma merge_rewind_at m es : merge_over m es ->
  exists m', merge_Rewind m = Some m' /\ merge_at m' es es.
Proof.
  intros (ea & eb & Ha & Hb & Hr & ->). unfold merge_Rewind.
  destruct (node_rewind_at (m_left m) ea Ha) as (l & -> & Hl).
  destruct (node_rewind_at (m_right m) eb Hb) as (r & -> & Hrr). cbn [mbind option_bind].
  apply (merge_move m l r ea eb ea eb); try done. by exists [].
Qed.

Lemma merge_seek_at m es key : merge_over m es -> sk key -> has_ts key ->
  exists m', merge_Seek m key = Some m' /\ merge_at m' es (run_from rev key es).
Proof.
  intros Ho Hsk Hk. pose proof (merge_over_ok m es Ho) as [Hs _].
  destruct Ho as (ea & eb & Ha & Hb & Hr & ->). unfold merge_Seek.
  destruct (node_seek_at (m_left m) ea key Ha Hsk Hk) as (l & -> & Hl).
  destruct (node_seek_at (m_right m) eb key Hb Hsk Hk) as (r & -> & Hrr). cbn [mbind option_bind].
  destruct (y_over_ok _ _ Ha) as [Hsa _]. destruct (y_over_ok _ _ Hb) as [Hsb _].
  rewrite <- merge_from by done. apply (merge_move m l r ea eb); try done.
  rewrite merge_from by done. apply run_from_suffix.
Qed.

Lemma merge_valid_at m es l : merge_at m es l -> small_valid m = bool_decide (l <> []).
Proof.
  intros [(ea & eb & l1 & l2 & K & Hf & _ & E) _ _]. destruct l as [|x l].
  - by apply (small_none m ea eb l1 l2).
  - by destruct (small_head m ea eb l1 l2 x l K Hf (eq_sym E)) as (-> & _).
Qed.

Lemma merge_shows_at m es x l : merge_at m es (x :: l) ->
  small_key m = x.1 /\ merge_Value m = Some x.2.
Proof.
  intros [(ea & eb & l1 & l2 & K & Hf & _ & E) _ _].
  by destruct (small_head m ea eb l1 l2 x l K Hf (eq_sym E)) as (_ & ? & ? & _).
Qed.

Lemma merge_next_law m es x l : merge_at m es (x :: l) ->
  exists m', merge_Next 1000 m = Some m' /\ merge_at m' es l.
Proof.
  intros H. apply (merge_next_at 999 m es x l H).
  apply (merge_over_ok m es). by apply (merge_at_over m es (x :: l)).
Qed.

#[export] Instance MergeIterator_laws : YIteratorLaws (MergeIterator A B) rev sk := {
  y_over := merge_over;
  y_at := merge_at;
  y_at_over := merge_at_over;
  y_over_ok := merge_over_ok;
  y_at_suffix := fun m es l H => ma_suffix m es l H;
  y_rewind := merge_rewind_at;
  y_seek := merge_seek_at;
  y_next := merge_next_law;
  y_valid := merge_valid_at;
  y_shows := merge_shows_at
}.

(** The duplicate entries of a merge are dropped, nothing else: see [merge_elem]. *)
Lemma merge_of_over a b ea eb : y_over a ea -> y_over b eb ->
  merge_over (merge_of a b rev) (merge_runs rev ea eb).
Proof. intros Ha Hb. by exists ea, eb. Qed.
End MergeLaws.

(** ** [ConcatIterator] satisfies the interface *)

Section ConcatLaws.
Context {A : Type} {rev : bool} {sk : bytes -> Prop} {IA : YIterator A} {LA : YIteratorLaws A rev sk}.
Implicit Types c : ConcatIterator A.

(** The index of the [p]-th table of the travel, of [n]. *)
Definition travel (n p : nat) : Z := if rev then Z.of_nat n - 1 - Z.of_nat p else Z.of_nat p.

(** The last key of a table in the order of travel. *)
Definition ct_end (t : ctable A) : bytes := if rev then ct_smallest t else ct_biggest t.

(** A table and its run, in the order of travel. *)
Record ct_runs (t : ctable A) (e : list kv) : Prop := {
  cr_nonempty : e <> [];
  cr_open : y_over (ct_open t) e;
  cr_end : (fst <$> last e) = Some (ct_end t)
}.

(** The runs of the tables, in the order of travel. *)
Record concat_wf c (ess : list (list kv)) : Prop := {
  cw_rev : c_reversed c = rev;
  cw_tables : length (c_tables c) = length ess;
  cw_iters : length (c_iters c) = length ess;
  cw_runs : forall p e, ess !! p = Some e -> exists t,
    c_tables c !! Z.to_nat (travel (length ess) p) = Some t /\ ct_runs t e;
  cw_over : forall p e a, ess !! p = Some e ->
    c_iters c !! Z.to_nat (travel (length ess) p) = Some (Some a) -> y_over a e;
  cw_sorted : run_sorted rev (concat ess)
}.

Definition concat_over c (es : list kv) : Prop := exists ess, concat_wf c ess /\ es = concat ess.

(** In table [p], before [lp]. *)
Record concat_in c (ess : list (list kv)) (p : nat) (lp : list kv) : Prop := {
  ci_wf : concat_wf c ess;
  ci_idx : c_idx c = travel (length ess) p;
  ci_cur : exists e a, ess !! p = Some e /\ cur_iter c = Some a /\ y_at a e lp
}.

Record concat_at c (es l : list kv) : Prop := {
  ca_where : exists ess, es = concat ess /\
    ((concat_wf c ess /\ cur_iter c = None /\ l = []) \/
     exists p lp, concat_in c ess p lp /\ lp <> [] /\ l = lp ++ concat (drop (S p) ess))
}.

Lemma travel_in n p : (p < n)%nat -> 0 <= travel n p < Z.of_nat n.
Proof. unfold travel. destruct rev; lia. Qed.

Lemma travel_inj n p q : (p < n)%nat -> (q < n)%nat -> Z.to_nat (travel n p) = Z.to_nat (travel n q) -> p = q.
Proof. unfold travel. destruct rev; lia. Qed.

Lemma travel_out n : travel n n < 0 \/ Z.of_nat n <= travel n n.
Proof. unfold travel. destruct rev; lia. Qed.

Lemma travel_0 n : (if rev then Z.of_nat n - 1 else 0) = travel n 0.
Proof. unfold travel. destruct rev; lia. Qed.

Lemma travel_S n p : (if rev then travel n p - 1 else travel n p + 1) = travel n (S p).
Proof. unfold travel. destruct rev; lia. Qed.

Lemma concat_setIdx_out c ess : concat_wf c ess -> exists c', concat_setIdx c (travel (length ess) (length ess)) = Some c' /\
  concat_wf c' ess /\ c_cur c' = false /\ cur_iter c' = None.
Proof.
  intros W. unfold concat_setIdx. unfold len. rewrite (cw_iters _ _ W).
  pose proof (travel_out (length ess)). rewrite bool_decide_eq_true_2 by lia.
  eexists. split; [done|]. by destruct W.
Qed.

Lemma concat_setIdx_table c ess p e : concat_wf c ess -> ess !! p = Some e ->
  exists c' a, concat_setIdx c (travel (length ess) p) = Some c' /\ concat_wf c' ess /\
    c_idx c' = travel (length ess) p /\ c_cur c' = true /\ cur_iter c' = Some a /\ y_over a e.
Proof.
  intros W He. pose proof (lookup_lt_Some _ _ _ He) as Hp. pose proof (travel_in _ _ Hp) as Ht.
  unfold concat_setIdx, len. rewrite (cw_iters _ _ W), bool_decide_eq_false_2 by lia.
  destruct (lookup_lt_is_Some_2 (c_iters c) (Z.to_nat (travel (length ess) p))) as [[a|] Ea].
  { rewrite (cw_iters _ _ W). lia. }
  - rewrite Ea. cbn [mbind option_bind]. eexists _, a. split; [done|]. unfold cur_iter. cbn. rewrite Ea.
    split_and!; try done; [by destruct W|]. by apply (cw_over _ _ W p).
  - rewrite Ea. cbn [mbind option_bind]. destruct (cw_runs _ _ W p e He) as (t & Et & R). rewrite Et.
    cbn [mbind option_bind]. eexists _, (ct_open t). split; [done|].
    assert (Z.to_nat (travel (length ess) p) < length (c_iters c))%nat as Hlt by (rewrite (cw_iters _ _ W); lia).
    unfold cur_iter. cbn [c_cur c_iters c_idx]. rewrite list_lookup_insert_eq by done.
    split_and!; try done; [|by apply R]. destruct W as [W1 W2 W3 W4 W5 W6]. split; cbn; try done.
    + by rewrite length_insert.
    + intros q e' a' Hq Ha'. destruct (decide (q = p)) as [->|Hne].
      * rewrite list_lookup_insert_eq in Ha' by done. simplify_eq. by apply R.
      * rewrite list_lookup_insert_ne in Ha'; [by apply (W5 q)|]. intros E. apply Hne. symmetry.
        apply (travel_inj (length ess)); [done|by eapply lookup_lt_Some|done].
Qed.

Lemma on_cur_at c ess p e a f a' lp :
  concat_wf c ess -> ess !! p = Some e -> c_idx c = travel (length ess) p -> cur_iter c = Some a ->
  f a = Some a' -> y_at a' e lp -> exists c', on_cur c f = Some c' /\ concat_in c' ess p lp.
Proof.
  intros W He Hi Hc Hf Ha. pose proof (lookup_lt_Some _ _ _ He) as Hp. pose proof (travel_in _ _ Hp) as Ht.
  unfold on_cur. rewrite Hc. cbn [mbind option_bind]. rewrite Hf. cbn [mbind option_bind].
  eexists. split; [done|]. rewrite Hi.
  assert (Z.to_nat (travel (length ess) p) < length (c_iters c))%nat as Hlt by (rewrite (cw_iters _ _ W); lia).
  split; cbn; [|done|].
  - destruct W as [W1 W2 W3 W4 W5 W6]. split; cbn; try done.
    + by rewrite length_insert.
    + intros q e' a2 Hq Ha2. destruct (decide (q = p)) as [->|Hne].
      * rewrite list_lookup_insert_eq in Ha2 by done. simplify_eq. by eapply y_at_over.
      * rewrite list_lookup_insert_ne in Ha2; [by apply (W5 q)|]. intros E. apply Hne. symmetry.
        apply (travel_inj (length ess)); [done|by eapply lookup_lt_Some|done].
  - exists e, a'. unfold cur_iter. cbn [c_cur c_iters c_idx]. by rewrite list_lookup_insert_eq.
Qed.

(** [setIdx] to the [p]-th table, then a move in it. *)
Lemma goto_table c ess p e f lp : concat_wf c ess -> ess !! p = Some e ->
  (forall a, y_over a e -> exists a', f a = Some a' /\ y_at a' e lp) ->
  exists c', (c ← concat_setIdx c (travel (length ess) p); on_cur c f) = Some c' /\ concat_in c' ess p lp.
Proof.
  intros W He Hf. destruct (concat_setIdx_table c ess p e W He) as (c' & a & -> & W' & Hi & _ & Hc & Ha).
  cbn [mbind option_bind]. destruct (Hf a Ha) as (a' & Hfa & Ha'). by apply (on_cur_at c' ess p e a f a').
Qed.

Lemma in_valid c ess p lp : concat_in c ess p lp -> concat_Valid c = bool_decide (lp <> []).
Proof.
  intros [_ _ (e & a & _ & Hc & Ha)]. unfold concat_Valid. rewrite Hc. by apply (y_valid a e).
Qed.

Lemma in_cur c ess p lp : concat_in c ess p lp -> c_cur c = true.
Proof. intros [_ _ (e & a & _ & Hc & _)]. unfold cur_iter in Hc. by destruct (c_cur c). Qed.

(** *** Moving *)

Lemma at_in c ess p lp : concat_in c ess p lp -> lp <> [] ->
  concat_at c (concat ess) (lp ++ concat (drop (S p) ess)).
Proof. intros H Hne. split. exists ess. split; [done|]. right. by exists p, lp. Qed.

Lemma at_end c ess : concat_wf c ess -> cur_iter c = None -> concat_at c (concat ess) [].
Proof. intros W Hc. split. exists ess. split; [done|]. by left. Qed.

Lemma concat_rewind_at c es : concat_over c es -> exists c', concat_Rewind c = Some c' /\ concat_at c' es es.
Proof.
  intros (ess & W & ->). unfold concat_Rewind, len. rewrite (cw_iters _ _ W).
  destruct ess as [|e ess].
  { exists c. split; [done|]. apply at_end; [done|]. unfold cur_iter. destruct (c_cur c); [|done].
    destruct (c_iters c) eqn:E; [done|]. by pose proof (cw_iters _ _ W) as Hl; rewrite E in Hl. }
  rewrite bool_decide_eq_false_2 by done. rewrite (cw_rev _ _ W).
  destruct (cw_runs _ _ W 0%nat e eq_refl) as (t & _ & R).
  destruct (goto_table c (e :: ess) 0 e y_Rewind e W eq_refl) as (c' & E & Hin).
  { intros a Ha. by apply y_rewind. }
  exists c'. split; [|by apply (at_in c' (e :: ess) 0 e Hin), R].
  rewrite <- E. by rewrite <- travel_0.
Qed.

Lemma concat_next_at c es x l : concat_at c es (x :: l) -> exists c', concat_Next c = Some c' /\ concat_at c' es l.
Proof.
  intros [(ess & -> & [(_ & _ & [=])|(p & lp & Hin & Hne & El)])].
  destruct lp as [|x' lp]; [done|]. injection El as <- ->. clear Hne.
  pose proof Hin as [W Hi (e & a & He & Hc & Ha)].
  destruct (y_next a e x lp Ha) as (a' & Ea & Ha').
  destruct (on_cur_at c ess p e a y_Next a' lp W He Hi Hc Ea Ha') as (c1 & E1 & Hin1).
  unfold concat_Next. rewrite E1. cbn [mbind option_bind]. rewrite (in_valid c1 ess p lp Hin1).
  destruct (decide (lp = [])) as [->|Hne].
  2: { rewrite bool_decide_eq_true_2 by done. exists c1. split; [done|]. by apply at_in. }
  rewrite bool_decide_eq_false_2 by auto. cbn [concat_skip].
  pose proof (ci_wf _ _ _ _ Hin1) as W1. rewrite (cw_rev _ _ W1), (ci_idx _ _ _ _ Hin1), travel_S.
  pose proof (lookup_lt_Some _ _ _ He) as Hp. destruct (ess !! S p) as [e'|] eqn:He'.
  - destruct (concat_setIdx_table c1 ess (S p) e' W1 He') as (c2 & a2 & -> & W2 & Hi2 & Hc2 & Hcur2 & Ha2).
    cbn [mbind option_bind]. rewrite Hc2. cbn [negb].
    destruct (y_rewind a2 e' Ha2) as (a3 & Er & Ha3).
    destruct (on_cur_at c2 ess (S p) e' a2 y_Rewind a3 e' W2 He' Hi2 Hcur2 Er Ha3) as (c3 & -> & Hin3).
    destruct (cw_runs _ _ W2 (S p) e' He') as (t & _ & R).
    cbn [mbind option_bind]. rewrite (in_valid c3 ess (S p) e' Hin3), bool_decide_eq_true_2 by apply R.
    exists c3. split; [done|]. cbn [app]. rewrite (drop_S _ _ _ He'). cbn [concat].
    by apply at_in; [|apply R].
  - apply lookup_ge_None in He' as Hge. assert (S p = length ess) as E by lia. rewrite E.
    destruct (concat_setIdx_out c1 ess W1) as (c2 & -> & W2 & Hc2 & Hcur2). cbn [mbind option_bind]. rewrite Hc2.
    exists c2. split; [done|]. rewrite drop_all. by apply at_end.
Qed.

(** The tables before the one [Seek] picks end before the key, the others do not. *)
Lemma end_mono ess p q e e' x y : run_sorted rev (concat ess) -> (p < q)%nat ->
  ess !! p = Some e -> ess !! q = Some e' -> x ∈ e -> y ∈ e' -> dcmp rev x.1 y.1 = Lt.
Proof.
  intros Hs Hpq Hp Hq Hx Hy. rewrite <- (take_drop q ess), concat_app in Hs.
  apply (sorted_app rev _ _ x y Hs).
  - apply list_elem_of_In, in_concat. exists e. split; apply list_elem_of_In; [|done].
    apply (list_elem_of_lookup_2 _ p). by rewrite lookup_take_lt.
  - rewrite (drop_S _ _ _ Hq). cbn. apply elem_of_app. by left.
Qed.

Lemma last_in (e : list kv) k : (fst <$> last e) = Some k -> exists x, x ∈ e /\ x.1 = k /\ forall y, y ∈ e -> y = x \/ exists pre post, e = pre ++ post /\ y ∈ pre /\ x ∈ post.
Proof.
  destruct (last e) as [x|] eqn:E; [|done]. intros [= <-]. apply last_Some in E as [e' ->].
  exists x. split; [apply elem_of_app; right; by left|]. split; [done|].
  intros y [Hy|Hy]%elem_of_app; [right; exists e', [x]; split; [done|split; [done|by left]]|].
  by apply list_elem_of_singleton in Hy as ->; left.
Qed.

Lemma end_below e t key : run_sorted rev e -> (fst <$> last e) = Some (ct_end t) ->
  dcmp rev (ct_end t) key = Lt <-> forall x, x ∈ e -> dcmp rev x.1 key = Lt.
Proof.
  intros Hs Hl. destruct (last_in e (ct_end t) Hl) as (x & Hx & <- & Hall). split.
  - intros Hk y Hy. destruct (Hall y Hy) as [->|(pre & post & -> & Hy1 & Hx2)]; [done|].
    apply (cmp_trans (dcmp rev) _ x.1); [|done]. by apply (sorted_app rev pre post).
  - intros H. by apply H.
Qed.

Lemma run_sorted_in ess p e : run_sorted rev (concat ess) -> ess !! p = Some e -> run_sorted rev e.
Proof.
  intros Hs He. rewrite <- (take_drop_middle _ _ _ He), concat_app in Hs. cbn [concat] in Hs.
  apply sorted_suffix in Hs. clear He. induction e as [|x e IH]; [constructor|]. cbn in Hs.
  apply sorted_cons in Hs as [Hs Hx]. apply sorted_cons. split; [by apply IH|]. intros y Hy.
  apply Hx, elem_of_app. by left.
Qed.

Lemma seek_index c ess key (f : nat -> bool) : concat_wf c ess ->
  let n := length ess in
  (forall p, (p < n)%nat -> f p = match c_tables c !! Z.to_nat (travel n p) with
                     | Some t => bool_decide (dcmp rev (ct_end t) key <> Lt) | None => true end) ->
  let r := sort_Search n f in
  (r <= n)%nat /\ (forall p e x, (p < r)%nat -> ess !! p = Some e -> x ∈ e -> dcmp rev x.1 key = Lt) /\
  (forall e, ess !! r = Some e -> run_from rev key e <> []).
Proof.
  intros W n Hfp.
  assert (forall p e, ess !! p = Some e -> f p = false <-> forall x, x ∈ e -> dcmp rev x.1 key = Lt) as Hf.
  { intros p e He. destruct (cw_runs _ _ W p e He) as (t & Et & R).
    rewrite Hfp by (by eapply lookup_lt_Some). subst n. rewrite Et.
    rewrite bool_decide_eq_false, <- (end_below e t key); [|by apply (run_sorted_in ess p), He; apply W|apply R].
    destruct (dcmp rev (ct_end t) key); naive_solver. }
  cbv zeta. destruct (sort_Search_spec n f) as (H1 & H2 & H3).
  { intros p q Hpq Hp. destruct (lookup_lt_is_Some_2 ess p) as [e He]; [subst n; lia|].
    destruct (lookup_lt_is_Some_2 ess q) as [e' He']; [subst n; lia|].
    destruct (f q) eqn:Eq; [done|]. rewrite (Hf q e' He') in Eq. enough (f p = false) by congruence.
    apply (Hf p e He). intros x Hx. destruct (decide (p = q)) as [->|Hne]; [simplify_eq; by apply Eq|].
    destruct (cw_runs _ _ W q e' He') as (t & _ & R). destruct e' as [|y e']; [by destruct (cr_nonempty _ _ R)|].
    apply (cmp_trans (dcmp rev) _ y.1); [|apply Eq; by left].
    apply (end_mono ess p q e (y :: e')); [apply W|lia|done|done|done|by left]. }
  split_and!; [done| |].
  - intros p e x Hp He. specialize (H2 p Hp). rewrite (Hf p e He) in H2. by apply H2.
  - intros e He Hnil. pose proof (lookup_lt_Some _ _ _ He) as Hlt.
    specialize (H3 _ (conj (le_n _) Hlt)). enough (f (sort_Search n f) = false) by congruence.
    apply (Hf _ e He). intros x Hx. destruct (dcmp rev x.1 key) eqn:E; [|done|].
    + assert (x ∈ run_from rev key e) as Hin; [|rewrite Hnil in Hin; by apply elem_of_nil in Hin].
      apply run_from_elem; [by apply (run_sorted_in ess _ e (cw_sorted _ _ W) He)|]. by rewrite E.
    + assert (x ∈ run_from rev key e) as Hin; [|rewrite Hnil in Hin; by apply elem_of_nil in Hin].
      apply run_from_elem; [by apply (run_sorted_in ess _ e (cw_sorted _ _ W) He)|]. by rewrite E.
Qed.

(** [Seek]'s two searches as one, in the order of travel. *)
Definition probe c (key : bytes) (i : nat) : bool :=
  if rev
  then match c_tables c !! (length (c_tables c) - 1 - i)%nat with
       | Some t => bool_decide (compareKeys (ct_smallest t) key <> Gt) | None => true end
  else match c_tables c !! i with
       | Some t => bool_decide (compareKeys (ct_biggest t) key <> Lt) | None => true end.

Lemma probe_travel c key p : (p < length (c_tables c))%nat ->
  probe c key p = match c_tables c !! Z.to_nat (travel (length (c_tables c)) p) with
                  | Some t => bool_decide (dcmp rev (ct_end t) key <> Lt) | None => true end.
Proof.
  intros Hp. unfold probe, travel, ct_end, dcmp. destruct rev.
  - replace (Z.to_nat (Z.of_nat (length (c_tables c)) - 1 - Z.of_nat p))
      with (length (c_tables c) - 1 - p)%nat by lia.
    destruct (c_tables c !! _); [|done]. apply bool_decide_ext. by rewrite (cmp_ge_not_lt compareKeys).
  - by rewrite Nat2Z.id.
Qed.

Lemma concat_Seek_eq c key : c_reversed c = rev ->
  let n := length (c_tables c) in
  let idx := travel n (sort_Search n (probe c key)) in
  concat_Seek c key = if bool_decide (len (c_tables c) <= idx \/ idx < 0) then concat_setIdx c (-1)
                      else c ← concat_setIdx c idx; on_cur c (fun a => y_Seek a key).
Proof. intros E. unfold concat_Seek, probe, travel. rewrite E. by destruct rev. Qed.

Lemma concat_seek_at c es key : concat_over c es -> sk key -> has_ts key ->
  exists c', concat_Seek c key = Some c' /\ concat_at c' es (run_from rev key es).
Proof.
  intros (ess & W & ->) Hsk Hk. rewrite (concat_Seek_eq c key (cw_rev _ _ W)). cbv zeta. unfold len.
  rewrite (cw_tables _ _ W).
  destruct (seek_index c ess key (probe c key) W) as (H1 & H2 & H3).
  { intros p Hp. rewrite <- (cw_tables _ _ W) in Hp |- *. by apply probe_travel. }
  set (r := sort_Search (length ess) (probe c key)) in *. clearbody r.
  assert (forall x, x ∈ concat (take r ess) -> dcmp rev x.1 key = Lt) as Hlt.
  { intros x Hx. apply list_elem_of_In, in_concat in Hx as (e & He & Hx).
    apply list_elem_of_In, list_elem_of_lookup in He as [p Hp]. apply lookup_take_Some in Hp as [Hp Hpr].
    by apply (H2 p e x Hpr Hp), list_elem_of_In. }
  assert (run_from rev key (concat ess) = run_from rev key (concat (drop r ess))) as ->.
  { rewrite <- (take_drop r ess) at 1. by rewrite concat_app, run_from_lt. }
  destruct (ess !! r) as [e|] eqn:He.
  - pose proof (lookup_lt_Some _ _ _ He) as Hr. pose proof (travel_in _ _ Hr) as Ht.
    rewrite bool_decide_eq_false_2 by lia.
    destruct (goto_table c ess r e (fun a => y_Seek a key) (run_from rev key e) W He) as (c' & -> & Hin).
    { intros a Ha. by apply y_seek. }
    exists c'. split; [done|]. rewrite (drop_S _ _ _ He). cbn [concat].
    rewrite run_from_app by (by apply H3). apply at_in; [done|by apply H3].
  - apply lookup_ge_None in He. assert (r = length ess) as -> by lia.
    pose proof (travel_out (length ess)). rewrite bool_decide_eq_true_2 by lia.
    assert (exists c', concat_setIdx c (-1) = Some c' /\ concat_wf c' ess /\ cur_iter c' = None) as (c' & -> & W' & Hc).
    { unfold concat_setIdx. rewrite bool_decide_eq_true_2 by lia. eexists. split; [done|]. by destruct W. }
    exists c'. split; [done|]. rewrite drop_all. by apply at_end.
Qed.

Lemma concat_over_ok c es : concat_over c es -> run_sorted rev es /\ all_ts es.
Proof.
  intros (ess & W & ->). split; [apply W|]. apply Forall_forall. intros x Hx.
  apply list_elem_of_In, in_concat in Hx as (e & He & Hx).
  apply list_elem_of_In, list_elem_of_lookup in He as [p Hp].
  destruct (cw_runs _ _ W p e Hp) as (t & _ & R). destruct (y_over_ok _ _ (cr_open _ _ R)) as [_ Ht].
  unfold all_ts in Ht. rewrite Forall_forall in Ht. by apply Ht, list_elem_of_In.
Qed.

Lemma concat_at_over c es l : concat_at c es l -> concat_over c es.
Proof.
  intros [(ess & -> & [(W & _)|(p & lp & [W _ _] & _)])]; by exists ess.
Qed.

Lemma concat_at_suffix c es l : concat_at c es l -> exists pre, es = pre ++ l.
Proof.
  intros [(ess & -> & [(_ & _ & ->)|(p & lp & [W _ (e & a & He & _ & Ha)] & _ & ->)])].
  - exists (concat ess). by rewrite app_nil_r.
  - destruct (y_at_suffix _ _ _ Ha) as [pre ->]. exists (concat (take p ess) ++ pre).
    rewrite <- (take_drop p ess) at 1. rewrite (drop_S _ _ _ He), concat_app. cbn [concat].
    by rewrite <- !app_assoc.
Qed.

Lemma concat_valid_at c es l : concat_at c es l -> concat_Valid c = bool_decide (l <> []).
Proof.
  intros [(ess & -> & [(W & Hc & ->)|(p & lp & Hin & Hne & ->)])].
  - unfold concat_Valid. by rewrite Hc.
  - rewrite (in_valid c ess p lp Hin). apply bool_decide_ext. destruct lp; naive_solver.
Qed.

Lemma concat_shows_at c es x l : concat_at c es (x :: l) -> concat_Key c = x.1 /\ concat_Value c = Some x.2.
Proof.
  intros [(ess & -> & [(_ & _ & [=])|(p & lp & [_ _ (e & a & _ & Hc & Ha)] & Hne & El)])].
  destruct lp as [|x' lp]; [done|]. injection El as <- _. unfold concat_Key, concat_Value. rewrite Hc.
  apply (y_shows a e x lp Ha).
Qed.

#[export] Instance ConcatIterator_laws : YIteratorLaws (ConcatIterator A) rev sk := {
  y_over := concat_over;
  y_at := concat_at;
  y_at_over := concat_at_over;
  y_over_ok := concat_over_ok;
  y_at_suffix := concat_at_suffix;
  y_rewind := concat_rewind_at;
  y_seek := concat_seek_at;
  y_next := concat_next_at;
  y_valid := concat_valid_at;
  y_shows := concat_shows_at
}.
End ConcatLaws.

(** ** Table iterators satisfy the interface, forwards *)

Section TableLaws.
Context `{C : ChecksumCodec} `{I : IndexCodec} {sk : bytes -> Prop}.

Definition table_over (s : tableIter) (es : list kv) : Prop :=
  ti_reversed s = false /\ exists bss, table_repr (ti_table s) bss /\ Forall kv_small (flat bss) /\
    kvs_sorted (flat bss) /\ es = read_back <$> flat bss.

Definition table_at (s : tableIter) (es l : list kv) : Prop :=
  ti_reversed s = false /\ exists bss p, table_repr (ti_table s) bss /\ Forall kv_small (flat bss) /\
    kvs_sorted (flat bss) /\ es = read_back <$> flat bss /\ l = drop p es /\
    if decide (p < length (flat bss))%nat then cursor bss (ti_it s) p else it_Valid (ti_it s) = false.

Lemma table_at_over s es l : table_at s es l -> table_over s es.
Proof. intros (Hr & bss & p & Ht & Hsm & Hs & -> & _). split; [done|]. by exists bss. Qed.

Lemma table_over_ok s es : table_over s es -> run_sorted false es /\ all_ts es.
Proof.
  intros (_ & bss & _ & Hsm & Hs & ->). split.
  - clear Hsm. unfold kvs_sorted, run_sorted in *.
    induction Hs as [|x l Hs IH Hx]; rewrite ?fmap_cons; constructor; [done|]. by apply Forall_fmap.
  - apply Forall_fmap. eapply Forall_impl; [exact Hsm|]. intros x [((Hk & _) & _) _].
    unfold has_ts. cbn. lia.
Qed.

Lemma table_at_suffix s es l : table_at s es l -> exists pre, es = pre ++ l.
Proof. intros (_ & bss & p & _ & _ & _ & _ & -> & _). exists (take p es). by rewrite take_drop. Qed.

Lemma table_rewind_at s es : table_over s es -> exists s', y_Rewind s = Some s' /\ table_at s' es es.
Proof.
  intros (Hr & bss & Ht & Hsm & Hs & ->). cbn [y_Rewind tableIter_it]. unfold on_table. rewrite Hr.
  destruct (table_first (ti_table s) bss (ti_it s) Ht) as (it & E & Hc). cbn [it_Rewind]. rewrite E.
  eexists. split; [done|]. split; [done|]. exists bss, 0%nat. split_and!; try done.
  destruct (cursor_entry _ _ _ Hc) as (k & v & El & _). by rewrite decide_True by (by eapply lookup_lt_Some).
Qed.

Lemma run_from_drop es key r : (r <= length es)%nat ->
  (forall q x, (q < r)%nat -> es !! q = Some x -> compareKeys x.1 key = Lt) ->
  (forall x, es !! r = Some x -> compareKeys x.1 key <> Lt) ->
  run_from false key es = drop r es.
Proof.
  revert r. induction es as [|e es IH]; intros r Hr Hlo Hhi; [by destruct r|]. cbn [run_from].
  destruct r as [|r].
  - rewrite bool_decide_eq_false_2; [done|]. by apply Hhi.
  - rewrite bool_decide_eq_true_2 by (by apply (Hlo 0%nat); [lia|]). cbn [drop]. apply IH; [simpl in Hr; lia| |done].
    intros q x Hq. apply (Hlo (S q)). lia.
Qed.

Lemma table_seek_at s es key : table_over s es -> sk key -> has_ts key ->
  exists s', y_Seek s key = Some s' /\ table_at s' es (run_from false key es).
Proof.
  intros (Hr & bss & Ht & Hsm & Hs & ->) _ Hk. cbn [y_Seek tableIter_it]. unfold on_table. rewrite Hr.
  destruct (table_seek (ti_table s) bss (ti_it s) key Ht Hs Hk) as (it & r & E & Hlen & Hlo & Hm).
  cbn [it_Seek]. rewrite E. eexists. split; [done|]. split; [done|]. exists bss, r. split_and!; try done.
  - apply run_from_drop; [by rewrite length_fmap| |].
    + intros q x Hq Hx. rewrite list_lookup_fmap in Hx. destruct (flat bss !! q) as [y|] eqn:Ey; [|done].
      injection Hx as <-. exact (Hlo q y Hq Ey).
    + intros x Hx. rewrite list_lookup_fmap in Hx. destruct (flat bss !! r) as [y|] eqn:Ey; [|done].
      injection Hx as <-. apply Hm.
  - case_decide as Hlt.
    + destruct (flat bss !! r) as [y|] eqn:Ey; [apply Hm|]. by apply lookup_ge_None in Ey; lia.
    + rewrite (lookup_ge_None_2 (flat bss) r) in Hm by lia. cbn. by eapply past_invalid.
Qed.

(** The cursor of an iterator with entries left. *)
Lemma table_here s es x l : table_at s es (x :: l) -> exists bss p y, table_repr (ti_table s) bss /\
  Forall kv_small (flat bss) /\ kvs_sorted (flat bss) /\ es = read_back <$> flat bss /\
  cursor bss (ti_it s) p /\ flat bss !! p = Some y /\ x = read_back y /\ l = drop (S p) es.
Proof.
  intros (_ & bss & p & Ht & Hsm & Hs & He & El & Hc).
  assert (es !! p = Some x) as Hx.
  { rewrite <- (Nat.add_0_r p), <- lookup_drop, <- El. done. }
  pose proof Hx as Hx'. rewrite He, list_lookup_fmap in Hx'. destruct (flat bss !! p) as [y|] eqn:Ey; [|done].
  injection Hx' as <-. rewrite decide_True in Hc by (by eapply lookup_lt_Some).
  exists bss, p, y. split_and!; try done. rewrite (drop_S _ _ _ Hx) in El. by injection El.
Qed.

Lemma table_next_at s es x l : table_at s es (x :: l) -> exists s', y_Next s = Some s' /\ table_at s' es l.
Proof.
  intros Hat. pose proof Hat as (Hr & _).
  destruct (table_here s es x l Hat) as (bss & p & y & Ht & Hsm & Hs & He & Hc & Hy & _ & ->).
  cbn [y_Next tableIter_it]. unfold on_table. rewrite Hr. cbn [it_Next].
  destruct (table_next (ti_table s) bss (ti_it s) p Ht Hc) as (it & -> & Hn). eexists. split; [done|].
  split; [done|]. exists bss, (S p). split_and!; try done. cbn [ti_it]. case_decide; [done|].
  unfold it_Valid. by rewrite Hn.
Qed.

Lemma table_valid_at s es l : table_at s es l -> y_Valid s = bool_decide (l <> []).
Proof.
  intros (_ & bss & p & Ht & _ & _ & He & -> & Hc). cbn [y_Valid tableIter_it]. case_decide as Hlt.
  - destruct (cursor_entry _ _ _ Hc) as (k & v & _ & _ & _ & ->). rewrite bool_decide_eq_true_2; [done|].
    intros E. apply (f_equal length) in E. rewrite length_drop, He, length_fmap in E. simpl in E. lia.
  - rewrite Hc, bool_decide_eq_false_2; [done|]. rewrite drop_ge; [by intros []|]. rewrite He, length_fmap. lia.
Qed.

Lemma table_shows_at s es x l : table_at s es (x :: l) -> y_Key s = x.1 /\ y_Value s = Some x.2.
Proof.
  intros Hat. destruct (table_here s es x l Hat) as (bss & p & y & Ht & Hsm & Hs & He & Hc & Hy & -> & _).
  destruct (cursor_shown bss (ti_it s) p y Hc Hy Hsm) as [_ E]. cbn. unfold shown in E.
  split; [by injection E|]. by injection E.
Qed.

#[export] Instance tableIter_laws : YIteratorLaws tableIter false sk := {
  y_over := table_over;
  y_at := table_at;
  y_at_over := table_at_over;
  y_over_ok := table_over_ok;
  y_at_suffix := table_at_suffix;
  y_rewind := table_rewind_at;
  y_seek := table_seek_at;
  y_next := table_next_at;
  y_valid := table_valid_at;
  y_shows := table_shows_at
}.

(** *** Backwards

    What is left is what stands at or before the cursor, last entry first. *)

Definition rtable_over (s : tableIter) (es : list kv) : Prop :=
  ti_reversed s = true /\ exists bss, table_repr (ti_table s) bss /\ Forall kv_small (flat bss) /\
    kvs_sorted (flat bss) /\ es = reverse (read_back <$> flat bss).

Definition rtable_at (s : tableIter) (es l : list kv) : Prop :=
  ti_reversed s = true /\ exists bss p, table_repr (ti_table s) bss /\ Forall kv_small (flat bss) /\
    kvs_sorted (flat bss) /\ es = reverse (read_back <$> flat bss) /\ (p <= length (flat bss))%nat /\
    l = reverse (take p (read_back <$> flat bss)) /\
    match p with S q => cursor bss (ti_it s) q | O => it_Valid (ti_it s) = false end.

Lemma rtable_at_over s es l : rtable_at s es l -> rtable_over s es.
Proof. intros (Hr & bss & p & Ht & Hsm & Hs & -> & _). split; [done|]. by exists bss. Qed.

Lemma run_sorted_reverse l : kvs_sorted l -> run_sorted true (reverse l).
Proof.
  unfold kvs_sorted, run_sorted. induction 1 as [|x l Hs IH Hx]; [constructor|].
  rewrite reverse_cons. apply StronglySorted_app_2; [|done|repeat constructor].
  intros a b Ha Hb. rewrite elem_of_reverse in Ha. apply list_elem_of_singleton in Hb as ->.
  rewrite Forall_forall in Hx. cbn. by apply Hx.
Qed.

Lemma read_back_sorted l : kvs_sorted l -> kvs_sorted (read_back <$> l).
Proof.
  unfold kvs_sorted. induction 1 as [|x l Hs IH Hx]; rewrite ?fmap_cons; constructor; [done|]. by apply Forall_fmap.
Qed.

Lemma rtable_over_ok s es : rtable_over s es -> run_sorted true es /\ all_ts es.
Proof.
  intros (_ & bss & _ & Hsm & Hs & ->). split; [by apply run_sorted_reverse, read_back_sorted|].
  unfold all_ts. rewrite reverse_Permutation. apply Forall_fmap. eapply Forall_impl; [exact Hsm|].
  intros x [((Hk & _) & _) _]. unfold has_ts. cbn. lia.
Qed.

Lemma rtable_at_suffix s es l : rtable_at s es l -> exists pre, es = pre ++ l.
Proof.
  intros (_ & bss & p & _ & _ & _ & -> & _ & -> & _). exists (reverse (drop p (read_back <$> flat bss))).
  by rewrite <- reverse_app, take_drop.
Qed.

(** An iterator brought before the first [p] entries. *)
Lemma rtable_moved s it es bss p : ti_reversed s = true -> table_repr (ti_table s) bss ->
  Forall kv_small (flat bss) -> kvs_sorted (flat bss) -> es = reverse (read_back <$> flat bss) ->
  (p <= length (flat bss))%nat ->
  match p with S q => cursor bss it q | O => it_Valid it = false end ->
  rtable_at (mkTIter (ti_table s) (ti_reversed s) it) es (reverse (take p (read_back <$> flat bss))).
Proof. intros Hr Ht Hsm Hs He Hp Hc. split; [done|]. exists bss, p. split_and!; done. Qed.

Lemma flat_nonempty t bss : table_repr t bss -> (0 < length (flat bss))%nat.
Proof.
  intros Ht. destruct (table_first t bss NewIterator Ht) as (it & _ & Hc).
  destruct (cursor_entry _ _ _ Hc) as (k & v & E & _). by eapply lookup_lt_Some.
Qed.

Lemma rtable_rewind_at s es : rtable_over s es -> exists s', y_Rewind s = Some s' /\ rtable_at s' es es.
Proof.
  intros (Hr & bss & Ht & Hsm & Hs & ->). cbn [y_Rewind tableIter_it]. unfold on_table. rewrite Hr.
  destruct (table_last (ti_table s) bss (ti_it s) Ht) as (it & E & Hc). cbn [it_Rewind]. rewrite E.
  eexists. split; [done|]. pose proof (flat_nonempty _ _ Ht).
  pose proof (rtable_moved s it _ bss (length (flat bss)) Hr Ht Hsm Hs eq_refl ltac:(lia)) as Hm.
  rewrite (take_ge (read_back <$> flat bss)), Hr in Hm by (by rewrite length_fmap). apply Hm.
  destruct (length (flat bss)) as [|n]; [lia|]. by replace (S n - 1)%nat with n in Hc by lia.
Qed.

Lemma run_from_rev key l p : (p <= length l)%nat ->
  (forall q x, (q < p)%nat -> l !! q = Some x -> compareKeys x.1 key <> Gt) ->
  (forall q x, (p <= q)%nat -> l !! q = Some x -> compareKeys x.1 key = Gt) ->
  run_from true key (reverse l) = reverse (take p l).
Proof.
  intros Hp Hlo Hhi. rewrite <- (take_drop p l) at 1. rewrite reverse_app, run_from_lt.
  - destruct p as [|p]; [done|]. destruct (lookup_lt_is_Some_2 l p) as [x Hx]; [lia|].
    rewrite (take_S_r _ _ _ Hx), reverse_snoc. cbn [run_from]. rewrite bool_decide_eq_false_2; [done|].
    cbn. rewrite <- (cmp_gt_lt compareKeys). apply (Hlo p); [lia|done].
  - intros x Hx. rewrite elem_of_reverse in Hx. apply list_elem_of_lookup in Hx as [q Hq]. rewrite lookup_drop in Hq.
    cbn. rewrite <- (cmp_gt_lt compareKeys). by apply (Hhi (p + q)%nat); [lia|].
Qed.

Lemma rtable_prev_at s es x l : rtable_at s es (x :: l) -> exists s', y_Next s = Some s' /\ rtable_at s' es l.
Proof.
  intros (Hr & bss & p & Ht & Hsm & Hs & -> & Hp & El & Hc). destruct p as [|p]; [done|].
  destruct (lookup_lt_is_Some_2 (flat bss) p) as [y Hy]; [lia|].
  rewrite (take_S_r _ p (read_back y)), reverse_snoc in El by (by rewrite list_lookup_fmap, Hy). injection El as -> ->.
  cbn [y_Next tableIter_it]. unfold on_table. rewrite Hr. cbn [it_Next].
  destruct (table_prev (ti_table s) bss (ti_it s) p Ht Hc) as (it & -> & Hn). eexists. split; [done|].
  rewrite <- Hr. apply (rtable_moved s it _ bss p); try done; [lia|].
  destruct p; [unfold it_Valid; by rewrite Hn|done].
Qed.

Lemma rtable_valid_at s es l : rtable_at s es l -> y_Valid s = bool_decide (l <> []).
Proof.
  intros (_ & bss & p & Ht & _ & _ & _ & Hp & -> & Hc). cbn [y_Valid tableIter_it]. destruct p as [|p].
  - rewrite Hc. symmetry. apply bool_decide_eq_false_2. by intros [].
  - destruct (cursor_entry _ _ _ Hc) as (k & v & _ & _ & _ & ->). symmetry. apply bool_decide_eq_true_2.
    intros E%(f_equal length). rewrite length_reverse, length_take, length_fmap in E. change (length (@nil kv)) with 0%nat in E. lia.
Qed.

Lemma rtable_shows_at s es x l : rtable_at s es (x :: l) -> y_Key s = x.1 /\ y_Value s = Some x.2.
Proof.
  intros (Hr & bss & p & Ht & Hsm & Hs & -> & Hp & El & Hc). destruct p as [|p]; [done|].
  destruct (lookup_lt_is_Some_2 (flat bss) p) as [y Hy]; [lia|].
  rewrite (take_S_r _ p (read_back y)), reverse_snoc in El by (by rewrite list_lookup_fmap, Hy). injection El as -> _.
  destruct (cursor_shown bss (ti_it s) p y Hc Hy Hsm) as [_ E]. unfold shown in E. cbn.
  split; by injection E.
Qed.

Lemma rtable_seek_at s es key : rtable_over s es -> sk key -> has_ts key ->
  exists s', y_Seek s key = Some s' /\ rtable_at s' es (run_from true key es).
Proof.
  intros (Hr & bss & Ht & Hsm & Hs & ->) _ Hk. cbn [y_Seek tableIter_it]. unfold on_table. rewrite Hr.
  destruct (table_seek (ti_table s) bss (ti_it s) key Ht Hs Hk) as (it & r & E & Hlen & Hlo & Hm).
  unfold it_seek in E. cbn [it_Seek]. unfold it_seekForPrev. rewrite E. cbn [mbind option_bind].
  assert (forall it' p, (p <= length (flat bss))%nat ->
    (forall q x, (q < p)%nat -> flat bss !! q = Some x -> compareKeys x.1 key <> Gt) ->
    (forall q x, (p <= q)%nat -> flat bss !! q = Some x -> compareKeys x.1 key = Gt) ->
    match p with S q => cursor bss it' q | O => it_Valid it' = false end ->
    rtable_at (mkTIter (ti_table s) true it') (reverse (read_back <$> flat bss))
      (run_from true key (reverse (read_back <$> flat bss)))) as Hdone.
  { intros it' p Hp H1 H2 Hc. rewrite (run_from_rev key _ p).
    - rewrite <- Hr. by apply (rtable_moved s it' _ bss p).
    - by rewrite length_fmap.
    - intros q x Hq Hx. rewrite list_lookup_fmap in Hx. destruct (flat bss !! q) as [y|] eqn:Ey; [|done].
      injection Hx as <-. exact (H1 q y Hq Ey).
    - intros q x Hq Hx. rewrite list_lookup_fmap in Hx. destruct (flat bss !! q) as [y|] eqn:Ey; [|done].
      injection Hx as <-. exact (H2 q y Hq Ey). }
  destruct (flat bss !! r) as [y|] eqn:Ey.
  - destruct Hm as [Hge Hc]. destruct (cursor_entry _ _ _ Hc) as (k & v & Ey' & Ek & _).
    rewrite Ey in Ey'. injection Ey' as ->. rewrite Ek. apply lookup_lt_Some in Ey as Hlt.
    assert (forall q x, (r < q)%nat -> flat bss !! q = Some x -> compareKeys k x.1 = Lt) as Hafter.
    { intros q x Hq Hx. exact (StronglySorted_lookup _ _ _ _ _ _ Hs Ey Hx Hq). }
    case_bool_decide as Heq.
    + eexists. split; [done|]. apply (Hdone it (S r)); [lia| | |done].
      * intros q x Hq Hx. destruct (decide (q = r)) as [->|Hne].
        -- rewrite Ey in Hx. injection Hx as <-. cbn. by rewrite Heq, (cmp_refl compareKeys).
        -- by rewrite (Hlo q x ltac:(lia) Hx).
      * intros q x Hq Hx. apply (cmp_gt_lt compareKeys). rewrite <- Heq. by apply (Hafter q); [lia|].
    + destruct (table_prev (ti_table s) bss it r Ht Hc) as (it' & -> & Hn). eexists. split; [done|].
      assert (compareKeys k key = Gt) as Hgt.
      { cbn in Hge. destruct (compareKeys k key) eqn:Ec; [by apply (cmp_eq compareKeys) in Ec|done|done]. }
      apply (Hdone it' r); [lia| | |destruct r; [unfold it_Valid; by rewrite Hn|done]].
      * intros q x Hq Hx. by rewrite (Hlo q x Hq Hx).
      * intros q x Hq Hx. destruct (decide (q = r)) as [->|Hne]; [rewrite Ey in Hx; by injection Hx as <-|].
        apply (cmp_gt_lt compareKeys) in Hgt. apply (cmp_gt_lt compareKeys).
        apply (cmp_trans compareKeys _ _ _ Hgt). by apply (Hafter q); [lia|].
  - apply lookup_ge_None in Ey. assert (r = length (flat bss)) as -> by lia.
    rewrite bool_decide_eq_false_2.
    2:{ apply (past_key bss); [done|done|]. intros x [q Hq]%list_elem_of_lookup.
        apply (Hlo q x); [by eapply lookup_lt_Some|done]. }
    destruct (past_prev (ti_table s) bss it Ht Hm) as (it' & -> & Hc). eexists. split; [done|].
    pose proof (flat_nonempty _ _ Ht).
    apply (Hdone it' (length (flat bss))); [lia| | |].
    + intros q x Hq Hx. by rewrite (Hlo q x Hq Hx).
    + intros q x Hq Hx. apply lookup_lt_Some in Hx. lia.
    + destruct (length (flat bss)) as [|n]; [lia|]. by replace (S n - 1)%nat with n in Hc by lia.
Qed.

#[export] Instance tableIter_rlaws : YIteratorLaws tableIter true sk := {
  y_over := rtable_over;
  y_at := rtable_at;
  y_at_over := rtable_at_over;
  y_over_ok := rtable_over_ok;
  y_at_suffix := rtable_at_suffix;
  y_rewind := rtable_rewind_at;
  y_seek := rtable_seek_at;
  y_next := rtable_prev_at;
  y_valid := rtable_valid_at;
  y_shows := rtable_shows_at
}.
End TableLaws.

(** ** Trees of iterators *)

(** A run in the direction of travel. *)
Definition dir (rev : bool) (l : list kv) : list kv := if rev then reverse l else l.

Lemma dir_elem rev l x : x ∈ dir rev l <-> x ∈ l.
Proof. unfold dir. destruct rev; [|done]. apply elem_of_reverse. Qed.

Lemma dir_sorted rev l : kvs_sorted l -> run_sorted rev (dir rev l).
Proof. intros H. unfold dir. destruct rev; [by apply run_sorted_reverse|done]. Qed.

(** All an iterator has left: what a loop [for it.Valid() { ...; it.Next() }] sees. *)
Fixpoint drain {S} `{YIterator S} (fuel : nat) (s : S) : option (list (bytes * option ValueStruct)) :=
  if y_Valid s then
    match fuel with
    | O => None
    | S fuel => s' ← y_Next s; rest ← drain fuel s'; Some ((y_Key s, y_Value s) :: rest)
    end
  else Some [].

Definition seen (x : kv) : bytes * option ValueStruct := (x.1, Some x.2).

Lemma drain_at {S rev sk} {IS : YIterator S} {L : YIteratorLaws S rev sk} fuel es l : forall s : S,
  y_at s es l -> (length l <= fuel)%nat -> drain fuel s = Some (seen <$> l).
Proof.
  revert fuel. induction l as [|x l IH]; intros fuel s Hs Hf.
  - destruct fuel; cbn [drain]; by rewrite (y_valid s es [] Hs).
  - destruct fuel as [|fuel]; [simpl in Hf; lia|]. cbn [drain]. rewrite (y_valid s es _ Hs).
    rewrite bool_decide_eq_true_2 by done. destruct (y_next s es x l Hs) as (s' & -> & Hs').
    cbn [mbind option_bind]. rewrite (IH fuel s' Hs') by (simpl in Hf; lia). cbn [mbind option_bind].
    destruct (y_shows s es x l Hs) as [-> ->]. done.
Qed.

Definition any_over (rev : bool) (sk : bytes -> Prop) (a : AnyIter) (es : list kv) : Prop :=
  match a with Any T IT s => exists L : YIteratorLaws T rev sk, y_over s es end.

Definition any_rewind (a : AnyIter) (fuel : nat) : option (list (bytes * option ValueStruct)) :=
  match a with Any T IT s => s ← y_Rewind s; drain fuel s end.

Definition any_seek (a : AnyIter) (key : bytes) (fuel : nat) : option (list (bytes * option ValueStruct)) :=
  match a with Any T IT s => s ← y_Seek s key; drain fuel s end.

Lemma any_over_ok rev sk a es : any_over rev sk a es -> run_sorted rev es.
Proof. destruct a as [T IT s]. intros [L H]. apply (y_over_ok s es H). Qed.

Lemma merge_any_over rev sk a b ea eb : any_over rev sk a ea -> any_over rev sk b eb ->
  any_over rev sk (merge_any a b rev) (merge_runs rev ea eb).
Proof.
  destruct a as [A IA a], b as [B IB b]. intros [LA Ha] [LB Hb]. cbn.
  exists MergeIterator_laws. cbn. by apply merge_of_over.
Qed.

(** The merge of several runs: the first that has a key gives its entry. *)
Definition merge_all (rev : bool) (ess : list (list kv)) : list kv := foldr (merge_runs rev) [] ess.

Lemma merge_all_sorted rev ess : Forall (run_sorted rev) ess -> run_sorted rev (merge_all rev ess).
Proof. induction 1 as [|es ess Hs Hss IH]; [constructor|]. by apply merge_sorted. Qed.

Definition has_key (l : list kv) (k : bytes) : Prop := exists y, y ∈ l /\ y.1 = k.

Lemma merge_elem_key rev x l1 l2 : run_sorted rev l1 -> run_sorted rev l2 ->
  x ∈ merge_runs rev l1 l2 <-> x ∈ l1 \/ (x ∈ l2 /\ ~ has_key l1 x.1).
Proof. intros H1 H2. rewrite (merge_elem rev x l1 l2 H1 H2). unfold has_key. naive_solver. Qed.

Lemma merge_has_key rev l1 l2 k : run_sorted rev l1 -> run_sorted rev l2 ->
  has_key (merge_runs rev l1 l2) k <-> has_key l1 k \/ has_key l2 k.
Proof.
  intros H1 H2. unfold has_key at 1. split.
  - intros (y & Hy & <-). apply merge_elem_key in Hy as [Hy|[Hy _]]; [left|right|done|done]; by exists y.
  - intros [(y & Hy & <-)|(y & Hy & <-)].
    + exists y. split; [|done]. apply merge_elem_key; auto.
    + destruct (Exists_dec (fun z : kv => z.1 = y.1) l1) as [Hz|Hz].
      * apply Exists_exists in Hz as (z & Hz & Ez). exists z. split; [|done]. apply merge_elem_key; auto.
      * exists y. split; [|done]. apply merge_elem_key; [done|done|]. right. split; [done|].
        intros (z & Hzl & Ez). apply Hz, Exists_exists. by exists z.
Qed.

Lemma merge_all_has_key rev ess k : Forall (run_sorted rev) ess ->
  has_key (merge_all rev ess) k <-> exists l, l ∈ ess /\ has_key l k.
Proof.
  intros Hsort. induction Hsort as [|l ess Hl Hs IH]; cbn [merge_all foldr].
  - split; [by intros (y & ?%elem_of_nil & _)|by intros (l & ?%elem_of_nil & _)].
  - rewrite merge_has_key by (done || by apply merge_all_sorted). unfold merge_all in IH. rewrite IH.
    split; [intros [H|(l' & Hl' & H)]; [exists l|exists l']; (split; [|done]); [by left|by right]|].
    intros (l' & Hl'%elem_of_cons & H). destruct Hl' as [->|Hl']; [by left|right; by exists l'].
Qed.

(** Nothing is made up. *)
Lemma merge_all_in rev ess x : Forall (run_sorted rev) ess -> x ∈ merge_all rev ess -> exists l, l ∈ ess /\ x ∈ l.
Proof.
  induction 1 as [|l ess Hl Hs IH]; [by intros ?%elem_of_nil|]. cbn [merge_all foldr]. intros Hx.
  apply merge_elem_key in Hx as [Hx|[Hx _]]; [exists l; split; [by left|done]| |done|by apply merge_all_sorted].
  destruct (IH Hx) as (l' & Hl' & ?). exists l'. split; [by right|done].
Qed.

Lemma merge_assoc rev l1 l2 l3 : run_sorted rev l1 -> run_sorted rev l2 -> run_sorted rev l3 ->
  merge_runs rev (merge_runs rev l1 l2) l3 = merge_runs rev l1 (merge_runs rev l2 l3).
Proof.
  intros H1 H2 H3. apply (sorted_ext rev); [auto using merge_sorted..|]. intros x.
  rewrite !merge_elem_key, merge_has_key by auto using merge_sorted. tauto.
Qed.

Lemma merge_all_app rev l1 l2 : Forall (run_sorted rev) l1 -> Forall (run_sorted rev) l2 ->
  merge_all rev (l1 ++ l2) = merge_runs rev (merge_all rev l1) (merge_all rev l2).
Proof.
  intros H1 H2. induction H1 as [|es l1 Hes H1 IH]; [done|]. cbn. unfold merge_all in IH. rewrite IH.
  symmetry. apply merge_assoc; [done|by apply merge_all_sorted..].
Qed.

Lemma NewMergeIterator_over rev sk fuel : forall iters ess, Forall2 (any_over rev sk) iters ess ->
  iters <> [] -> (length iters <= fuel)%nat ->
  exists a, NewMergeIterator fuel iters rev = Some a /\ any_over rev sk a (merge_all rev ess).
Proof.
  induction fuel as [|fuel IH]; intros iters ess Ha Hne Hf; [destruct iters; [done|simpl in Hf; lia]|].
  assert (Forall (run_sorted rev) ess) as Hsort.
  { clear -Ha. induction Ha; constructor; eauto using any_over_ok. }
  destruct iters as [|a [|b [|c iters]]]; [done| | |].
  - apply Forall2_cons_inv_l in Ha as (ea & ess' & Ha & Hn & ->). apply Forall2_nil_inv_l in Hn as ->.
    exists a. split; [done|]. cbn. by rewrite merge_nil_r.
  - apply Forall2_cons_inv_l in Ha as (ea & ess' & Ha & Hn & ->).
    apply Forall2_cons_inv_l in Hn as (eb & ess'' & Hb & Hn & ->). apply Forall2_nil_inv_l in Hn as ->.
    exists (merge_any a b rev). split; [done|]. cbn. rewrite merge_nil_r. by apply merge_any_over.
  - remember (a :: b :: c :: iters) as its eqn:E.
    assert (3 <= length its)%nat as Hl by (rewrite E; simpl; lia).
    set (mid := (length its / 2)%nat).
    assert (0 < mid < length its)%nat as Hmid.
    { subst mid. split; [apply Nat.div_str_pos; lia|apply Nat.div_lt; lia]. }
    destruct (IH (take mid its) (take mid ess)) as (l & El & Hol).
    { by apply Forall2_take. }
    { intros En. apply (f_equal length) in En. rewrite length_take in En. simpl in En. lia. }
    { rewrite length_take. lia. }
    destruct (IH (drop mid its) (drop mid ess)) as (r & Er & Hor).
    { by apply Forall2_drop. }
    { intros En. apply (f_equal length) in En. rewrite length_drop in En. simpl in En. lia. }
    { rewrite length_drop. lia. }
    exists (merge_any l r rev). split.
    + rewrite E in El, Er |- *. cbn [NewMergeIterator]. rewrite <- E in El, Er |- *. fold mid.
      by rewrite El, Er.
    + rewrite <- (take_drop mid ess), merge_all_app by (by apply Forall_take || by apply Forall_drop).
      by apply merge_any_over.
Qed.

Lemma any_rewind_over rev sk a es fuel : any_over rev sk a es -> (length es <= fuel)%nat ->
  any_rewind a fuel = Some (seen <$> es).
Proof.
  destruct a as [T IT s]. intros [L H] Hf. cbn. destruct (y_rewind s es H) as (s' & -> & Hs).
  by apply (drain_at fuel es es).
Qed.

Lemma any_seek_over rev sk a es key fuel : any_over rev sk a es -> sk key -> has_ts key -> (length es <= fuel)%nat ->
  any_seek a key fuel = Some (seen <$> run_from rev key es).
Proof.
  destruct a as [T IT s]. intros [L H] Hsk Hk Hf. cbn. destruct (y_seek s es key H Hsk Hk) as (s' & -> & Hs).
  apply (drain_at fuel es); [done|]. destruct (run_from_suffix rev key es) as [pre E].
  apply (f_equal length) in E. rewrite length_app in E. lia.
Qed.

(** C26: merging: the tree [NewMergeIterator] builds over any lawful iterators — table iterators,
    concatenations, merges, in either direction — shows exactly the merge of their runs: in
    order, each key once, the entry of the first iterator that has it; and after [Seek] the
    part from the key on. *)
Theorem NewMergeIterator_merges (rev : bool) (sk : bytes -> Prop) (iters : list AnyIter) (ess : list (list kv))
    (key : bytes) :
  iters <> [] -> Forall2 (any_over rev sk) iters ess -> sk key -> has_ts key ->
  exists it, NewMergeIterator (length iters) iters rev = Some it /\
    let es := merge_all rev ess in
    run_sorted rev es /\
    (forall k, has_key es k <-> exists l, l ∈ ess /\ has_key l k) /\
    (forall i l x, ess !! i = Some l -> x ∈ l ->
       (forall j l', (j < i)%nat -> ess !! j = Some l' -> ~ has_key l' x.1) -> x ∈ es) /\
    any_rewind it (length es) = Some (seen <$> es) /\
    any_seek it key (length es) = Some (seen <$> run_from rev key es).
Proof.
  intros Hne Ha Hsk Hk. destruct (NewMergeIterator_over rev sk (length iters) iters ess Ha Hne) as (it & E & Ho); [done|].
  assert (Forall (run_sorted rev) ess) as Hsort.
  { clear -Ha. induction Ha; constructor; eauto using any_over_ok. }
  exists it. split; [done|]. cbv zeta. split_and!.
  - by apply merge_all_sorted.
  - intros k. by apply merge_all_has_key.
  - clear -Hsort. induction Hsort as [|l0 ess Hl Hs IH]; intros i l x Hi Hx Hn; [done|].
    cbn [merge_all foldr]. apply merge_elem_key; [done|by apply merge_all_sorted|].
    destruct i as [|i]; [injection Hi as ->; by left|right]. split.
    + apply (IH i l x Hi Hx). intros j l' Hj. apply (Hn (S j)). lia.
    + by apply (Hn 0%nat l0); [lia|].
  - by apply (any_rewind_over rev sk).
  - by apply (any_seek_over rev sk).
Qed.

(** A new concatenation of tables, their runs given in the order of travel. *)
Lemma concat_new_over {A rev sk} {IA : YIterator A} {LA : YIteratorLaws A rev sk} (ts : list (ctable A))
    (ess : list (list kv)) :
  Forall2 ct_runs (if rev then reverse ts else ts) ess -> run_sorted rev (concat ess) ->
  concat_over (NewConcatIterator ts rev) (concat ess).
Proof.
  intros Hr Hs. exists ess. split; [|done]. pose proof (Forall2_length _ _ _ Hr) as Hl.
  assert (length ts = length ess) as Hl' by (rewrite <- Hl; destruct rev; by rewrite ?length_reverse).
  split; cbn [NewConcatIterator c_reversed c_tables c_iters]; try done.
  - by rewrite length_replicate.
  - intros p e He. destruct (Forall2_lookup_r _ _ _ p e Hr He) as (t & Ht & Hct). exists t. split; [|done].
    pose proof (lookup_lt_Some _ _ _ He) as Hp. unfold travel. clear Hct Hr Hs Hl. destruct rev.
    + rewrite reverse_lookup in Ht by lia. rewrite <- Ht. f_equal. lia.
    + by rewrite Nat2Z.id.
  - intros p e a _ Ha. by apply lookup_replicate in Ha as [[=] _].
Qed.

(** Concatenation: over tables whose runs follow each other in the order of travel — the
    tables of a level — a [ConcatIterator] shows the concatenation of the runs, opening every
    table once, and [Seek] picks by binary search the one table that can hold the key. *)
Theorem ConcatIterator_concatenates {A : Type} (rev : bool) {IA : YIterator A}
    (sk : bytes -> Prop) {LA : YIteratorLaws A rev sk} (ts : list (ctable A)) (ess : list (list kv)) (key : bytes) :
  Forall2 ct_runs (if rev then reverse ts else ts) ess -> run_sorted rev (concat ess) -> sk key -> has_ts key ->
  let c := Any (ConcatIterator A) ConcatIterator_it (NewConcatIterator ts rev) in
  let n := length (concat ess) in
  any_rewind c n = Some (seen <$> concat ess) /\
  any_seek c key n = Some (seen <$> run_from rev key (concat ess)).
Proof.
  intros Hr Hs Hsk Hk c n. assert (any_over rev sk c (concat ess)) as Ho
    by (exists ConcatIterator_laws; by apply concat_new_over).
  split; [by apply (any_rewind_over rev sk)|by apply (any_seek_over rev sk)].
Qed.

(** ** Examples *)

Definition it_run : list kv := read_back <$> added tb_adds.

(** The example file's table. *)
Lemma ex_table_over : exists t, table_over (mkTIter t false NewIterator) it_run.
Proof.
  destruct (build_all_repr tb_opts tb_adds ltac:(by split) tb_adds_small) as (b & Eb & Hr & _).
  destruct (open_file b (added tb_adds) None true false Hr ltac:(done) (tb_finish_ok b Eb))
    as (file & t & bss & kf & kl & vf & vl & _ & _ & Ht & Hfl & _).
  exists t. split; [done|]. exists bss. unfold it_run. rewrite Hfl.
  split_and!; [done|apply tb_adds_small|apply tb_adds_sorted|done].
Qed.

Lemma it_run_sorted : run_sorted false it_run.
Proof. destruct ex_table_over as [t H]. by apply table_over_ok in H as [? _]. Qed.

Definition ex_ct (t : tableFile) : ctable tableIter :=
  mkCT (KeyWithTs [x61] 5) (KeyWithTs [x63; x63] 1) (mkTIter t false NewIterator).

Lemma ex_ct_runs (sk : bytes -> Prop) t : table_over (mkTIter t false NewIterator) it_run ->
  Forall2 (ct_runs (rev := false) (sk := sk)) [ex_ct t] [it_run].
Proof. intros H. constructor; [|constructor]. by split. Qed.

(** Two iterators over the same entries: the duplicates are dropped. *)
Lemma NewMergeIterator_merges_witness :
  exists t it, NewMergeIterator 2 [Any tableIter tableIter_it (mkTIter t false NewIterator);
      Any (ConcatIterator tableIter) ConcatIterator_it (NewConcatIterator [ex_ct t] false)] false = Some it /\
    any_rewind it 5 = Some (seen <$> it_run) /\
    any_seek it (KeyWithTs [x61; x62] 9) 5 = Some (seen <$> drop 2 it_run).
Proof.
  destruct ex_table_over as [t H]. exists t.
  destruct (NewMergeIterator_merges false (fun _ => True)
    [Any tableIter tableIter_it (mkTIter t false NewIterator);
     Any (ConcatIterator tableIter) ConcatIterator_it (NewConcatIterator [ex_ct t] false)]
    [it_run; concat [it_run]] (KeyWithTs [x61; x62] 9)) as (it & E & _ & _ & _ & H1 & H2).
  - done.
  - constructor; [by exists tableIter_laws|]. constructor; [|constructor].
    exists ConcatIterator_laws. apply concat_new_over; [by apply ex_ct_runs|].
    change (concat [it_run]) with (it_run ++ []). rewrite app_nil_r. apply it_run_sorted.
  - done.
  - apply KeyWithTs_has_ts.
  - exists it. split; [exact E|]. split.
    + etransitivity; [exact H1|]. by vm_compute.
    + etransitivity; [exact H2|]. by vm_compute.
Defined.

Lemma ConcatIterator_concatenates_witness :
  exists t, let c := Any (ConcatIterator tableIter) ConcatIterator_it (NewConcatIterator [ex_ct t] false) in
    any_rewind c 5 = Some (seen <$> it_run) /\
    any_seek c (KeyWithTs [x62] 10) 5 = Some (seen <$> drop 3 it_run).
Proof.
  destruct ex_table_over as [t H]. exists t.
  destruct (ConcatIterator_concatenates false (fun _ => True) [ex_ct t] [it_run] (KeyWithTs [x62] 10)) as [H1 H2].
  - by apply ex_ct_runs.
  - change (concat [it_run]) with (it_run ++ []). rewrite app_nil_r. apply it_run_sorted.
  - done.
  - apply KeyWithTs_has_ts.
  - split; [etransitivity; [exact H1|]; by vm_compute|etransitivity; [exact H2|]; by vm_compute].
Defined.
