(* ===== verification/LevelHandler.v ===== *)
(** * LevelHandler: the tables of a level, and point lookups (level_handler.go, util.go,
    levels.go, db.go)

    [levelHandler] keeps the tables of one level in order and the running totals of their
    sizes; reference counts, which decide only when a file is removed, are not modelled.
    [get] of a level, of the levels together and of the whole database follow each other and
    are proved against [newest].  A panic is [None]. *)

From S2P Require Import Prelude Keys Codec Bloom Tables.

(** ** State *)

Record levelHandler : Type := mkLevel {
  level : Z;
  tables : list Table;
  totalSize : Z;
  totalStaleSize : Z
}.

Definition newLevelHandler (lvl : Z) : levelHandler := mkLevel lvl [] 0 0.

Definition isLastLevel (MaxLevels : Z) (s : levelHandler) : bool :=
  bool_decide (level s = MaxLevels - 1).

Definition getTotalStaleSize (s : levelHandler) : Z := totalStaleSize s.
Definition getTotalSize (s : levelHandler) : Z := totalSize s.
Definition numTables (s : levelHandler) : Z := len (tables s).

Definition set_tables (s : levelHandler) (l : list Table) : levelHandler :=
  mkLevel (level s) l (totalSize s) (totalStaleSize s).

Definition addSize (s : levelHandler) (t : Table) : levelHandler :=
  mkLevel (level s) (tables s) (totalSize s + Size t) (totalStaleSize s + StaleDataSize t).

Definition subtractSize (s : levelHandler) (t : Table) : levelHandler :=
  mkLevel (level s) (tables s) (totalSize s - Size t) (totalStaleSize s - StaleDataSize t).

(** ** Operations *)

Definition sort_by_smallest (l : list Table) : list Table := sort_by compareKeys Smallest l.

Definition initTables (s : levelHandler) (l : list Table) : levelHandler :=
  let s := mkLevel (level s) l 0 0 in
  let s := foldl addSize s l in
  if bool_decide (level s = 0) then set_tables s (sort_by Z.compare ID (tables s))
  else set_tables s (sort_by_smallest (tables s)).

(** The loop shared by [deleteTables] and [replaceTables]: drop the tables whose ID is in
    [toDelMap] and subtract their sizes. *)
Definition drop_tables (s : levelHandler) (toDel : list Table) : levelHandler :=
  let toDelMap : gset Z := list_to_set (ID <$> toDel) in
  foldl (fun s t =>
           if bool_decide (ID t ∈ toDelMap) then subtractSize s t
           else set_tables s (tables s ++ [t]))
    (set_tables s []) (tables s).

Definition deleteTables (s : levelHandler) (toDel : list Table) : levelHandler :=
  drop_tables s toDel.

Definition addTable (s : levelHandler) (t : Table) : levelHandler :=
  let s := addSize s t in set_tables s (tables s ++ [t]).

Definition sortTables (s : levelHandler) : levelHandler :=
  set_tables s (sort_by_smallest (tables s)).

Definition replaceTables (s : levelHandler) (toDel toAdd : list Table) : levelHandler :=
  sortTables (foldl addTable (drop_tables s toDel) toAdd).

(** False when the level stalls; the assertion is that this is level 0. *)
Definition tryAddLevel0Table (stall : Z) (s : levelHandler) (t : Table)
    : option (bool * levelHandler) :=
  if bool_decide (level s = 0) then
    if bool_decide (stall <= numTables s) then Some (false, s)
    else Some (true, addTable s t)
  else None.

(** [CompareKeys] here is on keys with a timestamp, as table bounds always are. *)
Definition getTableForKey (s : levelHandler) (key : bytes) : list Table :=
  if bool_decide (level s = 0) then reverse (tables s)
  else
    let ge i := match tables s !! i with
                | Some t => bool_decide (compareKeys (Biggest t) key <> Lt)
                | None => true
                end in
    let idx := sort_Search (length (tables s)) ge in
    match tables s !! idx with Some tbl => [tbl] | None => [] end.

Definition level_get (s : levelHandler) (key : bytes) : option ValueStruct :=
  foldl (fun acc th => maxVs ← acc; table_get th key maxVs) (Some vs_zero)
    (getTableForKey s key).

(** The half-open range of the tables that intersect [left, right]. *)
Definition overlappingTables (s : levelHandler) (left right : bytes) : nat * nat :=
  if bool_decide (len left = 0 \/ len right = 0) then (0%nat, 0%nat)
  else
    let l := sort_Search (length (tables s)) (fun i =>
      match tables s !! i with
      | Some t => bool_decide (compareKeys left (Biggest t) <> Gt) | None => true end) in
    let r := sort_Search (length (tables s)) (fun i =>
      match tables s !! i with
      | Some t => bool_decide (compareKeys right (Smallest t) = Lt) | None => true end) in
    (l, r).

(** [validate]: true for a nil error. *)
Fixpoint validate_tables (l : list Table) : bool :=
  match l with
  | t1 :: ((t2 :: _) as l') =>
      bool_decide (compareKeys (Biggest t1) (Smallest t2) = Lt) &&
      bool_decide (compareKeys (Smallest t2) (Biggest t2) <> Gt) && validate_tables l'
  | _ => true
  end.

Definition validate (s : levelHandler) : bool :=
  if bool_decide (level s = 0) then true else validate_tables (tables s).

(** ** Lookups across levels and memtables *)

(** [levelsController.get]'s loop: the first level that has the exact version ends it. *)
Fixpoint levels_loop (levels : list levelHandler) (key : bytes) (version startLevel : Z)
    (maxVs : ValueStruct) : option ValueStruct :=
  match levels with
  | [] => Some maxVs
  | h :: levels =>
      if bool_decide (level h < startLevel) then levels_loop levels key version startLevel maxVs
      else
        vs ← level_get h key;
        if vs_missing vs then levels_loop levels key version startLevel maxVs
        else if bool_decide (Version vs = version) then Some vs
        else
          levels_loop levels key version startLevel
            (if bool_decide (Version maxVs < Version vs) then vs else maxVs)
  end.

Inductive db_error : Type := ErrDBClosed.

Definition levels_get (closed : bool) (levels : list levelHandler) (key : bytes)
    (maxVs : ValueStruct) (startLevel : Z) : result db_error ValueStruct :=
  if closed then Err ErrDBClosed
  else unpanic (levels_loop levels key (ParseTs key) startLevel maxVs).

(** A memtable's [sl.Get]: the first entry not below the key, if it is for the same user key. *)
Definition sl_Get (es : list kv) (key : bytes) : ValueStruct :=
  match run_seek es key with
  | None => vs_zero
  | Some (k, vs) => if SameKey key k then with_version vs (ParseTs k) else vs_zero
  end.

(** [DB.get]'s loop over the memtables, newest first. *)
Fixpoint mem_loop (mems : list (list kv)) (key : bytes) (version : Z) (maxVs : ValueStruct)
    : ValueStruct + ValueStruct :=
  match mems with
  | [] => inr maxVs
  | sl :: mems =>
      let vs := sl_Get sl key in
      if vs_missing vs then mem_loop mems key version maxVs
      else if bool_decide (Version vs = version) then inl vs
      else mem_loop mems key version (if bool_decide (Version maxVs < Version vs) then vs else maxVs)
  end.

(** [getMemTables]: the mutable memtable (absent in read-only mode), then the immutable ones,
    youngest first. *)
Definition getMemTables (ReadOnly : bool) (mt : list kv) (imm : list (list kv)) : list (list kv) :=
  (if ReadOnly then [] else [mt]) ++ reverse imm.

Definition db_get (closed ReadOnly : bool) (mt : list kv) (imm : list (list kv))
    (levels : list levelHandler) (key : bytes) : result db_error ValueStruct :=
  if closed then Err ErrDBClosed
  else
    match mem_loop (getMemTables ReadOnly mt imm) key (ParseTs key) vs_zero with
    | inl vs => Ok vs
    | inr maxVs => levels_get closed levels key maxVs 0
    end.

(** ** Well-formed levels *)

Definition table_before (a b : Table) : Prop := compareKeys (Biggest a) (Smallest b) = Lt.

(** The totals agree with the tables. *)
Definition sizes_ok (s : levelHandler) : Prop :=
  totalSize s = foldr (fun t n => Size t + n) 0 (tables s) /\
  totalStaleSize s = foldr (fun t n => StaleDataSize t + n) 0 (tables s).

Record level_ok (s : levelHandler) : Prop := {
  lv_tables : Forall table_ok (tables s);
  lv_sorted : level s <> 0 -> StronglySorted table_before (tables s);
  lv_ids : NoDup (ID <$> tables s);
  lv_sizes : sizes_ok s
}.

Definition sum_of (f : Table -> Z) (l : list Table) : Z := foldr (fun t n => f t + n) 0 l.

Lemma sum_of_app f l k : sum_of f (l ++ k) = sum_of f l + sum_of f k.
Proof. unfold sum_of. induction l as [|x l IH]; simpl; [lia|]. rewrite IH. lia. Qed.

Lemma sum_of_Permutation f l k : l ≡ₚ k -> sum_of f l = sum_of f k.
Proof. unfold sum_of. induction 1; simpl; lia. Qed.

(** ** Lemmas: the operations *)

Definition kept (toDel : list Table) (t : Table) : Prop := ID t ∉ ID <$> toDel.

#[export] Instance kept_dec toDel t : Decision (kept toDel t).
Proof. unfold kept. apply _. Defined.

Definition drop_step (toDel : list Table) (s : levelHandler) (t : Table) : levelHandler :=
  if bool_decide (ID t ∈ (list_to_set (ID <$> toDel) : gset Z)) then subtractSize s t
  else set_tables s (tables s ++ [t]).

Lemma drop_step_eq toDel s t :
  drop_step toDel s t
  = if decide (kept toDel t) then set_tables s (tables s ++ [t]) else subtractSize s t.
Proof.
  unfold drop_step, kept. case_decide as Hk.
  - rewrite bool_decide_eq_false_2; [done|]. by rewrite elem_of_list_to_set.
  - rewrite bool_decide_eq_true_2; [done|]. by rewrite elem_of_list_to_set.
Qed.

Lemma drop_fold toDel l s :
  foldl (drop_step toDel) s l
  = mkLevel (level s) (tables s ++ filter (kept toDel) l)
      (totalSize s - (sum_of Size l - sum_of Size (filter (kept toDel) l)))
      (totalStaleSize s - (sum_of StaleDataSize l - sum_of StaleDataSize (filter (kept toDel) l))).
Proof.
  revert s. induction l as [|t l IH]; intros s.
  - simpl. rewrite app_nil_r, !Z.sub_diag, !Z.sub_0_r. by destruct s.
  - cbn [foldl]. rewrite IH, drop_step_eq, filter_cons. case_decide as Hk.
    + unfold set_tables. cbn [level tables totalSize totalStaleSize].
      rewrite <- app_assoc. unfold sum_of. simpl. f_equal; lia.
    + unfold subtractSize. cbn [level tables totalSize totalStaleSize].
      unfold sum_of. simpl. f_equal; lia.
Qed.

Lemma drop_tables_spec s toDel :
  let s' := drop_tables s toDel in
  level s' = level s /\ tables s' = filter (kept toDel) (tables s) /\
  (sizes_ok s -> sizes_ok s').
Proof.
  cbv zeta. unfold drop_tables. change (foldl _ _ _) with
    (foldl (drop_step toDel) (set_tables s []) (tables s)).
  rewrite drop_fold. unfold sizes_ok, set_tables. cbn [level tables totalSize totalStaleSize].
  rewrite app_nil_l. split_and!; [done|done|].
  change (foldr (fun t n => Size t + n) 0) with (sum_of Size).
  change (foldr (fun t n => StaleDataSize t + n) 0) with (sum_of StaleDataSize).
  intros [-> ->]. lia.
Qed.

Lemma addTable_fold l s :
  foldl addTable s l
  = mkLevel (level s) (tables s ++ l) (totalSize s + sum_of Size l)
      (totalStaleSize s + sum_of StaleDataSize l).
Proof.
  revert s. induction l as [|t l IH]; intros s; simpl.
  - rewrite app_nil_r, !Z.add_0_r. by destruct s.
  - rewrite IH. simpl. rewrite <- app_assoc. unfold sum_of. simpl. f_equal; lia.
Qed.

Lemma replaceTables_spec s toDel toAdd :
  let s' := replaceTables s toDel toAdd in
  level s' = level s /\
  tables s' = sort_by_smallest (filter (kept toDel) (tables s) ++ toAdd) /\
  (sizes_ok s -> sizes_ok s').
Proof.
  cbv zeta. unfold replaceTables, sortTables. rewrite addTable_fold.
  destruct (drop_tables_spec s toDel) as (H1 & H2 & H3).
  unfold sizes_ok, set_tables in *. cbn [level tables totalSize totalStaleSize] in *.
  rewrite H2. split_and!; [done|done|]. intros Hs. destruct (H3 Hs) as [-> ->]. rewrite H2.
  change (foldr (fun t n => Size t + n) 0) with (sum_of Size).
  change (foldr (fun t n => StaleDataSize t + n) 0) with (sum_of StaleDataSize).
  unfold sort_by_smallest.
  rewrite !(sum_of_Permutation _ _ _ (sort_by_Permutation compareKeys Smallest _)).
  by rewrite !sum_of_app.
Qed.

(** ** Lemmas: disjoint tables, sorted by their smallest keys *)

Definition tables_disjoint (a b : Table) : Prop := table_before a b \/ table_before b a.

Lemma table_before_smallest a b :
  table_ok a -> table_before a b -> compareKeys (Smallest a) (Smallest b) = Lt.
Proof.
  intros Ha Hab. eapply (cmp_le_lt_trans compareKeys); [by apply table_range|done].
Qed.

Lemma le_disjoint_sorted l :
  Forall table_ok l -> ForallOrdPairs tables_disjoint l -> StronglySorted (key_le compareKeys Smallest) l ->
  StronglySorted table_before l.
Proof.
  intros Hok Hd Hs. induction l as [|a l IH]; [constructor|].
  apply StronglySorted_cons in Hs as [Ha Hs]. apply Forall_cons in Hok as [Hoka Hok].
  inversion Hd as [|? ? Hda Hd']; subst. constructor; [by apply IH|].
  rewrite Forall_forall in *. intros b Hb. destruct (Hda b Hb) as [|Hba]; [done|exfalso].
  apply (Ha b Hb). apply (cmp_gt_lt compareKeys).
  apply table_before_smallest; [by apply Hok|done].
Qed.

Lemma disjoint_Permutation l k : l ≡ₚ k -> ForallOrdPairs tables_disjoint l -> ForallOrdPairs tables_disjoint k.
Proof. intros Hp. apply ForallOrdPairs_Permutation; [|done]. intros x y. unfold tables_disjoint. tauto. Qed.

(** A binary search over a predicate that changes once along the tables. *)
Lemma search_tables (l : list Table) (p : Table -> bool) :
  (forall i j a b, (i <= j)%nat -> l !! i = Some a -> l !! j = Some b -> p a = true -> p b = true) ->
  let f := fun i => match l !! i with Some t => p t | None => true end in
  let r := sort_Search (length l) f in
  (r <= length l)%nat /\
  (forall i t, l !! i = Some t -> p t = bool_decide (r <= i)%nat).
Proof.
  intros Hm f r. destruct (sort_Search_spec (length l) f) as (H1 & H2 & H3).
  { intros i j Hij. unfold f.
    destruct (lookup_lt_is_Some_2 l i ltac:(lia)) as [a Ha].
    destruct (lookup_lt_is_Some_2 l j ltac:(lia)) as [b Hb]. rewrite Ha, Hb.
    apply (Hm i j); [lia|done|done]. }
  fold r in H1, H2, H3. split; [done|]. intros i t Hi. apply lookup_lt_Some in Hi as Hlt.
  case_bool_decide as Hr.
  - specialize (H3 i ltac:(lia)). unfold f in H3. by rewrite Hi in H3.
  - specialize (H2 i ltac:(lia)). unfold f in H2. by rewrite Hi in H2.
Qed.

Lemma sorted_biggest_mono l i j a b :
  Forall table_ok l -> StronglySorted table_before l -> (i <= j)%nat ->
  l !! i = Some a -> l !! j = Some b -> compareKeys (Biggest a) (Biggest b) <> Gt /\
  compareKeys (Smallest a) (Smallest b) <> Gt.
Proof.
  intros Hok Hs Hij Ha Hb. destruct (decide (i = j)) as [->|Hne].
  { simplify_eq. by rewrite !(cmp_refl compareKeys). }
  assert (table_before a b) as Hab.
  { clear Hok. revert i j Hij Ha Hb Hne. induction Hs as [|x l Hs IH Hx]; intros i j Hij Ha Hb Hne; [done|].
    destruct j as [|j]; [lia|]. destruct i as [|i]; simpl in *.
    - simplify_eq. rewrite Forall_forall in Hx. apply Hx. by eapply list_elem_of_lookup_2.
    - apply (IH i j); [lia|done|done|lia]. }
  rewrite Forall_lookup in Hok. pose proof (Hok i a Ha) as Hoka. pose proof (Hok j b Hb) as Hokb.
  split.
  - assert (compareKeys (Biggest a) (Biggest b) = Lt) as ->; [|done].
    eapply (cmp_lt_le_trans compareKeys); [done|by apply table_range].
  - by rewrite (table_before_smallest a b).
Qed.

(** ** Lemmas: lookups *)

Definition level_entries (s : levelHandler) : list kv := concat (entries <$> tables s).

Lemma fold_table_get l k ts m es :
  Forall table_ok l -> k <> [] -> 0 <= ts <= MaxUint64 -> newest es k ts m ->
  exists r, foldl (fun acc th => maxVs ← acc; table_get th (KeyWithTs k ts) maxVs) (Some m) l = Some r /\
    newest (es ++ concat (entries <$> l)) k ts r.
Proof.
  intros Hok Hk Hts. revert m es. induction Hok as [|t l Ht Hok IH]; intros m es Hm.
  - exists m. simpl. by rewrite app_nil_r.
  - cbn [foldl mbind option_bind].
    destruct (table_get_newest t k ts m es Ht Hk Hts Hm) as (r1 & -> & Hr1).
    destruct (IH r1 (es ++ entries t) Hr1) as (r & Er & Hr).
    exists r. split; [done|]. simpl. by rewrite app_assoc.
Qed.

(** Entries of user key [k] at or below [ts] are not below [k@ts]. *)
Lemma version_not_below k v ts :
  0 < v <= ts -> ts <= MaxUint64 -> compareKeys (KeyWithTs k v) (KeyWithTs k ts) <> Lt.
Proof.
  intros Hv Hts. rewrite compareKeys_KeyWithTs, (cmp_refl bytes_Compare) by lia.
  rewrite Z.compare_lt_iff. lia.
Qed.

(** A key between [k@ts] and [k@v] is a version of [k]. *)
Lemma key_between x k v ts :
  has_ts x -> 0 <= v -> ts <= MaxUint64 -> v <= ts ->
  compareKeys x (KeyWithTs k ts) <> Lt -> compareKeys x (KeyWithTs k v) = Lt ->
  exists v', x = KeyWithTs k v' /\ v < v' <= ts.
Proof.
  intros Hx Hv Hts Hvts H1 H2. destruct (has_ts_eta x Hx) as (k' & v' & -> & Hv').
  rewrite compareKeys_KeyWithTs in H1, H2 by lia.
  destruct (bytes_Compare k' k) eqn:E; try done. apply (cmp_eq bytes_Compare) in E. subst.
  rewrite Z.compare_lt_iff in H1, H2. exists v'. split; [done|lia].
Qed.

(** The table the binary search picks has the answer. *)
Lemma picked_table_newest (l : list Table) r tbl k ts res :
  Forall table_ok l -> StronglySorted table_before l -> 0 <= ts <= MaxUint64 ->
  l !! r = Some tbl -> compareKeys (Biggest tbl) (KeyWithTs k ts) <> Lt ->
  (forall i t, l !! i = Some t -> (i < r)%nat -> compareKeys (Biggest t) (KeyWithTs k ts) = Lt) ->
  newest (entries tbl) k ts res -> newest (concat (entries <$> l)) k ts res.
Proof.
  intros Hok Hs Hts Hr Hge Hlt [A B]. rewrite Forall_lookup in Hok. split.
  - intros v vs Hin Hv. apply list_elem_of_In, in_concat in Hin as (es & Hes & Hin).
    apply list_elem_of_In, list_elem_of_fmap in Hes as (t & -> & Ht).
    apply list_elem_of_In in Hin. apply list_elem_of_lookup in Ht as [i Hi].
    destruct (Nat.lt_trichotomy i r) as [Hir|[->|Hir]].
    + exfalso. apply (version_not_below k v ts Hv ltac:(lia)).
      eapply (cmp_le_lt_trans compareKeys); [|by apply (Hlt i t)].
      by apply (table_biggest t (KeyWithTs k v, vs) (Hok i t Hi)).
    + rewrite Hr in Hi. simplify_eq. by apply (A v vs).
    + assert (table_before tbl t) as Hbef
        by (by apply (StronglySorted_lookup table_before l r i)).
      pose proof (Hok r tbl Hr) as Hokb. destruct (table_has_ts tbl Hokb) as [_ Hbts].
      destruct (key_between (Biggest tbl) k v ts) as (v' & Eb & Hv');
        [done|lia|lia|lia|done| |].
      { eapply (cmp_lt_le_trans compareKeys); [done|].
        by apply (table_smallest t (KeyWithTs k v, vs) (Hok i t Hi)). }
      destruct (table_biggest_in tbl Hokb) as [vs' Hb]. rewrite Eb in Hb.
      specialize (A v' vs' Hb ltac:(lia)). lia.
  - destruct B as [->|(H1 & H2 & vs & Hin & E)]; [by left|right].
    split; [done|split; [done|]]. exists vs. split; [|done].
    apply list_elem_of_In, in_concat. exists (entries tbl).
    split; apply list_elem_of_In; [|done].
    apply list_elem_of_fmap_2. by eapply list_elem_of_lookup_2.
Qed.

Lemma level_get_newest s k ts :
  level_ok s -> k <> [] -> 0 <= ts <= MaxUint64 ->
  exists r, level_get s (KeyWithTs k ts) = Some r /\ newest (level_entries s) k ts r.
Proof.
  intros [Hok Hs _ _] Hk Hts. unfold level_get, getTableForKey, level_entries.
  case_bool_decide as Hl.
  - destruct (fold_table_get (reverse (tables s)) k ts vs_zero []) as (r & Er & Hr);
      [by apply Forall_reverse|done|done|apply newest_nil|].
    exists r. split; [done|]. simpl in Hr. eapply newest_Permutation; [|done].
    rewrite fmap_reverse. by rewrite reverse_Permutation.
  - specialize (Hs Hl).
    destruct (search_tables (tables s)
      (fun t => bool_decide (compareKeys (Biggest t) (KeyWithTs k ts) <> Lt))) as [Hr Hp].
    { intros i j a b Hij Ha Hb. rewrite !bool_decide_eq_true. intros Hge Hlt. apply Hge.
      destruct (sorted_biggest_mono _ i j a b Hok Hs Hij Ha Hb) as [Hab _].
      by eapply (cmp_le_lt_trans compareKeys). }
    cbv zeta beta in Hr, Hp. set (r := sort_Search _ _) in *.
    assert (forall i t, tables s !! i = Some t -> (i < r)%nat ->
      compareKeys (Biggest t) (KeyWithTs k ts) = Lt) as Hbelow.
    { intros i t Hi Hlt. specialize (Hp i t Hi).
      rewrite (bool_decide_eq_false_2 (r <= i)%nat) in Hp by lia.
      by apply bool_decide_eq_false, dec_stable in Hp. }
    destruct (tables s !! r) as [tbl|] eqn:Er.
    + cbn [foldl mbind option_bind].
      pose proof (proj1 (Forall_lookup _ _) Hok r tbl Er) as Htb.
      destruct (table_get_newest tbl k ts vs_zero [] Htb Hk Hts (newest_nil k ts))
        as (res & -> & Hres). exists res. split; [done|].
      eapply picked_table_newest; [done|done|done|done| |done|done].
      specialize (Hp r tbl Er). rewrite (bool_decide_eq_true_2 (r <= r)%nat) in Hp by lia.
      by apply bool_decide_eq_true in Hp.
    + exists vs_zero. split; [done|]. split; [|by left]. intros v vs Hin Hv. exfalso.
      apply list_elem_of_In, in_concat in Hin as (es & Hes & Hin).
      apply list_elem_of_In, list_elem_of_fmap in Hes as (t & -> & Ht).
      apply list_elem_of_In in Hin. apply list_elem_of_lookup in Ht as [i Hi].
      apply lookup_ge_None in Er. apply lookup_lt_Some in Hi as Hil.
      apply (version_not_below k v ts Hv ltac:(lia)).
      eapply (cmp_le_lt_trans compareKeys); [|apply (Hbelow i t Hi); lia].
      apply (table_biggest t (KeyWithTs k v, vs)); [|done].
      by apply (proj1 (Forall_lookup _ _) Hok i t).
Qed.

Lemma newest_step es es' k ts m r :
  newest es k ts m -> newest es' k ts r ->
  newest (es ++ es') k ts
    (if vs_missing r then m else if bool_decide (Version m < Version r) then r else m).
Proof.
  intros Hm Hr. pose proof (newest_app _ _ _ _ _ _ Hm Hr) as H.
  destruct (vs_missing r) eqn:E; [|done].
  apply (newest_missing _ _ _ _ Hr) in E as ->. rewrite bool_decide_eq_false_2 in H; [done|].
  destruct Hm as [_ [->|(? & _)]]; simpl; lia.
Qed.

Definition all_entries (levels : list levelHandler) : list kv := concat (level_entries <$> levels).

Lemma levels_loop_newest levels k ts start m es :
  Forall level_ok levels -> Forall (fun h => start <= level h) levels ->
  k <> [] -> 0 <= ts <= MaxUint64 -> newest es k ts m ->
  exists r, levels_loop levels (KeyWithTs k ts) ts start m = Some r /\
    newest (es ++ all_entries levels) k ts r.
Proof.
  intros Hok Hst Hk Hts. revert m es. induction Hok as [|h levels Hh Hok IH]; intros m es Hm; simpl.
  { exists m. by rewrite app_nil_r. }
  apply Forall_cons in Hst as [Hsth Hst]. specialize (IH Hst).
  rewrite bool_decide_eq_false_2 by lia.
  destruct (level_get_newest h k ts Hh Hk Hts) as (vs & -> & Hvs). cbn [mbind option_bind].
  unfold all_entries in *. rewrite fmap_cons. cbn [concat].
  pose proof (newest_step _ _ _ _ _ _ Hm Hvs) as Hstep.
  destruct (vs_missing vs) eqn:Emiss.
  - destruct (IH m _ Hstep) as (r & Er & Hr). exists r. by rewrite app_assoc.
  - destruct (decide (Version vs = ts)) as [Hex|Hex];
      [rewrite (bool_decide_eq_true_2 (Version vs = ts)) by done|
       rewrite (bool_decide_eq_false_2 (Version vs = ts)) by done].
    + exists vs. split; [done|].
      eapply (newest_Permutation (level_entries h ++ (es ++ concat (level_entries <$> levels)))).
      * rewrite !app_assoc. apply Permutation_app_tail, Permutation_app_comm.
      * by apply newest_exact.
    + destruct (IH _ _ Hstep) as (r & Er & Hr). exists r. by rewrite app_assoc.
Qed.

Lemma sl_Get_newest es k ts :
  run_ok es -> k <> [] -> 0 < ts <= MaxUint64 -> newest es k ts (sl_Get es (KeyWithTs k ts)) \/
  (vs_missing (sl_Get es (KeyWithTs k ts)) = false /\ Version (sl_Get es (KeyWithTs k ts)) = 0 /\
   newest es k ts vs_zero).
Proof.
  intros Hok Hk Hts. pose proof (lookup_run_newest es k ts Hok Hk ltac:(lia)) as H.
  unfold lookup_run, sl_Get in *.
  pose proof (run_seek_spec es (KeyWithTs k ts) Hok) as Hs.
  destruct (run_seek es (KeyWithTs k ts)) as [[k' vs]|]; [|by left].
  destruct (SameKey _ _); [|by left]. simpl in H.
  destruct Hs as (Hin & _). destruct Hok as [Hwf _]. rewrite Forall_forall in Hwf.
  destruct (Hwf _ Hin) as [Hkt Hv]. simpl in *.
  case_bool_decide as Hpos; [by left|right].
  destruct (has_ts_eta k' Hkt) as (k0 & v0 & -> & Hv0).
  assert (ParseTs (KeyWithTs k0 v0) = 0) as E.
  { unfold ParseTs in *. case_bool_decide; [done|].
    pose proof (wrap_range 64 (MaxUint64 - be_decode (drop (length (KeyWithTs k0 v0) - 8) (KeyWithTs k0 v0))) ltac:(lia)).
    lia. }
  split_and!; [|done|done]. unfold vs_missing. simpl. apply bool_decide_eq_false_2.
  intros [Hn _]. rewrite Hn in Hv. by destruct Hv.
Qed.

Lemma mem_loop_newest mems k ts m es :
  Forall run_ok mems -> k <> [] -> 0 < ts <= MaxUint64 -> newest es k ts m ->
  match mem_loop mems (KeyWithTs k ts) ts m with
  | inl r => Version r = ts /\ forall rest, newest (es ++ concat mems ++ rest) k ts r
  | inr r => newest (es ++ concat mems) k ts r
  end.
Proof.
  intros Hok Hk Hts. revert m es. induction Hok as [|sl mems Hsl Hok IH]; intros m es Hm; simpl.
  { by rewrite app_nil_r. }
  assert (0 <= Version m) as Hm0 by (destruct Hm as [_ [->|(? & _)]]; simpl; lia).
  destruct (sl_Get_newest sl k ts Hsl Hk Hts) as [Hn|(Hmiss & H0 & Hn)].
  - pose proof (newest_step _ _ _ _ _ _ Hm Hn) as Hstep.
    destruct (vs_missing (sl_Get sl (KeyWithTs k ts))).
    + specialize (IH m _ Hstep). rewrite <- !app_assoc in IH.
      destruct (mem_loop _ _ _ _); [|done]. destruct IH as [? IH]. split; [done|].
      intros rest. specialize (IH rest). by rewrite <- !app_assoc in IH |- *.
    + set (r := sl_Get sl (KeyWithTs k ts)) in *.
      destruct (decide (Version r = ts)) as [Hex|Hex];
        [rewrite (bool_decide_eq_true_2 (Version r = ts)) by done|
         rewrite (bool_decide_eq_false_2 (Version r = ts)) by done].
      * split; [done|]. intros rest.
        eapply (newest_Permutation (sl ++ (es ++ concat mems ++ rest))); [|by apply newest_exact].
        rewrite <- !app_assoc, !(app_assoc _ _ (concat mems ++ rest)).
        apply Permutation_app_tail, Permutation_app_comm.
      * specialize (IH _ _ Hstep). rewrite <- !app_assoc in IH.
        destruct (mem_loop _ _ _ _); [|done]. destruct IH as [? IH]. split; [done|].
        intros rest. specialize (IH rest). by rewrite <- !app_assoc in IH |- *.
  - rewrite Hmiss, H0. rewrite (bool_decide_eq_false_2 (0 = ts)) by lia.
    rewrite (bool_decide_eq_false_2 (Version m < 0)) by lia.
    pose proof (newest_app _ _ _ _ _ _ Hm Hn) as Hstep.
    rewrite bool_decide_eq_false_2 in Hstep by (simpl; lia).
    specialize (IH _ _ Hstep). rewrite <- !app_assoc in IH.
    destruct (mem_loop _ _ _ _); [|done]. destruct IH as [? IH]. split; [done|].
    intros rest. specialize (IH rest). by rewrite <- !app_assoc in IH |- *.
Qed.

(** ** Lemmas: overlapping tables *)

Definition overlaps (left right : bytes) (t : Table) : Prop :=
  compareKeys left (Biggest t) <> Gt /\ compareKeys (Smallest t) right <> Gt.

#[export] Instance overlaps_dec left right t : Decision (overlaps left right t).
Proof. unfold overlaps. apply _. Defined.

Lemma overlappingTables_spec s left right :
  Forall table_ok (tables s) -> StronglySorted table_before (tables s) ->
  has_ts left -> has_ts right -> compareKeys left right <> Gt ->
  let '(l, r) := overlappingTables s left right in
  (l <= r <= length (tables s))%nat /\
  forall i t, tables s !! i = Some t -> overlaps left right t <-> (l <= i < r)%nat.
Proof.
  intros Hok Hs Hl Hr Hlr. unfold overlappingTables, has_ts in *.
  rewrite bool_decide_eq_false_2 by lia.
  destruct (search_tables (tables s) (fun t => bool_decide (compareKeys left (Biggest t) <> Gt)))
    as [Hl1 Hl2].
  { intros i j a b Hij Ha Hb. rewrite !bool_decide_eq_true. intros Hge.
    destruct (sorted_biggest_mono _ i j a b Hok Hs Hij Ha Hb) as [Hab _].
    by eapply (cmp_le_trans compareKeys). }
  destruct (search_tables (tables s) (fun t => bool_decide (compareKeys right (Smallest t) = Lt)))
    as [Hr1 Hr2].
  { intros i j a b Hij Ha Hb. rewrite !bool_decide_eq_true. intros Hge.
    destruct (sorted_biggest_mono _ i j a b Hok Hs Hij Ha Hb) as [_ Hab].
    by eapply (cmp_lt_le_trans compareKeys). }
  cbv zeta beta in *.
  set (l := sort_Search _ (fun i => match tables s !! i with
    | Some t => bool_decide (compareKeys left (Biggest t) <> Gt) | None => true end)) in *.
  set (r := sort_Search _ (fun i => match tables s !! i with
    | Some t => bool_decide (compareKeys right (Smallest t) = Lt) | None => true end)) in *.
  assert (forall i t, tables s !! i = Some t -> overlaps left right t <-> (l <= i < r)%nat) as Hov.
  { intros i t Hi. specialize (Hl2 i t Hi). specialize (Hr2 i t Hi). unfold overlaps.
    assert (compareKeys left (Biggest t) <> Gt <-> (l <= i)%nat) as ->
      by (rewrite <- (bool_decide_eq_true (l <= i)%nat), <- Hl2; by rewrite bool_decide_eq_true).
    assert (compareKeys (Smallest t) right <> Gt <-> ~ (r <= i)%nat) as ->; [|lia].
    rewrite <- (bool_decide_eq_true (r <= i)%nat), <- Hr2, bool_decide_eq_true.
    by rewrite (cmp_gt_lt compareKeys). }
  split; [|done]. split; [|done].
  (* l <= r: a table at index r starts after right, so its end is not before left *)
  destruct (decide (l <= r)%nat) as [|Hgt]; [done|exfalso].
  destruct (lookup_lt_is_Some_2 (tables s) r ltac:(lia)) as [t Ht].
  specialize (Hl2 r t Ht). specialize (Hr2 r t Ht).
  rewrite (bool_decide_eq_false_2 (l <= r)%nat) in Hl2 by lia.
  rewrite (bool_decide_eq_true_2 (r <= r)%nat) in Hr2 by lia.
  apply bool_decide_eq_false, dec_stable in Hl2. apply bool_decide_eq_true in Hr2.
  apply (cmp_gt_lt compareKeys) in Hl2.
  assert (table_ok t) as Htok by (by apply (proj1 (Forall_lookup _ _) Hok r)).
  assert (compareKeys (Biggest t) right = Lt) as Hbr
    by (by eapply (cmp_lt_le_trans compareKeys)).
  pose proof (cmp_trans compareKeys _ _ _ Hbr Hr2) as Hbs.
  apply (table_range t Htok). by apply (cmp_gt_lt compareKeys).
Qed.

(** ** Lemmas: [validate] *)

Lemma table_before_trans a b c :
  table_ok b -> table_before a b -> table_before b c -> table_before a c.
Proof.
  unfold table_before. intros Hb Hab Hbc.
  eapply (cmp_trans compareKeys); [done|]. by eapply (cmp_le_lt_trans compareKeys), Hbc; apply table_range.
Qed.

Lemma validate_tables_spec l :
  Forall table_ok l -> validate_tables l = true <-> StronglySorted table_before l.
Proof.
  induction 1 as [|a l Ha Hl IH]; [split; [constructor|done]|].
  destruct l as [|b l]; [split; [repeat constructor|done]|].
  change (validate_tables (a :: b :: l)) with
    (bool_decide (compareKeys (Biggest a) (Smallest b) = Lt) &&
     bool_decide (compareKeys (Smallest b) (Biggest b) <> Gt) && validate_tables (b :: l)).
  rewrite !andb_true_iff, !bool_decide_eq_true, IH. apply Forall_cons in Hl as [Hb Hl].
  split.
  - intros [[Hab _] Hs]. constructor; [done|]. constructor; [done|].
    apply StronglySorted_cons in Hs as [Hbl _]. eapply Forall_impl; [done|].
    intros c Hbc. by eapply table_before_trans.
  - intros Hs. apply StronglySorted_cons in Hs as [Hal Hs]. apply Forall_cons in Hal as [Hab _].
    split; [split; [done|by apply table_range]|done].
Qed.

(** ** Lemmas: levels stay well formed *)

Lemma kept_sorted toDel l :
  StronglySorted table_before l -> ForallOrdPairs tables_disjoint (filter (kept toDel) l).
Proof.
  induction 1 as [|a l Hs IH Ha]; [constructor|].
  rewrite filter_cons. case_decide; [|done]. constructor; [|done].
  apply Forall_filter_sub. eapply Forall_impl; [done|]. intros b Hb. by left.
Qed.

Lemma NoDup_fmap_filter {A B} (f : A -> B) (P : A -> Prop) `{!forall x, Decision (P x)} (l : list A) :
  NoDup (f <$> l) -> NoDup (f <$> filter P l).
Proof. intros Hl. apply (sublist_NoDup _ _ Hl). by apply fmap_sublist, sublist_filter. Qed.

Lemma ForallOrdPairs_filter {A} (R : A -> A -> Prop) (P : A -> Prop) `{!forall x, Decision (P x)} l :
  ForallOrdPairs R l -> ForallOrdPairs R (filter P l).
Proof.
  induction 1 as [|a l Ha Hl IH]; [constructor|]. rewrite filter_cons. case_decide; [|done].
  constructor; [|done]. by apply Forall_filter_sub.
Qed.

(** Replacing tables and then deleting [top], which may overlap the tables added. *)
Lemma replace_delete_wf (s : levelHandler) (toDel toAdd top : list Table) :
  level_ok s -> Forall table_ok toAdd ->
  (level s <> 0 -> ForallOrdPairs tables_disjoint toAdd) ->
  (level s <> 0 -> forall t t', t ∈ tables s -> kept toDel t -> kept top t -> t' ∈ toAdd ->
     tables_disjoint t t') ->
  NoDup (ID <$> toAdd) -> (forall t t', t ∈ tables s -> t' ∈ toAdd -> ID t <> ID t') ->
  Forall (kept top) toAdd ->
  level_ok (deleteTables (replaceTables s toDel toAdd) top) /\
  (forall t, t ∈ tables (deleteTables (replaceTables s toDel toAdd) top) <->
             (t ∈ tables s /\ kept toDel t /\ kept top t) \/ t ∈ toAdd).
Proof.
  intros [Hok Hs Hid Hsz] Hadd Hdis Hcross Hnd Hfresh Hktop.
  destruct (replaceTables_spec s toDel toAdd) as (Hlev & Htab & Hsizes).
  set (s' := replaceTables s toDel toAdd) in *.
  destruct (drop_tables_spec s' top) as (Dlev & Dtab & Dsizes). unfold deleteTables.
  set (kp := filter (kept toDel) (tables s)) in *.
  assert (tables s' ≡ₚ kp ++ toAdd) as Hp by (rewrite Htab; apply sort_by_Permutation).
  assert (Forall table_ok (tables s')) as Hok'.
  { rewrite Hp. apply Forall_app. split; [|done]. by apply Forall_filter_sub. }
  assert (filter (kept top) (tables s') ≡ₚ filter (kept top) kp ++ toAdd) as Hp'.
  { rewrite Hp, filter_app. by rewrite (filter_id _ toAdd). }
  split; [split|].
  - rewrite Dtab. by apply Forall_filter_sub.
  - intros Hl. rewrite Dlev, Hlev in Hl. rewrite Dtab. apply le_disjoint_sorted.
    + by apply Forall_filter_sub.
    + symmetry in Hp'. apply (disjoint_Permutation _ _ Hp').
      apply ForallOrdPairs_app; [by apply ForallOrdPairs_filter, kept_sorted, Hs|by apply Hdis|].
      intros t t' [Hk [Hk' Ht]%list_elem_of_filter]%list_elem_of_filter Ht'. by apply (Hcross Hl).
    + rewrite Htab. apply StronglySorted_filter, (sort_by_sorted compareKeys).
  - rewrite Dtab, (NoDup_Permutation_proper _ _ (fmap_Permutation ID _ _ Hp')), fmap_app.
    apply NoDup_app. split_and!; [by apply NoDup_fmap_filter, NoDup_fmap_filter| |done].
    intros i (t & -> & Ht)%list_elem_of_fmap (t' & E & Ht')%list_elem_of_fmap.
    apply list_elem_of_filter in Ht as [_ [_ Ht]%list_elem_of_filter]. by apply (Hfresh t t').
  - auto.
  - intros t. rewrite Dtab, Hp', elem_of_app. unfold kp. rewrite !list_elem_of_filter. tauto.
Qed.

Lemma deleteTables_nil s : deleteTables s [] = s.
Proof.
  unfold deleteTables, drop_tables. change (foldl _ _ _) with (foldl (drop_step []) (set_tables s []) (tables s)).
  rewrite drop_fold, filter_id by (apply Forall_forall; intros t _; apply not_elem_of_nil).
  destruct s. unfold set_tables. cbn. rewrite !Z.sub_diag, !Z.sub_0_r. done.
Qed.

Lemma replaceTables_wf (s : levelHandler) (toDel toAdd : list Table) :
  level_ok s -> Forall table_ok toAdd ->
  (level s <> 0 -> ForallOrdPairs tables_disjoint toAdd) ->
  (level s <> 0 -> forall t t', t ∈ tables s -> kept toDel t -> t' ∈ toAdd -> tables_disjoint t t') ->
  NoDup (ID <$> toAdd) -> (forall t t', t ∈ tables s -> t' ∈ toAdd -> ID t <> ID t') ->
  level_ok (replaceTables s toDel toAdd) /\
  (forall t, t ∈ tables (replaceTables s toDel toAdd) <-> (t ∈ tables s /\ kept toDel t) \/ t ∈ toAdd).
Proof.
  intros Hs Hadd Hdis Hcross Hnd Hfresh.
  assert (forall t, kept [] t) as Hk by (intros t; apply not_elem_of_nil).
  destruct (replace_delete_wf s toDel toAdd []) as [Hok Hin]; try done; [auto|by apply Forall_forall|].
  rewrite deleteTables_nil in *. split; [done|]. intros t. rewrite Hin. naive_solver.
Qed.

Lemma deleteTables_wf (s : levelHandler) (toDel : list Table) :
  level_ok s -> level_ok (deleteTables s toDel) /\
  (forall t, t ∈ tables (deleteTables s toDel) <-> t ∈ tables s /\ kept toDel t).
Proof.
  intros [Hok Hs Hid Hsz]. destruct (drop_tables_spec s toDel) as (H1 & H2 & H3).
  unfold deleteTables in *. split; [split|].
  - rewrite H2. by apply Forall_filter_sub.
  - rewrite H1, H2. intros Hl. by apply StronglySorted_filter, Hs.
  - rewrite H2. by apply NoDup_fmap_filter.
  - auto.
  - intros t. rewrite H2, list_elem_of_filter. tauto.
Qed.

Lemma db_get_spec (ReadOnly : bool) (mt : list kv) (imm : list (list kv))
    (levels : list levelHandler) (k : bytes) (ts : Z) :
  run_ok mt -> Forall run_ok imm -> Forall level_ok levels ->
  Forall (fun h => 0 <= level h) levels -> k <> [] -> 0 < ts <= MaxUint64 ->
  exists r, db_get false ReadOnly mt imm levels (KeyWithTs k ts) = Ok r /\
    newest (concat (getMemTables ReadOnly mt imm) ++ all_entries levels) k ts r.
Proof.
  intros Hmt Himm Hlv Hl0 Hk Hts. unfold db_get.
  rewrite ParseTs_KeyWithTs by (done || lia).
  assert (Forall run_ok (getMemTables ReadOnly mt imm)) as Hmems.
  { unfold getMemTables. apply Forall_app. split; [destruct ReadOnly; auto|by apply Forall_reverse]. }
  pose proof (mem_loop_newest _ k ts vs_zero [] Hmems Hk Hts (newest_nil k ts)) as Hm.
  destruct (mem_loop _ _ _ _) as [r|m].
  - destruct Hm as [_ Hm]. exists r. split; [done|]. apply (Hm (all_entries levels)).
  - unfold levels_get. rewrite ParseTs_KeyWithTs by (done || lia).
    destruct (levels_loop_newest levels k ts 0 m _ Hlv Hl0 Hk ltac:(lia) Hm) as (r & -> & Hr).
    exists r. done.
Qed.

(** ** Properties *)

(** C5: [DB.get] is right: over the memtables and all levels — level 0 with its overlapping
    tables, the others by binary search, bloom filters included — it returns the newest
    version of the key at or below the timestamp, or nothing when no such version exists. *)
Theorem db_get_newest (ReadOnly : bool) (mt : list kv) (imm : list (list kv))
    (levels : list levelHandler) (k : bytes) (ts : Z) :
  run_ok mt -> Forall run_ok imm -> Forall level_ok levels ->
  Forall (fun h => 0 <= level h) levels -> k <> [] -> 0 < ts <= MaxUint64 ->
  exists r, db_get false ReadOnly mt imm levels (KeyWithTs k ts) = Ok r /\
    newest (concat (getMemTables ReadOnly mt imm) ++ all_entries levels) k ts r.
Proof. apply db_get_spec. Qed.

(** Replacing tables keeps a level sorted and disjoint, its sizes summed up and its
    content exactly the tables kept plus the tables added; [validate] accepts it. *)
Theorem replaceTables_ok (s : levelHandler) (toDel toAdd : list Table) :
  level_ok s -> level s <> 0 -> Forall table_ok toAdd ->
  ForallOrdPairs tables_disjoint toAdd ->
  (forall t t', t ∈ tables s -> kept toDel t -> t' ∈ toAdd -> tables_disjoint t t') ->
  NoDup (ID <$> toAdd) -> (forall t t', t ∈ tables s -> t' ∈ toAdd -> ID t <> ID t') ->
  level_ok (replaceTables s toDel toAdd) /\ validate (replaceTables s toDel toAdd) = true /\
  (forall t, t ∈ tables (replaceTables s toDel toAdd) <->
             (t ∈ tables s /\ kept toDel t) \/ t ∈ toAdd).
Proof.
  intros Hlv Hl Hadd Hdis Hcross Hnd Hfresh.
  destruct (replaceTables_wf s toDel toAdd) as [Hok Hin]; try done. split_and!; [done| |done].
  destruct (replaceTables_spec s toDel toAdd) as (Hlev & _). unfold validate. rewrite Hlev.
  rewrite bool_decide_eq_false_2 by done. apply validate_tables_spec; [by apply Hok|].
  apply Hok. by rewrite Hlev.
Qed.

(** On a level of sorted, disjoint tables [overlappingTables] returns exactly the tables
    whose key range meets [left, right]. *)
Theorem overlappingTables_exact (s : levelHandler) (left right : bytes) :
  level_ok s -> level s <> 0 -> has_ts left -> has_ts right -> compareKeys left right <> Gt ->
  let '(l, r) := overlappingTables s left right in
  (l <= r <= length (tables s))%nat /\
  take (r - l) (drop l (tables s)) = filter (overlaps left right) (tables s).
Proof.
  intros [Hok Hs _ _] Hl Hl1 Hr1 Hlr.
  pose proof (overlappingTables_spec s left right Hok (Hs Hl) Hl1 Hr1 Hlr) as H.
  destruct (overlappingTables s left right) as [l r]. destruct H as [Hb Hin]. split; [done|].
  assert (forall (ts : list Table) n, (forall i t, ts !! i = Some t ->
     overlaps left right t <-> (l <= n + i < r)%nat) ->
     take (r - (l `max` n)) (drop (l - n) ts) = filter (overlaps left right) ts) as HG.
  { clear. intros ts. induction ts as [|t ts IH]; intros n Hi; simpl.
    { by rewrite drop_nil, take_nil. }
    pose proof (Hi 0%nat t eq_refl) as H0. rewrite filter_cons.
    assert (forall i t', ts !! i = Some t' -> overlaps left right t' <-> (l <= S n + i < r)%nat) as Hi'.
    { intros i t' Ht'. rewrite (Hi (S i) t' Ht'). lia. }
    specialize (IH (S n) Hi'). case_decide as Hov.
    - apply H0 in Hov. replace (l - n)%nat with 0%nat by lia.
      replace (r - l `max` n)%nat with (S (r - l `max` S n)) by lia.
      rewrite drop_0. simpl. f_equal. rewrite <- IH. by replace (l - S n)%nat with 0%nat by lia.
    - destruct (decide (l <= n)%nat) as [Hln|Hln].
      + assert (r <= n)%nat as Hrn by (apply dec_stable; intros ?; apply Hov, H0; lia).
        rewrite <- IH. replace (r - l `max` n)%nat with 0%nat by lia.
        by replace (r - l `max` S n)%nat with 0%nat by lia.
      + rewrite <- IH. replace (l - n)%nat with (S (l - S n)) by lia. simpl.
        by replace (l `max` n)%nat with (l `max` S n)%nat by lia. }
  specialize (HG (tables s) 0%nat). rewrite Nat.max_0_r, Nat.sub_0_r in HG. apply HG.
  intros i t Hi. apply (Hin i t Hi).
Qed.

(** ** A small database for the witnesses *)

Definition ex_vs (b : byte) : ValueStruct := mkVS x00 x00 0 (Some [b]) 0.

Definition ex_table (id : Z) (es : list kv) : Table :=
  mkTable id es 100 7 9 0 false 0 0
    (NewFilter ((fun e => Hash (ParseKey e.1)) <$> es) 10).

Lemma ex_run_ok es :
  forallb (fun e => bool_decide (8 <= len e.1) && bool_decide (Value e.2 <> None)) es = true ->
  (fix go l := match l with
     | x :: ((y :: _) as l') => bool_decide (compareKeys x.1 y.1 = Lt) && go l'
     | _ => true end) es = true ->
  run_ok es.
Proof.
  intros Hw Hs. split.
  - apply Forall_forall. intros e He. rewrite forallb_forall in Hw.
    apply list_elem_of_In, Hw, andb_true_iff in He as [H1%bool_decide_eq_true H2%bool_decide_eq_true].
    split; [done|]. destruct (Value e.2); [eauto|done].
  - clear Hw. apply Sorted_StronglySorted.
    { intros x y z. apply (cmp_trans compareKeys). }
    induction es as [|x es IH]; [constructor|]. destruct es as [|y es]; [repeat constructor|].
    apply andb_true_iff in Hs as [H1%bool_decide_eq_true H2]. constructor; [by apply IH|].
    by constructor.
Qed.

Lemma ex_table_ok id es :
  run_ok es -> es <> [] -> bool_decide (u32 (filter_bits (len es) 10) <> 0) = true ->
  table_ok (ex_table id es).
Proof.
  intros Hr Hn Hb%bool_decide_eq_true. split; [done|done|]. unfold table_bloom_ok, ex_table. simpl bloom.
  destruct (NewFilter _ 10) as [f|] eqn:E; [|done]. exists 10. simpl entries.
  split; [|done]. unfold len in *. by rewrite length_fmap.
Qed.

Definition ex_t1 : Table := ex_table 1 [(KeyWithTs [x61] 5, ex_vs x01); (KeyWithTs [x61] 2, ex_vs x02)].
Definition ex_t2 : Table := ex_table 2 [(KeyWithTs [x62] 4, ex_vs x03); (KeyWithTs [x63] 9, ex_vs x04)].
Definition ex_t3 : Table := ex_table 3 [(KeyWithTs [x65] 1, ex_vs x05)].

Lemma ex_tables_ok : Forall table_ok [ex_t1; ex_t2; ex_t3].
Proof.
  repeat (apply Forall_cons; split); [..|constructor];
    (apply ex_table_ok; [apply ex_run_ok; by vm_compute|discriminate|by vm_compute]).
Qed.

Definition ex_level : levelHandler := mkLevel 2 [ex_t1; ex_t2; ex_t3] 300 21.

Lemma ex_level_ok : level_ok ex_level.
Proof.
  split.
  - apply ex_tables_ok.
  - intros _. apply validate_tables_spec; [apply ex_tables_ok|by vm_compute].
  - by vm_compute; repeat constructor; rewrite ?elem_of_cons, ?elem_of_nil; intuition lia.
  - by vm_compute.
Qed.

Definition ex_mem : list kv := [(KeyWithTs [x61] 8, ex_vs x06); (KeyWithTs [x64] 3, ex_vs x07)].

Lemma db_get_newest_witness :
  exists r, db_get false false ex_mem [] [ex_level] (KeyWithTs [x61] 6) = Ok r /\
    newest (concat (getMemTables false ex_mem []) ++ all_entries [ex_level]) [x61] 6 r.
Proof.
  apply (db_get_newest false ex_mem [] [ex_level] [x61] 6).
  - apply ex_run_ok; by vm_compute.
  - constructor.
  - constructor; [apply ex_level_ok|constructor].
  - constructor; [by vm_compute|constructor].
  - done.
  - by vm_compute.
Defined.

Definition ex_t4 : Table := ex_table 4 [(KeyWithTs [x64] 7, ex_vs x08)].

Lemma replaceTables_ok_witness :
  level_ok (replaceTables ex_level [ex_t2] [ex_t4]) /\
  validate (replaceTables ex_level [ex_t2] [ex_t4]) = true /\
  (forall t, t ∈ tables (replaceTables ex_level [ex_t2] [ex_t4]) <->
             (t ∈ tables ex_level /\ kept [ex_t2] t) \/ t ∈ [ex_t4]).
Proof.
  apply (replaceTables_ok ex_level [ex_t2] [ex_t4]).
  - apply ex_level_ok.
  - done.
  - constructor; [|constructor]. apply ex_table_ok; [apply ex_run_ok; by vm_compute|discriminate|by vm_compute].
  - repeat constructor.
  - intros t t' Ht _ Ht'. apply list_elem_of_singleton in Ht' as ->.
    simpl in Ht. rewrite !elem_of_cons, elem_of_nil in Ht.
    destruct Ht as [->|[->|[->|[]]]]; [left; by vm_compute|left; by vm_compute|right; by vm_compute].
  - repeat constructor. by intros ?%elem_of_nil.
  - intros t t' Ht Ht'. apply list_elem_of_singleton in Ht' as ->.
    simpl in Ht. rewrite !elem_of_cons, elem_of_nil in Ht. destruct Ht as [->|[->|[->|[]]]]; done.
Defined.

Lemma overlappingTables_exact_witness :
  let '(l, r) := overlappingTables ex_level (KeyWithTs [x61] 3) (KeyWithTs [x62] 0) in
  (l <= r <= length (tables ex_level))%nat /\
  take (r - l) (drop l (tables ex_level))
  = filter (overlaps (KeyWithTs [x61] 3) (KeyWithTs [x62] 0)) (tables ex_level).
Proof.
  apply (overlappingTables_exact ex_level); [apply ex_level_ok|done|by vm_compute..].
Defined.
