(* ===== verification/Skiplist.v ===== *)
(** * Skiplist: the memtable's skip list (skl/skl.go, skl/arena.go)

    The list lives in an arena, a byte buffer with a bump allocator: keys and encoded values are
    bytes of [ar_buf], nodes are at aligned offsets.  The bytes of a node are seen as a record
    here ([ar_nodes]); nothing else of the buffer overlaps them.  A pointer is an offset, 0 is
    nil.  A node has only as many tower entries as its height, reading a higher one is [None]; so
    are the assertions of the arena.

    [Put] is shown to be insertion into the sorted run of entries, [Get] and the iterators to be
    lookups in it; every search ends after at most one step per node and level. *)

From S2P Require Import Prelude Keys Codec Tables TableBuild Wal Iterators LevelHandler.

(** ** [Arena] *)

Record node : Type := mkNd {
  nd_value : Z;              (* value offset in the low 32 bits, size in the high ones *)
  nd_keyOffset : Z;
  nd_keySize : Z;
  nd_height : Z;
  nd_tower : list Z
}.

Record Arena : Type := mkArena {
  ar_n : Z;
  ar_buf : bytes;
  ar_nodes : gmap Z node
}.

Definition maxHeight : nat := 20.
Definition heightIncrease : Z := MaxUint32 / 3.
Definition MaxNodeSize : Z := 96.
Definition offsetSize : Z := 4.
Definition nodeAlign : Z := 7.

Definition newArena (n : Z) : Arena := mkArena 1 (replicate (Z.to_nat n) x00) ∅.

Definition ar_size (a : Arena) : Z := ar_n a.

(** [s.n.Add(l)] and the assertion behind it: the new total. *)
Definition ar_add (a : Arena) (l : Z) : option Arena :=
  let n := u32 (ar_n a + l) in
  if bool_decide (n <= len (ar_buf a)) then Some (mkArena n (ar_buf a) (ar_nodes a)) else None.

Definition set_buf (a : Arena) (b : bytes) : Arena := mkArena (ar_n a) b (ar_nodes a).
Definition set_node (a : Arena) (m : Z) (nd : node) : Arena := mkArena (ar_n a) (ar_buf a) (<[m := nd]> (ar_nodes a)).

(** The buffer is zero where nothing was written, so a new node is. *)
Definition putNode (a : Arena) (height : nat) : option (Arena * Z) :=
  let unusedSize := (Z.of_nat maxHeight - Z.of_nat height) * offsetSize in
  let l := u32 (MaxNodeSize - unusedSize + nodeAlign) in
  a ← ar_add a l;
  let m := Z.land (u32 (ar_n a - l + nodeAlign)) (MaxUint32 - nodeAlign) in
  Some (set_node a m (mkNd 0 0 0 0 (replicate height 0)), m).

Definition putVal (a : Arena) (v : ValueStruct) : option (Arena * Z) :=
  let l := EncodedSize v in
  a ← ar_add a l;
  let m := u32 (ar_n a - l) in
  rest ← slice_from (ar_buf a) m;
  '(rest, _) ← Encode v rest;
  Some (set_buf a (take (Z.to_nat m) (ar_buf a) ++ rest), m).

Definition putKey (a : Arena) (key : bytes) : option (Arena * Z) :=
  let l := u32 (len key) in
  a ← ar_add a l;
  let m := u32 (ar_n a - l) in
  if bool_decide (len key = l) then b ← store_at (ar_buf a) m key; Some (set_buf a b, m) else None.

Definition getKey (a : Arena) (offset size : Z) : option bytes := slice (ar_buf a) offset (u32 (offset + size)).

Definition getVal (a : Arena) (offset size : Z) : option ValueStruct :=
  b ← slice (ar_buf a) offset (u32 (offset + size)); Decode vs_zero b.

(** ** Nodes *)

Definition encodeValue (valOffset valSize : Z) : Z := Z.lor (u64 (Z.shiftl valSize 32)) valOffset.
Definition decodeValue (value : Z) : Z * Z := (u32 value, u32 (Z.shiftr value 32)).

Definition newNode (a : Arena) (key : bytes) (v : ValueStruct) (height : nat) : option (Arena * Z) :=
  '(a, offset) ← putNode a height;
  nd ← ar_nodes a !! offset;
  '(a, keyOffset) ← putKey a key;
  '(a, valOffset) ← putVal a v;
  Some (set_node a offset (mkNd (encodeValue valOffset (EncodedSize v)) keyOffset (u16 (len key)) (u16 (Z.of_nat height))
          (nd_tower nd)), offset).

Definition nd_key (a : Arena) (x : Z) : option bytes :=
  nd ← ar_nodes a !! x; getKey a (nd_keyOffset nd) (nd_keySize nd).

Definition nd_setValue (a : Arena) (x : Z) (v : ValueStruct) : option Arena :=
  '(a, valOffset) ← putVal a v;
  nd ← ar_nodes a !! x;
  Some (set_node a x (mkNd (encodeValue valOffset (EncodedSize v)) (nd_keyOffset nd) (nd_keySize nd) (nd_height nd) (nd_tower nd))).

Definition nd_getVal (a : Arena) (x : Z) : option ValueStruct :=
  nd ← ar_nodes a !! x;
  let '(valOffset, valSize) := decodeValue (nd_value nd) in
  getVal a valOffset valSize.

(** [tower[h].Store]. *)
Definition storeNext (a : Arena) (x : Z) (h : nat) (val : Z) : option Arena :=
  nd ← ar_nodes a !! x;
  _ ← nd_tower nd !! h;
  Some (set_node a x (mkNd (nd_value nd) (nd_keyOffset nd) (nd_keySize nd) (nd_height nd) (<[h := val]> (nd_tower nd)))).

(** ** [Skiplist] *)

Record Skiplist : Type := mkSkl {
  sk_height : nat;
  sk_head : Z;
  sk_ref : Z;
  sk_arena : Arena
}.

Definition set_arena (s : Skiplist) (a : Arena) : Skiplist := mkSkl (sk_height s) (sk_head s) (sk_ref s) a.

Definition IncrRef (s : Skiplist) : Skiplist := mkSkl (sk_height s) (sk_head s) (sk_ref s + 1) (sk_arena s).

(** [None]: the list is released, [OnClose] runs. *)
Definition DecrRef (s : Skiplist) : option Skiplist :=
  let newRef := sk_ref s - 1 in
  if bool_decide (0 < newRef) then Some (mkSkl (sk_height s) (sk_head s) newRef (sk_arena s)) else None.

Definition NewSkiplist (arenaSize : Z) : option Skiplist :=
  '(a, head) ← newNode (newArena arenaSize) [] vs_zero maxHeight;
  Some (mkSkl 1 head 1 a).

(** [draws] are the numbers [z.FastRand] gives. *)
Fixpoint height_loop (fuel h : nat) (draws : nat -> Z) : nat :=
  match fuel with
  | O => h
  | S fuel => if bool_decide (draws h <= heightIncrease) then height_loop fuel (h + 1) draws else h
  end.

Definition randomHeight (draws : nat -> Z) : nat := height_loop (maxHeight - 1) 1 draws.

Definition getNext (s : Skiplist) (x : Z) (height : nat) : option Z :=
  nd ← ar_nodes (sk_arena s) !! x; nd_tower nd !! height.

Definition casNextOffset (s : Skiplist) (x : Z) (h : nat) (old val : Z) : option (bool * Skiplist) :=
  cur ← getNext s x h;
  if bool_decide (cur = old) then a ← storeNext (sk_arena s) x h val; Some (true, set_arena s a)
  else Some (false, s).

(** A bound for every walk: each step goes to a later node or to a lower level. *)
Definition walk_fuel (s : Skiplist) : nat := size (ar_nodes (sk_arena s)) + sk_height s + 1.

(** What [findNear] returns at the base level. *)
Definition near_end (s : Skiplist) (less : bool) (x next : Z) : Z * bool :=
  if negb less then (next, false) else if bool_decide (x = sk_head s) then (0, false) else (x, false).

Fixpoint findNear_loop (fuel : nat) (s : Skiplist) (key : bytes) (less allowEqual : bool) (x : Z) (level : nat)
    : option (Z * bool) :=
  match fuel with
  | O => None
  | S fuel =>
      let descend := findNear_loop fuel s key less allowEqual x in
      next ← getNext s x level;
      if bool_decide (next = 0) then
        match level with S level => descend level | O => Some (near_end s less x 0) end
      else
        nextKey ← nd_key (sk_arena s) next;
        cmp ← CompareKeys key nextKey;
        match cmp with
        | Gt => findNear_loop fuel s key less allowEqual next level
        | Eq =>
            if allowEqual then Some (next, true)
            else if negb less then n ← getNext s next 0; Some (n, false)
            else match level with S level => descend level | O => Some (near_end s less x next) end
        | Lt => match level with S level => descend level | O => Some (near_end s less x next) end
        end
  end.

Definition findNear (s : Skiplist) (key : bytes) (less allowEqual : bool) : option (Z * bool) :=
  findNear_loop (walk_fuel s) s key less allowEqual (sk_head s) (sk_height s - 1).

Fixpoint splice_loop (fuel : nat) (s : Skiplist) (key : bytes) (before : Z) (level : nat) : option (Z * Z) :=
  match fuel with
  | O => None
  | S fuel =>
      next ← getNext s before level;
      if bool_decide (next = 0) then Some (before, next)
      else
        nextKey ← nd_key (sk_arena s) next;
        cmp ← CompareKeys key nextKey;
        match cmp with
        | Eq => Some (next, next)
        | Lt => Some (before, next)
        | Gt => splice_loop fuel s key next level
        end
  end.

Definition findSpliceForLevel (s : Skiplist) (key : bytes) (before : Z) (level : nat) : option (Z * Z) :=
  splice_loop (walk_fuel s) s key before level.

(** The first loop of [Put], from level [n - 1] down: the node with the key, or the arrays. *)
Fixpoint search_levels (s : Skiplist) (key : bytes) (n : nat) (prev next : list Z) : option (option Z * list Z * list Z) :=
  match n with
  | O => Some (None, prev, next)
  | S i =>
      before ← prev !! (i + 1)%nat;
      '(p, q) ← findSpliceForLevel s key before i;
      let prev := <[i := p]> prev in
      let next := <[i := q]> next in
      if bool_decide (p = q) then Some (Some p, prev, next) else search_levels s key i prev next
  end.

(** The inner loop for level [i]: [false] when another node with the key appeared. *)
Fixpoint link_loop (fuel : nat) (s : Skiplist) (key : bytes) (v : ValueStruct) (x : Z) (i : nat) (p q : Z)
    : option (bool * Skiplist) :=
  match fuel with
  | O => None
  | S fuel =>
      '(p, q) ← (if bool_decide (p = 0) then
                   if bool_decide (1 < i)%nat then
                     '(p, q) ← findSpliceForLevel s key (sk_head s) i;
                     if bool_decide (p = q) then None else Some (p, q)
                   else None
                 else Some (p, q));
      a ← storeNext (sk_arena s) x i q;
      '(ok, s) ← casNextOffset (set_arena s a) p i q x;
      if (ok : bool) then Some (true, s)
      else
        '(p, q) ← findSpliceForLevel s key p i;
        if bool_decide (p = q) then
          if bool_decide (i = 0%nat) then a ← nd_setValue (sk_arena s) p v; Some (false, set_arena s a) else None
        else link_loop fuel s key v x i p q
  end.

(** The second loop of [Put], from level [i]; [n] levels are left. *)
Fixpoint link_levels (s : Skiplist) (key : bytes) (v : ValueStruct) (x : Z) (i n : nat) (prev next : list Z) : option Skiplist :=
  match n with
  | O => Some s
  | S n =>
      p ← prev !! i;
      q ← next !! i;
      '(ok, s) ← link_loop (walk_fuel s) s key v x i p q;
      if (ok : bool) then link_levels s key v x (i + 1) n prev next else Some s
  end.

(** Raising the height: the compare-and-swap of a single writer succeeds. *)
Definition raise_height (s : Skiplist) (height : nat) : Skiplist :=
  if bool_decide (sk_height s < height)%nat then mkSkl height (sk_head s) (sk_ref s) (sk_arena s) else s.

Definition Put (s : Skiplist) (key : bytes) (v : ValueStruct) (draws : nat -> Z) : option Skiplist :=
  let listHeight := sk_height s in
  let prev := <[listHeight := sk_head s]> (replicate (maxHeight + 1) 0) in
  let next := replicate (maxHeight + 1) 0 in
  '(found, prev, next) ← search_levels s key listHeight prev next;
  match found with
  | Some x => a ← nd_setValue (sk_arena s) x v; Some (set_arena s a)
  | None =>
      let height := randomHeight draws in
      '(a, x) ← newNode (sk_arena s) key v height;
      let s := raise_height (set_arena s a) height in
      link_levels s key v x 0 height prev next
  end.

Fixpoint last_loop (fuel : nat) (s : Skiplist) (n : Z) (level : nat) : option Z :=
  match fuel with
  | O => None
  | S fuel =>
      next ← getNext s n level;
      if bool_decide (next <> 0) then last_loop fuel s next level
      else
        match level with
        | O => Some (if bool_decide (n = sk_head s) then 0 else n)
        | S level => last_loop fuel s n level
        end
  end.

Definition findLast (s : Skiplist) : option Z := last_loop (walk_fuel s) s (sk_head s) (sk_height s - 1).

Definition skl_Empty (s : Skiplist) : option bool := n ← findLast s; Some (bool_decide (n = 0)).

Definition Get (s : Skiplist) (key : bytes) : option ValueStruct :=
  '(n, _) ← findNear s key false true;
  if bool_decide (n = 0) then Some vs_zero
  else
    nextKey ← nd_key (sk_arena s) n;
    if negb (SameKey key nextKey) then Some vs_zero
    else vs ← nd_getVal (sk_arena s) n; Some (with_version vs (ParseTs nextKey)).

Definition MemSize (s : Skiplist) : Z := ar_size (sk_arena s).

(** ** Iterators *)

Record Iterator : Type := mkSIter { si_list : Skiplist; si_n : Z }.

Definition NewIterator (s : Skiplist) : Iterator := mkSIter (IncrRef s) 0.

Definition si_to (it : Iterator) (n : Z) : Iterator := mkSIter (si_list it) n.

Definition si_Valid (it : Iterator) : bool := bool_decide (si_n it <> 0).
Definition si_Key (it : Iterator) : option bytes := nd_key (sk_arena (si_list it)) (si_n it).
Definition si_Value (it : Iterator) : option ValueStruct := nd_getVal (sk_arena (si_list it)) (si_n it).

Definition si_Next (it : Iterator) : option Iterator :=
  if negb (si_Valid it) then None else n ← getNext (si_list it) (si_n it) 0; Some (si_to it n).

Definition si_Prev (it : Iterator) : option Iterator :=
  if negb (si_Valid it) then None
  else key ← si_Key it; '(n, _) ← findNear (si_list it) key true false; Some (si_to it n).

Definition si_Seek (it : Iterator) (target : bytes) : option Iterator :=
  '(n, _) ← findNear (si_list it) target false true; Some (si_to it n).

Definition SeekForPrev (it : Iterator) (target : bytes) : option Iterator :=
  '(n, _) ← findNear (si_list it) target true true; Some (si_to it n).

Definition SeekToFirst (it : Iterator) : option Iterator :=
  n ← getNext (si_list it) (sk_head (si_list it)) 0; Some (si_to it n).

Definition SeekToLast (it : Iterator) : option Iterator := n ← findLast (si_list it); Some (si_to it n).

Definition si_Close (it : Iterator) : option Skiplist := DecrRef (si_list it).

Record UniIterator : Type := mkUni { ui_iter : Iterator; ui_reversed : bool }.

Definition NewUniIterator (s : Skiplist) (reversed : bool) : UniIterator := mkUni (NewIterator s) reversed.

Definition ui_set (u : UniIterator) (r : option Iterator) : option UniIterator := it ← r; Some (mkUni it (ui_reversed u)).

Definition ui_Next (u : UniIterator) : option UniIterator :=
  ui_set u (if negb (ui_reversed u) then si_Next (ui_iter u) else si_Prev (ui_iter u)).
Definition ui_Rewind (u : UniIterator) : option UniIterator :=
  ui_set u (if negb (ui_reversed u) then SeekToFirst (ui_iter u) else SeekToLast (ui_iter u)).
Definition ui_Seek (u : UniIterator) (key : bytes) : option UniIterator :=
  ui_set u (if negb (ui_reversed u) then si_Seek (ui_iter u) key else SeekForPrev (ui_iter u) key).

#[export] Instance UniIterator_it : YIterator UniIterator := {
  y_Next := ui_Next;
  y_Rewind := ui_Rewind;
  y_Seek := ui_Seek;
  y_Key u := default [] (si_Key (ui_iter u));
  y_Value u := si_Value (ui_iter u);
  y_Valid u := si_Valid (ui_iter u)
}.

(** ** Lemmas: the arena *)

(** What was written below [ar_n] stays. *)
Record arena_le (a a' : Arena) : Prop := {
  al_n : ar_n a <= ar_n a';
  al_len : len (ar_buf a') = len (ar_buf a);
  al_buf : take (Z.to_nat (ar_n a)) (ar_buf a') = take (Z.to_nat (ar_n a)) (ar_buf a)
}.

Definition arena_ok (a : Arena) : Prop := 0 < ar_n a <= len (ar_buf a) /\ len (ar_buf a) < 2 ^ 32.

(** [b] lies at [off]. *)
Definition region (a : Arena) (off : Z) (b : bytes) : Prop :=
  0 <= off /\ off + len b <= ar_n a /\ slice (ar_buf a) off (off + len b) = Some b.

Lemma arena_le_refl a : arena_le a a.
Proof. split; [lia|done..]. Qed.

Lemma arena_le_trans a b c : arena_le a b -> arena_le b c -> arena_le a c.
Proof.
  intros [N1 L1 B1] [N2 L2 B2]. split; [lia|congruence|]. rewrite <- B1.
  assert (forall x : bytes, take (Z.to_nat (ar_n a)) x = take (Z.to_nat (ar_n a)) (take (Z.to_nat (ar_n b)) x)) as E
    by (intros x; rewrite take_take; f_equal; lia).
  by rewrite (E (ar_buf c)), B2, <- E.
Qed.

Lemma slice_in_take {A} (l : list A) i j n : j <= Z.of_nat n -> j <= len l -> slice (take n l) i j = slice l i j.
Proof.
  intros Hn Hl. unfold slice. unfold len in *. rewrite length_take.
  do 2 case_bool_decide; try lia; [|done]. f_equal. rewrite skipn_firstn_comm, take_take. f_equal. lia.
Qed.

Lemma region_le a a' off b : arena_le a a' -> arena_ok a -> region a off b -> region a' off b.
Proof.
  intros [N L B] [Ha _] (H0 & H1 & H2). split_and!; [done|lia|]. rewrite <- H2.
  rewrite <- (slice_in_take (ar_buf a') _ _ (Z.to_nat (ar_n a))) by lia. rewrite B. apply slice_in_take; lia.
Qed.

Lemma region_slice a off b : arena_ok a -> region a off b ->
  slice (ar_buf a) off (u32 (off + len b)) = Some b.
Proof. intros [Ha Hl] (H0 & H1 & H2). rewrite wrap_small; [done|]. pose proof (len_nonneg b). lia. Qed.

Lemma ar_add_ok a l : arena_ok a -> 0 <= l -> ar_n a + l <= len (ar_buf a) ->
  ar_add a l = Some (mkArena (ar_n a + l) (ar_buf a) (ar_nodes a)).
Proof.
  intros [Ha Hl] H0 Hr. unfold ar_add. rewrite wrap_small by lia. by rewrite bool_decide_eq_true_2 by lia.
Qed.

(** Writing [b] from the old total on. *)
Lemma write_le a b : arena_ok a -> ar_n a + len b <= len (ar_buf a) ->
  let a' := mkArena (ar_n a + len b)
    (take (Z.to_nat (ar_n a)) (ar_buf a) ++ b ++ drop (Z.to_nat (ar_n a) + length b) (ar_buf a)) (ar_nodes a) in
  arena_le a a' /\ arena_ok a' /\ region a' (ar_n a) b.
Proof.
  intros [Ha Hl] Hr a'. pose proof (len_nonneg b) as Hb. unfold len in *.
  assert (length (take (Z.to_nat (ar_n a)) (ar_buf a)) = Z.to_nat (ar_n a)) as Lt by (rewrite length_take; lia).
  assert (length (ar_buf a') = length (ar_buf a)) as E by (cbn; rewrite !length_app, length_drop, Lt; lia).
  split_and!.
  - split; cbn [ar_n a']; [lia|unfold len; by rewrite E|]. subst a'. cbn [ar_buf]. rewrite take_app_le by lia.
    by rewrite take_take, Nat.min_id.
  - unfold arena_ok, len. rewrite E. cbn. lia.
  - unfold region. cbn [ar_n a']. split_and!; [lia|unfold len; lia|]. subst a'. cbn [ar_buf].
    replace (ar_n a) with (len (take (Z.to_nat (ar_n a)) (ar_buf a))) at 3 4 by (unfold len; rewrite Lt; lia).
    apply slice_app_mid.
Qed.

Lemma putKey_ok a key : arena_ok a -> ar_n a + len key <= len (ar_buf a) ->
  exists a', putKey a key = Some (a', ar_n a) /\ arena_le a a' /\ arena_ok a' /\ region a' (ar_n a) key /\
    ar_n a' = ar_n a + len key /\ ar_nodes a' = ar_nodes a.
Proof.
  intros Ha Hr. pose proof (len_nonneg key) as Hk. pose proof Ha as [Hn Hl]. unfold putKey. rewrite wrap_small by lia.
  rewrite ar_add_ok by (done || lia). cbn [mbind option_bind ar_n ar_buf].
  replace (ar_n a + len key - len key) with (ar_n a) by lia. rewrite (wrap_small 32 (ar_n a)) by lia.
  rewrite bool_decide_eq_true_2 by done. unfold store_at. rewrite bool_decide_eq_true_2 by lia.
  cbn [mbind option_bind]. eexists. split; [done|]. unfold set_buf. cbn [ar_n ar_nodes].
  destruct (write_le a key Ha Hr) as (H1 & H2 & H3). done.
Qed.

Lemma putVal_ok a v : arena_ok a -> is_u64 (ExpiresAt v) -> ar_n a + len (EncodeTo v) <= len (ar_buf a) ->
  exists a', putVal a v = Some (a', ar_n a) /\ arena_le a a' /\ arena_ok a' /\ region a' (ar_n a) (EncodeTo v) /\
    ar_n a' = ar_n a + len (EncodeTo v) /\ ar_nodes a' = ar_nodes a.
Proof.
  intros Ha Hv Hr. pose proof (len_nonneg (EncodeTo v)) as Hk. pose proof Ha as [Hn Hl]. unfold putVal.
  rewrite EncodedSize_EncodeTo by done. rewrite (wrap_small 32 (len _)) by lia.
  rewrite ar_add_ok by (done || lia). cbn [mbind option_bind ar_n ar_buf].
  replace (ar_n a + len (EncodeTo v) - len (EncodeTo v)) with (ar_n a) by lia. rewrite (wrap_small 32 (ar_n a)) by lia.
  set (n := Z.to_nat (ar_n a)) in *. set (b := ar_buf a) in *.
  assert (slice_from b (ar_n a) = Some (drop n b)) as ->.
  { unfold slice_from, slice. rewrite bool_decide_eq_true_2 by lia. fold n. f_equal. apply take_ge.
    rewrite length_drop. unfold len. lia. }
  cbn [mbind option_bind]. rewrite <- (take_drop (length (EncodeTo v)) (drop n b)).
  rewrite Encode_EncodeTo by (rewrite length_take, length_drop; unfold len in *; lia).
  cbn [mbind option_bind]. rewrite drop_drop. eexists. split; [done|]. unfold set_buf. cbn [ar_n ar_nodes].
  destruct (write_le a (EncodeTo v) Ha Hr) as (H1 & H2 & H3). done.
Qed.

Lemma align_ok x : 0 <= x < 2 ^ 32 -> Z.land x (MaxUint32 - nodeAlign) = x - x mod 8.
Proof.
  intros Hx. change (MaxUint32 - nodeAlign) with (Z.shiftl (Z.ones 29) 3).
  assert (x - x mod 8 = Z.shiftl (Z.shiftr x 3) 3) as ->
    by (rewrite Z.shiftl_mul_pow2, Z.shiftr_div_pow2 by lia; change (2 ^ 3) with 8;
        pose proof (Z.div_mod x 8 ltac:(lia)); lia).
  apply Z.bits_inj'. intros i Hi. rewrite Z.land_spec. destruct (decide (i < 3)) as [L|L].
  { rewrite !Z.shiftl_spec_low by done. apply andb_false_r. }
  rewrite !Z.shiftl_spec_high, Z.shiftr_spec by lia. replace (i - 3 + 3) with i by lia.
  destruct (decide (i < 32)).
  - rewrite Z.ones_spec_low by lia. apply andb_true_r.
  - rewrite (testbit_above x 32 i) by lia. done.
Qed.

Definition node_size (h : nat) : Z := MaxNodeSize - (Z.of_nat maxHeight - Z.of_nat h) * offsetSize + nodeAlign.

Lemma putNode_ok a h : arena_ok a -> (h <= maxHeight)%nat -> ar_n a + node_size h <= len (ar_buf a) ->
  exists a' m, putNode a h = Some (set_node a' m (mkNd 0 0 0 0 (replicate h 0)), m) /\ ar_n a <= m < ar_n a' /\
    m mod 8 = 0 /\ arena_le a a' /\ arena_ok a' /\ ar_n a' = ar_n a + node_size h /\ ar_nodes a' = ar_nodes a.
Proof.
  intros Ha Hh Hr. pose proof Ha as [Hn Hl]. unfold putNode. fold (node_size h).
  assert (23 <= node_size h <= 103) as Hs by (unfold node_size, MaxNodeSize, maxHeight, offsetSize, nodeAlign in *; lia).
  rewrite (wrap_small 32 (node_size h)) by lia. rewrite ar_add_ok by (done || lia). cbn [mbind option_bind ar_n].
  replace (ar_n a + node_size h - node_size h + nodeAlign) with (ar_n a + 7) by (unfold nodeAlign; lia).
  rewrite (wrap_small 32) by lia. rewrite align_ok by lia.
  eexists _, _. split; [done|]. cbn [ar_n ar_nodes].
  pose proof (Z.mod_pos_bound (ar_n a + 7) 8 ltac:(lia)).
  split_and!; try lia; try done.
  - replace (ar_n a + 7 - (ar_n a + 7) mod 8) with (8 * ((ar_n a + 7) / 8))
      by (pose proof (Z.div_mod (ar_n a + 7) 8 ltac:(lia)); lia). rewrite Z.mul_comm. apply Z_mod_mult.
  - split; cbn; [lia|done..].
  - unfold arena_ok in *. cbn. lia.
Qed.

Lemma decodeValue_encode off sz : 0 <= off < 2 ^ 32 -> 0 <= sz < 2 ^ 32 -> decodeValue (encodeValue off sz) = (off, sz).
Proof.
  intros Ho Hs. unfold encodeValue, decodeValue.
  rewrite (wrap_small 64) by (rewrite Z.shiftl_mul_pow2 by lia; nia). rewrite lor_shiftl_add by lia.
  f_equal.
  - unfold wrap. rewrite Z.add_comm, Z.mod_add by lia. apply Z.mod_small. lia.
  - rewrite Z.shiftr_div_pow2, Z.add_comm, Z.div_add by lia. rewrite (Z.div_small off) by lia. apply wrap_small. lia.
Qed.

(** ** Lemmas: the entry a node shows *)

(** Node [x] holds the key and value of [e]. *)
Definition node_shows (a : Arena) (nd : node) (e : kv) : Prop :=
  region a (nd_keyOffset nd) e.1 /\ nd_keySize nd = len e.1 /\
  exists v off, region a off (EncodeTo v) /\ decodeValue (nd_value nd) = (off, len (EncodeTo v)) /\
    is_u64 (ExpiresAt v) /\ e.2 = decoded v.

Definition shows (a : Arena) (x : Z) (e : kv) : Prop := exists nd, ar_nodes a !! x = Some nd /\ node_shows a nd e.

Lemma shows_key a x e : arena_ok a -> shows a x e -> nd_key a x = Some e.1.
Proof.
  intros Ha (nd & E & Hk & Es & _). unfold nd_key. rewrite E. cbn. unfold getKey. rewrite Es. by apply region_slice.
Qed.

Lemma shows_val a x e : arena_ok a -> shows a x e -> nd_getVal a x = Some e.2.
Proof.
  intros Ha (nd & E & _ & _ & v & off & Hv & Ed & Hu & ->). unfold nd_getVal. rewrite E. cbn [mbind option_bind].
  rewrite Ed. unfold getVal. rewrite region_slice by done. cbn [mbind option_bind]. by apply Decode_EncodeTo.
Qed.

Lemma node_shows_le a a' nd e : arena_le a a' -> arena_ok a -> node_shows a nd e -> node_shows a' nd e.
Proof.
  intros L Ha (Hk & Es & v & off & Hv & Ed & Hu & E2). split; [by apply (region_le a)|]. split; [done|].
  exists v, off. split; [by apply (region_le a)|done].
Qed.

Definition towers (a : Arena) (x : Z) : list Z := match ar_nodes a !! x with Some nd => nd_tower nd | None => [] end.

(** The fields of other nodes, and all but the tower of this one, are as before. *)
Definition same_entry (nd nd' : node) : Prop :=
  nd_value nd' = nd_value nd /\ nd_keyOffset nd' = nd_keyOffset nd /\ nd_keySize nd' = nd_keySize nd.

Lemma node_shows_same a nd nd' e : same_entry nd nd' -> node_shows a nd e -> node_shows a nd' e.
Proof. unfold same_entry, node_shows. intros (-> & -> & ->). done. Qed.

Lemma node_shows_nodes a nodes nd e : node_shows a nd e -> node_shows (mkArena (ar_n a) (ar_buf a) nodes) nd e.
Proof. done. Qed.

Lemma newNode_ok a key v h : arena_ok a -> (h <= maxHeight)%nat -> len key < 2 ^ 16 -> is_u64 (ExpiresAt v) ->
  ar_n a + node_size h + len key + len (EncodeTo v) <= len (ar_buf a) ->
  exists a' x nd, newNode a key v h = Some (a', x) /\ arena_le a a' /\ arena_ok a' /\
    ar_n a <= x < ar_n a' /\ x mod 8 = 0 /\ ar_n a' = ar_n a + node_size h + len key + len (EncodeTo v) /\
    ar_nodes a' = <[x := nd]> (ar_nodes a) /\ nd_tower nd = replicate h 0 /\ node_shows a' nd (key, decoded v).
Proof.
  intros Ha Hh Hk Hv Hr. pose proof (len_nonneg key). pose proof (len_nonneg (EncodeTo v)).
  destruct (putNode_ok a h) as (a1 & x & E1 & Hx & H8 & L1 & O1 & N1 & D1); [done..|lia|].
  unfold newNode. rewrite E1. cbn [mbind option_bind]. set (nd0 := mkNd 0 0 0 0 (replicate h 0)).
  assert (ar_nodes (set_node a1 x nd0) !! x = Some nd0) as -> by apply lookup_insert_eq.
  cbn [mbind option_bind]. set (a1' := set_node a1 x nd0) in *. pose proof L1 as [_ B1 _].
  destruct (putKey_ok a1' key) as (a2 & E2 & L2 & O2 & R2 & N2 & D2); [done|cbn; lia|].
  rewrite E2. cbn [mbind option_bind]. pose proof L2 as [_ B2 _]. cbn [ar_n ar_buf a1' set_node] in N2, B2.
  destruct (putVal_ok a2 v) as (a3 & E3 & L3 & O3 & R3 & N3 & D3); [done..|lia|].
  rewrite E3. cbn [mbind option_bind]. destruct O3 as [O3 O3'].
  eexists _, x, _. split; [done|]. cbn [ar_n ar_nodes set_node].
  split_and!; try lia.
  - apply (arena_le_trans a a3); [|by split; cbn; [lia|done..]].
    apply (arena_le_trans a a1'); [by destruct L1|]. by apply (arena_le_trans _ a2).
  - done.
  - rewrite D3, D2. cbn. rewrite D1. apply insert_insert_eq.
  - done.
  - split; [|split].
    + apply (region_le a2); [by destruct L3|done|done].
    + cbn [nd_keySize fst]. apply wrap_small. lia.
    + exists v, (ar_n a2). split; [done|]. split; [|done]. cbn [nd_value].
      destruct O2 as [O2 O2']. rewrite EncodedSize_EncodeTo, (wrap_small 32 (len _)) by (done || lia).
      apply decodeValue_encode; lia.
Qed.

Lemma setValue_ok a x nd k v w : arena_ok a -> ar_nodes a !! x = Some nd -> node_shows a nd (k, w) -> is_u64 (ExpiresAt v) ->
  ar_n a + len (EncodeTo v) <= len (ar_buf a) ->
  exists a' nd', nd_setValue a x v = Some a' /\ arena_le a a' /\ arena_ok a' /\ ar_n a' = ar_n a + len (EncodeTo v) /\
    ar_nodes a' = <[x := nd']> (ar_nodes a) /\ nd_tower nd' = nd_tower nd /\ node_shows a' nd' (k, decoded v).
Proof.
  intros Ha Hx (Hk & Es & _) Hv Hr. pose proof (len_nonneg (EncodeTo v)).
  destruct (putVal_ok a v) as (a1 & E1 & L1 & O1 & R1 & N1 & D1); [done..|].
  unfold nd_setValue. rewrite E1. cbn [mbind option_bind]. rewrite D1, Hx. cbn [mbind option_bind].
  pose proof Ha as [Hn Hl]. pose proof O1 as [O2 O3]. eexists _, _. split; [done|]. cbn [ar_n ar_nodes set_node]. rewrite D1.
  split; [by destruct L1|]. split_and!; try done.
  - split; [|split]; cbn [nd_keyOffset nd_keySize nd_value fst]; [exact (region_le a a1 _ _ L1 Ha Hk)|done|].
    exists v, (ar_n a). split; [done|]. split; [|done].
    rewrite EncodedSize_EncodeTo, (wrap_small 32 (len _)) by (done || lia). apply decodeValue_encode; lia.
Qed.

(** ** Lemmas: the linked lists of the levels *)

Definition nextp (a : Arena) (x : Z) (i : nat) : option Z := nd ← ar_nodes a !! x; nd_tower nd !! i.

Lemma getNext_eq s x i : getNext s x i = nextp (sk_arena s) x i.
Proof. done. Qed.

(** From [x] on, level [i] is the nodes [xs]. *)
Fixpoint linked (a : Arena) (i : nat) (x : Z) (xs : list Z) : Prop :=
  match xs with
  | [] => nextp a x i = Some 0
  | y :: ys => nextp a x i = Some y /\ linked a i y ys
  end.

Definition last_or (d : Z) (xs : list Z) : Z := default d (last xs).

Lemma last_or_cons d x xs : last_or d (x :: xs) = last_or x xs.
Proof. unfold last_or. rewrite last_cons. by destruct (last xs). Qed.

Lemma last_or_in d xs : last_or d xs = d /\ xs = [] \/ last_or d xs ∈ xs.
Proof.
  unfold last_or. destruct (last xs) as [x|] eqn:E; [right|left].
  - apply last_Some in E as [l' ->]. cbn. set_solver.
  - by apply last_None in E.
Qed.

Lemma last_or_app d xs ys : ys <> [] -> last_or d (xs ++ ys) = last_or d ys.
Proof. intros H. unfold last_or. rewrite last_app. destruct ys; [done|]. rewrite last_cons. by destruct (last ys). Qed.

Lemma last_or_mid d xs x ys : last_or d (xs ++ x :: ys) = last_or x ys.
Proof. rewrite last_or_app by done. apply last_or_cons. Qed.

Lemma linked_next a i x xs : linked a i x xs -> nextp a x i = Some (hd 0 xs).
Proof. destruct xs; [done|by intros []]. Qed.

Lemma linked_app a i x xs y ys : linked a i x (xs ++ y :: ys) -> linked a i y ys.
Proof. revert x. induction xs as [|z xs IH]; intros x; cbn [app linked]; [by intros []|]. intros [_ H]. by apply (IH z). Qed.

Lemma linked_last a i xs ys : forall x, linked a i x (xs ++ ys) -> nextp a (last_or x xs) i = Some (hd 0 ys).
Proof.
  induction xs as [|y xs IH]; intros x H; [by apply linked_next in H|]. rewrite last_or_cons. destruct H as [_ H]. by apply IH.
Qed.

Lemma linked_ext a a' i x xs : (forall y, y = x \/ y ∈ xs -> nextp a' y i = nextp a y i) -> linked a i x xs -> linked a' i x xs.
Proof.
  revert x. induction xs as [|y ys IH]; intros x H; cbn [linked]; rewrite H by (by left); [done|].
  intros [E L]. split; [done|]. apply IH; [|done]. intros z Hz. apply H. right. set_solver.
Qed.

(** Linking [x] in behind the nodes [us]. *)
Lemma linked_insert a a' i x ws : forall us h,
  NoDup (h :: us) -> (forall y, y ∈ ws -> y ∉ h :: us /\ y <> x) -> x ∉ h :: us ->
  (forall y, y <> x -> y <> last_or h us -> nextp a' y i = nextp a y i) ->
  nextp a' (last_or h us) i = Some x -> nextp a' x i = Some (hd 0 ws) ->
  linked a i h (us ++ ws) -> linked a' i h (us ++ x :: ws).
Proof.
  induction us as [|u us IH]; intros h Hnd Hws Hx Hext Hp Hq L.
  - change (last_or h []) with h in *. cbn [app linked] in *. split; [done|].
    destruct ws as [|w ws]; [done|]. cbn [linked] in *. destruct L as [_ L]. split; [done|].
    apply (linked_ext a); [|done]. intros y Hy. destruct (Hws y) as [H1 H2]; [set_solver|]. apply Hext; [done|set_solver].
  - rewrite last_or_cons in *. apply NoDup_cons in Hnd as [Hh Hnd]. cbn [app linked] in *. destruct L as [E L]. split.
    + rewrite Hext; [done|set_solver|]. intros Eh. destruct (last_or_in u us) as [[E' _]|?]; set_solver.
    + apply IH; try done; [|set_solver]. intros y Hy. destruct (Hws y Hy). set_solver.
Qed.

(** The nodes that reach above level [i]. *)
Definition tall (a : Arena) (i : nat) (xs : list Z) : list Z := filter (fun x => (i < length (towers a x))%nat) xs.

Lemma tall_app a i xs ys : tall a i (xs ++ ys) = tall a i xs ++ tall a i ys.
Proof. apply filter_app. Qed.

Lemma tall_cons a i x xs : tall a i (x :: xs) = if bool_decide (i < length (towers a x))%nat then x :: tall a i xs else tall a i xs.
Proof. unfold tall. rewrite filter_cons. by case_bool_decide; case_decide. Qed.

Lemma elem_of_tall a i x xs : x ∈ tall a i xs <-> (i < length (towers a x))%nat /\ x ∈ xs.
Proof. exact (list_elem_of_filter _ xs x). Qed.

Lemma tall_all a xs : Forall (fun x => (1 <= length (towers a x))%nat) xs -> tall a 0 xs = xs.
Proof. intros H. apply filter_id. eapply Forall_impl; [done|]. cbn. intros x. lia. Qed.

Lemma tall_none a i xs n : Forall (fun x => (length (towers a x) <= n)%nat) xs -> (n <= i)%nat -> tall a i xs = [].
Proof.
  intros H Hi. induction H as [|x xs Hx _ IH]; [done|]. rewrite tall_cons. by rewrite bool_decide_eq_false_2 by lia.
Qed.

Lemma tall_split a i xs y ys : tall a i xs = y :: ys -> exists b1 b2, xs = b1 ++ y :: b2 /\ tall a i b1 = [] /\ tall a i b2 = ys.
Proof.
  induction xs as [|x xs IH]; [done|]. rewrite tall_cons. case_bool_decide as Hx.
  - intros [= -> <-]. by exists [], xs.
  - intros E. destruct (IH E) as (b1 & b2 & -> & E1 & E2). exists (x :: b1), b2. split; [done|]. split; [|done].
    rewrite tall_cons. by rewrite bool_decide_eq_false_2.
Qed.

Lemma tall_ext a a' i xs : (forall x, x ∈ xs -> length (towers a' x) = length (towers a x)) -> tall a' i xs = tall a i xs.
Proof.
  induction xs as [|x xs IH]; intros H; [done|]. rewrite !tall_cons, (H x) by set_solver. rewrite IH; [done|]. set_solver.
Qed.

(** ** What the list represents *)

(** The nodes of the base level, in order, show the entries of the run [es]; level [i] is the
    nodes that reach above it. *)
Record skl_rep (s : Skiplist) (chain : list Z) (es : list kv) : Prop := {
  sr_arena : arena_ok (sk_arena s);
  sr_nodes : forall x nd, ar_nodes (sk_arena s) !! x = Some nd -> 0 < x < ar_n (sk_arena s) /\ x mod 8 = 0;
  sr_head : length (towers (sk_arena s) (sk_head s)) = maxHeight;
  sr_nodup : NoDup (sk_head s :: chain);
  sr_shows : Forall2 (shows (sk_arena s)) chain es;
  sr_towers : Forall (fun x => (1 <= length (towers (sk_arena s) x) <= sk_height s)%nat) chain;
  sr_height : (1 <= sk_height s <= maxHeight)%nat;
  sr_levels : forall i, (i < maxHeight)%nat -> linked (sk_arena s) i (sk_head s) (tall (sk_arena s) i chain);
  sr_keys : all_ts es;
  sr_sorted : kvs_sorted es
}.

(** The part of a run before, at and behind a key. *)
Record split_run (key : bytes) (es e1 em e2 : list kv) : Prop := {
  sp_es : es = e1 ++ em ++ e2;
  sp_before : Forall (fun x => compareKeys key x.1 = Gt) e1;
  sp_at : em = [] \/ exists x, em = [x] /\ x.1 = key;
  sp_behind : Forall (fun x => compareKeys key x.1 = Lt) e2
}.

Lemma split_run_exists key es : kvs_sorted es -> exists e1 em e2, split_run key es e1 em e2.
Proof.
  induction 1 as [|x es Hs IH Hx]; [exists [], [], []; by split; [|constructor|left|constructor]|].
  destruct (compareKeys key x.1) eqn:E.
  - apply (cmp_eq compareKeys) in E. exists [], [x], es. split; [done|constructor|right; by exists x|].
    subst key. done.
  - exists [], [], (x :: es). split; [done|constructor|by left|]. constructor; [done|].
    eapply Forall_impl; [exact Hx|]. intros y Hy. by apply (cmp_lt_trans _ _ x.1).
  - destruct IH as (e1 & em & e2 & [-> H1 H2 H3]). exists (x :: e1), em, e2. split; [done|by constructor|done|done].
Qed.

Lemma sl_put_split key v es e1 em e2 : split_run key es e1 em e2 -> sl_put es key v = e1 ++ (key, decoded v) :: e2.
Proof.
  intros [-> H1 H2 H3]. induction H1 as [|x e1 Hx _ IH]; cbn [app sl_put].
  - destruct H2 as [->|(x & -> & <-)]; cbn [app sl_put]; [|by rewrite (cmp_refl compareKeys)].
    destruct H3 as [|y e2 Hy _]; [done|]. cbn [sl_put]. by rewrite Hy.
  - by rewrite Hx, IH.
Qed.

(** ** Lemmas: searching *)

Lemma Forall2_elem_l {A B} (P : A -> B -> Prop) l k x : Forall2 P l k -> x ∈ l -> exists y, y ∈ k /\ P x y.
Proof.
  intros H Hx. apply list_elem_of_lookup in Hx as [i Hi]. destruct (Forall2_lookup_l _ _ _ _ _ H Hi) as (y & Hy & Hp).
  exists y. split; [by apply list_elem_of_lookup_2 in Hy|done].
Qed.

(** A list that represents [es], split at [key]. *)
Record at_key (s : Skiplist) (chain : list Z) (es : list kv) (key : bytes) (l1 lm l2 : list Z) (e1 em e2 : list kv) : Prop := {
  ak_rep : skl_rep s chain es;
  ak_key : has_ts key;
  ak_split : split_run key es e1 em e2;
  ak_chain : chain = l1 ++ lm ++ l2;
  ak_before : Forall2 (shows (sk_arena s)) l1 e1;
  ak_at : Forall2 (shows (sk_arena s)) lm em;
  ak_behind : Forall2 (shows (sk_arena s)) l2 e2
}.

Lemma at_key_exists s chain es key : skl_rep s chain es -> has_ts key ->
  exists l1 lm l2 e1 em e2, at_key s chain es key l1 lm l2 e1 em e2.
Proof.
  intros R Hk. destruct (split_run_exists key es (sr_sorted s chain es R)) as (e1 & em & e2 & Sp).
  pose proof (sr_shows s chain es R) as F. rewrite (sp_es key es e1 em e2 Sp) in F.
  apply Forall2_app_inv_r in F as (l1 & l & F1 & F & ->). apply Forall2_app_inv_r in F as (lm & l2 & Fm & F2 & ->).
  by exists l1, lm, l2, e1, em, e2.
Qed.

Lemma Forall2_impl_elem {A B} (P Q : A -> B -> Prop) l k :
  (forall x y, x ∈ l -> P x y -> Q x y) -> Forall2 P l k -> Forall2 Q l k.
Proof.
  intros H F. induction F as [|x y l k Hp _ IH]; constructor; [apply H; [set_solver|done]|]. apply IH. intros. apply H; [set_solver|done].
Qed.

Section Search.
Context (s : Skiplist) (chain : list Z) (es : list kv) (key : bytes) (l1 lm l2 : list Z) (e1 em e2 : list kv).
Context (K : at_key s chain es key l1 lm l2 e1 em e2).
Notation a := (sk_arena s).
Notation R := (ak_rep s chain es key l1 lm l2 e1 em e2 K).

Lemma key_of x e c : x ∈ chain -> shows a x e -> e ∈ es -> compareKeys key e.1 = c ->
  x <> 0 /\ nd_key a x = Some e.1 /\ CompareKeys key e.1 = Some c.
Proof using K.
  intros Hx He Hin Hc. pose proof R as HR. split_and!.
  - destruct He as (nd & E & _). destruct (sr_nodes s chain es HR x nd E). lia.
  - by apply shows_key; [apply HR|].
  - rewrite CompareKeys_total; [by rewrite Hc|apply K|]. pose proof (sr_keys s chain es HR) as H. unfold all_ts in H.
    rewrite Forall_forall in H. by apply H.
Qed.

Lemma es_eq : es = e1 ++ em ++ e2.
Proof using K. apply (sp_es key es e1 em e2), K. Qed.

Lemma before_key x : x ∈ l1 -> x <> 0 /\ exists k, nd_key a x = Some k /\ CompareKeys key k = Some Gt.
Proof using K.
  intros Hx. destruct (Forall2_elem_l _ _ _ x (ak_before _ _ _ _ _ _ _ _ _ _ K) Hx) as (e & He & Hs).
  pose proof (sp_before _ _ _ _ _ (ak_split _ _ _ _ _ _ _ _ _ _ K)) as H. rewrite Forall_forall in H.
  destruct (key_of x e Gt) as (? & ? & ?); eauto.
  - rewrite (ak_chain _ _ _ _ _ _ _ _ _ _ K). set_solver.
  - rewrite es_eq. set_solver.
Qed.

Lemma behind_key x : x ∈ l2 -> x <> 0 /\ exists k, nd_key a x = Some k /\ CompareKeys key k = Some Lt.
Proof using K.
  intros Hx. destruct (Forall2_elem_l _ _ _ x (ak_behind _ _ _ _ _ _ _ _ _ _ K) Hx) as (e & He & Hs).
  pose proof (sp_behind _ _ _ _ _ (ak_split _ _ _ _ _ _ _ _ _ _ K)) as H. rewrite Forall_forall in H.
  destruct (key_of x e Lt) as (? & ? & ?); eauto.
  - rewrite (ak_chain _ _ _ _ _ _ _ _ _ _ K). set_solver.
  - rewrite es_eq. set_solver.
Qed.

Lemma at_key_cases : lm = [] \/ exists z, lm = [z] /\ z <> 0 /\ exists k, nd_key a z = Some k /\ CompareKeys key k = Some Eq.
Proof using K.
  pose proof (ak_at _ _ _ _ _ _ _ _ _ _ K) as F. destruct (sp_at _ _ _ _ _ (ak_split _ _ _ _ _ _ _ _ _ _ K)) as [E|(e & E & Ek)].
  - left. rewrite E in F. by apply Forall2_nil_inv_r in F.
  - right. rewrite E in F. apply Forall2_cons_inv_r in F as (z & l' & Hz & Hl & El). apply Forall2_nil_inv_r in Hl.
    rewrite Hl in El. exists z. split; [done|].
    destruct (key_of z e Eq) as (? & ? & ?); eauto.
    + rewrite (ak_chain _ _ _ _ _ _ _ _ _ _ K). set_solver.
    + rewrite es_eq, E. set_solver.
    + rewrite Ek. apply (cmp_refl compareKeys).
Qed.

(** [x] is the head or a node before the key, [b] the nodes before the key that follow. *)
Definition stands (x : Z) (b : list Z) : Prop := (x = sk_head s /\ b = l1) \/ exists b0, l1 = b0 ++ x :: b.

Lemma stands_linked x b i : stands x b -> (i < maxHeight)%nat -> (i < length (towers a x))%nat ->
  linked a i x (tall a i (b ++ lm ++ l2)).
Proof using K.
  intros Hx Hi Ht. pose proof (sr_levels _ _ _ R i Hi) as L. rewrite (ak_chain _ _ _ _ _ _ _ _ _ _ K) in L.
  destruct Hx as [[-> ->]|[b0 E]]; [done|]. rewrite E in L. rewrite <- app_assoc in L. cbn [app] in L.
  rewrite tall_app, tall_cons in L. rewrite bool_decide_eq_true_2 in L by done. by apply linked_app in L.
Qed.

Lemma stands_next x b b1 y b2 : stands x b -> b = b1 ++ y :: b2 -> stands y b2.
Proof using Type.
  intros [[-> ->]|[b0 E]] Hb; right; [by exists b1|]. exists (b0 ++ x :: b1). rewrite E, Hb, <- app_assoc. done.
Qed.

Lemma stands_length x b : stands x b -> (length b <= length l1)%nat.
Proof using Type. intros [[_ ->]|[b0 E]]; [done|]. rewrite E, length_app. cbn. clear. lia. Qed.

Lemma in_chain_nodes x : x = sk_head s \/ x ∈ chain -> x ∈ dom (ar_nodes a).
Proof using K.
  intros [->|Hx]; apply elem_of_dom.
  - pose proof (sr_head _ _ _ R) as H. unfold towers in H. destruct (ar_nodes a !! sk_head s); [by eexists|done].
  - destruct (Forall2_elem_l _ _ _ x (sr_shows _ _ _ R) Hx) as (e & _ & nd & -> & _). by eexists.
Qed.

(** The fuel of a walk is enough. *)
Lemma walk_fuel_enough : (length chain + sk_height s < walk_fuel s)%nat.
Proof using K.
  assert (length (sk_head s :: chain) <= size (ar_nodes a))%nat as H.
  { rewrite <- size_dom, <- (size_list_to_set (C := gset Z) (sk_head s :: chain)) by apply R.
    apply subseteq_size. intros x Hx. apply in_chain_nodes. set_solver. }
  unfold walk_fuel. cbn [length] in H. lia.
Qed.

(** What [findNear] finds. *)
Definition near_ptr (less allowEqual : bool) : Z :=
  if less then (if allowEqual then last_or (last_or 0 l1) lm else last_or 0 l1)
  else (if allowEqual then hd 0 (lm ++ l2) else hd 0 l2).

Lemma towers_nextp x i v : nextp a x i = Some v -> (i < length (towers a x))%nat.
Proof using Type.
  unfold nextp, towers. destruct (ar_nodes a !! x) as [nd|]; [|done]. cbn. intros H. by apply lookup_lt_Some in H.
Qed.

Lemma stands_end x less next : stands x [] -> near_end s less x next = (if less then last_or 0 l1 else next, false).
Proof using K.
  pose proof (sr_nodup _ _ _ R) as Hnd. rewrite (ak_chain _ _ _ _ _ _ _ _ _ _ K) in Hnd. apply NoDup_cons in Hnd as [Hh _].
  unfold near_end. destruct less; cbn [negb]; [|done]. intros [[-> E]|[b0 E]].
  - rewrite <- E. by rewrite bool_decide_eq_true_2.
  - rewrite bool_decide_eq_false_2.
    + rewrite E. by rewrite last_or_mid.
    + intros ->. apply Hh. rewrite E. set_solver.
Qed.

Lemma heights_all xs : (forall x, x ∈ xs -> x ∈ chain) -> tall a 0 xs = xs.
Proof using K.
  intros H. apply tall_all, Forall_forall. intros x Hx. pose proof (sr_towers _ _ _ R) as Ht.
  rewrite Forall_forall in Ht. destruct (Ht x (H x Hx)). done.
Qed.

Lemma part_heights : tall a 0 l1 = l1 /\ tall a 0 lm = lm /\ tall a 0 l2 = l2.
Proof using K.
  pose proof (ak_chain _ _ _ _ _ _ _ _ _ _ K) as E. split_and!; apply heights_all; rewrite E; set_solver.
Qed.

Lemma stands_empty x b : stands x b -> tall a 0 b = [] -> b = [].
Proof using K.
  intros Hx E. rewrite heights_all in E; [done|]. intros y Hy. rewrite (ak_chain _ _ _ _ _ _ _ _ _ _ K).
  destruct Hx as [[_ Eb]|[b0 Eb]]; rewrite ?Eb in *; [rewrite <- Eb|]; set_solver.
Qed.

(** Where a walk at level [i] ends: the next node is not before the key. *)
Lemma next_cases x b i : stands x b -> (i < maxHeight)%nat -> (i < length (towers a x))%nat ->
  (exists b1 y b2, b = b1 ++ y :: b2 /\ nextp a x i = Some y /\ y ∈ l1 /\ (i < length (towers a y))%nat) \/
  (tall a i b = [] /\ nextp a x i = Some (hd 0 (tall a i (lm ++ l2)))).
Proof using K.
  intros Hx Hi Ht. pose proof (linked_next _ _ _ _ (stands_linked x b i Hx Hi Ht)) as Hn. rewrite tall_app in Hn.
  destruct (tall a i b) as [|y ys] eqn:E; [by right|left]. destruct (tall_split _ _ _ _ _ E) as (b1 & b2 & Eb & _ & _).
  exists b1, y, b2. split; [done|]. split; [done|]. split.
  - destruct (stands_next x b b1 y b2 Hx Eb) as [[_ E1]|[b0 E1]]; [|rewrite E1; set_solver].
    destruct Hx as [[_ E2]|[b0 E2]]; [rewrite <- E2, Eb|rewrite E2, Eb]; set_solver.
  - assert (y ∈ tall a i b) as Hy by (rewrite E; set_solver). by apply elem_of_tall in Hy as [? _].
Qed.

Definition near_found (less allowEqual : bool) : Z * bool := (near_ptr less allowEqual, allowEqual && negb (bool_decide (lm = []))).

(** Going down a level, or the end of the walk. *)
Lemma near_down less allowEqual fuel x b i q :
  (forall j, (j < i)%nat -> findNear_loop fuel s key less allowEqual x j = Some (near_found less allowEqual)) ->
  stands x b -> tall a i b = [] -> q = hd 0 (tall a i (lm ++ l2)) ->
  (i = 0%nat -> lm = [] \/ (less = true /\ allowEqual = false)) ->
  match i with S level => findNear_loop fuel s key less allowEqual x level | O => Some (near_end s less x q) end
  = Some (near_found less allowEqual).
Proof using K.
  intros IH Hx Et Hq H0. destruct i as [|i]; [|apply IH; clear; lia].
  pose proof (stands_empty x b Hx Et) as Eb. rewrite Eb in Hx. rewrite stands_end by done.
  destruct part_heights as (_ & Em & E2). rewrite tall_app, Em, E2 in Hq. unfold near_found, near_ptr.
  destruct (H0 eq_refl) as [El|[-> ->]]; [|done]. rewrite El in *. cbn [app] in Hq. rewrite Hq. by destruct less, allowEqual.
Qed.

(** The first node of a level that is not before the key. *)
Lemma first_after i (q := hd 0 (tall a i (lm ++ l2))) : q <> 0 ->
  exists k c, nd_key a q = Some k /\ CompareKeys key k = Some c /\
    ((c = Lt /\ q ∈ l2 /\ (i = 0%nat -> lm = [])) \/ (c = Eq /\ lm = [q])).
Proof using K.
  intros Hq. assert (forall y ys, tall a i l2 = y :: ys -> y ∈ l2) as Hin.
  { intros y ys E. assert (y ∈ tall a i l2) as [_ ?]%elem_of_tall by (rewrite E; set_solver). done. }
  subst q. destruct at_key_cases as [El|(z & El & Hz & k & Hk & Hc)]; rewrite tall_app, El in Hq |- *.
  - change (tall a i []) with (@nil Z) in *. cbn [app] in *. destruct (tall a i l2) as [|y ys] eqn:E; [done|].
    pose proof (Hin y ys eq_refl) as Hy. destruct (behind_key y Hy) as (_ & k & H1 & H2). exists k, Lt. split_and!; auto.
  - rewrite tall_cons in Hq |- *. destruct (bool_decide (i < length (towers a z))%nat) eqn:Eh; cbn [app hd] in *.
    { exists k, Eq. by split_and!; auto. }
    change (tall a i []) with (@nil Z) in *. cbn [app] in *. destruct (tall a i l2) as [|y ys] eqn:E; [done|].
    pose proof (Hin y ys eq_refl) as Hy. destruct (behind_key y Hy) as (_ & k' & H1 & H2).
    exists k', Lt. split_and!; [done..|left]. split; [done|]. split; [done|]. intros Ei. exfalso. rewrite Ei in Eh.
    apply bool_decide_eq_false in Eh. destruct part_heights as (_ & Em & _). rewrite El, tall_cons in Em.
    by rewrite bool_decide_eq_false_2 in Em.
Qed.

Lemma first_none i : hd 0 (tall a i (lm ++ l2)) = 0 -> i = 0%nat -> lm = [].
Proof using K.
  intros Hq Ei. rewrite Ei in Hq. destruct part_heights as (_ & Em & _). rewrite tall_app, Em in Hq.
  destruct at_key_cases as [El|(z & El & Hz & _)]; [done|]. by rewrite El in Hq.
Qed.

Lemma base_linked : linked a 0 (sk_head s) chain.
Proof using K.
  pose proof (sr_levels _ _ _ R 0%nat ltac:(clear; unfold maxHeight; lia)) as L. by rewrite heights_all in L.
Qed.

Lemma at_next z : lm = [z] -> nextp a z 0 = Some (hd 0 l2).
Proof using K.
  intros El. pose proof base_linked as L. rewrite (ak_chain _ _ _ _ _ _ _ _ _ _ K), El in L.
  apply linked_app in L. by apply linked_next.
Qed.

Lemma findNear_loop_ok less allowEqual fuel : forall x b i, stands x b -> (i < maxHeight)%nat -> (i < length (towers a x))%nat ->
  (length b + i < fuel)%nat -> findNear_loop fuel s key less allowEqual x i = Some (near_found less allowEqual).
Proof using K.
  induction fuel as [|fuel IH]; intros x b i Hx Hi Ht Hf; [clear -Hf; lia|]. cbn [findNear_loop]. rewrite getNext_eq.
  assert (forall j, (j < i)%nat -> findNear_loop fuel s key less allowEqual x j = Some (near_found less allowEqual)) as Hdown
    by (intros j Hj; apply (IH x b); [done|clear -Hj Hi; lia|clear -Hj Ht; lia|clear -Hj Hf; lia]).
  destruct (next_cases x b i Hx Hi Ht) as [(b1 & y & b2 & Eb & -> & Hy & Hty)|[Et ->]]; cbn [mbind option_bind].
  { destruct (before_key y Hy) as (Hy0 & k & -> & Hc). rewrite bool_decide_eq_false_2 by done. cbn [mbind option_bind]. rewrite Hc.
    apply (IH y b2); [by apply (stands_next x b b1)|done|done|]. rewrite Eb, length_app in Hf. cbn in Hf. clear -Hf. lia. }
  pose proof (near_down less allowEqual fuel x b i _ Hdown Hx Et eq_refl) as Hend.
  pose proof (first_none i) as Hnone. pose proof (first_after i) as Hfirst. cbv zeta in Hfirst.
  set (q := hd 0 (tall a i (lm ++ l2))) in *. case_bool_decide as Hq.
  { rewrite Hq in Hend. apply Hend. intros Ei. left. by apply Hnone. }
  destruct (Hfirst Hq) as (k & c & -> & Hc & Hcase). cbn [mbind option_bind]. rewrite Hc. cbn [mbind option_bind].
  destruct Hcase as [(-> & _ & H0)|[-> El]]; [apply Hend; auto|]. destruct allowEqual.
  - unfold near_found, near_ptr. rewrite El. by destruct less.
  - destruct less; cbn [negb]; [apply Hend; by right|]. rewrite getNext_eq, (at_next q El). done.
Qed.

Lemma stands_head : stands (sk_head s) l1.
Proof using Type. by left. Qed.

Lemma head_tall i : (i < maxHeight)%nat -> (i < length (towers a (sk_head s)))%nat.
Proof using K. intros Hi. by rewrite (sr_head _ _ _ R). Qed.

Lemma chain_length : (length l1 + length lm + length l2 = length chain)%nat.
Proof using K. rewrite (ak_chain _ _ _ _ _ _ _ _ _ _ K), !length_app. clear. lia. Qed.

Lemma findNear_ok less allowEqual fuel : (length chain + sk_height s <= fuel)%nat ->
  findNear_loop fuel s key less allowEqual (sk_head s) (sk_height s - 1) = Some (near_found less allowEqual).
Proof using K.
  intros Hf. pose proof (sr_height _ _ _ R) as Hh. pose proof chain_length as Hl.
  assert (sk_height s - 1 < maxHeight)%nat as Hi by (clear -Hh; lia).
  apply (findNear_loop_ok _ _ _ _ l1); [apply stands_head|done|by apply head_tall|clear -Hf Hh Hl; lia].
Qed.

(** ** Lemmas: the place to insert at *)

Definition pred_at (i : nat) : Z := last_or (sk_head s) (tall a i l1).
Definition succ_at (i : nat) : Z := hd 0 (tall a i l2).

(** At a level that the node with the key reaches, it is found; above, the neighbours. *)
Definition splice_at (i : nat) : Z * Z :=
  match tall a i lm with z :: _ => (z, z) | [] => (pred_at i, succ_at i) end.

Lemma stands_pred x b i : stands x b -> (i < length (towers a x))%nat -> tall a i b = [] -> x = pred_at i.
Proof using Type.
  unfold pred_at. intros [[-> E]|[b0 E]] Hi Et; [by rewrite <- E, Et|].
  rewrite E, tall_app, tall_cons, Et. rewrite bool_decide_eq_true_2 by done. by rewrite last_or_mid.
Qed.

Lemma parts_disjoint x : x ∈ lm -> x ∈ l2 -> False.
Proof using K.
  pose proof (sr_nodup _ _ _ R) as Hnd. rewrite (ak_chain _ _ _ _ _ _ _ _ _ _ K) in Hnd. apply NoDup_cons in Hnd as [_ Hnd].
  apply NoDup_app in Hnd as (_ & _ & Hnd). apply NoDup_app in Hnd as (_ & Hnd & _). intros H1 H2. by apply (Hnd x).
Qed.

Lemma splice_loop_ok fuel : forall x b i, stands x b -> (i < maxHeight)%nat -> (i < length (towers a x))%nat ->
  (length b < fuel)%nat -> splice_loop fuel s key x i = Some (splice_at i).
Proof using K.
  induction fuel as [|fuel IH]; intros x b i Hx Hi Ht Hf; [clear -Hf; lia|]. cbn [splice_loop]. rewrite getNext_eq.
  destruct (next_cases x b i Hx Hi Ht) as [(b1 & y & b2 & Eb & -> & Hy & Hty)|[Et ->]]; cbn [mbind option_bind].
  { destruct (before_key y Hy) as (Hy0 & k & -> & Hc). rewrite bool_decide_eq_false_2 by done. cbn [mbind option_bind]. rewrite Hc.
    apply (IH y b2); [by apply (stands_next x b b1)|done|done|]. rewrite Eb, length_app in Hf. cbn in Hf. clear -Hf. lia. }
  pose proof (stands_pred x b i Hx Ht Et) as Ep. pose proof (first_after i) as Hfirst. cbv zeta in Hfirst.
  unfold splice_at, succ_at. rewrite tall_app in *. case_bool_decide as Hq.
  { rewrite <- Ep. destruct at_key_cases as [El|(z & El & Hz & _)]; rewrite El in *.
    - change (tall a i []) with (@nil Z) in *. cbn [app] in Hq |- *. by rewrite Hq.
    - destruct (tall a i [z]) as [|z' zs] eqn:E; cbn [app hd] in *; [by rewrite Hq|].
      assert (z' ∈ tall a i [z]) as [_ ?%list_elem_of_singleton]%elem_of_tall by (rewrite E; set_solver). congruence. }
  destruct (Hfirst Hq) as (k & c & -> & Hc & Hcase). cbn [mbind option_bind]. rewrite Hc. cbn [mbind option_bind].
  destruct (tall a i lm) as [|z' zs] eqn:E; cbn [app hd] in *.
  - destruct Hcase as [(-> & _)|[-> El]]; [by rewrite Ep|]. exfalso. apply (parts_disjoint (hd 0 (tall a i l2))).
    + rewrite El. set_solver.
    + destruct (tall a i l2) as [|y ys] eqn:E2; [done|]. eapply elem_of_tall. rewrite E2. set_solver.
  - destruct Hcase as [(-> & Hin & H0)|[-> El]]; [|done]. exfalso. apply (parts_disjoint z'); [|done].
    eapply elem_of_tall. rewrite E. set_solver.
Qed.

Lemma pred_stands i : exists b, stands (pred_at i) b.
Proof using Type.
  unfold pred_at. destruct (last_or_in (sk_head s) (tall a i l1)) as [[-> _]|H]; [exists l1; by left|].
  apply elem_of_tall in H as [_ H]. apply list_elem_of_split in H as (b0 & b & E). exists b. right. by exists b0.
Qed.

Lemma pred_tall i : (i < maxHeight)%nat -> (i < length (towers a (pred_at i)))%nat.
Proof using K.
  intros Hi. unfold pred_at. destruct (last_or_in (sk_head s) (tall a i l1)) as [[-> _]|H]; [by apply head_tall|].
  by apply elem_of_tall in H as [? _].
Qed.

Lemma pred_above i : (i < maxHeight)%nat -> (i < length (towers a (pred_at (S i))))%nat.
Proof using K.
  intros Hi. unfold pred_at. destruct (last_or_in (sk_head s) (tall a (S i) l1)) as [[-> _]|H]; [by apply head_tall|].
  apply elem_of_tall in H as [? _]. clear -H. lia.
Qed.

Lemma pred_in i : pred_at i = sk_head s \/ pred_at i ∈ l1.
Proof using Type.
  unfold pred_at. destruct (last_or_in (sk_head s) (tall a i l1)) as [[-> _]|H]; [by left|]. right. by apply elem_of_tall in H as [_ ?].
Qed.

Lemma succ_in i : succ_at i = 0 \/ succ_at i ∈ l2.
Proof using K.
  unfold succ_at. destruct (tall a i l2) as [|y ys] eqn:E; [by left|]. right.
  assert (y ∈ tall a i l2) as [_ ?]%elem_of_tall by (rewrite E; set_solver). done.
Qed.

Lemma node_pos x : x = sk_head s \/ x ∈ chain -> 0 < x < ar_n a.
Proof using K.
  intros H. pose proof (in_chain_nodes x H) as Hd. apply elem_of_dom in Hd as [nd E]. by destruct (sr_nodes _ _ _ R x nd E).
Qed.

Lemma l1_chain x : x ∈ l1 -> x ∈ chain.
Proof using K. rewrite (ak_chain _ _ _ _ _ _ _ _ _ _ K). set_solver. Qed.

Lemma l2_chain x : x ∈ l2 -> x ∈ chain.
Proof using K. rewrite (ak_chain _ _ _ _ _ _ _ _ _ _ K). set_solver. Qed.

Lemma pred_pos i : 0 < pred_at i.
Proof using K. destruct (pred_in i) as [->|H]; apply node_pos; [by left|]. right. by apply l1_chain. Qed.

Lemma pred_not_behind i x : x ∈ l2 -> pred_at i <> x.
Proof using K.
  pose proof (sr_nodup _ _ _ R) as Hnd. rewrite (ak_chain _ _ _ _ _ _ _ _ _ _ K) in Hnd. apply NoDup_cons in Hnd as [Hh Hnd].
  apply NoDup_app in Hnd as (_ & Hnd & _). intros Hx Ep. destruct (pred_in i) as [E|H].
  - apply Hh. rewrite <- E, Ep. set_solver.
  - apply (Hnd (pred_at i) H). rewrite Ep. set_solver.
Qed.

Lemma pred_not_succ i : pred_at i <> succ_at i.
Proof using K.
  destruct (succ_in i) as [->|H]; [pose proof (pred_pos i) as H; clear -H; lia|]. by apply pred_not_behind.
Qed.

Lemma above_height i : (sk_height s <= i)%nat -> pred_at i = sk_head s /\ succ_at i = 0.
Proof using K.
  intros Hi. pose proof (sr_towers _ _ _ R) as Ht. rewrite (ak_chain _ _ _ _ _ _ _ _ _ _ K) in Ht.
  apply Forall_app in Ht as [H1 Ht]. apply Forall_app in Ht as [_ H2]. unfold pred_at, succ_at.
  assert (forall xs, Forall (fun x => (1 <= length (towers a x) <= sk_height s)%nat) xs -> tall a i xs = []) as Hn.
  { intros xs H. apply (tall_none _ _ _ (sk_height s)); [|done]. eapply Forall_impl; [exact H|]. by intros x [_ ?]. }
  by rewrite (Hn l1 H1), (Hn l2 H2).
Qed.

Lemma findSplice_pred i : (i < maxHeight)%nat -> findSpliceForLevel s key (pred_at (S i)) i = Some (splice_at i).
Proof using K.
  intros Hi. destruct (pred_stands (S i)) as [b Hb]. apply (splice_loop_ok _ _ b); [done..|by apply pred_above|].
  pose proof (stands_length _ _ Hb) as Hl. pose proof chain_length as Hc. pose proof walk_fuel_enough as Hw. clear -Hl Hc Hw. lia.
Qed.

(** The arrays after the search of the levels below [n]. *)
Definition searched (n : nat) (prev next prev' next' : list Z) : Prop :=
  length prev' = length prev /\ length next' = length next /\
  (forall j, (j < n)%nat -> prev' !! j = Some (pred_at j) /\ next' !! j = Some (succ_at j)) /\
  (forall j, (n <= j)%nat -> prev' !! j = prev !! j /\ next' !! j = next !! j).

Lemma search_levels_ok n : forall prev next, (n <= maxHeight)%nat -> length prev = (maxHeight + 1)%nat ->
  length next = (maxHeight + 1)%nat -> prev !! n = Some (pred_at n) ->
  exists found prev' next', search_levels s key n prev next = Some (found, prev', next') /\
    (lm = [] -> found = None /\ searched n prev next prev' next') /\ (forall z, lm = [z] -> (0 < n)%nat -> found = Some z).
Proof using K.
  induction n as [|i IH]; intros prev next Hn Lp Ln Hp; cbn [search_levels].
  { eexists _, _, _. split; [done|]. split; [|intros z _ H; clear -H; lia].
    intros _. split; [done|]. split_and!; [done..| |done]. intros j Hj. clear -Hj. lia. }
  replace (i + 1)%nat with (S i) by (clear; lia). rewrite Hp. cbn [mbind option_bind].
  assert (i < maxHeight)%nat as Hi by (clear -Hn; lia). rewrite (findSplice_pred i Hi). unfold splice_at.
  destruct (tall a i lm) as [|z zs] eqn:Ez; cbn [mbind option_bind].
  2:{ rewrite bool_decide_eq_true_2 by done. eexists _, _, _. split; [done|].
      assert (z ∈ tall a i lm) as [_ Hz]%elem_of_tall by (rewrite Ez; set_solver). split; [intros El; rewrite El in Hz; set_solver|].
      intros z' El _. rewrite El in Hz. apply list_elem_of_singleton in Hz. by rewrite Hz. }
  rewrite bool_decide_eq_false_2 by apply pred_not_succ.
  destruct (IH (<[i := pred_at i]> prev) (<[i := succ_at i]> next)) as (found & prev' & next' & E & H0 & H1);
    rewrite ?length_insert; [clear -Hn; lia|done|done|apply list_lookup_insert_eq; clear -Hi Lp; lia|].
  exists found, prev', next'. split; [done|]. split.
  - intros El. destruct (H0 El) as (-> & L1 & L2 & Hlt & Hge). rewrite !length_insert in *. split; [done|].
    split_and!; [done..| |].
    + intros j Hj. destruct (decide (j = i)) as [Ej|Hne]; [|apply Hlt; clear -Hj Hne; lia].
      rewrite Ej. destruct (Hge i) as [-> ->]; [done|]. rewrite !list_lookup_insert_eq by (clear -Hi Lp Ln; lia). done.
    + intros j Hj. destruct (Hge j) as [-> ->]; [clear -Hj; lia|]. rewrite !list_lookup_insert_ne by (clear -Hj; lia). done.
  - intros z El _. apply (H1 z El). destruct i as [|i]; [|clear; lia]. exfalso.
    destruct part_heights as (_ & Em & _). rewrite El in *. by rewrite Em in Ez.
Qed.
End Search.

(** ** Lemmas: linking a node *)

(** What a store into a tower leaves as it is. *)
Definition nd_data (nd : node) : Z * Z * Z * nat := (nd_value nd, nd_keyOffset nd, nd_keySize nd, length (nd_tower nd)).

Definition same_data (a a' : Arena) : Prop :=
  ar_n a' = ar_n a /\ ar_buf a' = ar_buf a /\ nd_data <$> ar_nodes a' = nd_data <$> ar_nodes a.

Lemma same_data_trans a b c : same_data a b -> same_data b c -> same_data a c.
Proof. intros (? & ? & ?) (? & ? & ?). unfold same_data. by split_and!; etransitivity. Qed.

Lemma same_data_node a a' x nd : same_data a a' -> ar_nodes a' !! x = Some nd ->
  exists nd0, ar_nodes a !! x = Some nd0 /\ nd_data nd0 = nd_data nd.
Proof.
  intros (_ & _ & E) Hx. assert ((nd_data <$> ar_nodes a') !! x = Some (nd_data nd)) as H by (by rewrite lookup_fmap, Hx).
  rewrite E, lookup_fmap in H. by apply fmap_Some in H as (nd0 & ? & ->); exists nd0.
Qed.

Lemma same_data_sym a a' : same_data a a' -> same_data a' a.
Proof. intros (? & ? & ?). by split_and!. Qed.

Lemma same_data_towers a a' x : same_data a a' -> length (towers a' x) = length (towers a x).
Proof.
  intros (_ & _ & E). assert ((nd_data <$> ar_nodes a') !! x = (nd_data <$> ar_nodes a) !! x) as H by (by rewrite E).
  rewrite !lookup_fmap in H. unfold towers. destruct (ar_nodes a' !! x), (ar_nodes a !! x); cbn in H; try done. by injection H.
Qed.

Lemma same_data_tall a a' i xs : same_data a a' -> tall a' i xs = tall a i xs.
Proof. intros H. apply tall_ext. intros x _. by apply same_data_towers. Qed.

Lemma same_data_shows a a' x e : same_data a a' -> shows a x e -> shows a' x e.
Proof.
  intros H (nd & E & Hs). destruct (same_data_node a' a x nd (same_data_sym _ _ H) E) as (nd' & E' & Ed).
  destruct H as (En & Eb & _). exists nd'. split; [done|]. injection Ed as E1 E2 E3 _.
  apply (node_shows_same a' nd); [done|]. unfold node_shows, region in *. by rewrite En, Eb.
Qed.

Lemma storeNext_ok a x h w : (h < length (towers a x))%nat ->
  exists a', storeNext a x h w = Some a' /\ same_data a a' /\
    (forall y j, nextp a' y j = if bool_decide (y = x /\ j = h) then Some w else nextp a y j).
Proof.
  unfold towers, storeNext. intros Hh. destruct (ar_nodes a !! x) as [nd|] eqn:E; [|cbn in Hh; lia]. cbn [mbind option_bind].
  destruct (lookup_lt_is_Some_2 _ _ Hh) as [w0 ->]. cbn [mbind option_bind]. eexists. split; [done|]. split.
  - split_and!; [done..|]. cbn. rewrite fmap_insert. unfold nd_data at 1. cbn. rewrite length_insert.
    apply insert_id. by rewrite lookup_fmap, E.
  - intros y j. unfold nextp. cbn. destruct (decide (y = x)) as [->|Hy].
    + rewrite lookup_insert_eq. cbn [mbind option_bind nd_tower]. rewrite E. cbn [mbind option_bind].
      destruct (decide (j = h)) as [->|Hj].
      * rewrite bool_decide_eq_true_2 by done. by apply list_lookup_insert_eq.
      * rewrite bool_decide_eq_false_2 by (by intros []). by rewrite list_lookup_insert_ne by lia.
    + rewrite lookup_insert_ne by done. by rewrite bool_decide_eq_false_2 by (by intros []).
Qed.

Section Link.
Context (s0 : Skiplist) (chain : list Z) (es : list kv) (key : bytes) (l1 l2 : list Z) (e1 e2 : list kv).
Context (K : at_key s0 chain es key l1 [] l2 e1 [] e2) (v : ValueStruct).
Context (a1 : Arena) (x : Z) (nd : node) (h H : nat).
Context (Hle : arena_le (sk_arena s0) a1) (Hok : arena_ok a1) (Hx : ar_n (sk_arena s0) <= x < ar_n a1) (H8 : x mod 8 = 0).
Context (Hnodes : ar_nodes a1 = <[x := nd]> (ar_nodes (sk_arena s0))) (Htower : nd_tower nd = replicate h 0).
Context (Hshows : node_shows a1 nd (key, decoded v)) (Hh : (1 <= h <= maxHeight)%nat) (HH : H = (sk_height s0 `max` h)%nat).
Notation a := (sk_arena s0).
Notation R := (ak_rep s0 chain es key l1 [] l2 e1 [] e2 K).
Notation pred_at := (pred_at s0 l1).
Notation succ_at := (succ_at s0 l2).

Lemma link_chain : chain = l1 ++ l2.
Proof using K. exact (ak_chain _ _ _ _ _ _ _ _ _ _ K). Qed.

Lemma new_not_old y : y = sk_head s0 \/ y ∈ chain -> y <> x.
Proof using K Hx. intros Hy. pose proof (node_pos _ _ _ _ _ _ _ _ _ _ K y Hy) as Hp. clear -Hp Hx. lia. Qed.

Lemma old_node y : y = sk_head s0 \/ y ∈ chain -> ar_nodes a1 !! y = ar_nodes a !! y.
Proof using K Hx Hnodes. intros Hy. rewrite Hnodes. apply lookup_insert_ne. intros E. by apply (new_not_old y). Qed.

Lemma old_tower y : y = sk_head s0 \/ y ∈ chain -> towers a1 y = towers a y.
Proof using K Hx Hnodes. intros Hy. unfold towers. by rewrite old_node. Qed.

Lemma new_tower : length (towers a1 x) = h.
Proof using Hnodes Htower. unfold towers. rewrite Hnodes, lookup_insert_eq, Htower. apply length_replicate. Qed.

Lemma old_tall i xs : (forall y, y ∈ xs -> y ∈ chain) -> tall a1 i xs = tall a i xs.
Proof using K Hx Hnodes. intros Hxs. apply tall_ext. intros y Hy. rewrite old_tower; [done|]. right. by apply Hxs. Qed.

(** Levels below [i] have the node, the others are as before. *)
Record linking (s : Skiplist) (i : nat) : Prop := {
  lk_data : same_data a1 (sk_arena s);
  lk_head : sk_head s = sk_head s0;
  lk_height : sk_height s = H;
  lk_levels : forall j, (j < maxHeight)%nat -> linked (sk_arena s) j (sk_head s0)
    (tall a j l1 ++ (if bool_decide (j < i)%nat then [x] else []) ++ tall a j l2)
}.

Lemma linking_start s : sk_arena s = a1 -> sk_head s = sk_head s0 -> sk_height s = H -> linking s 0.
Proof using K Hx Hnodes.
  intros Ea Eh EH. split; [by rewrite Ea|done|done|]. intros j Hj. rewrite bool_decide_eq_false_2 by (clear; lia).
  cbn [app]. rewrite <- tall_app, <- link_chain, Ea. apply (linked_ext a).
  - intros y Hy. unfold nextp. rewrite old_node; [done|]. destruct Hy as [->|Hy]; [by left|right]. by apply elem_of_tall in Hy as [_ ?].
  - by apply R.
Qed.

Lemma lk_nodes s i y : linking s i -> y = sk_head s0 \/ y ∈ chain -> length (towers (sk_arena s) y) = length (towers a y).
Proof using K Hx Hnodes. intros L Hy. rewrite (same_data_towers a1); [|apply L]. by rewrite old_tower. Qed.

Lemma lk_new_tower s i : linking s i -> length (towers (sk_arena s) x) = h.
Proof using Hnodes Htower. intros L. rewrite (same_data_towers a1); [apply new_tower|apply L]. Qed.

(** The neighbours at the level to link next. *)
Lemma lk_pred s i : linking s i -> (i < maxHeight)%nat -> nextp (sk_arena s) (pred_at i) i = Some (succ_at i).
Proof using Type.
  intros L Hi. pose proof (lk_levels s i L i Hi) as Hl. rewrite bool_decide_eq_false_2 in Hl by (clear; lia). cbn [app] in Hl.
  by apply linked_last in Hl.
Qed.

Lemma lk_parts s i : linking s i -> NoDup (sk_head s0 :: tall a i l1) /\
  (forall y, y ∈ tall a i l2 -> y ∉ sk_head s0 :: tall a i l1 /\ y <> x) /\ x ∉ sk_head s0 :: tall a i l1.
Proof using All.
  intros _. pose proof (sr_nodup _ _ _ R) as Hnd. rewrite link_chain in Hnd. apply NoDup_cons in Hnd as [Hhd Hnd].
  apply NoDup_app in Hnd as (N1 & Hd & N2). split_and!.
  - apply NoDup_cons. split; [|by apply NoDup_filter]. intros [_ ?]%elem_of_tall. apply Hhd. set_solver.
  - intros y [_ Hy]%elem_of_tall. split; [|apply new_not_old; right; rewrite link_chain; set_solver].
    intros [->|[_ Hy']%elem_of_tall]%elem_of_cons; [apply Hhd; set_solver|by apply (Hd y)].
  - intros [E|[_ E]%elem_of_tall]%elem_of_cons; apply (new_not_old x); [by left|done|right; rewrite link_chain; set_solver|done].
Qed.

(** The two stores of a level. *)
Lemma link_stores s i : linking s i -> (i < h)%nat -> exists a2 s', storeNext (sk_arena s) x i (succ_at i) = Some a2 /\
  casNextOffset (set_arena s a2) (pred_at i) i (succ_at i) x = Some (true, s') /\ linking s' (S i).
Proof using All.
  intros L Hi. assert (i < maxHeight)%nat as Hm by (clear -Hi Hh; lia).
  destruct (storeNext_ok (sk_arena s) x i (succ_at i)) as (a2 & E2 & D2 & N2); [by rewrite (lk_new_tower s i)|].
  exists a2. assert (pred_at i <> x) as Hpx.
  { apply new_not_old. destruct (pred_in s0 l1 i) as [->|Hp]; [by left|right]. rewrite link_chain. set_solver. }
  assert (nextp a2 (pred_at i) i = Some (succ_at i)) as Hcur.
  { rewrite N2, bool_decide_eq_false_2 by (by intros []). by apply lk_pred. }
  destruct (storeNext_ok a2 (pred_at i) i x) as (a3 & E3 & D3 & N3); [by apply (towers_nextp (set_arena s a2) _ _ _ Hcur)|].
  exists (set_arena s a3). split; [done|]. split.
  { unfold casNextOffset. rewrite getNext_eq. cbn [sk_arena set_arena]. rewrite Hcur. cbn [mbind option_bind].
    rewrite bool_decide_eq_true_2 by done. by rewrite E3. }
  split; cbn [sk_arena set_arena sk_head sk_height]; [|apply L..|].
  { eapply same_data_trans; [apply L|]. by eapply same_data_trans. }
  intros j Hj. pose proof (lk_levels s i L j Hj) as Hl. destruct (decide (j = i)) as [->|Hne].
  - rewrite bool_decide_eq_true_2 by (clear; lia). rewrite bool_decide_eq_false_2 in Hl by (clear; lia).
    destruct (lk_parts s i L) as (P1 & P2 & P3). apply (linked_insert (sk_arena s)); try done.
    + intros y Hyx Hyp. rewrite N3, N2, !bool_decide_eq_false_2; [done|by intros []|by intros []].
    + rewrite N3. by rewrite bool_decide_eq_true_2.
    + rewrite N3, N2. rewrite bool_decide_eq_false_2 by (intros [? _]; congruence). by rewrite bool_decide_eq_true_2.
  - rewrite (bool_decide_ext (j < S i)%nat (j < i)%nat) by (clear -Hne; lia).
    apply (linked_ext (sk_arena s)); [|done]. intros y _. rewrite N3, N2, !bool_decide_eq_false_2; [done|by intros []|by intros []].
Qed.

(** A level above the old height is empty. *)
Lemma link_empty s i : linking s i -> (sk_height s0 <= i)%nat -> (i < maxHeight)%nat ->
  findSpliceForLevel s key (sk_head s) i = Some (sk_head s0, 0).
Proof using All.
  intros L Hi Hm. destruct (above_height _ _ _ _ _ _ _ _ _ _ K i Hi) as [Ep Eq].
  pose proof (lk_pred s i L Hm) as Hn. rewrite Ep, Eq in Hn. unfold findSpliceForLevel, walk_fuel.
  rewrite Nat.add_1_r. cbn [splice_loop]. rewrite getNext_eq, (lk_head s i L), Hn. cbn [mbind option_bind].
  by rewrite bool_decide_eq_true_2.
Qed.

Lemma link_loop_ok s i p q fuel : linking s i -> (i < h)%nat -> (0 < fuel)%nat ->
  (p = pred_at i /\ q = succ_at i) \/ (p = 0 /\ (sk_height s0 < i)%nat) ->
  exists s', link_loop fuel s key v x i p q = Some (true, s') /\ linking s' (S i).
Proof using All.
  intros L Hi Hf Hpq. destruct (link_stores s i L Hi) as (a2 & s' & E1 & E2 & L').
  destruct fuel as [|fuel]; [clear -Hf; lia|]. exists s'. split; [|done]. cbn [link_loop].
  pose proof (pred_pos _ _ _ _ _ _ _ _ _ _ K i) as Hpos.
  assert (forall (r : option (Z * Z)), r = Some (pred_at i, succ_at i) ->
    ('(p, q) ← r; a ← storeNext (sk_arena s) x i q; '(ok, s) ← casNextOffset (set_arena s a) p i q x;
     if (ok : bool) then Some (true, s) else '(p, q) ← findSpliceForLevel s key p i;
        if bool_decide (p = q) then
          if bool_decide (i = 0%nat) then a ← nd_setValue (sk_arena s) p v; Some (false, set_arena s a) else None
        else link_loop fuel s key v x i p q) = Some (true, s')) as Hgo.
  { intros r ->. cbn [mbind option_bind]. rewrite E1. cbn [mbind option_bind]. by rewrite E2. }
  apply Hgo. destruct Hpq as [[-> ->]|[-> Hlt]]; [by rewrite bool_decide_eq_false_2 by (clear -Hpos; lia)|].
  rewrite bool_decide_eq_true_2 by done. pose proof (sr_height _ _ _ R) as Hh0.
  rewrite bool_decide_eq_true_2 by (clear -Hlt Hh0; lia).
  destruct (above_height _ _ _ _ _ _ _ _ _ _ K i) as [Ep Eq]; [clear -Hlt; lia|].
  rewrite (link_empty s i L) by (clear -Hlt Hi Hh; lia). cbn [mbind option_bind]. rewrite <- Ep, <- Eq.
  rewrite bool_decide_eq_false_2; [done|]. exact (pred_not_succ _ _ _ _ _ _ _ _ _ _ K i).
Qed.

(** The arrays [prev] and [next] that the search left. *)
Definition arrays (prev next : list Z) : Prop := forall i, (i < maxHeight)%nat -> exists p q, prev !! i = Some p /\ next !! i = Some q /\
  ((p = pred_at i /\ q = succ_at i) \/ (p = 0 /\ (sk_height s0 < i)%nat)).

Lemma link_levels_ok prev next n : forall s i, arrays prev next -> linking s i -> (i + n = h)%nat ->
  exists s', link_levels s key v x i n prev next = Some s' /\ linking s' h.
Proof using All.
  induction n as [|n IH]; intros s i Har L Hn; cbn [link_levels].
  { exists s. split; [done|]. replace h with i by (clear -Hn; lia). done. }
  destruct (Har i) as (p & q & -> & -> & Hpq); [clear -Hn Hh; lia|]. cbn [mbind option_bind].
  destruct (link_loop_ok s i p q (walk_fuel s) L) as (s' & -> & L'); [clear -Hn; lia|unfold walk_fuel; clear; lia|done|].
  cbn [mbind option_bind]. apply IH; [done|by rewrite Nat.add_1_r|clear -Hn; lia].
Qed.

Lemma link_shows s i y e : linking s i -> y ∈ chain -> shows a y e -> shows (sk_arena s) y e.
Proof using All.
  intros L Hy (nd' & E & Hs). apply (same_data_shows a1); [apply L|]. exists nd'.
  rewrite old_node by (by right). split; [done|]. by apply (node_shows_le a); [|apply R|].
Qed.

Lemma linked_entry s i : linking s i -> shows (sk_arena s) x (key, decoded v).
Proof using All. intros L. apply (same_data_shows a1); [apply L|]. exists nd. rewrite Hnodes. split; [apply lookup_insert_eq|done]. Qed.

Lemma linked_tall s j : linking s h ->
  tall (sk_arena s) j (l1 ++ x :: l2) = tall a j l1 ++ (if bool_decide (j < h)%nat then [x] else []) ++ tall a j l2.
Proof using All.
  intros L. assert (forall xs, (forall y, y ∈ xs -> y ∈ chain) -> tall (sk_arena s) j xs = tall a j xs) as Hold.
  { intros xs Hxs. rewrite (same_data_tall a1); [by apply old_tall|apply L]. }
  rewrite tall_app, tall_cons, (lk_new_tower s h L), !Hold; [by case_bool_decide|..]; intros y Hy; rewrite link_chain; set_solver.
Qed.

Lemma linked_sorted (w : ValueStruct) : kvs_sorted (e1 ++ (key, w) :: e2) /\ all_ts (e1 ++ (key, w) :: e2).
Proof using All.
  pose proof (sr_sorted _ _ _ R) as Hs. pose proof (sr_keys _ _ _ R) as Ht. pose proof (ak_split _ _ _ _ _ _ _ _ _ _ K) as Sp.
  pose proof (sp_es _ _ _ _ _ Sp) as Ee. cbn [app] in Ee. rewrite Ee in Hs, Ht. unfold kvs_sorted, all_ts in *.
  pose proof (sp_before _ _ _ _ _ Sp) as Hb. pose proof (sp_behind _ _ _ _ _ Sp) as Hc. rewrite Forall_forall in Hb, Hc.
  apply StronglySorted_app in Hs as (H12 & S1 & S2). apply Forall_app in Ht as [T1 T2]. split.
  - apply StronglySorted_app. split_and!; [|done|].
    + intros y z Hy [->|Hz]%elem_of_cons; [|by apply H12]. apply (cmp_gt_lt compareKeys). by apply Hb.
    + constructor; [done|]. apply Forall_forall. intros z Hz. by apply Hc.
  - apply Forall_app. split; [done|]. constructor; [|done]. exact (ak_key _ _ _ _ _ _ _ _ _ _ K).
Qed.

Lemma linking_rep s : linking s h -> skl_rep s (l1 ++ x :: l2) (e1 ++ (key, decoded v) :: e2).
Proof using All.
  intros L. pose proof (lk_data s h L) as (En & Eb & _). pose proof (sr_height _ _ _ R) as Hh0.
  pose proof link_chain as Ec. pose proof (sr_nodup _ _ _ R) as Hnd. destruct (linked_sorted (decoded v)) as [Hs Ht].
  split; [..|exact Ht|exact Hs].
  - unfold arena_ok. rewrite En, Eb. exact Hok.
  - intros y nd' Hy. rewrite En. destruct (same_data_node _ _ y nd' (lk_data s h L) Hy) as (nd0 & Hy0 & _).
    rewrite Hnodes in Hy0. destruct (decide (y = x)) as [->|Hne].
    { split; [|done]. pose proof (sr_arena _ _ _ R) as [Ha _]. clear -Ha Hx. lia. }
    rewrite lookup_insert_ne in Hy0 by done. destruct (sr_nodes _ _ _ R y nd0 Hy0) as [Hp H8']. split; [clear -Hp Hx; lia|done].
  - rewrite (lk_head s h L), (lk_nodes s h _ L); [apply R|by left].
  - rewrite (lk_head s h L). rewrite Ec in Hnd. apply (NoDup_Permutation_proper _ (x :: sk_head s0 :: l1 ++ l2)).
    { rewrite <- Permutation_middle. apply perm_swap. }
    apply NoDup_cons. split; [|done]. rewrite <- Ec. intros [E|E]%elem_of_cons; apply (new_not_old x); auto.
  - pose proof (ak_before _ _ _ _ _ _ _ _ _ _ K) as F1. pose proof (ak_behind _ _ _ _ _ _ _ _ _ _ K) as F2.
    assert (forall xs k, (forall y, y ∈ xs -> y ∈ chain) -> Forall2 (shows a) xs k -> Forall2 (shows (sk_arena s)) xs k) as Hold.
    { intros xs k Hxs F. apply (Forall2_impl_elem (shows a)); [|done]. intros y e Hy. apply (link_shows s h); auto. }
    apply Forall2_app; [apply Hold; [|done]; intros y Hy; rewrite Ec; set_solver|]. constructor; [by apply (linked_entry s h)|].
    apply Hold; [|done]. intros y Hy. rewrite Ec. set_solver.
  - rewrite (lk_height s h L). pose proof (sr_towers _ _ _ R) as Ht0. rewrite Ec in Ht0. rewrite Forall_forall in Ht0.
    apply Forall_forall. intros y Hy. destruct (decide (y = x)) as [->|Hne].
    + rewrite (lk_new_tower s h L). clear -Hh HH. lia.
    + assert (y ∈ l1 ++ l2) as Hy' by set_solver. rewrite (lk_nodes s h y L) by (right; by rewrite Ec).
      specialize (Ht0 y Hy'). clear -Ht0 HH. lia.
  - rewrite (lk_height s h L). clear -Hh HH Hh0. lia.
  - intros j Hj. rewrite (lk_head s h L), linked_tall by done. by apply L.
Qed.
End Link.

(** ** Lemmas: [Put] *)

Lemma at_key_found s chain es key l1 z l2 e1 em e2 : at_key s chain es key l1 [z] l2 e1 em e2 ->
  exists w, em = [(key, w)] /\ shows (sk_arena s) z (key, w).
Proof.
  intros K. pose proof (ak_at _ _ _ _ _ _ _ _ _ _ K) as F. destruct (sp_at _ _ _ _ _ (ak_split _ _ _ _ _ _ _ _ _ _ K)) as [->|(e & -> & Ek)];
    [by apply Forall2_nil_inv_r in F|]. apply Forall2_cons_inv_r in F as (z' & l' & Hz & _ & [= -> _]).
  destruct e as [k w]. cbn in Ek. subst k. by exists w.
Qed.

(** A new value for a node that is there. *)
Lemma set_value_rep s chain es key l1 z l2 e1 em e2 v : at_key s chain es key l1 [z] l2 e1 em e2 -> is_u64 (ExpiresAt v) ->
  ar_n (sk_arena s) + len (EncodeTo v) <= len (ar_buf (sk_arena s)) ->
  exists a, nd_setValue (sk_arena s) z v = Some a /\ ar_n a = ar_n (sk_arena s) + len (EncodeTo v) /\
    len (ar_buf a) = len (ar_buf (sk_arena s)) /\ skl_rep (set_arena s a) chain (e1 ++ (key, decoded v) :: e2).
Proof.
  intros K Hv Hr. pose proof (ak_rep _ _ _ _ _ _ _ _ _ _ K) as R. destruct (at_key_found _ _ _ _ _ _ _ _ _ _ K) as (w & Em & nd & Ez & Hnd).
  destruct (setValue_ok (sk_arena s) z nd key v w) as (a & nd' & E & L & O & N & D & T & S'); [apply R|done..|].
  exists a. split; [done|]. split; [done|]. split; [by destruct L|].
  pose proof (ak_chain _ _ _ _ _ _ _ _ _ _ K) as Ec. pose proof (sr_nodup _ _ _ R) as Hnd'. pose proof (sp_es _ _ _ _ _ (ak_split _ _ _ _ _ _ _ _ _ _ K)) as Ee.
  assert (forall y, towers a y = towers (sk_arena s) y) as Ht.
  { intros y. unfold towers. rewrite D. destruct (decide (y = z)) as [->|Hne]; [by rewrite lookup_insert_eq, Ez|].
    by rewrite lookup_insert_ne. }
  assert (forall y i, nextp a y i = nextp (sk_arena s) y i) as Hnx.
  { intros y i. unfold nextp. rewrite D. destruct (decide (y = z)) as [->|Hne]; [rewrite lookup_insert_eq, Ez; cbn; by rewrite T|].
    by rewrite lookup_insert_ne. }
  assert (forall i xs, tall a i xs = tall (sk_arena s) i xs) as Htl by (intros; apply tall_ext; intros; by rewrite Ht).
  split; cbn [sk_arena set_arena sk_head sk_height]; try apply R.
  - done.
  - intros y nd0 Hy. rewrite D in Hy. destruct (decide (y = z)) as [->|Hne].
    + destruct (sr_nodes _ _ _ R z nd Ez). split; [|done]. pose proof (len_nonneg (EncodeTo v)). lia.
    + rewrite lookup_insert_ne in Hy by done. destruct (sr_nodes _ _ _ R y nd0 Hy). split; [|done]. pose proof (len_nonneg (EncodeTo v)). lia.
  - rewrite Ht. apply R.
  - assert (forall xs k, z ∉ xs -> Forall2 (shows (sk_arena s)) xs k -> Forall2 (shows a) xs k) as Hold.
    { intros xs k Hxs. apply Forall2_impl_elem. intros y e Hy (ndy & Ey & Sy). exists ndy.
      rewrite D, lookup_insert_ne by (intros ->; done). split; [done|]. apply (node_shows_le (sk_arena s)); [done|apply R|done]. }
    rewrite Ec in Hnd' |- *. apply NoDup_cons in Hnd' as [_ Hn]. apply NoDup_app in Hn as (_ & Hd & Hn). apply NoDup_cons in Hn as [Hz _].
    apply Forall2_app; [apply Hold; [|apply K]; intros ?; by apply (Hd z); [done|set_solver]|].
    constructor; [|by apply Hold; [|apply K]]. exists nd'. rewrite D. split; [apply lookup_insert_eq|done].
  - eapply Forall_impl; [exact (sr_towers _ _ _ R)|]. cbn. intros y. by rewrite Ht.
  - intros i Hi. rewrite Htl. apply (linked_ext (sk_arena s)); [intros; apply Hnx|]. by apply R.
  - pose proof (sr_keys _ _ _ R) as H. rewrite Ee, Em in H. unfold all_ts in *. rewrite !Forall_app, !Forall_cons in *. cbn in *. tauto.
  - pose proof (sr_sorted _ _ _ R) as H. rewrite Ee, Em in H. unfold kvs_sorted in *. cbn [app] in *.
    apply StronglySorted_app in H as (H1 & H2 & H3). apply StronglySorted_app. split_and!; [|done|].
    + intros x y Hx [->|Hy]%elem_of_cons; [apply (H1 x (key, w) Hx); set_solver|]. apply H1; [done|set_solver].
    + apply StronglySorted_inv in H3 as [H3 H4]. by constructor.
Qed.

Lemma height_loop_range fuel draws : forall h, (h <= height_loop fuel h draws <= h + fuel)%nat.
Proof.
  induction fuel as [|fuel IH]; intros h; cbn [height_loop]; [lia|]. case_bool_decide; [|lia]. specialize (IH (h + 1)%nat). lia.
Qed.

Lemma randomHeight_range draws : (1 <= randomHeight draws <= maxHeight)%nat.
Proof. unfold randomHeight, maxHeight. pose proof (height_loop_range (20 - 1) draws 1). lia. Qed.

(** The largest space a node with its key and value takes. *)
Definition put_size (key : bytes) (v : ValueStruct) : Z := MaxNodeSize + nodeAlign + len key + len (EncodeTo v).

Lemma node_size_max h : (h <= maxHeight)%nat -> node_size h <= MaxNodeSize + nodeAlign.
Proof. unfold node_size, maxHeight, MaxNodeSize, offsetSize, nodeAlign. lia. Qed.

Lemma Put_rep s chain es key v draws : skl_rep s chain es -> has_ts key -> len key < 2 ^ 16 -> is_u64 (ExpiresAt v) ->
  MemSize s + put_size key v <= len (ar_buf (sk_arena s)) ->
  exists s' chain', Put s key v draws = Some s' /\ skl_rep s' chain' (sl_put es key v) /\
    len (ar_buf (sk_arena s')) = len (ar_buf (sk_arena s)) /\ MemSize s <= MemSize s' <= MemSize s + put_size key v.
Proof.
  intros R Hk Hk' Hv Hr. destruct (at_key_exists s chain es key R Hk) as (l1 & lm & l2 & e1 & em & e2 & K).
  pose proof (randomHeight_range draws) as Hd. set (h := randomHeight draws) in *.
  pose proof (node_size_max h ltac:(lia)) as Hns. unfold put_size, MemSize, ar_size in *. pose proof (len_nonneg key) as Hlk.
  rewrite (sl_put_split key v es e1 em e2) by apply K. pose proof (sr_height _ _ _ R) as Hh.
  destruct (search_levels_ok _ _ _ _ _ _ _ _ _ _ K (sk_height s) (<[sk_height s := sk_head s]> (replicate (maxHeight + 1) 0))
    (replicate (maxHeight + 1) 0)) as (found & prev & next & E & Hnone & Hsome); [lia|by rewrite length_insert, length_replicate|
    by rewrite length_replicate| |].
  { destruct (above_height _ _ _ _ _ _ _ _ _ _ K (sk_height s)) as [-> _]; [done|]. apply list_lookup_insert_eq. rewrite length_replicate. lia. }
  unfold Put. rewrite E. cbn [mbind option_bind]. destruct (at_key_cases _ _ _ _ _ _ _ _ _ _ K) as [El|(z & El & _)]; rewrite El in K.
  - destruct (Hnone El) as (-> & Lp & Ln & Hlt & Hge).
    assert (em = []) as Eem. { pose proof (ak_at _ _ _ _ _ _ _ _ _ _ K) as F. by apply Forall2_nil_inv_l in F. } rewrite Eem in K.
    fold h. destruct (newNode_ok (sk_arena s) key v h) as (a1 & x & nd & E1 & L1 & O1 & Hx & H8 & N1 & D1 & T1 & S1);
      [apply R|lia|done|done|lia|]. rewrite E1. cbn [mbind option_bind].
    set (s1 := raise_height (set_arena s a1) h).
    assert (sk_arena s1 = a1 /\ sk_head s1 = sk_head s /\ sk_height s1 = (sk_height s `max` h)%nat) as (Ea & Eh & EH).
    { unfold s1, raise_height. case_bool_decide as Hc; cbn [sk_height set_arena sk_arena sk_head] in *; split_and!; try done; lia. }
    pose proof (linking_start s chain es key l1 l2 e1 e2 K a1 x nd _ Hx D1 s1 Ea Eh EH) as L0.
    destruct (link_levels_ok s chain es key l1 l2 e1 e2 K v a1 x nd h _ L1 O1 Hx H8 D1 T1 S1 Hd eq_refl prev next h s1 0) as (s' & E' & L'); [|done|done|].
    { intros i Hi. destruct (decide (i < sk_height s)%nat) as [Hl|Hl].
      - destruct (Hlt i Hl) as [-> ->]. eexists _, _. split; [done|]. split; [done|]. by left.
      - destruct (Hge i) as [-> ->]; [lia|]. destruct (above_height _ _ _ _ _ _ _ _ _ _ K i) as [Ep Es]; [lia|].
        rewrite lookup_replicate_2 by lia. destruct (decide (i = sk_height s)) as [->|Hne].
        + rewrite list_lookup_insert_eq by (rewrite length_replicate; lia). eexists _, _. split_and!; [done..|left]. by rewrite Ep, Es.
        + rewrite list_lookup_insert_ne, lookup_replicate_2 by lia. eexists _, _. split_and!; [done..|right]. split; [done|lia]. }
    rewrite E'. exists s', (l1 ++ x :: l2). split; [done|].
    split; [exact (linking_rep s chain es key l1 l2 e1 e2 K v a1 x nd h _ L1 O1 Hx H8 D1 T1 S1 Hd eq_refl s' L')|].
    destruct (lk_data _ _ _ _ _ _ _ _ L') as (-> & -> & _). split; [apply L1|]. rewrite N1. pose proof (len_nonneg (EncodeTo v)).
    assert (0 <= node_size h) by (unfold node_size, MaxNodeSize, maxHeight, offsetSize, nodeAlign; lia). lia.
  - rewrite (Hsome z El) by lia. destruct (set_value_rep _ _ _ _ _ _ _ _ _ _ v K Hv) as (a & E1 & N1 & B1 & R1).
    { unfold MaxNodeSize, nodeAlign in Hr. lia. }
    rewrite E1. cbn [mbind option_bind]. exists (set_arena s a), chain. split; [done|]. split; [done|]. cbn [sk_arena set_arena].
    split; [done|]. rewrite N1. pose proof (len_nonneg (EncodeTo v)). unfold MaxNodeSize, nodeAlign. lia.
Qed.

Lemma NewSkiplist_rep arenaSize : 112 <= arenaSize < 2 ^ 32 ->
  exists s, NewSkiplist arenaSize = Some s /\ skl_rep s [] [] /\ len (ar_buf (sk_arena s)) = arenaSize /\ MemSize s = 107.
Proof.
  intros Hn. assert (len (ar_buf (newArena arenaSize)) = arenaSize) as El by (cbn; unfold len; rewrite length_replicate; lia).
  destruct (newNode_ok (newArena arenaSize) [] vs_zero maxHeight) as (a & x & nd & E & L & O & Hx & H8 & N & D & T & _).
  - split; [|lia]. rewrite El. cbn. lia.
  - done.
  - done.
  - done.
  - rewrite El. change (1 + node_size maxHeight + 0 + len (EncodeTo vs_zero) <= arenaSize).
    replace (len (EncodeTo vs_zero)) with 3 by (by vm_compute). change (node_size maxHeight) with 103. lia.
  - unfold NewSkiplist. rewrite E. cbn [mbind option_bind]. eexists. split; [done|]. cbn in D.
    assert (towers a x = replicate maxHeight 0) as Et by (unfold towers; by rewrite D, lookup_insert_eq).
    split; [|unfold MemSize, ar_size; cbn [sk_arena]; rewrite N; split; [rewrite <- El; apply L|by vm_compute]].
    split; cbn [sk_arena sk_head sk_height].
    + done.
    + intros y ndy Hy. rewrite D in Hy. apply lookup_insert_Some in Hy as [[<- _]|[_ Hy]]; [|done]. cbn in Hx. split; [lia|done].
    + by rewrite Et, length_replicate.
    + apply NoDup_singleton.
    + constructor.
    + constructor.
    + unfold maxHeight. lia.
    + intros i Hi. cbn. unfold nextp. rewrite D, lookup_insert_eq. cbn [mbind option_bind]. rewrite T. by apply lookup_replicate_2.
    + constructor.
    + constructor.
Qed.

(** ** Lemmas: lookups and iterators *)

(** A list that represents [es], at one of its nodes. *)
Lemma at_key_elem s chain es c0 x c2 e0 e e2 : skl_rep s chain es -> chain = c0 ++ x :: c2 -> es = e0 ++ e :: e2 ->
  Forall2 (shows (sk_arena s)) c0 e0 -> Forall2 (shows (sk_arena s)) (x :: c2) (e :: e2) ->
  at_key s chain es e.1 c0 [x] c2 e0 [e] e2.
Proof.
  intros R Ec Ee F0 F. pose proof (sr_sorted _ _ _ R) as Hs. pose proof (sr_keys _ _ _ R) as Ht. unfold kvs_sorted, all_ts in *.
  rewrite Ee in Hs, Ht. apply StronglySorted_app in Hs as (H1 & _ & H2). apply StronglySorted_inv in H2 as [_ H2].
  apply Forall_app in Ht as [_ Ht]. apply Forall_cons in Ht as [Ht _]. apply Forall2_cons in F as [Fx F].
  split; [done..| |done|done|by constructor|done].
  split; [done| |right; by exists e|done]. apply Forall_forall. intros y Hy. apply (cmp_gt_lt compareKeys). apply H1; [done|set_solver].
Qed.

Lemma shows_hd s chain es c e : skl_rep s chain es -> Forall2 (shows (sk_arena s)) c e -> (forall x, x ∈ c -> x ∈ chain) ->
  match e with
  | [] => hd 0 c = 0
  | y :: _ => hd 0 c <> 0 /\ nd_key (sk_arena s) (hd 0 c) = Some y.1 /\ nd_getVal (sk_arena s) (hd 0 c) = Some y.2
  end.
Proof.
  intros R F Hc. destruct F as [|x y c e Hxy _]; [done|]. cbn [hd]. split_and!.
  - destruct Hxy as (nd & E & _). destruct (sr_nodes _ _ _ R x nd E). lia.
  - by apply shows_key; [apply R|].
  - by apply shows_val; [apply R|].
Qed.

Lemma run_seek_split key es e1 em e2 : split_run key es e1 em e2 -> run_seek es key = head (em ++ e2).
Proof.
  intros [-> H1 H2 H3]. induction H1 as [|x e1 Hx _ IH]; cbn [app run_seek].
  - destruct H2 as [->|(x & -> & Ex)]; cbn [app head run_seek].
    + destruct H3 as [|y e2 Hy _]; [done|]. cbn [run_seek head]. apply (cmp_gt_lt compareKeys) in Hy. by rewrite Hy.
    + rewrite bool_decide_eq_false_2; [done|]. rewrite Ex. apply (cmp_lt_irrefl compareKeys).
  - rewrite bool_decide_eq_true_2; [done|]. by apply (cmp_gt_lt compareKeys).
Qed.

Lemma Get_ok s chain es key : skl_rep s chain es -> has_ts key -> Get s key = Some (sl_Get es key).
Proof.
  intros R Hk. destruct (at_key_exists s chain es key R Hk) as (l1 & lm & l2 & e1 & em & e2 & K).
  unfold Get, findNear, sl_Get. rewrite (findNear_ok _ _ _ _ _ _ _ _ _ _ K) by (pose proof (walk_fuel_enough _ _ _ _ _ _ _ _ _ _ K); lia).
  unfold near_found, near_ptr. cbn [mbind option_bind]. rewrite (run_seek_split key es e1 em e2) by apply K.
  pose proof (shows_hd s chain es (lm ++ l2) (em ++ e2) R) as Hhd. destruct (em ++ e2) as [|[k w] rest] eqn:Ee; cbn [head].
  - rewrite Hhd; [done|..].
    + rewrite <- Ee. apply Forall2_app; apply K.
    + intros x Hx. rewrite (ak_chain _ _ _ _ _ _ _ _ _ _ K). set_solver.
  - destruct Hhd as (Hne & Ek & Ev).
    + rewrite <- Ee. apply Forall2_app; apply K.
    + intros x Hx. rewrite (ak_chain _ _ _ _ _ _ _ _ _ _ K). set_solver.
    + rewrite bool_decide_eq_false_2 by done. rewrite Ek. cbn [mbind option_bind fst].
      destruct (SameKey key k); cbn [negb]; [|done]. by rewrite Ev.
Qed.

Lemma last_loop_ok s chain es fuel : skl_rep s chain es -> forall x b i,
  (x = sk_head s /\ b = chain) \/ (exists b0, chain = b0 ++ x :: b) -> (i < maxHeight)%nat ->
  (i < length (towers (sk_arena s) x))%nat -> (length b + i < fuel)%nat -> last_loop fuel s x i = Some (last_or 0 chain).
Proof.
  intros R. induction fuel as [|fuel IH]; intros x b i Hx Hi Ht Hf; [lia|]. cbn [last_loop]. rewrite getNext_eq.
  assert (linked (sk_arena s) i x (tall (sk_arena s) i b)) as L.
  { pose proof (sr_levels _ _ _ R i Hi) as L. destruct Hx as [[-> ->]|[b0 E]]; [done|]. rewrite E, tall_app, tall_cons in L.
    rewrite bool_decide_eq_true_2 in L by done. by apply linked_app in L. }
  rewrite (linked_next _ _ _ _ L). cbn [mbind option_bind].
  destruct (tall (sk_arena s) i b) as [|y ys] eqn:E; cbn [hd].
  - rewrite bool_decide_eq_false_2 by (by intros H). destruct i as [|i]; [|by apply (IH x b); [done|lia..]].
    assert (b = []) as ->.
    { rewrite tall_all in E; [done|]. pose proof (sr_towers _ _ _ R) as Hh. rewrite Forall_forall in Hh. apply Forall_forall.
      intros y Hy. apply Hh. destruct Hx as [[_ <-]|[b0 ->]]; set_solver. }
    pose proof (sr_nodup _ _ _ R) as Hnd. apply NoDup_cons in Hnd as [Hnd _]. destruct Hx as [[-> <-]|[b0 Ec]].
    + by rewrite bool_decide_eq_true_2.
    + rewrite Ec, last_or_mid. rewrite bool_decide_eq_false_2; [done|]. intros Ex. apply Hnd. rewrite Ec, <- Ex. set_solver.
  - destruct (tall_split _ _ _ _ _ E) as (b1 & b2 & -> & _ & _).
    assert (y ∈ tall (sk_arena s) i (b1 ++ y :: b2)) as [Hyt Hyb]%elem_of_tall by (rewrite E; set_solver).
    assert (y ∈ chain) as Hyc by (destruct Hx as [[_ <-]|[b0 ->]]; set_solver).
    destruct (Forall2_elem_l _ _ _ y (sr_shows _ _ _ R) Hyc) as (ey & _ & ndy & Eny & _). destruct (sr_nodes _ _ _ R y ndy Eny).
    rewrite bool_decide_eq_true_2 by lia. apply (IH y b2); [|done|done|rewrite length_app in Hf; cbn in Hf; lia].
    right. destruct Hx as [[_ <-]|[b0 ->]]; [by exists b1|]. exists (b0 ++ x :: b1). by rewrite <- app_assoc.
Qed.

Lemma findLast_ok s chain es : skl_rep s chain es -> findLast s = Some (last_or 0 chain).
Proof.
  intros R. pose proof (sr_height _ _ _ R) as Hh. destruct (at_key_exists s chain es (KeyWithTs [] 0) R (KeyWithTs_has_ts _ _))
    as (l1 & lm & l2 & e1 & em & e2 & K). pose proof (walk_fuel_enough _ _ _ _ _ _ _ _ _ _ K).
  apply (last_loop_ok s chain es _ R _ chain); [by left|lia|rewrite (sr_head _ _ _ R); lia|lia].
Qed.

Lemma skl_rep_ref s chain es n : skl_rep s chain es -> skl_rep (mkSkl (sk_height s) (sk_head s) n (sk_arena s)) chain es.
Proof. intros []. by split. Qed.

Lemma run_from_stop rev key l : (forall x, x ∈ l -> dcmp rev x.1 key <> Lt) -> run_from rev key l = l.
Proof. destruct l as [|x l]; [done|]. intros H. cbn. rewrite bool_decide_eq_false_2; [done|]. apply H. by left. Qed.

Lemma run_from_key rev key run e1 em e2 : split_run key run e1 em e2 ->
  run_from rev key (dir rev run) = if rev then reverse (e1 ++ em) else em ++ e2.
Proof.
  intros [-> H1 H2 H3]. rewrite Forall_forall in H1, H3.
  assert (forall x, x ∈ em -> compareKeys x.1 key = Eq /\ compareKeys key x.1 = Eq) as Hm.
  { destruct H2 as [->|(x & -> & Ex)]; [set_solver|]. intros y ->%list_elem_of_singleton. rewrite Ex. split; apply (cmp_refl compareKeys). }
  assert (forall x, x ∈ e1 -> compareKeys x.1 key = Lt) as Hb by (intros x Hx; by apply (cmp_gt_lt compareKeys), H1).
  assert (forall x, x ∈ e2 -> compareKeys x.1 key = Gt) as Hc by (intros x Hx; by apply (cmp_gt_lt compareKeys), H3).
  unfold dir, dcmp in *. destruct rev.
  - rewrite app_assoc, reverse_app, run_from_lt by (intros x Hx; rewrite elem_of_reverse in Hx; by apply H3).
    apply run_from_stop. cbn. intros x Hx. rewrite elem_of_reverse, elem_of_app in Hx. destruct Hx as [Hx|Hx]; [by rewrite H1|by destruct (Hm x Hx) as [_ ->]].
  - rewrite run_from_lt by done. apply run_from_stop. cbn. intros x [Hx|Hx]%elem_of_app; [by destruct (Hm x Hx) as [-> _]|by rewrite Hc].
Qed.

Section UniLaws.
Context {rev : bool} {sk : bytes -> Prop}.

(** The iterator ranges over the run of its list. *)
Definition ui_over (u : UniIterator) (es : list kv) : Prop :=
  ui_reversed u = rev /\ exists chain run, skl_rep (si_list (ui_iter u)) chain run /\ es = dir rev run.

(** The nodes behind and ahead; [l] is what is left in the direction of travel. *)
Record ui_pos (u : UniIterator) (run l : list kv) (chain c1 c2 : list Z) (e1 e2 : list kv) : Prop := {
  up_rep : skl_rep (si_list (ui_iter u)) chain run;
  up_chain : chain = c1 ++ c2;
  up_run : run = e1 ++ e2;
  up_behind : Forall2 (shows (sk_arena (si_list (ui_iter u)))) c1 e1;
  up_ahead : Forall2 (shows (sk_arena (si_list (ui_iter u)))) c2 e2;
  up_node : si_n (ui_iter u) = if rev then last_or 0 c1 else hd 0 c2;
  up_left : l = if rev then reverse e1 else e2
}.

Definition ui_at (u : UniIterator) (es l : list kv) : Prop :=
  ui_reversed u = rev /\ exists chain run c1 c2 e1 e2, ui_pos u run l chain c1 c2 e1 e2 /\ es = dir rev run.

Lemma ui_at_over u es l : ui_at u es l -> ui_over u es.
Proof. intros (E & chain & run & c1 & c2 & e1 & e2 & P & ->). split; [done|]. exists chain, run. split; [apply P|done]. Qed.

Lemma ui_over_ok u es : ui_over u es -> run_sorted rev es /\ all_ts es.
Proof.
  intros (_ & chain & run & R & ->). split; [apply dir_sorted, R|]. pose proof (sr_keys _ _ _ R) as H. unfold all_ts in *.
  rewrite Forall_forall in *. intros x Hx. apply H. by apply dir_elem in Hx.
Qed.

Lemma ui_suffix u es l : ui_at u es l -> exists pre, es = pre ++ l.
Proof.
  intros (_ & chain & run & c1 & c2 & e1 & e2 & P & ->). rewrite (up_run _ _ _ _ _ _ _ _ P), (up_left _ _ _ _ _ _ _ _ P). unfold dir.
  destruct rev; [|by exists e1]. exists (reverse e2). apply reverse_app.
Qed.

(** Moving to another place of the same list. *)
Lemma ui_move u es (r : option Iterator) l chain run c1 c2 e1 e2 : ui_reversed u = rev -> es = dir rev run ->
  r = Some (si_to (ui_iter u) (if rev then last_or 0 c1 else hd 0 c2)) -> skl_rep (si_list (ui_iter u)) chain run ->
  chain = c1 ++ c2 -> run = e1 ++ e2 -> Forall2 (shows (sk_arena (si_list (ui_iter u)))) c1 e1 ->
  Forall2 (shows (sk_arena (si_list (ui_iter u)))) c2 e2 -> l = (if rev then reverse e1 else e2) ->
  exists u', ui_set u r = Some u' /\ ui_at u' es l.
Proof.
  intros Er Ees -> R Ec Ee F1 F2 El. eexists. split; [done|]. split; [done|]. exists chain, run, c1, c2, e1, e2. by split.
Qed.

Lemma ui_rewinds u es : ui_over u es -> exists u', ui_Rewind u = Some u' /\ ui_at u' es es.
Proof.
  intros (Er & chain & run & R & Ees). pose proof (sr_shows _ _ _ R) as F. unfold ui_Rewind.
  apply (ui_move u es _ es chain run (if rev then chain else []) (if rev then [] else chain) (if rev then run else []) (if rev then [] else run));
    try done; rewrite ?Er, ?Ees; destruct rev; cbn [negb]; rewrite ?app_nil_r; try done; try constructor.
  - unfold SeekToLast. by rewrite (findLast_ok _ _ _ R).
  - unfold SeekToFirst. rewrite getNext_eq.
    destruct (at_key_exists _ chain run (KeyWithTs [] 0) R (KeyWithTs_has_ts _ _)) as (l1 & lm & l2 & e1 & em & e2 & K).
    by rewrite (linked_next _ _ _ _ (base_linked _ _ _ _ _ _ _ _ _ _ K)).
Qed.

Lemma ui_seeks u es key : ui_over u es -> has_ts key ->
  exists u', ui_Seek u key = Some u' /\ ui_at u' es (run_from rev key es).
Proof.
  intros (Er & chain & run & R & Ees) Hk. destruct (at_key_exists _ chain run key R Hk) as (l1 & lm & l2 & e1 & em & e2 & K).
  pose proof (run_from_key rev key run e1 em e2 (ak_split _ _ _ _ _ _ _ _ _ _ K)) as Hf.
  pose proof (walk_fuel_enough _ _ _ _ _ _ _ _ _ _ K) as Hw. pose proof (ak_chain _ _ _ _ _ _ _ _ _ _ K) as Ec.
  pose proof (sp_es _ _ _ _ _ (ak_split _ _ _ _ _ _ _ _ _ _ K)) as Ee.
  pose proof (ak_before _ _ _ _ _ _ _ _ _ _ K) as F1. pose proof (ak_at _ _ _ _ _ _ _ _ _ _ K) as Fm.
  pose proof (ak_behind _ _ _ _ _ _ _ _ _ _ K) as F2. rewrite Ees, Hf. unfold ui_Seek.
  apply (ui_move u _ _ _ chain run (if rev then l1 ++ lm else l1) (if rev then l2 else lm ++ l2)
    (if rev then e1 ++ em else e1) (if rev then e2 else em ++ e2)); try done; rewrite ?Er; destruct rev; cbn [negb];
    rewrite <- ?app_assoc; auto using Forall2_app.
  - unfold SeekForPrev, findNear. rewrite (findNear_ok _ _ _ _ _ _ _ _ _ _ K) by lia. cbn [mbind option_bind near_found].
    unfold near_found, near_ptr. cbn [mbind option_bind]. do 2 f_equal. destruct lm as [|z lm]; [by rewrite app_nil_r|].
    by rewrite last_or_mid, last_or_cons.
  - unfold si_Seek, findNear. by rewrite (findNear_ok _ _ _ _ _ _ _ _ _ _ K) by lia.
Qed.

(** The node an iterator stands on. *)
Lemma ui_here u run x l chain c1 c2 e1 e2 : ui_pos u run (x :: l) chain c1 c2 e1 e2 -> exists n c0 c3 e0 e3,
  chain = c0 ++ n :: c3 /\ run = e0 ++ x :: e3 /\ si_n (ui_iter u) = n /\ l = (if rev then reverse e0 else e3) /\
  Forall2 (shows (sk_arena (si_list (ui_iter u)))) c0 e0 /\ Forall2 (shows (sk_arena (si_list (ui_iter u)))) (n :: c3) (x :: e3).
Proof.
  intros [R -> -> F1 F2 En El]. destruct rev.
  - assert (e1 = reverse l ++ [x]) as -> by (rewrite <- (reverse_involutive e1), <- El; apply reverse_cons).
    apply Forall2_app_inv_r in F1 as (c0 & c' & F0 & Fx & ->). apply Forall2_cons_inv_r in Fx as (n & c'' & Fx & Fn & ->).
    apply Forall2_nil_inv_r in Fn as ->. exists n, c0, c2, (reverse l), e2. rewrite <- !app_assoc. split_and!; try done.
    + rewrite En. by rewrite last_or_mid.
    + by rewrite reverse_involutive.
    + by constructor.
  - subst e2. apply Forall2_cons_inv_r in F2 as (n & c3 & Fx & F3 & ->). exists n, c1, c3, e1, l. split_and!; try done. by constructor.
Qed.

Lemma ui_nexts u es x l : ui_at u es (x :: l) -> exists u', ui_Next u = Some u' /\ ui_at u' es l.
Proof.
  intros (Er & chain & run & c1 & c2 & e1 & e2 & P & Ees). pose proof (up_rep _ _ _ _ _ _ _ _ P) as R.
  destruct (ui_here _ _ _ _ _ _ _ _ _ P) as (n & c0 & c3 & e0 & e3 & Ec & Ee & En & El & F0 & F).
  pose proof (at_key_elem _ chain run c0 n c3 e0 x e3 R Ec Ee F0 F) as K. pose proof (walk_fuel_enough _ _ _ _ _ _ _ _ _ _ K) as Hw.
  apply Forall2_cons in F as F'. destruct F' as [Fx F3].
  assert (n <> 0) as Hn by (destruct Fx as (nd & E & _); destruct (sr_nodes _ _ _ R n nd E); lia).
  unfold ui_Next. apply (ui_move u es _ l chain run (if rev then c0 else c0 ++ [n]) (if rev then n :: c3 else c3)
    (if rev then e0 else e0 ++ [x]) (if rev then x :: e3 else e3)); try done; rewrite ?Er; destruct rev; cbn [negb]; rewrite <- ?app_assoc; try done.
  - unfold si_Prev, si_Valid. rewrite En, bool_decide_eq_true_2 by done. cbn [negb]. unfold si_Key.
    rewrite En, (shows_key _ n x) by (done || apply R). cbn [mbind option_bind]. unfold findNear.
    by rewrite (findNear_ok _ _ _ _ _ _ _ _ _ _ K) by lia.
  - unfold si_Next, si_Valid. rewrite En, bool_decide_eq_true_2 by done. cbn [negb]. rewrite getNext_eq.
    by rewrite (at_next _ _ _ _ _ _ _ _ _ _ K n eq_refl).
  - apply Forall2_app; [done|by constructor].
Qed.

Lemma ui_valids u es l : ui_at u es l -> y_Valid u = bool_decide (l <> []).
Proof.
  intros (Er & chain & run & c1 & c2 & e1 & e2 & P & Ees). cbn [y_Valid UniIterator_it]. unfold si_Valid.
  apply bool_decide_ext. destruct l as [|x l].
  - destruct P as [R Ec Ee F1 F2 -> El]. split; [|done]. destruct rev.
    + assert (e1 = []) as -> by (by rewrite <- (reverse_involutive e1), <- El). by apply Forall2_nil_inv_r in F1 as ->.
    + subst e2. by apply Forall2_nil_inv_r in F2 as ->.
  - destruct (ui_here _ _ _ _ _ _ _ _ _ P) as (n & c0 & c3 & e0 & e3 & Ec & Ee & -> & _ & _ & F).
    apply Forall2_cons in F as [(nd & E & _) _]. destruct (sr_nodes _ _ _ (up_rep _ _ _ _ _ _ _ _ P) n nd E). split; [done|lia].
Qed.

Lemma ui_shows u es x l : ui_at u es (x :: l) -> y_Key u = x.1 /\ y_Value u = Some x.2.
Proof.
  intros (Er & chain & run & c1 & c2 & e1 & e2 & P & Ees). pose proof (up_rep _ _ _ _ _ _ _ _ P) as R.
  destruct (ui_here _ _ _ _ _ _ _ _ _ P) as (n & c0 & c3 & e0 & e3 & Ec & Ee & En & _ & _ & F).
  apply Forall2_cons in F as [Fx _]. cbn [y_Key y_Value UniIterator_it]. unfold si_Key, si_Value. rewrite En.
  rewrite (shows_key _ n x), (shows_val _ n x) by (done || apply R). done.
Qed.

#[export] Instance UniIterator_laws : YIteratorLaws UniIterator rev sk := {
  y_over := ui_over;
  y_at := ui_at;
  y_at_over := ui_at_over;
  y_over_ok := ui_over_ok;
  y_at_suffix := ui_suffix;
  y_rewind := ui_rewinds;
  y_seek := fun u es key Ho _ Hk => ui_seeks u es key Ho Hk;
  y_next := ui_nexts;
  y_valid := ui_valids;
  y_shows := ui_shows
}.

Lemma NewUniIterator_over s chain run : skl_rep s chain run -> y_over (NewUniIterator s rev) (dir rev run).
Proof. intros R. split; [done|]. exists chain, run. split; [by apply skl_rep_ref|done]. Qed.
End UniLaws.

(** ** What the skip list promises *)

(** A run of [Put]s with the heights drawn for them. *)
Definition put_run : Type := list (bytes * ValueStruct * (nat -> Z)).

Definition puts (s : Skiplist) (l : put_run) : option Skiplist :=
  foldl (fun s '(key, v, draws) => s ← s; Put s key v draws) (Some s) l.

Definition run_of (l : put_run) : list kv := foldl (fun es '(key, v, _) => sl_put es key v) [] l.

Definition put_ok (p : bytes * ValueStruct * (nat -> Z)) : Prop :=
  has_ts p.1.1 /\ len p.1.1 < 2 ^ 16 /\ is_u64 (ExpiresAt p.1.2).

Definition put_bytes (l : put_run) : Z := foldr (fun p n => put_size p.1.1 p.1.2 + n) 0 l.

Lemma put_size_nonneg key v : 0 <= put_size key v.
Proof. unfold put_size, MaxNodeSize, nodeAlign. pose proof (len_nonneg key). pose proof (len_nonneg (EncodeTo v)). lia. Qed.

Lemma put_bytes_nonneg l : 0 <= put_bytes l.
Proof. 
  induction l as [|p l IH]; [done|]. pose proof (put_size_nonneg p.1.1 p.1.2).
  change (put_bytes (p :: l)) with (put_size p.1.1 p.1.2 + put_bytes l). lia.
Qed.

Lemma puts_none l : foldl (fun s '(key, v, draws) => s ← s; Put s key v draws) None l = None.
Proof. induction l as [|[[k v] d] l IH]; [done|apply IH]. Qed.

Lemma puts_rep l : forall s chain es, skl_rep s chain es -> Forall put_ok l ->
  MemSize s + put_bytes l <= len (ar_buf (sk_arena s)) ->
  exists s' chain', puts s l = Some s' /\ skl_rep s' chain' (foldl (fun es '(key, v, _) => sl_put es key v) es l) /\
    MemSize s' <= MemSize s + put_bytes l.
Proof.
  induction l as [|[[key v] draws] l IH]; intros s chain es R Hok Hr.
  { exists s, chain. split; [done|]. split; [done|]. cbn. lia. }
  apply Forall_cons in Hok as [(H1 & H2 & H3) Hok]. pose proof (put_bytes_nonneg l) as Hl. cbn [fst snd] in *.
  change (put_bytes ((key, v, draws) :: l)) with (put_size key v + put_bytes l) in *. destruct (Put_rep s chain es key v draws R H1 H2 H3) as (s1 & c1 & E & R1 & B & M); [lia|].
  destruct (IH s1 c1 _ R1 Hok) as (s' & c' & E' & R' & M'); [rewrite B; lia|].
  exists s', c'. split; [|split; [exact R'|lia]]. unfold puts in *. cbn [foldl mbind option_bind]. by rewrite E.
Qed.

(** The entry [findNear] is about, by its comment. *)
Definition nearest (es : list kv) (key : bytes) (less allowEqual : bool) : option kv :=
  let ok c (x : kv) := compareKeys x.1 key = c \/ (allowEqual = true /\ compareKeys x.1 key = Eq) in
  if less then last (filter (ok Lt) es) else head (filter (ok Gt) es).

Lemma filter_all {A} (P : A -> Prop) `{!forall x, Decision (P x)} (l : list A) : (forall x, x ∈ l -> P x) -> filter P l = l.
Proof. intros Hl. apply filter_id. by apply Forall_forall. Qed.

Lemma filter_nothing {A} (P : A -> Prop) `{!forall x, Decision (P x)} (l : list A) : (forall x, x ∈ l -> ~ P x) -> filter P l = [].
Proof.
  induction l as [|x l IH]; intros Hl; [done|]. rewrite filter_cons_False by (apply Hl; by left). apply IH. intros y Hy. apply Hl. by right.
Qed.

(** The parts of a run that [nearest] chooses from. *)
Lemma nearest_split key es e1 em e2 less ae : split_run key es e1 em e2 ->
  nearest es key less ae = if less then last (e1 ++ if ae then em else []) else head ((if ae then em else []) ++ e2).
Proof.
  intros [-> H1 H2 H3]. rewrite Forall_forall in H1, H3. unfold nearest.
  assert (forall x, x ∈ e1 -> compareKeys x.1 key = Lt) as Hb by (intros x Hx; by apply (cmp_gt_lt compareKeys), H1).
  assert (forall x, x ∈ e2 -> compareKeys x.1 key = Gt) as Hc by (intros x Hx; by apply (cmp_gt_lt compareKeys), H3).
  assert (forall x, x ∈ em -> compareKeys x.1 key = Eq) as Hm.
  { destruct H2 as [->|(x & -> & Ex)]; [set_solver|]. intros y ->%list_elem_of_singleton. rewrite Ex. apply (cmp_refl compareKeys). }
  destruct less; rewrite !filter_app; f_equal.
  - rewrite (filter_all _ e1) by (intros x Hx; left; by apply Hb). f_equal.
    rewrite (filter_nothing _ e2), app_nil_r by (intros x Hx; rewrite (Hc x Hx); by intros [?|[_ ?]]).
    destruct ae; [apply filter_all|apply filter_nothing]; intros x Hx; rewrite (Hm x Hx); [by right|by intros [?|[? _]]].
  - rewrite (filter_nothing _ e1) by (intros x Hx; rewrite (Hb x Hx); by intros [?|[_ ?]]). cbn [app].
    rewrite (filter_all _ e2) by (intros x Hx; left; by apply Hc). f_equal.
    destruct ae; [apply filter_all|apply filter_nothing]; intros x Hx; rewrite (Hm x Hx); [by right|by intros [?|[? _]]].
Qed.

Lemma shows_last s chain es c e : skl_rep s chain es -> Forall2 (shows (sk_arena s)) c e -> (forall x, x ∈ c -> x ∈ chain) ->
  match last e with
  | None => last_or 0 c = 0
  | Some y => last_or 0 c <> 0 /\ nd_key (sk_arena s) (last_or 0 c) = Some y.1 /\ nd_getVal (sk_arena s) (last_or 0 c) = Some y.2
  end.
Proof.
  intros R F Hc. destruct (last e) as [y|] eqn:E.
  - apply last_Some in E as [e0 ->]. apply Forall2_app_inv_r in F as (c0 & c' & _ & F & ->).
    apply Forall2_cons_inv_r in F as (x & c'' & Hxy & F & ->). apply Forall2_nil_inv_r in F as ->.
    rewrite last_or_mid. apply (shows_hd s chain es [x] [y] R); [by constructor|]. intros z Hz. apply Hc. set_solver.
  - apply last_None in E as ->. by apply Forall2_nil_inv_r in F as ->.
Qed.

Lemma near_ptr_shows s chain es key l1 lm l2 e1 em e2 less ae : at_key s chain es key l1 lm l2 e1 em e2 ->
  let n := near_ptr l1 lm l2 less ae in
  match (if less then last (e1 ++ if ae then em else []) else head ((if ae then em else []) ++ e2)) with
  | None => n = 0
  | Some e => n <> 0 /\ nd_key (sk_arena s) n = Some e.1 /\ nd_getVal (sk_arena s) n = Some e.2
  end.
Proof.
  intros K n. pose proof (ak_rep _ _ _ _ _ _ _ _ _ _ K) as R. pose proof (ak_chain _ _ _ _ _ _ _ _ _ _ K) as Ec.
  pose proof (ak_before _ _ _ _ _ _ _ _ _ _ K) as F1. pose proof (ak_at _ _ _ _ _ _ _ _ _ _ K) as Fm.
  pose proof (ak_behind _ _ _ _ _ _ _ _ _ _ K) as F2.
  assert (Forall2 (shows (sk_arena s)) (if ae then lm else []) (if ae then em else [])) as Fa by (destruct ae; [done|constructor]).
  assert (forall x, x ∈ (if ae then lm else []) -> x ∈ lm) as Ha by (destruct ae; [done|set_solver]).
  destruct less.
  - assert (n = last_or 0 (l1 ++ if ae then lm else [])) as ->.
    { unfold n, near_ptr. destruct ae; [|by rewrite app_nil_r]. destruct lm as [|z lm]; [by rewrite app_nil_r|].
      by rewrite last_or_mid, last_or_cons. }
    apply (shows_last s chain es); [done|by apply Forall2_app|]. intros x Hx. rewrite Ec. set_solver.
  - assert (n = hd 0 ((if ae then lm else []) ++ l2)) as -> by (by destruct ae).
    pose proof (shows_hd s chain es ((if ae then lm else []) ++ l2) _ R (Forall2_app Fa F2)) as H.
    destruct ((if ae then em else []) ++ e2); apply H; intros x Hx; rewrite Ec; set_solver.
Qed.

Lemma key_found s chain es key l1 lm l2 e1 em e2 : at_key s chain es key l1 lm l2 e1 em e2 -> lm <> [] <-> key ∈ es.*1.
Proof.
  intros K. pose proof (ak_split _ _ _ _ _ _ _ _ _ _ K) as [-> H1 H2 H3]. rewrite Forall_forall in H1, H3.
  pose proof (ak_at _ _ _ _ _ _ _ _ _ _ K) as Fm. rewrite list_elem_of_fmap. split.
  - intros Hne. destruct H2 as [->|(x & -> & <-)]; [by apply Forall2_nil_inv_r in Fm|]. exists x. split; [done|set_solver].
  - intros (x & Ex & Hx) El. rewrite El in Fm. apply Forall2_nil_inv_l in Fm as ->.
    apply elem_of_app in Hx as [Hx|Hx]; [pose proof (H1 x Hx) as E|pose proof (H3 x Hx) as E]; rewrite <- Ex, (cmp_refl compareKeys) in E; done.
Qed.

Lemma Empty_ok s chain es : skl_rep s chain es -> skl_Empty s = Some (bool_decide (es = [])).
Proof.
  intros R. unfold skl_Empty. rewrite (findLast_ok s chain es R). cbn [mbind option_bind]. f_equal. apply bool_decide_ext.
  pose proof (shows_last s chain es chain es R (sr_shows _ _ _ R) (fun _ H => H)) as H. destruct (last es) as [y|] eqn:E.
  - destruct H as [H _]. split; [done|]. intros ->. done.
  - rewrite H. by apply last_None in E.
Qed.

Lemma dir_length rev l : length (dir rev l) = length l.
Proof. unfold dir. destruct rev; [apply length_reverse|done]. Qed.

(** ** Properties *)

(** [findNear] ends, in at most one step per entry and level, with the node its comment
    describes: the rightmost before the key or the leftmost behind it, or the node with the key
    itself where that is allowed; nil when there is none; the flag says whether the key was met. *)
Theorem findNear_nearest (s : Skiplist) (chain : list Z) (es : list kv) (key : bytes) (less allowEqual : bool) (fuel : nat) :
  skl_rep s chain es -> has_ts key -> (length es + sk_height s <= fuel)%nat ->
  exists n found, findNear_loop fuel s key less allowEqual (sk_head s) (sk_height s - 1) = Some (n, found) /\
    findNear s key less allowEqual = Some (n, found) /\
    match nearest es key less allowEqual with
    | None => n = 0
    | Some e => n <> 0 /\ nd_key (sk_arena s) n = Some e.1 /\ nd_getVal (sk_arena s) n = Some e.2
    end /\
    (found = true <-> allowEqual = true /\ key ∈ es.*1).
Proof.
  intros R Hk Hf. destruct (at_key_exists s chain es key R Hk) as (l1 & lm & l2 & e1 & em & e2 & K).
  pose proof (walk_fuel_enough _ _ _ _ _ _ _ _ _ _ K) as Hw. pose proof (Forall2_length _ _ _ (sr_shows _ _ _ R)) as Hlen.
  exists (near_ptr l1 lm l2 less allowEqual), (allowEqual && negb (bool_decide (lm = []))).
  split; [apply (findNear_ok _ _ _ _ _ _ _ _ _ _ K); lia|]. split; [apply (findNear_ok _ _ _ _ _ _ _ _ _ _ K); lia|].
  pose proof (ak_split _ _ _ _ _ _ _ _ _ _ K) as Sp. rewrite (nearest_split key es e1 em e2) by done. split.
  - apply (near_ptr_shows _ _ _ _ _ _ _ _ _ _ _ _ K).
  - rewrite andb_true_iff, negb_true_iff, bool_decide_eq_false. by rewrite (key_found _ _ _ _ _ _ _ _ _ _ K).
Qed.

(** C10: A new skip list with room for them takes any sequence of [Put]s, whatever heights are
    drawn; [Get] is then the lookup in the sorted run of what was put, an iterator in either
    direction shows that run from its start or from the key sought, and [Empty] tells if it is
    empty; the memory used is within the estimate. *)
Theorem skiplist_refines_run (arenaSize : Z) (l : put_run) :
  Forall put_ok l -> 112 + put_bytes l <= arenaSize < 2 ^ 32 ->
  exists s0 s, NewSkiplist arenaSize = Some s0 /\ puts s0 l = Some s /\ MemSize s <= 107 + put_bytes l /\
    (forall key, has_ts key -> Get s key = Some (sl_Get (run_of l) key)) /\
    skl_Empty s = Some (bool_decide (run_of l = [])) /\
    (forall rev fuel, (length (run_of l) <= fuel)%nat ->
       any_rewind (Any _ _ (NewUniIterator s rev)) fuel = Some (seen <$> dir rev (run_of l))) /\
    (forall rev fuel key, (length (run_of l) <= fuel)%nat -> has_ts key ->
       any_seek (Any _ _ (NewUniIterator s rev)) key fuel = Some (seen <$> run_from rev key (dir rev (run_of l)))).
Proof.
  intros Hok Hn. pose proof (put_bytes_nonneg l) as Hl. destruct (NewSkiplist_rep arenaSize) as (s0 & E0 & R0 & B0 & M0); [lia|].
  destruct (puts_rep l s0 [] [] R0 Hok) as (s & chain & E & R & M); [lia|]. fold (run_of l) in R.
  exists s0, s. split_and!; [done..|lia| | | |].
  - intros key Hk. by apply (Get_ok _ chain).
  - by apply (Empty_ok _ chain).
  - intros rev fuel Hf. pose proof (NewUniIterator_over (rev := rev) (sk := fun _ => True) s chain _ R) as Ho.
    destruct (y_rewind _ _ Ho) as (u & Eu & Hu). cbn [any_rewind]. rewrite Eu. cbn [mbind option_bind].
    apply (drain_at (rev := rev) (sk := fun _ => True) fuel (dir rev (run_of l))); [done|]. by rewrite dir_length.
  - intros rev fuel key Hf Hk. pose proof (NewUniIterator_over (rev := rev) (sk := fun _ => True) s chain _ R) as Ho.
    destruct (y_seek _ _ key Ho I Hk) as (u & Eu & Hu). cbn [any_seek]. rewrite Eu. cbn [mbind option_bind].
    apply (drain_at (rev := rev) (sk := fun _ => True) fuel (dir rev (run_of l))); [done|]. etransitivity; [|exact Hf]. rewrite <- (dir_length rev (run_of l)).
    destruct (run_from_suffix rev key (dir rev (run_of l))) as [pre Ep]. apply (f_equal length) in Ep. rewrite length_app in Ep. lia.
Qed.

(** In a buffer of 4 GiB or more the total wraps around: the assertion holds and what follows is
    written over the beginning. *)
Theorem arena_wraps (a : Arena) (l : Z) :
  0 < ar_n a < 2 ^ 32 -> 0 <= l < 2 ^ 32 -> 2 ^ 32 <= ar_n a + l -> 2 ^ 32 <= len (ar_buf a) ->
  exists a', ar_add a l = Some a' /\ ar_n a' = ar_n a + l - 2 ^ 32 /\ ar_n a' < ar_n a.
Proof.
  intros Hn Hl Hs Hb. unfold ar_add.
  assert (u32 (ar_n a + l) = ar_n a + l - 2 ^ 32) as ->.
  { unfold wrap. symmetry. apply Z.mod_unique with 1; lia. }
  rewrite bool_decide_eq_true_2 by lia. eexists. split; [done|]. cbn. lia.
Qed.

(** ** Examples *)

Definition ex_low : nat -> Z := fun _ => MaxUint32.
Definition ex_high : nat -> Z := fun h => if bool_decide (h < 4)%nat then 0 else MaxUint32.
Definition ex_val (b : byte) : ValueStruct := mkVS x00 x00 0 (Some [b]) 0.

(** Three keys, one of them put again. *)
Definition ex_puts : put_run :=
  [(KeyWithTs [x62] 3, ex_val x01, ex_low); (KeyWithTs [x61] 5, ex_val x02, ex_high);
   (KeyWithTs [x61] 7, ex_val x03, ex_low); (KeyWithTs [x62] 3, ex_val x04, ex_high)].

Lemma ex_puts_ok : Forall put_ok ex_puts.
Proof. repeat constructor; by vm_compute. Qed.

Lemma skiplist_refines_run_witness : exists s0 s, NewSkiplist 1000 = Some s0 /\ puts s0 ex_puts = Some s /\
  Get s (KeyWithTs [x61] 6) = Some (with_version (ex_val x02) 5) /\
  any_rewind (Any _ _ (NewUniIterator s true)) 3 =
    Some [(KeyWithTs [x62] 3, Some (ex_val x04)); (KeyWithTs [x61] 5, Some (ex_val x02)); (KeyWithTs [x61] 7, Some (ex_val x03))].
Proof.
  destruct (skiplist_refines_run 1000 ex_puts) as (s0 & s & E0 & E & _ & Hg & _ & Hr & _).
  - apply ex_puts_ok.
  - replace (put_bytes ex_puts) with 464 by (by vm_compute). split; [lia|done].
  - exists s0, s. split_and!; [done..| |].
    + rewrite Hg by apply KeyWithTs_has_ts. by vm_compute.
    + rewrite (Hr true 3%nat) by (by vm_compute; lia). by vm_compute.
Defined.

Lemma findNear_nearest_witness : exists s, (s0 ← NewSkiplist 1000; puts s0 ex_puts) = Some s /\
  exists n, findNear s (KeyWithTs [x61] 6) true false = Some (n, false) /\ nd_key (sk_arena s) n = Some (KeyWithTs [x61] 7).
Proof.
  destruct (NewSkiplist_rep 1000) as (s0 & E0 & R0 & B0 & M0); [lia|]. rewrite E0.
  destruct (puts_rep ex_puts s0 [] [] R0 ex_puts_ok) as (s & chain & E & R & M).
  { rewrite B0, M0. replace (put_bytes ex_puts) with 464 by (by vm_compute). lia. }
  exists s. split; [exact E|].
  destruct (findNear_nearest s chain _ (KeyWithTs [x61] 6) true false _ R (KeyWithTs_has_ts _ _) (Nat.le_refl _)) as (n & found & _ & E2 & H & Hf).
  exists n. assert (found = false) as -> by (destruct found; [by destruct (proj1 Hf eq_refl)|done]). split; [exact E2|].
  replace (nearest _ _ _ _) with (Some (KeyWithTs [x61] 7, ex_val x03)) in H by (by vm_compute).
  destruct H as (_ & H & _). exact H.
Defined.
