(* ===== verification/Transaction.v ===== *)
(** * Transaction: the operations of a transaction (txn.go, db.go)

    Reading, writing and committing: [modify] checks an entry and puts it with the pending
    writes, [Get] serves pending writes first and else asks the database at the read timestamp,
    and [commitAndSend] turns the pending writes into the entries of one write request.  The
    hash of keys ([z.MemHash]) and [DB.get] are arguments; Go's random order of a map is an
    order given to the commit. *)

From S2P Require Import Prelude Keys Codec Watermark Oracle Checksum Encrypt LogFile.

(** ** Options and errors *)

(** The options of the database a transaction looks at; the threshold and the banned
    namespaces can change while it runs and are arguments. *)
Record txn_opts : Type := mkOpts {
  maxBatchCount : Z;
  maxBatchSize : Z;
  ValueLogFileSize : Z;
  InMemory : bool;
  DbReadOnly : bool;
  DetectConflicts : bool;
  managedTxns : bool;
  NamespaceOffset : Z
}.

Inductive txn_error : Type :=
  | ErrReadOnlyTxn | ErrDiscardedTxn | ErrEmptyKey | ErrInvalidKey | ErrSizeExceeded
  | ErrBannedKey | ErrTxnTooBig | ErrKeyNotFound | ErrConflict | ErrBlockedWrites
  | ErrCommitDiscarded | ErrCommitTsZero | ErrClosed.

#[export] Instance txn_error_eq_decision : EqDecision txn_error.
Proof. solve_decision. Defined.

(** [Item], as far as a point read fills it in. *)
Record Item : Type := mkItem {
  it_key : bytes;
  it_version : Z;
  it_meta : byte;
  it_userMeta : byte;
  it_val : option bytes;         (* served from the transaction *)
  it_vptr : option bytes;        (* the value, or the pointer to it *)
  it_expiresAt : Z;
  it_prefetched : bool
}.

(** ** Setters *)

Definition set_sizes (t : Txn) (count size : Z) : Txn :=
  mkTxn (readTs t) (commitTs t) size count (reads t) (conflictKeys t) (pendingWrites t)
    (duplicateWrites t) (numIterators t) (discarded t) (doneRead t) (update t).

Definition set_writes (t : Txn) (p : gmap (list byte) Entry) (d : list Entry) : Txn :=
  mkTxn (readTs t) (commitTs t) (tsize t) (tcount t) (reads t) (conflictKeys t) p d
    (numIterators t) (discarded t) (doneRead t) (update t).

(** ** Reading and writing *)

Section Txn.
Context (MemHash : bytes -> Z).

(** [newTransaction]; the read timestamp of a transaction that is not managed comes from the
    oracle ([None]: its panic). *)
Definition newTransaction (opt : txn_opts) (o : oracle) (upd managed : bool) : option (oracle * Txn) :=
  let upd := if DbReadOnly opt && upd then false else upd in
  let t := new_txn 0 upd in
  if managed then Some (o, t)
  else '(ts, o) ← oracle_readTs o; Some (o, set_readTs t ts).

Definition isBanned (opt : txn_opts) (banned : gset Z) (key : bytes) : result txn_error unit :=
  if bool_decide (NamespaceOffset opt < 0) then Ok ()
  else if bool_decide (len key <= NamespaceOffset opt + 8) then Ok ()
  else
    ns ← unpanic (slice_from key (NamespaceOffset opt));
    ns ← unpanic (BytesToU64 ns);
    if bool_decide (ns ∈ banned) then Err ErrBannedKey else Ok ().

(** The entry comes back with its threshold set. *)
Definition checkSize (opt : txn_opts) (threshold : Z) (t : Txn) (e : Entry)
    : result txn_error (Txn * Entry) :=
  let count := tcount t + 1 in
  let '(sz, e) := estimateSizeAndSetThreshold e threshold in
  let size := tsize t + sz + 10 in
  if bool_decide (maxBatchCount opt <= count) || bool_decide (maxBatchSize opt <= size)
  then Err ErrTxnTooBig
  else Ok (set_sizes t count size, e).

(** The message shows the first 1024 bytes of what is too long; a slice has no capacity behind its
    length here, so a shorter one panics. *)
Definition exceedsSize (key : bytes) : result txn_error Txn :=
  if bool_decide (1024 <= len key) then Err ErrSizeExceeded else Panic.

Definition maxKeySize : Z := 65000.

Definition modify (opt : txn_opts) (threshold : Z) (banned : gset Z) (t : Txn) (e : Entry)
    : result txn_error Txn :=
  if negb (update t) then Err ErrReadOnlyTxn
  else if discarded t then Err ErrDiscardedTxn
  else if bool_decide (len (eKey e) = 0) then Err ErrEmptyKey
  else if bool_decide (badgerPrefix `prefix_of` eKey e) then Err ErrInvalidKey
  else if bool_decide (maxKeySize < len (eKey e)) then exceedsSize (eKey e)
  else if bool_decide (ValueLogFileSize opt < len (vbytes (eValue e))) then exceedsSize (vbytes (eValue e))
  else if InMemory opt && bool_decide (threshold < len (vbytes (eValue e))) then exceedsSize (vbytes (eValue e))
  else
    _ ← isBanned opt banned (eKey e);
    '(t, e) ← checkSize opt threshold t e;
    let t := if DetectConflicts opt then add_conflictKey t (MemHash (eKey e)) else t in
    let dups := match pendingWrites t !! eKey e with
                | Some old => if bool_decide (eversion old <> eversion e) then duplicateWrites t ++ [old]
                              else duplicateWrites t
                | None => duplicateWrites t
                end in
    Ok (set_writes t (<[eKey e := e]> (pendingWrites t)) dups).

Definition SetEntry := modify.

Definition txn_Set (opt : txn_opts) (threshold : Z) (banned : gset Z) (t : Txn) (key : bytes) (val : option bytes)
    : result txn_error Txn := SetEntry opt threshold banned t (NewEntry key val).

Definition delete_entry (key : bytes) : Entry := set_emeta (NewEntry key None) (z2b bitDelete).

Definition txn_Delete (opt : txn_opts) (threshold : Z) (banned : gset Z) (t : Txn) (key : bytes)
    : result txn_error Txn := modify opt threshold banned t (delete_entry key).

Definition addReadKey (t : Txn) (key : bytes) : Txn := if update t then add_read t (MemHash key) else t.

(** What a read makes of the value found in the database, and of a pending write. *)
Definition db_item (now : Z) (key : bytes) (vs : ValueStruct) : result txn_error Item :=
  if bool_decide (Value vs = None) && bool_decide (Meta vs = x00) then Err ErrKeyNotFound
  else if isDeletedOrExpired (Meta vs) (ExpiresAt vs) now then Err ErrKeyNotFound
  else Ok (mkItem key (Version vs) (Meta vs) (UserMeta vs) None (SafeCopy [] (Value vs)) (ExpiresAt vs) false).

Definition own_item (now ts : Z) (key : bytes) (e : Entry) : result txn_error Item :=
  if isDeletedOrExpired (emeta e) (eExpiresAt e) now then Err ErrKeyNotFound
  else Ok (mkItem key ts (emeta e) (eUserMeta e) (eValue e) None (eExpiresAt e) true).

(** [db_get] is [DB.get]; the transaction comes back with the key noted as read. *)
Definition txn_Get (opt : txn_opts) (banned : gset Z) (db_get : bytes -> result txn_error ValueStruct)
    (now : Z) (t : Txn) (key : bytes) : Txn * result txn_error Item :=
  if bool_decide (len key = 0) then (t, Err ErrEmptyKey)
  else if discarded t then (t, Err ErrDiscardedTxn)
  else
    match isBanned opt banned key with
    | Err e => (t, Err e)
    | Panic => (t, Panic)
    | Ok _ =>
        let from_db t :=
          (t, vs ← db_get (KeyWithTs key (readTs t)); db_item now key vs) in
        if update t then
          match pendingWrites t !! key with
          | Some e =>
              if bool_decide (key = eKey e) then (t, own_item now (readTs t) key e)
              else from_db (addReadKey t key)
          | None => from_db (addReadKey t key)
          end
        else from_db t
    end.

(** [Panic]: an iterator is still open. *)
Definition Discard (o : oracle) (t : Txn) : result txn_error (oracle * Txn) :=
  if discarded t then Ok (o, t)
  else if bool_decide (0 < numIterators t) then Panic
  else
    let t := set_discarded t in
    Ok (if isManaged o then (o, t) else oracle_doneRead o t).
End Txn.

(** ** Committing *)

Definition setVersion (commitTs : Z) (e : Entry) : Entry :=
  if bool_decide (eversion e = 0) then set_eversion e commitTs else e.

Definition processEntry (keepTogether : bool) (e : Entry) : Entry :=
  let e := set_eKey e (KeyWithTs (eKey e) (eversion e)) in
  if keepTogether then set_emeta e (set_bit (emeta e) bitTxn) else e.

Definition fin_entry (commitTs : Z) : Entry :=
  set_emeta (NewEntry (KeyWithTs txnKey commitTs) (Some (FormatUint commitTs))) (z2b bitFinTxn).

(** The entries of the request; [writes] are the pending writes in the order Go walks them, the
    duplicates behind. *)
Definition commit_entries (commitTs : Z) (writes : list Entry) : result txn_error (list Entry) :=
  let keepTogether := forallb (fun e => bool_decide (eversion e = 0)) writes in
  let entries := (fun e => processEntry keepTogether (setVersion commitTs e)) <$> writes in
  if keepTogether then
    if bool_decide (commitTs <> 0) then Ok (entries ++ [fin_entry commitTs]) else Panic
  else Ok entries.

(** The size of a request, and its entries with their thresholds set. *)
Fixpoint request_size (threshold : Z) (es : list Entry) : Z * list Entry :=
  match es with
  | [] => (0, [])
  | e :: es =>
      let '(sz, e) := estimateSizeAndSetThreshold e threshold in
      let '(n, es) := request_size threshold es in (sz + n, e :: es)
  end.

Definition sendToWriteCh (opt : txn_opts) (threshold : Z) (blockWrites : bool) (es : list Entry)
    : result txn_error (list Entry) :=
  if blockWrites then Err ErrBlockedWrites
  else
    let '(size, es) := request_size threshold es in
    if bool_decide (maxBatchCount opt <= len es) || bool_decide (maxBatchSize opt <= size)
    then Err ErrTxnTooBig
    else Ok es.

Definition commitAndSend (opt : txn_opts) (threshold : Z) (blockWrites : bool) (o : oracle) (t : Txn)
    (pend : list Entry) : oracle * Txn * result txn_error (Z * list Entry) :=
  match newCommitTs o t with
  | None => (o, t, Panic)
  | Some (_, true, o, t) => (o, t, Err ErrConflict)
  | Some (ts, false, o, t) =>
      match commit_entries ts (pend ++ duplicateWrites t) with
      | Ok entries =>
          match sendToWriteCh opt threshold blockWrites entries with
          | Ok req => (o, t, Ok (ts, req))
          | Err e => (doneCommit o ts, t, Err e)
          | Panic => (o, t, Panic)
          end
      | Err e => (o, t, Err e)
      | Panic => (o, t, Panic)
      end
  end.

Definition commitPrecheck (opt : txn_opts) (t : Txn) : result txn_error unit :=
  if discarded t then Err ErrCommitDiscarded
  else
    let keepTogether := forallb (fun e => bool_decide (eversion e = 0)) (snd <$> map_to_list (pendingWrites t)) in
    if keepTogether && managedTxns opt && bool_decide (commitTs t = 0) then Err ErrCommitTsZero else Ok ().

(** [Commit] up to the request ([None]: nothing to write); the transaction is discarded. *)
Definition txn_Commit (opt : txn_opts) (threshold : Z) (blockWrites : bool) (o : oracle) (t : Txn)
    (pend : list Entry) : result txn_error (oracle * Txn * result txn_error (option (Z * list Entry))) :=
  if bool_decide (pendingWrites t = ∅) then '(o, t) ← Discard o t; Ok (o, t, Ok None)
  else
    match commitPrecheck opt t with
    | Err e => Ok (o, t, Err e)
    | Panic => Panic
    | Ok _ =>
        let '(o, t, r) := commitAndSend opt threshold blockWrites o t pend in
        '(o, t) ← Discard o t;
        Ok (o, t, req ← r; Ok (Some req))
    end.

(** ** Lemmas: a transaction's life *)

Section Run.
Context (MemHash : bytes -> Z) (opt : txn_opts).

(** Writes that succeeded and reads, in order; the threshold, the banned namespaces, the clock
    and the database may differ from step to step. *)
Inductive txn_run (t0 : Txn) : list Entry -> list bytes -> Txn -> Prop :=
  | run_start : txn_run t0 [] [] t0
  | run_write ws rs t threshold banned e t' :
      txn_run t0 ws rs t -> modify MemHash opt threshold banned t e = Ok t' -> 0 < threshold ->
      txn_run t0 (ws ++ [e]) rs t'
  | run_read ws rs t banned db_get now key t' r :
      txn_run t0 ws rs t -> txn_Get MemHash opt banned db_get now t key = (t', r) ->
      txn_run t0 ws (if bool_decide (reads t' = reads t) then rs else rs ++ [key]) t'.

(** The same entry, but for its threshold. *)
Definition same_entry (e e' : Entry) : Prop :=
  set_evalThreshold e 0 = set_evalThreshold e' 0.

Definition last_write (ws : list Entry) (key : bytes) : option Entry := last (filter (fun e => eKey e = key) ws).

Lemma last_write_snoc ws e key :
  last_write (ws ++ [e]) key = if bool_decide (eKey e = key) then Some e else last_write ws key.
Proof using Type.
  unfold last_write. rewrite filter_app. unfold filter at 2. cbn. case_decide; case_bool_decide; try done.
  - by rewrite last_snoc.
  - by rewrite app_nil_r.
Qed.

Lemma same_entry_stick e t : same_entry e (stick_threshold e t).
Proof using Type. unfold same_entry, stick_threshold. by case_bool_decide. Qed.

(** What a successful [modify] did. *)
Lemma modify_ok threshold banned t e t' : modify MemHash opt threshold banned t e = Ok t' ->
  let e' := stick_threshold e threshold in
  let sz := (estimateSizeAndSetThreshold e threshold).1 in
  update t = true /\ discarded t = false /\ eKey e <> [] /\ ~ badgerPrefix `prefix_of` eKey e /\
  len (eKey e) <= maxKeySize /\ len (vbytes (eValue e)) <= ValueLogFileSize opt /\
  tcount t + 1 < maxBatchCount opt /\ tsize t + sz + 10 < maxBatchSize opt /\
  t' = mkTxn (readTs t) (commitTs t) (tsize t + sz + 10) (tcount t + 1) (reads t)
         (if DetectConflicts opt then {[MemHash (eKey e)]} ∪ conflictKeys t else conflictKeys t)
         (<[eKey e := e']> (pendingWrites t))
         (match pendingWrites t !! eKey e with
          | Some old => if bool_decide (eversion old <> eversion e) then duplicateWrites t ++ [old] else duplicateWrites t
          | None => duplicateWrites t end)
         (numIterators t) false (doneRead t) true.
Proof using Type.
  unfold modify. destruct (update t) eqn:Eu; [|done]. cbn [negb]. destruct (discarded t) eqn:Ed; [done|].
  case_bool_decide as H1; [done|]. case_bool_decide as H2; [done|]. unfold exceedsSize.
  case_bool_decide as H3; [by case_bool_decide|]. case_bool_decide as H4; [by case_bool_decide|].
  destruct (InMemory opt && _); [by case_bool_decide|].
  destruct (isBanned opt banned (eKey e)) as [[]| |]; [|done..]. cbn [mbind result_bind].
  unfold checkSize, estimateSizeAndSetThreshold.
  assert (eKey (stick_threshold e threshold) = eKey e /\ eversion (stick_threshold e threshold) = eversion e) as [Ek Ev].
  { unfold stick_threshold. by case_bool_decide. }
  destruct (if bool_decide (len (vbytes (eValue (stick_threshold e threshold))) < evalThreshold (stick_threshold e threshold))
    then _ else _) as [sz e'] eqn:Esz.
  assert (e' = stick_threshold e threshold) as -> by (by destruct (bool_decide _) in Esz; injection Esz).
  cbn [fst]. destruct (bool_decide_reflect (maxBatchCount opt <= tcount t + 1)); [done|].
  destruct (bool_decide_reflect (maxBatchSize opt <= tsize t + sz + 10)); [done|]. cbn [orb mbind result_bind].
  intros [= <-]. rewrite Ek, Ev. split_and!; try done; try lia.
  - intros E. rewrite E in H1. done.
  - destruct t; cbn in *; subst; by destruct (DetectConflicts opt).
Qed.

(** A read changes nothing but the keys read. *)
Lemma Get_state banned db_get now t key t' r : txn_Get MemHash opt banned db_get now t key = (t', r) ->
  t' = t \/ update t = true /\ t' = add_read t (MemHash key) /\ forall e, pendingWrites t !! key = Some e -> eKey e <> key.
Proof using Type.
  unfold txn_Get, addReadKey. case_bool_decide; [intros [= <- _]; auto|].
  destruct (discarded t); [intros [= <- _]; auto|].
  destruct (isBanned opt banned key); [|intros [= <- _]; auto..].
  destruct (update t) eqn:Eu; [|intros [= <- _]; auto].
  destruct (pendingWrites t !! key) as [e|] eqn:Ep.
  - case_bool_decide as Hk.
    + intros [= <- _]; auto.
    + intros [= <- _]. right. split_and!; [done..|]. intros e' [= <-]. congruence.
  - intros [= <- _]. right. done.
Qed.

Lemma txn_run_const t0 ws rs t : txn_run t0 ws rs t -> readTs t = readTs t0 /\ update t = update t0 /\
  commitTs t = commitTs t0 /\ discarded t = discarded t0 /\ numIterators t = numIterators t0 /\ doneRead t = doneRead t0.
Proof using Type.
  induction 1 as [|ws rs t threshold banned e t' _ IH E _|ws rs t banned dbg now key t' r _ IH E].
  - done.
  - apply modify_ok in E as (Eu & Ed & _ & _ & _ & _ & _ & _ & ->). cbn.
    destruct IH as (H1 & H2 & H3 & H4 & H5 & H6). split_and!; congruence.
  - apply Get_state in E as [->|(_ & -> & _)]; done.
Qed.

Lemma txn_run_readonly t0 ws rs t : txn_run t0 ws rs t -> update t0 = false -> ws = [].
Proof using Type.
  induction 1 as [|ws rs t threshold banned e t' Hr _ E _|ws rs t banned dbg now key t' r _ IH E]; intros Hu; [done| |auto].
  apply modify_ok in E as (Eu & _). apply txn_run_const in Hr as (_ & H & _). congruence.
Qed.

(** The pending writes are the last write of every key, the keys to check for conflicts the
    hashes of the written ones, and the reads the hashes of what came from the database. *)
Record tracks (t0 : Txn) (ws : list Entry) (rs : list bytes) (t : Txn) : Prop := {
  tr_pending key : match last_write ws key with
                   | Some e => exists th, 0 < th /\ pendingWrites t !! key = Some (stick_threshold e th)
                   | None => pendingWrites t !! key = None end;
  tr_keys : DetectConflicts opt = true -> conflictKeys t = list_to_set ((fun e => MemHash (eKey e)) <$> ws);
  tr_reads : reads t = MemHash <$> rs;
  tr_count : tcount t = 1 + len ws;
  tr_dups : Forall (fun e => eversion e = 0) ws -> duplicateWrites t = [];
  tr_ok : Forall (fun e => eKey e <> [] /\ ~ badgerPrefix `prefix_of` eKey e /\ len (eKey e) <= maxKeySize /\
                           len (vbytes (eValue e)) <= ValueLogFileSize opt) ws
}.

Lemma stick_fields e th : let e' := stick_threshold e th in
  eKey e' = eKey e /\ eValue e' = eValue e /\ eExpiresAt e' = eExpiresAt e /\ eversion e' = eversion e /\
  emeta e' = emeta e /\ eUserMeta e' = eUserMeta e.
Proof using Type. unfold stick_threshold. by case_bool_decide. Qed.

Lemma last_write_key ws key e : last_write ws key = Some e -> eKey e = key /\ e ∈ ws.
Proof using Type.
  intros H. apply last_Some in H as [l H]. assert (e ∈ filter (fun e => eKey e = key) ws) as Hin.
  { rewrite H. apply elem_of_app. right. by apply list_elem_of_singleton. }
  by apply list_elem_of_filter in Hin.
Qed.

Lemma pending_key t0 ws rs t key e : tracks t0 ws rs t -> pendingWrites t !! key = Some e -> eKey e = key.
Proof using Type.
  intros [Hp _ _ _ _ _] He. specialize (Hp key). destruct (last_write ws key) as [w|] eqn:Ew; [|congruence].
  destruct Hp as (th & _ & Hp). rewrite He in Hp. injection Hp as ->.
  destruct (stick_fields w th) as (-> & _). by apply last_write_key in Ew as [-> _].
Qed.

Lemma txn_run_tracks ts upd ws rs t : txn_run (new_txn ts upd) ws rs t -> tracks (new_txn ts upd) ws rs t.
Proof using Type.
  induction 1 as [|ws rs t threshold banned e t' _ IH E Hth|ws rs t banned dbg now key t' r _ IH E].
  - split; cbn; try done.
  - pose proof IH as [I1 I2 I3 I4 I5 I6].
    apply modify_ok in E as (Eu & Ed & Hne & Hpre & Hks & Hvs & _ & _ & ->). split; cbn.
    + intros key. rewrite last_write_snoc. case_bool_decide as Hk.
      * subst key. rewrite lookup_insert_eq. by exists threshold.
      * rewrite lookup_insert_ne by done. apply I1.
    + intros Hd. rewrite Hd, fmap_app, list_to_set_app_L, <- I2 by done. cbn. set_solver.
    + done.
    + rewrite I4, len_app. unfold len. cbn. lia.
    + intros [Hw He]%Forall_app. apply Forall_cons in He as [He _]. rewrite I5 by done.
      specialize (I1 (eKey e)). destruct (last_write ws (eKey e)) as [w|] eqn:Ew; [|by rewrite I1].
      destruct I1 as (th & _ & ->). destruct (stick_fields w th) as (_ & _ & _ & -> & _).
      apply last_write_key in Ew as [_ Hin]. rewrite Forall_forall in Hw. rewrite (Hw w Hin).
      rewrite He. done.
    + apply Forall_app. split; [done|]. by constructor.
  - apply Get_state in E as [->|(_ & -> & _)].
    + by rewrite bool_decide_eq_true_2.
    + pose proof IH as [I1 I2 I3 I4 I5 I6]. rewrite bool_decide_eq_false_2.
      * split; cbn; try done. by rewrite I3, fmap_app.
      * cbn. intros Hr. apply (f_equal length) in Hr. rewrite length_app in Hr. cbn in Hr. lia.
Qed.
End Run.

(** ** Lemmas: the size of a commit *)

Lemma format_loop_length n : forall v acc, len (format_loop n v acc) <= Z.of_nat n + len acc.
Proof.
  induction n as [|n IH]; intros v acc; [cbn; lia|]. cbn [format_loop]. case_bool_decide.
  - unfold len. cbn [length]. lia.
  - etrans; [apply IH|]. unfold len. cbn [length]. lia.
Qed.

Lemma FormatUint_length v : len (FormatUint v) <= 20.
Proof. pose proof (format_loop_length 20 v []) as H. unfold FormatUint, len in *. cbn [length] in H. lia. Qed.

(** The estimate of an entry whose threshold is set. *)
Definition esize (e : Entry) : Z :=
  if bool_decide (len (vbytes (eValue e)) < evalThreshold e) then len (eKey e) + len (vbytes (eValue e)) + 2
  else len (eKey e) + 12 + 2.

Lemma estimate_stuck e th : (estimateSizeAndSetThreshold e th).1 = esize (stick_threshold e th).
Proof.
  unfold estimateSizeAndSetThreshold, esize. destruct (stick_fields e th) as (-> & -> & _). by case_bool_decide.
Qed.

Lemma stick_nonzero e th th' : 0 < th -> stick_threshold (stick_threshold e th) th' = stick_threshold e th.
Proof.
  intros Hth. unfold stick_threshold. destruct (bool_decide_reflect (evalThreshold e = 0)).
  - cbn. by rewrite bool_decide_eq_false_2 by lia.
  - by rewrite bool_decide_eq_false_2.
Qed.

Lemma esize_nonneg e : 0 <= esize e.
Proof. unfold esize, len. case_bool_decide; lia. Qed.

Definition sum_esize (c : Z) (l : list Entry) : Z := foldr (fun e n => esize e + c + n) 0 l.

Lemma sum_esize_perm c l l' : l ≡ₚ l' -> sum_esize c l = sum_esize c l'.
Proof. induction 1; cbn; [done|..]; unfold sum_esize in *; lia. Qed.

Definition pending_list (p : gmap (list byte) Entry) : list Entry := snd <$> map_to_list p.

Lemma pending_list_insert (p : gmap (list byte) Entry) k e :
  p !! k = None -> pending_list (<[k := e]> p) ≡ₚ e :: pending_list p.
Proof. intros H. unfold pending_list. by rewrite map_to_list_insert. Qed.

Lemma pending_sum_insert (p : gmap (list byte) Entry) k e c : 0 <= c ->
  sum_esize c (pending_list (<[k := e]> p)) <= esize e + c + sum_esize c (pending_list p).
Proof.
  intros Hc. destruct (p !! k) as [old|] eqn:E.
  - assert (pending_list p ≡ₚ old :: pending_list (delete k p)) as Hp.
    { rewrite <- (insert_delete_id p k old E) at 1. apply pending_list_insert. apply lookup_delete_eq. }
    rewrite <- insert_delete_eq, (sum_esize_perm c _ _ (pending_list_insert (delete k p) k e (lookup_delete_eq _ _))).
    rewrite (sum_esize_perm c _ _ Hp). cbn. unfold sum_esize. pose proof (esize_nonneg old). lia.
  - by rewrite (sum_esize_perm c _ _ (pending_list_insert p k e E)).
Qed.

(** What the size counters of a transaction bound. *)
Record sized (opt : txn_opts) (ws : list Entry) (t : Txn) : Prop := {
  sz_sum : 21 + sum_esize 10 (pending_list (pendingWrites t)) <= tsize t;
  sz_stuck key e : pendingWrites t !! key = Some e -> forall th, stick_threshold e th = e;
  sz_card : len (pending_list (pendingWrites t)) <= len ws;
  sz_some : ws <> [] -> pending_list (pendingWrites t) <> [] /\
              tcount t < maxBatchCount opt /\ tsize t < maxBatchSize opt
}.

Lemma pending_list_card (p : gmap (list byte) Entry) k e :
  len (pending_list (<[k := e]> p)) <= 1 + len (pending_list p).
Proof.
  unfold pending_list, len. rewrite !length_fmap, !length_map_to_list.
  destruct (p !! k) eqn:E; [rewrite map_size_insert_Some by done|rewrite map_size_insert_None by done]; lia.
Qed.

Lemma txn_run_sized MemHash opt ts upd ws rs t : txn_run MemHash opt (new_txn ts upd) ws rs t -> sized opt ws t.
Proof.
  induction 1 as [|ws rs t threshold banned e t' _ IH E Hth|ws rs t banned dbg now key t' r _ IH E].
  - by split.
  - destruct IH as [I1 I2 I3 _]. apply modify_ok in E as (_ & _ & _ & _ & _ & _ & Hc & Hs & ->).
    rewrite estimate_stuck in *. split; cbn.
    + pose proof (pending_sum_insert (pendingWrites t) (eKey e) (stick_threshold e threshold) 10 ltac:(lia)). lia.
    + intros key e'. rewrite lookup_insert_Some. intros [[_ <-]|[_ H]] th; [by apply stick_nonzero|by eapply I2].
    + pose proof (pending_list_card (pendingWrites t) (eKey e) (stick_threshold e threshold)).
      rewrite len_app. unfold len at 3. cbn. lia.
    + intros _. split; [|lia]. intros El. apply (f_equal length) in El.
      unfold pending_list in El. rewrite length_fmap, length_map_to_list in El. cbn in El.
      apply map_size_empty_inv in El. by apply insert_non_empty in El.
  - apply Get_state in E as [->|(_ & -> & _)]; destruct IH; by split.
Qed.

Lemma request_size_app th es1 es2 :
  request_size th (es1 ++ es2) = ((request_size th es1).1 + (request_size th es2).1,
                                  (request_size th es1).2 ++ (request_size th es2).2).
Proof.
  induction es1 as [|e es1 IH]; cbn [app request_size].
  - by destruct (request_size th es2).
  - destruct (estimateSizeAndSetThreshold e th) as [sz e']. rewrite IH. destruct (request_size th es1). cbn.
    f_equal. lia.
Qed.

Lemma request_size_length th es : length (request_size th es).2 = length es.
Proof.
  induction es as [|e es IH]; [done|]. cbn. destruct (estimateSizeAndSetThreshold e th).
  destruct (request_size th es). cbn in *. by rewrite IH.
Qed.

(** The entry of a transaction at its commit. *)
Definition committed_entry (commitTs : Z) (e : Entry) : Entry := processEntry true (setVersion commitTs e).
Arguments committed_entry : simpl never.

Lemma KeyWithTs_len k ts : len (KeyWithTs k ts) = len k + 8.
Proof. unfold KeyWithTs, U64ToBytes. rewrite len_app. unfold len. rewrite be_encode_length. lia. Qed.

Lemma committed_fields commitTs e : let e' := committed_entry commitTs e in
  evalThreshold e' = evalThreshold e /\ eValue e' = eValue e /\ len (eKey e') = len (eKey e) + 8.
Proof.
  unfold committed_entry, processEntry, setVersion.
  destruct (bool_decide (eversion e = 0)); split_and!; try done; apply KeyWithTs_len.
Qed.

Lemma committed_size commitTs th l : Forall (fun e => forall th, stick_threshold e th = e) l ->
  (request_size th (committed_entry commitTs <$> l)).1 = sum_esize 8 l.
Proof.
  induction 1 as [|e l He Hl IH]; [done|]. cbn [fmap list_fmap request_size].
  destruct (estimateSizeAndSetThreshold (committed_entry commitTs e) th) as [sz e'] eqn:E.
  pose proof (estimate_stuck (committed_entry commitTs e) th) as Es. rewrite E in Es. cbn in Es.
  destruct (request_size th (committed_entry commitTs <$> l)) as [n es]. cbn in *. rewrite IH. f_equal.
  rewrite Es. specialize (He th). unfold stick_threshold in *.
  pose proof (committed_fields commitTs e) as (E1 & E2 & E3).
  rewrite E1. destruct (bool_decide_reflect (evalThreshold e = 0)) as [H0|H0].
  - unfold esize. cbn [evalThreshold set_evalThreshold eValue eKey]. rewrite E2, E3.
    assert (th = evalThreshold e) as -> by (rewrite <- He; done).
    destruct (bool_decide (len (vbytes (eValue e)) < evalThreshold e)); lia.
  - unfold esize. rewrite E1, E2, E3.
    destruct (bool_decide (len (vbytes (eValue e)) < evalThreshold e)); lia.
Qed.

(** ** Lemmas: the entries of a commit *)

Lemma unversioned_keep writes : Forall (fun e => eversion e = 0) writes ->
  forallb (fun e => bool_decide (eversion e = 0)) writes = true.
Proof.
  induction 1 as [|e l He Hl IH]; [done|]. cbn. by rewrite IH, bool_decide_eq_true_2.
Qed.

Lemma commit_entries_unmanaged ts writes : Forall (fun e => eversion e = 0) writes -> ts <> 0 ->
  commit_entries ts writes = Ok ((committed_entry ts <$> writes) ++ [fin_entry ts]).
Proof.
  intros Hw Hts. unfold commit_entries. rewrite unversioned_keep by done. by rewrite bool_decide_eq_true_2.
Qed.

Lemma fin_size th ts : (request_size th [fin_entry ts]).1 <= 41.
Proof.
  cbn [request_size]. destruct (estimateSizeAndSetThreshold (fin_entry ts) th) as [sz e'] eqn:E. cbn [fst].
  pose proof (estimate_stuck (fin_entry ts) th) as Es. rewrite E in Es. cbn [fst] in Es. subst sz.
  pose proof (stick_fields (fin_entry ts) th) as (E1 & E2 & _). unfold esize. rewrite E1, E2.
  change (eKey (fin_entry ts)) with (KeyWithTs txnKey ts). change (eValue (fin_entry ts)) with (Some (FormatUint ts)).
  change (vbytes (Some (FormatUint ts))) with (FormatUint ts). rewrite KeyWithTs_len. change (len txnKey) with 11.
  pose proof (FormatUint_length ts). case_bool_decide; lia.
Qed.

Lemma sum_esize_add c d l : sum_esize (c + d) l = sum_esize c l + d * len l.
Proof.
  induction l as [|e l IH]; [unfold len; cbn; lia|]. cbn [sum_esize foldr]. unfold sum_esize in *. rewrite IH.
  unfold len. cbn [length]. lia.
Qed.

(** The writes an unmanaged transaction commits. *)
Lemma pending_unversioned MemHash opt ts upd ws rs t : txn_run MemHash opt (new_txn ts upd) ws rs t ->
  Forall (fun e => eversion e = 0) ws -> Forall (fun e => eversion e = 0) (pending_list (pendingWrites t)).
Proof.
  intros Hrun Hv. pose proof (txn_run_tracks _ _ _ _ _ _ _ Hrun) as [Hp _ _ _ _ _].
  apply Forall_forall. intros e He. apply list_elem_of_fmap in He as ([k e'] & -> & Hin).
  apply elem_of_map_to_list in Hin. specialize (Hp k). destruct (last_write ws k) as [w|] eqn:Ew; [|cbn in *; congruence].
  destruct Hp as (th & _ & Hp). rewrite Hin in Hp. injection Hp as ->. cbn.
  destruct (stick_fields w th) as (_ & _ & _ & -> & _). apply last_write_key in Ew as [_ Hw].
  rewrite Forall_forall in Hv. by apply Hv.
Qed.

(** ** Properties *)

Section Props.
Context (MemHash : bytes -> Z) (opt : txn_opts).

(** C11: A transaction reads its own writes and, for every other key, the database at its read
    timestamp: after any successful writes and any reads, [Get] of a key the transaction wrote
    shows the last write (a deletion or an expired entry as not found) without noting a read;
    of any other key it shows what [DB.get] has at the read timestamp and notes the key as
    read, and a read-only transaction notes nothing. *)
Theorem txn_reads_own_writes ts upd ws rs t banned db_get now key :
  txn_run MemHash opt (new_txn ts upd) ws rs t ->
  key <> [] -> isBanned opt banned key = Ok () ->
  txn_Get MemHash opt banned db_get now t key
  = match last_write ws key with
    | Some e => (t, own_item now ts key e)
    | None => (if upd then add_read t (MemHash key) else t,
               vs ← db_get (KeyWithTs key ts); db_item now key vs)
    end.
Proof using Type.
  intros Hrun Hne Hban. pose proof (txn_run_tracks _ _ _ _ _ _ _ Hrun) as Ht.
  destruct (txn_run_const _ _ _ _ _ _ Hrun) as (Ets & Eup & _ & Edis & _). cbn in Ets, Eup, Edis.
  pose proof (tr_pending _ _ _ _ _ _ Ht key) as Hp.
  unfold txn_Get, addReadKey. rewrite bool_decide_eq_false_2 by (unfold len; destruct key; [done|cbn; lia]).
  rewrite Edis, Hban, Eup, Ets. destruct (last_write ws key) as [e|] eqn:Ew.
  - destruct Hp as (th & _ & Hp). destruct upd.
    + rewrite Hp. destruct (stick_fields e th) as (E1 & E2 & E3 & E4 & E5 & E6).
      apply last_write_key in Ew as [<- _]. rewrite bool_decide_eq_true_2 by done. unfold own_item.
      by rewrite E2, E3, E5, E6.
    + apply txn_run_readonly in Hrun as ->; [|done]. discriminate Ew.
  - destruct upd; [|done]. rewrite Hp. cbn [readTs add_read]. by rewrite Ets.
Qed.

(** C34: Conflict detection sees keys: when a transaction read a key from the database that
    another, committed after its read timestamp, wrote, the oracle refuses it; and when the
    hash has no collision among the keys of the transactions, it refuses only then. *)
Theorem conflict_iff_overwritten o ts ws rs t (commits : list (Z * list Entry)) :
  DetectConflicts opt = true -> txn_run MemHash opt (new_txn ts true) ws rs t ->
  (forall c, c ∈ committedTxns o <-> exists cts ts' ws' rs' t', (cts, ws') ∈ commits /\
     txn_run MemHash opt (new_txn ts' true) ws' rs' t' /\ c = mkCommitted cts (conflictKeys t')) ->
  (forall cts ws', (cts, ws') ∈ commits -> exists ts' rs' t', txn_run MemHash opt (new_txn ts' true) ws' rs' t') ->
  ((exists cts ws' k, (cts, ws') ∈ commits /\ ts < cts /\ k ∈ rs /\ k ∈ eKey <$> ws') -> hasConflict o t = true) /\
  ((forall cts ws' k k', (cts, ws') ∈ commits -> k ∈ rs -> k' ∈ eKey <$> ws' -> MemHash k = MemHash k' -> k = k') ->
   hasConflict o t = true -> exists cts ws' k, (cts, ws') ∈ commits /\ ts < cts /\ k ∈ rs /\ k ∈ eKey <$> ws').
Proof using Type.
  intros Hd Hrun Hc Hex. pose proof (txn_run_tracks _ _ _ _ _ _ _ Hrun) as [_ _ Hr _ _ _].
  destruct (txn_run_const _ _ _ _ _ _ Hrun) as (Ets & _). cbn in Ets. unfold hasConflict. rewrite Hr, Ets.
  split.
  - intros (cts & ws' & k & Hin & Hlt & Hk & Hw). destruct (Hex _ _ Hin) as (ts' & rs' & t' & Hrun').
    pose proof (txn_run_tracks _ _ _ _ _ _ _ Hrun') as [_ Hkeys _ _ _ _].
    rewrite bool_decide_eq_false_2 by (destruct rs; [by apply elem_of_nil in Hk|done]).
    apply existsb_exists. exists (mkCommitted cts (conflictKeys t')). split.
    + apply list_elem_of_In, Hc. by exists cts, ts', ws', rs', t'.
    + cbn. rewrite bool_decide_eq_false_2 by lia. cbn. apply existsb_exists. exists (MemHash k). split.
      * apply list_elem_of_In, list_elem_of_fmap. by exists k.
      * apply bool_decide_eq_true_2. rewrite Hkeys by done. apply elem_of_list_to_set.
        apply list_elem_of_fmap in Hw as (e & -> & He). apply list_elem_of_fmap. by exists e.
  - intros Hinj. case_bool_decide; [done|]. rewrite existsb_exists. intros (c & Hcin & Hb).
    apply list_elem_of_In, Hc in Hcin as (cts & ts' & ws' & rs' & t' & Hin & Hrun' & ->). cbn in Hb.
    apply andb_true_iff in Hb as [Hlt Hb]. apply existsb_exists in Hb as (h & Hh & Hk).
    apply list_elem_of_In, list_elem_of_fmap in Hh as (k & -> & Hkr). apply bool_decide_eq_true_1 in Hk.
    pose proof (txn_run_tracks _ _ _ _ _ _ _ Hrun') as [_ Hkeys _ _ _ _]. rewrite Hkeys in Hk by done.
    apply elem_of_list_to_set, list_elem_of_fmap in Hk as (e & Eh & He).
    assert (eKey e ∈ eKey <$> ws') as Hw by (apply list_elem_of_fmap; by exists e).
    exists cts, ws', k. split_and!; [done| |done|].
    + apply negb_true_iff, bool_decide_eq_false in Hlt. lia.
    + by rewrite (Hinj cts ws' k (eKey e) Hin Hkr Hw Eh).
Qed.

(** C38: The size counters of a transaction bound its request: whatever order Go walks the
    pending writes in, the commit of an unmanaged transaction has at most [count] entries, so
    the limit on their number cannot refuse it, and a size of at most [size + 18]; with that
    much room left the request is accepted. *)
Theorem commit_request_accepted ts upd ws rs t cts pend threshold :
  txn_run MemHash opt (new_txn ts upd) ws rs t -> ws <> [] -> Forall (fun e => eversion e = 0) ws ->
  0 < cts -> pend ≡ₚ pending_list (pendingWrites t) ->
  exists es, commit_entries cts (pend ++ duplicateWrites t) = Ok es /\
    len es <= tcount t < maxBatchCount opt /\ (request_size threshold es).1 <= tsize t + 18 /\
    (tsize t + 18 < maxBatchSize opt ->
     sendToWriteCh opt threshold false es = Ok (request_size threshold es).2).
Proof using Type.
  intros Hrun Hne Hv Hcts Hp. pose proof (txn_run_tracks _ _ _ _ _ _ _ Hrun) as [_ _ _ Hcount Hdup _].
  pose proof (txn_run_sized _ _ _ _ _ _ _ Hrun) as [Hsum Hstuck Hcard Hsome]. destruct (Hsome Hne) as (Hpne & Hc & _).
  pose proof (pending_unversioned _ _ _ _ _ _ _ Hrun Hv) as Hpv. rewrite <- Hp in Hpv.
  assert (len pend = len (pending_list (pendingWrites t))) as El by (unfold len; by rewrite Hp).
  rewrite (sum_esize_perm 10 _ _ (symmetry Hp)) in Hsum. rewrite Hdup, app_nil_r by done.
  rewrite commit_entries_unmanaged by (done || lia). eexists. split; [done|].
  assert (Forall (fun e => forall th, stick_threshold e th = e) pend) as Hst.
  { rewrite Hp. apply Forall_forall. intros e He. apply list_elem_of_fmap in He as ([k e'] & -> & Hin).
    apply elem_of_map_to_list in Hin. by apply (Hstuck k). }
  assert (1 <= len pend) as H1.
  { destruct pend; [|unfold len; cbn; lia]. apply Permutation_nil_l in Hp. congruence. }
  assert ((request_size threshold ((committed_entry cts <$> pend) ++ [fin_entry cts])).1 <= tsize t + 18) as Hsz.
  { rewrite request_size_app. cbn [fst]. rewrite committed_size by done. pose proof (fin_size threshold cts).
    pose proof (sum_esize_add 8 2 pend). change (8 + 2) with 10 in *. lia. }
  assert (len ((committed_entry cts <$> pend) ++ [fin_entry cts]) <= tcount t) as Hcnt.
  { rewrite len_app. unfold len in *. rewrite length_fmap. cbn [length]. lia. }
  split_and!; try done.
  intros Hroom. unfold sendToWriteCh.
  pose proof (request_size_length threshold ((committed_entry cts <$> pend) ++ [fin_entry cts])) as Hl.
  destruct (request_size threshold _) as [sz es]. cbn [fst snd] in *.
  rewrite bool_decide_eq_false_2 by (unfold len in *; lia). rewrite bool_decide_eq_false_2 by lia. done.
Qed.
End Props.

(** ** Witnesses *)

Definition ex_opts : txn_opts := mkOpts 100 1000 2000000 false false true false (-1).
Definition ex_db (k : bytes) : result txn_error ValueStruct := Ok (mkVS x00 x00 0 (Some [x09]) 4).
Definition ex_writes : list Entry := [NewEntry [x61] (Some [x01]); delete_entry [x62]; NewEntry [x61] (Some [x02])].

Definition ex_modify (t : Txn) (e : Entry) : Txn :=
  match modify be_decode ex_opts 1000 ∅ t e with Ok t => t | _ => t end.

(** Two writes, a read of another key, a third write. *)
Definition ex_t2 (ts : Z) : Txn := foldl ex_modify (new_txn ts true) (take 2 ex_writes).
Definition ex_t3 (ts : Z) : Txn := (txn_Get be_decode ex_opts ∅ ex_db 0 (ex_t2 ts) [x63]).1.
Definition ex_txn (ts : Z) : Txn := foldl ex_modify (ex_t3 ts) (drop 2 ex_writes).

Lemma ex_txn_run ts : txn_run be_decode ex_opts (new_txn ts true) ex_writes [[x63]] (ex_txn ts).
Proof.
  assert (txn_run be_decode ex_opts (new_txn ts true) (take 2 ex_writes) [] (ex_t2 ts)) as H2.
  { eapply (run_write _ _ _ [_] [] (ex_modify (new_txn ts true) (NewEntry [x61] (Some [x01]))) 1000 ∅);
      [|vm_compute; reflexivity|lia].
    eapply (run_write _ _ _ [] [] (new_txn ts true) 1000 ∅); [|vm_compute; reflexivity|lia]. apply run_start. }
  eapply (run_write _ _ _ (take 2 ex_writes) [[x63]] (ex_t3 ts) 1000 ∅); [|vm_compute; reflexivity|lia].
  exact (run_read be_decode ex_opts _ _ [] _ ∅ ex_db 0 [x63] (ex_t3 ts) _ H2 (surjective_pairing _)).
Qed.

Lemma txn_reads_own_writes_witness :
  txn_Get be_decode ex_opts ∅ ex_db 0 (ex_txn 5) [x61]
  = (ex_txn 5, Ok (mkItem [x61] 5 x00 x00 (Some [x02]) None 0 true)) /\
  (txn_Get be_decode ex_opts ∅ ex_db 0 (ex_txn 5) [x62]).2 = Err ErrKeyNotFound /\
  txn_Get be_decode ex_opts ∅ ex_db 0 (ex_txn 5) [x64]
  = (add_read (ex_txn 5) 100, Ok (mkItem [x64] 4 x00 x00 None (Some [x09]) 0 false)).
Proof.
  split; [|split].
  - rewrite (txn_reads_own_writes be_decode ex_opts 5 true _ _ _ ∅ ex_db 0 [x61] (ex_txn_run 5) ltac:(discriminate) eq_refl).
    vm_compute. reflexivity.
  - rewrite (txn_reads_own_writes be_decode ex_opts 5 true _ _ _ ∅ ex_db 0 [x62] (ex_txn_run 5) ltac:(discriminate) eq_refl).
    vm_compute. reflexivity.
  - rewrite (txn_reads_own_writes be_decode ex_opts 5 true _ _ _ ∅ ex_db 0 [x64] (ex_txn_run 5) ltac:(discriminate) eq_refl).
    vm_compute. reflexivity.
Defined.

Definition ex_reader : Txn := (txn_Get be_decode ex_opts ∅ ex_db 0 (new_txn 5 true) [x61]).1.
Definition ex_committed : oracle := set_committed (newOracle false true) [mkCommitted 7 (conflictKeys (ex_txn 5))] 0.

Lemma conflict_iff_overwritten_witness :
  txn_run be_decode ex_opts (new_txn 5 true) [] [[x61]] ex_reader /\ hasConflict ex_committed ex_reader = true.
Proof.
  assert (txn_run be_decode ex_opts (new_txn 5 true) [] [[x61]] ex_reader) as Hrun.
  { exact (run_read be_decode ex_opts _ [] [] _ ∅ ex_db 0 [x61] ex_reader _ (run_start _ _ _) (surjective_pairing _)). }
  split; [exact Hrun|].
  apply (conflict_iff_overwritten be_decode ex_opts ex_committed 5 [] [[x61]] ex_reader [(7, ex_writes)] eq_refl Hrun).
  - assert (forall ts' rs' t', txn_run be_decode ex_opts (new_txn ts' true) ex_writes rs' t' ->
      conflictKeys t' = conflictKeys (ex_txn 5)) as Hk.
    { intros ts' rs' t' H'. rewrite (tr_keys _ _ _ _ _ _ (txn_run_tracks _ _ _ _ _ _ _ H') eq_refl).
      by rewrite (tr_keys _ _ _ _ _ _ (txn_run_tracks _ _ _ _ _ _ _ (ex_txn_run 5)) eq_refl). }
    intros c. split.
    + intros ->%list_elem_of_singleton. exists 7, 5, ex_writes, [[x63]], (ex_txn 5).
      split; [by apply list_elem_of_singleton|]. split; [apply ex_txn_run|done].
    + intros (cts & ts' & ws' & rs' & t' & Hin & H' & ->). apply list_elem_of_singleton in Hin. injection Hin as -> ->.
      apply list_elem_of_singleton. f_equal. by eapply Hk.
  - intros cts ws' Hin. apply list_elem_of_singleton in Hin. injection Hin as -> ->.
    exists 5, [[x63]], (ex_txn 5). apply ex_txn_run.
  - exists 7, ex_writes, [x61]. split; [by apply list_elem_of_singleton|]. split; [lia|].
    split; [by apply list_elem_of_singleton|]. apply list_elem_of_here.
Defined.

Lemma commit_request_accepted_witness :
  exists es, commit_entries 9 (pending_list (pendingWrites (ex_txn 5)) ++ duplicateWrites (ex_txn 5)) = Ok es /\
    sendToWriteCh ex_opts 1000 false es = Ok (request_size 1000 es).2.
Proof.
  destruct (commit_request_accepted be_decode ex_opts 5 true ex_writes [[x63]] (ex_txn 5) 9
    (pending_list (pendingWrites (ex_txn 5))) 1000 (ex_txn_run 5)) as (es & E & _ & _ & Hs).
  - discriminate.
  - repeat (apply Forall_cons_2; [reflexivity|]). apply Forall_nil_2.
  - lia.
  - reflexivity.
  - exists es. split; [exact E|]. apply Hs. vm_compute. reflexivity.
Defined.

(** ** The buffer for the end marker *)

Definition tight_opts : txn_opts := mkOpts 100 45 2000000 false false true false (-1).

(** A write the transaction accepts and the commit then refuses as too big: the size set aside
    for the end marker has no room for the digits of the timestamp. *)
Lemma accepted_write_too_big :
  exists t e, modify be_decode tight_opts 1000 ∅ (new_txn 5 true) e = Ok t /\ tsize t < maxBatchSize tight_opts /\
    exists es, commit_entries 10000 (pending_list (pendingWrites t)) = Ok es /\
      sendToWriteCh tight_opts 1000 false es = Err ErrTxnTooBig.
Proof.
  eexists _, (NewEntry [x61] (Some (replicate 10 x01))). split; [vm_compute; reflexivity|].
  split; [vm_compute; reflexivity|]. eexists. split; [vm_compute; reflexivity|]. vm_compute. reflexivity.
Qed.
