(* ===== verification/Sequence.v ===== *)
(** * Sequence: numbers that are handed out once (db.go)

    A sequence leases a range of numbers by writing its end under a key, in a transaction, and
    hands them out from memory.  No number is handed out twice by any number of sequences over
    the same key, as long as nobody goes on with a sequence after a call that broke it: a lease
    that failed, or a release that failed although its value was stored. *)

From S2P Require Import Prelude Keys Codec Watermark Oracle Transaction.

Record Sequence : Type := mkSeq { seq_key : bytes; next : Z; leased : Z; bandwidth : Z }.

Definition set_next (s : Sequence) (n : Z) : Sequence := mkSeq (seq_key s) n (leased s) (bandwidth s).
Definition set_leased (s : Sequence) (n : Z) : Sequence := mkSeq (seq_key s) (next s) n (bandwidth s).

Inductive seq_error : Type := SeqTxn (e : txn_error) | SeqEmptyKey | ErrZeroBandwidth.

(** [db.Update]: the function runs in a transaction, which is then committed; [outcome] is what
    that came to.  The entry the function set is returned too.  What the function did to variables
    of its own stays, whatever the outcome. *)
Definition Update {S} (fn : S * result txn_error (option Entry)) (outcome : result txn_error ())
    : S * result txn_error (option Entry) :=
  match fn with
  | (s, Ok None) => (s, Ok None)
  | (s, Ok (Some e)) => match outcome with Ok _ => (s, Ok (Some e)) | Err err => (s, Err err) | Panic => (s, Panic) end
  | (s, r) => (s, r)
  end.

(** [binary.BigEndian.Uint64] of a stored value. *)
Definition stored_num (v : bytes) : option Z := BytesToU64 v.

(** The function of [updateLease]; [got] is what [txn.Get] and the value of the item came to,
    [sets] what [txn.SetEntry] came to. *)
Definition lease_fn (s : Sequence) (got : result txn_error bytes) (sets : result txn_error ())
    : Sequence * result txn_error (option Entry) :=
  let lease s :=
    let lease := u64 (next s + bandwidth s) in
    match sets with
    | Ok _ => (set_leased s lease, Ok (Some (NewEntry (seq_key s) (Some (U64ToBytes lease)))))
    | Err e => (s, Err e)
    | Panic => (s, Panic)
    end in
  match got with
  | Err ErrKeyNotFound => lease (set_next s 0)
  | Err e => (s, Err e)
  | Panic => (s, Panic)
  | Ok v => match stored_num v with Some num => lease (set_next s num) | None => (s, Panic) end
  end.

Definition updateLease (s : Sequence) (got : result txn_error bytes) (sets outcome : result txn_error ())
    : Sequence * result txn_error (option Entry) := Update (lease_fn s got sets) outcome.

(** [Next] while the lease lasts, and after [updateLease]. *)
Definition hand_out (s : Sequence) : Sequence * Z := (set_next s (u64 (next s + 1)), next s).

Definition Next (s : Sequence) (got : result txn_error bytes) (sets outcome : result txn_error ())
    : Sequence * result txn_error Z * option Entry :=
  let out s w := let '(s, val) := hand_out s in (s, Ok val, w) in
  if bool_decide (leased s <= next s) then
    match updateLease s got sets outcome with
    | (s, Ok w) => out s w
    | (s, Err e) => (s, Err e, None)
    | (s, Panic) => (s, Panic, None)
    end
  else out s None.

Definition release_fn (s : Sequence) (got : result txn_error bytes) (sets : result txn_error ())
    : Sequence * result txn_error (option Entry) :=
  match got with
  | Err e => (s, Err e)
  | Panic => (s, Panic)
  | Ok v =>
      match stored_num v with
      | None => (s, Panic)
      | Some num =>
          if bool_decide (num = leased s) then
            match sets with
            | Ok _ => (s, Ok (Some (NewEntry (seq_key s) (Some (U64ToBytes (next s))))))
            | Err e => (s, Err e)
            | Panic => (s, Panic)
            end
          else (s, Ok None)
      end
  end.

Definition Release (s : Sequence) (got : result txn_error bytes) (sets outcome : result txn_error ())
    : Sequence * result txn_error (option Entry) :=
  match Update (release_fn s got sets) outcome with
  | (s, Ok w) => (set_leased s (next s), Ok w)
  | r => r
  end.

(** Panics in managed and in read-only mode. *)
Definition GetSequence (managed ReadOnly : bool) (key : bytes) (bw : Z) (got : result txn_error bytes) (sets outcome : result txn_error ())
    : option (Sequence * result seq_error (option Entry)) :=
  if managed || ReadOnly then None
  else if bool_decide (len key = 0) then Some (mkSeq key 0 0 bw, Err SeqEmptyKey)
  else if bool_decide (bw = 0) then Some (mkSeq key 0 0 bw, Err ErrZeroBandwidth)
  else
    match updateLease (mkSeq key 0 0 bw) got sets outcome with
    | (s, Ok w) => Some (s, Ok w)
    | (s, Err e) => Some (s, Err (SeqTxn e))
    | (s, Panic) => None
    end.

(** ** Many sequences over one key *)

(** The committed values of the key with their commit timestamps, newest first; the sequences,
    each with the read timestamp of its running transaction; those a failed call broke; the
    numbers handed out. *)
Record system : Type := mkSys {
  sy_store : list (Z * Z);
  sy_seqs : gmap nat (Sequence * option Z);
  sy_broken : gset nat;
  sy_out : list Z
}.

Definition value_at (store : list (Z * Z)) (ts : Z) : option Z := snd <$> head (filter (fun x => x.1 <= ts) store).

(** What a transaction with a read timestamp sees. *)
Definition got_at (store : list (Z * Z)) (ts : Z) : result txn_error bytes :=
  match value_at store ts with Some v => Ok (U64ToBytes v) | None => Err ErrKeyNotFound end.

Definition newest_ts (store : list (Z * Z)) : Z := from_option fst 0 (head store).

(** The value an entry writes. *)
Definition written (e : Entry) : Z := default 0 (stored_num (vbytes (eValue e))).

Definition put_store (store : list (Z * Z)) (cts : Z) (w : option Entry) : list (Z * Z) :=
  match w with Some e => (cts, written e) :: store | None => store end.

(** One call on sequence [i], or the begin of its transaction.  A transaction reads at a timestamp
    at which all is written, and commits, later, only if the key was not overwritten since (what
    [Oracle] and [Transaction] prove with conflict detection).  It may fail at any point: reading,
    setting the entry, for a conflict or in the writer, and then its value may be stored or not.
    The sequence stays as the code leaves it, and can be called again. *)
Inductive step (i : nat) : system -> system -> Prop :=
  | st_get store seqs br out key bw rts cts s w : seqs !! i = None -> 0 < bw -> newest_ts store <= rts < cts ->
      next s + bw < 2 ^ 64 ->
      GetSequence false false key bw (got_at store rts) (Ok ()) (Ok ()) = Some (s, Ok w) ->
      step i (mkSys store seqs br out) (mkSys (put_store store cts w) (<[i := (s, None)]> seqs) br out)
  | st_get_fails store seqs br out key bw got sets outcome s e : seqs !! i = None ->
      GetSequence false false key bw got sets outcome = Some (s, Err e) ->
      step i (mkSys store seqs br out) (mkSys store (<[i := (s, None)]> seqs) ({[i]} ∪ br) out)
  | st_get_fails_late store seqs br out key bw rts cts s w : seqs !! i = None -> 0 < bw -> newest_ts store <= rts < cts ->
      next s + bw < 2 ^ 64 ->
      GetSequence false false key bw (got_at store rts) (Ok ()) (Ok ()) = Some (s, Ok w) ->
      step i (mkSys store seqs br out) (mkSys (put_store store cts w) (<[i := (s, None)]> seqs) ({[i]} ∪ br) out)
  | st_begin store seqs br out s rts : seqs !! i = Some (s, None) -> newest_ts store <= rts ->
      step i (mkSys store seqs br out) (mkSys store (<[i := (s, Some rts)]> seqs) br out)
  | st_next store seqs br out s s' v w : seqs !! i = Some (s, None) -> next s < leased s ->
      Next s Panic (Ok ()) (Ok ()) = (s', Ok v, w) ->
      step i (mkSys store seqs br out) (mkSys store (<[i := (s', None)]> seqs) br (v :: out))
  | st_lease store seqs br out s rts cts s' v w : seqs !! i = Some (s, Some rts) -> leased s <= next s ->
      newest_ts store <= rts < cts -> v + bandwidth s < 2 ^ 64 ->
      Next s (got_at store rts) (Ok ()) (Ok ()) = (s', Ok v, w) ->
      step i (mkSys store seqs br out) (mkSys (put_store store cts w) (<[i := (s', None)]> seqs) br (v :: out))
  | st_lease_fails store seqs br out s rts got sets outcome s' e w : seqs !! i = Some (s, Some rts) -> leased s <= next s ->
      Next s got sets outcome = (s', Err e, w) ->
      step i (mkSys store seqs br out) (mkSys store (<[i := (s', None)]> seqs) ({[i]} ∪ br) out)
  | st_lease_fails_late store seqs br out s rts cts s' w : seqs !! i = Some (s, Some rts) -> leased s <= next s ->
      newest_ts store <= rts < cts -> next s' + bandwidth s < 2 ^ 64 -> updateLease s (got_at store rts) (Ok ()) (Ok ()) = (s', Ok w) ->
      step i (mkSys store seqs br out) (mkSys (put_store store cts w) (<[i := (s', None)]> seqs) ({[i]} ∪ br) out)
  | st_release store seqs br out s rts cts s' w : seqs !! i = Some (s, Some rts) -> newest_ts store <= rts < cts ->
      Release s (got_at store rts) (Ok ()) (Ok ()) = (s', Ok w) ->
      step i (mkSys store seqs br out) (mkSys (put_store store cts w) (<[i := (s', None)]> seqs) br out)
  | st_release_fails store seqs br out s rts got sets outcome s' e : seqs !! i = Some (s, Some rts) ->
      Release s got sets outcome = (s', Err e) ->
      step i (mkSys store seqs br out) (mkSys store (<[i := (s', None)]> seqs) br out)
  | st_release_fails_late store seqs br out s rts cts s' w : seqs !! i = Some (s, Some rts) -> newest_ts store <= rts < cts ->
      Release s (got_at store rts) (Ok ()) (Ok ()) = (s', Ok (Some w)) ->
      step i (mkSys store seqs br out) (mkSys (put_store store cts (Some w)) (<[i := (s, None)]> seqs) ({[i]} ∪ br) out).

(** A call on a sequence that no earlier call broke. *)
Definition careful (y y' : system) : Prop := exists i, step i y y' /\ i ∉ sy_broken y.

(** Any call. *)
Definition called (y y' : system) : Prop := exists i, step i y y'.

Definition sys_init (store : list (Z * Z)) : system := mkSys store ∅ ∅ [].

(** ** Lemmas *)

Definition top (store : list (Z * Z)) : Z := from_option snd 0 (head store).

Lemma stored_encoded v : 0 <= v < 2 ^ 64 -> stored_num (U64ToBytes v) = Some v.
Proof.
  intros Hv. unfold stored_num, BytesToU64, U64ToBytes. pose proof (be_slice_app 8 v []) as H. rewrite app_nil_r in H.
  change (Z.of_nat 8) with 8 in H. rewrite H. f_equal. apply Z.mod_small. lia.
Qed.

Lemma got_top store rts : newest_ts store <= rts ->
  got_at store rts = match head store with Some x => Ok (U64ToBytes x.2) | None => Err ErrKeyNotFound end.
Proof.
  unfold got_at, value_at, newest_ts. destruct store as [|[t v] store]; [done|]. intros Ht. cbn in Ht. rewrite filter_cons, decide_True by done. done.
Qed.

Record store_ok (store : list (Z * Z)) : Prop := { so_values : Forall (fun x => 0 <= x.2 < 2 ^ 64) store }.

Lemma top_range store : store_ok store -> 0 <= top store < 2 ^ 64.
Proof. intros [H]. unfold top. destruct store as [|x store]; [cbn; lia|]. by apply Forall_cons in H as [H _]. Qed.

(** A lease takes the numbers behind the stored one. *)
Lemma lease_top s store rts s' w : store_ok store -> newest_ts store <= rts -> 0 < bandwidth s ->
  updateLease s (got_at store rts) (Ok ()) (Ok ()) = (s', Ok w) -> next s' + bandwidth s < 2 ^ 64 ->
  s' = mkSeq (seq_key s) (top store) (top store + bandwidth s) (bandwidth s) /\
  exists e, w = Some e /\ written e = top store + bandwidth s.
Proof.
  intros Hst Hts Hbw. rewrite (got_top _ _ Hts). pose proof (top_range _ Hst) as Hr. unfold top in *.
  assert (forall n, 0 <= n < 2 ^ 64 -> Update (set_leased (set_next s n) (u64 (next (set_next s n) + bandwidth (set_next s n))),
      Ok (Some (NewEntry (seq_key s) (Some (U64ToBytes (u64 (next (set_next s n) + bandwidth (set_next s n)))))))) (Ok ()) = (s', Ok w) ->
    next s' + bandwidth s < 2 ^ 64 ->
    s' = mkSeq (seq_key s) n (n + bandwidth s) (bandwidth s) /\ exists e, w = Some e /\ written e = n + bandwidth s) as H.
  { intros n Hn. cbn. intros [= <- <-] Hlt. cbn in Hlt. rewrite u64_small by (unfold MaxUint64; lia).
    split; [done|]. eexists. split; [done|]. unfold written. cbn. by rewrite stored_encoded by lia. }
  unfold updateLease, lease_fn. destruct (head store) as [[t v]|]; cbn [from_option snd] in *.
  - rewrite stored_encoded by done. by apply H.
  - apply H. lia.
Qed.

Definition holds_range (s : Sequence) (v : Z) : Prop := next s <= v < leased s.

(** Of the sequences that are not broken. *)
Record sys_ok (store : list (Z * Z)) (seqs : gmap nat (Sequence * option Z)) (out : list Z) : Prop := {
  sk_store : store_ok store;
  sk_seq i s p : seqs !! i = Some (s, p) -> 0 <= next s <= leased s /\ leased s < 2 ^ 64 /\ 0 < bandwidth s /\
    forall v, holds_range s v -> v < top store /\ v ∉ out;
  sk_apart i j s s' p p' v : seqs !! i = Some (s, p) -> seqs !! j = Some (s', p') -> i <> j ->
    holds_range s v -> ~ holds_range s' v;
  sk_out : NoDup out;
  sk_below v : v ∈ out -> 0 <= v < top store
}.

Definition usable (y : system) : gmap nat (Sequence * option Z) := filter (fun x => x.1 ∉ sy_broken y) (sy_seqs y).

(** The numbers of sequence [i]. *)
Definition mine (seqs : gmap nat (Sequence * option Z)) (i : nat) (v : Z) : Prop := exists s p, seqs !! i = Some (s, p) /\ holds_range s v.

(** One sequence changes: its numbers, and the one that goes out, were its own or nobody's. *)
Lemma sys_ok_set store seqs out i s p store' out' : sys_ok store seqs out -> store_ok store' ->
  0 <= next s <= leased s /\ leased s < 2 ^ 64 /\ 0 < bandwidth s ->
  (forall v, holds_range s v -> v < top store' /\ (mine seqs i v \/ top store <= v)) ->
  (forall v, v < top store -> ~ mine seqs i v -> v < top store') ->
  (out' = out \/ exists v, out' = v :: out /\ ~ holds_range s v /\ 0 <= v < top store' /\ (mine seqs i v \/ top store <= v)) ->
  sys_ok store' (<[i := (s, p)]> seqs) out'.
Proof.
  intros [Hst Hseq Hap Hnd Hbel] Hst' (Hn & Hl & Hb) Hr Htop Hout. 
  assert (forall v, mine seqs i v \/ top store <= v -> v ∉ out) as Hfresh.
  { intros v [(s0 & p0 & E & Hv)|Hv] Hin; [by apply (Hseq i s0 p0 E) in Hv as [_ []]|apply Hbel in Hin; lia]. }
  assert (forall v j s1 p1, mine seqs i v \/ top store <= v -> j <> i -> seqs !! j = Some (s1, p1) -> ~ holds_range s1 v) as Hothers.
  { intros v j s1 p1 [(s0 & p0 & E & Hv)|Hv] Hji E1 Hv1; [by apply (Hap i j s0 s1 p0 p1 v)|]. apply (Hseq j s1 p1 E1) in Hv1 as [? _]. lia. }
  assert (forall v, v ∈ out' -> v ∈ out \/ out' = v :: out /\ ~ holds_range s v /\ 0 <= v < top store' /\ (mine seqs i v \/ top store <= v)) as Hin'.
  { destruct Hout as [->|(v & -> & H)]; [by left|]. intros w [->|Hw]%elem_of_cons; [by right|by left]. }
  split; [done|..].
  - intros j s1 p1 [[<- [= <- <-]]|[Hji E1]]%lookup_insert_Some.
    + split_and!; try lia. intros v Hv. destruct (Hr v Hv) as [H1 H2]. split; [done|]. intros [Hin|(_ & H3 & _)]%Hin'; [by apply (Hfresh v)|done].
    + destruct (Hseq j s1 p1 E1) as (H1 & H2 & H3 & H4). split_and!; try lia. intros v Hv. destruct (H4 v Hv) as [H5 H6]. split.
      * apply Htop; [done|]. intros Hm. apply (Hothers v j s1 p1); auto.
      * intros [Hin|(_ & _ & _ & Hm)]%Hin'; [done|]. apply (Hothers v j s1 p1); auto.
  - intros j k s1 s2 p1 p2 v [[<- [= <- <-]]|[Hji E1]]%lookup_insert_Some [[<- [= <- <-]]|[Hki E2]]%lookup_insert_Some Hjk Hv1; [done| | |by apply (Hap j k s1 s2 p1 p2)].
    + destruct (Hr v Hv1) as [_ Hm]. apply (Hothers v k s2 p2); auto.
    + intros Hv2. destruct (Hr v Hv2) as [_ Hm]. apply (Hothers v j s1 p1); auto.
  - destruct Hout as [->|(v & -> & _ & _ & Hm)]; [done|]. constructor; [by apply Hfresh|done].
  - intros v [Hin|(_ & _ & ? & _)]%Hin'; [|done]. pose proof (Hbel v Hin). split; [lia|]. apply Htop; [lia|]. intros Hm. apply (Hfresh v); auto.
Qed.

Lemma sys_ok_drop store seqs out i store' : sys_ok store seqs out -> store_ok store' -> top store <= top store' ->
  sys_ok store' (delete i seqs) out.
Proof.
  intros [Hst Hseq Hap Hnd Hbel] Hst' Ht.  split; try done.
  - intros j s p [_ E]%lookup_delete_Some. destruct (Hseq j s p E) as (H1 & H2 & H3 & H4). split_and!; try lia. intros v Hv. destruct (H4 v Hv). split; [lia|done].
  - intros j k s s' p p' v [_ E1]%lookup_delete_Some [_ E2]%lookup_delete_Some. by apply (Hap j k s s' p p' v).
  - intros v Hv. specialize (Hbel v Hv). lia.
Qed.

Lemma put_store_ok store cts w s : store_ok store -> 0 < bandwidth s -> top store + bandwidth s < 2 ^ 64 ->
  (exists e, w = Some e /\ written e = top store + bandwidth s) -> store_ok (put_store store cts w) /\ top (put_store store cts w) = top store + bandwidth s.
Proof.
  intros [Hst] Hb Hlt (e & -> & E). pose proof (top_range store ltac:(by split)). cbn [put_store]. unfold top at 1. cbn [head from_option snd]. split; [|done].
  split. constructor; [cbn; lia|done].
Qed.

(** A lease that ends well: the sequence has the numbers behind the stored one. *)
Lemma leased_ok store seqs out i s rts cts s' w p out' n : sys_ok store seqs out -> 0 < bandwidth s ->
  newest_ts store <= rts -> updateLease s (got_at store rts) (Ok ()) (Ok ()) = (s', Ok w) -> next s' + bandwidth s < 2 ^ 64 ->
  (out' = out /\ n = next s' \/ out' = next s' :: out /\ n = next s' + 1) ->
  sys_ok (put_store store cts w) (<[i := (set_next s' n, p)]> seqs) out'.
Proof.
  intros Hok Hb Hts El Hlt Ho. destruct (lease_top s store rts s' w (sk_store _ _ _ Hok) Hts Hb El Hlt) as [-> Hw]. cbn [next bandwidth] in *.
  destruct (put_store_ok store cts w s (sk_store _ _ _ Hok) Hb Hlt Hw) as [Hst' Ht]. pose proof (top_range store (sk_store _ _ _ Hok)) as Hr.
  apply (sys_ok_set store seqs out); [done|done| | | |]; cbn [set_next next leased bandwidth]; rewrite ?Ht.
  - lia.
  - intros v. unfold holds_range. cbn. intros Hv. split; [lia|right; lia].
  - lia.
  - destruct Ho as [[-> ->]|[-> ->]]; [by left|]. right. exists (top store). unfold holds_range. cbn. split_and!; [done|lia|lia|lia|right; lia].
Qed.

Lemma set_next_id s : set_next s (next s) = s.
Proof. by destruct s. Qed.

Lemma hand_out_mine s v seqs i p : seqs !! i = Some (s, p) -> next s = v -> next s < leased s -> mine seqs i v.
Proof. intros E <- H. exists s, p. split; [done|]. unfold holds_range. lia. Qed.

(** What [Release] does: it gives the rest of its range back if the store still ends with it. *)
Lemma release_ok store seqs out i s rts cts s' w : sys_ok store seqs out -> seqs !! i = Some (s, Some rts) -> newest_ts store <= rts ->
  Release s (got_at store rts) (Ok ()) (Ok ()) = (s', Ok w) -> sys_ok (put_store store cts w) (<[i := (s', None)]> seqs) out.
Proof.
  intros Hok E Hts. destruct (sk_seq _ _ _ Hok i s (Some rts) E) as (Hn & Hl & Hb & Hv). 
  rewrite (got_top _ _ Hts). pose proof (top_range store (sk_store _ _ _ Hok)) as Hr. unfold Release, release_fn.
  destruct (head store) as [[t num]|] eqn:Eh; [|done]. assert (top store = num) as Et by (unfold top; by rewrite Eh). cbn [snd].
  rewrite stored_encoded by (by rewrite <- Et). destruct (bool_decide_reflect (num = leased s)) as [En|En]; cbn [Update]; intros [= <- <-].
  - assert (written (NewEntry (seq_key s) (Some (U64ToBytes (next s)))) = next s) as Ew.
    { unfold written. cbn. by rewrite stored_encoded by lia. }
    assert (top (put_store store cts (Some (NewEntry (seq_key s) (Some (U64ToBytes (next s)))))) = next s) as Et' by exact Ew.
    apply (sys_ok_set store seqs out i _ None _ out Hok).
    + destruct (sk_store _ _ _ Hok) as [Hst]. split. cbn [put_store]. constructor; [cbn [snd]; rewrite Ew; lia|done].
    + cbn. lia.
    + intros v. unfold holds_range. cbn. lia.
    + rewrite Et'. intros v Hlt Hm. destruct (decide (v < next s)) as [?|?]; [done|]. destruct Hm. exists s, (Some rts). split; [done|]. unfold holds_range. lia.
    + by left.
  - apply (sys_ok_set store seqs out i _ None _ out Hok); [apply Hok|cbn; lia|intros v; unfold holds_range; cbn; lia|done|by left].
Qed.

Lemma release_err s got sets outcome s' e : Release s got sets outcome = (s', Err e) -> s' = s.
Proof.
  unfold Release, Update, release_fn. destruct got as [v|e0|]; [|by intros [= <-]|done].
  destruct (stored_num v) as [num|]; [|done]. case_bool_decide; [|done].
  destruct sets as [[]|e0|]; [|by intros [= <-]|done]. destruct outcome as [[]|e0|]; [done|by intros [= <-]|done].
Qed.

Lemma get_lease key bw got s w : GetSequence false false key bw got (Ok ()) (Ok ()) = Some (s, Ok w) ->
  updateLease (mkSeq key 0 0 bw) got (Ok ()) (Ok ()) = (s, Ok w).
Proof.
  unfold GetSequence. cbn [orb]. case_bool_decide; [done|]. case_bool_decide; [done|].
  destruct (updateLease _ _ _ _) as [s1 [w1|e|]]; [|done..]. by intros [= <- <-].
Qed.

(** A sequence that is whole stays so when its transaction begins or ends without effect. *)
Lemma sys_ok_pending store seqs out i s p p' : sys_ok store seqs out -> seqs !! i = Some (s, p) ->
  sys_ok store (<[i := (s, p')]> seqs) out.
Proof.
  intros Hok E. destruct (sk_seq _ _ _ Hok i s p E) as (H1 & H2 & H3 & H4).
  apply (sys_ok_set store seqs out); [done|apply Hok|done| |done|by left].
  intros v Hv. split; [by apply H4|left]. by exists s, p.
Qed.

(** The numbers it has are handed out one by one. *)
Lemma next_ok store seqs out i s s' v w : sys_ok store seqs out -> seqs !! i = Some (s, None) -> next s < leased s ->
  Next s Panic (Ok ()) (Ok ()) = (s', Ok v, w) -> sys_ok store (<[i := (s', None)]> seqs) (v :: out).
Proof.
  intros Hok E Hlt En. destruct (sk_seq _ _ _ Hok i s None E) as (H1 & H2 & H3 & H4).
  unfold Next in En. rewrite bool_decide_eq_false_2 in En by lia. injection En as <- <- <-. rewrite u64_small by (unfold MaxUint64; lia).
  apply (sys_ok_set store seqs out); [done|apply Hok|cbn; lia| |done|].
  - intros v. unfold holds_range. cbn. intros Hv. split; [apply H4; unfold holds_range; lia|]. left. exists s, None. split; [done|]. unfold holds_range. lia.
  - right. exists (next s). unfold holds_range. cbn. split_and!; [done|lia|lia|apply H4; unfold holds_range; lia|left]. by eapply hand_out_mine.
Qed.

Lemma lease_ok store seqs out i s rts cts s' v w : sys_ok store seqs out -> seqs !! i = Some (s, Some rts) -> leased s <= next s ->
  newest_ts store <= rts -> v + bandwidth s < 2 ^ 64 -> Next s (got_at store rts) (Ok ()) (Ok ()) = (s', Ok v, w) ->
  sys_ok (put_store store cts w) (<[i := (s', None)]> seqs) (v :: out).
Proof.
  intros Hok E Hle Hts Hlt En. destruct (sk_seq _ _ _ Hok i s (Some rts) E) as (H1 & H2 & H3 & H4).
  unfold Next in En. rewrite bool_decide_eq_true_2 in En by lia.
  destruct (updateLease s (got_at store rts) (Ok ()) (Ok ())) as [s1 [w1|e|]] eqn:El; [|done..]. injection En as <- <- <-.
  destruct (lease_top s store rts s1 w1 (sk_store _ _ _ Hok) Hts H3 El Hlt) as [Es1 _].
  assert (u64 (next s1 + 1) = next s1 + 1) as ->.
  { pose proof (top_range store (sk_store _ _ _ Hok)). apply u64_small. rewrite Es1 in *. unfold MaxUint64. cbn in *. lia. }
  apply (leased_ok store seqs out i s rts cts s1 w1 None _ (next s1 + 1)); try done. by right.
Qed.

(** A lease that was stored all the same takes the numbers behind the stored one from everybody. *)
Lemma late_ok store seqs out i s rts cts s' w : sys_ok store seqs out -> 0 < bandwidth s -> newest_ts store <= rts ->
  next s' + bandwidth s < 2 ^ 64 -> updateLease s (got_at store rts) (Ok ()) (Ok ()) = (s', Ok w) ->
  sys_ok (put_store store cts w) (delete i seqs) out.
Proof.
  intros Hok H3 Hts Hlt El. destruct (lease_top s store rts s' w (sk_store _ _ _ Hok) Hts H3 El Hlt) as [-> Hw].
  destruct (put_store_ok store cts w s (sk_store _ _ _ Hok) H3 Hlt Hw) as [Hst' Ht]. apply (sys_ok_drop store); [done|done|lia].
Qed.

Lemma usable_set store seqs br out i x store' out' : i ∉ br ->
  usable (mkSys store' (<[i := x]> seqs) br out') = <[i := x]> (usable (mkSys store seqs br out)).
Proof. intros Hi. unfold usable. cbn. by rewrite map_filter_insert_True. Qed.

Lemma usable_broken store seqs br out i x store' out' :
  usable (mkSys store' (<[i := x]> seqs) ({[i]} ∪ br) out') = delete i (usable (mkSys store seqs br out)).
Proof.
  apply map_eq. intros j. unfold usable. cbn. destruct (decide (j = i)) as [->|Hne].
  - rewrite lookup_delete_eq. apply map_lookup_filter_None. right. intros y _ Hn. cbn in Hn. set_solver.
  - rewrite lookup_delete_ne by done. apply option_eq. intros y. rewrite !map_lookup_filter_Some, lookup_insert_ne by done. cbn. set_solver.
Qed.

Lemma usable_lookup store seqs br out i x : i ∉ br -> seqs !! i = Some x -> usable (mkSys store seqs br out) !! i = Some x.
Proof. intros Hi E. apply map_lookup_filter_Some. by split. Qed.

Lemma careful_ok y y' : careful y y' -> sys_ok (sy_store y) (usable y) (sy_out y) -> sys_ok (sy_store y') (usable y') (sy_out y').
Proof.
  intros [i [Hs Hi]] Hok.
  destruct Hs as [store seqs br out key bw rts cts s w Ei Hb [Hts Hc] Hlt E|store seqs br out key bw got sets outcome s e Ei E
    |store seqs br out key bw rts cts s w Ei Hb [Hts Hc] Hlt E|store seqs br out s rts E Hts|store seqs br out s s' v w E Hlt En
    |store seqs br out s rts cts s' v w E Hle [Hts Hc] Hlt En|store seqs br out s rts got sets outcome s' e w E Hle En
    |store seqs br out s rts cts s' w E Hle [Hts Hc] Hlt En|store seqs br out s rts cts s' w E [Hts Hc] En
    |store seqs br out s rts got sets outcome s' e E En|store seqs br out s rts cts s' w E [Hts Hc] En];
    cbn [sy_store sy_out sy_broken] in *; rewrite ?(usable_broken store seqs br out), ?(usable_set store seqs br out) by done;
    try apply (usable_lookup store _ _ out _ _ Hi) in E.
  - rewrite <- (set_next_id s). eapply (leased_ok store _ out i (mkSeq key 0 0 bw)); [done|done|exact Hts|by apply get_lease|done|by left].
  - apply (sys_ok_drop store); [done|apply Hok|done].
  - by eapply (late_ok store _ out i (mkSeq key 0 0 bw)); [| | | |apply get_lease].
  - by apply (sys_ok_pending store _ out i s None).
  - by eapply next_ok.
  - by eapply lease_ok.
  - apply (sys_ok_drop store); [done|apply Hok|done].
  - eapply late_ok; [done| |exact Hts|exact Hlt|exact En]. by apply (sk_seq _ _ _ Hok i s (Some rts)).
  - by eapply release_ok.
  - rewrite (release_err _ _ _ _ _ _ En). by apply (sys_ok_pending store _ out i s (Some rts)).
  - pose proof (release_ok store _ out i s rts cts s' (Some w) Hok E Hts En) as Hr.
    rewrite <- (delete_insert_eq _ i (s', None)). apply (sys_ok_drop (put_store store cts (Some w))); [exact Hr|apply Hr|done].
Qed.

(** C17: no number is handed out twice, as long as nobody goes on with a sequence one of whose
    calls broke it.  Over any stored number, with any number of sequences, in this process or
    others, that start, hand out numbers, take new leases and give the rest of a range back in any
    order, with transactions that overlap and fail, in the reading, the setting or the commit,
    with their value stored or not: while every call is on a sequence whose earlier leases all
    succeeded (and with no release that failed after its value was stored), the numbers that went
    out are distinct, below the stored number, and in no range of a sequence that may be called.
    Without that care they are not: see [broken_sequence_repeats]. *)
Theorem sequence_unique store y : store_ok store -> rtc careful (sys_init store) y ->
  NoDup (sy_out y) /\ Forall (fun v => 0 <= v < top (sy_store y)) (sy_out y) /\
  forall i s p, sy_seqs y !! i = Some (s, p) -> i ∉ sy_broken y -> forall v, holds_range s v -> v ∉ sy_out y.
Proof.
  intros Hst Hr. assert (sys_ok (sy_store y) (usable y) (sy_out y)) as [_ Hseq _ Hnd Hbel].
  { assert (sys_ok (sy_store (sys_init store)) (usable (sys_init store)) (sy_out (sys_init store))) as H0.
    { split; cbn; [done| | |constructor|].
      - intros i s p [E _]%map_lookup_filter_Some. cbn in E; by apply lookup_empty_Some in E.
      - intros i j s s' p p' v [E _]%map_lookup_filter_Some. cbn in E; by apply lookup_empty_Some in E.
      - intros v Hv. by apply not_elem_of_nil in Hv. }
    revert H0. induction Hr as [|y0 y1 y2 Hs _ IH]; intros H0; [done|]. apply IH. by eapply careful_ok. }
  split; [done|]. split; [by apply Forall_forall|]. intros i s p E Hi v Hv. apply (Hseq i s p); [|done]. by apply map_lookup_filter_Some.
Qed.

(** ** Witness: three sequences; one gives back the rest of its range, a lease of another fails *)

Definition sx_a : Sequence := mkSeq [x61] 0 10 10.
Definition sx_b : Sequence := mkSeq [x61] 10 15 5.
Definition sx_c : Sequence := mkSeq [x61] 11 12 1.
Definition sx_num (n : Z) : option Entry := Some (NewEntry [x61] (Some (U64ToBytes n))).

Notation seqs := (gmap nat (Sequence * option Z)).
Definition sx_m1 : seqs := <[0%nat := (sx_a, None)]> ∅.
Definition sx_m2 : seqs := <[0%nat := (set_next sx_a 1, None)]> sx_m1.
Definition sx_m3 : seqs := <[1%nat := (sx_b, None)]> sx_m2.
Definition sx_m4 : seqs := <[1%nat := (set_next sx_b 11, None)]> sx_m3.
Definition sx_m5 : seqs := <[1%nat := (set_next sx_b 11, Some 2)]> sx_m4.
Definition sx_m6 : seqs := <[1%nat := (mkSeq [x61] 11 11 5, None)]> sx_m5.
Definition sx_m7 : seqs := <[2%nat := (sx_c, None)]> sx_m6.
Definition sx_m8 : seqs := <[2%nat := (set_next sx_c 12, None)]> sx_m7.
Definition sx_m9 : seqs := <[2%nat := (set_next sx_c 12, Some 4)]> sx_m8.
Definition sx_m10 : seqs := <[2%nat := (mkSeq [x61] 12 13 1, None)]> sx_m9.

Definition sx_s3 : list (Z * Z) := [(2, 15); (1, 10)].
Definition sx_s6 : list (Z * Z) := [(3, 11); (2, 15); (1, 10)].
Definition sx_s7 : list (Z * Z) := [(4, 12); (3, 11); (2, 15); (1, 10)].

Definition sx_y : system := mkSys sx_s7 sx_m10 {[2%nat]} [11; 10; 0].

(** A careful call on sequence [i] as the first of a run. *)
Lemma careful_l i y y' z : step i y y' -> bool_decide (i ∈ sy_broken y) = false -> rtc careful y' z -> rtc careful y z.
Proof. intros Hs Hi%bool_decide_eq_false Hr. eapply rtc_l; [|exact Hr]. by exists i. Qed.

Lemma sx_reach : rtc careful (sys_init []) sx_y.
Proof.
  eapply (careful_l 0). { apply (st_get 0 [] ∅ ∅ [] [x61] 10 0 1 sx_a (sx_num 10)); by vm_compute. } { done. }
  eapply (careful_l 0). { apply (st_next 0 [(1, 10)] sx_m1 ∅ [] sx_a (set_next sx_a 1) 0 None); by vm_compute. } { done. }
  eapply (careful_l 1). { apply (st_get 1 [(1, 10)] sx_m2 ∅ [0] [x61] 5 1 2 sx_b (sx_num 15)); by vm_compute. } { done. }
  eapply (careful_l 1). { apply (st_next 1 sx_s3 sx_m3 ∅ [0] sx_b (set_next sx_b 11) 10 None); by vm_compute. } { done. }
  eapply (careful_l 1). { apply (st_begin 1 sx_s3 sx_m4 ∅ [10; 0] (set_next sx_b 11) 2); by vm_compute. } { done. }
  eapply (careful_l 1). { apply (st_release 1 sx_s3 sx_m5 ∅ [10; 0] (set_next sx_b 11) 2 3 (mkSeq [x61] 11 11 5) (sx_num 11)); by vm_compute. } { done. }
  eapply (careful_l 2). { apply (st_get 2 sx_s6 sx_m6 ∅ [10; 0] [x61] 1 3 4 sx_c (sx_num 12)); by vm_compute. } { done. }
  eapply (careful_l 2). { apply (st_next 2 sx_s7 sx_m7 ∅ [10; 0] sx_c (set_next sx_c 12) 11 None); by vm_compute. } { done. }
  eapply (careful_l 2). { apply (st_begin 2 sx_s7 sx_m8 ∅ [11; 10; 0] (set_next sx_c 12) 4); by vm_compute. } { done. }
  eapply (careful_l 2).
  { apply (st_lease_fails 2 sx_s7 sx_m9 ∅ [11; 10; 0] (set_next sx_c 12) 4 (got_at sx_s7 4) (Ok ()) (Err ErrConflict) (mkSeq [x61] 12 13 1) ErrConflict None);
      by vm_compute. }
  { done. }
  apply rtc_refl.
Qed.

Lemma sequence_unique_witness : NoDup [11; 10; 0] /\ forall v, holds_range (set_next sx_a 1) v -> v ∉ [11; 10; 0].
Proof.
  destruct (sequence_unique [] sx_y ltac:(by split) sx_reach) as (H & _ & Hr). split; [exact H|].
  apply (Hr 0%nat (set_next sx_a 1) None); [by vm_compute|]. by apply (bool_decide_eq_true_1 (0%nat ∉ sy_broken sx_y)).
Defined.

(** ** Finding *)

(** The function of [updateLease] sets the lease before the commit.  When the commit fails - two
    sequences took a lease at once - the caller gets an error, and the next call hands out the
    numbers that were leased to the other. *)
Theorem failed_lease_hands_out key bw : 1 < bw < 2 ^ 63 ->
  let got := Err ErrKeyNotFound in
  let '(a, ra, _) := Next (mkSeq key 0 0 bw) got (Ok ()) (Ok ()) in
  let '(b, rb, _) := Next (mkSeq key 0 0 bw) got (Ok ()) (Err ErrConflict) in
  let '(_, rb', _) := Next b Panic (Ok ()) (Ok ()) in
  ra = Ok 0 /\ rb = Err ErrConflict /\ rb' = Ok 0.
Proof.
  intros Hbw got. assert (forall outcome, Next (mkSeq key 0 0 bw) got (Ok ()) outcome = match updateLease (mkSeq key 0 0 bw) got (Ok ()) outcome with
    | (s, Ok w) => let '(s, val) := hand_out s in (s, Ok val, w) | (s, Err e) => (s, Err e, None) | (s, Panic) => (s, Panic, None) end) as E.
  { intros outcome. unfold Next. cbn [leased next]. by rewrite bool_decide_eq_true_2 by lia. }
  rewrite !E. cbn. rewrite u64_small by (unfold MaxUint64; lia). unfold Next. cbn [leased next set_leased set_next seq_key bandwidth].
  by rewrite bool_decide_eq_false_2 by lia.
Qed.

(** In a run: two sequences with one number each want their next lease at once. *)
Definition sr_a (n : Z) : Sequence := mkSeq [x61] n n 1.
Definition sr_m1 : seqs := <[0%nat := (mkSeq [x61] 0 1 1, None)]> ∅.
Definition sr_m2 : seqs := <[1%nat := (mkSeq [x61] 1 2 1, None)]> sr_m1.
Definition sr_m3 : seqs := <[0%nat := (sr_a 1, None)]> sr_m2.
Definition sr_m4 : seqs := <[1%nat := (sr_a 2, None)]> sr_m3.
Definition sr_m5 : seqs := <[0%nat := (sr_a 1, Some 2)]> sr_m4.
Definition sr_m6 : seqs := <[1%nat := (sr_a 2, Some 2)]> sr_m5.
Definition sr_m7 : seqs := <[0%nat := (sr_a 3, None)]> sr_m6.
Definition sr_m8 : seqs := <[1%nat := (mkSeq [x61] 2 3 1, None)]> sr_m7.
Definition sr_m9 : seqs := <[1%nat := (sr_a 3, None)]> sr_m8.

Definition sr_s2 : list (Z * Z) := [(2, 2); (1, 1)].
Definition sr_s3 : list (Z * Z) := [(3, 3); (2, 2); (1, 1)].

Lemma called_l i y y' z : step i y y' -> rtc called y' z -> rtc called y z.
Proof. intros Hs Hr. eapply rtc_l; [|exact Hr]. by exists i. Qed.

(** Called again after its lease failed, the second hands out the number of the first. *)
Theorem broken_sequence_repeats : rtc called (sys_init []) (mkSys sr_s3 sr_m9 {[1%nat]} [2; 2; 1; 0]).
Proof.
  eapply (called_l 0). { apply (st_get 0 [] ∅ ∅ [] [x61] 1 0 1 (mkSeq [x61] 0 1 1) (sx_num 1)); by vm_compute. }
  eapply (called_l 1). { apply (st_get 1 [(1, 1)] sr_m1 ∅ [] [x61] 1 1 2 (mkSeq [x61] 1 2 1) (sx_num 2)); by vm_compute. }
  eapply (called_l 0). { apply (st_next 0 sr_s2 sr_m2 ∅ [] (mkSeq [x61] 0 1 1) (sr_a 1) 0 None); by vm_compute. }
  eapply (called_l 1). { apply (st_next 1 sr_s2 sr_m3 ∅ [0] (mkSeq [x61] 1 2 1) (sr_a 2) 1 None); by vm_compute. }
  eapply (called_l 0). { apply (st_begin 0 sr_s2 sr_m4 ∅ [1; 0] (sr_a 1) 2); by vm_compute. }
  eapply (called_l 1). { apply (st_begin 1 sr_s2 sr_m5 ∅ [1; 0] (sr_a 2) 2); by vm_compute. }
  eapply (called_l 0). { apply (st_lease 0 sr_s2 sr_m6 ∅ [1; 0] (sr_a 1) 2 3 (sr_a 3) 2 (sx_num 3)); by vm_compute. }
  eapply (called_l 1).
  { apply (st_lease_fails 1 sr_s3 sr_m7 ∅ [2; 1; 0] (sr_a 2) 2 (got_at sr_s2 2) (Ok ()) (Err ErrConflict) (mkSeq [x61] 2 3 1) ErrConflict None);
      by vm_compute. }
  eapply (called_l 1). { apply (st_next 1 sr_s3 sr_m8 ({[1%nat]} ∪ ∅) [2; 1; 0] (mkSeq [x61] 2 3 1) (sr_a 3) 2 None); by vm_compute. }
  apply rtc_refl.
Qed.
