(* ===== verification/ValueLog.v ===== *)
(** * ValueLog: the value log (value.go)

    Values at or above a threshold are appended to numbered log files; the LSM tree keeps a
    [valuePointer].  [vlog_write] appends the values of a batch of write requests and gives every
    entry its pointer, rotating to a new file when the current one is full; [vlog_Read] gets a
    value back.  Random IVs and the key registry are arguments. *)

From S2P Require Import Prelude Keys Codec Checksum Encrypt LogFile.

Record vlog_opts : Type := mkVOpts {
  vo_FileSize : Z;
  vo_MaxEntries : Z;
  vo_InMemory : bool;
  vo_ReadOnly : bool;
  vo_VerifyValueChecksum : bool
}.

Record valueLog : Type := mkVlog {
  filesMap : gmap Z logFile;
  maxFid : Z;
  filesToBeDeleted : list Z;
  numActiveIterators : Z;
  writableLogOffset : Z;
  numEntriesWritten : Z
}.

Inductive vlog_error : Type :=
  | ErrLog (e : log_error) | ErrTooBig | ErrFileNotFound | ErrInvalidOffset | ErrChecksum | ErrInvalidRead
  | ErrAlreadyMarked.

Definition lift_log {A} (r : result log_error A) : result vlog_error A :=
  match r with Ok a => Ok a | Err e => Err (ErrLog e) | Panic => Panic end.

Definition set_file (vl : valueLog) (fid : Z) (lf : logFile) : valueLog :=
  mkVlog (<[fid := lf]> (filesMap vl)) (maxFid vl) (filesToBeDeleted vl) (numActiveIterators vl)
    (writableLogOffset vl) (numEntriesWritten vl).

Definition set_woffset (vl : valueLog) (off : Z) : valueLog :=
  mkVlog (filesMap vl) (maxFid vl) (filesToBeDeleted vl) (numActiveIterators vl) off (numEntriesWritten vl).

Definition add_written (vl : valueLog) (n : Z) : valueLog :=
  mkVlog (filesMap vl) (maxFid vl) (filesToBeDeleted vl) (numActiveIterators vl) (writableLogOffset vl)
    (u32 (numEntriesWritten vl + n)).

Definition woffset (vl : valueLog) : Z := writableLogOffset vl.

Definition iteratorCount (vl : valueLog) : Z := numActiveIterators vl.

Definition incrIteratorCount (vl : valueLog) : valueLog :=
  mkVlog (filesMap vl) (maxFid vl) (filesToBeDeleted vl) (numActiveIterators vl + 1) (writableLogOffset vl)
    (numEntriesWritten vl).

(** The file ids not pending deletion, sorted. *)
Definition sortedFids (vl : valueLog) : list Z :=
  sort_by Z.compare id (filter (fun f => f ∉ filesToBeDeleted vl) (fst <$> map_to_list (filesMap vl))).

(** The last iterator deletes the files that wait for it. *)
Definition decrIteratorCount (vl : valueLog) : valueLog :=
  let num := numActiveIterators vl - 1 in
  if bool_decide (num <> 0) then
    mkVlog (filesMap vl) (maxFid vl) (filesToBeDeleted vl) num (writableLogOffset vl) (numEntriesWritten vl)
  else
    mkVlog (foldr delete (filesMap vl) (filesToBeDeleted vl)) (maxFid vl) [] num (writableLogOffset vl)
      (numEntriesWritten vl).

Definition maxVlogFileSize : Z := 2 ^ 32 - 1.

Definition estimateRequestSize (es : list Entry) : Z :=
  foldr (fun e n => maxHeaderSize + len (eKey e) + len (vbytes (eValue e)) + 4 + n) 0 es.

Fixpoint validate_loop (FileSize : Z) (vlogOffset : Z) (reqs : list (list Entry)) : bool :=
  match reqs with
  | [] => true
  | r :: reqs =>
      let estimated := vlogOffset + estimateRequestSize r in
      if bool_decide (maxVlogFileSize < estimated) then false
      else if bool_decide (FileSize <= estimated) then validate_loop FileSize 0 reqs
      else validate_loop FileSize estimated reqs
  end.

Definition validateWrites (opt : vlog_opts) (vl : valueLog) (reqs : list (list Entry)) : bool :=
  validate_loop (vo_FileSize opt) (woffset vl) reqs.

(** What creating a file needs: the registry, and the random bytes for the file. *)
Record vlog_env : Type := mkVEnv {
  ve_latest : result log_error (option DataKey);
  ve_registry : Z -> result log_error (option DataKey);
  ve_iv : Z -> bytes
}.

Section ValueLog.
Context `{A : BlockCipher} `{M : Mmap} (opt : vlog_opts) (env : vlog_env).

Definition createVlogFile (vl : valueLog) : result vlog_error valueLog :=
  let fid := u32 (maxFid vl + 1) in
  '(lf, _) ← lift_log (lf_open (mkLog fid [] 0 None [] vlogHeaderSize (vo_ReadOnly opt)) None (2 * vo_FileSize opt)
                         (ve_latest env) (ve_registry env) (ve_iv env fid));
  if bool_decide (maxFid vl < fid) then
    Ok (mkVlog (<[fid := lf]> (filesMap vl)) fid (filesToBeDeleted vl) (numActiveIterators vl) vlogHeaderSize 0)
  else Panic.

(** The file [write] appends to. *)
Definition curlf (vl : valueLog) : result vlog_error logFile := unpanic (filesMap vl !! maxFid vl).

(** The inner [write]. *)
Definition write_buf (vl : valueLog) (buf : bytes) : result vlog_error valueLog :=
  if bool_decide (buf = []) then Ok vl
  else
    lf ← curlf vl;
    let n := u32 (len buf) in
    let endOffset := u32 (woffset vl + n) in
    lf ← (if bool_decide (len (lf_Data lf) <= endOffset) then lift_log (lf_Truncate lf endOffset) else Ok lf);
    let start := u32 (endOffset - n) in
    '(data, k) ← unpanic (copy_at (lf_Data lf) start buf);
    if bool_decide (k = n) then
      Ok (set_woffset (set_file vl (maxFid vl) (set_size (set_Data lf data) endOffset)) endOffset)
    else Panic.

Definition toDisk (vl : valueLog) : result vlog_error valueLog :=
  if bool_decide (u32 (vo_FileSize opt) < woffset vl) || bool_decide (vo_MaxEntries opt < numEntriesWritten vl) then
    lf ← curlf vl;
    lf ← lift_log (doneWriting lf (woffset vl));
    createVlogFile (set_file vl (maxFid vl) lf)
  else Ok vl.

(** One entry: what is in the file has no transaction marks. *)
Definition clear_txn (m : byte) : byte := clear_bit m (Z.lor bitTxn bitFinTxn).

Definition write_value (threshold : Z) (vl : valueLog) (e : Entry) : result vlog_error (valueLog * Entry * valuePointer * Z) :=
  let '(skip, e) := skipVlogAndSetThreshold e threshold in
  if skip then Ok (vl, e, mkVP 0 0 0, 0)
  else
    lf ← curlf vl;
    '(buf, plen) ← lift_log (encodeEntry lf (set_emeta e (clear_txn (emeta e))) (woffset vl));
    let p := mkVP (lf_fid lf) (u32 plen) (woffset vl) in
    vl ← write_buf vl buf;
    Ok (vl, e, p, 1).

Fixpoint write_entries (threshold : Z) (vl : valueLog) (es : list Entry)
    : result vlog_error (valueLog * list (Entry * valuePointer) * Z) :=
  match es with
  | [] => Ok (vl, [], 0)
  | e :: es =>
      '(vl, e, p, w) ← write_value threshold vl e;
      '(vl, l, written) ← write_entries threshold vl es;
      Ok (vl, (e, p) :: l, w + written)
  end.

(** The requests, each with the pointers of its entries. *)
Fixpoint write_reqs (threshold : Z) (vl : valueLog) (reqs : list (list Entry))
    : result vlog_error (valueLog * list (list (Entry * valuePointer))) :=
  match reqs with
  | [] => Ok (vl, [])
  | r :: reqs =>
      '(vl, l, written) ← write_entries threshold vl r;
      vl ← toDisk (add_written vl written);
      '(vl, ls) ← write_reqs threshold vl reqs;
      Ok (vl, l :: ls)
  end.

(** [valueLog.write]; in memory-only mode ([None]) the requests stay as they are, without pointers. *)
Definition vlog_write (threshold : Z) (vl : valueLog) (reqs : list (list Entry))
    : result vlog_error (valueLog * option (list (list (Entry * valuePointer)))) :=
  if vo_InMemory opt then Ok (vl, None)
  else if negb (validateWrites opt vl reqs) then Err ErrTooBig
  else
    '(vl, ls) ← write_reqs threshold vl reqs;
    vl ← toDisk vl;
    Ok (vl, Some ls).

(** [dropAll]: every file is deleted, and the numbering starts again. *)
Definition vlog_dropAll (vl : valueLog) : result vlog_error (valueLog * Z) :=
  if vo_InMemory opt then Ok (vl, 0)
  else
    let count := Z.of_nat (size (filesMap vl)) in
    vl ← createVlogFile (mkVlog ∅ 0 (filesToBeDeleted vl) (numActiveIterators vl) (writableLogOffset vl)
                           (numEntriesWritten vl));
    Ok (vl, count).

(** ** Reading *)

Definition getFileRLocked (vl : valueLog) (vp : valuePointer) : result vlog_error logFile :=
  match filesMap vl !! Fid vp with
  | None => Err ErrFileNotFound
  | Some lf =>
      if negb (vo_ReadOnly opt) && bool_decide (Fid vp = maxFid vl) && bool_decide (woffset vl <= Offset vp)
      then Err ErrInvalidOffset else Ok lf
  end.

Definition readValueBytes (vl : valueLog) (vp : valuePointer) : result vlog_error (bytes * logFile) :=
  lf ← getFileRLocked vl vp;
  buf ← lift_log (lf_read lf vp);
  Ok (buf, lf).

Definition vlog_Read (vl : valueLog) (vp : valuePointer) : result vlog_error bytes :=
  '(buf, lf) ← readValueBytes vl vp;
  _ ← (if vo_VerifyValueChecksum opt then
         body ← unpanic (slice buf 0 (len buf - 4));
         checksum ← unpanic (slice_from buf (len buf - 4));
         sum ← unpanic (BytesToU32 checksum);
         if bool_decide (crc32c body = sum) then Ok () else Err ErrChecksum
       else Ok ());
  '(h, headerLen) ← unpanic (header_Decode buf);
  kv ← unpanic (slice_from buf headerLen);
  kv ← (if encryptionEnabled lf then lift_log (decryptKV lf kv (Offset vp)) else Ok kv);
  if bool_decide (u32 (len kv) < u32 (klen h + vlen h)) then Err ErrInvalidRead
  else unpanic (slice kv (klen h) (u32 (klen h + vlen h))).

(** ** Opening *)

(** The files of the directory are opened in order; empty ones are removed, the last one is cut
    behind its last whole entry, and writing goes on in a new file. *)
Fixpoint open_files (maxFid : Z) (files : list (Z * bytes)) : result vlog_error (gmap Z logFile) :=
  match files with
  | [] => Ok ∅
  | (fid, d) :: files =>
      '(lf, _) ← lift_log (lf_open (mkLog fid [] 0 None [] 0 (vo_ReadOnly opt)) (Some d) (2 * vo_FileSize opt)
                             (ve_latest env) (ve_registry env) (ve_iv env fid));
      m ← open_files maxFid files;
      if bool_decide (lf_size lf = vlogHeaderSize) && bool_decide (fid <> maxFid) && negb (vo_ReadOnly opt)
      then Ok m else Ok (<[fid := lf]> m)
  end.

Definition vlog_init : valueLog := mkVlog ∅ 0 [] 0 0 0.

Definition vlog_open (files : list (Z * bytes)) : result vlog_error valueLog :=
  if vo_InMemory opt then Ok vlog_init
  else
    let maxFid := foldr (fun f m => Z.max f.1 m) 0 files in
    match files with
    | [] => if vo_ReadOnly opt then Ok vlog_init else createVlogFile vlog_init
    | _ =>
        m ← open_files maxFid (sort_by Z.compare fst files);
        let vl := mkVlog m maxFid [] 0 0 0 in
        if vo_ReadOnly opt then Ok vl
        else
          last ← unpanic (m !! maxFid);
          lastOff ← lift_log (iterate (fun _ _ s => Cont s) last vlogHeaderSize ()).2;
          last ← lift_log (lf_Truncate last lastOff);
          createVlogFile (set_file vl maxFid last)
    end.
End ValueLog.

(** ** Lemmas: stored values *)

Section Stored.
Context `{A : BlockCipher} `{!BlockCipherLaws A} `{M : Mmap} `{!MmapLaws M}.
Context (opt : vlog_opts) (env : vlog_env).

(** The record of [e] is at [p] in the file. *)
Definition rec_at (lf : logFile) (p : valuePointer) (e : Entry) : Prop :=
  entry_fits e /\ 0 <= Offset p /\ Offset p + Len p <= lf_size lf /\ exists r,
    encodeEntry lf e (Offset p) = Ok (r, Len p) /\ len r = Len p /\
    slice (lf_Data lf) (Offset p) (Offset p + Len p) = Some r.

(** ... in the value log, before the place it writes at. *)
Definition stored (vl : valueLog) (p : valuePointer) (e : Entry) : Prop :=
  exists lf, filesMap vl !! Fid p = Some lf /\ rec_at lf p e /\
    (Fid p = maxFid vl -> Offset p + Len p <= woffset vl).

Record file_ok (f : Z) (lf : logFile) : Prop := {
  fo_fid : lf_fid lf = f;
  fo_cipher : cipher_ok lf;
  fo_len : len (lf_Data lf) < 2 ^ 32;
  fo_rw : lf_ReadOnly lf = false
}.

Record vlog_wf (vl : valueLog) : Prop := {
  vk_files : map_Forall file_ok (filesMap vl);
  vk_cur : exists lf, filesMap vl !! maxFid vl = Some lf /\ vlogHeaderSize <= woffset vl <= len (lf_Data lf);
  vk_max f : is_Some (filesMap vl !! f) -> 0 <= f <= maxFid vl
}.

(** Between requests the write offset is not beyond the size limit of a file. *)
Definition vlog_ok (vl : valueLog) : Prop := vlog_wf vl /\ woffset vl <= vo_FileSize opt.

Lemma slice_of_take {X} (l : list X) i j w : j <= w <= len l -> slice (take (Z.to_nat w) l) i j = slice l i j.
Proof using Type.
  intros H. unfold slice. destruct (decide (0 <= i <= j)) as [Hi|Hi].
  - assert (len (take (Z.to_nat w) l) = w) as -> by (unfold len in *; rewrite length_take; lia).
    rewrite !bool_decide_eq_true_2 by lia. f_equal. rewrite skipn_firstn_comm, take_take. f_equal. lia.
  - rewrite !bool_decide_eq_false_2 by lia. done.
Qed.

Lemma rec_at_same lf lf' p e w : rec_at lf p e -> same_key lf lf' -> Offset p + Len p <= w ->
  w <= len (lf_Data lf) -> w <= len (lf_Data lf') ->
  take (Z.to_nat w) (lf_Data lf') = take (Z.to_nat w) (lf_Data lf) ->
  Offset p + Len p <= lf_size lf' -> rec_at lf' p e.
Proof using Type.
  intros (Hf & Ho & Hs & r & E & Hl & Hsl) Hk Hw H1 H2 Ht Hs'. unfold rec_at. split_and!; [done..|].
  exists r. rewrite <- (encodeEntry_same lf lf') by done. split_and!; [done..|].
  rewrite <- (slice_of_take _ _ _ w) by lia. rewrite Ht, slice_of_take by lia. done.
Qed.

Lemma rec_len_pos lf p e : cipher_ok lf -> rec_at lf p e -> 0 < Len p /\ Offset p + Len p <= len (lf_Data lf).
Proof using BlockCipherLaws0.
  intros Hok (Hf & Ho & _ & r & E & Hl & Hs). destruct (encode_length lf e _ _ _ Hok Hf E) as [El _].
  pose proof (record_len_bound e Hf). split; [lia|]. unfold slice in Hs. case_bool_decide; [lia|done].
Qed.

(** A stored value is read back. *)
Lemma stored_Read vl p e : map_Forall file_ok (filesMap vl) -> stored vl p e ->
  vlog_Read opt vl p = Ok (vbytes (eValue e)).
Proof using BlockCipherLaws0.
  intros Hfiles (lf & El & Hrec & Hcur). pose proof (Hfiles _ _ El) as [_ Hok Hlen _].
  destruct (rec_len_pos lf p e Hok Hrec) as [Hpos Hend]. destruct Hrec as (Hf & Ho & Hsz & r & E & Hl & Hs).
  unfold vlog_Read, readValueBytes, getFileRLocked. rewrite El.
  assert (negb (vo_ReadOnly opt) && bool_decide (Fid p = maxFid vl) && bool_decide (woffset vl <= Offset p) = false) as ->.
  { apply andb_false_iff. destruct (bool_decide_reflect (Fid p = maxFid vl)) as [H|H].
    - right. apply bool_decide_eq_false_2. specialize (Hcur H). lia.
    - left. by rewrite andb_false_r. }
  cbn [mbind result_bind]. unfold lf_read. rewrite (wrap_small 32) by lia.
  rewrite !bool_decide_eq_false_2 by lia. cbn [orb]. rewrite Hs. cbn [unpanic lift_log mbind result_bind].
  pose proof (entry_header_wf e Hf) as Hwf.
  destruct (encodeEntry_ok lf e (Offset p) Hok Hf) as (kv & E' & Hlk & Hd). rewrite E in E'. injection E' as -> _.
  unfold record_of. set (hb := header_bytes (entry_header e)). set (crc := U32ToBytes (crc32c (hb ++ kv))).
  assert (len crc = 4) as Hcrc by (unfold crc, U32ToBytes, len; by rewrite be_encode_length).
  assert ((if vo_VerifyValueChecksum opt then
      body ← unpanic (slice (hb ++ kv ++ crc) 0 (len (hb ++ kv ++ crc) - 4));
      checksum ← unpanic (slice_from (hb ++ kv ++ crc) (len (hb ++ kv ++ crc) - 4));
      sum ← unpanic (BytesToU32 checksum);
      if bool_decide (crc32c body = sum) then Ok () else Err ErrChecksum
    else Ok ()) = Ok ()) as ->.
  { destruct (vo_VerifyValueChecksum opt); [|done]. rewrite !(app_assoc hb).
    assert (len ((hb ++ kv) ++ crc) - 4 = len (hb ++ kv)) as -> by (rewrite len_app; lia).
    pose proof (slice_app_mid [] (hb ++ kv) crc) as H1. cbn [app] in H1. change (len []) with 0 in H1.
    rewrite Z.add_0_l in H1. rewrite H1. cbn [unpanic mbind result_bind]. rewrite slice_from_app.
    cbn [unpanic mbind result_bind]. unfold BytesToU32. pose proof (slice_app_mid [] crc []) as H2.
    rewrite app_nil_l, app_nil_r, Hcrc in H2. change (len [] + 4) with 4 in H2. change (len []) with 0 in H2. rewrite H2.
    cbn [fmap option_fmap option_map unpanic mbind result_bind]. unfold crc, U32ToBytes. rewrite be_roundtrip4, wrap_small by apply crc32c_range.
    by rewrite bool_decide_eq_true_2. }
  cbn [mbind result_bind]. unfold hb. rewrite header_Decode_bytes by done. cbn [unpanic mbind result_bind]. fold hb.
  rewrite slice_from_app. cbn [unpanic mbind result_bind]. destruct (Hd crc) as (rest' & Hr & Edec).
  assert ((if encryptionEnabled lf then lift_log (decryptKV lf (kv ++ crc) (Offset p)) else Ok (kv ++ crc))
    = lift_log (Ok ((eKey e ++ vbytes (eValue e)) ++ rest') : result log_error bytes)) as ->.
  { rewrite <- Edec. by destruct (encryptionEnabled lf). }
  cbn [lift_log mbind result_bind klen vlen entry_header].
  destruct Hf as (H1 & H2 & _). assert (len rest' = 4) as Hr4 by (unfold len in *; lia).
  rewrite !(wrap_small 32) by (rewrite ?len_app; unfold len in *; lia).
  rewrite bool_decide_eq_false_2 by (rewrite !len_app; lia).
  rewrite <- app_assoc, slice_app_mid. done.
Qed.

(** ** Lemmas: writing *)

Lemma copy_at_mid (a b buf : bytes) : len buf <= len b ->
  copy_at (a ++ b) (len a) buf = Some (a ++ buf ++ drop (length buf) b, len buf).
Proof using Type.
  intros H. rewrite <- (take_drop (length buf) b) at 1. apply copy_at_app.
  rewrite length_take. unfold len in H. lia.
Qed.

(** What appending a record does to the value log: everything stored stays, the rest is kept. *)
Definition extends (vl vl' : valueLog) : Prop :=
  (forall p e, stored vl p e -> stored vl' p e) /\ filesToBeDeleted vl' = filesToBeDeleted vl /\
  numActiveIterators vl' = numActiveIterators vl.

Lemma extends_refl vl : extends vl vl.
Proof using Type. by split_and!. Qed.

Lemma extends_trans a b c : extends a b -> extends b c -> extends a c.
Proof using Type. intros (H1 & H2 & H3) (H4 & H5 & H6). split_and!; [auto|congruence|congruence]. Qed.

(** Replacing the current file by one that agrees up to the write offset. *)
Lemma stored_set_file vl lf lf' w' : map_Forall file_ok (filesMap vl) -> filesMap vl !! maxFid vl = Some lf ->
  same_key lf lf' -> woffset vl <= len (lf_Data lf) -> woffset vl <= len (lf_Data lf') ->
  take (Z.to_nat (woffset vl)) (lf_Data lf') = take (Z.to_nat (woffset vl)) (lf_Data lf) ->
  woffset vl <= lf_size lf' \/ lf_size lf' = lf_size lf -> woffset vl <= w' ->
  extends vl (set_woffset (set_file vl (maxFid vl) lf') w').
Proof using Type.
  intros Hfiles El Hk H1 H2 Ht Hs Hw. split_and!; [|done..]. intros p e (lfp & Ep & Hrec & Hcur).
  unfold stored. cbn [filesMap set_woffset set_file maxFid woffset writableLogOffset].
  destruct (decide (maxFid vl = Fid p)) as [Hm|Hm].
  - rewrite <- Hm in *. rewrite El in Ep. injection Ep as <-. exists lf'. rewrite lookup_insert_eq.
    specialize (Hcur eq_refl). split_and!; [done| |unfold woffset in *; lia].
    eapply (rec_at_same lf lf' p e (woffset vl)); [done..|].
    destruct Hrec as (_ & _ & Hsz & _). lia.
  - exists lfp. rewrite lookup_insert_ne by done. split_and!; [done..|]. intros ?. congruence.
Qed.

Lemma write_buf_ok vl buf : vlog_wf vl -> buf <> [] -> woffset vl + len buf < 2 ^ 32 -> 
  exists vl' lf lf' post, write_buf vl buf = Ok vl' /\
    filesMap vl !! maxFid vl = Some lf /\ filesMap vl' = <[maxFid vl := lf']> (filesMap vl) /\
    maxFid vl' = maxFid vl /\ woffset vl' = woffset vl + len buf /\ numEntriesWritten vl' = numEntriesWritten vl /\
    extends vl vl' /\ same_key lf lf' /\ file_ok (maxFid vl) lf' /\ lf_size lf' = woffset vl + len buf /\
    lf_Data lf' = take (Z.to_nat (woffset vl)) (lf_Data lf) ++ buf ++ post.
Proof using MmapLaws0.
  intros [Hfiles (lf & El & Hw0 & Hw1) Hmax] Hne Hb. unfold vlogHeaderSize in *.
  pose proof (Hfiles _ _ El) as [Hfid Hok Hlen Hrw]. set (w := woffset vl) in *.
  assert (0 < len buf) as Hpos by (unfold len; destruct buf; [done|cbn; lia]).
  unfold write_buf, curlf. rewrite bool_decide_eq_false_2, El by done. cbn [unpanic mbind result_bind].
  fold w. rewrite (wrap_small 32 (len buf)), (wrap_small 32 (w + len buf)) by lia.
  assert (exists lf1, (if bool_decide (len (lf_Data lf) <= w + len buf) then lift_log (lf_Truncate lf (w + len buf)) else Ok lf)
    = Ok lf1 /\ same_key lf lf1 /\ lf_fid lf1 = lf_fid lf /\ lf_ReadOnly lf1 = false /\
    w + len buf <= len (lf_Data lf1) < 2 ^ 32 /\
    take (Z.to_nat w) (lf_Data lf1) = take (Z.to_nat w) (lf_Data lf)) as (lf2 & -> & Hk & Hf2 & Hr2 & Hl2 & Ht2).
  { destruct (bool_decide_reflect (len (lf_Data lf) <= w + len buf)) as [Hle|Hgt].
    - unfold lf_Truncate. case_bool_decide as Heq; [exists lf; split_and!; done || lia|]. rewrite Hrw.
      eexists. split; [done|]. rewrite Truncate_resize by lia. cbn [lf_fid lf_ReadOnly set_size set_Data lf_Data].
      assert (resize (Z.to_nat (w + len buf)) x00 (lf_Data lf)
        = lf_Data lf ++ replicate (Z.to_nat (w + len buf) - length (lf_Data lf)) x00) as ->.
      { apply resize_ge. unfold len in *. lia. }
      split_and!; [done..| | |].
      + rewrite len_app. unfold len. rewrite length_replicate. unfold len in *. lia.
      + rewrite len_app. unfold len. rewrite length_replicate. unfold len in *. lia.
      + rewrite take_app_le by (unfold len in *; lia). done.
    - exists lf. split_and!; done || lia. }
  cbn [mbind result_bind]. replace (w + len buf - len buf) with w by lia. rewrite (wrap_small 32 w) by lia.
  assert (len (take (Z.to_nat w) (lf_Data lf2)) = w) as Hlw by (unfold len in *; rewrite length_take; lia).
  pose proof (copy_at_mid (take (Z.to_nat w) (lf_Data lf2)) (drop (Z.to_nat w) (lf_Data lf2)) buf) as Hc.
  rewrite Hlw, take_drop in Hc. rewrite Hc by (unfold len in *; rewrite length_drop; lia).
  cbn [unpanic mbind result_bind]. rewrite bool_decide_eq_true_2 by done.
  set (post := drop (length buf) (drop (Z.to_nat w) (lf_Data lf2))). set (d := _ ++ buf ++ post).
  assert (len d = len (lf_Data lf2)) as Hd.
  { unfold d, post, len. rewrite !length_app, length_take, !length_drop. unfold len in *. lia. }
  set (lf' := set_size (set_Data lf2 d) (w + len buf)).
  eexists _, lf, lf', post. split; [done|]. cbn [filesMap maxFid woffset writableLogOffset numEntriesWritten set_woffset set_file].
  split_and!; try done.
  - apply (stored_set_file vl lf lf'); try done.
    + cbn [lf_Data lf' set_size set_Data]. rewrite Hd. unfold w in *. lia.
    + cbn [lf_Data lf' set_size set_Data]. fold w. unfold d. rewrite take_app_le by (unfold len in Hlw; lia).
      rewrite take_take, Nat.min_id. done.
    + left. cbn. fold w. lia.
    + fold w. lia.
  - split; cbn [lf' lf_fid lf_Data lf_ReadOnly set_size set_Data].
    + congruence.
    + destruct Hk as [E1 E2]. unfold cipher_ok in *. cbn. by rewrite <- E1, <- E2.
    + rewrite Hd. lia.
    + done.
  - cbn [lf' lf_Data set_size set_Data]. unfold d. by rewrite Ht2.
Qed.

(** The record written for an entry. *)
Definition logged (e : Entry) : Entry := set_emeta e (clear_txn (emeta e)).

(** What [write] makes of an entry: its threshold is set; a small value stays in the LSM tree
    and has no pointer, another one is stored at its pointer. *)
Definition written (threshold : Z) (vl : valueLog) (e : Entry) (x : Entry * valuePointer) : Prop :=
  x.1 = stick_threshold e threshold /\
  if bool_decide (len (vbytes (eValue e)) < evalThreshold x.1) then x.2 = mkVP 0 0 0
  else stored vl x.2 (logged x.1).

Lemma written_extends threshold vl vl' e x : extends vl vl' -> written threshold vl e x -> written threshold vl' e x.
Proof using Type.
  intros (He & _) [H1 H2]. split; [done|]. destruct (bool_decide _); [done|]. by apply He.
Qed.

Lemma fits_logged e threshold : entry_fits e -> entry_fits (logged (stick_threshold e threshold)).
Proof using Type. unfold stick_threshold. by case_bool_decide. Qed.

Lemma record_len_logged e threshold : entry_fits e ->
  record_len (logged (stick_threshold e threshold)) <= maxHeaderSize + len (eKey e) + len (vbytes (eValue e)) + 4.
Proof using Type.
  intros Hf. pose proof (entry_header_wf _ (fits_logged e threshold Hf)) as Hwf.
  pose proof (header_bytes_length _ Hwf). unfold record_len.
  assert (eKey (logged (stick_threshold e threshold)) = eKey e /\ eValue (logged (stick_threshold e threshold)) = eValue e) as [-> ->].
  { unfold stick_threshold. by case_bool_decide. }
  lia.
Qed.

Lemma write_value_ok threshold vl e : vlog_wf vl -> entry_fits e ->
  woffset vl + estimateRequestSize [e] < 2 ^ 32 ->
  exists vl' x n, write_value threshold vl e = Ok (vl', x.1, x.2, n) /\ vlog_wf vl' /\ extends vl vl' /\
    maxFid vl' = maxFid vl /\ numEntriesWritten vl' = numEntriesWritten vl /\ 0 <= n <= 1 /\
    woffset vl <= woffset vl' <= woffset vl + estimateRequestSize [e] /\ written threshold vl' e x.
Proof using BlockCipherLaws0 MmapLaws0.
  intros Hwf Hf Hb. cbn [estimateRequestSize foldr] in *. rewrite Z.add_0_r in *.
  pose proof Hwf as [Hfiles (lf & El & Hw0 & Hw1) Hmax].
  unfold write_value, skipVlogAndSetThreshold. set (e1 := stick_threshold e threshold).
  assert (eValue e1 = eValue e) as Ev by (unfold e1, stick_threshold; by case_bool_decide). rewrite Ev.
  assert (0 <= maxHeaderSize + len (eKey e) + len (vbytes (eValue e)) + 4) as Hpos by (unfold maxHeaderSize, len; lia).
  destruct (bool_decide (len (vbytes (eValue e)) < evalThreshold e1)) eqn:Eb.
  - exists vl, (e1, mkVP 0 0 0), 0. split_and!; try done; try lia. unfold written. cbn [fst snd]. fold e1. by rewrite Eb.
  - unfold curlf. rewrite El. cbn [unpanic mbind result_bind]. fold (logged e1).
    pose proof (Hfiles _ _ El) as [Hfid Hok Hlen Hrw]. pose proof (fits_logged e threshold Hf) as Hfl. fold e1 in Hfl.
    destruct (encodeEntry_ok lf (logged e1) (woffset vl) Hok Hfl) as (kv & E & Hl & _).
    set (r := record_of (entry_header (logged e1)) kv) in *.
    assert (len r = record_len (logged e1)) as Hlr by by apply record_length.
    pose proof (record_len_bound _ Hfl) as Hrb. pose proof (record_len_logged e threshold Hf) as Hrl. fold e1 in Hrl.
    rewrite E. cbn [lift_log mbind result_bind].
    destruct (write_buf_ok vl r Hwf) as (vl' & lf0 & lf' & post & -> & El0 & Ef & Em & Ew & En & Hext & Hk & Hfo & Hs & Ed);
      [intros Hnil; rewrite Hnil in Hlr; unfold len in Hlr; cbn in Hlr; lia|lia|].
    rewrite El in El0. injection El0 as <-.
    cbn [mbind result_bind]. rewrite (wrap_small 32) by lia.
    set (p := mkVP (lf_fid lf) (record_len (logged e1)) (woffset vl)).
    assert (len (take (Z.to_nat (woffset vl)) (lf_Data lf)) = woffset vl) as Htl.
    { unfold len in *. rewrite length_take. unfold vlogHeaderSize in Hw0. lia. }
    exists vl', (e1, p), 1. split_and!; try done; try lia.
    + split.
      * rewrite Ef. by apply map_Forall_insert_2.
      * exists lf'. rewrite Ef, Em, lookup_insert_eq. split; [done|]. rewrite Ew, Ed, !len_app, Htl.
        unfold vlogHeaderSize, len in *. lia.
      * intros f. rewrite Ef, Em. intros [Heq|[_ H]]%lookup_insert_is_Some; [rewrite <- Heq; apply Hmax; by eexists|by apply Hmax].
    + unfold written. cbn [fst snd]. rewrite Eb. split; [done|].
      unfold stored, p. cbn [Fid Offset Len]. rewrite Hfid, Ef, Em, lookup_insert_eq, Ew, Hlr. exists lf'.
      split_and!; [done| |lia]. unfold rec_at. cbn [Offset Len]. unfold vlogHeaderSize in *. split_and!; [done|lia|lia|].
      exists r. rewrite <- (encodeEntry_same lf lf') by done. split_and!; [done..|].
      rewrite Ed, <- Hlr. rewrite <- Htl at 2 3. apply slice_app_mid.
Qed.

Lemma estimate_cons e es : estimateRequestSize (e :: es) = estimateRequestSize [e] + estimateRequestSize es.
Proof using Type. unfold estimateRequestSize. cbn [foldr]. lia. Qed.

Lemma estimate_nonneg es : 0 <= estimateRequestSize es.
Proof using Type. induction es as [|e es IH]; [done|].
  rewrite estimate_cons. unfold estimateRequestSize at 1. cbn [foldr]. unfold maxHeaderSize, len. lia. Qed.

Lemma write_entries_ok threshold es : forall vl, vlog_wf vl -> Forall entry_fits es ->
  woffset vl + estimateRequestSize es < 2 ^ 32 ->
  exists vl' l n, write_entries threshold vl es = Ok (vl', l, n) /\ vlog_wf vl' /\ extends vl vl' /\
    maxFid vl' = maxFid vl /\ numEntriesWritten vl' = numEntriesWritten vl /\ 0 <= n <= len es /\
    woffset vl <= woffset vl' <= woffset vl + estimateRequestSize es /\ Forall2 (written threshold vl') es l.
Proof using BlockCipherLaws0 MmapLaws0.
  induction es as [|e es IH]; intros vl Hwf Hfit Hb.
  - exists vl, [], 0. split_and!; try done; cbn; lia.
  - apply Forall_cons in Hfit as [He Hes]. rewrite estimate_cons in Hb |- *.
    pose proof (estimate_nonneg es) as Hn. pose proof (estimate_nonneg [e]) as Hn1.
    destruct (write_value_ok threshold vl e Hwf He ltac:(lia)) as (vl1 & [e1 p1] & n1 & E1 & Hwf1 & Hx1 & Em1 & En1 & Hn1' & Hw1 & Hwr1).
    destruct (IH vl1 Hwf1 Hes ltac:(lia)) as (vl2 & l & n2 & E2 & Hwf2 & Hx2 & Em2 & En2 & Hn2 & Hw2 & Hwr2).
    exists vl2, ((e1, p1) :: l), (n1 + n2). cbn [write_entries]. rewrite E1. cbn [fst snd mbind result_bind]. rewrite E2.
    cbn [mbind result_bind]. split_and!; try done; try congruence; try lia.
    + by eapply extends_trans.
    + unfold len in *. cbn [length]. lia.
    + constructor; [by eapply written_extends|done].
Qed.

(** ** Lemmas: rotation and whole batches *)

(** Every file that is created gets a usable key. *)
Definition env_ok : Prop :=
  exists dk, forall fid, registry_ok (ve_latest env) (ve_registry env) (ve_iv env fid) dk.

Definition opt_ok : Prop :=
  vo_ReadOnly opt = false /\ vo_InMemory opt = false /\ vlogHeaderSize <= vo_FileSize opt < 2 ^ 31.

Lemma createVlogFile_ok vl : env_ok -> opt_ok -> map_Forall file_ok (filesMap vl) ->
  (forall f, is_Some (filesMap vl !! f) -> 0 <= f <= maxFid vl) -> 0 <= maxFid vl -> maxFid vl + 1 < 2 ^ 32 ->
  exists lf, createVlogFile opt env vl
    = Ok (mkVlog (<[maxFid vl + 1 := lf]> (filesMap vl)) (maxFid vl + 1) (filesToBeDeleted vl) (numActiveIterators vl) 20 0) /\
    file_ok (maxFid vl + 1) lf /\ 20 <= len (lf_Data lf).
Proof using BlockCipherLaws0 MmapLaws0.
  intros (dk & Henv) (Hro & _ & Hfs) Hfiles Hmax H0 Hm. unfold createVlogFile, vlogHeaderSize in *.
  rewrite (wrap_small 32) by lia. set (fid := maxFid vl + 1).
  destruct (lf_open_new (ve_latest env) (ve_registry env) (ve_iv env fid) dk
    (mkLog fid [] 0 None [] 20 (vo_ReadOnly opt)) (2 * vo_FileSize opt) (Henv fid)) as (body & Hl & _ & ->); [lia|done|].
  cbn [lift_log mbind result_bind]. rewrite bool_decide_eq_true_2 by lia. eexists. split; [done|].
  cbn [lf_Data lf_fid lf_writeAt lf_ReadOnly]. rewrite Hl. split; [|lia].
  pose proof (Henv fid) as [_ _ _ Hk Hiv].
  split; cbn; [done| |lia|done]. unfold cipher_ok. cbn. destruct dk as [k|]; [|done]. split; [by apply Hk|lia].
Qed.

Lemma toDisk_ok vl : env_ok -> opt_ok -> vlog_wf vl -> maxFid vl + 1 < 2 ^ 32 -> woffset vl < 2 ^ 32 ->
  exists vl', toDisk opt env vl = Ok vl' /\ vlog_ok vl' /\ extends vl vl' /\
    maxFid vl <= maxFid vl' <= maxFid vl + 1.
Proof using BlockCipherLaws0 MmapLaws0.
  intros Henv Hopt Hwf Hm Hw. pose proof Hwf as [Hfiles (lf & El & Hw0 & Hw1) Hmax]. unfold vlogHeaderSize in *.
  pose proof Hopt as (Hro & _ & Hfs). unfold vlogHeaderSize in Hfs.
  unfold toDisk. rewrite (wrap_small 32) by lia.
  destruct (bool_decide (vo_FileSize opt < woffset vl) || bool_decide (vo_MaxEntries opt < numEntriesWritten vl)) eqn:Eb.
  2: { exists vl. apply orb_false_iff in Eb as [Eb _]. apply bool_decide_eq_false in Eb.
       split; [done|]. split; [split; [done|lia]|]. split; [apply extends_refl|lia]. }
  unfold curlf. rewrite El. cbn [unpanic mbind result_bind]. pose proof (Hfiles _ _ El) as [Hfid Hok Hlen Hrw].
  assert (exists lf', doneWriting lf (woffset vl) = Ok lf' /\ same_key lf lf' /\ lf_fid lf' = lf_fid lf /\ lf_ReadOnly lf' = false /\
    lf_Data lf' = take (Z.to_nat (woffset vl)) (lf_Data lf) /\ (lf_size lf' = woffset vl \/ lf_size lf' = lf_size lf))
    as (lf' & -> & Hk & Hf' & Hr' & Hd' & Hs').
  { unfold doneWriting, lf_Truncate. destruct (bool_decide_reflect (len (lf_Data lf) = woffset vl)) as [Heq|Heq].
    - exists lf. split_and!; try done; [|by right]. rewrite take_ge by (unfold len in *; lia). done.
    - rewrite Hrw. eexists. split; [done|]. cbn [lf_Data lf_fid lf_ReadOnly lf_size set_size set_Data].
      rewrite Truncate_take, (wrap_small 32 (woffset vl)) by lia. split_and!; try done. by left. }
  cbn [lift_log mbind result_bind].
  assert (len (lf_Data lf') = woffset vl) as Hl'.
  { rewrite Hd'. unfold len in *. rewrite length_take. lia. }
  assert (file_ok (maxFid vl) lf') as Hfo.
  { split; [congruence| |lia|done]. destruct Hk as [E1 E2]. unfold cipher_ok in *. by rewrite <- E1, <- E2. }
  pose proof (Hmax (maxFid vl) ltac:(by eexists)) as Hmx.
  destruct (createVlogFile_ok (set_file vl (maxFid vl) lf') Henv Hopt) as (lfn & -> & Hfn & Hln); cbn [filesMap set_file maxFid]; [by apply map_Forall_insert_2| |lia|lia|].
  { intros f [Heq|[_ H]]%lookup_insert_is_Some; [lia|by apply Hmax]. }
  eexists. split; [done|]. cbn [filesMap set_file maxFid filesToBeDeleted numActiveIterators].
  split; [split; [split|]|split].
  - cbn. apply map_Forall_insert_2; [done|]. by apply map_Forall_insert_2.
  - exists lfn. cbn. rewrite lookup_insert_eq. split; [done|]. unfold woffset. cbn. unfold vlogHeaderSize. lia.
  - cbn. intros f [Heq|[_ [Heq|[_ H]]%lookup_insert_is_Some]]%lookup_insert_is_Some; [lia|lia|].
    pose proof (Hmax f H). lia.
  - unfold woffset. cbn. lia.
  - destruct (stored_set_file vl lf lf' (woffset vl) Hfiles El Hk Hw1) as (Hst & _); try lia.
    { rewrite Hd', take_take, Nat.min_id. done. }
    split_and!; [|done..]. intros p e Hp. destruct (Hst p e Hp) as (lfp & Ep & Hrec & _).
    cbn [filesMap set_woffset set_file] in Ep. exists lfp. cbn [filesMap maxFid].
    assert (Fid p <> maxFid vl + 1).
    { intros Heq. destruct Hp as (lfq & Eq & _). specialize (Hmax (Fid p) ltac:(by eexists)). lia. }
    rewrite lookup_insert_ne by done. split_and!; [done|done|lia].
  - cbn. lia.
Qed.

Lemma add_written_wf vl n : vlog_wf vl -> vlog_wf (add_written vl n).
Proof using Type. intros [H1 H2 H3]. by split. Qed.

Lemma add_written_extends vl n : extends vl (add_written vl n).
Proof using Type. by split_and!. Qed.

Definition room (r : list Entry) : Prop := vo_FileSize opt + estimateRequestSize r < 2 ^ 32.

Lemma write_reqs_ok threshold reqs : forall vl, env_ok -> opt_ok -> vlog_ok vl ->
  Forall (Forall entry_fits) reqs -> Forall room reqs -> maxFid vl + len reqs < 2 ^ 32 ->
  exists vl' ls, write_reqs opt env threshold vl reqs = Ok (vl', ls) /\ vlog_ok vl' /\ extends vl vl' /\
    maxFid vl <= maxFid vl' <= maxFid vl + len reqs /\ Forall2 (Forall2 (written threshold vl')) reqs ls.
Proof using BlockCipherLaws0 MmapLaws0.
  induction reqs as [|r reqs IH]; intros vl Henv Hopt [Hwf Hoff] Hfit Hroom Hm.
  - exists vl, []. split_and!; try done; try (unfold len; cbn; lia).
  - apply Forall_cons in Hfit as [Hf Hfit]. apply Forall_cons in Hroom as [Hr Hroom]. unfold room in Hr.
    assert (len (r :: reqs) = 1 + len reqs) as Hlr by (unfold len; cbn [length]; lia). rewrite Hlr in *.
    assert (0 <= len reqs) as Hn0 by (unfold len; lia).
    destruct (write_entries_ok threshold r vl Hwf Hf ltac:(lia)) as (vl1 & l & n & E1 & Hwf1 & Hx1 & Em1 & _ & _ & Hw1 & Hwr).
    destruct (toDisk_ok (add_written vl1 n) Henv Hopt (add_written_wf _ n Hwf1)) as (vl2 & E2 & Hok2 & Hx2 & Hm2);
      [cbn; lia|unfold woffset in *; cbn; lia|]. cbn [maxFid add_written] in Hm2.
    destruct (IH vl2 Henv Hopt Hok2 Hfit Hroom ltac:(lia)) as (vl3 & ls & E3 & Hok3 & Hx3 & Hm3 & Hwrs).
    exists vl3, (l :: ls). cbn [write_reqs]. rewrite E1. cbn [mbind result_bind]. rewrite E2. cbn [mbind result_bind].
    rewrite E3. cbn [mbind result_bind].
    assert (extends vl1 vl3) as Hx13.
    { eapply extends_trans; [apply (add_written_extends vl1 n)|]. by eapply extends_trans. }
    split_and!; try done; try lia.
    + by eapply extends_trans.
    + constructor; [|done]. eapply Forall2_impl; [exact Hwr|]. intros e x. by apply written_extends.
Qed.

Lemma validate_ok reqs : forall off, 0 <= off <= vo_FileSize opt -> Forall room reqs ->
  validate_loop (vo_FileSize opt) off reqs = true.
Proof using Type.
  induction reqs as [|r reqs IH]; intros off Hoff Hroom; [done|]. apply Forall_cons in Hroom as [Hr Hroom].
  unfold room in Hr. pose proof (estimate_nonneg r). cbn. unfold maxVlogFileSize.
  rewrite bool_decide_eq_false_2 by lia. case_bool_decide; apply IH; (done || lia).
Qed.

(** ** Properties *)

(** C12: Values survive being written to the value log: a batch of requests that fits is written
    without error or panic; every value below its entry's threshold stays with the entry and
    has no pointer, every other one is read back through its pointer - enciphered or not, with
    the checksum verified or not, across the rotation to new files -, every pointer that could
    be read before can still be read and gives the same value, and the value log is ready for
    the next batch. *)
Theorem vlog_write_read threshold vl reqs :
  env_ok -> opt_ok -> vlog_ok vl -> Forall (Forall entry_fits) reqs -> Forall room reqs ->
  maxFid vl + len reqs + 1 < 2 ^ 32 ->
  exists vl' ls, vlog_write opt env threshold vl reqs = Ok (vl', Some ls) /\ vlog_ok vl' /\
    Forall2 (Forall2 (fun e x => x.1 = stick_threshold e threshold /\
      if bool_decide (len (vbytes (eValue e)) < evalThreshold x.1) then x.2 = mkVP 0 0 0
      else vlog_Read opt vl' x.2 = Ok (vbytes (eValue e)))) reqs ls /\
    forall p e, stored vl p e -> vlog_Read opt vl p = Ok (vbytes (eValue e)) /\
      vlog_Read opt vl' p = Ok (vbytes (eValue e)) /\ stored vl' p e.
Proof using BlockCipherLaws0 MmapLaws0.
  intros Henv Hopt Hok Hfit Hroom Hm. pose proof Hok as [[Hfiles (lf & El & Hw0 & _) Hmax] Hoff].
  pose proof (Hmax (maxFid vl) ltac:(by eexists)) as Hmx. unfold vlogHeaderSize in Hw0.
  destruct (write_reqs_ok threshold reqs vl Henv Hopt Hok Hfit Hroom ltac:(lia)) as (vl1 & ls & E1 & Hok1 & Hx1 & Hm1 & Hw).
  destruct Hok1 as [Hwf1 Hoff1]. pose proof Hopt as (_ & Hmem & Hfs).
  destruct (toDisk_ok vl1 Henv Hopt Hwf1) as (vl' & E2 & Hok' & Hx2 & _); [lia|lia|].
  exists vl', ls. unfold vlog_write. rewrite Hmem. unfold validateWrites. rewrite validate_ok by (done || lia).
  cbn [negb]. rewrite E1. cbn [mbind result_bind]. rewrite E2. cbn [mbind result_bind].
  pose proof Hok' as [[Hfiles' _ _] _]. split_and!; [done|done| |].
  - eapply Forall2_impl; [exact Hw|]. intros r l Hr. eapply Forall2_impl; [exact Hr|]. intros e x Hx.
    apply (written_extends threshold vl1 vl' e x Hx2) in Hx as [H1 H2]. split; [done|].
    destruct (bool_decide _); [done|]. rewrite (stored_Read vl' _ _ Hfiles' H2). unfold logged.
    rewrite H1. unfold stick_threshold. by case_bool_decide.
  - intros p e Hp. assert (stored vl' p e) as Hp' by (apply Hx2, Hx1, Hp).
    split_and!; [by apply stored_Read|by apply stored_Read|done].
Qed.
End Stored.

(** ** Witness *)

Definition vx_opts : vlog_opts := mkVOpts 100 1000 false false true.
Definition vx_key : DataKey := mkDataKey 7 (replicate 16 x2a).
Definition vx_env : vlog_env :=
  mkVEnv (Ok (Some vx_key)) (fun id => if bool_decide (id = 7) then Ok (Some vx_key) else Ok None) (fun _ => replicate 12 x11).
Definition vx_init : valueLog := match vlog_open vx_opts vx_env [] with Ok vl => vl | _ => vlog_init end.
Definition vx_entry (k : byte) (n : nat) : Entry := mkEntry (KeyWithTs [k] 3) (Some (replicate n k)) 0 0 0 x00 x40 0 0.
Definition vx_reqs : list (list Entry) := [[vx_entry x61 2; vx_entry x62 70]; [vx_entry x63 50]].

Lemma vx_env_ok : env_ok vx_env.
Proof.
  exists (Some vx_key). intros fid. split; [done|cbn; unfold is_u64; lia|done| |done].
  intros k [= <-]. by eexists.
Qed.

Lemma vx_init_ok : vlog_ok vx_opts vx_init.
Proof.
  unfold vx_init, vlog_open. cbn [vo_InMemory vo_ReadOnly vx_opts].
  destruct (createVlogFile_ok vx_opts vx_env vlog_init vx_env_ok) as (lf & -> & Hf & Hl).
  - done.
  - done.
  - intros f [? H]. cbn in H. by apply lookup_empty_Some in H.
  - done.
  - done.
  - split; [split|].
    + by apply map_Forall_insert_2.
    + exists lf. split; [apply lookup_insert_eq|]. split; [done|exact Hl].
    + intros f. cbn [filesMap maxFid vlog_init]. intros [Heq|[_ [? H]]]%lookup_insert_is_Some; [lia|by apply lookup_empty_Some in H].
    + done.
Qed.

Lemma vx_entry_fits k n : (n <= 100)%nat -> entry_fits (vx_entry k n).
Proof.
  intros Hn. unfold entry_fits, vx_entry, is_u64. cbn [eKey eValue eExpiresAt].
  change (vbytes (Some (replicate n k))) with (replicate n k).
  assert (len (KeyWithTs [k] 3) = 9) as -> by (unfold len; by rewrite KeyWithTs_length).
  unfold len. rewrite length_replicate. lia.
Qed.

Lemma vlog_write_read_witness :
  exists vl' ls, vlog_write vx_opts vx_env 10 vx_init vx_reqs = Ok (vl', Some ls) /\ vlog_ok vx_opts vl' /\
    Forall2 (Forall2 (fun e x => x.1 = stick_threshold e 10 /\
      if bool_decide (len (vbytes (eValue e)) < evalThreshold x.1) then x.2 = mkVP 0 0 0
      else vlog_Read vx_opts vl' x.2 = Ok (vbytes (eValue e)))) vx_reqs ls.
Proof.
  destruct (vlog_write_read vx_opts vx_env 10 vx_init vx_reqs) as (vl' & ls & H1 & H2 & H3 & _).
  - exact vx_env_ok.
  - by split_and!.
  - exact vx_init_ok.
  - repeat (apply Forall_cons_2 || apply Forall_nil_2); apply vx_entry_fits; lia.
  - repeat (apply Forall_cons_2 || apply Forall_nil_2); vm_compute; reflexivity.
  - vm_compute. reflexivity.
  - exists vl', ls. split; [exact H1|]. split; [exact H2|exact H3].
Defined.

(** ** [dropAll] and files that wait for their deletion *)

(** [dropAll] starts numbering again but leaves [filesToBeDeleted] as it is: a file that waits
    for an iterator is dropped, the new file gets its number, and the iterator's end deletes
    the new file.  The value just written is gone. *)
Lemma dropAll_loses_new_file :
  let vl0 := mkVlog (filesMap vx_init) 1 [1] 1 20 0 in
  exists vl1 vl2 e p, vlog_dropAll vx_opts vx_env vl0 = Ok (vl1, 1) /\
    vlog_write vx_opts vx_env 10 vl1 [[vx_entry x62 70]] = Ok (vl2, Some [[(e, p)]]) /\
    vlog_Read vx_opts vl2 p = Ok (replicate 70 x62) /\
    vlog_Read vx_opts (decrIteratorCount vl2) p = Err ErrFileNotFound.
Proof.
  cbv zeta. eexists _, _, _, _. split; [vm_compute; reflexivity|]. split; [vm_compute; reflexivity|].
  split; vm_compute; reflexivity.
Qed.
