(* ===== verification/VlogRecords.v ===== *)
(** * VlogRecords: the files of the value log are sequences of records

    The bytes of every file are a header and the records of a list of entries, up to the place
    where the file is written at or its end; so replaying a file ([iterate]) shows every entry a
    pointer may point to.  [vlog_log] says so of a value log, with the lists of entries, and
    writing is shown to keep it. *)

From S2P Require Import Prelude Keys Codec Checksum Encrypt LogFile Wal ValueLog.

Lemma has_clear_txn m b : b ∈ meta_bits -> has_bit (clear_txn m) b
  = (if bool_decide (b = bitTxn \/ b = bitFinTxn) then false else has_bit m b).
Proof.
  unfold meta_bits. intros Hb. set_unfold in Hb.
  destruct Hb as [->|[->|[->|[->|[->|[->|[]]]]]]]; destruct m; vm_compute; reflexivity.
Qed.

Section Records.
Context `{A : BlockCipher} `{!BlockCipherLaws A} `{M : Mmap} `{!MmapLaws M}.
Context (opt : vlog_opts) (env : vlog_env).

Definition vkey_ok (key : bytes) : Prop := exists k t, key = KeyWithTs k t /\ k <> [] /\ 0 < t <= MaxUint64.

Lemma vkey_nonempty key : vkey_ok key -> key <> [].
Proof using Type. intros (k & t & -> & _) H. apply (f_equal length) in H. rewrite KeyWithTs_length in H. cbn in H. lia. Qed.

(** A record of the value log: a key with a version and no transaction marks. *)
Definition vrec_ok (e : Entry) : Prop :=
  (entry_fits e /\ vkey_ok (eKey e)) /\ has_bit (emeta e) bitTxn = false /\ has_bit (emeta e) bitFinTxn = false.

(** The file holds the records of [es] up to the offset [w]. *)
Record file_log (lf : logFile) (w : Z) (es : list Entry) : Prop := {
  fl_ok : Forall vrec_ok es;
  fl_end : w = vlogHeaderSize + log_len es;
  fl_data : exists hdr tail, len hdr = vlogHeaderSize /\ lf_Data lf = hdr ++ log_bytes lf vlogHeaderSize es ++ tail
}.

Definition log_end (vl : valueLog) (fid : Z) (lf : logFile) : Z :=
  if bool_decide (fid = maxFid vl) then woffset vl else len (lf_Data lf).

(** A log may be kept of a file that is gone. *)
Record vlog_log (vl : valueLog) (L : gmap Z (list Entry)) : Prop := {
  vg_files fid lf : filesMap vl !! fid = Some lf -> exists es, L !! fid = Some es /\ file_log lf (log_end vl fid lf) es;
  vg_max fid : is_Some (L !! fid) -> fid <= maxFid vl
}.

(** The entry [e] is the one at [p]. *)
Definition in_log (L : gmap Z (list Entry)) (p : valuePointer) (e : Entry) : Prop :=
  exists pre post, L !! Fid p = Some (pre ++ e :: post) /\ Offset p = vlogHeaderSize + log_len pre.

Definition log_grows (L L' : gmap Z (list Entry)) : Prop :=
  forall fid es, L !! fid = Some es -> exists suf, L' !! fid = Some (es ++ suf).

Lemma log_grows_refl L : log_grows L L.
Proof using Type. intros fid es H. exists []. by rewrite app_nil_r. Qed.

Lemma log_grows_trans L1 L2 L3 : log_grows L1 L2 -> log_grows L2 L3 -> log_grows L1 L3.
Proof using Type.
  intros H1 H2 fid es (s1 & E1)%H1. destruct (H2 _ _ E1) as (s2 & E2). exists (s1 ++ s2). by rewrite app_assoc.
Qed.

(** The files before the current one stay as they are. *)
Definition grows (vl : valueLog) (L : gmap Z (list Entry)) (vl' : valueLog) (L' : gmap Z (list Entry)) : Prop :=
  log_grows L L' /\ maxFid vl <= maxFid vl' /\
  forall fid, fid < maxFid vl -> L' !! fid = L !! fid /\ filesMap vl' !! fid = filesMap vl !! fid.

Lemma grows_refl vl L : grows vl L vl L.
Proof using Type. split; [apply log_grows_refl|]. split; [lia|done]. Qed.

Lemma grows_trans vl1 L1 vl2 L2 vl3 L3 : grows vl1 L1 vl2 L2 -> grows vl2 L2 vl3 L3 -> grows vl1 L1 vl3 L3.
Proof using Type.
  intros (H1 & H2 & H3) (G1 & G2 & G3). split; [by eapply log_grows_trans|]. split; [lia|]. intros fid Hf.
  destruct (H3 fid Hf) as [<- <-]. apply G3. lia.
Qed.

Lemma in_log_grows L L' p e : log_grows L L' -> in_log L p e -> in_log L' p e.
Proof using Type.
  intros Hg (pre & post & E & Ho). destruct (Hg _ _ E) as (suf & E'). exists pre, (post ++ suf).
  split; [|done]. by rewrite E', <- app_assoc.
Qed.

Lemma vrec_fits es : Forall vrec_ok es -> Forall entry_fits es.
Proof using Type. intros Hes. eapply Forall_impl; [exact Hes|]. by intros e [[H _] _]. Qed.

(** Two entries of a log at one place are the same. *)
Lemma in_log_eq L p e e' : in_log L p e -> in_log L p e' -> (forall es, L !! Fid p = Some es -> Forall vrec_ok es) -> e = e'.
Proof using Type.
  intros (pre & post & E & Ho) (pre' & post' & E' & Ho') Hok. rewrite E in E'. injection E' as E'.
  specialize (Hok _ E). rewrite Ho in Ho'. assert (log_len pre = log_len pre') as Hl by lia. clear Ho Ho' E.
  revert pre' E' Hl. induction pre as [|x pre IH]; intros [|y pre'] E' Hl; cbn in *.
  - by injection E'.
  - exfalso. injection E' as -> ->. apply Forall_cons in Hok as [[[Hf _] _] Hok]. pose proof (record_len_bound y Hf).
    apply vrec_fits, Forall_app in Hok as [Hok _]. pose proof (log_len_nonneg _ Hok) as Hn. unfold log_len in Hn. lia.
  - exfalso. injection E' as -> <-. apply Forall_cons in Hok as [[[Hf _] _] Hok]. pose proof (record_len_bound e' Hf).
    apply vrec_fits, Forall_app in Hok as [Hok _]. pose proof (log_len_nonneg _ Hok) as Hn. unfold log_len in Hn. lia.
  - injection E' as -> E'. apply Forall_cons in Hok as [_ Hok]. apply (IH Hok pre' E'). unfold log_len. lia.
Qed.

(** ** Writing *)

Lemma file_log_same lf lf' w es : same_key lf lf' -> take (Z.to_nat w) (lf_Data lf') = take (Z.to_nat w) (lf_Data lf) ->
  cipher_ok lf -> file_log lf w es -> w <= len (lf_Data lf) -> file_log lf' w es.
Proof using BlockCipherLaws0.
  intros Hk Ht Hc [Hok He (hdr & tail & Hh & Ed)] Hw. split; [done|done|].
  exists hdr, (drop (Z.to_nat w) (lf_Data lf')). split; [done|]. rewrite <- (log_bytes_same lf lf') by done.
  rewrite <- (take_drop (Z.to_nat w) (lf_Data lf')) at 1. rewrite Ht, app_assoc. f_equal.
  rewrite Ed, app_assoc. apply take_app_length'. rewrite length_app.
  pose proof (log_bytes_len lf es vlogHeaderSize Hc (vrec_fits _ Hok)) as Hl. unfold len in *. lia.
Qed.

Lemma file_log_snoc lf w es e r post : cipher_ok lf -> file_log lf w es -> vrec_ok e -> encodeEntry lf e w = Ok (r, record_len e) ->
  forall lf', same_key lf lf' -> lf_Data lf' = take (Z.to_nat w) (lf_Data lf) ++ r ++ post -> file_log lf' (w + record_len e) (es ++ [e]).
Proof using BlockCipherLaws0.
  intros Hc [Hok Hw (hdr & tail & Hh & Ed)] He Er lf' Hk Ed'.
  pose proof (log_bytes_len lf es vlogHeaderSize Hc (vrec_fits _ Hok)) as Hl. split.
  - apply Forall_app. split; [done|by constructor].
  - rewrite log_len_app. cbn. lia.
  - exists hdr, post. split; [done|]. rewrite <- (log_bytes_same lf lf') by done.
    rewrite log_bytes_app by (done || by apply vrec_fits). rewrite <- Hw. cbn [log_bytes]. rewrite Er, app_nil_r, <- !app_assoc, Ed', Ed.
    rewrite (app_assoc hdr (log_bytes lf vlogHeaderSize es) tail), take_app_length'; [by rewrite <- app_assoc|]. rewrite length_app. unfold len in *. lia.
Qed.
Lemma vrec_logged e threshold : entry_fits e -> vkey_ok (eKey e) -> vrec_ok (logged (stick_threshold e threshold)).
Proof using BlockCipherLaws0 MmapLaws0.
  intros Hf Hk. split; [split; [by apply fits_logged|]|].
  - cbn [logged eKey set_emeta]. unfold stick_threshold. by case_bool_decide.
  - cbn [logged emeta set_emeta]. rewrite !has_clear_txn by (unfold meta_bits; set_solver).
    rewrite !bool_decide_eq_true_2 by auto. done.
Qed.

Lemma log_grows_insert L fid es suf : L !! fid = Some es -> log_grows L (<[fid := es ++ suf]> L).
Proof using Type.
  intros E f es' Ef. destruct (decide (fid = f)) as [<-|Hne].
  - rewrite lookup_insert_eq. exists suf. congruence.
  - rewrite lookup_insert_ne by done. exists []. by rewrite app_nil_r.
Qed.

Lemma write_value_log threshold vl L e vl' e' p n : vlog_wf vl -> vlog_log vl L -> entry_fits e -> vkey_ok (eKey e) ->
  woffset vl + estimateRequestSize [e] < 2 ^ 32 -> write_value threshold vl e = Ok (vl', e', p, n) ->
  exists L', vlog_log vl' L' /\ grows vl L vl' L' /\
    (bool_decide (len (vbytes (eValue e)) < evalThreshold e') = false -> in_log L' p (logged e') /\ Fid p = maxFid vl).
Proof using BlockCipherLaws0 MmapLaws0.
  intros Hwf HL Hf Hkey Hb. pose proof Hwf as [Hfiles (lf & El & Hw0 & Hw1) Hmax].
  unfold write_value, skipVlogAndSetThreshold. set (e1 := stick_threshold e threshold).
  assert (eValue e1 = eValue e) as Ev by (unfold e1, stick_threshold; by case_bool_decide). rewrite Ev.
  destruct (bool_decide (len (vbytes (eValue e)) < evalThreshold e1)) eqn:Eb.
  { intros [= <- <- <- _]. exists L. split; [done|]. split; [apply grows_refl|]. by rewrite Eb. }
  unfold curlf. rewrite El. cbn [unpanic mbind result_bind]. fold (logged e1).
  pose proof (Hfiles _ _ El) as [Hfid Hok Hlen Hrw]. pose proof (fits_logged e threshold Hf) as Hfl. fold e1 in Hfl.
  destruct (encodeEntry_ok lf (logged e1) (woffset vl) Hok Hfl) as (kv & E & Hl & _).
  set (r := record_of (entry_header (logged e1)) kv) in *.
  assert (len r = record_len (logged e1)) as Hlr by by apply record_length.
  pose proof (record_len_bound _ Hfl) as Hrb. pose proof (record_len_logged e threshold Hf) as Hrl. fold e1 in Hrl.
  rewrite E. cbn [lift_log mbind result_bind]. cbn [estimateRequestSize foldr] in Hb.
  destruct (write_buf_ok vl r Hwf) as (vl1 & lf0 & lf' & post & -> & El0 & Ef & Em & Ew & _ & _ & Hk & _ & _ & Ed);
    [intros Hnil; rewrite Hnil in Hlr; unfold len in Hlr; cbn in Hlr; lia|lia|].
  rewrite El in El0. injection El0 as <-. cbn [mbind result_bind]. intros [= <- <- <- _].
  destruct HL as [HL Hm].
  destruct (HL _ _ El) as (es & EL & Hes). unfold log_end in Hes. rewrite bool_decide_eq_true_2 in Hes by done.
  exists (<[maxFid vl := es ++ [logged e1]]> L). split_and!; [split|split; [by apply log_grows_insert|]|].
  - intros fid lfx. rewrite Ef. unfold log_end. rewrite Em, Ew, Hlr. destruct (decide (maxFid vl = fid)) as [<-|Hne].
    + rewrite !lookup_insert_eq, bool_decide_eq_true_2 by done. intros [= <-]. eexists. split; [done|].
      eapply (file_log_snoc lf); [done|done|by apply vrec_logged|exact E|done|exact Ed].
    + rewrite !lookup_insert_ne, bool_decide_eq_false_2 by congruence. intros Hx. destruct (HL _ _ Hx) as (es' & E' & Hes').
      exists es'. split; [done|]. unfold log_end in Hes'. by rewrite bool_decide_eq_false_2 in Hes' by congruence.
  - intros fid. rewrite Em. intros [<-|[_ H]]%lookup_insert_is_Some; [done|by apply Hm].
  - rewrite Em. split; [done|]. intros fid Hlt. rewrite Ef, !lookup_insert_ne by lia. done.
  - intros _. split; [|done]. exists es, []. cbn [Fid Offset]. rewrite Hfid, lookup_insert_eq. split; [done|]. apply Hes.
Qed.

(** The entries of a request, each with its place, in the file [m] or a later one. *)
Definition placed (m : Z) (L : gmap Z (list Entry)) (x : Entry * valuePointer) : Prop :=
  bool_decide (len (vbytes (eValue x.1)) < evalThreshold x.1) = false -> in_log L x.2 (logged x.1) /\ m <= Fid x.2.

Lemma placed_grows m m' L L' x : log_grows L L' -> m' <= m -> placed m L x -> placed m' L' x.
Proof using Type. intros Hg Hm Hp Hb. destruct (Hp Hb) as [H1 H2]. split; [by apply (in_log_grows L)|lia]. Qed.

Lemma placed_all m m' L L' l : log_grows L L' -> m' <= m -> Forall (placed m L) l -> Forall (placed m' L') l.
Proof using Type. intros Hg Hm Hl. eapply Forall_impl; [exact Hl|]. intros x. by apply placed_grows. Qed.

Lemma write_entries_log threshold es : forall vl L vl' l n, vlog_wf vl -> vlog_log vl L -> Forall entry_fits es ->
  Forall (fun e => vkey_ok (eKey e)) es ->
  woffset vl + estimateRequestSize es < 2 ^ 32 -> write_entries threshold vl es = Ok (vl', l, n) ->
  exists L', vlog_log vl' L' /\ grows vl L vl' L' /\ Forall (placed (maxFid vl) L') l.
Proof using BlockCipherLaws0 MmapLaws0.
  induction es as [|e es IH]; intros vl L vl' l n Hwf HL Hfit Hkeys Hb; cbn [write_entries].
  { intros [= <- <- _]. exists L. split; [done|]. split; [apply grows_refl|constructor]. }
  apply Forall_cons in Hfit as [He Hes]. apply Forall_cons in Hkeys as [Hk Hks]. rewrite estimate_cons in Hb.
  pose proof (estimate_nonneg es) as Hn. pose proof (estimate_nonneg [e]) as Hn1.
  destruct (write_value_ok threshold vl e Hwf He ltac:(lia)) as (vl1 & [e1 p1] & n1 & E1 & Hwf1 & _ & _ & _ & _ & Hw1 & Hwr & _).
  cbn [fst snd] in *. rewrite E1. cbn [mbind result_bind].
  destruct (write_value_log threshold vl L e vl1 e1 p1 n1 Hwf HL He Hk ltac:(lia) E1) as (L1 & HL1 & Hg1 & Hp1).
  destruct (write_entries threshold vl1 es) as [[[vl2 l2] n2]| |] eqn:E2; [|done..]. cbn [mbind result_bind]. intros [= <- <- _].
  destruct (IH vl1 L1 vl2 l2 n2 Hwf1 HL1 Hes Hks ltac:(lia) E2) as (L2 & HL2 & Hg2 & Hp2).
  exists L2. split; [done|]. split; [by eapply grows_trans|]. destruct Hg1 as (Hg1 & Hm1 & _), Hg2 as (Hg2 & _).
  constructor; [|by apply (placed_all (maxFid vl1) _ L2); [apply log_grows_refl|..]].
  apply (placed_grows (maxFid vl) _ L1); [done|done|]. unfold placed. cbn [fst snd]. intros Hbd. destruct Hp1 as [? <-]; [|by split].
  assert (eValue e1 = eValue e) as <-; [|done]. rewrite Hwr. clear. unfold stick_threshold. by case_bool_decide.
Qed.
Lemma toDisk_log vl L vl' : env_ok env -> opt_ok opt -> vlog_wf vl -> maxFid vl + 1 < 2 ^ 32 -> woffset vl < 2 ^ 32 ->
  vlog_log vl L -> toDisk opt env vl = Ok vl' -> exists L', vlog_log vl' L' /\ grows vl L vl' L'.
Proof using BlockCipherLaws0 MmapLaws0.
  intros Henv Hopt Hwf Hm Hw [HL HLm]. pose proof Hwf as [Hfiles (lf & El & Hw0 & Hw1) Hmax].
  unfold toDisk. destruct (_ || _).
  2: { intros [= <-]. exists L. split; [done|apply grows_refl]. }
  unfold curlf. rewrite El. cbn [unpanic mbind result_bind]. pose proof (Hfiles _ _ El) as [Hfid Hok Hlen Hrw].
  assert (exists lf', doneWriting lf (woffset vl) = Ok lf' /\ same_key lf lf' /\ file_ok (maxFid vl) lf' /\
    lf_Data lf' = take (Z.to_nat (woffset vl)) (lf_Data lf)) as (lf' & -> & Hk & Hfo & Hd').
  { unfold doneWriting, lf_Truncate. unfold vlogHeaderSize in *.
    destruct (bool_decide_reflect (len (lf_Data lf) = woffset vl)) as [Heq|Heq].
    - exists lf. split_and!; try done. rewrite take_ge by (unfold len in *; lia). done.
    - rewrite Hrw. eexists. split; [done|]. cbn [lf_Data set_size set_Data]. rewrite Truncate_take by lia.
      split_and!; try done. split; cbn; [done..| |done]. unfold len in *. rewrite length_take. lia. }
  cbn [lift_log mbind result_bind]. pose proof (Hmax (maxFid vl) ltac:(by eexists)) as Hmx.
  destruct (createVlogFile_ok opt env (set_file vl (maxFid vl) lf') Henv Hopt) as (lfn & -> & Hfn & Hln);
    cbn [filesMap set_file maxFid]; [by apply map_Forall_insert_2| |lia|lia|].
  { intros f [Heq|[_ H]]%lookup_insert_is_Some; [lia|by apply Hmax]. }
  intros [= <-]. exists (<[maxFid vl + 1 := []]> L).
  assert (L !! (maxFid vl + 1) = None) as Hnone.
  { destruct (L !! (maxFid vl + 1)) eqn:E; [|done]. specialize (HLm (maxFid vl + 1) ltac:(by eexists)). lia. }
  split; [split|].
  - intros fid lfx. cbn [filesMap]. unfold log_end. cbn [maxFid]. unfold woffset. cbn [writableLogOffset].
    destruct (decide (maxFid vl + 1 = fid)) as [<-|Hne].
    + rewrite !lookup_insert_eq, bool_decide_eq_true_2 by done. intros [= <-]. exists []. split; [done|]. split; [done|done|].
      exists (take 20 (lf_Data lfn)), (drop 20 (lf_Data lfn)). cbn [log_bytes app]. rewrite take_drop.
      split; [|done]. unfold len in *. rewrite length_take. unfold vlogHeaderSize. lia.
    + rewrite !(lookup_insert_ne _ (maxFid vl + 1)), bool_decide_eq_false_2 by congruence.
      destruct (decide (maxFid vl = fid)) as [<-|Hne'].
      * rewrite lookup_insert_eq. intros [= <-]. destruct (HL _ _ El) as (es & EL & Hes). exists es. split; [done|].
        unfold log_end in Hes. rewrite bool_decide_eq_true_2 in Hes by done. unfold vlogHeaderSize in *.
        assert (len (lf_Data lf') = woffset vl) as -> by (rewrite Hd'; unfold len in *; rewrite length_take; lia).
        eapply (file_log_same lf); [done| |done|done|done]. by rewrite Hd', take_take, Nat.min_id.
      * rewrite lookup_insert_ne by done. intros Hx. destruct (HL _ _ Hx) as (es & EL & Hes). exists es. split; [done|].
        unfold log_end in Hes. by rewrite bool_decide_eq_false_2 in Hes by congruence.
  - intros fid. cbn [maxFid]. intros [<-|[_ H]]%lookup_insert_is_Some; [done|]. specialize (HLm _ H). lia.
  - split; [intros fid es E; exists []; rewrite app_nil_r, lookup_insert_ne; [done|congruence]|].
    cbn [maxFid filesMap]. split; [lia|]. intros fid Hlt. by rewrite !lookup_insert_ne by lia.
Qed.

Lemma createVlogFile_fid vl vl' : createVlogFile opt env vl = Ok vl' -> maxFid vl + 1 < 2 ^ 32.
Proof using Type.
  unfold createVlogFile. destruct (lift_log _) as [[lf b]| |]; [|done..]. cbn [mbind result_bind].
  case_bool_decide as Hlt; [|done]. intros _. pose proof (wrap_range 32 (maxFid vl + 1) ltac:(lia)).
  destruct (decide (maxFid vl + 1 < 2 ^ 32)) as [|Hge]; [done|]. lia.
Qed.

(** What was written, when nothing is known about room: the checks of the code are enough. *)
Lemma toDisk_done vl L vl' : env_ok env -> opt_ok opt -> vlog_wf vl -> woffset vl < 2 ^ 32 -> vlog_log vl L ->
  toDisk opt env vl = Ok vl' -> exists L', vlog_ok opt vl' /\ extends vl vl' /\ vlog_log vl' L' /\ grows vl L vl' L' /\
    (maxFid vl < 2 ^ 32 -> maxFid vl' < 2 ^ 32).
Proof using BlockCipherLaws0 MmapLaws0.
  intros Henv Hopt Hwf Hw HL E.
  assert ((vl' = vl /\ woffset vl <= vo_FileSize opt) \/ maxFid vl + 1 < 2 ^ 32) as [[-> Hoff]|Hm].
  { unfold toDisk in E. destruct (_ || _) eqn:Eb.
    - right. destruct (curlf vl) as [lf| |]; [|done..]. cbn [mbind result_bind] in E.
      destruct (lift_log (doneWriting lf (woffset vl))) as [lf'| |]; [|done..]. cbn [mbind result_bind] in E.
      by apply createVlogFile_fid in E.
    - left. injection E as <-. split; [done|]. apply orb_false_iff in Eb as [Eb%bool_decide_eq_false _].
      destruct Hopt as (_ & _ & Hfs). unfold vlogHeaderSize in Hfs. rewrite wrap_small in Eb by lia. lia. }
  - exists L. split; [done|]. split; [apply extends_refl|]. split; [done|]. split; [apply grows_refl|done].
  - destruct (toDisk_ok opt env vl Henv Hopt Hwf Hm Hw) as (vl1 & E1 & Hok1 & Hx1 & Hm1). rewrite E in E1. injection E1 as <-.
    destruct (toDisk_log vl L vl') as (L' & HL' & Hg'); [done..|]. exists L'. split_and!; try done. lia.
Qed.

(** What a request does to the value log, all together. *)
Lemma vlog_write_one threshold vl L r vl' ls : env_ok env -> opt_ok opt -> vlog_ok opt vl -> vlog_log vl L ->
  Forall entry_fits r -> Forall (fun e => vkey_ok (eKey e)) r -> vlog_write opt env threshold vl [r] = Ok (vl', ls) ->
  exists L' l, ls = Some [l] /\ vlog_ok opt vl' /\ extends vl vl' /\ vlog_log vl' L' /\ grows vl L vl' L' /\
    (maxFid vl < 2 ^ 32 -> maxFid vl' < 2 ^ 32) /\ Forall2 (written threshold vl') r l /\ Forall (placed (maxFid vl) L') l.
Proof using BlockCipherLaws0 MmapLaws0.
  intros Henv Hopt [Hwf Hoff] HL Hfit Hkeys. unfold vlog_write. pose proof Hopt as (_ & Hmem & Hfs). rewrite Hmem.
  destruct (validateWrites opt vl [r]) eqn:Ev; [|done]. cbn [negb write_reqs].
  assert (woffset vl + estimateRequestSize r < 2 ^ 32) as Hb.
  { unfold validateWrites in Ev. cbn [validate_loop] in Ev. unfold maxVlogFileSize in Ev. case_bool_decide; [done|lia]. }
  destruct (write_entries_ok threshold r vl Hwf Hfit Hb) as (vl1 & l & n & E1 & Hwf1 & Hx1 & Em1 & _ & _ & Hw1 & Hwr).
  destruct (write_entries_log threshold r vl L vl1 l n Hwf HL Hfit Hkeys Hb E1) as (L1 & [HL1 HL1m] & Hg1 & Hp1).
  rewrite E1. cbn [mbind result_bind].
  destruct (toDisk opt env (add_written vl1 n)) as [vl2| |] eqn:E2; [|done..]. cbn [mbind result_bind].
  destruct (toDisk_done (add_written vl1 n) L1 vl2) as (L2 & [Hwf2 Hoff2] & Hx2 & HL2 & Hg2 & Hf2); [done|done|by apply add_written_wf| | |done|].
  { unfold woffset in *. cbn. lia. }
  { by split. }
  destruct (toDisk opt env vl2) as [vl3| |] eqn:E3; [|done..]. cbn [mbind result_bind]. intros [= <- <-].
  destruct (toDisk_done vl2 L2 vl3) as (L3 & Hok3 & Hx3 & HL3 & Hg3 & Hf3); [done|done|done|lia|done|done|].
  assert (extends vl1 vl3) as Hx13.
  { eapply extends_trans; [apply (add_written_extends vl1 n)|]. by eapply extends_trans. }
  assert (grows vl1 L1 vl2 L2) as Hg2' by exact Hg2. pose proof (grows_trans _ _ _ _ _ _ Hg2' Hg3) as Hg13.
  exists L3, l. cbn [maxFid add_written] in Hf2.
  split_and!; [done|done|by eapply extends_trans|done|by eapply grows_trans|rewrite <- Em1; auto| |].
  - eapply Forall2_impl; [exact Hwr|]. intros e x. by apply written_extends.
  - apply (placed_all (maxFid vl) _ L1); [apply Hg13|lia|done].
Qed.

(** ** Replaying a file *)

Section Replay.
Context {St : Type} (fn : Entry -> valuePointer -> St -> log_step St).
Context (Hfn : forall e p s, (exists s', fn e p s = Cont s') \/ (exists s', fn e p s = Fail s')).

Lemma iterate_records lf es : forall off fuel s, cipher_ok lf -> Forall vrec_ok es -> 0 <= off ->
  off + log_len es < 2 ^ 32 -> (length es < fuel)%nat ->
  iterate_loop fn fuel lf (log_bytes lf off es) off 0 off [] s =
    match run_txn fn (replay_list lf off es) s with
    | inl s => (s, Ok (off + log_len es))
    | inr s => (s, Err ErrFn)
    end.
Proof using Hfn BlockCipherLaws0.
  induction es as [|e es IH]; intros off fuel s Hok Hes Hoff Hb Hfuel; (destruct fuel as [|fuel]; [cbn in Hfuel; lia|]).
  { cbn. by rewrite Z.add_0_r. }
  apply Forall_cons in Hes as [([Hf Hne%vkey_nonempty] & H1 & H2) Hes]. cbn [log_len foldr] in Hb |- *. fold (log_len es) in Hb |- *.
  pose proof (log_len_nonneg es (vrec_fits es Hes)) as Hn. pose proof (record_len_bound e Hf) as Hrb.
  destruct (log_bytes_cons lf off e es Hok Hf) as (rb & E & Hl & ->). cbn [iterate_loop].
  rewrite (safeRead_record lf e off _ Hok Hf rb _ E).
  assert (Entry_isZero (entry_read e off (len (header_bytes (entry_header e)))) = false) as ->.
  { apply bool_decide_eq_false. cbn. unfold len. destruct (eKey e); [done|cbn; lia]. }
  cbn [ehlen eKey eValue emeta eoffset entry_read]. change (vbytes (Some (vbytes (eValue e)))) with (vbytes (eValue e)).
  assert (len (header_bytes (entry_header e)) + len (eKey e) + len (vbytes (eValue e)) + 4 = record_len e) as -> by done.
  rewrite (wrap_small 32 (record_len e)) by lia. rewrite (wrap_small 32 (off + record_len e)) by lia. rewrite H1, H2.
  rewrite bool_decide_eq_false_2 by auto. cbn [replay_list run_txn]. unfold replayed.
  destruct (Hfn (entry_read e off (len (header_bytes (entry_header e)))) (mkVP (lf_fid lf) (record_len e) off) s) as [[s' ->]|[s' ->]]; [|done].
  rewrite IH by (done || lia || (cbn in Hfuel; lia)). by rewrite Z.add_assoc.
Qed.

(** A file whose log ends with it. *)
Lemma iterate_file lf es s : cipher_ok lf -> file_log lf (len (lf_Data lf)) es -> len (lf_Data lf) < 2 ^ 32 ->
  iterate fn lf 0 s =
    match run_txn fn (replay_list lf vlogHeaderSize es) s with
    | inl s => (s, Ok (len (lf_Data lf)))
    | inr s => (s, Err ErrFn)
    end.
Proof using Hfn BlockCipherLaws0.
  intros Hok [Hes He (hdr & tail & Hh & Ed)] Hl. pose proof (vrec_fits es Hes) as Hfit.
  pose proof (log_bytes_len lf es vlogHeaderSize Hok Hfit) as Hlb.
  assert (tail = []) as ->.
  { destruct tail; [done|]. exfalso. rewrite Ed, !len_app in He. unfold len in *. cbn [length] in He. lia. }
  rewrite app_nil_r in Ed. unfold iterate. rewrite bool_decide_eq_true_2 by done. rewrite Ed, drop_app_length' by (unfold len, vlogHeaderSize in *; lia).
  rewrite <- Ed, He. apply iterate_records; try done; [lia|].
  assert (Z.of_nat (length es) <= log_len es); [|unfold len in *; lia].
  clear -Hfit. induction Hfit as [|e es Hf Hfit IH]; [done|]. pose proof (record_len_bound e Hf). cbn. unfold log_len in IH. lia.
Qed.
End Replay.
End Records.
