(* ===== verification/WritePath.v ===== *)
(** * WritePath: from a commit to the memtable (db.go, txn.go)

    A write request has been through the value log and has a pointer for every entry;
    [writeToLSM] puts its entries into the memtable, the value itself or its pointer, and with
    them into the write-ahead log.  A commit is shown to be one transaction of that log, so a
    crash keeps all of its writes or none. *)

From S2P Require Import Prelude Keys Codec Bloom Checksum Encrypt LogFile Block Tables TableFile TableBuild.
From S2P Require Import Wal Watermark Oracle Transaction ValueLog.

Inductive write_error : Type := EWal (e : log_error) | EVlog (e : vlog_error) | EPtrs | ENoRoom | EFileExists.

Definition lift_wal {A} (r : result log_error A) : result write_error A :=
  match r with Ok a => Ok a | Err e => Err (EWal e) | Panic => Panic end.

Section WritePath.
Context `{A : BlockCipher} `{M : Mmap}.

(** What goes into the memtable for an entry with pointer [p]. *)
Definition lsm_value (threshold : Z) (e : Entry) (p : valuePointer) : ValueStruct :=
  let '(inLSM, e) := skipVlogAndSetThreshold e threshold in
  if inLSM then mkVS (clear_bit (emeta e) bitValuePointer) (eUserMeta e) (eExpiresAt e) (eValue e) 0
  else mkVS (set_bit (emeta e) bitValuePointer) (eUserMeta e) (eExpiresAt e) (Some (vp_Encode p)) 0.

Fixpoint put_entries (threshold : Z) (mt : memTable) (es : list (Entry * valuePointer)) : result log_error memTable :=
  match es with
  | [] => Ok mt
  | (e, p) :: es => mt ← mt_Put mt (eKey e) (lsm_value threshold e p); put_entries threshold mt es
  end.

(** Entries without a pointer: [b.Ptrs[i]] is out of range as soon as one needs it. *)
Fixpoint put_unplaced (threshold : Z) (mt : memTable) (es : list Entry) : result log_error memTable :=
  match es with
  | [] => Ok mt
  | e :: es =>
      if (skipVlogAndSetThreshold e threshold).1 then
        mt ← mt_Put mt (eKey e) (lsm_value threshold e (mkVP 0 0 0)); put_unplaced threshold mt es
      else Panic
  end.

(** In memory-only mode the request has no pointers. *)
Definition writeToLSM (InMemory : bool) (threshold : Z) (mt : memTable) (es : list Entry) (ptrs : list valuePointer)
    : result write_error memTable :=
  if negb InMemory && bool_decide (length ptrs <> length es) then Err EPtrs
  else
    lift_wal (mt ← put_entries threshold mt (zip es ptrs);
              put_unplaced threshold mt (drop (length ptrs) es)).

(** A pointer for every entry. *)
Lemma writeToLSM_placed InMemory threshold mt es ptrs : length ptrs = length es ->
  writeToLSM InMemory threshold mt es ptrs = lift_wal (put_entries threshold mt (zip es ptrs)).
Proof using Type.
  intros El. unfold writeToLSM. rewrite (bool_decide_eq_false_2 (length ptrs <> length es)) by (by intros []). rewrite andb_false_r, El, drop_all.
  by destruct (put_entries _ _ _).
Qed.

(** ** Room for a write *)

(** The part of [DB] the write path changes: the memtable, the immutable ones (oldest first),
    the memtables on the flush channel and the id of the next log file. *)
Record writer : Type := mkWriter {
  w_mt : memTable;
  w_imm : list memTable;
  w_flushChan : list memTable;
  w_nextMemFid : Z
}.

Record writer_env : Type := mkWEnv {
  we_InMemory : bool;
  we_MemTableSize : Z;
  we_NumMemtables : Z;                          (* capacity of the flush channel *)
  we_memSize : memTable -> Z;                   (* the size of a skip list's arena *)
  we_exists : Z -> bool;                        (* is there a log file with that id *)
  we_latest : result log_error (option DataKey);
  we_registry : Z -> result log_error (option DataKey);
  we_iv : Z -> bytes
}.

Definition newMemTable (env : writer_env) (w : writer) : result write_error (memTable * writer) :=
  if we_exists env (w_nextMemFid w) then Err EFileExists
  else
    '(mt, _) ← lift_wal (openMemTable (we_InMemory env) false (we_MemTableSize env) (w_nextMemFid w) None
                           (we_latest env) (we_registry env) (we_iv env (w_nextMemFid w)));
    Ok (mt, mkWriter (w_mt w) (w_imm w) (w_flushChan w) (w_nextMemFid w + 1)).

Definition ensureRoomForWrite (env : writer_env) (w : writer) : result write_error writer :=
  if negb (isFull (w_mt w) (we_memSize env (w_mt w)) (we_MemTableSize env)) then Ok w
  else if bool_decide (len (w_flushChan w) < we_NumMemtables env) then
    '(mt, w') ← newMemTable env (mkWriter (w_mt w) (w_imm w ++ [w_mt w]) (w_flushChan w ++ [w_mt w]) (w_nextMemFid w));
    Ok (mkWriter mt (w_imm w') (w_flushChan w') (w_nextMemFid w'))
  else Err ENoRoom.

(** The loop that waits for room; [flusher] is what other goroutines do while it sleeps. *)
Fixpoint wait_room (env : writer_env) (flusher : writer -> writer) (fuel : nat) (w : writer) : result write_error writer :=
  match ensureRoomForWrite env w with
  | Err ENoRoom => match fuel with O => Err ENoRoom | S fuel => wait_room env flusher fuel (flusher w) end
  | r => r
  end.

Fixpoint lsm_requests (env : writer_env) (flusher : writer -> writer) (fuel : nat) (threshold : Z) (w : writer)
    (reqs : list (list Entry * list valuePointer)) : result write_error writer :=
  match reqs with
  | [] => Ok w
  | (es, ptrs) :: reqs =>
      if bool_decide (es = []) then lsm_requests env flusher fuel threshold w reqs
      else
        w ← wait_room env flusher fuel w;
        mt ← writeToLSM (we_InMemory env) threshold (w_mt w) es ptrs;
        lsm_requests env flusher fuel threshold (mkWriter mt (w_imm w) (w_flushChan w) (w_nextMemFid w)) reqs
  end.

(** The requests with the pointers the value log gave them, if there is one. *)
Definition with_ptrs (reqs : list (list Entry)) (bs : option (list (list (Entry * valuePointer))))
    : list (list Entry * list valuePointer) :=
  match bs with Some bs => map (fun b => (b.*1, b.*2)) bs | None => map (fun r => (r, [])) reqs end.

(** [writeRequests]: the value log first, then request by request the memtable. *)
Definition writeRequests (env : writer_env) (vopt : vlog_opts) (venv : vlog_env) (flusher : writer -> writer)
    (fuel : nat) (threshold : Z) (w : writer) (vl : valueLog) (reqs : list (list Entry))
    : result write_error (writer * valueLog) :=
  if bool_decide (reqs = []) then Ok (w, vl)
  else
    match vlog_write vopt venv threshold vl reqs with
    | Ok (vl, bs) => w ← lsm_requests env flusher fuel threshold w (with_ptrs reqs bs); Ok (w, vl)
    | Err e => Err (EVlog e)
    | Panic => Panic
    end.
End WritePath.

Lemma known_bits : bitValuePointer ∈ meta_bits /\ bitTxn ∈ meta_bits /\ bitFinTxn ∈ meta_bits.
Proof. unfold meta_bits. set_solver. Qed.

(** ** Commits as they reach the memtable *)

(** A commit: its timestamp, the writes in the order Go walks them, and the pointers the value
    log gave to its entries. *)
Record commit_req : Type := mkCommitReq { cr_ts : Z; cr_writes : list Entry; cr_ptrs : list valuePointer }.

Section Commits.
Context `{A : BlockCipher} `{!BlockCipherLaws A} `{M : Mmap} `{!MmapLaws M}.
Context (threshold : Z).

(** The entries of its request, thresholds set, and their memtable entries. *)
Definition cr_entries (c : commit_req) : list Entry :=
  match commit_entries (cr_ts c) (cr_writes c) with
  | Ok es => (request_size threshold es).2
  | _ => []
  end.

Fixpoint write_commits (mt : memTable) (cs : list commit_req) : result write_error memTable :=
  match cs with
  | [] => Ok mt
  | c :: cs => mt ← writeToLSM false threshold mt (cr_entries c) (cr_ptrs c); write_commits mt cs
  end.

Definition lsm_entry (x : Entry * valuePointer) : Entry := entry_of (eKey x.1) (lsm_value threshold x.1 x.2).

(** What a commit shows in the memtable: its writes, without the end marker. *)
Definition commit_data (c : commit_req) : list Entry :=
  lsm_entry <$> zip ((fun e => stick_threshold (committed_entry (cr_ts c) e) threshold) <$> cr_writes c) (cr_ptrs c).

(** A write a transaction accepts, in a database that is not managed. *)
Definition write_ok (e : Entry) : Prop :=
  eversion e = 0 /\ eKey e <> [] /\ len (eKey e) <= maxKeySize /\ len (vbytes (eValue e)) < 2 ^ 31 /\
  is_u64 (eExpiresAt e) /\ has_bit (emeta e) bitFinTxn = false.

Definition commit_ok (c : commit_req) : Prop :=
  0 < cr_ts c <= MaxUint64 /\ cr_writes c <> [] /\ Forall write_ok (cr_writes c) /\
  length (cr_ptrs c) = S (length (cr_writes c)).

(** ** Lemmas *)

Lemma request_size_stick es : (request_size threshold es).2 = (fun e => stick_threshold e threshold) <$> es.
Proof using Type.
  induction es as [|e es IH]; [done|]. cbn [request_size fmap list_fmap].
  destruct (estimateSizeAndSetThreshold e threshold) as [sz e'] eqn:E.
  assert (e' = stick_threshold e threshold) as ->.
  { unfold estimateSizeAndSetThreshold in E. destruct (bool_decide _) in E; by injection E. }
  destruct (request_size threshold es). cbn in *. by rewrite IH.
Qed.

Definition fin_stuck (ts : Z) : Entry := stick_threshold (fin_entry ts) threshold.

Lemma cr_entries_eq c : commit_ok c -> cr_entries c
  = ((fun e => stick_threshold (committed_entry (cr_ts c) e) threshold) <$> cr_writes c) ++ [fin_stuck (cr_ts c)].
Proof using Type.
  intros (Hts & _ & Hw & _). unfold cr_entries. rewrite commit_entries_unmanaged.
  - rewrite request_size_stick, fmap_app, <- list_fmap_compose. done.
  - eapply Forall_impl; [exact Hw|]. intros e He. apply He.
  - lia.
Qed.

Lemma lsm_value_version e p : Version (lsm_value threshold e p) = 0.
Proof using Type. unfold lsm_value. destruct (skipVlogAndSetThreshold e threshold) as [[] e']; done. Qed.

Lemma put_entries_puts es : forall mt, put_entries threshold mt es = mt_puts mt (lsm_entry <$> es).
Proof using Type.
  induction es as [|[e p] es IH]; intros mt; [done|]. cbn [put_entries fmap list_fmap]. rewrite mt_puts_cons.
  change (eKey (lsm_entry (e, p))) with (eKey e).
  assert (value_of (lsm_entry (e, p)) = lsm_value threshold e p) as ->.
  { unfold value_of, lsm_entry, entry_of. cbn [fst snd emeta eUserMeta eExpiresAt eValue].
    pose proof (lsm_value_version e p). destruct (lsm_value threshold e p). cbn in *. by subst. }
  destruct (mt_Put mt (eKey e) _); [apply IH|done..].
Qed.

Lemma mt_puts_app mt es1 es2 : mt_puts mt (es1 ++ es2) = mt ← mt_puts mt es1; mt_puts mt es2.
Proof using Type.
  revert mt. induction es1 as [|e es1 IH]; intros mt; [done|]. cbn [app]. rewrite !mt_puts_cons.
  destruct (mt_Put mt (eKey e) (value_of e)); [apply IH|done..].
Qed.

(** The end marker as it is written; its value has to stay in the log. *)
Definition fin_written (c : commit_req) : Entry := lsm_entry (fin_stuck (cr_ts c), default (mkVP 0 0 0) (last (cr_ptrs c))).

Definition commit_group (c : commit_req) : log_group := GTxn (cr_ts c) (commit_data c) (fin_written c).

Lemma zip_snoc {X Y} (xs : list X) (ys : list Y) x d : length ys = S (length xs) ->
  zip (xs ++ [x]) ys = zip xs ys ++ [(x, default d (last ys))].
Proof using Type.
  revert ys. induction xs as [|a xs IH]; intros ys Hl.
  - destruct ys as [|y [|]]; try done.
  - destruct ys as [|y ys]; [done|]. cbn in Hl. injection Hl as Hl. cbn [app zip]. rewrite (IH ys Hl).
    destruct ys as [|y' ys]; done.
Qed.

Lemma writeToLSM_puts mt c : commit_ok c ->
  writeToLSM false threshold mt (cr_entries c) (cr_ptrs c) = lift_wal (mt_puts mt (group_written (commit_group c))).
Proof using Type.
  intros Hok. pose proof Hok as (_ & _ & _ & Hl).
  assert (length (cr_entries c) = length (cr_ptrs c)) as El.
  { rewrite cr_entries_eq by done. rewrite length_app, length_fmap. cbn. lia. }
  rewrite writeToLSM_placed, put_entries_puts by done. do 2 f_equal. rewrite cr_entries_eq by done.
  rewrite (zip_snoc _ _ _ (mkVP 0 0 0)) by (by rewrite length_fmap). by rewrite fmap_app.
Qed.

Lemma write_commits_puts cs : forall mt, Forall commit_ok cs ->
  write_commits mt cs = lift_wal (mt_puts mt (Wal.written (commit_group <$> cs))).
Proof using Type.
  induction cs as [|c cs IH]; intros mt Hok; [done|]. apply Forall_cons in Hok as [Hc Hok].
  cbn [write_commits fmap list_fmap]. rewrite writeToLSM_puts by done.
  change (Wal.written (commit_group c :: (commit_group <$> cs)))
    with (group_written (commit_group c) ++ Wal.written (commit_group <$> cs)).
  rewrite mt_puts_app. destruct (mt_puts mt (group_written (commit_group c))); [|done..].
  cbn [lift_wal mbind result_bind]. by apply IH.
Qed.

(** The meta byte of a committed entry in the memtable. *)
Lemma lsm_meta e p b : b ∈ meta_bits -> b <> bitValuePointer ->
  has_bit (Meta (lsm_value threshold e p)) b = has_bit (emeta e) b.
Proof using Type.
  intros Hb Hne. unfold lsm_value, skipVlogAndSetThreshold.
  assert (emeta (stick_threshold e threshold) = emeta e) as Em by (unfold stick_threshold; by case_bool_decide).
  pose proof (proj1 known_bits) as Hv.
  destruct (bool_decide (len (vbytes (eValue (stick_threshold e threshold))) < evalThreshold (stick_threshold e threshold)));
    cbn [Meta]; rewrite Em.
  - rewrite has_clear_bit by done. rewrite bool_decide_eq_false_2 by done. done.
  - rewrite has_set_bit by done. rewrite bool_decide_eq_false_2 by done. done.
Qed.

Lemma lsm_value_len e p : len (vbytes (Value (lsm_value threshold e p))) <= Z.max 12 (len (vbytes (eValue e))).
Proof using Type.
  unfold lsm_value, skipVlogAndSetThreshold.
  assert (eValue (stick_threshold e threshold) = eValue e) as -> by (unfold stick_threshold; by case_bool_decide).
  destruct (bool_decide (len (vbytes (eValue e)) < _)); cbn [Value].
  - lia.
  - change (vbytes (Some (vp_Encode p))) with (vp_Encode p). rewrite vp_Encode_length. unfold vptrSize. lia.
Qed.

Lemma lsm_value_expires e p : ExpiresAt (lsm_value threshold e p) = eExpiresAt e.
Proof using Type.
  unfold lsm_value, skipVlogAndSetThreshold. destruct (bool_decide _); cbn [ExpiresAt]; unfold stick_threshold; by case_bool_decide.
Qed.

Lemma lsm_entry_ok e p : entry_fits e -> len (vbytes (eValue e)) < 2 ^ 31 -> eKey e <> [] -> entry_ok (lsm_entry (e, p)).
Proof using Type.
  intros (H1 & H2 & H3) Hv Hne. unfold entry_ok, entry_fits, lsm_entry, entry_of. cbn [fst snd eKey eValue eExpiresAt].
  pose proof (lsm_value_len e p). rewrite lsm_value_expires. split_and!; [done|lia|done|done].
Qed.

(** A committed write, as an entry of the transaction's group. *)
Lemma commit_write_ok ts e p : 0 < ts <= MaxUint64 -> write_ok e ->
  txn_entry_ok ts (lsm_entry (stick_threshold (committed_entry ts e) threshold, p)).
Proof using Type.
  intros Hts (Hv & Hk & Hkl & Hvl & Hexp & Hm).
  set (e' := committed_entry ts e).
  assert (eKey e' = KeyWithTs (eKey e) ts /\ eValue e' = eValue e /\ eExpiresAt e' = eExpiresAt e /\
    emeta e' = set_bit (emeta e) bitTxn) as (E1 & E2 & E3 & E4).
  { unfold e', committed_entry, processEntry, setVersion. rewrite bool_decide_eq_true_2 by done. done. }
  destruct (stick_fields e' threshold) as (F1 & F2 & F3 & _ & F5 & _).
  assert (entry_fits (stick_threshold e' threshold)) as Hfit.
  { unfold entry_fits. rewrite F1, F2, F3, E1, E2, E3, KeyWithTs_len. unfold maxKeySize in Hkl. split_and!; [lia|lia|done]. }
  destruct known_bits as (_ & Ht & Hf).
  split; [|split; [|split]].
  - apply lsm_entry_ok; [done|by rewrite F2, E2|]. rewrite F1, E1. intros H. apply (f_equal length) in H.
    rewrite KeyWithTs_length in H. cbn in H. lia.
  - change (has_bit (Meta (lsm_value threshold (stick_threshold e' threshold) p)) bitTxn = true).
    rewrite lsm_meta by done. rewrite F5, E4, has_set_bit by done. by rewrite bool_decide_eq_true_2.
  - change (has_bit (Meta (lsm_value threshold (stick_threshold e' threshold) p)) bitFinTxn = false).
    rewrite lsm_meta by done. rewrite F5, E4, has_set_bit by done. by rewrite bool_decide_eq_false_2.
  - change (ParseTs (eKey (stick_threshold e' threshold)) = ts). rewrite F1, E1. apply ParseTs_KeyWithTs; (done || lia).
Qed.

Lemma fin_fields ts : let e := fin_stuck ts in
  eKey e = KeyWithTs txnKey ts /\ eValue e = Some (FormatUint ts) /\ emeta e = z2b bitFinTxn /\ eExpiresAt e = 0 /\
  evalThreshold e = threshold.
Proof using Type. unfold fin_stuck, stick_threshold. by case_bool_decide. Qed.

(** With a threshold above twenty a commit is a transaction of the log. *)
Lemma commit_group_ok c : 20 < threshold -> commit_ok c -> group_ok (commit_group c).
Proof using Type.
  intros Hth (Hts & Hne & Hw & Hl). unfold commit_group, group_ok.
  destruct (fin_fields (cr_ts c)) as (F1 & F2 & F3 & F4 & F5). set (f := fin_stuck (cr_ts c)) in *.
  set (p := default (mkVP 0 0 0) (last (cr_ptrs c))).
  pose proof (FormatUint_length (cr_ts c)) as Hfl.
  assert (vbytes (eValue f) = FormatUint (cr_ts c)) as Ev by by rewrite F2.
  assert (entry_fits f) as Hfit.
  { unfold entry_fits. rewrite Ev, F1, F4, KeyWithTs_len. change (len txnKey) with 11. unfold is_u64. split_and!; lia. }
  assert (stick_threshold f threshold = f) as Es.
  { unfold stick_threshold. rewrite F5. rewrite bool_decide_eq_false_2 by lia. done. }
  destruct known_bits as (_ & Ht & Hf).
  split; [done|]. split; [|split; [|split; [|split; [|split]]]].
  - unfold commit_data. destruct (cr_writes c), (cr_ptrs c); done.
  - unfold commit_data. apply Forall_fmap, Forall_forall. intros [e q] Hin. cbn.
    apply elem_of_zip_l in Hin. apply list_elem_of_fmap in Hin as (e0 & -> & Hin).
    apply commit_write_ok; [done|]. rewrite Forall_forall in Hw. by apply Hw.
  - unfold fin_written. fold f p. apply lsm_entry_ok; [done|rewrite Ev; lia|]. rewrite F1. intros H.
    apply (f_equal length) in H. rewrite KeyWithTs_length in H. cbn in H. lia.
  - unfold fin_written. fold f p. change (has_bit (Meta (lsm_value threshold f p)) bitTxn = false).
    rewrite lsm_meta by done. by rewrite F3.
  - unfold fin_written. fold f p. change (has_bit (Meta (lsm_value threshold f p)) bitFinTxn = true).
    rewrite lsm_meta by done. by rewrite F3.
  - unfold fin_written. fold f p. change (Value (lsm_value threshold f p) = Some (FormatUint (cr_ts c))).
    unfold lsm_value, skipVlogAndSetThreshold. rewrite Es, Ev, F5, bool_decide_eq_true_2 by lia. exact F2.
Qed.

Lemma groups_data_commits cs : groups_data (commit_group <$> cs) = concat (commit_data <$> cs).
Proof using Type. unfold groups_data. by rewrite <- list_fmap_compose. Qed.

(** ** Properties *)

(** C6: Transactions are atomic across a crash.  Let commits be written to a new memtable, each
    with the pointers the value log gave it, and let the write-ahead log survive up to any
    byte: the memtable opened from what is left holds exactly the writes of the first [j]
    commits, every one of them in full and of no other commit anything, and it holds all of
    them when the whole file survived.  (The threshold that keeps values out of the LSM tree
    has to be above twenty, so that end markers stay in the log.) *)
Theorem commits_survive_crash latest registry iv dk size fid mt0 mt cs :
  20 < threshold ->
  registry_ok latest registry iv dk -> 20 <= 2 * size -> 2 * size + maxHeaderSize < 2 ^ 32 ->
  openMemTable false false size fid None latest registry iv = Ok (mt0, true) ->
  Forall commit_ok cs -> write_commits mt0 cs = Ok mt ->
  (mt_sl mt, maxVersion_ mt) = mem_of ([], 0) (concat (commit_data <$> cs)) /\
  exists wal, mt_wal mt = Some wal /\ forall n, 20 <= n <= len (lf_Data wal) ->
    exists j mt', (j <= length cs)%nat /\
      openMemTable false false size fid (Some (take (Z.to_nat n) (lf_Data wal))) latest registry iv = Ok (mt', false) /\
      (mt_sl mt', maxVersion_ mt') = mem_of ([], 0) (concat (commit_data <$> take j cs)) /\
      (n = len (lf_Data wal) -> j = length cs).
Proof using BlockCipherLaws0 MmapLaws0.
  intros Hth Hro H1 H2 Ho Hcs Hw.
  assert (Forall group_ok (commit_group <$> cs)) as Hgs.
  { apply Forall_fmap. eapply Forall_impl; [exact Hcs|]. intros c Hc. by apply commit_group_ok. }
  rewrite write_commits_puts in Hw by done.
  destruct (mt_puts mt0 (Wal.written (commit_group <$> cs))) as [mt1| |] eqn:Ep; [|done..]. injection Hw as ->.
  destruct (mem_recovers latest registry iv dk size fid mt0 mt (commit_group <$> cs) 1 [] Hro H1 H2 Ho Hgs) as (wal & Ew & Em & Hlw & Hr);
    [constructor|done|by rewrite app_nil_r|].
  rewrite app_nil_r in Hlw. rewrite app_nil_r, groups_data_commits in Em. split; [done|]. exists wal. split; [done|]. intros n Hn.
  destruct (Hr n Hn) as (gs1 & gs2 & wal' & Egs & Hmax & Hopen & Hlen & Hpre).
  exists (length gs1).
  assert (gs1 = commit_group <$> take (length gs1) cs) as Eg1.
  { rewrite fmap_take, Egs. by rewrite take_app_length. }
  assert (length gs1 + length gs2 = length cs)%nat as Hlc by (rewrite <- length_app, <- Egs; apply length_fmap).
  rewrite Eg1, groups_data_commits in Hopen. 
  destruct (mem_of ([], 0) (concat (commit_data <$> take (length gs1) cs))) as [sl mv] eqn:Emem.
  eexists. split; [lia|]. split; [exact Hopen|]. split; [cbn; by rewrite <- Emem|].
  intros ->. destruct gs2 as [|g gs2]; [cbn in Hlc; lia|]. exfalso. specialize (Hmax g gs2 eq_refl).
  assert (log_len (Wal.written (gs1 ++ [g])) <= log_len (Wal.written (commit_group <$> cs))); [|lia].
  assert (commit_group <$> cs = (gs1 ++ [g]) ++ gs2) as -> by (rewrite Egs; by rewrite <- app_assoc).
  rewrite Egs in Hgs. apply Forall_app in Hgs as [_ Hgs]. apply Forall_cons in Hgs as [_ Hgs].
  unfold Wal.written. rewrite (fmap_app _ (gs1 ++ [g])), concat_app, log_len_app.
  pose proof (log_len_nonneg _ (written_fits gs2 Hgs)). unfold Wal.written in *. lia.
Qed.
End Commits.

(** ** Witness: two commits, one with a value in the value log *)

Definition wx_commits : list commit_req :=
  [mkCommitReq 3 [NewEntry [x61] (Some [x01])] [mkVP 0 0 0; mkVP 0 0 0];
   mkCommitReq 4 [delete_entry [x62]; NewEntry [x61] (Some (replicate 60 x02))] [mkVP 0 0 0; mkVP 1 95 20; mkVP 0 0 0]].

Definition wx_new : memTable :=
  match openMemTable false false 150 1 None wal_latest wal_registry wal_iv with Ok (mt, _) => mt | _ => mkMT [] None 0 end.
Definition wx_put (threshold : Z) : memTable :=
  match write_commits threshold wx_new wx_commits with Ok mt => mt | _ => mkMT [] None 0 end.

Lemma wx_commits_ok : Forall commit_ok wx_commits.
Proof.
  assert (forall e, eversion e = 0 -> eKey e <> [] -> (len (eKey e) <=? maxKeySize) = true ->
    (len (vbytes (eValue e)) <? 2 ^ 31) = true -> eExpiresAt e = 0 -> has_bit (emeta e) bitFinTxn = false -> write_ok e) as Hw.
  { intros e H1 H2 H3 H4 H5 H6. unfold write_ok, is_u64. split_and!; done || lia. }
  repeat (apply Forall_cons_2 || apply Forall_nil_2).
  - split; [by vm_compute|]. split; [done|]. split; [|done].
    repeat (apply Forall_cons_2 || apply Forall_nil_2); by apply Hw.
  - split; [by vm_compute|]. split; [done|]. split; [|done].
    repeat (apply Forall_cons_2 || apply Forall_nil_2); by apply Hw.
Qed.

Lemma commits_survive_crash_witness :
  (mt_sl (wx_put 50), maxVersion_ (wx_put 50)) = mem_of ([], 0) (concat (commit_data 50 <$> wx_commits)) /\
  exists wal, mt_wal (wx_put 50) = Some wal /\ forall n, 20 <= n <= len (lf_Data wal) ->
    exists j mt', (j <= 2)%nat /\
      openMemTable false false 150 1 (Some (take (Z.to_nat n) (lf_Data wal))) wal_latest wal_registry wal_iv = Ok (mt', false) /\
      (mt_sl mt', maxVersion_ mt') = mem_of ([], 0) (concat (commit_data 50 <$> take j wx_commits)) /\
      (n = len (lf_Data wal) -> j = 2%nat).
Proof.
  apply (commits_survive_crash 50 wal_latest wal_registry wal_iv (Some wal_key) 150 1 wx_new (wx_put 50) wx_commits).
  - lia.
  - exact wal_registry_ok.
  - lia.
  - vm_compute. reflexivity.
  - vm_compute. reflexivity.
  - exact wx_commits_ok.
  - vm_compute. reflexivity.
Defined.

(** ** End markers in the value log *)

(** With a threshold below the length of the timestamp the end marker's value goes to the value
    log and a pointer into the write-ahead log.  A replay takes the pointer for a number, stops
    at it and cuts the log there: after a crash both commits are lost although every byte of
    the log is there. *)
Lemma low_threshold_loses_commits :
  exists wal mt', mt_wal (wx_put 1) = Some wal /\ length (mt_sl (wx_put 1)) = 3%nat /\
    openMemTable false false 150 1 (Some (lf_Data wal)) wal_latest wal_registry wal_iv = Ok (mt', false) /\
    mt_sl mt' = [].
Proof.
  eexists _, _. split; [vm_compute; reflexivity|]. split; [vm_compute; reflexivity|].
  split; [vm_compute; reflexivity|]. reflexivity.
Qed.
