(* ===== verification/Compaction.v ===== *)
(** * Compaction: choosing what to compact, and keeping compactions apart
    (compaction.go, levels.go)

    The first part is [keyRange] and [compactStatus], the registry of running compactions.
    A panic — also the [log.Fatal] of [delete] and an index out of range — is [None].  The
    pointers [thisLevel], [nextLevel] of a [compactDef] are level numbers. *)

From Stdlib Require Import SpecFloat.
From S2P Require Import Prelude Keys Codec Bloom Tables LevelHandler.

(** ** Key ranges *)

Record keyRange : Type := mkKR {
  kr_left : bytes;
  kr_right : bytes;
  kr_inf : bool;
  kr_size : Z
}.

#[export] Instance keyRange_eq_dec : EqDecision keyRange.
Proof. solve_decision. Defined.

Definition kr_empty : keyRange := mkKR [] [] false 0.
Definition infRange : keyRange := mkKR [] [] true 0.

Definition isEmpty (r : keyRange) : bool :=
  bool_decide (len (kr_left r) = 0) && bool_decide (len (kr_right r) = 0) && negb (kr_inf r).

Definition equals (r dst : keyRange) : bool :=
  bool_decide (kr_left r = kr_left dst) && bool_decide (kr_right r = kr_right dst)
  && bool_decide (kr_inf r = kr_inf dst).

(** [len(x) == 0 || CompareKeys(y, x) is c]: the comparison is only evaluated on a non-empty
    [x]. *)
Definition empty_or (x y : bytes) (c : comparison) : option bool :=
  if bool_decide (len x = 0) then Some true
  else o ← CompareKeys y x; Some (bool_decide (o = c)).

Definition extend (r kr : keyRange) : option keyRange :=
  if isEmpty kr then Some r
  else
    let r := if isEmpty r then kr else r in
    bl ← empty_or (kr_left r) (kr_left kr) Lt;
    let r := if (bl : bool) then mkKR (kr_left kr) (kr_right r) (kr_inf r) (kr_size r) else r in
    br ← empty_or (kr_right r) (kr_right kr) Gt;
    let r := if (br : bool) then mkKR (kr_left r) (kr_right kr) (kr_inf r) (kr_size r) else r in
    Some (if kr_inf kr then mkKR (kr_left r) (kr_right r) true (kr_size r) else r).

Definition overlapsWith (r dst : keyRange) : option bool :=
  if isEmpty r then Some true
  else if isEmpty dst then Some false
  else if kr_inf r || kr_inf dst then Some true
  else
    c1 ← CompareKeys (kr_left r) (kr_right dst);
    if bool_decide (c1 = Gt) then Some false
    else
      c2 ← CompareKeys (kr_right r) (kr_left dst);
      Some (negb (bool_decide (c2 = Lt))).

(** The loop of [getKeyRange]. *)
Fixpoint key_bounds (l : list Table) (smallest biggest : bytes) : option (bytes * bytes) :=
  match l with
  | [] => Some (smallest, biggest)
  | t :: l =>
      c1 ← CompareKeys (Smallest t) smallest;
      let smallest := if bool_decide (c1 = Lt) then Smallest t else smallest in
      c2 ← CompareKeys (Biggest t) biggest;
      let biggest := if bool_decide (c2 = Gt) then Biggest t else biggest in
      key_bounds l smallest biggest
  end.

(** All the versions of the smallest and of the biggest key. *)
Definition getKeyRange (l : list Table) : option keyRange :=
  match l with
  | [] => Some kr_empty
  | t :: l =>
      '(smallest, biggest) ← key_bounds l (Smallest t) (Biggest t);
      Some (mkKR (KeyWithTs (ParseKey smallest) MaxUint64)
                 (KeyWithTs (ParseKey biggest) 0) false 0)
  end.

(** ** The registry of running compactions *)

Record levelCompactStatus : Type := mkLCS { ranges : list keyRange; lcs_delSize : Z }.

Fixpoint lcs_overlapsWith (l : list keyRange) (dst : keyRange) : option bool :=
  match l with
  | [] => Some false
  | r :: l => b ← overlapsWith r dst; if (b : bool) then Some true else lcs_overlapsWith l dst
  end.

(** [remove]: every equal range goes. *)
Definition lcs_remove (lcs : levelCompactStatus) (dst : keyRange) : bool * levelCompactStatus :=
  (existsb (fun r => equals r dst) (ranges lcs),
   mkLCS (filter (fun r => equals r dst = false) (ranges lcs)) (lcs_delSize lcs)).

Record compactStatus : Type := mkCS {
  cs_levels : list levelCompactStatus;
  cs_tables : gset Z
}.

Definition cs_overlapsWith (cs : compactStatus) (level : nat) (this : keyRange) : option bool :=
  thisLevel ← cs_levels cs !! level; lcs_overlapsWith (ranges thisLevel) this.

Definition cs_delSize (cs : compactStatus) (l : nat) : option Z :=
  lcs_delSize <$> cs_levels cs !! l.

(** ** Compaction definitions *)

Record targets : Type := mkTargets {
  baseLevel : nat;
  targetSz : list Z;
  fileSz : list Z
}.

Record compactDef : Type := mkCD {
  compactorId : Z;
  cd_t : targets;
  cd_adjusted : spec_float;
  thisLevel : nat;
  nextLevel : nat;
  top : list Table;
  bot : list Table;
  thisRange : keyRange;
  nextRange : keyRange;
  splits : list keyRange;
  thisSize : Z;
  dropPrefixes : list bytes
}.

Definition allTables (cd : compactDef) : list Table := top cd ++ bot cd.

Definition add_range (r : keyRange) (sz : Z) (lcs : levelCompactStatus) : levelCompactStatus :=
  mkLCS (ranges lcs ++ [r]) (lcs_delSize lcs + sz).

Definition add_tables (l : list Table) (ts : gset Z) : gset Z :=
  foldl (fun ts t => {[ID t]} ∪ ts) ts l.

Definition compareAndAdd (cs : compactStatus) (cd : compactDef)
    : option (bool * compactStatus) :=
  this ← cs_levels cs !! thisLevel cd;
  next ← cs_levels cs !! nextLevel cd;
  o1 ← lcs_overlapsWith (ranges this) (thisRange cd);
  if (o1 : bool) then Some (false, cs)
  else
    o2 ← lcs_overlapsWith (ranges next) (nextRange cd);
    if (o2 : bool) then Some (false, cs)
    else
      let ls := alter (add_range (thisRange cd) (thisSize cd)) (thisLevel cd) (cs_levels cs) in
      let ls := alter (add_range (nextRange cd) 0) (nextLevel cd) ls in
      Some (true, mkCS ls (add_tables (top cd ++ bot cd) (cs_tables cs))).

Definition sub_delSize (sz : Z) (lcs : levelCompactStatus) : levelCompactStatus :=
  mkLCS (ranges lcs) (lcs_delSize lcs - sz).

(** Deleting a table that is not there is the failed assertion. *)
Fixpoint del_tables (l : list Table) (ts : gset Z) : option (gset Z) :=
  match l with
  | [] => Some ts
  | t :: l => if bool_decide (ID t ∈ ts) then del_tables l (ts ∖ {[ID t]}) else None
  end.

Definition cs_delete (cs : compactStatus) (cd : compactDef) : option compactStatus :=
  this ← cs_levels cs !! thisLevel cd;
  _ ← cs_levels cs !! nextLevel cd;
  let '(found, this) := lcs_remove (sub_delSize (thisSize cd) this) (thisRange cd) in
  let ls := <[thisLevel cd := this]> (cs_levels cs) in
  '(found, ls) ←
    (if bool_decide (thisLevel cd <> nextLevel cd) && negb (isEmpty (nextRange cd)) then
       next ← ls !! nextLevel cd;
       let '(found', next) := lcs_remove next (nextRange cd) in
       Some (found' && found, <[nextLevel cd := next]> ls)
     else Some (found, ls));
  if (found : bool) then
    ts ← del_tables (top cd ++ bot cd) (cs_tables cs);
    Some (mkCS ls ts)
  else None.

(** ** Level targets *)

Record lsmOptions : Type := mkLsmOptions {
  MaxLevels : Z;
  BaseLevelSize : Z;
  LevelSizeMultiplier : Z;
  BaseTableSize : Z;
  TableSizeMultiplier : Z;
  MemTableSize : Z;
  NumLevelZeroTables : Z;
  NumLevelZeroTablesStall : Z;
  NumVersionsToKeep : Z
}.

Record levelsController : Type := mkLC {
  lc_levels : list levelHandler;
  cstatus : compactStatus
}.

Definition lastLevel (s : levelsController) : option levelHandler := last (lc_levels s).

Definition level_size (s : levelsController) (i : nat) : Z :=
  from_option getTotalSize 0 (lc_levels s !! i).

Definition adjust (o : lsmOptions) (sz : Z) : Z :=
  if bool_decide (sz < BaseLevelSize o) then BaseLevelSize o else sz.

(** The first loop, [i] going down to 1; Go's division truncates and panics on zero. *)
Fixpoint target_loop (o : lsmOptions) (i : nat) (dbSize : Z) (base : nat) (targetSz : list Z)
    : option (nat * list Z) :=
  match i with
  | O => Some (base, targetSz)
  | S i' =>
      let ltarget := adjust o dbSize in
      let targetSz := <[i := ltarget]> targetSz in
      let base :=
        if bool_decide (base = 0%nat /\ ltarget <= BaseLevelSize o) then i else base in
      if bool_decide (LevelSizeMultiplier o = 0) then None
      else target_loop o i' (Z.quot dbSize (LevelSizeMultiplier o)) base targetSz
  end.

(** The file sizes of levels [i], [i+1], ...; [n] of them. *)
Fixpoint file_loop (o : lsmOptions) (base i : nat) (tsz : Z) (n : nat) : list Z :=
  match n with
  | O => []
  | S n =>
      if bool_decide (i = 0%nat) then MemTableSize o :: file_loop o base (S i) tsz n
      else if bool_decide (i <= base)%nat then tsz :: file_loop o base (S i) tsz n
      else let tsz := i64 (tsz * TableSizeMultiplier o) in tsz :: file_loop o base (S i) tsz n
  end.

(** Bringing the base level down over the empty levels [i], [i+1], ...; [n] of them. *)
Fixpoint down_loop (s : levelsController) (i n base : nat) : nat :=
  match n with
  | O => base
  | S n => if bool_decide (0 < level_size s i) then base else down_loop s (S i) n i
  end.

Definition levelTargets (o : lsmOptions) (s : levelsController) : option targets :=
  lst ← lastLevel s;
  let n := length (lc_levels s) in
  '(base, tsz) ← target_loop o (n - 1) (getTotalSize lst) 0 (replicate n 0);
  let fsz := file_loop o base 0 (BaseTableSize o) n in
  let b := down_loop s (S base) (n - 1 - S base) base in
  let b :=
    if bool_decide ((b < n - 1)%nat /\ level_size s b = 0 /\
                    level_size s (S b) < default 0 (tsz !! S b))
    then S b else b in
  Some (mkTargets (if bool_decide (b = 0%nat) then 1%nat else b) tsz fsz).

(** ** Priorities, in IEEE double precision *)

Definition f64 (z : Z) : spec_float := binary_normalize 53 1024 z 0 false.
Definition f64_div : spec_float -> spec_float -> spec_float := SFdiv 53 1024.

(** [a >= b], false when either is NaN. *)
Definition f64_ge (a b : spec_float) : bool := SFleb b a.

(** 0.01, rounded to the nearest double. *)
Definition minScore : spec_float := S754_finite false 5764607523034235 (-59).

Record compactionPriority : Type := mkPrio {
  p_level : nat;
  score : spec_float;
  adjusted : spec_float;
  p_dropPrefixes : list bytes;
  p_t : targets
}.

Definition set_adjusted (p : compactionPriority) (a : spec_float) : compactionPriority :=
  mkPrio (p_level p) (score p) a (p_dropPrefixes p) (p_t p).

Definition addPriority (t : targets) (level : nat) (sc : spec_float) : compactionPriority :=
  mkPrio level sc sc [] t.

(** The scores of levels [i], [i+1], ... by size, what is being compacted already left out. *)
Fixpoint size_prios (s : levelsController) (t : targets) (i : nat) (l : list levelHandler)
    : option (list compactionPriority) :=
  match l with
  | [] => Some []
  | h :: l =>
      delSize ← cs_delSize (cstatus s) i;
      tgt ← targetSz t !! i;
      ps ← size_prios s t (S i) l;
      Some (addPriority t i (f64_div (f64 (getTotalSize h - delSize)) (f64 tgt)) :: ps)
  end.

(** The score of a level is divided by that of the next, levels [level], [level+1], ... *)
Fixpoint adjust_loop (n level prevLevel : nat) (prios : list compactionPriority)
    : option (list compactionPriority) :=
  match n with
  | O => Some prios
  | S n =>
      prev ← prios !! prevLevel;
      cur ← prios !! level;
      let prios :=
        if f64_ge (adjusted prev) (f64 1) then
          let d := if f64_ge (score cur) minScore then adjusted cur else minScore in
          <[prevLevel := set_adjusted prev (f64_div (adjusted prev) d)]> prios
        else prios in
      adjust_loop n (S level) level prios
  end.

(** [sort.Slice] by decreasing adjusted score. *)
Definition prio_le (p q : compactionPriority) : Prop := SFltb (adjusted p) (adjusted q) = false.

#[export] Instance prio_le_dec p q : Decision (prio_le p q).
Proof. unfold prio_le. apply _. Defined.

Definition pickCompactLevels (o : lsmOptions) (s : levelsController)
    : option (list compactionPriority) :=
  t ← levelTargets o s;
  match lc_levels s with
  | [] => None
  | l0 :: ls =>
      let p0 := addPriority t 0 (f64_div (f64 (numTables l0)) (f64 (NumLevelZeroTables o))) in
      ps ← size_prios s t 1 ls;
      let n := length (lc_levels s) in
      prios ← adjust_loop (n - baseLevel t) (baseLevel t) 0 (p0 :: ps);
      let out := filter (fun p => f64_ge (score p) (f64 1) = true) (take (n - 1) prios) in
      Some (merge_sort prio_le out)
  end.

(** Worker 0 runs level 0 first. *)
Definition moveL0toFront (prios : list compactionPriority) : list compactionPriority :=
  match list_find (fun p => p_level p = 0%nat) prios with
  | Some (S i, p) => p :: take (S i) prios ++ drop (S (S i)) prios
  | _ => prios
  end.

(** ** Filling a compaction definition *)

Definition set_bot (cd : compactDef) (l : list Table) : compactDef :=
  mkCD (compactorId cd) (cd_t cd) (cd_adjusted cd) (thisLevel cd) (nextLevel cd) (top cd) l
    (thisRange cd) (nextRange cd) (splits cd) (thisSize cd) (dropPrefixes cd).

Definition set_top (cd : compactDef) (l : list Table) : compactDef :=
  mkCD (compactorId cd) (cd_t cd) (cd_adjusted cd) (thisLevel cd) (nextLevel cd) l (bot cd)
    (thisRange cd) (nextRange cd) (splits cd) (thisSize cd) (dropPrefixes cd).

Definition set_ranges (cd : compactDef) (this next : keyRange) : compactDef :=
  mkCD (compactorId cd) (cd_t cd) (cd_adjusted cd) (thisLevel cd) (nextLevel cd) (top cd)
    (bot cd) this next (splits cd) (thisSize cd) (dropPrefixes cd).

Definition set_thisSize (cd : compactDef) (sz : Z) : compactDef :=
  mkCD (compactorId cd) (cd_t cd) (cd_adjusted cd) (thisLevel cd) (nextLevel cd) (top cd)
    (bot cd) (thisRange cd) (nextRange cd) (splits cd) sz (dropPrefixes cd).

Definition set_nextLevel (cd : compactDef) (l : nat) : compactDef :=
  mkCD (compactorId cd) (cd_t cd) (cd_adjusted cd) (thisLevel cd) l (top cd)
    (bot cd) (thisRange cd) (nextRange cd) (splits cd) (thisSize cd) (dropPrefixes cd).

Definition set_fileSz (cd : compactDef) (l : list Z) : compactDef :=
  mkCD (compactorId cd) (mkTargets (baseLevel (cd_t cd)) (targetSz (cd_t cd)) l)
    (cd_adjusted cd) (thisLevel cd) (nextLevel cd) (top cd) (bot cd) (thisRange cd)
    (nextRange cd) (splits cd) (thisSize cd) (dropPrefixes cd).

Definition set_splits (cd : compactDef) (l : list keyRange) : compactDef :=
  mkCD (compactorId cd) (cd_t cd) (cd_adjusted cd) (thisLevel cd) (nextLevel cd) (top cd)
    (bot cd) (thisRange cd) (nextRange cd) l (thisSize cd) (dropPrefixes cd).

(** What a filling function leaves behind: its answer, the definition, the registry. *)
Notation filled := (bool * compactDef * compactStatus)%type.

Definition second : Z := 1000000000.

(** Which tables an L0 to L0 compaction takes. *)
Definition l0_eligible (cs : compactStatus) (cd : compactDef) (sz0 now : Z) (t : Table) : bool :=
  negb (bool_decide (2 * sz0 <= Size t)) && negb (bool_decide (now - CreatedAt t < 10 * second))
  && negb (bool_decide (ID t ∈ cs_tables cs)).

Definition fillTablesL0ToL0 (s : levelsController) (now : Z) (cd : compactDef)
    : option filled :=
  if bool_decide (compactorId cd <> 0) then Some (false, cd, cstatus s)
  else
    let cd := set_bot (set_ranges (set_nextLevel cd 0) (thisRange cd) kr_empty) [] in
    if bool_decide (thisLevel cd <> 0%nat) then None
    else
      l0 ← lc_levels s !! thisLevel cd;
      sz0 ← fileSz (cd_t cd) !! 0%nat;
      let out := filter (fun t => l0_eligible (cstatus s) cd sz0 now t = true) (tables l0) in
      if bool_decide (length out < 4)%nat then Some (false, cd, cstatus s)
      else
        let cd := set_top (set_ranges cd infRange (nextRange cd)) out in
        let cs := mkCS (alter (add_range infRange 0) (thisLevel cd) (cs_levels (cstatus s)))
                       (add_tables out (cs_tables (cstatus s))) in
        Some (true, set_fileSz cd (<[0%nat := MaxUint32]> (fileSz (cd_t cd))), cs).

(** The oldest tables of level 0, as long as each meets the range of those before it. *)
Fixpoint l0_prefix (l : list Table) (kr : keyRange) (out : list Table) : option (list Table) :=
  match l with
  | [] => Some out
  | t :: l =>
      dkr ← getKeyRange [t];
      b ← overlapsWith kr dkr;
      if (b : bool) then kr ← extend kr dkr; l0_prefix l kr (out ++ [t]) else Some out
  end.

Definition overlapping (s : levelsController) (level : nat) (kr : keyRange)
    : option (list Table) :=
  h ← lc_levels s !! level;
  let '(l, r) := overlappingTables h (kr_left kr) (kr_right kr) in
  Some (take (r - l) (drop l (tables h))).

Definition fillTablesL0ToLbase (s : levelsController) (cd : compactDef) : option filled :=
  if bool_decide (nextLevel cd = 0%nat) then None
  else if SFltb (f64 0) (cd_adjusted cd) && SFltb (cd_adjusted cd) (f64 1)
  then Some (false, cd, cstatus s)
  else
    l0 ← lc_levels s !! thisLevel cd;
    if bool_decide (tables l0 = []) then Some (false, cd, cstatus s)
    else
      out ← (if bool_decide (dropPrefixes cd <> []) then Some (tables l0)
             else l0_prefix (tables l0) kr_empty []);
      tr ← getKeyRange out;
      let cd := set_top (set_ranges cd tr (nextRange cd)) out in
      b ← overlapping s (nextLevel cd) tr;
      let cd := set_bot cd b in
      nr ← (if bool_decide (b = []) then Some tr else getKeyRange b);
      let cd := set_ranges cd tr nr in
      '(ok, cs) ← compareAndAdd (cstatus s) cd;
      Some (ok, cd, cs).

Definition fillTablesL0 (s : levelsController) (now : Z) (cd : compactDef) : option filled :=
  '(ok, cd, cs) ← fillTablesL0ToLbase s cd;
  if (ok : bool) then Some (true, cd, cs)
  else fillTablesL0ToL0 (mkLC (lc_levels s) cs) now cd.

Definition desc (a b : Z) : comparison := Z.compare b a.

Definition sortByStaleDataSize (l : list Table) : list Table := sort_by desc StaleDataSize l.
Definition sortByHeuristic (l : list Table) : list Table := sort_by Z.compare MaxVersion l.

(** Collecting the tables after [t] until the wanted size is reached. *)
Fixpoint collect_loop (l : list Table) (totalSize needSz : Z) (cd : compactDef)
    : option compactDef :=
  match l with
  | [] => Some cd
  | newT :: l =>
      let totalSize := totalSize + Size newT in
      if bool_decide (needSz <= totalSize) then Some cd
      else
        kr ← getKeyRange [newT];
        nr ← extend (nextRange cd) kr;
        collect_loop l totalSize needSz
          (set_ranges (set_bot cd (bot cd ++ [newT])) (thisRange cd) nr)
  end.

Definition collectBotTables (l : list Table) (t : Table) (needSz : Z) (cd : compactDef)
    : option compactDef :=
  let j := sort_Search (length l) (fun i =>
    match l !! i with
    | Some t' => bool_decide (compareKeys (Smallest t') (Smallest t) <> Lt) | None => true end) in
  tj ← l !! j;
  if bool_decide (ID tj = ID t) then collect_loop (drop (S j) l) (Size t) needSz cd else None.

Definition hour : Z := 3600 * second.

(** The loop of [fillMaxLevelTables]; [inl] is a [return], [inr] the end of the loop. *)
Fixpoint max_loop (cs : compactStatus) (discardTs now : Z) (l sorted : list Table)
    (cd : compactDef) : option (filled + compactDef) :=
  match sorted with
  | [] => Some (inr cd)
  | t :: sorted =>
      if bool_decide (discardTs < MaxVersion t) || bool_decide (now - CreatedAt t < hour)
         || bool_decide (StaleDataSize t < 10485760)
      then max_loop cs discardTs now l sorted cd
      else
        tr ← getKeyRange [t];
        let cd := set_ranges (set_thisSize cd (Size t)) tr tr in
        o ← cs_overlapsWith cs (thisLevel cd) tr;
        if (o : bool) then max_loop cs discardTs now l sorted cd
        else
          let cd := set_top cd [t] in
          needFileSz ← fileSz (cd_t cd) !! thisLevel cd;
          if bool_decide (needFileSz <= Size t) then Some (inr cd)
          else
            cd ← collectBotTables l t needFileSz cd;
            '(ok, cs') ← compareAndAdd cs cd;
            if (ok : bool) then Some (inl (true, cd, cs'))
            else max_loop cs discardTs now l sorted
                   (set_ranges (set_bot cd []) (thisRange cd) kr_empty)
  end.

Definition fillMaxLevelTables (s : levelsController) (discardTs now : Z) (l : list Table)
    (cd : compactDef) : option filled :=
  let sortedTables := sortByStaleDataSize l in
  if bool_decide (StaleDataSize <$> head sortedTables = Some 0)
  then Some (false, cd, cstatus s)
  else
    r ← max_loop (cstatus s) discardTs now l sortedTables (set_bot cd []);
    match r with
    | inl res => Some res
    | inr cd =>
        if bool_decide (top cd = []) then Some (false, cd, cstatus s)
        else '(ok, cs) ← compareAndAdd (cstatus s) cd; Some (ok, cd, cs)
    end.

(** The loop of [fillTables] over the tables, oldest versions first. *)
Fixpoint fill_loop (s : levelsController) (sorted : list Table) (cd : compactDef)
    : option filled :=
  match sorted with
  | [] => Some (false, cd, cstatus s)
  | t :: sorted =>
      tr ← getKeyRange [t];
      let cd := set_ranges (set_thisSize cd (Size t)) tr (nextRange cd) in
      o ← cs_overlapsWith (cstatus s) (thisLevel cd) tr;
      if (o : bool) then fill_loop s sorted cd
      else
        b ← overlapping s (nextLevel cd) tr;
        let cd := set_bot (set_top cd [t]) b in
        nr ← (if bool_decide (b = []) then Some tr else getKeyRange b);
        let cd := set_ranges cd tr nr in
        o ← (if bool_decide (b = []) then Some false
             else cs_overlapsWith (cstatus s) (nextLevel cd) nr);
        if (o : bool) then fill_loop s sorted cd
        else
          '(ok, cs) ← compareAndAdd (cstatus s) cd;
          if (ok : bool) then Some (true, cd, cs) else fill_loop s sorted cd
  end.

Definition fillTables (o : lsmOptions) (s : levelsController) (discardTs now : Z)
    (cd : compactDef) : option filled :=
  h ← lc_levels s !! thisLevel cd;
  if bool_decide (tables h = []) then Some (false, cd, cstatus s)
  else if isLastLevel (MaxLevels o) h then fillMaxLevelTables s discardTs now (tables h) cd
  else fill_loop s (sortByHeuristic (tables h)) cd.

(** ** Splits, change sets and prefixes *)

(** The loop of [addSplits] over the bottom tables, [i] the index of the first. *)
Fixpoint splits_loop (width i : nat) (l : list Table) (skr : keyRange) : list keyRange :=
  match l with
  | [] => []
  | t :: l =>
      let addRange r := mkKR (kr_left skr) r (kr_inf skr) (kr_size skr) in
      let next r := mkKR r r (kr_inf skr) (kr_size skr) in
      if bool_decide (l = []) then [addRange []]
      else if bool_decide (i mod width = width - 1)%nat then
        let r := KeyWithTs (ParseKey (Biggest t)) 0 in
        addRange r :: splits_loop width (S i) l (next r)
      else splits_loop width (S i) l skr
  end.

(** [ceil(n / 5)] in floating point is the integer ceiling for every possible length. *)
Definition split_width (n : nat) : nat := Nat.max 3 ((n + 4) / 5).

Definition addSplits (cd : compactDef) : option compactDef :=
  skr ← extend (thisRange cd) (nextRange cd);
  Some (set_splits cd (splits_loop (split_width (length (bot cd))) 0 (bot cd) skr)).

Definition hasAnyPrefixes (s : bytes) (listOfPrefixes : list bytes) : bool :=
  existsb (fun prefix => bytes_HasPrefix s prefix) listOfPrefixes.

Definition containsPrefix (t : Table) (prefix : bytes) : bool :=
  bytes_HasPrefix (Smallest t) prefix || bytes_HasPrefix (Biggest t) prefix ||
  (bool_decide (bytes_Compare prefix (Smallest t) = Gt) &&
   bool_decide (bytes_Compare prefix (Biggest t) = Lt) &&
   match run_seek (entries t) (KeyWithTs prefix MaxUint64) with
   | Some (k, _) => bytes_HasPrefix k prefix
   | None => false
   end).

Definition containsAnyPrefixes (t : Table) (listOfPrefixes : list bytes) : bool :=
  existsb (containsPrefix t) listOfPrefixes.

(** Whether a range of tables meets a level from [lev] on. *)
Fixpoint overlap_loop (levels : list levelHandler) (i lev : nat) (kr : keyRange) : bool :=
  match levels with
  | [] => false
  | h :: levels =>
      if bool_decide (i < lev)%nat then overlap_loop levels (S i) lev kr
      else
        let '(l, r) := overlappingTables h (kr_left kr) (kr_right kr) in
        if bool_decide (0 < r - l)%nat then true else overlap_loop levels (S i) lev kr
  end.

Definition checkOverlap (s : levelsController) (l : list Table) (lev : nat) : option bool :=
  kr ← getKeyRange l; Some (overlap_loop (lc_levels s) 0 lev kr).

(** ** Lemmas: ranges *)

(** The ranges compactions claim: both ends are keys, in order. *)
Record kr_proper (r : keyRange) : Prop := {
  krp_left : has_ts (kr_left r);
  krp_right : has_ts (kr_right r);
  krp_inf : kr_inf r = false;
  krp_le : compareKeys (kr_left r) (kr_right r) <> Gt
}.

Definition in_range (r : keyRange) (k : bytes) : Prop :=
  compareKeys (kr_left r) k <> Gt /\ compareKeys k (kr_right r) <> Gt.

(** A table lies in a range. *)
Definition within (r : keyRange) (t : Table) : Prop :=
  in_range r (Smallest t) /\ in_range r (Biggest t).

(** The closed intervals meet. *)
Definition kr_meet (r dst : keyRange) : Prop :=
  compareKeys (kr_left r) (kr_right dst) <> Gt /\ compareKeys (kr_left dst) (kr_right r) <> Gt.

Lemma has_ts_nonempty k : has_ts k -> bool_decide (len k = 0) = false.
Proof. unfold has_ts. intros H. apply bool_decide_eq_false. lia. Qed.

Lemma proper_not_empty r : kr_proper r -> isEmpty r = false.
Proof. intros [Hl _ _ _]. unfold isEmpty. by rewrite has_ts_nonempty. Qed.

Lemma isEmpty_eq r : isEmpty r = true -> kr_left r = [] /\ kr_right r = [] /\ kr_inf r = false.
Proof.
  unfold isEmpty. rewrite !andb_true_iff, !bool_decide_eq_true, negb_true_iff.
  intros [[Hl Hr] Hi]. unfold len in *. destruct (kr_left r), (kr_right r); simpl in *; try lia. done.
Qed.

Lemma overlapsWith_proper r dst :
  kr_proper r -> kr_proper dst -> overlapsWith r dst = Some (bool_decide (kr_meet r dst)).
Proof.
  intros Hr Hd. unfold overlapsWith. rewrite !proper_not_empty by done.
  destruct Hr as [H1 H2 H3 _], Hd as [H4 H5 H6 _]. rewrite H3, H6. cbn [orb].
  rewrite !CompareKeys_total by done. cbn [mbind option_bind].
  unfold kr_meet. destruct (decide (compareKeys (kr_left r) (kr_right dst) = Gt)) as [E|E].
  { rewrite (bool_decide_eq_true_2 (_ = Gt)) by done. f_equal. symmetry.
    apply bool_decide_eq_false. tauto. }
  rewrite (bool_decide_eq_false_2 (_ = Gt)) by done. f_equal.
  apply eq_bool_prop_intro. rewrite negb_True, !bool_decide_spec.
  rewrite (cmp_ge_not_lt compareKeys). tauto.
Qed.

Lemma overlapsWith_inf_l dst : isEmpty dst = false -> overlapsWith infRange dst = Some true.
Proof. intros H. unfold overlapsWith. by rewrite H. Qed.

Lemma overlapsWith_empty_l r dst : isEmpty r = true -> overlapsWith r dst = Some true.
Proof. intros H. unfold overlapsWith. by rewrite H. Qed.

Lemma meet_sym r dst : kr_meet r dst -> kr_meet dst r.
Proof. unfold kr_meet. tauto. Qed.

Lemma meet_common r dst k : in_range r k -> in_range dst k -> kr_meet r dst.
Proof.
  intros [A B] [C D]. split; by eapply (cmp_le_trans compareKeys).
Qed.

Lemma meet_refl r : kr_proper r -> kr_meet r r.
Proof. intros []. by split. Qed.

Lemma equals_spec r dst :
  equals r dst = true <-> kr_left r = kr_left dst /\ kr_right r = kr_right dst /\ kr_inf r = kr_inf dst.
Proof. unfold equals. rewrite !andb_true_iff, !bool_decide_eq_true. tauto. Qed.

Lemma equals_refl r : equals r r = true.
Proof. by apply equals_spec. Qed.

Lemma equals_proper r dst : equals r dst = true -> kr_proper dst -> kr_proper r.
Proof. rewrite equals_spec. intros (E1 & E2 & E3) []. split; congruence. Qed.

Lemma equals_meet r dst : equals r dst = true -> kr_proper dst -> kr_meet r dst.
Proof.
  rewrite equals_spec. intros (E1 & E2 & E3) []. unfold kr_meet. by rewrite E1, E2.
Qed.

(** *** [getKeyRange] and [extend] *)

Lemma key_bounds_spec l s b :
  Forall table_ok l -> has_ts s -> has_ts b ->
  exists s' b', key_bounds l s b = Some (s', b') /\ has_ts s' /\ has_ts b' /\
    compareKeys s' s <> Gt /\ compareKeys b b' <> Gt /\
    Forall (fun t => compareKeys s' (Smallest t) <> Gt /\ compareKeys (Biggest t) b' <> Gt) l /\
    (s' = s \/ exists t, t ∈ l /\ s' = Smallest t) /\ (b' = b \/ exists t, t ∈ l /\ b' = Biggest t).
Proof.
  intros Hl. revert s b. induction Hl as [|t l Ht Hl IH]; intros s b Hs Hb.
  { exists s, b. cbn. rewrite !(cmp_refl compareKeys). split_and!; auto. }
  destruct (table_has_ts t Ht) as [Hts Htb]. cbn [key_bounds].
  rewrite !CompareKeys_total by done. cbn [mbind option_bind].
  set (s1 := if bool_decide (compareKeys (Smallest t) s = Lt) then Smallest t else s).
  set (b1 := if bool_decide (compareKeys (Biggest t) b = Gt) then Biggest t else b).
  assert (has_ts s1 /\ compareKeys s1 s <> Gt /\ compareKeys s1 (Smallest t) <> Gt /\
    (s1 = s \/ s1 = Smallest t)) as (Hs1 & Hs2 & Hs3 & Hs4).
  { unfold s1. case_bool_decide as E.
    - rewrite E, (cmp_refl compareKeys). auto.
    - rewrite (cmp_refl compareKeys). split_and!; auto. by apply (cmp_ge_not_lt compareKeys). }
  assert (has_ts b1 /\ compareKeys b b1 <> Gt /\ compareKeys (Biggest t) b1 <> Gt /\
    (b1 = b \/ b1 = Biggest t)) as (Hb1 & Hb2 & Hb3 & Hb4).
  { unfold b1. case_bool_decide as E.
    - apply (cmp_gt_lt compareKeys) in E. rewrite E, (cmp_refl compareKeys). auto.
    - rewrite (cmp_refl compareKeys). split_and!; auto. }
  destruct (IH s1 b1 Hs1 Hb1) as (s' & b' & E & H1 & H2 & H3 & H4 & H5 & H6 & H7).
  exists s', b'. rewrite E. split_and!; try done; try (by eapply (cmp_le_trans compareKeys)).
  - constructor; [split; by eapply (cmp_le_trans compareKeys)|done].
  - setoid_rewrite elem_of_cons. destruct H6 as [->|(t' & ? & ?)]; [|right; eauto].
    destruct Hs4 as [->| ->]; [by left|right; eauto].
  - setoid_rewrite elem_of_cons. destruct H7 as [->|(t' & ? & ?)]; [|right; eauto].
    destruct Hb4 as [->| ->]; [by left|right; eauto].
Qed.

(** All versions of the user keys of [a] and [b] are between the ends of the range of [a, b]. *)
Lemma widen_le a b :
  has_ts a -> has_ts b -> compareKeys a b <> Gt ->
  compareKeys (KeyWithTs (ParseKey a) MaxUint64) b <> Gt /\
  compareKeys a (KeyWithTs (ParseKey b) 0) <> Gt.
Proof.
  intros Ha Hb Hab. destruct (has_ts_eta a Ha) as (ka & va & -> & Hva).
  destruct (has_ts_eta b Hb) as (kb & vb & -> & Hvb).
  rewrite compareKeys_KeyWithTs in Hab by done. rewrite !ParseKey_KeyWithTs.
  rewrite !compareKeys_KeyWithTs by (unfold MaxUint64 in *; lia).
  destruct (bytes_Compare ka kb); [|done|done].
  rewrite !Z.compare_gt_iff in *. unfold MaxUint64 in *. lia.
Qed.

Lemma getKeyRange_spec l :
  Forall table_ok l -> l <> [] ->
  exists r, getKeyRange l = Some r /\ kr_proper r /\ Forall (within r) l /\
    (exists ts, ts ∈ l /\ kr_left r = KeyWithTs (ParseKey (Smallest ts)) MaxUint64) /\
    (exists tb, tb ∈ l /\ kr_right r = KeyWithTs (ParseKey (Biggest tb)) 0).
Proof.
  intros Hok Hne. destruct l as [|t l]; [done|]. apply Forall_cons in Hok as [Ht Hl].
  destruct (table_has_ts t Ht) as [Hts Htb].
  destruct (key_bounds_spec l _ _ Hl Hts Htb) as (s' & b' & E & H1 & H2 & H3 & H4 & H5 & H6 & H7).
  exists (mkKR (KeyWithTs (ParseKey s') MaxUint64) (KeyWithTs (ParseKey b') 0) false 0).
  unfold getKeyRange. rewrite E. cbn [mbind option_bind].
  assert (forall t', t' ∈ t :: l -> table_ok t' /\
    compareKeys s' (Smallest t') <> Gt /\ compareKeys (Biggest t') b' <> Gt) as Hall.
  { intros t' [->|Ht']%elem_of_cons; [done|].
    rewrite Forall_forall in Hl, H5. split; [by apply Hl|by apply H5]. }
  split; [done|]. split_and!.
  - assert (compareKeys s' b' <> Gt) as Hsb.
    { apply (cmp_le_trans compareKeys _ _ _ H3), (cmp_le_trans compareKeys _ (Biggest t)); [|done].
      by apply table_range. }
    split; cbn; try apply KeyWithTs_has_ts; [done|].
    apply (widen_le s' (KeyWithTs (ParseKey b') 0)); [done|apply KeyWithTs_has_ts|].
    by apply (widen_le s' b').
  - apply Forall_forall. intros t' Ht'. destruct (Hall t' Ht') as (Hok & A & B).
    pose proof (table_range t' Hok) as R. destruct (table_has_ts t' Hok) as [T1 T2].
    assert (compareKeys s' (Biggest t') <> Gt) by (by apply (cmp_le_trans compareKeys _ _ _ A)).
    assert (compareKeys (Smallest t') b' <> Gt) by (by apply (cmp_le_trans compareKeys _ _ _ R)).
    split; split; cbn;
      [apply (widen_le s' (Smallest t'))|apply (widen_le (Smallest t') b')
      |apply (widen_le s' (Biggest t'))|apply (widen_le (Biggest t') b')]; done.
  - cbn. destruct H6 as [->|(t' & ? & ->)]; [exists t|exists t']; split; try done; [left|by right].
  - cbn. destruct H7 as [->|(t' & ? & ->)]; [exists t|exists t']; split; try done; [left|by right].
Qed.

Lemma extend_proper r kr :
  kr_proper r -> kr_proper kr ->
  exists r', extend r kr = Some r' /\ kr_proper r' /\
    (forall k, in_range r k -> in_range r' k) /\ (forall k, in_range kr k -> in_range r' k) /\
    (kr_left r' = kr_left r \/ kr_left r' = kr_left kr) /\
    (kr_right r' = kr_right r \/ kr_right r' = kr_right kr).
Proof.
  intros Hr Hk. unfold extend. rewrite (proper_not_empty kr Hk), (proper_not_empty r Hr).
  destruct Hr as [H1 H2 H3 H4], Hk as [H5 H6 H7 H8].
  unfold empty_or. rewrite has_ts_nonempty by done. rewrite CompareKeys_total by done.
  cbn [mbind option_bind].
  set (L := if bool_decide (compareKeys (kr_left kr) (kr_left r) = Lt)
    then mkKR (kr_left kr) (kr_right r) (kr_inf r) (kr_size r) else r).
  assert (kr_right L = kr_right r /\ kr_inf L = false /\
    (kr_left L = kr_left r \/ kr_left L = kr_left kr) /\
    compareKeys (kr_left L) (kr_left r) <> Gt /\ compareKeys (kr_left L) (kr_left kr) <> Gt)
    as (L1 & L2 & L3 & L4 & L5).
  { unfold L. case_bool_decide as E; cbn.
    - rewrite E, (cmp_refl compareKeys). auto.
    - rewrite (cmp_refl compareKeys), <- (cmp_ge_not_lt compareKeys). auto 10. }
  clearbody L. rewrite L1, has_ts_nonempty by done. rewrite CompareKeys_total by done.
  cbn [mbind option_bind].
  set (R := if bool_decide (compareKeys (kr_right kr) (kr_right r) = Gt)
    then mkKR (kr_left L) (kr_right kr) (kr_inf L) (kr_size L) else L).
  assert (kr_left R = kr_left L /\ kr_inf R = false /\
    (kr_right R = kr_right r \/ kr_right R = kr_right kr) /\
    compareKeys (kr_right r) (kr_right R) <> Gt /\ compareKeys (kr_right kr) (kr_right R) <> Gt)
    as (R1 & R2 & R3 & R4 & R5).
  { unfold R. case_bool_decide as E; cbn.
    - rewrite (cmp_refl compareKeys). apply (cmp_gt_lt compareKeys) in E. rewrite E. auto.
    - rewrite L1, (cmp_refl compareKeys). auto 10. }
  clearbody R. rewrite H7. exists R. rewrite R1 in *. split; [done|]. split_and!; try done.
  - split; rewrite ?R1; try done.
    + by destruct L3 as [->| ->].
    + by destruct R3 as [->| ->].
    + apply (cmp_le_trans compareKeys _ _ _ L4). by apply (cmp_le_trans compareKeys _ _ _ H4).
  - intros k [A B]. split; rewrite ?R1.
    + by apply (cmp_le_trans compareKeys _ _ _ L4).
    + by apply (cmp_le_trans compareKeys _ _ _ B).
  - intros k [A B]. split; rewrite ?R1.
    + by apply (cmp_le_trans compareKeys _ _ _ L5).
    + by apply (cmp_le_trans compareKeys _ _ _ B).
Qed.

Lemma extend_empty_l r kr :
  isEmpty r = true -> kr_proper kr -> extend r kr = Some kr.
Proof.
  intros Hr Hk. unfold extend. rewrite Hr, (proper_not_empty kr Hk).
  destruct Hk as [H5 H6 H7 H8]. unfold empty_or. rewrite has_ts_nonempty, CompareKeys_total by done.
  cbn [mbind option_bind]. rewrite (cmp_refl compareKeys). cbn. rewrite has_ts_nonempty by done.
  rewrite CompareKeys_total by done. cbn. rewrite (cmp_refl compareKeys). cbn. by rewrite H7.
Qed.
