(* ===== verification/Registry.v ===== *)
(** * Registry: running compactions never collide (compaction.go)

    The registry [compactStatus] as a state machine: compactions are admitted by
    [compareAndAdd] (or by the L0 to L0 path, which registers itself), run, and leave through
    [delete].  In every reachable state the running compactions work on different tables and
    on ranges that do not meet, and [delete] finds everything it looks for. *)

From Stdlib Require Import SpecFloat.
From S2P Require Import Prelude Keys Codec Bloom Tables LevelHandler Compaction.

(** ** The state machine *)

(** A compaction inside level 0. *)
Definition is_l0 (cd : compactDef) : Prop := thisLevel cd = 0%nat /\ nextLevel cd = 0%nat.

#[export] Instance is_l0_dec cd : Decision (is_l0 cd).
Proof. unfold is_l0. apply _. Defined.

(** The ranges a compaction registers, with their levels. *)
Definition claims (cd : compactDef) : list (nat * keyRange) :=
  if decide (is_l0 cd) then [(0%nat, infRange)]
  else [(thisLevel cd, thisRange cd); (nextLevel cd, nextRange cd)].

Definition table_ids (cd : compactDef) : list Z := ID <$> (top cd ++ bot cd).

(** The registration [fillTablesL0ToL0] makes. *)
Definition l0_register (cs : compactStatus) (out : list Table) : compactStatus :=
  mkCS (alter (add_range infRange 0) 0%nat (cs_levels cs)) (add_tables out (cs_tables cs)).

Definition cs_init (n : nat) : compactStatus := mkCS (replicate n (mkLCS [] 0)) ∅.

Definition level_ranges (cs : compactStatus) (l : nat) : list keyRange :=
  from_option ranges [] (cs_levels cs !! l).

(** Two claims that must not both be held. *)
Definition conflict (p q : nat * keyRange) : Prop :=
  p.1 = q.1 /\ kr_proper p.2 /\ kr_proper q.2 /\ kr_meet p.2 q.2.

Definition apart (c d : compactDef) : Prop :=
  (forall p q, p ∈ claims c -> q ∈ claims d -> ~ conflict p q) /\
  (forall i, i ∈ table_ids c -> i ∉ table_ids d) /\ ~ (is_l0 c /\ is_l0 d).

Lemma apart_sym c d : apart c d -> apart d c.
Proof.
  intros (A & B & C). split_and!; [|by intros i Hi Hj; apply (B i)|tauto].
  intros p q Hp Hq (E & P & Q & M). apply (A q p Hq Hp). split_and!; try done. by apply meet_sym.
Qed.

(** *** What admission tells *)

Lemma lcs_overlapsWith_false l dst r :
  lcs_overlapsWith l dst = Some false -> r ∈ l -> overlapsWith r dst = Some false.
Proof.
  induction l as [|x l IH]; intros H Hr; [by apply elem_of_nil in Hr|].
  cbn [lcs_overlapsWith] in H. destruct (overlapsWith x dst) as [[]|] eqn:E; try done.
  cbn in H. apply elem_of_cons in Hr as [->|Hr]; [done|by apply IH].
Qed.

Lemma not_meet r dst :
  overlapsWith r dst = Some false -> kr_proper r -> kr_proper dst -> ~ kr_meet r dst.
Proof.
  intros H Hr Hd. rewrite overlapsWith_proper in H by done. injection H as H.
  by apply bool_decide_eq_false in H.
Qed.

Lemma add_tables_spec l ts : add_tables l ts = list_to_set (ID <$> l) ∪ ts.
Proof.
  revert ts. induction l as [|t l IH]; intros ts; [cbn; by rewrite union_empty_l_L|].
  unfold add_tables in *. simpl. rewrite IH. apply set_eq. intros x.
  rewrite !elem_of_union. tauto.
Qed.

Lemma level_ranges_lookup cs l lcs : cs_levels cs !! l = Some lcs -> level_ranges cs l = ranges lcs.
Proof. intros H. unfold level_ranges. by rewrite H. Qed.

Lemma ranges_alter_add (ls : list levelCompactStatus) r sz l l' :
  (l < length ls)%nat ->
  from_option ranges [] (alter (add_range r sz) l ls !! l')
  = from_option ranges [] (ls !! l') ++ (if decide (l = l') then [r] else []).
Proof.
  intros Hl. destruct (decide (l = l')) as [<-|Hne].
  - rewrite list_lookup_alter. destruct (lookup_lt_is_Some_2 ls l Hl) as [x ->]. by rewrite decide_True.
  - rewrite list_lookup_alter_ne by done. by rewrite app_nil_r.
Qed.

Lemma compareAndAdd_spec cs cd cs' :
  compareAndAdd cs cd = Some (true, cs') ->
  (thisLevel cd < length (cs_levels cs))%nat /\ (nextLevel cd < length (cs_levels cs))%nat /\
  lcs_overlapsWith (level_ranges cs (thisLevel cd)) (thisRange cd) = Some false /\
  lcs_overlapsWith (level_ranges cs (nextLevel cd)) (nextRange cd) = Some false /\
  length (cs_levels cs') = length (cs_levels cs) /\
  (forall l, level_ranges cs' l = level_ranges cs l
     ++ (if decide (thisLevel cd = l) then [thisRange cd] else [])
     ++ (if decide (nextLevel cd = l) then [nextRange cd] else [])) /\
  cs_tables cs' = list_to_set (table_ids cd) ∪ cs_tables cs.
Proof.
  unfold compareAndAdd. destruct (cs_levels cs !! thisLevel cd) as [this|] eqn:E1; [|done].
  destruct (cs_levels cs !! nextLevel cd) as [next|] eqn:E2; [|done]. cbn [mbind option_bind].
  destruct (lcs_overlapsWith (ranges this) _) as [[]|] eqn:O1; try done. cbn [mbind option_bind].
  destruct (lcs_overlapsWith (ranges next) _) as [[]|] eqn:O2; try done. cbn [mbind option_bind].
  intros [= <-]. apply lookup_lt_Some in E1 as L1. apply lookup_lt_Some in E2 as L2.
  rewrite (level_ranges_lookup _ _ _ E1), (level_ranges_lookup _ _ _ E2).
  split_and!; try done; cbn.
  - by rewrite !length_alter.
  - intros l. unfold level_ranges. cbn.
    rewrite ranges_alter_add by (by rewrite length_alter). rewrite ranges_alter_add by done.
    by rewrite app_assoc.
  - apply add_tables_spec.
Qed.

(** *** What deletion does *)

Lemma del_tables_spec l ts :
  NoDup (ID <$> l) -> (forall i, i ∈ ID <$> l -> i ∈ ts) ->
  del_tables l ts = Some (ts ∖ list_to_set (ID <$> l)).
Proof.
  revert ts. induction l as [|t l IH]; intros ts Hnd Hin; cbn.
  { by rewrite difference_empty_L. }
  rewrite fmap_cons, NoDup_cons in Hnd. destruct Hnd as [Ht Hnd].
  rewrite bool_decide_eq_true_2 by (apply Hin; by left). rewrite IH; [|done|].
  - f_equal. by rewrite difference_difference_l_L.
  - intros i Hi. apply elem_of_difference. split; [apply Hin; by right|].
    intros ->%elem_of_singleton. done.
Qed.

(** The ranges [delete] takes off a level. *)
Definition removed (cd : compactDef) (l : nat) (r : keyRange) : Prop :=
  (thisLevel cd = l /\ equals r (thisRange cd) = true) \/
  (nextLevel cd = l /\ thisLevel cd <> nextLevel cd /\ isEmpty (nextRange cd) = false /\
   equals r (nextRange cd) = true).

Lemma lcs_remove_spec lcs dst :
  (fst (lcs_remove lcs dst) = true <-> exists r, r ∈ ranges lcs /\ equals r dst = true) /\
  (forall r, r ∈ ranges (snd (lcs_remove lcs dst)) <-> r ∈ ranges lcs /\ equals r dst = false) /\
  lcs_delSize (snd (lcs_remove lcs dst)) = lcs_delSize lcs.
Proof.
  cbn. split_and!; [|intros r; rewrite list_elem_of_filter; tauto|done].
  rewrite existsb_exists. by setoid_rewrite <- list_elem_of_In.
Qed.

Lemma cs_delete_spec cs cd :
  (thisLevel cd < length (cs_levels cs))%nat -> (nextLevel cd < length (cs_levels cs))%nat ->
  thisRange cd ∈ level_ranges cs (thisLevel cd) ->
  (thisLevel cd <> nextLevel cd -> isEmpty (nextRange cd) = false ->
   nextRange cd ∈ level_ranges cs (nextLevel cd)) ->
  NoDup (table_ids cd) -> (forall i, i ∈ table_ids cd -> i ∈ cs_tables cs) ->
  exists cs', cs_delete cs cd = Some cs' /\
    length (cs_levels cs') = length (cs_levels cs) /\
    (forall l r, r ∈ level_ranges cs' l <-> r ∈ level_ranges cs l /\ ~ removed cd l r) /\
    cs_tables cs' = cs_tables cs ∖ list_to_set (table_ids cd).
Proof.
  intros L1 L2 H1 H2 Hnd Hin. unfold cs_delete.
  destruct (lookup_lt_is_Some_2 _ _ L1) as [this E1], (lookup_lt_is_Some_2 _ _ L2) as [next E2].
  rewrite E1, E2. cbn [mbind option_bind]. unfold level_ranges in H1. rewrite E1 in H1. cbn in H1.
  destruct (lcs_remove (sub_delSize (thisSize cd) this) (thisRange cd)) as [f1 this'] eqn:R1.
  destruct (lcs_remove_spec (sub_delSize (thisSize cd) this) (thisRange cd)) as (F1 & G1 & _).
  rewrite R1 in F1, G1. cbn [fst snd sub_delSize ranges] in F1, G1.
  assert (f1 = true) as -> by (apply F1; exists (thisRange cd); by rewrite equals_refl).
  destruct (bool_decide _ && _) eqn:EC.
  - apply andb_true_iff in EC as [Hne%bool_decide_eq_true Hemp%negb_true_iff].
    rewrite list_lookup_insert_ne by done. rewrite E2. cbn [mbind option_bind].
    specialize (H2 Hne Hemp). unfold level_ranges in H2. rewrite E2 in H2. cbn in H2.
    destruct (lcs_remove next (nextRange cd)) as [f2 next'] eqn:R2.
    destruct (lcs_remove_spec next (nextRange cd)) as (F2 & G2 & _). rewrite R2 in F2, G2.
    cbn [fst snd] in F2, G2.
    assert (f2 = true) as -> by (apply F2; exists (nextRange cd); by rewrite equals_refl).
    cbn [andb]. rewrite del_tables_spec by done. cbn [mbind option_bind].
    eexists. split; [done|]. cbn. split_and!; [by rewrite !length_insert| |done].
    intros l r. unfold level_ranges, removed. cbn. rewrite !list_lookup_insert, length_insert.
    destruct (decide (nextLevel cd = l)) as [<-|Hl2].
    + rewrite decide_True by (by split). cbn. rewrite E2. cbn. rewrite G2.
      rewrite <- not_true_iff_false. intuition congruence.
    + rewrite decide_False by tauto. destruct (decide (thisLevel cd = l)) as [<-|Hl1].
      * rewrite decide_True by (by split). cbn. rewrite E1. cbn. rewrite G1.
        rewrite <- not_true_iff_false. intuition congruence.
      * rewrite decide_False by tauto. intuition congruence.
  - cbn [mbind option_bind]. rewrite del_tables_spec by done. cbn [mbind option_bind].
    eexists. split; [done|]. cbn. split_and!; [by rewrite length_insert| |done].
    intros l r. unfold level_ranges, removed. cbn. rewrite list_lookup_insert.
    assert (~ (thisLevel cd <> nextLevel cd /\ isEmpty (nextRange cd) = false)) as Hno.
    { intros [A B]. by rewrite (bool_decide_eq_true_2 _ A), B in EC. }
    destruct (decide (thisLevel cd = l)) as [<-|Hl1].
    + rewrite decide_True by (by split). cbn. rewrite E1. cbn. rewrite G1.
      rewrite <- not_true_iff_false. intuition congruence.
    + rewrite decide_False by tauto. tauto.
Qed.

Lemma table_ids_fresh (run : list compactDef) (S : gset Z) i :
  S = list_to_set (concat (table_ids <$> run)) ->
  (i ∈ S <-> exists c, c ∈ run /\ i ∈ table_ids c).
Proof.
  intros ->. rewrite elem_of_list_to_set, list_elem_of_In, in_concat. split.
  - intros (x & Hx & Hi). apply list_elem_of_In, list_elem_of_fmap in Hx as (c & -> & Hc).
    exists c. split; [done|by apply list_elem_of_In].
  - intros (c & Hc & Hi). exists (table_ids c). rewrite <- !list_elem_of_In.
    split; [by apply list_elem_of_fmap_2|done].
Qed.

(** ** The state machine: steps *)

Section Registry.
(** Where each table is: a table never changes level. *)
Context (home : Z -> option (nat * Table)).

Definition table_at (l : nat) (r : keyRange) (t : Table) : Prop :=
  home (ID t) = Some (l, t) /\ table_ok t /\ within r t.

(** What the filling functions produce. *)
Record cd_ok (cd : compactDef) : Prop := {
  cdo_ids : NoDup (table_ids cd);
  cdo_l0 : is_l0 cd ->
    thisRange cd = infRange /\ nextRange cd = kr_empty /\ bot cd = [] /\ thisSize cd = 0;
  cdo_this : ~ is_l0 cd -> kr_proper (thisRange cd);
  cdo_next : ~ is_l0 cd -> kr_proper (nextRange cd) \/
    (thisLevel cd = nextLevel cd /\ isEmpty (nextRange cd) = true /\ bot cd = []);
  cdo_home : is_l0 cd -> Forall (fun t => home (ID t) = Some (0%nat, t)) (top cd);
  cdo_top : ~ is_l0 cd -> Forall (table_at (thisLevel cd) (thisRange cd)) (top cd);
  cdo_bot : ~ is_l0 cd -> Forall (table_at (nextLevel cd) (nextRange cd)) (bot cd)
}.

Inductive reg_step : compactStatus * list compactDef -> compactStatus * list compactDef -> Prop :=
  | reg_add cs run cd cs' :
      cd_ok cd -> ~ is_l0 cd -> compareAndAdd cs cd = Some (true, cs') ->
      reg_step (cs, run) (cs', cd :: run)
  (** Only compactor 0 works inside level 0, one compaction at a time. *)
  | reg_l0 cs run cd :
      cd_ok cd -> is_l0 cd -> Forall (fun c => ~ is_l0 c) run ->
      (0 < length (cs_levels cs))%nat ->
      Forall (fun t => ID t ∉ cs_tables cs) (top cd) ->
      reg_step (cs, run) (l0_register cs (top cd), cd :: run)
  | reg_del cs run1 cd run2 cs' :
      cs_delete cs cd = Some cs' ->
      reg_step (cs, run1 ++ cd :: run2) (cs', run1 ++ run2).

Definition reg_reachable (n : nat) (st : compactStatus * list compactDef) : Prop :=
  rtc reg_step (cs_init n, []) st.

(** ** The invariant *)

Record reg_inv (n : nat) (st : compactStatus * list compactDef) : Prop := {
  ri_len : length (cs_levels st.1) = n;
  ri_ok : Forall cd_ok st.2;
  ri_lv : Forall (fun c => (thisLevel c < n)%nat /\ (nextLevel c < n)%nat) st.2;
  ri_claims : forall c p, c ∈ st.2 -> p ∈ claims c -> p.2 ∈ level_ranges st.1 p.1;
  ri_apart : ForallOrdPairs apart st.2;
  ri_tables : cs_tables st.1 = list_to_set (concat (table_ids <$> st.2))
}.

(** *** Every step keeps the invariant *)

Lemma claims_this cd : ~ is_l0 cd -> (thisLevel cd, thisRange cd) ∈ claims cd.
Proof. intros H. unfold claims. rewrite decide_False by done. by left. Qed.

Lemma claims_next cd : ~ is_l0 cd -> (nextLevel cd, nextRange cd) ∈ claims cd.
Proof. intros H. unfold claims. rewrite decide_False by done. right. by left. Qed.

(** Every table of a compaction outside level 0 is in one of its proper claims. *)
Lemma cd_ok_table cd i :
  cd_ok cd -> ~ is_l0 cd -> i ∈ table_ids cd ->
  exists l r t, ID t = i /\ (l, r) ∈ claims cd /\ kr_proper r /\ table_at l r t.
Proof.
  intros Hok Hn Hi. unfold table_ids in Hi. apply list_elem_of_fmap in Hi as (t & -> & Ht).
  apply elem_of_app in Ht as [Ht|Ht].
  - pose proof (cdo_top cd Hok Hn) as H. rewrite Forall_forall in H.
    exists (thisLevel cd), (thisRange cd), t. split_and!; auto using claims_this.
    by apply (cdo_this cd).
  - pose proof (cdo_bot cd Hok Hn) as H. rewrite Forall_forall in H.
    exists (nextLevel cd), (nextRange cd), t. split_and!; auto using claims_next.
    destruct (cdo_next cd Hok Hn) as [|(_ & _ & E)]; [done|]. rewrite E in Ht. by apply elem_of_nil in Ht.
Qed.

Lemma infRange_not_proper : ~ kr_proper infRange.
Proof. by intros [_ _ [=] _]. Qed.

(** A newly admitted compaction is apart from each running one. *)
Lemma admitted_apart cs cd cs' c :
  cd_ok cd -> ~ is_l0 cd -> compareAndAdd cs cd = Some (true, cs') ->
  cd_ok c -> (forall p, p ∈ claims c -> p.2 ∈ level_ranges cs p.1) -> apart cd c.
Proof.
  intros Hok Hn HA Hokc Hcl.
  destruct (compareAndAdd_spec cs cd cs' HA) as (_ & _ & O1 & O2 & _ & _ & _).
  assert (forall p q, p ∈ claims cd -> q ∈ claims c -> p.1 = q.1 ->
    overlapsWith q.2 p.2 = Some false) as Hov.
  { intros p q Hp Hq E. specialize (Hcl q Hq). rewrite <- E in Hcl.
    unfold claims in Hp. rewrite decide_False in Hp by done.
    rewrite !elem_of_cons, elem_of_nil in Hp.
    destruct Hp as [->|[->|[]]]; by eapply lcs_overlapsWith_false. }
  assert (forall p q, p ∈ claims cd -> q ∈ claims c -> ~ conflict p q) as Hc.
  { intros p q Hp Hq (E & P & Q & M).
    apply (not_meet q.2 p.2 (Hov p q Hp Hq E) Q P). by apply meet_sym. }
  split_and!; [done| |tauto].
  intros i Hi Hi'. destruct (cd_ok_table cd i Hok Hn Hi) as (l & r & t & Ei & Hp & P & Hh & Htok & Hw).
  destruct (decide (is_l0 c)) as [Hl0|Hl0].
  - destruct (cdo_l0 c Hokc Hl0) as (_ & _ & Eb & _). pose proof (cdo_home c Hokc Hl0) as Hhome.
    unfold table_ids in Hi'. rewrite Eb, app_nil_r in Hi'.
    apply list_elem_of_fmap in Hi' as (t' & -> & Ht'). rewrite Forall_forall in Hhome.
    rewrite Ei, (Hhome t' Ht') in Hh. injection Hh as <- ->.
    assert ((0%nat, infRange) ∈ claims c) as Hq by (unfold claims; rewrite decide_True by done; by left).
    specialize (Hov _ _ Hp Hq eq_refl). cbn in Hov.
    by rewrite overlapsWith_inf_l in Hov by (by apply proper_not_empty).
  - destruct (cd_ok_table c i Hokc Hl0 Hi') as (l' & r' & t' & Ei' & Hq & P' & Hh' & _ & Hw').
    rewrite Ei, <- Ei' in Hh. rewrite Hh in Hh'. injection Hh' as -> ->.
    apply (Hc _ _ Hp Hq). split_and!; try done. cbn.
    by apply (meet_common _ _ (Smallest t')); [apply Hw|apply Hw'].
Qed.

Lemma running_not_removed cd c p :
  cd_ok cd -> cd_ok c -> apart cd c -> p ∈ claims c -> ~ removed cd p.1 p.2.
Proof.
  intros Hok Hokc (Ha & _ & Hl) Hp Hr.
  destruct (decide (is_l0 cd)) as [Hl0|Hl0].
  - destruct (cdo_l0 cd Hok Hl0) as (Et & En & _). destruct Hl0 as [T N].
    destruct Hr as [[_ Eq]|(_ & Hne & _)]; [|congruence]. rewrite Et in Eq.
    apply equals_spec in Eq as (_ & _ & Einf). cbn in Einf.
    assert (~ is_l0 c) as Hc by (intros ?; apply Hl; split; [by split|done]).
    unfold claims in Hp. rewrite decide_False in Hp by done.
    rewrite !elem_of_cons, elem_of_nil in Hp. destruct Hp as [->|[->|[]]]; cbn in Einf.
    + pose proof (cdo_this c Hokc Hc) as [_ _ H _]. congruence.
    + destruct (cdo_next c Hokc Hc) as [[_ _ H _]|(_ & H & _)]; [congruence|].
      apply isEmpty_eq in H as (_ & _ & H). congruence.
  - assert (forall q, q ∈ claims cd -> kr_proper q.2 -> q.1 = p.1 -> equals p.2 q.2 = true -> False) as HH.
    { intros q Hq P E Eq. apply (Ha q p Hq Hp). split_and!; try done.
      - by eapply equals_proper.
      - by apply meet_sym, equals_meet. }
    destruct Hr as [[E Eq]|(E & Hne & Hemp & Eq)].
    + apply (HH (thisLevel cd, thisRange cd)); try done; [by apply claims_this|by apply (cdo_this cd)].
    + apply (HH (nextLevel cd, nextRange cd)); try done; [by apply claims_next|].
      destruct (cdo_next cd Hok Hl0) as [|(? & ? & _)]; [done|congruence].
Qed.

Lemma running_apart n cs run1 cd run2 :
  reg_inv n (cs, run1 ++ cd :: run2) ->
  Forall (apart cd) (run1 ++ run2) /\ ForallOrdPairs apart (run1 ++ run2).
Proof.
  intros [_ _ _ _ Ha _]. cbn in Ha.
  apply (ForallOrdPairs_Permutation _ _ (cd :: run1 ++ run2) apart_sym) in Ha;
    [|by rewrite Permutation_middle].
  inversion Ha; subst. done.
Qed.

Lemma inv_delete_spec n cs run1 cd run2 :
  reg_inv n (cs, run1 ++ cd :: run2) ->
  exists cs', cs_delete cs cd = Some cs' /\
    length (cs_levels cs') = length (cs_levels cs) /\
    (forall l r, r ∈ level_ranges cs' l <-> r ∈ level_ranges cs l /\ ~ removed cd l r) /\
    cs_tables cs' = cs_tables cs ∖ list_to_set (table_ids cd).
Proof.
  intros [H1 H2 H3 H4 H5 H6]. cbn in *.
  assert (cd ∈ run1 ++ cd :: run2) as Hin by (apply elem_of_app; right; by left).
  rewrite Forall_forall in H2, H3. pose proof (H2 cd Hin) as Hok. destruct (H3 cd Hin) as [L1 L2].
  apply cs_delete_spec.
  - lia.
  - lia.
  - destruct (decide (is_l0 cd)) as [Hl0|Hl0].
    + rewrite (proj1 (cdo_l0 cd Hok Hl0)), (proj1 Hl0).
      apply (H4 cd (0%nat, infRange) Hin). unfold claims. rewrite decide_True by done. by left.
    + by apply (H4 cd (thisLevel cd, thisRange cd) Hin), claims_this.
  - intros Hne _. apply (H4 cd (nextLevel cd, nextRange cd) Hin), claims_next. intros [? ?]. congruence.
  - by apply cdo_ids.
  - intros i Hi. apply (table_ids_fresh _ _ _ H6). eauto.
Qed.

Lemma inv_delete n cs run1 cd run2 :
  reg_inv n (cs, run1 ++ cd :: run2) ->
  exists cs', cs_delete cs cd = Some cs' /\ reg_inv n (cs', run1 ++ run2).
Proof.
  intros HI. destruct (running_apart _ _ _ _ _ HI) as [Hap Hap'].
  destruct (inv_delete_spec _ _ _ _ _ HI) as (cs' & HD & Hlen & Hrg & Htb).
  destruct HI as [H1 H2 H3 H4 H5 H6]. cbn in *.
  assert (cd ∈ run1 ++ cd :: run2) as Hin by (apply elem_of_app; right; by left).
  assert (forall c, c ∈ run1 ++ run2 -> c ∈ run1 ++ cd :: run2) as Hsub.
  { intros c. rewrite !elem_of_app, elem_of_cons. tauto. }
  rewrite Forall_forall in H2, H3, Hap. pose proof (H2 cd Hin) as Hok.
  exists cs'. split; [done|]. split; cbn.
  - lia.
  - apply Forall_forall. auto.
  - apply Forall_forall. auto.
  - intros c p Hc Hp. apply Hrg. split; [by apply (H4 c), Hp; apply Hsub|].
    by apply (running_not_removed cd c p Hok (H2 c (Hsub c Hc)) (Hap c Hc)).
  - done.
  - rewrite Htb. apply set_eq. intros i. rewrite elem_of_difference.
    rewrite (table_ids_fresh _ _ i H6), elem_of_list_to_set.
    rewrite (table_ids_fresh (run1 ++ run2) _ i eq_refl). split.
    + intros [(c & Hc & Hi) Hno]. exists c. split; [|done].
      rewrite elem_of_app, elem_of_cons in Hc. rewrite elem_of_app.
      destruct Hc as [|[->|]]; [by left|done|by right].
    + intros (c & Hc & Hi). split; [eauto|]. intros Hi'. destruct (Hap c Hc) as (_ & Hd & _).
      by apply (Hd i).
Qed.

Lemma reg_step_inv n st st' : reg_inv n st -> reg_step st st' -> reg_inv n st'.
Proof.
  intros HI Hs. destruct Hs as [cs run cd cs' Hok Hn HA|cs run cd Hok Hl0 Hno Hlen Hfr|cs run1 cd run2 cs' HD].
  - destruct HI as [H1 H2 H3 H4 H5 H6]. cbn in *.
    destruct (compareAndAdd_spec cs cd cs' HA) as (L1 & L2 & O1 & O2 & E1 & E2 & E3).
    split; cbn; [congruence|by constructor|constructor; [lia|done]| | |].
    + intros c p Hc Hp. rewrite E2, elem_of_app.
      apply elem_of_cons in Hc as [->|Hc]; [right|left; by apply (H4 c p)].
      unfold claims in Hp. rewrite decide_False in Hp by done.
      rewrite !elem_of_cons, elem_of_nil in Hp. rewrite elem_of_app.
      destruct Hp as [->|[->|[]]]; cbn; [left|right]; rewrite decide_True by done; by left.
    + constructor; [|done]. apply Forall_forall. intros c Hc. rewrite Forall_forall in H2.
      apply (admitted_apart cs cd cs' c Hok Hn HA (H2 c Hc)). intros p. by apply H4.
    + by rewrite E3, H6, list_to_set_app_L.
  - destruct HI as [H1 H2 H3 H4 H5 H6]. cbn in *. destruct (cdo_l0 cd Hok Hl0) as (Et & En & Eb & _).
    assert (claims cd = [(0%nat, infRange)]) as Ecl by (unfold claims; by rewrite decide_True).
    assert (table_ids cd = ID <$> top cd) as Eids by (unfold table_ids; by rewrite Eb, app_nil_r).
    split; cbn.
    + by rewrite length_alter.
    + by constructor.
    + constructor; [|done]. destruct Hl0. lia.
    + intros c p Hc Hp. unfold level_ranges, l0_register. cbn.
      rewrite ranges_alter_add by done. rewrite elem_of_app.
      apply elem_of_cons in Hc as [->|Hc]; [|left; by apply (H4 c p)].
      rewrite Ecl in Hp. apply list_elem_of_singleton in Hp as ->. right. cbn. by left.
    + constructor; [|done]. apply Forall_forall. intros c Hc. rewrite Forall_forall in Hno.
      rewrite Forall_forall in Hfr. split_and!.
      * intros p q Hp Hq (_ & P & _). rewrite Ecl in Hp. apply list_elem_of_singleton in Hp as ->.
        by apply infRange_not_proper.
      * intros i Hi Hi'. rewrite Eids in Hi. apply list_elem_of_fmap in Hi as (t & -> & Ht).
        apply (Hfr t Ht). rewrite (table_ids_fresh _ _ _ H6). eauto.
      * intros [_ Hc0]. by apply (Hno c).
    + rewrite add_tables_spec, H6, list_to_set_app_L. by rewrite Eids.
  - destruct (inv_delete n cs run1 cd run2 HI) as (cs'' & HD' & HI'). congruence.
Qed.

Lemma reg_init_inv n : reg_inv n (cs_init n, []).
Proof.
  split; cbn; try by constructor.
  - apply length_replicate.
  - by intros c p []%elem_of_nil.
Qed.

Lemma reg_reachable_inv n st : reg_reachable n st -> reg_inv n st.
Proof.
  unfold reg_reachable. intros Hr. pose proof (reg_init_inv n) as H0.
  induction Hr as [|x y z Hs _ IH]; [done|]. by eapply IH, reg_step_inv.
Qed.
End Registry.

(** ** Exactness: what the registry holds when nothing leaks *)

(** [delete] takes off everything the compaction registered: true of all but the last-level
    compactions that gathered more tables (see [max_level_range_leaks] below). *)
Definition no_leak (cd : compactDef) : Prop :=
  thisLevel cd <> nextLevel cd \/ is_l0 cd \/ equals (nextRange cd) (thisRange cd) = true.

Definition level_del (cs : compactStatus) (l : nat) : Z :=
  from_option lcs_delSize 0 (cs_levels cs !! l).

Definition sizes_at (run : list compactDef) (l : nat) : Z :=
  foldr (fun c n => (if decide (thisLevel c = l) then thisSize c else 0) + n) 0 run.

Lemma sizes_at_cons c run l :
  sizes_at (c :: run) l = (if decide (thisLevel c = l) then thisSize c else 0) + sizes_at run l.
Proof. done. Qed.

#[global] Arguments sizes_at : simpl never.

Lemma sizes_at_middle run1 c run2 l :
  sizes_at (run1 ++ c :: run2) l
  = (if decide (thisLevel c = l) then thisSize c else 0) + sizes_at (run1 ++ run2) l.
Proof.
  induction run1 as [|x run1 IH]; [done|]. unfold sizes_at in *. simpl. rewrite IH. lia.
Qed.

Lemma del_alter_add (ls : list levelCompactStatus) r sz l l' :
  (l < length ls)%nat ->
  from_option lcs_delSize 0 (alter (add_range r sz) l ls !! l')
  = from_option lcs_delSize 0 (ls !! l') + (if decide (l = l') then sz else 0).
Proof.
  intros Hl. destruct (decide (l = l')) as [<-|Hne].
  - rewrite list_lookup_alter. destruct (lookup_lt_is_Some_2 ls l Hl) as [x ->]. by rewrite decide_True.
  - rewrite list_lookup_alter_ne by done. by rewrite Z.add_0_r.
Qed.

Lemma compareAndAdd_delSize cs cd cs' l :
  compareAndAdd cs cd = Some (true, cs') ->
  level_del cs' l = level_del cs l + (if decide (thisLevel cd = l) then thisSize cd else 0).
Proof.
  intros HA. destruct (compareAndAdd_spec cs cd cs' HA) as (L1 & L2 & _).
  unfold compareAndAdd in HA. destruct (cs_levels cs !! thisLevel cd) as [this|] eqn:E1; [|done].
  destruct (cs_levels cs !! nextLevel cd) as [next|] eqn:E2; [|done]. cbn [mbind option_bind] in HA.
  destruct (lcs_overlapsWith (ranges this) _) as [[]|]; try done. cbn [mbind option_bind] in HA.
  destruct (lcs_overlapsWith (ranges next) _) as [[]|]; try done. cbn [mbind option_bind] in HA.
  injection HA as <-. unfold level_del. cbn.
  rewrite del_alter_add by (by rewrite length_alter). rewrite del_alter_add by done.
  destruct (decide (nextLevel cd = l)); lia.
Qed.

Lemma cs_delete_delSize cs cd cs' l :
  cs_delete cs cd = Some cs' ->
  level_del cs' l = level_del cs l - (if decide (thisLevel cd = l) then thisSize cd else 0).
Proof.
  unfold cs_delete. destruct (cs_levels cs !! thisLevel cd) as [this|] eqn:E1; [|done].
  destruct (cs_levels cs !! nextLevel cd) as [next|] eqn:E2; [|done]. cbn [mbind option_bind].
  apply lookup_lt_Some in E1 as L1. apply lookup_lt_Some in E2 as L2.
  destruct (lcs_remove (sub_delSize (thisSize cd) this) (thisRange cd)) as [f1 this'] eqn:R1.
  destruct (lcs_remove_spec (sub_delSize (thisSize cd) this) (thisRange cd)) as (_ & _ & D1).
  rewrite R1 in D1. cbn [snd sub_delSize lcs_delSize] in D1.
  assert (forall ls f, Some (f : bool, ls) = Some (f, ls) ->
    from_option lcs_delSize 0 (ls !! l) = from_option lcs_delSize 0 (<[thisLevel cd:=this']> (cs_levels cs) !! l) ->
    (if f then ts ← del_tables (top cd ++ bot cd) (cs_tables cs); Some (mkCS ls ts) else None) = Some cs' ->
    level_del cs' l = level_del cs l - (if decide (thisLevel cd = l) then thisSize cd else 0)) as HG.
  { intros ls [] _ E; [|done]. destruct (del_tables _ _) as [ts|]; [|done]. cbn. intros [= <-].
    unfold level_del. cbn. rewrite E, list_lookup_insert.
    destruct (decide (thisLevel cd = l)) as [<-|Hne].
    - rewrite decide_True by done. by rewrite E1.
    - rewrite decide_False by tauto. lia. }
  destruct (bool_decide _ && _) eqn:EC.
  - apply andb_true_iff in EC as [Hne%bool_decide_eq_true _].
    rewrite list_lookup_insert_ne, E2 by done. cbn [mbind option_bind].
    destruct (lcs_remove next (nextRange cd)) as [f2 next'] eqn:R2.
    destruct (lcs_remove_spec next (nextRange cd)) as (_ & _ & D2). rewrite R2 in D2. cbn [snd] in D2.
    apply HG; [done|]. destruct (decide (nextLevel cd = l)) as [<-|Hd].
    + rewrite list_lookup_insert_eq by (by rewrite length_insert).
      rewrite list_lookup_insert_ne, E2 by done. cbn. congruence.
    + by rewrite list_lookup_insert_ne.
  - cbn [mbind option_bind]. by apply HG.
Qed.

(** A history: the state, and every compaction that was ever registered, newest first. *)
Inductive reg_trace (home : Z -> option (nat * Table)) (n : nat) : list compactDef -> compactStatus * list compactDef -> Prop :=
  | trace_init : reg_trace home n [] (cs_init n, [])
  | trace_add ever cs run cd cs' : reg_trace home n ever (cs, run) -> reg_step home (cs, run) (cs', cd :: run) ->
      reg_trace home n (cd :: ever) (cs', cd :: run)
  | trace_del ever cs run1 cd run2 cs' : reg_trace home n ever (cs, run1 ++ cd :: run2) ->
      cs_delete cs cd = Some cs' -> reg_trace home n ever (cs', run1 ++ run2).

Lemma trace_reachable home n ever st : reg_trace home n ever st -> reg_reachable home n st.
Proof.
  unfold reg_reachable. induction 1 as [|ever cs run cd cs' _ IH Hs|ever cs run1 cd run2 cs' _ IH HD]; [by apply rtc_refl|..].
  - by eapply rtc_r.
  - eapply rtc_r; [exact IH|]. by apply reg_del.
Qed.

(** Every reachable state has a history. *)
Lemma reachable_trace home n st : reg_reachable home n st -> exists ever, reg_trace home n ever st.
Proof.
  unfold reg_reachable. revert st. apply rtc_ind_r; [exists []; constructor|]. intros y z _ Hs [ever IH].
  destruct Hs as [cs run cd cs' Hok Hn HA|cs run cd Hok Hl0 Hno Hlen Hfr|cs run1 cd run2 cs' HD].
  - exists (cd :: ever). eapply trace_add; [exact IH|]. by apply reg_add.
  - exists (cd :: ever). eapply trace_add; [exact IH|]. by apply reg_l0.
  - exists ever. by eapply trace_del.
Qed.

(** A range that was left behind by a compaction of the last level. *)
Definition leaked (ever : list compactDef) (l : nat) (r : keyRange) : Prop :=
  exists c, c ∈ ever /\ ~ no_leak c /\ thisLevel c = l /\ nextLevel c = l /\ equals r (nextRange c) = true.

Lemma leaked_mono ever c l r : leaked ever l r -> leaked (c :: ever) l r.
Proof. intros (d & Hd & H). exists d. split; [by right|done]. Qed.

Record reg_exact (ever : list compactDef) (st : compactStatus * list compactDef) : Prop := {
  re_ranges : forall l r, r ∈ level_ranges st.1 l ->
    (exists c p, c ∈ st.2 /\ p ∈ claims c /\ p.1 = l /\ equals r p.2 = true) \/ leaked ever l r;
  re_sizes : forall l, level_del st.1 l = sizes_at st.2 l;
  re_ever : forall c, c ∈ st.2 -> c ∈ ever
}.

Lemma no_leak_dec cd : {no_leak cd} + {~ no_leak cd}.
Proof.
  unfold no_leak. destruct (decide (thisLevel cd <> nextLevel cd)) as [?|?]; [left; tauto|].
  destruct (decide (is_l0 cd)) as [?|?]; [left; tauto|].
  destruct (equals (nextRange cd) (thisRange cd)) eqn:E; [left; tauto|right; intros [?|[?|?]]; congruence || tauto].
Qed.

(** A deleted compaction's claims are taken off, or it leaked. *)
Lemma claims_removed home cd p r ever :
  cd_ok home cd -> cd ∈ ever -> p ∈ claims cd -> equals r p.2 = true -> removed cd p.1 r \/ leaked ever p.1 r.
Proof.
  intros Hok Hev Hp Eq.
  unfold claims in Hp. destruct (decide (is_l0 cd)) as [Hl0|Hl0].
  - left. apply list_elem_of_singleton in Hp as ->. left. cbn.
    rewrite (proj1 (cdo_l0 home cd Hok Hl0)). by destruct Hl0.
  - rewrite !elem_of_cons, elem_of_nil in Hp. destruct Hp as [->|[->|[]]]; cbn in *; [left; by left|].
    destruct (decide (thisLevel cd = nextLevel cd)) as [E|E].
    + destruct (no_leak_dec cd) as [Hnl|Hnl]; [left|right; by exists cd].
      destruct Hnl as [?|[?|Heq]]; [done|done|]. left. split; [done|].
      apply equals_spec in Eq, Heq. apply equals_spec. intuition congruence.
    + left. right. split_and!; try done.
      destruct (cdo_next home cd Hok Hl0) as [Hp|(? & _)]; [by apply proper_not_empty|done].
Qed.

Lemma exact_add home n ever cs run cd cs' :
  reg_inv home n (cs, run) -> reg_exact ever (cs, run) -> reg_step home (cs, run) (cs', cd :: run) ->
  reg_exact (cd :: ever) (cs', cd :: run).
Proof.
  intros HI [HR HS HE] Hs.
  assert (forall c, c ∈ cd :: run -> c ∈ cd :: ever) as HE'.
  { intros c [->|Hc]%elem_of_cons; [by left|right; by apply HE]. }
  assert (forall l r, r ∈ level_ranges cs l ->
    (exists c p, c ∈ cd :: run /\ p ∈ claims c /\ p.1 = l /\ equals r p.2 = true) \/ leaked (cd :: ever) l r) as HR'.
  { intros l r Hr. destruct (HR l r Hr) as [(c & p & Hc & Hp)|Hl]; [|right; by apply leaked_mono].
    left. exists c, p. split; [by right|done]. }
  inversion Hs as [x1 x2 x3 x4 Hok Hn HA|x1 x2 x3 Hok Hl0 Hno Hlen Hfr|x1 run1 x3 run2 x5 HD]; subst; cbn in *.
  - destruct (compareAndAdd_spec cs cd cs' HA) as (_ & _ & _ & _ & _ & E2 & _). split; cbn; [| |done].
    + intros l r. rewrite E2, !elem_of_app. intros [Hr|[Hr|Hr]]; [by apply HR'| |].
      * destruct (decide (thisLevel cd = l)) as [<-|]; [|by apply elem_of_nil in Hr].
        apply list_elem_of_singleton in Hr as ->. left. exists cd, (thisLevel cd, thisRange cd).
        split_and!; [by left|by apply claims_this|done|apply equals_refl].
      * destruct (decide (nextLevel cd = l)) as [<-|]; [|by apply elem_of_nil in Hr].
        apply list_elem_of_singleton in Hr as ->. left. exists cd, (nextLevel cd, nextRange cd).
        split_and!; [by left|by apply claims_next|done|apply equals_refl].
    + intros l. rewrite (compareAndAdd_delSize cs cd cs' l HA), HS, sizes_at_cons. lia.
  - destruct (cdo_l0 home cd Hok Hl0) as (_ & _ & _ & Hsz). split; cbn; [| |done].
    + intros l r. unfold level_ranges, l0_register. cbn. rewrite ranges_alter_add, elem_of_app by done.
      intros [Hr|Hr]; [by apply HR'|].
      destruct (decide (0%nat = l)) as [<-|]; [|by apply elem_of_nil in Hr].
      apply list_elem_of_singleton in Hr as ->. left. exists cd, (0%nat, infRange).
      unfold claims. rewrite decide_True by done. split_and!; [by left|by left|done|done].
    + intros l. unfold level_del, l0_register. cbn. rewrite del_alter_add by done.
      rewrite sizes_at_cons, Hsz. specialize (HS l). unfold level_del in HS. rewrite HS.
      repeat case_decide; lia.
  - exfalso. match goal with H : _ ++ _ = _ :: _ |- _ => apply (f_equal length) in H; cbn in H; rewrite !length_app in H; cbn in H end. lia.
Qed.

Lemma exact_del home n ever cs run1 cd run2 cs' :
  reg_inv home n (cs, run1 ++ cd :: run2) -> reg_exact ever (cs, run1 ++ cd :: run2) -> cs_delete cs cd = Some cs' ->
  reg_exact ever (cs', run1 ++ run2).
Proof.
  intros HI [HR HS HE] HD. destruct (inv_delete_spec _ _ _ _ _ _ HI) as (cs3 & HD3 & _ & Hrg & _).
  assert (cs3 = cs') as -> by congruence. cbn in *.
  assert (cd ∈ run1 ++ cd :: run2) as Hin by (apply elem_of_app; right; by left).
  destruct HI as [_ H2 _ _ _ _]. cbn in *. rewrite Forall_forall in H2. split; cbn.
  - intros l r [Hr Hnr]%Hrg. destruct (HR l r Hr) as [(c & p & Hc & Hp & <- & Eq)|Hl]; [|by right].
    rewrite elem_of_app, elem_of_cons in Hc. destruct Hc as [Hc|[->|Hc]].
    1,3: left; exists c, p; split; [apply elem_of_app; tauto|done].
    destruct (claims_removed home cd p r ever) as [Hrm|Hl]; auto. by right.
  - intros l. rewrite (cs_delete_delSize cs cd cs' l HD), HS, sizes_at_middle. lia.
  - intros c Hc. apply HE. rewrite elem_of_app in Hc. rewrite elem_of_app, elem_of_cons. tauto.
Qed.

Lemma init_exact n : reg_exact [] (cs_init n, []).
Proof.
  split; cbn; [| |done].
  - intros l r. unfold level_ranges, cs_init. cbn. destruct (replicate n (mkLCS [] 0) !! l) as [x|] eqn:E.
    + apply lookup_replicate in E as [-> _]. cbn. by intros ?%elem_of_nil.
    + cbn. by intros ?%elem_of_nil.
  - intros l. unfold level_del, cs_init. cbn. destruct (replicate n (mkLCS [] 0) !! l) as [x|] eqn:E; [|done].
    by apply lookup_replicate in E as [-> _].
Qed.

Lemma trace_exact home n ever st : reg_trace home n ever st -> reg_exact ever st.
Proof.
  induction 1 as [|ever cs run cd cs' Ht IH Hs|ever cs run1 cd run2 cs' Ht IH HD]; [apply init_exact|..].
  - eapply exact_add; [|exact IH|exact Hs]. by eapply reg_reachable_inv, trace_reachable.
  - eapply exact_del; [|exact IH|exact HD]. by eapply reg_reachable_inv, trace_reachable.
Qed.

(** ** Properties *)


(** The deletion of any running compaction succeeds: the registry finds its ranges and
    tables, so neither the fatal "keyRange not found" nor the assertion on tables can fire. *)
Theorem compaction_delete_succeeds (home : Z -> option (nat * Table)) (n : nat)
    (cs : compactStatus) (run : list compactDef) (cd : compactDef) :
  reg_reachable home n (cs, run) -> cd ∈ run -> is_Some (cs_delete cs cd).
Proof.
  intros Hr Hin. apply list_elem_of_split in Hin as (run1 & run2 & ->).
  destruct (inv_delete _ _ _ _ _ _ (reg_reachable_inv _ _ _ Hr)) as (cs' & -> & _). by exists cs'.
Qed.

(** C40: what the registry holds once no compaction runs, after any history: no table and no
    size, and no range but one a last-level compaction left behind (it registered a [nextRange]
    other than its [thisRange], which [delete] skips when both levels are the same; see
    [max_level_range_leaks]).  When no compaction of the history is such, the registry is back
    in its initial state. *)
Theorem registry_idle_when_done (home : Z -> option (nat * Table)) (n : nat) (ever : list compactDef)
    (cs : compactStatus) :
  reg_trace home n ever (cs, []) ->
  length (cs_levels cs) = n /\ cs_tables cs = ∅ /\ (forall l, level_del cs l = 0) /\
  (forall l r, r ∈ level_ranges cs l -> leaked ever l r) /\
  (Forall no_leak ever -> cs = cs_init n).
Proof.
  intros Hr. destruct (reg_reachable_inv _ _ _ (trace_reachable _ _ _ _ Hr)) as [Hlen _ _ _ _ Htb].
  destruct (trace_exact _ _ _ _ Hr) as [HR HS _]. cbn in *.
  assert (forall l r, r ∈ level_ranges cs l -> leaked ever l r) as HL.
  { intros l r H. by destruct (HR l r H) as [(c & p & []%elem_of_nil & _)|]. }
  split_and!; try done. intros Hnl. destruct cs as [ls ts]. unfold cs_init in *. cbn in *. f_equal; [|done].
  apply list_eq. intros l. destruct (decide (l < n)%nat) as [Hl|Hl].
  - rewrite lookup_replicate_2 by done.
    destruct (lookup_lt_is_Some_2 ls l ltac:(lia)) as [[rs sz] E]. rewrite E.
    specialize (HS l). specialize (HL l). unfold level_del, level_ranges in *. cbn in *. rewrite E in *.
    cbn in *. rewrite HS. change (sizes_at [] l) with 0. f_equal. f_equal. destruct rs as [|r rs]; [done|].
    destruct (HL r ltac:(by left)) as (c & Hc & Hn & _). rewrite Forall_forall in Hnl. by destruct Hn; apply Hnl.
  - rewrite !lookup_ge_None_2; [done|rewrite length_replicate; lia|lia].
Qed.

(** ** Witnesses *)

Definition range_of (l : list Table) : keyRange := default kr_empty (getKeyRange l).

Lemma range_of_ok l :
  Forall table_ok l -> l <> [] -> kr_proper (range_of l) /\ Forall (within (range_of l)) l.
Proof.
  intros Hok Hne. destruct (getKeyRange_spec l Hok Hne) as (r & E & Hp & Hw & _).
  unfold range_of. by rewrite E.
Qed.

Definition ex_cd (lvl next : nat) (tp bt : list Table) : compactDef :=
  mkCD 1 (mkTargets 1 [] []) (f64 0) lvl next tp bt (range_of tp)
    (range_of (match bt with [] => tp | _ => bt end)) [] 100 [].

Definition ex_home (i : Z) : option (nat * Table) :=
  if bool_decide (i = 1) then Some (1%nat, ex_t1)
  else if bool_decide (i = 2) then Some (1%nat, ex_t2)
  else if bool_decide (i = 3) then Some (2%nat, ex_t3) else None.

Definition ex_cdA : compactDef := ex_cd 1 2 [ex_t1] [].
Definition ex_cdB : compactDef := ex_cd 1 2 [ex_t2] [ex_t3].

Lemma ex_table_oks : table_ok ex_t1 /\ table_ok ex_t2 /\ table_ok ex_t3.
Proof.
  pose proof ex_tables_ok as H. rewrite !Forall_cons in H. tauto.
Qed.

Lemma ex_cd_ok tp bt :
  Forall table_ok [tp] -> Forall table_ok bt -> NoDup (ID <$> tp :: bt) ->
  ex_home (ID tp) = Some (1%nat, tp) -> Forall (fun t => ex_home (ID t) = Some (2%nat, t)) bt ->
  cd_ok ex_home (ex_cd 1 2 [tp] bt).
Proof.
  intros Ht Hb Hnd H1 H2. destruct (range_of_ok [tp] Ht) as [P W]; [done|].
  assert (~ is_l0 (ex_cd 1 2 [tp] bt)) as Hn by (by intros [[=] _]).
  assert (kr_proper (range_of (match bt with [] => [tp] | _ => bt end)) /\
    Forall (within (range_of (match bt with [] => [tp] | _ => bt end))) bt) as [P' W'].
  { destruct bt as [|b bt]; [split; [done|constructor]|by apply range_of_ok]. }
  split; cbn; try done.
  - intros _. by left.
  - intros _. apply Forall_singleton. rewrite Forall_singleton in Ht, W. by split_and!.
  - intros _. rewrite Forall_forall in *. intros t Hin. split_and!; auto.
Qed.

Definition ex_reg1 : compactStatus :=
  (default (false, cs_init 3) (compareAndAdd (cs_init 3) ex_cdA)).2.
Definition ex_reg2 : compactStatus := (default (false, cs_init 3) (compareAndAdd ex_reg1 ex_cdB)).2.
Definition ex_reg3 : compactStatus := default (cs_init 3) (cs_delete ex_reg2 ex_cdB).

Lemma ex_cdA_ok : cd_ok ex_home ex_cdA.
Proof.
  destruct ex_table_oks as (H1 & H2 & H3). apply ex_cd_ok.
  - by apply Forall_singleton.
  - constructor.
  - apply NoDup_singleton.
  - done.
  - constructor.
Qed.

Lemma ex_cdB_ok : cd_ok ex_home ex_cdB.
Proof.
  destruct ex_table_oks as (H1 & H2 & H3). apply ex_cd_ok.
  - by apply Forall_singleton.
  - by apply Forall_singleton.
  - apply (bool_decide_eq_true_1 (NoDup [2; 3])). done.
  - done.
  - by apply Forall_singleton.
Qed.

Lemma ex_step1 : reg_step ex_home (cs_init 3, []) (ex_reg1, [ex_cdA]).
Proof.
  apply reg_add; [apply ex_cdA_ok|by intros [[=] _]|]. vm_compute. reflexivity.
Qed.

Lemma ex_step2 : reg_step ex_home (ex_reg1, [ex_cdA]) (ex_reg2, [ex_cdB; ex_cdA]).
Proof.
  apply reg_add; [apply ex_cdB_ok|by intros [[=] _]|]. vm_compute. reflexivity.
Qed.

Lemma ex_reg_reachable : reg_reachable ex_home 3 (ex_reg2, [ex_cdB; ex_cdA]).
Proof.
  eapply rtc_l; [apply ex_step1|]. eapply rtc_l; [apply ex_step2|]. apply rtc_refl.
Qed.


Lemma compaction_delete_succeeds_witness : is_Some (cs_delete ex_reg2 ex_cdA).
Proof.
  apply (compaction_delete_succeeds ex_home 3 ex_reg2 [ex_cdB; ex_cdA]).
  - apply ex_reg_reachable.
  - right. by left.
Defined.

Definition ex_done1 : compactStatus := default (cs_init 3) (cs_delete ex_reg1 ex_cdA).

Lemma ex_done_trace : reg_trace ex_home 3 [ex_cdA] (ex_done1, []).
Proof.
  apply (trace_del ex_home 3 [ex_cdA] ex_reg1 [] ex_cdA []); [|by vm_compute].
  eapply trace_add; [constructor|]. apply ex_step1.
Qed.

Lemma registry_idle_when_done_witness : ex_done1 = cs_init 3.
Proof.
  destruct (registry_idle_when_done ex_home 3 [ex_cdA] ex_done1 ex_done_trace) as (_ & _ & _ & _ & H).
  apply H, Forall_singleton. left. discriminate.
Defined.

(** ** The last level leaks *)

Definition ex_big (id : Z) (k : byte) : Table :=
  mkTable id [(KeyWithTs [k] 1, ex_vs x01)] 12000000 11000000 1 0 false 0 0 None.

(** Two adjacent tables of the last level, full of stale data, each half a file big. *)
Definition ex_lmax : levelsController :=
  mkLC [newLevelHandler 0; mkLevel 1 [ex_big 1 x61; ex_big 2 x62] 24000000 22000000] (cs_init 2).

Definition ex_lmax_opts : lsmOptions := mkLsmOptions 2 10 10 10 10 10 5 15 1.

Definition ex_lmax_cd : compactDef :=
  mkCD 2 (mkTargets 1 [0; 30000000] [30000000; 30000000]) (f64 0) 1 1 [] [] kr_empty kr_empty []
    0 [].

(** A compaction of the last level that gathers a second table registers a wider [nextRange],
    which [delete] never takes off (it skips the next level when it is the same one): the idle
    registry still blocks that range, and the same two tables can never be compacted again. *)
Theorem max_level_range_leaks :
  exists cd cs cs',
    fillTables ex_lmax_opts ex_lmax 10 (2 * hour) ex_lmax_cd = Some (true, cd, cs) /\
    ID <$> bot cd = [2] /\
    cs_delete cs cd = Some cs' /\ cs_tables cs' = ∅ /\
    level_ranges cs' 1 = [nextRange cd] /\
    (exists cd', fillTables ex_lmax_opts (mkLC (lc_levels ex_lmax) cs') 10 (2 * hour) ex_lmax_cd
                 = Some (false, cd', cs')).
Proof.
  do 3 eexists. split; [vm_compute; reflexivity|]. split; [vm_compute; reflexivity|].
  split; [vm_compute; reflexivity|]. split; [vm_compute; reflexivity|].
  split; [vm_compute; reflexivity|]. eexists. vm_compute. reflexivity.
Qed.
