(* ===== verification/Subcompact.v ===== *)
(** * Subcompact: what a compaction writes (levels.go, iterator.go)

    [addKeys] and the loop of [subcompact] around it, over the merged iterator's entries —
    sorted, each versioned key once — in the key range of one split.  [gc] is the specification:
    which entries survive, without builders, ranges or counters.  The theorem that matters is
    that no read at or above the discard timestamp can tell the difference.

    The clock is read for every entry: [clock key] is the time [isDeletedOrExpired] saw at that
    entry.  Blocks are neither compressed nor encrypted, so [ReachedCapacity] is [Block]'s. *)

From Stdlib Require Import SpecFloat.
From S2P Require Import Prelude Keys Codec Bloom Checksum Block Tables TableFile TableBuild.
From S2P Require Import LevelHandler Compaction.

(** ** The state of a sub-compaction *)

Record scState : Type := mkSC {
  lastKey : bytes;
  skipKey : bytes;
  numVersions : Z;
  firstKeyHasDiscardSet : bool;
  discardStats : gmap Z Z
}.

Definition sc_init : scState := mkSC [] [] 0 false ∅.

(** What stays the same during a sub-compaction. *)
Record scEnv : Type := mkEnv {
  sc_right : bytes;               (* kr.right of the split *)
  sc_dropPrefixes : list bytes;
  sc_discardTs : Z;
  sc_hasOverlap : bool;
  sc_NumVersionsToKeep : Z;
  sc_InMemory : bool;
  sc_clock : bytes -> Z;
  sc_n2n : option levelHandler    (* the level after next, when there is one *)
}.

Definition updateStats (e : scEnv) (st : scState) (vs : ValueStruct) : option scState :=
  if sc_InMemory e then Some st
  else if has_bit (Meta vs) bitValuePointer then
    vp ← vp_Decode (vbytes (Value vs));
    Some (mkSC (lastKey st) (skipKey st) (numVersions st) (firstKeyHasDiscardSet st)
            (<[Fid vp := default 0 (discardStats st !! Fid vp) + Len vp]> (discardStats st)))
  else Some st.

Definition exceedsAllowedOverlap (e : scEnv) (kr : keyRange) : bool :=
  match sc_n2n e with
  | None => false
  | Some h =>
      let '(l, r) := overlappingTables h (kr_left kr) (kr_right kr) in
      bool_decide (10 <= r - l)%nat
  end.

Definition set_skipKey (st : scState) (k : bytes) : scState :=
  mkSC (lastKey st) k (numVersions st) (firstKeyHasDiscardSet st) (discardStats st).

Definition start_key (st : scState) (key : bytes) (vs : ValueStruct) : scState :=
  mkSC key (skipKey st) 0 (has_bit (Meta vs) bitDiscardEarlierVersions) (discardStats st).

Definition clear_discard (st : scState) : scState :=
  mkSC (lastKey st) (skipKey st) (numVersions st) false (discardStats st).

Definition set_numVersions (st : scState) (n : Z) : scState :=
  mkSC (lastKey st) (skipKey st) n (firstKeyHasDiscardSet st) (discardStats st).

(** The decision on one version of the key: the new state, and whether it is written. *)
Definition judge (e : scEnv) (st : scState) (key : bytes) (vs : ValueStruct) : scState * bool :=
  let version := ParseTs key in
  let isExpired := isDeletedOrExpired (Meta vs) (ExpiresAt vs) (sc_clock e key) in
  if bool_decide (version <= sc_discardTs e) && negb (has_bit (Meta vs) bitMergeEntry) then
    let st := set_numVersions st (numVersions st + 1) in
    let lastValidVersion := has_bit (Meta vs) bitDiscardEarlierVersions
                            || bool_decide (numVersions st = sc_NumVersionsToKeep e) in
    if isExpired || lastValidVersion then
      let st := set_skipKey st key in
      if negb isExpired && lastValidVersion then (st, true)
      else if sc_hasOverlap e then (st, true)
      else (st, false)
    else (st, true)
  else (st, true).

Section Sub.
Context `{C : ChecksumCodec}.

(** Writing one entry to the builder. *)
Definition put (e : scEnv) (st : scState) (b : Builder) (key : bytes) (vs : ValueStruct)
    : option Builder :=
  vpLen ← (if has_bit (Meta vs) bitValuePointer then
             vp ← vp_Decode (vbytes (Value vs)); Some (Len vp)
           else Some 0);
  if firstKeyHasDiscardSet st then AddStaleKey b key vs vpLen
  else if isDeletedOrExpired (Meta vs) (ExpiresAt vs) (sc_clock e key)
       then AddStaleKey b key vs vpLen
  else Add b key vs vpLen.

(** [addKeys]: the entries left, the state, the builder; [None] is a panic. *)
Fixpoint addKeys (e : scEnv) (it : list kv) (st : scState) (b : Builder) (rangeCheck : Z)
    (tableKr : keyRange) : option (list kv * scState * Builder) :=
  match it with
  | [] => Some ([], st, b)
  | (key, vs) :: it' =>
      if bool_decide (sc_dropPrefixes e <> []) && hasAnyPrefixes key (sc_dropPrefixes e) then
        st ← updateStats e st vs;
        addKeys e it' st b rangeCheck tableKr
      else if bool_decide (0 < len (skipKey st)) && SameKey key (skipKey st) then
        st ← updateStats e st vs;
        addKeys e it' st b rangeCheck tableKr
      else
        let st := if bool_decide (0 < len (skipKey st)) then set_skipKey st [] else st in
        let write st rangeCheck tableKr :=
          let '(st, keep) := judge e st key vs in
          if (keep : bool) then
            b ← put e st b key vs;
            addKeys e it' st b rangeCheck tableKr
          else
            st ← updateStats e st vs;
            addKeys e it' st b rangeCheck tableKr in
        if SameKey key (lastKey st) then write st rangeCheck tableKr
        else
          let st := clear_discard st in
          past ← (if bool_decide (0 < len (sc_right e)) then
                    c ← CompareKeys key (sc_right e); Some (bool_decide (c <> Lt))
                  else Some false);
          if (past : bool) then Some (it, st, b)
          else if ReachedCapacity b then Some (it, st, b)
          else
            let st := start_key st key vs in
            let tableKr := mkKR (if bool_decide (len (kr_left tableKr) = 0) then key
                                 else kr_left tableKr) key false 0 in
            let rangeCheck := rangeCheck + 1 in
            if bool_decide (rangeCheck mod 5000 = 0) && exceedsAllowedOverlap e tableKr
            then Some (it, st, b)
            else write st rangeCheck tableKr
  end.

(** The loop of [subcompact]: a builder per round, the non-empty ones kept, in order.  The
    writing of each table is a goroutine whose order does not matter (see [newTables]). *)
Fixpoint subcompact_loop (e : scEnv) (bopts : Options) (fuel : nat) (it : list kv) (st : scState)
    : option (list Builder * scState) :=
  match fuel with
  | O => None
  | S fuel =>
      match it with
      | [] => Some ([], st)
      | (key, _) :: _ =>
          past ← (if bool_decide (0 < len (sc_right e)) then
                    c ← CompareKeys key (sc_right e); Some (bool_decide (c <> Lt))
                  else Some false);
          if (past : bool) then Some ([], st)
          else
            '(it', st, b) ← addKeys e it st (NewTableBuilder bopts) 0 kr_empty;
            if Empty b then subcompact_loop e bopts fuel it' st
            else
              '(bs, st) ← subcompact_loop e bopts fuel it' st;
              Some (b :: bs, st)
      end
  end.

(** The entries from the first not below [key]: where [Seek] leaves an iterator. *)
Fixpoint seek_suffix (es : list kv) (key : bytes) : list kv :=
  match es with
  | [] => []
  | x :: es' => if bool_decide (compareKeys x.1 key = Lt) then seek_suffix es' key else es
  end.

(** [it.Seek(kr.left)], or [Rewind] when the left end is open; then the loop. *)
Definition subcompact (e : scEnv) (bopts : Options) (left : bytes) (es : list kv)
    : option (list Builder * scState) :=
  let it := if bool_decide (0 < len left) then seek_suffix es left else es in
  subcompact_loop e bopts (S (length it)) it sc_init.
End Sub.

(** ** The specification: which entries survive *)

Fixpoint gc (e : scEnv) (st : scState) (es : list kv) : list kv :=
  match es with
  | [] => []
  | (key, vs) :: es =>
      if bool_decide (0 < len (skipKey st)) && SameKey key (skipKey st) then gc e st es
      else
        let st := if bool_decide (0 < len (skipKey st)) then set_skipKey st [] else st in
        let st := if SameKey key (lastKey st) then st else start_key st key vs in
        let '(st, keep) := judge e st key vs in
        (if keep then [(key, vs)] else []) ++ gc e st es
  end.

(** The versions of one user key, newest first, [n] of them already counted. *)
Fixpoint gc_key (e : scEnv) (n : Z) (l : list kv) : list kv :=
  match l with
  | [] => []
  | (key, vs) :: l =>
      if bool_decide (ParseTs key <= sc_discardTs e) && negb (has_bit (Meta vs) bitMergeEntry) then
        let exp := isDeletedOrExpired (Meta vs) (ExpiresAt vs) (sc_clock e key) in
        let last := has_bit (Meta vs) bitDiscardEarlierVersions
                    || bool_decide (n + 1 = sc_NumVersionsToKeep e) in
        if exp || last then (if (negb exp && last) || sc_hasOverlap e then [(key, vs)] else [])
        else (key, vs) :: gc_key e (n + 1) l
      else (key, vs) :: gc_key e n l
  end.

(** ** [gc], user key by user key *)

Definition of_key (k : bytes) (l : list kv) : list kv := filter (fun x => ukey x.1 = k) l.

Lemma of_key_cons k x l : of_key k (x :: l) = if decide (ukey x.1 = k) then x :: of_key k l else of_key k l.
Proof. unfold of_key. by rewrite filter_cons. Qed.

Lemma of_key_app k l l' : of_key k (l ++ l') = of_key k l ++ of_key k l'.
Proof. apply filter_app. Qed.

(** Where the state of [gc] stands with respect to user key [k], [prev] being the entry just
    before: not there yet, in its versions, or skipping the rest of them. *)
Inductive phase_of (e : scEnv) (k : bytes) (st : scState) : (list kv -> list kv) -> Prop :=
  | PBefore : (lastKey st = [] \/ (has_ts (lastKey st) /\ ukey (lastKey st) <> k)) ->
      (skipKey st = [] \/ (has_ts (skipKey st) /\ ukey (skipKey st) <> k)) ->
      phase_of e k st (gc_key e 0)
  | PIn : has_ts (lastKey st) -> ukey (lastKey st) = k -> skipKey st = [] ->
      phase_of e k st (gc_key e (numVersions st))
  | PSkip : has_ts (skipKey st) -> ukey (skipKey st) = k -> has_ts (lastKey st) ->
      ukey (lastKey st) = k -> phase_of e k st (fun _ => []).

Lemma judge_skip e st key vs : skipKey st = [] ->
  (skipKey (judge e st key vs).1 = [] \/ skipKey (judge e st key vs).1 = key) /\
  lastKey (judge e st key vs).1 = lastKey st.
Proof.
  intros Hs. unfold judge. repeat (case_match; simpl; auto).
Qed.

(** The decision on a version, as [gc_key] makes it. *)
Lemma judge_gc_key e st key vs l :
  skipKey st = [] ->
  gc_key e (numVersions st) ((key, vs) :: l)
  = (if (judge e st key vs).2 then [(key, vs)] else [])
    ++ (if decide (skipKey (judge e st key vs).1 = []) then gc_key e (numVersions (judge e st key vs).1) l
        else []) \/ key = [].
Proof.
  intros Hs. cbn [gc_key]. unfold judge.
  destruct (_ && _) eqn:E1; [|left; cbn; by rewrite Hs, decide_True].
  cbn [numVersions set_numVersions].
  set (last := _ || bool_decide _). set (exp := isDeletedOrExpired _ _ _).
  destruct (exp || last) eqn:E2; [|left; cbn; by rewrite Hs, decide_True].
  destruct key as [|b key]; [by right|left].
  destruct (negb exp && last); cbn; [done|]. by destruct (sc_hasOverlap e).
Qed.

Definition keys_ts (l : list kv) : Prop := Forall (fun x => has_ts x.1) l.

(** [lastKey] is not after any entry still to come. *)
Definition last_before (st : scState) (es : list kv) : Prop :=
  has_ts (lastKey st) -> Forall (fun x => compareKeys (lastKey st) x.1 <> Gt) es.

Lemma of_key_done k st key vs es :
  kvs_sorted ((key, vs) :: es) -> last_before st ((key, vs) :: es) -> has_ts (lastKey st) ->
  ukey (lastKey st) = k -> ukey key <> k -> of_key k es = [].
Proof.
  intros Hs Hl Hts Hk Hne. unfold of_key.
  apply StronglySorted_cons in Hs as [Hall _]. specialize (Hl Hts).
  apply Forall_cons in Hl as [Hle _]. cbn in *.
  destruct (filter (fun x : kv => ukey x.1 = k) es) as [|x l] eqn:E; [done|exfalso].
  assert (x ∈ filter (fun x : kv => ukey x.1 = k) es) as Hx by (rewrite E; by left).
  apply list_elem_of_filter in Hx as [Hxk Hx]. rewrite Forall_forall in Hall. specialize (Hall x Hx).
  apply (cmp_not_gt compareKeys) in Hle as [Hlt| <-]; [|done].
  apply Hne. rewrite <- Hk. apply (ukey_between _ _ x.1); [done|done|congruence].
Qed.

Lemma judge_phase e k st key vs l :
  has_ts key -> ukey key = k -> skipKey st = [] -> has_ts (lastKey st) -> ukey (lastKey st) = k ->
  exists f, phase_of e k (judge e st key vs).1 f /\
    gc_key e (numVersions st) ((key, vs) :: l)
    = (if (judge e st key vs).2 then [(key, vs)] else []) ++ f l.
Proof.
  intros Hts Hk Hs Hlt Hl. destruct (judge_gc_key e st key vs l Hs) as [->| ->]; [|done].
  destruct (judge_skip e st key vs Hs) as [Hsk Hlk]. destruct Hsk as [Hsk|Hsk]; rewrite Hsk.
  - rewrite decide_True by done. eexists. split; [apply PIn; [by rewrite Hlk|by rewrite Hlk|done]|done].
  - rewrite decide_False by (intros ->; done). eexists. split; [apply PSkip; by rewrite ?Hlk, ?Hsk|done].
Qed.

Lemma judge_other e k st key vs :
  has_ts key -> ukey key <> k -> skipKey st = [] ->
  (lastKey st = key \/ SameKey key (lastKey st) = true) -> has_ts (lastKey st) ->
  phase_of e k (judge e st key vs).1 (gc_key e 0).
Proof.
  intros Hts Hk Hs Hl Hlt. destruct (judge_skip e st key vs Hs) as [Hsk Hlk].
  assert (ukey (lastKey st) <> k) as Hlk'.
  { destruct Hl as [->|Hl]; [done|]. rewrite SameKey_ukey in Hl by done.
    apply bool_decide_eq_true in Hl. congruence. }
  apply PBefore.
  - right. by rewrite Hlk.
  - destruct Hsk as [->| ->]; [by left|by right].
Qed.

Lemma gc_phase e k es : forall st f,
  kvs_sorted es -> keys_ts es -> last_before st es -> phase_of e k st f ->
  of_key k (gc e st es) = f (of_key k es).
Proof.
  induction es as [|[key vs] es IH]; intros st f Hs Hts Hl Hp.
  { by destruct Hp. }
  pose proof Hs as Hs0. pose proof Hts as Hts0. pose proof Hl as Hl0.
  apply StronglySorted_cons in Hs as [Hall Hs]. apply Forall_cons in Hts as [Hkey Hts].
  cbn [fst] in *. rewrite of_key_cons. cbn [fst gc].
  assert (forall st', (lastKey st' = lastKey st \/ lastKey st' = key) -> last_before st' es) as HL.
  { intros st' [E|E] H; rewrite E in *.
    - specialize (Hl H). by apply Forall_cons in Hl as [_ Hl].
    - eapply Forall_impl; [exact Hall|]. intros x Hx. cbn in Hx. by rewrite Hx. }
  destruct (bool_decide (0 < len (skipKey st)) && SameKey key (skipKey st)) eqn:Esk.
  - (* skipped *)
    apply andb_true_iff in Esk as [Esk1 Esk2]. apply bool_decide_eq_true in Esk1.
    assert (skipKey st <> []) as Hne by (intros E; rewrite E in Esk1; by vm_compute in Esk1).
    assert (has_ts (skipKey st)) as Hsts by (destruct Hp as [_ [?|[? _]]| |]; congruence).
    rewrite SameKey_ukey in Esk2 by done. apply bool_decide_eq_true in Esk2.
    destruct Hp as [H1 [H2|[_ H2]]| |? H2]; [done| |done|].
    + rewrite decide_False by congruence. apply IH; auto. apply PBefore; [done|by right].
    + apply (IH st (fun _ => [])); auto. by apply PSkip.
  - set (st1 := if bool_decide (0 < len (skipKey st)) then set_skipKey st [] else st).
    assert (skipKey st1 = [] /\ lastKey st1 = lastKey st /\
      (skipKey st = [] -> numVersions st1 = numVersions st)) as (S1 & S2 & S3).
    { unfold st1. case_bool_decide as Hz; [done|]. split_and!; try done.
      destruct (skipKey st) as [|b l]; [done|]. exfalso. apply Hz. unfold len. simpl. lia. }
    clearbody st1. set (st2 := if SameKey key (lastKey st1) then st1 else start_key st1 key vs).
    assert (skipKey st2 = []) as T1 by (unfold st2; destruct (SameKey key (lastKey st1)); exact S1).
    assert (has_ts (lastKey st2) /\ (lastKey st2 = key \/ SameKey key (lastKey st2) = true)) as [T2 T3].
    { unfold st2. destruct (SameKey key (lastKey st1)) eqn:E; [|by split; [|left]].
      split; [|by right]. destruct (decide (has_ts (lastKey st1))) as [|Hn]; [done|exfalso].
      unfold SameKey in E. case_bool_decide as Hlen; [done|]. 
      unfold has_ts in *. lia. }
    assert (lastKey st2 = lastKey st \/ lastKey st2 = key) as T4
      by (unfold st2; destruct (SameKey key (lastKey st1)); [left; exact S2|by right]).
    destruct (judge_skip e st2 key vs T1) as [J1 J2].
    destruct (judge e st2 key vs) as [st3 keep] eqn:EJ. cbn [fst snd] in *.
    assert (last_before st3 es) as Hl3 by (apply HL; by rewrite J2).
    rewrite of_key_app.
    destruct (decide (ukey key = k)) as [Hk|Hk].
    + (* a version of [k] *)
      assert (f (( key, vs) :: of_key k es) = gc_key e (numVersions st2) ((key, vs) :: of_key k es)
        /\ ukey (lastKey st2) = k) as [-> Hl2].
      { destruct Hp as [H1 H2|H1 H2 H3|H1 H2 H3 H4].
        - assert (SameKey key (lastKey st1) = false) as E.
          { rewrite S2. destruct H1 as [->|[H1 H1']]; [by apply SameKey_nil|].
            rewrite SameKey_ukey by done. apply bool_decide_eq_false. congruence. }
          unfold st2. by rewrite E.
        - assert (SameKey key (lastKey st1) = true) as E.
          { rewrite S2, SameKey_ukey by done. apply bool_decide_eq_true. congruence. }
          unfold st2. rewrite E, S3 by done. by rewrite S2.
        - exfalso. rewrite has_ts_pos, SameKey_ukey in Esk by done. cbn in Esk.
          apply bool_decide_eq_false in Esk. congruence. }
      destruct (judge_phase e k st2 key vs (of_key k es) Hkey Hk T1 T2 Hl2) as (f' & Hp' & ->).
      rewrite EJ in *. cbn [fst snd] in *. f_equal; [|by apply IH].
      destruct keep; [|done]. unfold of_key. cbn. by rewrite decide_True.
    + (* another user key *)
      pose proof (judge_other e k st2 key vs Hkey Hk T1 T3 T2) as Hp3. rewrite EJ in Hp3. cbn in Hp3.
      rewrite (IH st3 _ Hs Hts Hl3 Hp3).
      assert (of_key k (if keep then [(key, vs)] else []) = []) as ->
        by (destruct keep; [|done]; unfold of_key; cbn; by rewrite decide_False).
      cbn [app]. destruct Hp as [H1 H2|H1 H2 H3|H1 H2 H3 H4]; [done|..].
      * by rewrite (of_key_done k st key vs es Hs0 Hl0 H1 H2 Hk).
      * by rewrite (of_key_done k st key vs es Hs0 Hl0 H3 H4 Hk).
Qed.

Lemma gc_of_key e k es :
  kvs_sorted es -> keys_ts es -> of_key k (gc e sc_init es) = gc_key e 0 (of_key k es).
Proof.
  intros Hs Hts. apply gc_phase; [done|done|by intros ?|]. apply PBefore; by left.
Qed.

(** ** What [gc_key] drops *)

Lemma gc_key_incl e l : forall n x, x ∈ gc_key e n l -> x ∈ l.
Proof.
  induction l as [|[key vs] l IH]; intros n x; [done|]. cbn [gc_key]. rewrite elem_of_cons.
  destruct (_ && _); [|by rewrite elem_of_cons; naive_solver].
  destruct (_ || _); [|by rewrite elem_of_cons; naive_solver].
  destruct (_ || _); [|by intros ?%elem_of_nil]. intros ->%list_elem_of_singleton. by left.
Qed.

(** The database refuses empty user keys ([ParseTs] gives 0 for them). *)
Definition keys_ok (l : list kv) : Prop := Forall (fun x => key_ok x.1) l.

Lemma keys_ok_ts l : keys_ok l -> keys_ts l.
Proof. intros H. eapply Forall_impl; [exact H|]. intros x. apply key_ok_ts. Qed.

(** An entry [gc_key] drops is at or below the discard timestamp, and either a newer version at
    or below it survives, or a deleted one above it is gone too and nothing older is left. *)
Lemma gc_key_dropped e k l : forall n,
  kvs_sorted l -> keys_ok l -> Forall (fun x => ukey x.1 = k) l -> forall x, x ∈ l ->
  x ∈ gc_key e n l \/
  (ParseTs x.1 <= sc_discardTs e /\
   ((exists y, y ∈ gc_key e n l /\ ParseTs x.1 < ParseTs y.1 <= sc_discardTs e) \/
    (sc_hasOverlap e = false /\
     exists y, y ∈ l /\ ParseTs x.1 <= ParseTs y.1 <= sc_discardTs e /\
       isDeletedOrExpired (Meta y.2) (ExpiresAt y.2) (sc_clock e y.1) = true /\
       forall z, z ∈ gc_key e n l -> ParseTs y.1 < ParseTs z.1))).
Proof.
  induction l as [|[key vs] l IH]; intros n Hs Hts Hk x Hx; [by apply elem_of_nil in Hx|].
  apply StronglySorted_cons in Hs as [Hall Hs]. apply Forall_cons in Hts as [Hkts Hts].
  apply Forall_cons in Hk as [Hkk Hk]. cbn [fst] in *.
  assert (forall y, y ∈ l -> ParseTs y.1 < ParseTs key) as Hlt.
  { intros y Hy. rewrite Forall_forall in Hall, Hts, Hk. specialize (Hall y Hy).
    apply version_lt; [done|by apply Hts|rewrite Hkk; symmetry; by apply Hk|done]. }
  assert (x = (key, vs) \/ x ∈ l) as Hx' by (by apply elem_of_cons in Hx).
  assert (ParseTs x.1 <= ParseTs key) as Hxle.
  { destruct Hx' as [->|H]; [done|]. specialize (Hlt x H). lia. }
  assert (forall n', (x ∈ (key, vs) :: gc_key e n' l) \/
    (ParseTs x.1 <= sc_discardTs e /\
     ((exists y, y ∈ (key, vs) :: gc_key e n' l /\ ParseTs x.1 < ParseTs y.1 <= sc_discardTs e) \/
      (sc_hasOverlap e = false /\
       exists y, y ∈ (key, vs) :: l /\ ParseTs x.1 <= ParseTs y.1 <= sc_discardTs e /\
         isDeletedOrExpired (Meta y.2) (ExpiresAt y.2) (sc_clock e y.1) = true /\
         forall z, z ∈ (key, vs) :: gc_key e n' l -> ParseTs y.1 < ParseTs z.1)))) as Hkeep.
  { intros n'. destruct Hx' as [->|Hxl]; [left; by left|].
    destruct (IH n' Hs Hts Hk x Hxl) as [?|[Hd [(y & Hy & Hyv)|(Ho & y & Hy & Hyv & He & Hz)]]].
    - left. by right.
    - right. split; [done|]. left. exists y. split; [by right|done].
    - right. split; [done|]. right. split; [done|]. exists y. split_and!; try done; [by right|lia|lia|].
      intros z [->|Hz']%elem_of_cons; [by apply Hlt|by apply Hz]. }
  cbn [gc_key]. destruct (_ && _) eqn:E1; [|apply Hkeep].
  apply andb_true_iff in E1 as [Hd%bool_decide_eq_true _].
  set (exp := isDeletedOrExpired _ _ _). set (last := _ || bool_decide _).
  destruct (exp || last) eqn:E2; [|apply Hkeep]. destruct (negb exp && last || sc_hasOverlap e) eqn:E3.
  - destruct Hx' as [->|Hxl]; [left; by left|]. right. split; [lia|]. left. exists (key, vs).
    split; [by left|]. cbn. specialize (Hlt x Hxl). lia.
  - apply orb_false_iff in E3 as [E3 Eo].
    assert (exp = true) as Hexp by (destruct exp, last; done).
    right. split; [lia|]. right. split; [done|]. exists (key, vs). split_and!; try done; [by left|].
    by intros z ?%elem_of_nil.
Qed.

(** ** Reads *)

(** What a transaction sees of the result of a lookup, at time [now]. *)
Definition visible (now : Z) (r : ValueStruct) : option ValueStruct :=
  if vs_missing r || isDeletedOrExpired (Meta r) (ExpiresAt r) now then None else Some r.

Lemma expired_later meta expiresAt t now :
  0 <= t <= now -> now < 2 ^ 64 ->
  isDeletedOrExpired meta expiresAt t = true -> isDeletedOrExpired meta expiresAt now = true.
Proof.
  intros Ht Hn. unfold isDeletedOrExpired. destruct (has_bit meta bitDelete); [done|].
  case_bool_decide; [done|]. rewrite !bool_decide_eq_true, !(wrap_small 64) by lia. lia.
Qed.

Lemma visible_zero now : visible now vs_zero = None.
Proof. done. Qed.

(** One value per versioned key. *)
Definition one_value (l : list kv) : Prop :=
  forall key vs vs', (key, vs) ∈ l -> (key, vs') ∈ l -> vs = vs'.

Lemma newest_entry l k ts r :
  newest l k ts r -> r = vs_zero \/
  (0 < Version r <= ts /\ exists vs, (KeyWithTs k (Version r), vs) ∈ l /\ r = with_version vs (Version r)).
Proof. intros [_ [->|(H & _ & Hvs)]]; [by left|by right]. Qed.

Lemma in_of_key k v vs (es : list kv) :
  (KeyWithTs k v, vs) ∈ es <-> (KeyWithTs k v, vs) ∈ of_key k es.
Proof.
  unfold of_key. rewrite list_elem_of_filter. unfold ukey. cbn [fst]. rewrite split_KeyWithTs. cbn. tauto.
Qed.

Lemma of_key_sorted k (es : list kv) : kvs_sorted es -> kvs_sorted (of_key k es).
Proof.
  unfold kvs_sorted, of_key. induction 1 as [|x l Hs IH Hx]; [constructor|].
  rewrite filter_cons. case_decide; [|done]. constructor; [done|]. by apply Forall_filter_sub.
Qed.

(** [out] holds, of user key [k], what [gc] leaves of [es]: a read at or above the discard
    timestamp does not see the difference, [R] being everything else there is. *)
Lemma gc_newest e es out R k ts now r r' :
  kvs_sorted es -> keys_ok es -> k <> [] -> one_value (es ++ R) ->
  (forall v vs, (KeyWithTs k v, vs) ∈ out <-> (KeyWithTs k v, vs) ∈ gc_key e 0 (of_key k es)) ->
  (sc_hasOverlap e = false -> forall v0 vs0 v vs, (KeyWithTs k v0, vs0) ∈ es -> v0 <= sc_discardTs e ->
     (KeyWithTs k v, vs) ∈ R -> 0 < v <= MaxUint64 -> v0 < v) ->
  (forall key, 0 <= sc_clock e key <= now) -> now < 2 ^ 64 ->
  sc_discardTs e <= ts <= MaxUint64 ->
  newest (es ++ R) k ts r -> newest (out ++ R) k ts r' ->
  visible now r = visible now r'.
Proof.
  intros Hs Hts Hkne H1v Hgc Hrest Hclk Hnow Hd [Hmax Hr] [Hmax' Hr'].
  assert (forall v vs, (KeyWithTs k v, vs) ∈ out -> (KeyWithTs k v, vs) ∈ es) as Hincl.
  { intros v vs. rewrite Hgc, (in_of_key k v vs es). apply gc_key_incl. }
  assert (Version r' <= Version r) as Hle.
  { destruct Hr' as [->|(Hv' & _ & vs & Hin & E)].
    - destruct Hr as [->|(? & _)]; cbn; lia.
    - apply (Hmax (Version r') vs); [|done]. apply elem_of_app in Hin as [Hin|Hin]; apply elem_of_app; auto. }
  destruct Hr as [->|(Hv & _ & vs & Hin & E)].
  { destruct Hr' as [->|(Hv' & _)]; [done|]. cbn in Hle. lia. }
  assert (forall vs', (KeyWithTs k (Version r), vs') ∈ out ++ R ->
    visible now r = visible now r') as Hsame.
  { intros vs' Hin'. pose proof (Hmax' _ _ Hin' Hv) as Hge.
    destruct Hr' as [->|(Hv' & _ & vs2 & Hin2 & E2)]; [cbn in Hge; lia|].
    assert (Version r' = Version r) as Ev by lia. rewrite Ev in *.
    assert (vs2 = vs) as ->.
    { apply (H1v (KeyWithTs k (Version r))); [|done].
      apply elem_of_app in Hin2 as [Hin2|Hin2]; apply elem_of_app; auto. }
    congruence. }
  apply elem_of_app in Hin as [Hin|Hin]; [|by apply (Hsame vs), elem_of_app; right].
  assert (forall v, 0 < v <= ts -> ParseTs (KeyWithTs k v) = v) as HP
    by (intros v Hvv; apply ParseTs_KeyWithTs; [done|unfold MaxUint64 in *; lia]).
  destruct (gc_key_dropped e k (of_key k es) 0) with (x := (KeyWithTs k (Version r), vs))
    as [Hkept|[Hvd [(y & Hy & Hyv)|(Ho & y & Hy & Hyv & Hexp & Hz)]]].
  - by apply of_key_sorted.
  - by apply Forall_filter_sub.
  - apply Forall_forall. intros x Hx. by apply list_elem_of_filter in Hx as [? _].
  - by apply (proj1 (in_of_key k (Version r) vs es)).
  - apply (Hsame vs), elem_of_app. left. by apply Hgc.
  - (* a newer version at or below the discard timestamp survives: not newest *)
    exfalso. cbn [fst] in *. rewrite HP in Hyv by done. pose proof (gc_key_incl _ _ _ _ Hy) as Hyk.
    apply list_elem_of_filter in Hyk as [Hyk Hye]. destruct y as [yk yv]. cbn [fst] in *.
    assert (key_ok yk) as Hyts by (by apply (proj1 (Forall_forall _ _) Hts (yk, yv))).
    rewrite (proj1 (KeyWithTs_of yk Hyts)), Hyk in Hye.
    pose proof (Hmax (ParseTs yk) yv ltac:(apply elem_of_app; by left) ltac:(lia)). lia.
  - (* everything from a deleted version down is gone *)
    cbn [fst] in *. rewrite HP in Hyv, Hvd by done.
    apply list_elem_of_filter in Hy as [Hyk Hye]. destruct y as [yk yv]. cbn [fst snd] in *.
    assert (key_ok yk) as Hyts by (by apply (proj1 (Forall_forall _ _) Hts (yk, yv))).
    pose proof Hye as Hye'. rewrite (proj1 (KeyWithTs_of yk Hyts)), Hyk in Hye'.
    assert (ParseTs yk = Version r) as Ey.
    { pose proof (Hmax (ParseTs yk) yv ltac:(apply elem_of_app; by left) ltac:(lia)). lia. }
    rewrite Ey in Hye'.
    assert (yv = vs) as ->.
    { apply (H1v (KeyWithTs k (Version r))); apply elem_of_app; by left. }
    assert (visible now r = None) as ->.
    { unfold visible. rewrite E. cbn [Meta ExpiresAt with_version].
      rewrite (expired_later _ _ (sc_clock e yk) now) by (done || apply Hclk). by rewrite orb_true_r. }
    destruct Hr' as [->|(Hv' & _ & vs2 & Hin2 & E2)]; [done|exfalso].
    apply elem_of_app in Hin2 as [Hin2|Hin2].
    + apply Hgc in Hin2. specialize (Hz _ Hin2). cbn in Hz. rewrite HP in Hz by done. lia.
    + pose proof (Hrest Ho (Version r) vs (Version r') vs2 Hin Hvd Hin2 ltac:(unfold MaxUint64 in *; lia)). lia.
Qed.

(** ** [addKeys] writes what [gc] keeps *)

Definition core (st : scState) : bytes * bytes * Z := (lastKey st, skipKey st, numVersions st).

Lemma judge_core e st st' key vs :
  core st = core st' ->
  (judge e st key vs).2 = (judge e st' key vs).2 /\
  core (judge e st key vs).1 = core (judge e st' key vs).1.
Proof.
  destruct st as [l s n f d], st' as [l' s' n' f' d']. unfold core. cbn. intros [= -> -> ->].
  unfold judge. cbn. destruct (_ && _); [|done]. destruct (_ || _); [|done].
  destruct (_ && _); [done|]. by destruct (sc_hasOverlap e).
Qed.

Lemma gc_core e es : forall st st', core st = core st' -> gc e st es = gc e st' es.
Proof.
  induction es as [|[key vs] es IH]; intros st st' E; [done|]. cbn [gc].
  assert (skipKey st = skipKey st' /\ lastKey st = lastKey st') as [Es El] by (unfold core in E; split; congruence).
  rewrite Es. destruct (_ && _); [by apply IH|].
  set (s1 := if bool_decide (0 < len (skipKey st')) then set_skipKey st [] else st).
  set (s1' := if bool_decide (0 < len (skipKey st')) then set_skipKey st' [] else st').
  assert (core s1 = core s1') as E1.
  { unfold s1, s1'. destruct (bool_decide _); [|done]. unfold core in *. cbn. congruence. }
  assert (lastKey s1 = lastKey s1') as El1 by (unfold core in E1; congruence).
  clearbody s1 s1'. rewrite El1.
  set (s2 := if SameKey key (lastKey s1') then s1 else start_key s1 key vs).
  set (s2' := if SameKey key (lastKey s1') then s1' else start_key s1' key vs).
  assert (core s2 = core s2') as E2.
  { unfold s2, s2'. destruct (SameKey _ _); [done|]. unfold core in *. cbn. congruence. }
  clearbody s2 s2'. destruct (judge_core e s2 s2' key vs E2) as [Ek Ec].
  destruct (judge e s2 key vs) as [s3 k3], (judge e s2' key vs) as [s3' k3']. cbn in *. subst.
  f_equal. by apply IH.
Qed.

(** A value pointer can be decoded. *)
Definition ptr_ok (x : kv) : Prop :=
  has_bit (Meta x.2) bitValuePointer = true -> is_Some (vp_Decode (vbytes (Value x.2))).

Lemma updateStats_ok e st key vs :
  ptr_ok (key, vs) -> exists st', updateStats e st vs = Some st' /\ core st' = core st.
Proof.
  unfold ptr_ok, updateStats. cbn. intros Hp. destruct (sc_InMemory e); [by exists st|].
  destruct (has_bit _ _); [|by exists st]. destruct (Hp eq_refl) as [vp ->]. by eexists.
Qed.

Section AddKeys.
Context `{C : ChecksumCodec} `{!ChecksumCodecLaws C}.

Lemma put_ok e st b kvs key vs :
  builder_repr b kvs -> opts_ok (opts b) -> kv_small (key, vs) -> ptr_ok (key, vs) ->
  exists b', put e st b key vs = Some b' /\ builder_repr b' (kvs ++ [(key, vs)]) /\ opts b' = opts b.
Proof.
  intros Hr Ho Hk Hp. unfold put.
  assert (exists n, (if has_bit (Meta vs) bitValuePointer
    then vp ← vp_Decode (vbytes (Value vs)); Some (Len vp) else Some 0) = Some n) as [n ->].
  { unfold ptr_ok in Hp. cbn in Hp. destruct (has_bit _ _); [|by exists 0].
    destruct (Hp eq_refl) as [vp ->]. by eexists. }
  cbn [mbind option_bind].
  destruct (firstKeyHasDiscardSet st); [by apply AddStaleKey_repr|].
  destruct (isDeletedOrExpired _ _ _); [by apply AddStaleKey_repr|by apply addInternal_repr].
Qed.

(** The entries a split is for; its right end is a user key's oldest version. *)
Definition right_ok (e : scEnv) : Prop :=
  sc_right e = [] \/ exists k, sc_right e = KeyWithTs k 0.

Definition past (e : scEnv) (key : bytes) : bool :=
  bool_decide (0 < len (sc_right e)) && bool_decide (compareKeys key (sc_right e) <> Lt).

Lemma past_check e key :
  right_ok e -> has_ts key ->
  (if bool_decide (0 < len (sc_right e)) then c ← CompareKeys key (sc_right e); Some (bool_decide (c <> Lt))
   else Some false) = Some (past e key).
Proof.
  intros Hr Hk. unfold past. destruct Hr as [->|[k ->]].
  - done.
  - rewrite has_ts_pos by apply KeyWithTs_has_ts.
    by rewrite CompareKeys_total by (done || apply KeyWithTs_has_ts).
Qed.

(** Which user keys are past the end does not depend on the version, from 1 on. *)
Definition entry_in (x : kv) : Prop := key_ok x.1 /\ 0 < ParseTs x.1.

Lemma past_ukey e a b :
  right_ok e -> key_ok a -> 0 < ParseTs a -> key_ok b -> 0 < ParseTs b -> ukey a = ukey b ->
  past e a = past e b.
Proof.
  intros [Hr|[k Hr]] Ha Hpa Hb Hpb E; unfold past; rewrite Hr; [done|].
  assert (forall c, key_ok c -> 0 < ParseTs c ->
    compareKeys c (KeyWithTs k 0) = match bytes_Compare (ukey c) k with Eq => Lt | o => o end) as H.
  { intros c Hc Hpc. rewrite (proj1 (KeyWithTs_of c Hc)) at 1.
    rewrite compareKeys_KeyWithTs by (pose proof (ParseTs_range c); unfold MaxUint64; lia).
    destruct (bytes_Compare (ukey c) k); [|done|done]. apply Z.compare_lt_iff. lia. }
  by rewrite (H a), (H b), E.
Qed.

Definition key_in (e : scEnv) (k : bytes) : Prop :=
  k = [] \/ (key_ok k /\ 0 < ParseTs k /\ past e k = false).

Record st_wf (e : scEnv) (st : scState) : Prop := {
  sw_last : key_in e (lastKey st);
  sw_skip : key_in e (skipKey st)
}.

(** The last entry consumed, if any, is of the user key the state knows. *)
Definition knows (st : scState) (prev : option kv) : Prop :=
  match prev with
  | None => True
  | Some p => has_ts p.1 /\ ((lastKey st <> [] /\ ukey (lastKey st) = ukey p.1) \/
                             (skipKey st <> [] /\ ukey (skipKey st) = ukey p.1))
  end.

(** Why [addKeys] stops before [x]. *)
Definition stops (e : scEnv) (x : kv) (b : Builder) (rc : Z) : Prop :=
  past e x.1 = true \/ ReachedCapacity b = true \/ (rc + 1) mod 5000 = 0.

(** What a run of [addKeys] from [it] does: it consumes [dn] and leaves [rest]. *)
Record ak_post (e : scEnv) (it : list kv) (st : scState) (b : Builder) (kvs : list kv) (rc : Z)
    (prev : option kv) (dn rest out : list kv) (st' : scState) (b' : Builder) : Prop := {
  ak_split : it = dn ++ rest;
  ak_built : builder_repr b' (kvs ++ out);
  ak_opts : opts b' = opts b;
  ak_gc : forall tl, tl = [] \/ head tl = head rest -> gc e st (dn ++ tl) = out ++ gc e st' tl;
  ak_sep : forall x, head rest = Some x -> forall p,
    match last dn with Some p => Some p | None => prev end = Some p -> ukey p.1 <> ukey x.1;
  ak_stop : forall x, dn = [] -> head rest = Some x -> stops e x b rc;
  ak_wf : st_wf e st';
  ak_in : Forall (fun y => past e y.1 = false) dn
}.

(** Consuming one entry and going on. *)
Lemma ak_cons e x it st st1 b b1 kvs kvs1 rc rc1 prev out0 dn rest out st' b' :
  ak_post e it st1 b1 kvs1 rc1 (Some x) dn rest out st' b' ->
  (forall tl, gc e st (x :: tl) = out0 ++ gc e st1 tl) ->
  kvs1 = kvs ++ out0 -> opts b1 = opts b -> past e x.1 = false ->
  ak_post e (x :: it) st b kvs rc prev (x :: dn) rest (out0 ++ out) st' b'.
Proof.
  intros [H1 H2 H3 H4 H5 H6 H7 H8] Hgc -> Ho Hp. split.
  - by rewrite H1.
  - by rewrite app_assoc.
  - congruence.
  - intros tl Htl. change ((x :: dn) ++ tl) with (x :: (dn ++ tl)).
    by rewrite Hgc, H4, app_assoc.
  - intros y Hy p Hpp. apply (H5 y Hy). rewrite last_cons in Hpp.
    by destruct (last dn).
  - done.
  - done.
  - by constructor.
Qed.

(** Ending a skip: what [addKeys] and [gc] do first at a key they do not skip. *)
Definition resume (st : scState) : scState :=
  if bool_decide (0 < len (skipKey st)) then set_skipKey st [] else st.

Lemma resume_skip st : skipKey (resume st) = [] /\ lastKey (resume st) = lastKey st.
Proof.
  unfold resume. case_bool_decide as H; [done|]. split; [|done].
  destruct (skipKey st); [done|]. exfalso. apply H. unfold len. simpl. lia.
Qed.

Lemma resume_idem st : skipKey st = [] -> resume st = st.
Proof. unfold resume. by intros ->. Qed.

Lemma gc_unfold e st key vs es :
  bool_decide (0 < len (skipKey st)) && SameKey key (skipKey st) = false ->
  gc e st ((key, vs) :: es)
  = (let st2 := if SameKey key (lastKey st) then resume st else start_key (resume st) key vs in
     (if (judge e st2 key vs).2 then [(key, vs)] else []) ++ gc e (judge e st2 key vs).1 es).
Proof.
  intros H. cbn [gc]. rewrite H. fold (resume st). rewrite (proj2 (resume_skip st)).
  by destruct (judge _ _ _ _).
Qed.

Lemma not_skipped st key :
  skipKey st = [] -> bool_decide (0 < len (skipKey st)) && SameKey key (skipKey st) = false.
Proof. by intros ->. Qed.

(** Stopping before [x] in a state that decides [x] as before. *)
Lemma ak_here e x it st st' b kvs rc prev :
  bool_decide (0 < len (skipKey st)) && SameKey x.1 (skipKey st) = false ->
  SameKey x.1 (lastKey st) = false -> entry_in x -> st_wf e st -> knows st prev ->
  builder_repr b kvs -> stops e x b rc -> st_wf e st' ->
  (forall tl, gc e st (x :: tl) = gc e st' (x :: tl)) ->
  ak_post e (x :: it) st b kvs rc prev [] (x :: it) [] st' b.
Proof.
  intros Hsk Hl [Hx _] Hwf Hk Hb Hstop Hwf' Hgc.
  split; rewrite ?app_nil_r; try done.
  - intros [|y tl] [Htl|Htl]; cbn [head] in Htl; simplify_eq; [done|]. cbn [app]. apply Hgc.
  - intros y Hy p Hp. cbn in Hy, Hp. simplify_eq. destruct Hk as [Hts [[Hne E]|[Hne E]]]; rewrite <- E; intros Eu.
    + destruct (sw_last e st Hwf) as [|(Hlk & _)]; [done|].
      rewrite SameKey_ukey in Hl by auto using key_ok_ts. by apply bool_decide_eq_false in Hl.
    + destruct (sw_skip e st Hwf) as [|(Hlk & _)]; [done|].
      rewrite has_ts_pos, SameKey_ukey in Hsk by auto using key_ok_ts. by apply bool_decide_eq_false in Hsk.
  - intros y _ [= <-]. done.
Qed.

Lemma judge_wf e st key vs :
  st_wf e st -> skipKey st = [] -> key_in e key -> st_wf e (judge e st key vs).1.
Proof.
  intros [H1 H2] Hs Hk. destruct (judge_skip e st key vs Hs) as [Hsk Hl].
  split; [by rewrite Hl|]. destruct Hsk as [->| ->]; [by left|done].
Qed.

(** Deciding one version and going on. *)
Lemma addKeys_write e key vs it st st2 b kvs rc rc2 tkr2 prev :
  (forall st b kvs rc tkr prev, builder_repr b kvs -> opts_ok (opts b) -> st_wf e st -> knows st prev ->
     exists dn rest out st' b', addKeys e it st b rc tkr = Some (rest, st', b') /\
       ak_post e it st b kvs rc prev dn rest out st' b') ->
  builder_repr b kvs -> opts_ok (opts b) -> kv_small (key, vs) -> ptr_ok (key, vs) -> entry_in (key, vs) ->
  past e key = false -> st_wf e st2 -> skipKey st2 = [] -> lastKey st2 <> [] -> ukey (lastKey st2) = ukey key ->
  (forall tl, gc e st ((key, vs) :: tl)
     = (if (judge e st2 key vs).2 then [(key, vs)] else []) ++ gc e (judge e st2 key vs).1 tl) ->
  exists dn rest out st' b',
    (let '(st, keep) := judge e st2 key vs in
     if (keep : bool) then b ← put e st b key vs; addKeys e it st b rc2 tkr2
     else st ← updateStats e st vs; addKeys e it st b rc2 tkr2) = Some (rest, st', b') /\
    ak_post e ((key, vs) :: it) st b kvs rc prev dn rest out st' b'.
Proof.
  intros IH Hb Ho Hk Hp [Hin Hpos] Hpast Hwf Hs Hl Hu Hgc.
  pose proof (judge_wf e st2 key vs Hwf Hs ltac:(by right)) as Hwf3.
  destruct (judge_skip e st2 key vs Hs) as [_ Hl3].
  destruct (judge e st2 key vs) as [st3 keep] eqn:EJ. cbn [fst snd] in *. destruct keep.
  - destruct (put_ok e st3 b kvs key vs Hb Ho Hk Hp) as (b1 & -> & Hb1 & Ho1). cbn [mbind option_bind].
    destruct (IH st3 b1 (kvs ++ [(key, vs)]) rc2 tkr2 (Some (key, vs)) Hb1) as (dn & rest & out & st' & b' & E & H).
    + by rewrite Ho1.
    + done.
    + split; [by apply key_ok_ts|]. left. by rewrite Hl3.
    + exists ((key, vs) :: dn), rest, ([(key, vs)] ++ out), st', b'. split; [done|].
      by eapply ak_cons.
  - destruct (updateStats_ok e st3 key vs Hp) as (st4 & -> & Hc4). cbn [mbind option_bind].
    assert (lastKey st4 = lastKey st3 /\ skipKey st4 = skipKey st3) as [L4 S4]
      by (unfold core in Hc4; split; congruence).
    destruct (IH st4 b kvs rc2 tkr2 (Some (key, vs)) Hb Ho) as (dn & rest & out & st' & b' & E & H).
    + destruct Hwf3. split; by rewrite ?L4, ?S4.
    + split; [by apply key_ok_ts|]. left. by rewrite L4, Hl3.
    + exists ((key, vs) :: dn), rest, ([] ++ out), st', b'. split; [done|].
      eapply ak_cons; [exact H| |by rewrite app_nil_r|done|done].
      intros tl. rewrite Hgc. f_equal. by apply gc_core.
Qed.

Lemma addKeys_ok e it :
  right_ok e -> sc_dropPrefixes e = [] -> Forall kv_small it -> Forall ptr_ok it -> Forall entry_in it ->
  forall st b kvs rc tkr prev, builder_repr b kvs -> opts_ok (opts b) -> st_wf e st -> knows st prev ->
  exists dn rest out st' b', addKeys e it st b rc tkr = Some (rest, st', b') /\
    ak_post e it st b kvs rc prev dn rest out st' b'.
Proof.
  intros Hr Hd. induction it as [|[key vs] it IH]; intros Hsm Hpt Hen st b kvs rc tkr prev Hb Ho Hwf Hkn.
  { exists [], [], [], st, b. split; [done|]. split; rewrite ?app_nil_r; done. }
  apply Forall_cons in Hsm as [Hk Hsm]. apply Forall_cons in Hpt as [Hp Hpt].
  apply Forall_cons in Hen as [Hin Hen]. specialize (IH Hsm Hpt Hen).
  pose proof Hin as [Hkey Hpos]. cbn [fst] in Hkey, Hpos. pose proof (key_ok_ts key Hkey) as Hts.
  cbn [addKeys]. rewrite Hd. rewrite (bool_decide_eq_false_2 ([] <> [])) by auto. cbn [andb].
  destruct (bool_decide (0 < len (skipKey st)) && SameKey key (skipKey st)) eqn:Esk.
  - (* skipped *)
    destruct (updateStats_ok e st key vs Hp) as (st1 & -> & Hc). cbn [mbind option_bind].
    pose proof Esk as Esk'. apply andb_true_iff in Esk' as [E1 E2]. apply bool_decide_eq_true in E1.
    assert (skipKey st <> []) as Hne by (intros E; rewrite E in E1; by vm_compute in E1).
    destruct (sw_skip e st Hwf) as [|(Hsk & Hskp & Hskpast)]; [done|].
    rewrite SameKey_ukey in E2 by auto using key_ok_ts. apply bool_decide_eq_true in E2.
    assert (lastKey st1 = lastKey st /\ skipKey st1 = skipKey st) as [L1 S1]
      by (unfold core in Hc; split; congruence).
    destruct (IH st1 b kvs rc tkr (Some (key, vs)) Hb Ho) as (dn & rest & out & st' & b' & E & H).
    + destruct Hwf. split; by rewrite ?L1, ?S1.
    + split; [done|]. right. by rewrite S1.
    + exists ((key, vs) :: dn), rest, ([] ++ out), st', b'. split; [done|].
      eapply ak_cons; [exact H| |by rewrite app_nil_r|done|].
      * intros tl. cbn [gc]. rewrite Esk. by apply gc_core.
      * cbn. by rewrite (past_ukey e key (skipKey st)).
  - fold (resume st). destruct (resume_skip st) as [R1 R2].
    assert (st_wf e (resume st)) as Hwf1
      by (split; [rewrite R2; apply (sw_last e st Hwf)|by left]).
    rewrite R2. destruct (SameKey key (lastKey st)) eqn:Esame.
    + (* another version of the key *)
      assert (lastKey st <> []) as Hlne by (intros E; by rewrite E, SameKey_nil in Esame).
      destruct (sw_last e st Hwf) as [|(Hlk & Hlkp & Hlpast)]; [done|].
      rewrite SameKey_ukey in Esame by auto using key_ok_ts. apply bool_decide_eq_true in Esame.
      apply (addKeys_write e key vs it st (resume st)); try done.
      * by rewrite (past_ukey e key (lastKey st)).
      * by rewrite R2.
      * by rewrite R2.
      * intros tl. rewrite (gc_unfold e st key vs tl Esk).
        by rewrite SameKey_ukey, (bool_decide_eq_true_2 _ Esame) by auto using key_ok_ts.
    + (* a new key *)
      rewrite (past_check e key Hr Hts). cbn [mbind option_bind].
      assert (forall st', skipKey st' = [] -> core st' = core (resume st) ->
        forall tl, gc e st ((key, vs) :: tl) = gc e st' ((key, vs) :: tl)) as Hsame.
      { intros st' Hs' Hc' tl. rewrite (gc_core e _ st' (resume st) Hc').
        rewrite (gc_unfold e st key vs tl Esk), (gc_unfold e (resume st)) by (by apply not_skipped).
        by rewrite R2, (resume_idem (resume st) R1). }
      destruct (past e key) eqn:Epast.
      { exists [], ((key, vs) :: it), [], (clear_discard (resume st)), b. split; [done|].
        apply ak_here; try done; [by left|by destruct Hwf1|by apply Hsame]. }
      destruct (ReachedCapacity b) eqn:Ecap.
      { exists [], ((key, vs) :: it), [], (clear_discard (resume st)), b. split; [done|].
        apply ak_here; try done; [by right; left|by destruct Hwf1|by apply Hsame]. }
      assert (SameKey key key = true) as Eself by (rewrite SameKey_ukey by done; by apply bool_decide_eq_true).
      set (st2 := start_key (clear_discard (resume st)) key vs).
      assert (st2 = start_key (resume st) key vs) as E2 by done. clearbody st2. subst st2.
      set (st2 := start_key (resume st) key vs).
      assert (st_wf e st2) as Hwf2 by (split; [by right|by left; rewrite <- R1]).
      assert (forall tl, gc e st ((key, vs) :: tl)
        = (if (judge e st2 key vs).2 then [(key, vs)] else []) ++ gc e (judge e st2 key vs).1 tl) as Hgc.
      { intros tl. rewrite (gc_unfold e st key vs tl Esk). by rewrite Esame. }
      destruct (bool_decide ((rc + 1) mod 5000 = 0) && _) eqn:Eex.
      { exists [], ((key, vs) :: it), [], st2, b. split; [done|].
        apply ak_here; try done.
        - apply andb_true_iff in Eex as [Eex%bool_decide_eq_true _]. by right; right.
        - intros tl. rewrite Hgc, (gc_unfold e st2) by (apply not_skipped; exact R1).
          change (lastKey st2) with key. by rewrite Eself, (resume_idem st2 R1). }
      apply (addKeys_write e key vs it st st2); try done.
      intros E. cbn in E. rewrite E in Hkey. by vm_compute in Hkey.
Qed.
End AddKeys.

(** ** The loop *)

Lemma gc_sublist e es : forall st, gc e st es `sublist_of` es.
Proof.
  induction es as [|[key vs] es IH]; intros st; cbn [gc]; [constructor|].
  destruct (_ && _); [by apply sublist_cons|]. destruct (judge _ _ _ _) as [st' []].
  - cbn [app]. apply sublist_skip, IH.
  - cbn [app]. apply sublist_cons, IH.
Qed.

Lemma kvs_sorted_sublist (l l' : list kv) : l `sublist_of` l' -> kvs_sorted l' -> kvs_sorted l.
Proof.
  unfold kvs_sorted. induction 1 as [|x l l' Hs IH|x l l' Hs IH]; intros H.
  - constructor.
  - apply StronglySorted_cons in H as [H1 H2]. constructor; [by apply IH|].
    rewrite Forall_forall in *. intros y Hy. apply H1. by apply (elem_of_sublist l).
  - apply StronglySorted_cons in H as [_ H2]. by apply IH.
Qed.

Lemma kvs_sorted_app (l1 l2 : list kv) :
  kvs_sorted (l1 ++ l2) ->
  kvs_sorted l1 /\ kvs_sorted l2 /\ forall a b, a ∈ l1 -> b ∈ l2 -> compareKeys a.1 b.1 = Lt.
Proof.
  unfold kvs_sorted. induction l1 as [|x l1 IH]; cbn [app].
  - intros H. split_and!; [constructor|done|]. intros a b Ha. by apply elem_of_nil in Ha.
  - intros [Hx H]%StronglySorted_cons. apply Forall_app in Hx as [Hx1 Hx2].
    destruct (IH H) as (H1 & H2 & H3). split_and!; [by constructor|done|].
    intros a b [->|Ha]%elem_of_cons Hb; [by apply (proj1 (Forall_forall _ _) Hx2)|by apply H3].
Qed.

(** Tables of different user keys. *)
Definition keys_apart (l1 l2 : list kv) : Prop :=
  forall a b, a ∈ l1 -> b ∈ l2 -> ukey a.1 <> ukey b.1.

Lemma apart_of_boundary (dn rest : list kv) :
  kvs_sorted (dn ++ rest) ->
  (forall x, head rest = Some x -> forall p, last dn = Some p -> ukey p.1 <> ukey x.1) ->
  keys_apart dn rest.
Proof.
  intros Hs Hb a b Ha Hin E. destruct rest as [|x rest]; [by apply elem_of_nil in Hin|].
  destruct (last dn) as [p|] eqn:El.
  2: { apply last_None in El as ->. by apply elem_of_nil in Ha. }
  apply (Hb x eq_refl p eq_refl). apply last_Some in El as [dn' ->].
  destruct (kvs_sorted_app _ _ Hs) as (Hs1 & Hs2 & Hlt).
  assert (ukey p.1 = ukey a.1) as Ep.
  { apply elem_of_app in Ha as [Ha|Ha].
    - apply (ukey_between a.1 p.1 b.1); [|apply Hlt; [apply elem_of_app; right; by left|done]|done].
      apply (kvs_sorted_app _ _ Hs1); [done|by left].
    - by apply list_elem_of_singleton in Ha as ->. }
  apply elem_of_cons in Hin as [->|Hin]; [congruence|].
  rewrite Ep. symmetry. apply (ukey_between a.1 x.1 b.1); [|by apply StronglySorted_cons in Hs2 as [Hx _];
    apply (proj1 (Forall_forall _ _) Hx)|done].
  apply Hlt; [done|by left].
Qed.

(** The options leave a table room for its fixed parts. *)
Definition capacity_ok (o : Options) : Prop := 20 <= tableCapacity o.

Lemma fresh_room o : capacity_ok o -> ReachedCapacity (NewTableBuilder o) = false.
Proof.
  intros H. unfold ReachedCapacity, capacity_ok in *. apply bool_decide_eq_false_2.
  replace (u32 (_ + 4 + _)) with 20 by (by destruct (_ && _)). cbn [opts NewTableBuilder]. lia.
Qed.

Section Loop.
Context `{C : ChecksumCodec} `{!ChecksumCodecLaws C}.

Lemma Empty_repr b kvs : builder_repr b kvs -> Empty b = bool_decide (kvs = []).
Proof.
  intros H. unfold Empty. rewrite (bd_hashes b kvs H). apply bool_decide_ext.
  destruct kvs; cbn; unfold len; simpl; split; try done; lia.
Qed.

(** The tables a run of the loop builds: all the surviving entries up to the split's end, in
    order, no user key in two tables. *)
Record loop_post (e : scEnv) (it : list kv) (st : scState) (dn rest : list kv) (bs : list Builder)
    (kvss : list (list kv)) (bopts : Options) : Prop := {
  lp_split : it = dn ++ rest;
  lp_in : Forall (fun y => past e y.1 = false) dn;
  lp_end : forall x, head rest = Some x -> past e x.1 = true;
  lp_built : Forall2 builder_repr bs kvss;
  lp_opts : Forall (fun b => opts b = bopts) bs;
  lp_gc : concat kvss = gc e st dn;
  lp_full : Forall (fun l => l <> []) kvss;
  lp_apart : ForallOrdPairs keys_apart kvss
}.

Lemma loop_post_nil e it st bopts :
  (forall x, head it = Some x -> past e x.1 = true) -> loop_post e it st [] it [] [] bopts.
Proof. intros H. split; try done; constructor. Qed.

Lemma loop_step e it st b dn1 rest1 out st1 dn2 rest2 bs kvss bopts :
  kvs_sorted it ->
  ak_post e it st (NewTableBuilder bopts) [] 0 None dn1 rest1 out st1 b ->
  loop_post e rest1 st1 dn2 rest2 bs kvss bopts ->
  loop_post e it st (dn1 ++ dn2) rest2 (if Empty b then bs else b :: bs)
    (if Empty b then kvss else out :: kvss) bopts.
Proof.
  intros Hs [H1 H2 H3 H4 H5 _ _ H8] [L1 L2 L3 L4 L5 L6 L7 L8]. cbn [app] in H2. rewrite (Empty_repr b out H2).
  assert (gc e st (dn1 ++ dn2) = out ++ gc e st1 dn2) as Hgc.
  { apply H4. destruct dn2; [by left|right]. by rewrite L1. }
  split.
  - by rewrite <- app_assoc, <- L1.
  - by apply Forall_app.
  - done.
  - case_bool_decide; [done|by constructor].
  - case_bool_decide; [done|constructor; [by rewrite H3|done]].
  - rewrite Hgc. case_bool_decide as Ho; [by rewrite Ho|]. cbn. by rewrite L6.
  - case_bool_decide; [done|by constructor].
  - case_bool_decide; [done|]. constructor; [|done]. rewrite Forall_forall. intros l Hl a x Ha Hx.
    assert (keys_apart dn1 rest1) as Hap.
    { apply apart_of_boundary; [by rewrite <- H1|]. intros y Hy p Hp. apply (H5 y Hy). by rewrite Hp. }
    apply Hap.
    + rewrite <- (app_nil_r out) in Ha. change ([] : list kv) with (gc e st1 []) in Ha.
      rewrite <- (H4 [] ltac:(by left)), app_nil_r in Ha. apply (elem_of_sublist _ _ _ Ha), gc_sublist.
    + rewrite L1. apply elem_of_app. left. apply (elem_of_sublist (gc e st1 dn2) dn2 x); [|apply gc_sublist].
      rewrite <- L6. apply list_elem_of_In, in_concat. exists l. by rewrite <- !list_elem_of_In.
Qed.

Lemma subcompact_loop_ok e bopts fuel : right_ok e -> sc_dropPrefixes e = [] ->
  opts_ok bopts -> capacity_ok bopts ->
  forall it st, (length it < fuel)%nat -> kvs_sorted it ->
  Forall kv_small it -> Forall ptr_ok it -> Forall entry_in it -> st_wf e st ->
  exists dn rest bs kvss st', subcompact_loop e bopts fuel it st = Some (bs, st') /\
    loop_post e it st dn rest bs kvss bopts.
Proof.
  intros Hr Hd Ho Hcap. induction fuel as [|fuel IH]; intros it st Hf Hs Hsm Hpt Hen Hwf; [lia|].
  cbn [subcompact_loop]. destruct it as [|[key vs] it].
  { exists [], [], [], [], st. split; [done|by apply loop_post_nil]. }
  pose proof (proj1 (Forall_cons _ _ _) Hen) as [[Hk Hpos] _]. cbn [fst] in *.
  rewrite (past_check e key Hr (key_ok_ts key Hk)). cbn [mbind option_bind].
  destruct (past e key) eqn:Epast.
  { exists [], ((key, vs) :: it), [], [], st. split; [done|]. apply loop_post_nil. by intros x [= <-]. }
  destruct (addKeys_ok e ((key, vs) :: it) Hr Hd Hsm Hpt Hen st (NewTableBuilder bopts) [] 0 kr_empty None)
    as (dn1 & rest1 & out & st1 & b & -> & Hak); try done.
  { apply builder_repr_new. }
  cbn [mbind option_bind].
  assert (length rest1 < fuel)%nat as Hfuel.
  { pose proof (ak_split _ _ _ _ _ _ _ _ _ _ _ _ Hak) as E. destruct dn1 as [|y dn1].
    - exfalso. cbn in E. destruct (ak_stop _ _ _ _ _ _ _ _ _ _ _ _ Hak (key, vs)) as [H|[H|H]]; try done.
      + by rewrite <- E.
      + cbn in H. by rewrite Epast in H.
      + by rewrite fresh_room in H.
    - apply (f_equal length) in E. rewrite length_app in E. cbn in E, Hf. lia. }
  pose proof (ak_split _ _ _ _ _ _ _ _ _ _ _ _ Hak) as E.
  rewrite E in Hs, Hsm, Hpt, Hen. apply Forall_app in Hsm as [_ Hsm], Hpt as [_ Hpt], Hen as [_ Hen].
  destruct (IH rest1 st1 Hfuel) as (dn2 & rest2 & bs & kvss & st2 & E2 & Hl); try done.
  { by apply kvs_sorted_app in Hs as (_ & Hs & _). }
  { by apply (ak_wf _ _ _ _ _ _ _ _ _ _ _ _ Hak). }
  rewrite <- E in Hs. pose proof (loop_step _ _ _ _ _ _ _ _ _ _ _ _ _ Hs Hak Hl) as Hpost.
  exists (dn1 ++ dn2), rest2, (if Empty b then bs else b :: bs), (if Empty b then kvss else out :: kvss), st2.
  split; [|done]. rewrite E2. by destruct (Empty b).
Qed.

(** ** A split of the compaction *)

Definition in_split (e : scEnv) (left : bytes) (x : kv) : Prop :=
  (left = [] \/ compareKeys x.1 left <> Lt) /\ past e x.1 = false.

#[export] Instance in_split_dec e left x : Decision (in_split e left x).
Proof. unfold in_split. apply _. Defined.

Lemma seek_suffix_filter (es : list kv) left : kvs_sorted es ->
  seek_suffix es left = filter (fun x : kv => compareKeys x.1 left <> Lt) es.
Proof.
  unfold kvs_sorted. induction 1 as [|x l Hs IH Hx]; [done|]. cbn [seek_suffix]. rewrite filter_cons.
  destruct (decide (compareKeys x.1 left = Lt)) as [E|E].
  - by rewrite bool_decide_eq_true_2, decide_False by auto.
  - rewrite bool_decide_eq_false_2, decide_True by done. f_equal. symmetry. clear IH Hs.
    induction Hx as [|y l Hy Hx IH]; [done|]. rewrite filter_cons, decide_True; [by rewrite IH|].
    intros E2. apply E. by apply (cmp_trans compareKeys _ _ _ Hy).
Qed.

Lemma past_mono e a b : right_ok e -> compareKeys a b = Lt -> past e a = true -> past e b = true.
Proof.
  unfold past. intros Hr Hab [H1 H2]%andb_true_iff. rewrite H1. cbn [andb].
  apply bool_decide_eq_true in H2. apply bool_decide_eq_true. intros H3. apply H2.
  by apply (cmp_trans compareKeys _ _ _ Hab).
Qed.

(** The part of the entries up to the first past the end is the part in the split. *)
Lemma past_filter e (dn rest : list kv) : right_ok e -> kvs_sorted (dn ++ rest) ->
  Forall (fun y => past e y.1 = false) dn -> (forall x, head rest = Some x -> past e x.1 = true) ->
  dn = filter (fun x : kv => past e x.1 = false) (dn ++ rest).
Proof.
  intros Hr Hs Hdn Hrest. apply kvs_sorted_app in Hs as (_ & Hs & _). rewrite filter_app.
  assert (filter (fun x : kv => past e x.1 = false) rest = []) as ->.
  { destruct rest as [|x rest]; [done|]. specialize (Hrest x eq_refl).
    apply StronglySorted_cons in Hs as [Hx _]. rewrite filter_cons, decide_False by congruence.
    induction Hx as [|y l Hy Hx IH]; [done|]. rewrite filter_cons, decide_False; [done|].
    by rewrite (past_mono e x.1 y.1). }
  rewrite app_nil_r. clear -Hdn. induction Hdn as [|x l Hx Hl IH]; [done|].
  by rewrite filter_cons, decide_True, <- IH.
Qed.

(** The entries of a compaction. *)
Record sub_input (es : list kv) : Prop := {
  si_sorted : kvs_sorted es;
  si_small : Forall kv_small es;
  si_ptr : Forall ptr_ok es;
  si_in : Forall entry_in es
}.

Lemma sub_input_sublist (l es : list kv) : l `sublist_of` es -> sub_input es -> sub_input l.
Proof.
  intros Hl [H1 H2 H3 H4]. split; [by apply (kvs_sorted_sublist l es)|..];
    rewrite Forall_forall in *; intros x Hx; eauto using elem_of_sublist.
Qed.

(** What one sub-compaction gives: its tables hold the survivors of its split, in order, none
    empty, no user key in two of them. *)
Definition sub_result (e : scEnv) (left : bytes) (es : list kv) (bopts : Options)
    (bs : list Builder) (kvss : list (list kv)) : Prop :=
  Forall2 builder_repr bs kvss /\ Forall (fun b => opts b = bopts) bs /\
  concat kvss = gc e sc_init (filter (in_split e left) es) /\
  Forall (fun l => l <> []) kvss /\ ForallOrdPairs keys_apart kvss.

Lemma subcompact_result e bopts left es :
  right_ok e -> sc_dropPrefixes e = [] -> opts_ok bopts -> capacity_ok bopts -> sub_input es ->
  exists bs kvss st, subcompact e bopts left es = Some (bs, st) /\ sub_result e left es bopts bs kvss.
Proof.
  intros Hr Hd Ho Hc Hin. unfold subcompact. set (it := if bool_decide (0 < len left) then _ else es).
  assert (it = filter (fun x : kv => left = [] \/ compareKeys x.1 left <> Lt) es) as Eit.
  { subst it. case_bool_decide as Hl.
    - rewrite seek_suffix_filter by apply Hin. apply list_filter_iff. intros x. split; [by right|].
      intros [->|]; [by vm_compute in Hl|done].
    - assert (left = []) as -> by (destruct left; [done|]; exfalso; apply Hl; unfold len; simpl; lia).
      clear. induction es as [|x es IH]; [done|]. rewrite filter_cons, decide_True by (by left). by rewrite <- IH. }
  assert (sub_input it) as [Hs Hsm Hpt Hen].
  { rewrite Eit. apply (sub_input_sublist _ es); [|done]. apply sublist_filter. }
  destruct (subcompact_loop_ok e bopts (S (length it)) Hr Hd Ho Hc it sc_init) as
    (dn & rest & bs & kvss & st & E & [L1 L2 L3 L4 L5 L6 L7 L8]); try done; [lia|by split; left|].
  exists bs, kvss, st. split; [done|]. split_and!; try done. rewrite L6. f_equal.
  rewrite (past_filter e dn rest Hr) by (done || by rewrite <- L1). rewrite <- L1, Eit, list_filter_filter.
  apply list_filter_iff. unfold in_split. tauto.
Qed.
End Loop.
