(* ===== verification/Rewrite.v ===== *)
(** * Rewrite: running a compaction (levels.go)

    [compactBuildTables] merges the picked tables, runs one sub-compaction per split and opens
    the files it writes; [runCompactDef] records the change in the manifest and swaps the
    tables of the two levels.  The iterators are the runs they show ([Iterators] proves that the
    merge iterator over the tables' files shows the merge of their runs).  The goroutines of the
    splits and of the builders are run in order; [newTables_order] shows that the order in which
    they finish does not matter.  The discard timestamp and the clock are read by every
    sub-compaction on its own: [reads] gives what each saw. *)

From Stdlib Require Import SpecFloat.
From S2P Require Import Prelude Keys Codec Bloom Checksum Block Manifest Tables TableFile TableBuild.
From S2P Require Import Iterators LevelHandler Compaction Registry Subcompact.

(** ** The tables and iterators of a compaction *)

Definition keepTable (dropPrefixes : list bytes) (t : Table) : bool :=
  negb (existsb (fun p => bytes_HasPrefix (Smallest t) p && bytes_HasPrefix (Biggest t) p) dropPrefixes).

Definition appendIteratorsReversed (out : list (list kv)) (th : list Table) : list (list kv) :=
  out ++ (entries <$> reverse th).

(** The runs that are merged; below level 0 there is exactly one top table. *)
Definition newIterator (lev : nat) (topTables valid : list Table) : option (list (list kv)) :=
  iters ← (if bool_decide (lev = 0%nat) then Some (appendIteratorsReversed [] topTables)
           else match topTables with
                | [] => Some []
                | [t] => Some [entries t]
                | _ => None
                end);
  Some (iters ++ [concat (entries <$> valid)]).

(** What one sub-compaction reads of the database. *)
Definition split_env (o : lsmOptions) (s : levelsController) (cd : compactDef) (InMemory : bool)
    (kr : keyRange) (rd : Z * (bytes -> Z)) : option scEnv :=
  hasOverlap ← checkOverlap s (allTables cd) (S (nextLevel cd));
  let n2n := S (nextLevel cd) in
  Some (mkEnv (kr_right kr) (dropPrefixes cd) rd.1 hasOverlap (NumVersionsToKeep o) InMemory rd.2
          (if bool_decide (n2n <= 1)%nat || bool_decide (length (lc_levels s) <= n2n)%nat then None
           else lc_levels s !! n2n)).

(** How the database builds and opens table files. *)
Record buildEnv : Type := mkBuild {
  be_opts : Z -> Options;                  (* buildTableOptions, for a table size *)
  be_bloom : Builder -> option Z;          (* bits per key, when there is a filter *)
  be_verify_open : bool;
  be_verify_block : bool;
  be_InMemory : bool
}.

Section Run.
Context `{C : ChecksumCodec} `{I : IndexCodec}.

Fixpoint build_splits (o : lsmOptions) (s : levelsController) (cd : compactDef) (be : buildEnv)
    (bopts : Options) (es : list kv) (krs : list keyRange) (reads : list (Z * (bytes -> Z)))
    : option (list Builder) :=
  match krs with
  | [] => Some []
  | kr :: krs =>
      match reads with
      | [] => None
      | rd :: reads =>
          e ← split_env o s cd (be_InMemory be) kr rd;
          '(bs, _) ← subcompact e bopts (kr_left kr) es;
          bs' ← build_splits o s cd be bopts es krs reads;
          Some (bs ++ bs')
      end
  end.

(** The tables of the finished builders, [ids] being the reserved file ids. *)
Fixpoint create_tables (be : buildEnv) (bs : list Builder) (ids : list Z) (created : Z)
    : result table_error (list Table) :=
  match bs with
  | [] => Ok []
  | b :: bs =>
      match ids with
      | [] => Panic
      | id :: ids =>
          t ← CreateTable b (be_bloom be b) (be_verify_open be) (be_verify_block be) id created;
          ts ← create_tables be bs ids created;
          Ok (t :: ts)
      end
  end.

Definition sort_by_biggest (l : list Table) : list Table := sort_by compareKeys Biggest l.

Definition compactBuildTables (o : lsmOptions) (s : levelsController) (be : buildEnv) (lev : nat)
    (cd : compactDef) (reads : list (Z * (bytes -> Z))) (ids : list Z) (created : Z)
    : result table_error (list Table) :=
  let valid := filter (fun t => keepTable (dropPrefixes cd) t = true) (bot cd) in
  iters ← unpanic (newIterator lev (top cd) valid);
  let es := merge_all false iters in
  sz ← unpanic (fileSz (cd_t cd) !! nextLevel cd);
  bs ← unpanic (build_splits o s cd be (be_opts be sz) es (splits cd) reads);
  newTables ← create_tables be bs ids created;
  Ok (sort_by_biggest newTables).

Definition buildChangeSet (cd : compactDef) (newTables : list Table) : list ManifestChange :=
  ((fun t => newCreateChange (ID t) (Z.of_nat (nextLevel cd)) (KeyID t) (CompressionType t)) <$> newTables)
  ++ ((fun t => newDeleteChange (ID t)) <$> filter (fun t => IsInmemory t = false) (top cd))
  ++ ((fun t => newDeleteChange (ID t)) <$> bot cd).

Inductive run_error : Type := RFileSizes | RTable (e : table_error) | RManifest (e : manifest_error).

Definition lift_table {A} (r : result table_error A) : result run_error A :=
  match r with Ok a => Ok a | Err e => Err (RTable e) | Panic => Panic end.

(** The splits of a compaction that is run: one empty range when there are none. *)
Definition plan_splits (cd : compactDef) : option compactDef :=
  cd ← (if bool_decide (thisLevel cd = nextLevel cd) then Some cd else addSplits cd);
  Some (if bool_decide (splits cd = []) then set_splits cd [kr_empty] else cd).

(** Swapping the tables of the two levels. *)
Definition swap_tables (levels : list levelHandler) (cd : compactDef) (newTables : list Table)
    : list levelHandler :=
  alter (fun h => deleteTables h (top cd)) (thisLevel cd)
    (alter (fun h => replaceTables h (bot cd) newTables) (nextLevel cd) levels).

(** [runCompactDef]: the manifest first, then the levels. *)
Definition runCompactDef `{CC : ChangeSetCodec} (o : lsmOptions) (s : levelsController)
    (mf : manifestFile) (be : buildEnv) (l : nat) (cd : compactDef)
    (reads : list (Z * (bytes -> Z))) (ids : list Z) (created : Z)
    (order : Manifest -> list (Z * TableManifest))
    : result run_error (manifestFile * levelsController) :=
  if bool_decide (fileSz (cd_t cd) = []) then Err RFileSizes
  else if bool_decide (splits cd <> []) then Panic
  else
    cd ← unpanic (plan_splits cd);
    newTables ← lift_table (compactBuildTables o s be l cd reads ids created);
    match addChanges mf (buildChangeSet cd newTables) order with
    | (mf, Ok _) =>
        _ ← unpanic (lc_levels s !! nextLevel cd);
        _ ← unpanic (lc_levels s !! thisLevel cd);
        Ok (mf, mkLC (swap_tables (lc_levels s) cd newTables) (cstatus s))
    | (_, Err e) => Err (RManifest e)
    | (_, Panic) => Panic
    end.

(** [addLevel0Table]: in the manifest, then in level 0, waiting while it stalls; [false] is a
    level that still stalls. *)
Definition addLevel0Table `{CC : ChangeSetCodec} (o : lsmOptions) (s : levelsController)
    (mf : manifestFile) (t : Table) (order : Manifest -> list (Z * TableManifest))
    : result run_error (bool * manifestFile * levelsController) :=
  mf ← (if IsInmemory t then Ok mf
        else match addChanges mf [newCreateChange (ID t) 0 (KeyID t) (CompressionType t)] order with
             | (mf, Ok _) => Ok mf
             | (_, Err e) => Err (RManifest e)
             | (_, Panic) => Panic
             end);
  l0 ← unpanic (lc_levels s !! 0%nat);
  '(ok, l0) ← unpanic (tryAddLevel0Table (NumLevelZeroTablesStall o) l0 t);
  Ok (ok, mf, mkLC (<[0%nat := l0]> (lc_levels s)) (cstatus s)).
End Run.

(** ** Lemmas: the sub-compactions together *)

(** Consecutive ranges from [left] on, the last one open, cut after the oldest version of user
    keys: what [addSplits] gives, and the single empty range. *)
Inductive splits_from : bytes -> list keyRange -> Prop :=
  | SFLast left inf sz : splits_from left [mkKR left [] inf sz]
  | SFCons left k inf sz krs :
      (left = [] \/ compareKeys left (KeyWithTs k 0) <> Gt) -> splits_from (KeyWithTs k 0) krs ->
      splits_from left (mkKR left (KeyWithTs k 0) inf sz :: krs).

(** The environment of a sub-compaction, as far as [gc_key] looks at it. *)
Definition gc_env (o : lsmOptions) (hasOverlap : bool) (rd : Z * (bytes -> Z)) : scEnv :=
  mkEnv [] [] rd.1 hasOverlap (NumVersionsToKeep o) false rd.2 None.

Lemma gc_key_env e e' n l :
  sc_discardTs e = sc_discardTs e' -> sc_hasOverlap e = sc_hasOverlap e' ->
  sc_NumVersionsToKeep e = sc_NumVersionsToKeep e' -> sc_clock e = sc_clock e' ->
  gc_key e n l = gc_key e' n l.
Proof.
  intros E1 E2 E3 E4. revert n. induction l as [|[key vs] l IH]; intros n; [done|].
  cbn [gc_key]. by rewrite E1, E2, E3, E4, !IH.
Qed.

Lemma of_key_nil_sublist k (l l' : list kv) : l `sublist_of` l' -> of_key k l' = [] -> of_key k l = [].
Proof.
  intros Hs Hn. destruct (of_key k l) as [|x r] eqn:E; [done|exfalso].
  assert (x ∈ of_key k l) as Hx by (rewrite E; by left). unfold of_key in Hx, Hn.
  apply list_elem_of_filter in Hx as [Hk Hx].
  assert (x ∈ filter (fun x : kv => ukey x.1 = k) l') as H; [|rewrite Hn in H; by apply elem_of_nil in H].
  apply list_elem_of_filter. split; [done|]. by apply (elem_of_sublist l).
Qed.

Lemma elem_of_concat {A} (x : A) (ls : list (list A)) : x ∈ concat ls <-> exists l, l ∈ ls /\ x ∈ l.
Proof.
  rewrite list_elem_of_In, in_concat. split; intros (l & H1 & H2); exists l;
    by rewrite ?list_elem_of_In, <- ?list_elem_of_In in *.
Qed.

(** Sorted entries, cut at the end of a split. *)
Lemma cut_at e (es : list kv) : right_ok e -> sub_input es ->
  es = filter (fun x : kv => past e x.1 = false) es ++ filter (fun x : kv => past e x.1 = true) es.
Proof.
  intros Hr Hin. pose proof (si_sorted es Hin) as Hs. clear Hin.
  unfold kvs_sorted in Hs. induction Hs as [|x l Hs IH Hx]; [done|]. rewrite !filter_cons.
  destruct (past e x.1) eqn:E.
  - rewrite decide_False, decide_True by done.
    assert (filter (fun y : kv => past e y.1 = false) l = []) as E1.
    { clear IH Hs. induction Hx as [|y l Hy Hx IH]; [done|]. rewrite filter_cons, decide_False; [done|].
      by rewrite (past_mono e x.1 y.1). }
    rewrite E1 in IH |- *. cbn [app] in *. by rewrite <- IH.
  - rewrite decide_True, decide_False by done. cbn [app]. by rewrite <- IH.
Qed.

Lemma cut_apart e (es : list kv) : right_ok e -> sub_input es ->
  keys_apart (filter (fun x : kv => past e x.1 = false) es) (filter (fun x : kv => past e x.1 = true) es).
Proof.
  intros Hr Hin a b [Ha Hina]%list_elem_of_filter [Hb Hinb]%list_elem_of_filter E.
  pose proof (si_in es Hin) as Hen. rewrite Forall_forall in Hen.
  destruct (Hen a Hina) as [Ka Pa]. destruct (Hen b Hinb) as [Kb Pb].
  rewrite (past_ukey e a.1 b.1) in Ha by done. congruence.
Qed.

Lemma keys_apart_of_key l1 l2 k : keys_apart l1 l2 -> of_key k l1 = [] \/ of_key k l2 = [].
Proof.
  intros H. destruct (of_key k l1) as [|a r1] eqn:E1; [by left|right].
  destruct (of_key k l2) as [|b r2] eqn:E2; [done|exfalso].
  assert (a ∈ of_key k l1 /\ b ∈ of_key k l2) as [Ha Hb] by (rewrite E1, E2; split; by left).
  unfold of_key in Ha, Hb. apply list_elem_of_filter in Ha as [Ha Hina], Hb as [Hb Hinb].
  apply (H a b Hina Hinb). congruence.
Qed.

Section Layer1.
Context `{C : ChecksumCodec} `{!ChecksumCodecLaws C}.
Context (o : lsmOptions) (s : levelsController) (cd : compactDef) (be : buildEnv) (bopts : Options)
  (ho : bool).
Context (Hho : checkOverlap s (allTables cd) (S (nextLevel cd)) = Some ho)
  (Hdrop : dropPrefixes cd = []) (Hopts : opts_ok bopts) (Hcap : capacity_ok bopts).

(** What all the sub-compactions together give, of the entries [es]: user key by user key, what
    [gc_key] leaves, for the timestamp and clock of one of them. *)
Record splits_result (es : list kv) (reads : list (Z * (bytes -> Z))) (bs : list Builder)
    (kvss : list (list kv)) : Prop := {
  sr_built : Forall2 builder_repr bs kvss;
  sr_opts : Forall (fun b => opts b = bopts) bs;
  sr_full : Forall (fun l => l <> []) kvss;
  sr_apart : ForallOrdPairs keys_apart kvss;
  sr_sub : concat kvss `sublist_of` es;
  sr_gc : forall k, exists rd, rd ∈ reads /\
    of_key k (concat kvss) = gc_key (gc_env o ho rd) 0 (of_key k es)
}.

Lemma sub_result_one kr rd reads e es bs kvss :
  split_env o s cd (be_InMemory be) kr rd = Some e -> rd ∈ reads -> sub_input es ->
  Forall2 builder_repr bs kvss -> Forall (fun b => opts b = bopts) bs ->
  concat kvss = gc e sc_init es -> Forall (fun l => l <> []) kvss -> ForallOrdPairs keys_apart kvss ->
  splits_result es reads bs kvss.
Proof.
  intros He Hrd Hin H1 H2 H3 H4 H5. split; try done.
  - rewrite H3. apply gc_sublist.
  - intros k. exists rd. split; [done|].
    assert (keys_ts es) as Hts.
    { eapply Forall_impl; [apply (si_in es Hin)|]. intros x [Hx _]. by apply key_ok_ts. }
    rewrite H3, gc_of_key by (done || apply Hin). unfold split_env in He. rewrite Hho in He.
    injection He as <-. by apply gc_key_env.
Qed.

Lemma splits_result_app es1 es2 rd reads bs1 bs2 kvss1 kvss2 :
  keys_apart es1 es2 -> splits_result es1 [rd] bs1 kvss1 -> splits_result es2 reads bs2 kvss2 ->
  splits_result (es1 ++ es2) (rd :: reads) (bs1 ++ bs2) (kvss1 ++ kvss2).
Proof.
  intros Hap [A1 A2 A3 A4 A5 A6] [B1 B2 B3 B4 B5 B6]. split.
  - by apply Forall2_app.
  - by apply Forall_app.
  - by apply Forall_app.
  - apply ForallOrdPairs_app; [done|done|]. intros l1 l2 H1 H2 a b Ha Hb. apply Hap.
    + apply (elem_of_sublist (concat kvss1)); [|done]. apply elem_of_concat. by exists l1.
    + apply (elem_of_sublist (concat kvss2)); [|done]. apply elem_of_concat. by exists l2.
  - rewrite concat_app. by apply sublist_app.
  - intros k. rewrite concat_app, !of_key_app. destruct (keys_apart_of_key es1 es2 k Hap) as [E|E].
    + destruct (B6 k) as (rd' & Hrd' & Eg). exists rd'. split; [by right|].
      by rewrite E, (of_key_nil_sublist k _ _ A5 E), Eg.
    + destruct (A6 k) as (rd' & Hrd' & Eg). exists rd'. apply list_elem_of_singleton in Hrd' as ->.
      split; [by left|]. by rewrite E, (of_key_nil_sublist k _ _ B5 E), !app_nil_r, Eg.
Qed.

(** The entries before a split and those from it on. *)
Definition cut_left (left : bytes) (pre es : list kv) : Prop :=
  (left = [] /\ pre = []) \/
  (left <> [] /\ Forall (fun x => compareKeys x.1 left = Lt) pre /\
   Forall (fun x => compareKeys x.1 left <> Lt) es).

Lemma in_split_cut e left pre es : cut_left left pre es ->
  filter (in_split e left) (pre ++ es) = filter (fun x : kv => past e x.1 = false) es.
Proof.
  intros Hc. rewrite filter_app.
  assert (filter (in_split e left) pre = []) as ->.
  { destruct Hc as [[_ ->]|(Hne & Hp & _)]; [done|]. induction Hp as [|x l Hx Hp IH]; [done|].
    rewrite filter_cons, decide_False; [done|]. by intros [[|Hn] _]. }
  cbn [app]. assert (Forall (fun x : kv => left = [] \/ compareKeys x.1 left <> Lt) es) as Hes.
  { destruct Hc as [[-> ->]|(_ & _ & He)]; [apply Forall_forall; by left|].
    eapply Forall_impl; [exact He|]. by right. }
  clear Hc. induction Hes as [|x l Hx Hes IH]; [done|]. rewrite !filter_cons. unfold in_split at 1.
  destruct (decide (past e x.1 = false)) as [Hp|Hp].
  - by rewrite decide_True, IH.
  - rewrite decide_False; [done|]. by intros [_ ?].
Qed.

Lemma cut_next e left k pre es : right_ok e -> sc_right e = KeyWithTs k 0 -> sub_input (pre ++ es) ->
  cut_left left pre es -> (left = [] \/ compareKeys left (KeyWithTs k 0) <> Gt) ->
  cut_left (KeyWithTs k 0) (pre ++ filter (fun x : kv => past e x.1 = false) es)
    (filter (fun x : kv => past e x.1 = true) es).
Proof.
  intros Hr Er Hin Hc Hk. right.
  assert (forall x, past e x = bool_decide (compareKeys x (KeyWithTs k 0) <> Lt)) as Hp.
  { intros x. unfold past. by rewrite Er, has_ts_pos by apply KeyWithTs_has_ts. }
  split_and!.
  - intros E. pose proof (KeyWithTs_has_ts k 0) as H. rewrite E in H. by vm_compute in H.
  - apply Forall_app. split.
    + destruct Hc as [[_ ->]|(Hne & Hp1 & _)]; [done|]. eapply Forall_impl; [exact Hp1|].
      intros x Hx. cbn in Hx. destruct Hk as [->|Hk]; [done|]. by apply (cmp_lt_le_trans compareKeys _ left).
    + apply Forall_forall. intros x [Hx _]%list_elem_of_filter. rewrite Hp in Hx.
      apply bool_decide_eq_false in Hx. destruct (compareKeys x.1 (KeyWithTs k 0)); [|done|];
      by exfalso; apply Hx.
  - apply Forall_forall. intros x [Hx _]%list_elem_of_filter. rewrite Hp in Hx. by apply bool_decide_eq_true in Hx.
Qed.

Lemma sub_input_filter (P : kv -> Prop) `{!forall x, Decision (P x)} es : sub_input es -> sub_input (filter P es).
Proof. apply sub_input_sublist, sublist_filter. Qed.

Lemma build_splits_ok krs : forall left reads pre es,
  splits_from left krs -> (length krs <= length reads)%nat ->
  sub_input (pre ++ es) -> cut_left left pre es ->
  exists bs kvss, build_splits o s cd be bopts (pre ++ es) krs reads = Some bs /\
    splits_result es reads bs kvss.
Proof.
  induction krs as [|kr krs IH]; intros left reads pre es Hsp Hlen Hin Hcut; [inversion Hsp|].
  destruct reads as [|rd reads]; [simpl in Hlen; lia|]. cbn [build_splits].
  assert (sub_input es) as Hines by (apply (sub_input_sublist es (pre ++ es)); [by apply sublist_inserts_l|done]).
  assert (exists e, split_env o s cd (be_InMemory be) kr rd = Some e /\ sc_right e = kr_right kr /\
    sc_dropPrefixes e = []) as (e & Ee & Er & Ed).
  { unfold split_env. rewrite Hho. eexists. split; [done|]. by split. }
  assert (kr_left kr = left /\ right_ok e) as [Elf Hr].
  { inversion Hsp; subst; (split; [done|]); unfold right_ok; rewrite Er; cbn; eauto. }
  rewrite Ee, Elf. cbn [mbind option_bind].
  destruct (subcompact_result e bopts left (pre ++ es) Hr Ed Hopts Hcap Hin)
    as (bs & kvss & st & Es & (R1 & R2 & R3 & R4 & R5)).
  rewrite in_split_cut in R3 by done. rewrite Es. cbn [mbind option_bind].
  set (A := filter (fun x : kv => past e x.1 = false) es) in *.
  assert (splits_result A [rd] bs kvss) as HA
    by (apply (sub_result_one kr rd [rd] e); [done|by left|by apply sub_input_filter|done..]).
  clear Elf. inversion Hsp as [? inf sz E1 E2|? k inf sz krs' Hk Hrest E1 E2]; subst.
  - cbn [build_splits mbind option_bind]. exists (bs ++ []), kvss. split; [done|]. rewrite app_nil_r.
    assert (A = es) as EA.
    { unfold A. cbn in Er. clear -Er. induction es as [|x es IH]; [done|]. rewrite filter_cons, decide_True.
      - by rewrite IH.
      - unfold past. by rewrite Er. }
    rewrite EA in HA. destruct HA as [A1 A2 A3 A4 A5 A6]. split; try done. intros k.
    destruct (A6 k) as (rd' & ->%list_elem_of_singleton & H). exists rd. split; [by left|done].
  - cbn [kr_right] in Er. rewrite (cut_at e es Hr Hines). fold A. rewrite app_assoc.
    destruct (IH (KeyWithTs k 0) reads (pre ++ A) (filter (fun x : kv => past e x.1 = true) es) Hrest)
      as (bs' & kvss' & Eb & HB).
    + simpl in Hlen. lia.
    + unfold A. rewrite <- app_assoc, <- (cut_at e es Hr Hines). done.
    + by apply (cut_next e left).
    + rewrite Eb. cbn [mbind option_bind]. exists (bs ++ bs'), (kvss ++ kvss'). split; [done|].
      apply splits_result_app; [by apply cut_apart|done|done].
Qed.
End Layer1.

(** ** Lemmas: the merged entries *)

(** What the compaction reads. *)
Definition picked (cd : compactDef) : list kv := concat (entries <$> (top cd ++ bot cd)).

Lemma elem_of_entries x (l : list Table) :
  x ∈ concat (entries <$> l) <-> exists t, t ∈ l /\ x ∈ entries t.
Proof.
  rewrite elem_of_concat. split.
  - intros (es & (t & -> & Ht)%list_elem_of_fmap & Hx). by exists t.
  - intros (t & Ht & Hx). exists (entries t). split; [by apply list_elem_of_fmap_2|done].
Qed.

Lemma tables_concat_sorted (l : list Table) :
  Forall table_ok l -> StronglySorted table_before l -> kvs_sorted (concat (entries <$> l)).
Proof.
  intros Hok Hs. induction Hs as [|t l Hs IH Ht]; [constructor|].
  apply Forall_cons in Hok as [Hokt Hok]. rewrite fmap_cons. cbn [concat]. apply StronglySorted_app.
  split_and!; [|apply Hokt|by apply IH]. intros x y Hx (t' & Ht' & Hy)%elem_of_entries.
  rewrite Forall_forall in Ht, Hok. apply (cmp_le_lt_trans compareKeys _ (Biggest t)); [by apply table_biggest|].
  apply (cmp_lt_le_trans compareKeys _ (Smallest t')); [by apply Ht|].
  apply table_smallest; [by apply Hok|done].
Qed.

Lemma merge_all_elem ess x : Forall (run_sorted false) ess -> one_value (concat ess) ->
  x ∈ merge_all false ess <-> x ∈ concat ess.
Proof.
  induction 1 as [|es ess Hs Hss IH]; intros H1v; [done|]. cbn [merge_all foldr concat] in *.
  assert (one_value (concat ess)) as H1v' by (intros k v v' Hv Hv'; apply (H1v k); apply elem_of_app; by right).
  change (foldr (merge_runs false) [] ess) with (merge_all false ess).
  rewrite merge_elem, IH, elem_of_app by (done || by apply merge_all_sorted). split; [tauto|].
  intros [Hx|Hx]; [by left|]. destruct (decide (Exists (fun y : kv => y.1 = x.1) es)) as [He|He].
  - left. apply Exists_exists in He as ([k v] & Hy & E). destruct x as [kx vx]. cbn in E. subst k.
    rewrite (H1v kx vx v); [done|apply elem_of_app; by right|apply elem_of_app; by left].
  - right. split; [done|]. intros y Hy E. apply He, Exists_exists. by exists y.
Qed.

Lemma newIterator_spec lev (tp bt : list Table) :
  Forall table_ok tp -> Forall table_ok bt -> StronglySorted table_before bt ->
  (lev = 0%nat \/ (length tp <= 1)%nat) ->
  exists iters, newIterator lev tp bt = Some iters /\ Forall (run_sorted false) iters /\
    forall x, x ∈ concat iters <-> x ∈ concat (entries <$> (tp ++ bt)).
Proof.
  intros Htp Hbt Hs Hlev. unfold newIterator.
  assert (run_sorted false (concat (entries <$> bt))) as Hb by (by apply tables_concat_sorted).
  assert (exists it, (if bool_decide (lev = 0%nat) then Some (appendIteratorsReversed [] tp)
     else match tp with [] => Some [] | [t] => Some [entries t] | _ => None end) = Some it /\
     Forall (run_sorted false) it /\ forall x, x ∈ concat it <-> x ∈ concat (entries <$> tp)) as (it & -> & Hit & Hin).
  { case_bool_decide as E.
    - eexists. split; [done|]. unfold appendIteratorsReversed. cbn [app]. split.
      + apply Forall_fmap, Forall_reverse. eapply Forall_impl; [exact Htp|]. intros t Ht. apply Ht.
      + intros x. rewrite !elem_of_entries. by setoid_rewrite elem_of_reverse.
    - destruct Hlev as [|Hlen]; [done|]. destruct tp as [|t [|]]; [by exists []| |simpl in Hlen; lia].
      exists [entries t]. split_and!; [done| |done]. constructor; [|constructor].
      apply Forall_cons in Htp as [Ht _]. apply Ht. }
  cbn [mbind option_bind]. eexists. split; [done|]. split; [apply Forall_app; split; [done|by constructor]|].
  intros x. rewrite concat_app, fmap_app, concat_app, !elem_of_app, Hin. cbn [concat]. by rewrite app_nil_r.
Qed.

Section Create.
Context `{C : ChecksumCodec} `{!ChecksumCodecLaws C} `{I : IndexCodec} `{!IndexCodecLaws I}.

(** The file of a builder fits the 32-bit fields that describe it. *)
Definition buildable (be : buildEnv) (b : Builder) : Prop :=
  finish_ok b (be_bloom be b) /\
  forall n, be_bloom be b = Some n -> u32 (filter_bits (len (keyHashes b)) n) <> 0.

Lemma create_tables_ok be created bs : forall kvss ids,
  Forall2 builder_repr bs kvss -> Forall (fun l => l <> []) kvss -> Forall (Forall kv_small) kvss ->
  Forall kvs_sorted kvss -> Forall (buildable be) bs -> (length bs <= length ids)%nat ->
  exists ts, create_tables be bs ids created = Ok ts /\ Forall table_ok ts /\
    (entries <$> ts) = (fun kvs => read_back <$> kvs) <$> kvss /\ (ID <$> ts) = take (length bs) ids.
Proof.
  induction bs as [|b bs IH]; intros kvss ids Hr Hne Hsm Hs Hb Hlen.
  { apply Forall2_nil_inv_l in Hr as ->. exists []. by split_and!. }
  apply Forall2_cons_inv_l in Hr as (kvs & kvss' & Hr & Hrs & ->).
  apply Forall_cons in Hne as [Hne Hnes], Hsm as [Hsm Hsms], Hs as [Hs Hss], Hb as [[Hfin Hbits] Hbs].
  destruct ids as [|id ids]; [simpl in Hlen; lia|]. cbn [create_tables length] in *.
  destruct (CreateTable_ok b kvs (be_bloom be b) (be_verify_open be) (be_verify_block be) id created)
    as (t & -> & Ht & Een & Eid); try done.
  { intros n En. specialize (Hbits n En). rewrite (bd_hashes b kvs Hr) in Hbits. unfold len in *.
    by rewrite length_fmap in Hbits. }
  destruct (IH kvss' ids Hrs Hnes Hsms Hss Hbs ltac:(lia)) as (ts & E & Hts & Ees & Eids).
  cbn [mbind result_bind]. rewrite E. cbn [mbind result_bind]. exists (t :: ts). split; [done|].
  rewrite !fmap_cons, Een, Ees, Eid, Eids. split_and!; [by constructor|done|done].
Qed.
End Create.

(** ** Lemmas: what is not picked *)

Definition holds (levels : list levelHandler) (i : nat) (t : Table) : Prop :=
  exists h, levels !! i = Some h /\ t ∈ tables h.

(** A table of level [i] that the compaction does not remove. *)
Definition unpicked (cd : compactDef) (i : nat) (t : Table) : Prop :=
  (i = thisLevel cd -> kept (top cd) t) /\ (i = nextLevel cd -> kept (bot cd) t).

#[export] Instance unpicked_dec cd i t : Decision (unpicked cd i t).
Proof. unfold unpicked. apply _. Defined.

Definition outside (cd : compactDef) (levels : list levelHandler) : list kv :=
  concat (imap (fun i h => concat (entries <$> filter (unpicked cd i) (tables h))) levels).

Lemma elem_of_outside x cd levels :
  x ∈ outside cd levels <-> exists i t, holds levels i t /\ unpicked cd i t /\ x ∈ entries t.
Proof.
  unfold outside, holds. rewrite elem_of_concat. split.
  - intros (es & (i & Hi)%list_elem_of_lookup & Hx). rewrite list_lookup_imap in Hi.
    apply fmap_Some in Hi as (h & Hh & ->). apply elem_of_entries in Hx as (t & Ht & Hx).
    apply list_elem_of_filter in Ht as [Hu Ht]. exists i, t. eauto.
  - intros (i & t & (h & Hh & Ht) & Hu & Hx).
    exists (concat (entries <$> filter (unpicked cd i) (tables h))). split.
    + apply list_elem_of_lookup. exists i. by rewrite list_lookup_imap, Hh.
    + apply elem_of_entries. exists t. by rewrite list_elem_of_filter.
Qed.

Lemma elem_of_all_entries x levels :
  x ∈ all_entries levels <-> exists i t, holds levels i t /\ x ∈ entries t.
Proof.
  unfold all_entries, holds, level_entries. rewrite elem_of_concat. split.
  - intros (es & (h & -> & Hh)%list_elem_of_fmap & (t & Ht & Hx)%elem_of_entries).
    apply list_elem_of_lookup in Hh as [i Hi]. exists i, t. eauto.
  - intros (i & t & (h & Hh & Ht) & Hx). eexists. split; [|apply elem_of_entries; by exists t].
    apply (list_elem_of_fmap_2 (fun h => concat (entries <$> tables h))). by eapply list_elem_of_lookup_2.
Qed.

(** The range of some tables has every version of their user keys. *)
Lemma range_version l r t x y :
  getKeyRange l = Some r -> Forall table_ok l -> t ∈ l -> x ∈ entries t ->
  has_ts y -> ukey x.1 = ukey y -> in_range r y.
Proof.
  intros Er Hok Ht Hx Hy Eu.
  destruct (getKeyRange_spec l Hok) as (r' & Er' & Hp & Hw & (ts & _ & El) & (tb & _ & Eb));
    [intros ->; by apply elem_of_nil in Ht|].
  rewrite Er in Er'. injection Er' as <-. rewrite Forall_forall in Hw, Hok.
  destruct (Hw t Ht) as [[Hlo _] [_ Hhi]]. specialize (Hok t Ht).
  pose proof (cmp_le_trans compareKeys _ _ _ Hlo (table_smallest t x Hok Hx)) as H1.
  pose proof (cmp_le_trans compareKeys _ _ _ (table_biggest t x Hok Hx) Hhi) as H2.
  destruct Hok as [[Hwf _] _ _]. rewrite Forall_forall in Hwf. destruct (Hwf x Hx) as [Hxt _].
  destruct (has_ts_eta x.1 Hxt) as (k & v & E & Hv), (has_ts_eta y Hy) as (k' & v' & -> & Hv').
  rewrite E in *. unfold ukey in Eu. rewrite !split_KeyWithTs in Eu. cbn in Eu. subst k'.
  rewrite El, Eb in *. unfold in_range. rewrite El, Eb.
  rewrite !compareKeys_KeyWithTs in * by (unfold MaxUint64 in *; lia).
  split; [destruct (bytes_Compare _ k)|destruct (bytes_Compare k _)]; try done;
    rewrite Z.compare_gt_iff in *; lia.
Qed.

Lemma overlap_loop_false kr lev levels : forall i,
  overlap_loop levels i lev kr = false -> forall j h, levels !! j = Some h -> (lev <= i + j)%nat ->
  let '(l, r) := overlappingTables h (kr_left kr) (kr_right kr) in (r - l = 0)%nat.
Proof.
  induction levels as [|h levels IH]; intros i H j h' Hj Hlev; [done|]. cbn [overlap_loop] in H.
  case_bool_decide as E.
  - destruct j as [|j]; [lia|]. apply (IH (S i) H j h' Hj). lia.
  - destruct (overlappingTables h _ _) as [l r] eqn:Eo. case_bool_decide as E2; [done|].
    destruct j as [|j]; [|apply (IH (S i) H j h' Hj); lia].
    cbn in Hj. injection Hj as <-. rewrite Eo. lia.
Qed.

(** No table of the levels from [lev] on has a user key of the tables [l]. *)
Lemma checkOverlap_apart s l lev i h t x t' y :
  checkOverlap s l lev = Some false -> Forall table_ok l -> (lev <= i)%nat ->
  lc_levels s !! i = Some h -> level_ok h -> level h <> 0 -> t' ∈ tables h -> y ∈ entries t' ->
  t ∈ l -> x ∈ entries t -> ukey x.1 <> ukey y.1.
Proof.
  unfold checkOverlap. intros Hov Hok Hlev Hi Hh Hl0 Ht' Hy Ht Hx Eu.
  destruct (getKeyRange l) as [r|] eqn:Er; [|done]. cbn in Hov. injection Hov as Hov.
  pose proof (overlap_loop_false r lev _ 0 Hov i h Hi ltac:(lia)) as Hz.
  destruct (getKeyRange_spec l Hok) as (r' & Er' & Hp & _); [intros ->; by apply elem_of_nil in Ht|].
  rewrite Er in Er'. injection Er' as <-.
  destruct Hh as [Htok Hs _ _]. specialize (Hs Hl0).
  pose proof (overlappingTables_spec h (kr_left r) (kr_right r) Htok Hs (krp_left r Hp) (krp_right r Hp) (krp_le r Hp)) as H.
  destruct (overlappingTables h _ _) as [a b]. destruct H as [Hab Hin].
  apply list_elem_of_lookup in Ht' as [j Hj].
  assert (table_ok t') as Hokt' by (by apply (proj1 (Forall_lookup _ _) Htok j)).
  assert (has_ts y.1) as Hyt.
  { destruct Hokt' as [[Hwf _] _ _]. rewrite Forall_forall in Hwf. by apply Hwf. }
  destruct (range_version l r t x y.1 Er Hok Ht Hx Hyt Eu) as [H1 H2].
  assert (a <= j < b)%nat; [|lia]. apply (Hin j t' Hj). split.
  - apply (cmp_le_trans compareKeys _ _ _ H1). by apply table_biggest.
  - apply (cmp_le_trans compareKeys _ y.1); [by apply table_smallest|done].
Qed.

(** ** Lemmas: swapping the tables *)

Definition levels_ok (levels : list levelHandler) : Prop :=
  forall i h, levels !! i = Some h -> level h = Z.of_nat i /\ level_ok h.

Lemma levels_ok_Forall levels : levels_ok levels ->
  Forall level_ok levels /\ Forall (fun h => 0 <= level h) levels.
Proof.
  intros H. split; apply Forall_lookup; intros i h Hi; destruct (H i h Hi) as [E Hh]; [done|lia].
Qed.

(** The level the tables go to, after the swap. *)
Lemma swap_next levels cd new h :
  levels !! nextLevel cd = Some h ->
  swap_tables levels cd new !! nextLevel cd
  = Some (if decide (thisLevel cd = nextLevel cd) then deleteTables (replaceTables h (bot cd) new) (top cd)
          else replaceTables h (bot cd) new).
Proof.
  intros Hh. unfold swap_tables. case_decide as E.
  - by rewrite E, !list_lookup_alter_eq, Hh.
  - by rewrite list_lookup_alter_ne, list_lookup_alter_eq, Hh.
Qed.

Lemma swap_other levels cd new i :
  i <> nextLevel cd ->
  swap_tables levels cd new !! i
  = (if decide (i = thisLevel cd) then fun h => deleteTables h (top cd) else id) <$> levels !! i.
Proof.
  intros Hne. unfold swap_tables. case_decide as E.
  - subst i. by rewrite list_lookup_alter_eq, list_lookup_alter_ne.
  - rewrite !list_lookup_alter_ne by done. by destruct (levels !! i).
Qed.

Lemma swap_tables_ok levels cd new :
  levels_ok levels -> is_Some (levels !! nextLevel cd) -> Forall table_ok new ->
  (nextLevel cd <> 0%nat -> ForallOrdPairs tables_disjoint new) ->
  (nextLevel cd <> 0%nat -> forall t t', holds levels (nextLevel cd) t -> unpicked cd (nextLevel cd) t ->
     t' ∈ new -> tables_disjoint t t') ->
  NoDup (ID <$> new) ->
  (forall t t', holds levels (nextLevel cd) t -> t' ∈ new -> ID t <> ID t') ->
  Forall (kept (top cd)) new ->
  levels_ok (swap_tables levels cd new) /\
  forall i t, holds (swap_tables levels cd new) i t <->
    (holds levels i t /\ unpicked cd i t) \/ (i = nextLevel cd /\ t ∈ new).
Proof.
  intros Hok [hn Hn] Hnew Hdis Hcross Hnd Hfresh Hkept.
  destruct (Hok _ hn Hn) as [El Hokn].
  assert (exists h', swap_tables levels cd new !! nextLevel cd = Some h' /\ level h' = level hn /\ level_ok h' /\
    forall t, t ∈ tables h' <-> (t ∈ tables hn /\ unpicked cd (nextLevel cd) t) \/ t ∈ new)
    as (h' & Hh' & El' & Hok' & Hin').
  { rewrite (swap_next levels cd new hn Hn). eexists. split; [done|].
    assert (forall t, t ∈ tables hn -> holds levels (nextLevel cd) t) as Hh by (intros t Ht; by exists hn).
    destruct (replaceTables_spec hn (bot cd) new) as (Hl & _). unfold unpicked in *. case_decide as E.
    - destruct (replace_delete_wf hn (bot cd) new (top cd)) as [H1 H2]; try done.
      { intros Hl'. apply Hdis. lia. }
      { intros Hl' t t' Ht Hk Hk' Ht'. apply Hcross; [lia|auto|split; auto|done]. }
      { intros t t' Ht. apply Hfresh. auto. }
      split; [|split; [done|]]; [unfold deleteTables; by rewrite (proj1 (drop_tables_spec _ _))|].
      intros t. rewrite H2, E. naive_solver.
    - destruct (replaceTables_wf hn (bot cd) new) as [H1 H2]; try done.
      { intros Hl'. apply Hdis. lia. }
      { intros Hl' t t' Ht Hk Ht'. apply Hcross; [lia|auto|split; [by intros E2; destruct E|auto]|done]. }
      { intros t t' Ht. apply Hfresh. auto. }
      split; [done|split; [done|]]. intros t. rewrite H2. naive_solver. }
  split.
  - intros i h. destruct (decide (i = nextLevel cd)) as [->|Hne].
    + rewrite Hh'. intros [= <-]. split; [by rewrite El'|done].
    + rewrite (swap_other levels cd new i Hne). intros (h0 & Hh0 & ->)%fmap_Some.
      destruct (Hok i h0 Hh0) as [E Hh0']. case_decide; [|done].
      split; [unfold deleteTables; by rewrite (proj1 (drop_tables_spec _ _))|by apply deleteTables_wf].
  - intros i t. unfold holds. destruct (decide (i = nextLevel cd)) as [->|Hne].
    + rewrite Hh', Hn. split.
      * intros (h & [= <-] & Ht). apply Hin' in Ht as [[Ht Hu]|Ht]; [left|by right]. split; [by exists hn|done].
      * intros Ht. exists h'. split; [done|]. apply Hin'.
        destruct Ht as [[(h & [= <-] & Ht) Hu]|[_ Ht]]; [by left|by right].
    + rewrite (swap_other levels cd new i Hne). split.
      * intros (h & (h0 & Hh0 & ->)%fmap_Some & Ht). left. case_decide as E.
        -- apply (proj2 (deleteTables_wf h0 (top cd) (proj2 (Hok i h0 Hh0)))) in Ht as [Ht Hk].
           split; [by exists h0|]. by split.
        -- split; [by exists h0|]. by split.
      * intros [[(h0 & Hh0 & Ht) [Hu _]]|[? _]]; [|done]. rewrite Hh0. eexists. split; [done|].
        case_decide as E; [|done]. apply (proj2 (deleteTables_wf h0 (top cd) (proj2 (Hok i h0 Hh0)))). auto.
Qed.

(** ** Lemmas: the new tables *)

Lemma concat_sorted_parts (kvss : list (list kv)) : kvs_sorted (concat kvss) ->
  Forall kvs_sorted kvss /\
  StronglySorted (fun l1 l2 => forall a b : kv, a ∈ l1 -> b ∈ l2 -> compareKeys a.1 b.1 = Lt) kvss.
Proof.
  induction kvss as [|l kvss IH]; cbn [concat]; [by split; constructor|].
  intros H. apply kvs_sorted_app in H as (H1 & H2 & H3). destruct (IH H2) as [Hs Hp].
  split; [by constructor|]. constructor; [done|]. apply Forall_forall. intros l' Hl' a b Ha Hb.
  apply H3; [done|]. apply elem_of_concat. by exists l'.
Qed.

Lemma tables_of_parts (ts : list Table) :
  Forall table_ok ts ->
  StronglySorted (fun l1 l2 => forall a b : kv, a ∈ l1 -> b ∈ l2 -> compareKeys a.1 b.1 = Lt) (entries <$> ts) ->
  StronglySorted table_before ts.
Proof.
  induction ts as [|t ts IH]; intros Hok Hs; [constructor|].
  apply Forall_cons in Hok as [Ht Hok]. rewrite fmap_cons in Hs. apply StronglySorted_cons in Hs as [Hx Hs].
  constructor; [by apply IH|]. apply Forall_forall. intros t' Ht'. rewrite Forall_forall in Hx; rewrite Forall_forall in Hok.
  destruct (table_biggest_in t Ht) as [v Hv], (table_smallest_in t' (Hok t' Ht')) as [v' Hv'].
  by apply (Hx (entries t') (list_elem_of_fmap_2 _ _ _ Ht') (Biggest t, v) (Smallest t', v')).
Qed.

Lemma sorted_before_disjoint (l : list Table) :
  StronglySorted table_before l -> ForallOrdPairs tables_disjoint l.
Proof.
  induction 1 as [|t l Hs IH Ht]; constructor; [|done]. eapply Forall_impl; [exact Ht|]. intros t' H. by left.
Qed.

(** An entry of the picked tables: as it is read from a file, and small enough to be written. *)
Definition stored_ok (x : kv) : Prop := kv_small x /\ ptr_ok x /\ entry_in x /\ read_back x = x.

#[export] Instance stored_ok_dec x : Decision (stored_ok x).
Proof. unfold stored_ok, ptr_ok, entry_in, key_ok. apply _. Defined.

Section Compacted.
Context `{C : ChecksumCodec} `{!ChecksumCodecLaws C} `{I : IndexCodec} `{!IndexCodecLaws I}.
Context (o : lsmOptions) (s : levelsController) (be : buildEnv) (lev : nat) (cd : compactDef)
  (reads : list (Z * (bytes -> Z))) (ids : list Z) (mems : list kv).

(** A compaction as [fillTables] and [addSplits] leave it, over a store where newer versions are
    above older ones: [co_gap] is that the picked tables of the next level are all those in the
    range of the compaction, [co_newer] that what is above the next level is newer than what is
    compacted away. *)
Record compaction_ok : Prop := {
  co_lev : thisLevel cd = lev;
  co_le : (thisLevel cd <= nextLevel cd)%nat;
  co_levels : levels_ok (lc_levels s);
  co_next : is_Some (lc_levels s !! nextLevel cd);
  co_top : forall t, t ∈ top cd -> holds (lc_levels s) (thisLevel cd) t;
  co_bot : forall t, t ∈ bot cd -> holds (lc_levels s) (nextLevel cd) t;
  co_one : lev = 0%nat \/ (length (top cd) <= 1)%nat;
  co_sorted : StronglySorted table_before (bot cd);
  co_nodrop : dropPrefixes cd = [];
  co_opts : exists sz, fileSz (cd_t cd) !! nextLevel cd = Some sz /\
    opts_ok (be_opts be sz) /\ capacity_ok (be_opts be sz);
  co_splits : exists left, splits_from left (splits cd) /\
    (left = [] \/ Forall (fun x => compareKeys x.1 left <> Lt) (picked cd));
  co_reads : (length (splits cd) <= length reads)%nat;
  co_entries : Forall stored_ok (picked cd);
  co_value : one_value (mems ++ all_entries (lc_levels s));
  co_gap : nextLevel cd <> 0%nat ->
    forall t, holds (lc_levels s) (nextLevel cd) t -> unpicked cd (nextLevel cd) t ->
    Forall (fun x => compareKeys x.1 (Smallest t) = Lt) (picked cd) \/
    Forall (fun x => compareKeys (Biggest t) x.1 = Lt) (picked cd);
  co_newer : forall k v0 vs0 v vs rd, (KeyWithTs k v0, vs0) ∈ picked cd ->
    rd ∈ reads -> v0 <= rd.1 -> 0 < v <= MaxUint64 ->
    ((KeyWithTs k v, vs) ∈ mems \/
     exists i t, (i <= nextLevel cd)%nat /\ holds (lc_levels s) i t /\ unpicked cd i t /\
       (KeyWithTs k v, vs) ∈ entries t) -> v0 < v;
  co_ids : NoDup ids;
  co_fresh : forall i t, holds (lc_levels s) i t -> ID t ∉ ids;
  co_build : forall sz iters bs, fileSz (cd_t cd) !! nextLevel cd = Some sz ->
    newIterator lev (top cd) (bot cd) = Some iters ->
    build_splits o s cd be (be_opts be sz) (merge_all false iters) (splits cd) reads = Some bs ->
    Forall (buildable be) bs /\ (length bs <= length ids)%nat
}.

Context (H : compaction_ok).

Lemma holds_table_ok i t : holds (lc_levels s) i t -> table_ok t.
Proof using H.
  intros (h & Hh & Ht). destruct (co_levels H i h Hh) as [_ [Hok _ _ _]].
  by apply (proj1 (Forall_forall _ _) Hok).
Qed.

Lemma picked_tables_ok : Forall table_ok (top cd) /\ Forall table_ok (bot cd).
Proof using H.
  split; apply Forall_forall; intros t Ht; eapply holds_table_ok; [by apply (co_top H)|by apply (co_bot H)].
Qed.

Lemma picked_held x : x ∈ picked cd -> x ∈ all_entries (lc_levels s).
Proof using H.
  intros (t & Ht & Hx)%elem_of_entries. apply elem_of_all_entries.
  apply elem_of_app in Ht as [Ht|Ht]; eexists _, t; (split; [|done]);
    [by apply (co_top H)|by apply (co_bot H)].
Qed.

(** The entries that are merged. *)
Lemma compaction_input : exists iters, newIterator lev (top cd) (bot cd) = Some iters /\
  sub_input (merge_all false iters) /\ forall x, x ∈ merge_all false iters <-> x ∈ picked cd.
Proof using H.
  destruct picked_tables_ok as [Htop Hbot].
  destruct (newIterator_spec lev (top cd) (bot cd) Htop Hbot (co_sorted H) (co_one H)) as (iters & E & Hs & Hin).
  exists iters. split; [done|].
  assert (forall x, x ∈ merge_all false iters <-> x ∈ picked cd) as Hes.
  { intros x. rewrite merge_all_elem; [apply Hin|done|]. intros k v v' Hv%Hin Hv'%Hin.
    apply (co_value H k); apply elem_of_app; right; by apply picked_held. }
  split; [|done]. pose proof (co_entries H) as He.
  assert (Forall stored_ok (merge_all false iters)) as Hst.
  { rewrite Forall_forall in *. intros x Hx. by apply He, Hes. }
  split; [by apply (merge_all_sorted false)|..]; (eapply Forall_impl; [exact Hst|]); intros x Hx; apply Hx.
Qed.

(** What [compactBuildTables] gives. *)
Record built_ok (ho : bool) (new : list Table) : Prop := {
  bo_tables : Forall table_ok new;
  bo_apart : ForallOrdPairs tables_disjoint new;
  bo_ids : NoDup (ID <$> new);
  bo_from : forall t, t ∈ new -> ID t ∈ ids;
  bo_incl : forall x, x ∈ concat (entries <$> new) -> x ∈ picked cd;
  bo_gc : exists es, sub_input es /\ (forall x, x ∈ es <-> x ∈ picked cd) /\
    forall k, exists rd, rd ∈ reads /\ forall v vs, (KeyWithTs k v, vs) ∈ concat (entries <$> new) <->
      (KeyWithTs k v, vs) ∈ gc_key (gc_env o ho rd) 0 (of_key k es)
}.

Lemma compaction_built created :
  exists ho new, checkOverlap s (allTables cd) (S (nextLevel cd)) = Some ho /\
    compactBuildTables o s be lev cd reads ids created = Ok new /\ built_ok ho new.
Proof using All.
  destruct picked_tables_ok as [Htop Hbot].
  assert (exists ho, checkOverlap s (allTables cd) (S (nextLevel cd)) = Some ho) as [ho Hho].
  { unfold checkOverlap. destruct (decide (allTables cd = [])) as [->|Hne]; [by eexists|].
    destruct (getKeyRange_spec (allTables cd)) as (r & -> & _); [by apply Forall_app|done|by eexists]. }
  destruct compaction_input as (iters & Eit & Hin & Hes). set (es := merge_all false iters) in *.
  destruct (co_opts H) as (sz & Esz & Hopts & Hcap). destruct (co_splits H) as (left & Hsp & Hleft).
  destruct (build_splits_ok o s cd be (be_opts be sz) ho Hho (co_nodrop H) Hopts Hcap
    (splits cd) left reads [] es Hsp (co_reads H) Hin) as (bs & kvss & Ebs & [R1 R2 R3 R4 R5 R6]).
  { destruct Hleft as [->|Hl]; [by left|]. destruct left as [|b left]; [by left|right].
    split_and!; [done|constructor|]. rewrite Forall_forall in *. intros x Hx. by apply Hl, Hes. }
  cbn [app] in Ebs. destruct (co_build H sz iters bs Esz Eit Ebs) as [Hbuild Hlen].
  assert (forall l, l ∈ kvss -> forall x, x ∈ l -> x ∈ es) as Hsub.
  { intros l Hl x Hx. apply (elem_of_sublist (concat kvss)); [|done]. apply elem_of_concat. by exists l. }
  assert (Forall stored_ok es) as Hst.
  { pose proof (co_entries H) as He. rewrite Forall_forall in *. intros x Hx. by apply He, Hes. }
  destruct (concat_sorted_parts kvss) as [Hss Hpp].
  { apply (kvs_sorted_sublist _ es); [done|apply Hin]. }
  rewrite Forall_forall in Hst.
  destruct (create_tables_ok be created bs kvss ids R1 R3) as (ts & Ets & Hts & Een & Eids); try done.
  { rewrite Forall_forall. intros l Hl. rewrite Forall_forall. intros x Hx. by apply Hst, (Hsub l). }
  assert (entries <$> ts = kvss) as Ekv.
  { rewrite Een. clear -Hst Hsub. induction kvss as [|l kvss IH]; [done|]. rewrite fmap_cons. f_equal.
    - rewrite <- (list_fmap_id l) at 2. apply list_fmap_ext. intros i x Hx%list_elem_of_lookup_2.
      apply Hst. apply (Hsub l); [by left|done].
    - apply IH. intros l' Hl'. apply Hsub. by right. }
  exists ho, (sort_by_biggest ts). split; [done|].
  assert (sort_by_biggest ts ≡ₚ ts) as Hp by apply sort_by_Permutation. split.
  - unfold compactBuildTables. rewrite (co_nodrop H), filter_id by (by apply Forall_forall).
    rewrite Eit. cbn [unpanic mbind result_bind]. rewrite Esz. cbn [unpanic mbind result_bind].
    fold es. rewrite Ebs. cbn [unpanic mbind result_bind]. by rewrite Ets.
  - assert (forall x, x ∈ concat (entries <$> sort_by_biggest ts) <-> x ∈ concat kvss) as Hall.
    { intros x. rewrite <- Ekv, !elem_of_entries. by setoid_rewrite Hp. }
    split.
    + by rewrite Hp.
    + apply (disjoint_Permutation ts); [by symmetry|]. apply sorted_before_disjoint, tables_of_parts; [done|].
      by rewrite Ekv.
    + rewrite (NoDup_Permutation_proper _ _ (fmap_Permutation ID _ _ Hp)), Eids.
      apply (sublist_NoDup _ ids); [apply (co_ids H)|apply sublist_take].
    + intros t Ht. rewrite Hp in Ht. apply (elem_of_sublist (take (length bs) ids)); [|apply sublist_take].
      rewrite <- Eids. by apply list_elem_of_fmap_2.
    + intros x Hx%Hall. apply Hes. by apply (elem_of_sublist (concat kvss)).
    + exists es. split_and!; [done|done|]. intros k. destruct (R6 k) as (rd & Hrd & Egc). exists rd.
      split; [done|]. intros v vs. by rewrite Hall, in_of_key, Egc.
Qed.

Lemma held_same_id i t t' :
  holds (lc_levels s) i t -> holds (lc_levels s) i t' -> ID t = ID t' -> t = t'.
Proof using H.
  intros (h & Hh & Ht) (h' & Hh' & Ht') E. rewrite Hh in Hh'. injection Hh' as <-.
  destruct (co_levels H i h Hh) as [_ [_ _ Hnd _]].
  apply list_elem_of_lookup in Ht as [a Ha], Ht' as [b Hb].
  assert (a = b) as ->; [|congruence].
  eapply (NoDup_lookup _ _ _ (ID t) Hnd); rewrite list_lookup_fmap, ?Ha, ?Hb; simpl; congruence.
Qed.

Lemma all_entries_split x :
  x ∈ all_entries (lc_levels s) <-> x ∈ picked cd \/ x ∈ outside cd (lc_levels s).
Proof using H.
  split; [|intros [Hx|Hx]; [by apply picked_held|]].
  - intros (i & t & Ht & Hx)%elem_of_all_entries.
    destruct (decide (unpicked cd i t)) as [Hu|Hu].
    { right. apply elem_of_outside. eauto. }
    left. apply elem_of_entries. exists t. split; [|done]. apply elem_of_app. unfold unpicked, kept in Hu.
    destruct (decide (i = thisLevel cd /\ ID t ∈ ID <$> top cd)) as [[-> Hi]|Hn1].
    { left. apply list_elem_of_fmap in Hi as (t' & E & Ht'). rewrite (held_same_id (thisLevel cd) t t'); try done.
      by apply (co_top H). }
    destruct (decide (i = nextLevel cd /\ ID t ∈ ID <$> bot cd)) as [[-> Hi]|Hn2].
    { right. apply list_elem_of_fmap in Hi as (t' & E & Ht'). rewrite (held_same_id (nextLevel cd) t t'); try done.
      by apply (co_bot H). }
    exfalso. apply Hu. split; intros E Hi; [by apply Hn1|by apply Hn2].
  - apply elem_of_outside in Hx as (i & t & Ht & _ & Hx). apply elem_of_all_entries. eauto.
Qed.

Lemma compaction_swap ho new : built_ok ho new ->
  levels_ok (swap_tables (lc_levels s) cd new) /\
  forall i t, holds (swap_tables (lc_levels s) cd new) i t <->
    (holds (lc_levels s) i t /\ unpicked cd i t) \/ (i = nextLevel cd /\ t ∈ new).
Proof using H.
  intros [B1 B2 B3 B4 B5 _].
  apply (swap_tables_ok (lc_levels s) cd new (co_levels H) (co_next H) B1); try done.
  - intros Hl t t' Ht Hu Ht'. destruct (co_gap H Hl t Ht Hu) as [Hp|Hp]; rewrite Forall_forall in Hp; rewrite Forall_forall in B1.
    + right. destruct (table_biggest_in t' (B1 t' Ht')) as [v Hv].
      apply (Hp (Biggest t', v)), B5, elem_of_entries. by exists t'.
    + left. destruct (table_smallest_in t' (B1 t' Ht')) as [v Hv].
      apply (Hp (Smallest t', v)), B5, elem_of_entries. by exists t'.
  - intros t t' Ht Ht' E. apply (co_fresh H _ t Ht). rewrite E. by apply B4.
  - apply Forall_forall. intros t Ht (t' & E & Ht')%list_elem_of_fmap.
    apply (co_fresh H (thisLevel cd) t'); [by apply (co_top H)|]. rewrite <- E. by apply B4.
Qed.

Lemma compaction_swapped ho new : built_ok ho new ->
  forall x, x ∈ all_entries (swap_tables (lc_levels s) cd new) <->
    x ∈ concat (entries <$> new) \/ x ∈ outside cd (lc_levels s).
Proof using H.
  intros Hb x. destruct (compaction_swap ho new Hb) as [_ Hin].
  rewrite elem_of_all_entries, elem_of_outside, elem_of_entries. setoid_rewrite Hin. split.
  - intros (i & t & [[Ht Hu]|[-> Ht]] & Hx); [right; eauto|left; eauto].
  - intros [(t & Ht & Hx)|(i & t & Ht & Hu & Hx)]; [exists (nextLevel cd), t; auto|exists i, t; auto].
Qed.

(** What was compacted away hides nothing that is left. *)
Lemma compaction_rest ho (es : list kv) rd : checkOverlap s (allTables cd) (S (nextLevel cd)) = Some ho ->
  rd ∈ reads -> (forall x, x ∈ es <-> x ∈ picked cd) -> ho = false ->
  forall k v0 vs0 v vs, (KeyWithTs k v0, vs0) ∈ es -> v0 <= rd.1 ->
  (KeyWithTs k v, vs) ∈ mems ++ outside cd (lc_levels s) -> 0 < v <= MaxUint64 -> v0 < v.
Proof using H.
  intros Hov Hrd Hes -> k v0 vs0 v vs Hin0 Hv0 Hin Hv. apply Hes in Hin0.
  apply (co_newer H k v0 vs0 v vs rd Hin0 Hrd Hv0 Hv).
  apply elem_of_app in Hin as [Hin|(i & t & Ht & Hu & Hin)%elem_of_outside]; [by left|right].
  exists i, t. split_and!; try done. destruct (decide (i <= nextLevel cd)%nat) as [|Hgt]; [done|exfalso].
  destruct picked_tables_ok as [Htop Hbot]. destruct Ht as (h & Hh & Ht).
  destruct (co_levels H i h Hh) as [El Hok]. apply elem_of_entries in Hin0 as (t0 & Ht0 & Hin0).
  apply (checkOverlap_apart s (allTables cd) (S (nextLevel cd)) i h t0 (KeyWithTs k v0, vs0) t (KeyWithTs k v, vs)
    Hov); try done; [by apply Forall_app|lia|lia|].
  unfold ukey. cbn [fst]. by rewrite !split_KeyWithTs.
Qed.

Lemma compaction_newest ho new k ts now r r' :
  checkOverlap s (allTables cd) (S (nextLevel cd)) = Some ho -> built_ok ho new ->
  (forall rd, rd ∈ reads -> rd.1 <= ts /\ forall key, 0 <= rd.2 key <= now) -> now < 2 ^ 64 ->
  k <> [] -> ts <= MaxUint64 ->
  newest (mems ++ all_entries (lc_levels s)) k ts r ->
  newest (mems ++ all_entries (swap_tables (lc_levels s) cd new)) k ts r' ->
  visible now r = visible now r'.
Proof using H.
  intros Hov Hb Hreads Hnow Hk Hts Hr Hr'.
  pose proof (compaction_swapped ho new Hb) as Hin'. destruct (bo_gc _ _ Hb) as (es & Hes & Hpk & Hgc).
  destruct (Hgc k) as (rd & Hrd & Hk').
  assert (forall x, x ∈ mems ++ all_entries (lc_levels s) <-> x ∈ es ++ mems ++ outside cd (lc_levels s)) as Hx.
  { intros x. rewrite !elem_of_app, all_entries_split, Hpk. tauto. }
  assert (forall x, x ∈ mems ++ all_entries (swap_tables (lc_levels s) cd new)
    <-> x ∈ concat (entries <$> new) ++ mems ++ outside cd (lc_levels s)) as Hx'.
  { intros x. rewrite !elem_of_app, Hin'. tauto. }
  apply (newest_ext _ _ k ts r Hx) in Hr. apply (newest_ext _ _ k ts r' Hx') in Hr'.
  destruct (Hreads rd Hrd) as [Hd Hclk].
  apply (gc_newest (gc_env o ho rd) es (concat (entries <$> new)) (mems ++ outside cd (lc_levels s)) k ts now); try done.
  - apply Hes.
  - eapply Forall_impl; [apply (si_in es Hes)|]. by intros x [Hx0 _].
  - intros key vs vs' Hv Hv'. apply (co_value H key); by apply Hx.
  - intros Ho v0 vs0 v vs Hin0 Hv0. by apply (compaction_rest ho es rd Hov Hrd Hpk Ho k v0 vs0 v vs).
Qed.
End Compacted.

(** ** Lemmas: the splits *)

Lemma splits_loop_from width l : forall i skr, l <> [] -> Forall table_ok l -> StronglySorted table_before l ->
  Forall (fun t => compareKeys (kr_left skr) (KeyWithTs (ParseKey (Biggest t)) 0) <> Gt) l ->
  splits_from (kr_left skr) (splits_loop width i l skr).
Proof.
  induction l as [|t l IH]; intros i skr Hne Hok Hs Hle; [done|]. cbn [splits_loop].
  case_bool_decide as El; [constructor|].
  apply Forall_cons in Hok as [Ht Hok], Hle as [Hlet Hle]. apply StronglySorted_cons in Hs as [Hx Hs].
  case_bool_decide as Em; [|by apply IH]. constructor; [by right|].
  set (r := KeyWithTs (ParseKey (Biggest t)) 0).
  apply (IH (S i) (mkKR r r (kr_inf skr) (kr_size skr))); [done|done|done|]. cbn [kr_left]. subst r.
  rewrite Forall_forall in *. intros t' Ht'. specialize (Hok t' Ht'). specialize (Hx t' Ht').
  destruct (table_has_ts t Ht) as [_ Hb], (table_has_ts t' Hok) as [_ Hb'].
  assert (compareKeys (Biggest t) (Biggest t') = Lt) as Hlt
    by (eapply (cmp_lt_le_trans compareKeys); [exact Hx|by apply table_range]).
  destruct (has_ts_eta _ Hb) as (k & v & Ek & Hv), (has_ts_eta _ Hb') as (k' & v' & Ek' & Hv').
  rewrite Ek, Ek' in Hlt. rewrite Ek, Ek', !ParseKey_KeyWithTs.
  rewrite compareKeys_KeyWithTs in Hlt |- * by (unfold MaxUint64 in *; lia).
  by destruct (bytes_Compare k k').
Qed.

(** The ranges of a compaction have its tables. *)
Record ranges_ok (cd : compactDef) : Prop := {
  ro_this : kr_proper (thisRange cd);
  ro_next : kr_proper (nextRange cd);
  ro_top : Forall (within (thisRange cd)) (top cd);
  ro_bot : Forall (within (nextRange cd)) (bot cd);
  ro_tables : Forall table_ok (top cd ++ bot cd);
  ro_sorted : StronglySorted table_before (bot cd)
}.

Lemma within_left r t : within r t -> table_ok t ->
  Forall (fun x : kv => compareKeys x.1 (kr_left r) <> Lt) (entries t).
Proof.
  intros [[Hlo _] _] Ht. apply Forall_forall. intros x Hx.
  apply (cmp_ge_not_lt compareKeys), (cmp_le_trans compareKeys _ _ _ Hlo). by apply table_smallest.
Qed.

(** What the splits start from has everything the compaction reads. *)
Lemma addSplits_from cd cd' : ranges_ok cd -> addSplits cd = Some cd' -> bot cd <> [] ->
  cd' = set_splits cd (splits cd') /\
  exists left, splits_from left (splits cd') /\ Forall (fun x => compareKeys x.1 left <> Lt) (picked cd).
Proof.
  intros [R1 R2 R3 R4 R5 R6] E Hne. unfold addSplits in E.
  destruct (extend_proper _ _ R1 R2) as (skr & Ex & Hp & H1 & H2 & _). rewrite Ex in E. cbn [mbind option_bind] in E.
  injection E as <-. split; [done|]. exists (kr_left skr). cbn [splits set_splits].
  assert (Forall (within skr) (top cd ++ bot cd)) as Hw.
  { apply Forall_app. split; (eapply Forall_impl; [eassumption|]); intros t [A B]; split; auto. }
  rewrite Forall_forall in Hw, R5. split.
  - apply splits_loop_from; [done| |done|].
    + apply Forall_forall. intros t Ht. apply R5, elem_of_app. by right.
    + apply Forall_forall. intros t Ht. assert (t ∈ top cd ++ bot cd) as Ht' by (apply elem_of_app; by right).
      destruct (Hw t Ht') as [_ [Hb _]]. destruct (table_has_ts t (R5 t Ht')) as [_ Hbt].
      apply (cmp_le_trans compareKeys _ _ _ Hb).
      apply (widen_le (Biggest t) (Biggest t)); [done|done|by rewrite (cmp_refl compareKeys)].
  - apply Forall_forall. intros x (t & Ht & Hx)%elem_of_entries.
    pose proof (within_left skr t (Hw t Ht) (R5 t Ht)) as Hl. rewrite Forall_forall in Hl. by apply Hl.
Qed.

Lemma plan_splits_ok cd cd' : ranges_ok cd -> splits cd = [] -> plan_splits cd = Some cd' ->
  cd' = set_splits cd (splits cd') /\
  exists left, splits_from left (splits cd') /\
    (left = [] \/ Forall (fun x => compareKeys x.1 left <> Lt) (picked cd)).
Proof.
  intros Hr Hs E. unfold plan_splits in E. case_bool_decide as El.
  - cbn [mbind option_bind] in E. rewrite bool_decide_eq_true_2 in E by done. injection E as <-.
    split; [done|]. exists []. split; [constructor|by left].
  - destruct (addSplits cd) as [cd1|] eqn:Ea; [|done]. cbn [mbind option_bind] in E. injection E as <-.
    destruct (decide (bot cd = [])) as [Hb|Hb].
    + unfold addSplits in Ea. destruct (extend _ _); [|done]. cbn [mbind option_bind] in Ea. injection Ea as <-.
      rewrite Hb. cbn [splits set_splits splits_loop]. rewrite bool_decide_eq_true_2 by done.
      split; [by destruct cd|]. exists []. split; [constructor|by left].
    + destruct (addSplits_from cd cd1 Hr Ea Hb) as (E1 & left & Hsp & Hl).
      rewrite bool_decide_eq_false_2 by (intros E2; rewrite E2 in Hsp; inversion Hsp).
      split; [done|]. exists left. auto.
Qed.

Lemma plan_splits_t cd cd' : plan_splits cd = Some cd' -> cd_t cd' = cd_t cd.
Proof.
  unfold plan_splits, addSplits. intros E.
  destruct (bool_decide (thisLevel cd = nextLevel cd)); [|destruct (extend _ _); [|done]];
    cbn [mbind option_bind] in E; injection E as <-; by case_bool_decide.
Qed.

(** A key is in a split. *)
Definition in_kr (kr : keyRange) (x : bytes) : Prop :=
  (kr_left kr = [] \/ compareKeys x (kr_left kr) <> Lt) /\
  (kr_right kr = [] \/ compareKeys x (kr_right kr) = Lt).

Lemma splits_below left krs kr x : splits_from left krs -> kr ∈ krs -> left <> [] ->
  compareKeys x left = Lt -> ~ in_kr kr x.
Proof.
  intros Hs. revert x. induction Hs as [left inf sz|left k inf sz krs Hk Hs IH]; intros x Hin Hne Hlt [H1 H2].
  - apply list_elem_of_singleton in Hin as ->. by destruct H1.
  - destruct Hk as [|Hk]; [done|]. apply elem_of_cons in Hin as [->|Hin]; [by destruct H1|].
    apply (IH x Hin); [|by eapply (cmp_lt_le_trans compareKeys)|by split].
    intros E. pose proof (KeyWithTs_has_ts k 0) as Hh. rewrite E in Hh. by vm_compute in Hh.
Qed.

Lemma splits_cover left krs x : splits_from left krs -> (left = [] \/ compareKeys x left <> Lt) ->
  exists i kr, krs !! i = Some kr /\ in_kr kr x /\ forall j kr', krs !! j = Some kr' -> in_kr kr' x -> j = i.
Proof.
  induction 1 as [left inf sz|left k inf sz krs Hk Hs IH]; intros Hx.
  - exists 0%nat, (mkKR left [] inf sz). split; [done|]. split; [split; [done|by left]|].
    intros [|j] kr' Hj; [done|]. by destruct j.
  - destruct (decide (compareKeys x (KeyWithTs k 0) = Lt)) as [Hlt|Hge].
    + exists 0%nat, (mkKR left (KeyWithTs k 0) inf sz). split; [done|]. split; [split; [done|by right]|].
      intros [|j] kr' Hj Hin; [done|exfalso]. cbn in Hj.
      apply (splits_below (KeyWithTs k 0) krs kr' x Hs); try done; [by eapply list_elem_of_lookup_2|].
      intros E. pose proof (KeyWithTs_has_ts k 0) as Hh. rewrite E in Hh. by vm_compute in Hh.
    + destruct (IH ltac:(by right)) as (i & kr & Hi & Hin & Hu). exists (S i), kr. split; [done|]. split; [done|].
      intros [|j] kr' Hj Hin'; [exfalso|f_equal; by apply (Hu j kr')]. cbn in Hj. injection Hj as <-.
      destruct Hin' as [_ [Hr|Hr]]; [|done]. cbn [kr_right] in Hr.
      pose proof (KeyWithTs_has_ts k 0) as Hh. rewrite Hr in Hh. by vm_compute in Hh.
Qed.

Lemma zero_ukey x k : key_ok x -> 0 < ParseTs x ->
  compareKeys x (KeyWithTs k 0) = Lt <-> bytes_Compare (ukey x) k <> Gt.
Proof.
  intros Hk Hp. destruct (has_ts_eta x (key_ok_ts x Hk)) as (k' & v & -> & Hv).
  unfold ukey. rewrite split_KeyWithTs. cbn [fst]. rewrite compareKeys_KeyWithTs by (unfold MaxUint64 in *; lia).
  assert (k' <> []) as Hne.
  { intros ->. unfold key_ok, len in Hk. rewrite KeyWithTs_length in Hk. cbn in Hk. lia. }
  rewrite ParseTs_KeyWithTs in Hp by done. destruct (bytes_Compare k' k); [|done|done].
  rewrite Z.compare_lt_iff. done.
Qed.

(** Two versions of a user key are in the same splits. *)
Lemma splits_same left krs kr x y : splits_from left krs ->
  (left = [] \/ (compareKeys x left <> Lt /\ compareKeys y left <> Lt)) ->
  key_ok x -> 0 < ParseTs x -> key_ok y -> 0 < ParseTs y -> ukey x = ukey y ->
  kr ∈ krs -> in_kr kr x -> in_kr kr y.
Proof.
  intros Hs Hl Hx Hpx Hy Hpy E. revert Hl. induction Hs as [left inf sz|left k inf sz krs Hk Hs IH]; intros Hl Hin Hkr.
  - apply list_elem_of_singleton in Hin as ->. split; [cbn; tauto|by left].
  - apply elem_of_cons in Hin as [->|Hin].
    + destruct Hkr as [_ [H2|H2]]; cbn [kr_right] in H2.
      { pose proof (KeyWithTs_has_ts k 0) as Hh. rewrite H2 in Hh. by vm_compute in Hh. }
      split; [cbn; tauto|right]. cbn [kr_right]. apply (zero_ukey y k Hy Hpy). rewrite <- E.
      by apply (zero_ukey x k Hx Hpx).
    + apply IH; [|done|done]. right.
      assert (compareKeys x (KeyWithTs k 0) <> Lt) as Hge.
      { intros Hlt. apply (splits_below (KeyWithTs k 0) krs kr x Hs Hin); [|done|done].
        intros E2. pose proof (KeyWithTs_has_ts k 0) as Hh. rewrite E2 in Hh. by vm_compute in Hh. }
      split; [done|]. intros Hlt. apply Hge, (zero_ukey x k Hx Hpx). rewrite E. by apply (zero_ukey y k Hy Hpy).
Qed.

(** ** Lemmas: the manifest follows the levels *)

(** The manifest has the tables of the levels, each in its level. *)
Definition agrees (levels : list levelHandler) (ts : gmap Z TableManifest) : Prop :=
  forall id i, (exists tm, ts !! id = Some tm /\ tm_Level tm = Z.of_nat i) <->
               (exists t, holds levels i t /\ ID t = id).

Lemma tables_after_app ts l1 l2 : tables_after ts (l1 ++ l2) = (ts' ← tables_after ts l1; tables_after ts' l2).
Proof.
  revert ts. induction l1 as [|tc l1 IH]; intros ts; [done|]. cbn [app]. rewrite !tables_after_cons.
  destruct (tables_step ts tc); [|done]. apply IH.
Qed.

Lemma creates_after (lv : Z) (l : list Table) : forall ts, 0 <= lv < 256 -> NoDup (ID <$> l) ->
  (forall t, t ∈ l -> ts !! ID t = None) ->
  exists ts', tables_after ts ((fun t => newCreateChange (ID t) lv (KeyID t) (CompressionType t)) <$> l) = Some ts' /\
    forall id, (id ∈ ID <$> l -> exists tm, ts' !! id = Some tm /\ tm_Level tm = lv) /\
               (id ∉ ID <$> l -> ts' !! id = ts !! id).
Proof.
  induction l as [|t l IH]; intros ts Hlv Hnd Hf.
  { exists ts. split; [done|]. intros id. split; [by intros ?%elem_of_nil|done]. }
  rewrite fmap_cons, NoDup_cons in Hnd. destruct Hnd as [Hn Hnd]. rewrite fmap_cons, tables_after_cons.
  assert (tables_step ts (newCreateChange (ID t) lv (KeyID t) (CompressionType t))
    = Some (<[ID t := mkTM (u8 (u32 lv)) (KeyID t) (CompressionType t)]> ts)) as ->.
  { unfold tables_step. cbn [newCreateChange mc_Op mc_Id mc_Level mc_KeyId mc_Compression].
    rewrite decide_True; [done|apply Hf; by left]. }
  cbn [mbind option_bind]. destruct (IH (<[ID t := mkTM (u8 (u32 lv)) (KeyID t) (CompressionType t)]> ts) Hlv Hnd) as (ts' & -> & Hts').
  { intros t' Ht'. rewrite lookup_insert_ne; [apply Hf; by right|].
    intros E. apply Hn. rewrite E. by apply list_elem_of_fmap_2. }
  exists ts'. split; [done|]. intros id. destruct (Hts' id) as [H1 H2]. rewrite fmap_cons, elem_of_cons. split.
  - intros [->|Hin]; [|by apply H1]. rewrite (H2 Hn), lookup_insert_eq. eexists. split; [done|].
    cbn. rewrite (wrap_small 32), (wrap_small 8); lia.
  - intros Hni. rewrite H2 by tauto. apply lookup_insert_ne. intros E. apply Hni. by left.
Qed.

Lemma deletes_after (l : list Table) : forall ts,
  exists ts', tables_after ts ((fun t => newDeleteChange (ID t)) <$> l) = Some ts' /\
    forall id, (id ∈ ID <$> l -> ts' !! id = None) /\ (id ∉ ID <$> l -> ts' !! id = ts !! id).
Proof.
  induction l as [|t l IH]; intros ts.
  { exists ts. split; [done|]. intros id. split; [by intros ?%elem_of_nil|done]. }
  rewrite !fmap_cons, tables_after_cons. cbn [tables_step newDeleteChange mc_Op mc_Id mbind option_bind].
  destruct (IH (delete (ID t) ts)) as (ts' & -> & Hts'). exists ts'. split; [done|].
  intros id. destruct (Hts' id) as [H1 H2]. rewrite elem_of_cons.
  destruct (decide (id ∈ ID <$> l)) as [Hin|Hin]; [split; [auto|tauto]|]. split.
  - intros [->|?]; [|done]. rewrite (H2 Hin). apply lookup_delete_eq.
  - intros Hni. rewrite (H2 Hin). apply lookup_delete_ne. intros E. apply Hni. by left.
Qed.

Lemma changes_ok cd new : (nextLevel cd < 256)%nat -> Forall change_ok (buildChangeSet cd new).
Proof.
  intros Hl. unfold buildChangeSet. rewrite !Forall_app. split; [|split]; apply Forall_fmap, Forall_forall;
    intros t _; unfold change_ok; cbn; [rewrite (wrap_small 32); lia|lia..].
Qed.

Section Agree.
Context (levels : list levelHandler) (cd : compactDef) (new : list Table) (ts : gmap Z TableManifest).
Context (Hag : agrees levels ts) (Hl : (nextLevel cd < 256)%nat) (Hnd : NoDup (ID <$> new))
  (Hfresh : forall i t t', holds levels i t -> t' ∈ new -> ID t <> ID t')
  (Htop : forall t, t ∈ top cd -> holds levels (thisLevel cd) t)
  (Hbot : forall t, t ∈ bot cd -> holds levels (nextLevel cd) t)
  (Hmem : Forall (fun t => IsInmemory t = false) (top cd))
  (Hlev : forall id tm, ts !! id = Some tm -> 0 <= tm_Level tm).

Lemma agrees_level i j t t' : holds levels i t -> holds levels j t' -> ID t = ID t' -> i = j.
Proof using Hag.
  intros Ht Ht' E. destruct (proj2 (Hag (ID t) i) ltac:(by exists t)) as (tm & E1 & L1).
  destruct (proj2 (Hag (ID t) j) ltac:(by exists t')) as (tm' & E2 & L2). simplify_eq. apply Nat2Z.inj. congruence.
Qed.

(** The change set is one the manifest accepts, and what it leaves has the tables of the swapped levels. *)
Lemma buildChangeSet_agrees :
  (forall i t, holds (swap_tables levels cd new) i t <->
     (holds levels i t /\ unpicked cd i t) \/ (i = nextLevel cd /\ t ∈ new)) ->
  exists ts', tables_after ts (buildChangeSet cd new) = Some ts' /\ agrees (swap_tables levels cd new) ts'.
Proof using All.
  intros Hsw. unfold buildChangeSet. rewrite tables_after_app.
  assert (forall t, t ∈ new -> ts !! ID t = None) as Hnone.
  { intros t Ht. destruct (ts !! ID t) as [tm|] eqn:E; [exfalso|done].
    destruct (proj1 (Hag (ID t) (Z.to_nat (tm_Level tm)))) as (t' & Ht' & E').
    { exists tm. split; [done|]. pose proof (Hlev _ _ E). lia. }
    by apply (Hfresh _ t' t Ht' Ht). }
  destruct (creates_after (Z.of_nat (nextLevel cd)) new ts ltac:(lia) Hnd Hnone) as (ts1 & -> & H1).
  cbn [mbind option_bind]. rewrite tables_after_app, (filter_id _ (top cd)) by done.
  destruct (deletes_after (top cd) ts1) as (ts2 & -> & H2). cbn [mbind option_bind].
  destruct (deletes_after (bot cd) ts2) as (ts3 & -> & H3). exists ts3. split; [done|].
  assert (forall t, t ∈ top cd ++ bot cd -> ID t ∉ ID <$> new) as Hdis.
  { intros t Ht (t' & E & Ht')%list_elem_of_fmap.
    apply elem_of_app in Ht as [Ht|Ht]; (eapply Hfresh; [|exact Ht'|exact E]); eauto. }
  intros id i. destruct (H1 id) as [A1 B1], (H2 id) as [A2 B2], (H3 id) as [A3 B3]. split.
  - intros (tm & E & El).
    destruct (decide (id ∈ ID <$> bot cd)) as [Hb|Hb]; [rewrite (A3 Hb) in E; done|]. rewrite (B3 Hb) in E.
    destruct (decide (id ∈ ID <$> top cd)) as [Ht|Ht]; [rewrite (A2 Ht) in E; done|]. rewrite (B2 Ht) in E.
    destruct (decide (id ∈ ID <$> new)) as [Hn|Hn].
    + destruct (A1 Hn) as (tm' & E' & El'). simplify_eq. apply list_elem_of_fmap in Hn as (t & -> & Ht').
      exists t. split; [|done]. apply Hsw. right. split; [lia|done].
    + rewrite (B1 Hn) in E. destruct (proj1 (Hag id i)) as (t & Ht' & <-); [by exists tm|].
      exists t. split; [|done]. apply Hsw. left. split; [done|]. by split.
  - intros (t & Ht & <-). apply Hsw in Ht as [[Ht [U1 U2]]|[-> Ht]].
    + rewrite B3, B2, B1; [by apply (Hag (ID t) i); exists t|..].
      * intros (t' & E & Ht')%list_elem_of_fmap. by apply (Hfresh i t t').
      * intros Hin. apply list_elem_of_fmap in Hin as Hin'. destruct Hin' as (t' & E & Ht').
        apply (U1 (agrees_level i _ t t' Ht (Htop t' Ht') E) Hin).
      * intros Hin. apply list_elem_of_fmap in Hin as Hin'. destruct Hin' as (t' & E & Ht').
        apply (U2 (agrees_level i _ t t' Ht (Hbot t' Ht') E) Hin).
    + rewrite B3, B2; [apply A1; by apply list_elem_of_fmap_2|..];
        intros (t' & E & Ht')%list_elem_of_fmap;
        [apply (Hdis t'); [apply elem_of_app; by left|]|apply (Hdis t'); [apply elem_of_app; by right|]];
        rewrite <- E; by apply list_elem_of_fmap_2.
Qed.
End Agree.

(** ** Properties *)

Section Properties.
Context `{C : ChecksumCodec} `{!ChecksumCodecLaws C} `{I : IndexCodec} `{!IndexCodecLaws I}.

(** C2: a compaction is invisible to readers.  Merging the picked tables, dropping what the
    sub-compactions drop, writing and reopening the tables and swapping them into the levels
    succeeds, leaves every level well formed, and every read of the database at or above the
    discard timestamps gives what it gave before: the same value, or still no live value. *)
Theorem compaction_preserves_reads (o : lsmOptions) (s : levelsController) (be : buildEnv) (lev : nat)
    (cd : compactDef) (reads : list (Z * (bytes -> Z))) (ids : list Z) (created : Z)
    (ReadOnly : bool) (mt : list kv) (imm : list (list kv)) :
  compaction_ok o s be lev cd reads ids (concat (getMemTables ReadOnly mt imm)) ->
  run_ok mt -> Forall run_ok imm ->
  exists new, compactBuildTables o s be lev cd reads ids created = Ok new /\
    levels_ok (swap_tables (lc_levels s) cd new) /\
    forall k ts now, k <> [] -> 0 < ts <= MaxUint64 -> now < 2 ^ 64 ->
      (forall rd, rd ∈ reads -> rd.1 <= ts /\ forall key, 0 <= rd.2 key <= now) ->
      exists r r', db_get false ReadOnly mt imm (lc_levels s) (KeyWithTs k ts) = Ok r /\
        db_get false ReadOnly mt imm (swap_tables (lc_levels s) cd new) (KeyWithTs k ts) = Ok r' /\
        visible now r = visible now r'.
Proof.
  intros H Hmt Himm.
  destruct (compaction_built o s be lev cd reads ids _ H created) as (ho & new & Hov & Ebuild & Hb).
  destruct (compaction_swap o s be lev cd reads ids _ H ho new Hb) as [Hlv _].
  exists new. split_and!; [done|done|]. intros k ts now Hk Hts Hnow Hreads.
  destruct (levels_ok_Forall _ (co_levels _ _ _ _ _ _ _ _ H)) as [L1 L2], (levels_ok_Forall _ Hlv) as [L3 L4].
  destruct (db_get_spec ReadOnly mt imm _ k ts Hmt Himm L1 L2 Hk Hts) as (r & Er & Hr).
  destruct (db_get_spec ReadOnly mt imm _ k ts Hmt Himm L3 L4 Hk Hts) as (r' & Er' & Hr').
  exists r, r'. split_and!; [done|done|].
  by apply (compaction_newest o s be lev cd reads ids _ H ho new k ts now r r' Hov Hb Hreads Hnow Hk ltac:(lia)).
Qed.

(** The splits cut a compaction into pieces that do not interfere: every entry the
    compaction reads is in exactly one of them, and all the versions of a user key are in the
    same one. *)
Theorem splits_partition (cd cd' : compactDef) :
  ranges_ok cd -> splits cd = [] -> plan_splits cd = Some cd' -> Forall entry_in (picked cd) ->
  (forall x, x ∈ picked cd -> exists i kr, splits cd' !! i = Some kr /\ in_kr kr x.1 /\
     forall j kr', splits cd' !! j = Some kr' -> in_kr kr' x.1 -> j = i) /\
  (forall x y kr, x ∈ picked cd -> y ∈ picked cd -> ukey x.1 = ukey y.1 -> kr ∈ splits cd' ->
     in_kr kr x.1 -> in_kr kr y.1).
Proof.
  intros Hr Hs Hp Hin. destruct (plan_splits_ok cd cd' Hr Hs Hp) as (_ & left & Hsp & Hleft).
  rewrite Forall_forall in Hin. split.
  - intros x Hx. apply (splits_cover left); [done|]. destruct Hleft as [?|Hl]; [by left|right].
    rewrite Forall_forall in Hl. by apply Hl.
  - intros x y kr Hx Hy E Hkr. destruct (Hin x Hx), (Hin y Hy).
    apply (splits_same left (splits cd')); try done. destruct Hleft as [?|Hl]; [by left|right].
    rewrite Forall_forall in Hl. split; by apply Hl.
Qed.
End Properties.

Section RunProperties.
Context `{C : ChecksumCodec} `{!ChecksumCodecLaws C} `{I : IndexCodec} `{!IndexCodecLaws I}.
Context `{CC : ChangeSetCodec} `{!ChangeSetCodecLaws CC}.
Context (order : Manifest -> list (Z * TableManifest)) (Horder : forall m, order_of (order m) m).

(** C28: running a compaction keeps the manifest and the levels in step: it succeeds, the change
    set it logs is accepted, and afterwards the manifest, in memory and replayed from its file,
    has exactly the tables of the levels, each in its level. *)
Theorem runCompactDef_manifest (o : lsmOptions) (s : levelsController) (mf : manifestFile) (be : buildEnv)
    (l : nat) (cd cd' : compactDef) (reads : list (Z * (bytes -> Z))) (ids : list Z) (created : Z)
    (ts : gmap Z TableManifest) (mems : list kv) :
  splits cd = [] -> plan_splits cd = Some cd' -> compaction_ok o s be l cd' reads ids mems ->
  mf_ok mf ts -> agrees (lc_levels s) ts -> (nextLevel cd' < 256)%nat ->
  Forall (fun t => IsInmemory t = false) (top cd') ->
  exists new mf' ts', compactBuildTables o s be l cd' reads ids created = Ok new /\
    runCompactDef o s mf be l cd reads ids created order
      = Ok (mf', mkLC (swap_tables (lc_levels s) cd' new) (cstatus s)) /\
    mf_ok mf' ts' /\ m_Tables (mf_manifest mf') = ts' /\
    agrees (swap_tables (lc_levels s) cd' new) ts'.
Proof.
  intros Hs Hp H Hmf Hag Hl Hmem.
  destruct (compaction_built o s be l cd' reads ids mems H created) as (ho & new & _ & Ebuild & Hb).
  destruct (buildChangeSet_agrees (lc_levels s) cd' new ts) as (ts' & Ets & Hag'); try done.
  - apply Hb.
  - intros i t t' Ht Ht' E. apply (co_fresh _ _ _ _ _ _ _ _ H i t Ht). rewrite E. by apply Hb.
  - apply (co_top _ _ _ _ _ _ _ _ H).
  - apply (co_bot _ _ _ _ _ _ _ _ H).
  - intros id tm E. rewrite <- (mo_tables _ _ Hmf) in E.
    by apply (mw_byte _ (mo_wf _ _ Hmf)) in E as [? _].
  - by apply (compaction_swap o s be l cd' reads ids mems H ho).
  - destruct (add_ok order Horder mf ts _ ts' Hmf (changes_ok cd' new Hl) Ets) as (mf' & Eadd & Hmf' & _).
    exists new, mf', ts'. split_and!; [done| |done|apply Hmf'|done].
    destruct (co_next _ _ _ _ _ _ _ _ H) as [hn Hn]. pose proof (co_le _ _ _ _ _ _ _ _ H) as Hle.
    destruct (lookup_lt_is_Some_2 (lc_levels s) (thisLevel cd')) as [ht Ht].
    { apply lookup_lt_Some in Hn. lia. }
    assert (fileSz (cd_t cd) <> []) as Hfs.
    { destruct (co_opts _ _ _ _ _ _ _ _ H) as (sz & Esz & _).
      assert (cd_t cd' = cd_t cd) as <- by (by apply plan_splits_t). intros E. by rewrite E in Esz. }
    unfold runCompactDef. rewrite (bool_decide_eq_false_2 (fileSz _ = [])) by done.
    rewrite (bool_decide_eq_false_2 (splits cd <> [])) by (intros Hne; by apply Hne).
    rewrite Hp. cbn [unpanic mbind result_bind]. rewrite Ebuild. cbn [lift_table mbind result_bind].
    rewrite Eadd, Hn. cbn [unpanic mbind result_bind]. by rewrite Ht.
Qed.
End RunProperties.

(** ** A compaction for the witnesses *)

Definition rw_del : ValueStruct := mkVS x01 x00 0 (Some []) 0.

(** A deleted key over an older version, one table out of the way and an unrelated last level. *)
Definition rw_a : Table := ex_table 1 [(KeyWithTs [x61] 9, rw_del); (KeyWithTs [x62] 8, ex_vs x01)].
Definition rw_b : Table := ex_table 2 [(KeyWithTs [x61] 5, ex_vs x02)].
Definition rw_c : Table := ex_table 3 [(KeyWithTs [x61] 3, ex_vs x03); (KeyWithTs [x63] 1, ex_vs x04)].
Definition rw_d : Table := ex_table 4 [(KeyWithTs [x68] 1, ex_vs x05)].
Definition rw_e : Table := ex_table 5 [(KeyWithTs [x6d] 1, ex_vs x06)].

Definition rw_levels : levelsController :=
  mkLC [mkLevel 0 [rw_a; rw_b] 200 14; mkLevel 1 [rw_c; rw_d] 200 14; mkLevel 2 [rw_e] 100 7] (cs_init 3).

Definition rw_opts : lsmOptions := mkLsmOptions 3 10 10 10 10 10 5 15 1.

Definition rw_be : buildEnv := mkBuild (fun _ => tb_opts) (fun _ => None) true false false.

Definition rw_cd0 : compactDef :=
  mkCD 0 (mkTargets 1 [0; 10; 100] [10; 10; 10]) (f64 0) 0 1 [rw_a; rw_b] [rw_c]
    (default kr_empty (getKeyRange [rw_a; rw_b])) (default kr_empty (getKeyRange [rw_c])) [] 0 [].

Definition rw_cd : compactDef := default rw_cd0 (plan_splits rw_cd0).

Definition rw_reads : list (Z * (bytes -> Z)) := [(10, fun _ => 100)].
Definition rw_mem : list kv := [(KeyWithTs [x62] 12, ex_vs x07)].

(** Checks for the conditions of [compaction_ok] on concrete stores. *)
Definition one_value_b (l : list kv) : bool :=
  forallb (fun x => forallb (fun y => bool_decide (x.1 = y.1 -> x.2 = y.2)) l) l.

Lemma one_value_check l : one_value_b l = true -> one_value l.
Proof.
  unfold one_value_b. rewrite forallb_forall. intros H key vs vs' Hv Hv'.
  specialize (H (key, vs) (proj1 (list_elem_of_In _ _) Hv)). rewrite forallb_forall in H.
  specialize (H (key, vs') (proj1 (list_elem_of_In _ _) Hv')).
  by apply bool_decide_eq_true in H; apply H.
Qed.

Definition newer_b (pk above : list kv) : bool :=
  forallb (fun x => forallb (fun y =>
    bool_decide (ukey x.1 = ukey y.1 -> ParseTs x.1 < ParseTs y.1)) above) pk.

Lemma newer_check pk above : newer_b pk above = true -> forall k v0 vs0 v vs,
  (KeyWithTs k v0, vs0) ∈ pk -> (KeyWithTs k v, vs) ∈ above -> k <> [] ->
  v0 <= MaxUint64 -> 0 < v <= MaxUint64 -> v0 < v.
Proof.
  unfold newer_b. rewrite forallb_forall. intros H k v0 vs0 v vs H0 Hv Hk Hm Hr.
  specialize (H _ (proj1 (list_elem_of_In _ _) H0)). rewrite forallb_forall in H.
  specialize (H _ (proj1 (list_elem_of_In _ _) Hv)). apply bool_decide_eq_true in H. cbn [fst] in H.
  unfold ukey in H. rewrite !split_KeyWithTs in H. specialize (H eq_refl).
  destruct (decide (v0 <= 0)) as [|Hp]; [lia|]. by rewrite !ParseTs_KeyWithTs in H by (done || lia).
Qed.

Lemma rw_tables_ok : Forall table_ok [rw_a; rw_b; rw_c; rw_d; rw_e].
Proof.
  repeat (apply Forall_cons; split); [..|constructor];
    (apply ex_table_ok; [apply ex_run_ok; by vm_compute|discriminate|by vm_compute]).
Qed.

Lemma rw_level_ok i h : lc_levels rw_levels !! i = Some h -> level h = Z.of_nat i /\ level_ok h.
Proof.
  pose proof rw_tables_ok as H. rewrite !Forall_cons in H. destruct H as (Ha & Hb & Hc & Hd & He & _).
  destruct i as [|[|[|i]]]; intros [= <-]; (split; [done|]); split; cbn [tables level];
    rewrite ?Forall_cons, ?Forall_nil; try done; try (by vm_compute).
  - apply NoDup_ListNoDup. repeat constructor; cbn; intuition lia.
  - intros _. apply validate_tables_spec; [by rewrite !Forall_cons, Forall_nil|by vm_compute].
  - apply NoDup_ListNoDup. repeat constructor; cbn; intuition lia.
  - intros _. repeat constructor.
  - apply NoDup_singleton.
Qed.

Lemma rw_top : top rw_cd = [rw_a; rw_b].
Proof. vm_compute. reflexivity. Qed.

Lemma rw_bot : bot rw_cd = [rw_c].
Proof. vm_compute. reflexivity. Qed.

Lemma rw_this_next : thisLevel rw_cd = 0%nat /\ nextLevel rw_cd = 1%nat.
Proof. vm_compute. split; reflexivity. Qed.

Lemma rw_holds_next t : holds (lc_levels rw_levels) 1 t -> t = rw_c \/ t = rw_d.
Proof. intros (h & [= <-] & Ht). cbn in Ht. rewrite !elem_of_cons, elem_of_nil in Ht. tauto. Qed.

Lemma rw_above i t : (i <= 1)%nat -> holds (lc_levels rw_levels) i t -> unpicked rw_cd i t -> t = rw_d.
Proof.
  intros Hi (h & Hh & Ht) [U1 U2]. destruct i as [|[|i]]; [| |lia]; injection Hh as <-;
    cbn in Ht; rewrite !elem_of_cons, elem_of_nil in Ht.
  - exfalso. apply (U1 eq_refl). apply (bool_decide_eq_true_1 (ID t ∈ ID <$> top rw_cd)).
    destruct Ht as [->|[->|[]]]; by vm_compute.
  - destruct Ht as [->|[->|[]]]; [|done]. exfalso. apply (U2 eq_refl).
    apply (bool_decide_eq_true_1 (ID rw_c ∈ ID <$> bot rw_cd)). by vm_compute.
Qed.

Lemma rw_build iters bs : newIterator 0 (top rw_cd) (bot rw_cd) = Some iters ->
  build_splits rw_opts rw_levels rw_cd rw_be tb_opts (merge_all false iters) (splits rw_cd) rw_reads = Some bs ->
  Forall (buildable rw_be) bs /\ (length bs <= 3)%nat.
Proof.
  intros E Eb. vm_compute in E. injection E as <-. vm_compute in Eb. injection Eb as <-.
  split; [|cbn; lia]. apply Forall_singleton. split; [|done]. split; [by vm_compute..|done|].
  intros f index n -> Hb.
  apply (f_equal (from_option (fun p => len p.1) 0)) in Hb. cbn [from_option fst] in Hb.
  rewrite <- Hb. by vm_compute.
Qed.

Lemma rw_stored : Forall stored_ok (picked rw_cd).
Proof. apply (bool_decide_eq_true_1 (Forall stored_ok (picked rw_cd))). vm_compute. reflexivity. Qed.

Lemma rw_fresh i t : holds (lc_levels rw_levels) i t -> ID t ∉ [10; 11; 12].
Proof.
  intros (h & Hh & Ht). rewrite !elem_of_cons, elem_of_nil.
  destruct i as [|[|[|i]]]; [injection Hh as <-..|done]; cbn in Ht; rewrite !elem_of_cons, elem_of_nil in Ht;
    destruct_or! Ht; subst; cbn; lia.
Qed.

Lemma rw_newer k v0 vs0 v vs rd : (KeyWithTs k v0, vs0) ∈ picked rw_cd ->
  rd ∈ rw_reads -> v0 <= rd.1 -> 0 < v <= MaxUint64 ->
  ((KeyWithTs k v, vs) ∈ concat (getMemTables false rw_mem []) \/
   exists i t, (i <= 1)%nat /\ holds (lc_levels rw_levels) i t /\ unpicked rw_cd i t /\
     (KeyWithTs k v, vs) ∈ entries t) -> v0 < v.
Proof.
  intros H0 Hrd Hle Hv Hab. apply list_elem_of_singleton in Hrd as ->. cbn [fst] in Hle.
  assert ((KeyWithTs k v, vs) ∈ rw_mem ++ entries rw_d) as Hin.
  { apply elem_of_app. destruct Hab as [Hab|(i & t & Hi & Ht & Hu & Hx)]; [left|right].
    - cbn [getMemTables reverse rev_append concat app] in Hab. by rewrite app_nil_r in Hab.
    - by rewrite (rw_above i t Hi Ht Hu) in Hx. }
  apply (newer_check (picked rw_cd) (rw_mem ++ entries rw_d) ltac:(by vm_compute) k v0 vs0 v vs); try done.
  - intros ->. pose proof rw_stored as Hs. rewrite Forall_forall in Hs.
    destruct (Hs _ H0) as (_ & _ & [Hk _] & _). unfold key_ok, len in Hk. cbn [fst] in Hk.
    rewrite KeyWithTs_length in Hk. cbn in Hk. lia.
  - unfold MaxUint64. lia.
Qed.

Lemma rw_gap t : holds (lc_levels rw_levels) 1 t -> unpicked rw_cd 1 t ->
  Forall (fun x => compareKeys x.1 (Smallest t) = Lt) (picked rw_cd) \/
  Forall (fun x => compareKeys (Biggest t) x.1 = Lt) (picked rw_cd).
Proof.
  intros Ht [_ Hu]. destruct (rw_holds_next t Ht) as [->| ->].
  - exfalso. apply (Hu eq_refl). apply (bool_decide_eq_true_1 (ID rw_c ∈ ID <$> bot rw_cd)). by vm_compute.
  - left. apply (bool_decide_eq_true_1 (Forall _ _)). vm_compute. reflexivity.
Qed.

Lemma rw_splits : splits_from (KeyWithTs [x61] MaxUint64) (splits rw_cd) /\
  (KeyWithTs [x61] MaxUint64 = [] \/
   Forall (fun x => compareKeys x.1 (KeyWithTs [x61] MaxUint64) <> Lt) (picked rw_cd)).
Proof.
  split.
  - assert (splits rw_cd = [mkKR (KeyWithTs [x61] MaxUint64) [] false 0]) as -> by (vm_compute; reflexivity).
    constructor.
  - right. apply (bool_decide_eq_true_1 (Forall _ _)). vm_compute. reflexivity.
Qed.

Lemma rw_compaction_ok :
  compaction_ok rw_opts rw_levels rw_be 0 rw_cd rw_reads [10; 11; 12] (concat (getMemTables false rw_mem [])).
Proof.
  destruct rw_this_next as [Et En]. split; rewrite ?Et, ?En.
  - reflexivity.
  - lia.
  - exact rw_level_ok.
  - eexists. reflexivity.
  - intros t Ht. rewrite rw_top in Ht. exists (mkLevel 0 [rw_a; rw_b] 200 14). split; [reflexivity|exact Ht].
  - intros t Ht. rewrite rw_bot in Ht. exists (mkLevel 1 [rw_c; rw_d] 200 14). split; [reflexivity|].
    apply list_elem_of_singleton in Ht as ->. by left.
  - by left.
  - rewrite rw_bot. repeat constructor.
  - vm_compute. reflexivity.
  - exists 10. split; [vm_compute; reflexivity|]. split; [split; vm_compute; discriminate|vm_compute; discriminate].
  - exists (KeyWithTs [x61] MaxUint64). exact rw_splits.
  - vm_compute. lia.
  - exact rw_stored.
  - apply one_value_check. by vm_compute.
  - intros _. exact rw_gap.
  - exact rw_newer.
  - apply NoDup_ListNoDup. repeat constructor; cbn; intuition lia.
  - exact rw_fresh.
  - intros sz iters bs Esz. assert (sz = 10) as -> by (vm_compute in Esz; congruence). apply rw_build.
Qed.

Lemma compaction_preserves_reads_witness :
  exists new, compactBuildTables rw_opts rw_levels rw_be 0 rw_cd rw_reads [10; 11; 12] 0 = Ok new /\
    levels_ok (swap_tables (lc_levels rw_levels) rw_cd new) /\
    exists r r', db_get false false rw_mem [] (lc_levels rw_levels) (KeyWithTs [x61] 10) = Ok r /\
      db_get false false rw_mem [] (swap_tables (lc_levels rw_levels) rw_cd new) (KeyWithTs [x61] 10) = Ok r' /\
      visible 200 r = visible 200 r'.
Proof.
  destruct (compaction_preserves_reads rw_opts rw_levels rw_be 0 rw_cd rw_reads [10; 11; 12] 0 false rw_mem [])
    as (new & E & Hlv & Hr).
  - apply rw_compaction_ok.
  - apply ex_run_ok; by vm_compute.
  - constructor.
  - exists new. split; [exact E|]. split; [exact Hlv|].
    apply (Hr [x61] 10 200);
      [discriminate|split; [reflexivity|unfold MaxUint64; lia]|reflexivity|].
    intros rd Hrd. apply list_elem_of_singleton in Hrd as ->. cbn [fst snd]. split; [lia|]. intros _. lia.
Defined.

Lemma rw_plan : plan_splits rw_cd0 = Some rw_cd.
Proof. vm_compute. reflexivity. Qed.

Lemma rw_range l : Forall table_ok l -> l <> [] ->
  kr_proper (default kr_empty (getKeyRange l)) /\ Forall (within (default kr_empty (getKeyRange l))) l.
Proof. intros Hl Hne. destruct (getKeyRange_spec l Hl Hne) as (r & -> & Hp & Hw & _). done. Qed.

Lemma rw_ranges_ok : ranges_ok rw_cd0.
Proof.
  pose proof rw_tables_ok as H. rewrite !Forall_cons in H. destruct H as (Ha & Hb & Hc & _).
  assert (Forall table_ok [rw_a; rw_b]) as H1 by (by rewrite !Forall_cons, Forall_nil).
  assert (Forall table_ok [rw_c]) as H2 by (by rewrite !Forall_cons, Forall_nil).
  destruct (rw_range _ H1) as [P1 W1]; [discriminate|]. destruct (rw_range _ H2) as [P2 W2]; [discriminate|].
  split; [exact P1|exact P2|exact W1|exact W2| |].
  - change (Forall table_ok ([rw_a; rw_b] ++ [rw_c])). by apply Forall_app.
  - change (StronglySorted table_before [rw_c]). repeat constructor.
Qed.

Lemma splits_partition_witness :
  exists i kr, splits rw_cd !! i = Some kr /\ in_kr kr (KeyWithTs [x61] 9) /\
    forall j kr', splits rw_cd !! j = Some kr' -> in_kr kr' (KeyWithTs [x61] 9) -> j = i.
Proof.
  apply (splits_partition rw_cd0 rw_cd rw_ranges_ok eq_refl rw_plan) with (x := (KeyWithTs [x61] 9, rw_del)).
  - apply (bool_decide_eq_true_1 (Forall entry_in (picked rw_cd0))). vm_compute. reflexivity.
  - by left.
Defined.

Definition rw_changes : list ManifestChange :=
  [newCreateChange 1 0 0 0; newCreateChange 2 0 0 0; newCreateChange 3 1 0 0; newCreateChange 4 1 0 0;
   newCreateChange 5 2 0 0].

Definition rw_ts : list (Z * TableManifest) :=
  [(5, mkTM 2 0 0); (4, mkTM 1 0 0); (3, mkTM 1 0 0); (2, mkTM 0 0 0); (1, mkTM 0 0 0)].

Lemma rw_ts_lookup id tm : (list_to_map rw_ts : gmap Z TableManifest) !! id = Some tm <-> (id, tm) ∈ rw_ts.
Proof.
  symmetry. apply elem_of_list_to_map. apply NoDup_ListNoDup. repeat constructor; cbn; intuition lia.
Qed.

Lemma rw_agrees : agrees (lc_levels rw_levels) (list_to_map rw_ts).
Proof.
  intros id i. split.
  - intros (tm & H%rw_ts_lookup & Hl). unfold rw_ts in H. rewrite !elem_of_cons, elem_of_nil in H.
    destruct_or! H; try done; injection H as -> ->; cbn in Hl.
    + exists rw_e. split; [|done]. assert (i = 2%nat) as -> by lia. eexists. split; [done|by left].
    + exists rw_d. split; [|done]. assert (i = 1%nat) as -> by lia. eexists. split; [done|]. right. by left.
    + exists rw_c. split; [|done]. assert (i = 1%nat) as -> by lia. eexists. split; [done|]. by left.
    + exists rw_b. split; [|done]. assert (i = 0%nat) as -> by lia. eexists. split; [done|]. right. by left.
    + exists rw_a. split; [|done]. assert (i = 0%nat) as -> by lia. eexists. split; [done|]. by left.
  - intros (t & (h & Hh & Ht) & <-). setoid_rewrite rw_ts_lookup.
    destruct i as [|[|[|i]]]; [injection Hh as <-..|done]; cbn [tables] in Ht;
      rewrite !elem_of_cons, elem_of_nil in Ht; destruct_or! Ht; try done; subst t;
      [exists (mkTM 0 0 0)|exists (mkTM 0 0 0)|exists (mkTM 1 0 0)|exists (mkTM 1 0 0)|exists (mkTM 2 0 0)];
      (split; [|reflexivity]); unfold rw_ts; rewrite !elem_of_cons; tauto.
Qed.

Lemma runCompactDef_manifest_witness :
  exists mf new mf' ts', mf_ok mf (list_to_map rw_ts) /\
    runCompactDef rw_opts rw_levels mf rw_be 0 rw_cd0 rw_reads [10; 11; 12] 0 (fun m => map_to_list (m_Tables m))
      = Ok (mf', mkLC (swap_tables (lc_levels rw_levels) rw_cd new) (cstatus rw_levels)) /\
    mf_ok mf' ts' /\ agrees (swap_tables (lc_levels rw_levels) rw_cd new) ts'.
Proof.
  assert (forall m, order_of (map_to_list (m_Tables m)) m) as Ho by (intros m; unfold order_of; reflexivity).
  destruct (new_file_ok (fun m => map_to_list (m_Tables m)) Ho 0 10) as (mf0 & _ & H0 & _); [done|].
  destruct (add_ok (fun m => map_to_list (m_Tables m)) Ho mf0 ∅ rw_changes (list_to_map rw_ts) H0)
    as (mf & _ & Hmf & _).
  - repeat (apply Forall_cons; split); [..|constructor]; (split; [vm_compute; discriminate|vm_compute; reflexivity]).
  - vm_compute. reflexivity.
  - destruct (runCompactDef_manifest (fun m => map_to_list (m_Tables m)) Ho rw_opts rw_levels mf rw_be 0
      rw_cd0 rw_cd rw_reads [10; 11; 12] 0 (list_to_map rw_ts) (concat (getMemTables false rw_mem [])))
      as (new & mf' & ts' & _ & E & Hmf' & _ & Hag').
    + reflexivity.
    + apply rw_plan.
    + apply rw_compaction_ok.
    + exact Hmf.
    + apply rw_agrees.
    + rewrite (proj2 rw_this_next). lia.
    + rewrite rw_top. repeat constructor.
    + exists mf, new, mf', ts'. exact (conj Hmf (conj E (conj Hmf' Hag'))).
Defined.
