(* ===== verification/Flush.v ===== *)
(** * Flush: a memtable becomes a table of level 0 (db.go)

    [handleMemTableFlush] builds a table from the entries of the oldest immutable memtable and
    adds it to level 0, in the manifest first.  Every lookup gives the same before and after. *)

From S2P Require Import Prelude Keys Codec Bloom Checksum Block Manifest Tables TableFile TableBuild.
From S2P Require Import LevelHandler Compaction Subcompact Rewrite.

Section Flush.
Context `{C : ChecksumCodec} `{I : IndexCodec} `{CC : ChangeSetCodec}.

(** [buildL0Table], from the entries of the memtable's iterator. *)
Fixpoint add_entries (dropPrefixes : list bytes) (b : Builder) (es : list kv) : option Builder :=
  match es with
  | [] => Some b
  | (key, vs) :: es =>
      if bool_decide (dropPrefixes <> []) && hasAnyPrefixes key dropPrefixes then add_entries dropPrefixes b es
      else
        n ← (if has_bit (Meta vs) bitValuePointer then vp ← vp_Decode (vbytes (Value vs)); Some (Len vp) else Some 0);
        b ← Add b key vs n;
        add_entries dropPrefixes b es
  end.

Definition buildL0Table (es : list kv) (dropPrefixes : list bytes) (bopts : Options) : option Builder :=
  add_entries dropPrefixes (NewTableBuilder bopts) es.

Definition in_memory (t : Table) : Table :=
  mkTable (ID t) (entries t) (Size t) (StaleDataSize t) (MaxVersion t) (CreatedAt t) true (KeyID t)
    (CompressionType t) (bloom t).

(** [id] is the reserved file id; the flag tells that level 0 took the table. *)
Definition handleMemTableFlush (o : lsmOptions) (s : levelsController) (mf : manifestFile) (be : buildEnv)
    (bopts : Options) (mt : list kv) (id created : Z) (order : Manifest -> list (Z * TableManifest))
    : result run_error (bool * manifestFile * levelsController) :=
  builder ← unpanic (buildL0Table mt [] bopts);
  if Empty builder then Ok (true, mf, s)
  else
    t ← lift_table (CreateTable builder (be_bloom be builder) (be_verify_open be) (be_verify_block be) id created);
    let t := if be_InMemory be then in_memory t else t in
    addLevel0Table o s mf t order.

(** One round of [flushMemtable]: the memtable is the head of the immutable ones, and leaves
    them when its table is in level 0. *)
Definition flushMemtable (o : lsmOptions) (s : levelsController) (mf : manifestFile) (be : buildEnv)
    (bopts : Options) (mt : list kv) (imm : list (list kv)) (id created : Z)
    (order : Manifest -> list (Z * TableManifest))
    : result run_error (manifestFile * levelsController * list (list kv)) :=
  '(done, mf, s) ← handleMemTableFlush o s mf be bopts mt id created order;
  if negb (done : bool) then Ok (mf, s, imm)
  else match imm with
       | m :: imm => if bool_decide (m = mt) then Ok (mf, s, imm) else Panic
       | [] => Panic
       end.
End Flush.

(** ** Lemmas *)

Section FlushLemmas.
Context `{C : ChecksumCodec} `{!ChecksumCodecLaws C} `{I : IndexCodec} `{!IndexCodecLaws I}.

Lemma add_entries_repr es : forall b kvs, builder_repr b kvs -> opts_ok (opts b) -> Forall kv_small es ->
  Forall ptr_ok es -> exists b', add_entries [] b es = Some b' /\ builder_repr b' (kvs ++ es).
Proof using ChecksumCodecLaws0.
  induction es as [|[key vs] es IH]; intros b kvs Hr Ho Hs Hp.
  - exists b. by rewrite app_nil_r.
  - apply Forall_cons in Hs as [Hs1 Hs]. apply Forall_cons in Hp as [Hp1 Hp]. cbn [add_entries].
    rewrite bool_decide_eq_false_2 by (by intros []). cbn [andb].
    assert (exists n, (if has_bit (Meta vs) bitValuePointer
      then vp ← vp_Decode (vbytes (Value vs)); Some (Len vp) else Some 0) = Some n) as [n ->].
    { unfold ptr_ok in Hp1. cbn in Hp1. destruct (has_bit _ _); [|by exists 0].
      destruct (Hp1 eq_refl) as [vp ->]. by eexists. }
    cbn [mbind option_bind].
    destruct (addInternal_repr b kvs key vs n false Hr Ho Hs1) as (b' & E & Hr' & Ho').
    unfold Add. rewrite E. cbn [mbind option_bind].
    destruct (IH b' _ Hr' ltac:(by rewrite Ho') Hs Hp) as (b2 & E2 & Hr2). exists b2.
    rewrite E2. split; [done|]. by rewrite <- app_assoc in Hr2.
Qed.

(** Level 0 with one more table. *)
Lemma add_level0 levels l0 t : levels_ok levels -> levels !! 0%nat = Some l0 -> table_ok t ->
  (forall i t', holds levels i t' -> ID t' <> ID t) -> 
  levels_ok (<[0%nat := addTable l0 t]> levels) /\
  all_entries (<[0%nat := addTable l0 t]> levels) ≡ₚ entries t ++ all_entries levels.
Proof using Type.
  intros Hlv E0 Ht Hid. destruct (Hlv 0%nat l0 E0) as [Hl Hok]. destruct levels as [|x levels]; [done|].
  injection E0 as ->. cbn [insert list_insert]. split.
  - intros i h Hi. destruct i as [|i]; [|by apply (Hlv (S i))]. injection Hi as <-. split; [done|].
    destruct Hok as [H1 H2 H3 [H4 H5]]. split.
    + cbn. apply Forall_app. split; [done|]. by constructor.
    + done.
    + cbn. rewrite fmap_app. apply NoDup_app. split; [done|]. split; [|apply NoDup_singleton].
      intros id Hin Hid'. apply list_elem_of_fmap in Hin as (t' & -> & Ht').
      apply list_elem_of_singleton in Hid'. apply (Hid 0%nat t'); [|done]. by exists l0.
    + split; cbn [totalSize totalStaleSize tables addTable addSize set_tables].
      * change (totalSize l0 + Size t = sum_of Size (tables l0 ++ [t])). rewrite sum_of_app, H4. unfold sum_of. cbn. lia.
      * change (totalStaleSize l0 + StaleDataSize t = sum_of StaleDataSize (tables l0 ++ [t])).
        rewrite sum_of_app, H5. unfold sum_of. cbn. lia.
  - assert (level_entries (addTable l0 t) = level_entries l0 ++ entries t) as El.
    { unfold level_entries. change (tables (addTable l0 t)) with (tables l0 ++ [t]).
      rewrite fmap_app, concat_app. cbn. by rewrite app_nil_r. }
    unfold all_entries. cbn [fmap list_fmap concat]. rewrite El, app_assoc.
    apply Permutation_app_tail, Permutation_app_comm.
Qed.

Lemma CreateTable_disk b bits vo vb id created t : CreateTable b bits vo vb id created = Ok t -> IsInmemory t = false.
Proof using Type.
  unfold CreateTable. destruct (unpanic (builder_Finish b bits)) as [file| |]; [|done..]. cbn [mbind result_bind].
  destruct (OpenTable file vo vb) as [[[tf kf] kl]| |]; [|done..]. cbn [mbind result_bind].
  destruct (unpanic (it_Rewind false tf NewIterator)) as [it| |]; [|done..]. cbn [mbind result_bind].
  repeat match goal with |- context [unpanic ?x] => destruct (unpanic x) as [?| |]; [|done..]; cbn [mbind result_bind] end.
  by intros [= <-].
Qed.

(** The manifest with one more table in level 0. *)
Lemma create_agrees levels l0 t ts : agrees levels ts -> levels !! 0%nat = Some l0 ->
  (forall i t', holds levels i t' -> ID t' <> ID t) ->
  (forall id tm, ts !! id = Some tm -> 0 <= tm_Level tm) ->
  exists ts', tables_after ts [newCreateChange (ID t) 0 (KeyID t) (CompressionType t)] = Some ts' /\
    agrees (<[0%nat := addTable l0 t]> levels) ts'.
Proof using Type.
  intros Hag E0 Hid Hpos.
  assert (ts !! ID t = None) as Hn.
  { destruct (ts !! ID t) as [tm|] eqn:E; [|done]. exfalso. pose proof (Hpos _ _ E) as Hp.
    destruct (proj1 (Hag (ID t) (Z.to_nat (tm_Level tm)))) as (t' & Ht' & Ei); [exists tm; split; [done|lia]|].
    by apply (Hid _ _ Ht'). }
  destruct (creates_after 0 [t] ts) as (ts' & E & Hts'); [lia|apply NoDup_singleton| |].
  { intros t' ->%list_elem_of_singleton. done. }
  exists ts'. split; [exact E|]. intros id i. destruct (Hts' id) as [H1 H2]. cbn [fmap list_fmap] in H1, H2.
  assert (forall t', holds (<[0%nat := addTable l0 t]> levels) i t' <-> holds levels i t' \/ i = 0%nat /\ t' = t) as Hh.
  { intros t'. unfold holds. assert (0 < length levels)%nat as Hlt by (apply lookup_lt_Some in E0; lia).
    destruct (decide (i = 0%nat)) as [->|Hi].
    - rewrite list_lookup_insert_eq by done. rewrite E0. split.
      + intros (h & [= <-] & Hin). change (tables (addTable l0 t)) with (tables l0 ++ [t]) in Hin.
        apply elem_of_app in Hin as [Hin| ->%list_elem_of_singleton]; [left; by exists l0|by right].
      + intros [(h & [= <-] & Hin)|[_ ->]]; exists (addTable l0 t); (split; [done|]);
          change (tables (addTable l0 t)) with (tables l0 ++ [t]); apply elem_of_app; [by left|right; by apply list_elem_of_singleton].
    - rewrite list_lookup_insert_ne by done. split; [by left|]. intros [H|[? _]]; [done|congruence]. }
  setoid_rewrite Hh. destruct (decide (id = ID t)) as [->|Hne].
  - destruct (H1 ltac:(by left)) as (tm & Etm & Elv). rewrite Etm. split.
    + intros (tm' & [= <-] & El). exists t. split; [|done]. right. split; [lia|done].
    + intros (t' & [Hin|[-> ->]] & Eq); [by apply Hid in Hin|]. exists tm. split; [done|]. by rewrite Elv.
  - assert (id ∉ [ID t]) as Hnin by (by rewrite list_elem_of_singleton). rewrite (H2 Hnin), (Hag id i).
    split; [intros (t' & Hin & Eq); exists t'; split; [by left|done]|].
    intros (t' & [Hin|[-> ->]] & Eq); [by exists t'|congruence].
Qed.

(** Two lookups that are both the newest are the same, when a versioned key has one value. *)
Lemma newest_same l k ts r r' : one_value l -> newest l k ts r -> newest l k ts r' -> r = r'.
Proof using Type.
  intros Hone Hr Hr'. pose proof Hr as [A _]. pose proof Hr' as [A' _].
  apply newest_entry in Hr as [->|(Hv & vs & Hin & ->)], Hr' as [->|(Hv' & vs' & Hin' & ->)].
  - done.
  - cbn [Version with_version] in *. specialize (A _ _ Hin' Hv'). cbn in A. lia.
  - cbn [Version with_version] in *. specialize (A' _ _ Hin Hv). cbn in A'. lia.
  - cbn [Version with_version] in *. 
    assert (Version r = Version r') as E.
    { specialize (A _ _ Hin' Hv'). specialize (A' _ _ Hin Hv). cbn in A, A'. lia. }
    rewrite E in Hin |- *. by rewrite (Hone _ _ _ Hin Hin').
Qed.
End FlushLemmas.

(** ** Properties *)

Section FlushProperties.
Context `{C : ChecksumCodec} `{!ChecksumCodecLaws C} `{I : IndexCodec} `{!IndexCodecLaws I}.
Context `{CC : ChangeSetCodec} `{!ChangeSetCodecLaws CC}.
Context (order : Manifest -> list (Z * TableManifest)) (Horder : forall m, order_of (order m) m).

(** C13: Flushing a memtable changes no lookup.  The oldest immutable memtable becomes a table,
    its file is written and opened again, the manifest and level 0 get it and the memtable
    leaves the immutable ones: this succeeds, the levels stay well formed and in step with the
    manifest, in memory and on disk, and [DB.get] of every key at every timestamp is what it
    was. *)
Theorem flush_preserves_reads (o : lsmOptions) (s : levelsController) (mf : manifestFile) (be : buildEnv)
    (bopts : Options) (mt : list kv) (imm : list (list kv)) (id created : Z) (cur : list kv)
    (ReadOnly : bool) (ts : gmap Z TableManifest) (l0 : levelHandler) :
  run_ok cur -> run_ok mt -> Forall run_ok imm -> mt <> [] ->
  Forall kv_small mt -> Forall ptr_ok mt -> read_back <$> mt = mt ->
  levels_ok (lc_levels s) -> lc_levels s !! 0%nat = Some l0 -> len (tables l0) < NumLevelZeroTablesStall o ->
  (forall i t, holds (lc_levels s) i t -> ID t <> id) ->
  mf_ok mf ts -> agrees (lc_levels s) ts ->
  opts_ok bopts -> be_InMemory be = false ->
  (forall b, buildL0Table mt [] bopts = Some b -> buildable be b) ->
  one_value (cur ++ concat (mt :: imm) ++ all_entries (lc_levels s)) ->
  exists mf' s' ts', flushMemtable o s mf be bopts mt (mt :: imm) id created order = Ok (mf', s', imm) /\
    levels_ok (lc_levels s') /\ mf_ok mf' ts' /\ agrees (lc_levels s') ts' /\
    forall k v, k <> [] -> 0 < v <= MaxUint64 ->
      exists r, db_get false ReadOnly cur (mt :: imm) (lc_levels s) (KeyWithTs k v) = Ok r /\
        db_get false ReadOnly cur imm (lc_levels s') (KeyWithTs k v) = Ok r.
Proof using All.
  intros Hcur Hmt Himm Hne Hsm Hptr Hrb Hlv E0 Hstall Hfresh Hmf Hag Hopts Hmem Hbuild Hone.
  destruct (add_entries_repr mt (NewTableBuilder bopts) [] (builder_repr_new bopts) Hopts Hsm Hptr) as (b & Eb & Hr).
  cbn [app] in Hr. destruct (Hbuild b Eb) as [Hfin Hbits].
  destruct (CreateTable_ok b mt (be_bloom be b) (be_verify_open be) (be_verify_block be) id created)
    as (t & Et & Ht & Een & Eid); try done.
  { apply Hmt. }
  { intros n En. specialize (Hbits n En). rewrite (bd_hashes b mt Hr) in Hbits. unfold len in *. by rewrite length_fmap in Hbits. }
  rewrite Hrb in Een. pose proof (CreateTable_disk _ _ _ _ _ _ _ Et) as Hdisk. subst id.
  destruct (create_agrees (lc_levels s) l0 t ts Hag E0 Hfresh) as (ts' & Ets & Hag').
  { intros id tm E. rewrite <- (mo_tables _ _ Hmf) in E. by apply (mw_byte _ (mo_wf _ _ Hmf)) in E as [? _]. }
  destruct (add_ok order Horder mf ts [newCreateChange (ID t) 0 (KeyID t) (CompressionType t)] ts' Hmf)
    as (mf' & Eadd & Hmf' & _); [|done|].
  { constructor; [|constructor]. unfold change_ok. by vm_compute. }
  destruct (add_level0 (lc_levels s) l0 t Hlv E0 Ht Hfresh) as [Hlv' Hp].
  set (s' := mkLC (<[0%nat := addTable l0 t]> (lc_levels s)) (cstatus s)).
  exists mf', s', ts'. split; [|split_and!; [done|done|done|]].
  - unfold flushMemtable, handleMemTableFlush, buildL0Table. rewrite Eb. cbn [unpanic mbind result_bind].
    rewrite (Empty_repr b mt Hr), (bool_decide_eq_false_2 (mt = [])) by done. rewrite Et. cbn [lift_table mbind result_bind].
    rewrite Hmem. unfold addLevel0Table. rewrite Hdisk, Eadd. cbn [mbind result_bind]. rewrite E0.
    cbn [unpanic mbind result_bind]. unfold tryAddLevel0Table. destruct (Hlv 0%nat l0 E0) as [-> _].
    unfold numTables. rewrite (bool_decide_eq_true_2 (Z.of_nat 0 = 0)) by done.
    rewrite (bool_decide_eq_false_2 (NumLevelZeroTablesStall o <= len (tables l0))) by lia.
    cbn [unpanic mbind result_bind negb]. by rewrite bool_decide_eq_true_2.
  - intros k v Hk Hv. destruct (levels_ok_Forall _ Hlv) as [L1 L2], (levels_ok_Forall _ Hlv') as [L3 L4].
    destruct (db_get_spec ReadOnly cur (mt :: imm) _ k v Hcur ltac:(by constructor) L1 L2 Hk Hv) as (r & Er & Hr1).
    destruct (db_get_spec ReadOnly cur imm _ k v Hcur Himm L3 L4 Hk Hv) as (r' & Er' & Hr').
    exists r. split; [done|]. cbn [lc_levels s']. rewrite Er'. f_equal. symmetry.
    set (E := concat (getMemTables ReadOnly cur (mt :: imm)) ++ all_entries (lc_levels s)) in *.
    assert (concat (getMemTables ReadOnly cur imm) ++ all_entries (<[0%nat := addTable l0 t]> (lc_levels s)) ≡ₚ E) as HE.
    { unfold E, getMemTables. rewrite reverse_cons, !concat_app, Hp, Een. cbn. rewrite app_nil_r, <- !app_assoc. done. }
    apply (newest_Permutation _ _ _ _ _ HE) in Hr'. apply (newest_same E k v); [|done..].
    intros key vs vs' H1 H2. assert (forall x, x ∈ E -> x ∈ cur ++ concat (mt :: imm) ++ all_entries (lc_levels s)) as Hin.
    { intros x. unfold E, getMemTables. rewrite reverse_Permutation. rewrite concat_app, !elem_of_app.
      intros [[Hx|Hx]|Hx]; [|by auto..]. destruct ReadOnly; cbn in Hx; [by apply elem_of_nil in Hx|].
      rewrite app_nil_r in Hx. by left. }
    by apply (Hone key); apply Hin.
Qed.
End FlushProperties.

(** ** Witness *)

Lemma flush_preserves_reads_witness :
  exists mf mf' s' ts', mf_ok mf (list_to_map rw_ts) /\
    flushMemtable rw_opts rw_levels mf rw_be tb_opts rw_mem [rw_mem] 20 0 (fun m => map_to_list (m_Tables m))
    = Ok (mf', s', []) /\
    mf_ok mf' ts' /\ agrees (lc_levels s') ts' /\
    exists r, db_get false false [] [rw_mem] (lc_levels rw_levels) (KeyWithTs [x62] 15) = Ok r /\
      db_get false false [] [] (lc_levels s') (KeyWithTs [x62] 15) = Ok r.
Proof.
  assert (forall m, order_of (map_to_list (m_Tables m)) m) as Ho by (intros m; unfold order_of; reflexivity).
  destruct (new_file_ok (fun m => map_to_list (m_Tables m)) Ho 0 10) as (mf0 & _ & H0 & _); [done|].
  destruct (add_ok (fun m => map_to_list (m_Tables m)) Ho mf0 ∅ rw_changes (list_to_map rw_ts) H0)
    as (mf & _ & Hmf & _).
  - repeat (apply Forall_cons; split); [..|constructor]; (split; [vm_compute; discriminate|vm_compute; reflexivity]).
  - vm_compute. reflexivity.
  - destruct (flush_preserves_reads (fun m => map_to_list (m_Tables m)) Ho rw_opts rw_levels mf rw_be tb_opts rw_mem [] 20 0 []
      false (list_to_map rw_ts) (mkLevel 0 [rw_a; rw_b] 200 14)) as (mf' & s' & ts' & E & _ & Hmf' & Hag' & Hr).
    + split; constructor.
    + apply ex_run_ok; by vm_compute.
    + constructor.
    + discriminate.
    + apply (bool_decide_eq_true_1 (Forall kv_small rw_mem)). vm_compute. reflexivity.
    + apply Forall_cons_2; [|apply Forall_nil_2]. intros Hb. vm_compute in Hb. discriminate Hb.
    + reflexivity.
    + exact (co_levels _ _ _ _ _ _ _ _ rw_compaction_ok).
    + reflexivity.
    + vm_compute. reflexivity.
    + intros i t Hh Eid.
      assert (exists tm, (list_to_map rw_ts : gmap Z TableManifest) !! 20 = Some tm /\ tm_Level tm = Z.of_nat i) as (tm & Etm & _).
      { apply (proj2 (rw_agrees 20 i)). exists t. split; [exact Hh|exact Eid]. }
      vm_compute in Etm. discriminate Etm.
    + exact Hmf.
    + exact rw_agrees.
    + split; discriminate.
    + reflexivity.
    + intros b Eb. vm_compute in Eb. injection Eb as <-. split.
      * split.
        -- vm_compute. reflexivity.
        -- vm_compute. discriminate.
        -- discriminate.
        -- intros f index n Ef Hb. cbn in Ef. subst f.
           apply (f_equal (from_option (fun p => len p.1) 0)) in Hb. cbn [from_option fst] in Hb.
           rewrite <- Hb. vm_compute. reflexivity.
      * discriminate.
    + apply one_value_check. vm_compute. reflexivity.
    + exists mf, mf', s', ts'. split; [exact Hmf|]. split; [exact E|]. split; [exact Hmf'|]. split; [exact Hag'|].
      apply Hr; [discriminate|]. split; [reflexivity|]. unfold MaxUint64. lia.
Defined.
