(* ===== verification/Lookup.v ===== *)
(** * Lookup: what a write does to lookups

    Lemmas on [db_get]: a memtable that moves behind a new one changes nothing, a write into the
    first memtable changes exactly the lookups that found nothing newer, and lookups at two
    timestamps that find the same version find the same value. *)

From S2P Require Import Prelude Keys Codec Bloom Tables TableBuild Wal LevelHandler Subcompact Rewrite Flush.

(** ** Lemmas: lookups after a write *)

(** A later start of the lookup only matters up to its version. *)
Definition later (m m' r r' : ValueStruct) : Prop :=
  Version m <= Version r /\ (Version r = Version m -> r = m) /\ r' = (if bool_decide (Version m' < Version r) then r else m').

Lemma later_step m m' vs r r' :
  let m1 := if bool_decide (Version m < Version vs) then vs else m in
  let m1' := if bool_decide (Version m' < Version vs) then vs else m' in
  Version m <= Version m' -> later m1 m1' r r' -> later m m' r r'.
Proof.
  intros m1 m1' Hm (H1 & H2 & ->). subst m1 m1'. unfold later. repeat case_bool_decide; split_and!;
    try lia; try done; try (intros; apply H2; lia); try (symmetry; apply H2; lia); try (apply H2; lia).
  all: intros; exfalso; lia.
Qed.

Lemma mem_loop_later mems key ts : forall m m', Version m <= Version m' ->
  match mem_loop mems key ts m with
  | inl vs => mem_loop mems key ts m' = inl vs /\ Version vs = ts
  | inr r => exists r', mem_loop mems key ts m' = inr r' /\ later m m' r r'
  end.
Proof.
  induction mems as [|sl mems IH]; intros m m' Hm; cbn [mem_loop].
  - exists m'. split; [done|]. split_and!; [lia|done|]. by rewrite bool_decide_eq_false_2 by lia.
  - destruct (vs_missing (sl_Get sl key)); [by apply IH|]. case_bool_decide as Hv; [done|].
    set (vs := sl_Get sl key) in *.
    specialize (IH (if bool_decide (Version m < Version vs) then vs else m) (if bool_decide (Version m' < Version vs) then vs else m')).
    destruct (mem_loop _ _ _ (if bool_decide (Version m < Version vs) then vs else m)) as [r|r].
    + apply IH. repeat case_bool_decide; lia.
    + destruct IH as (r' & E & Hl); [repeat case_bool_decide; lia|]. exists r'. split; [done|]. by eapply later_step.
Qed.

Lemma levels_loop_later levels key ts : forall m m' r, Version m <= Version m' -> levels_loop levels key ts 0 m = Some r ->
  (Version r = ts /\ levels_loop levels key ts 0 m' = Some r) \/
  exists r', levels_loop levels key ts 0 m' = Some r' /\ later m m' r r'.
Proof.
  induction levels as [|h levels IH]; intros m m' r Hm; cbn [levels_loop].
  - intros [= <-]. right. exists m'. split; [done|]. split_and!; [lia|done|]. by rewrite bool_decide_eq_false_2 by lia.
  - destruct (bool_decide (level h < 0)); [by apply IH|].
    destruct (level_get h key) as [vs|]; [|done]. cbn [mbind option_bind].
    destruct (vs_missing vs); [by apply IH|]. case_bool_decide as Hv; [intros [= <-]; by left|].
    intros Hl. eapply (IH _ (if bool_decide (Version m' < Version vs) then vs else m')) in Hl as [Hl|(r' & E & Hl)]; [by left| |].
    + right. exists r'. split; [done|]. by eapply later_step.
    + repeat case_bool_decide; lia.
Qed.

(** The lookup behind the first memtable. *)
Definition rest_get (imm : list (list kv)) (levels : list levelHandler) (key : bytes) (m : ValueStruct) : result db_error ValueStruct :=
  match mem_loop (reverse imm) key (ParseTs key) m with
  | inl vs => Ok vs
  | inr maxVs => levels_get false levels key maxVs 0
  end.

Lemma rest_get_later imm levels key m m' r : Version m <= Version m' -> rest_get imm levels key m = Ok r ->
  (Version r = ParseTs key /\ rest_get imm levels key m' = Ok r) \/
  exists r', rest_get imm levels key m' = Ok r' /\ later m m' r r'.
Proof.
  intros Hm. unfold rest_get. pose proof (mem_loop_later (reverse imm) key (ParseTs key) m m' Hm) as H.
  destruct (mem_loop (reverse imm) key (ParseTs key) m) as [vs|m1].
  - destruct H as [-> Hv]. intros [= <-]. by left.
  - destruct H as (m1' & -> & H1 & H2 & E). unfold levels_get.
    destruct (levels_loop levels key (ParseTs key) 0 m1) as [r1|] eqn:El; [|done]. cbn [unpanic]. intros [= ->].
    destruct (levels_loop_later levels key (ParseTs key) m1 m1' r) as [[Hv ->]|(r' & -> & H3 & H4 & E')]; [|done|by left|].
    + rewrite E. case_bool_decide; lia.
    + right. exists r'. split; [done|]. unfold later. rewrite E', E. split_and!; [lia| |].
      * intros Hr. assert (r = m1) as -> by (apply H4; lia). apply H2. lia.
      * repeat case_bool_decide; try done; try lia; symmetry; apply H4; lia.
Qed.

Lemma db_get_first mt imm levels key : db_get false false mt imm levels key =
  let vs := sl_Get mt key in
  if vs_missing vs then rest_get imm levels key vs_zero
  else if bool_decide (Version vs = ParseTs key) then Ok vs
  else rest_get imm levels key (if bool_decide (0 < Version vs) then vs else vs_zero).
Proof.
  unfold db_get, getMemTables, rest_get. cbn [app mem_loop]. change (Version vs_zero) with 0.
  destruct (vs_missing _); [done|]. by destruct (bool_decide _).
Qed.

(** A full memtable moves behind an empty one. *)
Lemma db_get_rotate mt imm levels key : db_get false false [] (imm ++ [mt]) levels key = db_get false false mt imm levels key.
Proof.
  rewrite db_get_first. cbn zeta. unfold rest_get. rewrite reverse_app. by unfold db_get, getMemTables.
Qed.

Lemma run_seek_put es key v q :
  run_seek (sl_put es key v) q =
    if bool_decide (compareKeys key q = Lt) then run_seek es q
    else match run_seek es q with
         | Some e => if bool_decide (compareKeys e.1 key = Lt) then Some e else Some (key, decoded v)
         | None => Some (key, decoded v)
         end.
Proof.
  induction es as [|e es IH]; cbn [sl_put run_seek fst]; [done|].
  destruct (compareKeys key e.1) eqn:E; cbn [run_seek fst].
  - apply (cmp_eq compareKeys) in E; rewrite E. destruct (bool_decide (compareKeys e.1 q = Lt)); [done|].
    by rewrite (bool_decide_eq_false_2 _ (cmp_lt_irrefl compareKeys e.1)).
  - destruct (bool_decide_reflect (compareKeys key q = Lt)) as [|Hk]; [done|].
    rewrite bool_decide_eq_false_2.
    + rewrite bool_decide_eq_false_2; [done|]. intros H. by apply (cmp_lt_irrefl compareKeys key), (cmp_lt_trans compareKeys _ e.1).
    + intros H. by apply Hk, (cmp_lt_trans compareKeys _ e.1).
  - apply (cmp_gt_lt compareKeys) in E. rewrite IH. destruct (bool_decide_reflect (compareKeys e.1 q = Lt)) as [|He]; [done|].
    rewrite bool_decide_eq_false_2; [by rewrite bool_decide_eq_true_2|]. intros H. by apply He, (cmp_lt_trans compareKeys _ key).
Qed.

Lemma key_lt_iff k1 t1 k2 t2 : 0 <= t1 <= MaxUint64 -> 0 <= t2 <= MaxUint64 ->
  compareKeys (KeyWithTs k1 t1) (KeyWithTs k2 t2) = Lt <-> bytes_Compare k1 k2 = Lt \/ k1 = k2 /\ t2 < t1.
Proof.
  intros H1 H2. rewrite compareKeys_KeyWithTs by done. destruct (bytes_Compare k1 k2) eqn:E.
  - apply (cmp_eq bytes_Compare) in E. rewrite Z.compare_lt_iff. intuition congruence.
  - tauto.
  - split; [done|]. intros [?|[-> _]]; [done|]. by rewrite (cmp_refl bytes_Compare) in E.
Qed.

Lemma SameKey_with_ts k1 t1 k2 t2 : SameKey (KeyWithTs k1 t1) (KeyWithTs k2 t2) = bool_decide (k1 = k2).
Proof. rewrite SameKey_ukey by apply KeyWithTs_has_ts. by rewrite !ukey_KeyWithTs. Qed.

Lemma sl_Get_put es k t v k' ts : run_ok es -> 0 < t <= MaxUint64 -> 0 < ts <= MaxUint64 -> k <> [] ->
  sl_Get (sl_put es (KeyWithTs k t) v) (KeyWithTs k' ts)
  = if bool_decide (k' = k /\ t <= ts /\ Version (sl_Get es (KeyWithTs k' ts)) <= t)
    then with_version (decoded v) t else sl_Get es (KeyWithTs k' ts).
Proof.
  intros Hok Ht Hts Hne. unfold sl_Get. rewrite run_seek_put.
  pose proof (key_lt_iff k t k' ts ltac:(lia) ltac:(lia)) as Hkq.
  case_bool_decide as Hlt.
  { rewrite bool_decide_eq_false_2; [done|]. intros (-> & ? & _). apply Hkq in Hlt as [Hlt|[_ ?]]; [|lia].
    by rewrite (cmp_refl bytes_Compare) in Hlt. }
  assert (k = k' -> t <= ts) as Htt by (intros ->; destruct (decide (t <= ts)); [done|]; exfalso; apply Hlt, Hkq; right; split; [done|lia]).
  pose proof (run_seek_spec es (KeyWithTs k' ts) Hok) as Hs.
  assert (SameKey (KeyWithTs k' ts) (KeyWithTs k t) = bool_decide (k' = k)) as Esk by apply SameKey_with_ts.
  assert (ParseTs (KeyWithTs k t) = t) as Ept by (apply ParseTs_KeyWithTs; [done|lia]).
  destruct (run_seek es (KeyWithTs k' ts)) as [[e vs]|].
  2:{ rewrite Esk, Ept. change (Version vs_zero) with 0. destruct (decide (k' = k)) as [->|Hk].
      - rewrite !bool_decide_eq_true_2; [done| |done]. split_and!; [done|by apply Htt|lia].
      - rewrite !bool_decide_eq_false_2; [done| |done]. by intros [? _]. }
  destruct Hs as (Hin & Hge & _). destruct Hok as [Hwf _]. rewrite Forall_forall in Hwf.
  destruct (Hwf _ Hin) as [Hkt _]. cbn [fst] in *. destruct (has_ts_eta e Hkt) as (k0 & v0 & -> & Hv0).
  rewrite key_lt_iff in Hge by lia. destruct (bool_decide_reflect (compareKeys (KeyWithTs k0 v0) (KeyWithTs k t) = Lt)) as [He|He];
    rewrite key_lt_iff in He by lia.
  - rewrite bool_decide_eq_false_2; [done|]. intros (-> & _ & Hv). destruct He as [He|[-> Hv']]; [by apply Hge; left|].
    rewrite SameKey_with_ts, bool_decide_eq_true_2 in Hv by done. cbn [with_version Version] in Hv.
    rewrite ParseTs_KeyWithTs in Hv by (done || lia). lia.
  - rewrite Esk, Ept, SameKey_with_ts. destruct (decide (k' = k)) as [->|Hk].
    + rewrite (bool_decide_eq_true_2 (k = k)) by done. rewrite bool_decide_eq_true_2; [done|]. split_and!; [done|by apply Htt|].
      clear Esk. case_bool_decide as Hk0; [|change (Version vs_zero) with 0; lia]. subst k0. cbn [with_version Version].
      rewrite ParseTs_KeyWithTs by (done || lia). destruct (decide (v0 <= t)); [done|]. exfalso. apply He. right. split; [done|lia].
    + rewrite (bool_decide_eq_false_2 (k' = k)) by done. rewrite (bool_decide_eq_false_2 (k' = k /\ _)) by (by intros [? _]).
      clear Esk. case_bool_decide as Hk0; [|done]. subst k0. exfalso.
      destruct (bytes_Compare k' k) eqn:E.
      * by apply (cmp_eq bytes_Compare) in E.
      * apply He. by left.
      * apply Hlt, Hkq. left. by apply (cmp_gt_lt bytes_Compare).
Qed.

Lemma put_present v t : vs_missing (with_version (decoded v) t) = false.
Proof. unfold vs_missing. apply bool_decide_eq_false_2. by intros [? _]. Qed.

Lemma sl_Get_missing es q : run_ok es -> vs_missing (sl_Get es q) = true -> Version (sl_Get es q) = 0.
Proof.
  intros Hok. unfold sl_Get. pose proof (run_seek_spec es q Hok) as Hs. destruct (run_seek es q) as [[e vs]|]; [|done].
  destruct Hs as (Hin & _). destruct Hok as [Hwf _]. rewrite Forall_forall in Hwf. destruct (Hwf _ Hin) as [_ [x Hx]].
  destruct (SameKey q e); [|done]. unfold vs_missing. cbn in *. rewrite Hx. by intros [? _]%bool_decide_eq_true.
Qed.

Lemma sl_Get_le es k ts : run_ok es -> k <> [] -> 0 < ts <= MaxUint64 -> Version (sl_Get es (KeyWithTs k ts)) <= ts.
Proof.
  intros Hok Hk Hts. destruct (sl_Get_newest es k ts Hok Hk Hts) as [[_ [->|[? _]]]|(_ & -> & _)]; [|lia..].
  change (Version vs_zero) with 0. lia.
Qed.

Lemma sl_put_elem es key v x : x ∈ sl_put es key v -> x = (key, decoded v) \/ x ∈ es.
Proof.
  induction es as [|e es IH]; cbn [sl_put]; [set_solver|]. destruct (compareKeys key e.1); set_solver.
Qed.

Lemma sl_put_in es k vs x : run_ok es -> x ∈ sl_put es k vs <-> x = (k, decoded vs) \/ x ∈ es /\ x.1 <> k.
Proof.
  intros [_ Hs]. induction Hs as [|e es Hs IH He]; cbn [sl_put].
  { rewrite list_elem_of_singleton, elem_of_nil. tauto. }
  rewrite Forall_forall in He.
  assert (forall z, z ∈ es -> z.1 <> e.1) as Hne.
  { intros z Hz E. specialize (He z Hz). cbn in He. rewrite E in He. by destruct (cmp_lt_irrefl compareKeys e.1). }
  destruct (compareKeys k e.1) eqn:E; rewrite !elem_of_cons.
  - apply (cmp_eq compareKeys) in E. subst k. split; [intros [->|Hx]; [by left|right; split; [by right|by apply Hne]]|].
    intros [->|[[->|Hx] Hn]]; [by left|done|by right].
  - assert (forall z, z = e \/ z ∈ es -> z.1 <> k) as Hk.
    { intros z Hz Ez. assert (compareKeys k z.1 = Lt) as Hl by (destruct Hz as [->|Hz]; [done|by apply (cmp_lt_trans compareKeys _ e.1); [|apply He]]).
      rewrite Ez in Hl. by destruct (cmp_lt_irrefl compareKeys k). }
    split; [intros [->|Hx]; [by left|right; split; [done|by apply Hk]]|]. intros [->|[Hx _]]; [by left|by right].
  - assert (e.1 <> k) as Hk by (intros <-; by rewrite (cmp_refl compareKeys) in E).
    rewrite IH. split; [intros [->|[->|[Hx Hn]]]; [by right; split; [left|]|by left|by right; split; [right|]]|].
    intros [->|[[->|Hx] Hn]]; [by right; left|by left|by right; right].
Qed.

Lemma run_ok_put es key v : run_ok es -> has_ts key -> run_ok (sl_put es key v).
Proof.
  intros [Hwf Hs] Hk. assert (kv_wf (key, decoded v)) as Hnew by (split; [done|by eexists]). split.
  - apply Forall_forall. intros x [->|Hx]%sl_put_elem; [done|]. rewrite Forall_forall in Hwf. by apply Hwf.
  - clear Hwf Hnew. induction Hs as [|e es Hs IH He]; cbn [sl_put]; [repeat constructor|].
    destruct (compareKeys key e.1) eqn:E.
    + apply (cmp_eq compareKeys) in E. constructor; [done|]. by rewrite E.
    + constructor; [by constructor|]. constructor; [done|]. eapply Forall_impl; [exact He|]. intros x Hx.
      by apply (cmp_lt_trans compareKeys _ e.1).
    + constructor; [done|]. apply Forall_forall. intros x [->|Hx]%sl_put_elem; [by apply (cmp_gt_lt compareKeys)|].
      rewrite Forall_forall in He. by apply He.
Qed.

(** A write into the first memtable changes a lookup exactly when what it found is not newer;
    an equal version is found in the first place that has it. *)
Lemma db_get_put mt imm levels k t v k' ts r :
  run_ok mt -> 0 < t <= MaxUint64 -> 0 < ts <= MaxUint64 -> k <> [] -> k' <> [] ->
  db_get false false mt imm levels (KeyWithTs k' ts) = Ok r -> Version r <= ts ->
  db_get false false (sl_put mt (KeyWithTs k t) v) imm levels (KeyWithTs k' ts)
  = Ok (if bool_decide (k' = k /\ t <= ts /\ Version r <= t) then with_version (decoded v) t else r).
Proof.
  intros Hok Ht Hts Hk Hk' Hr Hv. rewrite db_get_first in Hr |- *. cbv zeta in *. rewrite sl_Get_put by done.
  rewrite ParseTs_KeyWithTs in Hr |- * by (done || lia). set (vs := sl_Get mt (KeyWithTs k' ts)) in *.
  set (w := with_version (decoded v) t). assert (Version w = t) as Hw by done.
  destruct (bool_decide_reflect (k' = k /\ t <= ts)) as [[-> Hle]|Hno].
  2:{ rewrite (bool_decide_eq_false_2 (k' = k /\ t <= ts /\ Version vs <= t)), (bool_decide_eq_false_2 (k' = k /\ t <= ts /\ Version r <= t)) by tauto.
      exact Hr. }
  (* the start of the rest of the lookup *)
  set (acc := if vs_missing vs then vs_zero else if bool_decide (0 < Version vs) then vs else vs_zero) in *.
  assert (Version vs = ts /\ vs_missing vs = false /\ r = vs \/ rest_get imm levels (KeyWithTs k ts) acc = Ok r) as Hcase.
  { unfold acc. destruct (vs_missing vs); [by right|]. case_bool_decide; [left; split_and!; congruence|by right]. }
  assert (Version acc <= Z.max 0 (Version vs)) as Hacc.
  { unfold acc. destruct (vs_missing vs); [change (Version vs_zero) with 0; lia|]. destruct (bool_decide_reflect (0 < Version vs)); [lia|].
    change (Version vs_zero) with 0. lia. }
  destruct (bool_decide_reflect (Version vs <= t)) as [Hvs|Hvs].
  - rewrite (bool_decide_eq_true_2 (k = k /\ t <= ts /\ Version vs <= t)) by done. fold w. unfold w at 1. rewrite put_present. fold w.
    clear Hr. clearbody acc. rewrite Hw, (bool_decide_eq_true_2 (0 < t)) by lia. destruct (bool_decide_reflect (t = ts)) as [Hts'|Hts'].
    + rewrite bool_decide_eq_true_2; [done|]. split_and!; [done|lia|lia].
    + destruct Hcase as [(? & _)|Hrest]; [lia|].
      destruct (rest_get_later imm levels (KeyWithTs k ts) acc w r) as [[Hrv ->]|(r' & -> & H1 & H2 & ->)]; [lia|done| |].
      * rewrite ParseTs_KeyWithTs in Hrv by (done || lia). rewrite bool_decide_eq_false_2; [done|]. intros (_ & _ & ?). lia.
      * rewrite Hw. f_equal. repeat case_bool_decide; try done; exfalso; [intuition lia|].
        match goal with H : ¬ (_ /\ _) |- _ => apply H end. split_and!; [done|lia|lia].
  - rewrite (bool_decide_eq_false_2 (k = k /\ t <= ts /\ Version vs <= t)) by (intros (_ & _ & ?); lia).
    rewrite (bool_decide_eq_false_2 (k = k /\ t <= ts /\ Version r <= t)); [exact Hr|]. intros (_ & _ & Hrt).
    destruct Hcase as [(Hv1 & _ & ->)|Hrest]; [lia|].
    assert (rest_get imm levels (KeyWithTs k ts) acc = Ok r /\ Version acc <= Version r) as [_ Hge].
    { split; [done|]. destruct (rest_get_later imm levels (KeyWithTs k ts) acc acc r) as [[Hrv _]|(r' & _ & H1 & _)]; [lia|done| |done].
      rewrite ParseTs_KeyWithTs in Hrv by (done || lia). pose proof (sl_Get_le mt k ts Hok Hk Hts) as Hvt. fold vs in Hvt. lia. }
    unfold acc in Hge. destruct (vs_missing vs) eqn:Em.
    + pose proof (sl_Get_missing _ _ Hok Em). fold vs in H. lia.
    + rewrite bool_decide_eq_true_2 in Hge by lia. lia.
Qed.

(** ** Two timestamps *)

Definition at_most (t : Z) (a b : ValueStruct) : Prop := Version a <= t -> a = b.

Lemma newest_two es k t ts a b : one_value es -> 0 < t <= ts -> newest es k ts a -> newest es k t b -> at_most t a b.
Proof.
  intros Hone Ht Ha Hb Hv. apply (newest_same es k t); [done| |done]. destruct Ha as [A B]. split.
  - intros v vs Hin Hv'. apply (A v vs Hin). lia.
  - destruct B as [->|([? _] & Hs & He)]; [by left|right]. split; [lia|]. by split.
Qed.

Lemma sorted_one_value es : kvs_sorted es -> one_value es.
Proof.
  intros Hs k v v' Hv Hv'. apply list_elem_of_lookup in Hv as [i Hi]. apply list_elem_of_lookup in Hv' as [j Hj].
  destruct (Nat.lt_trichotomy i j) as [Hij|[->|Hij]]; [|congruence|].
  - pose proof (StronglySorted_lookup _ _ _ _ _ _ Hs Hi Hj Hij) as H. by apply (cmp_lt_irrefl compareKeys) in H.
  - pose proof (StronglySorted_lookup _ _ _ _ _ _ Hs Hj Hi Hij) as H. by apply (cmp_lt_irrefl compareKeys) in H.
Qed.

Definition vmax (m a : ValueStruct) : ValueStruct := if bool_decide (Version m < Version a) then a else m.

Lemma vmax_version m a : Version (vmax m a) = Z.max (Version m) (Version a).
Proof. unfold vmax. case_bool_decide; lia. Qed.

(** What a source gives at the two timestamps. *)
Definition two (t : Z) (a b : ValueStruct) : Prop := at_most t a b \/ Version a = 0 /\ Version b = 0.

Lemma two_max t m m' a b : 0 <= Version m -> at_most t m m' -> two t a b -> at_most t (vmax m a) (vmax m' b).
Proof.
  intros H0 Hm Hab Hv. rewrite vmax_version in Hv. rewrite <- Hm by lia. destruct Hab as [Hab|[Ha Hb]].
  - by rewrite <- Hab by lia.
  - unfold vmax. rewrite !bool_decide_eq_false_2 by lia. done.
Qed.

Lemma sl_Get_two es k t ts : run_ok es -> k <> [] -> 0 < t <= ts -> ts <= MaxUint64 ->
  two t (sl_Get es (KeyWithTs k ts)) (sl_Get es (KeyWithTs k t)) /\ 0 <= Version (sl_Get es (KeyWithTs k ts)).
Proof.
  intros Hok Hk Ht Hts. assert (one_value es) as Hone by (apply sorted_one_value, Hok).
  destruct (sl_Get_newest es k ts Hok Hk ltac:(lia)) as [Ha|(_ & Ha & Hz)], (sl_Get_newest es k t Hok Hk ltac:(lia)) as [Hb|(_ & Hb & Hz')].
  - split; [left; by apply (newest_two es k t ts)|]. destruct Ha as [_ [->|[? _]]]; [done|lia].
  - pose proof (newest_two es k t ts _ _ Hone ltac:(lia) Ha Hz') as H. destruct Ha as [_ [->|[Hv _]]].
    + split; [by right|done].
    + split; [|lia]. left. intros Hle. exfalso. specialize (H Hle). rewrite H in Hv. cbn in Hv. lia.
  - split; [|lia]. right. split; [done|]. pose proof (newest_two es k t ts _ _ Hone ltac:(lia) Hz Hb) as H. rewrite <- H; [done|cbn; lia].
  - split; [by right|lia].
Qed.

Lemma mem_loop_cons sl mems key version m : run_ok sl -> 0 <= Version m -> 0 < version ->
  mem_loop (sl :: mems) key version m =
    if bool_decide (Version (sl_Get sl key) = version) then inl (sl_Get sl key)
    else mem_loop mems key version (vmax m (sl_Get sl key)).
Proof.
  intros Hok Hm Hv. cbn [mem_loop]. destruct (vs_missing (sl_Get sl key)) eqn:E; [|done].
  pose proof (sl_Get_missing _ _ Hok E) as H. unfold vmax. rewrite H, !bool_decide_eq_false_2 by lia. done.
Qed.

(** A lookup that goes on after the version sought for was seen. *)
Lemma mem_loop_after mems key ts m n : mem_loop mems key ts m = inr n -> Version m <= Version n /\ (Version n = Version m -> n = m).
Proof.
  intros H. pose proof (mem_loop_later mems key ts m m ltac:(lia)) as Hl. rewrite H in Hl. by destruct Hl as (_ & _ & ? & ? & _).
Qed.

(** The step both loops share: the source with [a] and [b] is looked at, the lookup at [t] ends
    there and the one at [ts] goes on to [n]. *)
Lemma two_exit t m m' a b n : 0 < t -> at_most t m m' -> Version m' < t -> two t a b -> Version b = t ->
  Version (vmax m a) <= Version n /\ (Version n = Version (vmax m a) -> n = vmax m a) -> at_most t n b.
Proof.
  intros H0 Hmm Hm' Hab Hb [H1 H2] Hn. rewrite vmax_version in *. destruct Hab as [Hab|[_ Hb0]]; [|lia].
  assert (m = m') as -> by (apply Hmm; lia). assert (a = b) as -> by (apply Hab; lia).
  rewrite H2 by lia. unfold vmax. by rewrite bool_decide_eq_true_2 by lia.
Qed.

Lemma mem_loop_two mems k t ts : Forall run_ok mems -> k <> [] -> 0 < t < ts -> ts <= MaxUint64 -> forall m m',
  0 <= Version m -> at_most t m m' -> 0 <= Version m' < t ->
  match mem_loop mems (KeyWithTs k ts) ts m with
  | inl r => Version r = ts
  | inr n => 0 <= Version n /\
      match mem_loop mems (KeyWithTs k t) t m' with
      | inl b => Version b = t /\ at_most t n b
      | inr n' => at_most t n n' /\ 0 <= Version n' < t
      end
  end.
Proof.
  intros Hok Hk Ht Hts. induction Hok as [|sl mems Hsl Hok IH]; intros m m' Hm Hmm Hm'; [done|].
  rewrite !mem_loop_cons by (done || lia). destruct (sl_Get_two sl k t ts Hsl Hk ltac:(lia) Hts) as [Hab H0].
  destruct (sl_Get_two sl k t t Hsl Hk ltac:(lia) ltac:(lia)) as [_ Hb0]. pose proof (sl_Get_le sl k t Hsl Hk ltac:(lia)) as Hbt.
  set (a := sl_Get sl (KeyWithTs k ts)) in *. set (b := sl_Get sl (KeyWithTs k t)) in *.
  destruct (bool_decide_reflect (Version a = ts)) as [|_]; [done|].
  assert (0 <= Version (vmax m a)) as Hma by (rewrite vmax_version; lia).
  destruct (bool_decide_reflect (Version b = t)) as [Hb|Hb].
  - pose proof (mem_loop_later mems (KeyWithTs k ts) ts (vmax m a) (vmax m a) ltac:(lia)) as Hl.
    destruct (mem_loop mems (KeyWithTs k ts) ts (vmax m a)) as [r|n]; [by destruct Hl|].
    destruct Hl as (_ & _ & H1 & H2 & _). split; [lia|]. split; [done|]. by apply (two_exit t m m' a); try lia.
  - apply IH; [done|by apply two_max|]. rewrite vmax_version. lia.
Qed.

Lemma table_get_two tbl k t ts m m' : table_ok tbl -> k <> [] -> 0 < t <= ts -> ts <= MaxUint64 ->
  0 <= Version m -> 0 <= Version m' -> at_most t m m' ->
  exists n n', table_get tbl (KeyWithTs k ts) m = Some n /\ table_get tbl (KeyWithTs k t) m' = Some n' /\
    0 <= Version n /\ 0 <= Version n' /\ at_most t n n'.
Proof.
  intros Hok Hk Ht Hts Hm Hm' Hmm. unfold table_get. rewrite !ParseKey_KeyWithTs.
  destruct (DoesNotHave_spec tbl (Hash k) Hok) as (b & -> & _). cbn [mbind option_bind].
  destruct b; [by eexists _, _|]. eexists _, _. split; [done|]. split; [done|].
  rewrite (lookup_run_max _ _ m), (lookup_run_max _ _ m') by done. cbv zeta.
  pose proof (lookup_run_newest _ k ts (tb_run _ Hok) Hk ltac:(lia)) as Ha.
  pose proof (lookup_run_newest _ k t (tb_run _ Hok) Hk ltac:(lia)) as Hb.
  set (a := lookup_run _ (KeyWithTs k ts) vs_zero) in *. set (b := lookup_run _ (KeyWithTs k t) vs_zero) in *.
  fold (vmax m a) (vmax m' b). rewrite !vmax_version. split; [lia|]. split; [lia|]. apply two_max; [done..|]. left.
  apply (newest_two (entries tbl) k t ts); [|lia|done|done]. apply sorted_one_value, Hok.
Qed.

Lemma fold_table_two l k t ts : Forall table_ok l -> k <> [] -> 0 < t <= ts -> ts <= MaxUint64 -> forall m m',
  0 <= Version m -> 0 <= Version m' -> at_most t m m' ->
  exists n n', foldl (fun acc th => maxVs ← acc; table_get th (KeyWithTs k ts) maxVs) (Some m) l = Some n /\
    foldl (fun acc th => maxVs ← acc; table_get th (KeyWithTs k t) maxVs) (Some m') l = Some n' /\ at_most t n n'.
Proof.
  intros Hok Hk Ht Hts. induction Hok as [|tbl l Htbl Hok IH]; intros m m' Hm Hm' Hmm; [by exists m, m'|].
  destruct (table_get_two tbl k t ts m m' Htbl Hk Ht Hts Hm Hm' Hmm) as (n & n' & E & E' & H1 & H2 & H3).
  cbn [foldl mbind option_bind]. rewrite E, E'. by apply IH.
Qed.

Lemma level_get_two s k t ts : level_ok s -> k <> [] -> 0 < t <= ts -> ts <= MaxUint64 ->
  exists a b, level_get s (KeyWithTs k ts) = Some a /\ level_get s (KeyWithTs k t) = Some b /\
    newest (level_entries s) k ts a /\ newest (level_entries s) k t b /\ at_most t a b.
Proof.
  intros Hok Hk Ht Hts. destruct (level_get_newest s k ts Hok Hk ltac:(lia)) as (a & Ea & Ha).
  destruct (level_get_newest s k t Hok Hk ltac:(lia)) as (b & Eb & Hb). exists a, b. split_and!; [done..|].
  destruct (decide (level s = 0)) as [Hl|Hl].
  - destruct Hok as [Htb _ _ _]. unfold level_get, getTableForKey in Ea, Eb. rewrite bool_decide_eq_true_2 in Ea, Eb by done.
    destruct (fold_table_two (reverse (tables s)) k t ts) with (m := vs_zero) (m' := vs_zero) as (n & n' & E & E' & H);
      [by apply Forall_reverse|done|done|done|done|done|by intros ?|]. rewrite E in Ea. rewrite E' in Eb. by simplify_eq.
  - apply (newest_two (level_entries s) k t ts); [|lia|done|done]. destruct Hok as [Htb Hs _ _].
    apply sorted_one_value, tables_concat_sorted; auto.
Qed.

Lemma newest_range es k ts r : newest es k ts r -> 0 < ts -> 0 <= Version r <= ts /\ (vs_missing r = true -> Version r = 0).
Proof.
  intros Hn Hts. split; [destruct Hn as [_ [->|[? _]]]; [cbn; lia|lia]|]. intros H. by apply (newest_missing es k ts r Hn) in H as ->.
Qed.

Lemma levels_loop_cons h levels key version m a : 0 <= level h -> level_get h key = Some a -> 0 <= Version m -> 0 < version ->
  (vs_missing a = true -> Version a = 0) ->
  levels_loop (h :: levels) key version 0 m =
    if bool_decide (Version a = version) then Some a else levels_loop levels key version 0 (vmax m a).
Proof.
  intros Hl Ea Hm Hv Ha. cbn [levels_loop]. rewrite bool_decide_eq_false_2, Ea by lia. cbn [mbind option_bind].
  destruct (vs_missing a); [|done]. specialize (Ha eq_refl). unfold vmax. rewrite Ha, !bool_decide_eq_false_2 by lia. done.
Qed.

Lemma levels_loop_total levels k t version : Forall level_ok levels -> k <> [] -> 0 < t <= MaxUint64 -> forall m,
  exists r, levels_loop levels (KeyWithTs k t) version 0 m = Some r.
Proof.
  intros Hok Hk Ht. induction Hok as [|h levels Hh Hok IH]; intros m; [by exists m|]. cbn [levels_loop].
  destruct (bool_decide (level h < 0)); [apply IH|]. destruct (level_get_newest h k t Hh Hk ltac:(lia)) as (a & -> & _).
  cbn [mbind option_bind]. destruct (vs_missing a); [apply IH|]. destruct (bool_decide _); [by eexists|apply IH].
Qed.

Lemma levels_loop_two levels k t ts : Forall level_ok levels -> Forall (fun h => 0 <= level h) levels ->
  k <> [] -> 0 < t < ts -> ts <= MaxUint64 -> forall m m', 0 <= Version m -> at_most t m m' -> 0 <= Version m' < t ->
  exists r r', levels_loop levels (KeyWithTs k ts) ts 0 m = Some r /\ levels_loop levels (KeyWithTs k t) t 0 m' = Some r' /\
    at_most t r r'.
Proof.
  intros Hok Hl Hk Ht Hts. induction Hok as [|h levels Hh Hok IH]; intros m m' Hm Hmm Hm'; [by exists m, m'|].
  apply Forall_cons in Hl as [Hlh Hl]. destruct (level_get_two h k t ts Hh Hk ltac:(lia) Hts) as (a & b & Ea & Eb & Ha & Hb & Hab).
  apply newest_range in Ha as [Ha Ha'], Hb as [Hb Hb']; [|lia..].
  rewrite (levels_loop_cons h levels _ ts m a), (levels_loop_cons h levels _ t m' b) by (done || lia).
  assert (0 <= Version (vmax m a)) as Hma by (rewrite vmax_version; lia).
  destruct (bool_decide_reflect (Version a = ts)) as [Hats|_].
  - destruct (levels_loop_total levels k t t Hok Hk ltac:(lia) (vmax m' b)) as [r' Er']. rewrite Er'.
    destruct (bool_decide (Version b = t)); (eexists a, _; split_and!; [done|done|]; intros ?; lia).
  - destruct (bool_decide_reflect (Version b = t)) as [Hb2|Hb2].
    + destruct (levels_loop_total levels k ts ts Hok Hk ltac:(lia) (vmax m a)) as [r Er]. exists r, b. split_and!; [done..|].
      destruct (levels_loop_later levels (KeyWithTs k ts) ts (vmax m a) (vmax m a) r) as [[Hr _]|(_ & _ & H1 & H2 & _)]; [lia|done|intros ?; lia|].
      apply (two_exit t m m' a); try done; try lia. by left.
    + apply (IH Hl); [done|apply two_max; [done|done|by left]|]. rewrite vmax_version. lia.
Qed.

(** Lookups at two timestamps that find the same version find the same value. *)
Lemma db_get_two mt imm levels k t ts r : run_ok mt -> Forall run_ok imm -> Forall level_ok levels ->
  Forall (fun h => 0 <= level h) levels -> k <> [] -> 0 < t <= ts -> ts <= MaxUint64 ->
  db_get false false mt imm levels (KeyWithTs k ts) = Ok r -> Version r <= t ->
  db_get false false mt imm levels (KeyWithTs k t) = Ok r.
Proof.
  intros Hmt Himm Hlv Hl Hk Ht Hts Hr Hv. destruct (decide (t = ts)) as [->|Hne]; [done|].
  unfold db_get, levels_get in *. rewrite ParseTs_KeyWithTs in Hr |- * by (done || lia).
  assert (Forall run_ok (getMemTables false mt imm)) as Hmems by (constructor; [done|by apply Forall_reverse]).
  pose proof (mem_loop_two _ k t ts Hmems Hk ltac:(lia) Hts vs_zero vs_zero ltac:(done) ltac:(by intros ?) ltac:(cbn; lia)) as H.
  destruct (mem_loop _ (KeyWithTs k ts) ts vs_zero) as [a|n]; [injection Hr as ->; lia|].
  destruct H as [H0 H].
  destruct (mem_loop _ (KeyWithTs k t) t vs_zero) as [b|n'].
  - destruct (levels_loop levels (KeyWithTs k ts) ts 0 n) as [r1|] eqn:E; [|done]. injection Hr as ->.
    destruct (levels_loop_later levels (KeyWithTs k ts) ts n n r) as [[Hr _]|(_ & _ & H1 & H2 & _)]; [lia|done|lia|].
    destruct H as [Hb Hnb]. assert (n = b) as -> by (apply Hnb; lia). f_equal. symmetry. apply H2. lia.
  - destruct H as [Hnn Hn'].
    destruct (levels_loop_two levels k t ts Hlv Hl Hk ltac:(lia) Hts n n' H0 Hnn Hn') as (r1 & r2 & E1 & E2 & H12).
    rewrite E1 in Hr. rewrite E2. injection Hr as ->. cbn [unpanic]. f_equal. symmetry. by apply H12.
Qed.
