(* ===== verification/Gc.v ===== *)
(** * Gc: garbage collection of the value log (value.go, db.go)

    [RunValueLogGC] picks the file with the most to discard and rewrites it: every entry the LSM
    tree still points to goes through the write path again, then the file is deleted.  No read is
    shown to notice. *)

From Stdlib Require Import SpecFloat.
From S2P Require Import Prelude Keys Codec Discard Checksum Encrypt LogFile Tables TableBuild Wal.
From S2P Require Import LevelHandler Transaction ValueLog VlogRecords WritePath Compaction Rewrite Flush Lookup.

(** What the collector sees and changes of [DB]. *)
Record DB : Type := mkDB {
  db_w : writer;
  db_vlog : valueLog;
  db_levels : list levelHandler;
  db_discardStats : discardStats
}.

Definition set_vlog (db : DB) (vl : valueLog) : DB := mkDB (db_w db) vl (db_levels db) (db_discardStats db).

Definition set_discardStats (db : DB) (ds : discardStats) : DB := mkDB (db_w db) (db_vlog db) (db_levels db) ds.

(** Options, files and keys of the environment; [gc_clock] is the time at which an entry was
    looked at, [gc_flusher] and [gc_fuel] what the loop that waits for room sees. *)
Record gc_env : Type := mkGc {
  gc_opt : txn_opts;
  gc_wenv : writer_env;
  gc_vopt : vlog_opts;
  gc_venv : vlog_env;
  gc_flusher : writer -> writer;
  gc_fuel : nat;
  gc_threshold : Z;
  gc_blockWrites : bool;
  gc_clock : Entry -> Z
}.

Inductive gc_error : Type :=
  | GcDb (e : db_error) | GcTxn (e : txn_error) | GcWrite (e : write_error) | GcLog (e : log_error)
  | ErrMarked | ErrEmptyValue | ErrNoFid | ErrNoRewrite | ErrRejected | ErrGCInMemoryMode | ErrGCInReadOnlyMode
  | ErrInvalidRequest.

Definition lift_err {E A} (f : E -> gc_error) (r : result E A) : result gc_error A :=
  match r with Ok a => Ok a | Err e => Err (f e) | Panic => Panic end.

Section Gc.
Context `{A : BlockCipher} `{M : Mmap} (env : gc_env).

(** [db.get]. *)
Definition gc_get (db : DB) (key : bytes) : result db_error ValueStruct :=
  db_get false false (mt_sl (w_mt (db_w db))) (mt_sl <$> w_imm (db_w db)) (db_levels db) key.

(** [batchSet] sends one request through the write path and waits for it. *)
Definition batchSet (db : DB) (es : list Entry) : result gc_error DB :=
  req ← lift_err GcTxn (sendToWriteCh (gc_opt env) (gc_threshold env) (gc_blockWrites env) es);
  '(w, vl) ← lift_err GcWrite (writeRequests (gc_wenv env) (gc_vopt env) (gc_venv env) (gc_flusher env) (gc_fuel env)
                                 (gc_threshold env) (db_w db) (db_vlog db) [req]);
  Ok (mkDB w vl (db_levels db) (db_discardStats db)).

Definition discardEntry (e : Entry) (vs : ValueStruct) : bool :=
  if bool_decide (Version vs <> ParseTs (eKey e)) then true
  else if negb (has_bit (Meta vs) bitValuePointer) then true
  else has_bit (Meta vs) bitFinTxn.

(** The entry that is written again: no value pointer and transaction marks. *)
Definition moved_entry (e : Entry) : Entry :=
  mkEntry (eKey e) (Some (vbytes (eValue e))) (eExpiresAt e) 0 0 (eUserMeta e)
    (clear_bit (emeta e) (Z.lor (Z.lor bitValuePointer bitTxn) bitFinTxn)) 0 0.

(** What the function given to [iterate] keeps between its calls. *)
Record rewriter : Type := mkRW { rw_db : DB; rw_wb : list Entry; rw_size : Z }.

(** The batch is written when [e] would make it too large.  On an error the state is the one
    before the call that failed. *)
Definition add_moved (s : rewriter) (e : Entry) : rewriter * result gc_error () :=
  let '(es, ne) := estimateSizeAndSetThreshold (moved_entry e) (gc_threshold env) in
  let es := es + len (vbytes (eValue e)) in
  if bool_decide (maxBatchCount (gc_opt env) <= len (rw_wb s) + 1)
     || bool_decide (maxBatchSize (gc_opt env) <= rw_size s + es) then
    match batchSet (rw_db s) (rw_wb s) with
    | Ok db => (mkRW db [ne] es, Ok ())
    | Err e => (s, Err e)
    | Panic => (s, Panic)
    end
  else (mkRW (rw_db s) (rw_wb s ++ [ne]) (rw_size s + es), Ok ()).

(** The pointer the LSM tree has for the entry, if it is still to be looked at. *)
Definition lsm_pointer (db : DB) (e : Entry) : result gc_error (option valuePointer) :=
  if isDeletedOrExpired (emeta e) (eExpiresAt e) (gc_clock env e) then Ok None
  else
    vs ← lift_err GcDb (gc_get db (eKey e));
    if discardEntry e vs then Ok None
    else if bool_decide (len (vbytes (Value vs)) = 0) then Err ErrEmptyValue
    else vp ← unpanic (vp_Decode (vbytes (Value vs))); Ok (Some vp).

(** The function itself ([fe]), for the file [fid]. *)
Definition rewrite_entry (fid : Z) (s : rewriter) (e : Entry) : rewriter * result gc_error () :=
  match lsm_pointer (rw_db s) e with
  | Ok None => (s, Ok ())
  | Ok (Some vp) =>
      if bool_decide (fid < Fid vp) then (s, Ok ())
      else if bool_decide (eoffset e < Offset vp) then (s, Ok ())
      else if bool_decide (Fid vp = fid /\ Offset vp = eoffset e) then add_moved s e
      else (s, Ok ())
  | Err e => (s, Err e)
  | Panic => (s, Panic)
  end.

(** As a step of [iterate]; an error or panic of the function ends it. *)
Definition rewrite_step (fid : Z) (e : Entry) (_ : valuePointer) (s : rewriter * result gc_error ())
    : log_step (rewriter * result gc_error ()) :=
  match rewrite_entry fid s.1 e with
  | (s, Ok _) => Cont (s, Ok ())
  | (s, r) => Fail (s, r)
  end.

(** Every entry of the file through [rewrite_entry]. *)
Definition rewrite_file (db : DB) (f : logFile) : rewriter * result gc_error () :=
  match iterate (rewrite_step (lf_fid f)) f 0 (mkRW db [] 0, Ok ()) with
  | (s, Ok _) => s
  | ((s, Ok _), Err e) => (s, Err (GcLog e))
  | ((s, r), Err _) => (s, r)
  | ((s, _), Panic) => (s, Panic)
  end.

(** The last batches, smaller when the write path refuses them as too large. *)
Fixpoint flush_batches (fuel : nat) (db : DB) (wb : list Entry) (batchSize : nat) : DB * result gc_error () :=
  match fuel with
  | O => (db, Panic)
  | S fuel =>
      if bool_decide (wb = []) then (db, Ok ())
      else if bool_decide (batchSize = 0%nat) then (db, Err ErrNoRewrite)
      else
        match batchSet db (take batchSize wb) with
        | Ok db => flush_batches fuel db (drop batchSize wb) batchSize
        | Err (GcTxn ErrTxnTooBig) => flush_batches fuel db wb (Nat.div2 batchSize)
        | Err e => (db, Err e)
        | Panic => (db, Panic)
        end
  end.

(** Every turn writes an entry or halves the batch: [length wb + 13] is enough for 1024. *)
Definition flush_all (db : DB) (wb : list Entry) : DB * result gc_error () :=
  flush_batches (length wb + 13) db wb 1024.

(** [deleteLogFile]: its statistics become 0; the deletion itself is left to the system. *)
Definition deleteLogFile (db : DB) (fid : Z) : DB * result gc_error () :=
  match Update (db_discardStats db) fid (-1) with
  | Some (ds, _) => (set_discardStats db ds, Ok ())
  | None => (db, Panic)
  end.

Definition delete_file (vl : valueLog) (fid : Z) : valueLog :=
  mkVlog (delete fid (filesMap vl)) (maxFid vl) (filesToBeDeleted vl) (numActiveIterators vl) (writableLogOffset vl)
    (numEntriesWritten vl).

Definition mark_file (vl : valueLog) (fid : Z) : valueLog :=
  mkVlog (filesMap vl) (maxFid vl) (filesToBeDeleted vl ++ [fid]) (numActiveIterators vl) (writableLogOffset vl)
    (numEntriesWritten vl).

(** The end of [rewrite]: while an iterator is open the file waits. *)
Definition remove_file (db : DB) (fid : Z) : DB * result gc_error () :=
  if bool_decide (filesMap (db_vlog db) !! fid = None) then (db, Err ErrNoFid)
  else if bool_decide (iteratorCount (db_vlog db) = 0) then deleteLogFile (set_vlog db (delete_file (db_vlog db) fid)) fid
  else (set_vlog db (mark_file (db_vlog db) fid), Ok ()).

Definition rewrite (db : DB) (f : logFile) : DB * result gc_error () :=
  if bool_decide (lf_fid f ∈ filesToBeDeleted (db_vlog db)) then (db, Err ErrMarked)
  else if negb (bool_decide (lf_fid f < maxFid (db_vlog db))) then (db, Panic)
  else
    match rewrite_file db f with
    | (s, Ok _) =>
        match flush_all (rw_db s) (rw_wb s) with
        | (db, Ok _) => remove_file db (lf_fid f)
        | r => r
        end
    | (s, r) => (rw_db s, r)
    end.

Definition doRunGC (db : DB) (f : logFile) : DB * result gc_error () :=
  match rewrite db f with
  | (db, Ok _) => deleteLogFile db (lf_fid f)
  | r => r
  end.

(** The loop of [pickLog]: a file that is gone has its statistics reset. *)
Fixpoint pick_loop (fuel : nat) (vl : valueLog) (ds : discardStats) (discardRatio : spec_float)
    : option (discardStats * option logFile) :=
  match fuel with
  | O => None
  | S fuel =>
      let '(fid, discard) := MaxDiscard ds in
      if bool_decide (fid = 0) then Some (ds, None)
      else
        match filesMap vl !! fid with
        | None => '(ds, _) ← Update ds fid (-1); pick_loop fuel vl ds discardRatio
        | Some lf =>
            if SFltb (f64 discard) (SFmul 53 1024 discardRatio (f64 (len (lf_Data lf)))) then Some (ds, None)
            else if bool_decide (fid < maxFid vl) then Some (ds, Some lf)
            else Some (ds, None)
        end
  end.

(** Every turn resets a slot that was not 0. *)
Definition pickLog (db : DB) (discardRatio : spec_float) : option (DB * option logFile) :=
  '(ds, f) ← pick_loop (S (ds_Len (db_discardStats db))) (db_vlog db) (db_discardStats db) discardRatio;
  Some (set_discardStats db ds, f).

(** [busy]: the channel that allows one collection at a time is taken. *)
Definition runGC (busy : bool) (db : DB) (discardRatio : spec_float) : DB * result gc_error () :=
  if busy then (db, Err ErrRejected)
  else
    match pickLog db discardRatio with
    | None => (db, Panic)
    | Some (db, None) => (db, Err ErrNoRewrite)
    | Some (db, Some f) => doRunGC db f
    end.

Definition RunValueLogGC (busy : bool) (db : DB) (discardRatio : spec_float) : DB * result gc_error () :=
  if vo_InMemory (gc_vopt env) then (db, Err ErrGCInMemoryMode)
  else if vo_ReadOnly (gc_vopt env) then (db, Err ErrGCInReadOnlyMode)
  else if SFleb (f64 1) discardRatio || SFleb discardRatio (f64 0) then (db, Err ErrInvalidRequest)
  else runGC busy db discardRatio.

(** What compactions found in the value log, file by file. *)
Fixpoint discard_updates (ds : discardStats) (stats : list (Z * Z)) : option discardStats :=
  match stats with
  | [] => Some ds
  | (fid, discard) :: stats => '(ds, _) ← Update ds fid discard; discard_updates ds stats
  end.

Definition updateDiscardStats (db : DB) (stats : list (Z * Z)) : option DB :=
  if vo_InMemory (gc_vopt env) || vo_ReadOnly (gc_vopt env) then Some db
  else ds ← discard_updates (db_discardStats db) stats; Some (set_discardStats db ds).
End Gc.

(** ** What a read sees *)

(** All of an entry but its value and the bits the write path sets. *)
Definition vs_info (vs : ValueStruct) : byte * Z * bool * bool * bool :=
  (UserMeta vs, ExpiresAt vs, has_bit (Meta vs) bitDelete, has_bit (Meta vs) bitDiscardEarlierVersions,
   has_bit (Meta vs) bitMergeEntry).

Definition entry_info (e : Entry) : byte * Z * bool * bool * bool := vs_info (value_of e).

(** Neither deleted, nor expired, nor the end marker of a transaction. *)
Definition live (now : Z) (vs : ValueStruct) : bool :=
  negb (isDeletedOrExpired (Meta vs) (ExpiresAt vs) now) && negb (has_bit (Meta vs) bitFinTxn).

Section GcSpec.
Context `{A : BlockCipher} `{!BlockCipherLaws A} `{M : Mmap} `{!MmapLaws M} (env : gc_env).

(** The value of an entry of the LSM tree, through the value log if it is there. *)
Definition read_value (vl : valueLog) (vs : ValueStruct) : result vlog_error bytes :=
  if has_bit (Meta vs) bitValuePointer then
    vp ← unpanic (vp_Decode (vbytes (Value vs))); vlog_Read (gc_vopt env) vl vp
  else Ok (vbytes (Value vs)).

(** What [Get] and an iterator show of the newest version of [k] at [ts]: the version, the
    metadata and, when the entry is live, the value. *)
Definition observed (now : Z) (vl : valueLog) (vs : ValueStruct) : Z * (byte * Z * bool * bool * bool) * option (result vlog_error bytes) :=
  (Version vs, vs_info vs, if live now vs then Some (read_value vl vs) else None).

Definition gc_read (now : Z) (db : DB) (k : bytes) (ts : Z) :=
  match gc_get db (KeyWithTs k ts) with Ok vs => Some (observed now (db_vlog db) vs) | _ => None end.

Definition same_reads (now : Z) (db db' : DB) : Prop := forall now' k ts,
  now <= now' < 2 ^ 64 -> k <> [] -> 0 < ts <= MaxUint64 -> gc_read now' db' k ts = gc_read now' db k ts.

(** ** Well-formed states *)

(** The pointer of an entry of the LSM tree: it may be to a file that is gone when the entry is
    not live, otherwise it is to the entry's record. *)
Definition ptr_ok (now : Z) (vl : valueLog) (L : gmap Z (list Entry)) (k : bytes) (vs : ValueStruct) : Prop :=
  has_bit (Meta vs) bitValuePointer = true -> exists p, Value vs = Some (vp_Encode p) /\ vp_wf p /\ Fid p <= maxFid vl /\
    (is_Some (filesMap vl !! Fid p) -> exists e, stored vl p e /\ in_log L p e /\
       eKey e = KeyWithTs k (Version vs) /\ entry_info e = vs_info vs) /\
    (live now vs = true -> is_Some (filesMap vl !! Fid p)).

Record gc_ok (now : Z) (db : DB) (L : gmap Z (list Entry)) : Prop := {
  go_mt : run_ok (mt_sl (w_mt (db_w db)));
  go_imm : Forall run_ok (mt_sl <$> w_imm (db_w db));
  go_levels : Forall level_ok (db_levels db);
  go_level : Forall (fun h => 0 <= level h) (db_levels db);
  go_vlog : vlog_ok (gc_vopt env) (db_vlog db);
  go_log : vlog_log (db_vlog db) L;
  go_fid : maxFid (db_vlog db) < 2 ^ 32;
  go_ptr k ts vs : k <> [] -> 0 < ts <= MaxUint64 -> gc_get db (KeyWithTs k ts) = Ok vs -> ptr_ok now (db_vlog db) L k vs;
  go_discard : ds_ok (db_discardStats db);
  go_now : 0 <= now
}.

(** The environment: keys for new files; the goroutine that flushes takes full memtables over, it
    does not change what is in memory while a writer waits. *)
Record genv_ok : Prop := {
  ge_vopt : opt_ok (gc_vopt env);
  ge_venv : env_ok (gc_venv env);
  ge_mem : we_InMemory (gc_wenv env) = false;
  ge_wal : exists dk, forall fid, registry_ok (we_latest (gc_wenv env)) (we_registry (gc_wenv env)) (we_iv (gc_wenv env) fid) dk;
  ge_size : 20 <= 2 * we_MemTableSize (gc_wenv env) /\ 2 * we_MemTableSize (gc_wenv env) + maxHeaderSize < 2 ^ 32;
  ge_flusher w : w_mt (gc_flusher env w) = w_mt w /\ w_imm (gc_flusher env w) = w_imm w
}.

(** ** Lemmas: rotating memtables *)

(** The same memory for lookups: full memtables may have moved behind an empty one. *)
Inductive rotated (w : writer) : writer -> Prop :=
  | rot_none w' : w_mt w' = w_mt w -> w_imm w' = w_imm w -> rotated w w'
  | rot_new w' : mt_sl (w_mt w') = [] -> w_imm w' = w_imm w ++ [w_mt w] -> rotated w w'.

Lemma ensureRoom_rotated w w' : genv_ok -> ensureRoomForWrite (gc_wenv env) w = Ok w' -> rotated w w'.
Proof using BlockCipherLaws0 MmapLaws0.
  intros [_ _ Hmem (dk & Hdk) [H1 H2] _]. unfold ensureRoomForWrite. destruct (negb _); [intros [= <-]; by apply rot_none|].
  destruct (bool_decide _); [|done]. unfold newMemTable. cbn [w_nextMemFid]. destruct (we_exists _ _); [done|].
  rewrite Hmem. destruct (openMemTable_new _ _ _ dk false (we_MemTableSize (gc_wenv env)) (w_nextMemFid w) (Hdk (w_nextMemFid w)) H1 H2)
    as (mt & lf & -> & _ & Hsl & _). cbn [lift_wal mbind result_bind]. intros [= <-]. by apply rot_new.
Qed.

Lemma wait_room_rotated fuel : forall w w', genv_ok -> wait_room (gc_wenv env) (gc_flusher env) fuel w = Ok w' -> rotated w w'.
Proof using BlockCipherLaws0 MmapLaws0.
  induction fuel as [|fuel IH]; intros w w' Hg; cbn [wait_room];
    destruct (ensureRoomForWrite (gc_wenv env) w) as [w1|[]|] eqn:E; try done.
  - intros [= <-]. by apply ensureRoom_rotated.
  - intros [= <-]. by apply ensureRoom_rotated.
  - intros Hw. destruct (ge_flusher Hg w) as [Em Ei]. apply (IH _ _ Hg) in Hw as [w2 E1 E2|w2 E1 E2].
    + apply rot_none; congruence.
    + apply rot_new; congruence.
Qed.

Lemma rotated_get w w' vl vl' levels ds ds' key : rotated w w' -> gc_get (mkDB w' vl' levels ds') key = gc_get (mkDB w vl levels ds) key.
Proof using Type.
  intros [w1 E1 E2|w1 E1 E2]; unfold gc_get; cbn [db_w db_levels]; rewrite E1, E2; [done|].
  rewrite fmap_app. cbn [fmap list_fmap]. by rewrite db_get_rotate.
Qed.

Lemma rotated_runs w w' : rotated w w' -> run_ok (mt_sl (w_mt w)) -> Forall run_ok (mt_sl <$> w_imm w) ->
  run_ok (mt_sl (w_mt w')) /\ Forall run_ok (mt_sl <$> w_imm w').
Proof using Type.
  intros [w1 E1 E2|w1 E1 E2] H1 H2; rewrite E1, E2; [done|]. split; [split; constructor|].
  rewrite fmap_app. apply Forall_app. split; [done|]. by constructor.
Qed.
(** ** Lemmas: values *)

(** The value of an entry of the LSM tree is [v]. *)
Definition readable (vl : valueLog) (vs : ValueStruct) (v : bytes) : Prop :=
  if has_bit (Meta vs) bitValuePointer then
    exists p e, Value vs = Some (vp_Encode p) /\ vp_wf p /\ stored vl p e /\ vbytes (eValue e) = v
  else vbytes (Value vs) = v.

Lemma readable_read vl vs v : vlog_ok (gc_vopt env) vl -> readable vl vs v -> read_value vl vs = Ok v.
Proof using BlockCipherLaws0.
  intros [[Hfiles _ _] _]. unfold readable, read_value. destruct (has_bit (Meta vs) bitValuePointer); [|by intros <-].
  intros (p & e & -> & Hp & Hs & <-). 
  change (vbytes (Some (vp_Encode p))) with (vp_Encode p). pose proof (vp_Decode_Encode p [] Hp) as Hd.
  rewrite app_nil_r in Hd. rewrite Hd.
  cbn [unpanic mbind result_bind]. by apply stored_Read.
Qed.

Lemma readable_extends vl vl' vs v : extends vl vl' -> readable vl vs v -> readable vl' vs v.
Proof using Type.
  intros (He & _). unfold readable. destruct (has_bit (Meta vs) bitValuePointer); [|done].
  intros (p & e & H1 & H2 & H3 & H4). exists p, e. auto.
Qed.

Lemma ptr_readable now vl L k vs : ptr_ok now vl L k vs -> live now vs = true -> exists v, readable vl vs v.
Proof using Type.
  intros Hp Hl. unfold readable. destruct (has_bit (Meta vs) bitValuePointer) eqn:E; [|by eexists].
  destruct (Hp E) as (p & Hv & Hw & _ & He & Hs). destruct (He (Hs Hl)) as (e & Hst & _). by eexists _, p, e.
Qed.

Lemma live_before now now' vs : 0 <= now <= now' -> now' < 2 ^ 64 -> live now' vs = true -> live now vs = true.
Proof using Type.
  intros H1 H2. unfold live. rewrite !andb_true_iff, !negb_true_iff. intros [Hd Hf]. split; [|done].
  unfold isDeletedOrExpired in *. destruct (has_bit (Meta vs) bitDelete); [done|].
  rewrite !wrap_small in * by lia. repeat case_bool_decide; try done; lia.
Qed.

(** Two entries that show the same. *)
Lemma observed_same now vl vs vs' v : vlog_ok (gc_vopt env) vl -> Version vs = Version vs' -> vs_info vs = vs_info vs' ->
  has_bit (Meta vs) bitFinTxn = has_bit (Meta vs') bitFinTxn -> readable vl vs v -> readable vl vs' v ->
  observed now vl vs = observed now vl vs'.
Proof using BlockCipherLaws0.
  intros Hok Hver Hi Hf Hr Hr'. unfold observed. rewrite Hver, Hi, (readable_read _ _ _ Hok Hr), (readable_read _ _ _ Hok Hr').
  assert (live now vs = live now vs') as ->; [|done]. unfold live, isDeletedOrExpired. rewrite Hf.
  unfold vs_info in Hi. injection Hi as _ -> -> _ _. done.
Qed.

Lemma stick_twice e th : stick_threshold (stick_threshold e th) th = stick_threshold e th.
Proof using Type. unfold stick_threshold. by repeat case_bool_decide. Qed.

(** What the memtable gets for an entry that went through the value log. *)
Lemma lsm_value_cases th vl L m e x : vlog_ok (gc_vopt env) vl -> maxFid vl < 2 ^ 32 -> written th vl e x -> placed m L x ->
  let v := lsm_value th x.1 x.2 in
  vs_info v = entry_info e /\ has_bit (Meta v) bitFinTxn = has_bit (emeta e) bitFinTxn /\
  if has_bit (Meta v) bitValuePointer
  then Value v = Some (vp_Encode x.2) /\ vp_wf x.2 /\ stored vl x.2 (logged x.1) /\ in_log L x.2 (logged x.1) /\ m <= Fid x.2 <= maxFid vl
  else vbytes (Value v) = vbytes (eValue e).
Proof using BlockCipherLaws0 MmapLaws0.
  intros [[Hfiles _ Hmax] _] Hfid [Hx Hs] Hp. destruct x as [e1 p]. cbn [fst snd] in *. 
  destruct (stick_fields e th) as (F1 & F2 & F3 & _ & F5 & F6). rewrite <- Hx in *.
  pose proof known_bits as (Hbv & Hbt & Hbf).
  assert (vs_info (lsm_value th e1 p) = entry_info e /\ has_bit (Meta (lsm_value th e1 p)) bitFinTxn = has_bit (emeta e) bitFinTxn) as [Hi Hf].
  { rewrite <- F5. split; [|by apply lsm_meta]. unfold vs_info, entry_info, vs_info, value_of. cbn [Meta UserMeta ExpiresAt].
    rewrite !lsm_meta by (unfold meta_bits; set_solver || done). rewrite lsm_value_expires, F3, <- F5, <- F6. do 4 f_equal.
    unfold lsm_value, skipVlogAndSetThreshold. rewrite Hx, stick_twice, <- Hx.
    by destruct (bool_decide (len (vbytes (eValue e1)) < evalThreshold e1)). }
  split; [done|]. split; [done|]. unfold placed in Hp. cbn [fst snd] in Hp. rewrite F2 in Hp.
  unfold lsm_value, skipVlogAndSetThreshold. rewrite Hx, stick_twice, <- Hx, F2.
  destruct (bool_decide (len (vbytes (eValue e)) < evalThreshold e1)); cbn [Meta Value].
  - rewrite has_clear_bit, bool_decide_eq_true_2 by done. done.
  - rewrite has_set_bit, bool_decide_eq_true_2 by done. cbn [orb]. destruct (Hp eq_refl) as [Hin Hm].
    pose proof Hs as (lf & El & Hrec & _). pose proof (Hfiles _ _ El) as [_ Hok Hlen _].
    destruct (rec_len_pos lf p _ Hok Hrec) as [Hpos Hend]. destruct Hrec as (_ & Ho & _).
    pose proof (Hmax (Fid p) ltac:(by eexists)). split_and!; try done; try lia. unfold vp_wf, is_u32. lia.
Qed.
(** ** Lemmas: one write *)

(** [e] shows what the LSM tree shows at its key. *)
Definition moved (db : DB) (e : Entry) : Prop := exists k t vs,
  eKey e = KeyWithTs k t /\ k <> [] /\ 0 < t <= MaxUint64 /\ entry_fits e /\
  gc_get db (KeyWithTs k t) = Ok vs /\ Version vs = t /\ entry_info e = vs_info vs /\
  has_bit (Meta vs) bitFinTxn = false /\ has_bit (emeta e) bitFinTxn = false /\
  readable (db_vlog db) vs (vbytes (eValue e)).

Definition with_w (db : DB) (w : writer) : DB := mkDB w (db_vlog db) (db_levels db) (db_discardStats db).

Lemma gc_get_total now db L k ts : gc_ok now db L -> k <> [] -> 0 < ts <= MaxUint64 ->
  exists r, gc_get db (KeyWithTs k ts) = Ok r /\ Version r <= ts.
Proof using Type.
  intros Hok Hk Hts. destruct (db_get_spec false (mt_sl (w_mt (db_w db))) (mt_sl <$> w_imm (db_w db)) (db_levels db) k ts)
    as (r & E & Hn); try apply Hok; try done. exists r. split; [done|]. by apply newest_range in Hn as [[_ H] _]; [|lia].
Qed.

(** What a write of the entry at [k@t] makes of the lookups, the entry being there already. *)
Lemma gc_get_put now db L w' k t v vs0 k' ts r : gc_ok now db L -> k <> [] -> 0 < t <= MaxUint64 -> k' <> [] -> 0 < ts <= MaxUint64 ->
  mt_sl (w_mt w') = sl_put (mt_sl (w_mt (db_w db))) (KeyWithTs k t) v -> w_imm w' = w_imm (db_w db) ->
  gc_get db (KeyWithTs k t) = Ok vs0 -> gc_get db (KeyWithTs k' ts) = Ok r ->
  (k' = k /\ t <= ts /\ r = vs0 /\ gc_get (with_w db w') (KeyWithTs k' ts) = Ok (with_version (decoded v) t)) \/
  (~ (k' = k /\ ts = t) /\ gc_get (with_w db w') (KeyWithTs k' ts) = Ok r).
Proof using Type.
  intros Hok Hk Ht Hk' Hts Em Ei E0 Er. destruct (gc_get_total now db L k' ts Hok Hk' Hts) as (r' & Er' & Hv).
  rewrite Er in Er'. injection Er' as <-. unfold gc_get, with_w in *. cbn [db_w db_levels]. rewrite Em, Ei.
  rewrite (db_get_put _ _ _ k t v k' ts r) by (done || apply Hok).
  case_bool_decide as Hc; [left|right].
  - destruct Hc as (-> & Hle & Hrt). split_and!; [done|done| |done].
    pose proof (db_get_two _ _ _ k t ts r (go_mt _ _ _ Hok) (go_imm _ _ _ Hok) (go_levels _ _ _ Hok) (go_level _ _ _ Hok)
      Hk ltac:(lia) ltac:(lia) Er Hrt) as E. congruence.
  - split; [|done]. intros [-> ->]. apply Hc. split_and!; [done|lia|done].
Qed.
(** [v] is a value of the LSM tree for [e], its pointer to the file [m] or a later one. *)
Definition lsm_good (vl : valueLog) (L : gmap Z (list Entry)) (m : Z) (e : Entry) (v : ValueStruct) : Prop :=
  vs_info v = entry_info e /\ has_bit (Meta v) bitFinTxn = has_bit (emeta e) bitFinTxn /\
  if has_bit (Meta v) bitValuePointer
  then exists p e1, Value v = Some (vp_Encode p) /\ vp_wf p /\ stored vl p e1 /\ in_log L p e1 /\ m <= Fid p <= maxFid vl /\
         eKey e1 = eKey e /\ entry_info e1 = entry_info e /\ vbytes (eValue e1) = vbytes (eValue e)
  else vbytes (Value v) = vbytes (eValue e).

Definition moved_away (m : Z) (vs : ValueStruct) : Prop :=
  has_bit (Meta vs) bitValuePointer = true -> exists p, Value vs = Some (vp_Encode p) /\ vp_wf p /\ m <= Fid p.

Lemma good_stored vl L m e v t : lsm_good vl L m e v ->
  readable vl (with_version (decoded v) t) (vbytes (eValue e)) /\ moved_away m (with_version (decoded v) t).
Proof using Type.
  intros (_ & _ & H). unfold readable, moved_away. cbn [Meta Value with_version decoded].
  destruct (has_bit (Meta v) bitValuePointer); [|by split].
  destruct H as (p & e1 & -> & Hp & Hs & _ & Hm & _ & _ & Ev). split; [by exists p, e1|]. intros _. exists p. split_and!; [done|done|lia].
Qed.

Lemma good_ptr now vl L m e v k t : lsm_good vl L m e v -> eKey e = KeyWithTs k t -> ptr_ok now vl L k (with_version (decoded v) t).
Proof using Type.
  intros (Hi & _ & H) Ek. unfold ptr_ok. cbn [Meta Value Version with_version decoded].
  destruct (has_bit (Meta v) bitValuePointer); [|done]. intros _.
  destruct H as (p & e1 & -> & Hp & Hs & Hin & Hm & Ek1 & Ei1 & _). exists p. split_and!; [done|done|lia| |].
  - intros _. exists e1. split_and!; [done|done|congruence|]. rewrite Ei1, <- Hi. done.
  - intros _. destruct Hs as (lf & El & _). by eexists.
Qed.

(** What a batch for the keys of [es] does. *)
Record written_on (now : Z) (db db' : DB) (L : gmap Z (list Entry)) (m : Z) (es : list Entry) : Prop := {
  wo_ok : gc_ok now db' L;
  wo_reads : same_reads now db db';
  wo_moved e : moved db e -> moved db' e;
  wo_away k ts r : k <> [] -> 0 < ts <= MaxUint64 -> gc_get db' (KeyWithTs k ts) = Ok r ->
    (gc_get db (KeyWithTs k ts) = Ok r /\ KeyWithTs k ts ∉ eKey <$> es) \/ moved_away m r
}.

Section PutStep.
Context (now : Z) (db : DB) (L : gmap Z (list Entry)) (w' : writer) (e : Entry) (m : Z) (v : ValueStruct).
Context (Hok : gc_ok now db L) (Hmoved : moved db e) (Hgood : lsm_good (db_vlog db) L m e v).
Context (Em : mt_sl (w_mt w') = sl_put (mt_sl (w_mt (db_w db))) (eKey e) v) (Ei : w_imm w' = w_imm (db_w db)).

Lemma put_get k' ts r : k' <> [] -> 0 < ts <= MaxUint64 -> gc_get db (KeyWithTs k' ts) = Ok r ->
  exists r', gc_get (with_w db w') (KeyWithTs k' ts) = Ok r' /\
    ((r' = r /\ KeyWithTs k' ts <> eKey e) \/
     (eKey e = KeyWithTs k' (Version r) /\ r' = with_version (decoded v) (Version r) /\
      entry_info e = vs_info r /\ has_bit (Meta r) bitFinTxn = false /\ has_bit (emeta e) bitFinTxn = false /\
      readable (db_vlog db) r (vbytes (eValue e)))).
Proof using Hok Hmoved Em Ei.
  intros Hk' Hts Er. destruct Hmoved as (k & t & vs & Ek & Hk & Ht & Hf & E0 & Ev & Einf & Hfin & Hfe & Hr).
  destruct (gc_get_put now db L w' k t v vs k' ts r) as [(-> & Hle & -> & E)|[Hne E]]; try done.
  - by rewrite <- Ek.
  - eexists. split; [exact E|]. right. rewrite Ev. by split_and!.
  - exists r. split; [done|]. left. split; [done|]. rewrite Ek. intros Heq.
    apply KeyWithTs_inj in Heq as [-> ->]; [by apply Hne|lia|lia].
Qed.

Lemma put_moved_ok : gc_ok now (with_w db w') L.
Proof using Hok Hmoved Hgood Em Ei.
  pose proof Hmoved as (k & t & vs & Ek & Hk & Ht & _). split; try exact (go_now _ _ _ Hok); try apply Hok.
  - unfold with_w. cbn [db_w]. rewrite Em. apply run_ok_put; [apply Hok|]. rewrite Ek. apply KeyWithTs_has_ts.
  - unfold with_w. cbn [db_w]. rewrite Ei. apply Hok.
  - intros k' ts r' Hk' Hts Er'. destruct (gc_get_total now db L k' ts Hok Hk' Hts) as (r & Er & _).
    destruct (put_get k' ts r Hk' Hts Er) as (r1 & Er1 & H). rewrite Er' in Er1. injection Er1 as <-.
    destruct H as [[-> _]|(Ek' & -> & _)]; [by apply (go_ptr _ _ _ Hok k' ts)|]. by eapply good_ptr.
Qed.

Lemma put_reads : same_reads now db (with_w db w').
Proof using Hok Hmoved Hgood Em Ei BlockCipherLaws0.
  intros now' k' ts _ Hk' Hts. destruct (gc_get_total now db L k' ts Hok Hk' Hts) as (r & Er & _).
  destruct (put_get k' ts r Hk' Hts Er) as (r' & Er' & H). unfold gc_read. rewrite Er, Er'. f_equal.
  cbn [with_w db_vlog]. destruct H as [[-> _]|(_ & -> & Hi & Hf & Hfe & Hr)]; [done|].
  destruct (good_stored _ _ _ _ _ (Version r) Hgood) as [Hr' _]. destruct Hgood as (Hgi & Hgf & _).
  apply (observed_same now' (db_vlog db) _ _ (vbytes (eValue e))); try done; [apply Hok| |].
  - rewrite <- Hi, <- Hgi. done.
  - cbn [Meta with_version decoded]. congruence.
Qed.

Lemma put_moved e2 : moved db e2 -> moved (with_w db w') e2.
Proof using Hok Hmoved Hgood Em Ei BlockCipherLaws0.
  intros (k2 & t2 & vs2 & Ek2 & Hk2 & Ht2 & Hf2 & E2 & Ev2 & Ei2 & Hfin2 & Hfe2 & Hr2).
  destruct (put_get k2 t2 vs2 Hk2 Ht2 E2) as (r' & Er' & H). exists k2, t2, r'. cbn [with_w db_vlog].
  destruct H as [[-> _]|(Ek & -> & Hi & Hf & Hfe & Hr)]; [split_and!; (done || lia)|].
  destruct (good_stored _ _ _ _ _ (Version vs2) Hgood) as [Hr' _]. destruct Hgood as (Hgi & Hgf & _).
  split_and!; try done; try lia.
  - change (entry_info e2 = vs_info v). congruence.
  - cbn [Meta with_version decoded]. congruence.
  - assert (vbytes (eValue e2) = vbytes (eValue e)) as ->; [|done].
    pose proof (readable_read _ _ _ (go_vlog _ _ _ Hok) Hr) as R1. pose proof (readable_read _ _ _ (go_vlog _ _ _ Hok) Hr2) as R2. congruence.
Qed.

Lemma put_away k' ts r' : k' <> [] -> 0 < ts <= MaxUint64 -> gc_get (with_w db w') (KeyWithTs k' ts) = Ok r' ->
  (gc_get db (KeyWithTs k' ts) = Ok r' /\ KeyWithTs k' ts <> eKey e) \/ moved_away m r'.
Proof using Hok Hmoved Hgood Em Ei.
  intros Hk' Hts Er'. destruct (gc_get_total now db L k' ts Hok Hk' Hts) as (r & Er & _).
  destruct (put_get k' ts r Hk' Hts Er) as (r1 & Er1 & H). rewrite Er' in Er1. injection Er1 as <-.
  destruct H as [[-> Hne]|(_ & -> & _)]; [by left|]. right. by apply (good_stored _ _ _ _ _ (Version r) Hgood).
Qed.
Lemma put_written : written_on now db (with_w db w') L m [e].
Proof using Hok Hmoved Hgood Em Ei BlockCipherLaws0.
  split; [apply put_moved_ok|apply put_reads|apply put_moved|].
  intros k ts r Hk Hts Er. destruct (put_away k ts r Hk Hts Er) as [[? ?]|?]; [left|by right].
  split; [done|]. cbn. by rewrite list_elem_of_singleton.
Qed.
End PutStep.
(** ** Lemmas: a batch *)

Lemma same_reads_trans now db1 db2 db3 : same_reads now db1 db2 -> same_reads now db2 db3 -> same_reads now db1 db3.
Proof using Type. intros H1 H2 now' k ts Hn Hk Ht. rewrite H2 by done. by apply H1. Qed.

Lemma written_on_refl now db L m : gc_ok now db L -> written_on now db db L m [].
Proof using Type. intros Hok. split; [done|done|done|]. intros k ts r _ _ E. left. split; [done|]. apply not_elem_of_nil. Qed.

Lemma written_on_app now db1 db2 db3 L L' m m' es1 es2 : m <= m' -> written_on now db1 db2 L m es1 -> written_on now db2 db3 L' m' es2 ->
  written_on now db1 db3 L' m (es1 ++ es2).
Proof using Type.
  intros Hm [A1 A2 A3 A4] [B1 B2 B3 B4]. split; [done|by eapply same_reads_trans|auto|].
  intros k ts r Hk Hts Er. destruct (B4 k ts r Hk Hts Er) as [[Er2 Hn2]|Haw].
  - destruct (A4 k ts r Hk Hts Er2) as [[Er1 Hn1]|Haw]; [left|by right]. split; [done|].
    rewrite fmap_app, elem_of_app. tauto.
  - right. intros Hb. destruct (Haw Hb) as (p & H1 & H2 & H3). exists p. split_and!; [done|done|lia].
Qed.

(** An entry on its way to the memtable. *)
Definition on_way (vl : valueLog) (L : gmap Z (list Entry)) (m : Z) (e : Entry) (x : Entry * valuePointer) : Prop :=
  eKey x.1 = eKey e /\ lsm_good vl L m e (lsm_value (gc_threshold env) x.1 x.2).

Lemma mt_Put_sl mt key v mt' : has_bit (Meta v) bitFinTxn = false -> mt_Put mt key v = Ok mt' -> mt_sl mt' = sl_put (mt_sl mt) key v.
Proof using Type.
  intros Hf. unfold mt_Put. rewrite Hf. destruct (mt_wal mt) as [lf|].
  - destruct (writeEntry lf (entry_of key v)); [|done..]. cbn [mbind result_bind]. by intros [= <-].
  - cbn [mbind result_bind]. by intros [= <-].
Qed.

Definition with_mt (db : DB) (mt : memTable) : DB :=
  with_w db (mkWriter mt (w_imm (db_w db)) (w_flushChan (db_w db)) (w_nextMemFid (db_w db))).

Lemma puts_on now L m es : forall b db mt', gc_ok now db L -> Forall (moved db) es -> Forall2 (on_way (db_vlog db) L m) es b ->
  put_entries (gc_threshold env) (w_mt (db_w db)) b = Ok mt' -> written_on now db (with_mt db mt') L m es.
Proof using BlockCipherLaws0.
  induction es as [|e es IH]; intros b db mt' Hok Hm Hb Hp.
  - apply Forall2_nil_inv_l in Hb as ->. injection Hp as <-. destruct db as [[] ]. by apply written_on_refl.
  - apply Forall2_cons_inv_l in Hb as ([e1 p] & b' & (Ek & Hg) & Hb & ->). cbn [fst snd] in *.
    apply Forall_cons in Hm as [He Hm]. cbn [put_entries] in Hp.
    assert (has_bit (emeta e) bitFinTxn = false) as Hf by (by destruct He as (? & ? & ? & _ & _ & _ & _ & _ & _ & _ & _ & Hf & _)).
    destruct (mt_Put (w_mt (db_w db)) (eKey e1) (lsm_value (gc_threshold env) e1 p)) as [mt1| |] eqn:E1; [|done..].
    cbn [mbind result_bind] in Hp. apply mt_Put_sl in E1; [|destruct Hg as (_ & -> & _); done]. rewrite Ek in E1.
    pose proof (put_written now db L (mkWriter mt1 (w_imm (db_w db)) (w_flushChan (db_w db)) (w_nextMemFid (db_w db)))
      e m _ Hok He Hg E1 eq_refl) as H1. fold (with_mt db mt1) in H1.
    apply (written_on_app now db (with_mt db mt1) (with_mt db mt') L L m m [e] es); [lia|done|].
    apply (IH b' (with_mt db mt1) mt'); [apply H1| |exact Hb|exact Hp]. eapply Forall_impl; [exact Hm|]. apply H1.
Qed.
Lemma rotated_on now db L m w1 : gc_ok now db L -> rotated (db_w db) w1 -> written_on now db (with_w db w1) L m [].
Proof using Type.
  intros Hok Ew. assert (forall key, gc_get (with_w db w1) key = gc_get db key) as Hget.
  { intros key. destruct db as [w vl lv ds]. by apply rotated_get. }
  destruct (rotated_runs _ _ Ew (go_mt _ _ _ Hok) (go_imm _ _ _ Hok)) as [R1 R2]. split.
  - split; try exact (go_now _ _ _ Hok); try apply Hok; [done|done|]. intros k ts vs Hk Hts. rewrite Hget. by apply (go_ptr _ _ _ Hok).
  - intros now' k ts _ _ _. unfold gc_read. by rewrite Hget.
  - intros e (k & t & vs & H). exists k, t, vs. by rewrite Hget.
  - intros k ts r _ _ Er. rewrite Hget in Er. left. split; [done|]. apply not_elem_of_nil.
Qed.

(** What is left of [lsm_requests] for one request. *)
Lemma one_request (w w' : writer) b : genv_ok ->
  lsm_requests (gc_wenv env) (gc_flusher env) (gc_fuel env) (gc_threshold env) w [(b.*1, b.*2)] = Ok w' ->
  (b = [] /\ w' = w) \/ exists w1 mt', rotated w w1 /\ put_entries (gc_threshold env) (w_mt w1) b = Ok mt' /\
    w' = mkWriter mt' (w_imm w1) (w_flushChan w1) (w_nextMemFid w1).
Proof using BlockCipherLaws0 MmapLaws0.
  intros Hg. cbn [lsm_requests]. case_bool_decide as Hnil; [intros [= <-]; left; by apply fmap_nil_inv in Hnil|].
  destruct (wait_room (gc_wenv env) (gc_flusher env) (gc_fuel env) w) as [w1| |] eqn:Ew; [|done..].
  cbn [mbind result_bind]. apply wait_room_rotated in Ew; [|done].
  rewrite (ge_mem Hg), writeToLSM_placed by by rewrite !length_fmap.
  assert (zip (fst <$> b) (snd <$> b) = b) as ->.
  { clear. induction b as [|[x y] b IH]; [done|]. cbn. by rewrite IH. }
  destruct (put_entries (gc_threshold env) (w_mt w1) b) as [mt'| |] eqn:Ep; [|done..]. cbn [lift_wal mbind result_bind].
  intros [= <-]. right. by exists w1, mt'.
Qed.

(** A batch that has been through the value log. *)
Lemma requests_on now db L m es b w' : genv_ok -> gc_ok now db L -> Forall (moved db) es ->
  Forall2 (on_way (db_vlog db) L m) es b ->
  lsm_requests (gc_wenv env) (gc_flusher env) (gc_fuel env) (gc_threshold env) (db_w db) [(b.*1, b.*2)] = Ok w' ->
  written_on now db (with_w db w') L m es.
Proof using BlockCipherLaws0 MmapLaws0.
  intros Hg Hok Hm Hb Hl. apply one_request in Hl as [[-> ->]|(w1 & mt' & Ew & Ep & ->)]; [| |done].
  { apply Forall2_nil_inv_r in Hb as ->. destruct db. by apply written_on_refl. }
  pose proof (rotated_on now db L m w1 Hok Ew) as H1.
  apply (written_on_app now db (with_w db w1) _ L L m m [] es); [lia|done|].
  apply (puts_on now L m es b (with_w db w1) mt'); [apply H1| |exact Hb|exact Ep].
  eapply Forall_impl; [exact Hm|]. apply H1.
Qed.

(** The value log alone: everything stays readable. *)
Lemma vlog_on now db L vl' L' : gc_ok now db L -> vlog_ok (gc_vopt env) vl' -> extends (db_vlog db) vl' -> vlog_log vl' L' ->
  grows (db_vlog db) L vl' L' -> maxFid vl' < 2 ^ 32 -> written_on now db (set_vlog db vl') L' (maxFid (db_vlog db)) [].
Proof using BlockCipherLaws0.
  intros Hok Hvl Hx HL Hg Hf. pose proof Hx as (Hst & _). destruct Hg as (Hlg & Hmf & Hsame).
  assert (forall k ts vs, k <> [] -> 0 < ts <= MaxUint64 -> gc_get db (KeyWithTs k ts) = Ok vs ->
    ptr_ok now vl' L' k vs) as Hptr.
  { intros k ts vs Hk Hts E Hb. destruct (go_ptr _ _ _ Hok k ts vs Hk Hts E Hb) as (p & Ev & Hp & Hpm & He & Hlive).
    assert (is_Some (filesMap vl' !! Fid p) -> is_Some (filesMap (db_vlog db) !! Fid p)) as Hback.
    { intros Hs. destruct (decide (Fid p = maxFid (db_vlog db))) as [->|Hne].
      - destruct (go_vlog _ _ _ Hok) as [[_ (lf & El & _) _] _]. by eexists.
      - destruct (Hsame (Fid p) ltac:(lia)) as [_ <-]. done. }
    exists p. split_and!; [done|done|lia| |].
    - intros Hs. destruct (He (Hback Hs)) as (e & H1 & H2 & H3 & H4). exists e. split_and!; auto. by eapply in_log_grows.
    - intros Hl. destruct (He (Hlive Hl)) as (e & H1 & _). destruct (Hst p e H1) as (lf & El & _). by eexists. }
  split.
  - split; try exact (go_now _ _ _ Hok); try apply Hok; done.
  - intros now' k ts Hnow Hk Hts. unfold gc_read. change (gc_get (set_vlog db vl') (KeyWithTs k ts)) with (gc_get db (KeyWithTs k ts)).
    destruct (gc_get db (KeyWithTs k ts)) as [vs| |] eqn:E; [|done..]. f_equal. unfold observed. cbn [set_vlog db_vlog]. f_equal.
    destruct (live now' vs) eqn:El; [|done]. apply (live_before now) in El; [|pose proof (go_now _ _ _ Hok); lia|lia].
    destruct (ptr_readable _ _ _ _ _ (go_ptr _ _ _ Hok k ts vs Hk Hts E) El) as (v & Hr).
    rewrite (readable_read _ _ _ (go_vlog _ _ _ Hok) Hr), (readable_read _ _ _ Hvl (readable_extends _ _ _ _ Hx Hr)). done.
  - intros e (k & t & vs & H1 & H2 & H3 & H4 & H5 & H6 & H7 & H8 & H9 & H10). exists k, t, vs.
    split_and!; try done; try lia. by apply (readable_extends _ _ _ _ Hx).
  - intros k ts r _ _ Er. left. split; [done|]. apply not_elem_of_nil.
Qed.

(** The entries of a request are on their way once the value log has them. *)
Lemma written_on_way vl L m es r b : vlog_ok (gc_vopt env) vl -> maxFid vl < 2 ^ 32 ->
  r = ((fun e => stick_threshold e (gc_threshold env)) <$> es) ->
  Forall2 (written (gc_threshold env) vl) r b -> Forall (placed m L) b -> Forall2 (on_way vl L m) es b.
Proof using BlockCipherLaws0 MmapLaws0.
  intros Hvl Hf ->. revert b. induction es as [|e es IH]; intros b Hw Hp.
  { by apply Forall2_nil_inv_l in Hw as ->. }
  rewrite fmap_cons in Hw. apply Forall2_cons_inv_l in Hw as (x & b' & Hx & Hw & ->). apply Forall_cons in Hp as [Hpx Hp].
  constructor; [|by apply IH]. destruct (lsm_value_cases _ _ _ _ _ _ Hvl Hf Hx Hpx) as (Hi & Hfv & Hv).
  destruct (stick_fields e (gc_threshold env)) as (F1 & F2 & F3 & _ & F5 & F6).
  assert (entry_info (stick_threshold e (gc_threshold env)) = entry_info e) as Ei.
  { unfold entry_info, vs_info, value_of. cbn. by rewrite F3, F5, F6. }
  destruct Hx as [Hx _]. rewrite stick_twice in Hx. split; [by rewrite Hx|]. unfold lsm_good.
  rewrite Hi, Hfv, F5, Ei. split; [done|]. split; [done|].
  destruct (has_bit (Meta (lsm_value (gc_threshold env) x.1 x.2)) bitValuePointer); [|by rewrite F2 in Hv].
  destruct Hv as (E1 & E2 & E3 & E4 & E5). exists x.2, (logged x.1). split_and!; try done; try lia.
  - cbn. by rewrite Hx.
  - rewrite <- Ei, <- Hx. unfold entry_info, vs_info, value_of. cbn [eUserMeta eExpiresAt emeta logged set_emeta UserMeta ExpiresAt Meta].
    rewrite !has_clear_txn by (unfold meta_bits; set_solver). by rewrite !bool_decide_eq_false_2 by (by intros [|]).
  - cbn. by rewrite Hx, F2.
Qed.

(** What the write path accepts: a key with a version and lengths that fit. *)
Definition new_entry (e : Entry) : Prop := entry_fits e /\ vkey_ok (eKey e).

Lemma moved_new db es : Forall (moved db) es -> Forall new_entry es.
Proof using Type.
  intros Hm. eapply Forall_impl; [exact Hm|]. intros e (k & t & vs & Ek & Hk & Ht & Hfit & _). split; [done|]. by exists k, t.
Qed.

(** [batchSet], when it succeeds: the value log, then the memtable. *)
Lemma batchSet_parts now db L es db' : genv_ok -> gc_ok now db L -> Forall new_entry es -> batchSet env db es = Ok db' ->
  exists L' vl' b w', written_on now db (set_vlog db vl') L' (maxFid (db_vlog db)) [] /\ grows (db_vlog db) L vl' L' /\
    extends (db_vlog db) vl' /\ Forall2 (on_way vl' L' (maxFid (db_vlog db))) es b /\
    lsm_requests (gc_wenv env) (gc_flusher env) (gc_fuel env) (gc_threshold env) (db_w db) [(b.*1, b.*2)] = Ok w' /\
    db' = with_w (set_vlog db vl') w'.
Proof using BlockCipherLaws0 MmapLaws0.
  intros Hg Hok Hm. unfold batchSet. destruct (sendToWriteCh _ _ _ es) as [req| |] eqn:Es; [|done..]. cbn [lift_err mbind result_bind].
  assert (req = ((fun e => stick_threshold e (gc_threshold env)) <$> es)) as Hreq.
  { unfold sendToWriteCh in Es. destruct (gc_blockWrites env); [done|]. pose proof (request_size_stick (gc_threshold env) es) as Hst.
    destruct (request_size (gc_threshold env) es) as [sz r]. cbn [snd] in Hst. destruct (_ || _); [done|]. congruence. }
  unfold writeRequests. rewrite (bool_decide_eq_false_2 ([req] = [])) by done.
  destruct (vlog_write (gc_vopt env) (gc_venv env) (gc_threshold env) (db_vlog db) [req]) as [[vl' bs]| |] eqn:Ev; [|done..].
  assert (Forall new_entry req) as Hnew.
  { rewrite Hreq. apply Forall_fmap. eapply Forall_impl; [exact Hm|]. intros e [Hfit Hk]. cbn.
    destruct (stick_fields e (gc_threshold env)) as (F1 & F2 & F3 & _). unfold new_entry, entry_fits. by rewrite F1, F2, F3. }
  destruct (vlog_write_one (gc_vopt env) (gc_venv env) (gc_threshold env) (db_vlog db) L req vl' bs) as
    (L' & b & -> & Hvl & Hx & HL & Hgr & Hf & Hw & Hp); [apply Hg|apply Hg|apply Hok|apply Hok| | |done|].
  { eapply Forall_impl; [exact Hnew|]. by intros e [? _]. }
  { eapply Forall_impl; [exact Hnew|]. by intros e [_ ?]. }
  cbn [with_ptrs map]. specialize (Hf (go_fid _ _ _ Hok)).
  pose proof (vlog_on now db L vl' L' Hok Hvl Hx HL Hgr Hf) as H1.
  destruct (lsm_requests _ _ _ _ (db_w db) [(b.*1, b.*2)]) as [w'| |] eqn:El; [|done..]. cbn [lift_err mbind result_bind]. intros [= <-].
  exists L', vl', b, w'. split_and!; try done. by apply (written_on_way vl' L' _ es req b).
Qed.

(** Entries that show what is there already. *)
Lemma batchSet_on now db L es db' : genv_ok -> gc_ok now db L -> Forall (moved db) es -> batchSet env db es = Ok db' ->
  exists L', written_on now db db' L' (maxFid (db_vlog db)) es /\ grows (db_vlog db) L (db_vlog db') L' /\
    filesToBeDeleted (db_vlog db') = filesToBeDeleted (db_vlog db) /\ iteratorCount (db_vlog db') = iteratorCount (db_vlog db) /\
    db_levels db' = db_levels db /\ db_discardStats db' = db_discardStats db.
Proof using BlockCipherLaws0 MmapLaws0.
  intros Hg Hok Hm Hb. destruct (batchSet_parts now db L es db' Hg Hok (moved_new _ _ Hm) Hb)
    as (L' & vl' & b & w' & H1 & Hgr & Hx & Hw & El & ->).
  assert (Forall (moved (set_vlog db vl')) es) as Hm1 by (eapply Forall_impl; [exact Hm|]; apply H1).
  pose proof (requests_on now (set_vlog db vl') L' (maxFid (db_vlog db)) es b w' Hg (wo_ok _ _ _ _ _ _ H1) Hm1 Hw El) as H2.
  exists L'. destruct Hx as (_ & Hx1 & Hx2). split_and!; try done.
  exact (written_on_app now db _ _ L' L' _ _ [] es (Z.le_refl _) H1 H2).
Qed.

(** ** Lemmas: one file *)

Lemma has_moved_bit b0 b : b ∈ meta_bits -> has_bit (clear_bit b0 (Z.lor (Z.lor bitValuePointer bitTxn) bitFinTxn)) b
  = (if bool_decide (b = bitValuePointer \/ b = bitTxn \/ b = bitFinTxn) then false else has_bit b0 b).
Proof using Type.
  unfold meta_bits. intros Hb. set_unfold in Hb.
  destruct Hb as [->|[->|[->|[->|[->|[->|[]]]]]]]; destruct b0; vm_compute; reflexivity.
Qed.

Lemma vp_Encode_inj p q : vp_wf p -> vp_wf q -> vp_Encode p = vp_Encode q -> p = q.
Proof using Type.
  intros Hp Hq E. pose proof (vp_Decode_Encode p [] Hp) as H1. pose proof (vp_Decode_Encode q [] Hq) as H2.
  rewrite E in H1. congruence.
Qed.

(** From one record of a file to the next. *)
Lemma next_record (pre post pre' post' : list Entry) e e' : pre ++ e :: post = pre' ++ e' :: post' -> Forall vrec_ok (pre ++ e :: post) ->
  log_len pre <= log_len pre' -> (pre' = pre /\ e' = e) \/ log_len pre + record_len e <= log_len pre'.
Proof using Type.
  revert pre'. induction pre as [|x pre IH]; intros [|y pre'] E Hok Hle; cbn [app] in *.
  - injection E as -> ->. by left.
  - injection E as -> ->. apply Forall_cons in Hok as [_ Hok]. apply vrec_fits, Forall_app in Hok as [Hok _].
    pose proof (log_len_nonneg _ Hok) as Hn. right. cbn [log_len foldr] in *. fold (log_len pre') in *. lia.
  - exfalso. apply Forall_cons in Hok as [[[Hf _] _] Hok]. apply vrec_fits, Forall_app in Hok as [Hok _].
    pose proof (log_len_nonneg _ Hok) as Hn. pose proof (record_len_bound x Hf). cbn [log_len foldr] in Hle. fold (log_len pre) in Hle. lia.
  - injection E as -> E. apply Forall_cons in Hok as [_ Hok]. cbn [log_len foldr] in *. fold (log_len pre) (log_len pre') in *.
    destruct (IH pre' E Hok ltac:(lia)) as [[-> ->]|H]; [by left|right; lia].
Qed.

(** The clock is never behind the beginning nor ahead of [now]. *)
Definition clock_ok (now : Z) : Prop := now < 2 ^ 64 /\ forall e, 0 <= gc_clock env e <= now.

(** What [lsm_pointer] answers: [None] for an entry that is dead or not the one of the LSM tree. *)
Lemma lsm_pointer_spec now db L k t e : gc_ok now db L -> clock_ok now -> eKey e = KeyWithTs k t -> k <> [] -> 0 < t <= MaxUint64 ->
  exists vs r, gc_get db (KeyWithTs k t) = Ok vs /\ lsm_pointer env db e = Ok r /\
    match r with
    | Some p => Version vs = t /\ has_bit (Meta vs) bitValuePointer = true /\ has_bit (Meta vs) bitFinTxn = false /\
                Value vs = Some (vp_Encode p) /\ vp_wf p
    | None => isDeletedOrExpired (emeta e) (eExpiresAt e) now = true \/ Version vs <> t \/
              has_bit (Meta vs) bitValuePointer = false \/ has_bit (Meta vs) bitFinTxn = true
    end.
Proof using Type.
  intros Hok [Hnow Hclock] Ek Hk Ht. destruct (gc_get_total now db L k t Hok Hk Ht) as (vs & E & _). exists vs.
  unfold lsm_pointer. destruct (isDeletedOrExpired (emeta e) (eExpiresAt e) (gc_clock env e)) eqn:Ed.
  { eexists. split; [done|]. split; [done|]. left. specialize (Hclock e). unfold isDeletedOrExpired in *.
    destruct (has_bit (emeta e) bitDelete); [done|]. rewrite !wrap_small in * by lia. repeat case_bool_decide; try done; lia. }
  rewrite Ek, E. cbn [lift_err mbind result_bind]. unfold discardEntry. rewrite Ek, ParseTs_KeyWithTs by (done || lia).
  destruct (bool_decide_reflect (Version vs <> t)) as [Hv|Hv]; [eexists; split; [done|]; split; [done|]; by right; left|].
  destruct (has_bit (Meta vs) bitValuePointer) eqn:Eb; cbn [negb]; [|eexists; split; [done|]; split; [done|]; right; right; by left].
  destruct (has_bit (Meta vs) bitFinTxn) eqn:Ef; [eexists; split; [done|]; split; [done|]; right; right; by right|].
  destruct (go_ptr _ _ _ Hok k t vs Hk Ht E Eb) as (p & Ev & Hp & _). rewrite Ev.
  change (vbytes (Some (vp_Encode p))) with (vp_Encode p). rewrite vp_Encode_length. cbn [bool_decide].
  pose proof (vp_Decode_Encode p [] Hp) as Hd. rewrite app_nil_r in Hd. rewrite Hd. cbn [unpanic mbind result_bind].
  exists (Some p). split; [done|]. split; [done|]. split_and!; try done. by apply dec_stable.
Qed.
Section OneFile.
Context (now : Z) (db0 : DB) (L0 : gmap Z (list Entry)) (fid : Z) (es : list Entry).
Context (Hg : genv_ok) (Hclock : clock_ok now) (Hfid : fid < maxFid (db_vlog db0)).
Context (Hes : L0 !! fid = Some es) (Hrec : Forall vrec_ok es).

(** The LSM tree points to the place [off] of the file or behind it, or the entry waits in the batch. *)
Definition pending (off : Z) (db : DB) (wb : list Entry) : Prop := forall k t vs p,
  k <> [] -> 0 < t <= MaxUint64 -> gc_get db (KeyWithTs k t) = Ok vs -> Version vs = t ->
  has_bit (Meta vs) bitValuePointer = true -> live now vs = true -> Value vs = Some (vp_Encode p) -> vp_wf p -> Fid p = fid ->
  off <= Offset p \/ KeyWithTs k t ∈ eKey <$> wb.

(** While the file is rewritten. *)
Record rewriting (db : DB) (wb : list Entry) (L : gmap Z (list Entry)) : Prop := {
  rw_ok : gc_ok now db L;
  rw_reads : same_reads now db0 db;
  rw_grows : grows (db_vlog db0) L0 (db_vlog db) L;
  rw_moved : Forall (moved db) wb;
  rw_marked : filesToBeDeleted (db_vlog db) = filesToBeDeleted (db_vlog db0);
  rw_iters : iteratorCount (db_vlog db) = iteratorCount (db_vlog db0);
  rw_discard : db_discardStats db = db_discardStats db0
}.

(** [r] is what the write path answered to entries that show what is there already; a batch of
    several entries is not refused for its size. *)
Definition refused (r : result gc_error ()) : Prop := exists db L wb, rewriting db wb L /\
  match batchSet env db wb with
  | Ok _ => False
  | Err (GcTxn ErrTxnTooBig) => (length wb <= 1)%nat /\ (r = Err (GcTxn ErrTxnTooBig) \/ r = Err ErrNoRewrite)
  | Err e => r = Err e
  | Panic => r = Panic
  end.

(** The batch keeps to the limits. *)
Definition batch_fits (s : rewriter) : Prop :=
  (request_size (gc_threshold env) (rw_wb s)).1 <= rw_size s /\
  ((length (rw_wb s) <= 1)%nat \/ len (rw_wb s) < maxBatchCount (gc_opt env) /\ rw_size s < maxBatchSize (gc_opt env)).

Lemma fits_refused s L : rewriting (rw_db s) (rw_wb s) L -> batch_fits s ->
  match batchSet env (rw_db s) (rw_wb s) with Ok _ => True | Err e => refused (Err e) | Panic => refused Panic end.
Proof using Type.
  intros Hr [Hsz Hlim]. destruct (batchSet env (rw_db s) (rw_wb s)) as [|er|] eqn:Eb; [done| |].
  - exists (rw_db s), L, (rw_wb s). split; [done|]. rewrite Eb. destruct er as [?|er| | | | | | | | | |]; try done.
    destruct er; try done. split; [|by left]. unfold batchSet in Eb.
    destruct Hlim as [?|[H1 H2]]; [done|exfalso]. unfold sendToWriteCh in Eb. destruct (gc_blockWrites env); [done|].
    pose proof (request_size_length (gc_threshold env) (rw_wb s)) as Hl.
    destruct (request_size (gc_threshold env) (rw_wb s)) as [sz r]. cbn [fst snd] in *.
    rewrite (bool_decide_eq_false_2 (maxBatchCount _ <= _)), (bool_decide_eq_false_2 (maxBatchSize _ <= _)) in Eb by (unfold len in *; lia).
    cbn [orb lift_err mbind result_bind] in Eb. destruct (writeRequests _ _ _ _ _ _ _ _ _) as [[? ?]| |]; done.
  - exists (rw_db s), L, (rw_wb s). split; [done|]. by rewrite Eb.
Qed.

Lemma batch_step db wb L rest off db' : rewriting db (wb ++ rest) L -> pending off db (wb ++ rest) -> batchSet env db wb = Ok db' ->
  exists L', rewriting db' rest L' /\ pending off db' rest.
Proof using Hg Hfid BlockCipherLaws0 MmapLaws0.
  intros [R1 R2 R3 R4 R5 R6 R7] Hpend Hb. apply Forall_app in R4 as [Rm Rr].
  destruct (batchSet_on now db L wb db' Hg R1 Rm Hb) as (L' & [W1 W2 W3 W4] & Hgr & Em & Ei & _ & Ed).
  exists L'. split.
  - split; [done|by eapply same_reads_trans|by eapply grows_trans| |congruence|congruence|congruence].
    eapply Forall_impl; [exact Rr|]. exact W3.
  - intros k t vs p Hk Ht E Ev Hbit Hl Hval Hp Hf. destruct (W4 k t vs Hk Ht E) as [[E0 Hn]|Haw].
    + destruct (Hpend k t vs p) as [?|Hin]; try done; [by left|right]. rewrite fmap_app, elem_of_app in Hin. tauto.
    + exfalso. destruct (Haw Hbit) as (q & Eq & Hq & Hm). assert (vp_Encode p = vp_Encode q) as Epq by congruence.
      apply vp_Encode_inj in Epq as ->; [|done|done]. destruct R3 as (_ & Hmf & _). lia.
Qed.
(** Entries waiting for the next batch. *)
Lemma rewriting_snoc db wb L e : rewriting db wb L -> moved db e -> rewriting db (wb ++ [e]) L.
Proof using Type.
  intros [R1 R2 R3 R4 R5 R6 R7] He. split; try done. apply Forall_app. split; [done|by constructor].
Qed.

Lemma pending_le off off' db wb wb' : off' <= off -> pending off db wb -> (forall key, key ∈ eKey <$> wb -> key ∈ eKey <$> wb') ->
  pending off' db wb'.
Proof using Type.
  intros Hle Hp Hin k t vs p Hk Ht E Ev Hb Hl Hval Hw Hf. destruct (Hp k t vs p) as [?|?]; try done; [left; lia|right; auto].
Qed.

Lemma moved_stick db e : moved db e -> moved db (stick_threshold e (gc_threshold env)).
Proof using Type.
  intros (k & t & vs & H1 & H2 & H3 & H4 & H5 & H6 & H7 & H8 & H9 & H10). exists k, t, vs.
  destruct (stick_fields e (gc_threshold env)) as (F1 & F2 & F3 & _ & F5 & F6). rewrite F1, F2, F5.
  split_and!; try done; try lia; [unfold entry_fits; by rewrite F1, F2, F3|].
  rewrite <- H7. unfold entry_info, vs_info, value_of. cbn. by rewrite F3, F5, F6.
Qed.

(** Writing the entry again, the batch before it if there is no room. *)
Lemma add_moved_ok s L off off' e : rewriting (rw_db s) (rw_wb s) L -> moved (rw_db s) (moved_entry e) ->
  pending off (rw_db s) (rw_wb s) ->
  (forall db wb L, rewriting db wb L -> eKey e ∈ eKey <$> wb -> pending off db wb -> pending off' db wb) -> batch_fits s ->
  match add_moved env s e with
  | (s', Ok _) => batch_fits s' /\ exists L', rewriting (rw_db s') (rw_wb s') L' /\ pending off' (rw_db s') (rw_wb s')
  | (s', r) => refused r /\ s' = s
  end.
Proof using All.
  intros Hr Hm Hp Hnext Hfit. unfold add_moved. set (ne := stick_threshold (moved_entry e) (gc_threshold env)).
  assert (exists z, estimateSizeAndSetThreshold (moved_entry e) (gc_threshold env) = (z, ne) /\
    (request_size (gc_threshold env) [ne]).1 = z) as (z & -> & Hz).
  { assert (stick_threshold ne (gc_threshold env) = ne) as Est by apply stick_twice.
    cbn [request_size]. unfold estimateSizeAndSetThreshold. fold ne. rewrite Est. 
    destruct (bool_decide (len (vbytes (eValue ne)) < evalThreshold ne)); (eexists; split; [done|]); cbn; lia. }
  assert (eKey ne = eKey e) as Ek by apply (stick_fields (moved_entry e)).
  apply moved_stick in Hm. fold ne in Hm. pose proof (rewriting_snoc _ _ _ _ Hr Hm) as Hr'.
  assert (pending off (rw_db s) (rw_wb s ++ [ne])) as Hp'.
  { apply (pending_le off off _ (rw_wb s)); [lia|done|]. intros key. rewrite fmap_app, elem_of_app. by left. }
  assert (0 <= len (vbytes (eValue e))) as Hlv by (unfold len; lia).
  destruct (_ || _) eqn:Eg.
  - pose proof (fits_refused s L Hr Hfit) as Href.
    destruct (batchSet env (rw_db s) (rw_wb s)) as [db'| |] eqn:Eb; [|by split..].
    split; [split; [cbn [rw_wb rw_size]; lia|by left]|].
    destruct (batch_step _ _ _ _ _ _ Hr' Hp' Eb) as (L' & H1 & H2). exists L'. cbn [rw_db rw_wb]. split; [done|].
    apply (Hnext db' [ne] L'); [done| |done]. rewrite <- Ek. set_solver.
  - apply orb_false_iff in Eg as [E1%bool_decide_eq_false E2%bool_decide_eq_false]. split.
    + destruct Hfit as [Hsz _]. split; cbn [rw_wb rw_size]; [rewrite request_size_app; cbn [fst]; lia|].
      right. rewrite len_app. unfold len in *. cbn [length]. lia.
    + exists L. cbn [rw_db rw_wb]. split; [done|]. apply (Hnext _ _ L); [done| |done].
      rewrite fmap_app, elem_of_app. right. cbn. rewrite Ek. set_solver.
Qed.

(** One entry of the file, as the replay gives it. *)
Lemma rewrite_entry_ok s L pre e post : es = pre ++ e :: post -> is_Some (filesMap (db_vlog db0) !! fid) ->
  let off := vlogHeaderSize + log_len pre in
  let e' := entry_read e off (len (header_bytes (entry_header e))) in
  rewriting (rw_db s) (rw_wb s) L -> pending off (rw_db s) (rw_wb s) -> batch_fits s ->
  match rewrite_entry env fid s e' with
  | (s', Ok _) => batch_fits s' /\ exists L', rewriting (rw_db s') (rw_wb s') L' /\ pending (off + record_len e) (rw_db s') (rw_wb s')
  | (s', r) => refused r /\ s' = s
  end.
Proof using Hg Hfid Hclock Hes Hrec BlockCipherLaws0 MmapLaws0.
  intros E Hfile off e' Hr Hp Hfits. pose proof Hrec as Hall. rewrite E in Hall. apply Forall_app in Hall as [_ Hall].
  apply Forall_cons in Hall as [([Hfit (k & t & Ek & Hk & Ht)] & _ & Hfin) _].
  assert (eKey e' = KeyWithTs k t) as Ek' by done.
  (* what still has to go is behind this record, or is this record *)
  assert (forall db wb L, rewriting db wb L ->
    (forall vs p, gc_get db (KeyWithTs k t) = Ok vs -> Version vs = t -> has_bit (Meta vs) bitValuePointer = true ->
      live now vs = true -> Value vs = Some (vp_Encode p) -> vp_wf p -> Fid p = fid -> Offset p = off ->
      entry_info e = vs_info vs -> eKey e ∈ eKey <$> wb) ->
    pending off db wb -> pending (off + record_len e) db wb) as Hnext.
  { intros db wb L1 Hr1 Hhere Hpw k2 t2 vs p Hk2 Ht2 Eg Ev Hb Hl Hval Hw Hf.
    destruct (Hpw k2 t2 vs p) as [Hle|]; try done; [|by right].
    destruct (go_ptr _ _ _ (rw_ok _ _ _ Hr1) k2 t2 vs Hk2 Ht2 Eg Hb) as (q & Eq & Hq & _ & Hin & Hlive).
    assert (p = q) as <- by (apply vp_Encode_inj; congruence).
    destruct (Hin (Hlive Hl)) as (e2 & _ & (pre2 & post2 & E2 & Ho2) & Ek2 & Ei2).
    destruct (rw_grows _ _ _ Hr1) as (_ & _ & Hsame). destruct (Hsame fid Hfid) as [EL _]. rewrite Hf, EL, Hes in E2. injection E2 as E2.
    destruct (next_record pre post pre2 post2 e e2) as [[-> ->]|Hle2]; [by rewrite <- E|by rewrite <- E|unfold off in Hle; lia| |left; unfold off; lia].
    right. rewrite Ev, Ek in Ek2. apply KeyWithTs_inj in Ek2 as [<- <-]; [|lia|lia]. rewrite <- Ek. by apply (Hhere vs p). }
  destruct (lsm_pointer_spec now (rw_db s) L k t e' (rw_ok _ _ _ Hr) Hclock Ek' Hk Ht) as (vs & r & Eg & El & Hcase).
  unfold rewrite_entry. rewrite El. destruct r as [vp|].
  2:{ split; [done|]. exists L. split; [done|]. apply (Hnext _ _ L Hr); [|done]. intros vs1 p Eg1 Ev Hb Hl _ _ _ _ Ei. exfalso.
      assert (vs1 = vs) as -> by congruence. unfold live in Hl. apply andb_true_iff in Hl as [Hl Hf].
      destruct Hcase as [Hd|[?|[?|Hf']]]; [|done|congruence|by rewrite Hf' in Hf].
      unfold entry_info, vs_info, value_of in Ei. injection Ei as _ Ex Ed _ _. cbn [ExpiresAt Meta] in *.
      unfold isDeletedOrExpired in Hd, Hl. cbn [emeta eExpiresAt e' entry_read] in Hd. rewrite Ed, Ex in Hd. by rewrite Hd in Hl. }
  destruct Hcase as (Ev & Hb & Hf & Hval & Hw).
  assert (Fid vp = fid /\ Offset vp = off \/ ~ (Fid vp = fid /\ Offset vp = off)) as [Hhere|Hno].
  { destruct (decide (Fid vp = fid)), (decide (Offset vp = off)); tauto. }
  2:{ assert (batch_fits s /\ exists L', rewriting (rw_db s) (rw_wb s) L' /\ pending (off + record_len e) (rw_db s) (rw_wb s)) as Hskip.
      { split; [done|]. exists L. split; [done|]. apply (Hnext _ _ L Hr); [|done]. intros vs1 p Eg1 _ _ _ Hval1 Hw1 H1 H2 _. exfalso. apply Hno.
        assert (vs1 = vs) as -> by congruence. assert (p = vp) as -> by (apply vp_Encode_inj; congruence). done. }
      destruct (bool_decide (fid < Fid vp)); [done|]. destruct (bool_decide (eoffset e' < Offset vp)); [done|].
      rewrite bool_decide_eq_false_2 by done. done. }
  destruct Hhere as [H1 H2]. change (eoffset e') with off. rewrite !bool_decide_eq_false_2, bool_decide_eq_true_2 by (done || lia).
  apply (add_moved_ok s L off); [done| |done| |done].
  - destruct (go_ptr _ _ _ (rw_ok _ _ _ Hr) k t vs Hk Ht Eg Hb) as (q & Eq & Hq & _ & Hin & _).
    assert (vp = q) as <- by (apply vp_Encode_inj; congruence).
    destruct (rw_grows _ _ _ Hr) as (_ & _ & Hsame). destruct (Hsame fid Hfid) as [EL EF].
    destruct Hin as (e2 & Hst & Hin & Ek2 & Ei2); [by rewrite H1, EF|].
    assert (e2 = e) as ->.
    { apply (in_log_eq L vp); [done| |intros es'; rewrite H1, EL, Hes; by intros [= <-]].
      exists pre, post. rewrite H1, EL, Hes, E. by split. }
    exists k, t, vs. cbn [moved_entry eKey]. split_and!; try done; try lia.
    + rewrite <- Ei2. unfold entry_info, vs_info, value_of. cbn [eUserMeta eExpiresAt emeta moved_entry UserMeta ExpiresAt Meta e' entry_read].
      rewrite !has_moved_bit by (unfold meta_bits; set_solver). by rewrite !bool_decide_eq_false_2 by (by intros [|[|]]).
    + cbn [emeta moved_entry]. rewrite has_moved_bit by apply known_bits. by rewrite bool_decide_eq_true_2 by auto.
    + unfold readable. rewrite Hb. by exists vp, e.
  - intros db wb L1 Hr1 Hin. apply (Hnext db wb L1 Hr1). by intros.
Qed.
(** All records from [off] on. *)
Lemma rewrite_loop f post : forall pre s L, es = pre ++ post -> is_Some (filesMap (db_vlog db0) !! fid) ->
  rewriting (rw_db s) (rw_wb s) L -> pending (vlogHeaderSize + log_len pre) (rw_db s) (rw_wb s) -> batch_fits s ->
  match run_txn (rewrite_step env fid) (replay_list f (vlogHeaderSize + log_len pre) post) (s, Ok ()) with
  | inl (s', r) => r = Ok () /\ exists L', rewriting (rw_db s') (rw_wb s') L' /\ pending (vlogHeaderSize + log_len es) (rw_db s') (rw_wb s')
  | inr (s', r) => r <> Ok () /\ refused r /\ exists L', rewriting (rw_db s') (rw_wb s') L'
  end.
Proof using Hg Hfid Hclock Hes Hrec BlockCipherLaws0 MmapLaws0.
  induction post as [|e post IH]; intros pre s L E Hfile Hr Hp Hfits; cbn [replay_list run_txn].
  - split; [done|]. exists L. rewrite E, app_nil_r. by split.
  - unfold replayed at 1. pose proof (rewrite_entry_ok s L pre e post E Hfile Hr Hp Hfits) as H. cbv zeta in H. unfold rewrite_step at 1. cbn [fst].
    destruct (rewrite_entry env fid s _) as [s' [[]| |]].
    + destruct H as (Hfits' & L' & Hr' & Hp'). specialize (IH (pre ++ [e]) s' L'). rewrite log_len_app in IH. cbn [log_len foldr] in IH.
      rewrite Z.add_0_r, Z.add_assoc in IH. apply IH; [by rewrite <- app_assoc|done..].
    + destruct H as [H ->]. split; [done|]. split; [done|]. by exists L.
    + destruct H as [H ->]. split; [done|]. split; [done|]. by exists L.
Qed.

Lemma rewrite_file_ok f : filesMap (db_vlog db0) !! fid = Some f -> gc_ok now db0 L0 ->
  match rewrite_file env db0 f with
  | (s', Ok _) => exists L', rewriting (rw_db s') (rw_wb s') L' /\ pending (vlogHeaderSize + log_len es) (rw_db s') (rw_wb s')
  | (s', r) => refused r /\ exists L', rewriting (rw_db s') (rw_wb s') L'
  end.
Proof using Hg Hfid Hclock Hes Hrec BlockCipherLaws0 MmapLaws0.
  intros Ef Hok. destruct (go_vlog _ _ _ Hok) as [[Hfiles _ _] _]. pose proof (Hfiles _ _ Ef) as [Hff Hc Hl _].
  destruct (vg_files _ _ (go_log _ _ _ Hok) _ _ Ef) as (es' & Ees & Hlog). rewrite Hes in Ees. injection Ees as <-.
  unfold log_end in Hlog. rewrite bool_decide_eq_false_2 in Hlog by lia.
  assert (rewriting db0 [] L0) as Hr0 by (split; [done|done|apply grows_refl|constructor|done..]).
  assert (pending (vlogHeaderSize + log_len []) db0 []) as Hp0.
  { intros k t vs p Hk Ht Eg Ev Hb Hlv Hval Hw Hf. left.
    destruct (go_ptr _ _ _ Hok k t vs Hk Ht Eg Hb) as (q & Eq & Hq & _ & Hin & _).
    assert (p = q) as <- by (apply vp_Encode_inj; congruence). destruct Hin as (e & _ & (pre & post & E & Ho) & _); [rewrite Hf; by eexists|].
    rewrite Hf, Hes in E. injection E as E. pose proof Hrec as Hall. rewrite E in Hall. apply vrec_fits, Forall_app in Hall as [Hall _].
    pose proof (log_len_nonneg _ Hall). cbn. lia. }
  pose proof (rewrite_loop f es [] (mkRW db0 [] 0) L0 eq_refl ltac:(by eexists) Hr0 Hp0
    ltac:(split; [cbn; lia|left; cbn; lia])) as H.
  unfold rewrite_file. rewrite Hff.
  rewrite (iterate_file (rewrite_step env fid)) with (es := es); [|intros e p [s r]; unfold rewrite_step; cbn [fst];
    destruct (rewrite_entry env fid s e) as [s1 [[]| |]]; [left|right|right]; by eexists|done..].
  cbn [log_len foldr] in H. rewrite Z.add_0_r in H.
  destruct (run_txn _ _ _) as [[s' r]|[s' r]].
  - destruct H as [-> H]. exact H.
  - destruct H as (Hne & H). destruct r as [[]| |]; [done|exact H|exact H].
Qed.

(** The batches at the end: the fuel is enough, and nothing points to the file any more. *)
Lemma flush_batches_ok fuel : forall db wb L bs h off, rewriting db wb L -> pending off db wb -> (bs < 2 ^ h)%nat ->
  (length wb + h + 1 <= fuel)%nat -> (bs = 0%nat -> refused (Err ErrNoRewrite)) ->
  match flush_batches env fuel db wb bs with
  | (db', Ok _) => exists L', rewriting db' [] L' /\ pending off db' []
  | (db', r) => refused r /\ exists wb' L', rewriting db' wb' L'
  end.
Proof using Hg Hfid BlockCipherLaws0 MmapLaws0.
  induction fuel as [|fuel IH]; intros db wb L bs h off Hr Hp Hbs Hfuel H0; [lia|]. cbn [flush_batches].
  case_bool_decide as Hwb; [subst wb; by exists L|]. case_bool_decide as Hz; [split; [by apply H0|by eexists _, _]|].
  assert (rewriting db (take bs wb) L) as Hrt.
  { destruct Hr as [R1 R2 R3 R4 R5 R6 R7]. split; try done. by apply Forall_take. }
  assert (match batchSet env db (take bs wb) with
    | Ok _ => True
    | Err (GcTxn ErrTxnTooBig) => bs = 1%nat -> refused (Err ErrNoRewrite)
    | Err e => refused (Err e)
    | Panic => refused Panic
    end) as Href.
  { destruct (batchSet env db (take bs wb)) as [|er|] eqn:Eb; [done| |].
    - assert (forall r, match er with GcTxn ErrTxnTooBig => bs = 1%nat /\ r = Err ErrNoRewrite | e => r = Err e end -> refused r) as H.
      { intros r Hr'. exists db, L, (take bs wb). split; [done|]. rewrite Eb. destruct er as [?|er| | | | | | | | | |]; try done.
        destruct er; try done. destruct Hr' as [-> ->]. split; [rewrite length_take; lia|by right]. }
      destruct er as [?|er| | | | | | | | | |]; try (by apply H). destruct er; try (by apply H). intros ->. by apply H.
    - exists db, L, (take bs wb). split; [done|]. by rewrite Eb. }
  destruct (batchSet env db (take bs wb)) as [db'|er|] eqn:Eb.
  - rewrite <- (take_drop bs wb) in Hr, Hp. destruct (batch_step _ _ _ _ _ _ Hr Hp Eb) as (L' & Hr' & Hp').
    apply (IH db' (drop bs wb) L' bs h off); try done. rewrite length_drop. destruct wb; [done|]. cbn [length] in *. lia.
  - destruct er as [?|er| | | | | | | | | |]; try (split; [done|by eexists _, _]).
    destruct er; try (split; [done|by eexists _, _]).
    destruct h as [|h]; [cbn in Hbs; lia|]. apply (IH db wb L (Nat.div2 bs) h off); try done; [|lia|].
    + rewrite Nat.div2_div. apply Nat.Div0.div_lt_upper_bound. cbn in Hbs. lia.
    + intros H. apply Href. destruct bs as [|[|bs]]; [done|done|]. cbn in H. done.
  - split; [done|by eexists _, _].
Qed.
End OneFile.

(** ** Lemmas: removing a file *)

(** Nothing live points to [fid]. *)
Lemma pending_none now fid off db L es k ts vs p : gc_ok now db L -> L !! fid = Some es -> Forall vrec_ok es ->
  off = vlogHeaderSize + log_len es -> pending now fid off db [] -> k <> [] -> 0 < ts <= MaxUint64 ->
  gc_get db (KeyWithTs k ts) = Ok vs -> has_bit (Meta vs) bitValuePointer = true -> live now vs = true ->
  Value vs = Some (vp_Encode p) -> vp_wf p -> Fid p <> fid.
Proof using BlockCipherLaws0 MmapLaws0.
  intros Hok Hes Hrec -> Hp Hk Hts Eg Hb Hl Hval Hw Hf.
  destruct (db_get_spec false (mt_sl (w_mt (db_w db))) (mt_sl <$> w_imm (db_w db)) (db_levels db) k ts) as (r & Er & Hn);
    try apply Hok; try done. assert (r = vs) as -> by (unfold gc_get in Eg; congruence).
  destruct Hn as [_ [->|[Hv _]]]; [done|].
  pose proof (db_get_two _ _ _ k (Version vs) ts vs (go_mt _ _ _ Hok) (go_imm _ _ _ Hok) (go_levels _ _ _ Hok) (go_level _ _ _ Hok)
    Hk ltac:(lia) ltac:(lia) Eg ltac:(lia)) as Eg'.
  destruct (Hp k (Version vs) vs p) as [Hle|Hin]; try done; [lia| |by apply not_elem_of_nil in Hin].
  destruct (go_ptr _ _ _ Hok k ts vs Hk Hts Eg Hb) as (q & Eq & Hq & _ & Hin & Hlive).
  assert (p = q) as <- by (apply vp_Encode_inj; congruence). destruct (Hin (Hlive Hl)) as (e & _ & (pre & post & E & Ho) & _).
  rewrite Hf, Hes in E. injection E as ->. rewrite log_len_app in Hle. apply Forall_app in Hrec as [_ Hrec].
  apply Forall_cons in Hrec as [[[Hfit _] _] Hrec]. pose proof (record_len_bound e Hfit). pose proof (log_len_nonneg _ (vrec_fits _ Hrec)).
  cbn [log_len foldr] in Hle. fold (log_len post) in Hle. lia.
Qed.

(** The value log may lose a file nothing live points to. *)
Lemma drop_file now db L vl' : gc_ok now db L -> maxFid vl' = maxFid (db_vlog db) -> woffset vl' = woffset (db_vlog db) ->
  (forall fid lf, filesMap vl' !! fid = Some lf -> filesMap (db_vlog db) !! fid = Some lf) ->
  is_Some (filesMap vl' !! maxFid (db_vlog db)) ->
  (forall k ts vs p, k <> [] -> 0 < ts <= MaxUint64 -> gc_get db (KeyWithTs k ts) = Ok vs -> has_bit (Meta vs) bitValuePointer = true ->
     live now vs = true -> Value vs = Some (vp_Encode p) -> vp_wf p -> is_Some (filesMap (db_vlog db) !! Fid p) ->
     is_Some (filesMap vl' !! Fid p)) ->
  gc_ok now (set_vlog db vl') L /\ same_reads now db (set_vlog db vl').
Proof using BlockCipherLaws0.
  intros Hok Em Ew Hsub [lfc Hcur] Hlive.
  assert (vlog_ok (gc_vopt env) vl') as Hvl.
  { destruct (go_vlog _ _ _ Hok) as [[Hfiles (lf & El & Hw) Hmax] Hoff]. split; [split|].
    - intros fid lf' H. apply Hfiles. by apply Hsub.
    - exists lf. rewrite Em, Ew. split; [|done]. pose proof (Hsub _ _ Hcur). congruence.
    - intros f [lf' H]. rewrite Em. apply Hmax. exists lf'. by apply Hsub.
    - by rewrite Ew. }
  assert (forall p e, stored (db_vlog db) p e -> is_Some (filesMap vl' !! Fid p) -> stored vl' p e) as Hst.
  { intros p e (lf & El & Hr & Hc) [lf' El']. exists lf'. pose proof (Hsub _ _ El'). assert (lf' = lf) as -> by congruence.
    split_and!; [done|done|]. by rewrite Em, Ew. }
  assert (forall k ts vs, k <> [] -> 0 < ts <= MaxUint64 -> gc_get db (KeyWithTs k ts) = Ok vs -> ptr_ok now vl' L k vs) as Hptr.
  { intros k ts vs Hk Hts E Hb. destruct (go_ptr _ _ _ Hok k ts vs Hk Hts E Hb) as (p & Ev & Hp & Hpm & He & Hl).
    exists p. split_and!; [done|done|lia| |].
    - intros Hs. assert (is_Some (filesMap (db_vlog db) !! Fid p)) as Hs0 by (destruct Hs as [lf ?]; exists lf; by apply Hsub).
      destruct (He Hs0) as (e & H1 & H2 & H3 & H4). exists e. split_and!; auto.
    - intros Hlv. apply (Hlive k ts vs p); auto. }
  split.
  - split; try exact (go_now _ _ _ Hok); try apply Hok; try done; [|by cbn; rewrite Em; apply Hok].
    destruct (go_log _ _ _ Hok) as [H1 H2]. split; [|cbn; by rewrite Em].
    intros fid lf H. destruct (H1 _ _ (Hsub _ _ H)) as (es & E & Hes). exists es. split; [done|].
    unfold log_end in *. cbn. by rewrite Em, Ew.
  - intros now' k ts Hnow Hk Hts. unfold gc_read. change (gc_get (set_vlog db vl') (KeyWithTs k ts)) with (gc_get db (KeyWithTs k ts)).
    destruct (gc_get db (KeyWithTs k ts)) as [vs| |] eqn:E; [|done..]. f_equal. unfold observed. cbn [set_vlog db_vlog]. f_equal.
    destruct (live now' vs) eqn:El; [|done]. apply (live_before now) in El; [|pose proof (go_now _ _ _ Hok); lia|lia].
    destruct (ptr_readable _ _ _ _ _ (Hptr k ts vs Hk Hts E) El) as (v & Hr). rewrite (readable_read _ _ _ Hvl Hr).
    assert (readable (db_vlog db) vs v) as Hr0.
    { unfold readable in *. destruct (has_bit (Meta vs) bitValuePointer) eqn:Eb; [|done]. destruct Hr as (p & e & H1 & H2 & (lf & H3 & H4 & H5) & H6).
      exists p, e. split_and!; try done. exists lf. rewrite <- Em, <- Ew. split_and!; [by apply Hsub|done|done]. }
    by rewrite (readable_read _ _ _ (go_vlog _ _ _ Hok) Hr0).
Qed.
Lemma set_discard_ok now db L ds : gc_ok now db L -> ds_ok ds -> gc_ok now (set_discardStats db ds) L.
Proof using Type. intros Hok Hds. split; try exact (go_now _ _ _ Hok); try apply Hok; done. Qed.

(** The file is gone, or waits for the last iterator. *)
Definition removed (db db' : DB) (fid : Z) : Prop :=
  if bool_decide (iteratorCount (db_vlog db) = 0) then filesMap (db_vlog db') !! fid = None
  else fid ∈ filesToBeDeleted (db_vlog db').

Lemma deleteLogFile_ok now db L fid : gc_ok now db L -> 0 < fid < 2 ^ 32 ->
  exists ds, deleteLogFile db fid = (set_discardStats db ds, Ok ()) /\ ds_ok ds.
Proof using Type.
  intros Hok Hf. unfold deleteLogFile. destruct (Update_ok (db_discardStats db) fid (-1) (go_discard _ _ _ Hok) Hf ltac:(lia))
    as (ds & r & -> & Hds & _). by exists ds.
Qed.

Lemma remove_file_ok now db L fid off es : gc_ok now db L -> 0 < fid < maxFid (db_vlog db) -> L !! fid = Some es -> Forall vrec_ok es ->
  off = vlogHeaderSize + log_len es -> pending now fid off db [] -> is_Some (filesMap (db_vlog db) !! fid) ->
  exists db', remove_file db fid = (db', Ok ()) /\ gc_ok now db' L /\ same_reads now db db' /\ removed db db' fid.
Proof using BlockCipherLaws0 MmapLaws0.
  intros Hok Hf Hes Hrec Hoff Hp Hs. unfold remove_file, removed.
  rewrite (bool_decide_eq_false_2 (filesMap (db_vlog db) !! fid = None)) by (intros H; rewrite H in Hs; by destruct Hs).
  pose proof (go_vlog _ _ _ Hok) as [[_ (lf & El & _) _] _].
  destruct (bool_decide (iteratorCount (db_vlog db) = 0)).
  - destruct (drop_file now db L (delete_file (db_vlog db) fid) Hok) as [Hok' Hsr]; try done.
    + intros f lf'. cbn. by intros [_ ?]%lookup_delete_Some.
    + cbn. rewrite lookup_delete_ne by lia. by eexists.
    + intros k ts vs p Hk Hts Eg Hb Hl Hval Hw Hsp. cbn. rewrite lookup_delete_ne; [done|]. symmetry.
      by eapply (pending_none now fid off db L es k ts vs p).
    + pose proof (go_fid _ _ _ Hok). destruct (deleteLogFile_ok now _ L fid Hok' ltac:(lia)) as (ds & -> & Hds).
      eexists. split; [done|]. split; [by apply set_discard_ok|]. split; [exact Hsr|]. cbn. apply lookup_delete_eq.
  - destruct (drop_file now db L (mark_file (db_vlog db) fid) Hok) as [Hok' Hsr]; try done; try by eexists.
    eexists. split; [done|]. split; [done|]. split; [done|]. cbn. set_solver.
Qed.

(** [doRunGC] on a file that is not the current one: reads stay as they are whatever happens, and
    the file is gone unless the write path refused something. *)
Lemma doRunGC_ok now db L f fid : genv_ok -> clock_ok now -> gc_ok now db L -> filesMap (db_vlog db) !! fid = Some f ->
  0 < fid < maxFid (db_vlog db) ->
  let '(db', r) := doRunGC env db f in
  (exists L', gc_ok now db' L') /\ same_reads now db db' /\
  match r with
  | Ok _ => removed db db' fid
  | r => r = Err ErrMarked \/ refused now db L r
  end.
Proof using BlockCipherLaws0 MmapLaws0.
  intros Hg Hclock Hok Ef Hf. destruct (go_vlog _ _ _ Hok) as [[Hfiles _ _] _]. pose proof (Hfiles _ _ Ef) as [Hff _ _ _].
  destruct (vg_files _ _ (go_log _ _ _ Hok) _ _ Ef) as (es & Hes & Hlog). pose proof (fl_ok _ _ _ Hlog) as Hrec.
  unfold doRunGC, rewrite. rewrite Hff. destruct (bool_decide (fid ∈ filesToBeDeleted (db_vlog db))).
  { split; [by exists L|]. split; [done|by left]. }
  rewrite bool_decide_eq_true_2 by lia. cbn [negb].
  pose proof (rewrite_file_ok now db L fid es Hg Hclock ltac:(lia) Hes Hrec f Ef Hok) as H1.
  destruct (rewrite_file env db f) as [s [[]| |]].
  2:{ destruct H1 as [H1 (L1 & H2)]. split; [exists L1; apply H2|]. split; [apply H2|by right]. }
  2:{ destruct H1 as [H1 (L1 & H2)]. split; [exists L1; apply H2|]. split; [apply H2|by right]. }
  destruct H1 as (L1 & Hr1 & Hp1).
  pose proof (flush_batches_ok now db L fid Hg ltac:(lia) (length (rw_wb s) + 13) (rw_db s) (rw_wb s) L1 1024 11 _ Hr1 Hp1
    ltac:(apply Nat.ltb_lt; by vm_compute) ltac:(lia) ltac:(done)) as H2.
  unfold flush_all. destruct (flush_batches env _ _ _ _) as [db2 [[]| |]].
  2:{ destruct H2 as [H2 (wb & L2 & H3)]. split; [exists L2; apply H3|]. split; [apply H3|by right]. }
  2:{ destruct H2 as [H2 (wb & L2 & H3)]. split; [exists L2; apply H3|]. split; [apply H3|by right]. }
  destruct H2 as (L2 & Hr2 & Hp2). pose proof (rw_grows _ _ _ _ _ _ Hr2) as (_ & Hmf & Hsame).
  destruct (Hsame fid ltac:(lia)) as [EL EF].
  destruct (remove_file_ok now db2 L2 fid (vlogHeaderSize + log_len es) es (rw_ok _ _ _ _ _ _ Hr2))
    as (db3 & -> & Hok3 & Hsr3 & Hrm); [lia|by rewrite EL|done|done|done|by rewrite EF; eexists|].
  pose proof (go_fid _ _ _ Hok). destruct (deleteLogFile_ok now db3 L2 fid Hok3 ltac:(lia)) as (ds & -> & Hds).
  split; [exists L2; by apply set_discard_ok|]. split.
  - apply (same_reads_trans now db db2); [apply Hr2|exact Hsr3].
  - unfold removed in *. rewrite (rw_iters _ _ _ _ _ _ Hr2) in Hrm. exact Hrm.
Qed.
(** ** Lemmas: picking a file *)

(** The files with something to discard. *)
Definition discardable (m : gmap Z Z) : nat := size (filter (fun x => 0 < x.2) m).

Lemma discardable_le m : (discardable m <= size m)%nat.
Proof using Type. unfold discardable. apply map_subseteq_size, map_filter_subseteq. Qed.

Lemma discardable_reset m fid v : m !! fid = Some v -> 0 < v -> discardable m = S (discardable (<[fid := 0]> m)).
Proof using Type.
  intros Hm Hv. unfold discardable. rewrite map_filter_insert_False by (cbn; lia).
  rewrite <- (insert_id m fid v Hm) at 1. rewrite <- insert_delete_eq, map_filter_insert_True by done.
  rewrite map_size_insert_None; [done|]. apply map_lookup_filter_None. left. apply lookup_delete_eq.
Qed.

Lemma ds_size ds : ds_ok ds -> (size (ds_abs ds) <= ds_Len ds)%nat.
Proof using Type.
  intros Hok. destruct (ds_ok_slots ds Hok) as (used & x & rest & Hl). rewrite (slots_abs _ _ _ _ Hl). unfold ds_Len.
  rewrite (dl_next _ _ _ _ Hl). by rewrite map_size_list_to_map by apply ids_nodup, Hl.
Qed.

Lemma ds_ids ds fid v : ds_ok ds -> ds_abs ds !! fid = Some v -> 0 < fid < 2 ^ 32 /\ 0 <= v < 2 ^ 64.
Proof using Type.
  intros Hok. destruct (ds_ok_slots ds Hok) as (used & x & rest & Hl). rewrite (slots_abs _ _ _ _ Hl).
  intros H%elem_of_list_to_map_2. pose proof (dl_ok _ _ _ _ Hl) as Ho. rewrite Forall_forall in Ho. exact (Ho _ H).
Qed.

(** What [pickLog] may answer: of the files that exist the one with the most to discard. *)
Definition picked (vl : valueLog) (m : gmap Z Z) (f : logFile) : Prop := exists fid v,
  filesMap vl !! fid = Some f /\ 0 < fid < maxFid vl /\ m !! fid = Some v /\ 0 < v /\
  forall g w, m !! g = Some w -> is_Some (filesMap vl !! g) -> w <= v.

Lemma pick_loop_ok fuel vl ratio : forall ds, ds_ok ds -> (discardable (ds_abs ds) < fuel)%nat ->
  exists ds' r, pick_loop fuel vl ds ratio = Some (ds', r) /\ ds_ok ds' /\
    (forall fid, is_Some (filesMap vl !! fid) -> ds_abs ds' !! fid = ds_abs ds !! fid) /\
    match r with Some f => picked vl (ds_abs ds') f | None => True end.
Proof using Type.
  induction fuel as [|fuel IH]; intros ds Hok Hfuel; [lia|]. cbn [pick_loop].
  destruct (MaxDiscard_ok ds Hok) as ([fid v] & [Hr Hmax] & ->). cbn [fst snd] in *.
  case_bool_decide as Hz; [by exists ds, None|]. destruct Hr as [[= -> ->]|[Hin Hv]]; [done|].
  destruct (ds_ids ds fid v Hok Hin) as [Hf _]. destruct (filesMap vl !! fid) as [lf|] eqn:El.
  - destruct (SFltb _ _); [by exists ds, None|]. case_bool_decide as Hm; [|by exists ds, None].
    exists ds, (Some lf). split; [done|]. split; [done|]. split; [done|]. exists fid, v. split_and!; try done; try lia.
    intros g w Hg _. by apply (Hmax g w).
  - destruct (Update_ok ds fid (-1) Hok Hf ltac:(lia)) as (ds1 & r1 & -> & Hok1 & Hspec). cbn [mbind option_bind].
    unfold spec_Update in Hspec. rewrite Hin in Hspec. cbn in Hspec. injection Hspec as Eabs _.
    destruct (IH ds1 Hok1) as (ds' & r & -> & Hok' & Hkeep & Hp).
    { rewrite Eabs. pose proof (discardable_reset (ds_abs ds) fid v Hin Hv). lia. }
    exists ds', r. split; [done|]. split; [done|]. split; [|done].
    intros g Hg. rewrite (Hkeep g Hg), Eabs, lookup_insert_ne; [done|]. intros <-. rewrite El in Hg. by destruct Hg.
Qed.

Lemma pickLog_ok db ratio : ds_ok (db_discardStats db) -> exists ds r, pickLog db ratio = Some (set_discardStats db ds, r) /\ ds_ok ds /\
  (forall fid, is_Some (filesMap (db_vlog db) !! fid) -> ds_abs ds !! fid = ds_abs (db_discardStats db) !! fid) /\
  match r with Some f => picked (db_vlog db) (ds_abs ds) f | None => True end.
Proof using Type.
  intros Hok. destruct (pick_loop_ok (S (ds_Len (db_discardStats db))) (db_vlog db) ratio (db_discardStats db) Hok)
    as (ds & r & E & H1 & H2 & H3).
  { pose proof (discardable_le (ds_abs (db_discardStats db))). pose proof (ds_size _ Hok). lia. }
  exists ds, r. unfold pickLog. rewrite E. by split_and!.
Qed.

(** ** Lemmas: writes of new entries *)

(** Any write keeps the state well formed, whether or not the key was there. *)
Lemma put_new now db L w' k t e m v : gc_ok now db L -> eKey e = KeyWithTs k t -> k <> [] -> 0 < t <= MaxUint64 ->
  lsm_good (db_vlog db) L m e v -> mt_sl (w_mt w') = sl_put (mt_sl (w_mt (db_w db))) (KeyWithTs k t) v -> w_imm w' = w_imm (db_w db) ->
  gc_ok now (with_w db w') L.
Proof using Type.
  intros Hok Ek Hk Ht Hgood Em Ei. split; try exact (go_now _ _ _ Hok); try apply Hok.
  - cbn [with_w db_w]. rewrite Em. apply run_ok_put; [apply Hok|apply KeyWithTs_has_ts].
  - cbn [with_w db_w]. rewrite Ei. apply Hok.
  - intros k' ts r' Hk' Hts Er'. destruct (gc_get_total now db L k' ts Hok Hk' Hts) as (r & Er & Hv).
    unfold gc_get in Er, Er'. cbn [with_w db_w db_levels] in Er'. rewrite Em, Ei in Er'.
    rewrite (db_get_put _ _ _ k t v k' ts r) in Er' by (done || apply Hok). injection Er' as <-.
    case_bool_decide as Hc; [|by apply (go_ptr _ _ _ Hok k' ts)]. destruct Hc as (-> & _ & _). by eapply good_ptr.
Qed.

Lemma puts_new now L m es : forall b db mt', gc_ok now db L -> Forall new_entry es ->
  Forall2 (on_way (db_vlog db) L m) es b ->
  put_entries (gc_threshold env) (w_mt (db_w db)) b = Ok mt' -> gc_ok now (with_mt db mt') L.
Proof using Type.
  induction es as [|e es IH]; intros b db mt' Hok Hm Hb Hp.
  - apply Forall2_nil_inv_l in Hb as ->. injection Hp as <-. by destruct db as [[]].
  - apply Forall2_cons_inv_l in Hb as ([e1 p] & b' & (Ek & Hg) & Hb & ->). cbn [fst snd] in *.
    apply Forall_cons in Hm as [[_ (k & t & Ek' & Hk & Ht)] Hm]. cbn [put_entries] in Hp.
    destruct (mt_Put (w_mt (db_w db)) (eKey e1) (lsm_value (gc_threshold env) e1 p)) as [mt1| |] eqn:E1; [|done..].
    cbn [mbind result_bind] in Hp. apply (IH b' (with_mt db mt1) mt'); [|done|exact Hb|exact Hp].
    destruct (has_bit (Meta (lsm_value (gc_threshold env) e1 p)) bitFinTxn) eqn:Ef.
    + assert (mt_sl mt1 = mt_sl (w_mt (db_w db))) as Esl.
      { unfold mt_Put in E1. rewrite Ef in E1. destruct (mt_wal (w_mt (db_w db))) as [lf|].
        - destruct (writeEntry lf _); [|done..]. cbn [mbind result_bind] in E1. by injection E1 as <-.
        - cbn [mbind result_bind] in E1. by injection E1 as <-. }
      assert (forall key, gc_get (with_mt db mt1) key = gc_get db key) as Hget by (intros key; unfold gc_get; cbn; by rewrite Esl).
      split; try exact (go_now _ _ _ Hok); try apply Hok; [cbn; rewrite Esl; apply Hok|].
      intros k2 ts2 vs Hk2 Hts2. rewrite Hget. by apply (go_ptr _ _ _ Hok).
    + apply mt_Put_sl in E1; [|done]. rewrite Ek, Ek' in E1. apply (put_new now db L _ k t e m (lsm_value (gc_threshold env) e1 p) Hok Ek'); done.
Qed.

(** Any batch of entries the write path accepts. *)
Lemma batchSet_new now db L es db' : genv_ok -> gc_ok now db L -> Forall new_entry es -> batchSet env db es = Ok db' ->
  exists L', gc_ok now db' L'.
Proof using BlockCipherLaws0 MmapLaws0.
  intros Hg Hok Hm Hb. destruct (batchSet_parts now db L es db' Hg Hok Hm Hb) as (L' & vl' & b & w' & H1 & _ & _ & Hw & El & ->).
  exists L'. pose proof (wo_ok _ _ _ _ _ _ H1) as Hok1. apply one_request in El as [[-> ->]|(w1 & mt' & Ew & Ep & ->)]; [| |done].
  - apply Hok1.
  - pose proof (rotated_on now (set_vlog db vl') L' 0 w1 Hok1 Ew) as H2.
    exact (puts_new now L' _ es b (with_w (set_vlog db vl') w1) mt' (wo_ok _ _ _ _ _ _ H2) Hm Hw Ep).
Qed.

(** A collection, whatever it answers. *)
Lemma RunValueLogGC_ok now db L busy ratio : genv_ok -> clock_ok now -> gc_ok now db L ->
  let '(db', r) := RunValueLogGC env busy db ratio in
  (exists L', gc_ok now db' L') /\ same_reads now db db' /\
  match r with
  | Ok _ => exists fid, 0 < fid < maxFid (db_vlog db) /\ is_Some (filesMap (db_vlog db) !! fid) /\ removed db db' fid
  | r => r ∈ [Err ErrInvalidRequest; Err ErrRejected; Err ErrNoRewrite; Err ErrMarked] \/
         exists ds, refused now (set_discardStats db ds) L r
  end.
Proof using BlockCipherLaws0 MmapLaws0.
  intros Hg Hclock Hok. unfold RunValueLogGC. destruct (ge_vopt Hg) as (Hro & Hmem & _). rewrite Hmem, Hro.
  destruct (_ || _); [split; [by exists L|]; split; [done|left; set_solver]|]. unfold runGC.
  destruct busy; [split; [by exists L|]; split; [done|left; set_solver]|].
  destruct (pickLog_ok db ratio (go_discard _ _ _ Hok)) as (ds & r & -> & Hds & _ & Hp).
  pose proof (set_discard_ok now db L ds Hok Hds) as Hok1. destruct r as [f|].
  2:{ split; [by exists L|]. split; [done|left; set_solver]. }
  destruct Hp as (fid & v & Ef & Hf & _).
  pose proof (doRunGC_ok now (set_discardStats db ds) L f fid Hg Hclock Hok1 Ef Hf) as H.
  destruct (doRunGC env (set_discardStats db ds) f) as [db' r]. destruct H as (H1 & H2 & H3).
  split; [done|]. split; [exact H2|]. destruct r as [[]|e|].
  - exists fid. split; [done|]. split; [by eexists|exact H3].
  - destruct H3 as [[= ->]|H3]; [left; set_solver|right; by exists ds].
  - destruct H3 as [?|H3]; [done|right; by exists ds].
Qed.

(** ** Histories *)

(** A new database: no entries, one empty value log file. *)
Record new_db (db : DB) : Prop := {
  nd_mt : mt_sl (w_mt (db_w db)) = [];
  nd_imm : w_imm (db_w db) = [];
  nd_levels : exists n, db_levels db = newLevelHandler <$> seqZ 0 n;
  nd_vlog : createVlogFile (gc_vopt env) (gc_venv env) vlog_init = Ok (db_vlog db);
  nd_discard : InitDiscardStats None = Some (db_discardStats db)
}.

(** Steps at a time [now]: time passes, a batch is written, statistics come in, a file is
    collected, or tables are reorganised so that no lookup changes (a flush). *)
Inductive gc_step : Z * DB -> Z * DB -> Prop :=
  | step_time now now' db : now <= now' < 2 ^ 64 -> gc_step (now, db) (now', db)
  | step_write now db es db' : Forall new_entry es -> batchSet env db es = Ok db' -> gc_step (now, db) (now, db')
  | step_stats now db stats db' : Forall (fun x => 0 < x.1 < 2 ^ 32 /\ - 2 ^ 63 <= x.2 < 2 ^ 63) stats ->
      updateDiscardStats env db stats = Some db' -> gc_step (now, db) (now, db')
  | step_gc now db busy ratio : clock_ok now -> gc_step (now, db) (now, (RunValueLogGC env busy db ratio).1)
  | step_tables now db w levels : run_ok (mt_sl (w_mt w)) -> Forall run_ok (mt_sl <$> w_imm w) -> Forall level_ok levels ->
      Forall (fun h => 0 <= level h) levels ->
      let db' := mkDB w (db_vlog db) levels (db_discardStats db) in
      (forall k ts, k <> [] -> 0 < ts <= MaxUint64 -> gc_get db' (KeyWithTs k ts) = gc_get db (KeyWithTs k ts)) ->
      gc_step (now, db) (now, db').

Lemma new_db_ok now db : genv_ok -> 0 <= now -> new_db db -> exists L, gc_ok now db L.
Proof using BlockCipherLaws0 MmapLaws0.
  intros Hg Hnow [H1 H2 (n & H3) H4 H5]. exists {[1 := []]}.
  assert (Forall level_ok (db_levels db) /\ Forall (fun h => 0 <= level h) (db_levels db) /\ all_entries (db_levels db) = []) as (Hlv & Hl0 & Hnil).
  { rewrite H3. split; [|split].
    - apply Forall_fmap, Forall_forall. intros i _. split; [constructor|intros _; constructor|constructor|done].
    - apply Forall_fmap, Forall_forall. intros i Hi%elem_of_seqZ. cbn. lia.
    - unfold all_entries. rewrite <- list_fmap_compose. generalize (seqZ 0 n). intros l. by induction l. }
  destruct (ge_venv Hg) as (dk & Henv). pose proof (ge_vopt Hg) as Hopt. pose proof Hopt as (_ & _ & Hfs). unfold vlogHeaderSize in Hfs.
  destruct (createVlogFile_ok (gc_vopt env) (gc_venv env) vlog_init (ex_intro _ dk Henv) Hopt) as (lf & Ev & Hf & Hl);
    [done|intros f [? H]; cbn in H; by apply lookup_empty_Some in H|done|done|].
  rewrite H4 in Ev. injection Ev as Ev. destruct Init_fresh as (ds & E5 & Hds & _). rewrite H5 in E5. injection E5 as <-.
  split; try done.
  - rewrite H1. split; constructor.
  - rewrite H2. constructor.
  - rewrite Ev. split; [split|].
    + by apply map_Forall_insert_2.
    + exists lf. split; [apply lookup_insert_eq|]. unfold woffset, vlogHeaderSize. cbn. lia.
    + intros f. cbn. intros [<-|[_ [? H]]]%lookup_insert_is_Some; [done|by apply lookup_empty_Some in H].
    + unfold woffset. cbn. lia.
  - rewrite Ev. split.
    + intros f lf'. cbn [filesMap vlog_init maxFid]. intros [[<- <-]|[_ H]]%lookup_insert_Some; [|by apply lookup_empty_Some in H].
      exists []. split; [apply lookup_singleton_eq|]. unfold log_end. cbn. split; [constructor|done|].
      exists (take 20 (lf_Data lf)), (drop 20 (lf_Data lf)). cbn [log_bytes app]. rewrite take_drop.
      split; [|done]. unfold len in *. rewrite length_take. unfold vlogHeaderSize. lia.
    + intros f H%lookup_singleton_is_Some. cbn. lia.
  - by rewrite Ev.
  - intros k ts vs Hk Hts E Hb. exfalso.
    destruct (db_get_spec false (mt_sl (w_mt (db_w db))) (mt_sl <$> w_imm (db_w db)) (db_levels db) k ts) as (r & Er & Hn);
      try done; [rewrite H1; split; constructor|rewrite H2; constructor|].
    assert (r = vs) as -> by (unfold gc_get in E; congruence). rewrite H1, H2, Hnil in Hn.
    destruct Hn as [_ [->|(_ & _ & v & Hin & _)]]; [done|]. by apply not_elem_of_nil in Hin.
Qed.

Lemma gc_later now now' db L : gc_ok now db L -> now <= now' < 2 ^ 64 -> gc_ok now' db L.
Proof using Type.
  intros Hok Hle. pose proof (go_now _ _ _ Hok) as H0. split; try (apply Z.le_trans with now; lia); try apply Hok.
  intros k ts vs Hk Hts E Hb. destruct (go_ptr _ _ _ Hok k ts vs Hk Hts E Hb) as (p & H1 & H2 & H3 & H4 & H5).
  exists p. split_and!; try done. intros Hl. apply H5. by apply (live_before now now'); [lia|lia|].
Qed.

Lemma discard_updates_ok stats : forall ds ds', ds_ok ds -> Forall (fun x => 0 < x.1 < 2 ^ 32 /\ - 2 ^ 63 <= x.2 < 2 ^ 63) stats ->
  discard_updates ds stats = Some ds' -> ds_ok ds'.
Proof using Type.
  induction stats as [|[fid d] stats IH]; intros ds ds' Hok Hst; [by intros [= <-]|]. apply Forall_cons in Hst as [[Hf Hd] Hst].
  cbn [discard_updates]. destruct (Update_ok ds fid d Hok Hf Hd) as (ds1 & r & -> & Hok1 & _). by apply IH.
Qed.

Lemma gc_step_ok s s' L : genv_ok -> gc_step s s' -> gc_ok s.1 s.2 L -> exists L', gc_ok s'.1 s'.2 L'.
Proof using BlockCipherLaws0 MmapLaws0.
  intros Hg Hs Hok. destruct Hs as [now now' db Hle|now db es db' Hes Hb|now db stats db' Hst Hu|now db busy ratio Hc|now db w levels R1 R2 R3 R4 db' Hget];
    cbn [fst snd] in *.
  - exists L. by apply (gc_later now).
  - by eapply batchSet_new.
  - exists L. unfold updateDiscardStats in Hu. destruct (_ || _); [by injection Hu as <-|].
    destruct (discard_updates (db_discardStats db) stats) as [ds|] eqn:Ed; [|done]. injection Hu as <-.
    apply set_discard_ok; [done|]. by apply (discard_updates_ok stats (db_discardStats db)); [apply Hok|..].
  - pose proof (RunValueLogGC_ok now db L busy ratio Hg Hc Hok) as H. destruct (RunValueLogGC env busy db ratio) as [db' r]. apply H.
  - exists L. split; try exact (go_now _ _ _ Hok); try apply Hok; try done. intros k ts vs Hk Hts. rewrite Hget by done.
    by apply (go_ptr _ _ _ Hok).
Qed.

Lemma gc_reachable_ok now0 db0 s : genv_ok -> 0 <= now0 -> new_db db0 -> rtc gc_step (now0, db0) s -> exists L, gc_ok s.1 s.2 L.
Proof using BlockCipherLaws0 MmapLaws0.
  intros Hg Hn Hnew Hs. destruct (new_db_ok now0 db0 Hg Hn Hnew) as [L Hok].
  assert (forall s0, rtc gc_step s0 s -> forall L, gc_ok s0.1 s0.2 L -> exists L, gc_ok s.1 s.2 L) as H.
  { clear Hs. intros s0 Hr. induction Hr as [s0|s0 s1 s2 Hstep _ IH]; intros L1 Hok1; [by exists L1|].
    destruct (gc_step_ok s0 s1 L1 Hg Hstep Hok1) as [L2 Hok2]. by apply (IH L2). }
  by apply (H _ Hs L).
Qed.

Lemma gc_reachable_at now0 db0 now db : genv_ok -> 0 <= now0 -> new_db db0 -> rtc gc_step (now0, db0) (now, db) ->
  exists L, gc_ok now db L.
Proof using BlockCipherLaws0 MmapLaws0. apply gc_reachable_ok. Qed.

(** ** Properties *)

Section History.
Context (now0 now : Z) (db0 db : DB).
Context (Hg : genv_ok) (Hnow : 0 <= now0) (Hnew : new_db db0) (Hreach : rtc gc_step (now0, db0) (now, db)).

(** C8: no read notices a garbage collection of the value log.  In every state that writes,
    statistics from compactions, flushes and earlier collections lead to, and whatever
    [RunValueLogGC] answers, every key at every timestamp shows the same version, metadata and
    value afterwards, at any later time.  When it succeeds, a file that is not the current one is
    gone or, with an open iterator, marked for deletion; when it fails, it is for a reason it
    checks itself, or with the answer of the write path to entries that show what is there
    already. *)
Theorem gc_preserves_reads busy ratio : clock_ok now ->
  let '(db', r) := RunValueLogGC env busy db ratio in
  same_reads now db db' /\
  match r with
  | Ok _ => exists fid, 0 < fid < maxFid (db_vlog db) /\ is_Some (filesMap (db_vlog db) !! fid) /\ removed db db' fid
  | r => r ∈ [Err ErrInvalidRequest; Err ErrRejected; Err ErrNoRewrite; Err ErrMarked] \/
         exists ds L, refused now (set_discardStats db ds) L r
  end.
Proof using All.
  intros Hclock. destruct (gc_reachable_at now0 db0 now db Hg Hnow Hnew Hreach) as [L Hok].
  pose proof (RunValueLogGC_ok now db L busy ratio Hg Hclock Hok) as H. destruct (RunValueLogGC env busy db ratio) as [db' r].
  destruct H as (_ & Hsr & H). split; [done|]. destruct r as [u|e|]; [done|..]; (destruct H as [H|[ds H]]; [by left|right; by exists ds, L]).
Qed.

(** C9: nothing live dangles.  In every such state, with any number of files collected, the value
    of every live entry a lookup finds can be read, and its pointer, if it has one, is to the
    record that was written for that key and version with that metadata. *)
Theorem live_values_readable k ts vs : k <> [] -> 0 < ts <= MaxUint64 ->
  gc_get db (KeyWithTs k ts) = Ok vs -> live now vs = true ->
  (exists v, read_value (db_vlog db) vs = Ok v) /\
  (has_bit (Meta vs) bitValuePointer = true -> exists p e, Value vs = Some (vp_Encode p) /\ stored (db_vlog db) p e /\
     eKey e = KeyWithTs k (Version vs) /\ entry_info e = vs_info vs /\ read_value (db_vlog db) vs = Ok (vbytes (eValue e))).
Proof using All.
  intros Hk Hts E Hl. destruct (gc_reachable_at now0 db0 now db Hg Hnow Hnew Hreach) as [L Hok].
  pose proof (go_ptr _ _ _ Hok k ts vs Hk Hts E) as Hp. split.
  - destruct (ptr_readable _ _ _ _ _ Hp Hl) as [v Hv]. exists v. by apply readable_read; [apply Hok|].
  - intros Hb. destruct (Hp Hb) as (p & Ev & Hw & _ & He & Hs). destruct (He (Hs Hl)) as (e & H1 & _ & H3 & H4).
    exists p, e. split_and!; try done. apply readable_read; [apply Hok|]. unfold readable. rewrite Hb. by exists p, e.
Qed.
End History.

(** C37: the loop of [pickLog] ends within one turn per file with statistics: every turn resets the
    statistics of a file that is gone, those of the files that exist stay as they are.  A file it
    picks exists, is not the current one, and has the most to discard of the files that exist. *)
Theorem pickLog_ends db ratio : ds_ok (db_discardStats db) ->
  exists ds r, pickLog db ratio = Some (set_discardStats db ds, r) /\ ds_ok ds /\
    (forall fid, is_Some (filesMap (db_vlog db) !! fid) -> ds_abs ds !! fid = ds_abs (db_discardStats db) !! fid) /\
    match r with Some f => picked (db_vlog db) (ds_abs ds) f | None => True end.
Proof using Type. apply pickLog_ok. Qed.
End GcSpec.

(** ** Witness: one value in a file that is collected *)

Definition gx_opt : txn_opts := mkOpts 100 1000 2000000 false false true false (-1).

Definition gx_wenv : writer_env :=
  mkWEnv false 150 5 (fun mt => len (mt_sl mt)) (fun _ => false) wal_latest wal_registry (fun _ => wal_iv).

Definition gx_env : gc_env := mkGc gx_opt gx_wenv vx_opts vx_env (fun w => w) 0 10 false (fun _ => 5).

Definition gx_db0 : DB :=
  mkDB (mkWriter wx_new [] [] 2) vx_init (newLevelHandler <$> seqZ 0 7) (default (mkDS [] 0) (InitDiscardStats None)).

Definition gx_entries : list Entry := [vx_entry x61 2; vx_entry x62 70].

Definition gx_db1 : DB := match batchSet gx_env gx_db0 gx_entries with Ok db => db | _ => gx_db0 end.

Definition gx_db : DB := default gx_db1 (updateDiscardStats gx_env gx_db1 [(1, 120)]).

Definition gx_half : spec_float := S754_finite false 4503599627370496 (-53).

Notation gx_after := (RunValueLogGC gx_env false gx_db gx_half).

Lemma gx_genv_ok : genv_ok gx_env.
Proof.
  split.
  - by split_and!.
  - exact vx_env_ok.
  - done.
  - exists (Some wal_key). intros fid. exact wal_registry_ok.
  - unfold maxHeaderSize. cbn. lia.
  - done.
Qed.

Lemma gx_new : new_db gx_env gx_db0.
Proof.
  split.
  - by vm_compute.
  - done.
  - by exists 7.
  - assert (createVlogFile vx_opts vx_env vlog_init = Ok vx_init) as H; [|exact H].
    destruct (createVlogFile_ok vx_opts vx_env vlog_init vx_env_ok) as (lf & E & _); [done|done| |done|done|].
    { intros f [? H]. cbn in H. by apply lookup_empty_Some in H. }
    unfold vx_init, vlog_open. cbn [vo_InMemory vo_ReadOnly vx_opts]. by rewrite E.
  - unfold gx_db0. cbn [db_discardStats]. destruct Init_fresh as (ds & -> & _). done.
Qed.

Lemma gx_written : batchSet gx_env gx_db0 gx_entries = Ok gx_db1.
Proof.
  assert (match batchSet gx_env gx_db0 gx_entries with Ok _ => true | _ => false end = true) as H by (vm_compute; reflexivity).
  unfold gx_db1. destruct (batchSet gx_env gx_db0 gx_entries); done.
Qed.

Lemma gx_counted : updateDiscardStats gx_env gx_db1 [(1, 120)] = Some gx_db.
Proof.
  assert (match updateDiscardStats gx_env gx_db1 [(1, 120)] with Some _ => true | None => false end = true) as H
    by (vm_compute; reflexivity).
  unfold gx_db. destruct (updateDiscardStats gx_env gx_db1 [(1, 120)]); done.
Qed.

Lemma gx_reach : rtc (gc_step gx_env) (5, gx_db0) (5, gx_db).
Proof.
  apply rtc_l with (5, gx_db1); [|apply rtc_once].
  - apply (step_write gx_env 5 gx_db0 gx_entries); [|exact gx_written]. constructor; [|constructor; [|constructor]].
    + split; [by vm_compute|]. exists [x61], 3. by split_and!.
    + split; [by vm_compute|]. exists [x62], 3. by split_and!.
  - apply (step_stats gx_env 5 gx_db1 [(1, 120)]); [|exact gx_counted]. repeat constructor; cbn; lia.
Qed.

Lemma gx_clock : clock_ok gx_env 5.
Proof. split; [lia|]. intros e. cbn. lia. Qed.

Lemma gx_after_ok : gx_after = (gx_after.1, Ok ()).
Proof.
  assert (gx_after.2 = Ok ()) as E by (vm_compute; reflexivity).
  generalize gx_after, E. intros [db r] H. cbn in H. by rewrite H.
Qed.

(** File 1 is gone, and the value is there. *)
Lemma gc_preserves_reads_witness :
  (same_reads gx_env 5 gx_db gx_after.1 /\
   exists fid, 0 < fid < maxFid (db_vlog gx_db) /\ is_Some (filesMap (db_vlog gx_db) !! fid) /\ removed gx_db gx_after.1 fid) /\
  filesMap (db_vlog gx_after.1) !! 1 = None /\
  gc_read gx_env 7 gx_after.1 [x62] 9 = Some (3, (x00, 0, false, false, false), Some (Ok (replicate 70 x62))).
Proof.
  split; [|split; by vm_compute].
  pose proof (gc_preserves_reads gx_env 5 5 gx_db0 gx_db gx_genv_ok ltac:(lia) gx_new gx_reach false gx_half gx_clock) as H.
  rewrite gx_after_ok in H. exact H.
Defined.

Lemma gx_reach_after : rtc (gc_step gx_env) (5, gx_db0) (7, gx_after.1).
Proof.
  apply rtc_r with (5, gx_after.1); [|by apply step_time].
  apply rtc_r with (5, gx_db); [exact gx_reach|]. exact (step_gc gx_env 5 gx_db false gx_half gx_clock).
Qed.

Lemma gx_get_found : exists vs, gc_get gx_after.1 (KeyWithTs [x62] 9) = Ok vs /\ has_bit (Meta vs) bitValuePointer = true /\
  live 7 vs = true /\ Version vs = 3.
Proof.
  assert (match gc_get gx_after.1 (KeyWithTs [x62] 9) with
          | Ok vs => has_bit (Meta vs) bitValuePointer && live 7 vs && bool_decide (Version vs = 3) | _ => false end = true)
    as H by (vm_compute; reflexivity).
  revert H. generalize (gc_get gx_after.1 (KeyWithTs [x62] 9)). intros [vs| |] H; [|discriminate..].
  apply andb_prop in H as [[Hb Hl]%andb_prop Hv%bool_decide_eq_true_1]. by exists vs.
Qed.

Lemma live_values_readable_witness : exists vs, gc_get gx_after.1 (KeyWithTs [x62] 9) = Ok vs /\
  has_bit (Meta vs) bitValuePointer = true /\ live 7 vs = true /\
  exists p e, Value vs = Some (vp_Encode p) /\ stored (db_vlog gx_after.1) p e /\ eKey e = KeyWithTs [x62] 3.
Proof.
  assert ([x62] <> []) as Hk by done. assert (0 < 9 <= MaxUint64) as Hts by (split; by vm_compute).
  assert (0 <= 5) as Hnow by lia. destruct gx_get_found as (vs & E & Hb & Hl & Hv).
  exists vs. split; [exact E|]. split; [exact Hb|]. split; [exact Hl|].
  pose proof (live_values_readable gx_env 5 7 gx_db0 gx_after.1 gx_genv_ok Hnow gx_new gx_reach_after [x62] 9 vs Hk Hts E Hl) as [_ H].
  destruct (H Hb) as (p & e & H1 & H2 & H3 & _). exists p, e. rewrite Hv in H3.
  split; [exact H1|]. split; [exact H2|exact H3].
Defined.

Lemma gx_ds_ok : ds_ok (db_discardStats gx_db).
Proof.
  assert (0 <= 5) as Hnow by lia.
  destruct (gc_reachable_at gx_env 5 gx_db0 5 gx_db gx_genv_ok Hnow gx_new gx_reach) as [L H].
  exact (go_discard _ _ _ _ H).
Qed.

Lemma gx_pick : exists db f, pickLog gx_db gx_half = Some (db, Some f) /\ lf_fid f = 1.
Proof.
  assert (match pickLog gx_db gx_half with Some (_, Some f) => bool_decide (lf_fid f = 1) | _ => false end = true) as H
    by (vm_compute; reflexivity).
  revert H. generalize (pickLog gx_db gx_half). intros [[db [f|]]|] H; [|discriminate..].
  exists db, f. split; [reflexivity|]. exact (bool_decide_eq_true_1 _ H).
Qed.

Lemma pickLog_ends_witness : exists ds f, pickLog gx_db gx_half = Some (set_discardStats gx_db ds, Some f) /\ lf_fid f = 1 /\
  picked (db_vlog gx_db) (ds_abs ds) f.
Proof.
  destruct (pickLog_ends gx_db gx_half gx_ds_ok) as (ds & r & E & _ & _ & Hp).
  destruct gx_pick as (db & f & E1 & Hf). rewrite E in E1.
  assert (r = Some f) as Er by (generalize E1; generalize (set_discardStats gx_db ds); intros db1 E2; congruence).
  rewrite Er in E, Hp. exists ds, f. split; [exact E|]. split; [exact Hf|exact Hp].
Defined.
