(* ===== verification/Iterator.v ===== *)
(** * Iterator: the iterator a user sees (iterator.go)

    An [Iterator] walks an internal iterator — any lawful [YIterator] — over all versions of all
    keys and shows, for every user key, the newest version its transaction can see; backwards it
    has to look ahead for that.  [parseItem] is its step, [Seek] and [Next] keep a window of
    items ready.  The internal keys and what is banned are skipped, and a prefix ends it.

    Prefetching runs in goroutines that each write one item before it can be read; an item is
    prefetched at once here.  [clock key] is the time [isDeletedOrExpired] saw at an entry.  An
    empty value and nil are the same bytes to a reader and are not told apart in [it_val]. *)

From S2P Require Import Prelude Keys Codec Watermark Oracle Checksum Encrypt LogFile Bloom Block Tables TableFile TableBuild Iterators LevelHandler Transaction ValueLog Subcompact.

(** ** Options *)

Record IteratorOptions : Type := mkIOpts {
  PrefetchSize : Z;
  PrefetchValues : bool;
  Reverse : bool;
  AllVersions : bool;
  InternalAccess : bool;
  prefixIsKey : bool;
  Prefix : bytes;
  SinceTs : Z
}.

Definition DefaultIteratorOptions : IteratorOptions := mkIOpts 100 true false false false false [] 0.

Definition compareToPrefix (opt : IteratorOptions) (key : bytes) : comparison :=
  let key := ParseKey key in
  let key := if bool_decide (len (Prefix opt) < len key) then take (length (Prefix opt)) key else key in
  bytes_Compare key (Prefix opt).

(** ** Items *)

Section Items.
Context (vlog_read : valuePointer -> result vlog_error bytes).

Definition hasValue (item : Item) : bool :=
  negb (bool_decide (it_meta item = x00) && bool_decide (it_vptr item = None)).

(** A value that cannot be read is logged and shown as nil; [None] is a panic. *)
Definition yieldItemValue (item : Item) : option bytes :=
  if negb (hasValue item) then Some []
  else if negb (has_bit (it_meta item) bitValuePointer) then Some (vbytes (it_vptr item))
  else
    vp ← vp_Decode (vbytes (it_vptr item));
    match vlog_read vp with Ok v => Some v | Err _ => Some [] | Panic => None end.

Definition set_prefetched (item : Item) (val : option bytes) : Item :=
  mkItem (it_key item) (it_version item) (it_meta item) (it_userMeta item) val (it_vptr item)
    (it_expiresAt item) true.

Definition prefetchValue (item : Item) : option Item :=
  val ← yieldItemValue item;
  Some (set_prefetched item (match val with [] => it_val item | _ => Some val end)).

(** What [Value] gives its function; the error is always nil. *)
Definition Item_Value (item : Item) : option bytes :=
  if it_prefetched item then Some (vbytes (it_val item)) else yieldItemValue item.

Definition ValueCopy (item : Item) (dst : bytes) : option (option bytes) :=
  if it_prefetched item then Some (SafeCopy dst (it_val item))
  else buf ← yieldItemValue item; Some (SafeCopy dst (Some buf)).

Definition KeyCopy (item : Item) (dst : bytes) : option bytes := SafeCopy dst (Some (it_key item)).

Definition IsDeletedOrExpired (now : Z) (item : Item) : bool :=
  isDeletedOrExpired (it_meta item) (it_expiresAt item) now.

Definition DiscardEarlierVersions (item : Item) : bool := has_bit (it_meta item) bitDiscardEarlierVersions.

Definition EstimatedSize (item : Item) : option Z :=
  if negb (hasValue item) then Some 0
  else if negb (has_bit (it_meta item) bitValuePointer)
  then Some (len (it_key item) + len (vbytes (it_vptr item)))
  else vp ← vp_Decode (vbytes (it_vptr item)); Some (Len vp).

Definition KeySize (item : Item) : Z := len (it_key item).

Definition ValueSize (item : Item) : option Z :=
  if negb (hasValue item) then Some 0
  else if negb (has_bit (it_meta item) bitValuePointer) then Some (len (vbytes (it_vptr item)))
  else
    vp ← vp_Decode (vbytes (it_vptr item));
    let klen := len (it_key item) + 8 in
    Some (Len vp - klen - 6 - 4).
End Items.

(** ** [Iterator] *)

Record Iterator (S : Type) : Type := mkIter {
  i_iitr : option S;          (* nil when there is nothing to merge *)
  i_readTs : Z;
  i_opt : IteratorOptions;
  i_item : option Item;
  i_data : list Item;
  i_waste : list Item;
  i_lastKey : bytes;
  i_closed : bool;
  i_scanned : Z
}.
Arguments mkIter {S}.
Arguments i_iitr {S}.
Arguments i_readTs {S}.
Arguments i_opt {S}.
Arguments i_item {S}.
Arguments i_data {S}.
Arguments i_waste {S}.
Arguments i_lastKey {S}.
Arguments i_closed {S}.
Arguments i_scanned {S}.

Section Iterator.
Context {S : Type} `{YIterator S}.
Context (MemHash : bytes -> Z) (topt : txn_opts) (vlog_read : valuePointer -> result vlog_error bytes).
Implicit Types it : Iterator S.

Definition set_iitr it (mi : S) : Iterator S :=
  mkIter (Some mi) (i_readTs it) (i_opt it) (i_item it) (i_data it) (i_waste it) (i_lastKey it) (i_closed it) (i_scanned it).
Definition set_item it (x : option Item) : Iterator S :=
  mkIter (i_iitr it) (i_readTs it) (i_opt it) x (i_data it) (i_waste it) (i_lastKey it) (i_closed it) (i_scanned it).
Definition set_lists it (data waste : list Item) : Iterator S :=
  mkIter (i_iitr it) (i_readTs it) (i_opt it) (i_item it) data waste (i_lastKey it) (i_closed it) (i_scanned it).
Definition set_lastKey it (key : bytes) : Iterator S :=
  mkIter (i_iitr it) (i_readTs it) (i_opt it) (i_item it) (i_data it) (i_waste it) key (i_closed it) (i_scanned it).
Definition set_scanned it (n : Z) : Iterator S :=
  mkIter (i_iitr it) (i_readTs it) (i_opt it) (i_item it) (i_data it) (i_waste it) (i_lastKey it) (i_closed it) n.

Definition empty_item : Item := mkItem [] 0 x00 x00 None None 0 false.

(** An item of the waste list is used again. *)
Definition newItem it : Item * Iterator S :=
  match i_waste it with
  | [] => (empty_item, it)
  | item :: waste => (item, set_lists it (i_data it) waste)
  end.

Definition setItem it (item : Item) : Iterator S :=
  match i_item it with
  | None => set_item it (Some item)
  | Some _ => set_lists it (i_data it ++ [item]) (i_waste it)
  end.

Definition fill it (mi : S) (item : Item) : option Item :=
  vs ← y_Value mi;
  let item := mkItem (take 0 (it_key item) ++ ParseKey (y_Key mi)) (ParseTs (y_Key mi)) (Meta vs) (UserMeta vs)
    None (SafeCopy (vbytes (it_vptr item)) (Value vs)) (ExpiresAt vs) (it_prefetched item) in
  if PrefetchValues (i_opt it) then prefetchValue vlog_read item else Some item.

(** From the label FILL on; [fuel] bounds its jumps back. *)
Fixpoint parse_fill (clock : bytes -> Z) (fuel : nat) it (mi : S) : option (bool * Iterator S) :=
  match fuel with
  | O => None
  | Datatypes.S fuel =>
      vs ← y_Value mi;
      if isDeletedOrExpired (Meta vs) (ExpiresAt vs) (clock (y_Key mi)) then
        mi ← y_Next mi; Some (false, set_iitr it mi)
      else
        let '(item, it) := newItem it in
        item ← fill it mi item;
        mi ← y_Next mi;
        let it := set_iitr it mi in
        if negb (Reverse (i_opt it)) || negb (y_Valid mi) then Some (true, setItem it item)
        else
          let nextTs := ParseTs (y_Key mi) in
          let mik := ParseKey (y_Key mi) in
          if bool_decide (nextTs <= i_readTs it) && bool_decide (mik = it_key item)
          then parse_fill clock fuel it mi
          else Some (true, setItem it item)
  end.

Definition parseItem (banned : gset Z) (clock : bytes -> Z) (fuel : nat) it : option (bool * Iterator S) :=
  mi ← i_iitr it;
  let key := y_Key mi in
  let opt := i_opt it in
  let skip := mi ← y_Next mi; Some (false, set_iitr it mi) in
  let isInternalKey := bool_decide (badgerPrefix `prefix_of` key) in
  if negb (InternalAccess opt) && isInternalKey then skip
  else
    let version := ParseTs key in
    if bool_decide (i_readTs it < version) || bool_decide (0 < SinceTs opt) && bool_decide (version <= SinceTs opt)
    then skip
    else
      ban ← (if isInternalKey then Some false
             else match isBanned topt banned key with Ok _ => Some false | Err _ => Some true | Panic => None end);
      if (ban : bool) then skip
      else if AllVersions opt then
        let '(item, it) := newItem it in
        item ← fill it mi item;
        mi ← y_Next mi;
        Some (true, set_iitr (setItem it item) mi)
      else if negb (Reverse opt) then
        if SameKey (i_lastKey it) key then skip
        else parse_fill clock fuel (set_lastKey it (take 0 (i_lastKey it) ++ key)) mi
      else parse_fill clock fuel it mi.

Definition hasPrefix it (mi : S) : bool :=
  if negb (Reverse (i_opt it)) && bool_decide (0 < len (Prefix (i_opt it)))
  then bool_decide (Prefix (i_opt it) `prefix_of` ParseKey (y_Key mi))
  else true.

(** The loop of [Next]. *)
Fixpoint next_loop (banned : gset Z) (clock : bytes -> Z) (fuel : nat) it : option (Iterator S) :=
  match fuel with
  | O => None
  | Datatypes.S fuel =>
      mi ← i_iitr it;
      if y_Valid mi && hasPrefix it mi then
        '(found, it) ← parseItem banned clock fuel it;
        if (found : bool) then Some it else next_loop banned clock fuel it
      else Some it
  end.

(** [Next] on an iterator without an item is a nil dereference. *)
Definition iter_Next (banned : gset Z) (clock : bytes -> Z) (fuel : nat) it : option (Iterator S) :=
  match i_iitr it with
  | None => Some it
  | Some _ =>
      item ← i_item it;
      let it := set_scanned it (i_scanned it + len (it_key item) + len (vbytes (it_val item)) + len (vbytes (it_vptr item)) + 2) in
      let popped := head (i_data it) in
      let it := set_lists it (tail (i_data it)) (i_waste it ++ [item]) in
      next_loop banned clock fuel (set_item it popped)
  end.

(** The loop of [prefetch]; [count] items are there. *)
Fixpoint prefetch_loop (banned : gset Z) (clock : bytes -> Z) (fuel : nat) (size count : Z) it : option (Iterator S) :=
  match fuel with
  | O => None
  | Datatypes.S fuel =>
      mi ← i_iitr it;
      if y_Valid mi && hasPrefix it mi then
        '(found, it) ← parseItem banned clock fuel it;
        if negb (found : bool) then prefetch_loop banned clock fuel size count it
        else if bool_decide (count + 1 = size) then Some it
        else prefetch_loop banned clock fuel size (count + 1) it
      else Some it
  end.

Definition prefetch_size (opt : IteratorOptions) : Z :=
  if PrefetchValues opt && bool_decide (1 < PrefetchSize opt) then PrefetchSize opt else 2.

Definition prefetch (banned : gset Z) (clock : bytes -> Z) (fuel : nat) it : option (Iterator S) :=
  prefetch_loop banned clock fuel (prefetch_size (i_opt it)) 0 (set_item it None).

(** The transaction comes back with the key noted as read. *)
Definition iter_Seek (banned : gset Z) (clock : bytes -> Z) (fuel : nat) it (t : Txn) (key : bytes)
    : option (Iterator S * Txn) :=
  match i_iitr it with
  | None => Some (it, t)
  | Some mi =>
      let t := if bool_decide (0 < len key) then addReadKey MemHash t key else t in
      let it := set_lastKey (set_lists it [] (i_waste it ++ i_data it)) (take 0 (i_lastKey it)) in
      let key := if bool_decide (len key = 0) then Prefix (i_opt it) else key in
      mi ← (if bool_decide (len key = 0) then y_Rewind mi
            else y_Seek mi (KeyWithTs key (if negb (Reverse (i_opt it)) then i_readTs it else 0)));
      it ← prefetch banned clock fuel (set_iitr it mi);
      Some (it, t)
  end.

Definition iter_Rewind (banned : gset Z) (clock : bytes -> Z) (fuel : nat) it (t : Txn) : option (Iterator S * Txn) :=
  iter_Seek banned clock fuel it t [].

Definition iter_Valid it : bool :=
  match i_item it with
  | None => false
  | Some item =>
      if prefixIsKey (i_opt it) then bool_decide (it_key item = Prefix (i_opt it))
      else bool_decide (Prefix (i_opt it) `prefix_of` it_key item)
  end.

Definition ValidForPrefix it (prefix : bytes) : bool :=
  iter_Valid it && match i_item it with Some item => bool_decide (prefix `prefix_of` it_key item) | None => false end.

(** [Item] on an iterator that is not valid is a nil dereference. *)
Definition iter_Item it (t : Txn) : option (Item * Txn) :=
  item ← i_item it; Some (item, addReadKey MemHash t (it_key item)).

(** All a user sees from here on: [for ; it.Valid(); it.Next() { it.Item() }]. *)
Fixpoint collect (banned : gset Z) (clock : bytes -> Z) (fuel steps : nat) it (t : Txn) : option (list Item * Txn) :=
  match steps with
  | O => None
  | Datatypes.S steps =>
      if iter_Valid it then
        '(item, t) ← iter_Item it t;
        it ← iter_Next banned clock fuel it;
        '(items, t) ← collect banned clock fuel steps it t;
        Some (item :: items, t)
      else Some ([], t)
  end.
End Iterator.

(** ** What should be shown

    [shown es x] says which entries of the run [es] a user sees: those the options and the read
    timestamp let through, of each user key the newest, unless it is deleted or expired. *)

Section Spec.
Context (topt : txn_opts) (opt : IteratorOptions) (ts : Z) (banned : gset Z) (clock : bytes -> Z).

Definition internal (key : bytes) : bool := bool_decide (badgerPrefix `prefix_of` key).

Definition ban (key : bytes) : bool :=
  match isBanned topt banned key with Err _ => true | _ => false end.

Definition in_window (x : kv) : bool :=
  (InternalAccess opt || negb (internal x.1)) &&
  negb (bool_decide (ts < ParseTs x.1) || bool_decide (0 < SinceTs opt) && bool_decide (ParseTs x.1 <= SinceTs opt)) &&
  (internal x.1 || negb (ban x.1)).

Definition gone (x : kv) : bool := isDeletedOrExpired (Meta x.2) (ExpiresAt x.2) (clock x.1).

Definition newer_in_window (x y : kv) : bool :=
  in_window y && bool_decide (ukey y.1 = ukey x.1) && bool_decide (ParseTs x.1 < ParseTs y.1).

Definition shown (es : list kv) (x : kv) : bool :=
  in_window x && (AllVersions opt || negb (existsb (newer_in_window x) es) && negb (gone x)).

(** The part of the run an iteration is about: from the key sought, or else the prefix. *)
Definition seek_key (key : bytes) : bytes := if bool_decide (len key = 0) then Prefix opt else key.

Definition seek_ts : Z := if Reverse opt then 0 else ts.

Definition sought (key : bytes) (es : list kv) : list kv :=
  if bool_decide (len (seek_key key) = 0) then es
  else run_from (Reverse opt) (KeyWithTs (seek_key key) seek_ts) es.

Definition has_prefix (x : kv) : bool :=
  if negb (Reverse opt) && bool_decide (0 < len (Prefix opt)) then bool_decide (Prefix opt `prefix_of` ukey x.1) else true.

Definition valid (x : kv) : bool :=
  if prefixIsKey opt then bool_decide (ukey x.1 = Prefix opt) else bool_decide (Prefix opt `prefix_of` ukey x.1).

Definition visible (key : bytes) (es : list kv) : list kv :=
  take_while valid (filter (fun x => shown es x = true) (take_while has_prefix (sought key es))).
End Spec.

(** The value behind an entry. *)
Definition entry_value (vlog_read : valuePointer -> result vlog_error bytes) (vs : ValueStruct) : option bytes :=
  if negb (has_bit (Meta vs) bitValuePointer) then Some (vbytes (Value vs))
  else
    vp ← vp_Decode (vbytes (Value vs));
    match vlog_read vp with Ok v => Some v | Err _ => Some [] | Panic => None end.

Record item_shows (vlog_read : valuePointer -> result vlog_error bytes) (x : kv) (item : Item) : Prop := {
  is_key : it_key item = ukey x.1;
  is_version : it_version item = ParseTs x.1;
  is_meta : it_meta item = Meta x.2;
  is_userMeta : it_userMeta item = UserMeta x.2;
  is_expiresAt : it_expiresAt item = ExpiresAt x.2;
  is_value : Item_Value vlog_read item = entry_value vlog_read x.2
}.

(** ** Lemmas: the two walks *)

Section Walks.
Context (topt : txn_opts) (opt : IteratorOptions) (ts : Z) (banned : gset Z) (clock : bytes -> Z).
Notation in_window := (in_window topt opt ts banned).
Notation gone := (gone clock).
Notation shown := (shown topt opt ts banned clock).

(** Forwards, [lk] being the key last let through. *)
Fixpoint fwd (lk : bytes) (l : list kv) : list kv :=
  match l with
  | [] => []
  | x :: l =>
      if in_window x then
        if SameKey lk x.1 then fwd lk l else (if gone x then [] else [x]) ++ fwd x.1 l
      else fwd lk l
  end.

(** The entry next to come is a newer version the transaction can see. *)
Definition superseded (x : kv) (l : list kv) : bool :=
  match l with y :: _ => bool_decide (ParseTs y.1 <= ts) && bool_decide (ukey y.1 = ukey x.1) | [] => false end.

Fixpoint bwd (l : list kv) : list kv :=
  match l with
  | [] => []
  | x :: l => if in_window x && negb (gone x || superseded x l) then x :: bwd l else bwd l
  end.

(** What an iterator at [l] has yet to show. *)
Definition rest (lk : bytes) (l : list kv) : list kv :=
  if AllVersions opt then filter (fun x => in_window x = true) (take_while (has_prefix opt) l)
  else if Reverse opt then bwd (take_while (has_prefix opt) l)
  else fwd lk (take_while (has_prefix opt) l).

(** The internal keys and the banned ones are told by the user key. *)
Definition by_user_key (es : list kv) : Prop :=
  forall x y, x ∈ es -> y ∈ es -> ukey x.1 = ukey y.1 ->
    internal x.1 = internal y.1 /\ ban topt banned x.1 = ban topt banned y.1.

Lemma in_window_ts x : in_window x = true -> ParseTs x.1 <= ts.
Proof.
  unfold Iterator.in_window. rewrite !andb_true_iff, negb_true_iff, orb_false_iff, bool_decide_eq_false. lia.
Qed.

(** A later version of the same key is in the window when it is not above the read timestamp. *)
Lemma in_window_later es x y : by_user_key es -> x ∈ es -> y ∈ es -> in_window x = true ->
  ukey y.1 = ukey x.1 -> ParseTs x.1 < ParseTs y.1 <= ts -> in_window y = true.
Proof.
  intros Hu Hx Hy Hw E Ht. destruct (Hu x y Hx Hy) as [E1 E2]; [done|]. revert Hw.
  unfold Iterator.in_window. rewrite <- E1, <- E2, !andb_true_iff, !negb_true_iff, !orb_false_iff, !andb_false_iff,
    !bool_decide_eq_false. intros [[H1 [H2 H3]] H4]. split_and!; [done|lia| |done].
  destruct H3 as [H3|H3]; [by left|right; lia].
Qed.

Lemma shown_newest es x : AllVersions opt = false ->
  shown es x = true <-> in_window x = true /\ gone x = false /\
    forall y, y ∈ es -> in_window y = true -> ukey y.1 = ukey x.1 -> ParseTs y.1 <= ParseTs x.1.
Proof.
  intros Ha. unfold Iterator.shown. rewrite Ha. cbn [orb]. rewrite !andb_true_iff, !negb_true_iff.
  rewrite <- not_true_iff_false, existsb_exists. unfold newer_in_window.
  split; intros (H1 & H2); split; try tauto.
  - split; [tauto|]. intros y Hy Hwy E. destruct (decide (ParseTs y.1 <= ParseTs x.1)); [done|exfalso].
    apply (proj1 H2). exists y. rewrite <- list_elem_of_In, Hwy, !bool_decide_eq_true_2 by (done || lia). done.
  - destruct H2 as [Hg H2]. split; [|done]. intros (y & Hy & Hn). apply list_elem_of_In in Hy.
    rewrite !andb_true_iff, !bool_decide_eq_true in Hn. destruct Hn as [[Hwy E] Hlt]. specialize (H2 y Hy Hwy E). lia.
Qed.

(** [lk] is the key let through last: exactly the user keys let through so far are its. *)
Definition last_seen (pre : list kv) (lk : bytes) (l : list kv) : Prop :=
  forall x, x ∈ l -> SameKey lk x.1 = true <-> exists y, y ∈ pre /\ in_window y = true /\ ukey y.1 = ukey x.1.

Lemma fwd_shown post l : forall pre lk,
  AllVersions opt = false -> kvs_sorted (pre ++ l ++ post) -> keys_ok (pre ++ l ++ post) -> last_seen pre lk l ->
  fwd lk l = filter (fun x => shown (pre ++ l ++ post) x = true) l.
Proof.
  induction l as [|x l IH]; intros pre lk Ha Hs Hk Hl; [done|]. cbn [fwd].
  rewrite <- app_comm_cons in *.
  assert (pre ++ x :: l ++ post = (pre ++ [x]) ++ l ++ post) as Eapp by (by rewrite <- app_assoc).
  assert (forall y, y ∈ pre -> compareKeys y.1 x.1 = Lt) as Hpre.
  { intros y Hy. apply StronglySorted_app in Hs as (Hlt & _). apply Hlt; [done|by left]. }
  assert (forall z, z ∈ l ++ post -> compareKeys x.1 z.1 = Lt) as Hpost.
  { intros z Hz. apply StronglySorted_app in Hs as (_ & _ & Hs). apply StronglySorted_cons in Hs as [Hs _].
    rewrite Forall_forall in Hs. by apply Hs. }
  assert (forall y, y ∈ pre ++ x :: l ++ post -> key_ok y.1) as Hko by (by apply Forall_forall).
  assert (key_ok x.1) as Hkx by (apply Hko, elem_of_app; right; by left).
  rewrite filter_cons. destruct (in_window x) eqn:Hw.
  - destruct (SameKey lk x.1) eqn:Esk.
    + (* an older version of the key let through last *)
      destruct (proj1 (Hl x ltac:(by left)) Esk) as (y & Hy & Hwy & E).
      assert (ParseTs x.1 < ParseTs y.1) as Hts.
      { apply (version_lt y.1 x.1); [apply Hko, elem_of_app; by left|done|done|by apply Hpre]. }
      rewrite decide_False.
      2:{ intros Hsh. apply (shown_newest _ _ Ha) in Hsh as (_ & _ & Hn).
          specialize (Hn y ltac:(apply elem_of_app; by left) Hwy E). lia. }
      rewrite Eapp in *. apply IH; [done..|]. intros z Hz. rewrite (Hl z) by (by right).
      split; intros (y' & Hy' & ?); [exists y'; split; [apply elem_of_app; by left|done]|].
      apply elem_of_app in Hy' as [Hy'|Hy']; [by exists y'|].
      apply list_elem_of_singleton in Hy' as ->. exists y. split; [done|]. split; [done|]. destruct H; congruence.
    + (* the newest version in the window *)
      assert (shown (pre ++ x :: l ++ post) x = negb (gone x)) as Hsh.
      { apply eq_bool_prop_intro. rewrite !Is_true_true, (shown_newest _ _ Ha), negb_true_iff.
        split; [by intros (_ & ? & _)|]. intros Hg. split; [done|]. split; [done|].
        intros y Hy Hwy E. apply elem_of_app in Hy as [Hy|Hy].
        - exfalso. apply not_true_iff_false in Esk. apply Esk, Hl; [by left|]. by exists y.
        - apply elem_of_cons in Hy as [->|Hy]; [done|].
          assert (ParseTs y.1 < ParseTs x.1); [|lia]. apply (version_lt x.1 y.1); [done| |done|by apply Hpost].
          apply Hko, elem_of_app. right. by right. }
      assert (fwd x.1 l = filter (fun z => shown (pre ++ x :: l ++ post) z = true) l) as ->.
      { rewrite Eapp in *. apply IH; [done..|]. intros z Hz.
        assert (key_ok z.1) as Hkz by (apply Hko; rewrite !elem_of_app; tauto).
        rewrite SameKey_ukey by (by apply key_ok_ts). rewrite bool_decide_eq_true. split.
        - intros E. exists x. split; [apply elem_of_app; right; by left|done].
        - intros (y & Hy & Hwy & E). apply elem_of_app in Hy as [Hy|Hy].
          + rewrite <- E. apply (ukey_between y.1 x.1 z.1); [by apply Hpre|apply Hpost, elem_of_app; by left|done].
          + by apply list_elem_of_singleton in Hy as ->. }
      destruct (gone x); [by rewrite decide_False by (by rewrite Hsh)|].
      by rewrite decide_True by (by rewrite Hsh).
  - rewrite decide_False by (rewrite (shown_newest _ _ Ha), Hw; by intros [??]).
    rewrite Eapp in *. apply IH; [done..|]. intros z Hz. rewrite (Hl z) by (by right).
    split; intros (y' & Hy' & ?); exists y'; (split; [|done]).
    + apply elem_of_app. by left.
    + apply elem_of_app in Hy' as [Hy'|Hy']; [done|].
      apply list_elem_of_singleton in Hy' as ->. destruct H; congruence.
Qed.

Lemma bwd_shown l : forall pre,
  AllVersions opt = false -> run_sorted true (pre ++ l) -> keys_ok (pre ++ l) -> by_user_key (pre ++ l) ->
  bwd l = filter (fun x => shown (pre ++ l) x = true) l.
Proof.
  induction l as [|x l IH]; intros pre Ha Hs Hk Hu; [done|]. cbn [bwd].
  assert (forall y, y ∈ pre ++ x :: l -> key_ok y.1) as Hko by (by apply Forall_forall).
  assert (forall y, y ∈ pre -> compareKeys x.1 y.1 = Lt) as Hpre.
  { intros y Hy. apply StronglySorted_app in Hs as (Hlt & _). apply Hlt; [done|by left]. }
  assert (run_sorted true (x :: l)) as Hsl by (by apply StronglySorted_app in Hs as (_ & _ & ?)).
  apply StronglySorted_cons in Hsl as [Hpost Hsl]. rewrite Forall_forall in Hpost.
  assert (x ∈ pre ++ x :: l) as Hx by (apply elem_of_app; right; by left).
  assert (forall z, z ∈ l -> z ∈ pre ++ x :: l) as Hin by (intros z Hz; apply elem_of_app; right; by right).
  assert (bwd l = filter (fun z => shown (pre ++ x :: l) z = true) l) as IH'.
  { assert (pre ++ x :: l = (pre ++ [x]) ++ l) as E by (by rewrite <- app_assoc). rewrite E in *. by apply IH. }
  assert (in_window x = true -> superseded x l = true <->
    exists y, y ∈ l /\ in_window y = true /\ ukey y.1 = ukey x.1) as Hsup.
  { intros Hw. split.
    - destruct l as [|y l]; [done|]. cbn [superseded]. rewrite andb_true_iff, !bool_decide_eq_true. intros [Ht E].
      exists y. split; [by left|]. split; [|done]. apply (in_window_later (pre ++ x :: y :: l) x); try done.
      + apply Hin. by left.
      + split; [|done]. apply (version_lt y.1 x.1); [by apply Hko, Hin; left|by apply Hko|done|].
        apply Hpost. by left.
    - intros (y & Hy & Hwy & E). destruct l as [|h l]; [by apply elem_of_nil in Hy|]. cbn [superseded].
      assert (ukey h.1 = ukey x.1 /\ ParseTs h.1 <= ParseTs y.1) as [Eh Ht].
      { apply elem_of_cons in Hy as [->|Hy]; [done|].
        apply StronglySorted_cons in Hsl as [Hh _]. rewrite Forall_forall in Hh. specialize (Hh y Hy). cbn in Hh.
        assert (ukey h.1 = ukey y.1) as Ehy.
        { apply (ukey_between y.1 h.1 x.1); [done|apply Hpost; by left|done]. }
        split; [congruence|]. apply Z.lt_le_incl, (version_lt y.1 h.1); [by apply Hko, Hin; right|by apply Hko, Hin; left|done|done]. }
      rewrite !bool_decide_eq_true_2; [done|done|]. apply in_window_ts in Hwy. lia. }
  rewrite filter_cons.
  destruct (in_window x) eqn:Hw; [cbn [andb]|].
  2:{ rewrite decide_False by (rewrite (shown_newest _ _ Ha), Hw; by intros [??]). by rewrite IH'. }
  specialize (Hsup eq_refl).
  assert (shown (pre ++ x :: l) x = true <-> gone x = false /\ superseded x l = false) as Hsh.
  { rewrite (shown_newest _ _ Ha), <- (not_true_iff_false (superseded x l)), Hsup. split.
    - intros (_ & Hg & Hn). split; [done|]. intros (y & Hy & Hwy & E).
      specialize (Hn y (Hin y Hy) Hwy E).
      assert (ParseTs x.1 < ParseTs y.1); [|lia].
      apply (version_lt y.1 x.1); [by apply Hko, Hin|by apply Hko|done|]. by apply Hpost.
    - intros [Hg Hn]. split; [done|]. split; [done|]. intros y Hy Hwy E. apply elem_of_app in Hy as [Hy|Hy].
      + apply Z.lt_le_incl, (version_lt x.1 y.1); [by apply Hko|apply Hko, elem_of_app; by left|done|by apply Hpre].
      + apply elem_of_cons in Hy as [->|Hy]; [done|]. exfalso. apply Hn. by exists y. }
  destruct (gone x || superseded x l) eqn:Eg; cbn [negb].
  - rewrite decide_False; [done|]. rewrite Hsh. apply orb_true_iff in Eg as [->| ->]; by intros [].
  - apply orb_false_iff in Eg as [E1 E2]. rewrite decide_True by (by apply Hsh). by rewrite IH'.
Qed.
End Walks.

Lemma isBanned_total topt banned key : isBanned topt banned key <> Panic.
Proof.
  unfold isBanned. case_bool_decide as H1; [done|]. case_bool_decide as H2; [done|].
  unfold slice_from, slice. rewrite bool_decide_eq_true_2 by lia. cbn [unpanic mbind result_bind].
  set (d := take _ _). assert (8 <= len d) as Hd.
  { unfold d, len. rewrite length_take, length_drop. unfold len in *. lia. }
  unfold BytesToU64. destruct (slice d 0 8) eqn:E.
  - cbn. by case_bool_decide.
  - unfold slice in E. by rewrite bool_decide_eq_true_2 in E by lia.
Qed.

(** ** Lemmas: a step of the iterator *)

Section Steps.
Context {S : Type} {rev : bool} {sk : bytes -> Prop} {I : YIterator S} {L : YIteratorLaws S rev sk}.
Context (MemHash : bytes -> Z) (topt : txn_opts) (vlog_read : valuePointer -> result vlog_error bytes).
Context (opt : IteratorOptions) (ts : Z) (banned : gset Z) (clock : bytes -> Z) (es : list kv).
Context (Hdir : Reverse opt = rev).
Implicit Types it : Iterator S.

(** Values can be read without a panic. *)
Definition readable : Prop := forall x, x ∈ es -> is_Some (entry_value vlog_read x.2).

Definition clean (item : Item) : Prop := it_prefetched item = true -> PrefetchValues opt = true.

Definition pending it : list Item := match i_item it with Some item => item :: i_data it | None => i_data it end.

(** [it] is before the part [l] of the run [es], and the items of [xs] are ready. *)
Record istate it (l xs : list kv) : Prop := {
  st_mi : exists mi, i_iitr it = Some mi /\ y_at mi es l;
  st_pending : Forall2 (item_shows vlog_read) xs (pending it);
  st_item : i_item it = None -> i_data it = [];
  st_clean : Forall clean (pending it ++ i_waste it);
  st_opt : i_opt it = opt;
  st_ts : i_readTs it = ts
}.

Lemma y_at_in mi l x : y_at mi es l -> x ∈ l -> x ∈ es.
Proof.
  intros Hat Hx. destruct (y_at_suffix _ _ _ Hat) as [pre ->]. apply elem_of_app. by right.
Qed.

Lemma at_ts mi x l : y_at mi es (x :: l) -> has_ts x.1.
Proof.
  intros Hat. pose proof (y_at_in _ _ x Hat ltac:(by left)) as Hx.
  destruct (y_over_ok _ _ (y_at_over _ _ _ Hat)) as [_ Ht]. exact (proj1 (Forall_forall _ _) Ht x Hx).
Qed.

Lemma prefetch_shows (x : kv) item : it_meta item = Meta x.2 -> it_vptr item = Some (vbytes (Value x.2)) -> it_val item = None ->
  is_Some (entry_value vlog_read x.2) ->
  yieldItemValue vlog_read item = entry_value vlog_read x.2 /\
  exists item', prefetchValue vlog_read item = Some item' /\ it_prefetched item' = true /\
    Some (vbytes (it_val item')) = entry_value vlog_read x.2 /\ it_key item' = it_key item /\
    it_version item' = it_version item /\ it_meta item' = it_meta item /\ it_userMeta item' = it_userMeta item /\
    it_expiresAt item' = it_expiresAt item.
Proof.
  intros Hm Hp Hv [v Ev].
  assert (yieldItemValue vlog_read item = entry_value vlog_read x.2) as Ey.
  { unfold yieldItemValue, hasValue, entry_value. rewrite Hm, Hp, (bool_decide_eq_false_2 (Some _ = None)) by done.
    by rewrite andb_false_r. }
  split; [done|]. unfold prefetchValue. rewrite Ey, Ev. cbn [mbind option_bind]. eexists. split; [done|].
  split_and!; try done. cbn. rewrite Hv. by destruct v.
Qed.

Lemma fill_ok it mi x l item : y_at mi es (x :: l) -> i_opt it = opt -> readable -> clean item ->
  exists item', fill vlog_read it mi item = Some item' /\ item_shows vlog_read x item' /\ clean item'.
Proof.
  intros Hat Ho Hr Hc. destruct (y_shows _ _ _ _ Hat) as [Ek Ev]. unfold fill. rewrite Ek, Ev, Ho. cbn [mbind option_bind].
  rewrite ParseKey_ukey by (exact (at_ts _ _ _ Hat)).
  set (raw := mkItem _ _ _ _ _ _ _ _).
  destruct (prefetch_shows x raw) as (Ey & item' & E & Hp & Hv & H1 & H2 & H3 & H4 & H5).
  { done. }
  { done. }
  { done. }
  { apply Hr, (y_at_in _ _ _ Hat). by left. }
  destruct (PrefetchValues opt) eqn:Ep.
  - exists item'. split; [done|]. split; [|by intros _].
    split; [by rewrite H1|by rewrite H2|by rewrite H3|by rewrite H4|by rewrite H5|].
    unfold Item_Value. by rewrite Hp.
  - exists raw. split; [done|]. split; [|done]. split; try done.
    unfold Item_Value. unfold clean in Hc. rewrite Ep in Hc. cbn. destruct (it_prefetched item); [by specialize (Hc eq_refl)|done].
Qed.

(** Moving on without an item. *)
Lemma istate_skip it mi x l xs : istate it (x :: l) xs -> i_iitr it = Some mi -> y_at mi es (x :: l) ->
  exists mi', y_Next mi = Some mi' /\ istate (set_iitr it mi') l xs /\ y_at mi' es l.
Proof.
  intros [_ Hp Hi Hc Ho Ht] Hmi Hat. destruct (y_next _ _ _ _ Hat) as (mi' & E & Hat'). exists mi'. split; [done|].
  split; [|done]. split; try done. by exists mi'.
Qed.

Lemma istate_lastKey it l xs k : istate it l xs -> istate (set_lastKey it k) l xs.
Proof. by intros []. Qed.

(** Taking an item from the waste list. *)
Lemma newItem_ok it l xs : istate it l xs ->
  clean (newItem it).1 /\ istate (newItem it).2 l xs /\ i_lastKey (newItem it).2 = i_lastKey it /\
  i_iitr (newItem it).2 = i_iitr it.
Proof.
  intros [Hm Hp Hi Hc Ho Ht]. unfold newItem. destruct (i_waste it) as [|w ws] eqn:Ew; cbn [fst snd].
  - split_and!; try done. split; try done. by rewrite Ew.
  - apply Forall_app in Hc as [Hc1 Hc2]. apply Forall_cons in Hc2 as [Hw Hc2].
    split_and!; try done. split; try done. cbn. apply Forall_app. split; [|done]. exact Hc1.
Qed.

Lemma pending_setItem it item : (i_item it = None -> i_data it = []) -> pending (setItem it item) = pending it ++ [item].
Proof.
  unfold pending, setItem. destruct (i_item it) eqn:E; cbn; [by rewrite E|]. intros ->; done.
Qed.

(** Adding a filled item. *)
Lemma setItem_ok it l xs x item : istate it l xs -> item_shows vlog_read x item -> clean item ->
  istate (setItem it item) l (xs ++ [x]).
Proof.
  intros [(mi & Hm & Hat) Hp Hi Hc Ho Ht] Hs Hcl. split.
  - exists mi. unfold setItem. by destruct (i_item it).
  - rewrite pending_setItem by done. apply Forall2_app; [done|]. by constructor.
  - unfold setItem. destruct (i_item it) eqn:E; cbn; [by rewrite E|done].
  - rewrite pending_setItem by done. assert (i_waste (setItem it item) = i_waste it) as ->.
    { unfold setItem. by destruct (i_item it). }
    apply Forall_app in Hc as [Hc1 Hc2]. rewrite !Forall_app. by repeat constructor.
  - unfold setItem. by destruct (i_item it).
  - unfold setItem. by destruct (i_item it).
Qed.
Notation rest := (rest topt opt ts banned clock).
Notation in_window := (in_window topt opt ts banned).

(** From [l] the iterator has come to [l'], with a new item or without. *)
Definition parsed (found : bool) it' (lk : bytes) (l l' xs : list kv) : Prop :=
  (length l' < length l)%nat /\
  if found then exists z, rest lk l = z :: rest (i_lastKey it') l' /\ istate it' l' (xs ++ [z])
  else rest lk l = rest (i_lastKey it') l' /\ istate it' l' xs.

Lemma take_while_rev l : Reverse opt = true -> take_while (has_prefix opt) l = l.
Proof. intros Hr. apply take_while_all, Forall_forall. intros x _. unfold has_prefix. by rewrite Hr. Qed.

Lemma rest_cons lk x l : has_prefix opt x = true ->
  rest lk (x :: l) =
    if AllVersions opt then (if in_window x then [x] else []) ++ rest lk l
    else if Reverse opt then
      if in_window x && negb (gone clock x || superseded ts x l) then x :: rest lk l else rest lk l
    else if in_window x then
      if SameKey lk x.1 then rest lk l else (if gone clock x then [] else [x]) ++ rest x.1 l
    else rest lk l.
Proof.
  intros Hp. unfold Iterator.rest. cbn [take_while]. rewrite Hp. destruct (AllVersions opt).
  { rewrite filter_cons. by destruct (in_window x). }
  destruct (Reverse opt) eqn:Er; [|done]. by rewrite !take_while_rev.
Qed.

(** Skipping an entry that shows nothing. *)
Lemma parse_skip it mi x l xs lk : istate it (x :: l) xs -> i_iitr it = Some mi -> y_at mi es (x :: l) ->
  rest lk (x :: l) = rest (i_lastKey it) l ->
  exists b it' l', (mi ← y_Next mi; Some (false, set_iitr it mi)) = Some (b, it') /\ parsed b it' lk (x :: l) l' xs.
Proof.
  intros Hst Hm Hat Hr. destruct (istate_skip it mi x l xs Hst Hm Hat) as (mi' & -> & Hst' & _).
  exists false, (set_iitr it mi'), l. split; [done|]. split; [simpl; lia|]. done.
Qed.

(** Filling an item from the entry at hand and moving on. *)
Lemma fill_next it mi x l xs : istate it (x :: l) xs -> i_iitr it = Some mi -> y_at mi es (x :: l) -> readable ->
  exists item mi', fill vlog_read (newItem it).2 mi (newItem it).1 = Some item /\ y_Next mi = Some mi' /\
    item_shows vlog_read x item /\ clean item /\ y_at mi' es l /\ istate (set_iitr (newItem it).2 mi') l xs /\
    i_lastKey (newItem it).2 = i_lastKey it.
Proof.
  intros Hst Hm Hat Hr. destruct (newItem_ok it _ _ Hst) as (Hc & Hst' & Hl & Hi).
  destruct (fill_ok (newItem it).2 mi x l (newItem it).1 Hat (st_opt _ _ _ Hst') Hr Hc) as (item & Ef & Hs & Hcl).
  destruct (istate_skip _ mi x l xs Hst' ltac:(by rewrite Hi) Hat) as (mi' & En & Hst'' & Hat').
  by exists item, mi'.
Qed.

(** The end of [parseItem] when nothing newer of the key is next. *)
Lemma parse_shown it mi x l xs lk item mi' : 
  istate (set_iitr (newItem it).2 mi') l xs -> item_shows vlog_read x item -> clean item ->
  i_lastKey (newItem it).2 = i_lastKey it -> rest lk (x :: l) = x :: rest (i_lastKey it) l -> y_at mi es (x :: l) ->
  parsed true (setItem (set_iitr (newItem it).2 mi') item) lk (x :: l) l xs.
Proof.
  intros Hst Hs Hc Hlk Hr _. split; [simpl; lia|]. exists x. split.
  - rewrite Hr. do 2 f_equal. rewrite <- Hlk. unfold setItem. by destruct (i_item _).
  - by apply setItem_ok.
Qed.

Lemma parse_fill_ok fuel : forall it mi x l xs lk,
  istate it (x :: l) xs -> i_iitr it = Some mi -> y_at mi es (x :: l) -> readable -> (rev = true -> by_user_key topt banned es) ->
  keys_ok es -> AllVersions opt = false -> has_prefix opt x = true -> in_window x = true ->
  (Reverse opt = false -> SameKey lk x.1 = false /\ i_lastKey it = x.1) -> (length (x :: l) <= fuel)%nat ->
  exists b it' l', parse_fill vlog_read clock fuel it mi = Some (b, it') /\ parsed b it' lk (x :: l) l' xs.
Proof.
  induction fuel as [|fuel IH]; intros it mi x l xs lk Hst Hm Hat Hr Hu Hk Ha Hp Hw Hlk Hf; [simpl in Hf; lia|].
  cbn [parse_fill]. destruct (y_shows _ _ _ _ Hat) as [Ek Ev]. rewrite Ek, Ev. cbn [mbind option_bind].
  change (isDeletedOrExpired _ _ _) with (gone clock x). pose proof (rest_cons lk x l Hp) as Hrest.
  rewrite Ha, Hw in Hrest. cbn [andb] in Hrest.
  destruct (gone clock x) eqn:Eg.
  { apply (parse_skip it mi x l xs); try done. rewrite Hrest. destruct (Reverse opt) eqn:Er; [cbn [orb negb]; unfold Iterator.rest; by rewrite Ha, Er|].
    destruct (Hlk eq_refl) as [-> ->]. done. }
  destruct (fill_next it mi x l xs Hst Hm Hat Hr) as (item & mi' & Ef & En & Hs & Hc & Hat' & Hst' & Hlk').
  rewrite (surjective_pairing (newItem it)), Ef. cbn [mbind option_bind]. rewrite En. cbn [mbind option_bind].
  assert (i_opt (set_iitr (newItem it).2 mi') = opt) as -> by apply (st_opt _ _ _ Hst').
  assert (i_readTs (set_iitr (newItem it).2 mi') = ts) as -> by apply (st_ts _ _ _ Hst').
  destruct (Reverse opt) eqn:Er; cbn [negb orb].
  2:{ eexists true, _, l. split; [done|]. apply (parse_shown it mi); try done. destruct (Hlk eq_refl) as [E1 ->].
      by rewrite Hrest, E1. }
  assert (forall k, rest k l = rest lk l) as Hany by (intros k; unfold Iterator.rest; by rewrite Ha, Er).
  rewrite (y_valid _ _ _ Hat'). destruct l as [|y l].
  { rewrite bool_decide_eq_false_2 by (by intros []). cbn [negb]. eexists true, _, []. split; [done|].
    apply (parse_shown it mi); try done; by rewrite Hrest, (Hany (i_lastKey it)). }
  rewrite bool_decide_eq_true_2 by done. cbn [negb].
  destruct (y_shows _ _ _ _ Hat') as [Ek' _]. rewrite Ek', ParseKey_ukey by (exact (at_ts _ _ _ Hat')).
  rewrite (is_key _ _ _ Hs). change (_ && _) with (superseded ts x (y :: l)).
  destruct (superseded ts x (y :: l)) eqn:Es.
  - unfold superseded in Es. rewrite andb_true_iff, !bool_decide_eq_true in Es. destruct Es as [Et Eu].
    assert (x ∈ es) as Hx by (by apply (y_at_in _ _ _ Hat); left).
    assert (y ∈ es) as Hy by (by apply (y_at_in _ _ _ Hat'); left).
    assert (key_ok x.1 /\ key_ok y.1) as [Hkx Hky] by (split; by apply (proj1 (Forall_forall _ _) Hk)).
    assert (compareKeys y.1 x.1 = Lt) as Hlt.
    { destruct (y_over_ok _ _ (y_at_over _ _ _ Hat)) as [Hso _]. destruct (y_at_suffix _ _ _ Hat) as [pre E].
      rewrite E in Hso. apply StronglySorted_app in Hso as (_ & _ & Hso). apply StronglySorted_cons in Hso as [Hso _].
      apply Forall_cons in Hso as [Hso _]. rewrite <- Hdir in Hso. by rewrite ?Er in Hso. }
    destruct (IH (set_iitr (newItem it).2 mi') mi' y l xs lk) as (b & it' & l' & E & Hlen & Hpd); try done.
    + unfold has_prefix. by rewrite Er.
    + apply (in_window_later topt opt ts banned es x y); try done; [by apply Hu; rewrite <- Hdir|]. split; [|done]. by apply (version_lt y.1 x.1).
    + simpl in Hf |- *. lia.
    + exists b, it', l'. split; [done|]. split; [simpl in Hlen |- *; lia|]. by rewrite Hrest.
  - eexists true, _, (y :: l). split; [done|]. apply (parse_shown it mi); try done.
    rewrite Hrest. cbn [orb negb]. by rewrite (Hany (i_lastKey it)).
Qed.
Record run_ready : Prop := {
  rr_read : readable;
  rr_keys : keys_ok es;
  rr_uniform : rev = true -> by_user_key topt banned es
}.

Context (Hready : run_ready).

Lemma out_skip it mi x l xs : istate it (x :: l) xs -> i_iitr it = Some mi -> y_at mi es (x :: l) ->
  has_prefix opt x = true -> in_window x = false ->
  exists b it' l', (mi ← y_Next mi; Some (false, set_iitr it mi)) = Some (b, it') /\
    parsed b it' (i_lastKey it) (x :: l) l' xs.
Proof.
  intros Hst Hm Hat Hp Hw. apply (parse_skip it mi x l xs); try done. rewrite (rest_cons _ _ _ Hp), Hw. cbn [andb].
  destruct (AllVersions opt); [done|]. by destruct (Reverse opt).
Qed.

Lemma parseItem_ok fuel it x l xs :
  istate it (x :: l) xs -> has_prefix opt x = true -> (length (x :: l) <= fuel)%nat ->
  exists b it' l', parseItem topt vlog_read banned clock fuel it = Some (b, it') /\
    parsed b it' (i_lastKey it) (x :: l) l' xs.
Proof.
  intros Hst Hp Hf. destruct (st_mi _ _ _ Hst) as (mi & Hm & Hat). unfold parseItem. rewrite Hm. cbn [mbind option_bind].
  destruct (y_shows _ _ _ _ Hat) as [Ek _]. rewrite Ek, (st_opt _ _ _ Hst), (st_ts _ _ _ Hst).
  pose proof (out_skip it mi x l xs Hst Hm Hat Hp) as Hout.
  assert (in_window x = (InternalAccess opt || negb (internal x.1)) &&
    negb (bool_decide (ts < ParseTs x.1) || bool_decide (0 < SinceTs opt) && bool_decide (ParseTs x.1 <= SinceTs opt)) &&
    (internal x.1 || negb (ban topt banned x.1))) as Ew by done.
  change (bool_decide (badgerPrefix `prefix_of` x.1)) with (internal x.1).
  destruct (negb (InternalAccess opt) && internal x.1) eqn:E1.
  { apply Hout. rewrite Ew. apply andb_true_iff in E1 as [E1 ->]. by apply negb_true_iff in E1 as ->. }
  destruct (bool_decide (ts < _) || _) eqn:E2.
  { apply Hout. rewrite Ew. cbn [negb]. by rewrite andb_false_r. }
  assert ((if internal x.1 then Some false
     else match isBanned topt banned x.1 with Ok _ => Some false | Err _ => Some true | Panic => None end)
    = Some (negb (internal x.1 || negb (ban topt banned x.1)))) as ->.
  { destruct (internal x.1); [done|]. unfold ban. pose proof (isBanned_total topt banned x.1) as Ht.
    by destruct (isBanned topt banned x.1) as [[]| |]. }
  cbn [mbind option_bind].
  assert ((InternalAccess opt || negb (internal x.1)) = true) as E3.
  { destruct (InternalAccess opt); [done|]. cbn in E1. by rewrite E1. }
  rewrite E3 in Ew. cbn [negb andb] in Ew. rewrite <- Ew.
  destruct (in_window x) eqn:Hw; cbn [negb]; [|by apply Hout].
  clear Ew E1 E2 E3 Hout. pose proof (rest_cons (i_lastKey it) x l Hp) as Hrest. rewrite Hw in Hrest. cbn [andb] in Hrest.
  destruct (AllVersions opt) eqn:Ea.
  { destruct (fill_next it mi x l xs Hst Hm Hat (rr_read Hready)) as (item & mi' & Ef & En & Hs & Hc & Hat' & Hst' & Hlk).
    rewrite (surjective_pairing (newItem it)), Ef. cbn [mbind option_bind]. rewrite En. cbn [mbind option_bind].
    eexists true, _, l. split; [done|].
    assert (set_iitr (setItem (newItem it).2 item) mi' = setItem (set_iitr (newItem it).2 mi') item) as ->.
    { unfold setItem. cbn. by destruct (i_item (newItem it).2). }
    apply (parse_shown it mi); try done. }
  destruct (Reverse opt) eqn:Er in Hrest |- *; cbn [negb].
  - apply (parse_fill_ok fuel it mi x l xs (i_lastKey it)); try done; try apply Hready. by intros E; rewrite Er in E.
  - destruct (SameKey (i_lastKey it) x.1) eqn:Esk.
    + by apply (parse_skip it mi x l xs).
    + apply (parse_fill_ok fuel (set_lastKey it x.1) mi x l xs (i_lastKey it)); try done; try apply Hready.
      by apply istate_lastKey.
Qed.
(** A loop has come from [l] to [l'] and gathered items; it gathers none only at the end. *)
Definition moved (lk : bytes) (l xs : list kv) it' : Prop :=
  exists l' zs, (length l' <= length l)%nat /\ rest lk l = zs ++ rest (i_lastKey it') l' /\
    istate it' l' (xs ++ zs) /\ (zs = [] -> rest (i_lastKey it') l' = []).

Lemma loop_guard it l xs : istate it l xs -> exists mi, i_iitr it = Some mi /\
  y_Valid mi && hasPrefix it mi = match l with [] => false | x :: _ => has_prefix opt x end.
Proof.
  intros Hst. destruct (st_mi _ _ _ Hst) as (mi & Hm & Hat). exists mi. split; [done|].
  rewrite (y_valid _ _ _ Hat). destruct l as [|x l].
  - by rewrite bool_decide_eq_false_2 by (by intros []).
  - rewrite bool_decide_eq_true_2 by done. unfold hasPrefix, has_prefix. rewrite (st_opt _ _ _ Hst).
    destruct (y_shows _ _ _ _ Hat) as [-> _]. by rewrite ParseKey_ukey by (exact (at_ts _ _ _ Hat)).
Qed.

Lemma moved_end it l xs : istate it l xs -> match l with [] => false | x :: _ => has_prefix opt x end = false ->
  moved (i_lastKey it) l xs it.
Proof.
  intros Hst Hl. exists l, []. rewrite app_nil_r. split_and!; try done.
  intros _. unfold Iterator.rest. destruct l as [|x l]; cbn [take_while]; [|rewrite Hl];
    by destruct (AllVersions opt), (Reverse opt).
Qed.

Lemma moved_skip lk l l' xs it' it'' : (length l' < length l)%nat -> rest lk l = rest (i_lastKey it') l' ->
  moved (i_lastKey it') l' xs it'' -> moved lk l xs it''.
Proof. intros Hl Hr (l2 & zs & H1 & H2 & H3 & H4). exists l2, zs. rewrite Hr. split_and!; try done. lia. Qed.

Lemma next_loop_ok fuel : forall it l xs, istate it l xs -> (length l < fuel)%nat ->
  exists it', next_loop topt vlog_read banned clock fuel it = Some it' /\ moved (i_lastKey it) l xs it'.
Proof.
  induction fuel as [|fuel IH]; intros it l xs Hst Hf; [lia|]. cbn [next_loop].
  destruct (loop_guard it l xs Hst) as (mi & -> & Hg). cbn [mbind option_bind]. rewrite Hg.
  destruct l as [|x l]; [|destruct (has_prefix opt x) eqn:Ep]; [by exists it; split; [|by apply moved_end]| |
    by exists it; split; [|by apply moved_end]].
  destruct (parseItem_ok fuel it x l xs Hst Ep) as (b & it' & l' & -> & Hlen & Hp); [lia|]. cbn [mbind option_bind].
  destruct b.
  - destruct Hp as (z & Er & Hst'). exists it'. split; [done|]. exists l', [z]. split_and!; try done. lia.
  - destruct Hp as [Er Hst']. destruct (IH it' l' xs Hst') as (it'' & -> & Hm); [lia|]. exists it''. split; [done|].
    by apply (moved_skip _ _ l' _ it').
Qed.

Lemma prefetch_loop_ok size fuel : forall count it l xs, istate it l xs -> (length l < fuel)%nat ->
  exists it', prefetch_loop topt vlog_read banned clock fuel size count it = Some it' /\ moved (i_lastKey it) l xs it'.
Proof.
  induction fuel as [|fuel IH]; intros count it l xs Hst Hf; [lia|]. cbn [prefetch_loop].
  destruct (loop_guard it l xs Hst) as (mi & -> & Hg). cbn [mbind option_bind]. rewrite Hg.
  destruct l as [|x l]; [|destruct (has_prefix opt x) eqn:Ep]; [by exists it; split; [|by apply moved_end]| |
    by exists it; split; [|by apply moved_end]].
  destruct (parseItem_ok fuel it x l xs Hst Ep) as (b & it' & l' & -> & Hlen & Hp); [lia|]. cbn [mbind option_bind].
  destruct b; cbn [negb].
  - destruct Hp as (z & Er & Hst'). case_bool_decide.
    { exists it'. split; [done|]. exists l', [z]. split_and!; try done. lia. }
    destruct (IH (count + 1) it' l' _ Hst') as (it'' & -> & l2 & zs & H1 & H2 & H3 & H4); [lia|].
    exists it''. split; [done|]. exists l2, (z :: zs). rewrite <- app_assoc in H3. rewrite Er, H2. split_and!; try done. lia.
  - destruct Hp as [Er Hst']. destruct (IH count it' l' xs Hst') as (it'' & -> & Hm); [lia|]. exists it''. split; [done|].
    by apply (moved_skip _ _ l' _ it').
Qed.

(** Between two calls of the user: [xs] ready, [total] still to show, an item there unless at the end. *)
Definition ready it (total : list kv) : Prop :=
  exists l xs, istate it l xs /\ total = xs ++ rest (i_lastKey it) l /\ (length l <= length es)%nat /\
    (i_item it = None -> total = []).

Lemma ready_of it lk l xs it' : istate it l [] -> lk = i_lastKey it -> (length l <= length es)%nat -> xs = rest lk l ->
  moved lk l [] it' -> ready it' xs.
Proof.
  intros _ _ Hl -> (l' & zs & H1 & H2 & H3 & H4). exists l', zs. rewrite H2. split_and!; try done; [lia|].
  intros Hn. pose proof (st_pending _ _ _ H3) as Hp. unfold pending in Hp.
  rewrite Hn, (st_item _ _ _ H3 Hn) in Hp. apply Forall2_nil_inv_r in Hp. cbn in Hp. subst zs. by rewrite H4.
Qed.

Lemma Next_ok fuel it z total : ready it (z :: total) -> (length es < fuel)%nat ->
  exists item it', i_item it = Some item /\ item_shows vlog_read z item /\
    iter_Next topt vlog_read banned clock fuel it = Some it' /\ ready it' total.
Proof.
  intros (l & xs & Hst & Et & Hl & Hn) Hf. destruct (i_item it) as [item|] eqn:Ei; [|by specialize (Hn eq_refl)].
  destruct Hst as [(mi & Hm & Hat) Hp Hi Hc Ho Ht]. unfold pending in Hp, Hc. rewrite Ei in Hp, Hc.
  destruct xs as [|x xs]; [by apply Forall2_nil_inv_l in Hp|]. apply Forall2_cons in Hp as [Hx Hp]. injection Et as <- Et.
  exists item. unfold iter_Next. rewrite Hm, Ei. cbn [mbind option_bind]. cbn [i_data set_scanned i_waste].
  set (it1 := set_item _ _). apply Forall_cons in Hc as [Hci Hc]. apply Forall_app in Hc as [Hcd Hcw].
  assert (pending it1 = i_data it) as Epd by (unfold pending, it1; cbn; by destruct (i_data it)).
  assert (istate it1 l xs) as Hst1.
  { split; [by exists mi|by rewrite Epd| |rewrite Epd|done|done].
    - unfold it1. cbn. by destruct (i_data it).
    - cbn. rewrite !Forall_app. by repeat constructor. }
  destruct (next_loop_ok fuel it1 l xs Hst1 ltac:(lia)) as (it' & -> & l' & zs & H1 & H2 & H3 & H4).
  exists it'. split; [done|]. split; [done|]. split; [done|]. exists l', (xs ++ zs). change (i_lastKey it1) with (i_lastKey it) in H2.
  split; [done|]. split; [by rewrite Et, H2, app_assoc|]. split; [lia|]. intros Hno.
  pose proof (st_pending _ _ _ H3) as Hp'. unfold pending in Hp'. rewrite Hno, (st_item _ _ _ H3 Hno) in Hp'.
  apply Forall2_nil_inv_r, app_nil in Hp' as [-> ->]. by rewrite Et, H2, H4.
Qed.
(** *** Seeking *)

(** The key [Seek] is given can be sought: it is empty, or the internal iterator takes it. *)
Definition seekable (key : bytes) : Prop :=
  seek_key opt key = [] \/ sk (KeyWithTs (seek_key opt key) (seek_ts opt ts)).

Lemma run_from_split key l : exists pre, l = pre ++ run_from rev key l /\ forall x, x ∈ pre -> dcmp rev x.1 key = Lt.
Proof.
  induction l as [|x l (pre & E & Hp)]; [exists []; by split; [|intros x ?%elem_of_nil]|]. cbn [run_from].
  case_bool_decide as Hx; [|exists []; by split; [|intros y ?%elem_of_nil]]. exists (x :: pre).
  split; [by rewrite E at 1|]. by intros y [->|Hy]%elem_of_cons; [|apply Hp].
Qed.

Lemma sought_suffix key : exists pre, es = pre ++ sought opt ts key es.
Proof.
  unfold sought. case_bool_decide; [by exists []|]. rewrite Hdir.
  destruct (run_from_split (KeyWithTs (seek_key opt key) (seek_ts opt ts)) es) as (pre & E & _). by exists pre.
Qed.

(** What a forward seek passes over is no newer version the transaction can see. *)
Lemma sought_fresh key : Reverse opt = false -> run_sorted rev es -> keys_ok es -> 0 <= ts <= MaxUint64 ->
  exists pre, es = pre ++ sought opt ts key es /\ last_seen topt opt ts banned pre [] (sought opt ts key es).
Proof.
  intros Er Hs Hk Hts. assert (rev = false) as Hr by congruence. unfold sought. set (k := seek_key opt key). case_bool_decide as Hz.
  { exists []. split; [done|]. intros x Hx. split; [|by intros (y & ?%elem_of_nil & _)].
    assert (key_ok x.1) as Hkx by (by apply (proj1 (Forall_forall _ _) Hk)).
    by rewrite SameKey_nil_l by (by apply key_ok_ts). }
  unfold seek_ts. rewrite Er. pose proof (run_from_split (KeyWithTs k ts) es) as (pre & E & Hpre). rewrite Hr in *. exists pre. split; [done|].
  intros x Hx. assert (x ∈ es) as Hxe by (rewrite E; apply elem_of_app; by right).
  assert (key_ok x.1) as Hkx by (by apply (proj1 (Forall_forall _ _) Hk)). split.
  - by rewrite SameKey_nil_l by (by apply key_ok_ts).
  - intros (y & Hy & Hw & Eu). exfalso. apply in_window_ts in Hw. specialize (Hpre y Hy). cbn [dcmp] in Hpre.
    assert (y ∈ es) as Hye by (rewrite E; apply elem_of_app; by left).
    assert (key_ok y.1) as Hky by (by apply (proj1 (Forall_forall _ _) Hk)).
    apply (run_from_elem false) in Hx as [_ Hge]; [|done]. cbn [dcmp] in Hge.
    assert (ukey (KeyWithTs k ts) = ukey y.1) as Ek.
    { destruct (compareKeys (KeyWithTs k ts) x.1) eqn:Ec.
      - apply (cmp_eq compareKeys) in Ec. by rewrite Ec.
      - by apply (ukey_between y.1 (KeyWithTs k ts) x.1).
      - apply (cmp_gt_lt compareKeys) in Ec. done. }
    assert (key_ok (KeyWithTs k ts)) as Hkk.
    { unfold key_ok, len in *. rewrite KeyWithTs_length. lia. }
    apply (version_lt y.1 (KeyWithTs k ts)) in Hpre; [|done..]. rewrite ParseTs_KeyWithTs in Hpre; [lia| |lia].
    intros ->. done.
Qed.

Lemma rest_sought key : run_sorted rev es -> 0 <= ts <= MaxUint64 ->
  rest [] (sought opt ts key es) =
    filter (fun x => shown topt opt ts banned clock es x = true) (take_while (has_prefix opt) (sought opt ts key es)).
Proof.
  intros Hs Hts. unfold Iterator.rest. destruct (AllVersions opt) eqn:Ea.
  { apply list_filter_iff. intros x. unfold shown. by rewrite Ea, andb_true_r. }
  destruct (Reverse opt) eqn:Er in |- *.
  - rewrite take_while_rev by done. destruct (sought_suffix key) as [pre E]. set (l := sought opt ts key es) in *. clearbody l. rewrite E.
    assert (rev = true) as Hr by congruence.
    apply bwd_shown; [done|rewrite <- E; by rewrite Hr in Hs|rewrite <- E; apply Hready|rewrite <- E].
    by apply Hready.
  - destruct (sought_fresh key Er Hs (rr_keys Hready) Hts) as (pre & E & Hl).
    destruct (take_while_prefix (has_prefix opt) (sought opt ts key es)) as [post E2].
    assert (es = pre ++ take_while (has_prefix opt) (sought opt ts key es) ++ post) as E3 by (by rewrite <- E2).
    set (l := sought opt ts key es) in *. clearbody l. rewrite E3. assert (rev = false) as Hr by congruence.
    apply fwd_shown; [done|rewrite <- E3; by rewrite Hr in Hs|rewrite <- E3; apply Hready|].
    intros x Hx. apply Hl. rewrite E2. apply elem_of_app. by left.
Qed.
(** Any iterator over the run, wherever it stands. *)
Record opened it : Prop := {
  op_over : exists mi, i_iitr it = Some mi /\ y_over mi es;
  op_clean : Forall clean (i_data it ++ i_waste it);
  op_opt : i_opt it = opt;
  op_ts : i_readTs it = ts
}.

Lemma Seek_ok fuel it t key : opened it -> seekable key -> 0 <= ts <= MaxUint64 -> (length es < fuel)%nat ->
  exists it', iter_Seek MemHash topt vlog_read banned clock fuel it t key
      = Some (it', if bool_decide (0 < len key) then addReadKey MemHash t key else t) /\
    ready it' (filter (fun x => shown topt opt ts banned clock es x = true) (take_while (has_prefix opt) (sought opt ts key es))).
Proof.
  intros [(mi & Hm & Ho) Hc Hopt Hts] Hsk Htr Hf. unfold iter_Seek. rewrite Hm. cbn [i_opt set_lastKey set_lists i_readTs].
  rewrite Hopt, Hts. change (if bool_decide (len key = 0) then Prefix opt else key) with (seek_key opt key).
  assert ((if negb (Reverse opt) then ts else 0) = seek_ts opt ts) as -> by (unfold seek_ts; by destruct (Reverse opt)).
  destruct (y_over_ok _ _ Ho) as [Hso _].
  assert (exists mi', (if bool_decide (len (seek_key opt key) = 0) then y_Rewind mi
      else y_Seek mi (KeyWithTs (seek_key opt key) (seek_ts opt ts))) = Some mi' /\ y_at mi' es (sought opt ts key es))
    as (mi' & -> & Hat).
  { unfold sought. case_bool_decide as Hz; [by apply y_rewind|]. rewrite Hdir. apply y_seek; [done| |apply KeyWithTs_has_ts].
    destruct Hsk as [Hk|Hk]; [by rewrite Hk in Hz|done]. }
  cbn [mbind option_bind]. unfold prefetch. set (it1 := set_item _ None).
  assert (istate it1 (sought opt ts key es) []) as Hst.
  { split; try done; [by exists mi'|]. apply Forall_app in Hc as [Hc1 Hc2]. cbn. by apply Forall_app. }
  destruct (sought_suffix key) as [pre E]. apply (f_equal length) in E. rewrite length_app in E.
  destruct (prefetch_loop_ok (prefetch_size (i_opt (set_iitr (set_lastKey (set_lists it [] (i_waste it ++ i_data it))
    (take 0 (i_lastKey it))) mi'))) fuel 0 it1 _ _ Hst ltac:(lia)) as (it' & -> & Hmv).
  exists it'. split; [done|]. rewrite <- rest_sought by done. apply (ready_of it1 [] (sought opt ts key es)); try done. lia.
Qed.

Lemma ready_end it : ready it [] -> i_item it = None.
Proof.
  intros (l & xs & Hst & E & _). symmetry in E. apply app_nil in E as [-> _]. pose proof (st_pending _ _ _ Hst) as Hp. apply Forall2_nil_inv_l in Hp.
  unfold pending in Hp. by destruct (i_item it).
Qed.

Lemma ready_opt it total : ready it total -> i_opt it = opt.
Proof. intros (l & xs & Hst & _). apply Hst. Qed.

(** What a loop over the iterator meets: an item that shows the next entry, or the end. *)
Lemma visit_end it : ready it [] -> iter_Valid it = false.
Proof. intros H. unfold iter_Valid. by rewrite (ready_end it H). Qed.

Lemma iter_visit_ok fuel it z total : ready it (z :: total) -> (length es < fuel)%nat ->
  iter_Valid it = valid opt z /\
  exists item it', (forall t, iter_Item MemHash it t = Some (item, addReadKey MemHash t (ukey z.1))) /\ item_shows vlog_read z item /\
    iter_Next topt vlog_read banned clock fuel it = Some it' /\ ready it' total.
Proof.
  intros Hrd Hf. destruct (Next_ok fuel it z total Hrd Hf) as (item & it' & Ei & Hsh & En & Hrd'). split.
  - unfold iter_Valid, valid. by rewrite Ei, (ready_opt it _ Hrd), (is_key _ _ _ Hsh).
  - exists item, it'. split; [|done]. intros t. unfold iter_Item. rewrite Ei. cbn. by rewrite (is_key _ _ _ Hsh).
Qed.

(** A user's loop sees what is to be shown, as far as [Valid] lets it. *)
Lemma collect_ok fuel steps : forall it t total, ready it total -> (length es < fuel)%nat -> (length total < steps)%nat ->
  exists items, collect MemHash topt vlog_read banned clock fuel steps it t
      = Some (items, foldl (fun t x => addReadKey MemHash t (ukey x.1)) t (take_while (valid opt) total)) /\
    Forall2 (item_shows vlog_read) (take_while (valid opt) total) items.
Proof.
  induction steps as [|steps IH]; intros it t total Hrd Hf Hs; [lia|]. cbn [collect]. destruct total as [|z total].
  { rewrite (visit_end it Hrd). by exists []. }
  destruct (iter_visit_ok fuel it z total Hrd Hf) as (-> & item & it' & Ei & Hsh & En & Hrd').
  cbn [take_while]. destruct (valid opt z); [|by exists []]. rewrite Ei. cbn [mbind option_bind]. rewrite En. cbn [mbind option_bind].
  destruct (IH it' (addReadKey MemHash t (ukey z.1)) total Hrd' Hf) as (items & -> & Hi); [simpl in Hs; lia|].
  exists (item :: items). cbn [mbind option_bind foldl]. split; [done|]. by constructor.
Qed.
End Steps.

(** ** Properties *)

(** C4: iterating is right, in both directions, whatever is prefetched: a loop over the iterator
    from any key sought ends and has shown exactly the visible entries — for every user key the
    newest version in the window of the transaction unless it is deleted or expired, or all the
    versions when asked for — in order, with their values, as far as the prefix goes; and the
    transaction has noted the keys as read. *)
Theorem iteration_shows_visible {S : Type} {sk : bytes -> Prop} {I : YIterator S} (opt : IteratorOptions)
    {L : YIteratorLaws S (Reverse opt) sk} (MemHash : bytes -> Z) (topt : txn_opts)
    (vlog_read : valuePointer -> result vlog_error bytes) (ts : Z) (banned : gset Z) (clock : bytes -> Z)
    (es : list kv) (it : Iterator S) (t : Txn) (key : bytes) (fuel steps : nat) :
  opened opt ts es it -> seekable (sk := sk) opt ts key -> 0 <= ts <= MaxUint64 ->
  run_ready (rev := Reverse opt) topt vlog_read banned es -> (length es < fuel)%nat -> (length es < steps)%nat ->
  exists it' t' items,
    iter_Seek MemHash topt vlog_read banned clock fuel it t key = Some (it', t') /\
    collect MemHash topt vlog_read banned clock fuel steps it' t'
      = Some (items, foldl (fun t x => addReadKey MemHash t (ukey x.1)) t' (visible topt opt ts banned clock key es)) /\
    Forall2 (item_shows vlog_read) (visible topt opt ts banned clock key es) items.
Proof.
  intros Ho Hsk Hts Hr Hf Hs.
  destruct (Seek_ok MemHash topt vlog_read opt ts banned clock es eq_refl Hr fuel it t key Ho Hsk Hts Hf) as (it' & E & Hrd).
  eexists it', _. destruct (collect_ok MemHash topt vlog_read opt ts banned clock es eq_refl Hr fuel steps it'
    (if bool_decide (0 < len key) then addReadKey MemHash t key else t) _ Hrd Hf) as (items & Ec & Hi).
  - destruct (sought_suffix opt ts es eq_refl key) as [pre E2]. apply (f_equal length) in E2. rewrite length_app in E2.
    destruct (take_while_prefix (has_prefix opt) (sought opt ts key es)) as [post E3].
    apply (f_equal length) in E3. rewrite length_app in E3.
    eapply Nat.le_lt_trans; [apply length_filter|]. lia.
  - exists items. split; [exact E|]. split; [exact Ec|exact Hi].
Qed.

(** ** Examples *)

Definition ex_topts : txn_opts := mkOpts 1000 100000 1000000 false false true false (-1).

Definition ex_iopts : IteratorOptions := mkIOpts 100 false true false false false [] 0.

Definition no_vlog (vp : valuePointer) : result vlog_error bytes := Err ErrInvalidRead.

Lemma ex_rtable_over t : table_over (mkTIter t false NewIterator) it_run ->
  rtable_over (mkTIter t true NewIterator) (reverse it_run).
Proof. intros (_ & bss & Ht & Hsm & Hs & ->). split; [done|]. by exists bss. Qed.

Lemma ex_run_keys : keys_ok (reverse it_run).
Proof. apply (bool_decide_eq_true_1 (Forall (fun x : kv => 8 < len x.1) (reverse it_run))). vm_compute. reflexivity. Qed.

Lemma ex_run_readable : readable no_vlog (reverse it_run).
Proof.
  assert (Forall (fun x : kv => bool_decide (entry_value no_vlog x.2 = None) = false) (reverse it_run)) as H.
  { apply (bool_decide_eq_true_1 (Forall (fun x : kv => bool_decide (entry_value no_vlog x.2 = None) = false) (reverse it_run))).
    vm_compute. reflexivity. }
  intros x Hx. rewrite Forall_forall in H. specialize (H x Hx). apply bool_decide_eq_false in H.
  by destruct (entry_value no_vlog x.2); [eexists|].
Qed.

Lemma ex_run_uniform : by_user_key ex_topts ∅ (reverse it_run).
Proof.
  assert (Forall (fun x : kv => internal x.1 = false /\ ban ex_topts ∅ x.1 = false) (reverse it_run)) as H.
  { apply (bool_decide_eq_true_1 (Forall (fun x : kv => internal x.1 = false /\ ban ex_topts ∅ x.1 = false) (reverse it_run))).
    vm_compute. reflexivity. }
  intros x y Hx Hy _. rewrite Forall_forall in H. destruct (H x Hx) as [-> ->]. by destruct (H y Hy) as [-> ->].
Qed.

(** Backwards at timestamp 4: the newer versions of "a" and the key "b" are not there yet. *)
Lemma iteration_shows_visible_witness :
  exists t items it' t' t'',
    let it := mkIter (Some (mkTIter t true NewIterator)) 4 ex_iopts None [] [] [] false 0 in
    iter_Seek (fun k => len k) ex_topts no_vlog ∅ (fun _ => 0) 6 it (new_txn 4 false) [] = Some (it', t') /\
    collect (fun k => len k) ex_topts no_vlog ∅ (fun _ => 0) 6 6 it' t' = Some (items, t'') /\
    it_key <$> items = [[x63; x63]; [x61; x62]; [x61]] /\ it_version <$> items = [1; 4; 2].
Proof.
  destruct ex_table_over as [t H]. apply ex_rtable_over in H.
  destruct (iteration_shows_visible (sk := fun _ => True) ex_iopts (fun k => len k) ex_topts no_vlog 4 ∅ (fun _ => 0) (reverse it_run)
    (mkIter (Some (mkTIter t true NewIterator)) 4 ex_iopts None [] [] [] false 0) (new_txn 4 false) [] 6 6)
    as (it' & t' & items & E1 & E2 & E3).
  - split; [by eexists|constructor|done|done].
  - by left.
  - unfold MaxUint64. lia.
  - split; [apply ex_run_readable|apply ex_run_keys|intros _; apply ex_run_uniform].
  - apply Nat.ltb_lt. vm_compute. reflexivity.
  - apply Nat.ltb_lt. vm_compute. reflexivity.
  - exists t, items, it', t'. eexists. split; [exact E1|]. split; [exact E2|].
    assert (it_key <$> items = (fun x : kv => ukey x.1) <$> visible ex_topts ex_iopts 4 ∅ (fun _ => 0) [] (reverse it_run)) as ->.
    { clear -E3. induction E3 as [|x i xs items Hx _ IH]; [done|]. rewrite !fmap_cons, IH. by rewrite (is_key _ _ _ Hx). }
    assert (it_version <$> items = (fun x : kv => ParseTs x.1) <$> visible ex_topts ex_iopts 4 ∅ (fun _ => 0) [] (reverse it_run)) as ->.
    { clear -E3. induction E3 as [|x i xs items Hx _ IH]; [done|]. rewrite !fmap_cons, IH. by rewrite (is_version _ _ _ Hx). }
    split; vm_compute; reflexivity.
Defined.
