(* ===== verification/Snapshot.v ===== *)
(** * Snapshot: the iterator of a transaction (txn.go, iterator.go, level_handler.go, levels.go)

    [NewIterator] merges what a transaction can read: its pending writes first, then the
    memtables, then the tables of every level that the options do not rule out.  Iterating shows
    what [Get] finds, key by key.

    The iterators of memtables and tables are parameters, [YIterator]s that range over their
    runs; the internal iterator is an interface value, [AnyIter]. *)

From S2P Require Import Prelude Keys Codec Watermark Oracle Checksum Encrypt LogFile Bloom Block Tables TableFile TableBuild Iterators LevelHandler Transaction ValueLog Manifest Compaction Subcompact Rewrite Iterator.

(** ** Pending writes *)

Record pendingWritesIterator : Type := mkPI {
  pi_entries : list Entry;
  pi_nextIdx : nat;
  pi_readTs : Z;
  pi_reversed : bool
}.

Definition pi_set (pi : pendingWritesIterator) (i : nat) : pendingWritesIterator :=
  mkPI (pi_entries pi) i (pi_readTs pi) (pi_reversed pi).

Definition pi_Next (pi : pendingWritesIterator) : option pendingWritesIterator := Some (pi_set pi (pi_nextIdx pi + 1)).
Definition pi_Rewind (pi : pendingWritesIterator) : option pendingWritesIterator := Some (pi_set pi 0).

Definition pi_probe (pi : pendingWritesIterator) (key : bytes) (idx : nat) : bool :=
  match pi_entries pi !! idx with
  | Some e =>
      let cmp := bytes_Compare (eKey e) key in
      if negb (pi_reversed pi) then bool_decide (cmp <> Lt) else bool_decide (cmp <> Gt)
  | None => true
  end.

Definition pi_Seek (pi : pendingWritesIterator) (key : bytes) : option pendingWritesIterator :=
  let key := ParseKey key in
  Some (pi_set pi (sort_Search (length (pi_entries pi)) (pi_probe pi key))).

Definition pi_Valid (pi : pendingWritesIterator) : bool := bool_decide (pi_nextIdx pi < length (pi_entries pi))%nat.

(** [Key] and [Value] assert that the iterator is valid; a key that is not there is [[]]. *)
Definition pi_Key (pi : pendingWritesIterator) : bytes :=
  match pi_entries pi !! pi_nextIdx pi with Some e => KeyWithTs (eKey e) (pi_readTs pi) | None => [] end.

Definition pending_value (readTs : Z) (e : Entry) : ValueStruct :=
  mkVS (emeta e) (eUserMeta e) (eExpiresAt e) (eValue e) readTs.

Definition pi_Value (pi : pendingWritesIterator) : option ValueStruct :=
  entry ← pi_entries pi !! pi_nextIdx pi; Some (pending_value (pi_readTs pi) entry).

#[export] Instance pendingWritesIterator_it : YIterator pendingWritesIterator := {
  y_Next := pi_Next;
  y_Rewind := pi_Rewind;
  y_Seek := pi_Seek;
  y_Key := pi_Key;
  y_Value := pi_Value;
  y_Valid := pi_Valid
}.

(** The order of [sort.Slice]. *)
Definition pending_cmp (reversed : bool) (a b : bytes) : comparison :=
  if negb reversed then bytes_Compare a b else bytes_Compare b a.

Definition newPendingWritesIterator (t : Txn) (reversed : bool) : option pendingWritesIterator :=
  if negb (update t) || bool_decide (pendingWrites t = ∅) then None
  else
    let entries := snd <$> map_to_list (pendingWrites t) in
    Some (mkPI (sort_by (pending_cmp reversed) eKey entries) 0 (readTs t) reversed).

(** ** Tables worth looking at *)

(** [None]: an index error in the bloom filter. *)
Definition pickTable (opt : IteratorOptions) (t : Table) : option bool :=
  if bool_decide (MaxVersion t < SinceTs opt) then Some false
  else if bool_decide (len (Prefix opt) = 0) then Some true
  else if bool_decide (compareToPrefix opt (Smallest t) = Gt) then Some false
  else if bool_decide (compareToPrefix opt (Biggest t) = Lt) then Some false
  else if prefixIsKey opt then b ← DoesNotHave t (Hash (Prefix opt)); Some (negb b)
  else Some true.

Definition filterTables (opt : IteratorOptions) (tables : list Table) : list Table :=
  if bool_decide (0 < SinceTs opt) then filter (fun t => ~ MaxVersion t < SinceTs opt) tables else tables.

(** The loop for one key. *)
Fixpoint pick_key_loop (opt : IteratorOptions) (hash : Z) (tables : list Table) : option (list Table) :=
  match tables with
  | [] => Some []
  | t :: tables =>
      if bool_decide (compareToPrefix opt (Smallest t) = Gt) then Some []
      else
        no ← DoesNotHave t hash;
        if (no : bool) then pick_key_loop opt hash tables
        else out ← pick_key_loop opt hash tables; Some (t :: out)
  end.

Definition pickTables (opt : IteratorOptions) (all : list Table) : option (list Table) :=
  if bool_decide (len (Prefix opt) = 0) then Some (filterTables opt all)
  else
    let sIdx := sort_Search (length all) (fun i =>
      match all !! i with Some t => bool_decide (compareToPrefix opt (Biggest t) <> Lt) | None => true end) in
    if bool_decide (sIdx = length all) then Some []
    else
      let filtered := drop sIdx all in
      if negb (prefixIsKey opt) then
        let eIdx := sort_Search (length filtered) (fun i =>
          match filtered !! i with Some t => bool_decide (compareToPrefix opt (Smallest t) = Gt) | None => true end) in
        Some (filterTables opt (take eIdx filtered))
      else
        out ← pick_key_loop opt (Hash (Prefix opt)) filtered;
        Some (filterTables opt out).

(** The loop of [appendIterators] for level 0. *)
Fixpoint pick_level0 (opt : IteratorOptions) (tables : list Table) : option (list Table) :=
  match tables with
  | [] => Some []
  | t :: tables =>
      b ← pickTable opt t;
      out ← pick_level0 opt tables;
      Some (if (b : bool) then t :: out else out)
  end.

(** ** An interface value as an iterator *)

Definition any_map {T} (J : YIterator T) (r : option T) : option AnyIter := s ← r; Some (Any T J s).

#[export] Instance AnyIter_it : YIterator AnyIter := {
  y_Next a := match a with Any T J s => any_map J (y_Next s) end;
  y_Rewind a := match a with Any T J s => any_map J (y_Rewind s) end;
  y_Seek a key := match a with Any T J s => any_map J (y_Seek s key) end;
  y_Key a := match a with Any T J s => y_Key s end;
  y_Value a := match a with Any T J s => y_Value s end;
  y_Valid a := match a with Any T J s => y_Valid s end
}.

Section Snapshot.
Context {A M : Type} {IA : YIterator A} {IM : YIterator M}.
Context (open_table : bool -> Table -> A) (open_mem : bool -> list kv -> M).

Definition table_iter (rev : bool) (t : Table) : AnyIter := Any A IA (open_table rev t).
Definition mem_iter (rev : bool) (sl : list kv) : AnyIter := Any M IM (open_mem rev sl).
Definition concat_iter (rev : bool) (ts : list Table) : AnyIter :=
  Any (ConcatIterator A) ConcatIterator_it
    (NewConcatIterator ((fun t => mkCT (Smallest t) (Biggest t) (open_table rev t)) <$> ts) rev).

Definition level_appendIterators (opt : IteratorOptions) (s : levelHandler) (iters : list AnyIter) : option (list AnyIter) :=
  if bool_decide (level s = 0) then
    out ← pick_level0 opt (tables s);
    Some (iters ++ (table_iter (Reverse opt) <$> reverse out))
  else
    ts ← pickTables opt (tables s);
    if bool_decide (length ts = 0%nat) then Some iters
    else Some (iters ++ [concat_iter (Reverse opt) ts]).

Fixpoint appendIterators (opt : IteratorOptions) (levels : list levelHandler) (iters : list AnyIter) : option (list AnyIter) :=
  match levels with
  | [] => Some iters
  | l :: levels => iters ← level_appendIterators opt l iters; appendIterators opt levels iters
  end.

Definition add_iterators (t : Txn) (n : Z) : Txn :=
  mkTxn (readTs t) (commitTs t) (tsize t) (tcount t) (reads t) (conflictKeys t) (pendingWrites t)
    (duplicateWrites t) (numIterators t + n) (discarded t) (doneRead t) (update t).

(** The iterators [NewIterator] merges, in the order of precedence. *)
Definition all_iters (opt : IteratorOptions) (t : Txn) (mems : list (list kv)) (levels : list levelHandler)
    : option (list AnyIter) :=
  let pend := match newPendingWritesIterator t (Reverse opt) with
              | Some pi => [Any _ pendingWritesIterator_it pi]
              | None => []
              end in
  appendIterators opt levels (pend ++ (mem_iter (Reverse opt) <$> mems)).

(** [None]: the panics of a discarded transaction and a closed database. *)
Definition txn_NewIterator (closed ReadOnly : bool) (opt : IteratorOptions) (t : Txn) (vl : valueLog)
    (mt : list kv) (imm : list (list kv)) (levels : list levelHandler) : option (Iterator AnyIter * Txn * valueLog) :=
  if discarded t || closed then None
  else
    iters ← all_iters opt t (getMemTables ReadOnly mt imm) levels;
    iitr ← (match iters with
            | [] => Some None
            | _ => it ← NewMergeIterator (length iters) iters (Reverse opt); Some (Some it)
            end);
    Some (mkIter iitr (readTs t) opt None [] [] [] false 0, add_iterators t 1, incrIteratorCount vl).

Definition NewKeyIterator (closed ReadOnly : bool) (key : bytes) (opt : IteratorOptions) (t : Txn) (vl : valueLog)
    (mt : list kv) (imm : list (list kv)) (levels : list levelHandler) : option (Iterator AnyIter * Txn * valueLog) :=
  if bool_decide (0 < len (Prefix opt)) then None
  else
    txn_NewIterator closed ReadOnly
      (mkIOpts (PrefetchSize opt) (PrefetchValues opt) (Reverse opt) true (InternalAccess opt) true key (SinceTs opt))
      t vl mt imm levels.

Definition set_closed (it : Iterator AnyIter) : Iterator AnyIter :=
  mkIter (i_iitr it) (i_readTs it) (i_opt it) (i_item it) (i_data it) (i_waste it) (i_lastKey it) true (i_scanned it).

Definition iter_Close (it : Iterator AnyIter) (t : Txn) (vl : valueLog) : Iterator AnyIter * Txn * valueLog :=
  if i_closed it then (it, t, vl)
  else
    match i_iitr it with
    | None => (set_closed it, add_iterators t (-1), vl)
    | Some _ => (set_closed it, add_iterators t (-1), decrIteratorCount vl)
    end.
End Snapshot.

(** ** Lemmas: which tables are picked *)

Lemma bytes_Compare_take n : forall a b, bytes_Compare a b <> Gt -> bytes_Compare (take n a) (take n b) <> Gt.
Proof.
  induction n as [|n IH]; intros [|x a] [|y b]; try done. cbn. destruct (Z.compare (b2z x) (b2z y)); [apply IH|done|done].
Qed.

Lemma compareToPrefix_eq opt key :
  compareToPrefix opt key = bytes_Compare (take (length (Prefix opt)) (ParseKey key)) (Prefix opt).
Proof.
  unfold compareToPrefix. case_bool_decide as H; [done|]. by rewrite take_ge by (unfold len in H; lia).
Qed.

(** Growing keys compare to the prefix in order. *)
Lemma compareToPrefix_mono opt a b : has_ts a -> has_ts b -> compareKeys a b <> Gt ->
  (compareToPrefix opt a = Gt -> compareToPrefix opt b = Gt) /\ (compareToPrefix opt b = Lt -> compareToPrefix opt a = Lt).
Proof.
  intros Ha Hb Hle. rewrite !compareToPrefix_eq, !ParseKey_ukey by done.
  pose proof (bytes_Compare_take (length (Prefix opt)) _ _ (compareKeys_ukey a b Hle)) as Ht. split.
  - rewrite !(cmp_gt_lt bytes_Compare). intros H. by apply (cmp_lt_le_trans bytes_Compare _ _ _ H).
  - intros H. by apply (cmp_le_lt_trans bytes_Compare _ _ _ Ht).
Qed.

Lemma compareToPrefix_has opt key : has_ts key -> Prefix opt `prefix_of` ukey key <-> compareToPrefix opt key = Eq.
Proof.
  intros H. rewrite compareToPrefix_eq, ParseKey_ukey, (cmp_eq bytes_Compare) by done. split.
  - intros [s ->]. by rewrite take_app_length.
  - intros E. exists (drop (length (Prefix opt)) (ukey key)). rewrite <- E at 1. by rewrite take_drop.
Qed.

Section Pick.
Context (opt : IteratorOptions).
Hypothesis (Hsince : 0 <= SinceTs opt).

Definition sized (t : Table) : Prop := table_ok t /\ 0 <= MaxVersion t.

Definition picks (t : Table) : bool := default false (pickTable opt t).

Lemma pickTable_total t : table_ok t -> pickTable opt t = Some (picks t).
Proof.
  intros Ht. unfold picks, pickTable. destruct (DoesNotHave_spec t (Hash (Prefix opt)) Ht) as (b & -> & _).
  by repeat (case_bool_decide || case_match).
Qed.

Lemma pick_level0_filter l : Forall table_ok l -> pick_level0 opt l = Some (filter (fun t => picks t = true) l).
Proof.
  induction 1 as [|t l Ht _ IH]; [done|]. cbn [pick_level0]. rewrite (pickTable_total t Ht). cbn [mbind option_bind].
  rewrite IH, filter_cons. cbn. by destruct (picks t).
Qed.

Lemma filter_none l : Forall (fun t => picks t = false) l -> filter (fun t => picks t = true) l = [].
Proof. induction 1 as [|t l Ht _ IH]; [done|]. rewrite filter_cons, IH, decide_False by (by rewrite Ht). done. Qed.

Lemma filter_newer l : (forall t, t ∈ l -> picks t = negb (bool_decide (MaxVersion t < SinceTs opt))) -> Forall sized l ->
  filter (fun t => picks t = true) l = filterTables opt l.
Proof.
  intros Hp Hl. unfold filterTables. case_bool_decide as H0.
  - induction l as [|t l IH]; [done|]. apply Forall_cons in Hl as [_ Hl]. rewrite !filter_cons.
    rewrite IH by (done || intros t' Ht'; apply Hp; by right). rewrite (Hp t) by (by left).
    case_bool_decide; [by rewrite !decide_False by auto|by rewrite !decide_True].
  - induction l as [|t l IH]; [done|]. apply Forall_cons in Hl as [[_ Ht] Hl]. rewrite filter_cons.
    rewrite IH by (done || intros t' Ht'; apply Hp; by right). rewrite (Hp t) by (by left).
    by rewrite bool_decide_eq_false_2, decide_True by (done || lia).
Qed.

Lemma picks_prefix t : len (Prefix opt) <> 0 -> table_ok t -> picks t =
  negb (bool_decide (MaxVersion t < SinceTs opt)) && negb (bool_decide (compareToPrefix opt (Smallest t) = Gt)) &&
  negb (bool_decide (compareToPrefix opt (Biggest t) = Lt)) &&
  (if prefixIsKey opt then negb (default false (DoesNotHave t (Hash (Prefix opt)))) else true).
Proof.
  intros Hp Ht. unfold picks, pickTable. rewrite (bool_decide_eq_false_2 (len _ = 0)) by done.
  destruct (DoesNotHave_spec t (Hash (Prefix opt)) Ht) as (b & -> & _).
  repeat case_bool_decide; cbn; try done; by destruct (prefixIsKey opt).
Qed.

Lemma smallest_mono a b : table_ok a -> table_ok b -> table_before a b ->
  (compareToPrefix opt (Smallest a) = Gt -> compareToPrefix opt (Smallest b) = Gt) /\
  (compareToPrefix opt (Biggest b) = Lt -> compareToPrefix opt (Biggest a) = Lt).
Proof.
  intros Ha Hb Hab. destruct (table_has_ts a Ha), (table_has_ts b Hb).
  pose proof (table_range a Ha) as Hra. pose proof (table_range b Hb) as Hrb. unfold table_before in Hab. split.
  - apply compareToPrefix_mono; [done..|]. by rewrite (cmp_le_lt_trans compareKeys _ _ _ Hra Hab).
  - apply compareToPrefix_mono; [done..|]. by rewrite (cmp_lt_le_trans compareKeys _ _ _ Hab Hrb).
Qed.

(** The loop for one key stops early, which loses nothing. *)
Lemma pick_key_loop_ok l : Forall sized l -> StronglySorted table_before l -> len (Prefix opt) <> 0 -> prefixIsKey opt = true ->
  Forall (fun t => compareToPrefix opt (Biggest t) <> Lt) l ->
  exists out, pick_key_loop opt (Hash (Prefix opt)) l = Some out /\
    filter (fun t => picks t = true) l = filterTables opt out.
Proof.
  intros Hl Hs Hp Hk Hb.
  cut (exists out, pick_key_loop opt (Hash (Prefix opt)) l = Some out /\ Forall sized out /\
    filter (fun t => picks t = true) l = filter (fun t => negb (bool_decide (MaxVersion t < SinceTs opt)) = true) out).
  { intros (out & E & Ho & ->). exists out. split; [done|]. unfold filterTables. case_bool_decide as H0.
    - apply list_filter_iff. intros t. by rewrite negb_true_iff, bool_decide_eq_false.
    - clear E. induction Ho as [|t out [_ Ht] _ IH]; [done|]. rewrite filter_cons, IH, decide_True; [done|].
      apply negb_true_iff, bool_decide_eq_false. lia. }
  revert Hs Hb. induction Hl as [|t l [Ht Hv] Hl IH]; intros Hs Hb; [by exists []|].
  apply StronglySorted_cons in Hs as [Hall Hs]. apply Forall_cons in Hb as [Hbt Hb]. cbn [pick_key_loop].
  case_bool_decide as Hsm.
  - exists []. split; [done|]. split; [done|]. apply filter_none. constructor.
    + by rewrite (picks_prefix t Hp Ht), (bool_decide_eq_true_2 (compareToPrefix opt (Smallest t) = Gt)), andb_false_r.
    + apply Forall_forall. intros t' Ht'. rewrite Forall_forall in Hall, Hl. destruct (Hl t' Ht') as [Hto _].
      assert (compareToPrefix opt (Smallest t') = Gt) as E by (by apply (smallest_mono t t' Ht Hto (Hall t' Ht'))).
      by rewrite (picks_prefix t' Hp Hto), (bool_decide_eq_true_2 (compareToPrefix opt (Smallest t') = Gt)), andb_false_r.
  - destruct (IH Hs Hb) as (out & Eo & Hso & Ef). rewrite filter_cons, (picks_prefix t Hp Ht), Hk.
    rewrite (bool_decide_eq_false_2 (compareToPrefix opt (Smallest t) = Gt)), (bool_decide_eq_false_2 (compareToPrefix opt (Biggest t) = Lt)) by done.
    destruct (DoesNotHave_spec t (Hash (Prefix opt)) Ht) as (b & -> & _). cbn [mbind option_bind default negb].
    rewrite !andb_true_r. rewrite Eo. cbn [mbind option_bind]. destruct b; cbn [negb].
    + rewrite andb_false_r. exists out. by rewrite decide_False.
    + rewrite andb_true_r. exists (t :: out). split; [done|]. split; [by constructor|]. by rewrite filter_cons, Ef.
Qed.

(** From the first table that is not below the prefix on. *)
Lemma pickTables_tail l : Forall sized l -> StronglySorted table_before l -> len (Prefix opt) <> 0 ->
  Forall (fun t => compareToPrefix opt (Biggest t) <> Lt) l ->
  (if negb (prefixIsKey opt) then
     Some (filterTables opt (take (sort_Search (length l) (fun i =>
       match l !! i with Some t => bool_decide (compareToPrefix opt (Smallest t) = Gt) | None => true end)) l))
   else out ← pick_key_loop opt (Hash (Prefix opt)) l; Some (filterTables opt out))
  = Some (filter (fun t => picks t = true) l).
Proof.
  intros Hl Hs Hp Hbig.
  destruct (prefixIsKey opt) eqn:Ek; cbn [negb].
  { destruct (pick_key_loop_ok l Hl Hs Hp Ek Hbig) as (out & -> & ->). done. }
  f_equal. assert (forall t, t ∈ l -> table_ok t) as Hok by (intros t Ht; by apply (proj1 (Forall_forall _ _) Hl)).
  set (g := fun i => match l !! i with Some t => bool_decide (compareToPrefix opt (Smallest t) = Gt) | None => true end).
  destruct (sort_Search_spec (length l) g) as (Hr & Hlo & Hhi).
  { intros i j Hle. unfold g. destruct (lookup_lt_is_Some_2 l i) as [a Ha]; [lia|].
    destruct (lookup_lt_is_Some_2 l j) as [b Hb]; [lia|]. rewrite Ha, Hb, !bool_decide_eq_true. intros H1.
    destruct (decide (i = j)) as [->|Hne]; [congruence|].
    apply (smallest_mono a b); [apply Hok; by eapply list_elem_of_lookup_2..| |done].
    apply (StronglySorted_lookup _ _ i j _ _ Hs Ha Hb). lia. }
  set (e := sort_Search (length l) g) in *.
  rewrite <- (take_drop e l) at 2. rewrite filter_app, (filter_none (drop e l)), app_nil_r.
  - symmetry. apply filter_newer; [|by apply Forall_take]. intros t [i Hi]%list_elem_of_lookup.
    apply lookup_take_Some in Hi as [Hi Hlt]. specialize (Hlo i Hlt). unfold g in Hlo. rewrite Hi in Hlo.
    apply bool_decide_eq_false in Hlo. assert (t ∈ l) as Ht by (by eapply list_elem_of_lookup_2).
    rewrite (picks_prefix t Hp (Hok t Ht)), Ek, (bool_decide_eq_false_2 (compareToPrefix opt (Smallest t) = Gt)) by done.
    rewrite Forall_forall in Hbig. rewrite (bool_decide_eq_false_2 (compareToPrefix opt (Biggest t) = Lt)) by (by apply Hbig).
    by rewrite !andb_true_r.
  - apply Forall_forall. intros t [i Hi]%list_elem_of_lookup. rewrite lookup_drop in Hi. pose proof (lookup_lt_Some _ _ _ Hi).
    specialize (Hhi (e + i)%nat ltac:(lia)). unfold g in Hhi. rewrite Hi in Hhi. apply bool_decide_eq_true in Hhi.
    rewrite (picks_prefix t Hp) by (apply Hok; by eapply list_elem_of_lookup_2).
    by rewrite (bool_decide_eq_true_2 (compareToPrefix opt (Smallest t) = Gt)), andb_false_r.
Qed.

Lemma pickTables_level0 l : Forall sized l -> StronglySorted table_before l ->
  pickTables opt l = pick_level0 opt l.
Proof.
  intros Hl Hs. assert (Forall table_ok l) as Hok by (eapply Forall_impl; [exact Hl|by intros t []]).
  rewrite pick_level0_filter by done. unfold pickTables. case_bool_decide as Hp.
  { f_equal. symmetry. apply filter_newer; [|done]. intros t Ht. unfold picks, pickTable.
    rewrite (bool_decide_eq_true_2 (len _ = 0)) by done. by case_bool_decide. }
  rewrite Forall_forall in Hok.
  assert (forall i j a b, (i <= j)%nat -> l !! i = Some a -> l !! j = Some b -> a = b \/ table_before a b) as Hij.
  { intros i j a b Hle Ha Hb. destruct (decide (i = j)) as [->|Hne]; [left; congruence|right].
    apply (StronglySorted_lookup _ _ i j _ _ Hs Ha Hb). lia. }
  set (f := fun i => match l !! i with Some t => bool_decide (compareToPrefix opt (Biggest t) <> Lt) | None => true end).
  destruct (sort_Search_spec (length l) f) as (Hr & Hlo & Hhi).
  { intros i j Hle. unfold f. destruct (lookup_lt_is_Some_2 l i) as [a Ha]; [lia|].
    destruct (lookup_lt_is_Some_2 l j) as [b Hb]; [lia|]. rewrite Ha, Hb, !bool_decide_eq_true. intros H1 H2. apply H1.
    destruct (Hij i j a b ltac:(lia) Ha Hb) as [->|Hab]; [done|].
    apply (smallest_mono a b); try done; apply Hok; by eapply list_elem_of_lookup_2. }
  set (s := sort_Search (length l) f) in *.
  assert (filter (fun t => picks t = true) (take s l) = []) as Epre.
  { apply filter_none, Forall_forall. intros t [i Hi]%list_elem_of_lookup. apply lookup_take_Some in Hi as [Hi Hlt].
    specialize (Hlo i Hlt). unfold f in Hlo. rewrite Hi in Hlo. apply bool_decide_eq_false, dec_stable in Hlo.
    rewrite (picks_prefix t Hp) by (apply Hok; by eapply list_elem_of_lookup_2).
    by rewrite (bool_decide_eq_true_2 (compareToPrefix opt (Biggest t) = Lt)), andb_false_r. }
  assert (filter (fun t => picks t = true) l = filter (fun t => picks t = true) (drop s l)) as ->.
  { rewrite <- (take_drop s l) at 1. by rewrite filter_app, Epre. }
  case_bool_decide as Hend; [by rewrite Hend, drop_all|].
  assert (Forall sized (drop s l)) as Hl' by (by apply Forall_drop).
  assert (StronglySorted table_before (drop s l)) as Hs'.
  { rewrite <- (take_drop s l) in Hs. by apply StronglySorted_app in Hs as (_ & _ & ?). }
  assert (Forall (fun t => compareToPrefix opt (Biggest t) <> Lt) (drop s l)) as Hbig.
  { apply Forall_forall. intros t [i Hi]%list_elem_of_lookup. rewrite lookup_drop in Hi. pose proof (lookup_lt_Some _ _ _ Hi).
    specialize (Hhi (s + i)%nat ltac:(lia)). unfold f in Hhi. rewrite Hi in Hhi. by apply bool_decide_eq_true in Hhi. }
  by apply pickTables_tail.
Qed.
End Pick.

(** A table that has something to show is picked. *)
Lemma picks_complete opt t x : table_ok t -> x ∈ entries t -> Prefix opt `prefix_of` ukey x.1 ->
  (prefixIsKey opt = true -> ukey x.1 = Prefix opt) -> SinceTs opt <= MaxVersion t -> picks opt t = true.
Proof.
  intros Ht Hx Hp Hk Hs. pose proof Ht as [[Hwf _] _ _]. rewrite Forall_forall in Hwf. destruct (Hwf x Hx) as [Hts _].
  destruct (table_has_ts t Ht) as [Hsm Hbg]. pose proof (table_smallest t x Ht Hx) as H1.
  pose proof (table_biggest t x Ht Hx) as H2. apply (compareToPrefix_has opt x.1 Hts) in Hp as Ep.
  unfold picks, pickTable. rewrite (bool_decide_eq_false_2 (MaxVersion t < SinceTs opt)) by lia.
  case_bool_decide as Hz; [done|].
  rewrite (bool_decide_eq_false_2 (compareToPrefix opt (Smallest t) = Gt)).
  2:{ intros E. apply (compareToPrefix_mono opt _ x.1) in E; [congruence|done..]. }
  rewrite (bool_decide_eq_false_2 (compareToPrefix opt (Biggest t) = Lt)).
  2:{ intros E. apply (compareToPrefix_mono opt x.1 (Biggest t)) in E; [congruence|done..]. }
  destruct (prefixIsKey opt); [|done]. destruct (DoesNotHave_spec t (Hash (Prefix opt)) Ht) as (b & -> & Hb).
  cbn. destruct b; [|done]. exfalso. apply (Hb eq_refl x Hx). rewrite ParseKey_ukey by done. by rewrite Hk.
Qed.

(** ** Lemmas: the iterators put together *)

(** The keys an [Iterator] of the transaction seeks. *)
Definition txn_seek (rev : bool) (ts : Z) (key : bytes) : Prop := exists k, key = KeyWithTs k (if rev then 0 else ts).

Lemma dir_concat rev (ls : list (list kv)) :
  concat (dir rev <$> (if rev then reverse ls else ls)) = dir rev (concat ls).
Proof.
  unfold dir. destruct rev; [|by rewrite list_fmap_id]. induction ls as [|l ls IH]; [done|].
  rewrite reverse_cons, fmap_app, concat_app, IH, concat_cons, reverse_app. cbn. by rewrite app_nil_r.
Qed.

Section AnyLaws.
Context {rev : bool} {sk : bytes -> Prop}.

Definition any_at (a : AnyIter) (es l : list kv) : Prop :=
  match a with Any T J s => exists L : YIteratorLaws T rev sk, y_at s es l end.

Lemma any_at_over a es l : any_at a es l -> any_over rev sk a es.
Proof. destruct a as [T J s]. intros [L H]. exists L. by apply (y_at_over s es l). Qed.

Lemma any_over_good a es : any_over rev sk a es -> run_sorted rev es /\ all_ts es.
Proof. destruct a as [T J s]. intros [L H]. by apply (y_over_ok s). Qed.

Lemma any_suffix a es l : any_at a es l -> exists pre, es = pre ++ l.
Proof. destruct a as [T J s]. intros [L H]. by apply (y_at_suffix s). Qed.

Lemma any_rewinds a es : any_over rev sk a es -> exists a', y_Rewind a = Some a' /\ any_at a' es es.
Proof.
  destruct a as [T J s]. intros [L H]. destruct (y_rewind s es H) as (s' & E & Ha). cbn. rewrite E. eexists. split; [done|].
  by exists L.
Qed.

Lemma any_seeks a es key : any_over rev sk a es -> sk key -> has_ts key ->
  exists a', y_Seek a key = Some a' /\ any_at a' es (run_from rev key es).
Proof.
  destruct a as [T J s]. intros [L H] Hs Hk. destruct (y_seek s es key H Hs Hk) as (s' & E & Ha). cbn. rewrite E.
  eexists. split; [done|]. by exists L.
Qed.

Lemma any_next a es x l : any_at a es (x :: l) -> exists a', y_Next a = Some a' /\ any_at a' es l.
Proof.
  destruct a as [T J s]. intros [L H]. destruct (y_next s es x l H) as (s' & E & Ha). cbn. rewrite E. eexists.
  split; [done|]. by exists L.
Qed.

Lemma any_valid a es l : any_at a es l -> y_Valid a = bool_decide (l <> []).
Proof. destruct a as [T J s]. intros [L H]. by apply (y_valid s es l). Qed.

Lemma any_shows a es x l : any_at a es (x :: l) -> y_Key a = x.1 /\ y_Value a = Some x.2.
Proof. destruct a as [T J s]. intros [L H]. by apply (y_shows s es x l). Qed.

#[export] Instance AnyIter_laws : YIteratorLaws AnyIter rev sk := {
  y_over := any_over rev sk;
  y_at := any_at;
  y_at_over := any_at_over;
  y_over_ok := any_over_good;
  y_at_suffix := any_suffix;
  y_rewind := any_rewinds;
  y_seek := any_seeks;
  y_next := any_next;
  y_valid := any_valid;
  y_shows := any_shows
}.
End AnyLaws.

Section PendingLaws.
Context {rev : bool} {ts : Z}.

Definition pending_run (es : list Entry) : list kv := (fun e => (KeyWithTs (eKey e) ts, pending_value ts e)) <$> es.

Record pi_wf (pi : pendingWritesIterator) (es : list kv) : Prop := {
  pw_ts : pi_readTs pi = ts;
  pw_range : 0 <= ts <= MaxUint64;
  pw_rev : pi_reversed pi = rev;
  pw_run : es = pending_run (pi_entries pi);
  pw_sorted : StronglySorted (fun a b => pending_cmp rev (eKey a) (eKey b) = Lt) (pi_entries pi)
}.

Definition pi_at (pi : pendingWritesIterator) (es l : list kv) : Prop :=
  pi_wf pi es /\ l = drop (pi_nextIdx pi) es.

Lemma pi_wf_set pi es i : pi_wf pi es -> pi_wf (pi_set pi i) es.
Proof. by intros []. Qed.

Lemma pi_key_cmp e k : 0 <= ts <= MaxUint64 ->
  dcmp rev (KeyWithTs (eKey e) ts) (KeyWithTs k (if rev then 0 else ts)) = Lt <-> pending_cmp rev (eKey e) k = Lt.
Proof.
  intros Ht. unfold dcmp, pending_cmp. destruct rev; cbn [negb]; rewrite compareKeys_KeyWithTs by (unfold MaxUint64 in *; lia).
  - destruct (bytes_Compare k (eKey e)); try done. rewrite Z.compare_lt_iff. split; [lia|done].
  - destruct (bytes_Compare (eKey e) k); try done. by rewrite Z.compare_refl.
Qed.

Lemma pi_over_ok pi es : pi_wf pi es -> run_sorted rev es /\ all_ts es.
Proof.
  intros [_ Hts _ -> Hs]. split.
  - unfold run_sorted, pending_run. clear -Hs Hts. induction Hs as [|e l Hs IH He]; [constructor|].
    rewrite fmap_cons. constructor; [done|]. apply Forall_fmap. eapply Forall_impl; [exact He|].
    intros e' H. cbn [fst compose]. revert H. unfold dcmp, pending_cmp. destruct rev; cbn [negb];
      rewrite compareKeys_KeyWithTs by done; intros ->; done.
  - apply Forall_fmap, Forall_forall. intros e _. apply KeyWithTs_has_ts.
Qed.

Lemma pi_suffix pi es l : pi_at pi es l -> exists pre, es = pre ++ l.
Proof. intros [_ ->]. exists (take (pi_nextIdx pi) es). by rewrite take_drop. Qed.

Lemma pi_rewind pi es : pi_wf pi es -> exists pi', pi_Rewind pi = Some pi' /\ pi_at pi' es es.
Proof. intros H. eexists. split; [done|]. split; [by apply pi_wf_set|done]. Qed.

Fixpoint pending_from (k : bytes) (l : list Entry) : list Entry :=
  match l with
  | [] => []
  | e :: l' => if bool_decide (pending_cmp rev (eKey e) k = Lt) then pending_from k l' else l
  end.

Lemma run_from_run k l : 0 <= ts <= MaxUint64 ->
  run_from rev (KeyWithTs k (if rev then 0 else ts)) (pending_run l) = pending_run (pending_from k l).
Proof.
  intros Ht. induction l as [|e l IH]; [done|]. cbn [pending_run fmap list_fmap run_from fst pending_from].
  rewrite (bool_decide_ext _ _ (pi_key_cmp e k Ht)). by case_bool_decide.
Qed.

Lemma pending_cmp_mono a b k : pending_cmp rev a b = Lt -> pending_cmp rev b k = Lt -> pending_cmp rev a k = Lt.
Proof.
  unfold pending_cmp. destruct rev; cbn [negb]; intros H1 H2;
    [by apply (cmp_trans bytes_Compare _ b)|by apply (cmp_trans bytes_Compare _ b)].
Qed.

Lemma pi_probe_spec pi k i e : pi_reversed pi = rev -> pi_entries pi !! i = Some e ->
  pi_probe pi k i = bool_decide (pending_cmp rev (eKey e) k <> Lt).
Proof.
  intros Hr He. unfold pi_probe, pending_cmp. rewrite Hr, He. destruct rev; cbn [negb]; [|done].
  apply bool_decide_ext. by rewrite (cmp_gt_lt bytes_Compare).
Qed.

Lemma pi_seek pi es key : pi_wf pi es -> txn_seek rev ts key -> has_ts key ->
  exists pi', pi_Seek pi key = Some pi' /\ pi_at pi' es (run_from rev key es).
Proof.
  intros Hwf [k ->] _. pose proof Hwf as [_ Hts Hr -> Hs]. unfold pi_Seek. rewrite ParseKey_KeyWithTs.
  eexists. split; [done|]. split; [by apply pi_wf_set|]. cbn [pi_nextIdx pi_set].
  set (l := pi_entries pi) in *.
  destruct (sort_Search_spec (length l) (pi_probe pi k)) as (Hn & Hlo & Hhi).
  { intros i j Hij. destruct (lookup_lt_is_Some_2 l i) as [a Ha]; [lia|]. destruct (lookup_lt_is_Some_2 l j) as [b Hb]; [lia|].
    rewrite (pi_probe_spec pi k i a Hr Ha), (pi_probe_spec pi k j b Hr Hb), !bool_decide_eq_true. intros H1 H2. apply H1.
    destruct (decide (i = j)) as [->|Hne]; [congruence|].
    apply (pending_cmp_mono _ (eKey b)); [|done]. apply (StronglySorted_lookup _ _ i j _ _ Hs Ha Hb). lia. }
  set (n := sort_Search (length l) (pi_probe pi k)) in *. unfold pending_run at 2. rewrite <- fmap_drop.
  change (run_from rev (KeyWithTs k (if rev then 0 else ts)) (pending_run l) = pending_run (drop n l)).
  rewrite run_from_run by done. f_equal. clearbody n.
  assert (forall i e, (i < n)%nat -> l !! i = Some e -> pending_cmp rev (eKey e) k = Lt) as Hlo'.
  { intros i e Hi He. specialize (Hlo i Hi). rewrite (pi_probe_spec pi k i e Hr He) in Hlo.
    by apply bool_decide_eq_false, dec_stable in Hlo. }
  assert (forall e, l !! n = Some e -> pending_cmp rev (eKey e) k <> Lt) as Hhi'.
  { intros e He. pose proof (lookup_lt_Some _ _ _ He). specialize (Hhi n ltac:(lia)).
    rewrite (pi_probe_spec pi k n e Hr He) in Hhi. by apply bool_decide_eq_true in Hhi. }
  clear -Hn Hlo' Hhi'. revert n Hn Hlo' Hhi'. induction l as [|e l IH]; intros n Hn Hlo Hhi; [by destruct n|].
  cbn [pending_from]. destruct n as [|n].
  - rewrite bool_decide_eq_false_2; [done|]. by apply Hhi.
  - rewrite bool_decide_eq_true_2 by (by apply (Hlo 0%nat); [lia|]). cbn [drop]. apply IH; [simpl in Hn; lia| |done].
    intros i e' Hi. apply (Hlo (S i)). lia.
Qed.

Lemma pi_here pi es x l : pi_at pi es (x :: l) -> exists e, pi_entries pi !! pi_nextIdx pi = Some e /\
  x = (KeyWithTs (eKey e) ts, pending_value ts e) /\ l = drop (S (pi_nextIdx pi)) es.
Proof.
  intros [[_ _ _ -> _] E]. assert (pending_run (pi_entries pi) !! pi_nextIdx pi = Some x) as Hx.
  { rewrite <- (Nat.add_0_r (pi_nextIdx pi)), <- lookup_drop, <- E. done. }
  pose proof Hx as Hx'. unfold pending_run in Hx'. rewrite list_lookup_fmap in Hx'.
  destruct (pi_entries pi !! pi_nextIdx pi) as [e|] eqn:Ee; [|done].
  injection Hx' as <-. exists e. split; [done|]. split; [done|]. rewrite (drop_S _ _ _ Hx) in E. by injection E.
Qed.

Lemma pi_next pi es x l : pi_at pi es (x :: l) -> exists pi', pi_Next pi = Some pi' /\ pi_at pi' es l.
Proof.
  intros Hat. destruct (pi_here _ _ _ _ Hat) as (e & _ & _ & ->). eexists. split; [done|].
  split; [apply pi_wf_set, Hat|]. cbn. by rewrite Nat.add_1_r.
Qed.

Lemma pi_valid pi es l : pi_at pi es l -> pi_Valid pi = bool_decide (l <> []).
Proof.
  intros [[_ _ _ -> _] ->]. unfold pi_Valid. apply bool_decide_ext. unfold pending_run. split.
  - intros H E. apply (f_equal length) in E. rewrite length_drop, length_fmap in E.
    change (length (@nil kv)) with 0%nat in E. lia.
  - intros H. destruct (decide (pi_nextIdx pi < length (pi_entries pi))%nat); [done|]. exfalso. apply H.
    apply drop_ge. rewrite length_fmap. lia.
Qed.

Lemma pi_shows pi es x l : pi_at pi es (x :: l) -> y_Key pi = x.1 /\ y_Value pi = Some x.2.
Proof.
  intros Hat. destruct (pi_here _ _ _ _ Hat) as (e & Ee & -> & _). pose proof (pw_ts _ _ (proj1 Hat)) as Ht.
  cbn. unfold pi_Key, pi_Value. rewrite Ee, Ht. done.
Qed.

#[export] Instance pending_laws : YIteratorLaws pendingWritesIterator rev (txn_seek rev ts) := {
  y_over := pi_wf;
  y_at := pi_at;
  y_at_over s es l H := proj1 H;
  y_over_ok := pi_over_ok;
  y_at_suffix := pi_suffix;
  y_rewind := pi_rewind;
  y_seek := pi_seek;
  y_next := pi_next;
  y_valid := pi_valid;
  y_shows := pi_shows
}.
End PendingLaws.

(** The run of the pending writes of a transaction, in the direction of travel. *)
Definition own_run (rev : bool) (t : Txn) : list kv :=
  pending_run (ts := readTs t) (sort_by (pending_cmp rev) eKey (snd <$> map_to_list (pendingWrites t))).

#[export] Instance pending_cmp_laws rev : CmpLaws (pending_cmp rev).
Proof.
  destruct rev; unfold pending_cmp; cbn [negb]; [|apply bytes_Compare_laws]. split.
  - intros x y. rewrite (cmp_eq bytes_Compare). split; congruence.
  - intros x y. apply (cmp_antisym bytes_Compare).
  - intros x y z H1 H2. by apply (cmp_trans bytes_Compare _ y).
Qed.

(** The keys of the map are the keys of its entries. *)
Definition keyed (p : gmap (list byte) Entry) : Prop := forall k e, p !! k = Some e -> eKey e = k.

Lemma keyed_keys p : keyed p -> eKey <$> (snd <$> map_to_list p) = fst <$> map_to_list p.
Proof.
  intros Hp. rewrite <- list_fmap_compose. apply list_fmap_ext. intros i [k e] Hi. cbn.
  apply Hp, elem_of_map_to_list. by eapply list_elem_of_lookup_2.
Qed.

Lemma own_pending_wf rev t pi : keyed (pendingWrites t) -> 0 <= readTs t <= MaxUint64 ->
  newPendingWritesIterator t rev = Some pi -> pi_wf (rev := rev) (ts := readTs t) pi (own_run rev t).
Proof.
  intros Hk Ht. unfold newPendingWritesIterator. destruct (_ || _); [done|]. intros [= <-].
  split; try done. apply (sort_by_strictly_sorted (pending_cmp rev) eKey). rewrite keyed_keys by done.
  apply NoDup_fst_map_to_list.
Qed.

Lemma own_run_elem rev t x : keyed (pendingWrites t) -> x ∈ own_run rev t <->
  exists k e, pendingWrites t !! k = Some e /\ x = (KeyWithTs k (readTs t), pending_value (readTs t) e).
Proof.
  intros Hk. unfold own_run, pending_run. rewrite list_elem_of_fmap. split.
  - intros (e & -> & He). rewrite (sort_by_Permutation (pending_cmp rev) eKey) in He.
    apply list_elem_of_fmap in He as ([k e'] & -> & He). apply elem_of_map_to_list in He. exists k, e'. split; [done|].
    cbn [snd]. by rewrite (Hk k e' He).
  - intros (k & e & He & ->). exists e. rewrite (Hk k e He). split; [done|].
    rewrite (sort_by_Permutation (pending_cmp rev) eKey). apply list_elem_of_fmap. exists (k, e). split; [done|].
    by apply elem_of_map_to_list.
Qed.

(** A list in the direction of travel. *)
Definition way {X} (rev : bool) (l : list X) : list X := if rev then reverse l else l.

Lemma way_fmap {X Y} (f : X -> Y) rev l : way rev (f <$> l) = f <$> way rev l.
Proof. destruct rev; [|done]. symmetry. apply fmap_reverse. Qed.

Lemma way_elem {X} rev (l : list X) x : x ∈ way rev l <-> x ∈ l.
Proof. destruct rev; [|done]. apply elem_of_reverse. Qed.

Lemma dir_nonempty rev l : l <> [] -> dir rev l <> [].
Proof.
  intros H. unfold dir. destruct rev; [|done]. intros E. apply (f_equal length) in E. rewrite length_reverse in E.
  by destruct l.
Qed.

Lemma dir_end rev t : entries t <> [] ->
  (fst <$> last (dir rev (entries t))) = Some (if rev then Smallest t else Biggest t).
Proof.
  intros Hne. unfold dir, Smallest, Biggest.
  destruct rev; [|by destruct (last (entries t)) eqn:El; [|apply last_None in El]].
  destruct (entries t) as [|e es]; [done|]. by rewrite reverse_cons, last_snoc.
Qed.

Section Assemble.
Context {A M : Type} {IA : YIterator A} {IM : YIterator M} (opt : IteratorOptions) (ts : Z).
Notation rev := (Reverse opt).
Notation sk := (txn_seek (Reverse opt) ts).
Context {LA : YIteratorLaws A rev sk} {LM : YIteratorLaws M rev sk}.
Context (open_table : bool -> Table -> A) (open_mem : bool -> list kv -> M).

(** The tables' iterators range over the tables' runs. *)
Definition opens (t : Table) : Prop := y_over (open_table rev t) (dir rev (entries t)).

Definition shows_tables (ts : list Table) (ess : list (list kv)) : Prop :=
  forall x, (exists l, l ∈ ess /\ x ∈ l) <-> exists t, t ∈ ts /\ picks opt t = true /\ x ∈ entries t.

Definition as_ctable (t : Table) : ctable A := mkCT (Smallest t) (Biggest t) (open_table rev t).

Lemma table_ct_runs t : table_ok t -> opens t -> ct_runs (rev := rev) (sk := sk) (as_ctable t) (dir rev (entries t)).
Proof.
  intros [_ Hne _] Hop. split; [by apply dir_nonempty|exact Hop|by apply dir_end].
Qed.

Lemma tables_ct_runs l : Forall table_ok l -> (forall t, t ∈ l -> opens t) ->
  Forall2 (ct_runs (rev := rev) (sk := sk)) (as_ctable <$> l) ((fun t => dir rev (entries t)) <$> l).
Proof.
  intros Hok Hop. apply Forall2_fmap_l, Forall2_fmap_r, Forall_Forall2_diag, Forall_forall. intros t Ht.
  apply table_ct_runs; [by apply (proj1 (Forall_forall _ _) Hok)|by apply Hop].
Qed.

Lemma concat_iter_over l : Forall table_ok l -> StronglySorted table_before l -> (forall t, t ∈ l -> opens t) ->
  any_over rev sk (concat_iter open_table rev l) (dir rev (concat (entries <$> l))).
Proof.
  intros Hok Hs Hop. exists ConcatIterator_laws.
  change (concat_over (sk := sk) (NewConcatIterator (as_ctable <$> l) rev) (dir rev (concat (entries <$> l)))).
  rewrite <- dir_concat. apply concat_new_over.
  2:{ rewrite dir_concat. by apply dir_sorted, tables_concat_sorted. }
  change (Forall2 (ct_runs (rev := rev) (sk := sk)) (way rev (as_ctable <$> l)) (dir rev <$> way rev (entries <$> l))).
  rewrite !way_fmap, <- list_fmap_compose. apply tables_ct_runs.
  - apply Forall_forall. intros t Ht%way_elem. by apply (proj1 (Forall_forall _ _) Hok).
  - intros t Ht%way_elem. by apply Hop.
Qed.

(** The runs a level contributes, in the order of precedence. *)
Definition picked_runs (h : levelHandler) : list (list kv) :=
  let out := filter (fun t => picks opt t = true) (tables h) in
  if bool_decide (level h = 0) then (fun t => dir rev (entries t)) <$> reverse out
  else if bool_decide (length out = 0%nat) then [] else [dir rev (concat (entries <$> out))].

Lemma level_iters s iters : 0 <= SinceTs opt -> level_ok s -> Forall sized (tables s) -> (forall t, t ∈ tables s -> opens t) ->
  exists its, level_appendIterators open_table opt s iters = Some (iters ++ its) /\
    Forall2 (any_over rev sk) its (picked_runs s) /\ shows_tables (tables s) (picked_runs s).
Proof.
  intros Hsn [Hok Hsort _ _] Hsz Hop. unfold level_appendIterators, picked_runs.
  assert (forall x, x ∈ filter (fun t => picks opt t = true) (tables s) <-> picks opt x = true /\ x ∈ tables s) as Hin
    by (intros x; exact (list_elem_of_filter (fun t => picks opt t = true) (tables s) x)).
  case_bool_decide as Hl.
  - rewrite pick_level0_filter by done. cbn [mbind option_bind]. set (out := filter _ _) in *.
    exists (table_iter open_table rev <$> reverse out). split; [done|]. split.
    + apply Forall2_fmap_l, Forall2_fmap_r, Forall_Forall2_diag, Forall_forall. intros t Ht. rewrite elem_of_reverse in Ht.
      apply Hin in Ht as [_ Ht]. exists LA. by apply Hop.
    + intros x. split.
      * intros (l & (t & -> & Ht)%list_elem_of_fmap & Hx). rewrite elem_of_reverse in Ht. apply Hin in Ht as [? ?].
        apply dir_elem in Hx. by exists t.
      * intros (t & Ht & Hp & Hx). exists (dir rev (entries t)). split; [|by apply dir_elem].
        apply list_elem_of_fmap. exists t. split; [done|]. apply elem_of_reverse, Hin. done.
  - specialize (Hsort Hl). rewrite pickTables_level0, pick_level0_filter by done. cbn [mbind option_bind].
    set (out := filter _ _) in *. case_bool_decide as Hz.
    { exists []. rewrite app_nil_r. split; [done|]. split; [constructor|]. intros x. split; [by intros (l & ?%elem_of_nil & _)|].
      intros (t & Ht & Hp & Hx). assert (t ∈ out) as H by (by apply Hin). apply nil_length_inv in Hz. rewrite Hz in H.
      by apply elem_of_nil in H. }
    exists [concat_iter open_table rev out]. split; [done|]. split.
    + constructor; [|constructor]. apply concat_iter_over.
      * apply Forall_forall. intros t [_ Ht]%Hin. by apply (proj1 (Forall_forall _ _) Hok).
      * unfold out. clear -Hsort. induction Hsort as [|t l Hs IH Ht]; [constructor|]. rewrite filter_cons. case_decide; [|done].
        constructor; [done|]. apply Forall_forall. intros t' [_ Ht']%list_elem_of_filter. by apply (proj1 (Forall_forall _ _) Ht).
      * intros t [_ Ht]%Hin. by apply Hop.
    + intros x. split.
      * intros (l & ->%list_elem_of_singleton & Hx). apply dir_elem, elem_of_entries in Hx as (t & Ht & Hx).
        apply Hin in Ht as [? ?]. by exists t.
      * intros (t & Ht & Hp & Hx). eexists. split; [by left|]. apply dir_elem, elem_of_entries. exists t. split; [|done]. by apply Hin.
Qed.

Lemma levels_iters levels : forall iters, 0 <= SinceTs opt -> Forall level_ok levels ->
  (forall h, h ∈ levels -> Forall sized (tables h)) -> (forall h t, h ∈ levels -> t ∈ tables h -> opens t) ->
  exists its, appendIterators open_table opt levels iters = Some (iters ++ its) /\
    Forall2 (any_over rev sk) its (concat (picked_runs <$> levels)) /\
    shows_tables (concat (tables <$> levels)) (concat (picked_runs <$> levels)).
Proof.
  induction levels as [|h levels IH]; intros iters Hsn Hok Hsz Hop.
  { exists []. rewrite app_nil_r. split; [done|]. split; [constructor|]. intros x. cbn. split; [by intros (l & ?%elem_of_nil & _)|].
    by intros (t & ?%elem_of_nil & _). }
  apply Forall_cons in Hok as [Hh Hok]. cbn [appendIterators].
  destruct (level_iters h iters Hsn Hh (Hsz h ltac:(by left)) (fun t => Hop h t ltac:(by left))) as (i1 & -> & H1 & S1).
  cbn [mbind option_bind].
  destruct (IH (iters ++ i1) Hsn Hok (fun h' H => Hsz h' ltac:(by right)) (fun h' t H => Hop h' t ltac:(by right)))
    as (i2 & -> & H2 & S2).
  exists (i1 ++ i2). rewrite <- app_assoc. split; [done|]. split; [by apply Forall2_app|].
  intros x. rewrite !fmap_cons. cbn [concat]. setoid_rewrite elem_of_app. split.
  - intros (l & [Hl|Hl] & Hx).
    + destruct (proj1 (S1 x) (ex_intro _ l (conj Hl Hx))) as (t & Ht & ?). exists t. by split; [left|].
    + destruct (proj1 (S2 x) (ex_intro _ l (conj Hl Hx))) as (t & Ht & ?). exists t. by split; [right|].
  - intros (t & [Ht|Ht] & Hp).
    + destruct (proj2 (S1 x) (ex_intro _ t (conj Ht Hp))) as (l & Hl & Hx). exists l. by split; [left|].
    + destruct (proj2 (S2 x) (ex_intro _ t (conj Ht Hp))) as (l & Hl & Hx). exists l. by split; [right|].
Qed.
End Assemble.

(** ** Lemmas: rewinding shows everything with the prefix *)

Lemma bytes_Compare_prefix p u : p `prefix_of` u -> bytes_Compare p u <> Gt.
Proof.
  intros [s ->]. induction p as [|b p IH]; [by destruct s|]. cbn. by rewrite Z.compare_refl.
Qed.

(** Between the prefix and a key that has it, every key has it. *)
Lemma prefix_between p a u : bytes_Compare p a <> Gt -> bytes_Compare a u <> Gt -> p `prefix_of` u -> p `prefix_of` a.
Proof.
  intros H1 H2 [s ->]. apply (bytes_Compare_take (length p)) in H1, H2.
  rewrite take_app_length in H2. rewrite take_ge in H1 by lia.
  pose proof (cmp_le_antisym bytes_Compare _ _ H1 H2) as E. exists (drop (length p) a). rewrite E at 1. by rewrite take_drop.
Qed.

Lemma take_while_elem {X} (f : X -> bool) x l : x ∈ take_while f l -> x ∈ l /\ f x = true.
Proof.
  induction l as [|y l IH]; cbn; [by intros ?%elem_of_nil|]. destruct (f y) eqn:E; [|by intros ?%elem_of_nil].
  intros [->|H]%elem_of_cons; [split; [by left|done]|]. destruct (IH H). split; [by right|done].
Qed.

(** In a list, what stands before [x] satisfies the test, so [x] is taken. *)
Lemma take_while_before {X} (f : X -> bool) l1 x l2 : (forall y, y ∈ l1 -> f y = true) -> f x = true ->
  x ∈ take_while f (l1 ++ x :: l2).
Proof.
  induction l1 as [|y l1 IH]; intros H Hx; cbn; [rewrite Hx; by left|]. rewrite (H y) by (by left).
  right. apply IH; [|done]. intros z Hz. apply H. by right.
Qed.

Section Rewound.
Context (topt : txn_opts) (opt : IteratorOptions) (ts : Z) (banned : gset Z) (clock : bytes -> Z) (es : list kv).
Context (Hway : Reverse opt = false \/ Prefix opt = []) (Hkey : prefixIsKey opt = false).
Context (Hsorted : run_sorted (Reverse opt) es) (Hkeys : keys_ok es) (Hts : 0 <= ts <= MaxUint64).

Lemma rewound_elem x : x ∈ es -> ParseTs x.1 <= ts -> Prefix opt `prefix_of` ukey x.1 ->
  x ∈ take_while (has_prefix opt) (sought opt ts [] es).
Proof.
  intros Hx Hv Hp. unfold sought, seek_key. rewrite (bool_decide_eq_true_2 (len [] = 0)) by done.
  destruct (decide (Prefix opt = [])) as [E|E].
  - rewrite E. rewrite bool_decide_eq_true_2 by done. rewrite take_while_all; [done|]. apply Forall_forall. intros y _.
    unfold has_prefix. rewrite E. by rewrite (bool_decide_eq_false_2 (0 < len [])), andb_false_r.
  - assert (Reverse opt = false) as Er by (destruct Hway; congruence).
    rewrite bool_decide_eq_false_2 by (unfold len; destruct (Prefix opt); [done|simpl; lia]).
    unfold seek_ts. rewrite Er. set (key := KeyWithTs (Prefix opt) ts).
    assert (forall y, y ∈ es -> key_ok y.1) as Hk by (by apply Forall_forall).
    assert (forall y, y ∈ es -> compareKeys y.1 key <> Lt -> bytes_Compare (Prefix opt) (ukey y.1) <> Gt) as Hge.
    { intros y _ Hy. assert (compareKeys key y.1 <> Gt) as H by (by rewrite (cmp_gt_lt compareKeys)).
      apply compareKeys_ukey in H. unfold key, ukey in H. by rewrite split_KeyWithTs in H. }
    assert (run_sorted false es) as Hs by (by rewrite <- Er).
    assert (x ∈ run_from false key es) as Hin.
    { apply (run_from_elem false); [done|]. split; [done|]. cbn [dcmp]. intros Hlt.
      pose proof (compareKeys_ukey x.1 key ltac:(by rewrite Hlt)) as Hle. unfold key, ukey at 2 in Hle.
      rewrite split_KeyWithTs in Hle. cbn in Hle.
      pose proof (cmp_le_antisym bytes_Compare _ _ Hle (bytes_Compare_prefix _ _ Hp)) as Eu.
      assert (key_ok key) as Hkk.
      { unfold key, key_ok, len. rewrite KeyWithTs_length. destruct (Prefix opt); [done|simpl; lia]. }
      apply (version_lt x.1 key) in Hlt; [|by apply Hk|done|unfold key, ukey at 2; by rewrite split_KeyWithTs].
      unfold key in Hlt. rewrite ParseTs_KeyWithTs in Hlt by (done || lia). lia. }
    pose proof Hin as Hin'. apply list_elem_of_split in Hin' as (l1 & l2 & El). rewrite El.
    pose proof (run_from_sorted false key es Hs) as Hs'. rewrite El in Hs'.
    apply take_while_before.
    + intros y Hy. unfold has_prefix. rewrite Er. cbn [negb andb]. destruct (bool_decide (0 < _)); [|done].
      apply bool_decide_eq_true_2.
      assert (y ∈ run_from false key es) as Hyr by (rewrite El; apply elem_of_app; by left).
      apply (run_from_elem false) in Hyr as [Hye Hyk]; [|done]. cbn [dcmp] in Hyk.
      apply (prefix_between _ _ (ukey x.1)); [by apply Hge| |done]. apply compareKeys_ukey.
      assert (compareKeys y.1 x.1 = Lt) as ->; [|done]. apply (sorted_app false _ _ y x Hs'); [done|by left].
    + unfold has_prefix. destruct (_ && _); [|done]. by apply bool_decide_eq_true_2.
Qed.

Lemma visible_rewind x : x ∈ visible topt opt ts banned clock [] es <->
  x ∈ es /\ shown topt opt ts banned clock es x = true /\ Prefix opt `prefix_of` ukey x.1.
Proof.
  unfold visible. rewrite take_while_all.
  - rewrite list_elem_of_filter. split.
    + intros [Hsh Hx]. apply take_while_elem in Hx as [Hx Hp]. split.
      { unfold sought in Hx. case_bool_decide; [done|]. by apply run_from_elem in Hx as [Hx _]. }
      split; [done|]. unfold has_prefix in Hp. destruct Hway as [Er|E]; [|rewrite E; apply prefix_nil].
      rewrite Er in Hp. cbn [negb andb] in Hp. case_bool_decide as Hl; [by apply bool_decide_eq_true in Hp|].
      assert (Prefix opt = []) as -> by (destruct (Prefix opt); [done|unfold len in Hl; simpl in Hl; lia]). apply prefix_nil.
    + intros (Hx & Hsh & Hp). split; [done|]. apply rewound_elem; [done| |done].
      apply (in_window_ts topt opt ts banned). unfold shown in Hsh. by apply andb_true_iff in Hsh as [? _].
  - apply Forall_forall. intros y [_ Hy]%list_elem_of_filter. apply take_while_elem in Hy as [_ Hp].
    unfold valid. rewrite Hkey. unfold has_prefix in Hp. destruct Hway as [Er|E]; [|rewrite E; apply bool_decide_eq_true_2, prefix_nil].
    rewrite Er in Hp. cbn [negb andb] in Hp. case_bool_decide as Hl; [done|].
    assert (Prefix opt = []) as -> by (destruct (Prefix opt); [done|unfold len in Hl; simpl in Hl; lia]).
    apply bool_decide_eq_true_2, prefix_nil.
Qed.
End Rewound.

(** ** The versions of a key *)

Definition discards (x : kv) : bool := has_bit (Meta x.2) bitDiscardEarlierVersions.
Definition dead (now : Z) (x : kv) : bool := isDeletedOrExpired (Meta x.2) (ExpiresAt x.2) now.

(** The versions that count: down to the first that is deleted or expired, or that discards the
    earlier ones. *)
Fixpoint live (now : Z) (l : list kv) : list kv :=
  match l with
  | [] => []
  | x :: l => if dead now x then [] else if discards x then [x] else x :: live now l
  end.

(** The versions of a key a transaction can see, the newest first. *)
Definition versions (key : bytes) (ts : Z) (l : list kv) : list kv :=
  filter (fun x => ukey x.1 = key /\ ParseTs x.1 <= ts) l.

Definition value_of_kv (vlog_read : valuePointer -> result vlog_error bytes) (x : kv) : bytes := default [] (entry_value vlog_read x.2).

Lemma item_reads vlog_read x item : is_Some (entry_value vlog_read x.2) -> item_shows vlog_read x item ->
  Item_Value vlog_read item = Some (value_of_kv vlog_read x).
Proof. intros [v E] Hs. rewrite (is_value _ _ _ Hs). unfold value_of_kv. by rewrite E. Qed.

Lemma sorted_nodup l : run_sorted false l -> NoDup l.
Proof.
  intros Hl. induction Hl as [|x l _ IH Hx]; constructor; [|done]. intros Hin. rewrite Forall_forall in Hx.
  by destruct (cmp_lt_irrefl compareKeys x.1 (Hx x Hin)).
Qed.

Lemma filter_sorted (P : kv -> Prop) `{forall x, Decision (P x)} l : run_sorted false l -> run_sorted false (filter P l).
Proof.
  intros Hs. induction Hs as [|x l Hs IH Hx]; [constructor|]. rewrite filter_cons. case_decide; [|done].
  constructor; [done|]. apply Forall_forall. intros y [_ Hy]%list_elem_of_filter. by apply (proj1 (Forall_forall _ _) Hx).
Qed.

Lemma run_sorted_app l1 l2 : run_sorted false (l1 ++ l2) ->
  run_sorted false l1 /\ run_sorted false l2 /\ forall x y, x ∈ l1 -> y ∈ l2 -> compareKeys x.1 y.1 = Lt.
Proof. intros (Hx & H1 & H2)%StronglySorted_app. done. Qed.

(** ** Lemmas: iterating and [Get] agree *)

(** What the iterator looks at of a key — its first bytes, the namespace — is in the user key. *)
Definition plain_key (topt : txn_opts) (banned : gset Z) (key : bytes) : Prop :=
  internal key = bool_decide (badgerPrefix `prefix_of` ukey key) /\ ban topt banned key = ban topt banned (ukey key).

(** A transaction whose writes are what [Get] takes them for. *)
Record own_ok (t : Txn) : Prop := {
  ow_keyed : keyed (pendingWrites t);
  ow_keys : forall k e, pendingWrites t !! k = Some e -> k <> [] /\ has_bit (emeta e) bitValuePointer = false;
  ow_update : update t = false -> pendingWrites t = ∅;
  ow_open : discarded t = false;
  ow_ts : 0 < readTs t <= MaxUint64
}.

(** Two items that show the same. *)
Definition same_item (vlog_read : valuePointer -> result vlog_error bytes) (i i' : Item) : Prop :=
  it_key i = it_key i' /\ it_version i = it_version i' /\ it_meta i = it_meta i' /\ it_userMeta i = it_userMeta i' /\
  it_expiresAt i = it_expiresAt i' /\ Item_Value vlog_read i = Item_Value vlog_read i'.

Section Agree.
Context (MemHash : bytes -> Z) (topt : txn_opts) (vlog_read : valuePointer -> result vlog_error bytes).
Context (opt : IteratorOptions) (banned : gset Z) (now : Z) (t : Txn) (DB es : list kv).
Notation ts := (readTs t).
Notation rev := (Reverse opt).

Record iter_opts_ok : Prop := {
  io_all : AllVersions opt = false;
  io_since : SinceTs opt = 0;
  io_key : prefixIsKey opt = false;
  io_way : rev = false \/ Prefix opt = []
}.

Record db_run_ok : Prop := {
  dr_keys : forall x, x ∈ DB -> key_ok x.1 /\ 0 < ParseTs x.1;
  dr_single : one_value DB;
  dr_read : forall x, x ∈ DB -> is_Some (entry_value vlog_read x.2);
  dr_plain : forall x, x ∈ own_run rev t ++ DB -> plain_key topt banned x.1
}.

(** The merged run has the own writes first, and what the database has under the prefix. *)
Record merged_ok : Prop := {
  mg_sorted : run_sorted rev es;
  mg_sound : forall x, x ∈ es -> x ∈ own_run rev t ++ DB;
  mg_own : forall x, x ∈ own_run rev t -> x ∈ es;
  mg_db : forall x, x ∈ DB -> Prefix opt `prefix_of` ukey x.1 -> (prefixIsKey opt = true -> ukey x.1 = Prefix opt) ->
    has_key es x.1
}.

Context (Hopt : iter_opts_ok) (Hown : own_ok t) (Hdb : db_run_ok) (Hes : merged_ok).

Lemma es_keys : keys_ok es.
Proof.
  apply Forall_forall. intros x Hx. apply (mg_sound Hes), elem_of_app in Hx as [Hx|Hx]; [|by apply Hdb].
  apply (own_run_elem rev t x (ow_keyed _ Hown)) in Hx as (k & e & He & ->). cbn. destruct (ow_keys _ Hown k e He) as [Hk _].
  unfold key_ok, len. rewrite KeyWithTs_length. destruct k; [done|simpl; lia].
Qed.

Lemma es_ready : run_ready (rev := rev) topt vlog_read banned es.
Proof.
  split; [| |intros _ x y Hx Hy E].
  - intros x Hx. apply (mg_sound Hes), elem_of_app in Hx as [Hx|Hx]; [|by apply Hdb].
    apply (own_run_elem rev t x (ow_keyed _ Hown)) in Hx as (k & e & He & ->). destruct (ow_keys _ Hown k e He) as [_ Hp].
    unfold entry_value. cbn. rewrite Hp. by eexists.
  - apply es_keys.
  - destruct (dr_plain Hdb x (mg_sound Hes x Hx)) as [-> ->], (dr_plain Hdb y (mg_sound Hes y Hy)) as [-> ->]. by rewrite E.
Qed.

Notation in_window := (in_window topt opt ts banned).
Notation vis := (visible topt opt ts banned (fun _ => now) [] es).

Lemma window_key x k : x ∈ es -> ukey x.1 = k -> ~ badgerPrefix `prefix_of` k ->
  in_window x = true <-> ParseTs x.1 <= ts /\ ban topt banned k = false.
Proof.
  intros Hx <- Hk. destruct (dr_plain Hdb x (mg_sound Hes x Hx)) as [E1 E2]. unfold Iterator.in_window.
  rewrite E1, E2, (bool_decide_eq_false_2 (badgerPrefix `prefix_of` _)) by done. rewrite (io_since Hopt).
  cbn [negb orb andb bool_decide]. rewrite orb_true_r, (bool_decide_eq_false_2 (0 < 0)) by lia. cbn [andb orb].
  rewrite orb_false_r, andb_true_iff, !negb_true_iff, bool_decide_eq_false. split; intros [? ?]; split; done || lia.
Qed.

(** What is visible of a key: its newest version up to the timestamp, if it lives. *)
Lemma visible_key x k : ukey x.1 = k -> ~ badgerPrefix `prefix_of` k -> Prefix opt `prefix_of` k ->
  x ∈ vis <-> x ∈ es /\ ParseTs x.1 <= ts /\ ban topt banned k = false /\ gone (fun _ => now) x = false /\
    forall y, y ∈ es -> ukey y.1 = k -> ParseTs y.1 <= ts -> ParseTs y.1 <= ParseTs x.1.
Proof.
  intros Hk Hn Hp. rewrite visible_rewind; [|apply Hopt|apply Hopt|apply Hes|apply es_keys|pose proof (ow_ts _ Hown); lia].
  rewrite (shown_newest _ _ _ _ _ _ _ (io_all Hopt)), Hk. split.
  - intros (Hx & (Hw & Hg & Hy) & _). apply (window_key x k Hx Hk Hn) in Hw as [Hv Hb].
    split_and!; try done. intros y Hye E Hyt. apply Hy; [done| |congruence]. by apply (window_key y k).
  - intros (Hx & Hv & Hb & Hg & Hy). split_and!; try done; [by apply (window_key x k)|].
    intros y Hye Hw E. apply (window_key y k Hye E Hn) in Hw as [Hyt _]. by apply Hy.
Qed.

Lemma es_unique x y : x ∈ es -> y ∈ es -> x.1 = y.1 -> x = y.
Proof. intros Hx Hy. by apply (sorted_key rev x y es (mg_sorted Hes) Hx Hy). Qed.

(** A key the transaction wrote. *)
Lemma own_agrees k e items : pendingWrites t !! k = Some e -> ~ badgerPrefix `prefix_of` k -> Prefix opt `prefix_of` k ->
  ban topt banned k = false -> Forall2 (item_shows vlog_read) vis items ->
  match own_item now ts k e with
  | Ok i => exists i', i' ∈ items /\ same_item vlog_read i i'
  | Err _ => k ∉ it_key <$> items
  | Panic => False
  end.
Proof.
  intros He Hn Hp Hb Hit. pose proof (ow_ts _ Hown) as Hts. destruct (ow_keys _ Hown k e He) as [Hk Hptr].
  set (x := (KeyWithTs k ts, pending_value ts e)).
  assert (x ∈ es) as Hx by (apply (mg_own Hes), (own_run_elem rev t x (ow_keyed _ Hown)); by exists k, e).
  assert (ukey x.1 = k /\ ParseTs x.1 = ts) as [Eu Et].
  { unfold x. cbn [fst]. by rewrite ukey_KeyWithTs, ParseTs_KeyWithTs by (done || lia). }
  assert (gone (fun _ => now) x = isDeletedOrExpired (emeta e) (eExpiresAt e) now) as Hg by done.
  unfold own_item. destruct (isDeletedOrExpired _ _ _) eqn:Ed.
  - intros Hin. apply list_elem_of_fmap in Hin as (i & Ei & Hi). apply list_elem_of_lookup in Hi as [n Hi].
    destruct (Forall2_lookup_r _ _ _ _ _ Hit Hi) as (y & Hy & Hs). apply list_elem_of_lookup_2 in Hy.
    assert (ukey y.1 = k) as Ey by (by rewrite <- (is_key _ _ _ Hs)).
    apply (visible_key y k Ey Hn Hp) in Hy as (Hye & Hyt & _ & Hyg & Hmax).
    specialize (Hmax x Hx Eu ltac:(lia)). assert (y = x) as ->; [|by rewrite Hg in Hyg].
    apply es_unique; [done..|]. pose proof es_keys as Hko. unfold keys_ok in Hko. rewrite Forall_forall in Hko.
    rewrite (proj1 (KeyWithTs_of y.1 (Hko y Hye))), (proj1 (KeyWithTs_of x.1 (Hko x Hx))), Eu, Ey. f_equal. lia.
  - assert (x ∈ vis) as Hv.
    { apply (visible_key x k Eu Hn Hp). split_and!; [done|lia|done|done|]. intros y _ _ Hy. lia. }
    apply list_elem_of_lookup in Hv as [n Hv]. destruct (Forall2_lookup_l _ _ _ _ _ Hit Hv) as (i & Hi & Hs).
    exists i. split; [by eapply list_elem_of_lookup_2|]. destruct Hs as [H1 H2 H3 H4 H5 H6].
    unfold same_item. cbn [it_key it_version it_meta it_userMeta it_expiresAt]. rewrite H1, H2, H3, H4, H5, H6, Eu, Et.
    split_and!; try done. unfold entry_value. cbn. by rewrite Hptr.
Qed.

(** A key only the database can have. *)
Lemma db_agrees k r items : pendingWrites t !! k = None -> k <> [] -> ~ badgerPrefix `prefix_of` k -> Prefix opt `prefix_of` k ->
  ban topt banned k = false -> newest DB k ts r -> Forall2 (item_shows vlog_read) vis items ->
  match db_item now k r with
  | Ok i => exists i', i' ∈ items /\ same_item vlog_read i i'
  | Err _ => k ∉ it_key <$> items
  | Panic => False
  end.
Proof.
  intros Hnone Hk Hn Hp Hb Hnew Hit. pose proof (ow_ts _ Hown) as Hts.
  (* of this key the merged run has what the database has *)
  assert (forall y, y ∈ es -> ukey y.1 = k -> y ∈ DB /\ y = (KeyWithTs k (ParseTs y.1), y.2) /\ 0 < ParseTs y.1) as Hfrom.
  { intros y Hy Ey. pose proof (mg_sound Hes y Hy) as Hyd. apply elem_of_app in Hyd as [Hyd|Hyd].
    - apply (own_run_elem rev t y (ow_keyed _ Hown)) in Hyd as (k' & e & He & ->).
      cbn [fst] in Ey. rewrite ukey_KeyWithTs in Ey. congruence.
    - split; [done|]. destruct (dr_keys Hdb y Hyd) as [Hky Hpos]. split; [|done]. destruct y as [yk yv]. cbn in *. f_equal.
      rewrite (proj1 (KeyWithTs_of yk Hky)) at 1. by rewrite Ey. }
  assert (forall i, i ∈ items -> it_key i = k -> exists y, y ∈ vis /\ ukey y.1 = k) as Hback.
  { intros i Hi Ei. apply list_elem_of_lookup in Hi as [n Hi]. destruct (Forall2_lookup_r _ _ _ _ _ Hit Hi) as (y & Hy & Hs).
    exists y. split; [by eapply list_elem_of_lookup_2|]. by rewrite <- (is_key _ _ _ Hs). }
  assert (forall y, y ∈ vis -> ukey y.1 = k -> ParseTs y.1 <= Version r /\ 0 < ParseTs y.1) as Hle.
  { intros y Hy Ey. apply (visible_key y k Ey Hn Hp) in Hy as (Hye & Hyt & _).
    destruct (Hfrom y Hye Ey) as (Hyd & Ey' & Hpos). split; [|done]. destruct Hnew as [Hmax _].
    apply (Hmax _ y.2); [by rewrite <- Ey'|lia]. }
  destruct (newest_entry _ _ _ _ Hnew) as [->|(Hv & vs & Hvs & Er)].
  { cbn. intros (i & Ei & Hi)%list_elem_of_fmap. destruct (Hback i Hi (eq_sym Ei)) as (y & Hy & Ey).
    destruct (Hle y Hy Ey). cbn in *. lia. }
  set (v := Version r) in *.
  assert (ukey (KeyWithTs k v) = k /\ ParseTs (KeyWithTs k v) = v) as [Eu Et].
  { by rewrite ukey_KeyWithTs, ParseTs_KeyWithTs by (done || lia). }
  assert ((KeyWithTs k v, vs) ∈ es) as Hx.
  { destruct (mg_db Hes (KeyWithTs k v, vs) Hvs) as ([yk yv] & Hy & Ey); [cbn; by rewrite Eu|by rewrite (io_key Hopt)|]. cbn in Ey. subst yk.
    destruct (Hfrom _ Hy Eu) as (Hyd & _). by rewrite (dr_single Hdb _ _ _ Hvs Hyd). }
  assert (is_Some (Value vs)) as [val Hval].
  { destruct Hnew as [_ [E|(_ & H & _)]]; [unfold v in Hv; rewrite E in Hv; cbn in Hv; lia|by rewrite Er in H]. }
  rewrite Er. fold v. clear Er.
  unfold db_item. cbn [Value Meta with_version ExpiresAt]. rewrite Hval, (bool_decide_eq_false_2 (Some val = None)) by done. cbn [andb].
  assert (forall y, y ∈ es -> ukey y.1 = k -> ParseTs y.1 <= ts -> ParseTs y.1 <= v) as Hmax.
  { intros y Hye Ey Hyt. destruct (Hfrom y Hye Ey) as (Hyd & Ey' & Hpos). destruct Hnew as [Hm _].
    apply (Hm _ y.2); [by rewrite <- Ey'|lia]. }
  destruct (isDeletedOrExpired _ _ _) eqn:Ed.
  - intros (i & Ei & Hi)%list_elem_of_fmap. destruct (Hback i Hi (eq_sym Ei)) as (y & Hy & Ey).
    apply (visible_key y k Ey Hn Hp) in Hy as (Hye & Hyt & _ & Hyg & Hym).
    specialize (Hym _ Hx Eu ltac:(cbn [fst]; lia)). cbn [fst] in Hym. rewrite Et in Hym. specialize (Hmax y Hye Ey Hyt).
    destruct (Hfrom y Hye Ey) as (_ & Ey' & _). assert (y = (KeyWithTs k v, vs)) as ->.
    { apply es_unique; [done..|]. rewrite Ey'. cbn. f_equal. lia. }
    unfold gone in Hyg. cbn in Hyg. congruence.
  - assert ((KeyWithTs k v, vs) ∈ vis) as Hvx.
    { apply (visible_key (KeyWithTs k v, vs) k Eu Hn Hp). cbn [fst]. rewrite Et. by split_and!; [|lia| | |]. }
    apply list_elem_of_lookup in Hvx as [n Hvx]. destruct (Forall2_lookup_l _ _ _ _ _ Hit Hvx) as (i & Hi & Hs).
    exists i. split; [by eapply list_elem_of_lookup_2|]. destruct Hs as [H1 H2 H3 H4 H5 H6]. cbn [fst snd] in *.
    unfold same_item. cbn [it_key it_version it_meta it_userMeta it_expiresAt Version with_version UserMeta].
    rewrite H1, H2, H3, H4, H5, H6, Eu, Et. split_and!; try done.
    unfold Item_Value, yieldItemValue, hasValue, entry_value, SafeCopy. cbn. by rewrite andb_false_r, Hval.
Qed.
End Agree.

(** ** Lemmas: the iterator [NewIterator] makes *)

Lemma own_run_none rev t : own_ok t -> newPendingWritesIterator t rev = None -> own_run rev t = [].
Proof.
  intros Ho. unfold newPendingWritesIterator, own_run. destruct (negb (update t)) eqn:Eu.
  - intros _. apply negb_true_iff in Eu. by rewrite (ow_update t Ho Eu), map_to_list_empty.
  - cbn [orb]. case_bool_decide as E; [|done]. intros _. by rewrite E, map_to_list_empty.
Qed.

Section Made.
Context {A M : Type} {IA : YIterator A} {IM : YIterator M} (opt : IteratorOptions) (t : Txn).
Notation rev := (Reverse opt).
Notation ts := (readTs t).
Notation sk := (txn_seek (Reverse opt) (readTs t)).
Context {LA : YIteratorLaws A rev sk} {LM : YIteratorLaws M rev sk}.
Context (open_table : bool -> Table -> A) (open_mem : bool -> list kv -> M).
Context (ReadOnly : bool) (mt : list kv) (imm : list (list kv)) (levels : list levelHandler).
Notation mems := (getMemTables ReadOnly mt imm).
Notation DB := (concat mems ++ all_entries levels).

(** The store as [NewIterator] finds it: well formed, its memtables and tables with iterators. *)
Record store_ok : Prop := {
  sr_mt : run_ok mt;
  sr_imm : Forall run_ok imm;
  sr_levels : Forall level_ok levels;
  sr_numbers : Forall (fun h => 0 <= level h) levels;
  sr_sized : forall h, h ∈ levels -> Forall sized (tables h);
  sr_tables : forall h tb, h ∈ levels -> tb ∈ tables h -> opens opt ts open_table tb;
  sr_mems : forall sl, sl ∈ mems -> y_over (open_mem rev sl) (dir rev sl)
}.

Context (Hstore : store_ok) (Hown : own_ok t) (Hsince : SinceTs opt = 0).

Lemma own_iters : exists its ess,
  match newPendingWritesIterator t rev with Some pi => [Any _ pendingWritesIterator_it pi] | None => [] end = its /\
  Forall2 (any_over rev sk) its ess /\ ((its = [] /\ ess = [] /\ own_run rev t = []) \/ ess = [own_run rev t]).
Proof.
  pose proof (ow_ts t Hown) as Hts. destruct (newPendingWritesIterator t rev) as [pi|] eqn:E.
  - eexists _, [own_run rev t]. split; [done|]. split; [|by right]. constructor; [|constructor].
    exists pending_laws. apply own_pending_wf; [apply Hown|lia|done].
  - exists [], []. split; [done|]. split; [constructor|]. left. split_and!; try done. by apply own_run_none.
Qed.

Lemma mem_iters : Forall2 (any_over rev sk) (mem_iter open_mem rev <$> mems) (dir rev <$> mems).
Proof.
  apply Forall2_fmap_l, Forall2_fmap_r, Forall_Forall2_diag, Forall_forall. intros sl Hsl. exists LM. by apply Hstore.
Qed.

Lemma level_entry x : x ∈ all_entries levels <-> exists tb, tb ∈ concat (tables <$> levels) /\ x ∈ entries tb.
Proof.
  unfold all_entries, level_entries. rewrite elem_of_concat. setoid_rewrite elem_of_concat. split.
  - intros (l & (h & -> & Hh)%list_elem_of_fmap & Hx). apply elem_of_entries in Hx as (tb & Ht & Hx). exists tb.
    split; [|done]. exists (tables h). split; [|done]. apply list_elem_of_fmap. by exists h.
  - intros (tb & (l & (h & -> & Hh)%list_elem_of_fmap & Ht) & Hx). exists (concat (entries <$> tables h)).
    split; [apply list_elem_of_fmap; by exists h|]. apply elem_of_entries. by exists tb.
Qed.

(** The runs merged: the transaction's own, the memtables', the tables'. *)
Definition source_runs (own : list (list kv)) : list (list kv) :=
  (own ++ (dir rev <$> mems)) ++ concat (picked_runs opt <$> levels).

Lemma all_iters_over : exists its own, all_iters open_table open_mem opt t mems levels = Some its /\
  Forall2 (any_over rev sk) its (source_runs own) /\ merged_ok opt t DB (merge_all rev (source_runs own)) /\
  (own_run rev t = [] -> own = [] \/ own = [[]]).
Proof.
  destruct own_iters as (i1 & e1 & E1 & H1 & Ho). unfold all_iters. rewrite E1.
  destruct (levels_iters opt ts open_table levels (i1 ++ (mem_iter open_mem rev <$> mems))) as (i2 & E2 & H2 & S2);
    [lia|apply Hstore..|]. rewrite E2. set (e2 := concat (picked_runs opt <$> levels)) in *.
  pose proof mem_iters as H3. exists ((i1 ++ (mem_iter open_mem rev <$> mems)) ++ i2), e1. unfold source_runs. fold e2.
  assert (Forall2 (any_over rev sk) ((i1 ++ (mem_iter open_mem rev <$> mems)) ++ i2) ((e1 ++ (dir rev <$> mems)) ++ e2)) as Hall
    by (by repeat apply Forall2_app).
  split; [done|]. split; [done|].
  split; [|destruct Ho as [(_ & -> & _)| ->]; [by left|intros ->; by right]].
  assert (Forall (run_sorted rev) ((e1 ++ (dir rev <$> mems)) ++ e2)) as Hsort.
  { clear -Hall. induction Hall; constructor; eauto using any_over_ok. }
  assert (forall x l, l ∈ e2 -> x ∈ l -> x ∈ all_entries levels) as Hlev.
  { intros x l Hl Hx. destruct (proj1 (S2 x) (ex_intro _ l (conj Hl Hx))) as (tb & Ht & _ & Hxt).
    apply level_entry. by exists tb. }
  split.
  - by apply merge_all_sorted.
  - intros x Hx. apply merge_all_in in Hx as (l & Hl & Hx); [|done]. rewrite !elem_of_app in Hl. rewrite !elem_of_app.
    destruct Hl as [[Hl|Hl]|Hl].
    + destruct Ho as [(_ & -> & _)| ->]; [by apply elem_of_nil in Hl|]. apply list_elem_of_singleton in Hl as ->. by left.
    + right. left. apply list_elem_of_fmap in Hl as (sl & -> & Hsl). apply elem_of_concat. exists sl.
      split; [done|]. by apply dir_elem in Hx.
    + right. right. by apply (Hlev x l).
  - intros x Hx. destruct Ho as [(_ & _ & E)| ->]; [rewrite E in Hx; by apply elem_of_nil in Hx|].
    cbn [app merge_all foldr]. cbn [app] in Hsort. apply Forall_cons in Hsort as [Hs1 Hs2].
    apply merge_elem_key; [done|by apply merge_all_sorted|]. by left.
  - intros x Hx Hp Hk. apply merge_all_has_key; [done|]. apply elem_of_app in Hx as [Hx|Hx].
    + apply elem_of_concat in Hx as (sl & Hsl & Hx). exists (dir rev sl). split.
      * rewrite !elem_of_app. left. right. apply list_elem_of_fmap. by exists sl.
      * exists x. split; [by apply dir_elem|done].
    + apply level_entry in Hx as (tb & Ht & Hx). destruct (proj2 (S2 x)) as (l & Hl & Hxl).
      * exists tb. split; [done|]. split; [|done]. apply elem_of_concat in Ht as (l & (h & -> & Hh)%list_elem_of_fmap & Ht).
        pose proof (sr_sized Hstore h Hh) as Hsz. rewrite Forall_forall in Hsz. destruct (Hsz tb Ht) as [Hok Hmv].
        apply (picks_complete opt tb x); try done. lia.
      * exists l. split; [rewrite !elem_of_app; by right|]. by exists x.
Qed.

Lemma NewIterator_made vl : exists it own, let es := merge_all rev (source_runs own) in
  txn_NewIterator open_table open_mem false ReadOnly opt t vl mt imm levels
    = Some (it, add_iterators t 1, incrIteratorCount vl) /\
  merged_ok opt t DB es /\ (own_run rev t = [] -> own = [] \/ own = [[]]) /\
  ((i_iitr it = None /\ i_item it = None /\ es = []) \/ opened (rev := rev) (sk := sk) opt ts es it).
Proof.
  destruct all_iters_over as (its & own & E & Ha & Hm & Ho). unfold txn_NewIterator. rewrite (ow_open t Hown), E.
  cbn [orb mbind option_bind]. destruct its as [|i its].
  { exists (mkIter None (readTs t) opt None [] [] [] false 0), own. apply Forall2_nil_inv_l in Ha. cbv zeta. split; [done|].
    split; [exact Hm|]. split; [exact Ho|]. left. by rewrite Ha. }
  destruct (NewMergeIterator_over rev sk (length (i :: its)) (i :: its) _ Ha) as (a & Ea & Hov); [done..|].
  rewrite Ea. cbn [mbind option_bind]. eexists _, own. cbv zeta. split; [done|]. split; [exact Hm|]. split; [exact Ho|].
  right. split; [by exists a|constructor|done|done].
Qed.
End Made.

(** The transaction after any writes and reads. *)
Lemma txn_run_own topt MemHash ts upd ws rs t : txn_run MemHash topt (new_txn ts upd) ws rs t ->
  0 < ts <= MaxUint64 -> Forall (fun e => has_bit (emeta e) bitValuePointer = false) ws -> own_ok t.
Proof.
  intros Hrun Hts Hptr. pose proof (txn_run_tracks _ _ _ _ _ _ _ Hrun) as [Hp _ _ _ _ Hok].
  destruct (txn_run_const _ _ _ _ _ _ Hrun) as (Ets & Eup & _ & Ed & _). cbn in Ets, Eup, Ed.
  assert (forall k e, pendingWrites t !! k = Some e -> exists w th, w ∈ ws /\ eKey w = k /\ e = stick_threshold w th) as Hw.
  { intros k e He. specialize (Hp k). destruct (last_write ws k) as [w|] eqn:Ew; [|congruence].
    destruct Hp as (th & _ & Hp). apply last_write_key in Ew as [<- Hin]. exists w, th. split_and!; try done. congruence. }
  rewrite Forall_forall in Hptr, Hok. split; [| | |done|by rewrite Ets].
  - intros k e He. destruct (Hw k e He) as (w & th & _ & <- & ->). apply stick_fields.
  - intros k e He. destruct (Hw k e He) as (w & th & Hin & <- & ->).
    destruct (stick_fields w th) as (_ & _ & _ & _ & -> & _). split; [by apply (Hok w)|by apply Hptr].
  - intros Hu. rewrite Hu in Eup. subst upd. apply txn_run_readonly in Hrun as ->; [|done].
    apply map_eq. intros k. rewrite lookup_empty. apply (Hp k).
Qed.

Section Together.
Context (MemHash : bytes -> Z) (topt : txn_opts) (vlog_read : valuePointer -> result vlog_error bytes).
Context (opt : IteratorOptions) (banned : gset Z) (now : Z) (t : Txn) (DB es : list kv).
Notation ts := (readTs t).
Context (Hopt : iter_opts_ok opt) (Hown : own_ok t) (Hdb : db_run_ok topt vlog_read opt banned t DB).
Context (Hes : merged_ok opt t DB es).

Lemma rewind_collects it fuel steps :
  (i_iitr it = None /\ i_item it = None /\ es = []) \/
    opened (rev := Reverse opt) (sk := txn_seek (Reverse opt) ts) opt ts es it ->
  (length es < fuel)%nat -> (length es < steps)%nat ->
  exists it' t' t'' items, iter_Rewind MemHash topt vlog_read banned (fun _ => now) fuel it t = Some (it', t') /\
    collect MemHash topt vlog_read banned (fun _ => now) fuel steps it' t' = Some (items, t'') /\
    Forall2 (item_shows vlog_read) (visible topt opt ts banned (fun _ => now) [] es) items.
Proof.
  intros Hit Hf Hs. pose proof (ow_ts t Hown) as Hts. destruct Hit as [(E1 & E2 & E3)|Hit].
  - exists it, t, t, []. unfold iter_Rewind, iter_Seek. rewrite E1. split; [done|]. split.
    + destruct steps as [|steps]; [lia|]. cbn [collect]. unfold iter_Valid. by rewrite E2.
    + assert (forall x, x ∈ visible topt opt ts banned (fun _ => now) [] es -> x ∈ es) as Hv.
      { intros x Hx. apply visible_rewind in Hx as [? _]; try done; try apply Hopt; try apply Hes; [|lia].
        by apply (es_keys topt vlog_read opt banned t DB es). }
      destruct (visible topt opt ts banned (fun _ => now) [] es) as [|x l]; [constructor|].
      specialize (Hv x ltac:(by left)). rewrite E3 in Hv. by apply elem_of_nil in Hv.
  - destruct (Seek_ok MemHash topt vlog_read opt ts banned (fun _ => now) es eq_refl
      (es_ready topt vlog_read opt banned t DB es Hown Hdb Hes) fuel it t [] Hit) as (it' & E & Hrd); [|lia|done|].
    { unfold seekable. destruct (seek_key opt []) as [|b k] eqn:Ek; [by left|right]. by exists (b :: k). }
    destruct (collect_ok MemHash topt vlog_read opt ts banned (fun _ => now) es eq_refl
      (es_ready topt vlog_read opt banned t DB es Hown Hdb Hes) fuel steps it' t _ Hrd Hf) as (items & Ec & Hi).
    + pose proof (sought_suffix opt ts es eq_refl []) as [pre E2]. apply (f_equal length) in E2. rewrite length_app in E2.
      destruct (take_while_prefix (has_prefix opt) (sought opt ts [] es)) as [post E3].
      apply (f_equal length) in E3. rewrite length_app in E3.
      eapply Nat.le_lt_trans; [apply length_filter|]. lia.
    + eexists it', t, _, items. split; [exact E|]. split; [exact Ec|exact Hi].
Qed.

Lemma get_agrees (get : bytes -> result txn_error ValueStruct) items k :
  (exists r, get (KeyWithTs k ts) = Ok r /\ newest DB k ts r) ->
  k <> [] -> ~ badgerPrefix `prefix_of` k -> Prefix opt `prefix_of` k ->
  Forall2 (item_shows vlog_read) (visible topt opt ts banned (fun _ => now) [] es) items ->
  match (txn_Get MemHash topt banned get now t k).2 with
  | Ok i => exists i', i' ∈ items /\ same_item vlog_read i i'
  | Err _ => k ∉ it_key <$> items
  | Panic => False
  end.
Proof.
  intros (r & Eg & Hr) Hk Hn Hp Hi. unfold txn_Get.
  rewrite bool_decide_eq_false_2 by (unfold len; destruct k; [done|simpl; lia]). rewrite (ow_open t Hown).
  pose proof (isBanned_total topt banned k) as Hbt. destruct (isBanned topt banned k) as [[]|e|] eqn:Eb; [| |done].
  - assert (ban topt banned k = false) as Hb by (unfold ban; by rewrite Eb).
    pose proof (db_agrees topt vlog_read opt banned now t DB es Hopt Hown Hdb Hes k r items) as Hd.
    assert (forall t' : Txn, readTs t' = ts -> (vs ← get (KeyWithTs k (readTs t')); db_item now k vs) = db_item now k r) as Hget
      by (intros t' Et; rewrite Et, Eg; done).
    destruct (update t) eqn:Eu.
    + destruct (pendingWrites t !! k) as [e|] eqn:Ep.
      * rewrite (ow_keyed t Hown k e Ep), bool_decide_eq_true_2 by done.
        by apply (own_agrees topt vlog_read opt banned now t DB es Hopt Hown Hdb Hes).
      * cbn [snd]. rewrite Hget by (unfold addReadKey; by destruct (update t)). by apply Hd.
    + cbn [snd]. rewrite Hget by done. apply Hd; try done. by rewrite (ow_update t Hown Eu), lookup_empty.
  - intros (i & Ei & Hin)%list_elem_of_fmap. apply list_elem_of_lookup in Hin as [n Hin].
    destruct (Forall2_lookup_r _ _ _ _ _ Hi Hin) as (y & Hy & Hs). apply list_elem_of_lookup_2 in Hy.
    apply (visible_key topt vlog_read opt banned now t DB es Hopt Hown Hdb Hes y k) in Hy as (_ & _ & Hb & _); [| |done|done].
    + unfold ban in Hb. by rewrite Eb in Hb.
    + by rewrite Ei, (is_key _ _ _ Hs).
Qed.
End Together.

(** ** Properties *)

(** C3: a transaction's iterator and its [Get] agree: put together from the writes of the
    transaction, the memtables and the tables that the prefix does not rule out, the iterator
    shows of every user key with the prefix exactly what [Get] finds — version, metadata and
    value — and nothing of a key for which [Get] finds nothing or that is banned; forwards with
    any prefix, and backwards. *)
Theorem iterator_agrees_with_get {A M : Type} {IA : YIterator A} {IM : YIterator M} (opt : IteratorOptions)
    (MemHash : bytes -> Z) (topt : txn_opts) (ts : Z) (upd : bool) (ws : list Entry) (rs : list bytes) (t : Txn)
    {LA : YIteratorLaws A (Reverse opt) (txn_seek (Reverse opt) (readTs t))}
    {LM : YIteratorLaws M (Reverse opt) (txn_seek (Reverse opt) (readTs t))}
    (open_table : bool -> Table -> A) (open_mem : bool -> list kv -> M)
    (vlog_read : valuePointer -> result vlog_error bytes) (banned : gset Z) (now : Z)
    (ReadOnly : bool) (vl : valueLog) (mt : list kv) (imm : list (list kv)) (levels : list levelHandler) :
  let DB := concat (getMemTables ReadOnly mt imm) ++ all_entries levels in
  let get key := match db_get false ReadOnly mt imm levels key with Ok v => Ok v | Err _ => Err ErrClosed | Panic => Panic end in
  txn_run MemHash topt (new_txn ts upd) ws rs t -> 0 < ts <= MaxUint64 ->
  Forall (fun e => has_bit (emeta e) bitValuePointer = false) ws ->
  iter_opts_ok opt -> store_ok opt t open_table open_mem ReadOnly mt imm levels -> db_run_ok topt vlog_read opt banned t DB ->
  exists it n, txn_NewIterator open_table open_mem false ReadOnly opt t vl mt imm levels
      = Some (it, add_iterators t 1, incrIteratorCount vl) /\
    forall fuel steps, (n < fuel)%nat -> (n < steps)%nat ->
    exists it' t' t'' items, iter_Rewind MemHash topt vlog_read banned (fun _ => now) fuel it t = Some (it', t') /\
      collect MemHash topt vlog_read banned (fun _ => now) fuel steps it' t' = Some (items, t'') /\
      forall k, k <> [] -> ~ badgerPrefix `prefix_of` k -> Prefix opt `prefix_of` k ->
        match (txn_Get MemHash topt banned get now t k).2 with
        | Ok i => exists i', i' ∈ items /\ same_item vlog_read i i'
        | Err _ => k ∉ it_key <$> items
        | Panic => False
        end.
Proof.
  intros DB get Hrun Hts Hptr Hopt Hstore Hdb. pose proof (txn_run_own topt MemHash ts upd ws rs t Hrun Hts Hptr) as Hown.
  destruct (NewIterator_made opt t open_table open_mem ReadOnly mt imm levels Hstore Hown (io_since opt Hopt) vl)
    as (it & own & E & Hm & _ & Hit). set (es := merge_all _ _) in *.
  exists it, (length es). split; [exact E|]. intros fuel steps Hf Hs.
  destruct (rewind_collects MemHash topt vlog_read opt banned now t DB es Hopt Hown Hdb Hm it fuel steps Hit Hf Hs)
    as (it' & t' & t'' & items & E1 & E2 & Hi).
  exists it', t', t'', items. split; [exact E1|]. split; [exact E2|]. intros k Hk Hn Hp.
  apply (get_agrees MemHash topt vlog_read opt banned now t DB es Hopt Hown Hdb Hm); try done.
  destruct (db_get_spec ReadOnly mt imm levels k (readTs t)) as (r & Er & Hr); try apply Hstore; [done|apply Hown|].
  exists r. split; [|done]. unfold get. by rewrite Er.
Qed.

(** Which tables an iterator looks at: [pickTables], with its binary searches over a sorted
    level and its early stop, picks exactly the tables [pickTable] accepts one by one, and no
    table that has an entry under the prefix (for a key iterator, of the key) is left out. *)
Theorem pickTables_exact (opt : IteratorOptions) (l : list Table) :
  0 <= SinceTs opt -> Forall sized l -> StronglySorted table_before l ->
  exists out, pickTables opt l = Some out /\ pick_level0 opt l = Some out /\
    (forall t, t ∈ out <-> t ∈ l /\ pickTable opt t = Some true) /\
    (forall t x, t ∈ l -> x ∈ entries t -> Prefix opt `prefix_of` ukey x.1 ->
       (prefixIsKey opt = true -> ukey x.1 = Prefix opt) -> SinceTs opt <= MaxVersion t -> t ∈ out).
Proof.
  intros Hs Hl Hsort. assert (Forall table_ok l) as Hok by (eapply Forall_impl; [exact Hl|by intros t []]).
  pose proof (fun t => list_elem_of_filter (fun t => picks opt t = true) l t) as Hin. rewrite Forall_forall in Hok.
  eexists. rewrite pickTables_level0, pick_level0_filter by (done || by apply Forall_forall).
  split; [done|]. split; [done|]. split.
  - intros t. rewrite Hin. split; intros [H1 H2]; split; try done.
    + rewrite pickTable_total by (by apply Hok). by rewrite H1.
    + rewrite pickTable_total in H2 by (by apply Hok). by injection H2.
  - intros t x Ht Hx Hp Hk Hv. apply Hin. split; [|done]. by apply (picks_complete opt t x (Hok t Ht)).
Qed.

(** ** Examples *)

(** An iterator over a run that is at hand. *)
Record runIter : Type := mkRun { ru_run : list kv; ru_rev : bool; ru_rest : list kv }.

#[export] Instance runIter_it : YIterator runIter := {
  y_Next r := Some (mkRun (ru_run r) (ru_rev r) (tail (ru_rest r)));
  y_Rewind r := Some (mkRun (ru_run r) (ru_rev r) (ru_run r));
  y_Seek r key := Some (mkRun (ru_run r) (ru_rev r) (run_from (ru_rev r) key (ru_run r)));
  y_Key r := match ru_rest r with x :: _ => x.1 | [] => [] end;
  y_Value r := snd <$> head (ru_rest r);
  y_Valid r := bool_decide (ru_rest r <> [])
}.

Section RunLaws.
Context {rev : bool} {sk : bytes -> Prop}.

Definition run_over (r : runIter) (es : list kv) : Prop :=
  ru_rev r = rev /\ ru_run r = es /\ run_sorted rev es /\ all_ts es.

Definition run_at (r : runIter) (es l : list kv) : Prop :=
  run_over r es /\ ru_rest r = l /\ exists pre, es = pre ++ l.

#[export] Instance runIter_laws : YIteratorLaws runIter rev sk.
Proof.
  refine {| y_over := run_over; y_at := run_at |}.
  - by intros r es l [H _].
  - by intros r es (_ & _ & ? & ?).
  - by intros r es l (_ & _ & ?).
  - intros r es (H1 & H2 & H3). eexists. split; [done|]. split; [done|]. split; [done|]. by exists [].
  - intros r es key (H1 & H2 & H3) _ _. eexists. split; [done|]. split; [done|]. cbn. rewrite H1, H2. split; [done|].
    apply run_from_suffix.
  - intros r es x l (H1 & H2 & pre & E). eexists. split; [done|]. split; [done|]. cbn. rewrite H2. split; [done|].
    exists (pre ++ [x]). by rewrite <- app_assoc.
  - intros r es l (_ & H & _). cbn. by rewrite H.
  - intros r es x l (_ & H & _). cbn. by rewrite H.
Defined.
End RunLaws.

Definition open_run (rev : bool) (l : list kv) : runIter := mkRun (dir rev l) rev [].

Lemma open_run_over rev sk l : kvs_sorted l -> keys_ok l -> y_over (YIteratorLaws := runIter_laws (rev := rev) (sk := sk)) (open_run rev l) (dir rev l).
Proof.
  intros Hs Hk. split; [done|]. split; [done|]. split; [by apply dir_sorted|]. apply Forall_forall. intros x Hx.
  apply dir_elem in Hx. apply key_ok_ts. by apply (proj1 (Forall_forall _ _) Hk).
Qed.

(** Backwards over the database of LevelHandler.v and the transaction of Transaction.v. *)
Definition sx_iopts : IteratorOptions := mkIOpts 1 true true false false false [] 0.
Definition sx_txn : Txn := Transaction.ex_txn 8.
Definition sx_open_table (rev : bool) (t : Table) : runIter := open_run rev (entries t).

Lemma sx_store : store_ok (LA := runIter_laws) (LM := runIter_laws) sx_iopts sx_txn sx_open_table open_run
  false ex_mem [] [ex_level].
Proof.
  assert (Forall (fun x : kv => 8 < len x.1) (ex_mem ++ concat (entries <$> tables ex_level))) as Hk.
  { apply (bool_decide_eq_true_1 (Forall (fun x : kv => 8 < len x.1) (ex_mem ++ concat (entries <$> tables ex_level)))).
    vm_compute. reflexivity. }
  apply Forall_app in Hk as [Hkm Hkt]. assert (run_ok ex_mem) as Hm by (apply ex_run_ok; by vm_compute).
  split.
  - exact Hm.
  - constructor.
  - constructor; [apply ex_level_ok|constructor].
  - constructor; [by vm_compute|constructor].
  - intros h ->%list_elem_of_singleton. apply Forall_forall. intros t Ht.
    pose proof ex_tables_ok as Hok. rewrite Forall_forall in Hok. split; [by apply Hok|].
    cbn in Ht. rewrite !elem_of_cons, elem_of_nil in Ht. destruct Ht as [->|[->|[->|[]]]]; by vm_compute.
  - intros h t ->%list_elem_of_singleton Ht. apply open_run_over.
    + pose proof ex_tables_ok as Hok. rewrite Forall_forall in Hok. by apply Hok.
    + apply Forall_forall. intros x Hx. rewrite Forall_forall in Hkt. apply Hkt, elem_of_entries. by exists t.
  - intros sl Hsl. cbn in Hsl. apply list_elem_of_singleton in Hsl as ->. by apply open_run_over; [apply Hm|].
Qed.

Definition sx_DB : list kv := concat (getMemTables false ex_mem []) ++ all_entries [ex_level].

Lemma sx_db : db_run_ok Transaction.ex_opts no_vlog sx_iopts ∅ sx_txn sx_DB.
Proof.
  split.
  - assert (Forall (fun x : kv => 8 < len x.1 /\ 0 < ParseTs x.1) sx_DB) as H.
    { apply (bool_decide_eq_true_1 (Forall (fun x : kv => 8 < len x.1 /\ 0 < ParseTs x.1) sx_DB)). vm_compute. reflexivity. }
    intros x Hx. by apply (proj1 (Forall_forall _ _) H).
  - apply one_value_check. vm_compute. reflexivity.
  - assert (Forall (fun x : kv => bool_decide (entry_value no_vlog x.2 = None) = false) sx_DB) as H.
    { apply (bool_decide_eq_true_1 (Forall (fun x : kv => bool_decide (entry_value no_vlog x.2 = None) = false) sx_DB)).
      vm_compute. reflexivity. }
    intros x Hx. rewrite Forall_forall in H. specialize (H x Hx). apply bool_decide_eq_false in H.
    by destruct (entry_value no_vlog x.2); [eexists|].
  - set (P := fun x : kv => internal x.1 = bool_decide (badgerPrefix `prefix_of` ukey x.1) /\
      ban Transaction.ex_opts ∅ x.1 = ban Transaction.ex_opts ∅ (ukey x.1)).
    assert (Forall P (own_run true sx_txn ++ sx_DB)) as H.
    { apply (bool_decide_eq_true_1 (Forall P (own_run true sx_txn ++ sx_DB))). vm_compute. reflexivity. }
    intros x Hx. exact (proj1 (Forall_forall _ _) H x Hx).
Qed.

Lemma iterator_agrees_with_get_witness :
  exists it items it' t' t'' fuel,
    txn_NewIterator sx_open_table open_run false false sx_iopts sx_txn vlog_init ex_mem [] [ex_level]
      = Some (it, add_iterators sx_txn 1, incrIteratorCount vlog_init) /\
    iter_Rewind be_decode Transaction.ex_opts no_vlog ∅ (fun _ => 0) fuel it sx_txn = Some (it', t') /\
    collect be_decode Transaction.ex_opts no_vlog ∅ (fun _ => 0) fuel fuel it' t' = Some (items, t'') /\
    (exists i, i ∈ items /\ it_key i = [x61] /\ Item_Value no_vlog i = Some [x02]) /\
    (exists i, i ∈ items /\ it_key i = [x64] /\ Item_Value no_vlog i = Some [x07]) /\
    [x62] ∉ it_key <$> items /\ [x63] ∉ it_key <$> items.
Proof.
  destruct (iterator_agrees_with_get (LA := runIter_laws) (LM := runIter_laws) sx_iopts be_decode Transaction.ex_opts 8 true
    Transaction.ex_writes [[x63]] sx_txn sx_open_table open_run no_vlog ∅ 0 false vlog_init ex_mem [] [ex_level])
    as (it & n & E & H).
  - apply Transaction.ex_txn_run.
  - unfold MaxUint64. lia.
  - apply (bool_decide_eq_true_1 (Forall (fun e => has_bit (emeta e) bitValuePointer = false) Transaction.ex_writes)).
    vm_compute. reflexivity.
  - split; [done|done|done|by right].
  - apply sx_store.
  - apply sx_db.
  - destruct (H (S n) (S n)) as (it' & t' & t'' & items & E1 & E2 & Hk); [lia|lia|].
    exists it, items, it', t', t'', (S n). split; [exact E|]. split; [exact E1|]. split; [exact E2|].
    assert (forall k, k <> [] -> bool_decide (badgerPrefix `prefix_of` k) = false ->
      match (txn_Get be_decode Transaction.ex_opts ∅ (fun key => match db_get false false ex_mem [] [ex_level] key with
          Ok v => Ok v | Err _ => Err ErrClosed | Panic => Panic end) 0 sx_txn k).2 with
      | Ok i => exists i', i' ∈ items /\ same_item no_vlog i i' | Err _ => k ∉ it_key <$> items | Panic => False end) as Hk'.
    { intros k Hne Hp. apply Hk; [done|by apply bool_decide_eq_false in Hp|apply prefix_nil]. }
    split; [|split; [|split]].
    + pose proof (Hk' [x61] ltac:(discriminate) eq_refl) as Ha. vm_compute in Ha. destruct Ha as (i & Hi & E3 & _ & _ & _ & _ & E4).
      exists i. split; [exact Hi|]. split; [exact (eq_sym E3)|exact (eq_sym E4)].
    + pose proof (Hk' [x64] ltac:(discriminate) eq_refl) as Ha. vm_compute in Ha. destruct Ha as (i & Hi & E3 & _ & _ & _ & _ & E4).
      exists i. split; [exact Hi|]. split; [exact (eq_sym E3)|exact (eq_sym E4)].
    + exact (Hk' [x62] ltac:(discriminate) eq_refl).
    + exact (Hk' [x63] ltac:(discriminate) eq_refl).
Defined.

(** A key iterator on "b": only the middle table can have it. *)
Lemma pickTables_exact_witness :
  pickTables (mkIOpts 0 false false true false true [x62] 0) [ex_t1; LevelHandler.ex_t2; LevelHandler.ex_t3] = Some [LevelHandler.ex_t2] /\
  LevelHandler.ex_t2 ∈ [LevelHandler.ex_t2].
Proof.
  destruct (pickTables_exact (mkIOpts 0 false false true false true [x62] 0) [ex_t1; LevelHandler.ex_t2; LevelHandler.ex_t3])
    as (out & E & _ & _ & H).
  - cbn. lia.
  - pose proof ex_tables_ok as Hok. rewrite !Forall_cons in Hok |- *. destruct Hok as (H1 & H2 & H3 & _).
    split; [split; [exact H1|by vm_compute]|]. split; [split; [exact H2|by vm_compute]|]. split; [|constructor].
    split; [exact H3|by vm_compute].
  - apply ex_level_ok. discriminate.
  - assert (pickTables (mkIOpts 0 false false true false true [x62] 0) [ex_t1; LevelHandler.ex_t2; LevelHandler.ex_t3] = Some [LevelHandler.ex_t2])
      as E' by (vm_compute; reflexivity).
    split; [exact E'|]. rewrite E' in E. injection E as <-.
    apply (H LevelHandler.ex_t2 (KeyWithTs [x62] 4, ex_vs x03)).
    + right. by left.
    + by left.
    + exists []. by vm_compute.
    + intros _. by vm_compute.
    + by vm_compute.
Defined.
