(* ===== verification/MergeOp.v ===== *)
(** * MergeOp: values that are merged by a function (merge.go)

    A merge operator writes every value under the same key with a version of its own and folds
    them with a function of the user's when it is read.  A background routine folds what is
    there, too, and writes the result over the newest version with a mark that the older ones
    may go.  Whenever that happens, and whatever flushes and compactions do in between, a read
    gives the fold of all the values, if the function is associative. *)

From S2P Require Import Prelude Keys Codec Oracle Tables TableBuild Iterators LevelHandler Wal Transaction ValueLog Subcompact Rewrite Lookup Iterator Snapshot.

Inductive merge_error : Type := MergeNotFound | errNoMerge.

(** ** The operator *)

Section Operator.
Context (MemHash : bytes -> Z) (topt : txn_opts) (vlog_read : valuePointer -> result vlog_error bytes).
Context (f : bytes -> bytes -> bytes).

(** The loop of [iterateAndMerge]: the number of versions seen, what they came to and the latest. *)
Fixpoint merge_loop {S} `{YIterator S} (banned : gset Z) (now : Z) (fuel steps : nat) (it : Iterator S) (t : Txn)
    (numVersions : Z) (newVal : option bytes) (latest : Z) : option (Z * option bytes * Z * Iterator S * Txn) :=
  match steps with
  | O => None
  | Datatypes.S steps =>
      if iter_Valid it then
        '(item, t) ← iter_Item MemHash it t;
        if IsDeletedOrExpired now item then Some (numVersions, newVal, latest, it, t)
        else
          let numVersions := numVersions + 1 in
          '(newVal, latest) ←
            (if bool_decide (numVersions = 1) then
               val ← ValueCopy vlog_read item (vbytes newVal); Some (val, it_version item)
             else oldVal ← Item_Value vlog_read item; Some (Some (f oldVal (vbytes newVal)), latest));
          if DiscardEarlierVersions item then Some (numVersions, newVal, latest, it, t)
          else
            it ← iter_Next topt vlog_read banned (fun _ => now) fuel it;
            merge_loop banned now fuel steps it t numVersions newVal latest
      else Some (numVersions, newVal, latest, it, t)
  end.

Definition merge_result (numVersions : Z) (newVal : option bytes) (latest : Z) : option bytes * Z * option merge_error :=
  if bool_decide (numVersions = 0) then (None, latest, Some MergeNotFound)
  else if bool_decide (numVersions = 1) then (newVal, latest, Some errNoMerge)
  else (newVal, latest, None).

Definition merge_iopts : IteratorOptions :=
  let d := DefaultIteratorOptions in
  mkIOpts (PrefetchSize d) (PrefetchValues d) (Reverse d) true (InternalAccess d) (prefixIsKey d) (Prefix d) (SinceTs d).

Context {A M : Type} {IA : YIterator A} {IM : YIterator M}.
Context (open_table : bool -> Table -> A) (open_mem : bool -> list kv -> M).

(** [t] is the transaction [NewTransaction] gave; the iterator is closed at the end. *)
Definition iterateAndMerge (closed ReadOnly : bool) (banned : gset Z) (now : Z) (fuel steps : nat) (key : bytes) (t : Txn)
    (vl : valueLog) (mt : list kv) (imm : list (list kv)) (levels : list levelHandler)
    : option (option bytes * Z * option merge_error * Txn * valueLog) :=
  '(it, t, vl) ← NewKeyIterator open_table open_mem closed ReadOnly key merge_iopts t vl mt imm levels;
  '(it, t) ← iter_Rewind MemHash topt vlog_read banned (fun _ => now) fuel it t;
  '(numVersions, newVal, latest, it, t) ← merge_loop banned now fuel steps it t 0 None 0;
  let '(it, t, vl) := iter_Close it t vl in
  Some (merge_result numVersions newVal latest, t, vl).

(** The entry [compact] sends to be written, if any; what becomes of it is only logged. *)
Definition compact_entry (key : bytes) (r : option bytes * Z * option merge_error) : option Entry :=
  match r with
  | (val, version, None) => Some (mkEntry (KeyWithTs key version) val 0 0 0 x00 (z2b bitDiscardEarlierVersions) 0 0)
  | (_, _, Some _) => None
  end.

(** The entry [Add] sets in a transaction. *)
Definition add_entry (key val : bytes) : Entry := withMergeBit (NewEntry key (Some val)).

Definition op_Add (threshold : Z) (banned : gset Z) (t : Txn) (key val : bytes) : result txn_error Txn :=
  SetEntry MemHash topt threshold banned t (add_entry key val).

(** [Get], from what [iterateAndMerge] came to. *)
Definition get_result (r : option bytes * Z * option merge_error) : result merge_error (option bytes) :=
  match r with
  | (existing, _, None) | (existing, _, Some errNoMerge) => Ok existing
  | (_, _, Some MergeNotFound) => Err MergeNotFound
  end.
End Operator.

(** ** What a read should come to *)

(** Older values are merged into newer ones. *)
Definition merge_into (f : bytes -> bytes -> bytes) (acc : bytes) (olds : list bytes) : bytes :=
  foldl (fun acc old => f old acc) acc olds.

Definition merged (f : bytes -> bytes -> bytes) (newest_first : list bytes) : option bytes :=
  match newest_first with [] => None | v :: olds => Some (merge_into f v olds) end.

Definition merge_spec (f : bytes -> bytes -> bytes) (vlog_read : valuePointer -> result vlog_error bytes) (l : list kv)
    : option bytes * Z * option merge_error :=
  match l with
  | [] => (None, 0, Some MergeNotFound)
  | x :: olds =>
      (Some (merge_into f (value_of_kv vlog_read x) (value_of_kv vlog_read <$> olds)), ParseTs x.1,
       match olds with [] => Some errNoMerge | _ => None end)
  end.

(** The store as one run: what the iterators show, the first in the order of precedence winning. *)
Definition level_runs (h : levelHandler) : list (list kv) :=
  if bool_decide (level h = 0) then entries <$> reverse (tables h) else [concat (entries <$> tables h)].

Definition store_run (mems : list (list kv)) (levels : list levelHandler) : list kv :=
  merge_all false (mems ++ concat (level_runs <$> levels)).

(** ** Lemmas: the loop over an iterator *)

Lemma merge_into_cons f acc old olds : merge_into f acc (old :: olds) = merge_into f (f old acc) olds.
Proof. done. Qed.

Section Loop.
Context {S : Type} {sk : bytes -> Prop} {I : YIterator S} {L : YIteratorLaws S false sk}.
Context (MemHash : bytes -> Z) (topt : txn_opts) (vlog_read : valuePointer -> result vlog_error bytes).
Context (f : bytes -> bytes -> bytes) (opt : IteratorOptions) (ts : Z) (banned : gset Z) (now : Z) (es : list kv).
Context (Hdir : Reverse opt = false) (Hready : run_ready (rev := false) topt vlog_read banned es).
Notation clock := (fun _ : bytes => now).
Notation ready := (ready (rev := false) (sk := sk) topt vlog_read opt ts banned clock es).
Notation val_of := (value_of_kv vlog_read).

Lemma item_value x item : x ∈ es -> item_shows vlog_read x item -> Item_Value vlog_read item = Some (val_of x).
Proof using Hready.
  intros Hx. apply item_reads. by apply Hready.
Qed.

Lemma item_copy x item d : x ∈ es -> item_shows vlog_read x item -> ValueCopy vlog_read item d = Some (Some (val_of x)).
Proof using Hready.
  intros Hx Hs. pose proof (item_value x item Hx Hs) as Hv. unfold Item_Value, ValueCopy, SafeCopy in *.
  destruct (it_prefetched item); [by injection Hv as ->|]. by rewrite Hv.
Qed.

(** What the rest of the loop makes of the versions still to count. *)
Definition loop_result (n : Z) (acc : option bytes) (latest : Z) (l : list kv) : option bytes * Z :=
  match l with
  | [] => (acc, latest)
  | x :: olds =>
      if bool_decide (n = 0) then (Some (merge_into f (val_of x) (val_of <$> olds)), ParseTs x.1)
      else (Some (merge_into f (vbytes acc) (val_of <$> l)), latest)
  end.

Lemma merge_loop_ok fuel steps : forall it t total n newVal latest,
  ready it total -> (forall x, x ∈ total -> x ∈ es) -> (length es < fuel)%nat -> (length total < steps)%nat -> 0 <= n ->
  let l := live now (take_while (valid opt) total) in
  exists it' t', merge_loop MemHash topt vlog_read f banned now fuel steps it t n newVal latest
    = Some (n + len l, (loop_result n newVal latest l).1, (loop_result n newVal latest l).2, it', t').
Proof using Hdir Hready.
  induction steps as [|steps IH]; intros it t total n newVal latest Hrd Hin Hf Hs Hn; [lia|]. cbn [merge_loop].
  destruct total as [|z total].
  { rewrite (visit_end _ _ _ _ _ _ _ it Hrd). exists it, t. cbn. by rewrite Z.add_0_r. }
  destruct (iter_visit_ok MemHash topt vlog_read opt ts banned clock es Hdir Hready fuel it z total Hrd Hf)
    as (-> & item & it' & Ei & Hsh & En & Hrd'). pose proof (Hin z ltac:(by left)) as Hz.
  cbn [take_while]. destruct (valid opt z); [|exists it, t; cbn; by rewrite Z.add_0_r].
  rewrite Ei. cbn [mbind option_bind live].
  assert (IsDeletedOrExpired now item = dead now z) as ->
    by (unfold IsDeletedOrExpired, dead; by rewrite (is_meta _ _ _ Hsh), (is_expiresAt _ _ _ Hsh)).
  destruct (dead now z); [eexists it, _; cbn; by rewrite Z.add_0_r|].
  assert (DiscardEarlierVersions item = discards z) as ->
    by (unfold DiscardEarlierVersions, discards; by rewrite (is_meta _ _ _ Hsh)).
  rewrite (item_copy z) by done. rewrite (item_value z) by done. rewrite (is_version _ _ _ Hsh). cbn [mbind option_bind].
  assert (bool_decide (n + 1 = 1) = bool_decide (n = 0)) as -> by (apply bool_decide_ext; lia).
  set (st := if bool_decide (n = 0) then Some (Some (val_of z), ParseTs z.1) else _).
  assert (exists acc lt, st = Some (acc, lt) /\ forall l, loop_result n newVal latest (z :: l) = loop_result (n + 1) acc lt l \/
    l = [] /\ loop_result n newVal latest [z] = (acc, lt)) as (acc & lt & -> & Hl).
  { unfold st. case_bool_decide as E.
    - eexists _, _. split; [done|]. intros l. unfold loop_result. rewrite (bool_decide_eq_true_2 _ E), bool_decide_eq_false_2 by lia.
      destruct l; [by right|by left].
    - eexists _, _. split; [done|]. intros l. unfold loop_result. rewrite (bool_decide_eq_false_2 _ E), bool_decide_eq_false_2 by lia.
      destruct l; [by right|by left]. }
  cbn [mbind option_bind]. destruct (discards z).
  - eexists it, _. destruct (Hl []) as [->|[_ ->]]; done.
  - rewrite En. cbn [mbind option_bind].
    destruct (IH it' (addReadKey MemHash t (ukey z.1)) total (n + 1) acc lt Hrd') as (it2 & t2 & ->); [|done|simpl in Hs; lia|lia|].
    { intros x Hx. apply Hin. by right. }
    exists it2, t2. set (l := live now _). assert (n + 1 + len l = n + len (z :: l)) as -> by (unfold len; simpl; lia).
    destruct (Hl l) as [->|[-> ->]]; done.
Qed.
End Loop.

(** ** Lemmas: the versions of the key *)

Definition key_iopts (key : bytes) : IteratorOptions :=
  mkIOpts (PrefetchSize merge_iopts) (PrefetchValues merge_iopts) (Reverse merge_iopts) true (InternalAccess merge_iopts)
    true key (SinceTs merge_iopts).

(** The key is neither internal nor banned. *)
Definition key_free (topt : txn_opts) (banned : gset Z) (key : bytes) (l : list kv) : Prop :=
  forall x, x ∈ l -> ukey x.1 = key -> internal x.1 = false /\ ban topt banned x.1 = false.

Section Versions.
Context (topt : txn_opts) (key : bytes) (ts : Z) (banned : gset Z) (clock : bytes -> Z) (es : list kv).
Notation opt := (key_iopts key).
Context (Hk : key <> []) (Hsorted : run_sorted false es) (Hkeys : keys_ok es) (Hts : 0 <= ts <= MaxUint64).
Context (Hfree : key_free topt banned key es).

Lemma key_shown x : x ∈ es -> ukey x.1 = key -> shown topt opt ts banned clock es x = true <-> ParseTs x.1 <= ts.
Proof using Hfree.
  intros Hx E. destruct (Hfree x Hx E) as [H1 H2]. unfold shown, Iterator.in_window. rewrite H1, H2. cbn.
  rewrite orb_false_r, !andb_true_r, negb_true_iff, bool_decide_eq_false. lia.
Qed.

Lemma versions_visible : visible topt opt ts banned clock [] es = versions key ts es.
Proof using Hk Hsorted Hkeys Hts Hfree.
  unfold visible. set (shw := filter _ _).
  assert (forall x, x ∈ shw <-> x ∈ take_while (has_prefix opt) (sought opt ts [] es) /\ shown topt opt ts banned clock es x = true) as Hshw
    by (intros x; unfold shw; rewrite list_elem_of_filter; tauto).
  destruct (sought_suffix opt ts es eq_refl []) as [pre Epre].
  assert (run_sorted false (sought opt ts [] es)) as Hso by (rewrite Epre in Hsorted; by apply run_sorted_app in Hsorted as (_ & ? & _)).
  destruct (take_while_prefix (has_prefix opt) (sought opt ts [] es)) as [post Epost].
  assert (run_sorted false shw) as Hsh.
  { apply filter_sorted. rewrite Epost in Hso. by apply run_sorted_app in Hso as (? & _). }
  assert (forall x, x ∈ shw -> x ∈ es /\ key `prefix_of` ukey x.1) as Hin.
  { intros x [Hx _]%Hshw. apply take_while_elem in Hx as [Hx Hp]. split; [rewrite Epre; apply elem_of_app; by right|].
    unfold has_prefix in Hp. cbn in Hp. rewrite bool_decide_eq_true_2 in Hp by (unfold len; destruct key; [done|simpl; lia]).
    by apply bool_decide_eq_true in Hp. }
  apply (sorted_ext false).
  - destruct (take_while_prefix (valid opt) shw) as [p E]. rewrite E in Hsh. by apply run_sorted_app in Hsh as (? & _).
  - by apply filter_sorted.
  - intros x. unfold versions. rewrite list_elem_of_filter. split.
    + intros [Hx Hv]%take_while_elem. apply bool_decide_eq_true in Hv. cbn in Hv. destruct (Hin x Hx) as [Hxe _].
      apply Hshw in Hx as [_ Hx]. apply key_shown in Hx; done.
    + intros [[Ek Hv] Hx]. assert (x ∈ shw) as Hxs.
      { apply Hshw. split; [|by apply key_shown]. apply rewound_elem; try done; [by left|]. by rewrite Ek. }
      apply list_elem_of_split in Hxs as (l1 & l2 & El). rewrite El. apply take_while_before; [|by apply bool_decide_eq_true_2].
      intros y Hy. apply bool_decide_eq_true_2. cbn. destruct (Hin y) as [Hye Hp]; [rewrite El; apply elem_of_app; by left|].
      apply (cmp_le_antisym bytes_Compare); [|by apply bytes_Compare_prefix]. rewrite <- Ek. apply compareKeys_ukey.
      rewrite El in Hsh. apply run_sorted_app in Hsh as (_ & _ & Hc). rewrite (Hc y x); [done|done|by left].
Qed.
End Versions.

(** ** Lemmas: merging and choosing *)

Section Choose.
Context (P : kv -> Prop) `{forall x, Decision (P x)} (HP : forall x y : kv, x.1 = y.1 -> P x <-> P y).

Lemma filter_merge l1 l2 : run_sorted false l1 -> run_sorted false l2 ->
  filter P (merge_runs false l1 l2) = merge_runs false (filter P l1) (filter P l2).
Proof using HP.
  intros H1 H2. pose proof (filter_sorted P l1 H1) as F1. pose proof (filter_sorted P l2 H2) as F2. apply (sorted_ext false).
  - apply filter_sorted. by apply (merge_sorted false).
  - by apply (merge_sorted false).
  - intros x. rewrite list_elem_of_filter, !(merge_elem false), !list_elem_of_filter by done. split.
    + intros [Hx [Hl|[Hl Hn]]]; [by left|right]. split; [done|]. intros y [_ Hy]%list_elem_of_filter. by apply Hn.
    + intros [[Hx Hl]|[[Hx Hl] Hn]]; [tauto|]. split; [done|]. right. split; [done|]. intros y Hy E. apply (Hn y); [|done].
      apply list_elem_of_filter. split; [|done]. by apply (HP y x).
Qed.

Lemma filter_merge_all ess : Forall (run_sorted false) ess -> filter P (merge_all false ess) = merge_all false (filter P <$> ess).
Proof using HP.
  induction 1 as [|l ess Hl Hs IH]; [done|]. rewrite fmap_cons. cbn [merge_all foldr]. unfold merge_all in IH. rewrite <- IH.
  apply filter_merge; [done|]. by apply merge_all_sorted.
Qed.
End Choose.

Lemma merge_all_choose {X} (g : X -> list kv) (q : X -> bool) (l : list X) rest :
  (forall x, x ∈ l -> q x = false -> g x = []) ->
  merge_all false ((g <$> filter (fun x => q x = true) l) ++ rest) = merge_all false ((g <$> l) ++ rest).
Proof.
  induction l as [|x l IH]; intros Hq; [done|]. rewrite filter_cons. specialize (IH (fun y Hy => Hq y ltac:(by right))).
  unfold merge_all in *. case_decide as E; rewrite !fmap_cons; cbn [app foldr]; rewrite IH; [done|].
  rewrite (Hq x); [done|by left|]. by destruct (q x).
Qed.

Lemma concat_choose {X} (g : X -> list kv) (q : X -> bool) (l : list X) :
  (forall x, x ∈ l -> q x = false -> g x = []) -> concat (g <$> filter (fun x => q x = true) l) = concat (g <$> l).
Proof.
  induction l as [|x l IH]; intros Hq; [done|]. rewrite filter_cons. specialize (IH (fun y Hy => Hq y ltac:(by right))).
  case_decide as E; rewrite !fmap_cons; cbn [concat]; rewrite IH; [done|].
  rewrite (Hq x); [done|by left|]. by destruct (q x).
Qed.

(** ** Lemmas: the store as one run *)

Lemma filter_concat (P : kv -> Prop) `{forall x, Decision (P x)} {X} (g : X -> list kv) (l : list X) :
  filter P (concat (g <$> l)) = concat ((fun x => filter P (g x)) <$> l).
Proof. induction l as [|x l IH]; [done|]. rewrite !fmap_cons. cbn [concat]. by rewrite filter_app, IH. Qed.

Lemma run_ok_sorted l : run_ok l -> run_sorted false l.
Proof. by intros [_ H]. Qed.

Lemma tables_sorted l : Forall table_ok l -> StronglySorted table_before l -> run_sorted false (concat (entries <$> l)).
Proof. apply tables_concat_sorted. Qed.

Lemma level_runs_sorted h : level_ok h -> Forall (run_sorted false) (level_runs h).
Proof.
  intros [Hok Hs _ _]. unfold level_runs. case_bool_decide as E.
  - apply Forall_fmap, Forall_forall. intros t Ht. rewrite elem_of_reverse in Ht. apply run_ok_sorted.
    by destruct (proj1 (Forall_forall _ _) Hok t Ht).
  - constructor; [|constructor]. by apply tables_sorted; [|apply Hs].
Qed.

Lemma filter_table_before (q : Table -> bool) l : StronglySorted table_before l -> StronglySorted table_before (filter (fun t => q t = true) l).
Proof.
  induction 1 as [|t l Hs IH Ht]; [constructor|]. rewrite filter_cons. case_decide; [|done].
  constructor; [done|]. apply Forall_forall. intros t' [_ Ht']%list_elem_of_filter. by apply (proj1 (Forall_forall _ _) Ht).
Qed.

Lemma picked_runs_sorted opt h : Reverse opt = false -> level_ok h -> Forall (run_sorted false) (picked_runs opt h).
Proof.
  intros Er [Hok Hs _ _]. unfold picked_runs. rewrite Er.
  assert (Forall table_ok (filter (fun t => picks opt t = true) (tables h))) as Hf.
  { apply Forall_forall. intros t [_ Ht]%list_elem_of_filter. by apply (proj1 (Forall_forall _ _) Hok). }
  case_bool_decide as E; [|case_bool_decide; [constructor|]].
  - apply Forall_fmap, Forall_forall. intros t Ht. rewrite elem_of_reverse in Ht. apply run_ok_sorted.
    by destruct (proj1 (Forall_forall _ _) Hf t Ht).
  - constructor; [|constructor]. apply tables_sorted; [done|]. by apply filter_table_before, Hs.
Qed.

Section Store.
Context (key : bytes) (ts : Z).
Notation opt := (key_iopts key).
Notation P := (fun x : kv => ukey x.1 = key /\ ParseTs x.1 <= ts).

Lemma P_key x y : x.1 = y.1 -> P x <-> P y.
Proof. intros E. cbn. by rewrite E. Qed.

Lemma unpicked_nothing h t : level_ok h -> Forall sized (tables h) -> t ∈ tables h -> picks opt t = false -> filter P (entries t) = [].
Proof.
  intros [Hok _ _ _] Hsz Ht Hp. rewrite Forall_forall in Hok, Hsz. destruct (filter P (entries t)) as [|x l] eqn:E; [done|exfalso].
  assert (x ∈ filter P (entries t)) as Hx by (rewrite E; by left). apply list_elem_of_filter in Hx as [[Ek _] Hx].
  rewrite (picks_complete opt t x) in Hp; [done|by apply Hok|done|by rewrite Ek|done|]. cbn. by apply Hsz.
Qed.

Lemma level_choice h rest : level_ok h -> Forall sized (tables h) ->
  merge_all false ((filter P <$> picked_runs opt h) ++ rest) = merge_all false ((filter P <$> level_runs h) ++ rest).
Proof.
  intros Hok Hsz. pose proof (fun t => unpicked_nothing h t Hok Hsz) as Hn. unfold picked_runs, level_runs.
  case_bool_decide as E.
  - rewrite <- filter_reverse, <- !list_fmap_compose.
    apply (merge_all_choose (fun t => filter P (entries t)) (picks opt) (reverse (tables h)) rest).
    intros t Ht. rewrite elem_of_reverse in Ht. by apply Hn.
  - assert (filter P (concat (entries <$> filter (fun t => picks opt t = true) (tables h))) = filter P (concat (entries <$> tables h))) as Ef.
    { rewrite !filter_concat. by apply concat_choose. }
    case_bool_decide as Ez; cbn [fmap list_fmap app]; cbn [dir Reverse key_iopts merge_iopts DefaultIteratorOptions].
    + apply nil_length_inv in Ez. rewrite Ez in Ef. rewrite <- Ef. done.
    + by rewrite Ef.
Qed.

Lemma levels_choice levels rest : Forall level_ok levels -> (forall h, h ∈ levels -> Forall sized (tables h)) ->
  merge_all false ((filter P <$> concat (picked_runs opt <$> levels)) ++ rest)
  = merge_all false ((filter P <$> concat (level_runs <$> levels)) ++ rest).
Proof.
  induction 1 as [|h levels Hh _ IH]; intros Hsz; [done|]. rewrite !fmap_cons. cbn [concat]. rewrite !fmap_app, <- !app_assoc.
  rewrite level_choice by (done || apply Hsz; by left). specialize (IH (fun h' H => Hsz h' ltac:(by right))).
  induction (filter P <$> level_runs h) as [|l ls IH2]; [done|]. cbn [app]. unfold merge_all in *. cbn [foldr]. by rewrite IH2.
Qed.

Context (mems : list (list kv)) (levels : list levelHandler).
Record well : Prop := {
  we_mems : Forall run_ok mems;
  we_levels : Forall level_ok levels;
  we_sized : forall h, h ∈ levels -> Forall sized (tables h)
}.

Lemma well_sorted : well -> Forall (run_sorted false) (mems ++ concat (level_runs <$> levels)).
Proof.
  intros [Hm Hl _]. apply Forall_app. split; [eapply Forall_impl; [exact Hm|by apply run_ok_sorted]|].
  induction Hl as [|h l Hh Hl IH]; [constructor|]. rewrite fmap_cons. cbn [concat]. apply Forall_app. split; [by apply level_runs_sorted|done].
Qed.

Lemma store_versions own : well -> own = [] \/ own = [[]] ->
  versions key ts (merge_all false ((own ++ mems) ++ concat (picked_runs opt <$> levels)))
  = versions key ts (store_run mems levels).
Proof.
  intros Hw Ho. pose proof (well_sorted Hw) as Hs. destruct Hw as [Hm Hl Hsz]. unfold versions, store_run.
  assert (merge_all false ((own ++ mems) ++ concat (picked_runs opt <$> levels))
    = merge_all false (mems ++ concat (picked_runs opt <$> levels))) as -> by (by destruct Ho as [->| ->]).
  rewrite !(filter_merge_all P P_key); [|done|].
  - rewrite !fmap_app. pose proof (levels_choice levels [] Hl Hsz) as Hc. rewrite !app_nil_r in Hc.
    induction (filter P <$> mems) as [|l ls IH]; [done|]. cbn [app]. unfold merge_all in *. cbn [foldr]. by rewrite IH.
  - apply Forall_app. apply Forall_app in Hs as [Hs _]. split; [done|]. clear -Hl.
    induction Hl as [|h l Hh Hl IH]; [constructor|]. rewrite fmap_cons. cbn [concat]. apply Forall_app.
    split; [by apply picked_runs_sorted|done].
Qed.
End Store.

(** ** Lemmas: the whole of [iterateAndMerge] *)

Section Whole.
Context {A M : Type} {IA : YIterator A} {IM : YIterator M} (ts : Z).
Context {LA : YIteratorLaws A false (txn_seek false ts)} {LM : YIteratorLaws M false (txn_seek false ts)}.
Context (open_table : bool -> Table -> A) (open_mem : bool -> list kv -> M).
Context (MemHash : bytes -> Z) (topt : txn_opts) (vlog_read : valuePointer -> result vlog_error bytes).
Context (f : bytes -> bytes -> bytes) (banned : gset Z) (now : Z) (key : bytes).
Context (mt : list kv) (imm : list (list kv)) (levels : list levelHandler).
Notation opt := (key_iopts key).
Notation t0 := (new_txn ts false).
Notation mems := (getMemTables false mt imm).
Notation DB := (concat mems ++ all_entries levels).

(** The store can be read: it is well formed, has iterators, and values behind its pointers. *)
Record readable_store : Prop := {
  rs_store : store_ok (LA := LA) (LM := LM) opt t0 open_table open_mem false mt imm levels;
  rs_keys : forall x, x ∈ DB -> key_ok x.1;
  rs_read : forall x, x ∈ DB -> is_Some (entry_value vlog_read x.2);
  rs_free : key_free topt banned key DB
}.

Lemma readonly_own : 0 < ts <= MaxUint64 -> own_ok t0.
Proof. intros H. split; try done. Qed.

Lemma store_well : readable_store -> well mems levels.
Proof.
  intros [Hs _ _ _]. split; [|apply Hs..]. unfold getMemTables. constructor; [apply Hs|].
  apply Forall_forall. intros l Hl. rewrite elem_of_reverse in Hl. by apply (proj1 (Forall_forall _ _) (sr_imm _ _ _ _ _ _ _ _ Hs)).
Qed.

Lemma iterateAndMerge_ok vl : 0 < ts <= MaxUint64 -> key <> [] -> readable_store ->
  forall fuel steps, (length DB < fuel)%nat -> (length DB < steps)%nat -> exists t' vl',
    iterateAndMerge MemHash topt vlog_read f open_table open_mem false false banned now fuel steps key t0 vl mt imm levels
      = Some (merge_spec f vlog_read (live now (versions key ts (store_run mems levels))), t', vl').
Proof.
  intros Hts Hk Hr fuel steps Hfd Hsd. pose proof (readonly_own Hts) as Hown.
  destruct (NewIterator_made opt t0 open_table open_mem false mt imm levels (rs_store Hr) Hown eq_refl vl)
    as (it & own & E & Hm & Ho & Hit). specialize (Ho eq_refl). unfold source_runs in *. cbn [dir Reverse key_iopts merge_iopts DefaultIteratorOptions] in *.
  rewrite list_fmap_id in *. rewrite <- (store_versions key ts mems levels own (store_well Hr) Ho).
  set (es := merge_all false _) in *.
  assert (forall x, x ∈ es -> x ∈ DB) as Hin.
  { intros x Hx. apply (mg_sound _ _ _ _ Hm), elem_of_app in Hx as [Hx|Hx]; [|done]. by apply elem_of_nil in Hx. }
  assert (length es <= length DB)%nat as Hlen by (apply submseteq_length, NoDup_submseteq; [eapply sorted_nodup, Hm|done]).
  assert (length es < fuel)%nat as Hf by lia. assert (length es < steps)%nat as Hs by lia. clear Hfd Hsd Hlen.
  unfold iterateAndMerge, NewKeyIterator. rewrite bool_decide_eq_false_2 by done.
  change (mkIOpts _ _ _ _ _ true key _) with opt. rewrite E. cbn [mbind option_bind]. clear E.
  assert (run_ready (rev := false) topt vlog_read banned es) as Hready.
  { split; [|apply Forall_forall|done]; intros x Hx; apply Hr; auto. }
  assert (key_free topt banned key es) as Hfree by (intros x Hx; apply (rs_free Hr); auto).
  destruct Hit as [(E1 & E2 & E3)|Hit].
  - unfold iter_Rewind, iter_Seek. rewrite E1. cbn [mbind option_bind]. destruct steps as [|steps]; [lia|].
    cbn [merge_loop]. unfold iter_Valid. rewrite E2. cbn [mbind option_bind]. destruct (iter_Close _ _ _) as [[it' t'] vl'].
    exists t', vl'. rewrite E3. done.
  - destruct (Seek_ok MemHash topt vlog_read opt ts banned (fun _ => now) es eq_refl Hready fuel it (add_iterators t0 1) [] Hit)
      as (it' & E & Hrd); [right; by exists key|lia|done|].
    unfold iter_Rewind. rewrite E, (bool_decide_eq_false_2 (0 < len [])) by done. cbn [mbind option_bind]. clear E.
    destruct (merge_loop_ok MemHash topt vlog_read f opt ts banned now es eq_refl Hready fuel steps it' (add_iterators t0 1) _ 0 None 0 Hrd)
      as (it2 & t2 & ->); [| done | | done|].
    { intros x [_ Hx]%list_elem_of_filter. apply take_while_elem in Hx as [Hx _].
      destruct (sought_suffix opt ts es eq_refl []) as [pre ->]. apply elem_of_app. by right. }
    { eapply Nat.le_lt_trans; [apply length_filter|]. destruct (sought_suffix opt ts es eq_refl []) as [pre E2].
      apply (f_equal length) in E2. rewrite length_app in E2.
      destruct (take_while_prefix (has_prefix opt) (sought opt ts [] es)) as [post E3].
      apply (f_equal length) in E3. rewrite length_app in E3. lia. }
    change (take_while (valid opt) (filter _ _)) with (visible topt opt ts banned (fun _ => now) [] es).
    rewrite (versions_visible topt key ts banned (fun _ => now) es Hk (mg_sorted _ _ _ _ Hm) (rr_keys _ _ _ _ Hready) ltac:(lia) Hfree).
    cbn [mbind option_bind]. destruct (iter_Close _ _ _) as [[it3 t3] vl3]. exists t3, vl3. f_equal. f_equal. f_equal.
    destruct (live now _) as [|x olds]; [done|]. unfold merge_result, len. cbn [loop_result fst snd].
    rewrite !bool_decide_eq_false_2 by (simpl; lia). destruct olds as [|y olds]; [done|]. rewrite bool_decide_eq_false_2 by (simpl; lia). done.
Qed.
End Whole.

(** ** Lemmas: folding values and folds of values *)

Section Folds.
Context (f : bytes -> bytes -> bytes) (Hassoc : forall a b c, f a (f b c) = f (f a b) c).
Context (vlog_read : valuePointer -> result vlog_error bytes).
Notation val_of := (value_of_kv vlog_read).

Lemma merge_into_assoc olds : forall v acc, f (merge_into f v olds) acc = merge_into f (f v acc) olds.
Proof using Hassoc.
  induction olds as [|o olds IH]; intros v acc; [done|]. rewrite !merge_into_cons, IH. by rewrite Hassoc.
Qed.

(** A version is the value that was added with its timestamp, or a fold of all up to it. *)
Definition good_version (adds : list (Z * bytes)) (x : kv) : Prop :=
  has_bit (Meta x.2) bitDelete = false /\ ExpiresAt x.2 = 0 /\
  exists l1 v l2, adds = l1 ++ (ParseTs x.1, v) :: l2 /\
    val_of x = if discards x then merge_into f v l2.*2 else v.

(** Every value added is there, or a fold above it is. *)
Definition covered (x : kv) (d t : Z) : Prop := ParseTs x.1 = t \/ discards x = true /\ t < ParseTs x.1 <= d.

Definition newer_first (adds : list (Z * bytes)) : Prop := StronglySorted (fun a b => b.1 < a.1) adds.

Definition accounts (d : Z) (adds : list (Z * bytes)) (vers : list kv) : Prop :=
  (forall x, x ∈ vers -> good_version adds x) /\
  (forall a, a ∈ adds -> exists x, x ∈ vers /\ covered x d a.1) /\
  newer_first adds /\ StronglySorted (fun x y : kv => ParseTs y.1 < ParseTs x.1) vers.

Lemma good_in adds x : good_version adds x -> exists v, (ParseTs x.1, v) ∈ adds.
Proof. intros (_ & _ & l1 & v & l2 & -> & _). exists v. apply elem_of_app. right. by left. Qed.

Lemma accounts_head d t v adds vers : accounts d ((t, v) :: adds) vers ->
  exists x vers', vers = x :: vers' /\ ParseTs x.1 = t /\ (forall now, dead now x = false) /\
    if discards x then val_of x = merge_into f v adds.*2 else val_of x = v /\ accounts d adds vers'.
Proof using Type.
  intros (Hg & Hc & Hsa & Hsv). apply StronglySorted_inv in Hsa as [Hsa Ht]. rewrite Forall_forall in Ht.
  assert (forall a, a ∈ (t, v) :: adds -> a.1 <= t) as Hle.
  { intros a [->|Ha]%elem_of_cons; [done|]. specialize (Ht a Ha). cbn in Ht. lia. }
  destruct vers as [|x vers'].
  { destruct (Hc (t, v)) as (x & Hx & _); [by left|]. by apply elem_of_nil in Hx. }
  apply StronglySorted_inv in Hsv as [Hsv Hx]. rewrite Forall_forall in Hx.
  assert (ParseTs x.1 = t) as Ex.
  { destruct (good_in _ x (Hg x ltac:(by left))) as [w Hw]. specialize (Hle _ Hw). cbn in Hle.
    destruct (Hc (t, v)) as (y & Hy & Hcov); [by left|]. cbn in Hcov.
    assert (ParseTs y.1 <= ParseTs x.1) by (apply elem_of_cons in Hy as [->|Hy]; [done|]; specialize (Hx y Hy); lia).
    destruct Hcov as [E|[_ E]]; lia. }
  exists x, vers'. split; [done|]. split; [done|]. destruct (Hg x ltac:(by left)) as (Hd & He & l1 & w & l2 & El & Ev). split.
  { intros now. unfold dead, isDeletedOrExpired. by rewrite Hd, He. }
  assert (l1 = []) as ->.
  { destruct l1 as [|a l1]; [done|]. injection El as <- El. assert ((ParseTs x.1, w) ∈ adds) as Hin
      by (rewrite El; apply elem_of_app; right; by left). specialize (Ht _ Hin). cbn in Ht. lia. }
  injection El as -> -> ->. destruct (discards x) eqn:Edx; [done|]. split; [done|]. split_and!; [| |done|done].
  - intros y Hy. destruct (Hg y ltac:(by right)) as (H1 & H2 & l1 & u & l2' & El & Eu). split; [done|]. split; [done|].
    specialize (Hx y Hy). destruct l1 as [|a l1]; [injection El as E1 _; lia|]. injection El as _ ->. by exists l1, u, l2'.
  - intros a Ha. destruct (Hc a) as (y & Hy & Hcov); [by right|]. specialize (Ht a Ha). cbn in Ht.
    apply elem_of_cons in Hy as [->|Hy]; [|by exists y]. exfalso. destruct Hcov as [E|[E _]]; [lia|congruence].
Qed.

Lemma live_fold now d adds : forall vers acc, accounts d adds vers ->
  merge_into f acc (val_of <$> live now vers) = merge_into f acc adds.*2.
Proof using Hassoc.
  induction adds as [|[t v] adds IH]; intros vers acc Ha.
  - destruct vers as [|x vers]; [done|]. destruct Ha as (Hg & _). destruct (good_in [] x (Hg x ltac:(by left))) as [w Hw].
    by apply elem_of_nil in Hw.
  - destruct (accounts_head _ _ _ _ _ Ha) as (x & vers' & -> & _ & Hd & Hx). cbn [live]. rewrite Hd.
    destruct (discards x).
    + rewrite !fmap_cons, !merge_into_cons. change (f (value_of_kv vlog_read x) acc = merge_into f (f v acc) adds.*2).
      rewrite Hx. apply merge_into_assoc.
    + destruct Hx as [Ev Hx]. rewrite !fmap_cons, !merge_into_cons, Ev. by apply IH.
Qed.

(** What a read comes to. *)
Lemma spec_of_adds now d adds vers : accounts d adds vers ->
  exists e, merge_spec f vlog_read (live now vers)
    = match adds with
      | [] => (None, 0, Some MergeNotFound)
      | (t, v) :: olds => (Some (merge_into f v olds.*2), t, e)
      end /\ (e = None \/ e = Some errNoMerge).
Proof using Hassoc.
  intros Ha. destruct adds as [|[t v] adds].
  - exists None. split; [|by left]. destruct vers as [|x vers]; [done|]. destruct Ha as (Hg & _).
    destruct (good_in [] x (Hg x ltac:(by left))) as [w Hw]. by apply elem_of_nil in Hw.
  - destruct (accounts_head _ _ _ _ _ Ha) as (x & vers' & -> & Et & Hd & Hx). cbn [live]. rewrite Hd. destruct (discards x).
    + exists (Some errNoMerge). split; [|by right]. cbn. by rewrite Hx, Et.
    + destruct Hx as [Ev Hx]. cbn [merge_spec]. rewrite Et, Ev, (live_fold now d adds vers' v Hx).
      eexists. split; [done|]. destruct (live now vers'); [by right|by left].
Qed.
End Folds.

(** ** Histories of a key *)

(** What is written for an entry, inline or in the value log, shows the entry. *)
Record writes (vlog_read : valuePointer -> result vlog_error bytes) (e : Entry) (vs : ValueStruct) : Prop := {
  wr_value : entry_value vlog_read (decoded vs) = Some (vbytes (eValue e));
  wr_delete : has_bit (Meta vs) bitDelete = has_bit (emeta e) bitDelete;
  wr_discard : has_bit (Meta vs) bitDiscardEarlierVersions = has_bit (emeta e) bitDiscardEarlierVersions;
  wr_expires : ExpiresAt vs = eExpiresAt e
}.

(** The store; the timestamp up to which compactions may drop what a version discards; the entries
    the background routine sent to be written; the values added, the newest first. *)
Record mstate : Type := mkMS {
  ms_mt : list kv;
  ms_imm : list (list kv);
  ms_levels : list levelHandler;
  ms_discard : Z;
  ms_sent : list Entry;
  ms_added : list (Z * bytes)
}.

Definition ms_run (s : mstate) : list kv := store_run (getMemTables false (ms_mt s) (ms_imm s)) (ms_levels s).
Definition ms_well (s : mstate) : Prop := well (getMemTables false (ms_mt s) (ms_imm s)) (ms_levels s).
Definition ms_size (s : mstate) : nat :=
  length (concat (getMemTables false (ms_mt s) (ms_imm s)) ++ all_entries (ms_levels s)).

Definition write_mt (s : mstate) (key : bytes) (vs : ValueStruct) : mstate :=
  mkMS (sl_put (ms_mt s) key vs) (ms_imm s) (ms_levels s) (ms_discard s) (ms_sent s) (ms_added s).
Definition note_added (s : mstate) (a : Z * bytes) : mstate :=
  mkMS (ms_mt s) (ms_imm s) (ms_levels s) (ms_discard s) (ms_sent s) (a :: ms_added s).
Definition note_sent (s : mstate) (e : option Entry) : mstate :=
  mkMS (ms_mt s) (ms_imm s) (ms_levels s) (ms_discard s) (option_list e ++ ms_sent s) (ms_added s).

(** *** Writing into the memtable *)

Lemma well_write s k vs : ms_well s -> has_ts k -> ms_well (write_mt s k vs).
Proof.
  intros [Hm Hl Hs] Hk. split; [|done|done]. unfold getMemTables in *. cbn [ms_mt write_mt] in *. apply Forall_cons in Hm as [Hmt Hm].
  constructor; [by apply run_ok_put|done].
Qed.

Lemma run_write s k vs x : ms_well s -> has_ts k ->
  x ∈ ms_run (write_mt s k vs) <-> x = (k, decoded vs) \/ x ∈ ms_run s /\ x.1 <> k.
Proof.
  intros Hw Hk. pose proof (well_sorted _ _ (well_write s k vs Hw Hk)) as Hs'. pose proof (well_sorted _ _ Hw) as Hs.
  assert (run_ok (ms_mt s)) as Hmt by (destruct Hw as [Hm _ _]; by apply Forall_cons in Hm as [? _]).
  unfold ms_run, store_run. cbn [getMemTables app merge_all foldr] in *. apply Forall_cons in Hs as [Hs1 Hs2].
  apply Forall_cons in Hs' as [Hs1' _]. cbn [ms_mt ms_imm ms_levels write_mt] in *.
  set (rest := foldr (merge_runs false) [] _). assert (run_sorted false rest) as Hr by (by apply merge_all_sorted).
  rewrite !(merge_elem false), (sl_put_in _ _ _ _ Hmt) by done. setoid_rewrite (sl_put_in _ k vs _ Hmt). split.
  - intros [[->|[Hx Hn]]|[Hx Hn]]; [by left|by right; split; [left|]|]. right.
    assert (x.1 <> k) as Hxk by (intros E; apply (Hn (k, decoded vs)); [by left|done]).
    split; [|done]. right. split; [done|]. intros y Hy E. apply (Hn y); [|done]. right. split; [done|congruence].
  - intros [->|[[Hx|[Hx Hn]] Hk']]; [by left; left|by left; right|]. right. split; [done|].
    intros y [->|[Hy _]]; [cbn; congruence|by apply Hn].
Qed.
Section History.
Context {A M : Type} {IA : YIterator A} {IM : YIterator M}.
Context {LA : forall ts, YIteratorLaws A false (txn_seek false ts)} {LM : forall ts, YIteratorLaws M false (txn_seek false ts)}.
Context (open_table : bool -> Table -> A) (open_mem : bool -> list kv -> M).
Context (MemHash : bytes -> Z) (topt : txn_opts) (vlog_read : valuePointer -> result vlog_error bytes).
Context (f : bytes -> bytes -> bytes) (banned : gset Z) (key : bytes).

Definition ms_read (ts now : Z) (fuel steps : nat) (vl : valueLog) (s : mstate)
    : option (option bytes * Z * option merge_error * Txn * valueLog) :=
  iterateAndMerge MemHash topt vlog_read f open_table open_mem false false banned now fuel steps key (new_txn ts false)
    vl (ms_mt s) (ms_imm s) (ms_levels s).

Definition ms_readable (ts : Z) (s : mstate) : Prop :=
  0 < ts <= MaxUint64 /\ ms_discard s <= ts /\
  readable_store (LA := LA ts) (LM := LM ts) ts open_table open_mem topt vlog_read banned key (ms_mt s) (ms_imm s) (ms_levels s).

(** An [Add] commits above all there is; the background routine folds what a snapshot shows; what
    it sent is written any time later, once or again after a crash, or never; anything else
    happens to the store — other keys, flushes, compactions, which drop versions of the key only
    below one that discards them, up to a timestamp no reader is below. *)
Inductive mstep : mstate -> mstate -> Prop :=
  | ms_add s cts v vs : Forall (fun a => a.1 < cts) (ms_added s) -> ms_discard s < cts -> 0 < cts <= MaxUint64 ->
      writes vlog_read (add_entry key v) vs ->
      mstep s (note_added (write_mt s (KeyWithTs key cts) vs) (cts, v))
  | ms_compact s ts now fuel steps vl r t vl' : ms_readable ts s -> (ms_size s < fuel)%nat -> (ms_size s < steps)%nat ->
      ms_read ts now fuel steps vl s = Some (r, t, vl') ->
      mstep s (note_sent s (compact_entry key r))
  | ms_written s e vs : e ∈ ms_sent s -> writes vlog_read e vs ->
      mstep s (write_mt s (eKey e) vs)
  | ms_reorganised s mt imm levels d : let s' := mkMS mt imm levels d (ms_sent s) (ms_added s) in
      ms_well s' -> ms_discard s <= d ->
      (forall x, x ∈ ms_run s' -> ukey x.1 = key -> x ∈ ms_run s) ->
      (forall x, x ∈ ms_run s -> ukey x.1 = key -> x ∈ ms_run s' \/
         exists y, y ∈ ms_run s' /\ ukey y.1 = key /\ discards y = true /\ ParseTs x.1 < ParseTs y.1 <= d) ->
      mstep s s'.

(** The key has not been written yet. *)
Definition ms_init (s : mstate) : Prop :=
  ms_well s /\ ms_sent s = [] /\ ms_added s = [] /\ forall x, x ∈ ms_run s -> ukey x.1 <> key.

Definition ms_reach (s : mstate) : Prop := exists s0, ms_init s0 /\ rtc mstep s0 s.

(** *** The invariant *)

Definition sent_ok (adds : list (Z * bytes)) (e : Entry) : Prop :=
  emeta e = z2b bitDiscardEarlierVersions /\ eExpiresAt e = 0 /\
  exists l1 t v l2, adds = l1 ++ (t, v) :: l2 /\ eKey e = KeyWithTs key t /\ vbytes (eValue e) = merge_into f v l2.*2.

Record minv (s : mstate) : Prop := {
  mi_well : ms_well s;
  mi_sorted : newer_first (ms_added s);
  mi_bound : Forall (fun a => 0 < a.1 <= MaxUint64) (ms_added s);
  mi_good : forall x, x ∈ ms_run s -> ukey x.1 = key -> good_version f vlog_read (ms_added s) x;
  mi_cover : forall a, a ∈ ms_added s -> exists x, x ∈ ms_run s /\ ukey x.1 = key /\ covered x (ms_discard s) a.1;
  mi_sent : Forall (sent_ok (ms_added s)) (ms_sent s)
}.


(** *** The invariant holds *)

Context (Hk : key <> []) (Hassoc : forall a b c, f a (f b c) = f (f a b) c).

Lemma run_has_ts s x : ms_well s -> x ∈ ms_run s -> has_ts x.1.
Proof using Type.
  intros Hw Hx. apply merge_all_in in Hx as (l & Hl & Hx); [|by apply well_sorted]. destruct Hw as [Hm Hlv _].
  assert (forall es, run_ok es -> x ∈ es -> has_ts x.1) as Hok.
  { intros es [Hwf _] Hin. rewrite Forall_forall in Hwf. by destruct (Hwf x Hin). }
  apply elem_of_app in Hl as [Hl|Hl]; [by apply (Hok l); [by apply (proj1 (Forall_forall _ _) Hm)|]|].
  apply elem_of_concat in Hl as (ls & (h & -> & Hh)%list_elem_of_fmap & Hl).
  pose proof (proj1 (Forall_forall _ _) Hlv h Hh) as [Ht _ _ _]. rewrite Forall_forall in Ht. unfold level_runs in Hl.
  case_bool_decide.
  - apply list_elem_of_fmap in Hl as (t & -> & Htb). rewrite elem_of_reverse in Htb. apply (Hok (entries t)); [by apply Ht|done].
  - apply list_elem_of_singleton in Hl as ->. apply elem_of_entries in Hx as (t & Htb & Hx). apply (Hok (entries t)); [by apply Ht|done].
Qed.

Lemma key_versioned s x : ms_well s -> x ∈ ms_run s -> ukey x.1 = key -> key_ok x.1 /\ x.1 = KeyWithTs key (ParseTs x.1).
Proof using Hk.
  intros Hw Hx E. pose proof (run_has_ts s x Hw Hx) as Ht. destruct (has_ts_eta _ Ht) as (k & v & E1 & Hv).
  rewrite E1, ukey_KeyWithTs in E. subst k. rewrite E1 at 2 3. rewrite ParseTs_KeyWithTs by done. split; [|done].
  unfold key_ok. rewrite E1. unfold len. rewrite KeyWithTs_length. destruct key; [done|simpl; lia].
Qed.

Lemma good_cons adds a x : good_version f vlog_read adds x -> good_version f vlog_read (a :: adds) x.
Proof using Type.
  intros (H1 & H2 & l1 & v & l2 & -> & E). split; [done|]. split; [done|]. by exists (a :: l1), v, l2.
Qed.

Lemma newer_suffix ts adds : newer_first adds -> exists pre, adds = pre ++ filter (fun a => a.1 <= ts) adds /\ Forall (fun a => ts < a.1) pre.
Proof using Type.
  induction 1 as [|a adds Hs (pre & E & Hp) Ha]; [by exists []|]. rewrite filter_cons. case_decide as Hd.
  - exists []. split; [|done]. cbn. f_equal. symmetry. apply filter_id.
    eapply Forall_impl; [exact Ha|]. intros b Hb. cbn in Hb. lia.
  - exists (a :: pre). split; [cbn; by f_equal|]. constructor; [lia|done].
Qed.

Lemma minv_accounts s ts : minv s -> ms_discard s <= ts ->
  accounts f vlog_read (ms_discard s) (filter (fun a => a.1 <= ts) (ms_added s)) (versions key ts (ms_run s)).
Proof using Hk MemHash.
  intros [Hw Hs Hb Hg Hc _] Hd. destruct (newer_suffix ts _ Hs) as (pre & E & Hp). rewrite Forall_forall in Hp.
  set (adds := filter _ _) in *. split_and!.
  - intros x [[Ek Ht] Hx]%list_elem_of_filter. destruct (Hg x Hx Ek) as (H1 & H2 & l1 & v & l2 & El & Ev).
    split; [done|]. split; [done|]. rewrite E in El. apply app_eq_inv in El as [(k & E1 & E2)|(k & E1 & E2)].
    + destruct k as [|a k]; [exists [], v, l2; by split|]. injection E2 as <- _.
      assert (ts < ParseTs x.1); [|lia]. apply (Hp (ParseTs x.1, v)). rewrite E1. apply elem_of_app. right. by left.
    + exists k, v, l2. by split.
  - intros a Ha. assert (a ∈ ms_added s /\ a.1 <= ts) as [Hin Hle] by (unfold adds in Ha; apply list_elem_of_filter in Ha; tauto).
    destruct (Hc a Hin) as (x & Hx & Ek & Hcov). exists x. split; [|done]. apply list_elem_of_filter. split; [|done].
    split; [done|]. destruct Hcov as [->|[_ ?]]; lia.
  - rewrite E in Hs. apply StronglySorted_app in Hs. apply Hs.
  - unfold versions. pose proof (merge_all_sorted false _ (well_sorted _ _ Hw)) as Hrs. fold (store_run (getMemTables false (ms_mt s) (ms_imm s)) (ms_levels s)) in Hrs. fold (ms_run s) in Hrs.
    assert (forall x, x ∈ ms_run s -> ukey x.1 = key -> key_ok x.1) as Hko by (intros x Hx Ek; by apply (key_versioned s x Hw Hx)).
    clear -Hrs Hko. induction Hrs as [|x l Hrs IH Hx]; [constructor|]. rewrite filter_cons.
    specialize (IH (fun y Hy => Hko y ltac:(by right))). case_decide as Hd; [|done]. constructor; [done|].
    apply Forall_forall. intros y [[Ey _] Hy]%list_elem_of_filter. rewrite Forall_forall in Hx. specialize (Hx y Hy). cbn in Hx.
    destruct Hd as [Ex _]. apply version_lt in Hx; [done| | |by rewrite Ex, Ey].
    + apply Hko; [by left|done].
    + apply Hko; [by right|done].
Qed.

Lemma minv_init s : ms_init s -> minv s.
Proof using Type.
  intros (Hw & Es & Ea & Hn). split.
  - done.
  - rewrite Ea. constructor.
  - rewrite Ea. constructor.
  - intros x Hx E. by destruct (Hn x Hx).
  - rewrite Ea. intros a Ha. by apply elem_of_nil in Ha.
  - rewrite Es. constructor.
Qed.

Lemma minv_add s cts v vs : minv s -> Forall (fun a => a.1 < cts) (ms_added s) -> 0 < cts <= MaxUint64 ->
  writes vlog_read (add_entry key v) vs -> minv (note_added (write_mt s (KeyWithTs key cts) vs) (cts, v)).
Proof using Hk.
  intros [Hw Hs Hb Hg Hc Hse] Hlt Hcts [Wv Wd Wc We]. rewrite Forall_forall in Hlt.
  assert (has_ts (KeyWithTs key cts)) as Hkt by apply KeyWithTs_has_ts.
  assert (forall x, x ∈ ms_run (note_added (write_mt s (KeyWithTs key cts) vs) (cts, v)) <->
    x = (KeyWithTs key cts, decoded vs) \/ x ∈ ms_run s /\ x.1 <> KeyWithTs key cts) as Hrun by (intros x; exact (run_write s _ vs x Hw Hkt)).
  split; cbn [ms_added note_added ms_discard write_mt ms_sent].
  - exact (well_write s _ vs Hw Hkt).
  - constructor; [exact Hs|]. apply Forall_forall. intros a Ha. cbn. by apply Hlt.
  - by constructor.
  - intros x [->|[Hx _]]%Hrun Ek; [|apply good_cons; by apply Hg]. split; [exact Wd|]. split; [exact We|].
    exists [], v, (ms_added s). cbn [fst snd]. rewrite ParseTs_KeyWithTs by (done || lia). split; [done|].
    unfold discards, value_of_kv. cbn [snd Meta decoded]. rewrite Wv, Wc. done.
  - intros a [->|Ha]%elem_of_cons.
    + eexists. split; [apply Hrun; by left|]. cbn. rewrite ukey_KeyWithTs. split; [done|]. left.
      cbn. by rewrite ParseTs_KeyWithTs by (done || lia).
    + destruct (Hc a Ha) as (x & Hx & Ek & Hcov). exists x. split; [|done]. apply Hrun. right. split; [done|]. intros E.
      destruct (good_in _ _ _ _ (Hg x Hx Ek)) as [w Hin]. specialize (Hlt _ Hin). cbn in Hlt.
      rewrite E, ParseTs_KeyWithTs in Hlt by (done || lia). lia.
  - eapply Forall_impl; [exact Hse|]. intros e (E1 & E2 & l1 & t & u & l2 & -> & E3 & E4). split; [done|]. split; [done|].
    by exists ((cts, v) :: l1), t, u, l2.
Qed.

Lemma minv_compact s ts now fuel steps vl r t vl' : minv s -> ms_readable ts s -> (ms_size s < fuel)%nat -> (ms_size s < steps)%nat ->
  ms_read ts now fuel steps vl s = Some (r, t, vl') -> minv (note_sent s (compact_entry key r)).
Proof using Hk Hassoc.
  intros Hi (Hts & Hd & Hr) Hf Hst E. unfold ms_read in E.
  destruct (iterateAndMerge_ok ts open_table open_mem MemHash topt vlog_read f banned now key _ _ _ vl Hts Hk Hr fuel steps Hf Hst)
    as (t' & vl'' & E2). rewrite E2 in E. injection E as <- _ _. fold (ms_run s).
  destruct (spec_of_adds f Hassoc vlog_read now _ _ _ (minv_accounts s ts Hi Hd)) as (e & -> & He).
  destruct Hi as [Hw Hs Hb Hg Hc Hse]. split; try done. cbn [ms_sent note_sent ms_added]. apply Forall_app. split; [|done].
  destruct (newer_suffix ts _ Hs) as (pre & Ea & _). destruct (filter _ _) as [|[u v] olds]; [constructor|].
  destruct He as [->| ->]; [|constructor]. cbn [compact_entry option_list]. constructor; [|constructor].
  split; [done|]. split; [done|]. by exists pre, u, v, olds.
Qed.

Lemma minv_written s e vs : minv s -> e ∈ ms_sent s -> writes vlog_read e vs -> minv (write_mt s (eKey e) vs).
Proof using Hk.
  intros [Hw Hs Hb Hg Hc Hse] He [Wv Wd Wc We]. pose proof (proj1 (Forall_forall _ _) Hse e He) as (Em & Ee & l1 & t & v & l2 & Ea & Ek & Ev).
  rewrite Ek. assert (has_ts (KeyWithTs key t)) as Hkt by apply KeyWithTs_has_ts.
  assert (0 < t <= MaxUint64) as Ht.
  { rewrite Forall_forall in Hb. apply (Hb (t, v)). rewrite Ea. apply elem_of_app. right. by left. }
  pose proof (fun x => run_write s _ vs x Hw Hkt) as Hrun.
  assert (discards (KeyWithTs key t, decoded vs) = true) as Hdis by (unfold discards; cbn; by rewrite Wc, Em).
  split; cbn [ms_added write_mt ms_discard ms_sent]; try done.
  - exact (well_write s _ vs Hw Hkt).
  - intros x [->|[Hx _]]%Hrun E; [|by apply Hg]. split; [cbn; by rewrite Wd, Em|]. split; [cbn; by rewrite We, Ee|].
    exists l1, v, l2. cbn [fst]. rewrite ParseTs_KeyWithTs by (done || lia). split; [done|]. rewrite Hdis.
    unfold value_of_kv. cbn [snd]. by rewrite Wv.
  - intros a Ha. destruct (Hc a Ha) as (x & Hx & E & Hcov). destruct (decide (x.1 = KeyWithTs key t)) as [Ex|Ex].
    + exists (KeyWithTs key t, decoded vs). split; [apply Hrun; by left|]. cbn [fst]. rewrite ukey_KeyWithTs. split; [done|].
      unfold covered in *. cbn [fst]. rewrite <- Ex. destruct Hcov as [H|[_ H]]; [by left|by right].
    + exists x. split; [apply Hrun; by right|]. by split.
Qed.

Lemma minv_reorganised s mt imm levels d : let s' := mkMS mt imm levels d (ms_sent s) (ms_added s) in
  minv s -> ms_well s' -> ms_discard s <= d -> (forall x, x ∈ ms_run s' -> ukey x.1 = key -> x ∈ ms_run s) ->
  (forall x, x ∈ ms_run s -> ukey x.1 = key -> x ∈ ms_run s' \/
     exists y, y ∈ ms_run s' /\ ukey y.1 = key /\ discards y = true /\ ParseTs x.1 < ParseTs y.1 <= d) -> minv s'.
Proof using Type.
  intros s' [Hw Hs Hb Hg Hc Hse] Hw' Hd Hin Hkeep. split; try done.
  - intros x Hx E. by apply Hg; [apply Hin|].
  - intros a Ha. cbn [ms_added s' ms_discard]. destruct (Hc a Ha) as (x & Hx & E & Hcov).
    destruct (Hkeep x Hx E) as [Hx'|(y & Hy & Ey & Hdy & Hlt)].
    + exists x. split; [done|]. split; [done|]. destruct Hcov as [H|[H1 H2]]; [by left|right; split; [done|lia]].
    + exists y. split; [done|]. split; [done|]. right. split; [done|]. destruct Hcov as [H|[_ H]]; lia.
Qed.

Lemma ms_reach_inv s : ms_reach s -> minv s.
Proof using Hk Hassoc.
  intros (s0 & Hi & Hr). apply minv_init in Hi. induction Hr as [s|s1 s2 s3 Hst _ IH]; [done|]. apply IH.
  destruct Hst as [|s ts now fuel steps vl r t vl'| |].
  - by apply minv_add.
  - by apply (minv_compact s ts now fuel steps vl r t vl').
  - by apply minv_written.
  - by apply minv_reorganised.
Qed.
End History.

(** ** Properties *)

(** C18: with an associative function, a merge operator loses and repeats nothing: after any history
    of additions, of background merges that are read at one time and written at another, again or
    never, and of flushes and compactions that drop what a written merge discards, a read gives
    the fold of exactly the values added up to its timestamp, in the order they were added. *)
Theorem merge_operator_keeps_all {A M : Type} {IA : YIterator A} {IM : YIterator M}
    {LA : forall ts, YIteratorLaws A false (txn_seek false ts)} {LM : forall ts, YIteratorLaws M false (txn_seek false ts)}
    (open_table : bool -> Table -> A) (open_mem : bool -> list kv -> M) (MemHash : bytes -> Z) (topt : txn_opts)
    (vlog_read : valuePointer -> result vlog_error bytes) (f : bytes -> bytes -> bytes) (banned : gset Z) (key : bytes)
    (s : mstate) (ts now : Z) (fuel steps : nat) (vl : valueLog) :
  key <> [] -> (forall a b c, f a (f b c) = f (f a b) c) ->
  ms_reach (LA := LA) (LM := LM) open_table open_mem MemHash topt vlog_read f banned key s ->
  ms_readable (LA := LA) (LM := LM) open_table open_mem topt vlog_read banned key ts s ->
  (ms_size s < fuel)%nat -> (ms_size s < steps)%nat ->
  exists r t vl', ms_read open_table open_mem MemHash topt vlog_read f banned key ts now fuel steps vl s = Some (r, t, vl') /\
    get_result r = match merged f (filter (fun a => a.1 <= ts) (ms_added s)).*2 with
                   | Some v => Ok (Some v)
                   | None => Err MergeNotFound
                   end.
Proof.
  intros Hk Hassoc Hreach (Hts & Hd & Hr) Hf Hs. pose proof (ms_reach_inv _ _ _ _ _ _ _ _ Hk Hassoc s Hreach) as Hi.
  destruct (iterateAndMerge_ok ts open_table open_mem MemHash topt vlog_read f banned now key _ _ _ vl Hts Hk Hr fuel steps Hf Hs)
    as (t & vl' & E). eexists _, t, vl'. split; [exact E|]. fold (ms_run s).
  destruct (spec_of_adds f Hassoc vlog_read now _ _ _ (minv_accounts MemHash vlog_read f key Hk s ts Hi Hd)) as (e & -> & He).
  destruct (filter _ _) as [|[u v] olds]; [done|]. cbn. by destruct He as [->| ->].
Qed.

(** ** Examples *)

Definition mx_key : bytes := [x6d].
Definition mx_vs (e : Entry) : ValueStruct := mkVS (emeta e) x00 0 (eValue e) 0.
Definition mx_put (s : mstate) (ts : Z) (v : bytes) : mstate :=
  note_added (write_mt s (KeyWithTs mx_key ts) (mx_vs (add_entry mx_key v))) (ts, v).
Definition mx_0 : mstate := mkMS [] [] [] 0 [] [].
Definition mx_1 : mstate := mx_put mx_0 1 [x61].
Definition mx_2 : mstate := mx_put mx_1 2 [x62].
Definition mx_merge : Entry := mkEntry (KeyWithTs mx_key 2) (Some [x61; x62]) 0 0 0 x00 (z2b bitDiscardEarlierVersions) 0 0.
Definition mx_3 : mstate := write_mt (note_sent mx_2 (Some mx_merge)) (eKey mx_merge) (mx_vs mx_merge).
(** The compaction that drops what the merge discards. *)
Definition mx_4 : mstate := mkMS (take 1 (ms_mt mx_3)) [] [] 2 (ms_sent mx_3) (ms_added mx_3).
Definition mx_5 : mstate := mx_put mx_4 3 [x63].

Lemma mx_writes e : has_bit (emeta e) bitValuePointer = false -> eExpiresAt e = 0 -> writes no_vlog e (mx_vs e).
Proof. intros Hm He. split; try done. unfold entry_value. cbn. by rewrite Hm. Qed.

Lemma mx_readable s ts : ms_imm s = [] -> ms_levels s = [] -> run_ok (ms_mt s) ->
  Forall (fun x : kv => 8 < len x.1 /\ bool_decide (entry_value no_vlog x.2 = None) = false /\ internal x.1 = false /\
    ban Transaction.ex_opts ∅ x.1 = false) (ms_mt s) -> 0 < ts <= MaxUint64 -> ms_discard s <= ts ->
  ms_readable (LA := fun _ => runIter_laws) (LM := fun _ => runIter_laws) sx_open_table open_run Transaction.ex_opts no_vlog ∅ mx_key ts s.
Proof.
  intros Ei El Hm Hall Hts Hd. split; [done|]. split; [done|]. rewrite Ei, El. rewrite Forall_forall in Hall.
  assert (forall x, x ∈ concat (getMemTables false (ms_mt s) []) ++ all_entries [] -> x ∈ ms_mt s) as Hin.
  { intros x. cbn. unfold all_entries. cbn. by rewrite !app_nil_r. }
  split.
  - split; [done|constructor|constructor|constructor| | |]; try (intros ? ?%elem_of_nil; done); try (intros ? ? ?%elem_of_nil; done).
    intros sl Hsl. cbn in Hsl. apply list_elem_of_singleton in Hsl as ->. apply open_run_over; [apply Hm|].
    apply Forall_forall. intros x Hx. by apply Hall.
  - intros x Hx%Hin. by apply Hall.
  - intros x Hx%Hin. destruct (Hall x Hx) as (_ & H & _). apply bool_decide_eq_false in H.
    by destruct (entry_value no_vlog x.2); [eexists|].
  - intros x Hx%Hin _. by destruct (Hall x Hx) as (_ & _ & ? & ?).
Qed.

Notation mx_step := (mstep (LA := fun _ => runIter_laws) (LM := fun _ => runIter_laws) sx_open_table open_run be_decode
  Transaction.ex_opts no_vlog (@app byte) ∅ mx_key).

Lemma mx_run_ok s : s = mx_2 \/ s = mx_4 \/ s = mx_5 -> run_ok (ms_mt s).
Proof. intros [->|[->| ->]]; apply ex_run_ok; by vm_compute. Qed.

Lemma mx_read_ok s ts : s = mx_2 \/ s = mx_5 -> 0 < ts <= MaxUint64 -> ms_discard s <= ts ->
  ms_readable (LA := fun _ => runIter_laws) (LM := fun _ => runIter_laws) sx_open_table open_run Transaction.ex_opts no_vlog ∅ mx_key ts s.
Proof.
  intros Hs. apply mx_readable; [by destruct Hs as [->| ->]..|apply mx_run_ok; tauto|].
  set (P := fun x : kv => 8 < len x.1 /\ bool_decide (entry_value no_vlog x.2 = None) = false /\ internal x.1 = false /\
    ban Transaction.ex_opts ∅ x.1 = false).
  destruct Hs as [->| ->]; [apply (bool_decide_eq_true_1 (Forall P (ms_mt mx_2)))|apply (bool_decide_eq_true_1 (Forall P (ms_mt mx_5)))];
    vm_compute; reflexivity.
Qed.

Lemma mx_add s ts v : Forall (fun a => a.1 < ts) (ms_added s) -> ms_discard s < ts -> 0 < ts <= MaxUint64 -> mx_step s (mx_put s ts v).
Proof. intros H1 H2 H3. apply ms_add; [done..|]. by apply mx_writes. Qed.

Lemma mx_merged : mx_step mx_2 (note_sent mx_2 (Some mx_merge)).
Proof.
  assert (exists t vl', ms_read sx_open_table open_run be_decode Transaction.ex_opts no_vlog (@app byte) ∅ mx_key 2 0 10 10 vlog_init mx_2
    = Some ((Some [x61; x62], 2, None), t, vl')) as (t & vl' & E).
  { eexists _, _. vm_compute. reflexivity. }
  apply (ms_compact _ _ _ _ _ _ _ _ mx_2 2 0 10 10 vlog_init (Some [x61; x62], 2, None) t vl'); [|apply Nat.ltb_lt; vm_compute; reflexivity..|exact E].
  apply mx_read_ok; [left; reflexivity|unfold MaxUint64; lia|cbn; lia].
Qed.

Lemma mx_dropped : mx_step mx_3 mx_4.
Proof.
  apply (ms_reorganised _ _ _ _ _ _ _ _ mx_3 (take 1 (ms_mt mx_3)) [] [] 2).
  - split; [|constructor|by intros ? ?%elem_of_nil]. constructor; [|constructor]. apply (mx_run_ok mx_4). tauto.
  - by vm_compute.
  - assert (Forall (fun x => x ∈ ms_run mx_3) (ms_run mx_4)) as H.
    { apply (bool_decide_eq_true_1 (Forall (fun x => x ∈ ms_run mx_3) (ms_run mx_4))). vm_compute. reflexivity. }
    intros x Hx _. exact (proj1 (Forall_forall _ _) H x Hx).
  - set (Q := fun x y : kv => ukey y.1 = mx_key /\ discards y = true /\ ParseTs x.1 < ParseTs y.1 <= 2).
    assert (Forall (fun x => x ∈ ms_run mx_4 \/ Exists (Q x) (ms_run mx_4)) (ms_run mx_3)) as H.
    { apply (bool_decide_eq_true_1 (Forall (fun x => x ∈ ms_run mx_4 \/ Exists (Q x) (ms_run mx_4)) (ms_run mx_3))). vm_compute. reflexivity. }
    intros x Hx _. destruct (proj1 (Forall_forall _ _) H x Hx) as [Hin|(y & Hy & Hq)%Exists_exists]; [by left|right; by exists y].
Qed.

Lemma mx_steps : rtc mx_step mx_0 mx_5.
Proof.
  apply (rtc_l _ _ mx_1); [apply mx_add; [constructor|cbn; lia|unfold MaxUint64; lia]|].
  apply (rtc_l _ _ mx_2); [apply mx_add; [by repeat constructor|cbn; lia|unfold MaxUint64; lia]|].
  apply (rtc_l _ _ (note_sent mx_2 (Some mx_merge))); [exact mx_merged|].
  apply (rtc_l _ _ mx_3); [apply ms_written; [by left|by apply mx_writes]|].
  apply (rtc_l _ _ mx_4); [exact mx_dropped|].
  apply (rtc_l _ _ mx_5); [apply mx_add; [by repeat constructor|cbn; lia|unfold MaxUint64; lia]|]. apply rtc_refl.
Qed.

(** Two values, merged in the background and compacted, and a third. *)
Lemma merge_operator_keeps_all_witness : exists r t vl',
  ms_read sx_open_table open_run be_decode Transaction.ex_opts no_vlog (@app byte) ∅ mx_key 3 0 10 10 vlog_init mx_5 = Some (r, t, vl') /\
  get_result r = Ok (Some [x61; x62; x63]).
Proof.
  apply (merge_operator_keeps_all (LA := fun _ => runIter_laws) (LM := fun _ => runIter_laws) sx_open_table open_run be_decode
    Transaction.ex_opts no_vlog (@app byte) ∅ mx_key mx_5 3 0 10 10 vlog_init).
  - done.
  - intros a b c. apply app_assoc.
  - exists mx_0. split; [|exact mx_steps].
    split; [|split; [done|split; [done|by intros x ?%elem_of_nil]]].
    split; [|constructor|by intros ? ?%elem_of_nil]. constructor; [|constructor]. split; constructor.
  - apply mx_read_ok; [right; reflexivity|unfold MaxUint64; lia|cbn; lia].
  - apply Nat.ltb_lt. vm_compute. reflexivity.
  - apply Nat.ltb_lt. vm_compute. reflexivity.
Defined.
