(* ===== verification/Stream.v ===== *)
(** * Stream: reading the whole database in parallel (stream.go, db.go)

    A stream divides the keys into ranges, lets goroutines iterate over them at snapshots of their
    own, makes a list of key-values of the versions of every key, and hands the lists over in
    batches.  The ranges cover every key once, and what is handed over, when the snapshots are
    the same, is what an iterator sees of every key, each version once. *)

From S2P Require Import Prelude Keys Codec Oracle Tables Iterators LevelHandler Compaction Transaction ValueLog Subcompact Rewrite Iterator Snapshot.

(** ** Key ranges (db.go) *)

Record TableInfo : Type := mkTI {
  ti_ID : Z;
  ti_Level : nat;
  ti_Left : bytes;
  ti_Right : bytes;
  ti_UncompressedSize : Z
}.

Section Ranges.
(** The first keys of a table's blocks and the sizes of its blocks together are in its index. *)
Context (block_keys : Table -> list bytes) (UncompressedSize : Table -> Z).

Definition table_info (level : nat) (t : Table) : TableInfo := mkTI (ID t) level (Smallest t) (Biggest t) (UncompressedSize t).

Definition info_cmp (a b : nat * Z) : comparison :=
  match Nat.compare a.1 b.1 with Eq => Z.compare a.2 b.2 | c => c end.

Definition getTableInfo (levels : list levelHandler) : list TableInfo :=
  sort_by info_cmp (fun i => (ti_Level i, ti_ID i))
    (concat ((fun h => table_info (Z.to_nat (level h)) <$> tables h) <$> levels)).

(** The loop of [KeySplits] from block [i] on. *)
Fixpoint split_loop (fuel i jump : nat) (prefix : bytes) (bks : list bytes) : list bytes :=
  match fuel with
  | O => []
  | Datatypes.S fuel =>
      match bks !! i with
      | Some key => (if bool_decide (prefix `prefix_of` key) then [key] else []) ++ split_loop fuel (i + jump) jump prefix bks
      | None => []
      end
  end.

Definition KeySplits (t : Table) (n : nat) (prefix : bytes) : list bytes :=
  if bool_decide (n = 0%nat) then []
  else
    let oLen := length (block_keys t) in
    let jump := (oLen / n)%nat in
    let jump := if bool_decide (jump = 0%nat) then 1%nat else jump in
    split_loop oLen 0 jump prefix (block_keys t).

Definition sort_Strings (l : list bytes) : list bytes := sort_by bytes_Compare id l.

Definition keySplits (levels : list levelHandler) (numPerTable : nat) (prefix : bytes) : list bytes :=
  sort_Strings (concat ((fun h => concat ((fun t => KeySplits t numPerTable prefix) <$> tables h)) <$> levels)).

(** One key in ten thousand of a memtable. *)
Fixpoint mtSplits (count : nat) (prefix : bytes) (sl : list kv) : list bytes :=
  match sl with
  | [] => []
  | x :: sl =>
      (if bool_decide (count mod 10000 = 0)%nat && bool_decide (prefix `prefix_of` x.1) then [x.1] else []) ++
      mtSplits (Datatypes.S count) prefix sl
  end.

Fixpoint split_ranges (start : bytes) (splits : list bytes) : list keyRange :=
  match splits with
  | [] => [mkKR start [] false 0]
  | key :: splits => mkKR start key false 0 :: split_ranges key splits
  end.

Definition add_size_of (ti : TableInfo) (r : keyRange) : option keyRange :=
  if bool_decide (len (kr_left r) = 0) || bool_decide (len (kr_right r) = 0) then Some r
  else
    b ← overlapsWith r (mkKR (ti_Left ti) (ti_Right ti) false 0);
    Some (if (b : bool) then mkKR (kr_left r) (kr_right r) (kr_inf r) (i64 (kr_size r + ti_UncompressedSize ti)) else r).

Fixpoint add_sizes (tis : list TableInfo) (rs : list keyRange) : option (list keyRange) :=
  match tis with
  | [] => Some rs
  | ti :: tis => rs ← mapM (add_size_of ti) rs; add_sizes tis rs
  end.

(** Ranges are put together as long as they stay below the average. *)
Fixpoint bin_ranges (avg : Z) (cur : keyRange) (rs : list keyRange) : list keyRange :=
  match rs with
  | [] => [cur]
  | next :: rs =>
      if bool_decide (avg < i64 (kr_size cur + kr_size next)) then cur :: bin_ranges avg next rs
      else bin_ranges avg (mkKR (kr_left cur) (kr_right next) (kr_inf cur) (i64 (kr_size cur + kr_size next))) rs
  end.

Definition splits_of (MaxLevels : nat) (prefix : bytes) (tis : list TableInfo) (levels : list levelHandler)
    (mt : list kv) (imm : list (list kv)) : list bytes :=
  let splits := ti_Right <$> filter (fun ti => Datatypes.S (ti_Level ti) = MaxLevels /\ prefix `prefix_of` ti_Right ti) tis in
  let splits :=
    if bool_decide (length splits < 32)%nat then
      let numTables := if bool_decide (length tis = 0%nat) then 1%nat else length tis in
      let numPerTable := (32 / numTables)%nat in
      keySplits levels (if bool_decide (numPerTable = 0%nat) then 1%nat else numPerTable) prefix
    else splits in
  if bool_decide (length splits < 32)%nat then splits ++ concat (mtSplits 0 prefix <$> imm) ++ mtSplits 0 prefix mt
  else splits.

(** [None]: a division by zero, or a table without keys. *)
Definition Ranges (MaxLevels : nat) (prefix : bytes) (numRanges : Z) (levels : list levelHandler)
    (mt : list kv) (imm : list (list kv)) : option (list keyRange) :=
  let tis := getTableInfo levels in
  let splits := splits_of MaxLevels prefix tis levels mt imm in
  ranges ← add_sizes tis (split_ranges [] (sort_Strings splits));
  let total := foldl (fun n r => i64 (n + kr_size r)) 0 ranges in
  if bool_decide (total = 0) then Some ranges
  else if bool_decide (numRanges = 0) then None
  else
    match ranges with
    | [] => Some []
    | r :: rs => Some (bin_ranges (Z.quot total numRanges) (mkKR (kr_left r) (kr_right r) false (kr_size r)) rs)
    end.
End Ranges.

(** ** Lists of key-values *)

(** [pb.KV]; nil and empty slices are the same in the wire format. *)
Record KV : Type := mkKVs {
  k_Key : bytes;
  k_Value : bytes;
  k_UserMeta : bytes;
  k_Version : Z;
  k_ExpiresAt : Z;
  k_Meta : bytes;
  k_StreamId : Z;
  k_StreamDone : bool
}.

#[export] Instance KV_eq_decision : EqDecision KV.
Proof. solve_decision. Defined.

Definition set_StreamId (kv : KV) (id : Z) : KV :=
  mkKVs (k_Key kv) (k_Value kv) (k_UserMeta kv) (k_Version kv) (k_ExpiresAt kv) (k_Meta kv) id (k_StreamDone kv).

Section Producing.
Context {S : Type} `{YIterator S}.
Context (MemHash : bytes -> Z) (topt : txn_opts) (vlog_read : valuePointer -> result vlog_error bytes).
Context (banned : gset Z) (now : Z) (fuel : nat).
Notation advance := (iter_Next topt vlog_read banned (fun _ => now) fuel).

(** The loop of [ToList]. *)
Fixpoint ToList_loop (NumVersionsToKeep : Z) (key : bytes) (steps : nat) (it : Iterator S) (t : Txn) (kvl : list KV)
    : option (option (list KV) * Iterator S * Txn) :=
  match steps with
  | O => None
  | Datatypes.S steps =>
      if iter_Valid it then
        '(item, t) ← iter_Item MemHash it t;
        if IsDeletedOrExpired now item then Some (Some kvl, it, t)
        else if bool_decide (key <> it_key item) then Some (Some kvl, it, t)
        else
          val ← Item_Value vlog_read item;
          let kvl := kvl ++ [mkKVs key val [it_userMeta item] (it_version item) (it_expiresAt item) [] 0 false] in
          if bool_decide (NumVersionsToKeep = 1) then Some (Some kvl, it, t)
          else if DiscardEarlierVersions item then Some (Some kvl, it, t)
          else it ← advance it; ToList_loop NumVersionsToKeep key steps it t kvl
      else Some (Some kvl, it, t)
  end.

Definition ToList (NumVersionsToKeep : Z) (steps : nat) (key : bytes) (it : Iterator S) (t : Txn) :=
  ToList_loop NumVersionsToKeep key steps it t [].

(** What makes a list of the versions of a key; [Some None] is an error, which is logged. *)
Context (KeyToList : bytes -> Iterator S -> Txn -> option (option (list KV) * Iterator S * Txn)).
Context (ChooseKey : option (Item -> bool)).

(** The loop of [iterate] in [produceKVs]: all it puts into the buffer for one range. *)
Fixpoint iterate_keys (right : bytes) (steps : nat) (it : Iterator S) (t : Txn) (prevKey : bytes) : option (list KV * Iterator S * Txn) :=
  match steps with
  | O => None
  | Datatypes.S steps =>
      if iter_Valid it then
        '(item, t) ← iter_Item MemHash it t;
        let key := it_key item in
        if bool_decide (key = prevKey) then it ← advance it; iterate_keys right steps it t prevKey
        else if bool_decide (0 < len right) && negb (bool_decide (bytes_Compare key right = Lt)) then Some ([], it, t)
        else if match ChooseKey with Some choose => negb (choose item) | None => false end then iterate_keys right steps it t key
        else
          '(kvl, it, t) ← KeyToList key it t;
          '(kvs, it, t) ← iterate_keys right steps it t key;
          Some (default [] kvl ++ kvs, it, t)
      else Some ([], it, t)
  end.

(** [iterate] over a range, from an iterator just made. *)
Definition iterate_range (steps : nat) (streamId : Z) (kr : keyRange) (it : Iterator S) (t : Txn)
    : option (list KV) :=
  '(it, t) ← iter_Seek MemHash topt vlog_read banned (fun _ => now) fuel it t (kr_left kr);
  '(kvs, it, t) ← iterate_keys (kr_right kr) steps it t [];
  Some ((fun kv => set_StreamId kv streamId) <$> (kvs : list KV)).

(** The ranges the goroutines take, each with its stream id and the iterator and transaction it is
    read with. *)
Definition iterate_ranges (steps : nat) (work : list (keyRange * Z * Iterator S * Txn)) : option (list (list KV)) :=
  mapM (fun '(kr, id, it, t) => iterate_range steps id kr it t) work.

(** The mark at the end of a range. *)
Definition done_marker (doneMarkers : bool) (streamId : Z) : list KV :=
  if doneMarkers then [mkKVs [] [] [] 0 0 [] streamId true] else [].
End Producing.

(** The options of the iterators. *)
Definition stream_iopts (prefix : bytes) (SinceTs : Z) : IteratorOptions :=
  mkIOpts (PrefetchSize DefaultIteratorOptions) true false true false false prefix SinceTs.

(** ** Buffers and batches *)

Section Batches.
(** The length of a buffer that holds key-values. *)
Context (buf_len : list KV -> Z).

Definition batchSize : Z := 16777216.
Definition maxStreamSize : Z := 104857600.

(** [iterate] sends its buffer whenever it is long enough, and what is left at the end, with the
    mark. *)
Fixpoint send_batches (done outList kvs : list KV) : list (list KV) :=
  match kvs with
  | [] => [outList ++ done]
  | kv :: kvs =>
      let outList := outList ++ [kv] in
      if bool_decide (buf_len outList < batchSize) then send_batches done outList kvs
      else outList :: send_batches done [] kvs
  end.

(** The buffers of all ranges, which arrive at the channel in some order. *)
Definition range_buffers (doneMarkers : bool) (ids : list Z) (kvss : list (list KV)) : list (list KV) :=
  concat (zip_with (fun id kvs => send_batches (done_marker doneMarkers id) [] kvs) ids kvss).

(** [slurp]: as long as the batch is not too long and more is waiting, [ready] buffers at most. *)
Fixpoint slurp_batch (MaxSize : Z) (ready : nat) (batch : list KV) (kvChan : list (list KV)) : list KV * list (list KV) :=
  match ready, kvChan with
  | Datatypes.S ready, kvs :: kvChan' =>
      if bool_decide (MaxSize < buf_len batch) then (batch, kvChan)
      else slurp_batch MaxSize ready (batch ++ kvs) kvChan'
  | _, _ => (batch, kvChan)
  end.

(** [streamKVs]: what [Send] is called with, [ready] telling how much is waiting each time; an
    empty batch is not sent. *)
Fixpoint streamKVs (fuel : nat) (MaxSize : Z) (ready : list nat) (kvChan : list (list KV)) : list (list KV) :=
  match fuel, kvChan with
  | Datatypes.S fuel, kvs :: kvChan =>
      let '(batch, kvChan) := slurp_batch MaxSize (hd 0%nat ready) kvs kvChan in
      (if bool_decide (buf_len batch = 0) then [] else [batch]) ++ streamKVs fuel MaxSize (tl ready) kvChan
  | _, _ => []
  end.
End Batches.

(** ** Lemmas: the ranges cover every key once *)

Definition in_range (r : keyRange) (u : bytes) : bool :=
  (bool_decide (len (kr_left r) = 0) || negb (bool_decide (bytes_Compare u (kr_left r) = Lt))) &&
  (bool_decide (len (kr_right r) = 0) || bool_decide (bytes_Compare u (kr_right r) = Lt)).

(** The ranges follow one another, from [start] to the end. *)
Fixpoint contiguous (start : bytes) (rs : list keyRange) : Prop :=
  match rs with
  | [] => False
  | r :: rs =>
      kr_left r = start /\
      match rs with
      | [] => kr_right r = []
      | _ => kr_right r <> [] /\ bytes_Compare start (kr_right r) <> Gt /\ contiguous (kr_right r) rs
      end
  end.

Lemma len_0 (b : bytes) : len b = 0 <-> b = [].
Proof. destruct b; [done|]. unfold len. simpl. split; [lia|done]. Qed.

Lemma in_range_before r u : kr_right r <> [] -> bytes_Compare u (kr_right r) <> Lt -> in_range r u = false.
Proof.
  intros Hn Hu. unfold in_range. rewrite (bool_decide_eq_false_2 (len (kr_right r) = 0)) by (by rewrite len_0).
  rewrite (bool_decide_eq_false_2 (bytes_Compare u (kr_right r) = Lt)) by done. by rewrite andb_false_r.
Qed.

Lemma contiguous_after rs : forall start u, contiguous start rs -> start <> [] -> bytes_Compare u start = Lt ->
  Forall (fun r => in_range r u = false) rs.
Proof.
  induction rs as [|r rs IH]; intros start u Hc Hs Hu; [done|]. destruct Hc as [El Hc]. constructor.
  - unfold in_range. rewrite El, (bool_decide_eq_false_2 (len start = 0)) by (by rewrite len_0).
    by rewrite (bool_decide_eq_true_2 _ Hu).
  - destruct rs as [|r2 rs]; [done|]. destruct Hc as (Hn & Hle & Hc). apply (IH (kr_right r)); [done|done|].
    by apply (cmp_lt_le_trans bytes_Compare _ start).
Qed.

(** Every key is in exactly one of them. *)
Lemma contiguous_cover rs : forall start u, contiguous start rs -> bytes_Compare start u <> Gt ->
  exists l1 r l2, rs = l1 ++ r :: l2 /\ in_range r u = true /\ Forall (fun r => in_range r u = false) (l1 ++ l2).
Proof.
  induction rs as [|r rs IH]; intros start u Hc Hs; [done|]. destruct Hc as [El Hc].
  assert (bytes_Compare u (kr_left r) <> Lt) as Hul by (rewrite El; intros H; by apply Hs, (cmp_gt_lt bytes_Compare)).
  destruct rs as [|r2 rs].
  - exists [], r, []. split; [done|]. split; [|done]. unfold in_range. rewrite Hc, (bool_decide_eq_true_2 (len [] = 0)) by done.
    rewrite (bool_decide_eq_false_2 (bytes_Compare u (kr_left r) = Lt)) by done. by rewrite orb_true_r.
  - destruct Hc as (Hn & Hle & Hc). destruct (decide (bytes_Compare u (kr_right r) = Lt)) as [Hlt|Hge].
    + exists [], r, (r2 :: rs). split; [done|]. split; [|by apply (contiguous_after _ (kr_right r))]. unfold in_range.
      rewrite (bool_decide_eq_false_2 (bytes_Compare u (kr_left r) = Lt)) by done. by rewrite (bool_decide_eq_true_2 _ Hlt), !orb_true_r.
    + destruct (IH (kr_right r) u Hc) as (l1 & r' & l2 & -> & H1 & H2).
      { intros H. by apply Hge, (cmp_gt_lt bytes_Compare). }
      exists (r :: l1), r', l2. split; [done|]. split; [done|]. constructor; [by apply in_range_before|done].
Qed.

Lemma split_ranges_contiguous splits : forall start, Forall (fun k => k <> []) splits ->
  StronglySorted (fun a b => bytes_Compare a b <> Gt) (start :: splits) -> contiguous start (split_ranges start splits).
Proof.
  induction splits as [|k splits IH]; intros start Hn Hs; [done|]. cbn [split_ranges contiguous kr_left kr_right].
  apply Forall_cons in Hn as [Hk Hn]. apply StronglySorted_inv in Hs as [Hs Ha]. split; [done|].
  specialize (IH k Hn Hs). destruct (split_ranges k splits) as [|r rs] eqn:E; [done|]. split; [done|]. split; [|done].
  by apply Forall_cons in Ha as [? _].
Qed.

(** Ranges that differ in their sizes only. *)
Definition same_bounds (r r' : keyRange) : Prop := kr_left r' = kr_left r /\ kr_right r' = kr_right r.

Lemma contiguous_bounds rs rs' start : Forall2 same_bounds rs rs' -> contiguous start rs -> contiguous start rs'.
Proof.
  intros H. revert start. induction H as [|r r' rs rs' [E1 E2] Hrs IH]; intros start; [done|]. cbn [contiguous].
  rewrite E1, E2. intros [El Hc]. split; [done|]. destruct Hrs as [|r2 r2' rs2 rs2' Hr2 Hrs2]; [done|].
  destruct Hc as (? & ? & Hc). split; [done|]. split; [done|]. by apply IH.
Qed.

Lemma bin_ranges_contiguous avg rs : forall cur start, contiguous start (cur :: rs) -> contiguous start (bin_ranges avg cur rs).
Proof.
  induction rs as [|next rs IH]; intros cur start Hc; [done|]. destruct Hc as (El & Hn & Hle & Hc). cbn [bin_ranges].
  case_bool_decide.
  - specialize (IH next (kr_right cur) Hc). cbn [contiguous]. split; [done|].
    destruct (bin_ranges avg next rs) eqn:E; [done|]. done.
  - apply IH. destruct Hc as [En Hc]. cbn [contiguous kr_left kr_right]. split; [done|]. destruct rs; [done|].
    destruct Hc as (? & Hle2 & Hc). split; [done|]. split; [|done]. by apply (cmp_le_trans bytes_Compare _ (kr_right cur)).
Qed.

(** The bounds other than the first and the last. *)
Definition inner (P : bytes -> Prop) (rs : list keyRange) : Prop := forall r, r ∈ rs -> kr_left r = [] \/ P (kr_left r).

Lemma split_ranges_inner (P : bytes -> Prop) splits : forall start, Forall P splits -> start = [] \/ P start ->
  inner P (split_ranges start splits).
Proof.
  induction splits as [|k splits IH]; intros start Hp Hs r; cbn [split_ranges].
  - by intros ->%list_elem_of_singleton.
  - apply Forall_cons in Hp as [Hk Hp]. intros [->|Hr]%elem_of_cons; [done|]. apply (IH k); [done|by right|done].
Qed.

Lemma bin_ranges_inner (P : bytes -> Prop) avg rs : forall cur, inner P (cur :: rs) -> inner P (bin_ranges avg cur rs).
Proof.
  induction rs as [|next rs IH]; intros cur Hi; [done|]. cbn [bin_ranges]. case_bool_decide.
  - intros r [->|Hr]%elem_of_cons; [apply Hi; by left|]. apply (IH next); [|done]. intros r' Hr'. apply Hi. by right.
  - apply IH. intros r [->|Hr]%elem_of_cons; [cbn; apply (Hi cur); by left|]. apply Hi. by right; right.
Qed.

Definition end_ok (k : bytes) : Prop := k = [] \/ has_ts k.

Lemma overlapsWith_total r dst : kr_inf r = false -> has_ts (kr_left r) -> has_ts (kr_right r) ->
  has_ts (kr_left dst) -> has_ts (kr_right dst) -> is_Some (overlapsWith r dst).
Proof.
  intros _ H1 H2 H3 H4. unfold overlapsWith. destruct (isEmpty r); [by eexists|]. destruct (isEmpty dst); [by eexists|].
  destruct (_ || _); [by eexists|]. rewrite !CompareKeys_total by done. cbn. case_bool_decide; by eexists.
Qed.

Lemma add_size_ok ti r : has_ts (ti_Left ti) -> has_ts (ti_Right ti) -> kr_inf r = false ->
  end_ok (kr_left r) -> end_ok (kr_right r) -> exists r', add_size_of ti r = Some r' /\ same_bounds r r' /\ kr_inf r' = false.
Proof.
  intros Hl Hr Hi H1 H2. unfold add_size_of. destruct (decide (kr_left r = [])) as [E|N1].
  { exists r. by rewrite E. }
  destruct (decide (kr_right r = [])) as [E|N2]; [exists r; by rewrite E, orb_true_r|].
  rewrite !bool_decide_eq_false_2 by (by rewrite len_0). cbn [orb].
  destruct H1 as [?|H1]; [done|]. destruct H2 as [?|H2]; [done|].
  destruct (overlapsWith_total r (mkKR (ti_Left ti) (ti_Right ti) false 0)) as [b ->]; [done..|]. cbn [mbind option_bind].
  eexists. split; [done|]. destruct b; [|done]. by repeat split.
Qed.

Lemma add_sizes_ok tis : forall rs, Forall (fun ti => has_ts (ti_Left ti) /\ has_ts (ti_Right ti)) tis ->
  Forall (fun r => kr_inf r = false /\ end_ok (kr_left r) /\ end_ok (kr_right r)) rs ->
  exists rs', add_sizes tis rs = Some rs' /\ Forall2 same_bounds rs rs'.
Proof.
  induction tis as [|ti tis IH]; intros rs Ht Hr.
  { exists rs. split; [done|]. by apply Forall_Forall2_diag, Forall_forall. }
  apply Forall_cons in Ht as [[Hl Hri] Ht]. cbn [add_sizes].
  assert (exists rs1, mapM (add_size_of ti) rs = Some rs1 /\ Forall2 same_bounds rs rs1 /\
    Forall (fun r => kr_inf r = false /\ end_ok (kr_left r) /\ end_ok (kr_right r)) rs1) as (rs1 & -> & H1 & H2).
  { clear IH Ht. induction Hr as [|r rs (Hi & E1 & E2) _ (rs1 & IH & H1 & H2)]; [by exists []|].
    destruct (add_size_ok ti r Hl Hri Hi E1 E2) as (r' & Er & [B1 B2] & Hi'). exists (r' :: rs1). cbn. rewrite Er, IH.
    split; [done|]. split; [by constructor|]. constructor; [|done]. by rewrite B1, B2. }
  cbn [mbind option_bind]. destruct (IH rs1 Ht H2) as (rs2 & -> & H3). exists rs2. split; [done|].
  clear -H1 H3. revert rs2 H3. induction H1 as [|r r1 rs rs1 [A1 A2] _ IH]; intros rs2 H3.
  - by apply Forall2_nil_inv_l in H3 as ->.
  - apply Forall2_cons_inv_l in H3 as (r2 & rs2' & [B1 B2] & H3 & ->). constructor; [split; congruence|by apply IH].
Qed.

Lemma split_loop_elem fuel : forall i jump prefix bks k, k ∈ split_loop fuel i jump prefix bks -> k ∈ bks /\ prefix `prefix_of` k.
Proof.
  induction fuel as [|fuel IH]; intros i jump prefix bks k; cbn [split_loop]; [by intros ?%elem_of_nil|].
  destruct (bks !! i) as [key|] eqn:E; [|by intros ?%elem_of_nil]. intros [Hk|Hk]%elem_of_app; [|by apply IH in Hk].
  case_bool_decide; [|by apply elem_of_nil in Hk]. apply list_elem_of_singleton in Hk as ->. split; [|done].
  by apply list_elem_of_lookup_2 in E.
Qed.

Lemma mtSplits_elem prefix sl : forall count k, k ∈ mtSplits count prefix sl -> (exists x, x ∈ sl /\ k = x.1) /\ prefix `prefix_of` k.
Proof.
  induction sl as [|x sl IH]; intros count k; cbn [mtSplits]; [by intros ?%elem_of_nil|].
  intros [Hk|Hk]%elem_of_app.
  - destruct (bool_decide_reflect (count mod 10000 = 0)%nat) as [_|]; [|by apply elem_of_nil in Hk]. cbn [andb] in Hk.
    case_bool_decide; [|by apply elem_of_nil in Hk]. apply list_elem_of_singleton in Hk as ->. split; [|done].
    exists x. split; [by left|done].
  - destruct (IH _ _ Hk) as [(y & Hy & ->) ?]. split; [|done]. exists y. split; [by right|done].
Qed.

Section RangesOk.
Context (block_keys : Table -> list bytes) (UncompressedSize : Table -> Z).
Context (levels : list levelHandler) (mt : list kv) (imm : list (list kv)).

(** Every key the ranges are made of has a timestamp. *)
Record keys_have_ts : Prop := {
  kt_tables : forall h t, h ∈ levels -> t ∈ tables h -> table_ok t /\ Forall has_ts (block_keys t);
  kt_mems : forall sl x, sl ∈ mt :: imm -> x ∈ sl -> has_ts x.1
}.

Lemma getTableInfo_elem ti : ti ∈ getTableInfo UncompressedSize levels ->
  exists h t, h ∈ levels /\ t ∈ tables h /\ ti_Left ti = Smallest t /\ ti_Right ti = Biggest t.
Proof.
  unfold getTableInfo. rewrite (sort_by_Permutation info_cmp). intros Hti. apply elem_of_concat in Hti as (l & Hl & Hti).
  apply list_elem_of_fmap in Hl as (h & -> & Hh). apply list_elem_of_fmap in Hti as (t & -> & Ht). by exists h, t.
Qed.

Lemma KeySplits_elem t n prefix k : k ∈ KeySplits block_keys t n prefix -> k ∈ block_keys t /\ prefix `prefix_of` k.
Proof. unfold KeySplits. case_bool_decide; [by intros ?%elem_of_nil|]. apply split_loop_elem. Qed.

Lemma keySplits_elem n prefix k : k ∈ keySplits block_keys levels n prefix ->
  (exists h t, h ∈ levels /\ t ∈ tables h /\ k ∈ block_keys t) /\ prefix `prefix_of` k.
Proof.
  unfold keySplits, sort_Strings. rewrite (sort_by_Permutation bytes_Compare). intros Hk.
  apply elem_of_concat in Hk as (l & (h & -> & Hh)%list_elem_of_fmap & Hk).
  apply elem_of_concat in Hk as (l & (t & -> & Ht)%list_elem_of_fmap & Hk).
  apply KeySplits_elem in Hk as [Hk Hp]. split; [|done]. by exists h, t.
Qed.

Lemma splits_of_ok MaxLevels prefix : keys_have_ts ->
  Forall (fun k => has_ts k /\ prefix `prefix_of` k)
    (splits_of block_keys MaxLevels prefix (getTableInfo UncompressedSize levels) levels mt imm).
Proof.
  intros [Ht Hm]. unfold splits_of. set (sp1 := ti_Right <$> _).
  assert (forall k, k ∈ sp1 -> has_ts k /\ prefix `prefix_of` k) as H1.
  { intros k (ti & -> & Hti)%list_elem_of_fmap. apply list_elem_of_filter in Hti as [[_ Hp] Hti]. split; [|done].
    apply getTableInfo_elem in Hti as (h & t & Hh & Htb & _ & ->). destruct (Ht h t Hh Htb) as [Hok _]. by apply table_has_ts. }
  set (sp2 := if bool_decide (length sp1 < 32)%nat then _ else sp1).
  assert (forall k, k ∈ sp2 -> has_ts k /\ prefix `prefix_of` k) as H2.
  { unfold sp2. case_bool_decide; [|exact H1]. intros k Hk. apply keySplits_elem in Hk as [(h & t & Hh & Htb & Hk) Hp].
    split; [|done]. destruct (Ht h t Hh Htb) as [_ Hb]. by apply (proj1 (Forall_forall _ _) Hb). }
  apply Forall_forall. case_bool_decide; [|exact H2]. intros k. rewrite !elem_of_app. intros [Hk|[Hk|Hk]]; [by apply H2|..].
  - apply elem_of_concat in Hk as (l & (sl & -> & Hsl)%list_elem_of_fmap & Hk).
    apply mtSplits_elem in Hk as [(x & Hx & ->) Hp]. split; [|done]. apply (Hm sl x); [by right|done].
  - apply mtSplits_elem in Hk as [(x & Hx & ->) Hp]. split; [|done]. apply (Hm mt x); [by left|done].
Qed.

Lemma Ranges_ok MaxLevels prefix numRanges : keys_have_ts -> numRanges <> 0 ->
  exists rs, Ranges block_keys UncompressedSize MaxLevels prefix numRanges levels mt imm = Some rs /\
    contiguous [] rs /\ inner (fun k => prefix `prefix_of` k) rs.
Proof.
  intros Hk Hn. unfold Ranges. pose proof (splits_of_ok MaxLevels prefix Hk) as Hsp. set (splits := splits_of _ _ _ _ _ _ _) in *.
  assert (Forall (fun k => has_ts k /\ prefix `prefix_of` k) (sort_Strings splits)) as Hs.
  { unfold sort_Strings. by rewrite (sort_by_Permutation bytes_Compare). }
  assert (contiguous [] (split_ranges [] (sort_Strings splits))) as Hc.
  { apply split_ranges_contiguous.
    - eapply Forall_impl; [exact Hs|]. intros k [Hkt _] ->. unfold has_ts, len in Hkt. cbn in Hkt. lia.
    - constructor; [apply (sort_by_sorted bytes_Compare id)|]. apply Forall_forall. intros k _. by destruct k. }
  assert (Forall (fun r => kr_inf r = false /\ end_ok (kr_left r) /\ end_ok (kr_right r)) (split_ranges [] (sort_Strings splits))) as He.
  { assert (forall l start, end_ok start -> Forall (fun k => has_ts k /\ prefix `prefix_of` k) l ->
      Forall (fun r => kr_inf r = false /\ end_ok (kr_left r) /\ end_ok (kr_right r)) (split_ranges start l)) as H; [|by apply H; [left|]].
    induction l as [|k l IH]; intros start Hst Hl; cbn [split_ranges].
    - constructor; [|done]. split; [done|]. split; [done|by left].
    - apply Forall_cons in Hl as [[Hkt _] Hl]. constructor; [|apply IH; [by right|done]]. split; [done|]. split; [done|by right]. }
  pose proof (split_ranges_inner (fun k => prefix `prefix_of` k) (sort_Strings splits) []
    ltac:(by eapply Forall_impl; [exact Hs|intros k []]) ltac:(by left)) as Hi.
  destruct (add_sizes_ok (getTableInfo UncompressedSize levels) _ ltac:(apply Forall_forall; intros ti Hti;
    apply getTableInfo_elem in Hti as (h & t & Hh & Htb & -> & ->); destruct Hk as [Ht _]; destruct (Ht h t Hh Htb) as [Hok _];
    by apply table_has_ts) He) as (rs & -> & Hb). cbn [mbind option_bind].
  pose proof (contiguous_bounds _ _ _ Hb Hc) as Hc'.
  assert (inner (fun k => prefix `prefix_of` k) rs) as Hi'.
  { intros r Hr. apply list_elem_of_lookup in Hr as [n Hr]. destruct (Forall2_lookup_r _ _ _ _ _ Hb Hr) as (r0 & Hr0 & [E _]).
    rewrite E. apply Hi. by apply list_elem_of_lookup_2 in Hr0. }
  case_bool_decide; [by exists rs|]. rewrite (bool_decide_eq_false_2 (numRanges = 0)) by done.
  destruct rs as [|r rs]; [done|]. eexists. split; [done|]. split.
  - apply bin_ranges_contiguous. exact Hc'.
  - apply bin_ranges_inner. intros r' [->|Hr']%elem_of_cons; [apply (Hi' r); by left|apply Hi'; by right].
Qed.
End RangesOk.

(** ** Lemmas: iterating over a range *)

(** The entries of a user key at the head of a list. *)
Definition same_key (k : bytes) (l : list kv) : list kv := take_while (fun y => bool_decide (ukey y.1 = k)) l.

Definition before_right (right k : bytes) : bool := bool_decide (len right = 0) || bool_decide (bytes_Compare k right = Lt).

(** What [iterate] collects from the entries to come. *)
Fixpoint list_keys (lst : list kv -> list KV) (right prev : bytes) (T : list kv) : list KV :=
  match T with
  | [] => []
  | x :: T' =>
      if bool_decide (ukey x.1 = prev) then list_keys lst right prev T'
      else if before_right right (ukey x.1) then lst (same_key (ukey x.1) T) ++ list_keys lst right (ukey x.1) T'
      else []
  end.

Lemma list_keys_skip lst right k pre : forall T, Forall (fun y : kv => ukey y.1 = k) pre ->
  list_keys lst right k (pre ++ T) = list_keys lst right k T.
Proof.
  induction pre as [|y pre IH]; intros T Hp; [done|]. apply Forall_cons in Hp as [Hy Hp]. cbn [app list_keys].
  rewrite bool_decide_eq_true_2 by done. by apply IH.
Qed.

Section Iterating.
Context {S : Type} {sk : bytes -> Prop} {I : YIterator S} {L : YIteratorLaws S false sk}.
Context (MemHash : bytes -> Z) (topt : txn_opts) (vlog_read : valuePointer -> result vlog_error bytes).
Context (opt : IteratorOptions) (ts : Z) (banned : gset Z) (now : Z) (es : list kv) (fuel : nat).
Context (Hdir : Reverse opt = false) (Hready : run_ready (rev := false) topt vlog_read banned es) (Hfuel : (length es < fuel)%nat).
Notation clock := (fun _ : bytes => now).
Notation ready := (ready (rev := false) (sk := sk) topt vlog_read opt ts banned clock es).
Notation val_of := (value_of_kv vlog_read).

(** What is still to show: entries of the run, shown, with the prefix. *)
Definition to_show (x : kv) : Prop := x ∈ es /\ shown topt opt ts banned clock es x = true /\ valid opt x = true.

(** A function for the versions of a key: what it makes of them, and where it leaves the iterator. *)
Definition lists_versions (KeyToList : bytes -> Iterator S -> Txn -> option (option (list KV) * Iterator S * Txn))
    (lst : list kv -> list KV) : Prop :=
  forall it t x T, ready it (x :: T) -> Forall to_show (x :: T) -> run_sorted false (x :: T) ->
    exists it' t' pre T2, KeyToList (ukey x.1) it t = Some (Some (lst (same_key (ukey x.1) (x :: T))), it', t') /\
      ready it' T2 /\ x :: T = pre ++ T2 /\ Forall (fun y : kv => ukey y.1 = ukey x.1) pre.

Lemma shown_length T : Forall to_show T -> run_sorted false T -> (length T <= length es)%nat.
Proof using Type.
  intros Hs Hso. apply submseteq_length, NoDup_submseteq; [by apply sorted_nodup|]. intros x Hx.
  by apply (proj1 (Forall_forall _ _) Hs).
Qed.

Lemma visit it z T : ready it (z :: T) -> to_show z -> iter_Valid it = true /\
  exists item it', (forall t, iter_Item MemHash it t = Some (item, addReadKey MemHash t (ukey z.1))) /\ item_shows vlog_read z item /\
    iter_Next topt vlog_read banned clock fuel it = Some it' /\ ready it' T.
Proof using Hdir Hready Hfuel.
  intros Hrd (_ & _ & Hv). destruct (iter_visit_ok MemHash topt vlog_read opt ts banned clock es Hdir Hready fuel it z T Hrd Hfuel) as (-> & H).
  by split.
Qed.

Lemma iterate_keys_ok KeyToList lst right steps : lists_versions KeyToList lst -> forall it t T prev,
  ready it T -> Forall to_show T -> run_sorted false T ->
  (2 * length T < steps)%nat \/ ((exists x T', T = x :: T' /\ ukey x.1 = prev) /\ (2 * length T <= steps)%nat) ->
  exists it' t', iterate_keys MemHash topt vlog_read banned now fuel KeyToList None right steps it t prev
    = Some (list_keys lst right prev T, it', t').
Proof using Hdir Hready Hfuel.
  intros Hl. induction steps as [|steps IH]; intros it t T prev Hrd Hs Hso Hn.
  { destruct Hn as [Hn|((x & T' & -> & _) & Hn)]; simpl in Hn; lia. }
  cbn [iterate_keys]. destruct T as [|x T].
  { rewrite (visit_end _ _ _ _ _ _ _ it Hrd). by exists it, t. }
  pose proof Hs as Hs0. apply Forall_cons in Hs as [Hx Hs].
  destruct (visit it x T Hrd Hx) as (-> & item & it1 & Ei & Hsh & En & Hrd1). rewrite Ei. cbn [mbind option_bind].
  rewrite (is_key _ _ _ Hsh). cbn [list_keys]. destruct (bool_decide_reflect (ukey x.1 = prev)) as [E|Ne].
  - rewrite En. cbn [mbind option_bind]. apply IH; [done|done|by apply StronglySorted_inv in Hso as [? _]|]. left. destruct Hn as [Hn|[_ Hn]]; simpl in Hn; lia.
  - assert (2 * length (x :: T) < Datatypes.S steps)%nat as Hn' by (destruct Hn as [Hn|((y & T' & [= -> ->] & E) & _)]; done).
    assert (bool_decide (0 < len right) && negb (bool_decide (bytes_Compare (ukey x.1) right = Lt))
      = negb (before_right right (ukey x.1))) as ->.
    { unfold before_right. assert (bool_decide (0 < len right) = negb (bool_decide (len right = 0))) as ->.
      { pose proof (len_nonneg right). case_bool_decide; case_bool_decide; cbn; lia || done. }
      by rewrite negb_orb. }
    destruct (before_right right (ukey x.1)); cbn [negb]; [|by eexists _, _].
    destruct (Hl it (addReadKey MemHash t (ukey x.1)) x T Hrd Hs0 Hso) as (it2 & t2 & pre & T2 & -> & Hrd2 & Et & Hp).
    cbn [mbind option_bind default].
    destruct (IH it2 t2 T2 (ukey x.1) Hrd2) as (it3 & t3 & ->).
    + rewrite Et in Hs0. by apply Forall_app in Hs0 as [_ ?].
    + rewrite Et in Hso. by apply run_sorted_app in Hso as (_ & ? & _).
    + apply (f_equal length) in Et as El. rewrite length_app in El. destruct pre as [|y pre].
      * right. split; [by exists x, T|]. simpl in *. lia.
      * left. simpl in *. lia.
    + cbn [mbind option_bind]. eexists _, _. f_equal. f_equal. f_equal. f_equal.
      pose proof (list_keys_skip lst right (ukey x.1) pre T2 Hp) as E2. rewrite <- Et in E2. rewrite <- E2. cbn [list_keys].
      by rewrite bool_decide_eq_true_2.
Qed.

(** *** [ToList] *)

Definition kv_of (x : kv) : KV := mkKVs (ukey x.1) (val_of x) [UserMeta x.2] (ParseTs x.1) (ExpiresAt x.2) [] 0 false.

(** The versions [ToList] takes. *)
Definition taken (NumVersionsToKeep : Z) (l : list kv) : list kv :=
  if bool_decide (NumVersionsToKeep = 1) then take 1 (live now l) else live now l.

Lemma ToList_loop_ok N : forall k steps it t T acc, ready it T -> Forall to_show T -> (length T < steps)%nat ->
  exists it' t' pre T2, ToList_loop MemHash topt vlog_read banned now fuel N k steps it t acc
      = Some (Some (acc ++ (kv_of <$> taken N (same_key k T))), it', t') /\
    ready it' T2 /\ T = pre ++ T2 /\ Forall (fun y : kv => ukey y.1 = k) pre.
Proof using Hdir Hready Hfuel.
  intros k steps. induction steps as [|steps IH]; intros it t T acc Hrd Hs Hst; [lia|]. cbn [ToList_loop].
  assert (forall l, taken N [] = [] /\ (taken N l = [] -> acc ++ (kv_of <$> taken N l) = acc)) as Hnil.
  { intros l. split; [unfold taken; by case_bool_decide|]. intros ->. by rewrite app_nil_r. }
  destruct T as [|z T].
  { rewrite (visit_end _ _ _ _ _ _ _ it Hrd). exists it, t, [], []. cbn. destruct (Hnil []) as [-> _]. by rewrite app_nil_r. }
  pose proof Hs as Hs0. apply Forall_cons in Hs as [Hz Hs].
  destruct (visit it z T Hrd Hz) as (-> & item & it1 & Ei & Hsh & En & Hrd1). rewrite Ei. cbn [mbind option_bind].
  assert (IsDeletedOrExpired now item = dead now z) as ->
    by (unfold IsDeletedOrExpired, dead; by rewrite (is_meta _ _ _ Hsh), (is_expiresAt _ _ _ Hsh)).
  rewrite (is_key _ _ _ Hsh). unfold same_key. cbn [take_while]. fold (same_key k T).
  destruct (dead now z) eqn:Ed.
  { eexists it, _, [], (z :: T). split; [|by split]. f_equal. f_equal. f_equal. f_equal. symmetry. apply Hnil.
    case_bool_decide; [|by apply Hnil]. unfold taken. cbn [live]. rewrite Ed. by case_bool_decide. }
  destruct (bool_decide_reflect (ukey z.1 = k)) as [E|Ne].
  2:{ rewrite bool_decide_eq_true_2 by done. eexists it, _, [], (z :: T). split; [|by split].
      f_equal. f_equal. f_equal. f_equal. symmetry. apply Hnil. by apply Hnil. }
  rewrite bool_decide_eq_false_2 by (intros Hne; by apply Hne).
  rewrite (item_reads vlog_read z) by (done || apply Hready; apply Hz). cbn [mbind option_bind].
  assert (DiscardEarlierVersions item = discards z) as ->
    by (unfold DiscardEarlierVersions, discards; by rewrite (is_meta _ _ _ Hsh)).
  assert (mkKVs k (val_of z) [it_userMeta item] (it_version item) (it_expiresAt item) [] 0 false = kv_of z) as ->
    by (unfold kv_of; by rewrite E, (is_userMeta _ _ _ Hsh), (is_version _ _ _ Hsh), (is_expiresAt _ _ _ Hsh)).
  destruct (bool_decide (N = 1)) eqn:EN.
  { eexists it, _, [], (z :: T). split; [|by split]. unfold taken. rewrite EN. cbn [live]. rewrite Ed. by destruct (discards z). }
  destruct (discards z) eqn:Edz.
  { eexists it, _, [], (z :: T). split; [|by split]. unfold taken. rewrite EN. cbn [live]. by rewrite Ed, Edz. }
  rewrite En. cbn [mbind option_bind].
  destruct (IH it1 (addReadKey MemHash t (ukey z.1)) T (acc ++ [kv_of z]) Hrd1 Hs) as (it2 & t2 & pre & T2 & -> & Hrd2 & -> & Hp);
    [simpl in Hst; lia|].
  exists it2, t2, (z :: pre), T2. split; [|split; [done|split; [done|by constructor]]].
  f_equal. f_equal. f_equal. f_equal. unfold taken. rewrite EN. cbn [live]. rewrite Ed, Edz, fmap_cons. by rewrite <- app_assoc.
Qed.

Lemma ToList_ok N steps : (length es < steps)%nat ->
  lists_versions (ToList MemHash topt vlog_read banned now fuel N steps) (fun l => kv_of <$> taken N l).
Proof using Hdir Hready Hfuel.
  intros Hst it t x T Hrd Hs Hso. unfold ToList.
  destruct (ToList_loop_ok N (ukey x.1) steps it t (x :: T) [] Hrd Hs) as (it' & t' & pre & T2 & E & H1 & H2 & H3).
  - pose proof (shown_length _ Hs Hso). lia.
  - by exists it', t', pre, T2.
Qed.
End Iterating.

(** ** Lemmas: what is listed of a range *)

Definition by_ukey (T : list kv) : Prop := StronglySorted (fun x y : kv => bytes_Compare (ukey x.1) (ukey y.1) <> Gt) T.

Definition of_key (k : bytes) (l : list kv) : list kv := filter (fun x => ukey x.1 = k) l.

Lemma sorted_by_ukey T : run_sorted false T -> by_ukey T.
Proof.
  induction 1 as [|x T Hs IH Hx]; constructor; [done|]. eapply Forall_impl; [exact Hx|]. intros y Hy.
  apply compareKeys_ukey. cbn in Hy. by rewrite Hy.
Qed.

Lemma same_key_of k T : by_ukey T -> Forall (fun x : kv => bytes_Compare k (ukey x.1) <> Gt) T -> same_key k T = of_key k T.
Proof.
  induction 1 as [|x T Hs IH Hx]; intros Hk; [done|]. apply Forall_cons in Hk as [Hkx Hk]. unfold same_key, of_key. cbn [take_while].
  rewrite filter_cons. destruct (bool_decide_reflect (ukey x.1 = k)) as [E|Ne].
  - rewrite decide_True by done. f_equal. by apply IH.
  - rewrite decide_False by done. fold (of_key k T). destruct (of_key k T) as [|y l] eqn:Eo; [done|exfalso].
    assert (y ∈ of_key k T) as Hy by (rewrite Eo; by left). apply list_elem_of_filter in Hy as [Ey Hy]. rewrite Forall_forall in Hx. specialize (Hx y Hy). cbn in Hx. rewrite Ey in Hx.
    apply Ne. by apply (cmp_le_antisym bytes_Compare).
Qed.

Lemma of_key_cons_ne k x T : ukey x.1 <> k -> of_key k (x :: T) = of_key k T.
Proof. intros H. unfold of_key. rewrite filter_cons. by rewrite decide_False. Qed.

Lemma list_keys_in lst right kv T : forall prev, by_ukey T -> Forall (fun x : Tables.kv => bytes_Compare prev (ukey x.1) <> Gt) T ->
  kv ∈ list_keys lst right prev T <->
  exists k, k <> prev /\ (exists x, x ∈ T /\ ukey x.1 = k) /\ before_right right k = true /\ kv ∈ lst (of_key k T).
Proof.
  induction T as [|x T IH]; intros prev Hs Hp; cbn [list_keys].
  { split; [by intros ?%elem_of_nil|]. by intros (k & _ & (x & ?%elem_of_nil & _) & _). }
  pose proof Hs as Hs0. apply StronglySorted_inv in Hs as [Hs Hx]. pose proof Hp as Hp0. apply Forall_cons in Hp as [Hpx Hp].
  destruct (bool_decide_reflect (ukey x.1 = prev)) as [E|Ne].
  { rewrite (IH prev Hs Hp). split; intros (k & Hk & (y & Hy & Ey) & Hb & Hin); exists k.
    - split; [done|]. split; [exists y; by split; [right|]|]. split; [done|]. rewrite of_key_cons_ne by congruence. done.
    - rewrite of_key_cons_ne in Hin by congruence. split; [done|]. split; [|done].
      apply elem_of_cons in Hy as [->|Hy]; [congruence|]. by exists y. }
  destruct (before_right right (ukey x.1)) eqn:Er.
  - rewrite elem_of_app, (IH (ukey x.1) Hs Hx), same_key_of by (done || by constructor; [rewrite (cmp_refl bytes_Compare)|]). split.
    + intros [Hin|(k & Hk & (y & Hy & Ey) & Hb & Hin)].
      * exists (ukey x.1). split; [done|]. split; [exists x; by split; [left|]|]. done.
      * exists k. rewrite of_key_cons_ne by congruence. split; [|split; [exists y; by split; [right|]|done]].
        intros ->. rewrite Forall_forall in Hx, Hp. specialize (Hx y Hy). cbn in Hx. rewrite Ey in Hx.
        apply Ne. by apply (cmp_le_antisym bytes_Compare).
    + intros (k & Hk & (y & Hy & Ey) & Hb & Hin). destruct (decide (k = ukey x.1)) as [->|Hne]; [by left|right].
      exists k. rewrite of_key_cons_ne in Hin by congruence. split; [done|]. split; [|done].
      apply elem_of_cons in Hy as [->|Hy]; [congruence|]. by exists y.
  - split; [by intros ?%elem_of_nil|]. intros (k & Hk & (y & Hy & Ey) & Hb & _). exfalso. unfold before_right in *.
    apply orb_false_iff in Er as [Er1 Er2]. rewrite Er1 in Hb. cbn in Hb. apply bool_decide_eq_true in Hb.
    apply bool_decide_eq_false in Er2. apply Er2. apply elem_of_cons in Hy as [->|Hy]; [by rewrite Ey|].
    rewrite Forall_forall in Hx. specialize (Hx y Hy). cbn in Hx. rewrite Ey in Hx. by apply (cmp_le_lt_trans bytes_Compare _ k).
Qed.

(** ** Lemmas: every version once *)

(** What tells two versions apart. *)
Definition key_version (kv : KV) : bytes * Z := (k_Key kv, k_Version kv).

(** A list of a key's versions has each once. *)
Definition lists_once (lst : list kv -> list KV) : Prop :=
  forall k T, run_sorted false T -> keys_ok T ->
    NoDup (key_version <$> lst (of_key k T)) /\ forall kv, kv ∈ lst (of_key k T) -> k_Key kv = k.

Lemma list_keys_once lst right T : lists_once lst -> run_sorted false T -> keys_ok T ->
  forall prev, Forall (fun x : Tables.kv => bytes_Compare prev (ukey x.1) <> Gt) T -> NoDup (key_version <$> list_keys lst right prev T).
Proof.
  intros Hl. induction T as [|x T IH]; intros Hs Hk prev Hp; cbn [list_keys]; [constructor|].
  pose proof (sorted_by_ukey _ Hs) as Hu. pose proof Hu as Hu0. apply StronglySorted_inv in Hu0 as [Hu' Hx].
  pose proof Hs as Hs0. apply StronglySorted_inv in Hs0 as [Hs' _]. pose proof Hk as Hk0. apply Forall_cons in Hk0 as [_ Hk'].
  pose proof Hp as Hp0. apply Forall_cons in Hp0 as [Hpx Hp'].
  destruct (bool_decide_reflect (ukey x.1 = prev)) as [E|Ne]; [by apply IH|].
  destruct (before_right right (ukey x.1)); [|constructor].
  rewrite same_key_of by (done || by constructor; [rewrite (cmp_refl bytes_Compare)|]).
  destruct (Hl (ukey x.1) (x :: T) Hs Hk) as [Hn Hkey]. rewrite fmap_app. apply NoDup_app. split; [done|]. split; [|by apply IH].
  intros p (kv & -> & Hkv)%list_elem_of_fmap (kv' & Ev & Hkv')%list_elem_of_fmap.
  apply list_keys_in in Hkv' as (k & Hne & _ & _ & Hkv'); [|done..]. destruct (Hl k T Hs' Hk') as [_ Hkey'].
  injection Ev as Ek _. by rewrite (Hkey kv Hkv), (Hkey' kv' Hkv') in Ek.
Qed.

Lemma filter_fmap_length {X Y} (f : X -> Y) (P : Y -> Prop) `{forall y, Decision (P y)} l :
  length (filter P (f <$> l)) = length (filter (fun x => P (f x)) l).
Proof. induction l as [|x l IH]; [done|]. rewrite fmap_cons, !filter_cons. case_decide; simpl; by rewrite IH. Qed.

Lemma contiguous_once rs u : contiguous [] rs -> length (filter (fun r => in_range r u = true) rs) = 1%nat.
Proof.
  intros Hc. destruct (contiguous_cover rs [] u Hc) as (l1 & r & l2 & -> & Hr & Ho); [by destruct u|].
  apply Forall_app in Ho as [H1 H2].
  assert (forall l, Forall (fun r => in_range r u = false) l -> filter (fun r => in_range r u = true) l = []) as Hno.
  { induction 1 as [|r' l E _ IH]; [done|]. rewrite filter_cons, decide_False by (by rewrite E). done. }
  rewrite filter_app, (Hno l1), filter_cons, decide_True, (Hno l2) by done. done.
Qed.

Section Range.
Context (topt : txn_opts) (opt : IteratorOptions) (ts : Z) (banned : gset Z) (clock : bytes -> Z) (es : list kv).
Context (Hdir : Reverse opt = false) (Hsorted : run_sorted false es) (Hkeys : keys_ok es) (Hts : 0 <= ts <= MaxUint64).
Notation shw := (shown topt opt ts banned clock es).

(** Everything an iteration with the prefix shows. *)
Definition all_shown : list kv := filter (fun x => shw x = true /\ Prefix opt `prefix_of` ukey x.1) es.

Lemma all_shown_sorted : run_sorted false all_shown.
Proof using Hsorted. by apply filter_sorted. Qed.

Lemma shown_ts x : shw x = true -> ParseTs x.1 <= ts.
Proof using Type.
  intros H. apply (in_window_ts topt opt ts banned). unfold shown in H. by apply andb_true_iff in H as [? _].
Qed.

Lemma sought_ge left x : Prefix opt `prefix_of` left \/ left = [] -> x ∈ es -> ParseTs x.1 <= ts ->
  x ∈ sought opt ts left es <-> bytes_Compare (seek_key opt left) (ukey x.1) <> Gt.
Proof using Hdir Hsorted Hkeys Hts.
  intros _ Hx Hv. unfold sought. set (k := seek_key opt left). case_bool_decide as Hz.
  { rewrite len_0 in Hz. rewrite Hz. split; [|done]. intros _. by destruct (ukey x.1). }
  unfold seek_ts. rewrite Hdir. assert (key_ok x.1) as Hkx by (by apply (proj1 (Forall_forall _ _) Hkeys)).
  rewrite (run_from_elem false) by done. cbn [dcmp]. rewrite len_0 in Hz.
  destruct (key_ok_eta _ Hkx) as (u & v & Hu & E & Hv' & _). rewrite E, ukey_KeyWithTs.
  rewrite E, ParseTs_KeyWithTs in Hv by done. rewrite compareKeys_KeyWithTs by done. split.
  - intros [_ Hge] Hgt. apply Hge. apply (cmp_gt_lt bytes_Compare) in Hgt. by rewrite Hgt.
  - intros Hle. split; [done|]. intros Hlt. destruct (bytes_Compare u k) eqn:Ec; [|by apply Hle, (cmp_gt_lt bytes_Compare)|done].
    change (ts < v) in Hlt. lia.
Qed.

Lemma sought_above left x : x ∈ sought opt ts left es -> bytes_Compare (seek_key opt left) (ukey x.1) <> Gt.
Proof using Hdir Hsorted.
  unfold sought. case_bool_decide as Hz; [rewrite len_0 in Hz; rewrite Hz; intros _; by destruct (ukey x.1)|].
  unfold seek_ts. rewrite Hdir. intros [_ Hge]%(run_from_elem false); [|done]. cbn [dcmp] in Hge.
  rewrite <- (ukey_KeyWithTs (seek_key opt left) ts). apply compareKeys_ukey. intros H. by apply Hge, (cmp_gt_lt compareKeys).
Qed.

Lemma ranged_elem left x : Prefix opt `prefix_of` left \/ left = [] ->
  x ∈ filter (fun x => shw x = true) (take_while (has_prefix opt) (sought opt ts left es)) <->
  x ∈ all_shown /\ bytes_Compare left (ukey x.1) <> Gt.
Proof using Hdir Hsorted Hkeys Hts.
  intros Hl. assert (Prefix opt `prefix_of` seek_key opt left) as Hpk.
  { unfold seek_key. case_bool_decide as Hz; [done|]. destruct Hl as [Hl| ->]; [done|]. by rewrite len_0 in Hz. }
  assert (forall y : kv, Prefix opt `prefix_of` ukey y.1 ->
    bytes_Compare (seek_key opt left) (ukey y.1) <> Gt <-> bytes_Compare left (ukey y.1) <> Gt) as Hsk.
  { intros y Hy. unfold seek_key. case_bool_decide as Hz; [|done]. rewrite len_0 in Hz. rewrite Hz. split; intros _; [by destruct (ukey y.1)|].
    by apply bytes_Compare_prefix. }
  destruct (sought_suffix opt ts es eq_refl left) as [pre Epre].
  assert (forall y, y ∈ sought opt ts left es -> y ∈ es) as Hin by (intros y Hy; rewrite Epre; apply elem_of_app; by right).
  assert (forall y, has_prefix opt y = true <-> Prefix opt `prefix_of` ukey y.1) as Hhp.
  { intros y. unfold has_prefix. rewrite Hdir. cbn [negb andb]. case_bool_decide as Hz; [apply bool_decide_eq_true|].
    assert (Prefix opt = []) as -> by (apply len_0; pose proof (len_nonneg (Prefix opt)); lia). split; [intros _; apply prefix_nil|done]. }
  unfold all_shown. rewrite !list_elem_of_filter. split.
  - intros [Hsh Hx]. apply take_while_elem in Hx as [Hx Hp]. apply Hhp in Hp. split; [by split; [|apply Hin]|].
    apply Hsk; [done|]. apply (sought_ge left); [done|by apply Hin|by apply shown_ts|done].
  - intros [[[Hsh Hp] Hx] Hle]. split; [done|]. apply Hsk in Hle; [|done].
    assert (x ∈ sought opt ts left es) as Hxs by (by apply sought_ge; [|..|apply shown_ts|]).
    apply list_elem_of_split in Hxs as (l1 & l2 & El). rewrite El. apply take_while_before; [|by apply Hhp].
    intros y Hy. apply Hhp. assert (y ∈ sought opt ts left es) as Hys by (rewrite El; apply elem_of_app; by left).
    pose proof Hsorted as Hso. rewrite Epre in Hso. apply run_sorted_app in Hso as (_ & Hso & _).
    rewrite El in Hso. apply run_sorted_app in Hso as (_ & _ & Hc).
    apply (prefix_between _ _ (ukey x.1)); [|apply compareKeys_ukey; rewrite (Hc y x); [done|done|by left]|done].
    apply (cmp_le_trans bytes_Compare _ (seek_key opt left)); [by apply bytes_Compare_prefix|].
    by apply sought_above.
Qed.
End Range.

Section RangeListed.
Context {S : Type} {I : YIterator S} (ts : Z) {L : YIteratorLaws S false (txn_seek false ts)}.
Context (MemHash : bytes -> Z) (topt : txn_opts) (vlog_read : valuePointer -> result vlog_error bytes).
Context (prefix : bytes) (since : Z) (banned : gset Z) (now : Z) (es : list kv) (fuel : nat).
Notation opt := (stream_iopts prefix since).
Notation clock := (fun _ : bytes => now).
Context (Hready : run_ready (rev := false) topt vlog_read banned es) (Hsorted : run_sorted false es).
Context (Hts : 0 <= ts <= MaxUint64) (Hfuel : (length es < fuel)%nat).
Notation every := (all_shown topt opt ts banned clock es).

(** The iterator [iterate] is given: over the run, or over nothing. *)
Definition fresh (it : Iterator S) : Prop :=
  (i_iitr it = None /\ i_item it = None /\ es = []) \/ opened (rev := false) (sk := txn_seek false ts) opt ts es it.

Lemma of_key_ranged left k T : (forall x, x ∈ T <-> x ∈ every /\ bytes_Compare left (ukey x.1) <> Gt) -> run_sorted false T ->
  bytes_Compare left k <> Gt -> of_key k T = of_key k every.
Proof using Hsorted Hts MemHash.
  intros HT Hso Hk. apply (sorted_ext false).
  - by apply filter_sorted.
  - by apply filter_sorted, all_shown_sorted.
  - intros x. unfold of_key. rewrite !list_elem_of_filter, HT. split; [tauto|]. intros [E Hx]. split; [done|]. split; [done|]. by rewrite E.
Qed.

Lemma iterate_range_ok KeyToList lst steps id kr it t :
  lists_versions (sk := txn_seek false ts) topt vlog_read opt ts banned now es KeyToList lst -> fresh it ->
  prefix `prefix_of` kr_left kr \/ kr_left kr = [] -> (2 * length es < steps)%nat ->
  exists kvs, iterate_range MemHash topt vlog_read banned now fuel KeyToList None steps id kr it t = Some kvs /\
    (forall kv, kv ∈ kvs <-> exists kv0 k, kv = set_StreamId kv0 id /\ k <> [] /\ (exists x, x ∈ every /\ ukey x.1 = k) /\ in_range kr k = true /\
        kv0 ∈ lst (of_key k every)) /\ (lists_once lst -> NoDup (key_version <$> kvs)).
Proof using Hready Hsorted Hts Hfuel.
  intros Hl Hit Hleft Hst. unfold iterate_range.
  assert (exists T it0 t0 it1 t1 kvs, iter_Seek MemHash topt vlog_read banned clock fuel it t (kr_left kr) = Some (it0, t0) /\
    iterate_keys MemHash topt vlog_read banned now fuel KeyToList None (kr_right kr) steps it0 t0 [] = Some (kvs, it1, t1) /\
    kvs = list_keys lst (kr_right kr) [] T /\ run_sorted false T /\
    forall x, x ∈ T <-> x ∈ every /\ bytes_Compare (kr_left kr) (ukey x.1) <> Gt) as (T & it0 & t0 & it1 & t1 & kvs & -> & E & -> & Hso & HT).
  { destruct Hit as [(E1 & E2 & E3)|Hit].
    - unfold iter_Seek. rewrite E1. exists [], it, t, it, t, []. split; [done|]. split; [|split; [done|split; [constructor|]]].
      + destruct steps as [|steps]; [lia|]. cbn [iterate_keys]. unfold iter_Valid. by rewrite E2.
      + intros x. unfold all_shown. rewrite E3. cbn. rewrite elem_of_nil. tauto.
    - destruct (Seek_ok MemHash topt vlog_read opt ts banned clock es eq_refl Hready fuel it t (kr_left kr) Hit) as (it0 & E & Hrd); [|done|done|].
      { unfold seekable. destruct (seek_key opt (kr_left kr)) as [|b k] eqn:Ek; [by left|right]. by exists (b :: k). }
      set (T := filter _ _) in Hrd.
      assert (forall x, x ∈ T <-> x ∈ every /\ bytes_Compare (kr_left kr) (ukey x.1) <> Gt) as HT.
      { intros x. apply ranged_elem; try done. apply Hready. }
      assert (run_sorted false T) as Hso.
      { apply filter_sorted. destruct (sought_suffix opt ts es eq_refl (kr_left kr)) as [pre E2].
        destruct (take_while_prefix (has_prefix opt) (sought opt ts (kr_left kr) es)) as [post E3].
        rewrite E2, E3 in Hsorted. apply run_sorted_app in Hsorted as (_ & Hso & _). by apply run_sorted_app in Hso as (? & _). }
      assert (Forall (to_show topt opt ts banned now es) T) as Hsh.
      { apply Forall_forall. intros x Hx. apply HT in Hx as [Hx _]. apply list_elem_of_filter in Hx as [[Hx Hp] Hxe].
        split; [done|]. split; [done|]. by apply bool_decide_eq_true_2. }
      pose proof (shown_length topt opt ts banned now es T Hsh Hso) as Hlen.
      destruct (iterate_keys_ok MemHash topt vlog_read opt ts banned now es fuel eq_refl Hready Hfuel KeyToList lst (kr_right kr) steps Hl
        it0 (if bool_decide (0 < len (kr_left kr)) then addReadKey MemHash t (kr_left kr) else t) T [] Hrd Hsh Hso) as (it1 & t1 & E2); [left; lia|].
      exists T. eexists it0, _, it1, t1, _. split; [exact E|]. split; [exact E2|]. done. }
  cbn [mbind option_bind]. rewrite E. cbn [mbind option_bind]. eexists. split; [done|]. split.
  2:{ intros Hl1. rewrite <- list_fmap_compose. apply list_keys_once; [done|done| |apply Forall_forall; intros x _; by destruct (ukey x.1)].
      apply Forall_forall. intros x [Hx _]%HT. apply list_elem_of_filter in Hx as [_ Hx].
      by apply (proj1 (Forall_forall _ _) (rr_keys _ _ _ _ Hready)). }
  intros kv. rewrite list_elem_of_fmap.
  assert (forall kv0, kv0 ∈ list_keys lst (kr_right kr) [] T <-> exists k, k <> [] /\ (exists x, x ∈ every /\ ukey x.1 = k) /\
    in_range kr k = true /\ kv0 ∈ lst (of_key k every)) as Hlist.
  { intros kv0. rewrite list_keys_in; [|by apply sorted_by_ukey|apply Forall_forall; intros x _; by destruct (ukey x.1)].
    assert (forall k, in_range kr k = true <-> bytes_Compare (kr_left kr) k <> Gt /\ before_right (kr_right kr) k = true) as Hr.
    { intros k. unfold in_range, before_right. rewrite andb_true_iff, orb_true_iff, negb_true_iff, bool_decide_eq_false, bool_decide_eq_true, len_0.
      rewrite <- (cmp_gt_lt bytes_Compare). split; intros [H1 H2]; split; try done; [|by right]. destruct H1 as [->|H1]; [by destruct k|done]. }
    split; intros (k & Hk & (x & Hx & Ex) & H1 & H2); exists k; split; try done.
    - apply HT in Hx as [Hx Hle]. rewrite Ex in Hle. rewrite (of_key_ranged (kr_left kr)) in H2 by done.
      split; [by exists x|]. by rewrite Hr.
    - apply Hr in H1 as [Hle Hb]. rewrite (of_key_ranged (kr_left kr)) by done. split; [|done].
      exists x. split; [|done]. apply HT. by rewrite Ex. }
  split.
  - intros (kv0 & -> & Hkv). apply Hlist in Hkv as (k & H1 & H2 & H3 & H4). by exists kv0, k.
  - intros (kv0 & k & -> & H1 & H2 & H3 & H4). exists kv0. split; [done|]. apply Hlist. by exists k.
Qed.

(** What is listed of the keys there are. *)
Definition listed (lst : list kv -> list KV) (kv0 : KV) : Prop :=
  exists k, k <> [] /\ (exists x, x ∈ every /\ ukey x.1 = k) /\ kv0 ∈ lst (of_key k every).

Lemma listed_key lst : lists_once lst -> forall k kv0, kv0 ∈ lst (of_key k every) -> k_Key kv0 = k.
Proof using Hready Hsorted Hts MemHash.
  intros Hl k kv0 Hkv. destruct (Hl k every) as [_ H]; [by apply all_shown_sorted| |by apply H].
  apply Forall_forall. intros x [_ Hx]%list_elem_of_filter. by apply (proj1 (Forall_forall _ _) (rr_keys _ _ _ _ Hready)).
Qed.

(** In whatever order the ranges are taken, the versions of every key are listed, each once. *)
Lemma iterate_ranges_ok KeyToList lst steps work rs :
  lists_versions (sk := txn_seek false ts) topt vlog_read opt ts banned now es KeyToList lst ->
  contiguous [] rs -> inner (fun k => prefix `prefix_of` k) rs -> (2 * length es < steps)%nat ->
  (fun w : keyRange * Z * Iterator S * Txn => w.1.1.1) <$> work ≡ₚ rs ->
  Forall (fun w : keyRange * Z * Iterator S * Txn => fresh w.1.2) work ->
  exists kvss, iterate_ranges MemHash topt vlog_read banned now fuel KeyToList None steps work = Some kvss /\
    (forall kv, kv ∈ concat kvss -> exists kv0 id, kv = set_StreamId kv0 id /\ listed lst kv0) /\
    (forall kv0, listed lst kv0 -> exists id, set_StreamId kv0 id ∈ concat kvss) /\
    (lists_once lst -> NoDup (key_version <$> concat kvss)).
Proof using Hready Hsorted Hts Hfuel.
  intros Hl Hc Hin Hst Hp Hw. set (range_of := fun w : keyRange * Z * Iterator S * Txn => w.1.1.1) in *.
  assert (Forall (fun w => prefix `prefix_of` kr_left (range_of w) \/ kr_left (range_of w) = []) work) as Hleft.
  { apply Forall_forall. intros w Hw'. assert (range_of w ∈ rs) as H by (rewrite <- Hp; apply list_elem_of_fmap; by exists w).
    destruct (Hin _ H); tauto. }
  assert (forall u, (length (filter (fun w => in_range (range_of w) u = true) work) <= 1)%nat) as Hx.
  { intros u. pose proof (contiguous_once rs u Hc) as H. rewrite <- Hp, filter_fmap_length in H. lia. }
  assert (exists kvss, iterate_ranges MemHash topt vlog_read banned now fuel KeyToList None steps work = Some kvss /\
    (forall kv, kv ∈ concat kvss <-> exists w kv0 k, w ∈ work /\ kv = set_StreamId kv0 w.1.1.2 /\ k <> [] /\
      (exists x, x ∈ every /\ ukey x.1 = k) /\ in_range (range_of w) k = true /\ kv0 ∈ lst (of_key k every)) /\
    (lists_once lst -> NoDup (key_version <$> concat kvss))) as (kvss & E & Hkv & Hnd).
  { clear Hp. induction Hw as [|[[[kr id] it] t] work Hit Hw IH].
    { exists []. split; [done|]. split; [|intros _; constructor]. intros kv. cbn. split; [by intros ?%elem_of_nil|by intros (w & ? & ? & ?%elem_of_nil & _)]. }
    apply Forall_cons in Hleft as [Hlw Hleft]. destruct IH as (kvss & E & H1 & H2); [done| |].
    { intros u. specialize (Hx u). rewrite filter_cons in Hx. case_decide; simpl in Hx; lia. }
    destruct (iterate_range_ok KeyToList lst steps id kr it t Hl Hit Hlw Hst) as (kvs & Ek & Hkvs & Hn).
    exists (kvs :: kvss). unfold iterate_ranges in *. cbn [mapM]. rewrite Ek. cbn [mbind option_bind]. rewrite E. split; [done|]. split.
    - intros kv. cbn [concat]. rewrite elem_of_app, H1, Hkvs. split.
      + intros [(kv0 & k & H)|(w & kv0 & k & Hw' & H)]; [exists (kr, id, it, t), kv0, k; by split; [left|]|exists w, kv0, k; by split; [right|]].
      + intros (w & kv0 & k & [->|Hw']%elem_of_cons & H); [left; by exists kv0, k|right; by exists w, kv0, k].
    - intros Honce. cbn [concat]. rewrite fmap_app. apply NoDup_app. split; [by apply Hn|]. split; [|by apply H2].
      intros p (kv & -> & (kv0 & k & -> & _ & _ & Hr & Hkv)%Hkvs)%list_elem_of_fmap (kv' & Ev & Hkv')%list_elem_of_fmap.
      apply H1 in Hkv' as (w & kv0' & k' & Hw' & -> & _ & _ & Hr' & Hkv'). injection Ev as Ek' _. cbn in Ek'.
      rewrite (listed_key lst Honce k kv0 Hkv), (listed_key lst Honce k' kv0' Hkv') in Ek'. subst k'.
      specialize (Hx k). rewrite filter_cons, decide_True in Hx by done. simpl in Hx.
      assert (w ∈ filter (fun w => in_range (range_of w) k = true) work) as Hf by (apply list_elem_of_filter; by split).
      destruct (filter _ work); [by apply elem_of_nil in Hf|simpl in Hx; lia]. }
  exists kvss. split; [done|]. split; [|split; [|done]].
  - intros kv (w & kv0 & k & _ & -> & H3 & H4 & _ & H5)%Hkv. exists kv0, w.1.1.2. split; [done|]. by exists k.
  - intros kv0 (k & H3 & H4 & H5). destruct (contiguous_cover rs [] k Hc) as (l1 & r & l2 & Er & Hr & _); [by destruct k|].
    assert (r ∈ range_of <$> work) as Hin' by (rewrite Hp, Er; apply elem_of_app; right; by left).
    apply list_elem_of_fmap in Hin' as (w & -> & Hin'). exists w.1.1.2. apply Hkv. by exists w, kv0, k.
Qed.
End RangeListed.

(** ** Lemmas: batches *)

Section BatchesOk.
Context (buf_len : list KV -> Z).

Lemma send_batches_concat done kvs : forall outList, concat (send_batches buf_len done outList kvs) = outList ++ kvs ++ done.
Proof.
  induction kvs as [|kv kvs IH]; intros outList; cbn [send_batches]; [cbn; by rewrite app_nil_r|].
  case_bool_decide; [|cbn [concat]]; rewrite IH, <- app_assoc; done.
Qed.

Lemma slurp_batch_concat MaxSize ready : forall batch ch, let '(b, ch') := slurp_batch buf_len MaxSize ready batch ch in
  b ++ concat ch' = batch ++ concat ch /\ (length ch' <= length ch)%nat.
Proof.
  induction ready as [|ready IH]; intros batch ch; [done|]. destruct ch as [|kvs ch]; [done|]. cbn [slurp_batch].
  case_bool_decide; [done|]. specialize (IH (batch ++ kvs) ch). destruct (slurp_batch _ _ _ _ _) as [b ch'].
  destruct IH as [-> Hl]. split; [cbn; by rewrite <- app_assoc|simpl; lia].
Qed.

(** Nothing is lost or reordered on the way to [Send], and enough fuel is the number of buffers. *)
Lemma streamKVs_concat (Hlen : forall l, buf_len l = 0 -> l = []) MaxSize fuel : forall ready ch, (length ch <= fuel)%nat ->
  concat (streamKVs buf_len fuel MaxSize ready ch) = concat ch.
Proof.
  induction fuel as [|fuel IH]; intros ready ch Hf; [by destruct ch; [|simpl in Hf; lia]|].
  destruct ch as [|kvs ch]; [done|]. cbn [streamKVs]. pose proof (slurp_batch_concat MaxSize (hd 0%nat ready) kvs ch) as Hs.
  destruct (slurp_batch _ _ _ _ _) as [b ch']. destruct Hs as [E Hl]. simpl in Hf.
  rewrite concat_app, IH by lia. case_bool_decide as Hb.
  - apply Hlen in Hb as ->. cbn. cbn in E. by rewrite E.
  - cbn. by rewrite app_nil_r, E.
Qed.

Lemma range_buffers_concat doneMarkers ids : forall kvss, length ids = length kvss ->
  concat (range_buffers buf_len doneMarkers ids kvss) ≡ₚ concat kvss ++ concat (done_marker doneMarkers <$> ids).
Proof.
  induction ids as [|id ids IH]; intros kvss Hl; (destruct kvss as [|kvs kvss]; [done|]); [done|]. unfold range_buffers in *.
  cbn [zip_with concat fmap list_fmap]. rewrite concat_app, send_batches_concat, IH by (simpl in Hl; lia). cbn [app].
  rewrite <- !app_assoc. f_equiv. rewrite (app_assoc (done_marker _ _)), (Permutation_app_comm (done_marker _ _)). by rewrite <- app_assoc.
Qed.

(** Whatever the order the buffers of the ranges arrive in, what is sent is what they hold. *)
Lemma sent_perm (Hlen : forall l, buf_len l = 0 -> l = []) doneMarkers ids kvss MaxSize ready chan : length ids = length kvss ->
  chan ≡ₚ range_buffers buf_len doneMarkers ids kvss ->
  concat (streamKVs buf_len (length chan) MaxSize ready chan) ≡ₚ concat kvss ++ concat (done_marker doneMarkers <$> ids).
Proof.
  intros Hl Hc. rewrite streamKVs_concat by done. rewrite <- range_buffers_concat by done. unfold concat. by rewrite Hc.
Qed.
End BatchesOk.

(** ** The contract *)

(** The versions of a key above [since] that a reader at [ts] sees. *)
Definition versions_since (since : Z) (key : bytes) (ts : Z) (l : list kv) : list kv :=
  filter (fun x => since = 0 \/ since < ParseTs x.1) (versions key ts l).

Lemma of_key_versions topt prefix since ts banned now es k : run_sorted false es -> 0 <= since -> prefix `prefix_of` k ->
  (forall x, x ∈ es -> ukey x.1 = k -> internal x.1 = false /\ ban topt banned x.1 = false) ->
  of_key k (all_shown topt (stream_iopts prefix since) ts banned (fun _ => now) es) = versions_since since k ts es.
Proof.
  intros Hs Hpos Hp Hfree. unfold of_key, all_shown, versions_since, versions. apply (sorted_ext false).
  1-2: by repeat apply filter_sorted.
  intros x. rewrite !list_elem_of_filter. cbn [Prefix stream_iopts]. unfold shown, in_window. cbn [InternalAccess AllVersions SinceTs stream_iopts].
  split.
  - intros (E & (Hsh & _) & Hx). destruct (Hfree x Hx E) as [H1 H2]. rewrite H1, H2 in Hsh. cbn in Hsh. rewrite !andb_true_r in Hsh.
    apply negb_true_iff, orb_false_iff in Hsh as [Hv Hc]. apply bool_decide_eq_false in Hv.
    apply andb_false_iff in Hc. rewrite !bool_decide_eq_false in Hc. split; [lia|]. split; [split; [done|lia]|done].
  - intros (Hc & (E & Hv) & Hx). destruct (Hfree x Hx E) as [H1 H2]. rewrite H1, H2. cbn. rewrite !andb_true_r. split; [done|].
    split; [|done]. split; [|by rewrite E]. apply negb_true_iff, orb_false_iff. rewrite andb_false_iff, !bool_decide_eq_false. lia.
Qed.

Lemma taken_sublist now N l : taken now N l `sublist_of` l.
Proof.
  assert (live now l `sublist_of` l) as H.
  { induction l as [|x l IH]; [done|]. cbn [live]. destruct (dead now x); [apply sublist_nil_l|]. destruct (discards x); [|by apply sublist_skip].
    apply sublist_skip, sublist_nil_l. }
  unfold taken. case_bool_decide; [|done]. transitivity (live now l); [apply sublist_take|done].
Qed.

Lemma ToList_once vlog_read now N : lists_once (fun l => kv_of vlog_read <$> taken now N l).
Proof.
  intros k T Hs Hk. assert (forall x, x ∈ taken now N (of_key k T) -> x ∈ T /\ ukey x.1 = k) as Hin.
  { intros x Hx. pose proof (elem_of_sublist _ _ _ Hx (taken_sublist now N _)) as H.
    by apply list_elem_of_filter in H as [? ?]. }
  split.
  - rewrite <- list_fmap_compose. apply NoDup_fmap_2_strong.
    + intros x y Hx Hy [= Ek Ev]. apply Hin in Hx as [Hx Ekx], Hy as [Hy Eky]. apply (sorted_key false x y T Hs Hx Hy).
      pose proof (proj1 (Forall_forall _ _) Hk x Hx) as Kx. pose proof (proj1 (Forall_forall _ _) Hk y Hy) as Ky.
      destruct (key_ok_eta _ Kx) as (u & v & _ & Ex & _ & Evx). destruct (key_ok_eta _ Ky) as (u' & v' & _ & Ey & _ & Evy).
      rewrite Ex, Ey, !ukey_KeyWithTs in Ek. rewrite Ex, Ey. congruence.
    + eapply sublist_NoDup; [|apply taken_sublist]. apply NoDup_filter. by apply sorted_nodup.
  - intros kv (x & -> & Hx)%list_elem_of_fmap. by apply Hin.
Qed.

(** The marks are all that has no key. *)
Lemma done_marks doneMarkers ids kv : kv ∈ concat (done_marker doneMarkers <$> ids) -> k_StreamDone kv = true /\ k_Key kv = [].
Proof.
  intros (l & (id & -> & _)%list_elem_of_fmap & Hkv)%elem_of_concat. destruct doneMarkers; [|by apply elem_of_nil in Hkv].
  by apply list_elem_of_singleton in Hkv as ->.
Qed.

Lemma filter_marks (P : KV -> Prop) `{forall kv, Decision (P kv)} doneMarkers ids :
  (forall kv, P kv -> ~ (k_StreamDone kv = true /\ k_Key kv = [])) -> filter P (concat (done_marker doneMarkers <$> ids)) = [].
Proof. intros HP. apply elem_of_nil_inv. intros kv [E Hkv]%list_elem_of_filter. by apply (HP kv E), (done_marks doneMarkers ids). Qed.

Section StreamContract.
Context {S : Type} {I : YIterator S} (ts : Z) {L : YIteratorLaws S false (txn_seek false ts)}.
Context (MemHash : bytes -> Z) (topt : txn_opts) (vlog_read : valuePointer -> result vlog_error bytes).
Context (prefix : bytes) (since : Z) (banned : gset Z) (now : Z) (es : list kv) (fuel steps : nat) (N : Z).
Context (block_keys : Table -> list bytes) (UncompressedSize : Table -> Z).

(** C21: A stream sends its snapshot, each version once.  Whatever ranges are made of the tables and
    memtables, in whatever order goroutines take them and their buffers arrive, and however the
    buffers are put together, with iterators at one timestamp what [Send] is given of a key is, up
    to order and stream ids, the list [ToList] makes of the key: its versions above [SinceTs] that
    a reader at the timestamp sees, down to the first that is deleted or expired, one if one
    version is to be kept; and no version of any key is sent twice. *)
Theorem stream_sends_snapshot levels mt imm MaxLevels numRanges :
  run_ready (rev := false) topt vlog_read banned es -> run_sorted false es -> 0 <= ts <= MaxUint64 -> 0 <= since ->
  keys_have_ts block_keys levels mt imm -> numRanges <> 0 -> (length es < fuel)%nat -> (2 * length es < steps)%nat ->
  exists rs, Ranges block_keys UncompressedSize MaxLevels prefix numRanges levels mt imm = Some rs /\
  forall work, (fun w : keyRange * Z * Iterator S * Txn => w.1.1.1) <$> work ≡ₚ rs ->
    Forall (fun w : keyRange * Z * Iterator S * Txn => fresh (L := L) ts prefix since es w.1.2) work ->
  exists kvss, iterate_ranges MemHash topt vlog_read banned now fuel
      (ToList MemHash topt vlog_read banned now fuel N steps) None steps work = Some kvss /\
  forall buf_len doneMarkers MaxSize ready chan, (forall l, buf_len l = 0 -> l = []) ->
    chan ≡ₚ range_buffers buf_len doneMarkers ((fun w : keyRange * Z * Iterator S * Txn => w.1.1.2) <$> work) kvss ->
  let sent := concat (streamKVs buf_len (length chan) MaxSize ready chan) in
  NoDup (key_version <$> filter (fun kv => k_StreamDone kv = false) sent) /\
  forall k, k <> [] -> prefix `prefix_of` k ->
    (forall x, x ∈ es -> ukey x.1 = k -> internal x.1 = false /\ ban topt banned x.1 = false) ->
    (fun kv => set_StreamId kv 0) <$> filter (fun kv => k_Key kv = k) sent
    ≡ₚ kv_of vlog_read <$> taken now N (versions_since since k ts es).
Proof.
  intros Hready Hsorted Hts Hsince Hkt Hnr Hfuel Hsteps.
  destruct (Ranges_ok block_keys UncompressedSize levels mt imm MaxLevels prefix numRanges Hkt Hnr) as (rs & Er & Hrs & Hin).
  exists rs. split; [done|]. intros work Hwp Hw. set (lst := fun l => kv_of vlog_read <$> taken now N l).
  destruct (iterate_ranges_ok ts MemHash topt vlog_read prefix since banned now es fuel Hready Hsorted Hts Hfuel
    (ToList MemHash topt vlog_read banned now fuel N steps) lst steps work rs) as (kvss & Ek & H1 & H2 & H3); try done.
  { apply ToList_ok; [done|done|done|lia]. }
  specialize (H3 (ToList_once vlog_read now N)). exists kvss. split; [done|]. intros buf_len dm MaxSize ready chan Hlen Hchan sent.
  assert (sent ≡ₚ concat kvss ++ concat (done_marker dm <$> ((fun w : keyRange * Z * Iterator S * Txn => w.1.1.2) <$> work))) as Hsent.
  { apply sent_perm; [done| |done]. rewrite length_fmap. by apply length_mapM in Ek. }
  split.
  { rewrite Hsent, filter_app, filter_marks, app_nil_r by (intros kv E [E2 _]; congruence). by apply NoDup_fmap_filter, H3. }
  intros k Hk Hp Hfree. rewrite <- (of_key_versions topt prefix since ts banned now es k Hsorted Hsince Hp Hfree).
  rewrite Hsent, filter_app, filter_marks, app_nil_r by (intros kv E [_ E2]; congruence). apply NoDup_Permutation.
  - apply (NoDup_fmap_1 key_version). rewrite <- list_fmap_compose. change (key_version ∘ _) with key_version.
    by apply NoDup_fmap_filter.
  - apply (NoDup_fmap_1 key_version). apply (ToList_once vlog_read now N); [by apply all_shown_sorted|].
    apply Forall_forall. intros x [_ Hx]%list_elem_of_filter. by apply (proj1 (Forall_forall _ _) (rr_keys _ _ _ _ Hready)).
  - intros kv. rewrite list_elem_of_fmap. split.
    + intros (kv' & -> & [E (kv0 & id & -> & (k' & _ & _ & Hkv))%H1]%list_elem_of_filter). cbn in E.
      rewrite (listed_key ts MemHash topt vlog_read prefix since banned now es Hready Hsorted Hts lst (ToList_once vlog_read now N) k' kv0 Hkv) in E.
      subst k'. by pose proof Hkv as (x & -> & _)%list_elem_of_fmap.
    + intros Hkv. pose proof Hkv as (x & -> & Hx)%list_elem_of_fmap.
      pose proof (elem_of_sublist _ _ _ Hx (taken_sublist now N _)) as [E Hxe]%list_elem_of_filter.
      destruct (H2 (kv_of vlog_read x)) as (id & Hid); [exists k; split; [done|]; split; [by exists x|done]|].
      exists (set_StreamId (kv_of vlog_read x) id). split; [done|]. apply list_elem_of_filter. by split.
Qed.
End StreamContract.

(** ** Examples *)

Definition stx_vs (meta : Z) (v : bytes) : ValueStruct := mkVS (z2b meta) x07 0 (Some v) 0.

(** Two versions of a key, one deleted, one that discards the earlier ones, and one that is too new. *)
Definition stx_run : list kv :=
  [(KeyWithTs [x61] 3, stx_vs 0 [x01]); (KeyWithTs [x61] 1, stx_vs 0 [x02; x03; x04]);
   (KeyWithTs [x62] 2, stx_vs bitDelete []); (KeyWithTs [x62] 1, stx_vs 0 [x05]);
   (KeyWithTs [x63] 4, stx_vs bitDiscardEarlierVersions [x06]); (KeyWithTs [x63] 2, stx_vs 0 [x07]);
   (KeyWithTs [x64] 9, stx_vs 0 [x08])].

Definition stx_iter : Iterator runIter := mkIter (Some (open_run false stx_run)) 5 (stream_iopts [] 0) None [] [] [] false 0.
Definition stx_ranges : list keyRange :=
  default [] (Ranges (fun _ => []) (fun _ => 0) 7 [] 8 [] stx_run []).
Definition stx_work : list (keyRange * Z * Iterator runIter * Txn) :=
  (fun '(i, kr) => (kr, Z.of_nat i, stx_iter, Transaction.ex_txn 5)) <$> imap pair (reverse stx_ranges).
Definition stx_len (l : list KV) : Z := len l.

Lemma stx_sorted : run_sorted false stx_run.
Proof. assert (run_ok stx_run) as Hr by (apply ex_run_ok; by vm_compute). apply Hr. Qed.

Lemma stx_ready : run_ready (rev := false) Transaction.ex_opts no_vlog ∅ stx_run.
Proof.
  split; [|apply (bool_decide_eq_true_1 (Forall (fun x : kv => 8 < len x.1) stx_run)); vm_compute; reflexivity|done].
  assert (Forall (fun x : kv => bool_decide (entry_value no_vlog x.2 = None) = false) stx_run) as H.
  { apply (bool_decide_eq_true_1 (Forall (fun x : kv => bool_decide (entry_value no_vlog x.2 = None) = false) stx_run)). vm_compute. reflexivity. }
  intros x Hx. rewrite Forall_forall in H. specialize (H x Hx). apply bool_decide_eq_false in H.
  by destruct (entry_value no_vlog x.2); [eexists|].
Qed.

Lemma stx_keys : keys_have_ts (fun _ => []) [] stx_run [].
Proof.
  split; [by intros h t ?%elem_of_nil|]. intros sl x ->%list_elem_of_singleton Hx. apply key_ok_ts.
  exact (proj1 (Forall_forall _ _) (rr_keys _ _ _ _ stx_ready) x Hx).
Qed.

Lemma stx_opened : fresh (L := runIter_laws) 5 [] 0 stx_run stx_iter.
Proof.
  right. split; [|constructor|done|done]. exists (open_run false stx_run). split; [done|].
  apply (open_run_over false); [apply stx_sorted|apply stx_ready].
Qed.

Lemma stx_work_ranges : (fun w : keyRange * Z * Iterator runIter * Txn => w.1.1.1) <$> stx_work ≡ₚ stx_ranges.
Proof.
  transitivity (reverse stx_ranges); [|apply reverse_Permutation].
  assert ((fun w : keyRange * Z * Iterator runIter * Txn => w.1.1.1) <$> stx_work = reverse stx_ranges) as -> by (vm_compute; reflexivity). done.
Qed.

Lemma stx_work_fresh : Forall (fun w : keyRange * Z * Iterator runIter * Txn => fresh (L := runIter_laws) 5 [] 0 stx_run w.1.2) stx_work.
Proof. apply Forall_forall. intros w (w' & -> & Hw)%list_elem_of_fmap. destruct w' as [i kr]. apply stx_opened. Qed.

Lemma stx_work_ids : (fun w : keyRange * Z * Iterator runIter * Txn => w.1.1.2) <$> stx_work = [0; 1].
Proof. vm_compute. reflexivity. Qed.

Definition stx_kvss : list (list KV) :=
  default [] (iterate_ranges be_decode Transaction.ex_opts no_vlog ∅ 0 10 (ToList be_decode Transaction.ex_opts no_vlog ∅ 0 10 2 20) None 20 stx_work).
Definition stx_chan : list (list KV) := reverse (range_buffers stx_len true [0; 1] stx_kvss).
Definition stx_sent : list KV := concat (streamKVs stx_len (length stx_chan) maxStreamSize [1%nat] stx_chan).

(** Two ranges, the second read first, their buffers the other way round, with marks. *)
Lemma stream_sends_snapshot_witness :
  NoDup (key_version <$> filter (fun kv => k_StreamDone kv = false) stx_sent) /\
  (fun kv => set_StreamId kv 0) <$> filter (fun kv => k_Key kv = [x61]) stx_sent
    ≡ₚ [mkKVs [x61] [x01] [x07] 3 0 [] 0 false; mkKVs [x61] [x02; x03; x04] [x07] 1 0 [] 0 false].
Proof.
  destruct (stream_sends_snapshot 5 (L := runIter_laws) be_decode Transaction.ex_opts no_vlog [] 0 ∅ 0 stx_run 10 20 2
    (fun _ => []) (fun _ => 0) [] stx_run [] 7 8) as (rs & Er & H).
  - apply stx_ready.
  - apply stx_sorted.
  - unfold MaxUint64. lia.
  - lia.
  - apply stx_keys.
  - done.
  - apply Nat.ltb_lt. vm_compute. reflexivity.
  - apply Nat.ltb_lt. vm_compute. reflexivity.
  - destruct (H stx_work) as (kvss & Ek & H2).
    + assert (rs = stx_ranges) as -> by (unfold stx_ranges; by rewrite Er). apply stx_work_ranges.
    + apply stx_work_fresh.
    + assert (kvss = stx_kvss) as -> by (unfold stx_kvss; by rewrite Ek).
      destruct (H2 stx_len true maxStreamSize [1%nat] stx_chan) as [H3 H4].
      * intros [|kv l]; [done|]. unfold stx_len, len. simpl. lia.
      * rewrite stx_work_ids. apply reverse_Permutation.
      * split; [exact H3|]. apply (H4 [x61]); [done|apply prefix_nil|].
        set (P := fun x : kv => internal x.1 = false /\ ban Transaction.ex_opts ∅ x.1 = false).
        assert (Forall P stx_run) as HP by (apply (bool_decide_eq_true_1 (Forall P stx_run)); vm_compute; reflexivity).
        intros x Hx _. exact (proj1 (Forall_forall _ _) HP x Hx).
Defined.
