(* ===== verification/WriteBatch.v ===== *)
(** * WriteBatch: many writes in transactions of their own (batch.go, txn.go, y/y.go)

    A write batch puts its writes into a transaction, and commits it and goes on with a new one
    whenever it is full.  A commit runs its callback from a goroutine; the callback keeps the
    first error and gives the throttle its slot back.  [Flush] commits what is left and waits.
    When it returns no error every write that was accepted has been committed, and of every key
    the last write is the newest version. *)

From S2P Require Import Prelude Keys Codec Oracle Transaction Stream.

(** ** The throttle (y/y.go) *)

Section Throttle.
Context {E : Type}.

(** [th_ch] counts the workers that run; [th_finish] is set when the channels are closed. *)
Record Throttle : Type := mkThrottle {
  th_max : nat;
  th_ch : nat;
  th_errCh : list E;
  th_finish : option (option E)
}.

Definition NewThrottle (max : nat) : Throttle := mkThrottle max 0 [] None.

(** [Do]: when a slot is free and an error waits, [take_err] says which the select takes.
    [Disabled]: it waits; once the channels are closed it turns until the select takes the other. *)
Definition throttle_Do (take_err : bool) (t : Throttle) : outcome (Throttle * option E) :=
  match th_finish t with
  | Some _ => if take_err then Disabled else Panicked
  | None =>
      if take_err then
        match th_errCh t with
        | e :: es => Stepped (mkThrottle (th_max t) (th_ch t) es None, Some e)
        | [] => Disabled
        end
      else if bool_decide (th_ch t < th_max t)%nat then Stepped (mkThrottle (th_max t) (S (th_ch t)) (th_errCh t) None, None)
      else Disabled
  end.

(** [Done]: an error waits for room among the errors. *)
Definition throttle_Done (err : option E) (t : Throttle) : outcome Throttle :=
  let free errCh :=
    match th_ch t with
    | S ch => Stepped (mkThrottle (th_max t) ch errCh (th_finish t))
    | O => Panicked
    end in
  match err with
  | None => free (th_errCh t)
  | Some e => if bool_decide (length (th_errCh t) < th_max t)%nat then free (th_errCh t ++ [e]) else Disabled
  end.

Definition throttle_Finish (t : Throttle) : outcome (Throttle * option E) :=
  match th_finish t with
  | Some err => Stepped (t, err)
  | None =>
      if bool_decide (th_ch t = 0%nat) then
        let err := head (th_errCh t) in Stepped (mkThrottle (th_max t) 0 (tl (th_errCh t)) (Some err), err)
      else Disabled
  end.
End Throttle.
Arguments Throttle : clear implicits.

(** ** Committing with a callback (txn.go) *)

(** What the callback will be called with: at once an error of the check before; later nothing,
    an error, or what becomes of the request. *)
Inductive callback : Type :=
  | CbNow (e : txn_error)
  | CbNil
  | CbErr (e : txn_error)
  | CbCommit (ts : Z) (req : list Entry).

Definition CommitWith (opt : txn_opts) (threshold : Z) (blockWrites : bool) (o : oracle) (t : Txn) (pend : list Entry)
    : outcome (oracle * Txn * callback) :=
  if bool_decide (pendingWrites t = ∅) then
    match Discard o t with Ok (o, t) => Stepped (o, t, CbNil) | _ => Panicked end
  else
    match commitPrecheck opt t with
    | Err e => Stepped (o, t, CbNow e)
    | Panic => Panicked
    | Ok _ =>
        let '(o, t, r) := commitAndSend opt threshold blockWrites o t pend in
        match Discard o t, r with
        | Ok (o, t), Ok (ts, req) => Stepped (o, t, CbCommit ts req)
        | Ok (o, t), Err e => Stepped (o, t, CbErr e)
        | _, _ => Panicked
        end
    end.

(** ** The batch (batch.go) *)

Definition set_commitTs (t : Txn) (ts : Z) : Txn :=
  mkTxn (readTs t) ts (tsize t) (tcount t) (reads t) (conflictKeys t) (pendingWrites t)
    (duplicateWrites t) (numIterators t) (discarded t) (doneRead t) (update t).

Inductive batch_error : Type :=
  | BTxn (e : txn_error)
  | BWrite (n : Z)                       (* what the writer answered *)
  | BAfterFinish                         (* ErrCommitAfterFinish *)
  | BNotManaged
  | BBoth (a b : batch_error).           (* an error of the batch that wraps one of the throttle *)

Record WriteBatch : Type := mkWB {
  wb_txn : Txn;
  wb_throttle : Throttle batch_error;
  wb_err : option batch_error;
  wb_isManaged : bool;
  wb_commitTs : Z;
  wb_finished : bool
}.

Definition set_wtxn (wb : WriteBatch) (t : Txn) : WriteBatch :=
  mkWB t (wb_throttle wb) (wb_err wb) (wb_isManaged wb) (wb_commitTs wb) (wb_finished wb).
Definition set_wthrottle (wb : WriteBatch) (th : Throttle batch_error) : WriteBatch :=
  mkWB (wb_txn wb) th (wb_err wb) (wb_isManaged wb) (wb_commitTs wb) (wb_finished wb).
Definition set_werr (wb : WriteBatch) (e : batch_error) : WriteBatch :=
  mkWB (wb_txn wb) (wb_throttle wb) (Some e) (wb_isManaged wb) (wb_commitTs wb) (wb_finished wb).
Definition set_wfinished (wb : WriteBatch) : WriteBatch :=
  mkWB (wb_txn wb) (wb_throttle wb) (wb_err wb) (wb_isManaged wb) (wb_commitTs wb) true.

Section Batch.
Context (MemHash : bytes -> Z) (opt : txn_opts).

Definition newWriteBatch (o : oracle) (isManaged : bool) : outcome (oracle * WriteBatch) :=
  match newTransaction opt o true isManaged with
  | Some (o, t) => Stepped (o, mkWB t (NewThrottle 16) None isManaged 0 false)
  | None => Panicked
  end.

Definition NewWriteBatch (o : oracle) : outcome (oracle * WriteBatch) :=
  if managedTxns opt then Panicked else newWriteBatch o false.

(** The batches of a managed database (managed_db.go). *)
Definition NewWriteBatchAt (o : oracle) (commitTs : Z) : outcome (oracle * WriteBatch) :=
  if negb (managedTxns opt) then Panicked
  else
    match newWriteBatch o true with
    | Stepped (o, wb) => Stepped (o, mkWB (set_commitTs (wb_txn wb) commitTs) (wb_throttle wb) (wb_err wb) (wb_isManaged wb) commitTs (wb_finished wb))
    | r => r
    end.

Definition NewManagedWriteBatch (o : oracle) : outcome (oracle * WriteBatch) :=
  if negb (managedTxns opt) then Panicked else newWriteBatch o true.

Definition SetMaxPendingTxns (max : nat) (wb : WriteBatch) : WriteBatch := set_wthrottle wb (NewThrottle max).

(** [callback]: keep the first error ([raced]: another one was stored after the check), ... *)
Definition wb_store (raced : bool) (err : option batch_error) (wb : WriteBatch) : WriteBatch :=
  match err with
  | None => wb
  | Some e => if raced || bool_decide (wb_err wb = None) then set_werr wb e else wb
  end.

(** ... and give the slot back. *)
Definition wb_done (err : option batch_error) (wb : WriteBatch) : outcome WriteBatch :=
  match throttle_Done err (wb_throttle wb) with
  | Stepped th => Stepped (set_wthrottle wb th)
  | Disabled => Disabled
  | Panicked => Panicked
  end.

Definition wb_callback (err : option batch_error) (wb : WriteBatch) : outcome WriteBatch := wb_done err (wb_store false err wb).

(** What a call sees of the moment: the threshold for values, the banned namespaces, whether
    writes are blocked, the order Go walks the pending writes in and what a select takes. *)
Record moment : Type := mkMoment {
  mo_threshold : Z;
  mo_banned : gset Z;
  mo_blockWrites : bool;
  mo_pend : list Entry;
  mo_take_err : bool
}.

(** [commit]: the callback that will run later, if the transaction was committed, and the error. *)
Definition wb_commit (m : moment) (o : oracle) (wb : WriteBatch)
    : outcome (oracle * WriteBatch * option callback * option batch_error) :=
  match wb_err wb with
  | Some e => Stepped (o, wb, None, Some e)
  | None =>
      if wb_finished wb then Stepped (o, wb, None, Some BAfterFinish)
      else
        match throttle_Do (mo_take_err m) (wb_throttle wb) with
        | Disabled => Disabled
        | Panicked => Panicked
        | Stepped (th, Some e) => Stepped (o, set_werr (set_wthrottle wb th) e, None, Some e)
        | Stepped (th, None) =>
            let wb := set_wthrottle wb th in
            match CommitWith opt (mo_threshold m) (mo_blockWrites m) o (wb_txn wb) (mo_pend m) with
            | Disabled => Disabled
            | Panicked => Panicked
            | Stepped (o, _, cb) =>
                let called :=
                  match cb with CbNow e => wb_callback (Some (BTxn e)) wb | _ => Stepped wb end in
                match called, newTransaction opt o true (wb_isManaged wb) with
                | Stepped wb, Some (o, t) =>
                    let wb := set_wtxn wb (set_commitTs t (wb_commitTs wb)) in
                    Stepped (o, wb, Some cb, wb_err wb)
                | Disabled, _ => Disabled
                | _, _ => Panicked
                end
            end
        end
  end.

(** What an operation leaves: the states, the callback of a commit it made, and its error. *)
Definition wb_step : Type := oracle * WriteBatch * option callback * option batch_error.

Definition try_modify (m : moment) (t : Txn) (e : Entry) : result txn_error Txn :=
  modify MemHash opt (mo_threshold m) (mo_banned m) t e.

(** A write that does not fit is tried again in the next transaction; then its error stays. *)
Definition write_or_commit (m : moment) (o : oracle) (wb : WriteBatch) (e again : Entry) : outcome wb_step :=
  match try_modify m (wb_txn wb) e with
  | Panic => Panicked
  | Ok t => Stepped (o, set_wtxn wb t, None, None)
  | Err ErrTxnTooBig =>
      match wb_commit m o wb with
      | Disabled => Disabled
      | Panicked => Panicked
      | Stepped (o, wb, cb, Some err) => Stepped (o, wb, cb, Some err)
      | Stepped (o, wb, cb, None) =>
          match try_modify m (wb_txn wb) again with
          | Panic => Panicked
          | Ok t => Stepped (o, set_wtxn wb t, cb, None)
          | Err err => Stepped (o, set_werr wb (BTxn err), cb, Some (BTxn err))
          end
      end
  | Err err => Stepped (o, wb, None, Some (BTxn err))
  end.

(** The size check has set the threshold of the entry by the second time. *)
Definition handleEntry (m : moment) (o : oracle) (wb : WriteBatch) (e : Entry) : outcome wb_step :=
  write_or_commit m o wb e (stick_threshold e (mo_threshold m)).

Definition wb_SetEntry := handleEntry.

Definition wb_Set (m : moment) (o : oracle) (wb : WriteBatch) (k : bytes) (v : option bytes) : outcome wb_step :=
  wb_SetEntry m o wb (NewEntry k v).

(** A key-value with a version ([AssertTrue]), and a list of them, each at its moment. *)
Definition writeKV (m : moment) (o : oracle) (wb : WriteBatch) (kv : KV) : outcome wb_step :=
  if bool_decide (k_Version kv = 0) then Panicked
  else handleEntry m o wb (mkEntry (k_Key kv) (Some (k_Value kv)) 0 (k_Version kv) 0 (hd x00 (k_UserMeta kv)) x00 0 0).

Fixpoint WriteList (o : oracle) (wb : WriteBatch) (kvs : list (moment * KV))
    : outcome (oracle * WriteBatch * list callback * option batch_error) :=
  match kvs with
  | [] => Stepped (o, wb, [], None)
  | (m, kv) :: kvs =>
      match writeKV m o wb kv with
      | Stepped (o, wb, cb, Some e) => Stepped (o, wb, option_list cb, Some e)
      | Stepped (o, wb, cb, None) =>
          match WriteList o wb kvs with
          | Stepped (o, wb, cbs, err) => Stepped (o, wb, option_list cb ++ cbs, err)
          | r => r
          end
      | Disabled => Disabled
      | Panicked => Panicked
      end
  end.

Definition SetEntryAt (m : moment) (o : oracle) (wb : WriteBatch) (e : Entry) (ts : Z) : outcome wb_step :=
  if negb (managedTxns opt) then Stepped (o, wb, None, Some BNotManaged) else wb_SetEntry m o wb (set_eversion e ts).

Definition DeleteAt (m : moment) (o : oracle) (wb : WriteBatch) (k : bytes) (ts : Z) : outcome wb_step :=
  wb_SetEntry m o wb (set_eversion (delete_entry k) ts).

Definition wb_Delete (m : moment) (o : oracle) (wb : WriteBatch) (k : bytes) : outcome wb_step :=
  write_or_commit m o wb (delete_entry k) (delete_entry k).

(** [Flush] up to the wait; it goes on when there is no error. *)
Definition Flush_commit (m : moment) (o : oracle) (wb : WriteBatch) : outcome wb_step :=
  match wb_commit m o wb with
  | Stepped (o, wb, cb, None) =>
      match Discard o (wb_txn wb) with
      | Ok (o, t) => Stepped (o, set_wtxn (set_wfinished wb) t, cb, None)
      | _ => Panicked
      end
  | r => r
  end.

(** The rest of it. *)
Definition Flush_wait (wb : WriteBatch) : outcome (WriteBatch * option batch_error) :=
  match throttle_Finish (wb_throttle wb) with
  | Disabled => Disabled
  | Panicked => Panicked
  | Stepped (th, Some e) =>
      Stepped (set_wthrottle wb th, Some (match wb_err wb with Some e' => BBoth e' e | None => e end))
  | Stepped (th, None) => Stepped (set_wthrottle wb th, wb_err wb)
  end.

(** [Cancel] waits as well, and the error is logged. *)
Definition Cancel (o : oracle) (wb : WriteBatch) : outcome (oracle * WriteBatch) :=
  match throttle_Finish (wb_throttle wb) with
  | Disabled => Disabled
  | Panicked => Panicked
  | Stepped (th, _) =>
      match Discard o (wb_txn wb) with
      | Ok (o, t) => Stepped (o, set_wtxn (set_wthrottle (set_wfinished wb) th) t)
      | _ => Panicked
      end
  end.
End Batch.

(** ** The system: calls, callbacks and other transactions *)

Section System.
Context (MemHash : bytes -> Z) (opt : txn_opts).

(** A callback: it has not run yet, has been told and has stored its error, or is done. *)
Inductive stage : Type := ToRun | Told (err : option batch_error) | Ended (err : option batch_error).

(** A callback with the writes of its transaction. *)
Record job : Type := mkJob { j_writes : list Entry; j_callback : callback; j_stage : stage }.

Definition set_stage (j : job) (st : stage) : job := mkJob (j_writes j) (j_callback j) st.

(** What it was told, from then on, and when it is done. *)
Definition j_heard (j : job) : option (option batch_error) := match j_stage j with Told r | Ended r => Some r | ToRun => None end.
Definition j_done (j : job) : option (option batch_error) := match j_stage j with Ended r => Some r | _ => None end.

(** The batch with the oracle, its commits, all writes it accepted, and those of its transaction. *)
Record bsys : Type := mkBsys {
  b_orc : oracle;
  b_wb : WriteBatch;
  b_jobs : list job;
  b_accepted : list Entry;
  b_current : list Entry
}.

(** What a callback may be told. *)
Definition told (cb : callback) (err : option batch_error) : Prop :=
  match cb with
  | CbNow e | CbErr e => err = Some (BTxn e)
  | CbNil => err = None
  | CbCommit _ _ => err = None \/ exists n, err = Some (BWrite n)
  end.

(** A commit's callback takes the commit from the oracle's watermark. *)
Definition after_callback (o : oracle) (cb : callback) : oracle :=
  match cb with CbCommit ts _ => doneCommit o ts | _ => o end.

(** What others may do to the oracle meanwhile. *)
Definition orc_goes (o o' : oracle) : Prop := isManaged o' = isManaged o /\ nextTxnTs o <= nextTxnTs o' < MaxUint64.

Definition record_commit (jobs : list job) (current : list Entry) (cb : option callback) : list job * list Entry :=
  match cb with
  | None => (jobs, current)
  | Some (CbNow e) => (jobs ++ [mkJob current (CbNow e) (Ended (Some (BTxn e)))], [])
  | Some cb => (jobs ++ [mkJob current cb ToRun], [])
  end.

Definition moment_ok (m : moment) (wb : WriteBatch) : Prop :=
  0 < mo_threshold m /\ mo_pend m ≡ₚ pending_list (pendingWrites (wb_txn wb)).

Inductive bstep : bsys -> bsys -> Prop :=
  | bs_write s m e e2 o wb cb err jobs cur :
      moment_ok m (b_wb s) -> eversion e = 0 -> e2 = e \/ e2 = stick_threshold e (mo_threshold m) -> nextTxnTs (b_orc s) + 1 < MaxUint64 ->
      write_or_commit MemHash opt m (b_orc s) (b_wb s) e e2 = Stepped (o, wb, cb, err) ->
      record_commit (b_jobs s) (b_current s) cb = (jobs, cur) ->
      bstep s (mkBsys o wb jobs (b_accepted s ++ if err then [] else [e]) (cur ++ if err then [] else [e]))
  | bs_flush s m o wb cb err jobs cur :
      moment_ok m (b_wb s) -> nextTxnTs (b_orc s) + 1 < MaxUint64 ->
      Flush_commit opt m (b_orc s) (b_wb s) = Stepped (o, wb, cb, err) ->
      record_commit (b_jobs s) (b_current s) cb = (jobs, cur) ->
      bstep s (mkBsys o wb jobs (b_accepted s) cur)
  | bs_cancel s o wb :
      Cancel (b_orc s) (b_wb s) = Stepped (o, wb) -> bstep s (mkBsys o wb (b_jobs s) (b_accepted s) (b_current s))
  | bs_told s i j raced err :
      b_jobs s !! i = Some j -> j_stage j = ToRun -> told (j_callback j) err ->
      bstep s (mkBsys (after_callback (b_orc s) (j_callback j)) (wb_store raced err (b_wb s)) (<[i := set_stage j (Told err)]> (b_jobs s))
                 (b_accepted s) (b_current s))
  | bs_done s i j err wb :
      b_jobs s !! i = Some j -> j_stage j = Told err -> wb_done err (b_wb s) = Stepped wb ->
      bstep s (mkBsys (b_orc s) wb (<[i := set_stage j (Ended err)]> (b_jobs s)) (b_accepted s) (b_current s))
  | bs_others s o : orc_goes (b_orc s) o -> bstep s (mkBsys o (b_wb s) (b_jobs s) (b_accepted s) (b_current s)).

(** A batch just made. *)
Definition batch_new (s : bsys) : Prop :=
  exists o, isManaged o = false /\ 0 < nextTxnTs o < MaxUint64 /\ NewWriteBatch opt o = Stepped (b_orc s, b_wb s) /\
    b_jobs s = [] /\ b_accepted s = [] /\ b_current s = [].

(** ** What is committed *)

(** An entry of a request is a write at a timestamp. *)
Record written_as (ts : Z) (e e' : Entry) : Prop := {
  wa_key : eKey e' = KeyWithTs (eKey e) ts;
  wa_value : eValue e' = eValue e;
  wa_userMeta : eUserMeta e' = eUserMeta e;
  wa_expires : eExpiresAt e' = eExpiresAt e;
  wa_meta : emeta e' = set_bit (emeta e) bitTxn
}.

Definition committed (jobs : list job) (ts : Z) (req : list Entry) : Prop :=
  exists j, j ∈ jobs /\ j_callback j = CbCommit ts req /\ j_done j = Some None.

(** ** Lemmas: a commit of the batch *)

(** What a request has of the writes of its transaction: the last of every key. *)
Record sent_as (ts : Z) (ws : list Entry) (req : list Entry) : Prop := {
  se_pos : 0 < ts <= MaxUint64;
  se_len : len req < maxBatchCount opt;
  se_all : forall k e, last_write ws k = Some e -> exists e', e' ∈ req /\ written_as ts e e';
  se_only : forall x, x ∈ req -> exists k, eKey x = KeyWithTs k ts /\
              (k = txnKey \/ exists e, last_write ws k = Some e /\ written_as ts e x);
  se_plain : Forall (fun e => eKey e <> [] /\ ~ badgerPrefix `prefix_of` eKey e) ws
}.

Lemma modify_stick threshold banned t e : 0 < threshold ->
  modify MemHash opt threshold banned t (stick_threshold e threshold) = modify MemHash opt threshold banned t e.
Proof using Type.
  intros Hth. unfold modify, checkSize, estimateSizeAndSetThreshold. rewrite stick_nonzero by done.
  destruct (stick_fields e threshold) as (E1 & E2 & _ & _ & _ & _). by rewrite E1, E2.
Qed.

Lemma newCommitTs_blind o t ts b o1 t1 : isManaged o = false -> reads t = [] -> nextTxnTs o + 1 < MaxUint64 -> 0 < nextTxnTs o ->
  newCommitTs o t = Some (ts, b, o1, t1) ->
  b = false /\ ts = nextTxnTs o /\ nextTxnTs o1 = ts + 1 /\ isManaged o1 = false /\
  pendingWrites t1 = pendingWrites t /\ duplicateWrites t1 = duplicateWrites t.
Proof using Type.
  intros Hm Hr Hmax Hpos. unfold newCommitTs, hasConflict. rewrite Hr, bool_decide_eq_true_2, Hm by done.
  destruct (oracle_doneRead o t) as [o0 t0] eqn:Ed.
  assert (isManaged o0 = false /\ nextTxnTs o0 = nextTxnTs o /\ pendingWrites t0 = pendingWrites t /\
    duplicateWrites t0 = duplicateWrites t) as (H1 & H2 & H3 & H4).
  { unfold oracle_doneRead in Ed. by destruct (doneRead t); injection Ed as <- <-. }
  destruct (cleanupCommittedTransactions o0) as [o2|] eqn:Ec; [|done]. cbn [mbind option_bind].
  assert (isManaged o2 = false /\ nextTxnTs o2 = nextTxnTs o) as [H5 H6].
  { unfold cleanupCommittedTransactions in Ec. destruct (detectConflicts o0); [|by injection Ec as <-].
    case_bool_decide; [|done]. case_bool_decide; by injection Ec as <-. }
  case_bool_decide; [|done]. intros [= <- <- <- <-]. rewrite H6. split; [done|]. split; [done|].
  destruct (detectConflicts _); cbn; rewrite u64_small by (unfold MaxUint64 in *; lia); done.
Qed.

Lemma committed_written ts e th : eversion e = 0 -> written_as ts e (stick_threshold (committed_entry ts e) th).
Proof using Type.
  intros Hv. destruct (stick_fields (committed_entry ts e) th) as (E1 & E2 & E3 & _ & E5 & E6).
  split; rewrite ?E1, ?E2, ?E3, ?E5, ?E6; unfold committed_entry, processEntry, setVersion; by rewrite bool_decide_eq_true_2.
Qed.

Lemma request_stick th es : (request_size th es).2 = (fun e => stick_threshold e th) <$> es.
Proof using Type.
  induction es as [|e es IH]; [done|]. cbn [request_size]. rewrite fmap_cons, <- IH.
  unfold estimateSizeAndSetThreshold. destruct (request_size th es). by case_bool_decide.
Qed.

Lemma written_stuck ts e e' th : written_as ts e e' -> forall e0, e = stick_threshold e0 th -> written_as ts e0 e'.
Proof using Type.
  intros [H1 H2 H3 H4 H5] e0 ->. destruct (stick_fields e0 th) as (E1 & E2 & E3 & _ & E5 & E6).
  split; congruence.
Qed.

(** The request of a transaction that read nothing. *)
Lemma request_sent ts upd t0 ws t cts pend th bw req : txn_run MemHash opt (new_txn t0 upd) ws [] t ->
  Forall (fun e => eversion e = 0) ws -> 0 < cts <= MaxUint64 -> ts = cts -> pend ≡ₚ pending_list (pendingWrites t) ->
  (es ← commit_entries cts (pend ++ duplicateWrites t); sendToWriteCh opt th bw es) = Ok req -> sent_as ts ws req.
Proof using Type.
  intros Hrun Hv Hcts -> Hp. pose proof (txn_run_tracks _ _ _ _ _ _ _ Hrun) as [Hpend _ _ _ Hdup Hokw].
  pose proof (pending_unversioned _ _ _ _ _ _ _ Hrun Hv) as Hpv. rewrite <- Hp in Hpv. rewrite Hdup, app_nil_r by done.
  rewrite commit_entries_unmanaged by (done || lia). cbn [mbind result_bind]. unfold sendToWriteCh. destruct bw; [done|].
  pose proof (request_stick th ((committed_entry cts <$> pend) ++ [fin_entry cts])) as Est.
  destruct (request_size th _) as [sz es]. cbn [snd] in Est. destruct (bool_decide_reflect (maxBatchCount opt <= len es)); [done|].
  destruct (bool_decide (maxBatchSize opt <= sz)); [done|]. cbn [orb]. intros [= <-]. subst es.
  assert (forall x, x ∈ pend <-> pendingWrites t !! eKey x = Some x) as Hin.
  { intros x. rewrite Hp. unfold pending_list. rewrite list_elem_of_fmap. split.
    - intros ([k e] & -> & He). apply elem_of_map_to_list in He. cbn [snd].
      by rewrite (pending_key _ _ _ _ _ _ _ _ (txn_run_tracks _ _ _ _ _ _ _ Hrun) He).
    - intros He. exists (eKey x, x). split; [done|]. by apply elem_of_map_to_list. }
  split; [done|lia| | |eapply Forall_impl; [exact Hokw|]; by intros x (? & ? & _)].
  - intros k e He. specialize (Hpend k). rewrite He in Hpend. destruct Hpend as (th' & _ & Hk).
    pose proof (last_write_key _ _ _ He) as [Ek Hew]. destruct (stick_fields e th') as (E1 & _ & _ & E4 & _).
    exists (stick_threshold (committed_entry cts (stick_threshold e th')) th). split.
    + apply list_elem_of_fmap. eexists. split; [done|]. apply elem_of_app. left. apply list_elem_of_fmap. eexists. split; [done|].
      apply Hin. by rewrite E1, Ek.
    + eapply written_stuck; [apply committed_written|done]. rewrite E4. by apply (proj1 (Forall_forall _ _) Hv).
  - intros x (y & -> & [Hy|Hy%list_elem_of_singleton]%elem_of_app)%list_elem_of_fmap.
    + apply list_elem_of_fmap in Hy as (z & -> & Hz). pose proof (proj1 (Forall_forall _ _) Hpv z Hz) as Hz0. cbn in Hz0.
      pose proof (committed_written cts z th Hz0) as Hw. exists (eKey z). split; [apply Hw|]. right.
      apply Hin in Hz. specialize (Hpend (eKey z)). destruct (last_write ws (eKey z)) as [e|]; [|congruence].
      destruct Hpend as (th' & _ & Hk). rewrite Hz in Hk. injection Hk as ->. exists e. split; [done|]. by eapply written_stuck.
    + subst y. exists txnKey. split; [|by left]. by destruct (stick_fields (fin_entry cts) th) as (-> & _).
Qed.

Lemma Discard_ok o t o' t' : isManaged o = false -> Discard o t = Ok (o', t') ->
  isManaged o' = false /\ nextTxnTs o' = nextTxnTs o /\ discarded t' = true.
Proof using Type.
  intros Hm. unfold Discard. destruct (discarded t) eqn:Ed; [by intros [= <- <-]|]. case_bool_decide; [done|]. rewrite Hm.
  unfold oracle_doneRead. cbn. destruct (doneRead t); by intros [= <- <-].
Qed.

Lemma throttle_Do_ok {E} b (th th' : Throttle E) r : throttle_Do b th = Stepped (th', r) ->
  th_finish th = None /\ th_finish th' = None /\ th_ch th' = if r then th_ch th else S (th_ch th).
Proof using Type.
  unfold throttle_Do. destruct (th_finish th); [by destruct b|]. destruct b; [destruct (th_errCh th)|case_bool_decide]; try done.
  all: by intros [= <- <-].
Qed.

(** What the commit of a transaction without reads comes to. *)
Lemma CommitWith_ok m o t o' t' cb t0 upd ws : isManaged o = false -> managedTxns opt = false ->
  txn_run MemHash opt (new_txn t0 upd) ws [] t -> Forall (fun e => eversion e = 0) ws ->
  mo_pend m ≡ₚ pending_list (pendingWrites t) -> 0 < nextTxnTs o -> nextTxnTs o + 1 < MaxUint64 ->
  CommitWith opt (mo_threshold m) (mo_blockWrites m) o t (mo_pend m) = Stepped (o', t', cb) ->
  isManaged o' = false /\ nextTxnTs o <= nextTxnTs o' <= nextTxnTs o + 1 /\
  match cb with
  | CbNow _ => False
  | CbNil => ws = []
  | CbErr e => e <> ErrConflict
  | CbCommit ts req => ts = nextTxnTs o /\ nextTxnTs o' = ts + 1 /\ sent_as ts ws req
  end.
Proof using Type.
  intros Hm Hmg Hrun Hv Hp Hpos Hmax. destruct (txn_run_const _ _ _ _ _ _ Hrun) as (_ & _ & _ & Hd & Hi & _). cbn in Hd, Hi.
  pose proof (txn_run_tracks _ _ _ _ _ _ _ Hrun) as [Hpend _ Hr _ _ _].
  unfold CommitWith. case_bool_decide as He.
  { destruct (Discard o t) as [[o1 t1]| |] eqn:Ed; [|done..]. intros [= <- <- <-]. apply Discard_ok in Ed as (H1 & H2 & _); [|done].
    split; [done|]. split; [lia|]. destruct ws as [|e ws]; [done|exfalso]. specialize (Hpend (eKey e)).
    destruct (last_write (e :: ws) (eKey e)) as [w|] eqn:Ew.
    - destruct Hpend as (th & _ & Hk). by rewrite He, lookup_empty in Hk.
    - apply last_None in Ew. assert (e ∈ filter (fun x => eKey x = eKey e) (e :: ws)) as Hin by (apply list_elem_of_filter; split; [done|by left]).
      rewrite Ew in Hin. by apply elem_of_nil in Hin. }
  assert (commitPrecheck opt t = Ok ()) as -> by (unfold commitPrecheck; by rewrite Hd, Hmg, andb_false_r).
  destruct (commitAndSend opt (mo_threshold m) (mo_blockWrites m) o t (mo_pend m)) as [[o1 t1] r] eqn:Ec.
  unfold commitAndSend in Ec. destruct (newCommitTs o t) as [[[[ts b] o2] t2]|] eqn:En; [|injection Ec as <- <- <-; by destruct (Discard o t) as [[? ?]| |]].
  apply newCommitTs_blind in En as (-> & -> & En & Em & Ep & Edup); [|done|by rewrite Hr|done..].
  pose proof (request_sent (nextTxnTs o) upd t0 ws t (nextTxnTs o) (mo_pend m) (mo_threshold m) (mo_blockWrites m)) as Hreq.
  rewrite Edup in Ec.
  destruct (commit_entries (nextTxnTs o) (mo_pend m ++ duplicateWrites t)) as [es| |] eqn:Ee.
  2:{ exfalso. unfold commit_entries in Ee. destruct (forallb _ _); [case_bool_decide|]; done. }
  2:{ injection Ec as <- <- <-. by destruct (Discard o2 t2) as [[? ?]| |]. }
  cbn [mbind result_bind] in Hreq.
  destruct (sendToWriteCh opt (mo_threshold m) (mo_blockWrites m) es) as [req|e|] eqn:Es; injection Ec as <- <- <-.
  - destruct (Discard o2 t2) as [[o3 t3]| |] eqn:Ed; [|done..]. intros [= <- <- <-]. apply Discard_ok in Ed as (H1 & H2 & _); [|done].
    split; [done|]. split; [lia|]. split; [done|]. split; [lia|]. apply Hreq; try done; lia.
  - destruct (Discard _ t2) as [[o3 t3]| |] eqn:Ed; [|done..]. intros [= <- <- <-].
    assert (isManaged (doneCommit o2 (nextTxnTs o)) = false /\ nextTxnTs (doneCommit o2 (nextTxnTs o)) = nextTxnTs o2) as [H3 H4]
      by (unfold doneCommit; by rewrite Em).
    apply Discard_ok in Ed as (H1 & H2 & _); [|done]. split; [done|]. split; [lia|]. intros ->. unfold sendToWriteCh in Es.
    destruct (mo_blockWrites m); [done|]. destruct (request_size _ _). by destruct (_ || _).
  - by destruct (Discard o2 t2) as [[? ?]| |].
Qed.

(** ** Lemmas: the invariant *)

Context (Hunmanaged : managedTxns opt = false).
Notation upd := (negb (DbReadOnly opt)).

(** What was committed, with what became of it. *)
Definition sent (jobs : list job) : list (list Entry * callback) := (fun j => (j_writes j, j_callback j)) <$> jobs.

Definition commit_ts (x : list Entry * callback) : option Z := match x.2 with CbCommit ts _ => Some ts | _ => None end.

Definition undone (jobs : list job) : nat := length (filter (fun j => j_done j = None) jobs).
#[local] Arguments undone : simpl never.
#[local] Arguments sent : simpl never.

Definition sent_ok (x : list Entry * callback) : Prop :=
  match x.2 with
  | CbNow _ => False
  | CbNil => x.1 = []
  | CbErr e => e <> ErrConflict
  | CbCommit ts req => sent_as ts x.1 req
  end.

(** The transaction holds the current writes, until the batch is finished. *)
Definition txn_holds (wb : WriteBatch) (current : list Entry) : Prop :=
  if wb_finished wb then discarded (wb_txn wb) = true
  else exists ts, txn_run MemHash opt (new_txn ts upd) current [] (wb_txn wb).

Record binv (s : bsys) : Prop := {
  bi_orc : isManaged (b_orc s) = false /\ 0 < nextTxnTs (b_orc s) < MaxUint64;
  bi_wb : wb_isManaged (b_wb s) = false /\ wb_commitTs (b_wb s) = 0;
  bi_all : b_accepted s = concat (fst <$> sent (b_jobs s)) ++ b_current s;
  bi_unversioned : Forall (fun e => eversion e = 0) (b_accepted s);
  bi_txn : txn_holds (b_wb s) (b_current s);
  bi_sent : Forall sent_ok (sent (b_jobs s));
  bi_ts : StronglySorted Z.lt (omap commit_ts (sent (b_jobs s))) /\ Forall (fun ts => ts < nextTxnTs (b_orc s)) (omap commit_ts (sent (b_jobs s)));
  bi_told : forall j r, j ∈ b_jobs s -> j_heard j = Some r -> told (j_callback j) r;
  bi_undone : undone (b_jobs s) = th_ch (wb_throttle (b_wb s));
  bi_err : (exists j e, j ∈ b_jobs s /\ j_heard j = Some (Some e)) -> wb_err (b_wb s) <> None;
  bi_waited : th_finish (wb_throttle (b_wb s)) <> None -> th_ch (wb_throttle (b_wb s)) = 0%nat
}.

Lemma new_transaction o o' t : newTransaction opt o true false = Some (o', t) ->
  (exists ts, t = new_txn ts upd) /\ isManaged o' = isManaged o /\ nextTxnTs o' = nextTxnTs o.
Proof using Type.
  unfold newTransaction, oracle_readTs. destruct (isManaged o) eqn:Em; [done|]. cbn. intros [= <- <-]. split; [|done].
  eexists. unfold set_readTs, new_txn. cbn. by destruct (DbReadOnly opt).
Qed.

Lemma undone_app l1 l2 : undone (l1 ++ l2) = (undone l1 + undone l2)%nat.
Proof using Type. unfold undone. by rewrite filter_app, length_app. Qed.

Lemma sent_app l1 l2 : sent (l1 ++ l2) = sent l1 ++ sent l2.
Proof using Type. apply fmap_app. Qed.

Lemma concat_fst_snoc (l : list (list Entry * callback)) x : concat (fst <$> (l ++ [x])) = concat (fst <$> l) ++ x.1.
Proof using Type. rewrite fmap_app, concat_app. cbn. by rewrite app_nil_r. Qed.

Lemma ts_snoc jobs o o' ws cb : StronglySorted Z.lt (omap commit_ts (sent jobs)) -> Forall (fun ts => ts < nextTxnTs o) (omap commit_ts (sent jobs)) ->
  nextTxnTs o <= nextTxnTs o' -> (forall ts req, cb = CbCommit ts req -> ts = nextTxnTs o /\ nextTxnTs o' = ts + 1) ->
  StronglySorted Z.lt (omap commit_ts (sent jobs ++ [(ws, cb)])) /\ Forall (fun ts => ts < nextTxnTs o') (omap commit_ts (sent jobs ++ [(ws, cb)])).
Proof using Type.
  intros H1 H2 Hle Hcb. rewrite omap_app. cbn.
  assert (Forall (fun ts => ts < nextTxnTs o') (omap commit_ts (sent jobs))) as H3 by (eapply Forall_impl; [exact H2|]; cbn; lia).
  destruct cb as [e| |e|ts req]; cbn; try (by rewrite app_nil_r). destruct (Hcb ts req eq_refl) as [-> E]. split.
  - clear H3 Hcb. induction H1 as [|x l Hs IH Hx]; cbn; [by repeat constructor|]. apply Forall_cons in H2 as [Hlt H2].
    constructor; [by apply IH|]. apply Forall_app. split; [done|]. by constructor.
  - apply Forall_app. split; [done|]. constructor; [lia|done].
Qed.

(** A commit of the batch. *)
Lemma wb_commit_ok s m o wb cb err jobs cur : binv s -> moment_ok m (b_wb s) -> nextTxnTs (b_orc s) + 1 < MaxUint64 ->
  wb_commit opt m (b_orc s) (b_wb s) = Stepped (o, wb, cb, err) -> record_commit (b_jobs s) (b_current s) cb = (jobs, cur) ->
  binv (mkBsys o wb jobs (b_accepted s) cur) /\
  (err = None -> wb_finished (b_wb s) = false /\ wb_finished wb = false /\ cur = [] /\ exists ts, wb_txn wb = new_txn ts upd).
Proof using Hunmanaged.
  intros [[Hm Hn] [Hw Hcts] Hall Hv Ht Hsent [Hts Hlt] Htold Hun Herr Hwait] [Hth Hp] Hmax. unfold wb_commit.
  destruct (wb_err (b_wb s)) as [e|] eqn:Ee.
  { intros [= <- <- <- <-]. cbn. intros [= <- <-]. split; [|done]. split; cbn; try done. rewrite Ee. done. }
  destruct (wb_finished (b_wb s)) eqn:Ef.
  { intros [= <- <- <- <-]. cbn. intros [= <- <-]. split; [|done]. split; cbn; try done. by rewrite Ee. }
  unfold txn_holds in Ht. rewrite Ef in Ht. destruct Ht as [t0 Hrun].
  destruct (throttle_Do (mo_take_err m) (wb_throttle (b_wb s))) as [[th [e|]]| |] eqn:Ed; [| |done..].
  { intros [= <- <- <- <-]. cbn. intros [= <- <-]. split; [|done]. split; cbn; try done.
    - unfold txn_holds. cbn. rewrite Ef. by exists t0.
    - apply throttle_Do_ok in Ed as (_ & _ & E). by rewrite Hun.
    - by apply throttle_Do_ok in Ed as (_ & -> & _). }
  apply throttle_Do_ok in Ed as (_ & Efin & Eth). cbn in Eth.
  cbn [wb_txn set_wthrottle]. destruct (CommitWith _ _ _ _ _ _) as [[[o1 t1] cb1]| |] eqn:Ec; [|done..].
  assert (Forall (fun e => eversion e = 0) (b_current s)) as Hvc by (rewrite Hall in Hv; by apply Forall_app in Hv as [_ ?]).
  apply (CommitWith_ok m (b_orc s) (wb_txn (b_wb s)) o1 t1 cb1 t0 upd (b_current s)) in Ec as (Hm1 & Hn1 & Hcb); [|try done; lia..].
  assert ((match cb1 with CbNow e => wb_callback (Some (BTxn e)) (set_wthrottle (b_wb s) th) | _ => Stepped (set_wthrottle (b_wb s) th) end)
    = Stepped (set_wthrottle (b_wb s) th)) as -> by (by destruct cb1).
  cbn [wb_isManaged set_wthrottle]. rewrite Hw. destruct (newTransaction opt o1 true false) as [[o2 t2]|] eqn:En; [|done].
  apply new_transaction in En as ([ts ->] & E1 & E2). cbn [wb_err set_wtxn set_wthrottle]. rewrite Ee.
  intros [= <- <- <- <-] Hrec.
  assert ((jobs, cur) = (b_jobs s ++ [mkJob (b_current s) cb1 ToRun], [])) as [= -> ->] by (rewrite <- Hrec; by destruct cb1).
  split; [|intros _; cbn; rewrite Hcts; split_and!; try done; by exists ts].
  pose proof (ts_snoc (b_jobs s) (b_orc s) o2 (b_current s) cb1 Hts Hlt) as Hts2. split; cbn.
  - rewrite E1, E2. split; [done|lia].
  - done.
  - rewrite app_nil_r, sent_app. change (sent [mkJob (b_current s) cb1 ToRun]) with [(b_current s, cb1)]. by rewrite concat_fst_snoc.
  - done.
  - unfold txn_holds. cbn. rewrite Ef, Hcts. exists ts. constructor.
  - rewrite sent_app. apply Forall_app. split; [done|]. constructor; [|done]. unfold sent_ok. cbn. destruct cb1; [done..|apply Hcb].
  - rewrite sent_app. apply Hts2; [lia|]. intros ts' req ->. destruct Hcb as (H1 & H2 & _). split; [done|lia].
  - intros j r [Hj|Hj%list_elem_of_singleton]%elem_of_app; [by apply Htold|]. subst j. done.
  - rewrite undone_app, Hun, Eth. change (undone [mkJob (b_current s) cb1 ToRun]) with 1%nat. lia.
  - intros (j & e & [Hj|Hj%list_elem_of_singleton]%elem_of_app & He); [|by subst j]. exfalso. apply Herr; [by exists j, e|done].
  - by rewrite Efin.
Qed.

Lemma try_modify_ok m t e e2 t' : 0 < mo_threshold m -> e2 = e \/ e2 = stick_threshold e (mo_threshold m) ->
  try_modify MemHash opt m t e2 = Ok t' -> discarded t = false /\ forall t0 ws, txn_run MemHash opt t0 ws [] t -> txn_run MemHash opt t0 (ws ++ [e]) [] t'.
Proof using Type.
  intros Hth He2 E. assert (try_modify MemHash opt m t e = Ok t') as E1.
  { destruct He2 as [->| ->]; [done|]. unfold try_modify in *. by rewrite modify_stick in E. }
  split; [by apply modify_ok in E1 as (_ & ? & _)|]. intros t0 ws Hrun. by eapply run_write.
Qed.

(** An accepted write joins the current ones. *)
Lemma accept_ok s e t t0 : binv s -> wb_finished (b_wb s) = false -> eversion e = 0 ->
  txn_run MemHash opt (new_txn t0 upd) (b_current s ++ [e]) [] t ->
  binv (mkBsys (b_orc s) (set_wtxn (b_wb s) t) (b_jobs s) (b_accepted s ++ [e]) (b_current s ++ [e])).
Proof using Type.
  intros [Ho Hw Hall Hv Ht Hsent Hts Htold Hun Herr Hwait] Hf He Hrun. split; cbn; try done.
  - by rewrite Hall, app_assoc.
  - apply Forall_app. split; [done|]. by constructor.
  - unfold txn_holds. cbn. rewrite Hf. by exists t0.
Qed.

Lemma write_ok s m e e2 o wb cb err jobs cur : binv s -> moment_ok m (b_wb s) -> eversion e = 0 ->
  e2 = e \/ e2 = stick_threshold e (mo_threshold m) -> nextTxnTs (b_orc s) + 1 < MaxUint64 ->
  write_or_commit MemHash opt m (b_orc s) (b_wb s) e e2 = Stepped (o, wb, cb, err) -> record_commit (b_jobs s) (b_current s) cb = (jobs, cur) ->
  binv (mkBsys o wb jobs (b_accepted s ++ if err then [] else [e]) (cur ++ if err then [] else [e])).
Proof using Hunmanaged.
  intros Hi Hmo He He2 Hmax. pose proof Hmo as [Hth _]. unfold write_or_commit.
  destruct (try_modify MemHash opt m (wb_txn (b_wb s)) e) as [t|er|] eqn:E1; [| |done].
  { intros [= <- <- <- <-]. cbn. intros [= <- <-]. apply (try_modify_ok m _ e e) in E1 as [Hd Hrun]; [|done|by left].
    pose proof (bi_txn _ Hi) as Ht. unfold txn_holds in Ht. destruct (wb_finished (b_wb s)) eqn:Ef; [congruence|].
    destruct Ht as [t0 Ht]. by apply (accept_ok s e t t0 Hi Ef He), Hrun. }
  assert (forall x : outcome wb_step, (match er with ErrTxnTooBig => x | _ => Stepped (b_orc s, b_wb s, None, Some (BTxn er)) end)
    = Stepped (o, wb, cb, err) -> (exists er', Stepped (b_orc s, b_wb s, None, Some er') = Stepped (o, wb, cb, err)) \/ x = Stepped (o, wb, cb, err)) as Hcase.
  { intros x Hx. destruct er; try (left; by eexists). by right. }
  intros H Hrec. apply Hcase in H as [(er' & [= <- <- <- <-])|H].
  { cbn in Hrec. injection Hrec as <- <-. rewrite !app_nil_r. by destruct s. }
  destruct (wb_commit opt m (b_orc s) (b_wb s)) as [[[[o1 wb1] cb1] err1]| |] eqn:Ec; [|done..].
  destruct (record_commit (b_jobs s) (b_current s) cb1) as [jobs1 cur1] eqn:Er1.
  destruct (wb_commit_ok s m o1 wb1 cb1 err1 jobs1 cur1 Hi Hmo Hmax Ec Er1) as [Hi1 Hnone].
  destruct err1 as [er1|].
  { injection H as <- <- <- <-. rewrite Er1 in Hrec. injection Hrec as <- <-. by rewrite !app_nil_r. }
  destruct (Hnone eq_refl) as (_ & Hf1 & -> & ts & Etx).
  destruct (try_modify MemHash opt m (wb_txn wb1) e2) as [t|er2|] eqn:E2; [| |done]; injection H as <- <- <- <-;
    rewrite Er1 in Hrec; injection Hrec as <- <-.
  - apply (try_modify_ok m _ e e2) in E2 as [_ Hrun]; [|done..].
    pose proof (accept_ok (mkBsys o1 wb1 jobs1 (b_accepted s) []) e t ts Hi1 Hf1 He) as Ha. apply Ha, Hrun. rewrite Etx. constructor.
  - rewrite !app_nil_r. destruct Hi1 as [I1 I2 I3 I4 I5 I6 I7 I8 I9 I10 I11]. by split.
Qed.

Lemma finished_ok s o t wb : binv s -> isManaged o = false -> nextTxnTs o = nextTxnTs (b_orc s) -> discarded t = true ->
  wb = mkWB t (wb_throttle wb) (wb_err (b_wb s)) (wb_isManaged (b_wb s)) (wb_commitTs (b_wb s)) true ->
  th_ch (wb_throttle wb) = th_ch (wb_throttle (b_wb s)) -> (th_finish (wb_throttle wb) <> None -> th_ch (wb_throttle wb) = 0%nat) -> binv (mkBsys o wb (b_jobs s) (b_accepted s) (b_current s)).
Proof using Type.
  intros [[Hm Hn] Hw Hall Hv Ht Hsent Hts Htold Hun Herr Hwait] Ho1 Ho2 Hd -> Hch Hfin. cbn in Hch, Hfin. split; cbn; try done.
  - by rewrite Ho2.
  - by rewrite Ho2.
  - by rewrite Hch.
Qed.

Lemma undone_insert jobs i j r : jobs !! i = Some j -> j_done j = None ->
  undone jobs = S (undone (<[i := set_stage j (Ended r)]> jobs)).
Proof using Type.
  intros Hi Hj. rewrite (insert_take_drop _ _ _ (lookup_lt_Some _ _ _ Hi)). rewrite <- (take_drop_middle _ _ _ Hi) at 1.
  rewrite !undone_app. unfold undone at 2 4. rewrite !filter_cons. rewrite decide_True, decide_False by (done || by cbn). cbn [length].
  unfold undone. lia.
Qed.

Lemma undone_told jobs i j r : jobs !! i = Some j -> j_done j = None -> undone (<[i := set_stage j (Told r)]> jobs) = undone jobs.
Proof using Type.
  intros Hi Hj. rewrite (insert_take_drop _ _ _ (lookup_lt_Some _ _ _ Hi)). rewrite <- (take_drop_middle jobs _ _ Hi) at 3.
  rewrite !undone_app. f_equal. unfold undone. rewrite !filter_cons, !decide_True by (done || by cbn). done.
Qed.

Lemma sent_insert jobs i j st : jobs !! i = Some j -> sent (<[i := set_stage j st]> jobs) = sent jobs.
Proof using Type. intros Hi. unfold sent. rewrite list_fmap_insert. cbn. apply list_insert_id. by rewrite list_lookup_fmap, Hi. Qed.

(** The jobs after one of them went on. *)
Lemma stage_insert (jobs : list job) (i : nat) j st j' : jobs !! i = Some j -> j' ∈ <[i := set_stage j st]> jobs -> j' = set_stage j st \/ j' ∈ jobs.
Proof using Type.
  intros Hi [n Hn]%list_elem_of_lookup. destruct (decide (n = i)) as [->|Hne].
  - rewrite list_lookup_insert_eq in Hn by (by eapply lookup_lt_Some). injection Hn as <-. by left.
  - rewrite list_lookup_insert_ne in Hn by done. right. by eapply list_elem_of_lookup_2.
Qed.

Lemma store_fields raced err wb : wb_store raced err wb = mkWB (wb_txn wb) (wb_throttle wb) (wb_err (wb_store raced err wb)) (wb_isManaged wb) (wb_commitTs wb) (wb_finished wb) /\
  (err <> None \/ wb_err wb <> None -> wb_err (wb_store raced err wb) <> None).
Proof using Type.
  unfold wb_store. destruct err as [e|]; [|split; [by destruct wb|by intros [?|?]]].
  destruct (raced || _) eqn:E; [by split|]. apply orb_false_iff in E as [_ E%bool_decide_eq_false]. split; [by destruct wb|done].
Qed.

Lemma told_ok s i j raced err : binv s -> b_jobs s !! i = Some j -> j_stage j = ToRun -> told (j_callback j) err ->
  binv (mkBsys (after_callback (b_orc s) (j_callback j)) (wb_store raced err (b_wb s)) (<[i := set_stage j (Told err)]> (b_jobs s)) (b_accepted s) (b_current s)).
Proof using Type.
  intros [[Hm Hn] Hw Hall Hv Ht Hsent Hts Htold Hun Herr Hwait] Hi Hj Hr. destruct (store_fields raced err (b_wb s)) as [E1 E2].
  rewrite E1. clear E1. revert E2. generalize (wb_err (wb_store raced err (b_wb s))). intros err1 E2.
  assert (j_done j = None) as Hd by (unfold j_done; by rewrite Hj).
  pose proof (undone_told (b_jobs s) i j err Hi Hd) as Hu. pose proof (sent_insert (b_jobs s) i j (Told err) Hi) as Hs.
  assert (isManaged (after_callback (b_orc s) (j_callback j)) = false /\ nextTxnTs (after_callback (b_orc s) (j_callback j)) = nextTxnTs (b_orc s)) as [Ho1 Ho2].
  { unfold after_callback, doneCommit. destruct (j_callback j); [done..|]. by rewrite Hm. }
  split; cbn; rewrite ?Hs, ?Ho2, ?Hu; try done.
  - intros j' r [->|Hin]%(stage_insert _ _ _ _ _ Hi) Er; [|by apply Htold]. cbn in Er. by injection Er as <-.
  - intros (j' & e & [->|Hin]%(stage_insert _ _ _ _ _ Hi) & Er); apply E2.
    + cbn in Er. injection Er as ->. by left.
    + right. apply Herr. by exists j', e.
Qed.

Lemma done_ok s i j err wb : binv s -> b_jobs s !! i = Some j -> j_stage j = Told err -> wb_done err (b_wb s) = Stepped wb ->
  binv (mkBsys (b_orc s) wb (<[i := set_stage j (Ended err)]> (b_jobs s)) (b_accepted s) (b_current s)).
Proof using Type.
  intros [Ho Hw Hall Hv Ht Hsent Hts Htold Hun Herr Hwait] Hi Hj. unfold wb_done.
  destruct (throttle_Done err (wb_throttle (b_wb s))) as [th| |] eqn:Ed; [|done..]. intros [= <-].
  assert (S (th_ch th) = th_ch (wb_throttle (b_wb s)) /\ th_finish th = th_finish (wb_throttle (b_wb s))) as [Hth Hfin].
  { unfold throttle_Done in Ed. destruct err; [case_bool_decide; [|done]|]; destruct (th_ch _); (done || by injection Ed as <-). }
  assert (j_done j = None /\ j_heard j = Some err) as [Hd Hh] by (unfold j_done, j_heard; by rewrite Hj).
  apply list_elem_of_lookup_2 in Hi as Hin0.
  pose proof (undone_insert (b_jobs s) i j err Hi Hd) as Hu. pose proof (sent_insert (b_jobs s) i j (Ended err) Hi) as Hs.
  split; cbn; rewrite ?Hs; try done.
  - intros j' r [->|Hin]%(stage_insert _ _ _ _ _ Hi) Er; [|by apply Htold]. cbn in *. injection Er as <-. by apply Htold.
  - lia.
  - intros (j' & e & [->|Hin]%(stage_insert _ _ _ _ _ Hi) & Er); apply Herr; [|by exists j', e].
    cbn in Er. injection Er as ->. by exists j, e.
  - rewrite Hfin. intros Hf. specialize (Hwait Hf). lia.
Qed.

Lemma flush_ok s m o wb cb err jobs cur : binv s -> moment_ok m (b_wb s) -> nextTxnTs (b_orc s) + 1 < MaxUint64 ->
  Flush_commit opt m (b_orc s) (b_wb s) = Stepped (o, wb, cb, err) -> record_commit (b_jobs s) (b_current s) cb = (jobs, cur) ->
  binv (mkBsys o wb jobs (b_accepted s) cur) /\ (err = None -> wb_finished wb = true /\ cur = []).
Proof using Hunmanaged.
  intros Hi Hmo Hmax. unfold Flush_commit. destruct (wb_commit opt m (b_orc s) (b_wb s)) as [[[[o1 wb1] cb1] err1]| |] eqn:Ec; [|done..].
  destruct (record_commit (b_jobs s) (b_current s) cb1) as [jobs1 cur1] eqn:Er1.
  destruct (wb_commit_ok s m o1 wb1 cb1 err1 jobs1 cur1 Hi Hmo Hmax Ec Er1) as [Hi1 Hnone]. destruct err1 as [er1|].
  { intros [= <- <- <- <-]. rewrite Er1. by intros [= <- <-]. }
  destruct (Discard o1 (wb_txn wb1)) as [[o2 t2]| |] eqn:Ed; [|done..]. intros [= <- <- <- <-]. rewrite Er1. intros [= <- <-].
  destruct (Hnone eq_refl) as (_ & _ & -> & _). apply Discard_ok in Ed as (H1 & H2 & H3); [|apply Hi1]. split; [|done].
  apply (finished_ok (mkBsys o1 wb1 jobs1 (b_accepted s) []) o2 t2); try done. apply Hi1.
Qed.

Lemma bstep_ok s s' : binv s -> bstep s s' -> binv s'.
Proof using Hunmanaged.
  intros Hi Hstep. destruct Hstep as [s m e e2 o wb cb err jobs cur Hmo He He2 Hmax E Er|s m o wb cb err jobs cur Hmo Hmax E Er|s o wb E
    |s i j raced err Hj Hd Hr|s i j err wb Hj Hd E|s o [Hm [Hle Hlt]]].
  - by apply (write_ok _ m e e2 o wb cb err).
  - by apply (flush_ok _ m o wb cb err).
  - unfold Cancel in E. destruct (throttle_Finish _) as [[th er]| |] eqn:Et; [|done..].
    destruct (Discard _ _) as [[o1 t1]| |] eqn:Ed; [|done..]. injection E as <- <-. apply Discard_ok in Ed as (H1 & H2 & H3); [|apply Hi].
    assert (th_ch th = th_ch (wb_throttle (b_wb s)) /\ th_ch th = 0%nat) as [H4 H5].
    { unfold throttle_Finish in Et. destruct (th_finish _) eqn:Ef.
      - injection Et as <- _. split; [done|]. apply Hi. by rewrite Ef.
      - case_bool_decide as H0; [|done]. injection Et as <- _. by rewrite H0. }
    by apply (finished_ok _ _ t1).
  - by apply told_ok.
  - by eapply done_ok.
  - destruct Hi as [[Hm0 Hn] Hw Hall Hv Ht Hsent [Hts1 Hts2] Htold Hun Herr Hwait]. split; cbn; try done.
    + rewrite Hm. split; [done|lia].
    + split; [done|]. eapply Forall_impl; [exact Hts2|]. cbn. lia.
Qed.

Lemma batch_new_ok s : batch_new s -> binv s.
Proof using Hunmanaged.
  intros (o & Hm & Hn & E & Ej & Ea & Ec). unfold NewWriteBatch, newWriteBatch in E. rewrite Hunmanaged in E.
  destruct (newTransaction opt o true false) as [[o1 t1]|] eqn:En; [|done]. destruct s as [o2 wb jobs acc cur]. cbn in *. subst jobs acc cur.
  injection E as <- <-. apply new_transaction in En as ([ts ->] & E1 & E2). split; cbn; try done.
  - by rewrite E1, E2.
  - exists ts. constructor.
  - split; constructor.
  - by intros j r ?%elem_of_nil.
  - by intros (j & e & ?%elem_of_nil & _).
Qed.

(** After the end nothing is accepted any more. *)
Lemma finished_stays s s' : binv s -> wb_finished (b_wb s) = true -> bstep s s' ->
  wb_finished (b_wb s') = true /\ b_accepted s' = b_accepted s /\ b_current s' = b_current s /\ length (b_jobs s) = length (b_jobs s').
Proof using Type.
  intros Hi Hf Hstep. pose proof (bi_txn _ Hi) as Ht. unfold txn_holds in Ht. rewrite Hf in Ht.
  assert (forall m o wb cb err, wb_commit opt m (b_orc s) (b_wb s) = Stepped (o, wb, cb, err) -> wb = b_wb s /\ cb = None /\ err <> None) as Hc.
  { intros m o wb cb err. unfold wb_commit. destruct (wb_err (b_wb s)); [by intros [= <- <- <- <-]|]. rewrite Hf. by intros [= <- <- <- <-]. }
  destruct Hstep as [s m e e2 o wb cb err jobs cur Hmo He He2 Hmax E Er|s m o wb cb err jobs cur Hmo Hmax E Er|s o wb E
    |s i j raced err Hj Hd Hr|s i j err wb Hj Hd E|s o Ho].
  - assert (wb = b_wb s /\ cb = None /\ err <> None) as (-> & -> & Herr).
    { unfold write_or_commit in E. destruct (try_modify MemHash opt m (wb_txn (b_wb s)) e) as [t|er|] eqn:E1; [|destruct er; try (by injection E as <- <- <- <-)|done].
      - unfold try_modify in E1. apply modify_ok in E1 as (_ & H & _). congruence.
      - destruct (wb_commit opt m (b_orc s) (b_wb s)) as [[[[o1 wb1] cb1] err1]| |] eqn:Ec; [|done..].
        apply Hc in Ec as (-> & -> & He1). destruct err1; [by injection E as <- <- <- <-|done]. }
    cbn in Er. injection Er as <- <-. destruct err; [|done]. cbn. by rewrite !app_nil_r.
  - unfold Flush_commit in E. destruct (wb_commit opt m (b_orc s) (b_wb s)) as [[[[o1 wb1] cb1] err1]| |] eqn:Ec; [|done..].
    apply Hc in Ec as (-> & -> & He1). destruct err1; [|done]. injection E as <- <- <- <-. cbn in Er. by injection Er as <- <-.
  - unfold Cancel in E. destruct (throttle_Finish _) as [[th er]| |]; [|done..].
    destruct (Discard _ _) as [[o1 t1]| |]; [|done..]. by injection E as <- <-.
  - cbn. rewrite length_insert. by destruct (store_fields raced err (b_wb s)) as [-> _].
  - cbn. rewrite length_insert. unfold wb_done in E. destruct (throttle_Done _ _); [|done..]. by injection E as <-.
  - done.
Qed.

Lemma finished_rtc s s' : binv s -> wb_finished (b_wb s) = true -> rtc bstep s s' ->
  binv s' /\ b_accepted s' = b_accepted s /\ b_current s' = b_current s.
Proof using Hunmanaged.
  intros Hi Hf Hr. induction Hr as [s|s s1 s2 Hs _ IH]; [done|]. destruct (finished_stays s s1 Hi Hf Hs) as (Hf1 & E1 & E2 & _).
  destruct (IH (bstep_ok _ _ Hi Hs) Hf1) as (H1 & H2 & H3). split; [done|]. by rewrite H2, H3.
Qed.

(** ** Lemmas: the last write is the newest *)

Lemma last_write_app l1 l2 k : last_write (l1 ++ l2) k = match last_write l2 k with Some e => Some e | None => last_write l1 k end.
Proof using Type. unfold last_write. rewrite filter_app, last_app. done. Qed.

(** The last write of a key is in the last transaction that has one. *)
Lemma last_write_concat (l : list (list Entry * callback)) k e : last_write (concat (fst <$> l)) k = Some e ->
  exists l1 x l2, l = l1 ++ x :: l2 /\ last_write x.1 k = Some e /\ Forall (fun y => last_write y.1 k = None) l2.
Proof using Type.
  induction l as [|x l IH] using rev_ind; [done|]. rewrite concat_fst_snoc, last_write_app.
  destruct (last_write x.1 k) as [e'|] eqn:Ex.
  - intros [= ->]. exists l, x, []. by split_and!.
  - intros H. destruct (IH H) as (l1 & y & l2 & -> & Hy & Hl2). exists l1, y, (l2 ++ [x]). split; [by rewrite <- app_assoc|].
    split; [done|]. apply Forall_app. split; [done|]. by constructor.
Qed.

Lemma done_heard j r : j_done j = Some r -> j_heard j = Some r.
Proof using Type. unfold j_done, j_heard. by destruct (j_stage j). Qed.

(** All commits of a batch that waited for them without an error went through. *)
Lemma waited_ok s wb : binv s -> Flush_wait (b_wb s) = Stepped (wb, None) ->
  forall j, j ∈ b_jobs s -> j_callback j = CbNil \/ exists ts req, j_callback j = CbCommit ts req /\ committed (b_jobs s) ts req.
Proof using Type.
  intros Hi E j Hj. unfold Flush_wait in E. destruct (throttle_Finish (wb_throttle (b_wb s))) as [[th [e|]]| |] eqn:Et; [done| |done..].
  injection E as <- He. assert (th_ch (wb_throttle (b_wb s)) = 0%nat) as H0.
  { unfold throttle_Finish in Et. destruct (th_finish _) eqn:Ef; [apply Hi; by rewrite Ef|]. by case_bool_decide. }
  pose proof (bi_undone _ Hi) as Hu. rewrite H0 in Hu. apply nil_length_inv in Hu.
  destruct (j_done j) as [[e|]|] eqn:Ed.
  - exfalso. apply (bi_err _ Hi); [exists j, e; by rewrite (done_heard _ _ Ed)|done].
  - pose proof (bi_told _ Hi j None Hj (done_heard _ _ Ed)) as Ht. destruct (j_callback j) as [e| |e|ts req] eqn:Ec; [done|by left|done|].
    right. exists ts, req. split; [done|]. by exists j.
  - exfalso. assert (j ∈ filter (fun j => j_done j = None) (b_jobs s)) as Hin by (by apply list_elem_of_filter).
    rewrite Hu in Hin. by apply elem_of_nil in Hin.
Qed.

Lemma sent_elem_of jobs ts req : committed jobs ts req -> exists ws, (ws, CbCommit ts req) ∈ sent jobs.
Proof using Type. intros (j & Hj & E & _). exists (j_writes j). apply list_elem_of_fmap. exists j. by rewrite E. Qed.

(** Of two commits with writes of a key the later one has the greater timestamp. *)
Lemma later_commit s l1 ws ts req l2 ws' ts' req' k : binv s -> sent (b_jobs s) = l1 ++ (ws, CbCommit ts req) :: l2 ->
  Forall (fun y => last_write y.1 k = None) l2 -> (ws', CbCommit ts' req') ∈ sent (b_jobs s) -> last_write ws' k <> None ->
  ts' <= ts /\ (ts' = ts -> ws' = ws /\ req' = req).
Proof using Type.
  intros Hi E Hl2 Hin Hk. pose proof (bi_ts _ Hi) as [Hs _]. rewrite E in Hs, Hin. rewrite omap_app in Hs. cbn in Hs.
  apply elem_of_app in Hin as [Hin|[Heq|Hin]%elem_of_cons].
  - assert (ts' < ts); [|lia]. apply (StronglySorted_app_1_elem_of Z.lt _ _ ts' ts Hs); [|by left]. apply list_elem_of_omap. by exists (ws', CbCommit ts' req').
  - injection Heq as -> -> ->. by split.
  - rewrite Forall_forall in Hl2. by specialize (Hl2 _ Hin).
Qed.

(** C19: A write batch keeps what it accepts.  In whatever way calls, the callbacks of commits and
    other transactions interleave, a commit of the batch never conflicts.  When [Flush] commits the
    rest without an error and, after the callbacks, ends without one, then every key the batch
    accepted writes of is in a committed request with its last write, and in no committed request
    of the batch at a greater timestamp, nor at the same one with another value; and no request
    is longer than a transaction may be. *)
Theorem flushed_batch_committed s0 s m o wb cb jobs cur s2 wb2 : batch_new s0 -> rtc bstep s0 s -> moment_ok m (b_wb s) ->
  nextTxnTs (b_orc s) + 1 < MaxUint64 ->
  Flush_commit opt m (b_orc s) (b_wb s) = Stepped (o, wb, cb, None) -> record_commit (b_jobs s) (b_current s) cb = (jobs, cur) ->
  rtc bstep (mkBsys o wb jobs (b_accepted s) cur) s2 -> Flush_wait (b_wb s2) = Stepped (wb2, None) ->
  Forall (fun j => j_callback j <> CbErr ErrConflict) (b_jobs s) /\
  (forall k e, last_write (b_accepted s) k = Some e -> exists ts req e', committed (b_jobs s2) ts req /\ e' ∈ req /\ written_as ts e e' /\
    forall ts' req' x v, committed (b_jobs s2) ts' req' -> x ∈ req' -> eKey x = KeyWithTs k v -> 0 <= v <= MaxUint64 -> v <= ts /\ (v = ts -> written_as ts e x)) /\
  (forall ts req, committed (b_jobs s2) ts req -> len req < maxBatchCount opt).
Proof using Hunmanaged.
  intros Hnew Hreach Hmo Hmax Hflush Hrec Hend Hwait.
  assert (binv s) as Hi. { apply batch_new_ok in Hnew. clear -Hnew Hreach Hunmanaged. induction Hreach; [done|]. by eauto using bstep_ok. }
  split.
  { apply Forall_forall. intros j Hj E. pose proof (bi_sent _ Hi) as Hs. rewrite Forall_forall in Hs.
    assert ((j_writes j, j_callback j) ∈ sent (b_jobs s)) as Hin by (apply list_elem_of_fmap; by exists j).
    specialize (Hs _ Hin). unfold sent_ok in Hs. cbn in Hs. rewrite E in Hs. done. }
  destruct (flush_ok s m o wb cb None jobs cur Hi Hmo Hmax Hflush Hrec) as [Hi1 [Hf ->]]; [done|].
  destruct (finished_rtc _ s2 Hi1 Hf Hend) as (Hi2 & Ea & Ec). cbn in Ea, Ec. pose proof (bi_all _ Hi2) as Hall. rewrite Ea, Ec, app_nil_r in Hall.
  pose proof (bi_sent _ Hi2) as Hsent. rewrite Forall_forall in Hsent. split.
  - intros k e He. rewrite Hall in He. apply last_write_concat in He as (l1 & [ws cb2] & l2 & El & He & Hl2). cbn [fst] in He.
    assert ((ws, cb2) ∈ sent (b_jobs s2)) as Hin by (rewrite El; apply elem_of_app; right; by left).
    pose proof (Hsent _ Hin) as Hok. pose proof Hin as (j & [= -> ->] & Hj)%list_elem_of_fmap.
    destruct (waited_ok s2 wb2 Hi2 Hwait j Hj) as [Ecb|(ts & req & Ecb & Hcom)]; unfold sent_ok in Hok; cbn in Hok; rewrite Ecb in Hok.
    { by rewrite Hok in He. }
    destruct (se_all _ _ _ Hok k e He) as (e' & Hin' & Hw). exists ts, req, e'. split; [done|]. split; [done|]. split; [done|].
    intros ts' req' x v Hcom' Hx Hkx Hv. apply sent_elem_of in Hcom' as [ws' Hws']. pose proof (Hsent _ Hws') as Hok'.
    destruct (se_only _ _ _ Hok' x Hx) as (k' & Ekx & Hor). pose proof (se_pos _ _ _ Hok') as Hpos. cbn [fst] in Ekx, Hor.
    rewrite Hkx in Ekx. assert (k = k') as <- by (apply (f_equal ukey) in Ekx; by rewrite !ukey_KeyWithTs in Ekx).
    apply last_write_key in He as Hke. destruct Hke as [Ek Hke].
    assert (k <> [] /\ ~ badgerPrefix `prefix_of` k) as [Hne Hplain] by (rewrite <- Ek; by apply (proj1 (Forall_forall _ _) (se_plain _ _ _ Hok))).
    destruct Hor as [->|(e2 & He2 & Hw2)]; [exfalso; apply Hplain; by exists (drop (length badgerPrefix) txnKey)|].
    destruct (later_commit s2 l1 (j_writes j) ts req l2 ws' ts' req' k Hi2) as [Hle Heq]; [by rewrite El, Ecb|done|done|congruence|].
    apply (f_equal ParseTs) in Ekx. rewrite !ParseTs_KeyWithTs in Ekx by (done || lia). subst v. split; [done|].
    intros ->. destruct (Heq eq_refl) as [-> ->]. by simplify_eq.
  - intros ts req Hcom. apply sent_elem_of in Hcom as [ws Hws]. exact (se_len _ _ _ (Hsent _ Hws)).
Qed.
End System.

(** ** Examples *)

(** One write fits a transaction. *)
Definition wx_opts : txn_opts := mkOpts 3 1000 2000000 false false true false (-1).

Definition wx_moment (s : bsys) : moment := mkMoment 1000 ∅ false (pending_list (pendingWrites (wb_txn (b_wb s)))) false.

Definition wx_write (s : bsys) (e : Entry) : bsys :=
  match wb_SetEntry be_decode wx_opts (wx_moment s) (b_orc s) (b_wb s) e with
  | Stepped (o, wb, cb, err) =>
      let '(jobs, cur) := record_commit (b_jobs s) (b_current s) cb in
      mkBsys o wb jobs (b_accepted s ++ if err then [] else [e]) (cur ++ if err then [] else [e])
  | _ => s
  end.

Definition wx_flush (s : bsys) : bsys :=
  match Flush_commit wx_opts (wx_moment s) (b_orc s) (b_wb s) with
  | Stepped (o, wb, cb, err) => let '(jobs, cur) := record_commit (b_jobs s) (b_current s) cb in mkBsys o wb jobs (b_accepted s) cur
  | _ => s
  end.

Definition wx_told (s : bsys) (i : nat) : bsys :=
  match b_jobs s !! i with
  | Some j => mkBsys (after_callback (b_orc s) (j_callback j)) (wb_store false None (b_wb s)) (<[i := set_stage j (Told None)]> (b_jobs s))
      (b_accepted s) (b_current s)
  | _ => s
  end.

Definition wx_done (s : bsys) (i : nat) : bsys :=
  match b_jobs s !! i, wb_done None (b_wb s) with
  | Some j, Stepped wb => mkBsys (b_orc s) wb (<[i := set_stage j (Ended None)]> (b_jobs s)) (b_accepted s) (b_current s)
  | _, _ => s
  end.

Definition wx_call (s : bsys) (i : nat) : bsys := wx_done (wx_told s i) i.

Definition stepped {A} (r : outcome A) : bool := match r with Stepped _ => true | _ => false end.

Lemma wx_write_step s e : eversion e = 0 -> nextTxnTs (b_orc s) + 1 < MaxUint64 ->
  stepped (wb_SetEntry be_decode wx_opts (wx_moment s) (b_orc s) (b_wb s) e) = true -> bstep be_decode wx_opts s (wx_write s e).
Proof.
  intros He Hmax Hs. unfold wx_write. destruct (wb_SetEntry _ _ _ _ _ _) as [[[[o wb] cb] err]| |] eqn:E; [|done..].
  destruct (record_commit _ _ cb) as [jobs cur] eqn:Er. apply (bs_write _ _ s (wx_moment s) e (stick_threshold e 1000) o wb cb err jobs cur); [by split|done|by right|done|exact E|done].
Qed.

Definition is_to_run (st : stage) : bool := match st with ToRun => true | _ => false end.

Lemma wx_call_step s i j : b_jobs s !! i = Some j -> is_to_run (j_stage j) && stepped (wb_done None (b_wb s)) = true ->
  match j_callback j with CbNil | CbCommit _ _ => True | _ => False end -> rtc (bstep be_decode wx_opts) s (wx_call s i).
Proof.
  intros Hj H Hc. apply andb_true_iff in H as [Hd Hs]. unfold wx_call, wx_done, wx_told. rewrite Hj. cbn.
  rewrite list_lookup_insert_eq by (by eapply lookup_lt_Some). destruct (wb_done None (b_wb s)) as [wb| |] eqn:E; [|done..].
  eapply rtc_l; [|apply rtc_once].
  - apply (bs_told _ _ s i j false None); [done|by destruct (j_stage j)|]. destruct (j_callback j); try done. by left.
  - apply (bs_done _ _ (mkBsys _ _ _ _ _) i (set_stage j (Told None)) None); [|done|exact E]. cbn.
    apply list_lookup_insert_eq. by eapply lookup_lt_Some.
Qed.

Definition wx_0 : bsys :=
  match NewWriteBatch wx_opts (Open_oracle false true 4) with
  | Stepped (o, wb) => mkBsys o wb [] [] []
  | _ => mkBsys (Open_oracle false true 4) (mkWB (new_txn 0 true) (NewThrottle 0) None false 0 false) [] [] []
  end.

Definition wx_1 : bsys := wx_write wx_0 (NewEntry [x61] (Some [x01])).
Definition wx_2 : bsys := wx_write wx_1 (NewEntry [x62] (Some [x02])).
Definition wx_3 : bsys := wx_write wx_2 (NewEntry [x61] (Some [x03])).
Definition wx_4 : bsys := wx_flush wx_3.
Definition wx_5 : bsys := wx_call wx_4 1.
Definition wx_6 : bsys := wx_call wx_5 0.
Definition wx_7 : bsys := wx_call wx_6 2.

Lemma wx_reach : rtc (bstep be_decode wx_opts) wx_0 wx_3.
Proof.
  apply (rtc_l _ _ wx_1); [apply wx_write_step; vm_compute; reflexivity|].
  apply (rtc_l _ _ wx_2); [apply wx_write_step; vm_compute; reflexivity|].
  apply rtc_once, wx_write_step; vm_compute; reflexivity.
Qed.

Lemma wx_calls : rtc (bstep be_decode wx_opts) wx_4 wx_7.
Proof.
  transitivity wx_5; [eapply (wx_call_step wx_4 1); [vm_compute; reflexivity..|exact I]|].
  transitivity wx_6; [eapply (wx_call_step wx_5 0); [vm_compute; reflexivity..|exact I]|].
  eapply (wx_call_step wx_6 2); [vm_compute; reflexivity..|exact I].
Qed.

(** Three writes of two keys in three transactions, whose callbacks run in another order. *)
Lemma flushed_batch_committed_witness : exists ts req e', committed (b_jobs wx_7) ts req /\ e' ∈ req /\
  eKey e' = KeyWithTs [x61] ts /\ eValue e' = Some [x03].
Proof.
  destruct (flushed_batch_committed be_decode wx_opts eq_refl wx_0 wx_3 (wx_moment wx_3) (b_orc wx_4) (b_wb wx_4)
    (Some (CbCommit 7 (match b_jobs wx_4 !! 2%nat with Some (mkJob _ (CbCommit _ req) _) => req | _ => [] end)))
    (b_jobs wx_4) [] wx_7 (set_wthrottle (b_wb wx_7) (mkThrottle 16 0 [] (Some None)))) as (_ & H & _).
  - exists (Open_oracle false true 4). split; [done|]. split; [by vm_compute|]. split; [vm_compute; reflexivity|done].
  - exact wx_reach.
  - split; [change (0 < 1000); lia|apply Permutation_refl].
  - vm_compute. reflexivity.
  - vm_compute. reflexivity.
  - vm_compute. reflexivity.
  - assert (mkBsys (b_orc wx_4) (b_wb wx_4) (b_jobs wx_4) (b_accepted wx_3) [] = wx_4) as -> by (vm_compute; reflexivity).
    exact wx_calls.
  - vm_compute. reflexivity.
  - destruct (H [x61] (NewEntry [x61] (Some [x03]))) as (ts & req & e' & Hc & Hin & Hw & Hmax); [vm_compute; reflexivity|].
    exists ts, req, e'. split; [exact Hc|]. split; [exact Hin|]. split; apply Hw.
Defined.
