(* ===== verification/Backup.v ===== *)
(** * Backup: dumping and loading a database (backup.go)

    A backup streams, of every key, the versions down to the first that is deleted, expired or
    discards the earlier ones, and writes the lists it is given, each with its length before it.
    Loading reads the lists back and writes the entries, at their old versions, in batches the
    write path takes.  What is restored reads as the snapshot that was dumped did. *)

From S2P Require Import Prelude Keys Codec Oracle Tables TableBuild Iterators LevelHandler Compaction Wal Transaction.
From S2P Require Import ValueLog Subcompact Rewrite WritePath Lookup Iterator Snapshot Stream.

(** ** Parameters: the protocol buffers *)

Class KVListCodec : Type := {
  kvlist_Marshal : list KV -> bytes;
  kvlist_Unmarshal : bytes -> option (list KV)
}.

(** The fields fit their types. *)
Definition kv_fits (kv : KV) : Prop := is_u64 (k_Version kv) /\ is_u64 (k_ExpiresAt kv) /\ 0 <= k_StreamId kv < 2 ^ 32.

Class KVListCodecLaws `{KVListCodec} : Prop := {
  kvlist_roundtrip l : Forall kv_fits l -> kvlist_Unmarshal (kvlist_Marshal l) = Some l
}.

(** ** Dumping *)

Section KeyToList.
Context {S : Type} `{YIterator S}.
Context (MemHash : bytes -> Z) (topt : txn_opts) (vlog_read : valuePointer -> result vlog_error bytes).
Context (banned : gset Z) (now : Z) (fuel : nat).

(** The delete marker below a version that discards the earlier ones. *)
Definition discard_marker (key : bytes) (version : Z) : KV :=
  mkKVs key [] [] (u64 (version - 1)) 0 [z2b bitDelete] 0 false.

(** The loop of the [KeyToList] of a backup. *)
Fixpoint backup_loop (since : Z) (key : bytes) (steps : nat) (it : Iterator S) (t : Txn) (kvl : list KV)
    : option (option (list KV) * Iterator S * Txn) :=
  match steps with
  | O => None
  | Datatypes.S steps =>
      if iter_Valid it then
        '(item, t) ← iter_Item MemHash it t;
        if bool_decide (it_key item <> key) then Some (Some kvl, it, t)
        else if bool_decide (it_version item < since) then Some (None, it, t)
        else
          valCopy ← (if negb (IsDeletedOrExpired now item) then Item_Value vlog_read item else Some []);
          let meta := clear_bit (clear_bit (it_meta item) bitTxn) bitFinTxn in
          let kv := mkKVs (it_key item) valCopy [it_userMeta item] (it_version item) (it_expiresAt item) [meta] 0 false in
          let kvl := kvl ++ [kv] in
          if DiscardEarlierVersions item then Some (Some (kvl ++ [discard_marker (it_key item) (it_version item)]), it, t)
          else if IsDeletedOrExpired now item then Some (Some kvl, it, t)
          else it ← iter_Next topt vlog_read banned (fun _ => now) fuel it; backup_loop since key steps it t kvl
      else Some (Some kvl, it, t)
  end.

Definition backup_KeyToList (since : Z) (steps : nat) (key : bytes) (it : Iterator S) (t : Txn) :=
  backup_loop since key steps it t [].

(** The stream of a backup. *)
Definition backup_ranges (since : Z) (steps : nat) (work : list (keyRange * Z * Iterator S * Txn)) : option (list (list KV)) :=
  iterate_ranges MemHash topt vlog_read banned now fuel (backup_KeyToList since steps) None steps work.
End KeyToList.

Section File.
Context `{C : KVListCodec}.

(** The [Send] of a backup: what it writes and the largest version so far. *)
Definition writeTo (kvl : list KV) : bytes := le_encode 8 (len (kvlist_Marshal kvl)) ++ kvlist_Marshal kvl.

Definition max_version (maxVersion : Z) (kvl : list KV) : Z :=
  foldl (fun m kv => if bool_decide (m < k_Version kv) then k_Version kv else m) maxVersion kvl.

Definition not_done (kvl : list KV) : list KV := filter (fun kv => k_StreamDone kv = false) kvl.

Definition backup_Send (st : bytes * Z) (kvl : list KV) : bytes * Z := (st.1 ++ writeTo (not_done kvl), max_version st.2 kvl).

(** The file, and the version [Backup] returns. *)
Definition backup_file (sent : list (list KV)) : bytes * Z := foldl backup_Send ([], 0) sent.

(** ** Loading *)

Inductive load_error : Type := LoadRead | LoadUnmarshal | LoadTxn (e : txn_error).

(** The batches handed to the writer are kept. *)
Record KVLoader : Type := mkLoader {
  ld_entries : list Entry;
  ld_entriesSize : Z;
  ld_totalSize : Z;
  ld_sent : list (list Entry)
}.

Definition NewKVLoader : KVLoader := mkLoader [] 0 0 [].

Definition flushThreshold : Z := 104857600.

Context (topt : txn_opts) (threshold : Z) (blockWrites : bool).

(** [send]; errors of the writes themselves arrive at the throttle and are not modelled. *)
Definition loader_send (l : KVLoader) : result load_error KVLoader :=
  match sendToWriteCh topt threshold blockWrites (ld_entries l) with
  | Ok es => Ok (mkLoader [] 0 0 (ld_sent l ++ [es]))
  | Err e => Err (LoadTxn e)
  | Panic => Panic
  end.

Definition kv_entry (kv : KV) : Entry :=
  mkEntry (KeyWithTs (k_Key kv) (k_Version kv)) (Some (k_Value kv)) (k_ExpiresAt kv) 0 0 (hd x00 (k_UserMeta kv))
    (hd x00 (k_Meta kv)) 0 0.

Definition loader_Set (l : KVLoader) (kv : KV) : result load_error KVLoader :=
  let '(estimatedSize, e) := estimateSizeAndSetThreshold (kv_entry kv) threshold in
  l ← (if bool_decide (maxBatchCount topt <= len (ld_entries l) + 1) || bool_decide (maxBatchSize topt <= ld_entriesSize l + estimatedSize)
          || bool_decide (flushThreshold <= ld_totalSize l)
       then loader_send l else Ok l);
  Ok (mkLoader (ld_entries l ++ [e]) (ld_entriesSize l + estimatedSize)
        (ld_totalSize l + (estimatedSize + len (vbytes (eValue e)))) (ld_sent l)).

Definition loader_Finish (l : KVLoader) : result load_error KVLoader :=
  if bool_decide (0 < len (ld_entries l)) then loader_send l else Ok l.

(** One list: its entries, and the next timestamp above their versions. *)
Fixpoint load_kvs (l : KVLoader) (nextTxnTs : Z) (kvs : list KV) : result load_error (KVLoader * Z) :=
  match kvs with
  | [] => Ok (l, nextTxnTs)
  | kv :: kvs =>
      l ← loader_Set l kv;
      load_kvs l (if bool_decide (nextTxnTs <= k_Version kv) then u64 (k_Version kv + 1) else nextTxnTs) kvs
  end.

(** The longest slice of bytes the runtime makes, on a 64-bit machine. *)
Definition maxAlloc : Z := 2 ^ 48.

(** [ReadFull] of a length that is not there is an error, a length no slice can have a panic. *)
Fixpoint load_loop (fuel : nat) (file : bytes) (l : KVLoader) (nextTxnTs : Z) : result load_error (KVLoader * Z) :=
  match fuel with
  | O => Panic
  | S fuel =>
      if bool_decide (len file = 0) then Ok (l, nextTxnTs)
      else if bool_decide (len file < 8) then Err LoadRead
      else
        let sz := le_decode (take 8 file) in
        let rest := drop 8 file in
        if bool_decide (maxAlloc < sz) then Panic
        else if bool_decide (len rest < sz) then Err LoadRead
        else
          match kvlist_Unmarshal (take (Z.to_nat sz) rest) with
          | None => Err LoadUnmarshal
          | Some kvs =>
              '(l, nextTxnTs) ← load_kvs l nextTxnTs kvs;
              load_loop fuel (drop (Z.to_nat sz) rest) l nextTxnTs
          end
  end.

(** [Load]: the batches, the next timestamp, and the mark that is done. *)
Definition Load (nextTxnTs : Z) (file : bytes) : result load_error (list (list Entry) * Z * Z) :=
  '(l, nextTxnTs) ← load_loop (S (length file)) file NewKVLoader nextTxnTs;
  l ← loader_Finish l;
  Ok (ld_sent l, nextTxnTs, u64 (nextTxnTs - 1)).
End File.

(** ** Lemmas: what is dumped of a key *)

(** The versions that are dumped: down to the first that is deleted or expired or discards the
    earlier ones, and with it. *)
Fixpoint backed (now : Z) (l : list kv) : list kv :=
  match l with
  | [] => []
  | x :: l => x :: if dead now x || discards x then [] else backed now l
  end.

Section Dumped.
Context (vlog_read : valuePointer -> result vlog_error bytes) (now : Z).
Notation val_of := (value_of_kv vlog_read).

Definition kvb (x : kv) : KV :=
  mkKVs (ukey x.1) (if dead now x then [] else val_of x) [UserMeta x.2] (ParseTs x.1) (ExpiresAt x.2)
    [clear_bit (clear_bit (Meta x.2) bitTxn) bitFinTxn] 0 false.

Definition backup_kvs (l : list kv) : list KV :=
  concat ((fun x => kvb x :: if discards x then [discard_marker (ukey x.1) (ParseTs x.1)] else []) <$> backed now l).

Lemma backup_kvs_cons x l : backup_kvs (x :: l) =
  (kvb x :: if discards x then [discard_marker (ukey x.1) (ParseTs x.1)] else []) ++
  (if dead now x || discards x then [] else backup_kvs l).
Proof. unfold backup_kvs. cbn [backed]. rewrite fmap_cons. cbn [concat]. by destruct (dead now x || discards x). Qed.

Context {S : Type} {sk : bytes -> Prop} {I : YIterator S} {L : YIteratorLaws S false sk}.
Context (MemHash : bytes -> Z) (topt : txn_opts).
Context (opt : IteratorOptions) (ts : Z) (banned : gset Z) (es : list kv) (fuel : nat) (since : Z).
Context (Hdir : Reverse opt = false) (Hready : run_ready (rev := false) topt vlog_read banned es) (Hfuel : (length es < fuel)%nat).
Context (Hsince : SinceTs opt = since) (Hpos : 0 <= since).
Notation clock := (fun _ : bytes => now).
Notation ready := (ready (rev := false) (sk := sk) topt vlog_read opt ts banned clock es).
Notation to_show := (to_show topt opt ts banned now es).

Lemma show_since z : to_show z -> since <= ParseTs z.1.
Proof using Hready Hfuel Hsince Hpos.
  intros (Hz & Hs & _). unfold shown, in_window in Hs. rewrite Hsince in Hs.
  apply andb_true_iff in Hs as [Hs _]. apply andb_true_iff in Hs as [Hs _]. apply andb_true_iff in Hs as [_ Hs].
  apply negb_true_iff, orb_false_iff in Hs as [_ Hs]. apply andb_false_iff in Hs as [Hs|Hs]; apply bool_decide_eq_false in Hs; [|lia].
  pose proof (rr_keys _ _ _ _ Hready) as Hk. apply (proj1 (Forall_forall _ _) Hk) in Hz.
  destruct (key_ok_eta _ Hz) as (u & v & _ & _ & Hv & ->). lia.
Qed.

Lemma backup_loop_ok k steps : forall it t T acc, ready it T -> Forall to_show T -> (length T < steps)%nat ->
  exists it' t' pre T2, backup_loop MemHash topt vlog_read banned now fuel since k steps it t acc
      = Some (Some (acc ++ backup_kvs (same_key k T)), it', t') /\
    ready it' T2 /\ T = pre ++ T2 /\ Forall (fun y : kv => ukey y.1 = k) pre.
Proof using Hdir Hready Hfuel Hsince Hpos.
  induction steps as [|steps IH]; intros it t T acc Hrd Hs Hst; [lia|]. cbn [backup_loop]. destruct T as [|z T].
  { rewrite (visit_end _ _ _ _ _ _ _ it Hrd). exists it, t, [], []. by rewrite app_nil_r. }
  apply Forall_cons in Hs as Hs0. destruct Hs0 as [Hz Hs'].
  destruct (visit MemHash topt vlog_read opt ts banned now es fuel Hdir Hready Hfuel it z T Hrd Hz) as (-> & item & it1 & Ei & Hsh & En & Hrd1).
  rewrite Ei. cbn [mbind option_bind]. rewrite (is_key _ _ _ Hsh). unfold same_key. cbn [take_while]. fold (same_key k T).
  destruct (bool_decide_reflect (ukey z.1 = k)) as [E|Ne].
  2:{ rewrite bool_decide_eq_true_2 by done. eexists it, _, [], (z :: T). by rewrite app_nil_r. }
  rewrite bool_decide_eq_false_2 by (intros Hne; by apply Hne). rewrite (is_version _ _ _ Hsh).
  rewrite bool_decide_eq_false_2 by (pose proof (show_since z Hz); lia).
  assert (IsDeletedOrExpired now item = dead now z) as ->
    by (unfold IsDeletedOrExpired, dead; by rewrite (is_meta _ _ _ Hsh), (is_expiresAt _ _ _ Hsh)).
  assert (DiscardEarlierVersions item = discards z) as ->
    by (unfold DiscardEarlierVersions, discards; by rewrite (is_meta _ _ _ Hsh)).
  assert ((if negb (dead now z) then Item_Value vlog_read item else Some []) = Some (if dead now z then [] else val_of z)) as ->.
  { destruct (dead now z); cbn [negb]; [done|]. apply item_reads; [apply Hready; apply Hz|done]. }
  cbn [mbind option_bind]. rewrite (is_meta _ _ _ Hsh), (is_userMeta _ _ _ Hsh), (is_expiresAt _ _ _ Hsh).
  change (mkKVs (ukey z.1) _ _ _ _ _ 0 false) with (kvb z). rewrite backup_kvs_cons. destruct (discards z).
  { eexists it, _, [], (z :: T). split; [|by split]. by rewrite orb_true_r, app_nil_r, <- app_assoc. }
  destruct (dead now z); cbn [orb].
  { eexists it, _, [], (z :: T). split; [|by split]. by rewrite app_nil_r. }
  rewrite En. cbn [mbind option_bind].
  destruct (IH it1 (addReadKey MemHash t (ukey z.1)) T (acc ++ [kvb z]) Hrd1 Hs') as (it2 & t2 & pre & T2 & -> & Hrd2 & -> & Hp);
    [simpl in Hst; lia|].
  exists it2, t2, (z :: pre), T2. rewrite <- app_assoc. split; [done|]. split; [done|]. split; [done|]. by constructor.
Qed.

Lemma backup_lists steps : (length es < steps)%nat ->
  lists_versions (sk := sk) topt vlog_read opt ts banned now es
    (backup_KeyToList MemHash topt vlog_read banned now fuel since steps) backup_kvs.
Proof using Hdir Hready Hfuel Hsince Hpos.
  intros Hst it t x T Hrd Hs Hso. unfold backup_KeyToList.
  destruct (backup_loop_ok (ukey x.1) steps it t (x :: T) [] Hrd Hs) as (it' & t' & pre & T2 & E & H1 & H2 & H3).
  - pose proof (shown_length topt opt ts banned now es _ Hs Hso). lia.
  - by exists it', t', pre, T2.
Qed.
End Dumped.

(** ** Lemmas: loading what was written *)

Section Loading.
Context `{CL : KVListCodecLaws} (topt : txn_opts) (threshold : Z).
Context (Hcount : 1 < maxBatchCount topt) (Hsize : 0 < maxBatchSize topt).

Definition stuck (e : Entry) : Prop := stick_threshold e threshold = e.

Lemma stick_stuck e : stuck (stick_threshold e threshold).
Proof.
  unfold stuck, stick_threshold. destruct (bool_decide_reflect (evalThreshold e = 0)) as [E|E]; cbn.
  - case_bool_decide; done.
  - by rewrite bool_decide_eq_false_2.
Qed.

Lemma request_size_stuck es : Forall stuck es -> request_size threshold es = (foldr (fun e n => esize e + n) 0 es, es).
Proof.
  induction 1 as [|e es He _ IH]; [done|]. cbn [request_size foldr]. rewrite IH.
  pose proof (estimate_stuck e threshold) as Es. unfold estimateSizeAndSetThreshold in *. rewrite He in *.
  case_bool_decide; cbn in Es; by rewrite Es.
Qed.

Lemma size_snoc es e : foldr (fun e n => esize e + n) 0 (es ++ [e]) = foldr (fun e n => esize e + n) 0 es + esize e.
Proof. induction es as [|e' es IH]; cbn [app foldr]; lia. Qed.

(** Between two calls the entries that wait fit a request. *)
Record loader_ok (l : KVLoader) : Prop := {
  lo_stuck : Forall stuck (ld_entries l);
  lo_size : ld_entriesSize l = foldr (fun e n => esize e + n) 0 (ld_entries l);
  lo_count : len (ld_entries l) < maxBatchCount topt;
  lo_fits : ld_entriesSize l < maxBatchSize topt
}.

Definition given (l : KVLoader) : list Entry := concat (ld_sent l) ++ ld_entries l.

Lemma loader_send_ok l : loader_ok l -> exists l', loader_send topt threshold false l = Ok l' /\ loader_ok l' /\
  given l' = given l /\ ld_entries l' = [] /\ ld_totalSize l' = 0.
Proof using Hcount Hsize.
  intros [H1 H2 H3 H4]. unfold loader_send, sendToWriteCh. rewrite request_size_stuck by done.
  rewrite !bool_decide_eq_false_2 by lia. cbn [orb]. eexists. split; [done|]. split; [by split; cbn; [constructor| |unfold len; cbn; lia|lia]|].
  split; [|done]. unfold given. cbn. rewrite concat_app. cbn. by rewrite !app_nil_r.
Qed.

Definition loaded_entry (kv : KV) : Entry := stick_threshold (kv_entry kv) threshold.

Lemma loader_Set_ok l kv : loader_ok l -> esize (loaded_entry kv) < maxBatchSize topt ->
  exists l', loader_Set topt threshold false l kv = Ok l' /\ loader_ok l' /\ given l' = given l ++ [loaded_entry kv].
Proof using Hcount Hsize.
  intros Hl He. unfold loader_Set. pose proof (estimate_stuck (kv_entry kv) threshold) as Es.
  assert ((estimateSizeAndSetThreshold (kv_entry kv) threshold).2 = loaded_entry kv) as Ee
    by (unfold estimateSizeAndSetThreshold, loaded_entry; by case_bool_decide).
  fold (loaded_entry kv) in Es. destruct (estimateSizeAndSetThreshold _ _) as [est e]. cbn in Es, Ee. subst est e.
  set (full := bool_decide _ || _ || _). assert (exists l1, (if full then loader_send topt threshold false l else Ok l) = Ok l1 /\
    loader_ok l1 /\ given l1 = given l /\ len (ld_entries l1) + 1 < maxBatchCount topt /\
    ld_entriesSize l1 + esize (loaded_entry kv) < maxBatchSize topt) as (l1 & -> & Hl1 & Eg & Hc & Hz).
  { destruct full eqn:Ef.
    - destruct (loader_send_ok l Hl) as (l1 & -> & Hl1 & Eg & En & _). exists l1. split; [done|]. split; [done|]. split; [done|].
      rewrite (lo_size _ Hl1), En. cbn. unfold len. cbn. lia.
    - exists l. split; [done|]. split; [done|]. split; [done|]. unfold full in Ef. rewrite !orb_false_iff, !bool_decide_eq_false in Ef. lia. }
  cbn [mbind result_bind]. eexists. split; [done|]. destruct Hl1 as [H1 H2 H3 H4]. split.
  - split; cbn.
    + apply Forall_app. split; [done|]. constructor; [apply stick_stuck|done].
    + rewrite size_snoc. lia.
    + unfold len in *. rewrite length_app. simpl. lia.
    + lia.
  - unfold given in *. cbn. by rewrite app_assoc, Eg.
Qed.

(** An entry of its own fits a request, and the version is not the last there is. *)
Definition loads (kv : KV) : Prop := esize (loaded_entry kv) < maxBatchSize topt /\ 0 <= k_Version kv < MaxUint64.

Lemma load_kvs_ok kvs : forall l n, loader_ok l -> Forall loads kvs ->
  exists l' n', load_kvs topt threshold false l n kvs = Ok (l', n') /\ loader_ok l' /\ given l' = given l ++ (loaded_entry <$> kvs) /\
    n <= n' /\ Forall (fun kv => k_Version kv < n') kvs.
Proof using Hcount Hsize.
  induction kvs as [|kv kvs IH]; intros l n Hl Hkvs.
  { exists l, n. rewrite app_nil_r. split; [done|]. split; [done|]. split; [done|]. split; [lia|constructor]. }
  apply Forall_cons in Hkvs as [[He Hv] Hkvs]. cbn [load_kvs].
  destruct (loader_Set_ok l kv Hl He) as (l1 & -> & Hl1 & Eg). cbn [mbind result_bind].
  rewrite u64_small by (unfold MaxUint64 in *; lia).
  set (n1 := if bool_decide (n <= k_Version kv) then _ else n).
  assert (n <= n1 /\ k_Version kv < n1) as [Hn1 Hn2] by (unfold n1; case_bool_decide; lia).
  destruct (IH l1 n1 Hl1 Hkvs) as (l2 & n2 & -> & Hl2 & Eg2 & Hn & Hvs). exists l2, n2. split; [done|]. split; [done|].
  split; [rewrite Eg2, Eg, fmap_cons, <- app_assoc; done|]. split; [lia|]. constructor; [lia|done].
Qed.

Definition fits_file (kvl : list KV) : Prop := Forall kv_fits kvl /\ len (kvlist_Marshal kvl) <= maxAlloc.

Lemma load_loop_ok lists : forall fuel l n, (length lists < fuel)%nat -> Forall fits_file lists -> Forall loads (concat lists) -> loader_ok l ->
  exists l' n', load_loop topt threshold false fuel (concat (writeTo <$> lists)) l n = Ok (l', n') /\ loader_ok l' /\
    given l' = given l ++ (loaded_entry <$> concat lists) /\ n <= n' /\ Forall (fun kv => k_Version kv < n') (concat lists).
Proof using Hcount Hsize CL.
  induction lists as [|kvl lists IH]; intros fuel l n Hf Hfit Hld Hl; (destruct fuel as [|fuel]; [simpl in Hf; lia|]); cbn [load_loop].
  { rewrite bool_decide_eq_true_2 by done. exists l, n. rewrite app_nil_r. split; [done|]. split; [done|]. split; [done|].
    split; [lia|constructor]. }
  apply Forall_cons in Hfit as [[Hk Hm] Hfit]. cbn [concat] in Hld. apply Forall_app in Hld as [Hld1 Hld2].
  set (sz := len (kvlist_Marshal kvl)) in *. set (body := kvlist_Marshal kvl ++ concat (writeTo <$> lists)).
  assert (concat (writeTo <$> kvl :: lists) = le_encode 8 sz ++ body) as -> by (unfold writeTo, body; cbn; by rewrite <- app_assoc).
  assert (length (le_encode 8 sz) = 8%nat) as E8 by apply le_encode_length.
  pose proof (len_nonneg (kvlist_Marshal kvl)) as Hnn. fold sz in Hnn.
  assert (len (le_encode 8 sz ++ body) = 8 + len body) as El by (unfold len; rewrite length_app, E8; lia).
  assert (sz <= len body) as Hb by (unfold body, sz, len; rewrite length_app; lia).
  rewrite El, (bool_decide_eq_false_2 (8 + len body = 0)), (bool_decide_eq_false_2 (8 + len body < 8)) by lia.
  rewrite take_app_length', drop_app_length' by done. rewrite le_decode_encode. change (8 * Z.of_nat 8) with 64.
  rewrite Z.mod_small by (unfold maxAlloc in Hm; lia). cbv zeta.
  rewrite (bool_decide_eq_false_2 (maxAlloc < sz)), (bool_decide_eq_false_2 (len body < sz)) by lia.
  assert (Z.to_nat sz = length (kvlist_Marshal kvl)) as -> by (unfold sz, len; lia).
  unfold body. rewrite take_app_length, drop_app_length, kvlist_roundtrip by done.
  destruct (load_kvs_ok kvl l n Hl Hld1) as (l1 & n1 & -> & Hl1 & Eg & Hn & Hv). cbn [mbind result_bind].
  destruct (IH fuel l1 n1 ltac:(simpl in Hf; lia) Hfit Hld2 Hl1) as (l2 & n2 & -> & Hl2 & Eg2 & Hn2 & Hv2).
  exists l2, n2. split; [done|]. split; [done|]. split; [cbn [concat]; by rewrite Eg2, Eg, fmap_app, <- app_assoc|]. split; [lia|].
  cbn [concat]. apply Forall_app. split; [|done]. eapply Forall_impl; [exact Hv|]. cbn. lia.
Qed.

Lemma Load_ok lists n : Forall fits_file lists -> Forall loads (concat lists) -> exists batches n',
  Load topt threshold false n (concat (writeTo <$> lists)) = Ok (batches, n', u64 (n' - 1)) /\
  concat batches = loaded_entry <$> concat lists /\ n <= n' /\ Forall (fun kv => k_Version kv < n') (concat lists).
Proof using Hcount Hsize CL.
  intros Hfit Hld. unfold Load.
  assert (length lists < Datatypes.S (length (concat (writeTo <$> lists))))%nat as Hf.
  { clear. induction lists as [|kvl lists IH]; [simpl; lia|]. rewrite fmap_cons. cbn [concat length]. rewrite length_app.
    unfold writeTo at 1. rewrite length_app, le_encode_length. lia. }
  assert (loader_ok NewKVLoader) as H0 by (by split; cbn; [constructor| |unfold len; cbn; lia|lia]).
  destruct (load_loop_ok lists _ NewKVLoader n Hf Hfit Hld H0) as (l & n' & -> & Hl & Eg & Hn & Hv). cbn [mbind result_bind].
  unfold given in Eg. cbn [ld_sent ld_entries NewKVLoader concat app] in Eg. unfold loader_Finish. case_bool_decide as Hz.
  - destruct (loader_send_ok l Hl) as (l2 & -> & Hl2 & Eg2 & En & _). cbn [mbind result_bind]. exists (ld_sent l2), n'.
    split; [done|]. split; [|done]. unfold given in Eg2. by rewrite En, app_nil_r in Eg2; rewrite Eg2.
  - cbn [mbind result_bind]. exists (ld_sent l), n'. split; [done|]. split; [|done]. rewrite <- Eg.
    assert (ld_entries l = []) as ->; [|by rewrite app_nil_r]. destruct (ld_entries l); [done|]. unfold len in Hz. simpl in Hz. lia.
Qed.
End Loading.

Section SentFile.
Context `{KVListCodec}.

Lemma backup_file_bytes sent : forall st,
  (foldl backup_Send st sent).1 = st.1 ++ concat (writeTo <$> (not_done <$> sent)).
Proof.
  induction sent as [|kvl sent IH]; intros st; cbn [foldl]; [by rewrite app_nil_r|]. rewrite IH. cbn [backup_Send fst].
  rewrite !fmap_cons. cbn [concat]. by rewrite app_assoc.
Qed.

Lemma filter_concat_map {X} (P : X -> Prop) `{forall x, Decision (P x)} (ls : list (list X)) : concat (filter P <$> ls) = filter P (concat ls).
Proof. induction ls as [|l ls IH]; [done|]. rewrite fmap_cons. cbn [concat]. by rewrite filter_app, IH. Qed.
End SentFile.

(** ** Lemmas: what is restored *)

Section Restored.
Context (vlog_read vlog_read2 : valuePointer -> result vlog_error bytes) (now : Z) (threshold : Z).
Context (tov : Entry -> ValueStruct).
Notation val_of := (value_of_kv vlog_read).

(** What the restored store keeps for an entry, inline or in its value log. *)
Record restores (e : Entry) (vs : ValueStruct) : Prop := {
  re_value : entry_value vlog_read2 (decoded vs) = Some (vbytes (eValue e));
  re_delete : has_bit (Meta vs) bitDelete = has_bit (emeta e) bitDelete;
  re_discard : has_bit (Meta vs) bitDiscardEarlierVersions = has_bit (emeta e) bitDiscardEarlierVersions;
  re_expires : ExpiresAt vs = eExpiresAt e;
  re_userMeta : UserMeta vs = eUserMeta e
}.
Context (Htov : forall e, restores e (tov e)).

Definition restored (es : list Entry) : list kv := foldl (fun l e => sl_put l (eKey e) (tov e)) [] es.

Definition stored (e : Entry) : kv := (eKey e, decoded (tov e)).

(** Entries with one key are one entry. *)
Definition one_entry (E : list Entry) : Prop := forall e e', e ∈ E -> e' ∈ E -> eKey e = eKey e' -> e = e'.

Lemma restored_elem E : Forall (fun e => has_ts (eKey e)) E -> one_entry E ->
  run_ok (restored E) /\ forall x, x ∈ restored E <-> exists e, e ∈ E /\ x = stored e.
Proof using Type.
  unfold restored. induction E as [|e E IH] using rev_ind; intros Ht H1.
  { split; [split; constructor|]. intros x. cbn. split; [by intros ?%elem_of_nil|by intros (e & ?%elem_of_nil & _)]. }
  apply Forall_app in Ht as [Ht He]. apply Forall_cons in He as [He _]. rewrite foldl_app. cbn [foldl].
  destruct IH as [Hok IH]; [done|intros a b Ha Hb; apply H1; apply elem_of_app; by left|]. split; [by apply run_ok_put|].
  intros x. rewrite sl_put_in by done. rewrite IH. setoid_rewrite elem_of_app. split.
  - intros [->|[(a & Ha & ->) _]]; [exists e; split; [right; by left|done]|exists a; split; [by left|done]].
  - intros (a & [Ha|Ha%list_elem_of_singleton] & ->); [|subst a; by left]. destruct (decide (eKey a = eKey e)) as [E1|E1].
    + left. rewrite (H1 a e) by (done || by apply elem_of_app; (left + (right; left))). done.
    + right. split; [by exists a|done].
Qed.

(** *** The versions of one key *)

Definition kept_copy (x : kv) : kv := stored (loaded_entry threshold (kvb vlog_read now x)).
Definition kept_marker (x : kv) : kv := stored (loaded_entry threshold (discard_marker (ukey x.1) (ParseTs x.1))).

(** What becomes of the versions of a key. *)
Fixpoint dump (l : list kv) : list kv :=
  match l with
  | [] => []
  | x :: l => kept_copy x :: if discards x then [kept_marker x] else if dead now x then [] else dump l
  end.

Lemma dump_map l : dump l = (fun kv => stored (loaded_entry threshold kv)) <$> backup_kvs vlog_read now l.
Proof using Type.
  induction l as [|x l IH]; [done|]. cbn [dump]. rewrite backup_kvs_cons. destruct (discards x).
  - rewrite orb_true_r. done.
  - destruct (dead now x); [done|]. rewrite IH. done.
Qed.

(** The run of a key, with positive versions. *)
Record key_run (k : bytes) (l : list kv) : Prop := {
  kr_sorted : run_sorted false l;
  kr_key : forall x, x ∈ l -> exists v, x.1 = KeyWithTs k v /\ 0 < v <= MaxUint64
}.

Lemma key_run_tail k x l : key_run k (x :: l) -> key_run k l.
Proof using Type. intros [H1 H2]. split; [by apply StronglySorted_inv in H1 as [? _]|]. intros y Hy. apply H2. by right. Qed.

Lemma copy_key k x v : k <> [] -> x.1 = KeyWithTs k v -> 0 < v <= MaxUint64 -> (kept_copy x).1 = x.1.
Proof using Type.
  intros Hk E Hv. unfold kept_copy, stored, loaded_entry. destruct (stick_fields (kv_entry (kvb vlog_read now x)) threshold) as (E1 & _).
  rewrite E1. unfold kv_entry, kvb, discard_marker. cbn [eKey k_Key k_Version]. rewrite E, ukey_KeyWithTs, ParseTs_KeyWithTs by (done || lia). done.
Qed.

Lemma marker_key k x v : k <> [] -> x.1 = KeyWithTs k v -> 0 < v <= MaxUint64 -> (kept_marker x).1 = KeyWithTs k (v - 1).
Proof using Type.
  intros Hk E Hv. unfold kept_marker, stored, loaded_entry.
  destruct (stick_fields (kv_entry (discard_marker (ukey x.1) (ParseTs x.1))) threshold) as (E1 & _).
  rewrite E1. unfold kv_entry, kvb, discard_marker. cbn [eKey k_Key k_Version]. rewrite E, ukey_KeyWithTs, ParseTs_KeyWithTs by (done || lia). by rewrite u64_small by (unfold MaxUint64 in *; lia).
Qed.

(** All that becomes of a key's versions has the key, a version up to that of the first, and the
    order is kept. *)
Lemma dump_sorted k l : k <> [] -> key_run k l -> run_sorted false (dump l) /\
  forall y, y ∈ dump l -> exists x v, x ∈ l /\ x.1 = KeyWithTs k v /\ 0 < v <= MaxUint64 /\
    (y.1 = x.1 \/ y.1 = KeyWithTs k (v - 1)).
Proof using Type.
  intros Hk. induction l as [|x l IH]; intros Hr; cbn [dump]; [by split; [constructor|intros y ?%elem_of_nil]|].
  destruct (kr_key _ _ Hr x ltac:(by left)) as (v & E & Hv). specialize (IH (key_run_tail k x l Hr)) as [Hs He].
  pose proof (copy_key k x v Hk E Hv) as Ec. pose proof (marker_key k x v Hk E Hv) as Em.
  assert (forall (z : kv) u, z.1 = KeyWithTs k u -> 0 <= u <= MaxUint64 -> compareKeys x.1 z.1 = Lt <-> u < v) as Hlt.
  { intros z u Ez Hu. rewrite E, Ez, key_lt_iff by lia. rewrite (cmp_refl bytes_Compare). split; [intros [?|[_ ?]]; done|by right]. }
  assert (forall y : kv, y ∈ (if discards x then [kept_marker x] else if dead now x then [] else dump l) ->
    compareKeys (kept_copy x).1 y.1 = Lt /\ exists z v, z ∈ x :: l /\ z.1 = KeyWithTs k v /\ 0 < v <= MaxUint64 /\
      (y.1 = z.1 \/ y.1 = KeyWithTs k (v - 1))) as Hy.
  { intros y Hy. rewrite Ec. destruct (discards x).
    - apply list_elem_of_singleton in Hy as ->. split; [by apply (Hlt _ (v - 1)); [|lia|lia]|].
      exists x, v. split; [by left|]. split; [done|]. split; [done|]. by right.
    - destruct (dead now x); [by apply elem_of_nil in Hy|]. destruct (He y Hy) as (z & u & Hz & Ez & Hu & Ey). split.
      + pose proof (kr_sorted _ _ Hr) as Hso. apply StronglySorted_inv in Hso as [_ Hx]. rewrite Forall_forall in Hx.
        specialize (Hx z Hz). cbn in Hx. apply (Hlt z u Ez) in Hx; [|lia].
        destruct Ey as [Ey|Ey]; [rewrite Ey; by apply (Hlt z u); [|lia|]|apply (Hlt y (u - 1)); [done|lia|lia]].
      + exists z, u. split; [by right|]. done. }
  split.
  - constructor; [|apply Forall_forall; intros y H; by apply Hy]. destruct (discards x); [by repeat constructor|].
    destruct (dead now x); [constructor|done].
  - intros y [->|H]%elem_of_cons; [|by apply Hy]. exists x, v. split; [by left|]. split; [done|]. split; [done|]. left. by rewrite Ec.
Qed.

(** A version and its copy. *)
Record same_version (x y : kv) : Prop := {
  sv_key : y.1 = x.1;
  sv_userMeta : UserMeta y.2 = UserMeta x.2;
  sv_expires : ExpiresAt y.2 = ExpiresAt x.2;
  sv_value : value_of_kv vlog_read2 y = value_of_kv vlog_read x
}.

Lemma copy_bits x : has_bit (Meta (kept_copy x).2) bitDelete = has_bit (Meta x.2) bitDelete /\
  discards (kept_copy x) = discards x /\ ExpiresAt (kept_copy x).2 = ExpiresAt x.2 /\ UserMeta (kept_copy x).2 = UserMeta x.2 /\
  (dead now x = false -> value_of_kv vlog_read2 (kept_copy x) = val_of x).
Proof using Htov.
  unfold kept_copy, discards, value_of_kv, stored. cbn [snd Meta UserMeta ExpiresAt decoded].
  set (e := loaded_entry threshold (kvb vlog_read now x)). destruct (Htov e) as [H1 H2 H3 H4 H5].
  destruct (stick_fields (kv_entry (kvb vlog_read now x)) threshold) as (_ & E2 & E3 & _ & E5 & E6). fold (loaded_entry threshold (kvb vlog_read now x)) in *. fold e in E2, E3, E5, E6.
  rewrite H1, H2, H3, H4, H5, E2, E3, E5, E6. unfold kv_entry, kvb.
  cbn [emeta eExpiresAt eUserMeta eValue k_Meta k_ExpiresAt k_UserMeta k_Value hd vbytes default].
  rewrite !has_clear_bit by (unfold meta_bits; set_solver). split; [done|]. split; [done|]. split; [done|]. split; [done|].
  by intros ->.
Qed.

Lemma live_dump k l : k <> [] -> key_run k l -> Forall2 same_version (live now l) (live now (dump l)).
Proof using Htov.
  intros Hk. induction l as [|x l IH]; intros Hr; [constructor|]. cbn [dump live].
  destruct (kr_key _ _ Hr x ltac:(by left)) as (v & E & Hv). destruct (copy_bits x) as (H1 & H2 & H3 & H4 & H5).
  assert (dead now (kept_copy x) = dead now x) as -> by (unfold dead, isDeletedOrExpired; by rewrite H1, H3).
  rewrite H2. destruct (dead now x); [constructor|]. assert (same_version x (kept_copy x)) as Hsv.
  { split; [by apply (copy_key k x v)|done|done|by apply H5]. }
  destruct (discards x); [apply Forall2_cons; split; [done|apply Forall2_nil; done]|]. constructor; [done|]. by apply IH, (key_run_tail k x).
Qed.
End Restored.

(** ** Lemmas: the whole way *)

Section Whole.
Context {S : Type} {I : YIterator S} (ts : Z) {L : YIteratorLaws S false (txn_seek false ts)}.
Context (MemHash : bytes -> Z) (stopt : txn_opts) (vlog_read : valuePointer -> result vlog_error bytes).
Context (banned : gset Z) (now : Z) (es : list kv).
Notation opt := (stream_iopts [] 0).
Notation every := (all_shown stopt opt ts banned (fun _ => now) es).

(** The run of the database that is dumped. *)
Record source_ok : Prop := {
  so_ready : run_ready (rev := false) stopt vlog_read banned es;
  so_sorted : run_sorted false es;
  so_ts : 0 <= ts <= MaxUint64;
  so_versions : forall x, x ∈ es -> 0 < ParseTs x.1
}.

Context (Hsrc : source_ok).

Lemma every_key x : x ∈ every -> exists k v, k <> [] /\ x.1 = KeyWithTs k v /\ 0 < v <= ts.
Proof using Hsrc.
  intros Hx. apply list_elem_of_filter in Hx as [[Hs _] Hx]. pose proof (so_versions Hsrc x Hx) as Hv.
  pose proof (rr_keys _ _ _ _ (so_ready Hsrc)) as Hk. apply (proj1 (Forall_forall _ _) Hk) in Hx.
  destruct (key_ok_eta _ Hx) as (u & v & Hu & E & Hv' & Ev). apply shown_ts in Hs. exists u, v. rewrite Ev in *. done.
Qed.

Lemma every_run k : key_run k (of_key k every).
Proof using Hsrc.
  split; [apply filter_sorted, all_shown_sorted, Hsrc|]. intros x [E Hx]%list_elem_of_filter.
  destruct (every_key x Hx) as (u & v & _ & Ex & Hv). rewrite Ex, ukey_KeyWithTs in E. subst u. exists v. split; [done|].
  pose proof (so_ts Hsrc). lia.
Qed.

Lemma every_versions k : (forall x, x ∈ es -> ukey x.1 = k -> internal x.1 = false /\ ban stopt banned x.1 = false) ->
  of_key k every = versions k ts es.
Proof using Hsrc.
  intros Hfree. rewrite of_key_versions by (done || apply Hsrc || apply prefix_nil). apply filter_id, Forall_forall. intros x _. by left.
Qed.

(** What the ranges produce: of every key what is dumped of its versions. *)
Definition dumped (kv0 : KV) : Prop := listed ts stopt [] 0 banned now es (backup_kvs vlog_read now) kv0.

Context (fuel steps : nat) (Hfuel : (length es < fuel)%nat) (Hsteps : (2 * length es < steps)%nat).

Lemma backup_ranges_ok work rs : contiguous [] rs -> (fun w : keyRange * Z * Iterator S * Txn => w.1.1.1) <$> work ≡ₚ rs ->
  Forall (fun w : keyRange * Z * Iterator S * Txn => fresh (L := L) ts [] 0 es w.1.2) work ->
  exists kvss, backup_ranges MemHash stopt vlog_read banned now fuel 0 steps work = Some kvss /\
    (forall kv, kv ∈ concat kvss -> exists kv0 id, kv = set_StreamId kv0 id /\ dumped kv0) /\
    (forall kv0, dumped kv0 -> exists id, set_StreamId kv0 id ∈ concat kvss).
Proof using Hsrc Hfuel Hsteps.
  intros Hc Hp Hw.
  destruct (iterate_ranges_ok ts MemHash stopt vlog_read [] 0 banned now es fuel (so_ready Hsrc) (so_sorted Hsrc) (so_ts Hsrc) Hfuel
    (backup_KeyToList MemHash stopt vlog_read banned now fuel 0 steps) (backup_kvs vlog_read now) steps work rs)
    as (kvss & E & H1 & H2 & _); try done.
  - apply backup_lists; [done|apply Hsrc|done|done|done|lia].
  - intros r _. right. apply prefix_nil.
  - by exists kvss.
Qed.
End Whole.

Section Reads.
Context (ts : Z) (stopt : txn_opts) (vlog_read vlog_read2 : valuePointer -> result vlog_error bytes).
Context (banned : gset Z) (now : Z) (es : list kv) (threshold : Z) (tov : Entry -> ValueStruct).
Notation every := (all_shown stopt (stream_iopts [] 0) ts banned (fun _ => now) es).
Context (Hsrc : source_ok ts stopt vlog_read banned es) (Htov : forall e, restores vlog_read2 e (tov e)).
Context (E : list Entry) (HE : forall e, e ∈ E <-> exists kv0, dumped ts stopt vlog_read banned now es kv0 /\ e = loaded_entry threshold kv0).
Notation dump := (dump vlog_read now threshold tov).

Lemma dumped_keys k kv0 : k <> [] -> kv0 ∈ backup_kvs vlog_read now (of_key k every) ->
  stored tov (loaded_entry threshold kv0) ∈ dump (of_key k every) /\ exists v, eKey (loaded_entry threshold kv0) = KeyWithTs k v /\ 0 <= v <= ts.
Proof using Hsrc.
  intros Hk Hkv. assert (stored tov (loaded_entry threshold kv0) ∈ dump (of_key k every)) as Hin.
  { rewrite dump_map. apply list_elem_of_fmap. by exists kv0. }
  split; [done|]. destruct (dump_sorted vlog_read now threshold tov k _ Hk (every_run ts stopt vlog_read banned now es Hsrc k)) as [_ Hd].
  destruct (Hd _ Hin) as (x & v & Hx & Ex & Hv & Hor). apply list_elem_of_filter in Hx as [_ Hx].
  destruct (every_key ts stopt vlog_read banned now es Hsrc x Hx) as (u & v' & Hu & Ex' & Hv').
  assert (v = v') as <-.
  { pose proof (so_ts _ _ _ _ _ Hsrc). rewrite Ex in Ex'. apply (f_equal ParseTs) in Ex'. rewrite !ParseTs_KeyWithTs in Ex' by (done || lia). done. }
  cbn [stored fst] in Hor. destruct Hor as [Hor|Hor]; [exists v|exists (v - 1)]; (split; [congruence|lia]).
Qed.

Lemma E_one : one_entry E /\ Forall (fun e => has_ts (eKey e)) E.
Proof using Hsrc HE tov.
  split.
  - intros e e' (kv & (k & Hk & Hx & Hkv) & ->)%HE (kv' & (k' & Hk' & Hx' & Hkv') & ->)%HE Eq.
    destruct (dumped_keys k kv Hk Hkv) as [Hd (v & Ev & Hv)]. destruct (dumped_keys k' kv' Hk' Hkv') as [Hd' (v' & Ev' & Hv')].
    assert (k = k') as <- by (rewrite Ev, Ev' in Eq; apply (f_equal ukey) in Eq; by rewrite !ukey_KeyWithTs in Eq).
    destruct (dump_sorted vlog_read now threshold tov k _ Hk (every_run ts stopt vlog_read banned now es Hsrc k)) as [Hs _].
    apply list_elem_of_lookup in Hkv as [i Hi]. apply list_elem_of_lookup in Hkv' as [j Hj].
    assert (i = j) as <-; [|by rewrite Hi in Hj; injection Hj as ->]. rewrite dump_map in Hs.
    assert (forall i j a b, (i < j)%nat -> backup_kvs vlog_read now (of_key k every) !! i = Some a ->
      backup_kvs vlog_read now (of_key k every) !! j = Some b -> eKey (loaded_entry threshold a) <> eKey (loaded_entry threshold b)) as Hlt.
    { intros i' j' a b Hij Ha Hb Eab.
      pose proof (StronglySorted_lookup _ _ i' j' (stored tov (loaded_entry threshold a)) (stored tov (loaded_entry threshold b)) Hs) as H.
      rewrite !list_lookup_fmap, Ha, Hb in H. specialize (H eq_refl eq_refl Hij). cbn in H. rewrite Eab in H.
      by destruct (cmp_lt_irrefl compareKeys (eKey (loaded_entry threshold b))). }
    destruct (Nat.lt_trichotomy i j) as [H|[H|H]]; [by destruct (Hlt i j kv kv' H Hi Hj)|done|by destruct (Hlt j i kv' kv H Hj Hi)].
  - apply Forall_forall. intros e (kv & (k & Hk & Hx & Hkv) & ->)%HE. destruct (dumped_keys k kv Hk Hkv) as [_ (v & -> & _)].
    apply KeyWithTs_has_ts.
Qed.

Lemma restored_versions k ts' : k <> [] -> ts <= ts' -> ts' <= MaxUint64 -> versions k ts' (restored tov E) = dump (of_key k every).
Proof using Hsrc HE.
  intros Hk Hle Hmax. destruct E_one as [H1 Ht]. destruct (restored_elem tov E Ht H1) as [[_ Hso] Hel].
  destruct (dump_sorted vlog_read now threshold tov k _ Hk (every_run ts stopt vlog_read banned now es Hsrc k)) as [Hds _].
  apply (sorted_ext false); [by apply filter_sorted|done|]. intros x. unfold versions. rewrite list_elem_of_filter, Hel. split.
  - intros [[Ek _] (e & (kv & (k' & Hk' & Hx & Hkv) & ->)%HE & ->)]. destruct (dumped_keys k' kv Hk' Hkv) as [Hd (v & Ev & _)].
    cbn [stored fst] in Ek. rewrite Ev, ukey_KeyWithTs in Ek. by subst k'.
  - intros Hx. rewrite dump_map in Hx. apply list_elem_of_fmap in Hx as (kv & -> & Hkv).
    destruct (dumped_keys k kv Hk Hkv) as [_ (v & Ev & Hv)]. cbn [stored fst]. rewrite Ev, ukey_KeyWithTs, ParseTs_KeyWithTs by (done || lia).
    split; [split; [done|lia]|]. eexists. split; [|done]. apply HE. exists kv. split; [|done]. exists k. split; [done|]. split; [|done].
    destruct (of_key k every) as [|y l] eqn:Eo; [by apply elem_of_nil in Hkv|]. exists y.
    assert (y ∈ of_key k every) as Hy by (rewrite Eo; by left). apply list_elem_of_filter in Hy as [? ?]. done.
Qed.

Lemma restored_reads k ts' : k <> [] -> (forall x, x ∈ es -> ukey x.1 = k -> internal x.1 = false /\ ban stopt banned x.1 = false) ->
  ts <= ts' -> ts' <= MaxUint64 ->
  Forall2 (same_version vlog_read vlog_read2) (live now (versions k ts es)) (live now (versions k ts' (restored tov E))).
Proof using Hsrc Htov HE.
  intros Hk Hfree Hle Hmax. rewrite restored_versions by done. rewrite <- (every_versions ts stopt vlog_read banned now es Hsrc k Hfree).
  apply (live_dump _ _ _ _ _ Htov k); [done|]. by apply (every_run ts stopt vlog_read).
Qed.
End Reads.

(** ** Lemmas: what is handed over *)

(** The version that is returned is the greatest there is. *)
Lemma max_version_ok kvl m : (m <= max_version m kvl /\ Forall (fun kv => k_Version kv <= max_version m kvl) kvl) /\
  (max_version m kvl = m \/ exists kv, kv ∈ kvl /\ k_Version kv = max_version m kvl).
Proof.
  unfold max_version. revert m. induction kvl as [|kv kvl IH]; intros m; cbn [foldl]; [split; [split; [lia|constructor]|by left]|].
  set (m' := if bool_decide (m < k_Version kv) then _ else m). destruct (IH m') as [[H1 H2] H3].
  assert (m <= m' /\ k_Version kv <= m' /\ (m' = m \/ m' = k_Version kv)) as (H4 & H5 & H6) by (unfold m'; case_bool_decide; lia).
  split; [split; [lia|constructor; [lia|done]]|]. destruct H3 as [H3|(kv' & Hk & E)]; [|right; exists kv'; split; [by right|done]].
  destruct H6 as [E|E]; [left; congruence|right; exists kv; split; [by left|congruence]].
Qed.

Lemma backup_version `{KVListCodec} sent : forall st, (foldl backup_Send st sent).2 = max_version st.2 (concat sent).
Proof.
  induction sent as [|kvl sent IH]; intros st; [done|]. cbn [foldl concat]. rewrite IH. unfold max_version, backup_Send. cbn [snd].
  by rewrite foldl_app.
Qed.

Lemma loaded_StreamId threshold kv id : loaded_entry threshold (set_StreamId kv id) = loaded_entry threshold kv.
Proof. done. Qed.

(** What is dumped is no mark. *)
Lemma backup_kvs_done vlog_read now l kv : kv ∈ backup_kvs vlog_read now l -> k_StreamDone kv = false.
Proof.
  unfold backup_kvs. intros (kvs & (x & -> & _)%list_elem_of_fmap & [->|Hkv]%elem_of_cons)%elem_of_concat; [done|].
  destruct (discards x); [by apply list_elem_of_singleton in Hkv as ->|by apply elem_of_nil in Hkv].
Qed.

Lemma inline_restores vlog_read2 e :
  restores vlog_read2 e (mkVS (clear_bit (emeta e) bitValuePointer) (eUserMeta e) (eExpiresAt e) (eValue e) 0).
Proof.
  split; cbn [Meta UserMeta ExpiresAt]; [|by rewrite has_clear_bit by (unfold meta_bits; set_solver)..|done|done].
  unfold entry_value, decoded. cbn [Meta Value]. by rewrite has_clear_bit by (unfold meta_bits; set_solver).
Qed.

(** What the write path puts into the memtable for an entry reads back as the entry. *)
Lemma lsm_restores vlog_read2 threshold e p :
  ((skipVlogAndSetThreshold e threshold).1 = false -> vp_wf p /\ vlog_read2 p = Ok (vbytes (eValue e))) ->
  restores vlog_read2 e (lsm_value threshold e p).
Proof.
  intros Hp. destruct (stick_fields e threshold) as (_ & E2 & _ & _ & _ & E6). split.
  - unfold lsm_value. unfold skipVlogAndSetThreshold in *. cbn [fst] in Hp. rewrite E2 in *. unfold entry_value, decoded.
    destruct (bool_decide _); cbn [Meta Value vbytes default]; pose proof (proj1 known_bits) as Hv.
    + rewrite has_clear_bit, bool_decide_eq_true_2 by (unfold meta_bits; set_solver || done). done.
    + rewrite has_set_bit, bool_decide_eq_true_2 by (unfold meta_bits; set_solver || done). cbn [negb].
      destruct (Hp eq_refl) as [Hw Hr]. pose proof (vp_Decode_Encode p [] Hw) as Hd. rewrite app_nil_r in Hd.
      cbn. cbn in Hd. rewrite Hd. cbn. by rewrite Hr.
  - apply lsm_meta; [unfold meta_bits; set_solver|done].
  - apply lsm_meta; [unfold meta_bits; set_solver|done].
  - apply lsm_value_expires.
  - unfold lsm_value, skipVlogAndSetThreshold. destruct (bool_decide _); cbn [UserMeta]; unfold stick_threshold; by case_bool_decide.
Qed.

Lemma restored_ext tov tov' E : (forall e, e ∈ E -> tov e = tov' e) -> restored tov E = restored tov' E.
Proof.
  unfold restored. generalize (@nil kv). induction E as [|e E IH]; intros l He; [done|]. cbn [foldl].
  rewrite (He e) by (by left). apply IH. intros a Ha. apply He. by right.
Qed.

Section RoundTrip.
Context {S : Type} {I : YIterator S} (ts : Z) {L : YIteratorLaws S false (txn_seek false ts)} `{CL : KVListCodecLaws}.
Context (MemHash : bytes -> Z) (stopt topt : txn_opts) (vlog_read : valuePointer -> result vlog_error bytes).
Context (banned : gset Z) (now : Z) (es : list kv) (fuel steps : nat) (threshold : Z).
Context (block_keys : Table -> list bytes) (UncompressedSize : Table -> Z).

(** C20: A backup can be restored.  Whatever ranges the stream makes of the tables and memtables and
    whatever order they are read in by iterators at one timestamp, whatever order their buffers
    arrive in and however they are put together, the version that is returned is the greatest that was
    sent; the file that is written loads without an error, the timestamps go on above every version in it, and in the restored database every key has, at
    every timestamp from that of the snapshot on, the versions a reader of the snapshot sees, down
    to the first that is deleted or expired: the same versions with the same values, user meta and
    expiry, whether the writes left their values in the memtable or in the value log. *)
Theorem backup_restores levels mt imm MaxLevels numRanges :
  source_ok ts stopt vlog_read banned es -> keys_have_ts block_keys levels mt imm -> numRanges <> 0 ->
  (length es < fuel)%nat -> (2 * length es < steps)%nat -> 1 < maxBatchCount topt -> 0 < maxBatchSize topt ->
  exists rs, Ranges block_keys UncompressedSize MaxLevels [] numRanges levels mt imm = Some rs /\
  forall work, (fun w : keyRange * Z * Iterator S * Txn => w.1.1.1) <$> work ≡ₚ rs ->
    Forall (fun w : keyRange * Z * Iterator S * Txn => fresh (L := L) ts [] 0 es w.1.2) work ->
  exists kvss, backup_ranges MemHash stopt vlog_read banned now fuel 0 steps work = Some kvss /\
  forall buf_len doneMarkers MaxSize ready chan, (forall l, buf_len l = 0 -> l = []) ->
    chan ≡ₚ range_buffers buf_len doneMarkers ((fun w : keyRange * Z * Iterator S * Txn => w.1.1.2) <$> work) kvss ->
  let sent := streamKVs buf_len (length chan) MaxSize ready chan in
  let '(file, maxVersion) := backup_file sent in
  (Forall (fun kv => k_Version kv <= maxVersion) (concat sent) /\
    (maxVersion = 0 \/ exists kv, kv ∈ concat sent /\ k_Version kv = maxVersion)) /\
  (Forall fits_file (not_done <$> sent) -> Forall (loads topt threshold) (concat (not_done <$> sent)) ->
  forall n, exists batches n', Load topt threshold false n file = Ok (batches, n', u64 (n' - 1)) /\
    n <= n' /\ Forall (fun kv => k_Version kv < n') (concat (not_done <$> sent)) /\
    forall place vlog_read2, (forall e, e ∈ concat batches -> (skipVlogAndSetThreshold e threshold).1 = false ->
      vp_wf (place e) /\ vlog_read2 (place e) = Ok (vbytes (eValue e))) ->
    let written e := lsm_value threshold e (place e) in
    forall k ts', k <> [] -> (forall x, x ∈ es -> ukey x.1 = k -> internal x.1 = false /\ ban stopt banned x.1 = false) ->
      ts <= ts' -> ts' <= MaxUint64 ->
      Forall2 (same_version vlog_read vlog_read2) (live now (versions k ts es)) (live now (versions k ts' (restored written (concat batches))))).
Proof.
  intros Hsrc Hkt Hnr Hfuel Hsteps Hcount Hsize.
  destruct (Ranges_ok block_keys UncompressedSize levels mt imm MaxLevels [] numRanges Hkt Hnr) as (rs & Er & Hrs & _).
  exists rs. split; [done|]. intros work Hwp Hw.
  destruct (backup_ranges_ok ts MemHash stopt vlog_read banned now es Hsrc fuel steps Hfuel Hsteps work rs Hrs Hwp Hw) as (kvss & Ek & H1 & H2).
  exists kvss. split; [done|]. intros buf_len dm MaxSize ready chan Hlen Hchan sent.
  assert (concat sent ≡ₚ concat kvss ++ concat (done_marker dm <$> ((fun w : keyRange * Z * Iterator S * Txn => w.1.1.2) <$> work))) as Hperm
    by (apply sent_perm; [done|rewrite length_fmap; by apply length_mapM in Ek|done]).
  assert (forall kv, kv ∈ concat (not_done <$> sent) <-> kv ∈ concat kvss) as Hsent.
  { intros kv. unfold not_done. rewrite filter_concat_map, Hperm, filter_app, filter_marks, app_nil_r by (intros kv' E [E2 _]; congruence).
    rewrite list_elem_of_filter. split; [by intros [_ ?]|]. intros Hkv. split; [|done]. destruct (H1 kv Hkv) as (kv0 & id & -> & (k & _ & _ & Hb)).
    by apply backup_kvs_done in Hb. }
  pose proof (backup_file_bytes sent ([], 0)) as Ebytes. pose proof (backup_version sent ([], 0)) as Ever.
  fold (backup_file sent) in Ebytes, Ever. destruct (backup_file sent) as [file maxVersion]. cbn [fst snd app] in Ebytes, Ever. subst file maxVersion.
  split. { destruct (max_version_ok (concat sent) 0) as [[_ ?] ?]. done. }
  intros Hfit Hld n. destruct (Load_ok topt threshold Hcount Hsize (not_done <$> sent) n Hfit Hld) as (batches & n' & -> & Eb & Hn & Hv).
  exists batches, n'. split; [done|]. split; [done|]. split; [done|]. intros place vlog_read2 Hplace written k ts' Hk Hfree Hle Hmax.
  set (inline := fun e => mkVS (clear_bit (emeta e) bitValuePointer) (eUserMeta e) (eExpiresAt e) (eValue e) 0).
  set (tov := fun e => if decide (e ∈ concat batches) then written e else inline e).
  assert (forall e, restores vlog_read2 e (tov e)) as Htov.
  { intros e. unfold tov. destruct (decide _) as [Hin|]; [by apply lsm_restores, Hplace|]. apply inline_restores. }
  rewrite (restored_ext written tov) by (intros e He; unfold tov; by rewrite decide_True).
  apply (restored_reads ts stopt vlog_read vlog_read2 banned now es threshold tov Hsrc Htov); try done. rewrite Eb.
  intros e. rewrite list_elem_of_fmap. setoid_rewrite Hsent. split.
  - intros (kv & -> & (kv0 & id & -> & Hd)%H1). by exists kv0.
  - intros (kv0 & Hd & ->). destruct (H2 kv0 Hd) as (id & Hid). exists (set_StreamId kv0 id). by rewrite loaded_StreamId.
Qed.
End RoundTrip.

(** ** Examples *)

#[export] Instance KV_countable : Countable KV.
Proof.
  apply (inj_countable'
    (fun kv => (k_Key kv, k_Value kv, k_UserMeta kv, k_Version kv, (k_ExpiresAt kv, k_Meta kv, k_StreamId kv, k_StreamDone kv)))
    (fun '(k, v, u, n, (e, m, i, d)) => mkKVs k v u n e m i d)).
  abstract (by intros []).
Defined.

(** A concrete codec: the bits of stdpp's encoding. *)
#[export] Instance plain_kvlist : KVListCodec := {
  kvlist_Marshal l := pos_bits (encode l);
  kvlist_Unmarshal b := decode (bits_pos b)
}.

#[export] Instance plain_kvlist_laws : KVListCodecLaws.
Proof. split. intros l _. cbn. by rewrite bits_pos_bits, decode_encode. Qed.

Definition bx_kvss : list (list KV) :=
  default [] (backup_ranges be_decode Transaction.ex_opts no_vlog ∅ 0 10 0 20 stx_work).
Definition bx_chan : list (list KV) := reverse (range_buffers stx_len true [0; 1] bx_kvss).
Definition bx_sent : list (list KV) := streamKVs stx_len (length bx_chan) maxStreamSize [1%nat] bx_chan.
Definition bx_file : bytes * Z := backup_file bx_sent.
Definition bx_place (e : Entry) : valuePointer := mkVP 0 3 20.
Definition bx_vlog (vp : valuePointer) : result vlog_error bytes :=
  if bool_decide (vp = mkVP 0 3 20) then Ok [x02; x03; x04] else Err ErrInvalidRead.
Definition bx_loaded : list (list Entry) * Z * Z :=
  match Load Transaction.ex_opts 2 false 1 bx_file.1 with Ok x => x | _ => ([], 0, 0) end.
Definition bx_restored : list kv := restored (fun e => lsm_value 2 e (bx_place e)) (concat bx_loaded.1.1).

Lemma bx_source : source_ok 5 Transaction.ex_opts no_vlog ∅ stx_run.
Proof.
  split; [apply stx_ready|apply stx_sorted|unfold MaxUint64; lia|].
  assert (Forall (fun x : kv => 0 < ParseTs x.1) stx_run) as H.
  { apply (bool_decide_eq_true_1 (Forall (fun x : kv => 0 < ParseTs x.1) stx_run)). vm_compute. reflexivity. }
  intros x Hx. exact (proj1 (Forall_forall _ _) H x Hx).
Qed.

Definition bx_kept : list (list KV) := not_done <$> bx_sent.

Lemma bx_fits : Forall fits_file bx_kept /\ Forall (loads Transaction.ex_opts 2) (concat bx_kept).
Proof.
  split.
  - set (P := fun kv => is_u64 (k_Version kv) /\ is_u64 (k_ExpiresAt kv) /\ 0 <= k_StreamId kv < 2 ^ 32).
    apply (bool_decide_eq_true_1 (Forall (fun kvl => Forall P kvl /\ len (kvlist_Marshal kvl) <= maxAlloc) bx_kept)). vm_compute. reflexivity.
  - set (P := fun kv => esize (loaded_entry 2 kv) < maxBatchSize Transaction.ex_opts /\ 0 <= k_Version kv < MaxUint64).
    apply (bool_decide_eq_true_1 (Forall P (concat bx_kept))). vm_compute. reflexivity.
Qed.

Lemma bx_placed e : e ∈ concat bx_loaded.1.1 -> (skipVlogAndSetThreshold e 2).1 = false ->
  vp_wf (bx_place e) /\ bx_vlog (bx_place e) = Ok (vbytes (eValue e)).
Proof.
  intros He Hs. set (P := fun e => (skipVlogAndSetThreshold e 2).1 = false -> vbytes (eValue e) = [x02; x03; x04]).
  assert (Forall P (concat bx_loaded.1.1)) as HP
    by (apply (bool_decide_eq_true_1 (Forall P (concat bx_loaded.1.1))); vm_compute; reflexivity).
  rewrite (proj1 (Forall_forall _ _) HP e He Hs). split; [by repeat split|done].
Qed.

(** Two ranges, the second read first, their buffers the other way round; one value in the value
    log of the restored database. *)
Lemma backup_restores_witness : exists batches n',
  Load Transaction.ex_opts 2 false 1 bx_file.1 = Ok (batches, n', u64 (n' - 1)) /\ 4 < n' /\ bx_file.2 = 4 /\
  Forall (fun k => Forall2 (same_version no_vlog bx_vlog) (live 0 (versions k 5 stx_run)) (live 0 (versions k 9 bx_restored)))
    [[x61]; [x62]; [x63]] /\
  (fun k => value_of_kv bx_vlog <$> live 0 (versions k 9 bx_restored)) <$> [[x61]; [x62]; [x63]] = [[[x01]; [x02; x03; x04]]; []; [[x06]]].
Proof.
  destruct (backup_restores 5 (L := runIter_laws) be_decode Transaction.ex_opts Transaction.ex_opts no_vlog ∅ 0 stx_run 10 20 2
    (fun _ => []) (fun _ => 0) [] stx_run [] 7 8) as (rs & Er & H).
  - apply bx_source.
  - apply stx_keys.
  - done.
  - apply Nat.ltb_lt. vm_compute. reflexivity.
  - apply Nat.ltb_lt. vm_compute. reflexivity.
  - done.
  - done.
  - destruct (H stx_work) as (kvss & Ek & H2).
    + assert (rs = stx_ranges) as -> by (unfold stx_ranges; by rewrite Er). apply stx_work_ranges.
    + apply stx_work_fresh.
    + assert (kvss = bx_kvss) as -> by (unfold bx_kvss; by rewrite Ek).
      specialize (H2 stx_len true maxStreamSize [1%nat] bx_chan). cbv zeta in H2. fold bx_sent in H2. fold bx_file in H2.
      assert (bx_file = (bx_file.1, 4)) as Ef by (vm_compute; reflexivity).
      rewrite Ef in H2. destruct H2 as [_ H2].
      { intros [|kv l]; [done|]. unfold stx_len, len. simpl. lia. }
      { rewrite stx_work_ids. apply reverse_Permutation. }
      destruct (H2 (proj1 bx_fits) (proj2 bx_fits) 1) as (batches & n' & El & Hn & Hv & Hr).
      assert ((batches, n', u64 (n' - 1)) = bx_loaded) as Eb by (unfold bx_loaded; by rewrite El).
      assert (batches = bx_loaded.1.1) as -> by (by rewrite <- Eb). assert (n' = bx_loaded.1.2) as -> by (by rewrite <- Eb).
      exists bx_loaded.1.1, bx_loaded.1.2. split; [exact El|]. split; [by vm_compute|]. split; [by rewrite Ef|]. split; [|vm_compute; reflexivity].
      assert (forall k, k ∈ [[x61]; [x62]; [x63]] ->
        Forall2 (same_version no_vlog bx_vlog) (live 0 (versions k 5 stx_run)) (live 0 (versions k 9 bx_restored))) as Hall.
      { intros k Hk. apply (Hr bx_place bx_vlog); [exact bx_placed| | |done|unfold MaxUint64; lia].
        - intros ->. rewrite !elem_of_cons, elem_of_nil in Hk. by destruct Hk as [|[|[|]]].
        - set (P := fun x : kv => internal x.1 = false /\ ban Transaction.ex_opts ∅ x.1 = false).
          assert (Forall P stx_run) as HP by (apply (bool_decide_eq_true_1 (Forall P stx_run)); vm_compute; reflexivity).
          intros x Hx _. exact (proj1 (Forall_forall _ _) HP x Hx). }
      apply Forall_forall. exact Hall.
Defined.
