(* ===== verification/Findings.v ===== *)
(** * Findings: behaviours the model shows that the code does not mean to have

    Each theorem runs the definitions on a small store.  Three ways a compaction can bring a
    deleted key back.  Two: the check for older versions below ([checkOverlap]) looks only at levels
    under the one the tables go to, but older versions can be beside it (other tables of level
    0) or above it (when the base level moves down past a level that still has tables).  The third:
    garbage collection has put an old value of the value log above its deletion.  Two
    comparisons of a prefix with a whole key, whose last eight bytes are the timestamp.  And two
    cases where what an iterator shows is not what [Get] would: a key that is just a banned
    namespace, and a seek below the prefix.  And two ways an incremental backup misses a commit. *)

From Stdlib Require Import SpecFloat.
From S2P Require Import Prelude Keys Codec Bloom Checksum Block Manifest Tables TableFile TableBuild.
From S2P Require Import Watermark Oracle Encrypt LogFile Transaction ValueLog Iterator Snapshot.
From S2P Require Import Iterators LevelHandler Compaction Registry Subcompact Rewrite Wal VlogRecords WritePath Discard Gc Stream Backup.

Definition bug_opts : lsmOptions := mkLsmOptions 3 1000 10 10 10 1000 1 15 1.

(** Tables whose creation time and size the choice of tables looks at. *)
Definition bug_table (id sz : Z) (es : list kv) : Table :=
  mkTable id es sz 0 0 0 false 0 0 (NewFilter ((fun e => Hash (ParseKey e.1)) <$> es) 10).

Definition bug_del : list kv := [(KeyWithTs [x61] 9, rw_del)].
Definition bug_old : list kv := [(KeyWithTs [x61] 3, ex_vs x01)].
Definition bug_other (k : byte) : list kv := [(KeyWithTs [k] 5, ex_vs x02)].

Definition bug_cd : compactDef :=
  mkCD 0 (mkTargets 1 [1000; 1000; 1000] [1000; 1000; 1000]) (f64 0) 0 1 [] [] kr_empty kr_empty [] 0 [].

Definition bug_reads : list (Z * (bytes -> Z)) := [(10, fun _ => 100)].

(** What a reader at timestamp 10 sees of key [a], before and after the compaction. *)
Definition bug_get (levels : list levelHandler) : option (option ValueStruct) :=
  match db_get false false [] [] levels (KeyWithTs [x61] 10) with
  | Ok r => Some (visible 200 r)
  | _ => None
  end.

(** ** Level 0 into level 0 *)

(** An old, big table, which is left alone, and four small ones; the first deletes [a]. *)
Definition bug_l0 : levelsController :=
  mkLC [mkLevel 0 [bug_table 1 2000 bug_old; bug_table 2 10 bug_del; bug_table 3 10 (bug_other x62);
                   bug_table 4 10 (bug_other x63); bug_table 5 10 (bug_other x64)] 2040 0;
        newLevelHandler 1; newLevelHandler 2] (cs_init 3).

(** The four small tables are compacted, the deletion of [a] is dropped because no lower level
    has [a], and the value in the big table is back. *)
Theorem l0_compaction_resurrects : exists cd cs cd' new,
  fillTablesL0ToL0 bug_l0 (100 * second) bug_cd = Some (true, cd, cs) /\
  plan_splits cd = Some cd' /\ ID <$> top cd' = [2; 3; 4; 5] /\
  compactBuildTables bug_opts bug_l0 rw_be 0 cd' bug_reads [10; 11; 12] 0 = Ok new /\
  bug_get (lc_levels bug_l0) = Some None /\
  bug_get (swap_tables (lc_levels bug_l0) cd' new) = Some (Some (with_version (ex_vs x01) 3)).
Proof.
  do 4 eexists. split; [vm_compute; reflexivity|]. split; [vm_compute; reflexivity|].
  split; [vm_compute; reflexivity|]. split; [vm_compute; reflexivity|]. split; vm_compute; reflexivity.
Qed.

(** ** A base level below a level with tables *)

(** The last level has shrunk, so it is the base level again although level 1 has tables. *)
Definition bug_base : levelsController :=
  mkLC [mkLevel 0 [bug_table 2 10 bug_del] 10 0; mkLevel 1 [bug_table 1 10 bug_old] 10 0;
        mkLevel 2 [bug_table 3 10 (bug_other x68)] 10 0] (cs_init 3).

(** [levelTargets] chooses the last level as the base although level 1 is not empty; level 0
    goes under level 1, the deletion of [a] is dropped, and the value in level 1 is back. *)
Theorem base_level_skips_tables : exists t cd cs cd' new,
  levelTargets bug_opts bug_base = Some t /\ baseLevel t = 2%nat /\ level_size bug_base 1 = 10 /\
  fillTablesL0ToLbase bug_base
    (mkCD 0 t (f64 1) 0 (baseLevel t) [] [] kr_empty kr_empty [] 0 []) = Some (true, cd, cs) /\
  plan_splits cd = Some cd' /\
  compactBuildTables bug_opts bug_base rw_be 0 cd' bug_reads [10; 11; 12] 0 = Ok new /\
  bug_get (lc_levels bug_base) = Some None /\
  bug_get (swap_tables (lc_levels bug_base) cd' new) = Some (Some (with_version (ex_vs x01) 3)).
Proof.
  do 5 eexists. split; [vm_compute; reflexivity|]. split; [vm_compute; reflexivity|].
  split; [vm_compute; reflexivity|]. split; [vm_compute; reflexivity|]. split; [vm_compute; reflexivity|].
  split; [vm_compute; reflexivity|]. split; vm_compute; reflexivity.
Qed.

(** ** Prefixes compared with timestamps *)

(** A table with the keys [a], [ab] and [b] does not "contain" the prefix [ab]: the smallest key
    is followed by its timestamp, whose first bytes are 0xFF, so the prefix seems smaller. *)
Theorem containsPrefix_misses :
  let t := ex_table 1 [(KeyWithTs [x61] 5, ex_vs x01); (KeyWithTs [x61; x62] 5, ex_vs x01);
                        (KeyWithTs [x62] 5, ex_vs x01)] in
  table_ok t /\ containsPrefix t [x61; x62] = false.
Proof.
  split; [|vm_compute; reflexivity].
  apply ex_table_ok; [apply ex_run_ok; by vm_compute|discriminate|by vm_compute].
Qed.

(** Dropping the prefix [a 0xFF] drops the key [a]. *)
Theorem dropPrefix_matches_timestamp :
  hasAnyPrefixes (KeyWithTs [x61] 5) [[x61; xff]] = true /\ bytes_HasPrefix [x61] [x61; xff] = false.
Proof. split; vm_compute; reflexivity. Qed.

(** ** The order of level 0 *)

(** After a compaction of level 0 into itself the tables are sorted by their smallest keys, not
    by time: an old table with a large key is behind a newer one. *)
Theorem level0_not_by_time :
  ID <$> tables (replaceTables (mkLevel 0 [bug_table 1 10 (bug_other x7a); bug_table 2 10 (bug_other x62);
                                           bug_table 3 10 (bug_other x63)] 30 0)
                   [bug_table 2 10 (bug_other x62)] [bug_table 4 10 (bug_other x62)]) = [4; 3; 1].
Proof. vm_compute. reflexivity. Qed.

(** A key that is a namespace and nothing more is too short to be banned for [Get] and [Set]; the
    iterator asks about the key with its timestamp, which is long enough, and hides it. *)
Theorem namespace_key_hidden (opt : IteratorOptions) (ts : Z) (vs : ValueStruct) :
  let o := mkOpts 1000 100000 1000000 false false true false 0 in
  let key := be_encode 8 7 in
  isBanned o {[7]} key = Ok () /\ in_window o opt ts {[7]} (KeyWithTs key 5, vs) = false.
Proof.
  intros o key. split; [by vm_compute|]. unfold in_window. cbn [fst].
  assert (internal (KeyWithTs key 5) = false) as -> by (by vm_compute).
  assert (ban o {[7]} (KeyWithTs key 5) = true) as -> by (by vm_compute).
  by rewrite !andb_false_r.
Qed.

(** Seeking a key below the prefix: what is shown depends on which tables hold the keys.  A table
    with "a" and "b" is picked for the prefix "b" and ends the iteration at "a"; were "a" in a
    table of its own, it would not be picked and the iteration would go on to "b". *)
Theorem seek_below_prefix_by_layout :
  let opt := mkIOpts 2 false false false false false [x62] 0 in
  let o := mkOpts 1000 100000 1000000 false false true false (-1) in
  let a := (KeyWithTs [x61] 1, mkVS x00 x00 0 (Some [x01]) 0) in
  let b := (KeyWithTs [x62] 1, mkVS x00 x00 0 (Some [x02]) 0) in
  pickTable opt (ex_table 1 [a; b]) = Some true /\ Iterator.visible o opt 5 ∅ (fun _ => 0) [x61] [a; b] = [] /\
  pickTable opt (ex_table 2 [a]) = Some false /\ Iterator.visible o opt 5 ∅ (fun _ => 0) [x61] [b] = [b].
Proof. vm_compute. done. Qed.

(** ** A collected value over its deletion *)

(** Level 2 has [b@3], whose value is in file 1 of the value log; level 1 has its deletion [b@9].
    File 1 is to be collected. *)
Definition gc_levels : list levelHandler :=
  [newLevelHandler 0; mkLevel 1 [bug_table 2 10 [(KeyWithTs [x62] 9, rw_del)]] 10 0;
   mkLevel 2 [bug_table 1 10 (mt_sl (w_mt (db_w gx_db1)))] 10 0].

Definition gc_before : DB := mkDB (mkWriter wx_new [] [] 2) (db_vlog gx_db) gc_levels (db_discardStats gx_db).

Definition gc_compacted (db : DB) (cd : compactDef) (new : list Table) : DB :=
  mkDB (db_w db) (db_vlog db) (swap_tables (db_levels db) cd new) (db_discardStats db).

Definition gc_cd : compactDef :=
  mkCD 0 (mkTargets 1 [1000; 1000; 1000] [1000; 1000; 1000]) (f64 0) 1 2 [] [] kr_empty kr_empty [] 0 [].

Definition gc_collected : DB := (RunValueLogGC gx_env false gc_before gx_half).1.

Definition gc_tree : levelsController := mkLC (db_levels gc_collected) (cs_init 3).

(** What a reader at timestamp 10 gets for [b]. *)
Definition gc_shows (db : DB) : option (result vlog_error bytes) :=
  match gc_get db (KeyWithTs [x62] 10) with
  | Ok vs => if live 200 vs && bool_decide (0 < Version vs) then Some (read_value gx_env (db_vlog db) vs) else None
  | _ => None
  end.

(** [rewrite] asks for exactly the version it moves, finds [b@3] and writes it into the memtable,
    above its deletion.  The next compaction of level 1 into level 2 sees the deletion at the
    bottom and drops it with the old [b@3]; the moved one shows again. *)
Theorem gc_then_compaction_resurrects :
  (RunValueLogGC gx_env false gc_before gx_half).2 = Ok () /\ gc_shows gc_before = None /\ gc_shows gc_collected = None /\
  exists cd cs cd' new,
    fillTables bug_opts gc_tree 10 100 gc_cd = Some (true, cd, cs) /\ plan_splits cd = Some cd' /\
    compactBuildTables bug_opts gc_tree rw_be 0 cd' bug_reads [10; 11; 12] 0 = Ok new /\
    gc_shows (gc_compacted gc_collected cd' new) = Some (Ok (replicate 70 x62)).
Proof.
  split; [vm_compute; reflexivity|]. split; [vm_compute; reflexivity|]. split; [vm_compute; reflexivity|].
  do 4 eexists. split; [vm_compute; reflexivity|]. split; [vm_compute; reflexivity|]. split; [vm_compute; reflexivity|].
  vm_compute; reflexivity.
Qed.

(** ** Incremental backups *)

(** A backup in two ranges, the first of [stx_ranges] read at [ts1] and the second at [ts2]. *)
Definition inc_iter (since ts : Z) (es : list kv) : Iterator runIter :=
  mkIter (Some (open_run false es)) ts (stream_iopts [] since) None [] [] [] false 0.

Definition inc_backup (since ts1 ts2 : Z) (es : list kv) : option (list (bytes * Z) * Z) :=
  kvss ← backup_ranges be_decode Transaction.ex_opts no_vlog ∅ 0 20 since 40
    ((fun '(kr, ts) => (kr, 0, inc_iter since ts es, Transaction.ex_txn ts)) <$> zip stx_ranges [ts1; ts2]);
  let sent := streamKVs stx_len 10 maxStreamSize [] (range_buffers stx_len false [0; 0] kvss) in
  Some ((fun k => (k_Key k, k_Version k)) <$> concat sent, (backup_file sent).2).

(** A backup at timestamp 4 returns version 4; a commit then writes "d" at version 5.  The next
    backup, from 4 + 1 on, which should have all that is newer than or equal to 5, is empty; from 4
    on it has it. *)
Theorem backup_from_next_version_misses :
  let es := take 6 stx_run in
  let es' := es ++ [(KeyWithTs [x64] 5, stx_vs 0 [x08])] in
  snd <$> inc_backup 0 4 4 es = Some 4 /\ inc_backup (4 + 1) 9 9 es' = Some ([], 0) /\ inc_backup 4 9 9 es' = Some ([([x64], 5)], 5).
Proof. vm_compute. done. Qed.

(** One transaction commits "a" and "d" at version 6.  A goroutine that began at 5 reads the range
    of "a", one that began at 6 that of "d": half of the transaction is in the backup, which
    returns 6, and the next incremental backup has nothing of it. *)
Theorem backup_splits_transaction :
  let es := (KeyWithTs [x61] 6, stx_vs 0 [x11]) :: take 6 stx_run ++ [(KeyWithTs [x64] 6, stx_vs 0 [x12])] in
  (exists kvs, inc_backup 0 5 6 es = Some (kvs, 6) /\ ([x64], 6) ∈ kvs /\ ([x61], 6) ∉ kvs) /\
  inc_backup 6 9 9 es = Some ([], 0) /\ inc_backup 5 9 9 es = Some ([([x61], 6); ([x64], 6)], 6).
Proof.
  split; [|split; vm_compute; reflexivity]. eexists. split; [vm_compute; reflexivity|].
  split; [apply (bool_decide_eq_true_1 (([x64], 6) ∈ _))|apply (bool_decide_eq_false_1 (([x61], 6) ∈ _))]; vm_compute; reflexivity.
Qed.
